(* ===== verification/_CoqProject ===== *)
-Q . S2P
Prelude.v
GoLib.v
GoFloatBits.v
GoStrings.v
GoPath.v
Resp.v
Codec.v
StreamDs.v
Hll.v
Geo.v
Rdb.v
RdbExport.v
RdbSpec.v
Kv.v
Replication.v
ReplicaClient.v
Storage.v
Cmd.v
CmdString.v
CmdLcs.v
CmdHll.v
CmdBit.v
CmdBitSpec.v
CmdList.v
CmdListSpec.v
Pattern.v
CmdKeys.v
CmdKeysSpec.v
CmdDump.v
CmdSave.v
CmdSaveSpec.v
CmdHash.v
CmdHashSpec.v
CmdSet.v
CmdSetSpec.v
CmdZSet.v
CmdZSetOps.v
CmdZSetSpec.v
CmdGeo.v
CmdGeoSpec.v
CmdVector.v
CmdVectorSpec.v
LuaValue.v
LuaBit.v
LuaStruct.v
LuaMsgpack.v
LuaMsgpackSpec.v
LuaCjson.v
LuaCjsonSpec.v
CmdSort.v
CmdStream.v
CmdStreamGroup.v
CmdStreamSpec.v
Acl.v
Router.v
Arity.v
Conn.v
CmdAcl.v
Tracking.v
TrackingSpec.v
Txn.v
Pubsub.v
Cluster.v
ClusterCmd.v
ClusterSpec.v
Sentinel.v
SentinelCmd.v
SentinelSpec.v
CmdMigrate.v
CmdRepl.v
CmdReplSpec.v
Notify.v
CmdServer.v
CmdMonitor.v
CmdServerSpec.v
