(* ===== verification/Prelude.v ===== *)
(** * Gedis: a verification library

    Gedis is a Redis-compatible server written in Go.  A connection delivers
    RESP frames (internal/protocol), the router dispatches them to command
    handlers (internal/commands), the handlers read and write typed entries
    (internal/datastruct) through the Store interface, which the Pebble engine
    implements (internal/storage); the engine publishes each change to the
    replication hub (internal/replication), from which replicas follow.  In
    cluster mode every command first passes the slot gate (internal/cluster).

    This library models those parts as executable definitions that follow the
    Go functions one by one, keeping their names, and proves what makes each
    of them correct.

    ** Files

    - Prelude: byte strings, machine integers with their wrap-around ([i64],
      [u64]), the result type of fallible code (a value, an error, or a
      run-time panic), its notation [let?], generic lemmas and tactics.
    - GoLib, GoStrings: what the program uses of Go's standard library:
      strconv (ParseInt, FormatInt), encoding/binary (uvarints, big endian),
      make and its run-time limits, bounded reading loops; strings (Cut, Split,
      HasPrefix, EqualFold through a table of Unicode folds), sort.Strings.
    - GoPath: path.Match with utf8.DecodeRune.  GoFloatBits: conversions between
      float64, float32 and integers, exact on the bit patterns.
    - Resp: internal/protocol.  [Value] has the constructors of the Go kinds;
      [Append] writes, [Decode] reads.
    - Codec (module datastruct): the storage encodings of internal/datastruct:
      string entries with expiry, lists, hashes, sets, sorted sets and vectors,
      and the storage keys of each type.
    - StreamDs (module stream): stream ids, entries, consumer groups, pending
      lists and their encoding (internal/datastruct/stream*.go).
    - Hll (module hll): HyperLogLog registers (internal/datastruct/hll.go);
      CmdHll (module hllcmd): PFADD, PFCOUNT, PFMERGE, the collections they
      implement and the theorem.
    - Rdb (module rdb), RdbExport (module rdbexport): reading and writing Redis
      RDB files (internal/rdb: encoding.go, pack.go, stream.go, rdb.go;
      export.go); RdbSpec (module rdbspec): what a file keeps.
    - Geo (module geo): geohash scores and distances (internal/datastruct/geo.go);
      CmdGeo (module geocmd): the geo commands (geo.go, geo_search.go); CmdGeoSpec
      (module geospec): what a search answers.
    - CmdVector (module vectorcmd): the vector set commands (vector.go);
      CmdVectorSpec (module vectorspec): the maps they implement.
    - LuaValue: Lua values, the heap of tables, the errors of the script
      libraries (lua_liberr.go).  LuaBit, LuaStruct, LuaMsgpack, LuaCjson (modules
      luabit, luastruct, luamsgpack, luacjson): the libraries bit, struct,
      cmsgpack and cjson (lua_bit.go, lua_struct.go, lua_cmsgpack.go, cjson.go);
      LuaMsgpackSpec, LuaCjsonSpec (modules msgpackspec, cjsonspec): termination
      and round trips.
    - Kv: the Store interface as a class, its laws, and the finite map that is
      its abstract specification.
    - Replication (module replication): the backlog, the hub with its
      subscriber channels, the full-transfer payload (internal/replication).
    - ReplicaClient (module replica): the operation frames and the replica's
      session (client.go).
    - Storage (module storage): the Pebble engine: tracking of key sizes,
      eviction, reads, writes, deletes, scans, batches.
    - Cmd: the state and error monad the handlers run in (store, clock,
      keyspace notifications), key lookup with passive expiry, and the notion
      of two stores giving the same runs ([sim]).
    - CmdString: the string commands (string.go, string_extra.go,
      string_incr.go, string_multi.go).
    - CmdLcs (module lcscmd): LCS (lcs.go) and longest common subsequences.
    - CmdSave (module savecmd): SAVE and BGSAVE (save.go), the import of a file
      (internal/rdb/import.go) and its start-up guard (cmd/gedis/load_rdb.go);
      CmdSaveSpec (module savespec): databases saved and loaded.  CmdDump
      (module dumpcmd): DUMP and RESTORE.
    - CmdList (module listcmd): the list commands (list.go, list_mod.go,
      list_block.go), blocking ones included; CmdListSpec (module listspec):
      the reference operations on lists and the theorems.
    - Pattern (module pattern): the glob matcher of pattern.go.
    - CmdKeys (module keycmd): expiry, TYPE, KEYS, SCAN, COPY, RENAME and the
      expiry sweep (expire.go, keyspace.go, expiry.go, scan.go, generic.go);
      CmdKeysSpec (module keyspec): the theorems.
    - CmdHash, CmdSet, CmdZSet with CmdZSetOps, CmdStream with CmdStreamGroup,
      CmdBit (modules hashcmd, setcmd, zsetcmd, zsetops, streamcmd,
      streamgroup, bitcmd): the handlers of hash*.go, set*.go, zset*.go,
      stream*.go and bit*.go, blocking ones included; CmdHashSpec, CmdSetSpec,
      CmdZSetSpec, CmdStreamSpec, CmdBitSpec: the abstract data each of them
      implements and the theorems.
    - Router (module network): internal/network: interceptors, the permission
      check, the read-only guard, the handler table, the statistics and the
      slow log.  Arity: the table of arity.go.
    - Txn (module txn): MULTI, EXEC, DISCARD, WATCH and UNWATCH (txn.go,
      userkey.go) over any router.
    - Pubsub (module pubsub): pubsub.go: the registry of subscriptions, the
      subscribed mode, publishers and senders.
    - Acl (module acl): internal/acl: users, rules, the permission check, key
      extraction, the refusal log and the ACL file; CmdAcl (module aclcmd): the
      ACL command (acl_cmd.go).
    - Conn (module conn): the registry of connections, AUTH, HELLO and CLIENT
      (conn.go, auth.go); Tracking (module tracking): client-side caching
      (tracking.go, tracking_push.go); TrackingSpec (module track_spec): its
      theorems.  Notify (module notify): keyspace notifications (notify.go).
    - CmdServer, CmdMonitor (server.go, monitor.go): CONFIG, INFO, DBSIZE,
      FLUSHALL, COMMAND, SLOWLOG, MONITOR and their kin; CmdServerSpec (module
      server_spec): the theorems.
    - CmdSort (module sortcmd): SORT (generic.go).
    - CmdMigrate (module migratecmd): MIGRATE (migrate.go).
    - CmdRepl (module replcmd): PSYNC, REPLCONF, WAIT, REPLICAOF and the senders
      (commands/replication.go), interleaved with other connections;
      CmdReplSpec (module repl_spec): the theorems.
    - Cluster (module cluster): the slot function, slot ranges, the topology
      and its administrative operations, key extraction, routing; ClusterCmd
      (module cluster_cmd): the snapshot file (internal/cluster/snapshot.go),
      the ASKING flags and the CLUSTER command; ClusterSpec (module
      cluster_spec): what a restart restores.
    - Sentinel (module sentinel): internal/sentinel and the ticks of
      cmd/gedis/sentinel_auto.go: registry, probes, votes, selection, hellos;
      SentinelCmd (module sentinelcmd): the SENTINEL command; SentinelSpec
      (module sentinelspec): any number of sentinels and the theorems.

    ** State and parameters

    Mutable Go structures are records passed explicitly.  The hub's channels
    are bounded queues that can be closed; the goroutines that publish and
    subscribe are the step relations [sub_step], [fan_step] and [serial_step]
    of Replication.  Go's iteration order over maps, the clock and the random
    generator are parameters of the definitions that use them (classes
    GoWorld, Clock, AppClock, MapRand, SessionRange, RegistryRange), as are the
    Pebble library (class PebbleDB with the laws PebbleLaws of an ordered
    store), Unicode tables, SHA-1, SHA-256, the replies of other servers (class
    Wire), strconv.Quote (class GoQuote), the arithmetic of float64 (classes
    GoFloatArith, GoFloatMul, GoFloatMath, GoFloatGeo) and its conversion to text
    (GoFloat, GoFloatGP, GoFloatParse), and the tables of the Lua interpreter (class
    LuaTable with the laws LuaTableLaws of getting, setting and traversing).  The
    file system is a map from path to content.  The router's state is
    the record of all other components ([A] in Router, [B] in Txn) and its
    user table is seen through the class AuthorizerStore.  Publishers, senders
    and closing connections interleave in [pstep] of Pubsub.  A blocked list,
    sorted-set or stream command is driven by the sequence of its wake-ups: each tells whether the poll timer fired, with
    what other clients did to the world meanwhile, or the client was
    cancelled.  Each such class has a concrete instance on
    which the theorems are run.

    ** Theorems

    - Wire format: [Decode_Append] (whatever is written is read back, with any
      bytes behind it), [Decode_fuel] (the recursion bound, one more than the
      number of bytes, never decides), [Decode_array_header_panics].
    - Encodings: [entry_roundtrip], [aggregates_roundtrip],
      [vector_roundtrip], [stream_roundtrip], [stream_id_roundtrip],
      [rdb_roundtrip]; [encoding_deterministic] (map order does not show),
      [storage_keys_injective]; [pel_is_sorted_map] and
      [ensure_consumer_spec] for consumer groups.
    - Engine: [account_invariant] (the tracked sizes are those of the stored
      keys), [set_outcome] (both outcomes of Set in full), [set_within_limit],
      [victim_by_policy], [published_mirrors_view] (the published operations
      replayed on the old content give the new content),
      [engine_refines_map] (on any sequence of operations the engine answers
      like a finite map), and two runs where a limit or an order is not kept:
      [overwrite_exceeds_limit], [batch_published_out_of_order].
    - Replication: [backlog_since_exact], [fan_out_no_gap],
      [serial_replica_converges], with [concurrent_publishers_diverge] as the
      limit of the latter; [partial_sync] and [full_sync] for a whole session
      of the replica, [failed_transfer_keeps_offset];
      [full_resync_converges] (the master's side of a full transfer while
      others write) and [wait_answers], with
      [announced_offset_skips_operation], [full_resync_drops_field_expiries]
      and [early_operation_ends_session].
    - [lcs_exact]: LCS answers a longest common subsequence.
    - String commands: [string_commands_simulate] (every handler behaves the
      same over the engine and over the finite map), and on the finite map
      [set_then_get], [incrby_exact], [incr_sequence_is_sum],
      [setrange_getrange], with the unintended behaviours
      [expired_string_deletes_stream], [set_lowercase_ex_is_dropped],
      [setrange_huge_offset_panics], [setex_keeps_other_type].
    - List commands: [list_handlers_simulate]; [list_commands_refine] (any
      sequence of commands on a key is the same sequence on a plain list),
      [lmove_moves], [blpop_served], [blocked_gauge_balanced], with
      [lmove_same_key_duplicates], [lrem_min_count_removes_nothing] and
      [blmove_empty_element_moves_on].
    - Hashes, sets, sorted sets, streams, bits: [hash_commands_refine] (field
      expiries included), [set_commands_refine], [spop_takes],
      [zset_commands_refine] (ranks by counting, ranges by the order of the
      scores), [zset_algebra_pointwise], [stream_commands_keep_wf],
      [group_is_queue] (every entry is read by one consumer of the group and
      held until it is acknowledged), [bit_commands_refine],
      [bitfield_incrby_exact], [bitop_bitwise], [findBit_first]; with the runs
      [hrandfield_empty_panics], [hscan_huge_count_panics],
      [swept_hash_leaves_ghost], [expired_fields_leave_key],
      [store_keeps_other_type], [inverted_infinities],
      [limit_overflow_panics], [zset_numkeys_panics],
      [zrandmember_count_panics], [xclaim_deleted_panics],
      [xsetid_repeats_id], [xreadgroup_twice_delivers_twice],
      [bitpos_start_wraps] and [bitfield_min_increment_missed].
    - Router, transactions, publish/subscribe: [dispatch_admission],
      [chain_tries_in_order], [slowlog_keeps_latest]; [exec_runs_queue],
      [exec_refuses_spoilt], [watch_abort_exact], [exec_nesting], with
      [watch_queues_without_multi], [watch_misses_vectors] and
      [exec_not_isolated]; [registry_invariant], [publish_exact], with
      [publish_races_unsubscribe].
    - Keys: [key_handlers_simulate]; [pexpireat_exact], [sweep_exact],
      [scan_complete], [rename_moves], with
      [rename_stream_deletes_destination], [rename_hash_drops_field_expiry],
      [scan_huge_count_panics], [expire_past_ignores_condition],
      [copy_replace_keeps_stream] and [keys_star_misses_slash];
      [matchPattern_matches] for the glob matcher.
    - [sort_exact]: SORT answers the selected part of the list, ordered
      stably, with [sort_limit_overflow_panics], [sort_store_empty_exists] and
      [sort_by_arrow_in_element].
    - Access control: [acl_check_exact], [aclfile_roundtrip], [log_bounded],
      [dryrun_predicts_gate] (DRYRUN and the router's gate agree),
      [load_restores], with [requirepass_denies_keys],
      [deleted_user_check_panics], [saved_selector_unloadable],
      [setuser_replaces], [deluser_partial] and [load_partial].
    - Client-side caching: [tracking_invariant] (both directions of the table
      mirror each other), [tracked_read_is_invalidated],
      [change_notifies_watchers].  [notifications_follow_letters] for the
      letters of notify-keyspace-events.
    - Server: [flushall_empties], [dbsize_counts_live],
      [config_set_then_get], with [flushall_leaves_field_expiries].
    - Migration: [migrate_never_loses] (whatever the target does),
      [migrate_moves] (to an instance of this program), with
      [last_millisecond_becomes_forever] and [migrate_leaves_field_expiries].
    - Sketches: [hll_commands_refine] (any sequence of commands keeps each
      key's registers those of the one sketch of its collection).
    - Files: [load_export] (Load reads back what Export wrote),
      [save_then_load] (a saved database is loaded into an empty store),
      [save_is_atomic], [dump_restore_copies], with [hyll_text_blocks_load],
      [far_expiry_dropped], [unknown_counter_becomes_known],
      [vectors_not_saved], [huge_lzf_panics] and [replace_keeps_stream].
    - Geo: [geo_handlers_simulate], [geo_score_keeps_cell], [geosearch_exact] (the
      hits are the nearest members of the area), with [georadius_ro_writes],
      [storedist_member_is_lost], [geohash_eleven], [nan_is_in_range],
      [eastern_edge_needs_54_bits].
    - Vectors: [vector_handlers_simulate], [vector_commands_refine],
      [vsim_most_similar], with [vrem_leaves_empty_set],
      [vrandmember_empty_panics], [vrandmember_huge_panics] and
      [vadd_drops_expiry].
    - Script libraries: [rol_ror]; [struct_roundtrip], with
      [unpack_huge_width_panics] and [size_overflows]; [unpack_terminates],
      [msgpack_roundtrip]; [settings_stay_ok], [decode_terminates],
      [cjson_roundtrip], with [surrogate_pair_refused] and [huge_key_lost].
    - Sentinel: [one_leader_per_epoch], [select_best], [auto_switch_safe],
      [query_peer_wire], [hello_roundtrip], [upsert_keeps_newest], with
      [stale_hello_reverts_switch], [seeded_peer_counted_twice] and
      [largest_epoch_ends_elections].
    - Cluster: [slot_of_tag], [build_ownership], [topology_invariant],
      [route_serves_owned], [restart_restores] (the snapshot file brings back
      what SETSLOT reached), [asking_is_one_shot], and the gaps
      [numkeys_overflow_panics], [eval_keys_not_routed],
      [reports_are_static], [unsaved_change_stays], [zero_count_lists_one] and
      [countkeysinslot_refuses_slot].

    ** Bounds

    Loops over an announced count run at most one iteration more than there
    are bytes left, since each iteration consumes a byte; the decoder's depth
    is bounded by the input's length for the same reason, and the theorems
    state that a larger bound changes nothing.  The eviction loop is bounded
    by the number of tracked keys: each pass removes one.  The replica's
    frame loop is bounded by the bytes of the stream.  A blocked command runs
    once per wake-up it is given and answers None when they are used up.  The
    glob matcher is bounded by a measure that its backtracking decreases.
    Loops over options run at most once per argument.  EXEC may replay EXEC:
    the nesting has a bound, and [exec_nesting] shows that it never decides.
    The loops over the opcodes, listpack entries and stream records of a file
    are bounded by its bytes and records; the two loops of the estimator of
    PFCOUNT run until a fixpoint of float arithmetic, within a number of
    iterations that is an argument.  The decoders of cmsgpack and cjson are
    bounded by the bytes of their input ([unpack_terminates],
    [decode_terminates]), their encoders by the nesting limits of the code.

    ** Not modelled

    Sockets, files, TLS, metrics and process start-up are I/O.  Lua scripts
    and functions (lua.go, function.go) run in a third-party interpreter; what
    they call of the libraries above is modelled. *)

From stdpp Require Export base list gmap strings sorting.
From Stdlib Require Export ZArith Ascii Lia.

(** ** Bytes, strings and machine integers

    A Go [string] or [[]byte] is a list of 8-bit characters; [len] is Go's
    [len].  Integers are [Z] kept in the range of their Go type by the
    wrap-around functions below. *)

Abbreviation bytes := (list ascii).

Declare Scope gedis_scope.
Delimit Scope gedis_scope with gedis.

(** String literals of the source. *)
Definition lit (s : string) : bytes := String.list_ascii_of_string s.
Arguments lit _%_string_scope : simpl never.

Definition byte_val (c : ascii) : Z := Z.of_N (N_of_ascii c).
Definition byte_of (z : Z) : ascii := ascii_of_N (Z.to_N (z mod 256)).

Definition len {A} (l : list A) : Z := Z.of_nat (length l).

Definition u8 (z : Z) : Z := (z mod 2 ^ 8)%Z.
Definition u16 (z : Z) : Z := (z mod 2 ^ 16)%Z.
Definition u32 (z : Z) : Z := (z mod 2 ^ 32)%Z.
Definition u64 (z : Z) : Z := (z mod 2 ^ 64)%Z.
Definition i64 (z : Z) : Z := ((z + 2 ^ 63) mod 2 ^ 64 - 2 ^ 63)%Z.

Definition is_u64 (z : Z) : Prop := (0 <= z < 2 ^ 64)%Z.
Definition is_i64 (z : Z) : Prop := (- 2 ^ 63 <= z < 2 ^ 63)%Z.

Definition maxInt64 : Z := (2 ^ 63 - 1)%Z.
Definition minInt64 : Z := (- 2 ^ 63)%Z.

(** ** Errors

    Go errors as values: the sentinel errors that callers compare by identity
    are constructors, every other error carries its message.  [Panic] is a
    run-time panic (nil dereference, slice out of range). *)

Inductive goerr : Type :=
| ENotFound                (* storage.ErrNotFound *)
| EOOM                     (* storage.ErrOOM *)
| EStaleOffset             (* replication.ErrStaleOffset *)
| EUnknownMaster           (* sentinel.ErrUnknownMaster *)
| ENoHealthySlave          (* sentinel.ErrNoHealthySlave *)
| EMsg (m : bytes).

#[export] Instance goerr_eq_dec : EqDecision goerr.
Proof. solve_decision. Defined.

(** [err.Error()] *)
Definition err_text (e : goerr) : bytes :=
  match e with
  | ENotFound => lit "storage: key not found"
  | EOOM => lit "OOM command not allowed when used memory > 'maxmemory'"
  | EStaleOffset => lit "replication: offset out of backlog range"
  | EUnknownMaster => lit "sentinel: unknown master"
  | ENoHealthySlave => lit "sentinel: no healthy slave"
  | EMsg m => m
  end.

Inductive result (A : Type) : Type :=
| Ok (a : A)
| Err (e : goerr)
| Panic.
Arguments Ok {A} _.
Arguments Err {A} _.
Arguments Panic {A}.

Lemma Ok_inj {A} (a b : A) : Ok a = Ok b -> a = b.
Proof. congruence. Qed.

Definition res_bind {A B} (r : result A) (k : A -> result B) : result B :=
  match r with
  | Ok a => k a
  | Err e => Err e
  | Panic => Panic
  end.

Notation "'let?' x := r 'in' k" := (res_bind r (fun x => k))
  (at level 10, x pattern, r at level 100, k at level 200) : gedis_scope.

(** [errors.New] / [fmt.Errorf] with a constant text. *)
Definition fail {A} (s : string) : result A := Err (EMsg (lit s)).
Arguments fail {A} _%_string_scope.

(** ** Tactics and hint databases *)

Create HintDb gedis discriminated.
Create Rewrite HintDb gedis_rw.

(** Case analysis on the next [match] or [if] of the goal, keeping the equation. *)
Ltac case_goal :=
  match goal with
  | |- context [match ?x with _ => _ end] => destruct x eqn:?
  end.

(** Invert a successful chain of [let?]. *)
Ltac res_inv :=
  repeat (match goal with
  | H : res_bind ?r _ = Ok _ |- _ =>
      let E := fresh "E" in
      destruct r as [?|?|] eqn:E; cbn [res_bind] in H; [|discriminate H..]
  | H : Err _ = Ok _ |- _ => discriminate H
  | H : Panic = Ok _ |- _ => discriminate H
  | H : fail _ = Ok _ |- _ => discriminate H
  | H : Ok _ = Ok _ |- _ => apply Ok_inj in H
  | H : context [let (_, _) := ?p in _] |- _ => is_var p; destruct p
  | H : context [match ?p with (_, _) => _ end] |- _ => is_var p; destruct p
  end; subst).

(** Turn boolean comparisons on [Z] and [nat] in the context into arithmetic. *)
Ltac breflect :=
  repeat match goal with
  | H : (_ =? _)%Z = true |- _ => apply Z.eqb_eq in H
  | H : (_ =? _)%Z = false |- _ => apply Z.eqb_neq in H
  | H : (_ <? _)%Z = true |- _ => apply Z.ltb_lt in H
  | H : (_ <? _)%Z = false |- _ => apply Z.ltb_ge in H
  | H : (_ <=? _)%Z = true |- _ => apply Z.leb_le in H
  | H : (_ <=? _)%Z = false |- _ => apply Z.leb_gt in H
  | H : bool_decide _ = true |- _ => apply bool_decide_eq_true_1 in H
  | H : bool_decide _ = false |- _ => apply bool_decide_eq_false_1 in H
  | H : (_ && _)%bool = true |- _ => apply andb_true_iff in H; destruct H
  | H : (_ || _)%bool = false |- _ => apply orb_false_iff in H; destruct H
  | H : negb _ = true |- _ => apply negb_true_iff in H
  | H : negb _ = false |- _ => apply negb_false_iff in H
  end.

(** Rewrite the decision of a [Z] comparison of the goal that [lia] settles. *)
Ltac zdec :=
  repeat match goal with
  | |- context [(?a =? ?b)%Z] =>
      first [ rewrite (proj2 (Z.eqb_eq a b)) by lia
            | rewrite (proj2 (Z.eqb_neq a b)) by lia ]
  | |- context [(?a <? ?b)%Z] =>
      first [ rewrite (proj2 (Z.ltb_lt a b)) by lia
            | rewrite (proj2 (Z.ltb_ge a b)) by lia ]
  | |- context [(?a <=? ?b)%Z] =>
      first [ rewrite (proj2 (Z.leb_le a b)) by lia
            | rewrite (proj2 (Z.leb_gt a b)) by lia ]
  end.

(** ** Generic lemmas *)

Lemma byte_val_range c : (0 <= byte_val c < 256)%Z.
Proof. unfold byte_val. pose proof (N_ascii_bounded c). lia. Qed.

Lemma byte_of_val c : byte_of (byte_val c) = c.
Proof.
  unfold byte_of. pose proof (byte_val_range c).
  rewrite Z.mod_small by lia. unfold byte_val.
  rewrite N2Z.id. apply ascii_N_embedding.
Qed.

Lemma byte_val_of z : byte_val (byte_of z) = (z mod 256)%Z.
Proof.
  unfold byte_val, byte_of.
  pose proof (Z.mod_pos_bound z 256 ltac:(lia)).
  rewrite N_ascii_embedding; lia.
Qed.

Lemma byte_val_of_small z : (0 <= z < 256)%Z -> byte_val (byte_of z) = z.
Proof. intros. rewrite byte_val_of. apply Z.mod_small. lia. Qed.

Lemma byte_val_inj c d : byte_val c = byte_val d -> c = d.
Proof. intros H. rewrite <- (byte_of_val c), <- (byte_of_val d), H. done. Qed.

Lemma len_nonneg {A} (l : list A) : (0 <= len l)%Z.
Proof. unfold len. lia. Qed.

Lemma len_app {A} (l k : list A) : len (l ++ k) = (len l + len k)%Z.
Proof. unfold len. rewrite length_app. lia. Qed.

Lemma len_cons {A} (x : A) (l : list A) : len (x :: l) = (1 + len l)%Z.
Proof. unfold len. cbn [length]. lia. Qed.

Lemma len_nil {A} : len (@nil A) = 0%Z.
Proof. done. Qed.

Lemma len_snoc {A} (l : list A) (x : A) : len (l ++ [x]) = (len l + 1)%Z.
Proof. rewrite len_app, len_cons, len_nil. lia. Qed.

Lemma i64_id z : is_i64 z -> i64 z = z.
Proof. unfold is_i64, i64. intros. rewrite Z.mod_small; lia. Qed.

Lemma u64_id z : is_u64 z -> u64 z = z.
Proof. unfold is_u64, u64. intros. apply Z.mod_small. lia. Qed.

Lemma i64_range z : is_i64 (i64 z).
Proof. unfold is_i64, i64. pose proof (Z.mod_pos_bound (z + 2 ^ 63) (2 ^ 64)). lia. Qed.

Lemma u64_range z : is_u64 (u64 z).
Proof. unfold is_u64, u64. apply Z.mod_pos_bound. lia. Qed.

(** Converting [int64] to [uint64] and back is the identity. *)
Lemma i64_u64 z : is_i64 z -> i64 (u64 z) = z.
Proof.
  unfold is_i64, i64, u64. intros.
  rewrite Zplus_mod_idemp_l. rewrite Z.mod_small; lia.
Qed.

#[export] Hint Rewrite @len_app @len_cons @len_nil : gedis_rw.
#[export] Hint Resolve len_nonneg byte_val_range i64_range u64_range : gedis.
