(* ===== verification/GoLib.v ===== *)
(** * The parts of Go's standard library the program uses

    [strconv] (base-10 integers), [encoding/binary] (unsigned varints, 64-bit
    big-endian and little-endian words), the order on strings, and the
    functions of [strings] that the components call, with the lemmas every
    codec of the program relies on: formatting then parsing an integer, and
    writing then reading a varint or a word, give the value back. *)

From S2P Require Import Prelude.
Open Scope Z_scope.

(** ** strconv *)

Definition is_digit (c : ascii) : bool := (48 <=? byte_val c) && (byte_val c <=? 57).

Fixpoint parse_digits (acc : Z) (s : bytes) : option Z :=
  match s with
  | [] => Some acc
  | c :: r => if is_digit c then parse_digits (acc * 10 + (byte_val c - 48)) r else None
  end.

(** [strconv.ParseUint(s, 10, 64)]; [None] is any error. *)
Definition ParseUint (s : bytes) : option Z :=
  match s with
  | [] => None
  | _ => match parse_digits 0 s with
         | Some n => if n <? 2 ^ 64 then Some n else None
         | None => None
         end
  end.

(** [strconv.ParseInt(s, 10, 64)]: an optional sign, digits, the result in range. *)
Definition ParseInt (s : bytes) : option Z :=
  match s with
  | [] => None
  | c :: r =>
      let neg := Ascii.eqb c "-" in
      let digits := if neg || Ascii.eqb c "+" then r else s in
      match ParseUint digits with
      | None => None
      | Some un =>
          if negb neg && (2 ^ 63 <=? un) then None
          else if neg && (2 ^ 63 <? un) then None
          else Some (if neg then - un else un)
      end
  end.

(** [strconv.Atoi]: the same grammar and range, [int] being 64 bits wide. *)
Definition Atoi (s : bytes) : option Z := ParseInt s.

Definition digit_of (d : Z) : ascii := byte_of (48 + d).

(** The digits of [n], most significant first, in front of [acc]. *)
Fixpoint fmt_digits (fuel : nat) (n : Z) (acc : bytes) : bytes :=
  match fuel with
  | O => acc
  | S f => let acc' := digit_of (n mod 10) :: acc in
           if n <? 10 then acc' else fmt_digits f (n / 10) acc'
  end.

(** [strconv.FormatUint(n, 10)] and [strconv.FormatInt(n, 10)].  The number of
    decimal digits of [n] is at most the number of its binary digits. *)
Definition FormatUint (n : Z) : bytes := fmt_digits (S (Z.to_nat (Z.log2 n))) n [].
Definition FormatInt (n : Z) : bytes :=
  if n <? 0 then "-"%char :: FormatUint (- n) else FormatUint n.
Definition Itoa (n : Z) : bytes := FormatInt n.

Lemma byte_val_digit d : 0 <= d < 10 -> byte_val (digit_of d) = 48 + d.
Proof. intros. unfold digit_of. apply byte_val_of_small. lia. Qed.

Lemma is_digit_digit d : 0 <= d < 10 -> is_digit (digit_of d) = true.
Proof. intros. unfold is_digit. rewrite byte_val_digit by done. zdec. done. Qed.

Lemma digit_not_sign d c : 0 <= d < 10 -> (c = "-" \/ c = "+")%char -> Ascii.eqb (digit_of d) c = false.
Proof.
  intros Hd Hc. apply Ascii.eqb_neq. intros E.
  pose proof (byte_val_digit d Hd) as H. rewrite E in H.
  assert (byte_val "-" = 45 /\ byte_val "+" = 43) as [? ?] by done.
  destruct Hc as [-> | ->]; lia.
Qed.

Lemma parse_digits_app acc s r :
  parse_digits acc (s ++ r) =
  match parse_digits acc s with Some n => parse_digits n r | None => None end.
Proof. revert acc; induction s as [|c s IH]; intros; cbn; [done|]. case_match; done. Qed.

(** The digits of [n] read back as [n], whatever follows. *)
Lemma parse_fmt_digits fuel n acc a :
  0 <= n < 2 ^ Z.of_nat fuel ->
  exists k, parse_digits a (fmt_digits fuel n acc) = parse_digits (a * 10 ^ k + n) acc /\ 0 <= k.
Proof.
  revert n acc; induction fuel as [|f IH]; intros n acc Hn.
  { exists 0. cbn in *. split; [f_equal; lia | lia]. }
  cbn [fmt_digits]. pose proof (Z.mod_pos_bound n 10 ltac:(lia)) as Hm.
  destruct (n <? 10) eqn:E; breflect.
  - exists 1. rewrite Z.mod_small by lia. cbn [parse_digits].
    rewrite is_digit_digit, byte_val_digit by lia. split; [f_equal; lia | lia].
  - assert (0 <= n / 10 < 2 ^ Z.of_nat f) as Hq.
    { rewrite Nat2Z.inj_succ, Z.pow_succ_r in Hn by lia.
      split; [apply Z.div_pos; lia|]. apply Z.div_lt_upper_bound; lia. }
    destruct (IH _ (digit_of (n mod 10) :: acc) Hq) as (k & -> & Hk).
    exists (k + 1). cbn [parse_digits]. rewrite is_digit_digit, byte_val_digit by lia.
    rewrite Z.pow_add_r by lia. split; [f_equal | lia].
    pose proof (Z.div_mod n 10 ltac:(lia)). lia.
Qed.

Lemma fmt_digits_head fuel n acc :
  fuel <> O -> 0 <= n -> exists d r, 0 <= d < 10 /\ fmt_digits fuel n acc = digit_of d :: r.
Proof.
  revert n acc; induction fuel as [|f IH]; intros n acc Hf Hn; [done|].
  cbn [fmt_digits]. pose proof (Z.mod_pos_bound n 10 ltac:(lia)).
  destruct (n <? 10); [eauto|]. destruct f as [|f']; [cbn; eauto|].
  apply IH; [lia | apply Z.div_pos; lia].
Qed.

Lemma fuel_log2 n : 0 <= n -> n < 2 ^ Z.of_nat (S (Z.to_nat (Z.log2 n))).
Proof.
  intros Hn. rewrite Nat2Z.inj_succ, Z2Nat.id by apply Z.log2_nonneg.
  destruct (Z.eq_dec n 0) as [->|]; [cbn; lia|]. apply Z.log2_spec. lia.
Qed.

Lemma parse_digits_FormatUint n : 0 <= n -> parse_digits 0 (FormatUint n) = Some n.
Proof.
  intros Hn. unfold FormatUint.
  destruct (parse_fmt_digits _ n [] 0 (conj Hn (fuel_log2 n Hn))) as (k & -> & _).
  done.
Qed.

Lemma FormatUint_head n : 0 <= n -> exists d r, 0 <= d < 10 /\ FormatUint n = digit_of d :: r.
Proof. intros. apply fmt_digits_head; [discriminate | done]. Qed.

Lemma fmt_digits_length fuel n acc : (length (fmt_digits fuel n acc) <= fuel + length acc)%nat.
Proof.
  revert n acc; induction fuel as [|f IH]; intros n acc; cbn [fmt_digits]; [lia|].
  case_match; [cbn; lia|]. specialize (IH (n / 10) (digit_of (n mod 10) :: acc)). cbn in IH. lia.
Qed.

Lemma fmt_digits_all fuel n acc :
  Forall (fun c => is_digit c = true) acc -> 0 <= n ->
  Forall (fun c => is_digit c = true) (fmt_digits fuel n acc).
Proof.
  revert n acc; induction fuel as [|f IH]; intros n acc Ha Hn; cbn; [done|].
  assert (is_digit (digit_of (n mod 10)) = true) by (apply is_digit_digit, Z.mod_pos_bound; lia).
  case_match; [by constructor|]. apply IH; [by constructor|]. apply Z.div_pos; lia.
Qed.

Lemma FormatUint_digits n : 0 <= n -> Forall (fun c => is_digit c = true) (FormatUint n).
Proof. intros. by apply fmt_digits_all. Qed.

Lemma digits_not_elem s c : Forall (fun c => is_digit c = true) s -> is_digit c = false -> c ∉ s.
Proof. rewrite Forall_forall. intros H Hc Hin. apply H in Hin. congruence. Qed.

(** Decimal numerals of 64-bit integers are short. *)
Lemma FormatUint_short (n : Z) : is_u64 n -> len (FormatUint n) <= 64.
Proof.
  intros Hn. unfold FormatUint, len. pose proof (fmt_digits_length (S (Z.to_nat (Z.log2 n))) n []) as L.
  pose proof (Z.log2_le_mono n (2 ^ 64 - 1) ltac:(unfold is_u64 in Hn; lia)) as Hl. vm_compute (Z.log2 (2 ^ 64 - 1)) in Hl.
  change (length (@nil ascii)) with O in L. lia.
Qed.

Lemma FormatInt_short n : is_i64 n -> len (FormatInt n) <= 65.
Proof.
  unfold is_i64, FormatInt, FormatUint, len. intros Hn.
  assert (forall m, 0 <= m <= 2 ^ 63 -> (S (Z.to_nat (Z.log2 m)) <= 64)%nat) as Hl.
  { intros m Hm. pose proof (Z.log2_le_mono m (2 ^ 63) ltac:(lia)) as L. rewrite Z.log2_pow2 in L by lia. lia. }
  destruct (n <? 0) eqn:E; breflect; cbn [length].
  - pose proof (fmt_digits_length (S (Z.to_nat (Z.log2 (- n)))) (- n) []) as L.
    pose proof (Hl (- n) ltac:(lia)). change (length (@nil ascii)) with O in L. lia.
  - pose proof (fmt_digits_length (S (Z.to_nat (Z.log2 n))) n []) as L.
    pose proof (Hl n ltac:(lia)). change (length (@nil ascii)) with O in L. lia.
Qed.

Lemma ParseUint_FormatUint n : is_u64 n -> ParseUint (FormatUint n) = Some n.
Proof.
  intros [Hn Hn']. unfold ParseUint. pose proof (parse_digits_FormatUint n Hn) as Hp.
  destruct (FormatUint_head n Hn) as (d & r & _ & E). rewrite E in *.
  rewrite Hp. zdec. done.
Qed.

Lemma ParseInt_FormatInt n : is_i64 n -> ParseInt (FormatInt n) = Some n.
Proof.
  intros [Hlo Hhi]. unfold ParseInt, FormatInt. destruct (n <? 0) eqn:E; breflect.
  - cbn [Ascii.eqb Bool.eqb andb orb]. rewrite ParseUint_FormatUint by (split; lia).
    cbn [negb andb]. zdec. f_equal. lia.
  - destruct (FormatUint_head n ltac:(lia)) as (d & r & Hd & Ef).
    pose proof (ParseUint_FormatUint n ltac:(split; lia)) as Hp. rewrite Ef in *.
    rewrite !digit_not_sign by auto. cbn [orb negb andb]. rewrite Hp. zdec. done.
Qed.

Lemma parse_digits_nonneg s acc n : 0 <= acc -> parse_digits acc s = Some n -> 0 <= n.
Proof.
  revert acc; induction s as [|d s IH]; cbn; intros acc Ha; [intros; simplify_eq; lia|].
  destruct (is_digit d) eqn:Ed; [|done]. unfold is_digit in Ed. breflect. apply IH. lia.
Qed.

Lemma ParseInt_range s n : ParseInt s = Some n -> is_i64 n.
Proof.
  unfold ParseInt, is_i64. destruct s as [|c q]; [done|].
  destruct (ParseUint _) as [u|] eqn:U; [|done]. intros E.
  assert (0 <= u).
  { clear E. unfold ParseUint in U. case_match; [done|].
    destruct (parse_digits 0 _) as [u'|] eqn:Hd; [|done].
    apply parse_digits_nonneg in Hd; [|lia]. destruct (u' <? 2 ^ 64); simplify_eq; lia. }
  destruct (Ascii.eqb c "-"), (2 ^ 63 <=? u) eqn:?, (2 ^ 63 <? u) eqn:?; cbn in E; simplify_eq;
    breflect; lia.
Qed.

(** ** encoding/binary *)

(** [binary.AppendUvarint(nil, x)]: seven bits at a time, least significant
    first, bit 7 set on every byte but the last. *)
Fixpoint put_uvarint (fuel : nat) (x : Z) : bytes :=
  match fuel with
  | O => []
  | S f => if 128 <=? x
           then byte_of (Z.lor (x mod 256) 128) :: put_uvarint f (Z.shiftr x 7)
           else [byte_of x]
  end.
(** Ten bytes hold a [uint64] (binary.MaxVarintLen64). *)
Definition AppendUvarint (out : bytes) (x : Z) : bytes := out ++ put_uvarint 10 x.

(** The loop of [binary.Uvarint]: [i] bytes read, [x] accumulated, shift [s].
    Returns the value and the number of bytes read; 0 bytes when the buffer is
    too short, a negative count on overflow of 64 bits. *)
Fixpoint uvarint_loop (i : nat) (x s : Z) (buf : bytes) : Z * Z :=
  match buf with
  | [] => (0, 0)
  | c :: r =>
      let b := byte_val c in
      if (i =? 10)%nat then (0, - (Z.of_nat i + 1))
      else if b <? 128 then
        if (i =? 9)%nat && (1 <? b) then (0, - (Z.of_nat i + 1))
        else (Z.lor x (Z.shiftl b s), Z.of_nat i + 1)
      else uvarint_loop (S i) (Z.lor x (Z.shiftl (Z.land b 127) s)) (s + 7) r
  end.
Definition Uvarint (buf : bytes) : Z * Z := uvarint_loop 0 0 0 buf.

(** [binary.BigEndian.AppendUint64(nil, x)] and [binary.BigEndian.Uint64(b)]. *)
Fixpoint be_bytes (n : nat) (x : Z) : bytes :=
  match n with
  | O => []
  | S m => byte_of (Z.shiftr x (8 * Z.of_nat m)) :: be_bytes m x
  end.
Fixpoint be_val (acc : Z) (b : bytes) : Z :=
  match b with
  | [] => acc
  | c :: r => be_val (Z.lor (Z.shiftl acc 8) (byte_val c)) r
  end.
Definition PutUint64BE (x : Z) : bytes := be_bytes 8 x.
Definition Uint64BE (b : bytes) : Z := be_val 0 (take 8 b).

Lemma lor_add_shift x b s :
  0 <= s -> 0 <= x < 2 ^ s -> 0 <= b -> Z.lor x (Z.shiftl b s) = x + b * 2 ^ s.
Proof.
  intros Hs Hx Hb. rewrite Z.shiftl_mul_pow2 by lia.
  enough (Z.land x (b * 2 ^ s) = 0) as E
    by (pose proof (Z.add_lor_land x (b * 2 ^ s)); lia).
  apply Z.bits_inj'. intros n Hn. rewrite Z.bits_0, Z.land_spec, Z.mul_pow2_bits by lia.
  destruct (Z.lt_ge_cases n s).
  - rewrite (Z.testbit_neg_r b) by lia. apply andb_false_r.
  - destruct (Z.eq_dec x 0) as [->|]; [by rewrite Z.bits_0|].
    rewrite (Z.bits_above_log2 x); [done | lia |].
    apply Z.lt_le_trans with s; [|lia]. apply Z.log2_lt_pow2; lia.
Qed.

Lemma uvarint_byte x : 128 <= x -> Z.land (byte_val (byte_of (Z.lor (x mod 256) 128))) 127 = x mod 128 /\ 128 <= byte_val (byte_of (Z.lor (x mod 256) 128)).
Proof.
  intros Hx. rewrite byte_val_of. change 256 with (2 ^ 8).
  rewrite <- !Z.land_ones by lia. change 127 with (Z.ones 7). change 128 with (2 ^ 7) at 2.
  rewrite <- !(Z.land_ones _ 7) by lia. split.
  - apply Z.bits_inj'. intros n Hn.
    rewrite !Z.land_spec, Z.lor_spec, Z.land_spec, !Z.testbit_ones_nonneg by lia.
    change 128 with (2 ^ 7). rewrite Z.pow2_bits_eqb by lia.
    destruct (Z.ltb_spec n 7), (Z.ltb_spec n 8), (Z.eqb_spec 7 n); try lia;
      by rewrite ?andb_true_r, ?andb_false_r, ?orb_false_r.
  - assert (Z.testbit (Z.land (Z.lor (Z.land x (Z.ones 8)) 128) (Z.ones 8)) 7 = true) as Hb.
    { rewrite !Z.land_spec, Z.lor_spec. change (Z.testbit 128 7) with true.
      rewrite orb_true_r. done. }
    set (y := Z.land _ _) in *.
    assert (0 <= y) by (apply Z.land_nonneg; right; done).
    destruct (Z.lt_ge_cases y 128); [|lia].
    destruct (Z.eq_dec y 0) as [E|]; [rewrite E in Hb; done|].
    rewrite Z.bits_above_log2 in Hb; [done | lia |]. apply Z.log2_lt_pow2; lia.
Qed.

(** Reading back what was written, with [i] bytes already read. *)
Lemma uvarint_loop_put fuel i x y r :
  (i + fuel = 10)%nat -> 0 <= x < 2 ^ (7 * Z.of_nat i) ->
  0 <= y < 2 ^ (64 - 7 * Z.of_nat i) ->
  uvarint_loop i x (7 * Z.of_nat i) (put_uvarint fuel y ++ r) =
  (x + y * 2 ^ (7 * Z.of_nat i), Z.of_nat i + len (put_uvarint fuel y)).
Proof.
  revert i x y; induction fuel as [|f IH]; intros i x y Hi Hx Hy.
  { assert (i = 10%nat) as -> by lia. cbn in Hy. lia. }
  cbn [put_uvarint]. destruct (128 <=? y) eqn:E; breflect; cbn [app uvarint_loop].
  - destruct (uvarint_byte y E) as [Hb1 Hb2].
    destruct (decide (i = 9%nat)) as [->|Hi9]; [cbn in Hy; lia|].
    rewrite (proj2 (Nat.eqb_neq i 10)) by lia.
    rewrite (proj2 (Z.ltb_ge _ _) Hb2), Hb1.
    replace (7 * Z.of_nat i + 7) with (7 * Z.of_nat (S i)) by lia.
    pose proof (Z.mod_pos_bound y 128 ltac:(lia)) as Hm.
    rewrite lor_add_shift by lia.
    assert (2 ^ (7 * Z.of_nat (S i)) = 128 * 2 ^ (7 * Z.of_nat i)) as Hp.
    { rewrite Nat2Z.inj_succ. replace (7 * Z.succ (Z.of_nat i)) with (7 + 7 * Z.of_nat i) by lia.
      rewrite Z.pow_add_r by lia. done. }
    rewrite Z.shiftr_div_pow2 by lia. change (2 ^ 7) with 128.
    rewrite IH; [| lia | rewrite Hp; nia |].
    + rewrite Hp, len_cons. f_equal; [|lia].
      pose proof (Z.div_mod y 128 ltac:(lia)). nia.
    + split; [apply Z.div_pos; lia|]. apply Z.div_lt_upper_bound; [lia|].
      replace (64 - 7 * Z.of_nat i) with (7 + (64 - 7 * Z.of_nat (S i))) in Hy by lia.
      rewrite Z.pow_add_r in Hy by lia. lia.
  - rewrite (proj2 (Nat.eqb_neq i 10)) by lia.
    rewrite byte_val_of_small by lia. rewrite (proj2 (Z.ltb_lt y 128)) by lia.
    assert ((i =? 9)%nat && (1 <? y) = false) as ->.
    { destruct (Nat.eqb_spec i 9) as [->|]; [|done]. cbn in Hy. cbn. apply Z.ltb_ge. lia. }
    rewrite lor_add_shift by lia. rewrite len_cons, len_nil. f_equal; lia.
Qed.

Lemma Uvarint_AppendUvarint x r :
  is_u64 x -> Uvarint (AppendUvarint [] x ++ r) = (x, len (put_uvarint 10 x)).
Proof.
  intros [? ?]. unfold Uvarint, AppendUvarint. cbn [app].
  pose proof (uvarint_loop_put 10 0 0 x r) as Hl. change (7 * Z.of_nat 0) with 0 in Hl.
  rewrite Hl by (cbn; lia). change (2 ^ 0) with 1. f_equal; lia.
Qed.

Lemma put_uvarint_pos fuel x : 0 < len (put_uvarint (S fuel) x).
Proof. cbn [put_uvarint]. case_match; rewrite len_cons; pose proof (len_nonneg (put_uvarint fuel (x ≫ 7))); unfold len in *; cbn; lia. Qed.

Lemma be_bytes_length n x : length (be_bytes n x) = n.
Proof. induction n; cbn; congruence. Qed.

Lemma be_val_bytes n x acc :
  0 <= acc -> be_val acc (be_bytes n x) = acc * 2 ^ (8 * Z.of_nat n) + x mod 2 ^ (8 * Z.of_nat n).
Proof.
  revert acc; induction n as [|n IH]; intros acc Hacc.
  { cbn. rewrite Z.mod_1_r. lia. }
  cbn [be_bytes be_val]. pose proof (byte_val_range (byte_of (x ≫ (8 * Z.of_nat n)))) as Hb.
  rewrite Z.lor_comm, lor_add_shift by lia.
  rewrite IH by lia. rewrite byte_val_of, Z.shiftr_div_pow2 by lia.
  replace (8 * Z.of_nat (S n)) with (8 * Z.of_nat n + 8) by lia.
  rewrite Z.pow_add_r by lia. set (p := 2 ^ (8 * Z.of_nat n)).
  assert (0 < p) by (apply Z.pow_pos_nonneg; lia). change (2 ^ 8) with 256.
  rewrite (Z.rem_mul_r x p 256) by lia. nia.
Qed.

Lemma Uint64BE_Put x r : is_u64 x -> Uint64BE (PutUint64BE x ++ r) = x.
Proof.
  intros [? ?]. unfold Uint64BE, PutUint64BE.
  rewrite take_app_length' by (by rewrite be_bytes_length).
  rewrite be_val_bytes by lia. rewrite Z.mod_small by (cbn; lia). lia.
Qed.

(** ** float64

    A float64 is its IEEE-754 bit pattern ([math.Float64bits]). *)

Definition f64_exp (f : Z) : Z := Z.land (Z.shiftr f 52) 2047.
Definition f64_frac (f : Z) : Z := Z.land f (2 ^ 52 - 1).
Definition f64_neg (f : Z) : bool := Z.testbit f 63.
Definition IsInf (f : Z) : bool := (f64_exp f =? 2047) && (f64_frac f =? 0).
Definition IsNaN (f : Z) : bool := (f64_exp f =? 2047) && negb (f64_frac f =? 0).

(** Sign and magnitude as an integer: the order of the non-NaN floats, with
    both zeros mapped to 0. *)
Definition f64_key (f : Z) : Z := if f64_neg f then - (f mod 2 ^ 63) else f mod 2 ^ 63.
Definition f64_ltb (a b : Z) : bool := negb (IsNaN a) && negb (IsNaN b) && (f64_key a <? f64_key b).
Definition f64_eqb (a b : Z) : bool := negb (IsNaN a) && negb (IsNaN b) && (f64_key a =? f64_key b).

(** ** Allocation and repeated reads *)

(** The largest allocation of the run time (2^48 bytes on a 64-bit platform);
    [make([]T, n)] for [T] of [size] bytes panics on a negative length and
    above that limit. *)
Definition maxAlloc : Z := 2 ^ 48.
Definition make_ok (n size : Z) : bool := (0 <=? n) && (n * size <=? maxAlloc).

Lemma make_ok_fits n size : 0 <= n -> 0 < size -> n * size <= maxAlloc -> make_ok n size = true.
Proof. intros. unfold make_ok. zdec. done. Qed.

Lemma fits_i64 n size : 0 <= n -> 0 < size -> n * size <= maxAlloc -> is_i64 n.
Proof. unfold maxAlloc, is_i64. intros. nia. Qed.

Lemma fits_u64 n size : 0 <= n -> 0 < size -> n * size <= maxAlloc -> is_u64 n.
Proof. unfold maxAlloc, is_u64. intros. nia. Qed.

(** [for i := 0; i < n; i++] over a reader: [rd] returns a value and the bytes
    left.  A reader that consumes at least a byte each time stops within one
    more iteration than there are bytes ([read_n_ext]). *)
Fixpoint read_n {A} (rd : bytes -> result (A * bytes)) (iters : nat) (n : Z) (r : bytes)
  : result (list A * bytes) :=
  if n <=? 0 then Ok ([], r) else
  match iters with
  | O => fail "fuel"
  | S it =>
      res_bind (rd r) (fun '(v, r1) =>
      res_bind (read_n rd it (n - 1) r1) (fun '(vs, r2) =>
      Ok (v :: vs, r2)))
  end.

Definition consumes {A} (rd : bytes -> result (A * bytes)) : Prop :=
  forall r v r', rd r = Ok (v, r') -> (length r' < length r)%nat.

Lemma read_n_len {A} (rd : bytes -> result (A * bytes)) it n r vs r' :
  consumes rd -> read_n rd it n r = Ok (vs, r') -> (length r' <= length r)%nat.
Proof.
  intros Hc. revert n r vs; induction it as [|it IH]; intros n r vs; cbn; case_match; try done;
    intros E; res_inv; simplify_eq; [lia | lia |].
  apply Hc in E0. apply IH in E1. lia.
Qed.

(** Two readers that agree on inputs no longer than [r] give the same loop,
    whatever the iteration bound above the length. *)
Lemma read_n_ext {A} (d1 d2 : bytes -> result (A * bytes)) it1 it2 n r :
  consumes d1 ->
  (forall q, (length q <= length r)%nat -> d1 q = d2 q) ->
  (forall q, (length q = 0)%nat -> forall x, d1 q <> Ok x) ->
  (length r < it1)%nat -> (length r < it2)%nat ->
  read_n d1 it1 n r = read_n d2 it2 n r.
Proof.
  intros Hc. revert it2 n r; induction it1 as [|it1 IH]; intros it2 n r Hd Hnil H1 H2; [lia|].
  destruct it2 as [|it2]; [lia|]. cbn [read_n]. case_match; [done|].
  rewrite <- Hd by lia. destruct (d1 r) as [[v r1]| |] eqn:E; cbn; [|done..].
  pose proof (Hc _ _ _ E). rewrite (IH it2); [done|..]; intros; try lia; auto.
  apply Hd. lia.
Qed.

(** A slice expression [l[lo:hi]]: bounds are checked at run time. *)
Definition slice {A} (l : list A) (lo hi : Z) : result (list A) :=
  if (0 <=? lo) && (lo <=? hi) && (hi <=? len l) then Ok (take (Z.to_nat (hi - lo)) (drop (Z.to_nat lo) l)) else Panic.

Lemma slice_ok {A} (l : list A) lo hi :
  0 <= lo <= hi -> hi <= len l -> slice l lo hi = Ok (take (Z.to_nat (hi - lo)) (drop (Z.to_nat lo) l)).
Proof. intros. unfold slice. zdec. done. Qed.

Lemma slice_prefix {A} (l : list A) n : 0 <= n <= len l -> slice l 0 n = Ok (take (Z.to_nat n) l).
Proof. intros. rewrite slice_ok by lia. by rewrite Z.sub_0_r, drop_0. Qed.

Lemma slice_suffix {A} (l : list A) n : 0 <= n <= len l -> slice l n (len l) = Ok (drop (Z.to_nat n) l).
Proof. intros. rewrite slice_ok by lia. rewrite take_ge; [done|]. rewrite length_drop. unfold len in *. lia. Qed.

(** Reading back a sequence of encodings. *)
Lemma read_n_enc {A} (enc : A -> bytes) rd (es : list A) it r :
  Forall (fun e => forall q, rd (enc e ++ q) = Ok (e, q)) es -> (length es <= it)%nat ->
  read_n rd it (len es) (concat (map enc es) ++ r) = Ok (es, r).
Proof.
  intros Hall. revert it; induction Hall as [|e es He Hes IH]; intros it Hit.
  { by destruct it. }
  destruct it as [|it]; [cbn in Hit; lia|]. cbn [read_n]. rewrite len_cons.
  pose proof (len_nonneg es). zdec. cbn [map concat]. rewrite <- app_assoc, He. cbn [res_bind].
  replace (1 + len es - 1) with (len es) by lia. rewrite IH by (cbn in Hit; lia). done.
Qed.

Lemma concat_map_length {A} (enc : A -> bytes) (es : list A) :
  (forall e, (0 < length (enc e))%nat) -> (length es <= length (concat (map enc es)))%nat.
Proof.
  intros Hp. induction es as [|e es IH]; cbn; [lia|]. rewrite length_app. pose proof (Hp e). lia.
Qed.

#[export] Hint Rewrite Uvarint_AppendUvarint Uint64BE_Put using done : gedis_rw.
