(* ===== verification/GoFloatBits.v ===== *)
(** * Conversions between float64 bit patterns and integers

    A float64 is its bit pattern.  Conversions of Go between it, float32 and
    the integers, exact on the bits: rounding is to nearest, ties to even.  An
    integer conversion out of range gives the smallest int64, as on amd64. *)

From S2P Require Import Prelude GoLib.
Open Scope Z_scope.
Open Scope gedis_scope.

(** Magnitude of a finite float as [m * 2 ^ (e - 1075)]. *)
Definition f64_sig (f : Z) : Z := if f64_exp f =? 0 then f64_frac f else 2 ^ 52 + f64_frac f.
Definition f64_scale (f : Z) : Z := (if f64_exp f =? 0 then 1 else f64_exp f) - 1075.
Definition f64_finite (f : Z) : bool := negb (f64_exp f =? 2047).

(** [math.Trunc(f)] of a finite float, as an integer. *)
Definition f64_trunc (f : Z) : Z :=
  let a := if f64_scale f <? 0 then f64_sig f / 2 ^ (- f64_scale f) else f64_sig f * 2 ^ f64_scale f in
  if f64_neg f then - a else a.
(** [math.Round(f)], halves away from zero. *)
Definition f64_round (f : Z) : Z :=
  let a := if f64_scale f <? 0 then (f64_sig f + 2 ^ (- f64_scale f - 1)) / 2 ^ (- f64_scale f) else f64_sig f * 2 ^ f64_scale f in
  if f64_neg f then - a else a.
(** [math.Trunc(f) == f] *)
Definition f64_integral (f : Z) : bool :=
  if f64_finite f then (if f64_scale f <? 0 then f64_sig f mod 2 ^ (- f64_scale f) =? 0 else true) else f64_frac f =? 0.

(** [int64(f)] *)
Definition f64_to_i64 (f : Z) : Z :=
  if f64_finite f then (let i := f64_trunc f in if (- 2 ^ 63 <=? i) && (i <? 2 ^ 63) then i else - 2 ^ 63) else - 2 ^ 63.

(** [n / 2^s] rounded to nearest, ties to even. *)
Definition round_even (n s : Z) : Z :=
  let q := n / 2 ^ s in
  let r := n mod 2 ^ s in
  if (2 ^ s <? 2 * r) || ((2 * r =? 2 ^ s) && Z.odd q) then q + 1 else q.
Definition scaled (n s : Z) : Z := if s <=? 0 then n * 2 ^ (- s) else round_even n s.

(** [float64(i)] *)
Definition f64_of_Z (i : Z) : Z :=
  if i =? 0 then 0
  else let lsb := Z.log2 (Z.abs i) - 52 in
       (if i <? 0 then 2 ^ 63 else 0) + (lsb + 1074) * 2 ^ 52 + scaled (Z.abs i) lsb.

(** [float32(f)], as its bits: a NaN is made quiet. *)
Definition f32_of_f64 (f : Z) : Z :=
  let sign := if f64_neg f then 2 ^ 31 else 0 in
  sign +
  (if negb (f64_finite f) then
     0x7f800000 + (if f64_frac f =? 0 then 0 else Z.lor (Z.shiftr (f64_frac f) 29) 0x400000)
   else if f64_sig f =? 0 then 0
   else let lsb := Z.max (Z.log2 (f64_sig f) + f64_scale f - 23) (-149) in
        Z.min ((lsb + 149) * 2 ^ 23 + scaled (f64_sig f) (lsb - f64_scale f)) 0x7f800000).

(** [float64(math.Float32frombits(b))]: exact, a signalling NaN becoming quiet. *)
Definition f64_of_f32 (b : Z) : Z :=
  let sign := Z.shiftr b 31 in
  let e := Z.land (Z.shiftr b 23) 0xff in
  let m := Z.land b 0x7fffff in
  sign * 2 ^ 63 +
  (if e =? 255 then 2047 * 2 ^ 52 + (if m =? 0 then 0 else Z.lor (m * 2 ^ 29) (2 ^ 51))
   else if e =? 0 then (if m =? 0 then 0 else let k := Z.log2 m in (k + 874) * 2 ^ 52 + (m - 2 ^ k) * 2 ^ (52 - k))
   else (e + 896) * 2 ^ 52 + m * 2 ^ 29).

(** 1, the smallest subnormal, minus infinity, a signalling NaN. *)
Example widen : map f64_of_f32 [0x3f800000; 1; 0xff800000; 0x7f800001] = [0x3ff0000000000000; 0x36a0000000000000; 0xfff0000000000000; 0x7ff8000020000000].
Proof. vm_compute. reflexivity. Qed.
(** 1/3, 2^128, the least number that is rounded up to the smallest subnormal. *)
Example narrow : map f32_of_f64 [0x3fd5555555555555; 0x47f0000000000000; 0x3690000000000001; 0x3690000000000000] = [0x3eaaaaab; 0x7f800000; 1; 0].
Proof. vm_compute. reflexivity. Qed.
(** -7, 2^53 + 1 (a tie, to even), 2^53 + 3, 2^64 - 1. *)
Example from_int : map f64_of_Z [-7; 2 ^ 53 + 1; 2 ^ 53 + 3; 2 ^ 64 - 1] = [0xc01c000000000000; 0x4340000000000000; 0x4340000000000002; 0x43f0000000000000].
Proof. vm_compute. reflexivity. Qed.
(** 2.5, -2.5, 0.49999999999999994 *)
Example to_int : map f64_round [0x4004000000000000; 0xc004000000000000; 0x3fdfffffffffffff] = [3; -3; 0] /\ f64_to_i64 0xc004000000000000 = -2 /\ f64_to_i64 0x43e0000000000000 = - 2 ^ 63.
Proof. vm_compute. done. Qed.

(** ** An integral float is the conversion of its integer *)

Lemma f64_exp_div (f : Z) : f64_exp f = f / 2 ^ 52 mod 2048.
Proof. unfold f64_exp. change 2047 with (Z.ones 11). rewrite Z.land_ones, Z.shiftr_div_pow2 by lia. done. Qed.
Lemma f64_frac_mod (f : Z) : f64_frac f = f mod 2 ^ 52.
Proof. unfold f64_frac. change (2 ^ 52 - 1) with (Z.ones 52). by rewrite Z.land_ones by lia. Qed.
Lemma f64_neg_spec (f : Z) : is_u64 f -> f64_neg f = (2 ^ 63 <=? f).
Proof.
  unfold is_u64. intros Hf. unfold f64_neg. destruct (Z.leb_spec (2 ^ 63) f) as [Hb|Hb].
  - replace f with (2 ^ 63 + (f - 2 ^ 63)) by lia. apply Z.testbit_true; [lia|]. rewrite Z.add_comm, <- (Z.mul_1_l (2 ^ 63)), Z.div_add by lia.
    rewrite Z.div_small by lia. done.
  - apply Z.testbit_false; [lia|]. rewrite Z.div_small by lia. done.
Qed.

Lemma f64_split (f : Z) : is_u64 f ->
  f = (if f64_neg f then 2 ^ 63 else 0) + f64_exp f * 2 ^ 52 + f64_frac f /\ 0 <= f64_exp f < 2048 /\ 0 <= f64_frac f < 2 ^ 52.
Proof.
  intros Hf. rewrite f64_neg_spec, f64_exp_div, f64_frac_mod by done. unfold is_u64 in Hf.
  split; [|split; apply Z.mod_pos_bound; lia].
  pose proof (Z.div_mod f (2 ^ 52)) as Hd. pose proof (Z.mod_pos_bound f (2 ^ 52)).
  assert (0 <= f / 2 ^ 52 < 4096) as Hq by (split; [apply Z.div_pos; lia|apply Z.div_lt_upper_bound; lia]).
  destruct (Z.leb_spec (2 ^ 63) f) as [Hb|Hb].
  - assert (2048 <= f / 2 ^ 52) by (apply Z.div_le_lower_bound; lia).
    rewrite (Z.mod_eq (f / 2 ^ 52)) by lia. assert (f / 2 ^ 52 / 2048 = 1) as -> by (symmetry; apply (Z.div_unique _ 2048 1 (f / 2 ^ 52 - 2048)); lia). lia.
  - assert (f / 2 ^ 52 < 2048) by (apply Z.div_lt_upper_bound; lia). rewrite (Z.mod_small (f / 2 ^ 52)) by lia. lia.
Qed.

Lemma scaled_exact (m s : Z) : scaled (m * 2 ^ s) s = m \/ s < 0.
Proof.
  destruct (Z.lt_ge_cases s 0) as [|Hs]; [by right|left]. assert (0 < 2 ^ s) by (apply Z.pow_pos_nonneg; lia). unfold scaled. destruct (Z.leb_spec s 0).
  - replace s with 0 by lia. cbn. lia.
  - unfold round_even. rewrite Z.div_mul, Z.mod_mul by lia. rewrite Z.mul_0_r, (proj2 (Z.ltb_ge _ _)) by lia. rewrite (proj2 (Z.eqb_neq 0 _)) by lia. done.
Qed.

(** The magnitude of a normal integral float, and its leading bit. *)
Lemma f64_of_parts (e m a : Z) : 2 ^ 52 <= m < 2 ^ 53 -> (e < 0 -> a * 2 ^ (- e) = m) -> (0 <= e -> a = m * 2 ^ e) -> 0 < a ->
  Z.log2 a = 52 + e /\ scaled a e = m.
Proof.
  intros Hm Hneg Hpos Ha. destruct (Z.lt_ge_cases e 0) as [He|He].
  - specialize (Hneg He). split; [|unfold scaled; rewrite (proj2 (Z.leb_le _ _)) by lia; done].
    assert (Z.log2 m = - e + Z.log2 a) as Hl by (rewrite <- Hneg; apply Z.log2_mul_pow2; lia). rewrite (Z.log2_unique m 52) in Hl by lia. lia.
  - specialize (Hpos He). split; [rewrite Hpos, Z.log2_mul_pow2 by lia; rewrite (Z.log2_unique m 52) by lia; lia|]. rewrite Hpos. destruct (scaled_exact m e); [done|lia].
Qed.

(** [float64(int64(f)) == f] for an integral [f] in range; the bits are the same
    but for -0. *)
Lemma f64_of_trunc (f : Z) : is_u64 f -> f64_finite f = true -> f64_integral f = true -> f64_of_Z (f64_trunc f) = f \/ (f64_trunc f = 0 /\ f64_key f = 0).
Proof.
  intros Hf Hfin Hint. destruct (f64_split f Hf) as (E & He & Hfr). unfold f64_integral in Hint. rewrite Hfin in Hint.
  unfold f64_trunc. cbv zeta. destruct (Z.eqb_spec (f64_exp f) 0) as [E0|E0].
  - (* zero: subnormals are not integral *)
    unfold f64_scale, f64_sig in *. rewrite E0 in *. cbn [Z.eqb Z.ltb Z.sub Z.opp Z.compare] in *. change (1 - 1075 <? 0) with true in *. cbn iota in *.
    apply Z.eqb_eq in Hint. rewrite Z.mod_small in Hint by (split; [lia|]; eapply Z.lt_trans; [apply Hfr|]; apply Z.pow_lt_mono_r; lia).
    rewrite Hint. rewrite Z.div_0_l by (apply Z.pow_nonzero; lia). right. split; [by destruct (f64_neg f)|]. unfold f64_key. rewrite E, Hint. by destruct (f64_neg f).
  - left. set (m := f64_sig f). assert (2 ^ 52 <= m < 2 ^ 53) as Hm by (unfold m, f64_sig; rewrite (proj2 (Z.eqb_neq _ _)) by done; lia).
    assert (f64_scale f = f64_exp f - 1075) as Es by (unfold f64_scale; by rewrite (proj2 (Z.eqb_neq _ _))).
    fold m in Hint |- *. set (a := if f64_scale f <? 0 then m / 2 ^ (- f64_scale f) else m * 2 ^ f64_scale f).
    assert (0 < a /\ (f64_scale f < 0 -> a * 2 ^ (- f64_scale f) = m) /\ (0 <= f64_scale f -> a = m * 2 ^ f64_scale f)) as (Ha & Hn & Hp).
    { unfold a. destruct (Z.ltb_spec (f64_scale f) 0) as [Hs|Hs].
      - assert (0 < 2 ^ (- f64_scale f)) as Hpos by (apply Z.pow_pos_nonneg; lia). apply Z.eqb_eq in Hint. apply Z.div_exact in Hint; [|lia].
        set (q := m / 2 ^ (- f64_scale f)) in *. split_and!; [|intros _; rewrite Z.mul_comm; by symmetry|lia].
        apply (Z.mul_pos_cancel_l (2 ^ (- f64_scale f)) q Hpos). rewrite <- Hint. lia.
      - assert (0 < 2 ^ f64_scale f) by (apply Z.pow_pos_nonneg; lia). split_and!; [nia|lia|done]. }
    destruct (f64_of_parts (f64_scale f) m a Hm Hn Hp Ha) as [Hl Hs].
    assert (m = 2 ^ 52 + f64_frac f) as Em by (unfold m, f64_sig; by rewrite (proj2 (Z.eqb_neq _ _))).
    clearbody a. unfold f64_of_Z. destruct (f64_neg f) eqn:En.
    + rewrite (proj2 (Z.eqb_neq _ _)) by lia. cbv zeta. rewrite Z.abs_opp, Z.abs_eq by lia. rewrite (proj2 (Z.ltb_lt _ _)) by lia.
      replace (Z.log2 a - 52) with (f64_scale f) by lia. rewrite Hs. lia.
    + rewrite (proj2 (Z.eqb_neq _ _)) by lia. cbv zeta. rewrite Z.abs_eq by lia. rewrite (proj2 (Z.ltb_ge _ _)) by lia.
      replace (Z.log2 a - 52) with (f64_scale f) by lia. rewrite Hs. lia.
Qed.

Lemma finite_not_nan (f : Z) : f64_finite f = true -> IsNaN f = false.
Proof. unfold f64_finite, IsNaN. by destruct (f64_exp f =? 2047). Qed.

Lemma f64_of_trunc_eqb (f : Z) : is_u64 f -> f64_finite f = true -> f64_integral f = true -> f64_eqb (f64_of_Z (f64_trunc f)) f = true.
Proof.
  intros Hf Hfin Hint. pose proof (finite_not_nan f Hfin) as Hnan. unfold f64_eqb. destruct (f64_of_trunc f Hf Hfin Hint) as [->|[-> ->]]; rewrite Hnan; [by rewrite Z.eqb_refl|done].
Qed.

(** Two numbers that are equal as integers are equal. *)
Lemma f64_eqb_trans (a b c : Z) : f64_eqb a b = true -> f64_eqb b c = true -> f64_eqb a c = true.
Proof. unfold f64_eqb. rewrite !andb_true_iff, !Z.eqb_eq. intros [[? ?] ?] [[? ?] ?]. split_and!; [done|done|lia]. Qed.
Lemma f64_eqb_sym (a b : Z) : f64_eqb a b = f64_eqb b a.
Proof. unfold f64_eqb. rewrite (andb_comm (negb (IsNaN a))), Z.eqb_sym. done. Qed.

(** ** Small integers *)

(** The parts of the conversion of a small integer. *)
Lemma of_Z_parts (i : Z) : 0 < Z.abs i < 2 ^ 53 -> let k := Z.log2 (Z.abs i) in let m := Z.abs i * 2 ^ (52 - k) in
  0 <= k < 53 /\ 2 ^ 52 <= m < 2 ^ 53 /\ f64_of_Z i = (if i <? 0 then 2 ^ 63 else 0) + (k + 1023) * 2 ^ 52 + (m - 2 ^ 52).
Proof.
  intros Hi k m. assert (0 <= k < 53) as Hk by (unfold k; split; [apply Z.log2_nonneg|apply Z.log2_lt_pow2; lia]).
  pose proof (Z.log2_spec (Z.abs i) ltac:(lia)) as Hs. fold k in Hs.
  assert (2 ^ 52 <= m < 2 ^ 53) as Hm.
  { unfold m. replace (2 ^ 52) with (2 ^ k * 2 ^ (52 - k)) by (rewrite <- Z.pow_add_r by lia; f_equal; lia).
    replace (2 ^ 53) with (2 ^ Z.succ k * 2 ^ (52 - k)) by (rewrite <- Z.pow_add_r by lia; f_equal; lia).
    assert (0 < 2 ^ (52 - k)) by (apply Z.pow_pos_nonneg; lia). split; [apply Z.mul_le_mono_nonneg_r; lia|apply Z.mul_lt_mono_pos_r; lia]. }
  split_and!; try lia. unfold f64_of_Z. rewrite (proj2 (Z.eqb_neq _ _)) by lia. cbv zeta. fold k. unfold scaled. rewrite (proj2 (Z.leb_le _ _)) by lia.
  replace (- (k - 52)) with (52 - k) by lia. fold m. lia.
Qed.

Lemma of_Z_fields (i : Z) : 0 < Z.abs i < 2 ^ 53 -> let k := Z.log2 (Z.abs i) in
  f64_exp (f64_of_Z i) = k + 1023 /\ f64_frac (f64_of_Z i) = Z.abs i * 2 ^ (52 - k) - 2 ^ 52 /\ f64_neg (f64_of_Z i) = (i <? 0).
Proof.
  intros Hi k. destruct (of_Z_parts i ltac:(lia)) as (Hk & Hm & E). fold k in Hk, Hm, E. set (m := Z.abs i * 2 ^ (52 - k)) in *.
  set (f := f64_of_Z i) in *. assert (is_u64 f) as Hf by (unfold is_u64; rewrite E; destruct (i <? 0); lia).
  rewrite f64_exp_div, f64_frac_mod, f64_neg_spec by done. rewrite E. split_and!.
  - destruct (i <? 0).
    + replace (2 ^ 63 + (k + 1023) * 2 ^ 52 + (m - 2 ^ 52)) with ((m - 2 ^ 52) + (2048 + k + 1023) * 2 ^ 52) by lia. rewrite Z.div_add, (Z.div_small (m - 2 ^ 52)) by lia.
      replace (0 + (2048 + k + 1023)) with (k + 1023 + 1 * 2048) by lia. rewrite Z.mod_add by lia. by rewrite Z.mod_small by lia.
    + replace (0 + (k + 1023) * 2 ^ 52 + (m - 2 ^ 52)) with ((m - 2 ^ 52) + (k + 1023) * 2 ^ 52) by lia. rewrite Z.div_add, (Z.div_small (m - 2 ^ 52)) by lia. by rewrite Z.mod_small by lia.
  - replace ((if i <? 0 then 2 ^ 63 else 0) + (k + 1023) * 2 ^ 52 + (m - 2 ^ 52)) with ((m - 2 ^ 52) + ((if i <? 0 then 2048 else 0) + k + 1023) * 2 ^ 52) by (destruct (i <? 0); lia).
    rewrite Z.mod_add by lia. by rewrite Z.mod_small by lia.
  - destruct (i <? 0); [apply Z.leb_le|apply Z.leb_gt]; lia.
Qed.

(** Integers below 2^53 are converted exactly. *)
Lemma to_of_Z (i : Z) : Z.abs i < 2 ^ 53 -> f64_to_i64 (f64_of_Z i) = i.
Proof.
  intros Hi. destruct (decide (i = 0)) as [->|Hne]; [reflexivity|]. destruct (of_Z_parts i ltac:(lia)) as (Hk & Hm & _). destruct (of_Z_fields i ltac:(lia)) as (Ee & Ef & En).
  set (k := Z.log2 (Z.abs i)) in *. set (f := f64_of_Z i) in *.
  assert (f64_sig f = Z.abs i * 2 ^ (52 - k)) as Es by (unfold f64_sig; rewrite Ee, Ef, (proj2 (Z.eqb_neq _ _)) by lia; lia).
  assert (f64_scale f = k - 52) as Ec by (unfold f64_scale; rewrite Ee, (proj2 (Z.eqb_neq _ _)) by lia; lia).
  assert (f64_trunc f = i) as Et.
  { unfold f64_trunc. rewrite Es, Ec, En. set (a := if k - 52 <? 0 then _ else _). assert (a = Z.abs i) as ->; [|destruct (Z.ltb_spec i 0); lia]. unfold a. clear a.
    destruct (Z.ltb_spec (k - 52) 0).
    - replace (- (k - 52)) with (52 - k) by lia. apply Z.div_mul. apply Z.pow_nonzero; lia.
    - assert (k = 52) as -> by lia. cbn. lia. }
  unfold f64_to_i64, f64_finite. rewrite Ee, (proj2 (Z.eqb_neq _ _)) by lia. cbn [negb]. cbv zeta. rewrite Et. rewrite (proj2 (Z.leb_le _ _)), (proj2 (Z.ltb_lt _ _)) by lia. done.
Qed.
Lemma of_Z_num (i : Z) : Z.abs i < 2 ^ 53 -> IsNaN (f64_of_Z i) = false.
Proof.
  intros Hi. destruct (decide (i = 0)) as [->|Hne]; [reflexivity|]. destruct (of_Z_parts i ltac:(lia)) as (Hk & _). destruct (of_Z_fields i ltac:(lia)) as (Ee & _).
  unfold IsNaN. rewrite Ee, (proj2 (Z.eqb_neq _ _)) by lia. done.
Qed.

(** Converted small positive integers are equal floats only when they are equal. *)
Lemma of_Z_inj (i j : Z) : 0 < i < 2 ^ 53 -> 0 < j < 2 ^ 53 -> f64_eqb (f64_of_Z i) (f64_of_Z j) = true -> i = j.
Proof.
  intros Hi Hj E. rewrite <- (to_of_Z i), <- (to_of_Z j) by lia. f_equal.
  assert (forall n, 0 < n < 2 ^ 53 -> f64_key (f64_of_Z n) = f64_of_Z n) as Hkey.
  { intros n Hn. destruct (of_Z_parts n ltac:(lia)) as (Hk & Hm & En). rewrite (proj2 (Z.ltb_ge n 0)) in En by lia. set (k := Z.log2 (Z.abs n)) in *. set (m := Z.abs n * 2 ^ (52 - k)) in *.
    assert (0 <= f64_of_Z n < 2 ^ 63) by lia. unfold f64_key. rewrite f64_neg_spec by (unfold is_u64; lia). rewrite (proj2 (Z.leb_gt _ _)), Z.mod_small by lia. done. }
  unfold f64_eqb in E. apply andb_true_iff in E as [_ E]. apply Z.eqb_eq in E. by rewrite !Hkey in E.
Qed.
