(* ===== verification/GoStrings.v ===== *)
(** * Strings: the order on byte strings, insertion sort, and [package strings]

    [bytes_ltb] is Go's [<] on strings.  [isort] is the insertion sort that
    datastruct/hash.go (sortStrings), datastruct/zset.go (sortZSetPairs) and
    commands/set.go (sortedMembers) write as the same pair of nested loops.
    The functions of [package strings] are given on ASCII input; on a string
    with a byte above 0x7f the library consults the Unicode tables, which the
    class [GoUnicode] abstracts. *)

From S2P Require Import Prelude GoLib.
Open Scope Z_scope.

(** ** Order *)

Fixpoint bytes_ltb (a b : bytes) : bool :=
  match a, b with
  | _, [] => false
  | [], _ :: _ => true
  | x :: a', y :: b' =>
      (byte_val x <? byte_val y) || ((byte_val x =? byte_val y) && bytes_ltb a' b')
  end.

Definition bytes_eqb (a b : bytes) : bool := bool_decide (a = b).

Lemma bytes_eqb_spec a b : Bool.reflect (a = b) (bytes_eqb a b).
Proof. unfold bytes_eqb. case_bool_decide; by constructor. Qed.

Lemma bytes_eqb_refl a : bytes_eqb a a = true.
Proof. by destruct (bytes_eqb_spec a a). Qed.

Lemma bytes_eqb_neq a b : a <> b -> bytes_eqb a b = false.
Proof. by destruct (bytes_eqb_spec a b). Qed.

Lemma bytes_ltb_irrefl a : bytes_ltb a a = false.
Proof. induction a as [|x a IH]; [done|]. cbn. rewrite Z.ltb_irrefl, Z.eqb_refl, IH. done. Qed.

Lemma bytes_ltb_trans a b c : bytes_ltb a b = true -> bytes_ltb b c = true -> bytes_ltb a c = true.
Proof.
  revert b c; induction a as [|x a IH]; intros [|y b] [|z c]; cbn; try done.
  rewrite !orb_true_iff, !andb_true_iff, !Z.ltb_lt, !Z.eqb_eq.
  intros [?|[? ?]] [?|[? ?]]; [left; lia .. |]. right. split; [lia|]. eauto.
Qed.

Lemma bytes_ltb_total a b : bytes_ltb a b = true \/ a = b \/ bytes_ltb b a = true.
Proof.
  revert b; induction a as [|x a IH]; intros [|y b]; cbn; auto.
  rewrite !orb_true_iff, !andb_true_iff, !Z.ltb_lt, !Z.eqb_eq.
  destruct (Z.lt_trichotomy (byte_val x) (byte_val y)) as [?|[E|?]]; [tauto| |tauto].
  pose proof (eq_sym E). destruct (IH b) as [?|[->|?]]; [tauto | | tauto].
  rewrite (byte_val_inj _ _ E). tauto.
Qed.

(** ** Insertion sort

    [ins x rp] moves [x] leftwards over the (reversed) sorted prefix [rp] while
    it is less than its left neighbour: the inner loop. *)

Section Isort.
Context {A : Type} (less : A -> A -> bool).

Fixpoint ins (x : A) (rp : list A) : list A :=
  match rp with
  | y :: r => if less x y then y :: ins x r else x :: rp
  | [] => [x]
  end.

Definition isort (l : list A) : list A := reverse (fold_left (fun rp x => ins x rp) l []).

Lemma ins_perm x rp : ins x rp ≡ₚ x :: rp.
Proof. induction rp as [|y r IH]; cbn; [done|]. case_match; [|done]. rewrite IH. apply Permutation_swap. Qed.

Lemma isort_perm l : isort l ≡ₚ l.
Proof.
  unfold isort. rewrite reverse_Permutation.
  enough (forall acc, fold_left (fun rp x => ins x rp) l acc ≡ₚ l ++ acc) as H
    by (rewrite H; by rewrite app_nil_r).
  induction l as [|x l IH]; intros acc; cbn; [done|].
  rewrite IH, ins_perm. by rewrite Permutation_middle.
Qed.

(** On the elements of interest [P], not-less is a total preorder. *)
Context (P : A -> Prop)
        (less_asym : forall a b, P a -> P b -> less a b = true -> less b a = false)
        (nless_trans : forall a b c, P a -> P b -> P c ->
           less b a = false -> less c b = false -> less c a = false).

Let geb (a b : A) : Prop := less a b = false.

Lemma ins_Forall x rp : P x -> Forall P rp -> Forall P (ins x rp).
Proof. intros. rewrite ins_perm. by constructor. Qed.

Lemma ins_sorted x rp : P x -> Forall P rp -> StronglySorted geb rp -> StronglySorted geb (ins x rp).
Proof.
  intros Hx. induction 2 as [|y r Hr IH Hy]; cbn.
  - repeat constructor.
  - apply Forall_cons in H as [Py Pr]. specialize (IH Pr). destruct (less x y) eqn:E.
    + constructor; [done|]. rewrite ins_perm. constructor; [by apply less_asym | done].
    + constructor; [by constructor|]. constructor; [done|].
      apply Forall_forall. intros z Hz. rewrite Forall_forall in Hy, Pr. unfold geb in *.
      exact (nless_trans z y x (Pr z Hz) Py Hx (Hy z Hz) E).
Qed.

Lemma StronglySorted_snoc (R : A -> A -> Prop) l x :
  StronglySorted R l -> Forall (fun y => R y x) l -> StronglySorted R (l ++ [x]).
Proof.
  induction 1 as [|y l Hl IH Hy]; intros H; cbn; [repeat constructor|].
  inversion H; subst. constructor; [auto|]. apply Forall_app. auto.
Qed.

Lemma StronglySorted_reverse (R : A -> A -> Prop) l :
  StronglySorted R l -> StronglySorted (flip R) (reverse l).
Proof.
  induction 1 as [|x l Hl IH Hx]; [constructor|]. rewrite reverse_cons.
  apply StronglySorted_snoc; [done|]. by apply Forall_reverse.
Qed.

Lemma isort_sorted l : Forall P l -> StronglySorted (fun a b => less b a = false) (isort l).
Proof.
  intros Hl. unfold isort. apply (StronglySorted_reverse geb).
  enough (forall acc, Forall P acc -> StronglySorted geb acc ->
            StronglySorted geb (fold_left (fun rp x => ins x rp) l acc)) as H
    by (apply H; constructor).
  induction Hl as [|x l Hx Hl IH]; intros acc Pacc Hacc; cbn; [done|].
  apply IH; [by apply ins_Forall | by apply ins_sorted].
Qed.

(** When not-less is also antisymmetric on the elements, the result depends on
    their multiset only, hence not on the order of a Go map iteration. *)
Lemma isort_unique l k :
  Forall P l ->
  (forall a b, a ∈ l -> b ∈ l -> less a b = false -> less b a = false -> a = b) ->
  l ≡ₚ k -> isort l = isort k.
Proof.
  intros Hl Hanti Hp.
  apply (StronglySorted_unique_strong (fun a b => less b a = false)).
  - intros a b Ha Hb ? ?. apply Hanti; [..|done|done].
    + by rewrite isort_perm in Ha.
    + rewrite isort_perm in Hb. by rewrite Hp.
  - by apply isort_sorted.
  - apply isort_sorted. by rewrite <- Hp.
  - by rewrite !isort_perm.
Qed.
End Isort.

(** A prefix of a sorted list holds its least elements. *)
Lemma sorted_prefix {A : Type} (R : A -> A -> Prop) (n : nat) (l : list A) (x y : A) :
  StronglySorted R l -> x ∈ take n l -> y ∈ drop n l -> R x y.
Proof.
  revert n. induction l as [|a l IH]; intros [|n] Hs; cbn [take drop]; rewrite ?elem_of_nil; try done. inversion Hs as [|? ? Hs' Ha]; subst.
  intros [->|Hx]%elem_of_cons Hy; [|by apply (IH n)]. rewrite Forall_forall in Ha. apply Ha. rewrite <- (take_drop n l). apply elem_of_app. by right.
Qed.

Lemma StronglySorted_take {A : Type} (R : A -> A -> Prop) (n : nat) (l : list A) : StronglySorted R l -> StronglySorted R (take n l).
Proof.
  intros Hs. revert n. induction Hs as [|a l Hs IH Ha]; intros [|n]; cbn [take]; [constructor..|]. constructor; [apply IH|]. by apply Forall_take.
Qed.

Lemma bytes_ltb_asym a b : bytes_ltb a b = true -> bytes_ltb b a = false.
Proof.
  intros H. destruct (bytes_ltb b a) eqn:E; [|done].
  pose proof (bytes_ltb_trans _ _ _ H E) as Hc. by rewrite bytes_ltb_irrefl in Hc.
Qed.

Lemma bytes_nltb_antisym a b : bytes_ltb a b = false -> bytes_ltb b a = false -> a = b.
Proof. intros. destruct (bytes_ltb_total a b) as [?|[?|?]]; congruence. Qed.

Lemma bytes_nltb_trans a b c :
  bytes_ltb b a = false -> bytes_ltb c b = false -> bytes_ltb c a = false.
Proof.
  intros H1 H2. destruct (bytes_ltb c a) eqn:E; [|done].
  destruct (bytes_ltb_total b c) as [H|[->|H]]; [|congruence|congruence].
  pose proof (bytes_ltb_trans _ _ _ H E). congruence.
Qed.

(** [sortStrings] of datastruct/hash.go. *)
Definition sortStrings (s : list bytes) : list bytes := isort bytes_ltb s.

Lemma sortStrings_perm s : sortStrings s ≡ₚ s.
Proof. apply isort_perm. Qed.

Lemma sortStrings_unique s t : s ≡ₚ t -> sortStrings s = sortStrings t.
Proof.
  apply (isort_unique _ (fun _ => True));
    eauto using bytes_ltb_asym, bytes_nltb_trans, bytes_nltb_antisym, Forall_true.
Qed.

Lemma sortStrings_sorted s : StronglySorted (fun a b => bytes_ltb b a = false) (sortStrings s).
Proof.
  apply (isort_sorted _ (fun _ => True)); eauto using bytes_ltb_asym, bytes_nltb_trans, Forall_true.
Qed.

(** ** Package strings *)

Class GoUnicode : Type := {
  uni_upper : bytes -> bytes;
  uni_lower : bytes -> bytes;
  uni_fold : bytes -> bytes -> bool;
  uni_fields : bytes -> list bytes;
  uni_trim : bytes -> bytes;
}.

(** The tables restricted to no entry: for concrete runs on ASCII input. *)
Definition ascii_tables : GoUnicode :=
  {| uni_upper := fun s => s; uni_lower := fun s => s; uni_fold := bytes_eqb;
     uni_fields := fun s => [s]; uni_trim := fun s => s |}.

Definition is_ascii (s : bytes) : bool := forallb (fun c => byte_val c <? 128) s.

Definition upper_byte (c : ascii) : ascii :=
  let b := byte_val c in if (97 <=? b) && (b <=? 122) then byte_of (b - 32) else c.
Definition lower_byte (c : ascii) : ascii :=
  let b := byte_val c in if (65 <=? b) && (b <=? 90) then byte_of (b + 32) else c.

Definition ToUpper `{GoUnicode} (s : bytes) : bytes :=
  if is_ascii s then map upper_byte s else uni_upper s.
Definition ToLower `{GoUnicode} (s : bytes) : bytes :=
  if is_ascii s then map lower_byte s else uni_lower s.
Definition EqualFold `{GoUnicode} (s t : bytes) : bool :=
  if is_ascii s && is_ascii t then bytes_eqb (map lower_byte s) (map lower_byte t)
  else uni_fold s t.

Definition is_space (c : ascii) : bool :=
  let b := byte_val c in (b =? 32) || ((9 <=? b) && (b <=? 13)).

(** The fields of an ASCII string: maximal runs of non-space bytes; [cur] is
    the (reversed) field being read. *)
Fixpoint fields_loop (cur : bytes) (s : bytes) : list bytes :=
  let flush := if bool_decide (cur = []) then [] else [reverse cur] in
  match s with
  | [] => flush
  | c :: r => if is_space c then flush ++ fields_loop [] r else fields_loop (c :: cur) r
  end.
Definition Fields `{GoUnicode} (s : bytes) : list bytes :=
  if is_ascii s then fields_loop [] s else uni_fields s.

Fixpoint trim_left (s : bytes) : bytes :=
  match s with
  | c :: r => if is_space c then trim_left r else s
  | [] => []
  end.
Definition TrimSpace `{GoUnicode} (s : bytes) : bytes :=
  if is_ascii s then reverse (trim_left (reverse (trim_left s))) else uni_trim s.

Fixpoint HasPrefix (s p : bytes) : bool :=
  match p, s with
  | [], _ => true
  | x :: p', y :: s' => Ascii.eqb x y && HasPrefix s' p'
  | _ :: _, [] => false
  end.
Definition HasSuffix (s p : bytes) : bool := HasPrefix (reverse s) (reverse p).
Definition TrimPrefix (s p : bytes) : bytes := if HasPrefix s p then drop (length p) s else s.

(** [strings.IndexByte]: -1 when absent. *)
Fixpoint IndexByte (s : bytes) (c : ascii) : Z :=
  match s with
  | [] => -1
  | x :: r => if Ascii.eqb x c then 0
              else let i := IndexByte r c in if i <? 0 then -1 else i + 1
  end.

(** [strings.Cut(s, sep)] for a one-byte separator. *)
Fixpoint Cut (s : bytes) (sep : ascii) : option (bytes * bytes) :=
  match s with
  | [] => None
  | x :: r => if Ascii.eqb x sep then Some ([], r)
              else match Cut r sep with
                   | Some (a, b) => Some (x :: a, b)
                   | None => None
                   end
  end.

Lemma Cut_app a b sep : sep ∉ a -> Cut (a ++ sep :: b) sep = Some (a, b).
Proof.
  induction a as [|x a IH]; intros Hn; cbn.
  - by rewrite Ascii.eqb_refl.
  - apply not_elem_of_cons in Hn as [Hx Ha].
    rewrite (proj2 (Ascii.eqb_neq x sep)) by congruence. by rewrite IH.
Qed.

Lemma HasPrefix_app p s : HasPrefix (p ++ s) p = true.
Proof. induction p as [|x p IH]; [by destruct s|]. cbn. by rewrite Ascii.eqb_refl. Qed.

Lemma HasPrefix_spec s p : HasPrefix s p = true <-> exists r, s = p ++ r.
Proof.
  split.
  - revert s; induction p as [|x p IH]; intros s; [eauto|].
    destruct s as [|y s]; cbn; [done|]. rewrite andb_true_iff.
    intros [E H]. apply Ascii.eqb_eq in E as ->. destruct (IH _ H) as [r ->]. eauto.
  - intros [r ->]. apply HasPrefix_app.
Qed.

(** Splitting at each occurrence of a separator byte ([strings.Split]). *)
Fixpoint SplitByte (s : bytes) (sep : ascii) : list bytes :=
  match s with
  | [] => [[]]
  | c :: r => if Ascii.eqb c sep then [] :: SplitByte r sep
              else match SplitByte r sep with
                   | f :: fs => (c :: f) :: fs
                   | [] => [[c]]
                   end
  end.

Lemma SplitByte_none a sep : sep ∉ a -> SplitByte a sep = [a].
Proof.
  induction a as [|x a IH]; intros Hn; cbn; [done|].
  apply not_elem_of_cons in Hn as [Hx Ha]. rewrite (proj2 (Ascii.eqb_neq x sep)) by congruence. by rewrite IH.
Qed.

Lemma SplitByte_app a b sep : sep ∉ a -> SplitByte (a ++ sep :: b) sep = a :: SplitByte b sep.
Proof.
  induction a as [|x a IH]; intros Hn; cbn.
  - by rewrite Ascii.eqb_refl.
  - apply not_elem_of_cons in Hn as [Hx Ha]. rewrite (proj2 (Ascii.eqb_neq x sep)) by congruence. by rewrite IH.
Qed.

(** The strings with a given prefix are an interval of the order. *)
Lemma HasPrefix_nlt s p : HasPrefix s p = true -> bytes_ltb s p = false.
Proof.
  revert s; induction p as [|x p IH]; intros [|y s]; cbn; try done.
  rewrite andb_true_iff. intros [E%Ascii.eqb_eq H]. subst. rewrite Z.ltb_irrefl, Z.eqb_refl. cbn. auto.
Qed.

Lemma HasPrefix_interval p x y :
  bytes_ltb x p = false -> bytes_ltb y x = false -> HasPrefix x p = false -> HasPrefix y p = false.
Proof.
  revert x y; induction p as [|c p IH]; intros x y; [by destruct x|].
  destruct x as [|a x], y as [|b y]; cbn; try done.
  rewrite !orb_false_iff, !andb_false_iff, !Z.ltb_ge, !Z.eqb_neq.
  intros [H1 H2] [H3 H4] H5. destruct (Ascii.eqb_spec c b) as [->|N]; [|by left]. right.
  assert (byte_val a = byte_val b) as E by lia. apply byte_val_inj in E. subst.
  apply (IH x y); [by destruct H2 | by destruct H4 |]. rewrite Ascii.eqb_refl in H5. by destruct H5.
Qed.

Lemma StronglySorted_filter {A} (R : A -> A -> Prop) (f : A -> bool) l :
  StronglySorted R l -> StronglySorted R (List.filter f l).
Proof.
  induction 1 as [|x l Hl IH Hx]; cbn; [constructor|]. destruct (f x); [|done]. constructor; [done|].
  rewrite Forall_forall in *. intros y Hy. apply list_elem_of_In, filter_In in Hy as [Hy _].
  apply Hx. by apply list_elem_of_In.
Qed.

Lemma filter_perm {A} (f : A -> bool) (l k : list A) : l ≡ₚ k -> List.filter f l ≡ₚ List.filter f k.
Proof.
  induction 1 as [|x l k P IH|x y l|l k m P1 IH1 P2 IH2]; cbn; [done| | |by rewrite IH1].
  - destruct (f x); [by constructor|done].
  - destruct (f x), (f y); try done. constructor.
Qed.

Lemma sortStrings_filter f l : sortStrings (List.filter f l) = List.filter f (sortStrings l).
Proof.
  apply (StronglySorted_unique_strong (fun a b => bytes_ltb b a = false)).
  - intros a b _ _ ? ?. by apply bytes_nltb_antisym.
  - apply sortStrings_sorted.
  - apply StronglySorted_filter, sortStrings_sorted.
  - rewrite sortStrings_perm. apply filter_perm. by rewrite sortStrings_perm.
Qed.
