(* ===== verification/GoPath.v ===== *)
(** * Go's path.Match and the UTF-8 decoder it uses

    The glob of the standard library: a star does not cross a slash, a
    question mark and a class take one UTF-8 rune. *)

From S2P Require Import Prelude.
Open Scope Z_scope.

(** [utf8.DecodeRuneInString]: the rune and its width; an invalid encoding is
    (RuneError, 1), the empty string (RuneError, 0). *)
Definition RuneError : Z := 65533.

Definition cont (lo hi : Z) (c : ascii) : bool := (lo <=? byte_val c) && (byte_val c <=? hi).
Definition low6 (c : ascii) : Z := Z.land (byte_val c) 63.

Definition DecodeRune (s : bytes) : Z * nat :=
  match s with
  | [] => (RuneError, 0%nat)
  | c0 :: s1 =>
      let b0 := byte_val c0 in
      if b0 <? 128 then (b0, 1%nat)
      else
        let lo1 := if b0 =? 224 then 160 else if b0 =? 240 then 144 else 128 in
        let hi1 := if b0 =? 237 then 159 else if b0 =? 244 then 143 else 191 in
        match s1 with
        | [] => (RuneError, 1%nat)
        | c1 :: s2 =>
            if negb (cont lo1 hi1 c1) then (RuneError, 1%nat)
            else if (194 <=? b0) && (b0 <=? 223) then (Z.lor (Z.shiftl (Z.land b0 31) 6) (low6 c1), 2%nat)
            else match s2 with
            | [] => (RuneError, 1%nat)
            | c2 :: s3 =>
                if negb (cont 128 191 c2) then (RuneError, 1%nat)
                else if (224 <=? b0) && (b0 <=? 239) then
                  (Z.lor (Z.lor (Z.shiftl (Z.land b0 15) 12) (Z.shiftl (low6 c1) 6)) (low6 c2), 3%nat)
                else match s3 with
                | [] => (RuneError, 1%nat)
                | c3 :: _ =>
                    if negb (cont 128 191 c3) then (RuneError, 1%nat)
                    else if (240 <=? b0) && (b0 <=? 244) then
                      (Z.lor (Z.lor (Z.lor (Z.shiftl (Z.land b0 7) 18) (Z.shiftl (low6 c1) 12)) (Z.shiftl (low6 c2) 6)) (low6 c3), 4%nat)
                    else (RuneError, 1%nat)
                end
            end
        end
  end.

(** scanChunk: the bytes up to the next star outside a class. *)
Fixpoint scan_chunk (p : bytes) (inrange : bool) (chunk : bytes) : bytes * bytes :=
  match p with
  | [] => (chunk, [])
  | c :: p1 =>
      if Ascii.eqb c "\" then
        match p1 with
        | [] => (chunk ++ [c], [])
        | d :: p2 => scan_chunk p2 inrange (chunk ++ [c; d])
        end
      else if Ascii.eqb c "[" then scan_chunk p1 true (chunk ++ [c])
      else if Ascii.eqb c "]" then scan_chunk p1 false (chunk ++ [c])
      else if Ascii.eqb c "*" && negb inrange then (chunk, p)
      else scan_chunk p1 inrange (chunk ++ [c])
  end.

Fixpoint leading_stars (p : bytes) (star : bool) : bool * bytes :=
  match p with
  | c :: p' => if Ascii.eqb c "*" then leading_stars p' true else (star, p)
  | [] => (star, [])
  end.

Definition scanChunk (p : bytes) : bool * bytes * bytes :=
  let '(star, p1) := leading_stars p false in
  let '(chunk, rest) := scan_chunk p1 false [] in
  (star, chunk, rest).

(** getEsc: [None] is ErrBadPattern. *)
Definition getEsc (chunk : bytes) : option (Z * bytes) :=
  match chunk with
  | [] => None
  | c :: rest =>
      if Ascii.eqb c "-" || Ascii.eqb c "]" then None
      else
        let chunk := if Ascii.eqb c "\" then rest else chunk in
        match chunk with
        | [] => None
        | _ =>
            let '(r, n) := DecodeRune chunk in
            if (r =? RuneError) && (Nat.eqb n 1) then None
            else match drop n chunk with
                 | [] => None
                 | nchunk => Some (r, nchunk)
                 end
        end
  end.

(** The ranges of a class, up to its closing bracket. *)
Fixpoint class_ranges (fuel : nat) (chunk : bytes) (r : Z) (match_ : bool) (nrange : nat) : option (bool * bytes) :=
  match fuel with
  | O => None
  | S fuel =>
      match chunk, nrange with
      | c :: rest, S _ =>
          if Ascii.eqb c "]" then Some (match_, rest) else class_range fuel chunk r match_ nrange
      | _, _ => class_range fuel chunk r match_ nrange
      end
  end
with class_range (fuel : nat) (chunk : bytes) (r : Z) (match_ : bool) (nrange : nat) : option (bool * bytes) :=
  match fuel with
  | O => None
  | S fuel =>
      match getEsc chunk with
      | None => None
      | Some (lo, chunk) =>
          match chunk with
          | d :: rest =>
              if Ascii.eqb d "-" then
                match getEsc rest with
                | None => None
                | Some (hi, chunk) => class_ranges fuel chunk r (match_ || ((lo <=? r) && (r <=? hi))) (S nrange)
                end
              else class_ranges fuel chunk r (match_ || ((lo <=? r) && (r <=? lo))) (S nrange)
          | [] => None
          end
      end
  end.

(** matchChunk: [None] is ErrBadPattern, [Some None] a mismatch, [Some (Some
    rest)] a match.  After a mismatch the rest of the chunk is still checked. *)
Fixpoint match_chunk (fuel : nat) (chunk s : bytes) (failed : bool) : option (option bytes) :=
  match fuel with
  | O => None
  | S fuel =>
      match chunk with
      | [] => Some (if failed then None else Some s)
      | c :: chunk1 =>
          let failed := failed || match s with [] => true | _ => false end in
          if Ascii.eqb c "[" then
            let '(r, n) := if failed then (0, 0%nat) else DecodeRune s in
            let s := drop n s in
            let '(negated, chunk2) :=
              match chunk1 with
              | d :: c2 => if Ascii.eqb d "^" then (true, c2) else (false, chunk1)
              | [] => (false, chunk1)
              end in
            match class_ranges (2 * length chunk2 + 2) chunk2 r false 0 with
            | None => None
            | Some (m, chunk3) => match_chunk fuel chunk3 s (failed || Bool.eqb m negated)
            end
          else if Ascii.eqb c "?" then
            if failed then match_chunk fuel chunk1 s failed
            else
              let slash := match s with x :: _ => Ascii.eqb x "/" | [] => false end in
              match_chunk fuel chunk1 (drop (DecodeRune s).2 s) slash
          else
            match (if Ascii.eqb c "\" then chunk1 else chunk) with
            | [] => None
            | x :: chunk2 =>
                if failed then match_chunk fuel chunk2 s failed
                else match s with
                     | y :: s' => match_chunk fuel chunk2 s' (negb (Ascii.eqb x y))
                     | [] => match_chunk fuel chunk2 s true
                     end
            end
      end
  end.

Definition matchChunk (chunk s : bytes) : option (option bytes) := match_chunk (S (length chunk)) chunk s false.

(** The rest of a failed pattern must still be well formed. *)
Fixpoint check_rest (fuel : nat) (p : bytes) : option bool :=
  match fuel with
  | O => Some false
  | S fuel =>
      match p with
      | [] => Some false
      | _ =>
          let '(_, chunk, rest) := scanChunk p in
          match matchChunk chunk [] with
          | None => None
          | Some _ => check_rest fuel rest
          end
      end
  end.

(** The search after a star: the name that remains after the first position
    where the chunk fits. *)
Fixpoint star_search (chunk rest name : bytes) : option (option bytes) :=
  match name with
  | [] => Some None
  | x :: name' =>
      if Ascii.eqb x "/" then Some None
      else match matchChunk chunk name' with
      | None => None
      | Some None => star_search chunk rest name'
      | Some (Some t) =>
          match rest, t with
          | [], _ :: _ => star_search chunk rest name'
          | _, _ => Some (Some t)
          end
      end
  end.

Fixpoint match_pattern (fuel : nat) (p name : bytes) : option bool :=
  match fuel with
  | O => Some false
  | S fuel =>
      match p with
      | [] => Some (match name with [] => true | _ => false end)
      | _ =>
          let '(star, chunk, rest) := scanChunk p in
          match star, chunk with
          | true, [] => Some (negb (existsb (Ascii.eqb "/") name))
          | _, _ =>
              match matchChunk chunk name with
              | None => None
              | Some m =>
                  match m, rest with
                  | Some [], _ => match_pattern fuel rest []
                  | Some t, _ :: _ => match_pattern fuel rest t
                  | _, _ =>
                      if star then
                        match star_search chunk rest name with
                        | None => None
                        | Some (Some t) => match_pattern fuel rest t
                        | Some None => check_rest (length p) rest
                        end
                      else check_rest (length p) rest
                  end
              end
          end
      end
  end.

(** [path.Match]; [None] is ErrBadPattern. *)
Definition path_match (p name : bytes) : option bool := match_pattern (S (length p)) p name.

(** ** The pattern of one star *)

Lemma path_match_star name : path_match (lit "*") name = Some (negb (existsb (Ascii.eqb "/") name)).
Proof. done. Qed.

Example path_match_runs :
  map (fun '(p, n) => path_match (lit p) (lit n))
    [("app:*", "app:a"); ("a?c", "abc"); ("[a-c]x", "bx"); ("[^a-c]x", "bx"); ("a*b*c", "aXbYc"); ("a*", "a/b"); ("[", "a"); ("\*", "*");
     ("a*c", "abd"); ("*b", "ab"); ("", "")]%string
  = [Some true; Some true; Some true; Some false; Some true; Some false; None; Some true; Some false; Some true; Some true].
Proof. vm_compute. reflexivity. Qed.
