(* ===== verification/Resp.v ===== *)
(** * The RESP2/RESP3 codec (src/internal/protocol)

    [Value] is protocol.Value with one constructor per Kind; [Append] is the
    encoder, [decode] the decoder over the bytes still in the reader (end of
    input is the read error).  Formatted operands of error texts are dropped.

    The decoder allocates the slice a header announces before it reads the
    elements: [make] of a negative length, or of more than [maxAlloc] bytes,
    is a run-time panic, and this is modelled ([Panic]). *)

From S2P Require Import Prelude GoLib GoStrings.
Open Scope Z_scope.
Open Scope gedis_scope.

(** Nested lists and pairs of values: [None] is a nil slice. *)
Inductive Value : Type :=
| VSimpleString (s : bytes)
| VError (s : bytes)
| VInteger (i : Z)
| VBulkString (b : option bytes)
| VArray (elems : option (list Value))
| VNull
| VBoolean (b : bool)
| VDouble (f : Z)                       (* the IEEE-754 bits of the float64 *)
| VBigNumber (s : bytes)
| VBulkError (b : option bytes)
| VVerbatim (fmt : bytes) (b : bytes)
| VMap (pairs : list (Value * Value))
| VSet (elems : option (list Value))
| VAttribute (pairs : list (Value * Value))
| VPush (elems : option (list Value))
| VHello.

Definition BulkOf (s : bytes) : Value := VBulkString (Some s).
Definition ArrayOf (elems : list Value) : Value := VArray (Some elems).

(** The field [Bulk] of a value: only these kinds set it. *)
Definition Bulk (v : Value) : bytes :=
  match v with
  | VBulkString b | VBulkError b => default [] b
  | VVerbatim _ b => b
  | _ => []
  end.

(** ** Floats

    [strconv.FormatFloat(f, 'g', -1, 64)] and [strconv.ParseFloat(s, 64)] on
    bit patterns. *)
Class GoFloat : Type := {
  FormatFloatG : Z -> bytes;
  ParseFloat : bytes -> option Z;
}.

Definition formatDouble `{GoFloat} (f : Z) : bytes :=
  if IsInf f && negb (f64_neg f) then lit "inf"
  else if IsInf f && f64_neg f then lit "-inf"
  else if IsNaN f then lit "nan"
  else FormatFloatG f.

(** ** Encoding *)

Definition CR : ascii := "013"%char.
Definition LF : ascii := "010"%char.
Definition CRLF : bytes := [CR; LF].

Definition appendLine (dst : bytes) (typ : ascii) (s : bytes) : bytes :=
  dst ++ [typ] ++ s ++ CRLF.

Definition appendBulk (dst : bytes) (typ : ascii) (b : option bytes) : bytes :=
  match b with
  | None => dst ++ [typ; "-"%char; "1"%char] ++ CRLF
  | Some b => dst ++ [typ] ++ FormatInt (len b) ++ CRLF ++ b ++ CRLF
  end.

Section Encode.
Context `{GoFloat}.

Section Containers.
Variable append : bytes -> Value -> bytes.
Definition appendElems (dst : bytes) (typ : ascii) (elems : option (list Value)) : bytes :=
  match elems with
  | None => dst ++ [typ; "-"%char; "1"%char] ++ CRLF
  | Some es => fold_left append es (dst ++ [typ] ++ FormatInt (len es) ++ CRLF)
  end.
Definition appendPairs (dst : bytes) (typ : ascii) (pairs : list (Value * Value)) : bytes :=
  fold_left (fun d p => append (append d p.1) p.2) pairs
            (dst ++ [typ] ++ FormatInt (len pairs) ++ CRLF).
End Containers.

Fixpoint Append (dst : bytes) (v : Value) {struct v} : bytes :=
  match v with
  | VSimpleString s => appendLine dst "+" s
  | VError s => appendLine dst "-" s
  | VInteger i => appendLine dst ":" (FormatInt i)
  | VBulkString b => appendBulk dst "$" b
  | VArray es => appendElems Append dst "*" es
  | VNull => dst ++ lit "_" ++ CRLF
  | VBoolean b => dst ++ (if b then lit "#t" else lit "#f") ++ CRLF
  | VDouble f => appendLine dst "," (formatDouble f)
  | VBigNumber s => appendLine dst "(" s
  | VBulkError b => appendBulk dst "!" b
  | VVerbatim fmt b =>
      let body := fmt ++ lit ":" ++ b in
      dst ++ ["="%char] ++ FormatInt (len body) ++ CRLF ++ body ++ CRLF
  | VMap ps => appendPairs Append dst "%" ps
  | VSet es => appendElems Append dst "~" es
  | VAttribute ps => appendPairs Append dst "|" ps
  | VPush es => appendElems Append dst ">" es
  | VHello => appendLine dst "-" (lit "ERR unknown kind")
  end.
End Encode.

(** ** Reading *)

Definition isTypeByte (b : ascii) : bool :=
  existsb (Ascii.eqb b) (lit "+-:$*_#,(!=%~|>").

(** [r.ReadString('\n')]: the bytes up to and including the first LF. *)
Fixpoint read_string (acc r : bytes) : option (bytes * bytes) :=
  match r with
  | [] => None
  | c :: r' => if Ascii.eqb c LF then Some (reverse (c :: acc), r') else read_string (c :: acc) r'
  end.

Definition readLine (r : bytes) : result (bytes * bytes) :=
  match read_string [] r with
  | None => fail "protocol: read line: EOF"
  | Some (line, r') =>
      if (len line <? 2) || negb (bool_decide (line !! (length line - 2)%nat = Some CR))
      then fail "protocol: line missing CRLF"
      else Ok (take (length line - 2) line, r')
  end.

Definition readInt (r : bytes) : result (Z * bytes) :=
  let? (s, r') := readLine r in
  match ParseInt s with
  | None => fail "protocol: bad integer"
  | Some n => Ok (n, r')
  end.

Definition expectCRLF (r : bytes) : result bytes :=
  match r with
  | b1 :: b2 :: r' => if Ascii.eqb b1 CR && Ascii.eqb b2 LF then Ok r' else fail "protocol: expected CRLF"
  | _ => fail "protocol: read CRLF: EOF"
  end.

(** [readFull] of [n] bytes. *)
Definition readFull (n : Z) (r : bytes) : result (bytes * bytes) :=
  if len r <? n then fail "protocol: read payload: EOF"
  else Ok (take (Z.to_nat n) r, drop (Z.to_nat n) r).

(** The sizes of the structs the decoder allocates slices of. *)
Definition sizeofValue : Z := 136.
Definition sizeofPair : Z := 272.

(** The payload of a sized value: [n] bytes and CRLF.  [n+2] is int64 arithmetic. *)
Definition readSized (n : Z) (r : bytes) (missing : string) : result (bytes * bytes) :=
  if negb (make_ok (i64 (n + 2)) 1) then Panic else
  let? (buf, r') := readFull (n + 2) r in
  if bool_decide (drop (Z.to_nat n) buf = CRLF) then Ok (take (Z.to_nat n) buf, r')
  else fail missing.

Definition decodeBulk (r : bytes) : result (Value * bytes) :=
  let? (n, r') := readInt r in
  if n =? -1 then Ok (VBulkString None, r')
  else if n <? -1 then fail "protocol: invalid bulk length"
  else let? (b, r'') := readSized n r' "protocol: bulk missing CRLF" in
       Ok (VBulkString (Some b), r'').

(** decodeSized: the payload of kinds [!] and [=]. *)
Definition decodeSized (r : bytes) : result (bytes * bytes) :=
  let? (n, r') := readInt r in
  if n <? 0 then fail "protocol: invalid sized length"
  else readSized n r' "protocol: sized missing CRLF".

Definition decodeVerbatim (r : bytes) : result (Value * bytes) :=
  let? (b, r') := decodeSized r in
  match Cut b ":" with
  | None => fail "protocol: verbatim missing format prefix"
  | Some (fmt, body) => Ok (VVerbatim fmt body, r')
  end.

Definition decodeInline `{GoUnicode} (r : bytes) : result (Value * bytes) :=
  let? (line, r') := readLine r in
  Ok (VArray (Some (map BulkOf (Fields line))), r').

Section Decode.
Context `{GoUnicode, GoFloat}.

(** The functions that call [Decode] take it as the argument [dec].  Each
    value read consumes a byte, so one more iteration than there are bytes
    left is enough. *)
Section Open.
Variable dec : bytes -> result (Value * bytes).

Definition decode_elems (n : Z) (r : bytes) : result (list Value * bytes) :=
  if negb (make_ok n sizeofValue) then Panic
  else read_n dec (S (length r)) n r.

Definition decodeArray (r : bytes) : result (Value * bytes) :=
  let? (n, r1) := readInt r in
  if n =? -1 then Ok (VArray None, r1)
  else if n <? -1 then fail "protocol: invalid array length"
  else let? (es, r2) := decode_elems n r1 in Ok (VArray (Some es), r2).

Definition decodeN (r : bytes) (what : string) : result (list Value * bytes) :=
  let? (n, r1) := readInt r in
  if n <? 0 then Err (EMsg (lit "protocol: invalid " ++ lit what ++ lit " length"))
  else decode_elems n r1.

Definition decode_pair (r : bytes) : result (Value * Value * bytes) :=
  let? (k, r1) := dec r in
  let? (v, r2) := dec r1 in
  Ok (k, v, r2).

Definition decodeMapAs (r : bytes) : result (list (Value * Value) * bytes) :=
  let? (n, r1) := readInt r in
  if n <? 0 then fail "protocol: invalid map length"
  else if negb (make_ok n sizeofPair) then Panic
  else read_n decode_pair (S (length r1)) n r1.

Definition decodeTyped (typ : ascii) (r : bytes) : result (Value * bytes) :=
  if Ascii.eqb typ "+" then let? (s, r1) := readLine r in Ok (VSimpleString s, r1)
  else if Ascii.eqb typ "-" then let? (s, r1) := readLine r in Ok (VError s, r1)
  else if Ascii.eqb typ ":" then let? (n, r1) := readInt r in Ok (VInteger n, r1)
  else if Ascii.eqb typ "$" then decodeBulk r
  else if Ascii.eqb typ "*" then decodeArray r
  else if Ascii.eqb typ "_" then let? r1 := expectCRLF r in Ok (VNull, r1)
  else if Ascii.eqb typ "#" then
    match r with
    | [] => fail "protocol: read boolean: EOF"
    | c :: r1 =>
        let? r2 := expectCRLF r1 in
        if Ascii.eqb c "t" then Ok (VBoolean true, r2)
        else if Ascii.eqb c "f" then Ok (VBoolean false, r2)
        else fail "protocol: bad boolean"
    end
  else if Ascii.eqb typ "," then
    let? (s, r1) := readLine r in
    match ParseFloat s with
    | None => fail "protocol: bad double"
    | Some x => Ok (VDouble x, r1)
    end
  else if Ascii.eqb typ "(" then let? (s, r1) := readLine r in Ok (VBigNumber s, r1)
  else if Ascii.eqb typ "!" then let? (b, r1) := decodeSized r in Ok (VBulkError (Some b), r1)
  else if Ascii.eqb typ "=" then decodeVerbatim r
  else if Ascii.eqb typ "%" then let? (ps, r1) := decodeMapAs r in Ok (VMap ps, r1)
  else if Ascii.eqb typ "~" then let? (es, r1) := decodeN r "set" in Ok (VSet (Some es), r1)
  else if Ascii.eqb typ "|" then let? (ps, r1) := decodeMapAs r in Ok (VAttribute ps, r1)
  else if Ascii.eqb typ ">" then let? (es, r1) := decodeN r "push" in Ok (VPush (Some es), r1)
  else fail "protocol: unsupported type".
End Open.

Fixpoint decode (fuel : nat) (r : bytes) : result (Value * bytes) :=
  match fuel with
  | O => fail "protocol: fuel"
  | S f =>
    match r with
    | [] => fail "protocol: read type: EOF"
    | b :: r' => if negb (isTypeByte b) then decodeInline r else decodeTyped (decode f) b r'
    end
  end.

(** [protocol.Decode]: every nested value consumes a byte, so the length of
    the input bounds the nesting ([Decode_fuel]). *)
Definition Decode (r : bytes) : result (Value * bytes) := decode (S (length r)) r.
End Decode.

(** ** Lemmas on the readers *)

Lemma read_string_app acc s r :
  LF ∉ s -> read_string acc (s ++ LF :: r) = Some (reverse acc ++ s ++ [LF], r).
Proof.
  revert acc; induction s as [|c s IH]; intros acc Hs; cbn [app read_string].
  - by rewrite Ascii.eqb_refl, reverse_cons.
  - apply not_elem_of_cons in Hs as [Hc Hs].
    rewrite (proj2 (Ascii.eqb_neq c LF)) by congruence.
    rewrite IH by done. by rewrite reverse_cons, <- app_assoc.
Qed.

Lemma read_string_len acc r line r' :
  read_string acc r = Some (line, r') -> (length r' < length r)%nat.
Proof.
  revert acc; induction r as [|c r IH]; intros acc; cbn; [done|].
  case_match; intros; simplify_eq; [lia|]. apply IH in H0. lia.
Qed.

Lemma readLine_app s r : LF ∉ s -> readLine (s ++ CRLF ++ r) = Ok (s, r).
Proof.
  intros Hs. unfold readLine, CRLF.
  replace (s ++ [CR; LF] ++ r) with ((s ++ [CR]) ++ LF :: r) by (by rewrite <- app_assoc).
  rewrite read_string_app.
  2:{ rewrite elem_of_app, list_elem_of_singleton. intros [?|?]; [done|discriminate]. }
  rewrite reverse_nil. cbn [app]. rewrite <- app_assoc. cbn [app].
  assert (length (s ++ [CR; LF]) - 2 = length s)%nat as E by (rewrite length_app; cbn; lia).
  rewrite E, take_app_length, lookup_app_r, Nat.sub_diag by lia.
  rewrite len_app. unfold len at 2. cbn [length]. pose proof (len_nonneg s).
  zdec. done.
Qed.

Lemma readLine_len r s r' : readLine r = Ok (s, r') -> (length r' < length r)%nat.
Proof.
  unfold readLine. case_match; [|done]. destruct p as [line q].
  case_match; [done|]. intros; simplify_eq. by eapply read_string_len.
Qed.

Lemma readInt_len r n r' : readInt r = Ok (n, r') -> (length r' < length r)%nat.
Proof.
  unfold readInt, res_bind. case_match; [|done..]. destruct a.
  case_match; intros; simplify_eq. by eapply readLine_len.
Qed.

Lemma readInt_range r n r' : readInt r = Ok (n, r') -> is_i64 n.
Proof.
  unfold readInt, res_bind. destruct (readLine r) as [[s q]| |]; [|done..].
  destruct (ParseInt s) eqn:E; intros; simplify_eq. by eapply ParseInt_range.
Qed.

Lemma newline_not_digit d : 0 <= d < 10 -> digit_of d <> LF.
Proof.
  intros Hd E. pose proof (byte_val_digit d Hd) as Hv. rewrite E in Hv.
  change (byte_val LF) with 10 in Hv. lia.
Qed.

Lemma fmt_digits_noLF fuel n acc : LF ∉ acc -> LF ∉ fmt_digits fuel n acc.
Proof.
  revert n acc; induction fuel as [|f IH]; intros n acc Ha; cbn; [done|].
  assert (LF ∉ digit_of (n mod 10) :: acc).
  { apply not_elem_of_cons. split; [|done]. intros E. symmetry in E. revert E.
    apply newline_not_digit. apply Z.mod_pos_bound. lia. }
  case_match; auto.
Qed.

Lemma FormatInt_noLF n : LF ∉ FormatInt n.
Proof.
  assert (forall m, LF ∉ FormatUint m) as Hu by (intros; apply fmt_digits_noLF, not_elem_of_nil).
  unfold FormatInt. case_match; [|apply Hu]. apply not_elem_of_cons. split; [discriminate | apply Hu].
Qed.

Lemma readInt_app n r : is_i64 n -> readInt (FormatInt n ++ CRLF ++ r) = Ok (n, r).
Proof.
  intros Hn. unfold readInt. rewrite readLine_app by apply FormatInt_noLF. cbn.
  by rewrite ParseInt_FormatInt.
Qed.

(** ** Termination

    Every value the decoder returns consumed input, so the fuel of [Decode] and
    the iteration bound of its loops never run out. *)

Lemma expectCRLF_len r r' : expectCRLF r = Ok r' -> (length r' <= length r)%nat.
Proof. unfold expectCRLF. repeat case_match; intros; simplify_eq; cbn; lia. Qed.

Lemma readSized_len n r m b r' : readSized n r m = Ok (b, r') -> (length r' <= length r)%nat.
Proof.
  unfold readSized, readFull. destruct (negb _); [done|].
  destruct (len r <? n + 2); cbn; [done|]. destruct (bool_decide _); intros; simplify_eq.
  rewrite length_drop. lia.
Qed.

Lemma decodeSized_len r b r' : decodeSized r = Ok (b, r') -> (length r' < length r)%nat.
Proof.
  unfold decodeSized. intros. res_inv. case_match; [done|].
  apply readInt_len in E. apply readSized_len in H. lia.
Qed.

Section Fuel.
Context `{GoUnicode, GoFloat}.

Lemma decode_pair_consumes dec : consumes dec -> consumes (decode_pair dec).
Proof.
  intros Hc r [k v] r' E. unfold decode_pair in E. res_inv. simplify_eq.
  apply Hc in E0, E1. lia.
Qed.

Lemma decodeTyped_consumes dec typ r v r' :
  consumes dec -> decodeTyped dec typ r = Ok (v, r') -> (length r' <= length r)%nat.
Proof.
  intros Hc. unfold decodeTyped, decodeBulk, decodeArray, decodeVerbatim, decodeMapAs, decodeN, decode_elems.
  intros E; repeat (case_match; simplify_eq; res_inv; simplify_eq);
    repeat match goal with
    | E : readLine _ = Ok _ |- _ => apply readLine_len in E
    | E : readInt _ = Ok _ |- _ => apply readInt_len in E
    | E : expectCRLF _ = Ok _ |- _ => apply expectCRLF_len in E
    | E : readSized _ _ _ = Ok _ |- _ => apply readSized_len in E
    | E : decodeSized _ = Ok _ |- _ => apply decodeSized_len in E
    | E : read_n _ _ _ _ = Ok _ |- _ =>
        apply read_n_len in E; [|by auto using decode_pair_consumes]
    end; cbn in *; lia.
Qed.

Lemma decode_consumes f : consumes (decode f).
Proof.
  induction f as [|f IH]; intros r v r' E; [done|].
  destruct r as [|b r]; cbn [decode] in E; [done|]. case_match.
  - unfold decodeInline in E. res_inv. simplify_eq. by eapply readLine_len.
  - apply decodeTyped_consumes in E; [cbn; lia | done].
Qed.

Lemma decodeTyped_ext d1 d2 typ r :
  consumes d1 -> (forall q x, length q = 0%nat -> d1 q <> Ok x) ->
  (forall q, (length q <= length r)%nat -> d1 q = d2 q) ->
  decodeTyped d1 typ r = decodeTyped d2 typ r.
Proof.
  intros Hc Hnil Hd.
  assert (forall n r1 r0, readInt r0 = Ok (n, r1) -> (length r0 <= length r)%nat ->
            read_n d1 (S (length r1)) n r1 = read_n d2 (S (length r1)) n r1) as He.
  { intros n r1 r0 E Hl. apply readInt_len in E.
    apply read_n_ext; auto; intros; apply Hd; lia. }
  assert (forall n r1 r0, readInt r0 = Ok (n, r1) -> (length r0 <= length r)%nat ->
            read_n (decode_pair d1) (S (length r1)) n r1 =
            read_n (decode_pair d2) (S (length r1)) n r1) as Hp.
  { intros n r1 r0 E Hl. apply readInt_len in E.
    apply read_n_ext; auto using decode_pair_consumes.
    - intros q Hq. unfold decode_pair. rewrite <- Hd by lia.
      destruct (d1 q) as [[k q1]| |] eqn:Eq; cbn; [|done..].
      pose proof (Hc _ _ _ Eq). by rewrite <- Hd by lia.
    - intros q Hq x Ex. unfold decode_pair in Ex. res_inv. by eapply Hnil. }
  unfold decodeTyped, decodeArray, decodeMapAs, decodeN, decode_elems.
  repeat (match goal with |- (if ?c then _ else _) = _ => destruct c end; [try reflexivity|]);
    try reflexivity;
    (destruct (readInt r) as [[n r1]| |] eqn:E; cbn [res_bind]; [|reflexivity..]);
    repeat (match goal with |- context [if ?c then _ else _] => destruct c end; [reflexivity|]);
    first [by rewrite (He _ _ _ E) | by rewrite (Hp _ _ _ E)].
Qed.
End Fuel.

Lemma decode_fuel `{GoUnicode, GoFloat} f g r :
  (length r < f)%nat -> (length r < g)%nat -> decode f r = decode g r.
Proof.
  revert g r; induction f as [|f IH]; intros g r Hf Hg; [lia|]. destruct g as [|g]; [lia|].
  destruct r as [|b r]; [done|]. cbn [decode length] in *. case_match; [done|].
  apply decodeTyped_ext; [apply decode_consumes | | intros; apply IH; lia].
  intros [|? ?] x E; [|done]. by destruct f.
Qed.

(** ** Round trip *)

Section Induction.
Context (P : Value -> Prop).
Context (HS : forall s, P (VSimpleString s)) (HE : forall s, P (VError s))
  (HI : forall i, P (VInteger i)) (HB : forall b, P (VBulkString b))
  (HA0 : P (VArray None)) (HA : forall es, Forall P es -> P (VArray (Some es)))
  (HN : P VNull) (Hb : forall b, P (VBoolean b)) (HD : forall f, P (VDouble f))
  (HG : forall s, P (VBigNumber s)) (HBE : forall b, P (VBulkError b))
  (HV : forall f b, P (VVerbatim f b))
  (HM : forall ps, Forall (fun p => P p.1 /\ P p.2) ps -> P (VMap ps))
  (HT0 : P (VSet None)) (HT : forall es, Forall P es -> P (VSet (Some es)))
  (HR : forall ps, Forall (fun p => P p.1 /\ P p.2) ps -> P (VAttribute ps))
  (HP0 : P (VPush None)) (HP : forall es, Forall P es -> P (VPush (Some es)))
  (HH : P VHello).

Fixpoint Value_nested_ind (v : Value) : P v :=
  let elems := fix go (es : list Value) : Forall P es :=
    match es with
    | [] => Forall_nil_2 _
    | e :: es' => Forall_cons_2 _ _ _ (Value_nested_ind e) (go es')
    end in
  let pairs := fix go (ps : list (Value * Value)) : Forall (fun p => P p.1 /\ P p.2) ps :=
    match ps with
    | [] => Forall_nil_2 _
    | (k, x) :: ps' => Forall_cons_2 _ (k, x) _ (conj (Value_nested_ind k) (Value_nested_ind x)) (go ps')
    end in
  match v with
  | VSimpleString s => HS s | VError s => HE s | VInteger i => HI i | VBulkString b => HB b
  | VArray None => HA0 | VArray (Some es) => HA es (elems es)
  | VNull => HN | VBoolean b => Hb b | VDouble f => HD f | VBigNumber s => HG s
  | VBulkError b => HBE b | VVerbatim f b => HV f b
  | VMap ps => HM ps (pairs ps)
  | VSet None => HT0 | VSet (Some es) => HT es (elems es)
  | VAttribute ps => HR ps (pairs ps)
  | VPush None => HP0 | VPush (Some es) => HP es (elems es)
  | VHello => HH
  end.
End Induction.

Section Roundtrip.
Context `{GoUnicode, GoFloat}.

(** What a value must satisfy to be representable on the wire: lines carry
    no LF, integers fit int64, payloads and containers fit an allocation,
    aggregates other than arrays are not nil, a verbatim format has no colon. *)
Definition line_ok (s : bytes) : Prop := LF ∉ s.
Definition payload_ok (b : bytes) : Prop := len b + 2 <= maxAlloc.

Fixpoint wire_ok (v : Value) : Prop :=
  let all := fix go (es : list Value) : Prop :=
    match es with [] => True | e :: es' => wire_ok e /\ go es' end in
  let all2 := fix go (ps : list (Value * Value)) : Prop :=
    match ps with [] => True | (k, x) :: ps' => (wire_ok k /\ wire_ok x) /\ go ps' end in
  match v with
  | VSimpleString s | VError s | VBigNumber s => line_ok s
  | VInteger i => is_i64 i
  | VBulkString None => True
  | VBulkString (Some b) | VBulkError (Some b) => payload_ok b
  | VBulkError None => False
  | VArray None => True
  | VArray (Some es) | VSet (Some es) | VPush (Some es) =>
      len es * sizeofValue <= maxAlloc /\ all es
  | VSet None | VPush None => False
  | VNull | VBoolean _ => True
  | VDouble f => line_ok (formatDouble f) /\ ParseFloat (formatDouble f) = Some f
  | VVerbatim fmt b => (":"%char ∉ fmt) /\ payload_ok (fmt ++ lit ":" ++ b)
  | VMap ps | VAttribute ps => len ps * sizeofPair <= maxAlloc /\ all2 ps
  | VHello => False
  end.

(** The encoder only appends. *)
Lemma Append_app v : forall dst, Append dst v = dst ++ Append [] v.
Proof.
  assert (forall es (d : bytes), Forall (fun v => forall dst, Append dst v = dst ++ Append [] v) es ->
            fold_left Append es d = d ++ fold_left Append es []) as He.
  { intros es d Hall. revert d. induction Hall as [|e es He Hes IH]; intros d; cbn; [by rewrite app_nil_r|].
    rewrite IH, (IH (Append [] e)), He. by rewrite app_assoc. }
  assert (forall ps (d : bytes), Forall (fun p : Value * Value => (forall dst, Append dst p.1 = dst ++ Append [] p.1) /\
              (forall dst, Append dst p.2 = dst ++ Append [] p.2)) ps ->
            fold_left (fun d p => Append (Append d p.1) p.2) ps d =
            d ++ fold_left (fun d p => Append (Append d p.1) p.2) ps []) as Hp.
  { intros ps d Hall. revert d. induction Hall as [|p ps [H1 H2] Hps IH]; intros d; cbn; [by rewrite app_nil_r|].
    rewrite IH, (IH (Append (Append [] p.1) p.2)), H2, H1, (H2 (Append [] p.1)). by rewrite !app_assoc. }
  induction v using Value_nested_ind; intros dst; cbn [Append];
    unfold appendLine, appendBulk, appendElems, appendPairs; try done; try (by destruct b).
  all: first [ rewrite He, (He _ ([] ++ _)) by done | rewrite Hp, (Hp _ ([] ++ _)) by done ];
    by rewrite app_nil_l, !app_assoc.
Qed.

Definition encs (es : list Value) : bytes := concat (map (Append []) es).
Definition encps (ps : list (Value * Value)) : bytes :=
  concat (map (fun p => Append [] p.1 ++ Append [] p.2) ps).

Lemma fold_Append es d : fold_left Append es d = d ++ encs es.
Proof.
  revert d; induction es as [|e es IH]; intros d; cbn; [by rewrite app_nil_r|].
  by rewrite IH, Append_app, <- app_assoc.
Qed.

Lemma fold_Append2 ps d :
  fold_left (fun d p => Append (Append d p.1) p.2) ps d = d ++ encps ps.
Proof.
  revert d; induction ps as [|p ps IH]; intros d; cbn; [by rewrite app_nil_r|].
  rewrite IH, (Append_app p.2), (Append_app p.1 d). by rewrite <- !app_assoc.
Qed.

Lemma Append_pos v : (0 < length (Append [] v))%nat.
Proof.
  destruct v; cbn [Append]; unfold appendLine, appendBulk, appendElems, appendPairs;
    repeat case_match; rewrite ?fold_Append, ?fold_Append2; cbn [app length]; try lia;
    unfold CRLF; rewrite ?length_app; cbn [length]; lia.
Qed.

Lemma encs_length es : (length es <= length (encs es))%nat.
Proof.
  induction es as [|e es IH]; cbn; [lia|]. rewrite length_app. pose proof (Append_pos e). unfold encs in IH. lia.
Qed.

Lemma encps_length ps : (length ps <= length (encps ps))%nat.
Proof.
  induction ps as [|p ps IH]; cbn; [lia|]. rewrite !length_app.
  pose proof (Append_pos p.1). unfold encps in IH. lia.
Qed.

Lemma readSized_app b r m : payload_ok b -> readSized (len b) (b ++ CRLF ++ r) m = Ok (b, r).
Proof.
  unfold payload_ok, maxAlloc, readSized, readFull. intros Hb. pose proof (len_nonneg b).
  rewrite i64_id by (unfold is_i64; lia).
  assert (make_ok (len b + 2) 1 = true) as -> by (unfold make_ok, maxAlloc; zdec; done).
  cbn [negb]. rewrite !len_app. change (len CRLF) with 2. pose proof (len_nonneg r). zdec.
  cbn [res_bind]. replace (Z.to_nat (len b + 2)) with (length (b ++ CRLF)) by (rewrite length_app; unfold len; cbn; lia).
  rewrite app_assoc, take_app_length, drop_app_length.
  replace (Z.to_nat (len b)) with (length b) by (unfold len; lia).
  rewrite drop_app_length, take_app_length. by rewrite bool_decide_eq_true_2.
Qed.

Definition decodes (v : Value) : Prop :=
  forall f r, (length (Append [] v ++ r) < f)%nat -> decode f (Append [] v ++ r) = Ok (v, r).

Lemma read_n_encs es f it r :
  Forall decodes es -> (length es <= it)%nat -> (length (encs es ++ r) < f)%nat ->
  read_n (decode f) it (len es) (encs es ++ r) = Ok (es, r).
Proof.
  intros Hall. revert it; induction Hall as [|e es He Hes IH]; intros it Hit Hf.
  { by destruct it. }
  destruct it as [|it]; [cbn in Hit; lia|]. cbn [read_n]. rewrite len_cons.
  pose proof (len_nonneg es). zdec. unfold encs in *. cbn [map concat] in *.
  rewrite <- app_assoc in *. rewrite He by done. cbn [res_bind].
  replace (1 + len es - 1) with (len es) by lia. rewrite IH; [done | cbn in Hit; lia |].
  rewrite !length_app in *. lia.
Qed.

Lemma read_n_encps ps f it r :
  Forall (fun p => decodes p.1 /\ decodes p.2) ps -> (length ps <= it)%nat ->
  (length (encps ps ++ r) < f)%nat ->
  read_n (decode_pair (decode f)) it (len ps) (encps ps ++ r) = Ok (ps, r).
Proof.
  intros Hall. revert it; induction Hall as [|[k v] ps [Hk Hv] Hps IH]; intros it Hit Hf.
  { by destruct it. }
  destruct it as [|it]; [cbn in Hit; lia|]. cbn [read_n]. rewrite len_cons.
  pose proof (len_nonneg ps). zdec. unfold encps in *. cbn [map concat fst snd] in *.
  rewrite <- !app_assoc in *. unfold decode_pair at 1. rewrite Hk by done. cbn [res_bind].
  rewrite Hv by (rewrite !length_app in *; lia). cbn [res_bind].
  replace (1 + len ps - 1) with (len ps) by lia. rewrite IH; [done | cbn in Hit; lia |].
  rewrite !length_app in *. lia.
Qed.

Lemma wire_all es :
  (fix go (es : list Value) : Prop := match es with [] => True | e :: es' => wire_ok e /\ go es' end) es
  <-> Forall wire_ok es.
Proof. induction es; rewrite ?Forall_cons, ?Forall_nil; tauto. Qed.

Lemma wire_all2 ps :
  (fix go (ps : list (Value * Value)) : Prop :=
     match ps with [] => True | (k, x) :: ps' => (wire_ok k /\ wire_ok x) /\ go ps' end) ps
  <-> Forall (fun p => wire_ok p.1 /\ wire_ok p.2) ps.
Proof. induction ps as [|[k x] ps IH]; rewrite ?Forall_cons, ?Forall_nil; cbn; tauto. Qed.

Lemma decode_elems_encs es f r :
  Forall decodes es -> len es * sizeofValue <= maxAlloc -> (length (encs es ++ r) < f)%nat ->
  decode_elems (decode f) (len es) (encs es ++ r) = Ok (es, r).
Proof.
  intros Hall Hsz Hf. unfold decode_elems.
  rewrite make_ok_fits by (auto with gedis; done). apply read_n_encs; auto.
  pose proof (encs_length es). rewrite length_app. lia.
Qed.

Lemma payload_i64 b : payload_ok b -> is_i64 (len b).
Proof. unfold payload_ok, maxAlloc, is_i64. pose proof (len_nonneg b). lia. Qed.

Lemma decodeBulk_app b r :
  payload_ok b -> decodeBulk (FormatInt (len b) ++ CRLF ++ b ++ CRLF ++ r) = Ok (VBulkString (Some b), r).
Proof.
  intros Hb. unfold decodeBulk. rewrite readInt_app by auto using payload_i64. cbn [res_bind].
  pose proof (len_nonneg b). zdec. by rewrite readSized_app.
Qed.

Lemma decodeSized_app b r :
  payload_ok b -> decodeSized (FormatInt (len b) ++ CRLF ++ b ++ CRLF ++ r) = Ok (b, r).
Proof.
  intros Hb. unfold decodeSized. rewrite readInt_app by auto using payload_i64. cbn [res_bind].
  pose proof (len_nonneg b). zdec. by rewrite readSized_app.
Qed.

Lemma decodeVerbatim_app fmt b r :
  (":"%char ∉ fmt) -> payload_ok (fmt ++ lit ":" ++ b) ->
  decodeVerbatim (FormatInt (len (fmt ++ lit ":" ++ b)) ++ CRLF ++ fmt ++ lit ":" ++ b ++ CRLF ++ r)
  = Ok (VVerbatim fmt b, r).
Proof.
  intros Hf Hb. unfold decodeVerbatim.
  replace (fmt ++ lit ":" ++ b ++ CRLF ++ r) with ((fmt ++ lit ":" ++ b) ++ CRLF ++ r)
    by (by rewrite <- !app_assoc).
  rewrite decodeSized_app by done. cbn [res_bind]. change (lit ":") with [":"%char]. cbn [app].
  by rewrite Cut_app.
Qed.

Lemma decodeArray_app es f r :
  Forall decodes es -> len es * sizeofValue <= maxAlloc -> (length (encs es ++ r) < f)%nat ->
  decodeArray (decode f) (FormatInt (len es) ++ CRLF ++ encs es ++ r) = Ok (VArray (Some es), r).
Proof.
  intros Hall Hsz Hf. pose proof (len_nonneg es). unfold decodeArray.
  rewrite readInt_app by (by apply (fits_i64 _ sizeofValue)). cbn [res_bind]. zdec.
  by rewrite decode_elems_encs.
Qed.

Lemma decodeN_app es f r what :
  Forall decodes es -> len es * sizeofValue <= maxAlloc -> (length (encs es ++ r) < f)%nat ->
  decodeN (decode f) (FormatInt (len es) ++ CRLF ++ encs es ++ r) what = Ok (es, r).
Proof.
  intros Hall Hsz Hf. pose proof (len_nonneg es). unfold decodeN.
  rewrite readInt_app by (by apply (fits_i64 _ sizeofValue)). cbn [res_bind]. zdec.
  by rewrite decode_elems_encs.
Qed.

Lemma decodeMapAs_app ps f r :
  Forall (fun p => decodes p.1 /\ decodes p.2) ps -> len ps * sizeofPair <= maxAlloc ->
  (length (encps ps ++ r) < f)%nat ->
  decodeMapAs (decode f) (FormatInt (len ps) ++ CRLF ++ encps ps ++ r) = Ok (ps, r).
Proof.
  intros Hall Hsz Hf. pose proof (len_nonneg ps). unfold decodeMapAs.
  rewrite readInt_app by (by apply (fits_i64 _ sizeofPair)). cbn [res_bind]. zdec.
  rewrite make_ok_fits by done. cbn [negb]. rewrite read_n_encps; auto.
  pose proof (encps_length ps). rewrite length_app. lia.
Qed.

Lemma wire_decodes_elems es :
  Forall (fun v => wire_ok v -> decodes v) es -> Forall wire_ok es -> Forall decodes es.
Proof. induction 1; rewrite ?Forall_cons, ?Forall_nil; tauto. Qed.

Lemma wire_decodes_pairs ps :
  Forall (fun p : Value * Value => (wire_ok p.1 -> decodes p.1) /\ (wire_ok p.2 -> decodes p.2)) ps ->
  Forall (fun p => wire_ok p.1 /\ wire_ok p.2) ps -> Forall (fun p => decodes p.1 /\ decodes p.2) ps.
Proof. induction 1; rewrite ?Forall_cons, ?Forall_nil; tauto. Qed.

Lemma decode_wire v : wire_ok v -> decodes v.
Proof.
  induction v using Value_nested_ind; intros Hw f0 r Hf; (destruct f0 as [|f0]; [lia|]);
    cbn [Append wire_ok] in *; rewrite ?wire_all, ?wire_all2 in Hw;
    unfold appendLine, appendBulk, appendElems, appendPairs in *;
    try match goal with b : option bytes |- _ => destruct b | b : bool |- _ => destruct b end;
    try done; try contradiction;
    rewrite ?fold_Append, ?fold_Append2 in *; cbn [app] in *; rewrite <- ?app_assoc in *;
    cbn [decode app isTypeByte]; cbn [length] in Hf.
  all: match goal with |- context [isTypeByte ?c] => change (isTypeByte c) with true end; cbn [negb].
  all: unfold decodeTyped; cbn [Ascii.eqb Bool.eqb].
  all: rewrite ?length_app in Hf; unfold line_ok in *.
  all: first
    [ rewrite readLine_app by tauto; cbn [res_bind]; try destruct Hw as [_ ->]; reflexivity
    | rewrite readInt_app by done; reflexivity
    | apply decodeBulk_app; done
    | rewrite decodeSized_app by done; reflexivity
    | apply decodeVerbatim_app; tauto
    | destruct Hw as [Hsz Hw];
      first [ apply decodeArray_app | rewrite decodeN_app | rewrite decodeMapAs_app ];
      try reflexivity; eauto using wire_decodes_elems, wire_decodes_pairs; rewrite length_app; lia ].
Qed.
End Roundtrip.

(** ** HELLO *)

Section Hello.
Context `{GoUnicode}.

Definition isBulk (v : Value) (want : bytes) : bool :=
  match v with
  | VBulkString b => EqualFold (default [] b) want
  | _ => false
  end.

Definition ParseHello (v : Value) : result Z :=
  match v with
  | VArray (Some (e0 :: rest)) =>
      if negb (isBulk e0 (lit "hello")) then fail "protocol: not a HELLO command"
      else match rest with
           | [] => Ok 3
           | VBulkString b :: _ =>
               if bytes_eqb (default [] b) (lit "2") then Ok 2
               else if bytes_eqb (default [] b) (lit "3") then Ok 3
               else fail "protocol: unsupported HELLO version"
           | VInteger i :: _ =>
               if (i =? 2) || (i =? 3) then Ok i else fail "protocol: unsupported HELLO version"
           | _ => fail "protocol: unsupported HELLO version"
           end
  | _ => fail "protocol: not a HELLO command"
  end.
End Hello.

(** ** Properties *)

(** C7: every RESP value that has a wire form is read back from its encoding:
    the decoder returns exactly the encoded value and leaves exactly the bytes
    that follow it, so pipelined commands never bleed into one another. *)
Theorem Decode_Append `{GoUnicode, GoFloat} v r :
  wire_ok v -> Decode (Append [] v ++ r) = Ok (v, r).
Proof. intros Hw. apply decode_wire; [done | lia]. Qed.

(** A float codec for concrete runs: the only double is zero. *)
Definition zero_float : GoFloat :=
  {| FormatFloatG := fun _ => lit "0"; ParseFloat := fun _ => Some 0 |}.

Lemma Decode_Append_witness :
  @Decode ascii_tables zero_float
    (@Append zero_float [] (VArray (Some [BulkOf (lit "SET"); VMap [(VInteger (-7), VBoolean true)]; VNull])) ++ lit "rest")
  = Ok (VArray (Some [BulkOf (lit "SET"); VMap [(VInteger (-7), VBoolean true)]; VNull]), lit "rest").
Proof.
  apply (@Decode_Append ascii_tables zero_float).
  vm_compute. repeat split; discriminate.
Defined.

(** The decoder terminates on every input: the recursion and loop bounds
    of the model, given by the number of bytes in the reader, are never what
    stops it, since any larger bound gives the same result. *)
Theorem Decode_fuel `{GoUnicode, GoFloat} f r :
  (length r < f)%nat -> decode f r = Decode r.
Proof. intros Hf. unfold Decode. apply decode_fuel; lia. Qed.

Lemma Decode_fuel_witness :
  @decode ascii_tables zero_float 1000 (lit "+OK" ++ CRLF) = @Decode ascii_tables zero_float (lit "+OK" ++ CRLF).
Proof. apply (@Decode_fuel ascii_tables zero_float). vm_compute. lia. Defined.

(** A declared length is trusted before any payload is read: an array
    header announcing more elements than the run time can allocate panics the
    decoder, whatever follows on the connection. *)
Theorem Decode_array_header_panics `{GoUnicode, GoFloat} n r :
  is_i64 n -> maxAlloc < n * sizeofValue ->
  Decode (lit "*" ++ FormatInt n ++ CRLF ++ r) = Panic.
Proof.
  intros Hn Hbig. unfold Decode. change (lit "*") with ["*"%char]. cbn [app].
  cbn [decode]. change (isTypeByte "*") with true. cbn [negb]. unfold decodeTyped.
  cbn [Ascii.eqb Bool.eqb]. unfold decodeArray. rewrite readInt_app by done. cbn [res_bind].
  unfold maxAlloc, sizeofValue in *. zdec. unfold decode_elems, make_ok, maxAlloc, sizeofValue.
  zdec. done.
Qed.

Lemma Decode_array_header_panics_witness :
  @Decode ascii_tables zero_float (lit "*" ++ FormatInt (2 ^ 62) ++ CRLF ++ []) = Panic.
Proof.
  apply (@Decode_array_header_panics ascii_tables zero_float (2 ^ 62) []);
    unfold is_i64, maxAlloc, sizeofValue; lia.
Defined.

(** HELLO negotiates exactly protocol 2 or 3: whatever the arguments, a
    successful parse yields one of the two versions, and a bare HELLO yields 3. *)
Theorem ParseHello_version `{GoUnicode} v n :
  ParseHello v = Ok n -> n = 2 \/ n = 3.
Proof.
  unfold ParseHello. repeat case_match; intros; simplify_eq; auto.
  match goal with H : (_ || _)%bool = true |- _ => apply orb_true_iff in H as [?|?] end; breflect; auto.
Qed.

Lemma ParseHello_version_witness :
  @ParseHello ascii_tables (ArrayOf [BulkOf (lit "HeLLo"); BulkOf (lit "2")]) = Ok 2 /\ (2 = 2 \/ 2 = 3).
Proof.
  split; [reflexivity|].
  apply (@ParseHello_version ascii_tables (ArrayOf [BulkOf (lit "HeLLo"); BulkOf (lit "2")])). reflexivity.
Defined.
