(* ===== verification/Codec.v ===== *)
(** * Storage encodings (src/internal/datastruct: codec, list, hash, set, zset, vector)

    The store holds [type][expiry][payload] entries under type-prefixed keys;
    the payload of an aggregate is a count followed by length-prefixed items,
    led by an encoding tag chosen from the sizes.  A Go map is a [gmap]; the
    order in which the source ranges over a map is a permutation of
    [map_to_list].  float64 scores are bit patterns. *)

From S2P Require Import Prelude GoLib GoStrings.
Open Scope Z_scope.
Open Scope gedis_scope.

Module datastruct.

(** ** codec.go *)

Definition TypeString : ascii := "s".
Definition TypeHash : ascii := "h".
Definition TypeList : ascii := "l".
Definition TypeSet : ascii := "t".
Definition TypeZSet : ascii := "z".
Definition TypeHLL : ascii := "H".
Definition TypeStream : ascii := "x".
Definition TypeVector : ascii := "v".

Record Entry : Type := mkEntry { Type_ : ascii; Expiry : Z; Payload : bytes }.

Definition headerLen : Z := 9.

Definition Encode (typ : ascii) (expiry : Z) (payload : bytes) : bytes :=
  typ :: PutUint64BE (u64 expiry) ++ payload.

Definition EncodeString (payload : bytes) (expiry : Z) : bytes := Encode TypeString expiry payload.

Definition Decode (raw : bytes) : result Entry :=
  if len raw <? headerLen then fail "datastruct: truncated entry"
  else match raw with
       | typ :: rest => Ok (mkEntry typ (i64 (Uint64BE (take 8 rest))) (drop 8 rest))
       | [] => Panic
       end.

(** ** Storage keys *)

Definition StringKey (key : bytes) : bytes := lit "s:" ++ key.
Definition HashKey (key : bytes) : bytes := lit "h:" ++ key.
Definition HashExpKey (key : bytes) : bytes := lit "x:" ++ key.
Definition ListKey (key : bytes) : bytes := lit "l:" ++ key.
Definition SetKey (key : bytes) : bytes := lit "st:" ++ key.
Definition ZSetKey (key : bytes) : bytes := lit "z:" ++ key.
Definition HLLKey (key : bytes) : bytes := lit "hll:" ++ key.
Definition StreamKey (key : bytes) : bytes := lit "x:" ++ key.
Definition VectorKey (key : bytes) : bytes := lit "vs:" ++ key.

(** ** Length-prefixed strings *)

Definition put_str (s : bytes) : bytes := put_uvarint 10 (len s) ++ s.

(** readHashStr, readSetStr, readListStr (and rdbBytes, readStreamStr): the
    same body in each file. *)
Definition read_str (b : bytes) : option (bytes * bytes) :=
  let '(n, adv) := Uvarint b in
  if adv <=? 0 then None
  else let rest := drop (Z.to_nat adv) b in
       if len rest <? n then None
       else Some (take (Z.to_nat n) rest, drop (Z.to_nat n) rest).
Definition readHashStr := read_str.
Definition readSetStr := read_str.
Definition readListStr := read_str.

Definition or_fail {A} (o : option A) (msg : string) : result A :=
  match o with Some a => Ok a | None => fail msg end.

(** [rest[adv:]] after a successful [binary.Uvarint]. *)
Definition read_count (b : bytes) (msg : string) : result (Z * bytes) :=
  let '(n, adv) := Uvarint b in
  if adv <=? 0 then fail msg else Ok (n, drop (Z.to_nat adv) b).

Definition sizeofString : Z := 16.

(** ** list.go *)

Definition ListEncodingZiplist : ascii := "000".
Definition ListEncodingQuicklist : ascii := "001".
Definition listMaxZiplistEntries : Z := 128.
Definition listMaxZiplistValue : Z := 64.

Definition list_encoding (elems : list bytes) : ascii :=
  if listMaxZiplistEntries <? len elems then ListEncodingQuicklist
  else if existsb (fun e => listMaxZiplistValue <? len e) elems then ListEncodingQuicklist
  else ListEncodingZiplist.

Definition EncodeList (elems : list bytes) : bytes :=
  list_encoding elems :: put_uvarint 10 (len elems) ++ concat (map put_str elems).

Definition DecodeList (raw : bytes) : result (list bytes) :=
  match raw with
  | [] => fail "datastruct: truncated list payload"
  | _ :: rest =>
      let? (n, rest) := read_count rest "datastruct: bad list count" in
      if negb (make_ok n sizeofString) then Panic else
      let? (elems, _) := read_n (fun b => or_fail (readListStr b) "datastruct: truncated list element")
                                (S (length rest)) n rest in
      Ok elems
  end.

(** A payload that does not parse counts as the empty list. *)
Definition decoded_or_nil (raw : bytes) : result (list bytes) :=
  match DecodeList raw with Err _ => Ok [] | r => r end.
Definition ListPushHead (raw : bytes) (elem : bytes) : result bytes :=
  let? elems := decoded_or_nil raw in Ok (EncodeList (elem :: elems)).
Definition ListPushTail (raw : bytes) (elem : bytes) : result bytes :=
  let? elems := decoded_or_nil raw in Ok (EncodeList (elems ++ [elem])).

(** ** hash.go *)

Definition EncodingListpack : ascii := "000".
Definition EncodingHashtable : ascii := "001".
Definition hashMaxListpackEntries : Z := 128.
Definition hashMaxListpackValue : Z := 64.

Definition map_keys {V} (m : gmap bytes V) : list bytes := (map_to_list m).*1.
(** [len(m)] of a map. *)
Definition map_len {V} (m : gmap bytes V) : Z := Z.of_nat (size m).

Definition hash_encoding (m : gmap bytes bytes) : ascii :=
  if hashMaxListpackEntries <? map_len m then EncodingHashtable
  else if existsb (fun '(f, v) => (hashMaxListpackValue <? len f) || (hashMaxListpackValue <? len v))
                  (map_to_list m) then EncodingHashtable
  else EncodingListpack.

(** [fields] is the order in which the source collected the keys of the map. *)
Definition EncodeHash_from (fields : list bytes) (m : gmap bytes bytes) : bytes :=
  hash_encoding m :: put_uvarint 10 (map_len m) ++
    concat (map (fun f => put_str f ++ put_str (default [] (m !! f))) (sortStrings fields)).
Definition EncodeHash (m : gmap bytes bytes) : bytes := EncodeHash_from (map_keys m) m.

Definition read_field (b : bytes) : result (bytes * bytes * bytes) :=
  let? (f, rest2) := or_fail (readHashStr b) "datastruct: truncated hash field" in
  let? (v, rest3) := or_fail (readHashStr rest2) "datastruct: truncated hash value" in
  Ok (f, v, rest3).

(** [m[f] = v] for each pair in turn. *)
Definition map_of_pairs {V} (l : list (bytes * V)) : gmap bytes V :=
  fold_left (fun m '(f, v) => <[f := v]> m) l ∅.

Definition DecodeHash (raw : bytes) : result (gmap bytes bytes * ascii) :=
  match raw with
  | [] => fail "datastruct: truncated hash payload"
  | enc :: rest =>
      let? (n, rest) := read_count rest "datastruct: bad hash count" in
      let? (ps, _) := read_n read_field (S (length rest)) n rest in
      Ok (map_of_pairs ps, enc)
  end.

(** ** set.go *)

Definition EncodingIntset : ascii := "000".
Definition setMaxIntsetEntries : Z := 512.

Definition allInt64 (members : list bytes) : bool :=
  forallb (fun m => match ParseInt m with Some _ => true | None => false end) members.

(** [uniq] is the order in which the source ranges over the set of members. *)
Definition EncodeSet_from (uniq : list bytes) : bytes :=
  let sorted := sortStrings uniq in
  let enc := if (len sorted <=? setMaxIntsetEntries) && allInt64 sorted
             then EncodingIntset else EncodingHashtable in
  enc :: put_uvarint 10 (len sorted) ++ concat (map put_str sorted).
Definition EncodeSet (members : list bytes) : bytes :=
  EncodeSet_from (elements (list_to_set members : gset bytes)).

Definition DecodeSet (raw : bytes) : result (gset bytes * ascii) :=
  match raw with
  | [] => fail "datastruct: truncated set payload"
  | enc :: rest =>
      let? (n, rest) := read_count rest "datastruct: bad set count" in
      let? (ms, _) := read_n (fun b => or_fail (readSetStr b) "datastruct: truncated set member")
                             (S (length rest)) n rest in
      Ok (list_to_set ms, enc)
  end.

(** ** zset.go *)

Definition ZSetEncodingListpack : ascii := "000".
Definition ZSetEncodingSkiplist : ascii := "001".
Definition zsetMaxListpackEntries : Z := 128.
Definition zsetMaxListpackValue : Z := 64.

Definition zset_encoding (z : gmap bytes Z) : ascii :=
  if zsetMaxListpackEntries <? map_len z then ZSetEncodingSkiplist
  else if existsb (fun m => zsetMaxListpackValue <? len m) (map_keys z) then ZSetEncodingSkiplist
  else ZSetEncodingListpack.

(** The comparison of sortZSetPairs: by score, then by member. *)
Definition zpair_less (p q : bytes * Z) : bool :=
  f64_ltb p.2 q.2 || (f64_eqb p.2 q.2 && bytes_ltb p.1 q.1).
Definition sortZSetPairs (p : list (bytes * Z)) : list (bytes * Z) := isort zpair_less p.

Definition put_zpair (p : bytes * Z) : bytes := put_str p.1 ++ PutUint64BE p.2.
Definition EncodeZSet_from (pairs : list (bytes * Z)) (z : gmap bytes Z) : bytes :=
  let sorted := sortZSetPairs pairs in
  zset_encoding z :: put_uvarint 10 (len sorted) ++ concat (map put_zpair sorted).
Definition EncodeZSet (z : gmap bytes Z) : bytes := EncodeZSet_from (map_to_list z) z.

(** One member of DecodeZSet.  [mlen+8] is uint64 arithmetic and [int(mlen)] is
    a conversion to int64: a length that wraps passes the guard, and the slice
    expression then has a negative bound. *)
Definition read_zpair (rest : bytes) : result (bytes * Z * bytes) :=
  let '(mlen, adv) := Uvarint rest in
  if adv <=? 0 then fail "datastruct: truncated zset member" else
  let body := drop (Z.to_nat adv) rest in
  if len body <? u64 (mlen + 8) then fail "datastruct: truncated zset member"
  else if i64 mlen <? 0 then Panic
  else let m := take (Z.to_nat mlen) body in
       let rest' := drop (Z.to_nat mlen) body in
       Ok (m, Uint64BE (take 8 rest'), drop 8 rest').

Definition DecodeZSet (raw : bytes) : result (gmap bytes Z * ascii) :=
  match raw with
  | [] => fail "datastruct: truncated zset payload"
  | enc :: rest =>
      let? (n, rest) := read_count rest "datastruct: bad zset count" in
      let? (ps, _) := read_n read_zpair (S (length rest)) n rest in
      Ok (map_of_pairs ps, enc)
  end.

(** ** vector.go *)

Record VEntry : Type := mkVEntry { Vec : list Z; Attr : bytes }.
#[global] Instance VEntry_inhabited : Inhabited VEntry := populate (mkVEntry [] []).

(** The dimension check over the sorted names: [None] before the first. *)
Fixpoint check_dims (dim : option Z) (ds : list Z) : bool :=
  match ds with
  | [] => true
  | d :: ds' => match dim with
                | None => check_dims (Some d) ds'
                | Some x => (d =? x) && check_dims dim ds'
                end
  end.

Definition put_vec (v : list Z) : bytes :=
  put_uvarint 10 (len v) ++ concat (map (put_uvarint 10) v).
Definition put_ventry (m : gmap bytes VEntry) (n : bytes) : bytes :=
  let e := m !!! n in put_vec (Vec e) ++ put_str n ++ put_str (Attr e).

Definition EncodeVector (m : gmap bytes VEntry) : result bytes :=
  let names := sortStrings (map_keys m) in
  if negb (check_dims None (map (fun n => len (Vec (m !!! n))) names))
  then fail "datastruct: vectorset dim mismatch"
  else Ok (put_uvarint 10 (len names) ++ concat (map (put_ventry m) names)).

(** One entry of DecodeVector; [dim] is the dimension of the entries before
    ([None] before the first: the source's [dim < 0]). *)
Definition read_ventry (dim : option Z) (rest : bytes) : result (bytes * VEntry * Z * bytes) :=
  let? (d, rest) := read_count rest "datastruct: truncated vectorset dim" in
  let d' := i64 d in
  let fresh := match dim with None => true | Some x => x <? 0 end in
  if negb fresh && negb (bool_decide (dim = Some d')) then fail "datastruct: vectorset dim mismatch" else
  if negb (make_ok d 8) then Panic else
  let? (vec, rest) := read_n (fun b => read_count b "datastruct: truncated vectorset value")
                             (S (length rest)) d rest in
  let? (name, rest) := or_fail (read_str rest) "datastruct: truncated vectorset name" in
  let? (attr, rest) := or_fail (read_str rest) "datastruct: truncated vectorset attr" in
  Ok (name, mkVEntry vec attr, d', rest).

Fixpoint read_ventries (iters : nat) (dim : option Z) (n : Z) (m : gmap bytes VEntry) (rest : bytes)
  : result (gmap bytes VEntry) :=
  if n <=? 0 then Ok m else
  match iters with
  | O => fail "fuel"
  | S it =>
      let? (name, e, d, rest') := read_ventry dim rest in
      read_ventries it (Some d) (n - 1) (<[name := e]> m) rest'
  end.

Definition DecodeVector (raw : bytes) : result (gmap bytes VEntry) :=
  let? (count, rest) := read_count raw "datastruct: truncated vectorset count" in
  read_ventries (S (length rest)) None count ∅ rest.

(** ** Lemmas: one item *)

Lemma put_uvarint_app n r : is_u64 n -> Uvarint (put_uvarint 10 n ++ r) = (n, len (put_uvarint 10 n)).
Proof. intros. by apply (Uvarint_AppendUvarint n r). Qed.

Lemma read_count_app n r msg : is_u64 n -> read_count (put_uvarint 10 n ++ r) msg = Ok (n, r).
Proof.
  intros Hn. unfold read_count. rewrite put_uvarint_app by done.
  pose proof (put_uvarint_pos 9 n). zdec.
  replace (Z.to_nat (len (put_uvarint 10 n))) with (length (put_uvarint 10 n)) by (unfold len; lia).
  by rewrite drop_app_length.
Qed.

Definition str_ok (s : bytes) : Prop := is_u64 (len s).

Lemma read_str_app s r : str_ok s -> read_str (put_str s ++ r) = Some (s, r).
Proof.
  intros Hs. unfold read_str, put_str. rewrite <- app_assoc, put_uvarint_app by done.
  pose proof (put_uvarint_pos 9 (len s)). zdec.
  replace (Z.to_nat (len (put_uvarint 10 (len s)))) with (length (put_uvarint 10 (len s))) by (unfold len; lia).
  rewrite drop_app_length, len_app. pose proof (len_nonneg r). zdec.
  replace (Z.to_nat (len s)) with (length s) by (unfold len; lia).
  by rewrite take_app_length, drop_app_length.
Qed.

Lemma put_uvarint_length_pos n : (0 < length (put_uvarint 10 n))%nat.
Proof. pose proof (put_uvarint_pos 9 n). unfold len in *. lia. Qed.

Lemma put_str_length s : (0 < length (put_str s))%nat.
Proof. unfold put_str. rewrite length_app. pose proof (put_uvarint_length_pos (len s)). lia. Qed.

(** A string reader consumes its length prefix, so the loops below never reach
    their iteration bound. *)
Lemma read_str_consumes msg : consumes (fun b => or_fail (read_str b) msg).
Proof.
  intros r v r' E. unfold read_str in E. destruct (Uvarint r) as [n adv] eqn:U.
  destruct (adv <=? 0) eqn:Ea; [done|]. destruct (len _ <? n); [done|]. cbn in E. simplify_eq. breflect.
  rewrite !length_drop. destruct r; [cbn in U; simplify_eq; lia|]. cbn [length]. lia.
Qed.

Lemma read_count_consumes msg : consumes (fun b => read_count b msg).
Proof.
  intros r v r' E. unfold read_count in E. destruct (Uvarint r) as [n adv] eqn:U.
  destruct (adv <=? 0) eqn:Ea; [done|]. simplify_eq. breflect.
  rewrite length_drop. destruct r; [cbn in U; simplify_eq; lia|]. cbn [length]. lia.
Qed.

Lemma Uvarint_nil : Uvarint [] = (0, 0).
Proof. done. Qed.

(** The loop over length-prefixed strings has the same result for every bound
    above the number of bytes. *)
Lemma read_strs_bound msg it n r :
  (length r < it)%nat ->
  read_n (fun b => or_fail (read_str b) msg) it n r =
  read_n (fun b => or_fail (read_str b) msg) (S (length r)) n r.
Proof.
  intros. apply read_n_ext; auto using read_str_consumes.
  intros [|? ?] ? x E; done.
Qed.

Lemma read_strs_app es r msg it :
  Forall str_ok es -> (length es <= it)%nat ->
  read_n (fun b => or_fail (read_str b) msg) it (len es) (concat (map put_str es) ++ r) = Ok (es, r).
Proof.
  intros Hes Hit. apply read_n_enc; [|done]. eapply Forall_impl; [exact Hes|].
  intros e He q. cbv beta. by rewrite read_str_app.
Qed.

(** ** Lemmas: maps built from pairs *)

Lemma fold_insert_list_to_map {V} (l : list (bytes * V)) (m : gmap bytes V) :
  NoDup l.*1 -> fold_left (fun m '(f, v) => <[f := v]> m) l m = list_to_map l ∪ m.
Proof.
  revert m; induction l as [|[k v] l IH]; intros m Hnd; cbn; [by rewrite map_empty_union|].
  apply NoDup_cons in Hnd as [Hk Hnd]. rewrite IH by done.
  rewrite <- insert_union_l, insert_union_r; [done|].
  by apply not_elem_of_list_to_map_1.
Qed.

Lemma map_of_pairs_spec {V} (l : list (bytes * V)) :
  NoDup l.*1 -> map_of_pairs l = list_to_map l.
Proof. intros. unfold map_of_pairs. rewrite fold_insert_list_to_map by done. apply map_union_empty. Qed.

Lemma map_of_pairs_perm {V} (m : gmap bytes V) l : l ≡ₚ map_to_list m -> map_of_pairs l = m.
Proof.
  intros Hp. assert (NoDup l.*1) by (rewrite Hp; apply NoDup_fst_map_to_list).
  rewrite map_of_pairs_spec by done. rewrite <- (list_to_map_to_list m).
  by apply list_to_map_proper.
Qed.

(** The pairs of a map listed along any enumeration of its keys. *)
Lemma map_pairs_along {V} `{Inhabited V} (m : gmap bytes V) fs :
  fs ≡ₚ map_keys m -> map (fun f => (f, m !!! f)) fs ≡ₚ map_to_list m.
Proof.
  intros ->. unfold map_keys. enough (forall l : list (bytes * V), (forall k v, (k, v) ∈ l -> m !!! k = v) ->
            map (fun f => (f, m !!! f)) l.*1 = l) as G.
  { rewrite G; [done|]. intros k v Hin. apply elem_of_map_to_list in Hin. by apply lookup_total_correct. }
  intros l. induction l as [|[k v] l IH]; intros Hl; cbn; [done|].
  f_equal; [f_equal; apply Hl, list_elem_of_here|].
  apply IH. intros. apply Hl. by apply list_elem_of_further.
Qed.

Lemma map_keys_length {V} (m : gmap bytes V) : length (map_keys m) = size m.
Proof. unfold map_keys. rewrite length_fmap. apply length_map_to_list. Qed.

(** ** Round trips *)

Lemma Decode_Encode_entry typ expiry payload :
  is_i64 expiry -> Decode (Encode typ expiry payload) = Ok (mkEntry typ expiry payload).
Proof.
  intros He. unfold Decode, Encode, headerLen. rewrite len_cons, len_app.
  assert (len (PutUint64BE (u64 expiry)) = 8) as Hl by (unfold len, PutUint64BE; by rewrite be_bytes_length).
  rewrite Hl. pose proof (len_nonneg payload). zdec.
  rewrite take_app_length', drop_app_length' by (unfold PutUint64BE; by rewrite be_bytes_length).
  rewrite <- (app_nil_r (PutUint64BE (u64 expiry))), Uint64BE_Put by apply u64_range.
  by rewrite i64_u64.
Qed.

(** Lists that fit in memory: what a Go slice of strings can be. *)
Definition strs_ok (l : list bytes) : Prop := len l * sizeofString <= maxAlloc /\ Forall str_ok l.

Lemma strs_ok_u64 l : strs_ok l -> is_u64 (len l).
Proof. intros [H _]. apply (fits_u64 _ sizeofString); [apply len_nonneg | done | done]. Qed.

Lemma DecodeList_EncodeList elems : strs_ok elems -> DecodeList (EncodeList elems) = Ok elems.
Proof.
  intros Hok. pose proof Hok as [Hl Hs]. unfold DecodeList, EncodeList.
  rewrite read_count_app by (by apply strs_ok_u64). cbn [res_bind].
  rewrite make_ok_fits by (auto with gedis; done). cbn [negb].
  rewrite <- (app_nil_r (concat _)), read_strs_app; [done | done |].
  rewrite length_app. pose proof (concat_map_length put_str elems put_str_length). lia.
Qed.

Definition hash_ok (m : gmap bytes bytes) : Prop :=
  is_u64 (map_len m) /\ map_Forall (fun f v => str_ok f /\ str_ok v) m.

Lemma sorted_keys_length {V} (m : gmap bytes V) : length (sortStrings (map_keys m)) = size m.
Proof. rewrite (Permutation_length (sortStrings_perm _)). apply map_keys_length. Qed.

Lemma elem_of_map_keys {V} (m : gmap bytes V) k : k ∈ map_keys m <-> is_Some (m !! k).
Proof.
  unfold map_keys. rewrite list_elem_of_fmap. split.
  - intros ([k' v] & -> & Hin). apply elem_of_map_to_list in Hin. eauto.
  - intros [v Hv]. exists (k, v). by rewrite elem_of_map_to_list.
Qed.

Lemma elem_of_sorted_keys {V} (m : gmap bytes V) k : k ∈ sortStrings (map_keys m) <-> is_Some (m !! k).
Proof. rewrite (sortStrings_perm (map_keys m)). apply elem_of_map_keys. Qed.

Lemma default_lookup_total (m : gmap bytes bytes) f : is_Some (m !! f) -> default [] (m !! f) = m !!! f.
Proof. intros [v Hv]. rewrite Hv. symmetry. by apply lookup_total_correct. Qed.

Lemma DecodeHash_EncodeHash m :
  hash_ok m -> DecodeHash (EncodeHash m) = Ok (m, hash_encoding m).
Proof.
  intros [Hn Hm]. unfold DecodeHash, EncodeHash, EncodeHash_from.
  rewrite read_count_app by done. cbn [res_bind].
  set (fs := sortStrings (map_keys m)).
  set (enc := fun p : bytes * bytes => put_str p.1 ++ put_str p.2).
  assert (map (fun f => put_str f ++ put_str (default [] (m !! f))) fs = map enc (map (fun f => (f, m !!! f)) fs)) as ->.
  { rewrite map_map. apply map_ext_in. intros f Hf. unfold enc; cbn.
    rewrite default_lookup_total; [done|]. by apply elem_of_sorted_keys, list_elem_of_In. }
  assert (map_len m = len (map (fun f => (f, m !!! f)) fs)) as ->.
  { unfold map_len, len. rewrite length_map. unfold fs. by rewrite sorted_keys_length. }
  rewrite <- (app_nil_r (concat _)), read_n_enc.
  - cbn [res_bind]. rewrite (map_of_pairs_perm m); [done|].
    apply map_pairs_along, sortStrings_perm.
  - apply Forall_forall. intros [f v] Hin q. apply list_elem_of_fmap in Hin as (f' & E & Hf).
    simplify_eq. apply elem_of_sorted_keys in Hf as [v Hv].
    rewrite (lookup_total_correct _ _ _ Hv). destruct (Hm _ _ Hv) as [Hsf Hsv].
    unfold read_field, enc, readHashStr; cbn [fst snd]. rewrite <- app_assoc.
    rewrite read_str_app by done. cbn [or_fail res_bind]. by rewrite read_str_app.
  - rewrite length_app. cbn [length].
    pose proof (concat_map_length enc (map (fun f => (f, m !!! f)) fs)) as Hc.
    enough (forall e, (0 < length (enc e))%nat) as He by (specialize (Hc He); lia).
    intros e. unfold enc. rewrite length_app. pose proof (put_str_length e.1). lia.
Qed.

Definition set_encoding (ms : list bytes) : ascii :=
  if (len ms <=? setMaxIntsetEntries) && allInt64 ms then EncodingIntset else EncodingHashtable.

Lemma DecodeSet_EncodeSet ms :
  is_u64 (len ms) -> Forall str_ok ms ->
  exists enc, DecodeSet (EncodeSet ms) = Ok (list_to_set ms, enc).
Proof.
  intros [_ Hn] Hs. unfold DecodeSet, EncodeSet, EncodeSet_from.
  set (us := sortStrings (elements (list_to_set ms : gset bytes))).
  assert (us ≡ₚ elements (list_to_set ms : gset bytes)) as Hp by apply sortStrings_perm.
  assert (Forall str_ok us) as Hok.
  { rewrite Hp. apply Forall_forall. intros x. rewrite elem_of_elements, elem_of_list_to_set.
    rewrite Forall_forall in Hs. auto. }
  assert (length us <= length ms)%nat as Hlen.
  { rewrite (Permutation_length Hp). apply submseteq_length, NoDup_submseteq; [apply NoDup_elements|].
    intros x. by rewrite elem_of_elements, elem_of_list_to_set. }
  rewrite read_count_app by (unfold is_u64, len in *; lia). cbn [res_bind].
  rewrite <- (app_nil_r (concat _)). unfold readSetStr. rewrite read_strs_app; [|done|].
  - cbn [res_bind]. eexists. f_equal. f_equal. apply set_eq. intros x.
    by rewrite elem_of_list_to_set, Hp, elem_of_elements.
  - rewrite length_app. pose proof (concat_map_length put_str us put_str_length). lia.
Qed.

(** Members short enough that their length plus a score does not wrap. *)
Definition zset_ok (z : gmap bytes Z) : Prop :=
  is_u64 (map_len z) /\ map_Forall (fun m s => is_i64 (len m + 8) /\ is_u64 s) z.

Lemma read_zpair_app m s r :
  is_i64 (len m + 8) -> is_u64 s -> read_zpair (put_zpair (m, s) ++ r) = Ok (m, s, r).
Proof.
  intros [_ Hm] Hs. pose proof (len_nonneg m). unfold read_zpair, put_zpair, put_str; cbn [fst snd].
  rewrite <- !app_assoc, put_uvarint_app by (unfold is_u64; lia).
  pose proof (put_uvarint_pos 9 (len m)).
  assert (len (PutUint64BE s) = 8) as Hl by (unfold len, PutUint64BE; by rewrite be_bytes_length).
  replace (Z.to_nat (len (put_uvarint 10 (len m)))) with (length (put_uvarint 10 (len m))) by (unfold len; lia).
  rewrite drop_app_length, !len_app, Hl, u64_id, i64_id by (unfold is_u64, is_i64; lia).
  pose proof (len_nonneg r). zdec.
  replace (Z.to_nat (len m)) with (length m) by (unfold len; lia).
  rewrite take_app_length, drop_app_length.
  rewrite take_app_length', drop_app_length' by (unfold PutUint64BE; by rewrite be_bytes_length).
  rewrite <- (app_nil_r (PutUint64BE s)), Uint64BE_Put by done. done.
Qed.

Lemma DecodeZSet_EncodeZSet z : zset_ok z -> DecodeZSet (EncodeZSet z) = Ok (z, zset_encoding z).
Proof.
  intros [Hn Hz]. unfold DecodeZSet, EncodeZSet, EncodeZSet_from.
  set (ps := sortZSetPairs (map_to_list z)).
  assert (ps ≡ₚ map_to_list z) as Hp by apply isort_perm.
  assert (len ps = map_len z) as Hl.
  { unfold len, map_len. by rewrite (Permutation_length Hp), length_map_to_list. }
  rewrite read_count_app by (by rewrite Hl). cbn [res_bind].
  rewrite <- (app_nil_r (concat _)), read_n_enc.
  - cbn [res_bind]. by rewrite (map_of_pairs_perm z).
  - rewrite Hp. apply Forall_forall. intros [m s] Hin q. apply elem_of_map_to_list in Hin.
    destruct (Hz _ _ Hin). by apply read_zpair_app.
  - rewrite length_app.
    enough (forall e, (0 < length (put_zpair e))%nat) as He
      by (pose proof (concat_map_length put_zpair ps He); lia).
    intros e. unfold put_zpair. rewrite length_app. pose proof (put_str_length e.1). lia.
Qed.

(** Vector sets: every vector fits an allocation, every component is a float64. *)
Definition vector_ok (m : gmap bytes VEntry) : Prop :=
  is_u64 (map_len m) /\
  map_Forall (fun n e => str_ok n /\ str_ok (Attr e) /\ Forall is_u64 (Vec e) /\
                         len (Vec e) * 8 <= maxAlloc) m.

Lemma read_vec_app v r msg :
  Forall is_u64 v -> len v * 8 <= maxAlloc ->
  read_n (fun b => read_count b msg) (S (length (concat (map (put_uvarint 10) v) ++ r))) (len v)
         (concat (map (put_uvarint 10) v) ++ r) = Ok (v, r).
Proof.
  intros Hv Hl. apply read_n_enc.
  - eapply Forall_impl; [exact Hv|]. intros x Hx q. cbv beta. by rewrite read_count_app.
  - rewrite length_app. pose proof (concat_map_length (put_uvarint 10) v put_uvarint_length_pos). lia.
Qed.

Lemma read_ventry_app m n e r dim :
  m !! n = Some e -> str_ok n -> str_ok (Attr e) -> Forall is_u64 (Vec e) -> len (Vec e) * 8 <= maxAlloc ->
  (dim = None \/ dim = Some (len (Vec e))) ->
  read_ventry dim (put_ventry m n ++ r) = Ok (n, e, len (Vec e), r).
Proof.
  intros He Hn Ha Hv Hl Hd. pose proof (len_nonneg (Vec e)).
  unfold read_ventry, put_ventry, put_vec. rewrite (lookup_total_correct _ _ _ He).
  rewrite <- !app_assoc, read_count_app by (by apply (fits_u64 _ 8)). cbn [res_bind].
  rewrite i64_id by (by apply (fits_i64 _ 8)). rewrite make_ok_fits by done.
  assert (negb match dim with None => true | Some x => x <? 0 end &&
          negb (bool_decide (dim = Some (len (Vec e)))) = false) as ->.
  { destruct Hd as [-> | ->]; [done|]. rewrite bool_decide_eq_true_2 by done. apply andb_false_r. }
  cbn [negb]. rewrite read_vec_app by done. cbn [res_bind].
  rewrite read_str_app by done. cbn [or_fail res_bind]. rewrite read_str_app by done.
  cbn [or_fail res_bind]. by destruct e.
Qed.

Lemma read_ventries_app m names r it dim d acc :
  Forall (fun n => exists e, m !! n = Some e /\ str_ok n /\ str_ok (Attr e) /\ Forall is_u64 (Vec e) /\
                             len (Vec e) * 8 <= maxAlloc /\ len (Vec e) = d) names ->
  (dim = None \/ dim = Some d) -> (length names <= it)%nat ->
  read_ventries it dim (len names) acc (concat (map (put_ventry m) names) ++ r) =
  Ok (fold_left (fun m '(f, v) => <[f := v]> m) (map (fun n => (n, m !!! n)) names) acc).
Proof.
  intros Hall. revert it dim acc; induction Hall as [|n names Hn Hns IH]; intros it dim acc Hd Hit.
  { by destruct it. }
  destruct it as [|it]; [cbn in Hit; lia|]. cbn [read_ventries]. rewrite len_cons.
  pose proof (len_nonneg names). zdec. cbn [map concat]. rewrite <- app_assoc.
  destruct Hn as (e & He & ? & ? & ? & ? & Hde). rewrite (read_ventry_app m n e); auto; [|by rewrite Hde].
  cbn [res_bind]. replace (1 + len names - 1) with (len names) by lia.
  rewrite IH; [|right; congruence | cbn in Hit; lia]. cbn [fold_left].
  by rewrite (lookup_total_correct _ _ _ He).
Qed.

Lemma check_dims_some d ds : check_dims (Some d) ds = true -> Forall (fun x => x = d) ds.
Proof. induction ds as [|x ds IH]; cbn; [constructor|]. intros H. breflect. constructor; auto. Qed.

Lemma check_dims_all ds : check_dims None ds = true -> exists d, Forall (fun x => x = d) ds.
Proof.
  destruct ds as [|x ds]; cbn; [exists 0; constructor|]. intros H.
  exists x. constructor; [done|]. by apply check_dims_some.
Qed.

Lemma DecodeVector_EncodeVector m raw :
  vector_ok m -> EncodeVector m = Ok raw -> DecodeVector raw = Ok m.
Proof.
  intros [Hn Hm]. unfold EncodeVector. set (names := sortStrings (map_keys m)).
  destruct (check_dims _ _) eqn:Hc; [|done]. cbn [negb]. intros E. apply Ok_inj in E as <-.
  apply check_dims_all in Hc as [d Hd].
  assert (len names = map_len m) as Hl by (unfold len, map_len, names; by rewrite sorted_keys_length).
  unfold DecodeVector. rewrite read_count_app by (by rewrite Hl). cbn [res_bind].
  rewrite <- (app_nil_r (concat _)), (read_ventries_app m names [] _ None d).
  - f_equal. fold (map_of_pairs (map (fun n => (n, m !!! n)) names)).
    apply map_of_pairs_perm, map_pairs_along, sortStrings_perm.
  - apply Forall_forall. intros n Hin. pose proof Hin as Hin'.
    apply elem_of_sorted_keys in Hin' as [e He]. exists e. destruct (Hm _ _ He) as (? & ? & ? & ?).
    do 5 (split; [done|]). rewrite Forall_forall in Hd. apply Hd.
    apply list_elem_of_fmap. exists n. by rewrite (lookup_total_correct _ _ _ He).
  - by left.
  - rewrite length_app.
    enough (forall e, (0 < length (put_ventry m e))%nat) as He
      by (pose proof (concat_map_length (put_ventry m) names He); lia).
    intros e. unfold put_ventry, put_vec. rewrite !length_app.
    pose proof (put_uvarint_length_pos (len (Vec (m !!! e)))). lia.
Qed.

(** ** Determinism *)

(** Scores the order is total on. *)
Lemma f64_ltb_key a b : IsNaN a = false -> IsNaN b = false -> f64_ltb a b = (f64_key a <? f64_key b).
Proof. intros Ha Hb. unfold f64_ltb. by rewrite Ha, Hb. Qed.
Lemma f64_eqb_key a b : IsNaN a = false -> IsNaN b = false -> f64_eqb a b = (f64_key a =? f64_key b).
Proof. intros Ha Hb. unfold f64_eqb. by rewrite Ha, Hb. Qed.

Definition zpair_num (p : bytes * Z) : Prop := IsNaN p.2 = false.

Lemma zpair_less_spec p q : zpair_num p -> zpair_num q ->
  zpair_less p q = true <->
  f64_key p.2 < f64_key q.2 \/ (f64_key p.2 = f64_key q.2 /\ bytes_ltb p.1 q.1 = true).
Proof.
  intros Hp Hq. unfold zpair_less. rewrite f64_ltb_key, f64_eqb_key by done.
  rewrite orb_true_iff, andb_true_iff, Z.ltb_lt, Z.eqb_eq. done.
Qed.

Lemma zpair_nless_spec p q : zpair_num p -> zpair_num q ->
  zpair_less p q = false <->
  f64_key q.2 < f64_key p.2 \/ (f64_key p.2 = f64_key q.2 /\ bytes_ltb p.1 q.1 = false).
Proof.
  intros Hp Hq. rewrite <- not_true_iff_false, zpair_less_spec by done.
  destruct (bytes_ltb p.1 q.1) eqn:E; split; intros; intuition (try congruence; try lia).
Qed.

Lemma zpair_asym p q : zpair_num p -> zpair_num q -> zpair_less p q = true -> zpair_less q p = false.
Proof.
  intros Hp Hq. rewrite zpair_less_spec, zpair_nless_spec by done.
  intros [?|[? H]]; [by left|]. right. split; [lia|]. by apply bytes_ltb_asym.
Qed.

Lemma zpair_nless_trans p q s : zpair_num p -> zpair_num q -> zpair_num s ->
  zpair_less q p = false -> zpair_less s q = false -> zpair_less s p = false.
Proof.
  intros Hp Hq Hs. rewrite !zpair_nless_spec by done.
  intros [?|[? H1]] [?|[? H2]]; [left; lia .. |]. right. split; [lia|].
  by apply (bytes_nltb_trans _ q.1).
Qed.

(** ** Properties *)

(** The entry header round-trips: type tag, expiry (a signed 64-bit
    nanosecond time, negative values included) and payload come back unchanged
    from the stored bytes. *)
Theorem entry_roundtrip typ expiry payload :
  is_i64 expiry -> Decode (Encode typ expiry payload) = Ok (mkEntry typ expiry payload).
Proof. apply Decode_Encode_entry. Qed.

Lemma entry_roundtrip_witness :
  Decode (Encode TypeList (-5) (lit "abc")) = Ok (mkEntry TypeList (-5) (lit "abc")).
Proof. apply (entry_roundtrip TypeList (-5) (lit "abc")). unfold is_i64. lia. Defined.

(** The list, hash, set and sorted-set payloads all decode to the
    collection they were encoded from, with the encoding tag the size rules
    select (a set keeps its elements, whatever duplicates or order it was
    built from). *)
Theorem aggregates_roundtrip (l : list bytes) (h : gmap bytes bytes) (ms : list bytes) (z : gmap bytes Z) :
  strs_ok l -> hash_ok h -> is_u64 (len ms) -> Forall str_ok ms -> zset_ok z ->
  DecodeList (EncodeList l) = Ok l /\
  DecodeHash (EncodeHash h) = Ok (h, hash_encoding h) /\
  (exists enc, DecodeSet (EncodeSet ms) = Ok (list_to_set ms, enc)) /\
  DecodeZSet (EncodeZSet z) = Ok (z, zset_encoding z).
Proof.
  intros; split_and!;
    eauto using DecodeList_EncodeList, DecodeHash_EncodeHash, DecodeSet_EncodeSet, DecodeZSet_EncodeZSet.
Qed.

Lemma aggregates_roundtrip_witness :
  DecodeList (EncodeList [lit "a"; []]) = Ok [lit "a"; []] /\
  DecodeHash (EncodeHash {[lit "f" := lit "v"]}) = Ok ({[lit "f" := lit "v"]}, hash_encoding {[lit "f" := lit "v"]}) /\
  (exists enc, DecodeSet (EncodeSet [lit "1"; lit "1"]) = Ok (list_to_set [lit "1"; lit "1"], enc)) /\
  DecodeZSet (EncodeZSet {[lit "m" := 4607182418800017408]}) =
  Ok ({[lit "m" := 4607182418800017408]}, zset_encoding {[lit "m" := 4607182418800017408]}).
Proof.
  apply (aggregates_roundtrip [lit "a"; []] {[lit "f" := lit "v"]} [lit "1"; lit "1"] {[lit "m" := 4607182418800017408]}).
  - split; [vm_compute; discriminate|]. repeat constructor; vm_compute; (discriminate || reflexivity).
  - split; [vm_compute; split; (discriminate || reflexivity)|].
    apply map_Forall_singleton. vm_compute. repeat split; (discriminate || reflexivity).
  - vm_compute. split; (discriminate || reflexivity).
  - repeat constructor; vm_compute; (discriminate || reflexivity).
  - split; [vm_compute; split; (discriminate || reflexivity)|].
    apply map_Forall_singleton. vm_compute. repeat split; (discriminate || reflexivity).
Defined.

(** A vector set decodes to itself, and it is only encoded when all of
    its vectors have the same dimension. *)
Theorem vector_roundtrip m raw :
  vector_ok m -> EncodeVector m = Ok raw ->
  DecodeVector raw = Ok m /\
  (forall n1 n2 e1 e2, m !! n1 = Some e1 -> m !! n2 = Some e2 -> len (Vec e1) = len (Vec e2)).
Proof.
  intros Hok E. split; [by eapply DecodeVector_EncodeVector|]. unfold EncodeVector in E.
  destruct (check_dims _ _) eqn:Hc; [|done]. apply check_dims_all in Hc as [d Hd].
  rewrite Forall_forall in Hd. intros n1 n2 e1 e2 H1 H2.
  assert (forall n e, m !! n = Some e -> len (Vec e) = d) as G; [|by rewrite (G _ _ H1), (G _ _ H2)].
  intros n e He. apply Hd, list_elem_of_fmap. exists n. rewrite (lookup_total_correct _ _ _ He).
  split; [done|]. apply elem_of_sorted_keys. eauto.
Qed.

Definition vec_example : gmap bytes VEntry := {[lit "a" := mkVEntry [0; 1] []]}.
Definition vec_example_raw : bytes := match EncodeVector vec_example with Ok raw => raw | _ => [] end.

Lemma vector_roundtrip_witness : DecodeVector vec_example_raw = Ok vec_example.
Proof.
  refine (proj1 (vector_roundtrip vec_example vec_example_raw _ _)).
  - split; [vm_compute; split; (discriminate || reflexivity)|].
    apply map_Forall_singleton. split; [vm_compute; split; (discriminate || reflexivity)|].
    split; [vm_compute; split; (discriminate || reflexivity)|]. split; [|vm_compute; discriminate].
    repeat (apply Forall_cons_2; [vm_compute; split; (discriminate || reflexivity)|]). apply Forall_nil_2.
  - vm_compute. reflexivity.
Defined.

(** The encodings are deterministic: the stored bytes of a hash, a set or
    a sorted set (with numeric scores) do not depend on the order in which Go
    happens to range over the map. *)
Theorem encoding_deterministic (h : gmap bytes bytes) (fields : list bytes)
    (s : gset bytes) (uniq : list bytes) (z : gmap bytes Z) (pairs : list (bytes * Z)) :
  fields ≡ₚ map_keys h -> uniq ≡ₚ elements s -> pairs ≡ₚ map_to_list z ->
  map_Forall (fun _ f => IsNaN f = false) z ->
  EncodeHash_from fields h = EncodeHash h /\
  EncodeSet_from uniq = EncodeSet_from (elements s) /\
  EncodeZSet_from pairs z = EncodeZSet z.
Proof.
  intros Hf Hu Hp Hz. unfold EncodeHash, EncodeZSet, EncodeHash_from, EncodeSet_from, EncodeZSet_from.
  rewrite (sortStrings_unique _ _ Hf), (sortStrings_unique _ _ Hu). do 2 (split; [done|]).
  unfold sortZSetPairs. rewrite (isort_unique zpair_less zpair_num zpair_asym zpair_nless_trans _ _) with (3 := Hp); [done|..].
  - rewrite Hp. apply Forall_forall. intros [k v] Hin. apply elem_of_map_to_list in Hin. exact (Hz _ _ Hin).
  - intros [k1 v1] [k2 v2] H1 H2. rewrite Hp in H1, H2. apply elem_of_map_to_list in H1, H2.
    pose proof (Hz _ _ H1). pose proof (Hz _ _ H2). rewrite !zpair_nless_spec by done. cbn.
    intros [?|[? E1]] [?|[? E2]]; try lia. rewrite (bytes_nltb_antisym _ _ E1 E2) in *. congruence.
Qed.

Lemma encoding_deterministic_witness :
  EncodeHash_from [lit "b"; lit "a"] {[lit "a" := lit "1"; lit "b" := lit "2"]} = EncodeHash {[lit "a" := lit "1"; lit "b" := lit "2"]} /\
  EncodeSet_from [] = EncodeSet_from (elements (∅ : gset bytes)) /\
  EncodeZSet_from [] ∅ = EncodeZSet ∅.
Proof.
  apply (encoding_deterministic {[lit "a" := lit "1"; lit "b" := lit "2"]} [lit "b"; lit "a"] ∅ [] ∅ []).
  - change (map_keys _) with (map_keys ({[lit "a" := lit "1"; lit "b" := lit "2"]} : gmap bytes bytes)).
    vm_compute. first [reflexivity | apply Permutation_swap].
  - reflexivity.
  - reflexivity.
  - apply map_Forall_empty.
Defined.

(** The storage key of each type of value. *)
Definition type_keys : list (bytes -> bytes) :=
  [StringKey; HashKey; ListKey; SetKey; ZSetKey; HLLKey; StreamKey; VectorKey].

(** The keyspaces of the types are disjoint and injective: two storage
    keys are equal only when both the type and the user key are, so values of
    different types never overwrite one another. *)
Theorem storage_keys_injective i j fi fj k1 k2 :
  type_keys !! i = Some fi -> type_keys !! j = Some fj -> fi k1 = fj k2 -> i = j /\ k1 = k2.
Proof.
  intros Hi Hj E.
  destruct i as [|[|[|[|[|[|[|[|i]]]]]]]]; try done;
    destruct j as [|[|[|[|[|[|[|[|j]]]]]]]]; try done;
    injection Hi as <-; injection Hj as <-; vm_compute in E; simplify_eq; done.
Qed.

Lemma storage_keys_injective_witness :
  type_keys !! 3%nat = Some SetKey /\ SetKey (lit "k") = SetKey (lit "k") /\ (3 = 3)%nat /\ lit "k" = lit "k".
Proof.
  split; [reflexivity|]. split; [reflexivity|].
  apply (storage_keys_injective 3 3 SetKey SetKey (lit "k") (lit "k")); reflexivity.
Defined.

(** The sidecar key that holds the field expiries of a hash is the storage
    key of the stream of the same name (hash.go says the [x:] prefix overlaps
    no type prefix). *)
Theorem hash_sidecar_is_stream_key key : HashExpKey key = StreamKey key.
Proof. reflexivity. Qed.

(** A sorted-set payload whose member length is within eight of 2^64
    passes the truncation guard by wrap-around and makes the decoder panic on
    a negative slice bound. *)
Theorem DecodeZSet_wrap_panics enc mlen rest :
  2 ^ 64 - 8 <= mlen < 2 ^ 64 -> u64 (mlen + 8) <= len rest ->
  DecodeZSet (enc :: put_uvarint 10 1 ++ put_uvarint 10 mlen ++ rest) = Panic.
Proof.
  intros Hm Hr. unfold DecodeZSet. rewrite read_count_app by (unfold is_u64; lia). cbn [res_bind].
  cbn [read_n]. zdec. unfold read_zpair. rewrite put_uvarint_app by (unfold is_u64; lia).
  pose proof (put_uvarint_pos 9 mlen).
  replace (Z.to_nat (len (put_uvarint 10 mlen))) with (length (put_uvarint 10 mlen)) by (unfold len; lia).
  rewrite drop_app_length. zdec.
  assert (i64 mlen < 0) as Hneg.
  { unfold i64. replace (mlen + 2 ^ 63) with (mlen - 2 ^ 63 + 1 * 2 ^ 64) by lia.
    rewrite Z.mod_add, Z.mod_small by lia. lia. }
  zdec. done.
Qed.

Lemma DecodeZSet_wrap_panics_witness :
  DecodeZSet ("000"%char :: put_uvarint 10 1 ++ put_uvarint 10 (2 ^ 64 - 8) ++ []) = Panic.
Proof. apply (DecodeZSet_wrap_panics "000" (2 ^ 64 - 8) []); vm_compute; try split; discriminate || reflexivity. Defined.

End datastruct.
