(* ===== verification/StreamDs.v ===== *)
(** * Streams (src/internal/datastruct/stream.go)

    Entry ids, the pending-entries list and consumer table of a group, and the
    binary encoding of a whole stream.  A pending record is a value: the code
    replaces records in the list and never shares one between two groups. *)

From S2P Require Import Prelude GoLib GoStrings Codec.
Open Scope Z_scope.
Open Scope gedis_scope.

Module stream.
Import datastruct.

(** ** Ids *)

Record StreamID : Type := mkID { Ms : Z; Seq : Z }.

#[export] Instance StreamID_eq_dec : EqDecision StreamID.
Proof. solve_decision. Defined.

Definition Less (id o : StreamID) : bool :=
  if negb (Ms id =? Ms o) then Ms id <? Ms o else Seq id <? Seq o.

Definition Compare (id o : StreamID) : Z :=
  if Less id o then -1 else if Less o id then 1 else 0.

Definition String_ (id : StreamID) : bytes := FormatUint (Ms id) ++ lit "-" ++ FormatUint (Seq id).

(** Returns the id and whether the (rest of the) id is to be generated. *)
Definition StreamParseID (s : bytes) : result (StreamID * bool) :=
  let invalid := fail "ERR Invalid stream ID specified as stream command argument" in
  if bytes_eqb s (lit "*") then Ok (mkID 0 0, true) else
  match Cut s "-" with
  | None => match ParseUint s with
            | None => invalid
            | Some ms => Ok (mkID ms 0, false)
            end
  | Some (msStr, seqStr) =>
      match ParseUint msStr with
      | None => invalid
      | Some ms =>
          if bytes_eqb seqStr (lit "*") then Ok (mkID ms 0, true) else
          match ParseUint seqStr with
          | None => invalid
          | Some seq => if existsb (Ascii.eqb "-") seqStr then invalid else Ok (mkID ms seq, false)
          end
      end
  end.

Definition StreamMinID : StreamID := mkID 0 0.
Definition StreamMaxID : StreamID := mkID (2 ^ 64 - 1) (2 ^ 64 - 1).

(** ** Records *)

Record StreamEntry : Type := mkSEntry { ID : StreamID; Fields : list bytes }.
Record StreamPEL : Type := mkPEL { pID : StreamID; Consumer : bytes; DeliveryMs : Z; Count : Z }.
Record StreamConsumer : Type :=
  mkConsumer { Name : bytes; SeenMs : Z; ActiveMs : Z; HasActive : bool }.
Record StreamGroup : Type := mkGroup {
  gName : bytes;
  LastID : StreamID;
  EntriesRead : Z;
  HasRead : bool;
  Consumers : list StreamConsumer;
  PEL : list StreamPEL;
}.
Record Stream : Type := mkStream {
  Entries : list StreamEntry;
  Last : StreamID;
  HasLast : bool;
  Added : Z;
  MaxDeleted : StreamID;
  Groups : list StreamGroup;
}.

Definition set_consumers (g : StreamGroup) (cs : list StreamConsumer) : StreamGroup :=
  mkGroup (gName g) (LastID g) (EntriesRead g) (HasRead g) cs (PEL g).
Definition set_pel (g : StreamGroup) (p : list StreamPEL) : StreamGroup :=
  mkGroup (gName g) (LastID g) (EntriesRead g) (HasRead g) (Consumers g) p.

(** ** Group operations *)

Fixpoint find_consumer (i : Z) (cs : list StreamConsumer) (name : bytes) : Z :=
  match cs with
  | [] => -1
  | c :: cs' => if bytes_eqb (Name c) name then i else find_consumer (i + 1) cs' name
  end.
Definition FindConsumer (g : StreamGroup) (name : bytes) : Z := find_consumer 0 (Consumers g) name.

Definition EnsureConsumer (g : StreamGroup) (name : bytes) (nowMs : Z) : Z * StreamGroup :=
  let i := FindConsumer g name in
  if 0 <=? i then (i, g)
  else let cs := Consumers g ++ [mkConsumer name nowMs 0 false] in
       (len cs - 1, set_consumers g cs).

Definition FindPEL (g : StreamGroup) (id : StreamID) : option StreamPEL :=
  List.find (fun p => bool_decide (pID p = id)) (PEL g).

Fixpoint upsert_pel (p : StreamPEL) (l : list StreamPEL) : list StreamPEL :=
  match l with
  | [] => [p]
  | e :: l' => if bool_decide (pID e = pID p) then p :: l'
               else if Less (pID p) (pID e) then p :: e :: l'
               else e :: upsert_pel p l'
  end.
Definition UpsertPEL (g : StreamGroup) (p : StreamPEL) : StreamGroup := set_pel g (upsert_pel p (PEL g)).

Fixpoint del_pel (id : StreamID) (l : list StreamPEL) : bool * list StreamPEL :=
  match l with
  | [] => (false, [])
  | e :: l' => if bool_decide (pID e = id) then (true, l')
               else let '(b, l'') := del_pel id l' in (b, e :: l'')
  end.
Definition DelPEL (g : StreamGroup) (id : StreamID) : bool * StreamGroup :=
  let '(b, l) := del_pel id (PEL g) in (b, set_pel g l).

(** ** Stream operations *)

Definition StreamNew : Stream := mkStream [] (mkID 0 0) false 0 (mkID 0 0) [].

Definition Add (s : Stream) (id : StreamID) (fields : list bytes) : Stream :=
  mkStream (Entries s ++ [mkSEntry id fields]) (Last s) (HasLast s) (Added s) (MaxDeleted s) (Groups s).

Definition Top (s : Stream) : option StreamID :=
  match last (Entries s) with Some e => Some (ID e) | None => None end.

(** ** Encoding *)

Definition pu (n : Z) : bytes := put_uvarint 10 n.
Definition pbool (b : bool) : bytes := pu (if b then 1 else 0).

Definition put_entry (e : StreamEntry) : bytes :=
  pu (Ms (ID e)) ++ pu (Seq (ID e)) ++ pu (len (Fields e)) ++ concat (map put_str (Fields e)).
Definition put_consumer (c : StreamConsumer) : bytes :=
  put_str (Name c) ++ pu (SeenMs c) ++ pbool (HasActive c) ++ pu (ActiveMs c).
Definition put_pel (p : StreamPEL) : bytes :=
  pu (Ms (pID p)) ++ pu (Seq (pID p)) ++ put_str (Consumer p) ++ pu (DeliveryMs p) ++ pu (Count p).
Definition put_group (g : StreamGroup) : bytes :=
  put_str (gName g) ++ pu (Ms (LastID g)) ++ pu (Seq (LastID g)) ++ pbool (HasRead g) ++
  pu (EntriesRead g) ++
  pu (len (Consumers g)) ++ concat (map put_consumer (Consumers g)) ++
  pu (len (PEL g)) ++ concat (map put_pel (PEL g)).

Definition EncodeStream (s : Stream) : bytes :=
  pu (len (Entries s)) ++ concat (map put_entry (Entries s)) ++
  pu (Ms (Last s)) ++ pu (Seq (Last s)) ++ pbool (HasLast s) ++ pu (Added s) ++
  pu (Ms (MaxDeleted s)) ++ pu (Seq (MaxDeleted s)) ++
  pu (len (Groups s)) ++ concat (map put_group (Groups s)).

(** ** Decoding *)

Definition bad_stream : string := "datastruct: bad stream payload".
(** readUvarint and readStreamStr under the source's [if ...; !ok { return bad() }]. *)
Definition readUvarint (b : bytes) : result (Z * bytes) := read_count b bad_stream.
Definition readStreamStr (b : bytes) : result (bytes * bytes) := or_fail (read_str b) bad_stream.

(** [x, rest, _ = readUvarint(rest)]: on failure 0, and nothing consumed. *)
Definition read_lax (b : bytes) : Z * bytes :=
  match readUvarint b with Ok p => p | _ => (0, b) end.

Definition read_entry (r : bytes) : result (StreamEntry * bytes) :=
  let? (ms, r) := readUvarint r in
  let? (seq, r) := readUvarint r in
  let? (nf, r) := readUvarint r in
  let? (fields, r) := read_n readStreamStr (S (length r)) nf r in
  if negb (len fields mod 2 =? 0) then fail bad_stream
  else Ok (mkSEntry (mkID ms seq) fields, r).

Definition read_consumer (r : bytes) : result (StreamConsumer * bytes) :=
  let? (name, r) := readStreamStr r in
  let? (seen, r) := readUvarint r in
  let? (ha, r) := readUvarint r in
  let? (active, r) := readUvarint r in
  Ok (mkConsumer name seen active (negb (ha =? 0)), r).

Definition read_pel (r : bytes) : result (StreamPEL * bytes) :=
  let? (ms, r) := readUvarint r in
  let? (seq, r) := readUvarint r in
  let? (c, r) := readStreamStr r in
  let? (dm, r) := readUvarint r in
  let? (cnt, r) := readUvarint r in
  Ok (mkPEL (mkID ms seq) c dm cnt, r).

Definition read_group (r : bytes) : result (StreamGroup * bytes) :=
  let? (name, r) := readStreamStr r in
  let? (ms, r) := readUvarint r in
  let? (seq, r) := readUvarint r in
  let? (hr, r) := readUvarint r in
  let? (er, r) := readUvarint r in
  let? (nc, r) := readUvarint r in
  let? (cs, r) := read_n read_consumer (S (length r)) nc r in
  let? (np, r) := readUvarint r in
  let? (pel, r) := read_n read_pel (S (length r)) np r in
  Ok (mkGroup name (mkID ms seq) er (negb (hr =? 0)) cs pel, r).

Definition DecodeStream (raw : bytes) : result Stream :=
  let? (n, r) := readUvarint raw in
  let? (entries, r) := read_n read_entry (S (length r)) n r in
  let '(lms, r) := read_lax r in
  let '(lseq, r) := read_lax r in
  let? (hl, r) := readUvarint r in
  let? (added, r) := readUvarint r in
  let? (dms, r) := readUvarint r in
  let? (dseq, r) := readUvarint r in
  let? (ng, r) := readUvarint r in
  let? (groups, _) := read_n read_group (S (length r)) ng r in
  Ok (mkStream entries (mkID lms lseq) (negb (hl =? 0)) added (mkID dms dseq) groups).

(** ** The order on ids *)

Definition id_lt (a b : StreamID) : Prop := Ms a < Ms b \/ (Ms a = Ms b /\ Seq a < Seq b).

Lemma Less_spec a b : Less a b = true <-> id_lt a b.
Proof.
  unfold Less, id_lt. destruct (Ms a =? Ms b) eqn:E; cbn [negb]; breflect; rewrite Z.ltb_lt; lia.
Qed.

Lemma Less_false a b : Less a b = false <-> ~ id_lt a b.
Proof. rewrite <- not_true_iff_false, Less_spec. done. Qed.

Lemma id_lt_trans a b c : id_lt a b -> id_lt b c -> id_lt a c.
Proof. unfold id_lt. lia. Qed.

Lemma id_lt_irrefl a : ~ id_lt a a.
Proof. unfold id_lt. lia. Qed.

Lemma id_trichotomy a b : id_lt a b \/ a = b \/ id_lt b a.
Proof.
  unfold id_lt. destruct a as [m s], b as [m' s']; cbn.
  destruct (Z.lt_trichotomy m m') as [?|[->|?]]; [lia| |lia].
  destruct (Z.lt_trichotomy s s') as [?|[->|?]]; [lia|auto|lia].
Qed.

(** The invariant of a pending list: strictly increasing ids. *)
Definition pel_sorted (l : list StreamPEL) : Prop := StronglySorted (fun a b => id_lt (pID a) (pID b)) l.

Lemma upsert_pel_Forall (P : StreamPEL -> Prop) p l : P p -> Forall P l -> Forall P (upsert_pel p l).
Proof.
  intros Hp. induction 1 as [|e l He Hl IH]; cbn; [by repeat constructor|].
  repeat case_bool_decide; repeat case_match; repeat constructor; auto.
Qed.

Lemma upsert_pel_sorted p l : pel_sorted l -> pel_sorted (upsert_pel p l).
Proof.
  induction 1 as [|e l Hl IH He]; cbn; [repeat constructor|].
  case_bool_decide as E; [constructor; [done|]; rewrite <- E; done|].
  destruct (Less _ _) eqn:L.
  - apply Less_spec in L. constructor; [by constructor|]. constructor; [done|].
    eapply Forall_impl; [exact He|]. intros x Hx. by eapply id_lt_trans.
  - constructor; [done|]. apply upsert_pel_Forall; [|done]. apply Less_false in L.
    destruct (id_trichotomy (pID e) (pID p)) as [?|[?|?]]; [done | congruence | done].
Qed.

Definition find_pel (l : list StreamPEL) (id : StreamID) : option StreamPEL :=
  List.find (fun p => bool_decide (pID p = id)) l.

Lemma find_pel_above l id : Forall (fun e => id_lt id (pID e)) l -> find_pel l id = None.
Proof.
  induction 1 as [|e l He Hl IH]; cbn; [done|]. rewrite bool_decide_eq_false_2; [done|].
  intros E. rewrite E in He. by apply id_lt_irrefl in He.
Qed.

Lemma find_upsert_pel p l id :
  pel_sorted l -> find_pel (upsert_pel p l) id = if bool_decide (pID p = id) then Some p else find_pel l id.
Proof.
  unfold find_pel.
  induction 1 as [|e l Hl IH He]; cbn; [by case_bool_decide|].
  destruct (decide (pID e = pID p)) as [E|E].
  - rewrite (bool_decide_eq_true_2 _ E), <- E. cbn. rewrite <- E.
    by destruct (bool_decide (pID e = id)).
  - rewrite (bool_decide_eq_false_2 _ E).
    destruct (Less _ _) eqn:L; cbn; [by destruct (bool_decide (pID p = id))|].
    rewrite IH. destruct (decide (pID p = id)) as [<-|N].
    + by rewrite (bool_decide_eq_false_2 (pID e = pID p)), bool_decide_eq_true_2.
    + by rewrite (bool_decide_eq_false_2 (pID p = id)).
Qed.

Lemma del_pel_spec id l :
  pel_sorted l ->
  pel_sorted (del_pel id l).2 /\
  (del_pel id l).1 = bool_decide (is_Some (find_pel l id)) /\
  (forall j, find_pel (del_pel id l).2 j = if bool_decide (j = id) then None else find_pel l j) /\
  (forall P, Forall P l -> Forall P (del_pel id l).2).
Proof.
  unfold find_pel. induction 1 as [|e l Hl (IHs & IHb & IHf & IHP) He]; cbn.
  { split_and!; [constructor | done | by intros; case_bool_decide | auto]. }
  destruct (decide (pID e = id)) as [E|E].
  - rewrite (bool_decide_eq_true_2 _ E). cbn.
    split_and!; [done | done | | by inversion 1].
    intros j. destruct (decide (j = id)) as [->|Ej].
    + rewrite (bool_decide_eq_true_2 (id = id)) by done. rewrite <- E in *. by apply find_pel_above.
    + by rewrite !bool_decide_eq_false_2 by congruence.
  - rewrite (bool_decide_eq_false_2 _ E). destruct (del_pel id l) as [b l'] eqn:D; cbn in *.
    split_and!; [|done| |].
    + constructor; [done|]. by apply IHP.
    + intros j. rewrite IHf. destruct (decide (j = id)) as [->|Ej].
      * by rewrite (bool_decide_eq_false_2 _ E), bool_decide_eq_true_2.
      * by rewrite (bool_decide_eq_false_2 _ Ej).
    + intros P HP. inversion HP; subst. constructor; auto.
Qed.

(** ** Ids print and parse *)

Lemma is_digit_not_dash c : is_digit c = true -> Ascii.eqb c "-" = false.
Proof.
  intros H. apply Ascii.eqb_neq. intros ->. vm_compute in H. done.
Qed.

Lemma digits_no_dash s : Forall (fun c => is_digit c = true) s -> existsb (Ascii.eqb "-") s = false.
Proof.
  induction 1 as [|c s Hc Hs IH]; cbn [existsb]; [done|].
  by rewrite IH, orb_false_r, Ascii.eqb_sym, is_digit_not_dash.
Qed.

Lemma String_not_star id : 0 <= Ms id -> bytes_eqb (String_ id) (lit "*") = false.
Proof.
  intros H. apply bytes_eqb_neq. unfold String_. destruct (FormatUint_head (Ms id) H) as (d & r & Hd & ->).
  intros E. change (lit "*") with ["*"%char] in E. cbn in E. injection E as E _. subst.
  pose proof (is_digit_digit d Hd) as G. rewrite E in G. vm_compute in G. done.
Qed.

Lemma parse_String_ id :
  is_u64 (Ms id) -> is_u64 (Seq id) -> StreamParseID (String_ id) = Ok (id, false).
Proof.
  intros Hm Hs. unfold StreamParseID.
  assert (0 <= Ms id) by (unfold is_u64 in *; lia). assert (0 <= Seq id) by (unfold is_u64 in *; lia).
  rewrite String_not_star by done. unfold String_. change (lit "-") with ["-"%char]. cbn [app].
  rewrite Cut_app by (apply digits_not_elem; [by apply FormatUint_digits | done]).
  rewrite !ParseUint_FormatUint by done.
  rewrite (bytes_eqb_neq (FormatUint (Seq id)) (lit "*")).
  - rewrite digits_no_dash by (by apply FormatUint_digits). by destruct id.
  - intros E. pose proof (FormatUint_digits (Seq id) ltac:(done)) as F. rewrite E in F.
    change (lit "*") with ["*"%char] in F. apply Forall_inv in F. vm_compute in F. done.
Qed.

(** ** Reading back the encoding *)

Definition id_ok (id : StreamID) : Prop := is_u64 (Ms id) /\ is_u64 (Seq id).
Definition entry_ok (e : StreamEntry) : Prop :=
  id_ok (ID e) /\ is_u64 (len (Fields e)) /\ Forall str_ok (Fields e) /\ len (Fields e) mod 2 = 0.
Definition consumer_ok (c : StreamConsumer) : Prop :=
  str_ok (Name c) /\ is_u64 (SeenMs c) /\ is_u64 (ActiveMs c).
Definition pel_ok (p : StreamPEL) : Prop :=
  id_ok (pID p) /\ str_ok (Consumer p) /\ is_u64 (DeliveryMs p) /\ is_u64 (Count p).
Definition group_ok (g : StreamGroup) : Prop :=
  str_ok (gName g) /\ id_ok (LastID g) /\ is_u64 (EntriesRead g) /\
  is_u64 (len (Consumers g)) /\ Forall consumer_ok (Consumers g) /\
  is_u64 (len (PEL g)) /\ Forall pel_ok (PEL g).
Definition stream_ok (s : Stream) : Prop :=
  is_u64 (len (Entries s)) /\ Forall entry_ok (Entries s) /\ id_ok (Last s) /\ is_u64 (Added s) /\
  id_ok (MaxDeleted s) /\ is_u64 (len (Groups s)) /\ Forall group_ok (Groups s).

Lemma readUvarint_pu n r : is_u64 n -> readUvarint (pu n ++ r) = Ok (n, r).
Proof. intros. by apply read_count_app. Qed.

Lemma read_lax_pu n r : is_u64 n -> read_lax (pu n ++ r) = (n, r).
Proof. intros. unfold read_lax. by rewrite readUvarint_pu. Qed.

Lemma readUvarint_pbool b r : readUvarint (pbool b ++ r) = Ok (if b then 1 else 0, r).
Proof. apply readUvarint_pu. unfold is_u64. destruct b; lia. Qed.

Lemma pbool_back (b : bool) : negb ((if b then 1 else 0) =? 0) = b.
Proof. by destruct b. Qed.

Lemma readStreamStr_put s r : str_ok s -> readStreamStr (put_str s ++ r) = Ok (s, r).
Proof. intros. unfold readStreamStr. by rewrite read_str_app. Qed.

(** A loop over encoded items, with the bound the decoder uses. *)
Lemma read_items {A} (enc : A -> bytes) rd (P : A -> Prop) (es : list A) r :
  (forall e q, P e -> rd (enc e ++ q) = Ok (e, q)) -> (forall e, (0 < length (enc e))%nat) ->
  Forall P es ->
  read_n rd (S (length (concat (map enc es) ++ r))) (len es) (concat (map enc es) ++ r) = Ok (es, r).
Proof.
  intros Hrd Hpos HP. apply read_n_enc.
  - eapply Forall_impl; [exact HP|]. intros e He q. by apply Hrd.
  - rewrite length_app. pose proof (concat_map_length enc es Hpos). lia.
Qed.

Lemma pu_length n r : (0 < length (pu n ++ r))%nat.
Proof. rewrite length_app. unfold pu. pose proof (put_uvarint_length_pos n). lia. Qed.

Lemma put_str_app_length s r : (0 < length (put_str s ++ r))%nat.
Proof. rewrite length_app. pose proof (put_str_length s). lia. Qed.

(** Step over the fields at the front of the input. *)
Ltac read_step :=
  rewrite <- ?app_assoc;
  repeat (first [ rewrite readUvarint_pu by done | rewrite readUvarint_pbool
                | rewrite readStreamStr_put by done | rewrite read_lax_pu by done ]; cbn [res_bind]).

Lemma read_entry_put e q : entry_ok e -> read_entry (put_entry e ++ q) = Ok (e, q).
Proof.
  intros ([Hm Hs] & Hl & Hf & Hev). unfold read_entry, put_entry. read_step.
  rewrite (read_items put_str readStreamStr str_ok); [|intros; by apply readStreamStr_put|apply put_str_length|done].
  cbn [res_bind]. rewrite Hev. cbn. by destruct e as [[]].
Qed.

Lemma read_consumer_put c q : consumer_ok c -> read_consumer (put_consumer c ++ q) = Ok (c, q).
Proof.
  intros (Hn & Hs & Ha). unfold read_consumer, put_consumer. read_step. rewrite pbool_back. by destruct c.
Qed.

Lemma read_pel_put p q : pel_ok p -> read_pel (put_pel p ++ q) = Ok (p, q).
Proof.
  intros ([Hm Hs] & Hc & Hd & Hn). unfold read_pel, put_pel. read_step. by destruct p as [[]].
Qed.

Lemma read_group_put g q : group_ok g -> read_group (put_group g ++ q) = Ok (g, q).
Proof.
  intros (Hn & [Hm Hs] & Hr & Hlc & Hc & Hlp & Hp). unfold read_group, put_group. read_step.
  rewrite (read_items put_consumer read_consumer consumer_ok);
    [|intros; by apply read_consumer_put|intros; apply put_str_app_length|done].
  cbn [res_bind]. read_step.
  rewrite (read_items put_pel read_pel pel_ok);
    [|intros; by apply read_pel_put|intros; apply pu_length|done].
  cbn [res_bind]. rewrite pbool_back. by destruct g as [? []].
Qed.

Lemma DecodeStream_EncodeStream s : stream_ok s -> DecodeStream (EncodeStream s) = Ok s.
Proof.
  intros (Hl & He & [Hm Hs] & Ha & [Hdm Hds] & Hlg & Hg). unfold DecodeStream, EncodeStream. read_step.
  rewrite (read_items put_entry read_entry entry_ok);
    [|intros; by apply read_entry_put|intros; apply pu_length|done].
  cbn [res_bind]. read_step.
  rewrite <- (app_nil_r (concat _)), (read_items put_group read_group group_ok);
    [|intros; by apply read_group_put|intros; apply put_str_app_length|done].
  cbn [res_bind]. rewrite pbool_back. by destruct s as [? [] ? ? []].
Qed.

(** ** Consumers *)

Lemma find_consumer_spec i cs name :
  let k := find_consumer i cs name in
  (k = -1 /\ Forall (fun c => Name c <> name) cs) \/
  (i <= k /\ exists c, cs !! Z.to_nat (k - i) = Some c /\ Name c = name).
Proof.
  revert i; induction cs as [|c cs IH]; intros i; cbn; [left; by constructor|].
  destruct (bytes_eqb_spec (Name c) name) as [E|E].
  - right. split; [lia|]. exists c. by rewrite Z.sub_diag.
  - destruct (IH (i + 1)) as [[-> H]|(H1 & d & H2 & H3)].
    + left. split; [done|]. by constructor.
    + right. split; [lia|]. exists d. split; [|done].
      replace (Z.to_nat (find_consumer (i + 1) cs name - i))
        with (S (Z.to_nat (find_consumer (i + 1) cs name - (i + 1)))) by lia. done.
Qed.

Lemma find_consumer_snoc i cs name c :
  Forall (fun c => Name c <> name) cs -> Name c = name ->
  find_consumer i (cs ++ [c]) name = i + len cs.
Proof.
  intros H Hc. revert i; induction H as [|d cs Hd H IH]; intros i; cbn.
  - rewrite Hc, bytes_eqb_refl. unfold len; cbn; lia.
  - rewrite bytes_eqb_neq by done. rewrite IH, len_cons. lia.
Qed.

(** ** Properties *)

(** A stream (entries, last id, counters, groups with their consumers and
    pending lists) decodes from its stored bytes to itself. *)
Theorem stream_roundtrip s : stream_ok s -> DecodeStream (EncodeStream s) = Ok s.
Proof. apply DecodeStream_EncodeStream. Qed.

Definition stream_example : Stream :=
  mkStream [mkSEntry (mkID 5 1) [lit "f"; lit "v"]] (mkID 5 1) true 1 (mkID 0 0)
    [mkGroup (lit "g") (mkID 5 1) 1 true [mkConsumer (lit "c") 7 8 true] [mkPEL (mkID 5 1) (lit "c") 8 1]].

Lemma stream_roundtrip_witness : DecodeStream (EncodeStream stream_example) = Ok stream_example.
Proof.
  apply (stream_roundtrip stream_example).
  unfold stream_ok, stream_example, entry_ok, group_ok, consumer_ok, pel_ok, id_ok, str_ok; cbn [Entries Last Added MaxDeleted Groups].
  repeat match goal with
  | |- _ /\ _ => split
  | |- Forall _ [] => apply Forall_nil_2
  | |- Forall _ (_ :: _) => apply Forall_cons_2
  | |- Forall _ (Fields _) => cbn [Fields]
  | |- Forall _ (Consumers _) => cbn [Consumers]
  | |- Forall _ (PEL _) => cbn [PEL]
  | |- is_u64 _ => vm_compute; split; (discriminate || reflexivity)
  | |- str_ok _ => vm_compute; split; (discriminate || reflexivity)
  end.
  reflexivity.
Defined.

(** An id survives printing and strict parsing, for every pair of 64-bit
    components, and is never taken for one of the generated forms. *)
Theorem stream_id_roundtrip id :
  id_ok id -> StreamParseID (String_ id) = Ok (id, false).
Proof. intros [? ?]. by apply parse_String_. Qed.

Lemma stream_id_roundtrip_witness :
  StreamParseID (String_ (mkID 18446744073709551615 0)) = Ok (mkID 18446744073709551615 0, false).
Proof.
  apply (stream_id_roundtrip (mkID 18446744073709551615 0)). split; cbn; unfold is_u64; lia.
Defined.

(** On a pending list sorted by id, UpsertPEL keeps the list sorted and
    makes it the map update at that id; DelPEL keeps it sorted, reports
    whether the id was pending, and removes that record and no other. *)
Theorem pel_is_sorted_map g p id :
  pel_sorted (PEL g) ->
  pel_sorted (PEL (UpsertPEL g p)) /\
  (forall j, FindPEL (UpsertPEL g p) j = if bool_decide (pID p = j) then Some p else FindPEL g j) /\
  pel_sorted (PEL (DelPEL g id).2) /\
  (DelPEL g id).1 = bool_decide (is_Some (FindPEL g id)) /\
  (forall j, FindPEL (DelPEL g id).2 j = if bool_decide (j = id) then None else FindPEL g j).
Proof.
  intros Hs. unfold UpsertPEL, DelPEL, FindPEL; cbn. destruct (del_pel_spec id (PEL g) Hs) as (D1 & D2 & D3 & _).
  destruct (del_pel id (PEL g)) as [b l] eqn:E; cbn in *.
  split_and!; [by apply upsert_pel_sorted | intros j; by apply find_upsert_pel | done..].
Qed.

Definition pel_example : StreamGroup :=
  mkGroup (lit "g") (mkID 0 0) 0 false [] [mkPEL (mkID 1 0) (lit "a") 0 1; mkPEL (mkID 2 5) (lit "b") 0 1].

Lemma pel_is_sorted_map_witness :
  pel_sorted (PEL (UpsertPEL pel_example (mkPEL (mkID 2 4) (lit "c") 0 1))) /\
  (DelPEL pel_example (mkID 2 5)).1 = true.
Proof.
  destruct (pel_is_sorted_map pel_example (mkPEL (mkID 2 4) (lit "c") 0 1) (mkID 2 5)) as (H1 & _ & _ & H4 & _).
  - repeat constructor; unfold id_lt; cbn; lia.
  - split; [exact H1 | exact H4].
Defined.

(** EnsureConsumer returns the index of a consumer with the requested
    name, adds one at the end exactly when there was none, and leaves every
    consumer already in the table where it is. *)
Theorem ensure_consumer_spec g name now :
  let '(i, g') := EnsureConsumer g name now in
  (exists c, Consumers g' !! Z.to_nat i = Some c /\ Name c = name) /\
  FindConsumer g' name = i /\
  (if bool_decide (Exists (fun c => Name c = name) (Consumers g)) then g' = g
   else Consumers g' = Consumers g ++ [mkConsumer name now 0 false]).
Proof.
  unfold EnsureConsumer, FindConsumer.
  destruct (find_consumer_spec 0 (Consumers g) name) as [[E H]|(H1 & c & H2 & H3)].
  - rewrite E. cbn. rewrite len_app, len_cons, len_nil. split_and!.
    + exists (mkConsumer name now 0 false). split; [|done]. unfold len.
      replace (Z.to_nat _) with (length (Consumers g)) by lia. by rewrite list_lookup_middle.
    + rewrite find_consumer_snoc by done. lia.
    + rewrite bool_decide_eq_false_2; [done|]. rewrite Exists_exists. intros (c & Hc & Hn).
      rewrite Forall_forall in H. by apply (H c).
  - zdec. rewrite Z.sub_0_r in H2. split_and!; [by exists c | done |].
    rewrite bool_decide_eq_true_2; [done|]. apply Exists_exists. exists c.
    split; [by eapply list_elem_of_lookup_2 | done].
Qed.

End stream.
