(* ===== verification/Hll.v ===== *)
(** * HyperLogLog (src/internal/datastruct/hll.go)

    Dense registers: 16384 counters of six bits packed into 12288 bytes and a
    spare one.  The hash, the packing, adding and merging are exact; the
    estimator is over a class of float64 operations, and its two loops run
    until a fixpoint of the arithmetic, within a given number of iterations. *)

From S2P Require Import Prelude GoLib GoStrings Resp.
Open Scope Z_scope.
Open Scope gedis_scope.

(** Arithmetic of package math on bit patterns. *)
Class GoFloatMath : Type := {
  fm_add : Z -> Z -> Z; fm_sub : Z -> Z -> Z; fm_mul : Z -> Z -> Z; fm_div : Z -> Z -> Z;
  fm_sqrt : Z -> Z; fm_pow : Z -> Z -> Z; fm_round : Z -> Z; fm_of_int : Z -> Z; fm_to_u64 : Z -> Z;
}.

Module hll.

Definition hllP : Z := 14.
Definition hllRegisters : Z := 16384.
Definition hllQ : Z := 50.
Definition hllRegMax : Z := 63.
Definition hllHdrSize : Z := 16.
Definition hllDenseRegs : Z := 12288.

Definition HLLNewDense : bytes := replicate (Z.to_nat (hllDenseRegs + 1)) (byte_of 0).

(** ** The hash *)

Definition murmur_m : Z := 0xc6a4a7935bd1e995.
Definition le64 (b : bytes) : Z := be_val 0 (reverse (take 8 b)).

Fixpoint murmur_blocks (n : nat) (h : Z) (key : bytes) : Z :=
  match n with
  | O => h
  | S n =>
      let k := u64 (le64 key * murmur_m) in
      let k := Z.lxor k (Z.shiftr k 47) in
      let k := u64 (k * murmur_m) in
      murmur_blocks n (u64 (Z.lxor h k * murmur_m)) (drop 8 key)
  end.

(** The bytes after the last block, from the highest down. *)
Fixpoint murmur_tail (h : Z) (i : Z) (tail : bytes) : Z :=
  match tail with
  | [] => h
  | c :: rest => Z.lxor (murmur_tail h (i + 8) rest) (Z.shiftl (byte_val c) i)
  end.

Definition murmurHash64A (key : bytes) (seed : Z) : Z :=
  let h := Z.lxor seed (u64 (len key * murmur_m)) in
  let n := (length key / 8)%nat in
  let h := murmur_blocks n h key in
  let tail := drop (8 * n) key in
  let h := match tail with [] => h | _ => u64 (murmur_tail h 0 tail * murmur_m) end in
  let h := Z.lxor h (Z.shiftr h 47) in
  let h := u64 (h * murmur_m) in
  Z.lxor h (Z.shiftr h 47).

(** The position of the lowest set bit, from 1; bit 50 is always set. *)
Fixpoint run_length (fuel : nat) (hash count : Z) : Z :=
  match fuel with
  | O => count
  | S fuel => if Z.testbit hash (count - 1) then count else run_length fuel hash (count + 1)
  end.

Definition hllPatLen (ele : bytes) : Z * Z :=
  let hash := murmurHash64A ele 0xadc83b19 in
  (Z.land hash (hllRegisters - 1), run_length 51 (Z.lor (Z.shiftr hash hllP) (Z.shiftl 1 hllQ)) 1).

(** ** The packed registers *)

Definition reg_byte (reg : bytes) (i : Z) : Z := match reg !! Z.to_nat i with Some c => byte_val c | None => 0 end.
Definition set_byte (reg : bytes) (i v : Z) : bytes := <[Z.to_nat i := byte_of v]> reg.

Definition hllDenseGet (reg : bytes) (pos : Z) : Z :=
  let b0 := pos * 6 / 8 in
  let fb := Z.land (pos * 6) 7 in
  Z.land (Z.lor (Z.shiftr (reg_byte reg b0) fb) (Z.shiftl (reg_byte reg (b0 + 1)) (8 - fb))) hllRegMax.

(** [reg[b] &= ^mask; reg[b] |= bits], on a byte. *)
Definition merge_bits (old mask bits : Z) : Z := Z.lor (Z.land old (255 - mask)) bits.

Definition hllDenseSet (reg : bytes) (pos val : Z) : bytes :=
  let b0 := pos * 6 / 8 in
  let fb := Z.land (pos * 6) 7 in
  let fb8 := 8 - fb in
  let reg := set_byte reg b0 (merge_bits (reg_byte reg b0) (Z.shiftl hllRegMax fb mod 256) (Z.shiftl val fb mod 256)) in
  if b0 + 1 <? len reg
  then set_byte reg (b0 + 1) (merge_bits (reg_byte reg (b0 + 1)) (Z.shiftr hllRegMax fb8) (Z.shiftr val fb8))
  else reg.

Definition HLLDenseAdd (reg : bytes) (ele : bytes) : bool * bytes :=
  let '(index, count) := hllPatLen ele in
  if hllDenseGet reg index <? count then (true, hllDenseSet reg index count) else (false, reg).

Definition merge_one (src : bytes) (st : bool * bytes) (i : nat) : bool * bytes :=
  let s := hllDenseGet src (Z.of_nat i) in
  if hllDenseGet st.2 (Z.of_nat i) <? s then (true, hllDenseSet st.2 (Z.of_nat i) s) else st.
Definition HLLDenseMerge (dst src : bytes) : bool * bytes :=
  foldl (merge_one src) (false, dst) (seq 0 (Z.to_nat hllRegisters)).

(** ** The stored form *)

Definition hll_header : bytes := lit "HYLL" ++ replicate 12 (byte_of 0).

Definition EncodeHLL (reg : bytes) : bytes :=
  hll_header ++ map (fun i : nat => default (byte_of 0) (reg !! i)) (seq 0 (Z.to_nat hllDenseRegs)).

Definition hll_wrongtype : goerr := EMsg (lit "WRONGTYPE Key is not a valid HyperLogLog string value.").

Definition DecodeHLL (raw : bytes) : result bytes :=
  if negb (len raw =? hllHdrSize + hllDenseRegs) then Err hll_wrongtype
  else if negb (HasPrefix raw (lit "HYLL")) then Err hll_wrongtype
  else if negb (reg_byte raw 4 =? 0) then Err hll_wrongtype
  else Ok (drop 16 raw ++ [byte_of 0]).

(** ** The estimator *)

Section count.
Context `{GoFloatMath}.

Definition f_one : Z := 0x3ff0000000000000.
Definition f_half : Z := 0x3fe0000000000000.
Definition f_two : Z := 0x4000000000000000.
Definition f_three : Z := 0x4008000000000000.
Definition f_alpha : Z := 0x3fe71547652b82fe.
Definition f_inf : Z := 0x7ff0000000000000.

Fixpoint sigma_loop (fuel : nat) (x y z : Z) : option Z :=
  match fuel with
  | O => None
  | S fuel =>
      let x := fm_mul x x in
      let z' := fm_add z (fm_mul x y) in
      if f64_eqb z z' then Some z' else sigma_loop fuel x (fm_add y y) z'
  end.
Definition hllSigma (fuel : nat) (x : Z) : option Z := if f64_eqb x f_one then Some f_inf else sigma_loop fuel x f_one x.

Fixpoint tau_loop (fuel : nat) (x y z : Z) : option Z :=
  match fuel with
  | O => None
  | S fuel =>
      let x := fm_sqrt x in
      let y := fm_mul y f_half in
      let z' := fm_sub z (fm_mul (fm_pow (fm_sub f_one x) f_two) y) in
      if f64_eqb z z' then Some z' else tau_loop fuel x y z'
  end.
Definition hllTau (fuel : nat) (x : Z) : option Z :=
  if f64_eqb x 0 || f64_eqb x f_one then Some 0
  else match tau_loop fuel x f_one (fm_sub f_one x) with Some z => Some (fm_div z f_three) | None => None end.

(** How many registers hold [v]. *)
Definition histo (reg : bytes) (v : Z) : Z :=
  len (List.filter (fun i : nat => hllDenseGet reg (Z.of_nat i) =? v) (seq 0 (Z.to_nat hllRegisters))).

Definition HLLDenseCount (fuel : nat) (reg : bytes) : option Z :=
  let m := fm_of_int hllRegisters in
  match hllTau fuel (fm_div (fm_sub m (fm_of_int (histo reg (hllQ + 1)))) m), hllSigma fuel (fm_div (fm_of_int (histo reg 0)) m) with
  | Some tau, Some sigma =>
      let z := foldl (fun z j => fm_mul (fm_add z (fm_of_int (histo reg (Z.of_nat j)))) f_half) (fm_mul m tau) (rev (seq 1 50)) in
      let z := fm_add z (fm_mul m sigma) in
      Some (fm_to_u64 (fm_round (fm_div (fm_mul (fm_mul f_alpha m) m) z)))
  | _, _ => None
  end.

End count.

(** ** Registers as a function of the position *)

Lemma reg_byte_range (reg : bytes) (i : Z) : 0 <= reg_byte reg i < 256.
Proof. unfold reg_byte. case_match; [apply byte_val_range|lia]. Qed.

Lemma reg_byte_set (reg : bytes) (i j v : Z) : 0 <= i < len reg -> 0 <= j -> 0 <= v < 256 ->
  reg_byte (set_byte reg i v) j = if decide (j = i) then v else reg_byte reg j.
Proof.
  intros Hi Hj Hv. unfold reg_byte, set_byte. destruct (decide (j = i)) as [->|Hne].
  - rewrite list_lookup_insert_eq by (unfold len in Hi; lia). by apply byte_val_of_small.
  - by rewrite list_lookup_insert_ne by lia.
Qed.

Lemma len_set_byte (reg : bytes) (i v : Z) : len (set_byte reg i v) = len reg.
Proof. unfold len, set_byte. by rewrite length_insert. Qed.

Lemma len_hllDenseSet (reg : bytes) (pos v : Z) : len (hllDenseSet reg pos v) = len reg.
Proof. unfold hllDenseSet. case_match; by rewrite ?len_set_byte. Qed.

(** The bit of a register: bit [k] of register [pos] is bit [6 pos + k] of the
    whole array, least significant bit of each byte first. *)
Definition array_bit (reg : bytes) (n : Z) : bool := Z.testbit (reg_byte reg (n / 8)) (n mod 8).

Lemma get_bit (reg : bytes) (pos k : Z) : 0 <= pos -> 0 <= k < 6 ->
  Z.testbit (hllDenseGet reg pos) k = array_bit reg (pos * 6 + k).
Proof.
  intros Hp Hk. unfold hllDenseGet, array_bit, hllRegMax. change 63 with (Z.ones 6). change 7 with (Z.ones 3).
  rewrite (Z.land_ones (pos * 6) 3) by lia. change (2 ^ 3) with 8. set (b0 := pos * 6 / 8). set (fb := (pos * 6) mod 8).
  assert (pos * 6 = 8 * b0 + fb) as E by (apply Z.div_mod; lia). assert (0 <= fb < 8) as Hf by (apply Z.mod_pos_bound; lia).
  rewrite Z.land_spec, Z.lor_spec, Z.shiftr_spec, Z.shiftl_spec, Z.testbit_ones_nonneg by lia.
  rewrite (proj2 (Z.ltb_lt k 6)), andb_true_r by lia. rewrite E.
  destruct (Z.lt_ge_cases (k + fb) 8).
  - rewrite (Z.testbit_neg_r _ (k - (8 - fb))), orb_false_r by lia.
    replace ((8 * b0 + fb + k) / 8) with b0 by (apply Z.div_unique with (fb + k); lia).
    replace ((8 * b0 + fb + k) mod 8) with (k + fb); [done|]. apply Z.mod_unique with b0; lia.
  - pose proof (reg_byte_range reg b0) as Hr.
    assert (Z.testbit (reg_byte reg b0) (k + fb) = false) as ->.
    { destruct (Z.eq_dec (reg_byte reg b0) 0) as [->|]; [apply Z.bits_0|]. apply Z.bits_above_log2; [lia|].
      apply Z.lt_le_trans with 8; [|lia]. apply Z.log2_lt_pow2; [lia|]. change (2 ^ 8) with 256. lia. }
    rewrite orb_false_l.
    replace ((8 * b0 + fb + k) / 8) with (b0 + 1) by (apply Z.div_unique with (fb + k - 8); lia).
    replace ((8 * b0 + fb + k) mod 8) with (k - (8 - fb)); [done|]. apply Z.mod_unique with (b0 + 1); lia.
Qed.

Lemma get_range (reg : bytes) (pos : Z) : 0 <= hllDenseGet reg pos < 64.
Proof. unfold hllDenseGet, hllRegMax. change 63 with (Z.ones 6). rewrite Z.land_ones by lia. apply Z.mod_pos_bound. lia. Qed.

Lemma get_ext (r1 r2 : bytes) (p1 p2 : Z) : 0 <= p1 -> 0 <= p2 ->
  (forall k, 0 <= k < 6 -> array_bit r1 (p1 * 6 + k) = array_bit r2 (p2 * 6 + k)) -> hllDenseGet r1 p1 = hllDenseGet r2 p2.
Proof.
  intros H1 H2 He. apply Z.bits_inj'. intros n Hn. destruct (Z.lt_ge_cases n 6); [rewrite !get_bit by lia; by apply He|].
  assert (forall r p, Z.testbit (hllDenseGet r p) n = false) as Hz; [|by rewrite !Hz].
  intros r p. pose proof (get_range r p). destruct (Z.eq_dec (hllDenseGet r p) 0) as [->|]; [apply Z.bits_0|].
  apply Z.bits_above_log2; [lia|]. apply Z.lt_le_trans with 6; [|lia]. apply Z.log2_lt_pow2; [lia|]. change (2 ^ 6) with 64. lia.
Qed.

Lemma small_bits (v n k : Z) : 0 <= n -> 0 <= v < 2 ^ n -> n <= k -> Z.testbit v k = false.
Proof.
  intros Hn Hv Hk. destruct (Z.eq_dec v 0) as [->|]; [apply Z.bits_0|]. apply Z.bits_above_log2; [lia|].
  apply Z.lt_le_trans with n; [|lia]. apply Z.log2_lt_pow2; lia.
Qed.

Lemma small6 (v k : Z) : 0 <= v < 64 -> 6 <= k -> Z.testbit v k = false.
Proof. intros Hv Hk. apply (small_bits v 6); [lia|exact Hv|lia]. Qed.

Lemma merge_bits_spec (old mask bits k : Z) : 0 <= mask < 256 -> 0 <= k < 8 ->
  Z.testbit (merge_bits old mask bits) k = (Z.testbit old k && negb (Z.testbit mask k)) || Z.testbit bits k.
Proof.
  intros Hm Hk. unfold merge_bits. replace (255 - mask) with (Z.land (Z.lnot mask) (Z.ones 8)).
  - rewrite Z.lor_spec, !Z.land_spec, Z.lnot_spec, Z.testbit_ones_nonneg by lia. by rewrite (proj2 (Z.ltb_lt k 8)), andb_true_r by lia.
  - rewrite Z.land_ones by lia. unfold Z.lnot. symmetry. apply Z.mod_unique with (-1); lia.
Qed.

Lemma merge_bits_range (old mask bits : Z) : 0 <= old < 256 -> 0 <= mask < 256 -> 0 <= bits < 256 -> 0 <= merge_bits old mask bits < 256.
Proof.
  intros Ho Hm Hb. unfold merge_bits. assert (0 <= Z.land old (255 - mask) < 2 ^ 8) as Hl.
  { split; [apply Z.land_nonneg; lia|]. destruct (Z.eq_dec old 0) as [->|]; [by rewrite Z.land_0_l|].
    destruct (Z.eq_dec (255 - mask) 0) as [->|]; [by rewrite Z.land_0_r|].
    apply Z.le_lt_trans with old; [|lia]. apply Z.ldiff_le; [lia|]. apply Z.bits_inj'. intros i Hi.
    rewrite Z.ldiff_spec, Z.land_spec, Z.bits_0. by destruct (Z.testbit old i), (Z.testbit (255 - mask) i). }
  change 256 with (2 ^ 8) in *. split; [apply Z.lor_nonneg; lia|].
  destruct (Z.eq_dec (Z.lor (Z.land old (2 ^ 8 - 1 - mask)) bits) 0) as [E|]; [replace (255) with (2 ^ 8 - 1) by lia; rewrite E; lia|].
  replace 255 with (2 ^ 8 - 1) in * by lia.
  apply Z.log2_lt_cancel. rewrite Z.log2_pow2, Z.log2_lor by lia. apply Z.max_lub_lt.
  - destruct (Z.eq_dec (Z.land old (2 ^ 8 - 1 - mask)) 0) as [->|]; [done|apply Z.log2_lt_pow2; lia].
  - destruct (Z.eq_dec bits 0) as [->|]; [done|apply Z.log2_lt_pow2; lia].
Qed.

Lemma mod256_bit (x k : Z) : 0 <= k < 8 -> Z.testbit (x mod 256) k = Z.testbit x k.
Proof. intros Hk. change 256 with (2 ^ 8). by rewrite Z.mod_pow2_bits_low by lia. Qed.

Lemma bit_63 (k : Z) : Z.testbit 63 k = bool_decide (0 <= k < 6).
Proof.
  destruct (Z.lt_ge_cases k 0); [rewrite Z.testbit_neg_r by lia; symmetry; apply bool_decide_eq_false; lia|].
  change 63 with (Z.ones 6). rewrite Z.testbit_ones_nonneg by lia. destruct (Z.ltb_spec k 6); symmetry; case_bool_decide; lia || done.
Qed.

(** Writing a register changes its six bits and no other. *)
Lemma set_bit (reg : bytes) (pos v n : Z) : len reg = hllDenseRegs + 1 -> 0 <= pos < hllRegisters -> 0 <= v < 64 -> 0 <= n ->
  array_bit (hllDenseSet reg pos v) n =
  if decide (pos * 6 <= n < pos * 6 + 6) then Z.testbit v (n - pos * 6) else array_bit reg n.
Proof.
  unfold hllDenseRegs, hllRegisters. intros Hl Hp Hv Hn. unfold array_bit, hllDenseSet, hllRegMax. change 7 with (Z.ones 3).
  rewrite Z.land_ones by lia. change (2 ^ 3) with 8. set (b0 := pos * 6 / 8). set (fb := (pos * 6) mod 8).
  assert (pos * 6 = 8 * b0 + fb) as E by (apply Z.div_mod; lia). assert (0 <= fb < 8) as Hf by (apply Z.mod_pos_bound; lia).
  pose proof (Z.div_mod n 8 ltac:(lia)) as En. pose proof (Z.mod_pos_bound n 8 ltac:(lia)) as Hk.
  set (q := n / 8) in *. set (k := n mod 8) in *.
  rewrite len_set_byte. rewrite (proj2 (Z.ltb_lt (b0 + 1) (len reg))) by lia.
  assert (0 <= Z.shiftr 63 (8 - fb) < 256) as Hm1.
  { rewrite Z.shiftr_div_pow2 by lia. split; [apply Z.div_pos; lia|]. apply Z.div_lt_upper_bound; [lia|]. nia. }
  assert (0 <= Z.shiftr v (8 - fb) < 256) as Hm2.
  { rewrite Z.shiftr_div_pow2 by lia. split; [apply Z.div_pos; lia|]. apply Z.div_lt_upper_bound; [lia|]. nia. }
  pose proof (reg_byte_range reg b0). pose proof (reg_byte_range reg (b0 + 1)). pose proof (Z.mod_pos_bound (Z.shiftl 63 fb) 256 ltac:(lia)).
  pose proof (Z.mod_pos_bound (Z.shiftl v fb) 256 ltac:(lia)).
  rewrite reg_byte_set; [|rewrite ?len_set_byte; lia|lia|].
  2: { apply merge_bits_range; [|done..]. rewrite reg_byte_set by (lia || by apply merge_bits_range). by destruct (decide _); [lia|]. }
  rewrite !reg_byte_set by (lia || by apply merge_bits_range).
  destruct (decide (q = b0 + 1)) as [Eq|Hq1].
  - rewrite merge_bits_spec by lia. rewrite !Z.shiftr_spec, bit_63 by lia. destruct (decide (b0 + 1 = b0)); [lia|]. rewrite Eq.
    destruct (decide (pos * 6 <= n < pos * 6 + 6)).
    + rewrite bool_decide_true by lia. rewrite andb_false_r. cbn. f_equal. lia.
    + rewrite bool_decide_false by lia. rewrite andb_true_r, (small6 v) by lia. by rewrite orb_false_r.
  - destruct (decide (q = b0)) as [Eq|Hq0].
    + rewrite merge_bits_spec by lia. rewrite !mod256_bit, !Z.shiftl_spec, bit_63 by lia. rewrite Eq.
      destruct (decide (pos * 6 <= n < pos * 6 + 6)).
      * rewrite bool_decide_true by lia. rewrite andb_false_r. cbn. f_equal. lia.
      * rewrite bool_decide_false by lia. rewrite andb_true_r. destruct (Z.lt_ge_cases (k - fb) 0).
        -- by rewrite (Z.testbit_neg_r v (k - fb)), orb_false_r by lia.
        -- by rewrite (small6 v), orb_false_r by lia.
    + destruct (decide (pos * 6 <= n < pos * 6 + 6)); [lia|done].
Qed.

Lemma get_set (reg : bytes) (pos pos' v : Z) : len reg = hllDenseRegs + 1 -> 0 <= pos < hllRegisters -> 0 <= pos' -> 0 <= v < 64 ->
  hllDenseGet (hllDenseSet reg pos v) pos' = if decide (pos' = pos) then v else hllDenseGet reg pos'.
Proof.
  intros Hl Hp Hp' Hv. destruct (decide (pos' = pos)) as [->|Hne].
  - apply Z.bits_inj'. intros n Hn. destruct (Z.lt_ge_cases n 6).
    + rewrite get_bit, set_bit by lia. destruct (decide _); [f_equal; lia|lia].
    + rewrite (small6 v) by lia. pose proof (get_range (hllDenseSet reg pos v) pos). by apply small6; lia.
  - apply get_ext; [done..|]. intros k Hk. rewrite set_bit by lia. destruct (decide _); [lia|done].
Qed.

Lemma HLLNewDense_get (pos : Z) : hllDenseGet HLLNewDense pos = 0.
Proof.
  assert (forall i, reg_byte HLLNewDense i = 0) as Hz.
  { intros i. unfold reg_byte, HLLNewDense. destruct (_ !! _) as [c|] eqn:E; [|done]. by apply lookup_replicate in E as [-> _]. }
  unfold hllDenseGet. rewrite !Hz. by rewrite Z.shiftr_0_l, Z.shiftl_0_l.
Qed.

(** The rank of an element fits a register. *)
Lemma hllPatLen_range (ele : bytes) : 0 <= (hllPatLen ele).1 < hllRegisters /\ 1 <= (hllPatLen ele).2 <= 52.
Proof.
  unfold hllPatLen, hllRegisters. cbn [fst snd]. split.
  - change (16384 - 1) with (Z.ones 14). rewrite Z.land_ones by lia. apply Z.mod_pos_bound. lia.
  - assert (forall f h c, c <= run_length f h c <= c + Z.of_nat f) as Hr.
    { induction f as [|f IH]; intros h c; cbn [run_length]; [lia|]. case_match; [lia|]. pose proof (IH h (c + 1)). lia. }
    pose proof (Hr 51%nat (Z.lor (Z.shiftr (murmurHash64A ele 0xadc83b19) hllP) (Z.shiftl 1 hllQ)) 1). lia.
Qed.

(** ** What adding and merging mean *)

Definition regs_ok (reg : bytes) : Prop := len reg = hllDenseRegs + 1.

(** The register an element sets, and the value it sets it to at least. *)
Definition mark (ele : bytes) (pos : Z) : Z := if (hllPatLen ele).1 =? pos then (hllPatLen ele).2 else 0.

Lemma add_spec (reg : bytes) (ele : bytes) (pos : Z) : regs_ok reg -> 0 <= pos ->
  hllDenseGet (HLLDenseAdd reg ele).2 pos = Z.max (hllDenseGet reg pos) (mark ele pos) /\ regs_ok (HLLDenseAdd reg ele).2.
Proof.
  intros Hl Hp. unfold HLLDenseAdd, mark. pose proof (hllPatLen_range ele) as [Hi Hc]. destruct (hllPatLen ele) as [index count]. cbn [fst snd] in *.
  destruct (Z.ltb_spec (hllDenseGet reg index) count); cbn [snd].
  - split; [|unfold regs_ok; by rewrite len_hllDenseSet]. rewrite get_set by (done || lia).
    destruct (decide (pos = index)) as [->|Hne]; [rewrite Z.eqb_refl; lia|]. rewrite (proj2 (Z.eqb_neq index pos)) by lia.
    pose proof (get_range reg pos). lia.
  - split; [|done]. destruct (Z.eqb_spec index pos) as [->|]; [lia|]. pose proof (get_range reg pos). lia.
Qed.

Lemma add_changed (reg : bytes) (ele : bytes) : (HLLDenseAdd reg ele).1 = (hllDenseGet reg (hllPatLen ele).1 <? (hllPatLen ele).2).
Proof. unfold HLLDenseAdd. destruct (hllPatLen ele). by case_match. Qed.

Lemma merge_spec (dst src : bytes) (pos : Z) : regs_ok dst -> 0 <= pos < hllRegisters ->
  hllDenseGet (HLLDenseMerge dst src).2 pos = Z.max (hllDenseGet dst pos) (hllDenseGet src pos) /\ regs_ok (HLLDenseMerge dst src).2.
Proof.
  intros Hl Hp. unfold HLLDenseMerge.
  assert (forall l st, (forall i, i ∈ l -> Z.of_nat i < hllRegisters) -> NoDup l -> regs_ok st.2 ->
    regs_ok (foldl (merge_one src) st l).2 /\
    hllDenseGet (foldl (merge_one src) st l).2 pos =
      if decide (Z.to_nat pos ∈ l) then Z.max (hllDenseGet st.2 pos) (hllDenseGet src pos) else hllDenseGet st.2 pos) as Hf.
  { induction l as [|i l IH]; intros st Hb Hd Hr; cbn [foldl]; [destruct (decide _) as [Hin|]; [by apply elem_of_nil in Hin|done]|].
    apply NoDup_cons in Hd as [Hni Hd].
    assert (regs_ok (merge_one src st i).2 /\ hllDenseGet (merge_one src st i).2 pos =
      if decide (Z.of_nat i = pos) then Z.max (hllDenseGet st.2 pos) (hllDenseGet src pos) else hllDenseGet st.2 pos) as [H1 H2].
    { pose proof (Hb i ltac:(by left)). unfold merge_one. pose proof (get_range src (Z.of_nat i)).
      destruct (Z.ltb_spec (hllDenseGet st.2 (Z.of_nat i)) (hllDenseGet src (Z.of_nat i))); cbn [snd].
      - split; [unfold regs_ok; by rewrite len_hllDenseSet|]. rewrite get_set by (done || lia).
        destruct (decide (pos = Z.of_nat i)) as [->|]; [rewrite decide_True by done; lia|by rewrite decide_False by lia].
      - split; [done|]. destruct (decide (Z.of_nat i = pos)) as [<-|]; [lia|done]. }
    destruct (IH (merge_one src st i) ltac:(intros; apply Hb; by right) Hd H1) as [H3 H4]. split; [done|]. rewrite H4, H2.
    destruct (decide (Z.to_nat pos ∈ l)) as [Hin|Hnin].
    - rewrite (decide_True (P := Z.to_nat pos ∈ i :: l)) by (by right). destruct (decide (Z.of_nat i = pos)); [lia|done].
    - destruct (decide (Z.of_nat i = pos)) as [<-|Hne].
      + rewrite Nat2Z.id. rewrite decide_True by (by left). done.
      + rewrite decide_False; [done|]. rewrite elem_of_cons. intros [<-|?]; [lia|done]. }
  destruct (Hf (seq 0 (Z.to_nat hllRegisters)) (false, dst)) as [H1 H2]; [intros i Hi; apply elem_of_seq in Hi; lia|apply NoDup_seq|done|].
  split; [|done]. rewrite H2. rewrite decide_True; [done|]. apply elem_of_seq. lia.
Qed.

End hll.
