(* ===== verification/Geo.v ===== *)
(** * Geohash scores (src/internal/datastruct/geo.go)

    A position is kept as a sorted-set score: the bits of its cell's latitude
    and longitude index, interleaved.  Constants are bit patterns. *)

From S2P Require Import Prelude GoLib GoStrings Resp Hll.
Open Scope Z_scope.
Open Scope gedis_scope.

(** Package math beyond [GoFloatMath]; the conversions to integers are those of
    the compiler for values in range. *)
Class GoFloatGeo : Type := {
  fm_sin : Z -> Z; fm_cos : Z -> Z; fm_asin : Z -> Z; fm_to_u32 : Z -> Z; fm_to_i64 : Z -> Z;
  FormatFloatPrec : Z -> Z -> bytes;   (* strconv.FormatFloat(f, 'f', prec, 64) *)
}.

Definition f64_leb (a b : Z) : bool := negb (IsNaN a) && negb (IsNaN b) && (f64_key a <=? f64_key b).
Definition f64_opp (f : Z) : Z := Z.lxor f (2 ^ 63).

Module geo.

Definition geoLatMin : Z := 0xc0554345b1a57f00.
Definition geoLatMax : Z := 0x40554345b1a57f00.
Definition geoLonMin : Z := 0xc066800000000000.
Definition geoLonMax : Z := 0x4066800000000000.
(** 170.10225756, 360, 2^26, twice the earth's radius, pi, 180, 2 *)
Definition latRange : Z := 0x40654345b1a57f00.
Definition lonRange : Z := 0x4076800000000000.
Definition stepScale : Z := 0x4190000000000000.
Definition twoRadius : Z := 0x41684f6f63e51090.
Definition f_pi : Z := 0x400921fb54442d18.
Definition f_180 : Z := 0x4066800000000000.
Definition f_2 : Z := 0x4000000000000000.

(** ** Interleaving *)

Definition interleaveMasks : list (Z * Z) :=
  [(0x0000FFFF0000FFFF, 16); (0x00FF00FF00FF00FF, 8); (0x0F0F0F0F0F0F0F0F, 4); (0x3333333333333333, 2); (0x5555555555555555, 1)].
Definition spread_by (p : Z * Z) (x : Z) : Z := Z.land (Z.lor x (u64 (Z.shiftl x p.2))) p.1.
Definition spread (x : Z) : Z := foldl (fun x p => spread_by p x) x interleaveMasks.
Definition interleave64 (xlo ylo : Z) : Z := Z.lor (spread xlo) (u64 (Z.shiftl (spread ylo) 1)).

Definition deinterleaveMasks : list (Z * Z) :=
  [(0x5555555555555555, 0); (0x3333333333333333, 1); (0x0F0F0F0F0F0F0F0F, 2); (0x00FF00FF00FF00FF, 4); (0x0000FFFF0000FFFF, 8); (0x00000000FFFFFFFF, 16)].
Definition squash_by (p : Z * Z) (x : Z) : Z := Z.land (Z.lor x (Z.shiftr x p.2)) p.1.
Definition squash (x : Z) : Z := foldl (fun x p => squash_by p x) x deinterleaveMasks.
Definition deinterleave64 (v : Z) : Z := Z.lor (squash v) (u64 (Z.shiftl (squash (Z.shiftr v 1)) 32)).

(** ** Positions *)

Section geo.
Context `{GoUnicode} `{GoFloatMath} `{GoFloatGeo}.

Definition out_of_range (lon lat : Z) : bool :=
  f64_ltb lon geoLonMin || f64_ltb geoLonMax lon || f64_ltb lat geoLatMin || f64_ltb geoLatMax lat.

(** The indices of the cell. *)
Definition lat_index (lat : Z) : Z := fm_to_u32 (fm_mul (fm_div (fm_sub lat geoLatMin) latRange) stepScale).
Definition lon_index (lon : Z) : Z := fm_to_u32 (fm_mul (fm_div (fm_sub lon geoLonMin) lonRange) stepScale).

Definition GeoEncode (lon lat : Z) : result Z :=
  if out_of_range lon lat
  then Err (EMsg (lit "ERR invalid longitude,latitude pair " ++ FormatFloatPrec lon 6 ++ lit "," ++ FormatFloatPrec lat 6))
  else Ok (fm_of_int (interleave64 (lat_index lat) (lon_index lon))).

(** The indices a score stands for. *)
Definition cell (score : Z) : Z * Z := let sep := deinterleave64 (fm_to_u64 score) in (u32 sep, u32 (Z.shiftr sep 32)).

Definition edge (min range : Z) (i : Z) : Z := fm_add min (fm_mul (fm_div (fm_of_int i) stepScale) range).
Definition GeoDecode (score : Z) : Z * Z :=
  let '(ilato, ilono) := cell score in
  let mid (min range i : Z) : Z := fm_div (fm_add (edge min range i) (edge min range (u32 (i + 1)))) f_2 in
  (mid geoLonMin lonRange ilono, mid geoLatMin latRange ilato).

Definition lonLatDeg2Rad (d : Z) : Z := fm_div (fm_mul d f_pi) f_180.

Definition GeoDistM (lon1 lat1 lon2 lat2 : Z) : Z :=
  let lat1r := lonLatDeg2Rad lat1 in
  let lon1r := lonLatDeg2Rad lon1 in
  let lat2r := lonLatDeg2Rad lat2 in
  let lon2r := lonLatDeg2Rad lon2 in
  let u := fm_sin (fm_div (fm_sub lat2r lat1r) f_2) in
  let v := fm_sin (fm_div (fm_sub lon2r lon1r) f_2) in
  fm_mul twoRadius (fm_asin (fm_sqrt (fm_add (fm_mul u u) (fm_mul (fm_mul (fm_mul (fm_cos lat1r) (fm_cos lat2r)) v) v)))).

Definition GeoUnitFactor (unit : bytes) : option Z :=
  let u := ToLower unit in
  if bytes_eqb u (lit "m") then Some 0x3ff0000000000000
  else if bytes_eqb u (lit "km") then Some 0x408f400000000000
  else if bytes_eqb u (lit "ft") then Some 0x3fd381d7dbf487fd
  else if bytes_eqb u (lit "mi") then Some 0x4099255c28f5c28f
  else None.

End geo.

(** ** The two directions are inverse

    Both are made of shifts, disjunctions and masks, so they distribute over
    disjunction and are determined by their values on single bits. *)

Definition linear (f : Z -> Z) : Prop := f 0 = 0 /\ forall a b, f (Z.lor a b) = Z.lor (f a) (f b).

Lemma u64_land (z : Z) : u64 z = Z.land z (Z.ones 64).
Proof. unfold u64. by rewrite Z.land_ones. Qed.

Lemma linear_id : linear (fun x => x).
Proof. done. Qed.
Lemma linear_comp (f g : Z -> Z) : linear f -> linear g -> linear (fun x => f (g x)).
Proof. intros [F0 F] [G0 G]. split; [by rewrite G0|]. intros a b. by rewrite G, F. Qed.
Lemma linear_lor (f g : Z -> Z) : linear f -> linear g -> linear (fun x => Z.lor (f x) (g x)).
Proof.
  intros [F0 F] [G0 G]. split; [by rewrite F0, G0|]. intros a b. rewrite F, G. rewrite !Z.lor_assoc. f_equal. rewrite <- !Z.lor_assoc. f_equal. apply Z.lor_comm.
Qed.
Lemma linear_land (m : Z) : linear (fun x => Z.land x m).
Proof. split; [done|]. intros a b. apply Z.land_lor_distr_l. Qed.
Lemma linear_u64 : linear u64.
Proof. split; [done|]. intros a b. rewrite !u64_land. apply Z.land_lor_distr_l. Qed.
Lemma linear_shiftl (s : Z) : linear (fun x => Z.shiftl x s).
Proof. split; [apply Z.shiftl_0_l|]. intros a b. apply Z.shiftl_lor. Qed.
Lemma linear_shiftr (s : Z) : linear (fun x => Z.shiftr x s).
Proof. split; [apply Z.shiftr_0_l|]. intros a b. apply Z.shiftr_lor. Qed.

Lemma linear_stages (f : Z * Z -> Z -> Z) (l : list (Z * Z)) : (forall p, linear (f p)) -> linear (fun x => foldl (fun x p => f p x) x l).
Proof.
  intros Hf. split.
  - induction l as [|p l IH]; cbn; [done|]. destruct (Hf p) as [-> _]. done.
  - induction l as [|p l IH]; intros a b; cbn; [done|]. destruct (Hf p) as [_ ->]. apply IH.
Qed.

Lemma linear_spread : linear spread.
Proof.
  apply (linear_stages spread_by). intros p. apply (linear_comp _ (fun x => Z.lor x (u64 (Z.shiftl x p.2))) (linear_land p.1)), linear_lor; [apply linear_id|].
  apply (linear_comp _ _ linear_u64), linear_shiftl.
Qed.
Lemma linear_squash : linear squash.
Proof.
  apply (linear_stages squash_by). intros p. apply (linear_comp _ (fun x => Z.lor x (Z.shiftr x p.2)) (linear_land p.1)), linear_lor; [apply linear_id|apply linear_shiftr].
Qed.
Lemma linear_deinterleave : linear deinterleave64.
Proof.
  apply linear_lor; [apply linear_squash|]. apply (linear_comp _ _ linear_u64), (linear_comp (fun x => Z.shiftl x 32) _ (linear_shiftl 32)), (linear_comp _ _ linear_squash), linear_shiftr.
Qed.

(** A number as the disjunction of its bits. *)
Definition bits_of (n : nat) (x : Z) : Z := foldr (fun k acc => Z.lor (if Z.testbit x (Z.of_nat k) then 2 ^ Z.of_nat k else 0) acc) 0 (seq 0 n).

Lemma bits_from (x : Z) (n start : nat) (i : Z) : 0 <= i ->
  Z.testbit (foldr (fun k acc => Z.lor (if Z.testbit x (Z.of_nat k) then 2 ^ Z.of_nat k else 0) acc) 0 (seq start n)) i
  = Z.testbit x i && (Z.of_nat start <=? i) && (i <? Z.of_nat (start + n)).
Proof.
  intros Hi. revert start. induction n as [|n IH]; intros start; cbn [seq foldr].
  - rewrite Z.bits_0. destruct (Z.testbit x i), (Z.leb_spec (Z.of_nat start) i), (Z.ltb_spec i (Z.of_nat (start + 0))); try done; lia.
  - rewrite Z.lor_spec, IH. assert (Z.testbit (if Z.testbit x (Z.of_nat start) then 2 ^ Z.of_nat start else 0) i = Z.testbit x i && (i =? Z.of_nat start)) as ->.
    { destruct (Z.eqb_spec i (Z.of_nat start)) as [->|N]; [|rewrite andb_false_r; destruct (Z.testbit x (Z.of_nat start)); [apply Z.pow2_bits_false; lia|apply Z.bits_0]].
      rewrite andb_true_r. destruct (Z.testbit x _); [apply Z.pow2_bits_true; lia|apply Z.bits_0]. }
    destruct (Z.testbit x i); cbn [andb]; [|done].
    destruct (Z.eqb_spec i (Z.of_nat start)), (Z.leb_spec (Z.of_nat (S start)) i), (Z.ltb_spec i (Z.of_nat (S start + n))), (Z.leb_spec (Z.of_nat start) i), (Z.ltb_spec i (Z.of_nat (start + S n)));
      try done; lia.
Qed.

Lemma bits_of_id (n : nat) (x : Z) : 0 <= x < 2 ^ Z.of_nat n -> bits_of n x = x.
Proof.
  intros Hx. apply Z.bits_inj'. intros i Hi. unfold bits_of. rewrite bits_from by done. rewrite (proj2 (Z.leb_le _ _)) by lia. rewrite andb_true_r.
  destruct (Z.ltb_spec i (Z.of_nat (0 + n))) as [|Hge]; [by rewrite andb_true_r|]. rewrite andb_false_r. destruct (Z.eq_dec x 0) as [->|N]; [by rewrite Z.bits_0|].
  symmetry. apply Z.bits_above_log2; [lia|]. apply Z.log2_lt_pow2; [lia|]. eapply Z.lt_le_trans; [apply Hx|]. apply Z.pow_le_mono_r; lia.
Qed.

(** Two functions that distribute over disjunction and agree on the first [n]
    bits agree below [2^n]. *)
Lemma linear_ext (f g : Z -> Z) (n : nat) (x : Z) : linear f -> linear g -> Forall (fun k => f (2 ^ Z.of_nat k) = g (2 ^ Z.of_nat k)) (seq 0 n) -> 0 <= x < 2 ^ Z.of_nat n -> f x = g x.
Proof.
  intros [F0 F] [G0 G] Hk Hx. rewrite <- (bits_of_id n x Hx). unfold bits_of. generalize (seq 0 n) Hk. intros l Hl.
  induction Hl as [|k l Hkl Hl IH]; cbn [foldr]; [by rewrite F0, G0|]. rewrite F, G, IH. f_equal. destruct (Z.testbit x _); [done|]. by rewrite F0, G0.
Qed.

Lemma deinterleave_lat (x : Z) : 0 <= x < 2 ^ 32 -> deinterleave64 (spread x) = x.
Proof.
  intros Hx. apply (linear_ext (fun x => deinterleave64 (spread x)) (fun x => x) 32); [apply (linear_comp _ _ linear_deinterleave), linear_spread|done| |done].
  apply (bool_decide_unpack _). vm_compute. exact I.
Qed.

Lemma deinterleave_lon (y : Z) : 0 <= y < 2 ^ 32 -> deinterleave64 (u64 (Z.shiftl (spread y) 1)) = Z.shiftl y 32.
Proof.
  intros Hy. apply (linear_ext (fun y => deinterleave64 (u64 (Z.shiftl (spread y) 1))) (fun y => Z.shiftl y 32) 32); [|apply linear_shiftl| |done].
  - apply (linear_comp _ _ linear_deinterleave), (linear_comp _ _ linear_u64), (linear_comp (fun x => Z.shiftl x 1) _ (linear_shiftl 1)), linear_spread.
  - apply (bool_decide_unpack _). vm_compute. exact I.
Qed.

Lemma deinterleave_interleave (x y : Z) : 0 <= x < 2 ^ 32 -> 0 <= y < 2 ^ 32 -> deinterleave64 (interleave64 x y) = Z.lor x (Z.shiftl y 32).
Proof. intros Hx Hy. unfold interleave64. destruct linear_deinterleave as [_ ->]. by rewrite deinterleave_lat, deinterleave_lon. Qed.

Lemma spread_bound (x : Z) : 0 <= x < 2 ^ 26 -> 0 <= spread x < 2 ^ 52.
Proof.
  intros Hx. assert (spread x = Z.land (spread x) (Z.ones 52)) as ->.
  { apply (linear_ext spread (fun x => Z.land (spread x) (Z.ones 52)) 26); [apply linear_spread|apply (linear_comp _ _ (linear_land _)), linear_spread| |done].
    apply (bool_decide_unpack _). vm_compute. exact I. }
  rewrite Z.land_ones by lia. apply Z.mod_pos_bound. lia.
Qed.

Lemma interleave_bound (x y : Z) : 0 <= x < 2 ^ 26 -> 0 <= y < 2 ^ 26 -> 0 <= interleave64 x y < 2 ^ 53.
Proof.
  intros Hx Hy. pose proof (spread_bound x Hx). pose proof (spread_bound y Hy). unfold interleave64.
  assert (u64 (Z.shiftl (spread y) 1) = 2 * spread y) as ->. { rewrite Z.shiftl_mul_pow2 by lia. unfold u64. rewrite Z.mod_small; lia. }
  split; [apply Z.lor_nonneg; lia|]. destruct (Z.eq_dec (Z.lor (spread x) (2 * spread y)) 0) as [->|N]; [lia|].
  apply Z.log2_lt_pow2; [pose proof (proj2 (Z.lor_nonneg (spread x) (2 * spread y))); lia|]. rewrite Z.log2_lor by lia.
  assert (forall z, 0 <= z < 2 ^ 53 -> Z.log2 z < 53) as Hlog. { intros z Hz. destruct (Z.eq_dec z 0) as [->|]; [done|]. apply Z.log2_lt_pow2; lia. }
  apply Z.max_lub_lt; apply Hlog; lia.
Qed.

Lemma lor_shift (x y : Z) : 0 <= x < 2 ^ 32 -> 0 <= y < 2 ^ 32 -> u32 (Z.lor x (Z.shiftl y 32)) = x /\ u32 (Z.shiftr (Z.lor x (Z.shiftl y 32)) 32) = y.
Proof.
  intros Hx Hy. unfold u32. rewrite <- !Z.land_ones by lia. rewrite Z.shiftr_lor, Z.shiftr_shiftl_l, Z.land_lor_distr_l by lia. cbn [Z.sub Z.shiftl].
  split.
  - rewrite Z.land_ones, Z.mod_small by lia. rewrite (Z.land_ones (Z.shiftl y 32)) by lia. rewrite Z.shiftl_mul_pow2, Z.mod_mul by lia. apply Z.lor_0_r.
  - rewrite Z.shiftr_div_pow2, Z.div_small by lia. rewrite Z.lor_0_l, Z.land_ones by lia. rewrite Z.mod_small; [done|]. by rewrite Z.shiftl_0_r.
Qed.

(** A position's score keeps its cell: when float64 holds integers below
    2^53 exactly, the score of a position inside the range is decoded to exactly
    the latitude and longitude index from which it was made, for every pair of
    26-bit indices; so positions in different cells have different scores. *)
Theorem geo_score_keeps_cell `{GoFloatMath} `{GoFloatGeo} (lon lat score : Z) :
  (forall n, 0 <= n < 2 ^ 53 -> fm_to_u64 (fm_of_int n) = n) -> 0 <= lat_index lat < 2 ^ 26 -> 0 <= lon_index lon < 2 ^ 26 ->
  GeoEncode lon lat = Ok score -> cell score = (lat_index lat, lon_index lon).
Proof.
  intros Hexact Hx Hy. unfold GeoEncode. destruct (out_of_range lon lat); [done|]. intros [= <-]. unfold cell.
  rewrite Hexact by (by apply interleave_bound). rewrite deinterleave_interleave by lia. cbv zeta. destruct (lor_shift (lat_index lat) (lon_index lon)) as [-> ->]; [lia|lia|done].
Qed.

(** Indices for concrete runs: every position is in the cell (5, 9), and an
    integer is its own float. *)
Definition toy_math : GoFloatMath :=
  {| fm_add := fun a _ => a; fm_sub := fun a _ => a; fm_mul := fun a _ => a; fm_div := fun a b => b; fm_sqrt := fun a => a; fm_pow := fun a _ => a;
     fm_round := fun a => a; fm_of_int := fun n => n; fm_to_u64 := fun n => n |}.
Definition toy_geo : GoFloatGeo :=
  {| fm_sin := fun a => a; fm_cos := fun a => a; fm_asin := fun a => a; fm_to_u32 := fun f => if f =? latRange then 5 else 9; fm_to_i64 := fun n => n;
     FormatFloatPrec := fun f _ => FormatInt f |}.

Lemma geo_score_keeps_cell_witness : @cell toy_math (interleave64 5 9) = (5, 9).
Proof.
  apply (@geo_score_keeps_cell toy_math toy_geo 0 0 (interleave64 5 9)).
  - intros n _. reflexivity.
  - vm_compute. split; [discriminate|reflexivity].
  - vm_compute. split; [discriminate|reflexivity].
  - vm_compute. reflexivity.
Defined.

(** At the eastern edge the index has 27 bits and the score needs 54: 2^53 + 1
    is not a float64. *)
Example eastern_edge_needs_54_bits : interleave64 1 (2 ^ 26) = 2 ^ 53 + 1.
Proof. vm_compute. reflexivity. Qed.

End geo.
