(* ===== verification/Rdb.v ===== *)
(** * The Redis RDB file format, reading
    (src/internal/rdb/encoding.go, pack.go, rdb.go, stream.go)

    A reader takes the bytes that are left and returns a value and what is
    left then.  The running checksum that the Go reader keeps is never looked
    at: Load checks the whole body.  An entry carries the one field that its
    type uses; operands of error texts are left out. *)

From S2P Require Import Prelude GoLib GoStrings Resp.
Open Scope Z_scope.
Open Scope gedis_scope.

Module rdb.

(** ** Bytes and integers *)

Definition u8 (r : bytes) : result (Z * bytes) :=
  match r with [] => fail "rdb: truncated" | c :: r' => Ok (byte_val c, r') end.

Definition readBytes (n : Z) (r : bytes) : result (bytes * bytes) :=
  if 2 ^ 32 <? n then fail "rdb: absurd length"
  else if len r <? n then fail "rdb: truncated want"
  else Ok (take (Z.to_nat n) r, drop (Z.to_nat n) r).

Definition le_bytes (n : nat) (x : Z) : bytes := reverse (be_bytes n x).
Definition le_val (b : bytes) : Z := be_val 0 (reverse b).

Definition uint_le (n : Z) (r : bytes) : result (Z * bytes) := let? (b, r) := readBytes n r in Ok (le_val b, r).
Definition uint_be (n : Z) (r : bytes) : result (Z * bytes) := let? (b, r) := readBytes n r in Ok (be_val 0 b, r).
Definition u16le := uint_le 2.
Definition u32le := uint_le 4.
Definition u64le := uint_le 8.
Definition u32be := uint_be 4.
Definition u64be := uint_be 8.

(** The two's complement value of [w] bits. *)
Definition signed (w v : Z) : Z := if 2 ^ (w - 1) <=? v then v - 2 ^ w else v.

(** ** Lengths and strings (encoding.go) *)

(** The length; or, for a special encoding, its number. *)
Inductive rlen : Type := Len (n : Z) | Special (sub : Z).

Definition readLen (r : bytes) : result (rlen * bytes) :=
  let? (b, r) := u8 r in
  let low := Z.land b 63 in
  match Z.shiftr b 6 with
  | 0 => Ok (Len low, r)
  | 1 => let? (b2, r) := u8 r in Ok (Len (Z.lor (Z.shiftl low 8) b2), r)
  | 2 => if b =? 128 then let? (v, r) := u32be r in Ok (Len v, r)
         else if b =? 129 then let? (v, r) := u64be r in Ok (Len v, r)
         else fail "rdb: illegal length prefix"
  | _ => Ok (Special low, r)
  end.

(** A length that must not be a special encoding. *)
Definition plainLen (msg : string) (r : bytes) : result (Z * bytes) :=
  let? (l, r) := readLen r in
  match l with Len n => Ok (n, r) | Special _ => fail msg end.

(** The extension bytes of a match length. *)
Fixpoint lzf_len (l : Z) (comp : bytes) : result (Z * bytes) :=
  match comp with
  | [] => fail "rdb: lzf len overrun"
  | c :: rest => let l := l + byte_val c in if byte_val c =? 255 then lzf_len l rest else Ok (l, rest)
  end.

(** Copy byte by byte from [ref] bytes back; the source may overlap what is
    being written. *)
Fixpoint lzf_copy (n ref : nat) (out : bytes) : bytes :=
  match n with
  | O => out
  | S n => lzf_copy n ref (out ++ match out !! (length out - ref)%nat with Some c => [c] | None => [] end)
  end.

Fixpoint lzf_loop (fuel : nat) (ulen : Z) (comp out : bytes) : result bytes :=
  match fuel, comp with
  | _, [] => Ok out
  | O, _ => fail "fuel"
  | S fuel, c :: comp =>
      let ctrl := byte_val c in
      if ctrl <? 32 then
        let l := ctrl + 1 in
        if len comp <? l then fail "rdb: lzf literal overrun"
        else lzf_loop fuel ulen (drop (Z.to_nat l) comp) (out ++ take (Z.to_nat l) comp)
      else
        let? (length, comp) := if Z.shiftr ctrl 5 =? 7 then lzf_len 7 comp else Ok (Z.shiftr ctrl 5, comp) in
        match comp with
        | [] => fail "rdb: lzf match overrun"
        | b :: comp =>
            let ref := Z.shiftl (Z.land ctrl 31) 8 + byte_val b + 1 in
            let length := length + 2 in
            if (len out <? ref) || (ref <? 1) then fail "rdb: lzf bad backref"
            else if ulen <? len out + length then fail "rdb: lzf overrun"
            else lzf_loop fuel ulen comp (lzf_copy (Z.to_nat length) (Z.to_nat ref) out)
        end
  end.

(** [make([]byte, 0, ulen)] panics when the file announces too much. *)
Definition readLZF (r : bytes) : result (bytes * bytes) :=
  let? (clen, r) := plainLen "rdb: lzf clen must not be special encoded" r in
  let? (ulen, r) := plainLen "rdb: lzf ulen must not be special encoded" r in
  let? (comp, r) := readBytes clen r in
  if negb (make_ok ulen 1) then Panic
  else
    let? out := lzf_loop (S (length comp)) ulen comp [] in
    if len out =? ulen then Ok (out, r) else fail "rdb: lzf length mismatch".

Definition readString (r : bytes) : result (bytes * bytes) :=
  let? (l, r) := readLen r in
  match l with
  | Len n => readBytes n r
  | Special 0 => let? (b, r) := u8 r in Ok (Itoa (signed 8 b), r)
  | Special 1 => let? (v, r) := u16le r in Ok (Itoa (signed 16 v), r)
  | Special 2 => let? (v, r) := u32le r in Ok (Itoa (signed 32 v), r)
  | Special 3 => readLZF r
  | Special _ => fail "rdb: unknown special string encoding"
  end.

(** Bit patterns of [math.Inf(1)], [math.Inf(-1)] and [math.NaN()]. *)
Definition f64_inf : Z := 0x7FF0000000000000.
Definition f64_ninf : Z := 0xFFF0000000000000.
Definition f64_nan : Z := 0x7FF8000000000001.

Definition readDouble `{GoFloat} (r : bytes) : result (Z * bytes) :=
  let? (l, r) := u8 r in
  if l =? 255 then Ok (f64_ninf, r)
  else if l =? 254 then Ok (f64_inf, r)
  else if l =? 253 then Ok (f64_nan, r)
  else
    let? (b, r) := readBytes l r in
    match ParseFloat b with Some f => Ok (f, r) | None => fail "rdb: bad double" end.

Definition readDoubleBin (r : bytes) : result (Z * bytes) := u64le r.

(** The checksum: reflected, initial value 0. *)
Definition crc_poly : Z := 0x95ac9329ac4bc9b5.
Definition crc_bit (crc : Z) : Z := if Z.odd crc then Z.lxor (Z.shiftr crc 1) crc_poly else Z.shiftr crc 1.
Definition crc64tab : list Z := map (fun i => Nat.iter 8 crc_bit (Z.of_nat i)) (seq 0 256).
Definition crc64 (crc : Z) (b : bytes) : Z :=
  foldl (fun crc c => Z.lxor (default 0 (crc64tab !! Z.to_nat (Z.lxor (crc mod 256) (byte_val c)))) (Z.shiftr crc 8)) crc b.

(** ** Packed containers (pack.go)

    In a listpack the bytes behind the entries count: [e] is how many bytes of
    the rest are not part of the entries (one for the end mark). *)

Definition avail (e : Z) (s : bytes) (n : Z) : bool := n + e <=? len s.

(** [n] bytes of text. *)
Definition lp_text (e : Z) (n : Z) (msg : string) (s : bytes) : result (bytes * bytes) :=
  if avail e s n then Ok (take (Z.to_nat n) s, drop (Z.to_nat n) s) else fail msg.
Definition lp_int (e : Z) (n : Z) (msg : string) (s : bytes) : result (bytes * bytes) :=
  if avail e s n then Ok (FormatInt (signed (8 * n) (le_val (take (Z.to_nat n) s))), drop (Z.to_nat n) s) else fail msg.

Definition listpackEntry (e : Z) (s : bytes) : result (bytes * bytes) :=
  match s with
  | [] => fail "rdb: listpack entry overrun"
  | c :: s' =>
      if negb (avail e s 1) then fail "rdb: listpack entry overrun"
      else
        let b := byte_val c in
        if Z.land b 128 =? 0 then Ok (FormatUint (Z.land b 127), s')
        else if Z.land b 192 =? 128 then lp_text e (Z.land b 63) "rdb: listpack str overrun" s'
        else if Z.land b 224 =? 192 then
          match s' with
          | c2 :: s'' =>
              if negb (avail e s' 1) then fail "rdb: listpack 13bit overrun"
              else
                let v := Z.lor (Z.shiftl (Z.land b 31) 8) (byte_val c2) in
                Ok (FormatInt (if 4096 <=? v then v - 8192 else v), s'')
          | [] => fail "rdb: listpack 13bit overrun"
          end
        else if Z.land b 240 =? 224 then
          match s' with
          | c2 :: s'' =>
              if negb (avail e s' 1) then fail "rdb: listpack 12bit overrun"
              else lp_text e (Z.lor (Z.shiftl (Z.land b 15) 8) (byte_val c2)) "rdb: listpack str12 overrun" s''
          | [] => fail "rdb: listpack 12bit overrun"
          end
        else if b =? 240 then lp_int e 2 "rdb: listpack i16 overrun" s'
        else if b =? 241 then lp_int e 3 "rdb: listpack i24 overrun" s'
        else if b =? 242 then lp_int e 4 "rdb: listpack i32 overrun" s'
        else if b =? 243 then lp_int e 8 "rdb: listpack i64 overrun" s'
        else if b =? 244 then
          if avail e s' 4 then lp_text e (le_val (take 4 s')) "rdb: listpack str32 body overrun" (drop 4 s')
          else fail "rdb: listpack str32 overrun"
        else fail "rdb: unknown listpack encoding"
  end.

(** How many bytes the length of an entry takes: seven bits each. *)
Fixpoint backlen_size (fuel : nat) (v : Z) : Z :=
  match fuel with O => 1 | S fuel => if 127 <? v then 1 + backlen_size fuel (Z.shiftr v 7) else 1 end.

(** Ten groups hold any [int]. *)
Definition backlen_width (entryLen : Z) : Z := backlen_size 9 entryLen.

(** The value of the bytes, and whether only the last one is marked (none, if
    there is one). *)
Fixpoint backlen_check (single : bool) (dec : Z) (b : bytes) : result Z :=
  match b with
  | [] => Ok dec
  | [c] => if negb single && (Z.land (byte_val c) 128 =? 0) then fail "rdb: listpack backlen missing terminator"
           else Ok (Z.lor (Z.shiftl dec 7) (Z.land (byte_val c) 127))
  | c :: rest => if negb (Z.land (byte_val c) 128 =? 0) then fail "rdb: listpack backlen early terminator"
                 else backlen_check single (Z.lor (Z.shiftl dec 7) (Z.land (byte_val c) 127)) rest
  end.

Fixpoint listpack_loop (fuel : nat) (s : bytes) : result (list bytes) :=
  if len s <=? 1 then Ok []
  else match fuel with
  | O => fail "fuel"
  | S fuel =>
      let? (t, next) := listpackEntry 1 s in
      let entryLen := len s - len next in
      let sz := backlen_width entryLen in
      if len next <? sz then fail "rdb: listpack backlen overrun"
      else
        let? dec := backlen_check (sz =? 1) 0 (take (Z.to_nat sz) next) in
        if negb (dec =? entryLen) then fail "rdb: listpack backlen mismatch"
        else let? ts := listpack_loop fuel (drop (Z.to_nat sz) next) in Ok (t :: ts)
  end.

Definition parseListpack (blob : bytes) : result (list bytes) :=
  if len blob <? 7 then fail "rdb: truncated listpack"
  else if negb (le_val (take 4 blob) =? len blob) then fail "rdb: listpack size mismatch"
  else if negb (bool_decide (last blob = Some (byte_of 255))) then fail "rdb: listpack missing EOF"
  else listpack_loop (length blob) (drop 6 blob).

Definition parseListpackDouble `{GoFloat} (s : bytes) : result Z :=
  match ParseFloat s with Some f => Ok f | None => fail "rdb: bad zset score" end.

Fixpoint intset_elems (n : nat) (width : Z) (s : bytes) : list bytes :=
  match n with
  | O => []
  | S n => FormatInt (signed (8 * width) (le_val (take (Z.to_nat width) s))) :: intset_elems n width (drop (Z.to_nat width) s)
  end.

Definition parseIntset (blob : bytes) : result (list bytes) :=
  if len blob <? 8 then fail "rdb: truncated intset"
  else
    let enc := le_val (take 4 blob) in
    let n := le_val (take 4 (drop 4 blob)) in
    if negb ((enc =? 2) || (enc =? 4) || (enc =? 8)) then fail "rdb: bad intset encoding"
    else if negb (8 + n * enc =? len blob) then fail "rdb: intset size mismatch"
    else Ok (intset_elems (Z.to_nat n) enc (drop 8 blob)).

(** [for i := 0; i < n; i++] over a reader that takes at least a byte. *)
Definition times {A} (n : Z) (rd : bytes -> result (A * bytes)) (r : bytes) : result (list A * bytes) :=
  read_n rd (S (length r)) n r.

Definition quicklist_node (r : bytes) : result (list bytes * bytes) :=
  let? (c, r) := plainLen "rdb: quicklist container must not be special encoded" r in
  if c =? 1 then let? (s, r) := readString r in Ok ([s], r)
  else if c =? 2 then
    let? (blob, r) := readString r in
    let? ents := parseListpack blob in Ok (ents, r)
  else fail "rdb: unknown quicklist container".

Definition readQuicklist (r : bytes) : result (list bytes * bytes) :=
  let? (n, r) := plainLen "rdb: quicklist count must not be special encoded" r in
  let? (nodes, r) := times n quicklist_node r in Ok (concat nodes, r).

(** ** Streams (stream.go) *)

Record StreamEntry : Type := mkSE { eMS : Z; eSeq : Z; eFields : list (bytes * bytes) }.
Record StreamPending : Type := mkSP { pMS : Z; pSeq : Z; DeliveryTime : Z; DeliveryCount : Z; pConsumer : bytes }.
Record StreamConsumerData : Type := mkSC { cName : bytes; SeenTime : Z; ActiveTime : Z }.
Record StreamGroupData : Type := mkSG {
  gdName : bytes; gLastMS : Z; gLastSeq : Z; gEntriesRead : Z; HasEntriesRead : bool;
  Pending : list StreamPending; gdConsumers : list StreamConsumerData;
}.
Record StreamData : Type := mkSD {
  sEntries : list StreamEntry; sLength : Z; LastMS : Z; LastSeq : Z; FirstMS : Z; FirstSeq : Z;
  MaxDeletedMS : Z; MaxDeletedSeq : Z; sAdded : Z; sGroups : list StreamGroupData;
}.

Definition vtStreamLP : Z := 15.
Definition vtStreamLP2 : Z := 19.
Definition vtStreamLP3 : Z := 21.

Record lpMasterEntry : Type := mkLP { lpFields : list (bytes * bytes); msDiff : Z; seqDiff : Z }.

Definition tok_int (toks : list bytes) : result (Z * list bytes) :=
  match toks with
  | [] => fail "rdb: stream listpack truncated"
  | t :: toks => match ParseInt t with Some v => Ok (v, toks) | None => fail "rdb: stream listpack bad int" end
  end.
Definition tok_take (n : Z) (msg : string) (toks : list bytes) : result (list bytes * list bytes) :=
  if len toks <? n then fail msg else Ok (take (Z.to_nat n) toks, drop (Z.to_nat n) toks).

(** The first record: counts that are not used, and the names that the records
    with the same fields share. *)
Definition walk_master (toks : list bytes) : result (list bytes * list bytes) :=
  let? (_, toks) := tok_int toks in
  let? (_, toks) := tok_int toks in
  let? (mn, toks) := tok_int toks in
  if mn <? 0 then fail "rdb: stream negative master names"
  else
    let? (names, toks) := tok_take mn "rdb: stream listpack truncated master names" toks in
    let? (zero, toks) := tok_int toks in
    if negb (zero =? 0) then fail "rdb: stream master terminator" else Ok (names, toks).

Definition walk_item (prevNames : list bytes) (toks : list bytes) : result (lpMasterEntry * list bytes * list bytes) :=
  let? (flags, toks) := tok_int toks in
  let? (ms, toks) := tok_int toks in
  let? (seq, toks) := tok_int toks in
  let same := Z.testbit flags 1 in
  let? (names, toks) :=
    if same then
      if len prevNames =? 0 then fail "rdb: stream samefields without base" else Ok (prevNames, toks)
    else
      let? (n, toks) := tok_int toks in
      if n <? 0 then fail "rdb: stream negative numfields" else tok_take n "rdb: stream listpack truncated names" toks in
  let? (values, toks) := tok_take (len names) "rdb: stream listpack truncated values" toks in
  let? (lpCount, toks) := tok_int toks in
  let want := 3 + len names + (if same then 0 else len names + 1) in
  if negb (lpCount =? want) then fail "rdb: stream lp-count mismatch"
  else Ok (mkLP (zip names values) ms seq, names, toks).

Fixpoint walk_items (fuel : nat) (prevNames toks : list bytes) : result (list lpMasterEntry) :=
  match fuel, toks with
  | _, [] => Ok []
  | O, _ => fail "fuel"
  | S fuel, _ =>
      let? (it, names, toks) := walk_item prevNames toks in
      let? rest := walk_items fuel names toks in Ok (it :: rest)
  end.

Definition walkStreamListpack (toks : list bytes) : result (list lpMasterEntry) :=
  match toks with
  | [] => Ok []
  | _ => let? (names, toks) := walk_master toks in walk_items (length toks) names toks
  end.

Definition readMetaUint (r : bytes) : result (Z * bytes) :=
  let? (l, r) := readLen r in
  match l with
  | Len v => Ok (v, r)
  | Special 0 => let? (b, r) := u8 r in Ok (u64 (signed 8 b), r)
  | Special 1 => let? (v, r) := u16le r in Ok (u64 (signed 16 v), r)
  | Special 2 => let? (v, r) := u32le r in Ok (u64 (signed 32 v), r)
  | Special _ => fail "rdb: stream meta must not be lzf encoded"
  end.

Definition raw16 (r : bytes) : result (Z * Z * bytes) :=
  let? (b, r) := readBytes 16 r in Ok (Uint64BE (take 8 b), Uint64BE (drop 8 b), r).

Definition stream_node (r : bytes) : result (list StreamEntry * bytes) :=
  let? (key, r) := readString r in
  if negb (len key =? 16) then fail "rdb: stream rax key len"
  else
    let baseMS := Uint64BE (take 8 key) in
    let baseSeq := Uint64BE (drop 8 key) in
    let? (blob, r) := readString r in
    let? toks := parseListpack blob in
    let? ents := walkStreamListpack toks in
    Ok (map (fun it => mkSE (u64 (baseMS + msDiff it)) (u64 (baseSeq + seqDiff it)) (lpFields it)) ents, r).

Definition read_pending (r : bytes) : result (StreamPending * bytes) :=
  let? (ms, seq, r) := raw16 r in
  let? (t, r) := u64le r in
  let? (n, r) := readMetaUint r in Ok (mkSP ms seq t n [], r).

Definition read_consumer (v3 : bool) (r : bytes) : result (StreamConsumerData * list (Z * Z) * bytes) :=
  let? (name, r) := readString r in
  let? (seen, r) := u64le r in
  let? (active, r) := if v3 then u64le r else Ok (2 ^ 64 - 1, r) in
  let? (n, r) := readMetaUint r in
  let? (ids, r) := times n (fun r => let? (ms, seq, r) := raw16 r in Ok ((ms, seq), r)) r in
  Ok (mkSC name seen active, ids, r).

(** The owner of an id is the last consumer that lists it. *)
Definition owners (cs : list (StreamConsumerData * list (Z * Z))) : gmap (Z * Z) bytes :=
  foldl (fun m (c : StreamConsumerData * list (Z * Z)) => foldl (fun m id => <[id := cName c.1]> m) m c.2) ∅ cs.

Definition read_group (v2 v3 : bool) (r : bytes) : result (StreamGroupData * bytes) :=
  let? (name, r) := readString r in
  let? (lastMS, r) := readMetaUint r in
  let? (lastSeq, r) := readMetaUint r in
  let? (read, r) := if v2 then readMetaUint r else Ok (0, r) in
  let? (npel, r) := readMetaUint r in
  let? (pel, r) := times npel read_pending r in
  let? (nc, r) := readMetaUint r in
  let? (cs, r) := times nc (fun r => let? (c, ids, r) := read_consumer v3 r in Ok ((c, ids), r)) r in
  let own := owners cs in
  let pel := map (fun p => mkSP (pMS p) (pSeq p) (DeliveryTime p) (DeliveryCount p) (default [] (own !! (pMS p, pSeq p)))) pel in
  Ok (mkSG name lastMS lastSeq read v2 pel (map fst cs), r).

Definition readStreamMeta (ver : Z) (entries : list StreamEntry) (r : bytes) : result (StreamData * bytes) :=
  let v2 := vtStreamLP2 <=? ver in
  let v3 := vtStreamLP3 <=? ver in
  let? (length, r) := readMetaUint r in
  let? (lastMS, r) := readMetaUint r in
  let? (lastSeq, r) := readMetaUint r in
  let? (firstMS, firstSeq, mdMS, mdSeq, added, r) :=
    if v2 then
      let? (firstMS, r) := readMetaUint r in
      let? (firstSeq, r) := readMetaUint r in
      let? (mdMS, r) := readMetaUint r in
      let? (mdSeq, r) := readMetaUint r in
      let? (added, r) := readMetaUint r in
      Ok (firstMS, firstSeq, mdMS, mdSeq, added, r)
    else match entries with
         | [] => Ok (0, 0, 0, 0, 0, r)
         | e :: _ => Ok (eMS e, eSeq e, 0, 0, length, r)
         end in
  let? (ng, r) := readMetaUint r in
  let? (groups, r) := times ng (read_group v2 v3) r in
  Ok (mkSD entries length lastMS lastSeq firstMS firstSeq mdMS mdSeq added groups, r).

Definition readStream (ver : Z) (r : bytes) : result (StreamData * bytes) :=
  let? (n, r) := plainLen "rdb: stream listpack count must not be special encoded" r in
  let? (nodes, r) := times n stream_node r in
  readStreamMeta ver (concat nodes) r.

(** ** The file (rdb.go) *)

Inductive value : Type :=
| RString (s : bytes) | RHLL (s : bytes) | RList (l : list bytes) | RSet (l : list bytes)
| RZSet (l : list (bytes * Z)) | RHash (m : gmap bytes bytes) | RStream (s : StreamData).

Record Entry : Type := mkEntry { Key : bytes; ExpireMs : Z; Val : value }.

Definition isHYLL (s : bytes) : bool := HasPrefix s (lit "HYLL").

Section load.
Context `{GoFloat}.

Definition pairs_of (l : list bytes) (msg : string) : result (list (bytes * bytes)) :=
  (fix go (l : list bytes) : result (list (bytes * bytes)) :=
     match l with
     | [] => Ok []
     | [_] => fail msg
     | a :: b :: l => let? r := go l in Ok ((a, b) :: r)
     end) l.

Definition hash_of (l : list (bytes * bytes)) : gmap bytes bytes := foldl (fun m kv => <[kv.1 := kv.2]> m) ∅ l.

Fixpoint scored (l : list (bytes * bytes)) : result (list (bytes * Z)) :=
  match l with
  | [] => Ok []
  | (m, s) :: l => let? f := parseListpackDouble s in let? r := scored l in Ok ((m, f) :: r)
  end.

Definition read_pair {A B} (ra : bytes -> result (A * bytes)) (rb : bytes -> result (B * bytes)) (r : bytes) : result ((A * B) * bytes) :=
  let? (a, r) := ra r in let? (b, r) := rb r in Ok ((a, b), r).

(** A value type and its body. *)
Definition read_value (op : Z) (r : bytes) : result (value * bytes) :=
  if op =? 0 then let? (s, r) := readString r in Ok (if isHYLL s then RHLL s else RString s, r)
  else if op =? 1 then
    let? (n, r) := plainLen "rdb: list count must not be special encoded" r in
    let? (l, r) := times n readString r in Ok (RList l, r)
  else if op =? 2 then
    let? (n, r) := plainLen "rdb: set count must not be special encoded" r in
    let? (l, r) := times n readString r in Ok (RSet l, r)
  else if op =? 3 then
    let? (n, r) := plainLen "rdb: zset count must not be special encoded" r in
    let? (l, r) := times n (read_pair readString readDouble) r in Ok (RZSet l, r)
  else if op =? 4 then
    let? (n, r) := plainLen "rdb: hash count must not be special encoded" r in
    let? (l, r) := times n (read_pair readString readString) r in Ok (RHash (hash_of l), r)
  else if op =? 5 then
    let? (n, r) := plainLen "rdb: zset2 count must not be special encoded" r in
    let? (l, r) := times n (read_pair readString readDoubleBin) r in Ok (RZSet l, r)
  else if op =? 11 then
    let? (blob, r) := readString r in let? l := parseIntset blob in Ok (RSet l, r)
  else if (op =? 16) || (op =? 17) || (op =? 20) then
    let? (blob, r) := readString r in
    let? ents := parseListpack blob in
    if op =? 16 then let? l := pairs_of ents "rdb: hash listpack odd entries" in Ok (RHash (hash_of l), r)
    else if op =? 17 then let? l := pairs_of ents "rdb: zset listpack odd entries" in let? z := scored l in Ok (RZSet z, r)
    else Ok (RSet ents, r)
  else if (op =? 14) || (op =? 18) then let? (l, r) := readQuicklist r in Ok (RList l, r)
  else if (op =? vtStreamLP) || (op =? vtStreamLP2) || (op =? vtStreamLP3) then let? (s, r) := readStream op r in Ok (RStream s, r)
  else if (op =? 6) || (op =? 7) then fail "rdb: key uses module-assisted type, cannot import"
  else fail "rdb: unsupported value type".

Definition parseValue (op expireMs : Z) (r : bytes) : result (Entry * bytes) :=
  let? (key, r) := readString r in
  let? (v, r) := read_value op r in Ok (mkEntry key expireMs v, r).

Fixpoint parse_loop (fuel : nat) (db expireMs : Z) (r : bytes) : result (list Entry) :=
  match fuel with
  | O => fail "fuel"
  | S fuel =>
      let? (op, r) := u8 r in
      if op =? 0xFA then
        let? (_, r) := readString r in let? (_, r) := readString r in parse_loop fuel db expireMs r
      else if op =? 0xFB then
        let? (_, r) := readLen r in let? (_, r) := readLen r in parse_loop fuel db expireMs r
      else if op =? 0xFC then let? (ms, r) := u64le r in parse_loop fuel db (i64 ms) r
      else if op =? 0xFD then let? (s, r) := u32le r in parse_loop fuel db (s * 1000) r
      else if op =? 0xFE then
        let? (n, r) := plainLen "rdb: selectdb must not be special encoded" r in parse_loop fuel (i64 n) expireMs r
      else if op =? 0xFF then Ok []
      else if negb (db =? 0) then fail "rdb: multi-DB file: only DB 0 importable, refusing"
      else
        let? (e, r) := parseValue op expireMs r in
        let? es := parse_loop fuel db 0 r in Ok (e :: es)
  end.

Definition rdbVersionPin : bytes := lit "0011".

Definition parse (r : bytes) : result (list Entry) :=
  let? (magic, r) := readBytes 5 r in
  if negb (bytes_eqb magic (lit "REDIS")) then fail "rdb: bad magic"
  else
    let? (ver, r) := readBytes 4 r in
    if negb (bytes_eqb ver rdbVersionPin) then fail "rdb: unsupported version" else parse_loop (S (length r)) (-1) 0 r.

Definition equalU64LE (v : Z) (b : bytes) : bool := bytes_eqb (le_bytes 8 v) b.

Definition Load (file : bytes) : result (list Entry) :=
  if len file <? 9 + 8 then fail "rdb: file too short"
  else
    let body := take (length file - 8) file in
    if negb (equalU64LE (crc64 0 body) (drop (length file - 8) file))
    then fail "rdb: checksum mismatch (not a Redis RDB or corrupted)" else parse body.

End load.
End rdb.
