(* ===== verification/RdbExport.v ===== *)
(** * The Redis RDB file format, writing (src/internal/rdb/export.go, pack.go)

    A writer is the bytes it appends.  The time that Export stamps on the file
    is an argument; an entry of a stream always has its stream (the nil pointer
    that writeStream guards against is the empty stream). *)

From S2P Require Import Prelude GoLib GoStrings Resp Codec Hll Rdb.
Open Scope Z_scope.
Open Scope gedis_scope.

Module rdbexport.
Import rdb.

(** ** Lengths, strings and scores *)

Definition writeLen (v : Z) : bytes :=
  if v <? 64 then [byte_of v]
  else if v <? 16384 then [byte_of (Z.lor (Z.shiftr v 8) 64); byte_of v]
  else if v <? 4294967296 then byte_of 128 :: be_bytes 4 v
  else byte_of 129 :: be_bytes 8 v.

Definition writeString (b : bytes) : bytes := writeLen (len b) ++ b.
Definition writeKey (k : bytes) : bytes := writeString k.
Definition aux (k v : bytes) : bytes := byte_of 0xFA :: writeString k ++ writeString v.

Definition writeDouble `{GoFloat} (f : Z) : bytes :=
  if IsNaN f then [byte_of 253]
  else if IsInf f && negb (f64_neg f) then [byte_of 254]
  else if IsInf f && f64_neg f then [byte_of 255]
  else let s := FormatFloatG f in byte_of (len s) :: s.

Definition checkHLLBlob (blob : bytes) : result unit :=
  if (len blob <? 16) || negb (HasPrefix blob (lit "HYLL")) then fail "rdb: invalid HLL blob"
  else match hll.reg_byte blob 4 with
       | 0 => if negb (len blob =? 16 + 12288) then fail "rdb: invalid dense HLL blob" else Ok ()
       | 1 => Ok ()
       | _ => fail "rdb: invalid HLL encoding"
       end.

(** ** Listpacks *)

Definition lpUint (v : Z) : bytes :=
  if v <=? 127 then [byte_of v]
  else if v <=? 4095 then [byte_of (Z.lor (Z.shiftr v 8) 192); byte_of v]
  else if v <=? 32767 then byte_of 240 :: le_bytes 2 v
  else if v <=? 2147483647 then byte_of 242 :: le_bytes 4 v
  else byte_of 243 :: le_bytes 8 v.

Definition lpInt (v : Z) : bytes :=
  if (0 <=? v) && (v <=? 127) then [byte_of v]
  else if (-4096 <=? v) && (v <=? 4095) then
    let raw := if v <? 0 then v + 8192 else v in [byte_of (Z.lor (Z.shiftr raw 8) 192); byte_of raw]
  else if (-32768 <=? v) && (v <=? 32767) then byte_of 240 :: le_bytes 2 v
  else if (-2147483648 <=? v) && (v <=? 2147483647) then byte_of 242 :: le_bytes 4 v
  else byte_of 243 :: le_bytes 8 v.

Definition lpStr (s : bytes) : bytes :=
  let n := len s in
  if n <=? 63 then byte_of (Z.lor n 128) :: s
  else if n <=? 4095 then byte_of (Z.lor (Z.shiftr n 8) 224) :: byte_of n :: s
  else byte_of 244 :: le_bytes 4 n ++ s.

(** The groups of seven bits from number [k - 1] down to 0, the last one
    marked. *)
Fixpoint backlen_groups (k : nat) (entryLen : Z) : bytes :=
  match k with
  | O => []
  | S k =>
      let g := Z.land (Z.shiftr entryLen (7 * Z.of_nat k)) 127 in
      byte_of (match k with O => Z.lor g 128 | _ => g end) :: backlen_groups k entryLen
  end.
Definition lpBacklen (entryLen : Z) : bytes :=
  let sz := backlen_width entryLen in
  if 1 <? sz then backlen_groups (Z.to_nat sz) entryLen else [byte_of (Z.land entryLen 127)].

Definition lpEntry (b : bytes) : bytes := b ++ lpBacklen (len b).

(** ** Streams *)

Definition fieldNames (fvs : list (bytes * bytes)) : list bytes := map fst fvs.
Definition baseFieldNames (st : StreamData) : list bytes :=
  match sEntries st with [] => [] | e :: _ => fieldNames (eFields e) end.
Definition equalStrings (a b : list bytes) : bool := bool_decide (a = b).

Definition streamItemSameFields : Z := 2.

Definition item_entries (baseMS baseSeq : Z) (prev : list bytes) (en : StreamEntry) : list bytes :=
  let names := fieldNames (eFields en) in
  let same := equalStrings names prev in
  let nf := len (eFields en) in
  [lpUint (if same then streamItemSameFields else 0); lpInt (i64 (i64 (eMS en) - i64 baseMS)); lpInt (i64 (i64 (eSeq en) - i64 baseSeq))]
  ++ (if same then [] else lpUint (len names) :: map lpStr names)
  ++ map (fun fv => lpStr fv.2) (eFields en)
  ++ [lpUint (3 + nf + (if same then 0 else nf + 1))].

Fixpoint items (baseMS baseSeq : Z) (prev : list bytes) (es : list StreamEntry) : list bytes :=
  match es with
  | [] => []
  | en :: es =>
      let names := fieldNames (eFields en) in
      item_entries baseMS baseSeq prev en ++ items baseMS baseSeq (if equalStrings names prev then prev else names) es
  end.

(** -1 when an entry does not parse. *)
Fixpoint count_entries (fuel : nat) (n : Z) (body : bytes) : Z :=
  match body with
  | [] => n
  | _ =>
      match fuel with
      | O => -1
      | S fuel =>
          match listpackEntry 0 body with
          | Ok (_, next) => count_entries fuel (n + 1) (drop (Z.to_nat (backlen_width (len body - len next))) next)
          | _ => -1
          end
      end
  end.
Definition countLPEntries (body : bytes) : Z := count_entries (length body) 0 body.

Definition base_id (st : StreamData) : Z * Z := match sEntries st with [] => (0, 0) | e :: _ => (eMS e, eSeq e) end.

Definition stream_entries (st : StreamData) : list bytes :=
  let names := baseFieldNames st in
  lpUint (len (sEntries st)) :: lpUint 0 :: lpUint (len names) :: map lpStr names ++ lpUint 0 ::
  items (base_id st).1 (base_id st).2 names (sEntries st).

Definition buildStreamListpack (st : StreamData) : result bytes :=
  let body := concat (map lpEntry (stream_entries st)) in
  let nElem := countLPEntries body in
  if nElem <? 0 then fail "rdb: stream listpack recount failed"
  else Ok (le_bytes 4 (6 + len body + 1) ++ le_bytes 2 nElem ++ body ++ [byte_of 255]).

Definition put_id (ms seq : Z) : bytes := PutUint64BE ms ++ PutUint64BE seq.

Definition write_pending (p : StreamPending) : bytes :=
  put_id (pMS p) (pSeq p) ++ le_bytes 8 (DeliveryTime p) ++ writeLen (DeliveryCount p).

Definition mine (g : StreamGroupData) (c : StreamConsumerData) : list StreamPending :=
  List.filter (fun p => bytes_eqb (pConsumer p) (cName c)) (Pending g).

Definition write_consumer (g : StreamGroupData) (c : StreamConsumerData) : bytes :=
  writeString (cName c) ++ le_bytes 8 (SeenTime c) ++
  le_bytes 8 (if ActiveTime c =? 0 then 2 ^ 64 - 1 else ActiveTime c) ++
  writeLen (len (mine g c)) ++ concat (map (fun p => put_id (pMS p) (pSeq p)) (mine g c)).

Definition write_group (g : StreamGroupData) : bytes :=
  writeString (gdName g) ++ writeLen (gLastMS g) ++ writeLen (gLastSeq g) ++ writeLen (gEntriesRead g) ++
  writeLen (len (Pending g)) ++ concat (map write_pending (Pending g)) ++
  writeLen (len (gdConsumers g)) ++ concat (map (write_consumer g) (gdConsumers g)).

(** The counters that are written, with what stands in for a missing one. *)
Definition out_length (st : StreamData) : Z := if sLength st =? 0 then len (sEntries st) else sLength st.
Definition out_last (st : StreamData) : Z * Z :=
  match last (sEntries st) with
  | Some e => if (LastMS st =? 0) && (LastSeq st =? 0) then (eMS e, eSeq e) else (LastMS st, LastSeq st)
  | None => (LastMS st, LastSeq st)
  end.
Definition out_first (st : StreamData) : Z * Z :=
  match sEntries st with
  | e :: _ => if (FirstMS st =? 0) && (FirstSeq st =? 0) then (eMS e, eSeq e) else (FirstMS st, FirstSeq st)
  | [] => (FirstMS st, FirstSeq st)
  end.
Definition out_added (st : StreamData) : Z := if sAdded st <? len (sEntries st) then len (sEntries st) else sAdded st.

Definition write_meta (st : StreamData) : bytes :=
  writeLen (out_length st) ++ writeLen (out_last st).1 ++ writeLen (out_last st).2 ++
  writeLen (out_first st).1 ++ writeLen (out_first st).2 ++ writeLen (MaxDeletedMS st) ++ writeLen (MaxDeletedSeq st) ++
  writeLen (out_added st) ++ writeLen (len (sGroups st)) ++ concat (map write_group (sGroups st)).

Definition writeStream (st : StreamData) : result bytes :=
  let? lp := buildStreamListpack st in
  Ok (writeLen 1 ++ writeString (put_id (base_id st).1 (base_id st).2) ++ writeString lp ++ write_meta st).

(** ** The file *)

Section export.
Context `{GoFloat}.

Definition sortedCopy (l : list bytes) : list bytes := sortStrings l.

(** Members are distinct: the order does not depend on how the sort treats
    equal ones. *)
Definition member_less (a b : bytes * Z) : bool := bytes_ltb a.1 b.1.

Definition expire_bytes (ms : Z) : bytes := if ms =? 0 then [] else byte_of 0xFC :: le_bytes 8 ms.

Definition exportEntry (en : Entry) : result bytes :=
  let k := writeKey (Key en) in
  let? body :=
    match Val en with
    | RString s => Ok (byte_of 0 :: k ++ writeString s)
    | RList l => Ok (byte_of 1 :: k ++ writeLen (len l) ++ concat (map writeString l))
    | RSet l => let ms := sortedCopy l in Ok (byte_of 2 :: k ++ writeLen (len ms) ++ concat (map writeString ms))
    | RZSet l =>
        let ms := isort member_less l in
        Ok (byte_of 3 :: k ++ writeLen (len ms) ++ concat (map (fun m => writeString m.1 ++ writeDouble m.2) ms))
    | RHash m =>
        let fields := sortStrings (datastruct.map_keys m) in
        Ok (byte_of 4 :: k ++ writeLen (len fields) ++
            concat (map (fun f => writeString f ++ writeString (default [] (m !! f))) fields))
    | RHLL s => let? _ := checkHLLBlob s in Ok (byte_of 0 :: k ++ writeString s)
    | RStream s => let? b := writeStream s in Ok (byte_of vtStreamLP3 :: k ++ b)
    end in
  Ok (expire_bytes (ExpireMs en) ++ body).

Fixpoint exportEntries (es : list Entry) : result bytes :=
  match es with
  | [] => Ok []
  | e :: es => let? b := exportEntry e in let? rest := exportEntries es in Ok (b ++ rest)
  end.

Definition Export (ctime : Z) (entries : list Entry) : result bytes :=
  let? body := exportEntries entries in
  let file := lit "REDIS" ++ rdbVersionPin ++ aux (lit "redis-ver") (lit "7.4.0") ++ aux (lit "ctime") (FormatInt ctime) ++
              byte_of 0xFE :: writeLen 0 ++ body ++ [byte_of 0xFF] in
  Ok (file ++ le_bytes 8 (crc64 0 file)).

End export.

(** ** Sparse sketches (pack.go) *)

Definition hllPackSet := hll.hllDenseSet.

(** A VAL opcode: [n] registers of the same value. *)
Fixpoint pack_run (n : nat) (val idx : Z) (reg : bytes) : result (Z * bytes) :=
  match n with
  | O => Ok (idx, reg)
  | S n => if 16384 <=? idx then fail "rdb: sparse HLL overrun" else pack_run n val (idx + 1) (hllPackSet reg idx val)
  end.

Fixpoint densify_loop (fuel : nat) (p : bytes) (idx : Z) (reg : bytes) : result (Z * bytes) :=
  match fuel, p with
  | _, [] => Ok (idx, reg)
  | O, _ => fail "fuel"
  | S fuel, c :: p' =>
      let op := byte_val c in
      let? (idx, reg, p) :=
        if Z.land op 0xC0 =? 0 then Ok (idx + Z.land op 0x3F + 1, reg, p')
        else if Z.land op 0xC0 =? 0x40 then
          match p' with
          | [] => fail "rdb: truncated sparse HLL XZERO"
          | c2 :: p'' => Ok (idx + Z.lor (Z.shiftl (Z.land op 0x3F) 8) (byte_val c2) + 1, reg, p'')
          end
        else
          let? (idx, reg) := pack_run (Z.to_nat (Z.land op 3 + 1)) (Z.land (Z.shiftr op 2) 0x1F + 1) idx reg in Ok (idx, reg, p') in
      if 16384 <? idx then fail "rdb: sparse HLL overrun" else densify_loop fuel p idx reg
  end.

Definition DensifySparseHLL (raw : bytes) : result bytes :=
  if (len raw <? 16) || negb (HasPrefix raw (lit "HYLL")) then fail "rdb: not a HyperLogLog blob"
  else if negb (hll.reg_byte raw 4 =? 1) then fail "rdb: not a sparse HLL"
  else
    let? (idx, reg) := densify_loop (length raw) (drop 16 raw) 0 hll.HLLNewDense in
    if negb (idx =? 16384) then fail "rdb: sparse HLL does not cover the registers" else Ok reg.

End rdbexport.
