(* ===== verification/RdbSpec.v ===== *)
(** * What a saved file holds

    Load reads back what Export wrote: every length, string, score, listpack,
    stream and key, up to the order of sets and the few fields the format
    does not keep. *)

From S2P Require Import Prelude GoLib GoStrings Resp Codec Hll Rdb RdbExport.
Open Scope Z_scope.
Open Scope gedis_scope.

Module rdbspec.
Import rdb rdbexport.

(** ** Lengths, strings and scores *)

Definition str_fits (s : bytes) : Prop := len s <= 2 ^ 32.

Lemma take_len_app {A} (a b : list A) : take (Z.to_nat (len a)) (a ++ b) = a.
Proof. unfold len. by rewrite Nat2Z.id, take_app_length. Qed.
Lemma drop_len_app {A} (a b : list A) : drop (Z.to_nat (len a)) (a ++ b) = b.
Proof. unfold len. by rewrite Nat2Z.id, drop_app_length. Qed.

Lemma readBytes_app (b r : bytes) (n : Z) : len b = n -> n <= 2 ^ 32 -> readBytes n (b ++ r) = Ok (b, r).
Proof.
  intros <- Hn. unfold readBytes. rewrite (proj2 (Z.ltb_ge (2 ^ 32) (len b))) by done.
  rewrite len_app. pose proof (len_nonneg r). rewrite (proj2 (Z.ltb_ge (len b + len r) (len b))) by lia.
  by rewrite take_len_app, drop_len_app.
Qed.

Lemma len_be_bytes (n : nat) (x : Z) : len (be_bytes n x) = Z.of_nat n.
Proof. unfold len. by rewrite be_bytes_length. Qed.
Lemma len_le_bytes (n : nat) (x : Z) : len (le_bytes n x) = Z.of_nat n.
Proof. unfold len, le_bytes. by rewrite length_reverse, be_bytes_length. Qed.
Lemma le_val_bytes (n : nat) (x : Z) : le_val (le_bytes n x) = x mod 2 ^ (8 * Z.of_nat n).
Proof. unfold le_val, le_bytes. rewrite reverse_involutive, be_val_bytes by lia. lia. Qed.

Lemma uint_be_app (n : nat) (x : Z) (r : bytes) : Z.of_nat n <= 2 ^ 32 -> 0 <= x < 2 ^ (8 * Z.of_nat n) ->
  uint_be (Z.of_nat n) (be_bytes n x ++ r) = Ok (x, r).
Proof.
  intros Hn Hx. unfold uint_be. rewrite readBytes_app by (done || by apply len_be_bytes). cbn [res_bind].
  by rewrite be_val_bytes, Z.mod_small, Z.add_0_l by lia.
Qed.

Lemma uint_le_app (n : nat) (x : Z) (r : bytes) : Z.of_nat n <= 2 ^ 32 ->
  uint_le (Z.of_nat n) (le_bytes n x ++ r) = Ok (x mod 2 ^ (8 * Z.of_nat n), r).
Proof. intros Hn. unfold uint_le. rewrite readBytes_app by (done || by apply len_le_bytes). cbn [res_bind]. by rewrite le_val_bytes. Qed.

Lemma u64le_app (x : Z) (r : bytes) : u64le (le_bytes 8 x ++ r) = Ok (u64 x, r).
Proof. exact (uint_le_app 8 x r ltac:(lia)). Qed.

Lemma u8_byte (x : Z) (r : bytes) : 0 <= x < 256 -> u8 (byte_of x :: r) = Ok (x, r).
Proof. intros Hx. unfold u8. by rewrite byte_val_of_small. Qed.

(** A tag of two bits above six bits. *)
Lemma tagged (x t k : Z) : 0 <= k -> 0 <= x < 2 ^ k -> 0 <= t ->
  Z.lor x (t * 2 ^ k) = x + t * 2 ^ k /\ Z.shiftr (x + t * 2 ^ k) k = t /\ Z.land (x + t * 2 ^ k) (2 ^ k - 1) = x.
Proof.
  intros Hk Hx Ht. rewrite <- Z.shiftl_mul_pow2 by done. rewrite lor_add_shift, Z.shiftl_mul_pow2 by lia. split_and!; [done|..].
  - rewrite Z.shiftr_div_pow2, Z.div_add, Z.div_small by lia. lia.
  - replace (2 ^ k - 1) with (Z.ones k) by (rewrite Z.ones_equiv; lia). rewrite Z.land_ones, Z.mod_add, Z.mod_small by lia. done.
Qed.

(** The high and low bytes of a number. *)
Lemma halves (v : Z) : 0 <= v -> Z.lor (Z.shiftl (Z.shiftr v 8) 8) (byte_val (byte_of v)) = v.
Proof.
  intros Hv. rewrite byte_val_of, Z.lor_comm. pose proof (Z.mod_pos_bound v 256 ltac:(lia)).
  rewrite lor_add_shift; [|lia|lia|apply Z.shiftr_nonneg; lia]. rewrite Z.shiftr_div_pow2 by lia. change (2 ^ 8) with 256.
  pose proof (Z.div_mod v 256). lia.
Qed.

Lemma shiftr8_range (v n : Z) : 0 <= v < n * 256 -> 0 <= Z.shiftr v 8 < n.
Proof. intros Hv. rewrite Z.shiftr_div_pow2 by lia. change (2 ^ 8) with 256. split; [apply Z.div_pos; lia|apply Z.div_lt_upper_bound; lia]. Qed.

Lemma readLen_writeLen (v : Z) (r : bytes) : is_u64 v -> readLen (writeLen v ++ r) = Ok (Len v, r).
Proof.
  unfold is_u64. intros Hv. unfold writeLen. destruct (Z.ltb_spec v 64); [|destruct (Z.ltb_spec v 16384); [|destruct (Z.ltb_spec v 4294967296)]];
    unfold readLen; cbn [app].
  - rewrite u8_byte by lia. cbn [res_bind]. destruct (tagged v 0 6) as (_ & E1 & E2); [lia|change (2 ^ 6) with 64; lia|lia|].
    change (0 * 2 ^ 6) with 0 in *. rewrite Z.add_0_r in *. change (2 ^ 6 - 1) with 63 in E2. by rewrite E1, E2.
  - pose proof (shiftr8_range v 64 ltac:(lia)) as Hs. destruct (tagged (Z.shiftr v 8) 1 6) as (E0 & E1 & E2); [lia|change (2 ^ 6) with 64; lia|lia|].
    change (1 * 2 ^ 6) with 64 in *. change (2 ^ 6 - 1) with 63 in E2. rewrite E0, u8_byte by lia. cbn [res_bind]. rewrite E1, E2.
    unfold u8. cbn [res_bind]. by rewrite halves by lia.
  - rewrite u8_byte by lia. cbn [res_bind]. change (Z.shiftr 128 6) with 2. cbv iota. change (128 =? 128) with true. cbv iota.
    change u32be with (uint_be (Z.of_nat 4)). rewrite (uint_be_app 4 v r) by (cbn; lia). done.
  - rewrite u8_byte by lia. cbn [res_bind]. change (Z.shiftr 129 6) with 2. cbv iota. change (129 =? 128) with false. change (129 =? 129) with true. cbv iota.
    change u64be with (uint_be (Z.of_nat 8)). rewrite (uint_be_app 8 v r) by (cbn; lia). done.
Qed.

Lemma plainLen_writeLen (msg : string) (v : Z) (r : bytes) : is_u64 v -> plainLen msg (writeLen v ++ r) = Ok (v, r).
Proof. intros Hv. unfold plainLen. by rewrite readLen_writeLen. Qed.

Lemma readMetaUint_writeLen (v : Z) (r : bytes) : is_u64 v -> readMetaUint (writeLen v ++ r) = Ok (v, r).
Proof. intros Hv. unfold readMetaUint. by rewrite readLen_writeLen. Qed.

Lemma fits_len (s : bytes) : str_fits s -> is_u64 (len s).
Proof. unfold str_fits, is_u64. pose proof (len_nonneg s). lia. Qed.

Lemma readString_writeString (s r : bytes) : str_fits s -> readString (writeString s ++ r) = Ok (s, r).
Proof.
  intros Hs. unfold readString, writeString. rewrite <- app_assoc, readLen_writeLen by (by apply fits_len). cbn [res_bind].
  by apply readBytes_app.
Qed.

(** A score the format keeps: an infinity, a NaN (whatever its payload), or a
    number that its shortest decimal form denotes. *)
Definition norm_score (f : Z) : Z := if IsNaN f then f64_nan else f.
Definition score_ok `{GoFloat} (f : Z) : Prop :=
  is_u64 f /\ (IsNaN f = false -> IsInf f = false -> ParseFloat (FormatFloatG f) = Some f /\ len (FormatFloatG f) < 253).

Lemma inf_bits (f : Z) : is_u64 f -> IsInf f = true -> f = if f64_neg f then f64_ninf else f64_inf.
Proof.
  unfold is_u64, IsInf, f64_exp, f64_frac, f64_neg. intros Hf [He Hz]%andb_true_iff. breflect.
  change (2 ^ 52 - 1) with (Z.ones 52) in Hz. change 2047 with (Z.ones 11) in He. rewrite Z.land_ones in Hz, He by lia.
  rewrite Z.shiftr_div_pow2 in He by lia.
  pose proof (Z.div_mod f (2 ^ 52) ltac:(lia)) as E1. pose proof (Z.div_mod (f / 2 ^ 52) (2 ^ 11) ltac:(lia)) as E2.
  assert (0 <= f / 2 ^ 52 / 2 ^ 11 < 2) as Hq.
  { split; [repeat apply Z.div_pos; lia|]. repeat (apply Z.div_lt_upper_bound; [lia|]). lia. }
  assert (Z.testbit f 63 = bool_decide (f / 2 ^ 52 / 2 ^ 11 = 1)) as ->.
  { rewrite Z.testbit_eqb by lia. rewrite Z.div_div in Hq |- * by lia. change (2 ^ 52 * 2 ^ 11) with (2 ^ 63) in *.
    rewrite Z.mod_small by lia. case_bool_decide; [by apply Z.eqb_eq|by apply Z.eqb_neq]. }
  unfold f64_ninf, f64_inf. change (Z.ones 11) with 2047 in He. case_bool_decide; lia.
Qed.

Lemma readDouble_writeDouble `{GoFloat} (f : Z) (r : bytes) : score_ok f -> readDouble (writeDouble f ++ r) = Ok (norm_score f, r).
Proof.
  intros [Hf Hp]. unfold writeDouble, norm_score. destruct (IsNaN f) eqn:En; [done|].
  destruct (IsInf f) eqn:Ei.
  - pose proof (inf_bits f Hf Ei) as E. destruct (f64_neg f); cbn [negb andb app]; unfold readDouble; rewrite u8_byte by lia; rewrite E at 1; done.
  - cbn [andb app]. destruct Hp as [Hp Hl]; [done..|]. pose proof (len_nonneg (FormatFloatG f)). unfold readDouble. rewrite u8_byte by lia. cbn [res_bind].
    rewrite !(proj2 (Z.eqb_neq (len (FormatFloatG f)) _)) by lia. rewrite readBytes_app by (done || lia). cbn [res_bind]. by rewrite Hp.
Qed.

(** ** Listpacks *)

(** [enc] is an entry that reads as the token [t], whatever follows. *)
Definition lp_ok (enc t : bytes) : Prop :=
  0 < len enc /\ forall (e : Z) (r : bytes), 0 <= e <= len r -> listpackEntry e (enc ++ r) = Ok (t, r).

Lemma avail_app (e : Z) (b r : bytes) (n : Z) : len b = n -> e <= len r -> avail e (b ++ r) n = true.
Proof. intros <- He. unfold avail. rewrite len_app. apply Z.leb_le. lia. Qed.

Lemma lp_text_app (e : Z) (b r : bytes) (msg : string) : e <= len r -> lp_text e (len b) msg (b ++ r) = Ok (b, r).
Proof. intros He. unfold lp_text. rewrite avail_app by done. by rewrite take_len_app, drop_len_app. Qed.

Lemma signed_mod (w v : Z) : 0 < w -> - 2 ^ (w - 1) <= v < 2 ^ (w - 1) -> signed w (v mod 2 ^ w) = v.
Proof.
  intros Hw Hv. unfold signed. assert (2 ^ w = 2 * 2 ^ (w - 1)) as E by (rewrite <- Z.pow_succ_r by lia; f_equal; lia).
  destruct (Z.lt_ge_cases v 0).
  - replace (v mod 2 ^ w) with (v + 2 ^ w) by (apply Z.mod_unique with (-1); lia). rewrite (proj2 (Z.leb_le _ _)) by lia. lia.
  - rewrite Z.mod_small by lia. by rewrite (proj2 (Z.leb_gt _ _)) by lia.
Qed.

Lemma lp_int_app (e : Z) (n : nat) (v : Z) (r : bytes) (msg : string) : e <= len r -> (0 < n)%nat -> - 2 ^ (8 * Z.of_nat n - 1) <= v < 2 ^ (8 * Z.of_nat n - 1) ->
  lp_int e (Z.of_nat n) msg (le_bytes n v ++ r) = Ok (FormatInt v, r).
Proof.
  intros He Hn Hv. unfold lp_int. rewrite avail_app by (done || apply len_le_bytes). rewrite Nat2Z.id.
  pose proof (len_le_bytes n v) as Hl. unfold len in Hl. rewrite take_app_length', drop_app_length' by lia. rewrite le_val_bytes, signed_mod by lia. done.
Qed.

(** The first byte of an entry. *)
Lemma entry_head (e : Z) (x : Z) (s : bytes) : 0 <= x < 256 -> e <= len s ->
  byte_val (byte_of x) = x /\ avail e (byte_of x :: s) 1 = true.
Proof. intros Hx He. split; [by apply byte_val_of_small|]. unfold avail. rewrite len_cons. apply Z.leb_le. lia. Qed.

Lemma lp_small (v : Z) : 0 <= v <= 127 -> lp_ok [byte_of v] (FormatInt v).
Proof.
  intros Hv. split; [done|]. intros e r He. cbn [app]. destruct (entry_head e v r) as (E1 & E2); [lia..|]. unfold listpackEntry. rewrite E1, E2. cbn [negb].
  destruct (tagged v 0 7) as (_ & _ & E3); [lia|change (2 ^ 7) with 128; lia|lia|]. change (0 * 2 ^ 7) with 0 in E3. rewrite Z.add_0_r in E3. change (2 ^ 7 - 1) with 127 in E3.
  assert (Z.land v 128 = 0) as ->. { apply Z.bits_inj'. intros n Hn. rewrite Z.land_spec, Z.bits_0. change 128 with (2 ^ 7). rewrite Z.pow2_bits_eqb by lia.
    destruct (Z.eqb_spec 7 n) as [<-|]; [|apply andb_false_r]. by rewrite (hll.small_bits v 7) by (done || lia). }
  rewrite E3. cbn [Z.eqb]. unfold FormatInt. by rewrite (proj2 (Z.ltb_ge v 0)) by lia.
Qed.

(** The tag bits of a byte built from a tag and a payload. *)
Lemma land_tag (x t k m : Z) : 0 <= k -> 0 <= x < 2 ^ k -> 0 <= t -> 0 <= m -> Z.land (x + t * 2 ^ k) (m * 2 ^ k) = Z.land t m * 2 ^ k.
Proof.
  intros Hk Hx Ht Hm. apply Z.bits_inj'. intros n Hn. rewrite Z.land_spec, !Z.mul_pow2_bits, Z.land_spec by lia.
  destruct (Z.lt_ge_cases n k); [rewrite !(Z.testbit_neg_r _ (n - k)) by lia; apply andb_false_r|]. f_equal.
  replace t with (Z.shiftr (x + t * 2 ^ k) k) at 2 by (by apply tagged). rewrite Z.shiftr_spec by lia. f_equal. lia.
Qed.

Lemma lp_13 (raw v : Z) : 0 <= raw < 8192 -> v = (if 4096 <=? raw then raw - 8192 else raw) ->
  lp_ok [byte_of (Z.lor (Z.shiftr raw 8) 192); byte_of raw] (FormatInt v).
Proof.
  intros Hr ->. split; [done|]. intros e r He. cbn [app]. pose proof (shiftr8_range raw 32 ltac:(lia)) as Hs. set (x := Z.shiftr raw 8) in *.
  destruct (tagged x 6 5) as (E0 & _ & E3); [lia|change (2 ^ 5) with 32; lia|lia|]. change (6 * 2 ^ 5) with 192 in *. change (2 ^ 5 - 1) with 31 in E3. rewrite E0.
  destruct (entry_head e (x + 192) (byte_of raw :: r)) as (E1 & E2); [lia|rewrite len_cons; lia|].
  assert (0 <= x < 2 ^ 5) as Hx by (change (2 ^ 5) with 32; lia).
  pose proof (land_tag x 6 5 4 ltac:(lia) Hx ltac:(lia) ltac:(lia)) as L1. pose proof (land_tag x 6 5 6 ltac:(lia) Hx ltac:(lia) ltac:(lia)) as L2.
  pose proof (land_tag x 6 5 7 ltac:(lia) Hx ltac:(lia) ltac:(lia)) as L3.
  change (Z.land (x + 192) 128 = 128) in L1. change (Z.land (x + 192) 192 = 192) in L2. change (Z.land (x + 192) 224 = 192) in L3.
  unfold listpackEntry. rewrite E1, E2, L1, L2, L3. cbn [negb Z.eqb Pos.eqb]. assert (avail e (byte_of raw :: r) 1 = true) as ->.
  { unfold avail. rewrite len_cons. apply Z.leb_le. lia. }
  cbn [negb]. rewrite E3. unfold x. rewrite halves by lia. done.
Qed.

Lemma lp_wide (tag : Z) (n : nat) (v : Z) : (tag, n) ∈ [(240, 2%nat); (242, 4%nat); (243, 8%nat)] -> - 2 ^ (8 * Z.of_nat n - 1) <= v < 2 ^ (8 * Z.of_nat n - 1) ->
  lp_ok (byte_of tag :: le_bytes n v) (FormatInt v).
Proof.
  intros Ht Hv. split; [rewrite len_cons; pose proof (len_nonneg (le_bytes n v)); lia|]. intros e r He. cbn [app].
  assert (e <= len (le_bytes n v ++ r)) as Hl by (rewrite len_app; pose proof (len_nonneg (le_bytes n v)); lia).
  assert (0 <= tag < 256) as Hb by (rewrite !elem_of_cons, elem_of_nil in Ht; destruct_or! Ht; injection Ht; lia).
  destruct (entry_head e tag (le_bytes n v ++ r) Hb Hl) as (E1 & E2). unfold listpackEntry. rewrite E2, E1. cbn [negb].
  rewrite !elem_of_cons, elem_of_nil in Ht. destruct_or! Ht; injection Ht as -> ->.
  - change (lp_int e 2) with (lp_int e (Z.of_nat 2)). by rewrite lp_int_app by (lia || done).
  - change (lp_int e 4) with (lp_int e (Z.of_nat 4)). by rewrite lp_int_app by (lia || done).
  - change (lp_int e 8) with (lp_int e (Z.of_nat 8)). by rewrite lp_int_app by (lia || done).
Qed.

Lemma lpUint_ok (v : Z) : 0 <= v < 2 ^ 63 -> lp_ok (lpUint v) (FormatInt v).
Proof.
  intros Hv. unfold lpUint. destruct (Z.leb_spec v 127); [apply lp_small; lia|]. destruct (Z.leb_spec v 4095).
  { apply lp_13; [lia|]. destruct (Z.leb_spec 4096 v); lia. }
  destruct (Z.leb_spec v 32767); [|destruct (Z.leb_spec v 2147483647)]; (apply lp_wide; [set_solver|cbn; lia]).
Qed.

Lemma lpInt_ok (v : Z) : is_i64 v -> lp_ok (lpInt v) (FormatInt v).
Proof.
  unfold is_i64. intros Hv. unfold lpInt. destruct ((0 <=? v) && (v <=? 127)) eqn:E1; [breflect; apply lp_small; lia|].
  destruct ((-4096 <=? v) && (v <=? 4095)) eqn:E2; breflect.
  { destruct (Z.ltb_spec v 0); (apply lp_13; [lia|]); (case_match; breflect; lia). }
  destruct ((-32768 <=? v) && (v <=? 32767)) eqn:E3; [|destruct ((-2147483648 <=? v) && (v <=? 2147483647)) eqn:E4]; breflect; (apply lp_wide; [set_solver|cbn; lia]).
Qed.

Lemma lpStr_ok (s : bytes) : len s < 2 ^ 32 -> lp_ok (lpStr s) s.
Proof.
  intros Hs. pose proof (len_nonneg s) as Hn. unfold lpStr. destruct (Z.leb_spec (len s) 63); [|destruct (Z.leb_spec (len s) 4095)].
  - split; [rewrite len_cons; lia|]. intros e r He. cbn [app]. set (x := len s) in *. assert (0 <= x < 2 ^ 6) as Hx by (change (2 ^ 6) with 64; lia).
    destruct (tagged x 2 6) as (E0 & _ & E3); [lia|done|lia|]. change (2 * 2 ^ 6) with 128 in *. change (2 ^ 6 - 1) with 63 in E3. rewrite E0.
    destruct (entry_head e (x + 128) (s ++ r)) as (E1 & E2); [lia|rewrite len_app; lia|].
    pose proof (land_tag x 2 6 2 ltac:(lia) Hx ltac:(lia) ltac:(lia)) as L1. pose proof (land_tag x 2 6 3 ltac:(lia) Hx ltac:(lia) ltac:(lia)) as L2.
    change (Z.land (x + 128) 128 = 128) in L1. change (Z.land (x + 128) 192 = 128) in L2.
    unfold listpackEntry. rewrite E1, E2, L1, L2. cbn [negb Z.eqb Pos.eqb]. rewrite E3. apply lp_text_app; lia.
  - split; [rewrite !len_cons; lia|]. intros e r He. cbn [app]. set (x := len s) in *. pose proof (shiftr8_range x 16 ltac:(lia)) as Hy.
    assert (0 <= Z.shiftr x 8 < 2 ^ 4) as Hx by (change (2 ^ 4) with 16; lia). set (y := Z.shiftr x 8) in *.
    destruct (tagged y 14 4) as (E0 & _ & E3); [lia|done|lia|]. change (14 * 2 ^ 4) with 224 in *. change (2 ^ 4 - 1) with 15 in E3. rewrite E0.
    assert (e <= len (s ++ r)) as Hl by (rewrite len_app; lia).
    destruct (entry_head e (y + 224) (byte_of x :: s ++ r)) as (E1 & E2); [lia|rewrite len_cons; lia|].
    pose proof (fun m (Hm : 0 <= m) => land_tag y 14 4 m ltac:(lia) Hx ltac:(lia) Hm) as L.
    pose proof (L 8 ltac:(lia)) as L1. pose proof (L 12 ltac:(lia)) as L2. pose proof (L 14 ltac:(lia)) as L3. pose proof (L 15 ltac:(lia)) as L4.
    change (Z.land (y + 224) 128 = 128) in L1. change (Z.land (y + 224) 192 = 192) in L2. change (Z.land (y + 224) 224 = 224) in L3. change (Z.land (y + 224) 240 = 224) in L4.
    unfold listpackEntry. rewrite E1, E2, L1, L2, L3, L4. cbn [negb Z.eqb Pos.eqb]. assert (avail e (byte_of x :: s ++ r) 1 = true) as ->.
    { unfold avail. rewrite len_cons. apply Z.leb_le. lia. }
    cbn [negb]. rewrite E3. unfold y. rewrite halves by lia. apply lp_text_app; lia.
  - split; [rewrite len_cons, len_app, len_le_bytes; lia|]. intros e r He. cbn [app].
    assert (e <= len (s ++ r)) as Hl by (rewrite len_app; lia).
    destruct (entry_head e 244 ((le_bytes 4 (len s) ++ s) ++ r)) as (E1 & E2); [lia|rewrite <- app_assoc, len_app, len_le_bytes; lia|].
    unfold listpackEntry. rewrite E2, E1. cbn [negb]. change (Z.land 244 128 =? 0) with false. change (Z.land 244 192 =? 128) with false.
    change (Z.land 244 224 =? 192) with false. change (Z.land 244 240 =? 224) with false. cbn [Z.eqb Pos.eqb]. rewrite <- app_assoc.
    rewrite (avail_app e (le_bytes 4 (len s))) by (done || apply len_le_bytes).
    pose proof (len_le_bytes 4 (len s)) as H4. unfold len in H4 at 1. rewrite take_app_length', drop_app_length' by lia. rewrite le_val_bytes, Z.mod_small by (cbn; lia).
    apply lp_text_app; lia.
Qed.

(** ** Back lengths *)

Lemma backlen_size_bound (f : nat) (v : Z) : 0 <= v < 2 ^ (7 * Z.of_nat (S f)) ->
  1 <= backlen_size f v <= Z.of_nat (S f) /\ v < 2 ^ (7 * backlen_size f v) /\ (backlen_size f v = 1 -> v < 128).
Proof.
  revert v. induction f as [|f IH]; intros v Hv; cbn [backlen_size]; [change (7 * Z.of_nat 1) with 7 in Hv; split_and!; lia|].
  destruct (Z.ltb_spec 127 v) as [Hb|Hb]; [|change (2 ^ (7 * 1)) with 128; split_and!; lia].
  assert (0 <= Z.shiftr v 7 < 2 ^ (7 * Z.of_nat (S f))) as Hs.
  { rewrite Z.shiftr_div_pow2 by lia. split; [apply Z.div_pos; lia|]. apply Z.div_lt_upper_bound; [lia|]. rewrite <- Z.pow_add_r by lia.
    replace (7 + 7 * Z.of_nat (S f)) with (7 * Z.of_nat (S (S f))) by lia. lia. }
  destruct (IH _ Hs) as (Hk & Hlt & _). split_and!; [lia|lia| |lia].
  replace (7 * (1 + backlen_size f (Z.shiftr v 7))) with (7 + 7 * backlen_size f (Z.shiftr v 7)) by lia. rewrite Z.pow_add_r by lia.
  rewrite Z.shiftr_div_pow2 in Hlt |- * by lia. pose proof (Z.div_mod v (2 ^ 7) ltac:(lia)). pose proof (Z.mod_pos_bound v (2 ^ 7) ltac:(lia)). nia.
Qed.

Lemma low7 (v : Z) : 0 <= Z.land v 127 < 128.
Proof. change 127 with (Z.ones 7). rewrite Z.land_ones by lia. apply Z.mod_pos_bound. lia. Qed.

Lemma marked (g : Z) : 0 <= g < 128 ->
  Z.land (byte_val (byte_of (Z.lor g 128))) 128 = 128 /\ Z.land (byte_val (byte_of (Z.lor g 128))) 127 = g /\
  Z.land (byte_val (byte_of g)) 128 = 0 /\ Z.land (byte_val (byte_of g)) 127 = g.
Proof.
  intros Hg. assert (0 <= g < 2 ^ 7) as Hx by (change (2 ^ 7) with 128; lia).
  destruct (tagged g 1 7 ltac:(lia) Hx ltac:(lia)) as (E0 & _ & E1). destruct (tagged g 0 7 ltac:(lia) Hx ltac:(lia)) as (_ & _ & E2).
  pose proof (land_tag g 1 7 1 ltac:(lia) Hx ltac:(lia) ltac:(lia)) as L1. pose proof (land_tag g 0 7 1 ltac:(lia) Hx ltac:(lia) ltac:(lia)) as L0.
  change (1 * 2 ^ 7) with 128 in *. change (0 * 2 ^ 7) with 0 in *. change (2 ^ 7 - 1) with 127 in *. rewrite Z.add_0_r in *.
  rewrite E0, !byte_val_of_small by lia. split_and!; done.
Qed.

Lemma len_backlen_groups (k : nat) (n : Z) : len (backlen_groups k n) = Z.of_nat k.
Proof. induction k as [|k IH]; [done|]. cbn [backlen_groups]. rewrite len_cons, IH. lia. Qed.

Lemma backlen_groups_check (k : nat) (dec n : Z) : 0 <= dec -> 0 <= n ->
  backlen_check false dec (backlen_groups (S k) n) = Ok (dec * 2 ^ (7 * Z.of_nat (S k)) + n mod 2 ^ (7 * Z.of_nat (S k))).
Proof.
  intros Hd Hn. revert dec Hd. induction k as [|k IH]; intros dec Hd.
  - cbn [backlen_groups backlen_check]. change (7 * Z.of_nat 0) with 0. rewrite Z.shiftr_0_r. destruct (marked _ (low7 n)) as (-> & -> & _).
    cbn [negb andb Z.eqb]. rewrite Z.lor_comm, lor_add_shift by (pose proof (low7 n); lia). change (7 * Z.of_nat 1) with 7.
    change 127 with (Z.ones 7). rewrite Z.land_ones by lia. f_equal. lia.
  - change (backlen_groups (S (S k)) n) with (byte_of (Z.land (Z.shiftr n (7 * Z.of_nat (S k))) 127) :: backlen_groups (S k) n).
    set (g := Z.land (Z.shiftr n (7 * Z.of_nat (S k))) 127). pose proof (low7 (Z.shiftr n (7 * Z.of_nat (S k)))) as Hg. fold g in Hg.
    assert (forall c s, s <> [] -> backlen_check false dec (c :: s) = if negb (Z.land (byte_val c) 128 =? 0) then fail "rdb: listpack backlen early terminator"
      else backlen_check false (Z.lor (Z.shiftl dec 7) (Z.land (byte_val c) 127)) s) as -> by (by intros c [|? ?]); [|done].
    destruct (marked g Hg) as (_ & _ & -> & ->). cbn [negb Z.eqb]. rewrite IH by (apply Z.lor_nonneg; split; [apply Z.shiftl_nonneg|]; lia).
    rewrite Z.lor_comm, lor_add_shift by lia. unfold g. change 127 with (Z.ones 7). rewrite Z.land_ones, Z.shiftr_div_pow2 by lia.
    replace (7 * Z.of_nat (S (S k))) with (7 * Z.of_nat (S k) + 7) by lia. rewrite (Z.pow_add_r 2 (7 * Z.of_nat (S k)) 7) by lia.
    rewrite (Z.rem_mul_r n) by lia. f_equal. lia.
Qed.

(** Ten groups hold any length the code can meet. *)
Lemma lpBacklen_ok (n : Z) : 0 <= n < 2 ^ 70 ->
  len (lpBacklen n) = backlen_width n /\ 1 <= backlen_width n /\ backlen_check (backlen_width n =? 1) 0 (lpBacklen n) = Ok n.
Proof.
  intros Hn. unfold lpBacklen, backlen_width. destruct (backlen_size_bound 9 n Hn) as (Hk & Hlt & H1). set (k := backlen_size 9 n) in *.
  destruct (Z.ltb_spec 1 k).
  - rewrite (proj2 (Z.eqb_neq k 1)) by lia. rewrite len_backlen_groups, Z2Nat.id by lia. split_and!; [done|lia|].
    replace (Z.to_nat k) with (S (Z.to_nat (k - 1))) by lia. rewrite backlen_groups_check by lia.
    replace (Z.of_nat (S (Z.to_nat (k - 1)))) with k by lia. rewrite Z.mod_small by lia. done.
  - assert (k = 1) as -> by lia. split_and!; [done|lia|]. cbn [Z.eqb Pos.eqb backlen_check negb andb]. specialize (H1 eq_refl).
    assert (Z.land n 127 = n) as -> by (change 127 with (Z.ones 7); rewrite Z.land_ones, Z.mod_small by (cbn; lia); done).
    destruct (marked n ltac:(lia)) as (_ & _ & _ & ->). done.
Qed.

(** ** Whole listpacks *)

(** A sequence of entries and their tokens. *)
Definition lps_ok (encs toks : list bytes) : Prop := Forall2 (fun e t => lp_ok e t /\ len e < 2 ^ 70) encs toks.

Lemma entry_step (e : Z) (enc t r : bytes) : lp_ok enc t -> 0 <= e <= len r -> len enc < 2 ^ 70 ->
  listpackEntry e (lpEntry enc ++ r) = Ok (t, lpBacklen (len enc) ++ r) /\
  len (lpEntry enc ++ r) - len (lpBacklen (len enc) ++ r) = len enc /\ 1 < len (lpEntry enc).
Proof.
  intros [Hp Hr] He Hl. destruct (lpBacklen_ok (len enc)) as (Hb & H1 & _); [lia|]. unfold lpEntry. rewrite <- app_assoc, !len_app.
  split_and!; [|lia|lia]. apply Hr. rewrite len_app. lia.
Qed.

Lemma listpack_loop_ok (encs toks : list bytes) (fuel : nat) : lps_ok encs toks -> (length encs <= fuel)%nat ->
  listpack_loop fuel (concat (map lpEntry encs) ++ [byte_of 255]) = Ok toks.
Proof.
  intros Hf. revert fuel. induction Hf as [|enc t encs toks [Ho Hl] _ IH]; intros fuel Hfuel; [by destruct fuel|].
  destruct fuel as [|fuel]; [cbn in Hfuel; lia|]. cbn [map concat]. rewrite <- app_assoc. set (rest := concat (map lpEntry encs) ++ [byte_of 255]).
  assert (1 <= len rest) as Hrest by (unfold rest; rewrite len_app; pose proof (len_nonneg (concat (map lpEntry encs))); unfold len; cbn; lia).
  destruct (entry_step 1 enc t rest Ho ltac:(lia) Hl) as (E & El & Hn). pose proof (len_nonneg rest).
  cbn [listpack_loop]. rewrite (proj2 (Z.leb_gt (len (lpEntry enc ++ rest)) 1)) by (rewrite len_app; lia). rewrite E. cbn [res_bind]. rewrite El.
  destruct Ho as [Hp _]. destruct (lpBacklen_ok (len enc)) as (Hb & H1 & Hc); [lia|]. rewrite len_app, Hb.
  rewrite (proj2 (Z.ltb_ge _ _)) by lia. rewrite <- Hb, take_len_app, drop_len_app.
  rewrite Hb, Hc. cbn [res_bind]. rewrite Z.eqb_refl. cbn [negb]. unfold rest. by rewrite IH by (cbn in Hfuel; lia).
Qed.

Lemma count_entries_ok (encs toks : list bytes) (fuel : nat) (n : Z) : lps_ok encs toks -> (length encs <= fuel)%nat ->
  count_entries fuel n (concat (map lpEntry encs)) = n + len encs.
Proof.
  intros Hf. revert fuel n. induction Hf as [|enc t encs toks [Ho Hl] _ IH]; intros fuel n Hfuel; [destruct fuel; cbn; unfold len; cbn; lia|].
  destruct fuel as [|fuel]; [cbn in Hfuel; lia|]. cbn [map concat]. set (rest := concat (map lpEntry encs)).
  pose proof (len_nonneg rest). destruct (entry_step 0 enc t rest Ho ltac:(lia) Hl) as (E & El & Hn).
  assert (forall s, s <> [] -> count_entries (S fuel) n s = match listpackEntry 0 s with
    | Ok (_, next) => count_entries fuel (n + 1) (drop (Z.to_nat (backlen_width (len s - len next))) next) | _ => -1 end) as -> by (by intros [|? ?]).
  - rewrite E, El. destruct Ho as [Hp _]. destruct (lpBacklen_ok (len enc)) as (Hb & H1 & _); [lia|]. rewrite <- Hb, drop_len_app.
    unfold rest. rewrite IH by (cbn in Hfuel; lia). rewrite len_cons. lia.
  - intros Hx. assert (len (lpEntry enc ++ rest) = 0) as Hz by (by rewrite Hx). rewrite len_app in Hz. lia.
Qed.

Lemma lps_length (encs toks : list bytes) : lps_ok encs toks -> (length encs <= length (concat (map lpEntry encs)))%nat.
Proof.
  intros Hf. induction Hf as [|enc t encs toks [Ho Hl] _ IH]; cbn [map concat length]; [lia|]. rewrite length_app.
  destruct (entry_step 0 enc t [] Ho ltac:(unfold len; cbn; lia) Hl) as (_ & _ & Hn). unfold len in Hn. lia.
Qed.

Definition listpack_of (encs : list bytes) : bytes :=
  let body := concat (map lpEntry encs) in le_bytes 4 (6 + len body + 1) ++ le_bytes 2 (len encs) ++ body ++ [byte_of 255].

Lemma parseListpack_of (encs toks : list bytes) : lps_ok encs toks -> len (listpack_of encs) < 2 ^ 32 ->
  parseListpack (listpack_of encs) = Ok toks.
Proof.
  intros Ho. unfold listpack_of. set (body := concat (map lpEntry encs)). intros Hl. unfold parseListpack.
  set (blob := le_bytes 4 _ ++ _). assert (len blob = 6 + len body + 1) as El.
  { unfold blob. rewrite !len_app, !len_le_bytes. unfold len at 2. cbn. lia. }
  pose proof (len_nonneg body). rewrite (proj2 (Z.ltb_ge (len blob) 7)) by lia.
  assert (take 4 blob = le_bytes 4 (6 + len body + 1)) as ->.
  { unfold blob. pose proof (len_le_bytes 4 (6 + len body + 1)) as E. unfold len in E at 1. rewrite take_app_length' by lia. done. }
  rewrite le_val_bytes, Z.mod_small by (fold blob in Hl; cbn; lia). rewrite El, Z.eqb_refl. cbn [negb].
  assert (last blob = Some (byte_of 255)) as ->. { unfold blob. rewrite !app_assoc. apply last_snoc. }
  rewrite bool_decide_eq_true_2 by done. cbn [negb].
  assert (drop 6 blob = body ++ [byte_of 255]) as ->.
  { unfold blob. rewrite app_assoc. apply drop_app_length'. rewrite length_app. pose proof (len_le_bytes 4 (6 + len body + 1)) as E4.
    pose proof (len_le_bytes 2 (len encs)) as E2. unfold len in E4 at 1, E2 at 1. lia. }
  apply listpack_loop_ok; [done|]. pose proof (lps_length _ _ Ho) as Hle. fold body in Hle. unfold len in *. lia.
Qed.

(** ** Stream entries *)

Lemma lps_app (e1 e2 t1 t2 : list bytes) : lps_ok e1 t1 -> lps_ok e2 t2 -> lps_ok (e1 ++ e2) (t1 ++ t2).
Proof. apply Forall2_app. Qed.
Lemma lps_cons (e t : bytes) (es ts : list bytes) : lps_ok [e] [t] -> lps_ok es ts -> lps_ok (e :: es) (t :: ts).
Proof. apply (lps_app [e] es [t] ts). Qed.
Lemma lps_uint (v : Z) : 0 <= v < 2 ^ 63 -> lps_ok [lpUint v] [FormatInt v].
Proof.
  intros Hv. apply Forall2_cons; split; [|done]. split; [by apply lpUint_ok|]. unfold lpUint. repeat case_match; rewrite ?len_cons, ?len_le_bytes; unfold len; cbn; lia.
Qed.
Lemma lps_int (v : Z) : is_i64 v -> lps_ok [lpInt v] [FormatInt v].
Proof.
  intros Hv. apply Forall2_cons; split; [|done]. split; [by apply lpInt_ok|]. unfold lpInt. repeat case_match; rewrite ?len_cons, ?len_le_bytes; unfold len; cbn; lia.
Qed.

Definition name_ok (s : bytes) : Prop := len s < 2 ^ 32.

Lemma lps_strs (l : list bytes) : Forall name_ok l -> lps_ok (map lpStr l) l.
Proof.
  intros Hl. induction Hl as [|s l Hs _ IH]; [constructor|]. cbn [map]. apply Forall2_cons; split; [|exact IH]. split; [by apply lpStr_ok|].
  unfold name_ok in Hs. unfold lpStr. repeat case_match; rewrite ?len_cons, ?len_app, ?len_le_bytes; lia.
Qed.

(** An entry with at least one field. *)
Record entry_ok (e : StreamEntry) : Prop := {
  eo_ms : is_u64 (eMS e);
  eo_seq : is_u64 (eSeq e);
  eo_some : eFields e <> [];
  eo_count : len (eFields e) < 2 ^ 32;
  eo_names : Forall name_ok (map fst (eFields e));
  eo_values : Forall name_ok (map snd (eFields e));
}.

Definition item_toks (baseMS baseSeq : Z) (prev : list bytes) (en : StreamEntry) : list bytes :=
  let names := fieldNames (eFields en) in
  let same := equalStrings names prev in
  let nf := len (eFields en) in
  [FormatInt (if same then streamItemSameFields else 0); FormatInt (i64 (i64 (eMS en) - i64 baseMS)); FormatInt (i64 (i64 (eSeq en) - i64 baseSeq))]
  ++ (if same then [] else FormatInt (len names) :: names) ++ map snd (eFields en) ++ [FormatInt (3 + nf + (if same then 0 else nf + 1))].

Lemma len_fieldNames (l : list (bytes * bytes)) : len (fieldNames l) = len l.
Proof. unfold len, fieldNames. by rewrite length_map. Qed.

Lemma item_entries_ok (baseMS baseSeq : Z) (prev : list bytes) (en : StreamEntry) : entry_ok en ->
  lps_ok (item_entries baseMS baseSeq prev en) (item_toks baseMS baseSeq prev en).
Proof.
  intros [_ _ _ Hc Hn Hv]. pose proof (len_nonneg (eFields en)). unfold item_entries, item_toks. cbv zeta. apply lps_app; [|apply lps_app; [|apply lps_app]].
  - apply lps_cons; [apply lps_uint; case_match; unfold streamItemSameFields; lia|]. apply lps_cons; [apply lps_int, i64_range|]. apply lps_int, i64_range.
  - case_match; [constructor|]. apply lps_cons; [apply lps_uint; rewrite len_fieldNames; lia|by apply lps_strs].
  - rewrite <- (map_map snd lpStr). by apply lps_strs.
  - apply lps_uint. case_match; lia.
Qed.

Lemma tok_int_ok (v : Z) (toks : list bytes) : is_i64 v -> tok_int (FormatInt v :: toks) = Ok (v, toks).
Proof. intros Hv. cbn [tok_int]. by rewrite ParseInt_FormatInt. Qed.

Lemma tok_take_ok (l toks : list bytes) (msg : string) : tok_take (len l) msg (l ++ toks) = Ok (l, toks).
Proof.
  unfold tok_take. rewrite len_app. pose proof (len_nonneg toks). rewrite (proj2 (Z.ltb_ge _ _)) by lia. by rewrite take_len_app, drop_len_app.
Qed.

Definition lp_item (baseMS baseSeq : Z) (en : StreamEntry) : lpMasterEntry :=
  mkLP (eFields en) (i64 (i64 (eMS en) - i64 baseMS)) (i64 (i64 (eSeq en) - i64 baseSeq)).

Lemma zip_fst_snd {A B} (l : list (A * B)) : zip (map fst l) (map snd l) = l.
Proof. induction l as [|[a b] l IH]; cbn; [done|]. by f_equal. Qed.

Lemma walk_item_ok (baseMS baseSeq : Z) (prev : list bytes) (en : StreamEntry) (rest : list bytes) : entry_ok en ->
  walk_item prev (item_toks baseMS baseSeq prev en ++ rest) = Ok (lp_item baseMS baseSeq en, fieldNames (eFields en), rest).
Proof.
  intros [_ _ Hs Hc _ _]. pose proof (len_nonneg (eFields en)) as Hp. unfold item_toks. cbv zeta. set (names := fieldNames (eFields en)).
  set (same := equalStrings names prev). unfold walk_item. cbn [app]. rewrite tok_int_ok by (unfold is_i64; case_match; unfold streamItemSameFields; lia).
  cbn [res_bind]. rewrite tok_int_ok by apply i64_range. cbn [res_bind]. rewrite tok_int_ok by apply i64_range. cbn [res_bind].
  assert (Z.testbit (if same then streamItemSameFields else 0) 1 = same) as -> by (by destruct same).
  assert (len names = len (eFields en)) as Hl by apply len_fieldNames. rewrite <- !app_assoc.
  assert ((if same then if len prev =? 0 then fail "rdb: stream samefields without base" else Ok (prev, (if same then [] else FormatInt (len names) :: names) ++ map snd (eFields en) ++ [FormatInt (3 + len (eFields en) + (if same then 0 else len (eFields en) + 1))] ++ rest)
    else let? (n, toks) := tok_int ((if same then [] else FormatInt (len names) :: names) ++ map snd (eFields en) ++ [FormatInt (3 + len (eFields en) + (if same then 0 else len (eFields en) + 1))] ++ rest) in
         if n <? 0 then fail "rdb: stream negative numfields" else tok_take n "rdb: stream listpack truncated names" toks)
    = Ok (names, map snd (eFields en) ++ [FormatInt (3 + len (eFields en) + (if same then 0 else len (eFields en) + 1))] ++ rest)) as ->.
  { destruct same eqn:Es; cbn [app].
    - unfold same, equalStrings in Es. apply bool_decide_eq_true in Es. rewrite <- Es, Hl. rewrite (proj2 (Z.eqb_neq _ _)); [done|].
      intros E. apply Hs. unfold len in E. by destruct (eFields en).
    - rewrite tok_int_ok by (unfold is_i64; lia). cbn [res_bind]. rewrite (proj2 (Z.ltb_ge _ _)) by lia. apply tok_take_ok. }
  cbn [res_bind]. rewrite Hl. replace (len (eFields en)) with (len (map snd (eFields en))) at 1 by (unfold len; by rewrite length_map).
  rewrite tok_take_ok. cbn [res_bind app]. rewrite tok_int_ok by (unfold is_i64; case_match; lia). cbn [res_bind].
  replace (3 + len (eFields en) + (if same then 0 else len (eFields en) + 1) =? 3 + len (eFields en) + (if same then 0 else len (eFields en) + 1)) with true by (symmetry; apply Z.eqb_refl).
  cbn [negb]. unfold lp_item, names, fieldNames. by rewrite zip_fst_snd.
Qed.

Fixpoint items_toks (baseMS baseSeq : Z) (prev : list bytes) (es : list StreamEntry) : list bytes :=
  match es with
  | [] => []
  | en :: es => item_toks baseMS baseSeq prev en ++ items_toks baseMS baseSeq (fieldNames (eFields en)) es
  end.

Lemma items_ok (baseMS baseSeq : Z) (prev : list bytes) (es : list StreamEntry) : Forall entry_ok es ->
  lps_ok (items baseMS baseSeq prev es) (items_toks baseMS baseSeq prev es).
Proof.
  intros Hes. revert prev. induction Hes as [|en es He _ IH]; intros prev; [constructor|]. cbn [items items_toks]. apply lps_app; [by apply item_entries_ok|].
  assert ((if equalStrings (fieldNames (eFields en)) prev then prev else fieldNames (eFields en)) = fieldNames (eFields en)) as -> by
    (unfold equalStrings; by case_bool_decide).
  apply IH.
Qed.

Lemma walk_items_ok (baseMS baseSeq : Z) (prev : list bytes) (es : list StreamEntry) (fuel : nat) : Forall entry_ok es -> (length es <= fuel)%nat ->
  walk_items fuel prev (items_toks baseMS baseSeq prev es) = Ok (map (lp_item baseMS baseSeq) es).
Proof.
  intros Hes. revert prev fuel. induction Hes as [|en es He _ IH]; intros prev fuel Hf; [by destruct fuel|]. cbn [items_toks map].
  destruct fuel as [|fuel]; [cbn in Hf; lia|].
  assert (forall toks, toks <> [] -> walk_items (S fuel) prev toks = let? (it, names, toks) := walk_item prev toks in let? rest := walk_items fuel names toks in Ok (it :: rest)) as ->
    by (by intros [|? ?]); [|done].
  rewrite walk_item_ok by done. cbn [res_bind]. by rewrite IH by (cbn in Hf; lia).
Qed.

Lemma items_toks_length (baseMS baseSeq : Z) (prev : list bytes) (es : list StreamEntry) : (length es <= length (items_toks baseMS baseSeq prev es))%nat.
Proof. revert prev. induction es as [|en es IH]; intros prev; cbn [items_toks length]; [lia|]. rewrite length_app. specialize (IH (fieldNames (eFields en))). unfold item_toks. cbn. lia. Qed.

Definition stream_toks (st : StreamData) : list bytes :=
  let names := baseFieldNames st in
  FormatInt (len (sEntries st)) :: FormatInt 0 :: FormatInt (len names) :: names ++ FormatInt 0 ::
  items_toks (base_id st).1 (base_id st).2 names (sEntries st).

(** The entries of a stream, and its listpack, are of a size the format can
    express. *)
Record entries_ok (st : StreamData) : Prop := {
  es_all : Forall entry_ok (sEntries st);
  es_count : len (sEntries st) < 2 ^ 63;
  es_blob : len (listpack_of (stream_entries st)) < 2 ^ 32;
}.

Lemma base_names_ok (st : StreamData) : Forall entry_ok (sEntries st) -> Forall name_ok (baseFieldNames st) /\ len (baseFieldNames st) < 2 ^ 32.
Proof.
  intros Hf. unfold baseFieldNames. destruct Hf as [|e es [_ _ _ Hc Hn _] _]; [split; [constructor|done]|]. split; [done|by rewrite len_fieldNames].
Qed.

Lemma stream_entries_ok (st : StreamData) : entries_ok st -> lps_ok (stream_entries st) (stream_toks st).
Proof.
  intros [Ha Hc _]. destruct (base_names_ok st Ha) as [Hn Hl]. pose proof (len_nonneg (baseFieldNames st)). pose proof (len_nonneg (sEntries st)).
  unfold stream_entries, stream_toks. cbv zeta. apply lps_cons; [apply lps_uint; lia|]. apply lps_cons; [apply lps_uint; lia|].
  apply lps_cons; [apply lps_uint; lia|]. apply lps_app; [by apply lps_strs|]. apply lps_cons; [apply lps_uint; lia|]. by apply items_ok.
Qed.

Lemma build_ok (st : StreamData) : entries_ok st -> buildStreamListpack st = Ok (listpack_of (stream_entries st)).
Proof.
  intros Ho. pose proof (stream_entries_ok st Ho) as Hl. unfold buildStreamListpack, countLPEntries. cbv zeta.
  rewrite (count_entries_ok _ _ _ 0 Hl (lps_length _ _ Hl)), Z.add_0_l. pose proof (len_nonneg (stream_entries st)). by rewrite (proj2 (Z.ltb_ge _ _)).
Qed.

Lemma walk_stream_ok (st : StreamData) : entries_ok st ->
  walkStreamListpack (stream_toks st) = Ok (map (lp_item (base_id st).1 (base_id st).2) (sEntries st)).
Proof.
  intros [Ha Hc _]. destruct (base_names_ok st Ha) as [Hn Hl]. pose proof (len_nonneg (baseFieldNames st)). pose proof (len_nonneg (sEntries st)).
  unfold walkStreamListpack, stream_toks. cbv zeta. unfold walk_master. rewrite !tok_int_ok by (unfold is_i64; lia). cbn [res_bind].
  rewrite !tok_int_ok by (unfold is_i64; lia). cbn [res_bind]. rewrite !tok_int_ok by (unfold is_i64; lia). cbn [res_bind].
  rewrite (proj2 (Z.ltb_ge _ _)) by lia. rewrite tok_take_ok. cbn [res_bind]. rewrite tok_int_ok by (unfold is_i64; lia). cbn [res_bind Z.eqb negb].
  apply walk_items_ok; [done|apply items_toks_length].
Qed.

Lemma u64_diff (a b : Z) : is_u64 a -> u64 (b + i64 (i64 a - i64 b)) = a.
Proof.
  intros Ha. unfold u64, i64. rewrite Zplus_mod. set (m := 2 ^ 64).
  assert (forall x, (((x + 2 ^ 63) mod m - 2 ^ 63)) mod m = x mod m) as Hi.
  { intros x. rewrite Zminus_mod, Z.mod_mod by done. rewrite <- Zminus_mod. f_equal. lia. }
  rewrite Hi. rewrite (Zminus_mod ((a + 2 ^ 63) mod m - 2 ^ 63)), !Hi, <- Zminus_mod, <- Zplus_mod.
  replace (b + (a - b)) with a by lia. by apply Z.mod_small.
Qed.

Lemma len_put_id (ms seq : Z) : len (put_id ms seq) = 16.
Proof. unfold put_id, PutUint64BE. by rewrite len_app, !len_be_bytes. Qed.

Lemma put_id_read (ms seq : Z) : is_u64 ms -> is_u64 seq -> Uint64BE (take 8 (put_id ms seq)) = ms /\ Uint64BE (drop 8 (put_id ms seq)) = seq.
Proof.
  intros Hm Hs. unfold put_id. assert (length (PutUint64BE ms) = 8%nat) as Hl by apply be_bytes_length.
  rewrite take_app_length', drop_app_length' by done. split; [rewrite <- (app_nil_r (PutUint64BE ms))|rewrite <- (app_nil_r (PutUint64BE seq))]; by apply Uint64BE_Put.
Qed.

Lemma base_id_ok (st : StreamData) : Forall entry_ok (sEntries st) -> is_u64 (base_id st).1 /\ is_u64 (base_id st).2.
Proof. intros Hf. unfold base_id. destruct Hf as [|e es [? ? _ _ _ _] _]; [unfold is_u64; cbn; lia|done]. Qed.

Lemma stream_node_ok (st : StreamData) (r : bytes) : entries_ok st ->
  stream_node (writeString (put_id (base_id st).1 (base_id st).2) ++ writeString (listpack_of (stream_entries st)) ++ r) = Ok (sEntries st, r).
Proof.
  intros Ho. pose proof Ho as [Ha _ Hb]. destruct (base_id_ok st Ha) as [H1 H2]. unfold stream_node.
  rewrite readString_writeString by (unfold str_fits; rewrite len_put_id; lia). cbn [res_bind]. rewrite len_put_id. cbn [Z.eqb Pos.eqb negb].
  destruct (put_id_read _ _ H1 H2) as [-> ->]. rewrite readString_writeString by (unfold str_fits; lia). cbn [res_bind].
  rewrite (parseListpack_of _ _ (stream_entries_ok st Ho)) by done. cbn [res_bind]. rewrite walk_stream_ok by done. cbn [res_bind]. do 2 f_equal.
  rewrite map_map. rewrite <- (map_id (sEntries st)) at 2. apply map_ext_in. intros e He.
  apply list_elem_of_In in He. destruct (proj1 (Forall_forall _ _) Ha e He) as [Hm Hs _ _ _ _]. cbn [lp_item msDiff seqDiff lpFields].
  rewrite !u64_diff by done. by destruct e.
Qed.

(** ** Groups *)

Lemma times_enc {A B} (enc : A -> bytes) (f : A -> B) (rd : bytes -> result (B * bytes)) (l : list A) (r : bytes) :
  (forall x, x ∈ l -> forall q, rd (enc x ++ q) = Ok (f x, q)) -> (forall x, x ∈ l -> enc x <> []) ->
  times (len l) rd (concat (map enc l) ++ r) = Ok (map f l, r).
Proof.
  intros Hr Hn. unfold times. assert (length l <= length (concat (map enc l) ++ r))%nat as Hl.
  { rewrite length_app. clear Hr. induction l as [|x l IH]; cbn [map concat length]; [lia|]. rewrite length_app.
    assert (enc x <> []) as Hx by (apply Hn; by left). specialize (IH ltac:(intros; apply Hn; by right)). destruct (enc x); [done|cbn; lia]. }
  assert (forall n, (length l <= n)%nat -> read_n rd n (len l) (concat (map enc l) ++ r) = Ok (map f l, r)) as Hread; [|apply Hread; lia].
  clear Hn Hl. induction l as [|x l IH]; intros n Hl; [by destruct n|].
  destruct n as [|n]; [cbn in Hl; lia|]. cbn [map concat]. rewrite len_cons. cbn [read_n]. pose proof (len_nonneg l).
  rewrite (proj2 (Z.leb_gt (1 + len l) 0)) by lia. rewrite <- app_assoc, Hr by (by left). cbn [res_bind]. replace (1 + len l - 1) with (len l) by lia.
  rewrite IH; [done|intros; apply Hr; by right|cbn in Hl; lia].
Qed.

Lemma writeLen_cons (v : Z) : exists c t, writeLen v = c :: t.
Proof. unfold writeLen. repeat case_match; eauto. Qed.
Lemma writeString_some (s : bytes) : writeString s <> [].
Proof. unfold writeString. destruct (writeLen_cons (len s)) as (c & t & ->). done. Qed.

Record pending_ok (p : StreamPending) : Prop := {
  po_ms : is_u64 (pMS p); po_seq : is_u64 (pSeq p); po_time : is_u64 (DeliveryTime p); po_count : is_u64 (DeliveryCount p);
}.
Record consumer_ok (c : StreamConsumerData) : Prop := {
  co_name : str_fits (cName c); co_seen : is_u64 (SeenTime c); co_active : is_u64 (ActiveTime c);
}.

(** Ids are listed once and owned by a consumer of the group. *)
Record group_ok (g : StreamGroupData) : Prop := {
  go_name : str_fits (gdName g);
  go_nums : is_u64 (gLastMS g) /\ is_u64 (gLastSeq g) /\ is_u64 (gEntriesRead g);
  go_lens : is_u64 (len (Pending g)) /\ is_u64 (len (gdConsumers g));
  go_pending : Forall pending_ok (Pending g);
  go_consumers : Forall consumer_ok (gdConsumers g);
  go_ids : NoDup (map (fun p => (pMS p, pSeq p)) (Pending g));
  go_owners : Forall (fun p => pConsumer p ∈ map cName (gdConsumers g)) (Pending g);
}.

(** A consumer that was never active is marked by the largest time. *)
Definition norm_consumer (c : StreamConsumerData) : StreamConsumerData :=
  mkSC (cName c) (SeenTime c) (if ActiveTime c =? 0 then 2 ^ 64 - 1 else ActiveTime c).
Definition norm_group (g : StreamGroupData) : StreamGroupData :=
  mkSG (gdName g) (gLastMS g) (gLastSeq g) (gEntriesRead g) true (Pending g) (map norm_consumer (gdConsumers g)).

Lemma raw16_put (ms seq : Z) (r : bytes) : is_u64 ms -> is_u64 seq -> raw16 (put_id ms seq ++ r) = Ok (ms, seq, r).
Proof.
  intros Hm Hs. unfold raw16. rewrite readBytes_app by (apply len_put_id || lia). cbn [res_bind]. by destruct (put_id_read ms seq Hm Hs) as [-> ->].
Qed.

Lemma read_pending_ok (p : StreamPending) (r : bytes) : pending_ok p ->
  read_pending (write_pending p ++ r) = Ok (mkSP (pMS p) (pSeq p) (DeliveryTime p) (DeliveryCount p) [], r).
Proof.
  intros [Hm Hs Ht Hc]. unfold read_pending, write_pending. rewrite <- !app_assoc, raw16_put by done. cbn [res_bind].
  rewrite u64le_app, u64_id by done. cbn [res_bind]. by rewrite readMetaUint_writeLen.
Qed.

Lemma len_mine (g : StreamGroupData) (c : StreamConsumerData) : is_u64 (len (Pending g)) -> is_u64 (len (mine g c)).
Proof. unfold is_u64, mine, len. intros Hl. pose proof (List.filter_length_le (fun p => bytes_eqb (pConsumer p) (cName c)) (Pending g)). lia. Qed.

Lemma mine_elem (g : StreamGroupData) (c : StreamConsumerData) (p : StreamPending) : p ∈ mine g c <-> p ∈ Pending g /\ pConsumer p = cName c.
Proof.
  unfold mine. rewrite list_elem_of_In, filter_In, <- list_elem_of_In. unfold bytes_eqb. by rewrite bool_decide_eq_true.
Qed.

Lemma read_consumer_ok (g : StreamGroupData) (c : StreamConsumerData) (r : bytes) : group_ok g -> consumer_ok c ->
  read_consumer true (write_consumer g c ++ r) = Ok (norm_consumer c, map (fun p => (pMS p, pSeq p)) (mine g c), r).
Proof.
  intros Hg [Hn Hs Ha]. unfold read_consumer, write_consumer. rewrite <- !app_assoc, readString_writeString by done. cbn [res_bind].
  rewrite u64le_app, u64_id by done. cbn [res_bind]. rewrite u64le_app, u64_id by (unfold is_u64 in *; case_match; lia). cbn [res_bind].
  rewrite readMetaUint_writeLen by (apply len_mine, Hg). cbn [res_bind].
  rewrite (times_enc (fun p => put_id (pMS p) (pSeq p)) (fun p => (pMS p, pSeq p))); [done|..].
  - intros p Hp q. apply mine_elem in Hp as [Hp _]. destruct (proj1 (Forall_forall _ _) (go_pending _ Hg) p Hp) as [? ? _ _]. by rewrite raw16_put.
  - intros p _ E. pose proof (len_put_id (pMS p) (pSeq p)) as Hl. by rewrite E in Hl.
Qed.

Notation owner_list := (list (StreamConsumerData * list (Z * Z))).

Lemma owner_insert (ids : list (Z * Z)) (n : bytes) (m : gmap (Z * Z) bytes) (id : Z * Z) :
  foldl (fun m id => <[id := n]> m) m ids !! id = if decide (id ∈ ids) then Some n else m !! id.
Proof.
  revert m. induction ids as [|i ids IH]; intros m; cbn [foldl]; [by rewrite decide_False by apply not_elem_of_nil|]. rewrite IH.
  destruct (decide (id ∈ ids)); [by rewrite decide_True by (by right)|]. destruct (decide (id = i)) as [->|Hne].
  - by rewrite lookup_insert_eq, decide_True by (by left).
  - rewrite lookup_insert_ne by done. rewrite decide_False; [done|]. by rewrite elem_of_cons; intros [?|?].
Qed.

Lemma owners_spec (cs : owner_list) (id : Z * Z) (n : bytes) : (forall c, c ∈ cs -> id ∈ c.2 -> cName c.1 = n) -> (exists c, c ∈ cs /\ id ∈ c.2) -> owners cs !! id = Some n.
Proof.
  induction cs as [|c cs IH] using rev_ind; intros Hu (c0 & Hc0 & Hi); [by apply elem_of_nil in Hc0|].
  unfold owners. rewrite foldl_app. cbn [foldl]. rewrite owner_insert. destruct (decide (id ∈ c.2)) as [Hin|Hnin].
  - f_equal. apply Hu; [|done]. apply elem_of_app. right. by apply list_elem_of_singleton.
  - apply IH; [intros c' Hc'; apply Hu, elem_of_app; by left|]. exists c0. split; [|done]. apply elem_of_app in Hc0 as [?|Hx]; [done|].
    apply list_elem_of_singleton in Hx. by subst.
Qed.

Lemma group_owner (g : StreamGroupData) (p : StreamPending) : group_ok g -> p ∈ Pending g ->
  owners (map (fun c => (norm_consumer c, map (fun p => (pMS p, pSeq p)) (mine g c))) (gdConsumers g)) !! (pMS p, pSeq p) = Some (pConsumer p).
Proof.
  intros Hg Hp. apply owners_spec.
  - intros c (c0 & -> & Hc0)%list_elem_of_fmap Hi. cbn [fst snd norm_consumer cName] in *. apply list_elem_of_fmap in Hi as (p' & E & Hp').
    apply mine_elem in Hp' as [Hp' <-]. f_equal.
    apply list_elem_of_lookup in Hp as [i Hi]. apply list_elem_of_lookup in Hp' as [j Hj].
    assert (i = j) as -> by (eapply NoDup_lookup; [apply (go_ids _ Hg)|rewrite list_lookup_fmap, Hi; reflexivity|rewrite list_lookup_fmap, Hj; cbn; by rewrite E]).
    congruence.
  - pose proof (proj1 (Forall_forall _ _) (go_owners _ Hg) p Hp) as Ho. apply list_elem_of_fmap in Ho as (c & E & Hc).
    eexists. split; [apply list_elem_of_fmap; exists c; by split|]. cbn [snd]. apply list_elem_of_fmap. exists p. split; [done|]. by apply mine_elem.
Qed.

Lemma read_group_ok (g : StreamGroupData) (r : bytes) : group_ok g -> read_group true true (write_group g ++ r) = Ok (norm_group g, r).
Proof.
  intros Hg. pose proof Hg as [Hn (H1 & H2 & H3) (Hp & Hc) Hpo Hco _ _]. unfold read_group, write_group. rewrite <- !app_assoc, readString_writeString by done. cbn [res_bind].
  rewrite readMetaUint_writeLen by done. cbn [res_bind]. rewrite readMetaUint_writeLen by done. cbn [res_bind]. rewrite readMetaUint_writeLen by done. cbn [res_bind].
  rewrite readMetaUint_writeLen by done. cbn [res_bind].
  rewrite (times_enc write_pending (fun p => mkSP (pMS p) (pSeq p) (DeliveryTime p) (DeliveryCount p) [])); cbn [res_bind].
  2: { intros p Hx q. apply read_pending_ok. by apply (proj1 (Forall_forall _ _) Hpo). }
  2: { intros p _ E. apply (f_equal len) in E. unfold write_pending in E. rewrite len_app, len_put_id in E. pose proof (len_nonneg (le_bytes 8 (DeliveryTime p) ++ writeLen (DeliveryCount p))). change (len []) with 0 in E. lia. }
  rewrite readMetaUint_writeLen by done. cbn [res_bind].
  rewrite (times_enc (write_consumer g) (fun c => (norm_consumer c, map (fun p => (pMS p, pSeq p)) (mine g c)))); cbn [res_bind].
  2: { intros c Hx q. rewrite read_consumer_ok by (done || by apply (proj1 (Forall_forall _ _) Hco)). done. }
  2: { intros c _ E. unfold write_consumer in E. apply app_eq_nil in E as [E _]. by apply writeString_some in E. }
  unfold norm_group. do 3 f_equal.
  - rewrite map_map. rewrite <- (map_id (Pending g)) at 2. apply map_ext_in. intros p Hx. cbn [pMS pSeq DeliveryTime DeliveryCount].
    rewrite group_owner by (done || by apply list_elem_of_In). by destruct p.
  - by rewrite map_map.
Qed.

(** ** Streams *)

Record stream_ok (st : StreamData) : Prop := {
  st_entries : entries_ok st;
  st_nums : Forall is_u64 [sLength st; LastMS st; LastSeq st; FirstMS st; FirstSeq st; MaxDeletedMS st; MaxDeletedSeq st; sAdded st];
  st_groups : Forall group_ok (sGroups st);
  st_ngroups : is_u64 (len (sGroups st));
}.

(** Counters that were not set are those of the entries. *)
Definition norm_stream (st : StreamData) : StreamData :=
  mkSD (sEntries st) (out_length st) (out_last st).1 (out_last st).2 (out_first st).1 (out_first st).2
       (MaxDeletedMS st) (MaxDeletedSeq st) (out_added st) (map norm_group (sGroups st)).

Lemma out_nums (st : StreamData) : stream_ok st ->
  Forall is_u64 [out_length st; (out_last st).1; (out_last st).2; (out_first st).1; (out_first st).2; out_added st].
Proof.
  intros [[Ha Hc _] Hn _ _]. rewrite !Forall_cons in Hn. rewrite !Forall_cons. destruct Hn as (H1 & H2 & H3 & H4 & H5 & _ & _ & H8 & _).
  pose proof (len_nonneg (sEntries st)). assert (is_u64 (len (sEntries st))) as Hl by (unfold is_u64; lia).
  assert (forall e, last (sEntries st) = Some e -> entry_ok e) as Hlast.
  { intros e He. apply (proj1 (Forall_forall _ _) Ha). by apply last_Some_elem_of. }
  assert (is_u64 (out_last st).1 /\ is_u64 (out_last st).2) as [? ?].
  { unfold out_last. destruct (last (sEntries st)) as [e|]; [|done]. destruct (Hlast e eq_refl). by case_match. }
  assert (is_u64 (out_first st).1 /\ is_u64 (out_first st).2) as [? ?].
  { unfold out_first. destruct (sEntries st) as [|e es]; [done|]. apply Forall_cons in Ha as [[? ? _ _ _ _] _]. by case_match. }
  split_and!; try done; [unfold out_length|unfold out_added]; by case_match.
Qed.

Lemma readStreamMeta_ok (st : StreamData) (r : bytes) : stream_ok st -> readStreamMeta vtStreamLP3 (sEntries st) (write_meta st ++ r) = Ok (norm_stream st, r).
Proof.
  intros Ho. pose proof (out_nums st Ho) as Hout. destruct Ho as [_ Hn Hg Hl]. rewrite !Forall_cons in Hn. rewrite !Forall_cons in Hout.
  destruct Hn as (_ & _ & _ & _ & _ & H6 & H7 & _). destruct Hout as (G1 & G2 & G3 & G4 & G5 & G6 & _).
  unfold readStreamMeta, write_meta. rewrite <- !app_assoc. change (vtStreamLP2 <=? vtStreamLP3) with true. change (vtStreamLP3 <=? vtStreamLP3) with true. cbv iota zeta.
  do 9 (rewrite readMetaUint_writeLen by done; cbn [res_bind]).
  rewrite (times_enc write_group norm_group); [done|..].
  - intros g Hx q. apply read_group_ok. by apply (proj1 (Forall_forall _ _) Hg).
  - intros g _ E. unfold write_group in E. apply app_eq_nil in E as [E _]. by apply writeString_some in E.
Qed.

Lemma writeStream_ok (st : StreamData) : stream_ok st ->
  exists b, writeStream st = Ok b /\ forall r, readStream vtStreamLP3 (b ++ r) = Ok (norm_stream st, r).
Proof.
  intros Ho. pose proof (st_entries _ Ho) as He. unfold writeStream. rewrite build_ok by done. eexists. split; [reflexivity|]. intros r.
  unfold readStream. rewrite <- !app_assoc, plainLen_writeLen by (unfold is_u64; lia). cbn [res_bind].
  pose proof (times_enc (fun st => writeString (put_id (base_id st).1 (base_id st).2) ++ writeString (listpack_of (stream_entries st))) sEntries stream_node [st] (write_meta st ++ r)) as Ht.
  cbn [map concat] in Ht. rewrite app_nil_r, <- app_assoc in Ht. change (len [st]) with 1 in Ht. rewrite Ht; cbn [res_bind concat]; [rewrite app_nil_r; by apply readStreamMeta_ok|..].
  - intros x ->%list_elem_of_singleton q. rewrite <- app_assoc. by apply stream_node_ok.
  - intros x _ E. apply app_eq_nil in E as [E _]. by apply writeString_some in E.
Qed.

(** ** Values *)

Section file.
Context `{GoFloat}.

Definition strs_fit (l : list bytes) : Prop := Forall str_fits l /\ is_u64 (len l).

Definition value_ok (v : value) : Prop :=
  match v with
  | RString s => str_fits s
  | RHLL s => checkHLLBlob s = Ok () /\ str_fits s
  | RList l | RSet l => strs_fit l
  | RZSet l => Forall (fun p => str_fits p.1 /\ score_ok p.2) l /\ is_u64 (len l)
  | RHash m => map_Forall (fun f x => str_fits f /\ str_fits x) m /\ is_u64 (len (datastruct.map_keys m))
  | RStream st => stream_ok st
  end.

(** What the file keeps of a value: a set and a sorted set in the order of the
    members, and text that looks like a sketch as a sketch. *)
Definition norm_value (v : value) : value :=
  match v with
  | RString s => if isHYLL s then RHLL s else RString s
  | RSet l => RSet (sortStrings l)
  | RZSet l => RZSet (map (fun p => (p.1, norm_score p.2)) (isort member_less l))
  | RStream st => RStream (norm_stream st)
  | v => v
  end.

Definition norm_entry (e : Entry) : Entry := mkEntry (Key e) (ExpireMs e) (norm_value (Val e)).

Record file_entry_ok (e : Entry) : Prop := { fe_key : str_fits (Key e); fe_exp : is_i64 (ExpireMs e); fe_val : value_ok (Val e) }.

Lemma len_perm {A} (l k : list A) : l ≡ₚ k -> len l = len k.
Proof. intros E. unfold len. by rewrite E. Qed.

Lemma hash_of_pairs (l : list (bytes * bytes)) : hash_of l = datastruct.map_of_pairs l.
Proof.
  unfold hash_of, datastruct.map_of_pairs. generalize (∅ : gmap bytes bytes) as m. induction l as [|[f v] l IH]; intros m; cbn [foldl fold_left fst snd]; [done|apply IH].
Qed.

Lemma hash_of_sorted (m : gmap bytes bytes) : hash_of (map (fun f => (f, default [] (m !! f))) (sortStrings (datastruct.map_keys m))) = m.
Proof.
  rewrite hash_of_pairs. apply datastruct.map_of_pairs_perm.
  rewrite (map_ext_in _ (fun f => (f, m !!! f))); [apply datastruct.map_pairs_along, sortStrings_perm|].
  intros f Hf. rewrite datastruct.default_lookup_total; [done|]. by apply datastruct.elem_of_sorted_keys, list_elem_of_In.
Qed.

Lemma times_strings (l : list bytes) (r : bytes) : Forall str_fits l -> times (len l) readString (concat (map writeString l) ++ r) = Ok (l, r).
Proof.
  intros Hl. rewrite (times_enc writeString (fun x => x)); [by rewrite map_id|..].
  - intros x Hx q. apply readString_writeString. by apply (proj1 (Forall_forall _ _) Hl).
  - intros x _. apply writeString_some.
Qed.

(** The bytes of a value: its type, then, after the key, its body. *)
Lemma exportEntry_ok (en : Entry) : file_entry_ok en ->
  exists op b, exportEntry en = Ok (expire_bytes (ExpireMs en) ++ byte_of op :: writeKey (Key en) ++ b) /\
    0 <= op < 0xFA /\ forall r, read_value op (b ++ r) = Ok (norm_value (Val en), r).
Proof.
  intros [_ _ Hv]. unfold exportEntry. destruct (Val en) as [s|s|l|l|l|m|st]; cbn [value_ok norm_value] in *.
  - exists 0, (writeString s). split_and!; [done|lia|lia|]. intros r. cbn. by rewrite readString_writeString.
  - destruct Hv as [Hc Hs]. rewrite Hc. exists 0, (writeString s). split_and!; [done|lia|lia|]. intros r. cbn. rewrite readString_writeString by done. cbn [res_bind].
    unfold checkHLLBlob in Hc. unfold isHYLL. destruct (HasPrefix s (lit "HYLL")); [done|]. by rewrite orb_true_r in Hc.
  - destruct Hv as [Hl Hn]. exists 1, (writeLen (len l) ++ concat (map writeString l)). split_and!; [done|lia|lia|]. intros r. cbn [read_value Z.eqb Pos.eqb].
    rewrite <- app_assoc, plainLen_writeLen by done. cbn [res_bind]. by rewrite times_strings.
  - destruct Hv as [Hl Hn]. exists 2, (writeLen (len (sortStrings l)) ++ concat (map writeString (sortStrings l))). split_and!; [done|lia|lia|]. intros r.
    cbn [read_value Z.eqb Pos.eqb]. rewrite <- app_assoc, plainLen_writeLen by (by rewrite (len_perm _ _ (sortStrings_perm l))). cbn [res_bind].
    by rewrite times_strings by (by rewrite sortStrings_perm).
  - destruct Hv as [Hl Hn]. set (ms := isort member_less l). assert (ms ≡ₚ l) as Hp by apply isort_perm.
    exists 3, (writeLen (len ms) ++ concat (map (fun m => writeString m.1 ++ writeDouble m.2) ms)). split_and!; [done|lia|lia|]. intros r.
    cbn [read_value Z.eqb Pos.eqb]. rewrite <- app_assoc, plainLen_writeLen by (by rewrite (len_perm _ _ Hp)). cbn [res_bind].
    rewrite (times_enc _ (fun p => (p.1, norm_score p.2))); [done|..].
    + intros p Hx q. rewrite Hp in Hx. destruct (proj1 (Forall_forall _ _) Hl p Hx) as [H1 H2]. unfold read_pair.
      rewrite <- app_assoc, readString_writeString by done. cbn [res_bind]. by rewrite readDouble_writeDouble.
    + intros p _ E. apply app_eq_nil in E as [E _]. by apply writeString_some in E.
  - destruct Hv as [Hm Hn]. set (fs := sortStrings (datastruct.map_keys m)).
    exists 4, (writeLen (len fs) ++ concat (map (fun f => writeString f ++ writeString (default [] (m !! f))) fs)). split_and!; [done|lia|lia|]. intros r.
    cbn [read_value Z.eqb Pos.eqb]. rewrite <- app_assoc, plainLen_writeLen by (unfold fs; by rewrite (len_perm _ _ (sortStrings_perm (datastruct.map_keys m)))). cbn [res_bind].
    rewrite (times_enc _ (fun f => (f, default [] (m !! f)))); cbn [res_bind]; [unfold fs; by rewrite hash_of_sorted|..].
    + intros f Hf q. apply datastruct.elem_of_sorted_keys in Hf as [x Hx]. destruct (Hm f x Hx) as [H1 H2]. rewrite Hx. unfold read_pair. cbn [default from_option id].
      rewrite <- app_assoc, readString_writeString by done. cbn [res_bind]. by rewrite readString_writeString.
    + intros p _ E. apply app_eq_nil in E as [E _]. by apply writeString_some in E.
  - destruct (writeStream_ok st Hv) as (b & E & Hr). rewrite E. exists vtStreamLP3, b. split_and!; [done|unfold vtStreamLP3; lia..|]. intros r.
    cbn [read_value Z.eqb Pos.eqb orb vtStreamLP3 vtStreamLP2 vtStreamLP]. by rewrite Hr.
Qed.

(** ** The file *)

Lemma parse_loop_op (fuel : nat) (db ms op : Z) (r : bytes) : 0 <= op < 0xFA ->
  parse_loop (S fuel) db ms (byte_of op :: r) =
  if negb (db =? 0) then fail "rdb: multi-DB file: only DB 0 importable, refusing"
  else let? (e, r) := parseValue op ms r in let? es := parse_loop fuel db 0 r in Ok (e :: es).
Proof.
  intros Ho. cbn [parse_loop]. rewrite u8_byte by lia. cbn [res_bind]. rewrite !(proj2 (Z.eqb_neq op _)) by lia. done.
Qed.

Lemma parse_expire (fuel : nat) (db ms ms0 : Z) (r : bytes) : is_i64 ms ->
  parse_loop (S fuel) db ms0 (byte_of 0xFC :: le_bytes 8 ms ++ r) = parse_loop fuel db ms r.
Proof.
  intros Hm. cbn [parse_loop]. rewrite u8_byte by lia. cbn [res_bind Z.eqb Pos.eqb]. rewrite u64le_app. cbn [res_bind]. by rewrite i64_u64.
Qed.

Lemma parse_entries (es : list Entry) (fuel : nat) : Forall file_entry_ok es ->
  exists body, exportEntries es = Ok body /\
    ((length (body ++ [byte_of 0xFF]) <= fuel)%nat -> parse_loop fuel 0 0 (body ++ [byte_of 0xFF]) = Ok (map norm_entry es)).
Proof.
  intros Hes. revert fuel. induction Hes as [|en es He _ IH]; intros fuel.
  { exists []. split; [done|]. intros Hf. destruct fuel as [|fuel]; [cbn in Hf; lia|]. done. }
  destruct (exportEntry_ok en He) as (op & b & E & Hop & Hr). cbn [exportEntries]. rewrite E. cbn [res_bind].
  destruct (IH 0%nat) as (body & Eb & _). rewrite Eb. cbn [res_bind]. eexists. split; [reflexivity|]. intros Hf. rewrite <- app_assoc in Hf |- *.
  assert (forall fuel, (length ((byte_of op :: writeKey (Key en) ++ b) ++ body ++ [byte_of 0xFF]) <= fuel)%nat ->
    parse_loop fuel 0 (ExpireMs en) ((byte_of op :: writeKey (Key en) ++ b) ++ body ++ [byte_of 0xFF]) = Ok (map norm_entry (en :: es))) as Hrest.
  { clear fuel Hf. intros fuel Hf. destruct fuel as [|fuel]; [cbn in Hf; lia|]. cbn [app]. rewrite parse_loop_op by done. change (negb (0 =? 0)) with false. cbv iota.
    unfold parseValue. rewrite <- app_assoc. unfold writeKey in *. rewrite readString_writeString by apply He. cbn [res_bind]. rewrite Hr. cbn [res_bind].
    destruct (IH fuel) as (body' & Eb' & Hb'). assert (body' = body) as -> by congruence. rewrite Hb'; [done|].
    cbn [app length] in Hf. rewrite !length_app in *. cbn in *. lia. }
  unfold expire_bytes in *. destruct (Z.eqb_spec (ExpireMs en) 0) as [Ez|Hne].
  - rewrite Ez in Hrest. cbn [app] in Hf |- *. apply Hrest. exact Hf.
  - cbn [app]. destruct fuel as [|fuel]; [cbn in Hf; lia|]. rewrite <- (app_assoc (le_bytes 8 (ExpireMs en))), parse_expire by apply He. apply Hrest.
    revert Hf. cbn [app length]. rewrite !length_app. cbn [length]. rewrite ?length_app. cbn [length]. lia.
Qed.

(** The file is read back whole. *)
Lemma Load_Export (ctime : Z) (es : list Entry) : is_i64 ctime -> Forall file_entry_ok es ->
  exists file, Export ctime es = Ok file /\ Load file = Ok (map norm_entry es).
Proof.
  intros Ht Hes. destruct (parse_entries es 0 Hes) as (body & Eb & _). unfold Export. rewrite Eb. cbn [res_bind]. eexists. split; [reflexivity|].
  set (rest := byte_of 0xFE :: writeLen 0 ++ body ++ [byte_of 0xFF]).
  set (file := lit "REDIS" ++ rdbVersionPin ++ aux (lit "redis-ver") (lit "7.4.0") ++ aux (lit "ctime") (FormatInt ctime) ++ rest).
  unfold Load. assert (len (le_bytes 8 (crc64 0 file)) = 8) as H8 by apply len_le_bytes.
  assert (9 <= len file) as H9. { unfold file. rewrite !len_app. change (len (lit "REDIS")) with 5. change (len rdbVersionPin) with 4.
    pose proof (len_nonneg rest). pose proof (len_nonneg (aux (lit "ctime") (FormatInt ctime))). pose proof (len_nonneg (aux (lit "redis-ver") (lit "7.4.0"))). lia. }
  rewrite (proj2 (Z.ltb_ge _ _)) by (rewrite len_app; lia).
  assert (length (file ++ le_bytes 8 (crc64 0 file)) - 8 = length file)%nat as -> by (rewrite length_app; unfold len in H8; lia).
  rewrite take_app_length, drop_app_length. unfold equalU64LE. rewrite bytes_eqb_refl. cbn [negb].
  unfold parse, file. rewrite readBytes_app by (done || lia). cbn [res_bind]. rewrite bytes_eqb_refl. cbn [negb].
  rewrite readBytes_app by (done || lia). cbn [res_bind]. rewrite bytes_eqb_refl. cbn [negb].
  set (a2 := aux (lit "ctime") (FormatInt ctime)). set (a1 := aux (lit "redis-ver") (lit "7.4.0")).
  assert (forall k v r fuel, str_fits k -> str_fits v -> parse_loop (S fuel) (-1) 0 (aux k v ++ r) = parse_loop fuel (-1) 0 r) as Haux.
  { intros k v r fuel Hk Hv. unfold aux. rewrite <- app_comm_cons. cbn [parse_loop]. rewrite u8_byte by lia. cbn [res_bind Z.eqb Pos.eqb].
    rewrite <- app_assoc, readString_writeString by done. cbn [res_bind]. rewrite readString_writeString by done. done. }
  assert (exists f, length (a1 ++ a2 ++ rest) = S (S f) /\ (length (body ++ [byte_of 0xFF]) <= f)%nat) as (f & -> & Hf).
  { exists (length (a1 ++ a2 ++ rest) - 2)%nat. unfold a1, a2, aux, rest. rewrite !length_app. cbn [length]. rewrite !length_app. cbn [length]. lia. }
  unfold a1, a2. rewrite Haux by done. rewrite Haux; [|done|unfold str_fits; pose proof (FormatInt_short ctime Ht); lia].
  unfold rest. cbn [parse_loop]. rewrite u8_byte by lia. cbn [res_bind Z.eqb Pos.eqb]. rewrite plainLen_writeLen by (unfold is_u64; lia). cbn [res_bind].
  change (i64 0) with 0. destruct (parse_entries es f Hes) as (body' & Eb' & Hb). assert (body' = body) as -> by congruence. by apply Hb.
Qed.


End file.

(** ** A file *)

Definition demo_group : StreamGroupData := mkSG (lit "g") 1 0 1 true [mkSP 1 0 7 2 (lit "c")] [mkSC (lit "c") 5 6].
Definition demo_stream : StreamData :=
  mkSD [mkSE 1 0 [(lit "f", lit "v")]; mkSE 900 3 [(lit "f", lit "w")]; mkSE 901 0 [(lit "g", []); (lit "f", [])]] 3 901 0 1 0 0 0 3 [demo_group].
Definition demo_entries : list Entry :=
  [mkEntry (lit "s") 5000 (RString (lit "text")); mkEntry (lit "l") 0 (RList [lit "a"; lit "b"; lit "a"]); mkEntry (lit "t") 0 (RSet [lit "b"; lit "a"]);
   mkEntry (lit "x") 0 (RStream demo_stream)].


(** A compressed string that announces more than can be allocated. *)
Definition huge_lzf : bytes :=
  let body := lit "REDIS" ++ rdbVersionPin ++ byte_of 0xFE :: writeLen 0 ++ byte_of 0 :: writeString (lit "k") ++ byte_of 0xC3 :: writeLen 0 ++ writeLen (2 ^ 63) in
  body ++ le_bytes 8 (crc64 0 body).
Example huge_lzf_panics : @Load zero_float huge_lzf = Panic.
Proof. vm_compute. reflexivity. Qed.

End rdbspec.
