(* ===== verification/Kv.v ===== *)
(** * The key-value interface between the storage engine and its clients

    [commands.KV] (src/internal/commands/string.go), [replication.KV]
    (src/internal/replication/client.go) and [storage.Store]
    (src/internal/storage/store.go) as a class of operations on a state type,
    and the class of laws that clients rely on: the abstract content of the
    store is a finite map from raw keys to raw values.  The reference instance
    is the map itself; [Storage] gives the instance of the Pebble engine. *)

From S2P Require Import Prelude GoLib GoStrings.
Open Scope gedis_scope.

(** A single operation of a batch ([storage.BatchOp]). *)
Record BatchOp : Type := mkBatchOp { bKey : bytes; bValue : bytes; bDelete : bool }.

(** The operations: every one returns its result and the new state (a read
    refreshes the access clock of the engine, so it changes the state too). *)
Class KV (S : Type) : Type := {
  kv_get : bytes -> S -> result bytes * S;
  kv_set : bytes -> bytes -> S -> result unit * S;
  kv_delete : bytes -> S -> result unit * S;
  kv_scan : bytes -> S -> result (list bytes) * S;
  kv_write_batch : list BatchOp -> S -> result unit * S;
}.

(** What a batch does to the content. *)
Definition batch_step (m : gmap bytes bytes) (op : BatchOp) : gmap bytes bytes :=
  if bDelete op then delete (bKey op) m else <[bKey op := bValue op]> m.
Definition batch_apply (m : gmap bytes bytes) (ops : list BatchOp) : gmap bytes bytes := foldl batch_step m ops.

(** The keys with a prefix, in byte order. *)
Definition keys_with (prefix : bytes) (m : gmap bytes bytes) : list bytes :=
  sortStrings (List.filter (fun k => HasPrefix k prefix) (map fst (map_to_list m))).

(** The contract of a store that neither fails nor evicts. *)
Class KVLaws (S : Type) `{KV S} : Type := {
  kv_view : S -> gmap bytes bytes;
  kv_get_ok s k : (kv_get k s).1 = match kv_view s !! k with Some v => Ok v | None => Err ENotFound end;
  kv_get_view s k : kv_view (kv_get k s).2 = kv_view s;
  kv_set_ok s k v : (kv_set k v s).1 = Ok ();
  kv_set_view s k v : kv_view (kv_set k v s).2 = <[k := v]> (kv_view s);
  kv_delete_ok s k : (kv_delete k s).1 = Ok ();
  kv_delete_view s k : kv_view (kv_delete k s).2 = delete k (kv_view s);
  kv_scan_ok s p : (kv_scan p s).1 = Ok (keys_with p (kv_view s));
  kv_scan_view s p : kv_view (kv_scan p s).2 = kv_view s;
  kv_batch_ok s ops : (kv_write_batch ops s).1 = Ok ();
  kv_batch_view s ops : kv_view (kv_write_batch ops s).2 = batch_apply (kv_view s) ops;
}.

#[export] Hint Rewrite @kv_get_view @kv_set_view @kv_delete_view @kv_scan_view @kv_batch_view : gedis_rw.

(** The reference instance. *)
#[export] Instance map_kv : KV (gmap bytes bytes) := {|
  kv_get k m := (match m !! k with Some v => Ok v | None => Err ENotFound end, m);
  kv_set k v m := (Ok (), <[k := v]> m);
  kv_delete k m := (Ok (), delete k m);
  kv_scan p m := (Ok (keys_with p m), m);
  kv_write_batch ops m := (Ok (), batch_apply m ops);
|}.

#[export] Instance map_kv_laws : KVLaws (gmap bytes bytes).
Proof. by apply (Build_KVLaws _ _ id). Defined.

(** ** Calls

    A client's calls as data, so that two stores can be compared on every
    sequence of calls. *)
Inductive kv_call : Type :=
| CGet (k : bytes)
| CSet (k v : bytes)
| CDelete (k : bytes)
| CScan (prefix : bytes)
| CBatch (ops : list BatchOp).

Inductive kv_answer : Type :=
| AValue (r : result bytes)
| AUnit (r : result unit)
| AKeys (r : result (list bytes)).

Definition kv_do {S} `{KV S} (c : kv_call) (s : S) : kv_answer * S :=
  match c with
  | CGet k => let '(r, s) := kv_get k s in (AValue r, s)
  | CSet k v => let '(r, s) := kv_set k v s in (AUnit r, s)
  | CDelete k => let '(r, s) := kv_delete k s in (AUnit r, s)
  | CScan p => let '(r, s) := kv_scan p s in (AKeys r, s)
  | CBatch ops => let '(r, s) := kv_write_batch ops s in (AUnit r, s)
  end.

Fixpoint kv_run {S} `{KV S} (cs : list kv_call) (s : S) : list kv_answer * S :=
  match cs with
  | [] => ([], s)
  | c :: cs' => let '(a, s1) := kv_do c s in
                let '(l, s2) := kv_run cs' s1 in (a :: l, s2)
  end.

(** A lawful store answers one call as the map does. *)
Lemma kv_do_refines {S} `{KVLaws S} c (s : S) :
  (kv_do c s).1 = (kv_do c (kv_view s)).1 /\ kv_view (kv_do c s).2 = (kv_do c (kv_view s)).2.
Proof.
  destruct c as [k|k v|k|p|ops]; unfold kv_do.
  - pose proof (kv_get_ok s k); pose proof (kv_get_view s k); destruct (kv_get k s); cbn in *. split; congruence.
  - pose proof (kv_set_ok s k v); pose proof (kv_set_view s k v); destruct (kv_set k v s); cbn in *. split; congruence.
  - pose proof (kv_delete_ok s k); pose proof (kv_delete_view s k); destruct (kv_delete k s); cbn in *. split; congruence.
  - pose proof (kv_scan_ok s p); pose proof (kv_scan_view s p); destruct (kv_scan p s); cbn in *. split; congruence.
  - pose proof (kv_batch_ok s ops); pose proof (kv_batch_view s ops); destruct (kv_write_batch ops s); cbn in *. split; congruence.
Qed.

Lemma kv_run_refines {S} `{KVLaws S} cs (s : S) :
  (kv_run cs s).1 = (kv_run cs (kv_view s)).1 /\ kv_view (kv_run cs s).2 = (kv_run cs (kv_view s)).2.
Proof.
  revert s; induction cs as [|c cs IH]; intros s; cbn [kv_run]; [done|].
  destruct (kv_do_refines c s) as [E1 E2]. destruct (kv_do c s) as [a s1], (kv_do c (kv_view s)) as [a' m1].
  cbn in E1, E2. subst a' m1. destruct (IH s1) as [F1 F2].
  destruct (kv_run cs s1) as [l s2], (kv_run cs (kv_view s1)) as [l' m2]. cbn in *. split; congruence.
Qed.
