(* ===== verification/Replication.v ===== *)
(** * Replication (src/internal/replication)

    The backlog of recent operations, the hub that fans them out to the
    subscribed replicas, the full-transfer encoding and the replica's client.
    The mutexes make each locked section a step; the step relation [fan_step]
    interleaves the locked sections of any number of concurrent publishers and
    subscribers. *)

From S2P Require Import Prelude GoLib GoStrings Resp Codec Kv.
Open Scope Z_scope.
Open Scope gedis_scope.

Module replication.
Import datastruct.

(** ** Backlog *)

Record Op : Type := mkOp { Offset : Z; Del : bool; Key : bytes; Value_ : bytes }.

#[export] Instance Op_eq_dec : EqDecision Op.
Proof. solve_decision. Defined.

Record Backlog : Type := mkBacklog { max : Z; ops : list Op; base : Z; next : Z }.

Definition NewBacklog (max : Z) : Backlog :=
  mkBacklog (if max <=? 0 then 1024 else max) [] 0 0.

Definition set_offset (op : Op) (o : Z) : Op := mkOp o (Del op) (Key op) (Value_ op).

Definition Append (b : Backlog) (op : Op) : Z * Backlog :=
  let next' := i64 (next b + 1) in
  let ops' := ops b ++ [set_offset op next'] in
  let b' :=
    if max b <? len ops' then
      let n := len ops' - max b in
      mkBacklog (max b) (drop (Z.to_nat n) ops') (i64 (base b + n)) next'
    else mkBacklog (max b) ops' (base b) next' in
  (next', b').

Definition Since (b : Backlog) (offset : Z) : result (list Op) :=
  if offset <? base b then Err EStaleOffset
  else Ok (List.filter (fun op => offset <? Offset op) (ops b)).

Definition Latest (b : Backlog) : Z := next b.

(** ** Hub *)

Definition subBufSize : Z := 256.

(** A buffered Go channel of operation batches. *)
Record Chan : Type := mkChan { buf : list (list Op); closed : bool }.

(** [select { case ch <- v: ; default: ... }]: [None] is the default branch. *)
Definition chan_send (c : Chan) (v : list Op) : result (option Chan) :=
  if closed c then Panic
  else if len (buf c) <? subBufSize then Ok (Some (mkChan (buf c ++ [v]) false))
  else Ok None.

(** [close(ch)]: what is buffered can still be received. *)
Definition chan_close (c : Chan) : result Chan :=
  if closed c then Panic else Ok (mkChan (buf c) true).

(** [subs] is the hub's table; the channel of subscription [id] is the cell
    [id] of [chans], which the receiver shares with the hub. *)
Record Hub : Type := mkHub { backlog : Backlog; subs : gset Z; chans : gmap Z Chan; nextSub : Z }.

Definition NewHub (maxOps : Z) : Hub := mkHub (NewBacklog maxOps) ∅ ∅ 0.

Definition set_backlog (h : Hub) (b : Backlog) : Hub := mkHub b (subs h) (chans h) (nextSub h).
Definition set_subs (h : Hub) (s : gset Z) (c : gmap Z Chan) : Hub := mkHub (backlog h) s c (nextSub h).

(** [close(ch); delete(h.subs, id)] *)
Definition drop_sub (h : Hub) (id : Z) : result Hub :=
  match chans h !! id with
  | None => Panic
  | Some c => let? c' := chan_close c in
              Ok (set_subs h (subs h ∖ {[id]}) (<[id := c']> (chans h)))
  end.

(** The locked half of Publish: [order] is the order in which Go ranges over
    the table. *)
Fixpoint broadcast (op : Op) (order : list Z) (h : Hub) : result Hub :=
  match order with
  | [] => Ok h
  | id :: rest =>
      match chans h !! id with
      | None => Panic
      | Some c =>
          let? sent := chan_send c [op] in
          match sent with
          | Some c' => broadcast op rest (set_subs h (subs h) (<[id := c']> (chans h)))
          | None => let? h' := drop_sub h id in broadcast op rest h'
          end
      end
  end.

Definition Publish (h : Hub) (op : Op) (order : list Z) : result (Z * Hub) :=
  let '(off, b) := Append (backlog h) op in
  let? h' := broadcast (set_offset op off) order (set_backlog h b) in
  Ok (off, h').

Definition Subscribe (h : Hub) : Z * Hub :=
  let id := i64 (nextSub h + 1) in
  (id, mkHub (backlog h) (subs h ∪ {[id]}) (<[id := mkChan [] false]> (chans h)) id).

Definition Unsubscribe (h : Hub) (id : Z) : result Hub :=
  if bool_decide (id ∈ subs h) then drop_sub h id else Ok h.

(** The registration is Subscribe's locked section; [0, nil, nil] when stale. *)
Definition SubscribeSince (h : Hub) (offset : Z) : result ((Z * list Op) * Hub) :=
  let '(id, h1) := Subscribe h in
  match Since (backlog h1) offset with
  | Ok missed => Ok ((id, missed), h1)
  | Err _ => let? h2 := Unsubscribe h1 id in Ok ((0, []), h2)
  | Panic => Panic
  end.

Definition SubCount (h : Hub) : Z := Z.of_nat (size (subs h)).

Fixpoint close_all (order : list Z) (h : Hub) : result Hub :=
  match order with
  | [] => Ok h
  | id :: rest => let? h' := drop_sub h id in close_all rest h'
  end.
Definition Close (h : Hub) (order : list Z) : result Hub := close_all order h.

(** ** Full transfer *)

Record RawEntry : Type := mkRaw { rKey : bytes; rValue : bytes }.

Definition put_raw (e : RawEntry) : bytes := put_str (rKey e) ++ put_str (rValue e).
Definition MarshalRDB (entries : list RawEntry) : bytes :=
  put_uvarint 10 (len entries) ++ concat (map put_raw entries).

Definition rdbBytes (b : bytes) : option (bytes * bytes) := read_str b.

(** The loop of UnmarshalRDB from index [i]: the index is in the message. *)
Fixpoint rdb_loop (iters : nat) (i n : Z) (r : bytes) : result (list RawEntry) :=
  if n <=? i then Ok [] else
  match iters with
  | O => fail "fuel"
  | S it =>
      match rdbBytes r with
      | None => Err (EMsg (lit "replication: truncated rdb key " ++ FormatUint i))
      | Some (k, r2) =>
          match rdbBytes r2 with
          | None => Err (EMsg (lit "replication: truncated rdb value " ++ FormatUint i))
          | Some (v, r3) => let? es := rdb_loop it (i + 1) n r3 in Ok (mkRaw k v :: es)
          end
      end
  end.

(** [make([]RawEntry, 0, n)]: an entry is two slice headers, 48 bytes. *)
Definition UnmarshalRDB (raw : bytes) : result (list RawEntry) :=
  let? (n, rest) := read_count raw "replication: bad rdb count" in
  if make_ok n 48 then rdb_loop (S (length rest)) 0 n rest else Panic.

(** ** Backlog: lemmas *)

(** Offsets are consecutive from [k + 1]. *)
Definition offs_from (k : Z) (l : list Op) : Prop :=
  forall i op, l !! i = Some op -> Offset op = k + 1 + Z.of_nat i.

Lemma offs_from_cons k op l : offs_from k (op :: l) -> Offset op = k + 1 /\ offs_from (k + 1) l.
Proof.
  intros H. split; [specialize (H O op eq_refl); lia|].
  intros i o Hi. specialize (H (S i) o Hi). lia.
Qed.

Lemma offs_from_drop k l n : offs_from k l -> offs_from (k + Z.of_nat n) (drop n l).
Proof. intros H i op. rewrite lookup_drop. intros Hi. apply H in Hi. lia. Qed.

Lemma offs_from_snoc k l op : offs_from k l -> Offset op = k + 1 + len l -> offs_from k (l ++ [op]).
Proof.
  intros H Ho i o Hi. apply lookup_app_Some in Hi as [Hi|[Hl Hi]]; [by apply H|].
  destruct (i - length l)%nat eqn:E; [|done]. cbn in Hi. simplify_eq. unfold len in *. lia.
Qed.

Lemma filter_offs k l o :
  offs_from k l -> List.filter (fun op => o <? Offset op) l = drop (Z.to_nat (o - k)) l.
Proof.
  revert k; induction l as [|op l IH]; intros k H; cbn [List.filter]; [by rewrite drop_nil|].
  apply offs_from_cons in H as [Hop Hl]. rewrite (IH (k + 1)) by done. destruct (Z.le_gt_cases o k).
  - zdec. replace (Z.to_nat (o - k)) with O by lia. replace (Z.to_nat (o - (k + 1))) with O by lia. done.
  - zdec. by replace (Z.to_nat (o - k)) with (S (Z.to_nat (o - (k + 1)))) by lia.
Qed.

(** The backlog holds the most recent [max] operations of the history. *)
Definition backlog_ok (b : Backlog) (hist : list Op) : Prop :=
  0 < max b /\ next b = len hist /\ offs_from 0 hist /\
  base b = Z.max 0 (len hist - max b) /\ ops b = drop (Z.to_nat (base b)) hist.

Lemma NewBacklog_ok m : backlog_ok (NewBacklog m) [].
Proof.
  unfold backlog_ok, NewBacklog; cbn. destruct (m <=? 0) eqn:E; breflect;
    split_and!; try done; unfold len; cbn; lia.
Qed.

Lemma drop_drop_Z {A} (l : list A) a b : 0 <= a -> 0 <= b ->
  drop (Z.to_nat a) (drop (Z.to_nat b) l) = drop (Z.to_nat (a + b)) l.
Proof. intros. rewrite drop_drop. f_equal. lia. Qed.

Lemma Append_ok b hist op :
  backlog_ok b hist -> len hist + 1 < 2 ^ 63 ->
  (Append b op).1 = len hist + 1 /\ max (Append b op).2 = max b /\
  backlog_ok (Append b op).2 (hist ++ [set_offset op (len hist + 1)]).
Proof.
  intros (Hm & Hn & Ho & Hb & Hops) Hlt. unfold Append. pose proof (len_nonneg hist).
  rewrite Hn, (i64_id (len hist + 1)) by (unfold is_i64; lia). cbn [fst snd].
  assert (offs_from 0 (hist ++ [set_offset op (len hist + 1)])) by (apply offs_from_snoc; cbn; [done|lia]).
  assert (ops b ++ [set_offset op (len hist + 1)] =
          drop (Z.to_nat (base b)) (hist ++ [set_offset op (len hist + 1)])) as ->.
  { rewrite Hops, drop_app_le; [done|]. unfold len in *. lia. }
  assert (len (drop (Z.to_nat (base b)) (hist ++ [set_offset op (len hist + 1)])) =
          len hist + 1 - base b) as ->.
  { unfold len in *. rewrite length_drop, length_app. cbn [length]. lia. }
  unfold backlog_ok.
  destruct (max b <? len hist + 1 - base b) eqn:E; breflect; cbn [max next base ops]; rewrite len_snoc.
  - rewrite (i64_id (base b + _)) by (unfold is_i64; lia).
    split_and!; try done; try lia. rewrite drop_drop_Z by lia. f_equal. lia.
  - split_and!; try done; lia.
Qed.

Lemma Since_ok b hist o :
  backlog_ok b hist ->
  Since b o = if o <? base b then Err EStaleOffset else Ok (drop (Z.to_nat o) hist).
Proof.
  intros (Hm & Hn & Ho & Hb & Hops). unfold Since. destruct (o <? base b) eqn:E; [done|]. breflect.
  rewrite Hops, (filter_offs (base b)).
  - rewrite drop_drop_Z by lia. by rewrite Z.sub_add.
  - pose proof (offs_from_drop 0 hist (Z.to_nat (base b)) Ho) as G.
    by replace (0 + Z.of_nat (Z.to_nat (base b))) with (base b) in G by lia.
Qed.

(** Appending a sequence of operations. *)
Definition append_all (b : Backlog) (l : list Op) : Backlog := foldl (fun b op => (Append b op).2) b l.

(** The offsets the operations of a fresh backlog get. *)
Fixpoint numbered (k : Z) (l : list Op) : list Op :=
  match l with
  | [] => []
  | op :: l' => set_offset op (k + 1) :: numbered (k + 1) l'
  end.

Lemma numbered_length k l : length (numbered k l) = length l.
Proof. revert k; induction l; cbn; auto. Qed.

Lemma append_all_ok b hist l :
  backlog_ok b hist -> len hist + len l < 2 ^ 63 ->
  max (append_all b l) = max b /\ backlog_ok (append_all b l) (hist ++ numbered (len hist) l).
Proof.
  unfold append_all. revert b hist; induction l as [|op l IH]; intros b hist Hb Hl; cbn [foldl numbered].
  { by rewrite app_nil_r. }
  rewrite len_cons in Hl. pose proof (len_nonneg l).
  destruct (Append_ok b hist op Hb) as (_ & Hmax & Hok); [lia|].
  destruct (IH _ _ Hok) as [Hm Hk]; [rewrite len_snoc; lia|].
  rewrite len_snoc, <- app_assoc in Hk. split; [congruence | exact Hk].
Qed.

(** ** Hub: lemmas *)

Definition room (c : Chan) : bool := len (buf c) <? subBufSize.

(** What a broadcast does to the channel of a subscriber. *)
Definition delivered (op : Op) (c : Chan) : Chan :=
  if room c then mkChan (buf c ++ [[op]]) false else mkChan (buf c) true.

Definition is_open (cs : gmap Z Chan) (id : Z) : Prop := exists c, cs !! id = Some c /\ closed c = false.

Lemma drop_sub_open h id c :
  chans h !! id = Some c -> closed c = false ->
  drop_sub h id = Ok (set_subs h (subs h ∖ {[id]}) (<[id := mkChan (buf c) true]> (chans h))).
Proof. intros H1 H2. unfold drop_sub, chan_close. by rewrite H1, H2. Qed.

(** One iteration of the loop. *)
Lemma broadcast_cons op id rest h c :
  chans h !! id = Some c -> closed c = false ->
  broadcast op (id :: rest) h =
  broadcast op rest (set_subs h (if room c then subs h else subs h ∖ {[id]})
                              (<[id := delivered op c]> (chans h))).
Proof.
  intros H1 H2. cbn. rewrite H1. unfold chan_send, delivered. fold (room c). rewrite H2.
  destruct (room c); cbn; [done|]. by rewrite (drop_sub_open h id c).
Qed.

(** The whole loop, pointwise: it never panics on open channels, and every
    subscriber either gets the operation or is dropped. *)
Lemma broadcast_spec op order h :
  NoDup order -> (forall id, id ∈ order -> is_open (chans h) id) ->
  exists h', broadcast op order h = Ok h' /\ backlog h' = backlog h /\ nextSub h' = nextSub h /\
    (forall id, chans h' !! id = if bool_decide (id ∈ order) then delivered op <$> chans h !! id else chans h !! id) /\
    (forall id, id ∈ subs h' <-> id ∈ subs h /\ (id ∈ order -> exists c, chans h !! id = Some c /\ room c = true)).
Proof.
  intros Hnd. revert h; induction Hnd as [|id order Hid Hnd IH]; intros h Hop.
  { exists h. split_and!; try done. intros id. split; [|by intros []]. intros. split; [done|]. by intros ?%not_elem_of_nil. }
  destruct (Hop id) as (c & Hc & Hcl); [by left|]. rewrite (broadcast_cons _ _ _ _ c) by done.
  edestruct IH as (h' & -> & Hb & Hn & Hch & Hs); [|exists h'; split_and!; [done..| |]].
  - intros j Hj. cbn. unfold is_open. rewrite lookup_insert_ne by (intros ->; done). apply Hop. by right.
  - intros j. rewrite Hch. cbn. destruct (decide (j = id)) as [->|N].
    + rewrite (bool_decide_eq_false_2 (id ∈ order)) by done. rewrite bool_decide_eq_true_2 by (by left).
      by rewrite lookup_insert_eq, Hc.
    + rewrite lookup_insert_ne by done.
      by rewrite (bool_decide_ext (j ∈ id :: order) (j ∈ order)) by (rewrite elem_of_cons; naive_solver).
  - intros j. rewrite Hs. cbn. destruct (decide (j = id)) as [->|N].
    + destruct (room c) eqn:R; cbn.
      * split; intros [Hj _]; (split; [exact Hj|]); intros; [by exists c | done].
      * split; [set_solver|]. intros [Hj Hr]. destruct Hr as (c' & Hc' & Hr'); [by left | congruence].
    + rewrite lookup_insert_ne by done. rewrite elem_of_cons.
      assert (j ∈ (if room c then subs h else subs h ∖ {[id]}) <-> j ∈ subs h) as -> by (destruct (room c); set_solver).
      naive_solver.
Qed.

Lemma Subscribe_fields h :
  Subscribe h = (i64 (nextSub h + 1),
    mkHub (backlog h) (subs h ∪ {[i64 (nextSub h + 1)]}) (<[i64 (nextSub h + 1) := mkChan [] false]> (chans h)) (i64 (nextSub h + 1))).
Proof. done. Qed.

(** ** Concurrent publishers and subscribers *)

(** A replica's session: the offset it asked for, the operations Since
    returned ([None] while it has not run yet), and what it received from its
    channel so far. *)
Record session : Type := mkSession { s_off : Z; s_missed : option (list Op); s_got : list Op }.

(** [pending]: operations appended to the backlog whose publisher has not
    taken the hub's lock yet; [hist]: everything ever appended. *)
Record fan : Type := mkFan { f_hub : Hub; f_pending : list Op; f_hist : list Op; f_sess : gmap Z session }.

Definition fan_init (maxOps : Z) : fan := mkFan (NewHub maxOps) [] [] ∅.

(** The steps of subscribers; the counters stay within their range. *)
Inductive sub_step : fan -> fan -> Prop :=
| step_register f off id h :
    (* SubscribeSince: the section under h.mu *)
    nextSub (f_hub f) + 1 < 2 ^ 63 ->
    Subscribe (f_hub f) = (id, h) ->
    sub_step f (mkFan h (f_pending f) (f_hist f) (<[id := mkSession off None []]> (f_sess f)))
| step_since f id s missed :
    (* SubscribeSince: h.backlog.Since(offset) *)
    f_sess f !! id = Some s -> s_missed s = None -> Since (backlog (f_hub f)) (s_off s) = Ok missed ->
    sub_step f (mkFan (f_hub f) (f_pending f) (f_hist f)
                      (<[id := mkSession (s_off s) (Some missed) (s_got s)]> (f_sess f)))
| step_stale f id s e :
    (* SubscribeSince: err != nil, the session is abandoned *)
    f_sess f !! id = Some s -> s_missed s = None -> Since (backlog (f_hub f)) (s_off s) = Err e ->
    sub_step f (mkFan (f_hub f) (f_pending f) (f_hist f) (delete id (f_sess f)))
| step_unsubscribe f id h :
    Unsubscribe (f_hub f) id = Ok h ->
    sub_step f (mkFan h (f_pending f) (f_hist f) (f_sess f))
| step_receive f id s c batch rest :
    (* sendLoop: batch := <-ch *)
    f_sess f !! id = Some s -> chans (f_hub f) !! id = Some c -> buf c = batch :: rest ->
    sub_step f (mkFan (set_subs (f_hub f) (subs (f_hub f)) (<[id := mkChan rest (closed c)]> (chans (f_hub f))))
                      (f_pending f) (f_hist f)
                      (<[id := mkSession (s_off s) (s_missed s) (s_got s ++ batch)]> (f_sess f))).

(** Concurrent publishers: the two halves of Publish interleave. *)
Inductive fan_step : fan -> fan -> Prop :=
| step_append f op off b :
    (* Publish: h.backlog.Append(op) *)
    len (f_hist f) + 1 < 2 ^ 63 ->
    Append (backlog (f_hub f)) op = (off, b) ->
    fan_step f (mkFan (set_backlog (f_hub f) b) (f_pending f ++ [set_offset op off])
                      (f_hist f ++ [set_offset op off]) (f_sess f))
| step_broadcast f p1 op p2 order h :
    (* Publish: the loop under h.mu *)
    f_pending f = p1 ++ op :: p2 -> order ≡ₚ elements (subs (f_hub f)) ->
    broadcast op order (f_hub f) = Ok h ->
    fan_step f (mkFan h (p1 ++ p2) (f_hist f) (f_sess f))
| step_sub f f' : sub_step f f' -> fan_step f f'.

(** A single publisher: Publish is not interleaved with another Publish. *)
Inductive serial_step : fan -> fan -> Prop :=
| ser_publish f op order off h :
    len (f_hist f) + 1 < 2 ^ 63 -> order ≡ₚ elements (subs (f_hub f)) ->
    Publish (f_hub f) op order = Ok (off, h) ->
    serial_step f (mkFan h (f_pending f) (f_hist f ++ [set_offset op off]) (f_sess f))
| ser_sub f f' : sub_step f f' -> serial_step f f'.

Definition fan_reach (maxOps : Z) : fan -> Prop := rtc fan_step (fan_init maxOps).

(** Everything after the session's offset is in one of the places. *)
Definition no_gap (f : fan) (s : session) (missed : list Op) (c : Chan) : Prop :=
  forall op, op ∈ f_hist f -> s_off s < Offset op ->
    op ∈ missed \/ op ∈ s_got s \/ op ∈ concat (buf c) \/ op ∈ f_pending f.

Record fan_inv (f : fan) : Prop := {
  inv_backlog : backlog_ok (backlog (f_hub f)) (f_hist f);
  inv_open : forall id, id ∈ subs (f_hub f) <-> is_open (chans (f_hub f)) id;
  inv_ids : forall id, is_Some (chans (f_hub f) !! id) -> 1 <= id <= nextSub (f_hub f);
  inv_next : 0 <= nextSub (f_hub f);
  inv_sess : forall id s, f_sess f !! id = Some s -> is_Some (chans (f_hub f) !! id);
  inv_pending : forall op, op ∈ f_pending f -> op ∈ f_hist f;
  inv_gap : forall id s missed c,
    f_sess f !! id = Some s -> s_missed s = Some missed ->
    chans (f_hub f) !! id = Some c -> closed c = false -> no_gap f s missed c;
}.

Lemma fan_init_inv m : fan_inv (fan_init m).
Proof.
  constructor; cbn; try (intros; set_solver); [apply NewBacklog_ok|..].
  - intros id. split; [set_solver|]. intros (c & Hc & _). by rewrite lookup_empty in Hc.
  - intros id [c Hc]. by rewrite lookup_empty in Hc.
Qed.

Section steps.
Variable f : fan.
Hypothesis Hinv : fan_inv f.

Lemma append_inv op off b :
  len (f_hist f) + 1 < 2 ^ 63 -> Append (backlog (f_hub f)) op = (off, b) ->
  fan_inv (mkFan (set_backlog (f_hub f) b) (f_pending f ++ [set_offset op off])
                 (f_hist f ++ [set_offset op off]) (f_sess f)).
Proof.
  intros Hlt E. destruct (Append_ok _ _ op (inv_backlog f Hinv) Hlt) as (Ho & _ & Hb).
  rewrite E in Ho, Hb. cbn in Ho, Hb. subst off.
  constructor; cbn; [done | exact (inv_open f Hinv) | exact (inv_ids f Hinv) | exact (inv_next f Hinv)
                    | exact (inv_sess f Hinv) | |].
  - intros o. rewrite !elem_of_app. intros [?|?]; [left; by apply (inv_pending f Hinv) | by right].
  - intros id s missed c Hs Hm Hc Hcl o. cbn. rewrite !elem_of_app. intros [Ho|Ho] Hlt'; [|tauto].
    destruct (inv_gap f Hinv id s missed c Hs Hm Hc Hcl o Ho Hlt') as [?|[?|[?|?]]]; tauto.
Qed.

Lemma order_open order :
  order ≡ₚ elements (subs (f_hub f)) -> NoDup order /\ (forall id, id ∈ order <-> id ∈ subs (f_hub f)).
Proof.
  intros P. split; [rewrite P; apply NoDup_elements|]. intros id. by rewrite P, elem_of_elements.
Qed.

Lemma broadcast_ok op order :
  order ≡ₚ elements (subs (f_hub f)) -> exists h, broadcast op order (f_hub f) = Ok h.
Proof.
  intros P. destruct (order_open order P) as [Hnd He].
  destruct (broadcast_spec op order (f_hub f) Hnd) as (h & ? & _); [|by exists h].
  intros id Hid. by apply (inv_open f Hinv), He.
Qed.

Lemma broadcast_inv p1 op p2 order h :
  f_pending f = p1 ++ op :: p2 -> order ≡ₚ elements (subs (f_hub f)) ->
  broadcast op order (f_hub f) = Ok h ->
  fan_inv (mkFan h (p1 ++ p2) (f_hist f) (f_sess f)).
Proof.
  intros Hp P E. destruct (order_open order P) as [Hnd He].
  destruct (broadcast_spec op order (f_hub f) Hnd) as (h' & E' & Hb & Hn & Hc & Hs).
  { intros id Hid. by apply (inv_open f Hinv), He. }
  rewrite E in E'. apply Ok_inj in E'. subst h'.
  assert (forall id, is_Some (chans h !! id) <-> is_Some (chans (f_hub f) !! id)) as Hsome.
  { intros id. rewrite Hc. case_bool_decide; [|done]. apply fmap_is_Some. }
  constructor; cbn.
  - rewrite Hb. apply (inv_backlog f Hinv).
  - intros id. rewrite Hs. unfold is_open. rewrite Hc. split.
    + intros [Hid Hr]. rewrite bool_decide_eq_true_2 by (by apply He).
      destruct Hr as (c & Hcc & R); [by apply He|]. rewrite Hcc. exists (delivered op c).
      split; [done|]. unfold delivered. by rewrite R.
    + case_bool_decide as Hid; intros (c & Hcc & Hcl).
      * split; [by apply He|]. intros _. apply fmap_Some in Hcc as (c0 & Hc0 & ->). exists c0.
        unfold delivered in Hcl. by destruct (room c0).
      * exfalso. apply Hid, He, (inv_open f Hinv). by exists c.
  - intros id. rewrite Hsome, Hn. apply (inv_ids f Hinv).
  - rewrite Hn. apply (inv_next f Hinv).
  - intros id s Hss. rewrite Hsome. by apply (inv_sess f Hinv id s).
  - intros o Ho. apply (inv_pending f Hinv). rewrite Hp. set_solver.
  - intros id s missed c Hss Hm Hcc Hcl o Ho Hlt. cbn in *. rewrite Hc in Hcc.
    assert (exists c0, chans (f_hub f) !! id = Some c0 /\ closed c0 = false /\
              (id ∈ order -> buf c = buf c0 ++ [[op]]) /\ (id ∉ order -> c = c0)) as (c0 & Hc0 & Hcl0 & Hin & Hout).
    { case_bool_decide as Hid; [|by exists c]. apply fmap_Some in Hcc as (c0 & Hc0 & ->).
      exists c0. assert (is_open (chans (f_hub f)) id) as (c1 & Hc1 & ?) by (by apply (inv_open f Hinv), He).
      unfold delivered in *. destruct (room c0) eqn:R; [|done].
      split_and!; [done | congruence | done | done]. }
    assert (id ∈ order) as Hid by (apply He, (inv_open f Hinv); by exists c0). rewrite (Hin Hid).
    destruct (inv_gap f Hinv id s missed c0 Hss Hm Hc0 Hcl0 o Ho Hlt) as [?|[?|[?|Hpend]]]; [tauto|tauto| |].
    + right; right; left. rewrite concat_app. set_solver.
    + rewrite Hp in Hpend. rewrite concat_app. cbn. set_solver.
Qed.

Lemma register_inv off id h :
  nextSub (f_hub f) + 1 < 2 ^ 63 -> Subscribe (f_hub f) = (id, h) ->
  fan_inv (mkFan h (f_pending f) (f_hist f) (<[id := mkSession off None []]> (f_sess f))).
Proof.
  intros Hlt. pose proof (inv_next f Hinv). rewrite Subscribe_fields, i64_id by (unfold is_i64; lia).
  intros [= <- <-]. set (id := nextSub (f_hub f) + 1).
  assert (chans (f_hub f) !! id = None) as Hfresh.
  { apply eq_None_not_Some. intros Hs. apply (inv_ids f Hinv) in Hs. lia. }
  constructor; cbn.
  - apply (inv_backlog f Hinv).
  - intros j. unfold is_open. destruct (decide (j = id)) as [->|N].
    + rewrite lookup_insert_eq. split; [|set_solver]. intros _. by eexists.
    + rewrite lookup_insert_ne by done. rewrite elem_of_union, elem_of_singleton, (inv_open f Hinv). unfold is_open. tauto.
  - intros j. destruct (decide (j = id)) as [->|N]; [lia|]. rewrite lookup_insert_ne by done.
    intros Hs. apply (inv_ids f Hinv) in Hs. lia.
  - lia.
  - intros j s. destruct (decide (j = id)) as [->|N]; [rewrite !lookup_insert_eq; by eexists|].
    rewrite !lookup_insert_ne by done. apply (inv_sess f Hinv).
  - apply (inv_pending f Hinv).
  - intros j s missed c. destruct (decide (j = id)) as [->|N].
    + rewrite lookup_insert_eq. intros [= <-]. done.
    + rewrite !lookup_insert_ne by done. apply (inv_gap f Hinv).
Qed.

(** Replacing the session [id] by one with the same offset and channel. *)
Lemma session_inv id s s' :
  f_sess f !! id = Some s ->
  (forall missed c, s_missed s' = Some missed -> chans (f_hub f) !! id = Some c -> closed c = false ->
     no_gap f s' missed c) ->
  fan_inv (mkFan (f_hub f) (f_pending f) (f_hist f) (<[id := s']> (f_sess f))).
Proof.
  intros Hs Hg. constructor; cbn; [apply (inv_backlog f Hinv) | apply (inv_open f Hinv) | apply (inv_ids f Hinv)
    | apply (inv_next f Hinv) | | apply (inv_pending f Hinv) |].
  - intros j t. destruct (decide (j = id)) as [->|N]; [intros _; by apply (inv_sess f Hinv id s)|].
    rewrite lookup_insert_ne by done. apply (inv_sess f Hinv).
  - intros j t missed c. destruct (decide (j = id)) as [->|N].
    + rewrite lookup_insert_eq. intros [= <-]. apply Hg.
    + rewrite lookup_insert_ne by done. apply (inv_gap f Hinv).
Qed.

Lemma since_inv id s missed :
  f_sess f !! id = Some s -> Since (backlog (f_hub f)) (s_off s) = Ok missed ->
  fan_inv (mkFan (f_hub f) (f_pending f) (f_hist f)
                 (<[id := mkSession (s_off s) (Some missed) (s_got s)]> (f_sess f))).
Proof.
  intros Hs E. apply (session_inv id s); [done|]. intros m c [= <-] _ _ op Hop Hlt. cbn in Hlt. left.
  rewrite (Since_ok _ _ _ (inv_backlog f Hinv)) in E. destruct (_ <? _) eqn:Eb; [done|]. breflect.
  apply Ok_inj in E. subst missed. apply list_elem_of_lookup in Hop as [i Hi].
  destruct (inv_backlog f Hinv) as (_ & _ & Ho & Hb & _). pose proof (Ho _ _ Hi).
  apply list_elem_of_lookup. exists (i - Z.to_nat (s_off s))%nat. rewrite lookup_drop.
  replace (_ + _)%nat with i by lia. done.
Qed.

Lemma stale_inv id : fan_inv (mkFan (f_hub f) (f_pending f) (f_hist f) (delete id (f_sess f))).
Proof.
  constructor; cbn; [apply (inv_backlog f Hinv) | apply (inv_open f Hinv) | apply (inv_ids f Hinv)
    | apply (inv_next f Hinv) | | apply (inv_pending f Hinv) |].
  - intros j s [_ Hj]%lookup_delete_Some. by apply (inv_sess f Hinv j s).
  - intros j s missed c [_ Hj]%lookup_delete_Some. by apply (inv_gap f Hinv).
Qed.

Lemma unsubscribe_ok id : exists h, Unsubscribe (f_hub f) id = Ok h.
Proof.
  unfold Unsubscribe. case_bool_decide as Hid; [|by eexists].
  apply (inv_open f Hinv) in Hid as (c & Hc & Hcl). rewrite (drop_sub_open _ _ c) by done. by eexists.
Qed.

Lemma unsubscribe_inv id h :
  Unsubscribe (f_hub f) id = Ok h -> fan_inv (mkFan h (f_pending f) (f_hist f) (f_sess f)).
Proof.
  unfold Unsubscribe. case_bool_decide as Hid; [|intros E; apply Ok_inj in E; subst; by destruct f].
  pose proof (proj1 (inv_open f Hinv id) Hid) as (c & Hc & Hcl). rewrite (drop_sub_open _ _ c) by done.
  intros E. apply Ok_inj in E. subst h.
  assert (forall j, is_Some (<[id := mkChan (buf c) true]> (chans (f_hub f)) !! j) <-> is_Some (chans (f_hub f) !! j)) as Hsome.
  { intros j. destruct (decide (j = id)) as [->|N]; [|by rewrite lookup_insert_ne].
    rewrite lookup_insert_eq, Hc. split; by eexists. }
  constructor; cbn; [apply (inv_backlog f Hinv) | | | apply (inv_next f Hinv) | | apply (inv_pending f Hinv) |].
  - intros j. unfold is_open. destruct (decide (j = id)) as [->|N].
    + rewrite lookup_insert_eq. split; [set_solver|]. intros (c' & [= <-] & Hx). done.
    + rewrite lookup_insert_ne by done. rewrite elem_of_difference, elem_of_singleton, (inv_open f Hinv). unfold is_open. tauto.
  - intros j. rewrite Hsome. apply (inv_ids f Hinv).
  - intros j s. rewrite Hsome. apply (inv_sess f Hinv).
  - intros j s missed c'. destruct (decide (j = id)) as [->|N].
    + rewrite lookup_insert_eq. intros _ _ [= <-]. done.
    + rewrite lookup_insert_ne by done. apply (inv_gap f Hinv).
Qed.

Lemma receive_inv id s c batch rest :
  f_sess f !! id = Some s -> chans (f_hub f) !! id = Some c -> buf c = batch :: rest ->
  fan_inv (mkFan (set_subs (f_hub f) (subs (f_hub f)) (<[id := mkChan rest (closed c)]> (chans (f_hub f))))
                 (f_pending f) (f_hist f)
                 (<[id := mkSession (s_off s) (s_missed s) (s_got s ++ batch)]> (f_sess f))).
Proof.
  intros Hs Hc Hb.
  assert (forall j, is_Some (<[id := mkChan rest (closed c)]> (chans (f_hub f)) !! j) <-> is_Some (chans (f_hub f) !! j)) as Hsome.
  { intros j. destruct (decide (j = id)) as [->|N]; [|by rewrite lookup_insert_ne].
    rewrite lookup_insert_eq, Hc. split; by eexists. }
  constructor; cbn; [apply (inv_backlog f Hinv) | | | apply (inv_next f Hinv) | | apply (inv_pending f Hinv) |].
  - intros j. rewrite (inv_open f Hinv). unfold is_open. destruct (decide (j = id)) as [->|N].
    + rewrite lookup_insert_eq, Hc. naive_solver.
    + by rewrite lookup_insert_ne.
  - intros j. rewrite Hsome. apply (inv_ids f Hinv).
  - intros j t. rewrite Hsome. destruct (decide (j = id)) as [->|N]; [intros _; by apply (inv_sess f Hinv id s)|].
    rewrite lookup_insert_ne by done. apply (inv_sess f Hinv).
  - intros j t missed c'. destruct (decide (j = id)) as [->|N].
    + rewrite !lookup_insert_eq. intros [= <-] Hm [= <-] Hcl op Hop Hlt. cbn in *. rewrite elem_of_app.
      destruct (inv_gap f Hinv id s missed c Hs Hm Hc Hcl op Hop Hlt) as [?|[?|[Hin|?]]]; [tauto|tauto| |tauto].
      rewrite Hb in Hin. cbn in Hin. apply elem_of_app in Hin. tauto.
    + rewrite !lookup_insert_ne by done. apply (inv_gap f Hinv).
Qed.

End steps.

Lemma fan_step_inv f f' : fan_inv f -> fan_step f f' -> fan_inv f'.
Proof.
  intros Hi S; destruct S as [| |f f' S]; [| |destruct S];
    eauto using append_inv, broadcast_inv, register_inv, since_inv, stale_inv, unsubscribe_inv, receive_inv.
Qed.

Lemma fan_reach_inv m f : fan_reach m f -> fan_inv f.
Proof.
  unfold fan_reach. intros R. assert (fan_inv (fan_init m)) as Hi by apply fan_init_inv.
  induction R as [|f g h S _ IH]; [done|]. apply IH. by eapply fan_step_inv.
Qed.

(** ** A single publisher *)

(** A serial publication is the append followed by the broadcast. *)
Lemma publish_steps f op order off h :
  len (f_hist f) + 1 < 2 ^ 63 -> order ≡ₚ elements (subs (f_hub f)) ->
  f_pending f = [] -> Publish (f_hub f) op order = Ok (off, h) ->
  rtc fan_step f (mkFan h (f_pending f) (f_hist f ++ [set_offset op off]) (f_sess f)).
Proof.
  intros Hl P Hp. unfold Publish. destruct (Append _ _) as [o b] eqn:E. intros E2. res_inv. simplify_eq.
  eapply rtc_l; [by eapply step_append|]. apply rtc_once. rewrite Hp. cbn [app].
  apply (step_broadcast (mkFan (set_backlog (f_hub f) b) [set_offset op off] (f_hist f ++ [set_offset op off]) (f_sess f))
           [] (set_offset op off) [] order); done.
Qed.

Record serial_inv (f : fan) : Prop := {
  si_inv : fan_inv f;
  si_pending : f_pending f = [];
  (* what the channel delivered and holds is the history from [k] on, and
     Since ran when the history had [m >= k] operations *)
  si_order : forall id s c, f_sess f !! id = Some s -> chans (f_hub f) !! id = Some c -> closed c = false ->
    exists k, (k <= length (f_hist f))%nat /\ s_got s ++ concat (buf c) = drop k (f_hist f) /\
      (forall missed, s_missed s = Some missed ->
         exists m, (k <= m <= length (f_hist f))%nat /\ missed = drop (Z.to_nat (s_off s)) (take m (f_hist f)));
}.

Lemma publish_fields h op order off h' hist :
  backlog_ok (backlog h) hist -> len hist + 1 < 2 ^ 63 ->
  Publish h op order = Ok (off, h') ->
  exists b, broadcast (set_offset op off) order (set_backlog h b) = Ok h'.
Proof.
  intros Hb Hl. unfold Publish. destruct (Append _ _) as [o b] eqn:E. intros E2. res_inv. simplify_eq. by exists b.
Qed.

Lemma publish_serial f op order off h :
  serial_inv f -> len (f_hist f) + 1 < 2 ^ 63 -> order ≡ₚ elements (subs (f_hub f)) ->
  Publish (f_hub f) op order = Ok (off, h) ->
  serial_inv (mkFan h (f_pending f) (f_hist f ++ [set_offset op off]) (f_sess f)).
Proof.
  intros [Hi Hp Ho] Hl P E. constructor; [|done|].
  - pose proof (publish_steps f op order off h Hl P Hp E) as R. clear -R Hi.
    induction R as [|x y z S R IH]; [done|]. by eapply IH, fan_step_inv.
  - destruct (publish_fields _ _ _ _ _ _ (inv_backlog f Hi) Hl E) as [b Eb].
    destruct (order_open f order P) as [Hnd He].
    destruct (broadcast_spec (set_offset op off) order (set_backlog (f_hub f) b) Hnd) as (h' & E' & _ & _ & Hc & _).
    { intros id Hid. by apply (inv_open f Hi), He. }
    rewrite Eb in E'. apply Ok_inj in E'. subst h'. cbn. intros id s c Hs Hcc Hcl. cbn in Hc. rewrite Hc in Hcc.
    case_bool_decide as Hid.
    + apply fmap_Some in Hcc as (c0 & Hc0 & ->).
      assert (is_open (chans (f_hub f)) id) as (c1 & Hc1 & Hcl1) by (by apply (inv_open f Hi), He).
      rewrite Hc0 in Hc1. simplify_eq. unfold delivered in *. destruct (room c1) eqn:R; [|done].
      destruct (Ho id s c1 Hs Hc0 Hcl1) as (k & Hk & Hd & Hm). exists k. cbn. rewrite length_app. split; [lia|].
      split.
      * rewrite concat_app, app_assoc, Hd. cbn. rewrite drop_app_le by lia. done.
      * intros missed Hmi. destruct (Hm missed Hmi) as (m & Hkm & ->). exists m. split; [cbn; lia|].
        by rewrite take_app_le by lia.
    + exfalso. apply Hid, He, (inv_open f Hi). by exists c.
Qed.

Lemma sub_step_serial f f' : serial_inv f -> sub_step f f' -> serial_inv f'.
Proof.
  intros [Hi Hp Ho] S. pose proof (fan_step_inv f f' Hi (step_sub f f' S)) as Hi'.
  constructor; [done | by destruct S |]. destruct S as [f off id h Hlt E|f id s missed Hs Hm E|f id s e Hs Hm E|f id h E|f id s c batch rest Hs Hc Hb];
    cbn in *; intros j t d.
  - revert E. rewrite Subscribe_fields. intros [= <- <-]. cbn.
    destruct (decide (j = i64 (nextSub (f_hub f) + 1))) as [->|N].
    + rewrite !lookup_insert_eq. intros [= <-] [= <-] _. exists (length (f_hist f)). cbn.
      rewrite drop_all. done.
    + rewrite !lookup_insert_ne by done. apply Ho.
  - destruct (decide (j = id)) as [->|N]; [|rewrite lookup_insert_ne by done; apply Ho].
    rewrite lookup_insert_eq. intros [= <-] Hd Hcl. destruct (Ho id s d Hs Hd Hcl) as (k & Hk & Hg & _).
    exists k. cbn. split; [done|]. split; [done|]. intros ? [= <-]. exists (length (f_hist f)). split; [lia|].
    rewrite (Since_ok _ _ _ (inv_backlog f Hi)) in E. destruct (_ <? _); [done|]. apply Ok_inj in E.
    by rewrite take_ge.
  - intros [_ Hj]%lookup_delete_Some. by apply Ho.
  - revert E. unfold Unsubscribe. case_bool_decide as Hid; [|intros E; apply Ok_inj in E; subst; apply Ho].
    pose proof (proj1 (inv_open f Hi id) Hid) as (c & Hc & Hcl). rewrite (drop_sub_open _ _ c) by done.
    intros E. apply Ok_inj in E. subst h. cbn. intros Hj. destruct (decide (j = id)) as [->|N].
    + rewrite lookup_insert_eq. intros [= <-]. done.
    + rewrite lookup_insert_ne by done. by apply Ho.
  - destruct (decide (j = id)) as [->|N]; [|rewrite !lookup_insert_ne by done; apply Ho].
    rewrite !lookup_insert_eq. intros [= <-] [= <-] Hcl. cbn in *.
    destruct (Ho id s c Hs Hc Hcl) as (k & Hk & Hg & Hmm). exists k. split; [done|]. split; [|done].
    rewrite Hb in Hg. cbn in Hg. by rewrite <- app_assoc.
Qed.

Lemma serial_reach_inv m f : rtc serial_step (fan_init m) f -> serial_inv f.
Proof.
  intros R. assert (serial_inv (fan_init m)) as Hi.
  { constructor; [apply fan_init_inv | done |]. intros id s c Hs.
    unfold fan_init in Hs. cbn [f_sess] in Hs. by rewrite lookup_empty in Hs. }
  induction R as [|f g h S _ IH]; [done|]. apply IH. destruct S; eauto using publish_serial, sub_step_serial.
Qed.

(** ** What operations do to the content of a store *)

Definition apply_op (m : gmap bytes bytes) (op : Op) : gmap bytes bytes :=
  if Del op then delete (Key op) m else <[Key op := Value_ op]> m.
Definition apply_ops (m : gmap bytes bytes) (l : list Op) : gmap bytes bytes := foldl apply_op m l.

(** The last effect of a sequence on a key, if any. *)
Fixpoint last_effect (k : bytes) (l : list Op) : option (option bytes) :=
  match l with
  | [] => None
  | op :: l' =>
      match last_effect k l' with
      | Some e => Some e
      | None => if bool_decide (Key op = k) then Some (if Del op then None else Some (Value_ op)) else None
      end
  end.

Lemma apply_ops_lookup m l k : apply_ops m l !! k = default (m !! k) (last_effect k l).
Proof.
  unfold apply_ops. revert m; induction l as [|op l IH]; intros m; cbn; [done|].
  rewrite IH. destruct (last_effect k l); cbn; [done|]. unfold apply_op. case_bool_decide as E; cbn.
  - subst k. destruct (Del op); by rewrite ?lookup_delete_eq, ?lookup_insert_eq.
  - destruct (Del op); by rewrite ?lookup_delete_ne, ?lookup_insert_ne.
Qed.

Lemma apply_ops_app m l1 l2 : apply_ops m (l1 ++ l2) = apply_ops (apply_ops m l1) l2.
Proof. apply foldl_app. Qed.

(** Replaying what was just applied changes nothing. *)
Lemma apply_ops_idemp m l : apply_ops (apply_ops m l) l = apply_ops m l.
Proof.
  apply map_eq. intros k. rewrite !apply_ops_lookup. by destruct (last_effect k l).
Qed.

Lemma apply_ops_replay m l p k : (k <= p)%nat -> apply_ops m (take p l ++ drop k l) = apply_ops m l.
Proof.
  intros H.
  assert (take p l = take k l ++ drop k (take p l)) as HB.
  { rewrite <- (take_drop k (take p l)) at 1. by rewrite take_take, Nat.min_l. }
  assert (drop k l = drop k (take p l) ++ drop p l) as HD.
  { rewrite <- (take_drop p l) at 1. rewrite drop_app. f_equal. rewrite length_take.
    destruct (Nat.le_gt_cases (length l) p); [by rewrite (drop_ge l p), drop_nil|].
    by replace (k - _)%nat with O by lia. }
  rewrite <- (take_drop p l) at 3. rewrite HD. remember (drop k (take p l)) as B eqn:EB. rewrite HB.
  by rewrite !apply_ops_app, apply_ops_idemp.
Qed.

(** ** Full transfer: lemmas *)

Definition raw_ok (e : RawEntry) : Prop := str_ok (rKey e) /\ str_ok (rValue e).

Lemma rdb_loop_put it i es r :
  Forall raw_ok es -> (length es <= it)%nat -> 
  rdb_loop it i (i + len es) (concat (map put_raw es) ++ r) = Ok es.
Proof.
  intros Hall. revert it i; induction Hall as [|e es [Hk Hv] Hes IH]; intros it i Hit.
  { destruct it; cbn [rdb_loop]; rewrite len_nil; zdec; done. }
  destruct it as [|it]; [cbn in Hit; lia|]. rewrite len_cons. pose proof (len_nonneg es).
  cbn [rdb_loop]. zdec. cbn [map concat]. unfold rdbBytes, put_raw at 1. rewrite <- !app_assoc.
  rewrite read_str_app by done. rewrite read_str_app by done.
  replace (i + (1 + len es)) with (i + 1 + len es) by lia.
  rewrite IH by (cbn in Hit; lia). cbn. by destruct e.
Qed.

(** The loop never reaches its bound: every entry takes at least a byte. *)
Lemma rdb_loop_bound it1 it2 i n r :
  (length r < it1)%nat -> (length r < it2)%nat -> rdb_loop it1 i n r = rdb_loop it2 i n r.
Proof.
  revert it2 i r; induction it1 as [|it1 IH]; intros it2 i r H1 H2; [lia|].
  destruct it2 as [|it2]; [lia|]. cbn [rdb_loop]. case_match; [done|]. unfold rdbBytes.
  destruct (read_str r) as [[k r2]|] eqn:E1; [|done]. destruct (read_str r2) as [[v r3]|] eqn:E2; [|done].
  assert (length r2 < length r)%nat by (apply (read_str_consumes "" r k); by rewrite E1).
  assert (length r3 < length r2)%nat by (apply (read_str_consumes "" r2 v); by rewrite E2).
  rewrite (IH it2) by lia. done.
Qed.

Lemma UnmarshalRDB_Marshal es :
  Forall raw_ok es -> len es * 48 <= maxAlloc -> UnmarshalRDB (MarshalRDB es) = Ok es.
Proof.
  intros Hok Hl. unfold UnmarshalRDB, MarshalRDB. pose proof (len_nonneg es).
  rewrite read_count_app by (eapply fits_u64; [..|exact Hl]; lia). cbn [res_bind].
  rewrite make_ok_fits by lia. rewrite <- (app_nil_r (concat _)).
  apply (rdb_loop_put _ 0 es []); [done|]. rewrite app_nil_r.
  pose proof (concat_map_length put_raw es) as G. unfold put_raw in G at 1.
  enough (length es <= length (concat (map put_raw es)))%nat by lia. apply G.
  intros e. rewrite length_app. pose proof (put_str_length (rKey e)). lia.
Qed.

(** ** Properties *)

(** After any sequence of appends the backlog answers exactly: a reader
    at offset [o] gets the operations numbered [o+1 ..], in order and complete,
    and is refused precisely when some of them have left the ring (more than
    [max] operations behind). *)
Theorem backlog_since_exact m l o :
  len l < 2 ^ 63 ->
  let b := append_all (NewBacklog m) l in
  Latest b = len l /\
  Since b o = if o <? Z.max 0 (len l - max (NewBacklog m)) then Err EStaleOffset
              else Ok (drop (Z.to_nat o) (numbered 0 l)).
Proof.
  intros Hl b. destruct (append_all_ok (NewBacklog m) [] l (NewBacklog_ok m)) as [Hm Hok]; [rewrite len_nil; lia|].
  cbn [app] in Hok. rewrite len_nil in Hok. fold b in Hm, Hok.
  assert (len (numbered 0 l) = len l) as Hn by (unfold len; by rewrite numbered_length).
  destruct Hok as (H0 & H1 & H2 & H3 & H4). split; [unfold Latest; congruence|].
  rewrite (Since_ok b (numbered 0 l)) by done. by rewrite H3, Hm, Hn.
Qed.

Definition op_a : Op := mkOp 0 false (lit "k") (lit "1").
Definition op_b : Op := mkOp 0 false (lit "k") (lit "2").

Lemma backlog_since_exact_witness :
  Since (append_all (NewBacklog 2) [op_a; op_b; op_a]) 1 = Ok [set_offset op_b 2; set_offset op_a 3] /\
  Since (append_all (NewBacklog 2) [op_a; op_b; op_a]) 0 = Err EStaleOffset.
Proof.
  split; [destruct (backlog_since_exact 2 [op_a; op_b; op_a] 1) as [_ H]
         |destruct (backlog_since_exact 2 [op_a; op_b; op_a] 0) as [_ H]];
    try (vm_compute; reflexivity); rewrite H; vm_compute; reflexivity.
Defined.

(** C1: with any number of concurrent publishers and subscribers, a session
    whose channel has not been dropped misses nothing: each operation after
    the offset it asked for is in the answer of Since, was received, is
    buffered in its channel, or belongs to a publisher that still has to take
    the lock.  And no publisher or unsubscriber ever panics by sending on, or
    closing, a closed channel. *)
Theorem fan_out_no_gap maxOps f :
  fan_reach maxOps f ->
  (forall id s missed c op,
     f_sess f !! id = Some s -> s_missed s = Some missed ->
     chans (f_hub f) !! id = Some c -> closed c = false ->
     op ∈ f_hist f -> s_off s < Offset op ->
     op ∈ missed \/ op ∈ s_got s \/ op ∈ concat (buf c) \/ op ∈ f_pending f) /\
  (forall op order, order ≡ₚ elements (subs (f_hub f)) -> exists h, broadcast op order (f_hub f) = Ok h) /\
  (forall id, exists h, Unsubscribe (f_hub f) id = Ok h).
Proof.
  intros R. pose proof (fan_reach_inv _ _ R) as Hi. split_and!.
  - intros id s missed c op Hs Hm Hc Hcl. by apply (inv_gap f Hi id s missed c).
  - intros. by apply broadcast_ok.
  - intros. by apply unsubscribe_ok.
Qed.

(** The run used below: two publishers of the same key; the second broadcasts
    before the session registers, the first after Since. *)
Definition run1 : fan := mkFan (set_backlog (NewHub 16) (append_all (NewBacklog 16) [op_a])) [set_offset op_a 1] [set_offset op_a 1] ∅.
Definition run2 : fan := mkFan (set_backlog (NewHub 16) (append_all (NewBacklog 16) [op_a; op_b]))
  [set_offset op_a 1; set_offset op_b 2] [set_offset op_a 1; set_offset op_b 2] ∅.
Definition run3 : fan := mkFan (f_hub run2) [set_offset op_a 1] (f_hist run2) ∅.
Definition run4 : fan := mkFan (Subscribe (f_hub run3)).2 (f_pending run3) (f_hist run3) {[1 := mkSession 0 None []]}.
Definition run5 : fan := mkFan (f_hub run4) (f_pending run4) (f_hist run4) {[1 := mkSession 0 (Some (f_hist run4)) []]}.
Definition run6 : fan :=
  mkFan (match broadcast (set_offset op_a 1) [1] (f_hub run5) with Ok h => h | _ => f_hub run5 end) [] (f_hist run5) (f_sess run5).

Lemma run_reach : fan_reach 16 run6.
Proof.
  unfold fan_reach.
  eapply rtc_l; [apply (step_append (fan_init 16) op_a 1 (append_all (NewBacklog 16) [op_a])); vm_compute; reflexivity|].
  eapply rtc_l; [apply (step_append run1 op_b 2 (append_all (NewBacklog 16) [op_a; op_b])); vm_compute; reflexivity|].
  eapply rtc_l; [apply (step_broadcast run2 [set_offset op_a 1] (set_offset op_b 2) [] [] (f_hub run2)); done|].
  eapply rtc_l; [apply step_sub, (step_register run3 0 1 (Subscribe (f_hub run3)).2); vm_compute; reflexivity|].
  eapply rtc_l; [apply step_sub, (step_since run4 1 (mkSession 0 None []) (f_hist run4)); vm_compute; reflexivity|].
  apply rtc_once, (step_broadcast run5 [] (set_offset op_a 1) [] [1]); [done| |vm_compute; reflexivity].
  change (elements (subs (f_hub run5))) with (elements (∅ ∪ {[1]} : gset Z)). by vm_compute.
Qed.

Lemma fan_out_no_gap_witness :
  set_offset op_b 2 ∈ f_hist run6 \/ set_offset op_b 2 ∈ [] \/ set_offset op_b 2 ∈ [set_offset op_a 1] \/
  set_offset op_b 2 ∈ f_pending run6.
Proof.
  destruct (fan_out_no_gap 16 run6 run_reach) as [H _].
  apply (H 1 (mkSession 0 (Some (f_hist run6)) []) (f_hist run6) (mkChan [[set_offset op_a 1]] false) (set_offset op_b 2));
    [vm_compute; reflexivity.. | | vm_compute; reflexivity].
  vm_compute. right. left.
Defined.

(** C2: with a single publisher, a session whose channel is open has, after
    what Since returned and what it received and still has buffered, exactly
    the master's content: operations delivered twice (once by Since, once by
    the channel) do no harm, whatever the content [m] the history started
    from. *)
Theorem serial_replica_converges maxOps f id s missed c m :
  rtc serial_step (fan_init maxOps) f ->
  f_sess f !! id = Some s -> s_missed s = Some missed ->
  chans (f_hub f) !! id = Some c -> closed c = false ->
  apply_ops m (take (Z.to_nat (s_off s)) (f_hist f) ++ missed ++ s_got s ++ concat (buf c)) =
  apply_ops m (f_hist f).
Proof.
  intros R Hs Hm Hc Hcl. destruct (si_order f (serial_reach_inv _ _ R) id s c Hs Hc Hcl) as (k & Hk & Hd & Hmm).
  destruct (Hmm missed Hm) as (n & Hn & ->). rewrite Hd, app_assoc.
  set (o := Z.to_nat (s_off s)).
  assert (take o (f_hist f) ++ drop o (take n (f_hist f)) = take (Nat.max o n) (f_hist f)) as ->.
  { destruct (Nat.le_gt_cases o n).
    - rewrite Nat.max_r by done. rewrite <- (take_drop o (take n (f_hist f))) at 2.
      by rewrite take_take, Nat.min_l.
    - rewrite Nat.max_l by lia. rewrite (drop_ge (take n _)) by (rewrite length_take; lia). by rewrite app_nil_r. }
  apply apply_ops_replay. lia.
Qed.

Definition ser1 : fan := mkFan (Subscribe (NewHub 16)).2 [] [] {[1 := mkSession 0 None []]}.
Definition ser2 : fan :=
  mkFan (match Publish (f_hub ser1) op_b [1] with Ok (_, h) => h | _ => f_hub ser1 end) [] [set_offset op_b 1] (f_sess ser1).
Definition ser3 : fan := mkFan (f_hub ser2) [] (f_hist ser2) {[1 := mkSession 0 (Some (f_hist ser2)) []]}.

Lemma serial_replica_converges_witness :
  apply_ops ∅ ([] ++ f_hist ser3 ++ [] ++ [set_offset op_b 1]) = apply_ops ∅ (f_hist ser3).
Proof.
  apply (serial_replica_converges 16 ser3 1 (mkSession 0 (Some (f_hist ser3)) []) (f_hist ser3)
           (mkChan [[set_offset op_b 1]] false) ∅); [|vm_compute; reflexivity..].
  eapply rtc_l; [apply ser_sub, (step_register (fan_init 16) 0 1 (Subscribe (NewHub 16)).2); vm_compute; reflexivity|].
  eapply rtc_l; [apply (ser_publish ser1 op_b [1] 1); [vm_compute; reflexivity | by vm_compute | vm_compute; reflexivity]|].
  apply rtc_once, ser_sub, (step_since ser2 1 (mkSession 0 None []) (f_hist ser2)); vm_compute; reflexivity.
Defined.

(** With two publishers this fails: there is a run in which a session
    with an open channel, everything broadcast and nothing missing, ends with
    the older value of a key, because an operation Since had already returned
    is delivered again after a newer one on the same key. *)
Theorem concurrent_publishers_diverge :
  exists f s missed c,
    fan_reach 16 f /\ f_pending f = [] /\ f_sess f !! 1 = Some s /\ s_missed s = Some missed /\ s_off s = 0 /\
    chans (f_hub f) !! 1 = Some c /\ closed c = false /\
    apply_ops ∅ (missed ++ s_got s ++ concat (buf c)) !! lit "k" = Some (lit "1") /\
    apply_ops ∅ (f_hist f) !! lit "k" = Some (lit "2").
Proof.
  exists run6, (mkSession 0 (Some (f_hist run6)) []), (f_hist run6), (mkChan [[set_offset op_a 1]] false).
  split; [exact run_reach|]. split_and!; vm_compute; reflexivity.
Qed.

(** The full-transfer payload reads back as the list of entries that was
    written, in order. *)
Theorem rdb_roundtrip es :
  Forall raw_ok es -> len es * 48 <= maxAlloc -> UnmarshalRDB (MarshalRDB es) = Ok es.
Proof. apply UnmarshalRDB_Marshal. Qed.

Lemma rdb_roundtrip_witness :
  UnmarshalRDB (MarshalRDB [mkRaw (lit "s:k") (lit "v"); mkRaw [] []]) = Ok [mkRaw (lit "s:k") (lit "v"); mkRaw [] []].
Proof.
  apply (rdb_roundtrip [mkRaw (lit "s:k") (lit "v"); mkRaw [] []]).
  - repeat (apply Forall_cons_2 || apply Forall_nil_2); split; vm_compute; split; (discriminate || reflexivity).
  - vm_compute. discriminate.
Defined.

End replication.
