(* ===== verification/ReplicaClient.v ===== *)
(** * The replica's side of a synchronisation
    (src/internal/replication/client.go, and the frames of
    src/internal/commands/replication.go)

    A session is a function of the bytes the master sends on the connection:
    it returns the error that ends the session, the client's new state and the
    values it wrote.  Dialling, the retry loop and the stop channel are not
    modelled: a stopped session is one whose input ends. *)

From S2P Require Import Prelude GoLib GoStrings Resp Codec Kv Replication.
Open Scope Z_scope.
Open Scope gedis_scope.

Module replica.
Import datastruct replication.

(** ** Frames written by the master *)

Definition encodeOp (op : Op) : Value :=
  let off := BulkOf (FormatInt (Offset op)) in
  if Del op then ArrayOf [BulkOf (lit "OP"); BulkOf (lit "del"); BulkOf (Key op); off]
  else ArrayOf [BulkOf (lit "OP"); BulkOf (lit "set"); BulkOf (Key op); BulkOf (Value_ op); off].

Definition encodeOps (ops : list Op) : Value := ArrayOf (map encodeOp ops).

(** The replies of PSYNC. *)
Definition continue_reply (masterID : bytes) (missed : list Op) : Value :=
  ArrayOf [BulkOf (lit "CONTINUE " ++ masterID); encodeOps missed].
Definition fullresync_reply (masterID : bytes) (latest : Z) (entries : list RawEntry) : Value :=
  ArrayOf [BulkOf (lit "FULLRESYNC " ++ masterID ++ lit " " ++ FormatInt latest); BulkOf (MarshalRDB entries)].

Definition isGetackFrame `{GoUnicode} (v : Value) : bool :=
  match v with
  | VArray (Some (a :: b :: _)) => bytes_eqb (Bulk a) (lit "REPLCONF") && EqualFold (Bulk b) (lit "GETACK")
  | _ => false
  end.

Section client.
Context {S : Type} `{KV S} `{GoUnicode} `{GoFloat}.

Record Client : Type := mkClient { kv : S; replID : bytes; offset : Z; keys : gset bytes }.

Definition NewClient (s : S) : Client := mkClient s [] (-1) ∅.

Definition state (c : Client) : bytes * Z :=
  if bytes_eqb (replID c) [] then (lit "?", -1) else (replID c, offset c).

Definition setState (c : Client) (id : bytes) (off : Z) : Client := mkClient (kv c) id off (keys c).

Definition trackOffset (c : Client) (off : Z) : Client :=
  if offset c <? off then mkClient (kv c) (replID c) off (keys c) else c.

Definition currentOffset (c : Client) : Z := offset c.

Definition set_kv (c : Client) (s : S) : Client := mkClient s (replID c) (offset c) (keys c).
Definition set_keys (c : Client) (ks : gset bytes) : Client := mkClient (kv c) (replID c) (offset c) ks.

(** ** Applying a frame *)

Definition applyOp (c : Client) (v : Value) : result unit * Client :=
  match v with
  | VArray (Some (tag :: kind :: k :: x :: rest)) =>
      if negb (bytes_eqb (Bulk tag) (lit "OP")) then (fail "replication: bad op frame", c)
      else if bytes_eqb (Bulk kind) (lit "set") then
        match rest with
        | [o] =>
            match kv_set (Bulk k) (Bulk x) (kv c) with
            | (Ok _, s) =>
                let c1 := set_kv c s in
                match ParseInt (Bulk o) with
                | None => (fail "replication: bad op offset", c1)
                | Some off =>
                    let c2 := trackOffset c1 off in
                    (Ok (), set_keys c2 (keys c2 ∪ {[Bulk k]}))
                end
            | (e, s) => (e, set_kv c s)
            end
        | _ => (fail "replication: bad set op frame", c)
        end
      else if bytes_eqb (Bulk kind) (lit "del") then
        match rest with
        | [] =>
            match kv_delete (Bulk k) (kv c) with
            | (Ok _, s) =>
                let c1 := set_kv c s in
                match ParseInt (Bulk x) with
                | None => (fail "replication: bad op offset", c1)
                | Some off => (Ok (), trackOffset c1 off)
                end
            | (e, s) => (e, set_kv c s)
            end
        | _ => (fail "replication: bad del op frame", c)
        end
      else (fail "replication: unknown op", c)
  | _ => (fail "replication: bad op frame", c)
  end.

(** A loop of applyOp that returns at the first error. *)
Fixpoint apply_frames (c : Client) (vs : list Value) : result unit * Client :=
  match vs with
  | [] => (Ok (), c)
  | v :: vs' => match applyOp c v with
                | (Ok _, c') => apply_frames c' vs'
                | (e, c') => (e, c')
                end
  end.

(** ** Full transfer *)

(** [_ = c.kv.Delete(ctx, []byte(k))] for every key tracked so far. *)
Fixpoint delete_keys (s : S) (ks : list bytes) : S :=
  match ks with
  | [] => s
  | k :: ks' => delete_keys (kv_delete k s).2 ks'
  end.

Fixpoint load_entries (c : Client) (es : list RawEntry) : result unit * Client :=
  match es with
  | [] => (Ok (), c)
  | e :: es' =>
      match kv_set (rKey e) (rValue e) (kv c) with
      | (Ok _, s) => load_entries (set_keys (set_kv c s) (keys c ∪ {[rKey e]})) es'
      | (x, s) => (x, set_kv c s)
      end
  end.

(** Go ranges over the old key set in some order; the deletions commute. *)
Definition applyRDB (c : Client) (raw : bytes) : result unit * Client :=
  match UnmarshalRDB raw with
  | Ok entries =>
      let s := delete_keys (kv c) (elements (keys c)) in
      load_entries (set_keys (set_kv c s) ∅) entries
  | Err e => (Err e, c)
  | Panic => (Panic, c)
  end.

(** ** A session *)

(** The answer to PSYNC. *)
Definition psync_reply (c : Client) (reply : Value) : result unit * Client :=
  match reply with
  | VArray (Some [m; payload]) =>
      match SplitByte (Bulk m) " " with
      | _ :: [] | [] => (fail "replication: bad psync marker", c)
      | f0 :: f1 :: rest =>
          if bytes_eqb f0 (lit "FULLRESYNC") then
            match rest with
            | [f2] =>
                match ParseInt f2 with
                | None => (fail "replication: bad fullresync offset", c)
                | Some off =>
                    let c := setState c f1 off in
                    match payload with
                    | VBulkString b => applyRDB c (default [] b)
                    | _ => (fail "replication: rdb is not bulk", c)
                    end
                end
            | _ => (fail "replication: bad fullresync marker", c)
            end
          else if bytes_eqb f0 (lit "CONTINUE") then
            let c := setState c f1 (currentOffset c) in
            match payload with
            | VArray es => apply_frames c (default [] es)
            | _ => (fail "replication: missed ops are not array", c)
            end
          else (fail "replication: unknown psync marker", c)
      end
  | _ => (fail "replication: bad psync reply", c)
  end.

(** The incremental stream: every frame until the connection ends. *)
Fixpoint stream_loop (fuel : nat) (c : Client) (inp : bytes) (out : list Value)
  : result unit * Client * list Value :=
  match fuel with
  | O => (fail "fuel", c, out)
  | Datatypes.S f =>
      match Resp.Decode inp with
      | Ok (v, rest) =>
          if isGetackFrame v then
            stream_loop f c rest
              (out ++ [ArrayOf [BulkOf (lit "REPLCONF"); BulkOf (lit "ACK"); BulkOf (FormatInt (currentOffset c))]])
          else match v with
               | VSimpleString _ => stream_loop f c rest out
               | _ => match applyOp c v with
                      | (Ok _, c') => stream_loop f c' rest out
                      | (e, c') => (e, c', out)
                      end
               end
      | Err e => (Err e, c, out)
      | Panic => (Panic, c, out)
      end
  end.

Definition syncOnce (c : Client) (inp : bytes) : result unit * Client * list Value :=
  let out := [ArrayOf [BulkOf (lit "PING")]] in
  match Resp.Decode inp with
  | Ok (_, inp1) =>
      let '(id, off) := state c in
      let out := out ++ [ArrayOf [BulkOf (lit "PSYNC"); BulkOf id; BulkOf (FormatInt off)]] in
      match Resp.Decode inp1 with
      | Ok (reply, inp2) =>
          match psync_reply c reply with
          | (Ok _, c') => stream_loop (Datatypes.S (length inp2)) c' inp2 out
          | (e, c') => (e, c', out)
          end
      | Err e => (Err e, c, out)
      | Panic => (Panic, c, out)
      end
  | Err e => (Err e, c, out)
  | Panic => (Panic, c, out)
  end.

End client.
Arguments Client : clear implicits.

(** ** Applying the master's frames *)

Section laws.
Context {S : Type} `{KVLaws S} `{GoUnicode} `{GoFloat}.
Implicit Types c : Client S.

Definition op_wire (op : Op) : Prop :=
  is_i64 (Offset op) /\ payload_ok (Key op) /\ payload_ok (Value_ op).

Lemma applyOp_encodeOp c op :
  is_i64 (Offset op) ->
  exists c', applyOp c (encodeOp op) = (Ok (), c') /\
    kv_view (kv c') = apply_op (kv_view (kv c)) op /\
    offset c' = Z.max (offset c) (Offset op) /\ replID c' = replID c /\
    keys c ⊆ keys c' /\ (Del op = false -> Key op ∈ keys c').
Proof.
  intros Hi. unfold encodeOp, apply_op. destruct (Del op) eqn:D; cbn [applyOp Bulk BulkOf default ArrayOf].
  - pose proof (kv_delete_ok (kv c) (Key op)) as E1. pose proof (kv_delete_view (kv c) (Key op)) as E2.
    change (applyOp c _) with
      (match kv_delete (Key op) (kv c) with
       | (Ok _, s) => let c1 := set_kv c s in
            match ParseInt (FormatInt (Offset op)) with
            | None => (fail "replication: bad op offset", c1)
            | Some off => (Ok (), trackOffset c1 off)
            end
       | (e, s) => (e, set_kv c s) end).
    destruct (kv_delete _ _) as [r s]; cbn in *. subst r. rewrite ParseInt_FormatInt by done.
    eexists. split; [done|]. unfold trackOffset; cbn. destruct (offset c <? Offset op) eqn:E; breflect; cbn;
      split_and!; try done; lia.
  - pose proof (kv_set_ok (kv c) (Key op) (Value_ op)) as E1. pose proof (kv_set_view (kv c) (Key op) (Value_ op)) as E2.
    change (applyOp c _) with
      (match kv_set (Key op) (Value_ op) (kv c) with
       | (Ok _, s) => let c1 := set_kv c s in
            match ParseInt (FormatInt (Offset op)) with
            | None => (fail "replication: bad op offset", c1)
            | Some off => let c2 := trackOffset c1 off in (Ok (), set_keys c2 (keys c2 ∪ {[Key op]}))
            end
       | (e, s) => (e, set_kv c s) end).
    destruct (kv_set _ _ _) as [r s]; cbn in *. subst r. rewrite ParseInt_FormatInt by done.
    eexists. split; [done|]. unfold trackOffset; cbn. destruct (offset c <? Offset op) eqn:E; breflect; cbn;
      split_and!; try done; try lia; set_solver.
Qed.

(** The last offset seen. *)
Definition max_offset (o : Z) (ops : list Op) : Z := foldl (fun o op => Z.max o (Offset op)) o ops.

Lemma apply_frames_ops c ops :
  Forall (fun op => is_i64 (Offset op)) ops ->
  exists c', apply_frames c (map encodeOp ops) = (Ok (), c') /\
    kv_view (kv c') = apply_ops (kv_view (kv c)) ops /\
    offset c' = max_offset (offset c) ops /\ replID c' = replID c.
Proof.
  intros Hall. revert c; induction Hall as [|op ops Ho Hops IH]; intros c; cbn; [by exists c|].
  destruct (applyOp_encodeOp c op Ho) as (c1 & -> & Hv & Hoff & Hid & _).
  destruct (IH c1) as (c2 & -> & Hv2 & Hoff2 & Hid2). exists c2. rewrite Hv2, Hoff2, Hid2, Hv, Hoff, Hid. done.
Qed.

Lemma delete_keys_view (s : S) ks k :
  kv_view (delete_keys s ks) !! k = if bool_decide (k ∈ ks) then None else kv_view s !! k.
Proof.
  revert s; induction ks as [|x ks IH]; intros s; cbn; [by rewrite bool_decide_eq_false_2 by apply not_elem_of_nil|].
  rewrite IH, kv_delete_view. destruct (decide (k = x)) as [->|N].
  - rewrite lookup_delete_eq, (bool_decide_eq_true_2 (x ∈ x :: ks)) by (by left). by case_bool_decide.
  - rewrite lookup_delete_ne by done.
    by rewrite (bool_decide_ext (k ∈ x :: ks) (k ∈ ks)) by (rewrite elem_of_cons; naive_solver).
Qed.

Definition entries_map (m : gmap bytes bytes) (es : list RawEntry) : gmap bytes bytes :=
  foldl (fun m e => <[rKey e := rValue e]> m) m es.

Lemma load_entries_view c es :
  exists c', load_entries c es = (Ok (), c') /\
    kv_view (kv c') = entries_map (kv_view (kv c)) es /\
    keys c' = keys c ∪ list_to_set (map rKey es) /\ offset c' = offset c /\ replID c' = replID c.
Proof.
  unfold entries_map. revert c; induction es as [|e es IH]; intros c; cbn [load_entries map list_to_set foldl].
  { exists c. split_and!; try done. set_solver. }
  pose proof (kv_set_ok (kv c) (rKey e) (rValue e)) as E1. pose proof (kv_set_view (kv c) (rKey e) (rValue e)) as E2.
  destruct (kv_set _ _ _) as [r s]; cbn in E1, E2. subst r.
  destruct (IH (set_keys (set_kv c s) (keys c ∪ {[rKey e]}))) as (c' & -> & Hv & Hk & Ho & Hr).
  exists c'. cbn in *. split_and!; [done | by rewrite Hv, E2 | rewrite Hk; set_solver | done | done].
Qed.

(** ** The stream on the wire *)

Lemma encodeOp_wire op : op_wire op -> wire_ok (encodeOp op).
Proof.
  intros (Hi & Hk & Hv). unfold encodeOp.
  assert (payload_ok (FormatInt (Offset op))) as Ho.
  { unfold payload_ok. pose proof (FormatInt_short _ Hi). unfold maxAlloc. lia. }
  destruct (Del op); cbn; split_and!; try done; vm_compute; discriminate.
Qed.

Lemma encodeOp_not_getack op : isGetackFrame (encodeOp op) = false.
Proof. unfold encodeOp. by destruct (Del op). Qed.

Definition op_bytes (op : Op) : bytes := Resp.Append [] (encodeOp op).

Lemma op_bytes_pos op : (0 < length (op_bytes op))%nat.
Proof. apply Append_pos. Qed.

Lemma Decode_wire v r : wire_ok v -> Resp.Decode (Resp.Append [] v ++ r) = Ok (v, r).
Proof. intros Hw. apply decode_wire; [done | lia]. Qed.

(** The stream ends with the read error of the closed connection. *)
Lemma stream_loop_ops fuel c ops out :
  Forall op_wire ops -> (length ops < fuel)%nat ->
  exists c' e, stream_loop fuel c (concat (map op_bytes ops)) out = (Err e, c', out) /\
    kv_view (kv c') = apply_ops (kv_view (kv c)) ops /\
    offset c' = max_offset (offset c) ops /\ replID c' = replID c.
Proof.
  intros Hall. revert fuel c; induction Hall as [|op ops Ho Hops IH]; intros fuel c Hf;
    (destruct fuel as [|fuel]; [cbn in Hf; lia|]); cbn [map concat stream_loop].
  { exists c. eexists. split; [reflexivity | done]. }
  unfold op_bytes at 1. rewrite Decode_wire by (by apply encodeOp_wire).
  rewrite encodeOp_not_getack. destruct Ho as (Hi & Hk & Hv).
  destruct (applyOp_encodeOp c op Hi) as (c1 & E & Hview & Hoff & Hid & _).
  assert (match encodeOp op with VSimpleString _ => stream_loop fuel c (concat (map op_bytes ops)) out
          | _ => match applyOp c (encodeOp op) with
                 | (Ok _, c') => stream_loop fuel c' (concat (map op_bytes ops)) out
                 | (e, c') => (e, c', out) end end =
          stream_loop fuel c1 (concat (map op_bytes ops)) out) as ->.
  { unfold encodeOp in *. destruct (Del op); by rewrite E. }
  destruct (IH fuel c1) as (c2 & e & -> & Hv2 & Hoff2 & Hid2); [cbn in Hf; lia|]. exists c2, e.
  rewrite Hv2, Hoff2, Hid2, Hview, Hoff, Hid. done.
Qed.

(** ** Markers *)

Lemma Bulk_some b : Bulk (VBulkString (Some b)) = b.
Proof. done. Qed.

Lemma split_continue id :
  " "%char ∉ id -> SplitByte (lit "CONTINUE " ++ id) " " = [lit "CONTINUE"; id].
Proof.
  intros Hid. change (lit "CONTINUE " ++ id) with (lit "CONTINUE" ++ " "%char :: id).
  rewrite SplitByte_app by (vm_compute; set_solver). by rewrite SplitByte_none.
Qed.

Lemma FormatInt_no_space n : " "%char ∉ FormatInt n.
Proof.
  unfold FormatInt. destruct (n <? 0) eqn:E; breflect.
  - apply not_elem_of_cons. split; [done|]. apply digits_not_elem; [apply FormatUint_digits; lia | done].
  - apply digits_not_elem; [apply FormatUint_digits; lia | done].
Qed.

Lemma split_fullresync id off :
  " "%char ∉ id ->
  SplitByte (lit "FULLRESYNC " ++ id ++ lit " " ++ FormatInt off) " " = [lit "FULLRESYNC"; id; FormatInt off].
Proof.
  intros Hid. change (lit "FULLRESYNC " ++ id ++ lit " " ++ FormatInt off)
    with (lit "FULLRESYNC" ++ " "%char :: (id ++ " "%char :: FormatInt off)).
  rewrite SplitByte_app by (vm_compute; set_solver). rewrite SplitByte_app by done.
  by rewrite SplitByte_none by apply FormatInt_no_space.
Qed.

Lemma psync_continue c id missed :
  " "%char ∉ id ->
  psync_reply c (continue_reply id missed) = apply_frames (setState c id (offset c)) (map encodeOp missed).
Proof.
  intros Hid. unfold psync_reply, continue_reply, ArrayOf, BulkOf, encodeOps. rewrite Bulk_some.
  by rewrite split_continue.
Qed.

Lemma psync_fullresync c id latest es :
  " "%char ∉ id -> is_i64 latest ->
  psync_reply c (fullresync_reply id latest es) = applyRDB (setState c id latest) (MarshalRDB es).
Proof.
  intros Hid Hl. unfold psync_reply, fullresync_reply, ArrayOf, BulkOf. rewrite Bulk_some.
  rewrite split_fullresync by done.
  rewrite (bytes_eqb_refl (lit "FULLRESYNC")). by rewrite ParseInt_FormatInt.
Qed.

End laws.

(** ** Properties *)

Section properties.
Context {S : Type} `{KVLaws S} `{GoUnicode} `{GoFloat}.
Implicit Types c : Client S.

(** C10: a partial resynchronisation, read from the wire, applies the missed
    operations and then every operation of the stream to the replica's store,
    in order, and ends (when the connection does) with the master's id and the
    highest offset received. *)
Theorem partial_sync c pong id missed ops :
  wire_ok pong -> wire_ok (continue_reply id missed) -> " "%char ∉ id ->
  Forall op_wire missed -> Forall op_wire ops ->
  exists c' e out,
    syncOnce c (Resp.Append [] pong ++ Resp.Append [] (continue_reply id missed) ++ concat (map op_bytes ops))
      = (Err e, c', out) /\
    kv_view (kv c') = apply_ops (kv_view (kv c)) (missed ++ ops) /\
    replID c' = id /\ offset c' = max_offset (offset c) (missed ++ ops).
Proof.
  intros Hp Hr Hid Hm Ho. unfold syncOnce. rewrite Decode_wire by done. destruct (state c) as [i o].
  rewrite Decode_wire by done. rewrite psync_continue by done.
  destruct (apply_frames_ops (setState c id (offset c)) missed) as (c1 & -> & Hv & Hoff & Hi).
  { eapply Forall_impl; [exact Hm|]. by intros ? []. }
  edestruct (stream_loop_ops (Datatypes.S (length (concat (map op_bytes ops)))) c1 ops) as (c2 & e & -> & Hv2 & Hoff2 & Hi2).
  { done. } { pose proof (concat_map_length op_bytes ops op_bytes_pos). lia. }
  exists c2, e. eexists. split; [done|]. unfold max_offset in *. rewrite Hv2, Hv, Hi2, Hi, Hoff2, Hoff, apply_ops_app, foldl_app. done.
Qed.


(** When the full transfer cannot be read, the session fails but the
    client has already taken over the master's id and offset, with its store
    untouched: the next PSYNC asks to continue from an offset whose data it
    never received. *)
Theorem failed_transfer_keeps_offset c id latest raw e :
  " "%char ∉ id -> id <> [] -> is_i64 latest -> UnmarshalRDB raw = Err e ->
  let r := psync_reply c (ArrayOf [BulkOf (lit "FULLRESYNC " ++ id ++ lit " " ++ FormatInt latest); BulkOf raw]) in
  r.1 = Err e /\ state r.2 = (id, latest) /\ kv_view (kv r.2) = kv_view (kv c).
Proof.
  intros Hid Hne Hl E. unfold psync_reply, ArrayOf, BulkOf. rewrite Bulk_some. rewrite split_fullresync by done.
  rewrite (bytes_eqb_refl (lit "FULLRESYNC")), ParseInt_FormatInt by done. change (default [] (Some raw)) with raw.
  unfold applyRDB. rewrite E. cbn.
  unfold state. cbn. by rewrite bytes_eqb_neq.
Qed.
End properties.

Definition replica_example : Client (gmap bytes bytes) := mkClient {[lit "s:old" := lit "x"]} (lit "m1") 4 {[lit "s:old"]}.
Definition op_example : Op := mkOp 5 false (lit "s:k") (lit "v").

Lemma op_example_wire : Forall op_wire [op_example].
Proof.
  apply Forall_cons_2; [|apply Forall_nil_2]. split; [unfold is_i64; cbn; lia|].
  split; vm_compute; discriminate.
Qed.

Lemma no_space_m1 : " "%char ∉ lit "m1".
Proof. vm_compute. set_solver. Qed.

Lemma partial_sync_witness :
  exists c' e out,
    @syncOnce _ map_kv ascii_tables zero_float replica_example
      (@Resp.Append zero_float [] (VSimpleString (lit "PONG")) ++
       @Resp.Append zero_float [] (continue_reply (lit "m1") [op_example]) ++
       concat (map (@op_bytes zero_float) [op_example])) = (Err e, c', out) /\
    kv c' = apply_ops {[lit "s:old" := lit "x"]} [op_example; op_example] /\
    replID c' = lit "m1" /\ offset c' = 5.
Proof.
  apply (@partial_sync _ map_kv map_kv_laws ascii_tables zero_float replica_example
           (VSimpleString (lit "PONG")) (lit "m1") [op_example] [op_example]).
  - vm_compute. set_solver.
  - cbn. split_and!; vm_compute; discriminate || exact I.
  - exact no_space_m1.
  - exact op_example_wire.
  - exact op_example_wire.
Defined.


Lemma failed_transfer_keeps_offset_witness :
  state (@psync_reply _ map_kv replica_example
    (ArrayOf [BulkOf (lit "FULLRESYNC " ++ lit "m2" ++ lit " " ++ FormatInt 9); BulkOf []])).2 = (lit "m2", 9).
Proof.
  refine (proj1 (proj2 (@failed_transfer_keeps_offset _ map_kv map_kv_laws replica_example (lit "m2") 9 []
           (EMsg (lit "replication: bad rdb count")) _ _ _ _))).
  - vm_compute. set_solver.
  - vm_compute. discriminate.
  - unfold is_i64. lia.
  - vm_compute. reflexivity.
Defined.

End replica.
