(* ===== verification/Storage.v ===== *)
(** * The storage engine (src/internal/storage)

    [Pebble] wraps a third-party LSM database with a memory account, the
    eviction policies, the change and eviction hooks and the publication of
    every mutation to the replication hub.  The database is the class
    [PebbleDB]; what Go leaves open (the order of a range over a map, the
    random source, the clock) is the class [GoWorld].  Byte counts are exact
    integers: they are sums of lengths of allocated data. *)

From S2P Require Import Prelude GoLib GoStrings Codec Kv Replication.
Open Scope Z_scope.
Open Scope gedis_scope.

Module storage.
Import datastruct.

(** ** The database *)

(** The operations of [*pebble.DB] the engine calls.  The boolean is the sync
    flag of the write options; [pdb_iter] is the keys an iterator yields from
    [SeekGE] on. *)
Class PebbleDB (D : Type) : Type := {
  pdb_get : bytes -> D -> result bytes;
  pdb_set : bool -> bytes -> bytes -> D -> result D;
  pdb_delete : bool -> bytes -> D -> result D;
  pdb_stage : BatchOp -> result unit;
  pdb_commit : bool -> list BatchOp -> D -> result D;
  pdb_iter : bytes -> D -> result (list bytes);
}.

(** A healthy database: a finite map, iterated in key order. *)
Class PebbleLaws (D : Type) `{PebbleDB D} : Type := {
  pdb_view : D -> gmap bytes bytes;
  pdb_get_ok d k : pdb_get k d = match pdb_view d !! k with Some v => Ok v | None => Err ENotFound end;
  pdb_set_ok sync d k v : exists d', pdb_set sync k v d = Ok d' /\ pdb_view d' = <[k := v]> (pdb_view d);
  pdb_delete_ok sync d k : exists d', pdb_delete sync k d = Ok d' /\ pdb_view d' = delete k (pdb_view d);
  pdb_stage_ok op : pdb_stage op = Ok ();
  pdb_commit_ok sync d ops : exists d', pdb_commit sync ops d = Ok d' /\ pdb_view d' = batch_apply (pdb_view d) ops;
  pdb_iter_ok d k : pdb_iter k d =
    Ok (List.filter (fun x => negb (bytes_ltb x k)) (sortStrings (map fst (map_to_list (pdb_view d)))));
}.

(** ** State *)

Record lruEntry : Type := mkLru { at_ : Z; size : Z; expires : bool; expAt : Z; freq : Z }.

(** What the run-time decides: the [n]-th reading of the clock (in seconds),
    the [n]-th range over the table, the [n]-th draw of [rand.Intn]. *)
Class GoWorld : Type := {
  clock_sec : nat -> Z;
  range_lru : nat -> gmap bytes lruEntry -> list bytes;
  rand_intn : nat -> Z -> Z;
}.
Class GoWorldLaws `{GoWorld} : Prop := {
  range_lru_perm n m : range_lru n m ≡ₚ map fst (map_to_list m);
  rand_intn_range n k : 0 < k -> 0 <= rand_intn n k < k;
}.

Inductive hook : Type :=
| HChange (op : ascii) (key : bytes)
| HEvict (key : bytes).

(** [published]: the arguments of Hub.Publish, in call order; [hooks]: the
    calls of the change and eviction hooks. *)
Record Pebble (D : Type) : Type := mkPebble {
  db : D;
  fsync_always : bool;
  has_hub : bool;
  lru : gmap bytes lruEntry;
  usedBytes : Z;
  maxBytes : Z;
  policy : bytes;
  evicted : Z;
  published : list replication.Op;
  hooks : list hook;
  tick : nat;
}.
Arguments mkPebble {D}. Arguments db {D}. Arguments fsync_always {D}. Arguments has_hub {D}. Arguments lru {D}.
Arguments usedBytes {D}. Arguments maxBytes {D}. Arguments policy {D}. Arguments evicted {D}.
Arguments published {D}. Arguments hooks {D}. Arguments tick {D}.

(** Field updates. *)
Definition set_db {D} (p : Pebble D) (d : D) : Pebble D :=
  mkPebble d (fsync_always p) (has_hub p) (lru p) (usedBytes p) (maxBytes p) (policy p) (evicted p) (published p) (hooks p) (tick p).
Definition set_lru {D} (p : Pebble D) (m : gmap bytes lruEntry) (used : Z) : Pebble D :=
  mkPebble (db p) (fsync_always p) (has_hub p) m used (maxBytes p) (policy p) (evicted p) (published p) (hooks p) (tick p).
Definition set_limit {D} (p : Pebble D) (n : Z) : Pebble D :=
  mkPebble (db p) (fsync_always p) (has_hub p) (lru p) (usedBytes p) n (policy p) (evicted p) (published p) (hooks p) (tick p).
Definition set_policy {D} (p : Pebble D) (pol : bytes) : Pebble D :=
  mkPebble (db p) (fsync_always p) (has_hub p) (lru p) (usedBytes p) (maxBytes p) pol (evicted p) (published p) (hooks p) (tick p).
Definition add_evicted {D} (p : Pebble D) : Pebble D :=
  mkPebble (db p) (fsync_always p) (has_hub p) (lru p) (usedBytes p) (maxBytes p) (policy p) (evicted p + 1) (published p) (hooks p) (tick p).
Definition publish {D} (p : Pebble D) (op : replication.Op) : Pebble D :=
  if has_hub p then
    mkPebble (db p) (fsync_always p) (has_hub p) (lru p) (usedBytes p) (maxBytes p) (policy p) (evicted p) (published p ++ [op]) (hooks p) (tick p)
  else p.
Definition call_hook {D} (p : Pebble D) (h : hook) : Pebble D :=
  mkPebble (db p) (fsync_always p) (has_hub p) (lru p) (usedBytes p) (maxBytes p) (policy p) (evicted p) (published p) (hooks p ++ [h]) (tick p).
Definition step_world {D} (p : Pebble D) : Pebble D :=
  mkPebble (db p) (fsync_always p) (has_hub p) (lru p) (usedBytes p) (maxBytes p) (policy p) (evicted p) (published p) (hooks p) (S (tick p)).

(** ** Options and simple accessors *)

Inductive FsyncPolicy : Type := FsyncAlways | FsyncEverysec | FsyncNo.

Definition ParseFsyncPolicy `{GoUnicode} (s : bytes) : result FsyncPolicy :=
  let l := ToLower s in
  if bytes_eqb l (lit "always") then Ok FsyncAlways
  else if bytes_eqb l (lit "everysec") then Ok FsyncEverysec
  else if bytes_eqb l (lit "no") then Ok FsyncNo
  else fail "storage: unknown fsync policy".

Definition SetMaxBytes {D} (p : Pebble D) (n : Z) : Pebble D := set_limit p (if n <? 0 then 0 else n).

Definition Policy {D} (p : Pebble D) : bytes :=
  if bytes_eqb (policy p) [] then lit "allkeys-lru" else policy p.

Definition policies : list bytes :=
  map lit ["noeviction"; "allkeys-random"; "volatile-random"; "volatile-ttl";
           "allkeys-lru"; "volatile-lru"; "allkeys-lfu"; "volatile-lfu"]%string.

Definition SetPolicy `{GoUnicode} {D} (p : Pebble D) (pol : bytes) : result unit * Pebble D :=
  let l := ToLower pol in
  if existsb (bytes_eqb l) policies then (Ok (), set_policy p l)
  else (fail "storage: unknown eviction policy", p).

Section engine.
Context {D : Type} `{PebbleDB D} `{GoWorld}.
Implicit Types p : Pebble D.

Definition nowSec p : Z := u32 (clock_sec (tick p)).

Definition ObjectStats p (rawKey : bytes) : option (Z * Z) :=
  match lru p !! rawKey with
  | None => None
  | Some e => Some (u32 (nowSec p - at_ e), freq e)
  end.

Definition writeOptions p : bool := fsync_always p.

(** ** The account *)

Definition bump_freq (f : Z) : Z := if f <? 255 then f + 1 else f.

Definition trackSet p (key value : bytes) : Pebble D :=
  let '(exp, ea) :=
    match Decode value with
    | Ok e => (negb (Expiry e =? 0), if negb (Expiry e =? 0) then Expiry e else 0)
    | _ => (false, 0)
    end in
  let sz := len key + len value in
  let old := lru p !! key in
  let used := match old with Some e => usedBytes p + (sz - size e) | None => usedBytes p + sz end in
  let fr := match old with Some e => bump_freq (freq e) | None => 1 end in
  step_world (set_lru p (<[key := mkLru (nowSec p) sz exp ea fr]> (lru p)) used).

Definition trackGet p (key : bytes) : Pebble D :=
  match lru p !! key with
  | Some e => step_world (set_lru p (<[key := mkLru (nowSec p) (size e) (expires e) (expAt e) (bump_freq (freq e))]> (lru p))
                                  (usedBytes p))
  | None => p
  end.

Definition trackDelete p (key : bytes) : Pebble D :=
  match lru p !! key with
  | Some e => set_lru p (delete key (lru p)) (usedBytes p - size e)
  | None => p
  end.

Definition deltaFor p (key : bytes) (sz : Z) : Z :=
  match lru p !! key with Some e => sz - size e | None => sz end.

(** ** Eviction *)

Definition evictSampleN : nat := 5.

(** The table in ranging order. *)
Definition ranged p : list (bytes * lruEntry) :=
  omap (fun k => e ← lru p !! k; Some (k, e)) (range_lru (tick p) (lru p)).

(** volatile-ttl: the earliest expiry. *)
Fixpoint pick_ttl (l : list (bytes * lruEntry)) (best : option (bytes * Z)) : option (bytes * Z) :=
  match l with
  | [] => best
  | (k, e) :: l' =>
      if negb (expires e) then pick_ttl l' best
      else match best with
           | Some (_, m) => if expAt e <? m then pick_ttl l' (Some (k, expAt e)) else pick_ttl l' best
           | None => pick_ttl l' (Some (k, expAt e))
           end
  end.

(** *-random: reservoir sampling; [t] numbers the draws. *)
Fixpoint pick_random (volatileOnly : bool) (t : nat) (n : Z) (l : list (bytes * lruEntry)) (best : option bytes) : option bytes :=
  match l with
  | [] => best
  | (k, e) :: l' =>
      if volatileOnly && negb (expires e) then pick_random volatileOnly t n l' best
      else let n' := n + 1 in
           pick_random volatileOnly (S t) n' l' (if rand_intn t n' =? 0 then Some k else best)
  end.

(** *-lru / *-lfu: the first [evictSampleN] candidates, then the best of them. *)
Definition candidates (volatileOnly : bool) (l : list (bytes * lruEntry)) : list (bytes * lruEntry) :=
  take evictSampleN (List.filter (fun c => negb (volatileOnly && negb (expires c.2))) l).

Definition worse_lfu (c v : bytes * lruEntry) : bool :=
  (freq c.2 <? freq v.2) || ((freq c.2 =? freq v.2) && (at_ c.2 <? at_ v.2)).
Definition worse_lru (c v : bytes * lruEntry) : bool := at_ c.2 <? at_ v.2.

Definition pick_sample (worse : bytes * lruEntry -> bytes * lruEntry -> bool) (cs : list (bytes * lruEntry)) : option bytes :=
  match cs with
  | [] => None
  | v :: cs' => Some (foldl (fun v c => if worse c v then c else v) v cs').1
  end.

(** The victim of the policy. *)
Definition victim p : option bytes :=
  let pol := Policy p in
  if bytes_eqb pol (lit "noeviction") then None
  else
    let volatileOnly := HasPrefix pol (lit "volatile-") in
    if bytes_eqb pol (lit "volatile-ttl") then fst <$> pick_ttl (ranged p) None
    else if bytes_eqb pol (lit "allkeys-random") || bytes_eqb pol (lit "volatile-random")
    then pick_random volatileOnly (tick p) 0 (ranged p) None
    else if HasSuffix pol (lit "-lfu") then pick_sample worse_lfu (candidates volatileOnly (ranged p))
    else pick_sample worse_lru (candidates volatileOnly (ranged p)).

Definition del_op (key : bytes) : replication.Op := replication.mkOp 0 true key [].
Definition set_op (key value : bytes) : replication.Op := replication.mkOp 0 false key value.

(** [ctx]: the error of a cancelled context. *)
Definition deleteInternal (ctx : option goerr) p (key : bytes) : result unit * Pebble D :=
  match ctx with
  | Some e => (Err e, p)
  | None =>
      match pdb_delete (writeOptions p) key (db p) with
      | Ok d => (Ok (), publish (trackDelete (set_db p d) key) (del_op key))
      | Err _ => (fail "storage: delete", p)
      | Panic => (Panic, p)
      end
  end.

Definition evictOne (ctx : option goerr) p : bool * Pebble D :=
  let p := step_world p in
  match victim p with
  | None => (false, p)
  | Some k =>
      match deleteInternal ctx p k with
      | (Ok _, p') => (true, call_hook (add_evicted p') (HEvict k))
      | (_, p') => (false, p')
      end
  end.

(** [for used+delta > max { if !evictOne { return ErrOOM } }] *)
Fixpoint evict_loop (fuel : nat) (ctx : option goerr) p (delta : Z) : result unit * Pebble D :=
  if maxBytes p <? usedBytes p + delta then
    match fuel with
    | O => (fail "fuel", p)
    | S f => match evictOne ctx p with
             | (true, p') => evict_loop f ctx p' delta
             | (false, p') => (Err EOOM, p')
             end
    end
  else (Ok (), p).

(** Every round removes a key from the table, so its size bounds the rounds. *)
Definition evictForDelta (ctx : option goerr) p (delta : Z) : result unit * Pebble D :=
  if 0 <? maxBytes p then evict_loop (S (base.size (lru p))) ctx p delta else (Ok (), p).

Definition evictIfNeeded (ctx : option goerr) p : result unit * Pebble D := evictForDelta ctx p 0.

(** ** Operations *)

Definition Get (ctx : option goerr) p (key : bytes) : result bytes * Pebble D :=
  match ctx with
  | Some e => (Err e, p)
  | None =>
      match pdb_get key (db p) with
      | Ok v => (Ok v, trackGet p key)
      | Err ENotFound => (Err ENotFound, p)
      | Err _ => (fail "storage: get", p)
      | Panic => (Panic, p)
      end
  end.

Definition Set_ (ctx : option goerr) p (key value : bytes) : result unit * Pebble D :=
  match ctx with
  | Some e => (Err e, p)
  | None =>
      match evictForDelta ctx p (deltaFor p key (len key + len value)) with
      | (Ok _, p) =>
          match pdb_set (writeOptions p) key value (db p) with
          | Ok d =>
              let p := call_hook (trackSet (set_db p d) key value) (HChange "s" key) in
              (Ok (), publish p (set_op key value))
          | Err _ => (fail "storage: set", p)
          | Panic => (Panic, p)
          end
      | (e, p) => (e, p)
      end
  end.

Definition Delete (ctx : option goerr) p (key : bytes) : result unit * Pebble D :=
  match deleteInternal ctx p key with
  | (Ok _, p) => (Ok (), call_hook p (HChange "d" key))
  | (e, p) => (e, p)
  end.

(** The iterator loop of Scan stops at the first key without the prefix. *)
Fixpoint take_prefix (prefix : bytes) (ks : list bytes) : list bytes :=
  match ks with
  | [] => []
  | k :: ks' => if HasPrefix k prefix then k :: take_prefix prefix ks' else []
  end.

Definition Scan (ctx : option goerr) p (prefix : bytes) : result (list bytes) :=
  match ctx with
  | Some e => Err e
  | None =>
      match pdb_iter prefix (db p) with
      | Ok ks => Ok (take_prefix prefix ks)
      | Err _ => fail "storage: scan"
      | Panic => Panic
      end
  end.

Definition HasAny (ctx : option goerr) p : result bool :=
  match ctx with
  | Some e => Err e
  | None => match pdb_iter [] (db p) with
            | Ok ks => Ok (match ks with [] => false | _ => true end)
            | Err _ => fail "storage: hasany"
            | Panic => Panic
            end
  end.

(** The last operation on each key decides its contribution. *)
Fixpoint batch_delta p (rev_ops : list BatchOp) (seen : gset bytes) (delta : Z) : Z :=
  match rev_ops with
  | [] => delta
  | op :: ops =>
      if bool_decide (bKey op ∈ seen) then batch_delta p ops seen delta
      else batch_delta p ops (seen ∪ {[bKey op]})
             (delta + (if bDelete op then deltaFor p (bKey op) 0
                       else deltaFor p (bKey op) (len (bKey op) + len (bValue op))))
  end.

Definition track_op p (op : BatchOp) : Pebble D :=
  if bDelete op then call_hook (trackDelete p (bKey op)) (HChange "d" (bKey op))
  else call_hook (trackSet p (bKey op) (bValue op)) (HChange "s" (bKey op)).

Definition batch_op (op : BatchOp) : replication.Op := replication.mkOp 0 (bDelete op) (bKey op) (bValue op).

Fixpoint stage_all (ops : list BatchOp) : result unit :=
  match ops with
  | [] => Ok ()
  | op :: ops' =>
      match pdb_stage op with
      | Ok _ => stage_all ops'
      | Err _ => fail "storage: batch"
      | Panic => Panic
      end
  end.

Definition WriteBatch (ctx : option goerr) p (ops : list BatchOp) : result unit * Pebble D :=
  match ctx, ops with
  | Some e, _ => (Err e, p)
  | None, [] => (Ok (), p)
  | None, _ =>
      match stage_all ops with
      | Ok _ =>
          match evictForDelta ctx p (batch_delta p (rev ops) ∅ 0) with
          | (Ok _, p) =>
              match pdb_commit (writeOptions p) ops (db p) with
              | Ok d =>
                  let p := foldl track_op (set_db p d) ops in
                  match evictIfNeeded ctx p with
                  | (Ok _, p) => (Ok (), foldl (fun p op => publish p (batch_op op)) p ops)
                  | (e, p) => (e, p)
                  end
              | Err _ => (fail "storage: batch commit", p)
              | Panic => (Panic, p)
              end
          | (e, p) => (e, p)
          end
      | e => (e, p)
      end
  end.

End engine.
(** ** The account invariant *)

Definition total (m : gmap bytes lruEntry) : Z := map_fold (fun _ e acc => size e + acc) 0 m.

Lemma total_empty : total ∅ = 0.
Proof. apply map_fold_empty. Qed.

Lemma total_insert_new m k e : m !! k = None -> total (<[k := e]> m) = size e + total m.
Proof. intros E. unfold total. rewrite map_fold_insert_L; [done | intros; lia | done]. Qed.

Lemma total_delete m k e : m !! k = Some e -> total (delete k m) = total m - size e.
Proof.
  intros E. rewrite <- (insert_delete_id m k e E) at 2. rewrite total_insert_new by apply lookup_delete_eq. lia.
Qed.

Lemma total_insert m k e :
  total (<[k := e]> m) = total m + size e - match m !! k with Some o => size o | None => 0 end.
Proof.
  destruct (m !! k) as [o|] eqn:E; [|rewrite total_insert_new by done; lia].
  rewrite <- insert_delete_eq, total_insert_new by apply lookup_delete_eq. rewrite (total_delete _ _ o) by done. lia.
Qed.

(** The expiry an entry is stored with: [0] for none. *)
Definition value_expiry (v : bytes) : Z := match Decode v with Ok e => Expiry e | _ => 0 end.

(** Every tracked key is in the database, with its true size and expiry, and
    the used bytes are the sum of the tracked sizes. *)
Definition coherent (V : gmap bytes bytes) (m : gmap bytes lruEntry) (used : Z) : Prop :=
  used = total m /\
  forall k e, m !! k = Some e -> exists v, V !! k = Some v /\ size e = len k + len v /\
    expires e = negb (value_expiry v =? 0) /\ expAt e = value_expiry v.

Lemma coherent_delete V m used k e :
  coherent V m used -> m !! k = Some e -> coherent (delete k V) (delete k m) (used - size e).
Proof.
  intros [-> Hc] He. split; [by rewrite (total_delete m k e)|].
  intros j x [N Hx]%lookup_delete_Some. rewrite lookup_delete_ne by done. by apply Hc.
Qed.

Lemma coherent_delete_db V m used k :
  coherent V m used -> m !! k = None -> coherent (delete k V) m used.
Proof.
  intros [-> Hc] He. split; [done|]. intros j x Hx. rewrite lookup_delete_ne by congruence. by apply Hc.
Qed.

Lemma coherent_insert V m used k v e :
  coherent V m used -> size e = len k + len v -> expires e = negb (value_expiry v =? 0) -> expAt e = value_expiry v ->
  coherent (<[k := v]> V) (<[k := e]> m) (used + (size e - match m !! k with Some o => size o | None => 0 end)).
Proof.
  intros [-> Hc] H1 H2 H3. split; [rewrite total_insert; lia|].
  intros j x. destruct (decide (j = k)) as [->|N].
  - rewrite !lookup_insert_eq. intros [= <-]. by exists v.
  - rewrite !lookup_insert_ne by done. apply Hc.
Qed.

Lemma coherent_touch V m used k e a f :
  coherent V m used -> m !! k = Some e ->
  coherent V (<[k := mkLru a (size e) (expires e) (expAt e) f]> m) used.
Proof.
  intros [-> Hc] He. split; [rewrite total_insert, He; cbn; lia|].
  intros j x. destruct (decide (j = k)) as [->|N].
  - rewrite lookup_insert_eq. intros [= <-]. cbn. by apply Hc.
  - rewrite lookup_insert_ne by done. apply Hc.
Qed.

Lemma expiry_ea v :
  match Decode v with
  | Ok e => (negb (Expiry e =? 0), if negb (Expiry e =? 0) then Expiry e else 0)
  | _ => (false, 0)
  end = (negb (value_expiry v =? 0), value_expiry v).
Proof.
  unfold value_expiry. destruct (Decode v) as [e| |]; try done. destruct (Expiry e =? 0) eqn:E; [|done].
  breflect. by rewrite E.
Qed.

Section laws.
Context {D : Type} `{PebbleLaws D} `{GoWorldLaws}.
Implicit Types p : Pebble D.

Definition view p : gmap bytes bytes := pdb_view (db p).
Definition ok p : Prop := coherent (view p) (lru p) (usedBytes p).

(** ** The choice of the victim *)

Lemma ranged_elem p k e : (k, e) ∈ ranged p <-> lru p !! k = Some e.
Proof.
  unfold ranged. rewrite list_elem_of_omap. split.
  - intros (x & _ & Hx). destruct (lru p !! x) eqn:E; cbn in Hx; [|done]. by simplify_eq.
  - intros He. exists k. rewrite He. split; [|done]. rewrite range_lru_perm.
    apply list_elem_of_fmap. exists (k, e). split; [done|]. by apply elem_of_map_to_list.
Qed.

Lemma pick_ttl_spec l best :
  match pick_ttl l best with
  | None => best = None /\ (forall k e, (k, e) ∈ l -> expires e = false)
  | Some (k, m) =>
      (best = Some (k, m) \/ exists e, (k, e) ∈ l /\ expires e = true /\ expAt e = m) /\
      (forall j e, (j, e) ∈ l -> expires e = true -> m <= expAt e) /\
      (forall j n, best = Some (j, n) -> m <= n)
  end.
Proof.
  revert best; induction l as [|[k e] l IH]; intros best; cbn [pick_ttl].
  { destruct best as [[k m]|]; [|split; [done|]; by intros ? ? ?%not_elem_of_nil].
    split_and!; [by left | by intros ? ? ?%not_elem_of_nil | intros ? ? [= _ ->]; lia]. }
  destruct (expires e) eqn:X; cbn [negb].
  - assert (forall best' n, (best' = Some (k, expAt e) \/ best' = best) ->
        match best' with Some (_, b) => b <= expAt e | None => False end ->
        (forall j n, best = Some (j, n) -> match best' with Some (_, b) => b <= n | None => False end) ->
        n = pick_ttl l best' ->
        match n with
        | None => best = None /\ (forall j x, (j, x) ∈ (k, e) :: l -> expires x = false)
        | Some (j, m) => (best = Some (j, m) \/ exists x, (j, x) ∈ (k, e) :: l /\ expires x = true /\ expAt x = m) /\
            (forall i x, (i, x) ∈ (k, e) :: l -> expires x = true -> m <= expAt x) /\
            (forall i n, best = Some (i, n) -> m <= n)
        end) as G.
    { intros best' n Hb Hle Hold ->. specialize (IH best'). destruct (pick_ttl l best') as [[j m]|].
      - destruct IH as (I1 & I2 & I3). destruct best' as [[b1 b2]|]; [|done]. specialize (I3 _ _ eq_refl). split_and!.
        + destruct I1 as [I1|(x & Hx & Ht & Hm)].
          * destruct Hb as [Hb|Hb]; [|left; congruence]. right. exists e. simplify_eq. split; [by left | done].
          * right. exists x. split; [by right | done].
        + intros i x [Hx|Hx]%elem_of_cons Ht; [simplify_eq; lia | by apply (I2 i)].
        + intros i n Hbn. specialize (Hold _ _ Hbn). lia.
      - destruct IH as [-> _]. done. }
    destruct best as [[b1 b2]|] eqn:B.
    + destruct (expAt e <? b2) eqn:L; breflect; eapply G; try reflexivity; cbn; auto; try lia;
        intros ? ? [= -> ->]; lia.
    + eapply G; try reflexivity; cbn; auto; try lia; done.
  - specialize (IH best). destruct (pick_ttl l best) as [[j m]|].
    + destruct IH as (I1 & I2 & I3). split_and!; [|intros i x [Hx|Hx]%elem_of_cons Ht; [congruence|by apply (I2 i)]|done].
      destruct I1 as [I1|(x & Hx & Hr)]; [by left|]. right. exists x. split; [by right|done].
    + destruct IH as [I1 I2]. split; [done|]. intros i x [Hx|Hx]%elem_of_cons; [by simplify_eq | by apply (I2 i)].
Qed.

Lemma pick_random_spec vol t n l best k :
  pick_random vol t n l best = Some k ->
  best = Some k \/ exists e, (k, e) ∈ l /\ (vol = true -> expires e = true).
Proof.
  revert t n best; induction l as [|[j e] l IH]; intros t n best; cbn [pick_random]; [by left|].
  destruct (vol && negb (expires e)) eqn:V.
  - intros E. destruct (IH _ _ _ E) as [?|(x & Hx & ?)]; [by left|]. right. exists x. split; [by right|done].
  - intros E. destruct (IH _ _ _ E) as [Hb|(x & Hx & ?)].
    + destruct (rand_intn t (n + 1) =? 0); [|by left]. simplify_eq. right. exists e. split; [by left|].
      intros ->. by destruct (expires e).
    + right. exists x. split; [by right|done].
Qed.

Lemma pick_sample_elem worse cs k :
  pick_sample worse cs = Some k -> exists e, (k, e) ∈ cs.
Proof.
  destruct cs as [|v cs]; cbn; [done|]. intros [= <-].
  assert (foldl (fun v c => if worse c v then c else v) v cs ∈ v :: cs) as Hin.
  { revert v; induction cs as [|c cs IH]; intros v; cbn; [by left|].
    specialize (IH (if worse c v then c else v)). apply elem_of_cons in IH as [->|IH]; [|by right; right].
    destruct (worse c v); [right; left | left]. }
  destruct (foldl _ _ _) as [a e]. by exists e.
Qed.

Lemma candidates_elem vol l k e :
  (k, e) ∈ candidates vol l -> (k, e) ∈ l /\ (vol = true -> expires e = true).
Proof.
  unfold candidates. intros (i & Hi & _)%elem_of_take.
  apply list_elem_of_lookup_2, list_elem_of_In, filter_In in Hi as [Hin Hf].
  split; [by apply list_elem_of_In|]. intros ->. cbn in Hf. by destruct (expires e).
Qed.

(** The victim is a tracked key, with a TTL under the volatile policies. *)
Lemma victim_spec p k :
  victim p = Some k ->
  exists e, lru p !! k = Some e /\ (HasPrefix (Policy p) (lit "volatile-") = true -> expires e = true).
Proof.
  unfold victim. destruct (bytes_eqb _ (lit "noeviction")); [done|].
  destruct (bytes_eqb_spec (Policy p) (lit "volatile-ttl")) as [Ep|].
  { intros Hv. apply fmap_Some in Hv as ([j m] & Hp & ->). pose proof (pick_ttl_spec (ranged p) None) as G.
    rewrite Hp in G. destruct G as ([?|(e & He & Hx & _)] & _); [done|]. exists e.
    split; [by apply ranged_elem | done]. }
  destruct (_ || _).
  { intros Hv. apply pick_random_spec in Hv as [?|(e & He & Hx)]; [done|]. exists e.
    split; [by apply ranged_elem | done]. }
  destruct (HasSuffix _ _); intros Hv; apply pick_sample_elem in Hv as (e & He);
    apply candidates_elem in He as [He Hx]; exists e; (split; [by apply ranged_elem | done]).
Qed.

Lemma pick_random_none vol t n l best :
  0 <= n -> pick_random vol t n l best = None ->
  best = None /\ (n = 0 -> forall k e, (k, e) ∈ l -> vol = true /\ expires e = false).
Proof.
  revert t n best; induction l as [|[j e] l IH]; intros t n best Hn; cbn [pick_random].
  { intros ->. split; [done|]. by intros _ ? ? ?%not_elem_of_nil. }
  destruct (vol && negb (expires e)) eqn:V; intros E.
  - destruct (IH _ _ _ Hn E) as [-> Hl]. split; [done|]. intros Hz k x [Hx|Hx]%elem_of_cons; [|by apply (Hl Hz k)].
    simplify_eq. breflect. done.
  - apply IH in E as [Hb _]; [|lia]. destruct (rand_intn t (n + 1) =? 0) eqn:R; [done|].
    split; [done|]. intros ->. pose proof (rand_intn_range t 1 ltac:(lia)). rewrite Z.add_0_l in R. breflect. lia.
Qed.

Definition eligible p (e : lruEntry) : Prop := HasPrefix (Policy p) (lit "volatile-") = true -> expires e = true.

(** No victim: eviction is off, or no tracked key is eligible. *)
Lemma victim_none p k e :
  victim p = None -> lru p !! k = Some e -> Policy p = lit "noeviction" \/ ~ eligible p e.
Proof.
  unfold victim, eligible. destruct (bytes_eqb_spec (Policy p) (lit "noeviction")) as [?|_]; [by left|].
  intros Hv He. right. intros Hel. apply ranged_elem in He. revert Hv.
  destruct (bytes_eqb_spec (Policy p) (lit "volatile-ttl")) as [Ep|].
  { rewrite Ep in Hel. pose proof (pick_ttl_spec (ranged p) None) as G. destruct (pick_ttl _ _) as [[? ?]|]; [done|].
    destruct G as [_ G]. intros _. specialize (G k e He). rewrite Hel in G by done. done. }
  assert (negb (HasPrefix (Policy p) (lit "volatile-") && negb (expires e)) = true) as Hf.
  { destruct (HasPrefix _ _); [by rewrite Hel | done]. }
  destruct (_ || _).
  { intros Hv. apply pick_random_none in Hv as [_ G]; [|lia]. destruct (G eq_refl k e He) as [G1 G2].
    rewrite G1, G2 in Hf. done. }
  assert (forall worse, pick_sample worse (candidates (HasPrefix (Policy p) (lit "volatile-")) (ranged p)) = None -> False) as G.
  { intros worse. unfold pick_sample, candidates, evictSampleN.
    assert ((k, e) ∈ List.filter (fun c => negb (HasPrefix (Policy p) (lit "volatile-") && negb (expires c.2))) (ranged p)) as Hin.
    { apply list_elem_of_In, filter_In. split; [by apply list_elem_of_In | done]. }
    destruct (List.filter _ _) as [|x l]; [by apply not_elem_of_nil in Hin | done]. }
  destruct (HasSuffix _ _); apply G.
Qed.

(** ** Evictions *)

(** [p'] is [p] after evicting the keys [ks], in this order. *)
Record evictions p (ks : list bytes) p' : Prop := {
  ev_view : view p' = foldl (fun m k => delete k m) (view p) ks;
  ev_lru : lru p' = foldl (fun m k => delete k m) (lru p) ks;
  ev_ok : ok p -> ok p';
  ev_keys : Forall (fun k => exists e, lru p !! k = Some e /\ eligible p e) ks;
  ev_published : published p' = published p ++ (if has_hub p then map del_op ks else []);
  ev_hooks : hooks p' = hooks p ++ map HEvict ks;
  ev_count : evicted p' = evicted p + len ks;
  ev_max : maxBytes p' = maxBytes p;
  ev_policy : policy p' = policy p;
  ev_hub : has_hub p' = has_hub p;
}.

Lemma evictions_nil p : evictions p [] p.
Proof.
  constructor; try done; [destruct (has_hub p); by rewrite app_nil_r | by rewrite app_nil_r | rewrite len_nil; lia].
Qed.

Lemma evictions_step p k e :
  lru p !! k = Some e -> eligible p e ->
  exists p', deleteInternal None p k = (Ok (), p') /\
    evictions p [k] (call_hook (add_evicted p') (HEvict k)).
Proof.
  intros He Hel. unfold deleteInternal. destruct (pdb_delete_ok (writeOptions p) (db p) k) as (d & -> & Hv).
  eexists. split; [done|]. unfold trackDelete. change (lru (set_db p d)) with (lru p). rewrite He. unfold publish. cbn [has_hub set_lru set_db].
  destruct (has_hub p) eqn:Hh; constructor; cbn; rewrite ?Hh, ?app_nil_r; try done.
  1, 3: unfold ok, view; cbn; intros Hok; rewrite Hv; by apply coherent_delete.
  all: apply Forall_singleton; by exists e.
Qed.

Lemma evictions_cons p k p1 ks p2 : evictions p [k] p1 -> evictions p1 ks p2 -> evictions p (k :: ks) p2.
Proof.
  intros [A1 A2 A3 A4 A5 A6 A7 A8 A9 A10] [B1 B2 B3 B4 B5 B6 B7 B8 B9 B10]. constructor.
  - by rewrite B1, A1.
  - by rewrite B2, A2.
  - auto.
  - inversion A4; subst. constructor; [done|]. eapply Forall_impl; [exact B4|]. intros j (e & Hj & Hel).
    exists e. rewrite A2 in Hj. cbn in Hj. apply lookup_delete_Some in Hj as [_ Hj].
    unfold eligible, Policy in *. by rewrite A9 in Hel.
  - rewrite B5, A5, A10, <- app_assoc. by destruct (has_hub p).
  - rewrite B6, A6, <- app_assoc. done.
  - rewrite B7, A7, len_cons, len_cons, len_nil. lia.
  - congruence.
  - congruence.
  - congruence.
Qed.

Lemma evictions_world p ks p' : evictions (step_world p) ks p' -> evictions p ks p'.
Proof. intros [A1 A2 A3 A4 A5 A6 A7 A8 A9 A10]. by constructor. Qed.

Lemma evictOne_spec p :
  (exists k p', evictOne None p = (true, p') /\ evictions p [k] p') \/
  (evictOne None p = (false, step_world p) /\ victim (step_world p) = None).
Proof.
  unfold evictOne. destruct (victim (step_world p)) as [k|] eqn:V; [|by right]. left.
  destruct (victim_spec _ _ V) as (e & He & Hel).
  destruct (evictions_step (step_world p) k e He Hel) as (p' & -> & Hev).
  exists k. eexists. split; [done|]. by apply evictions_world.
Qed.

Lemma evict_loop_spec fuel p delta :
  (base.size (lru p) < fuel)%nat ->
  exists ks p', evictions p ks p' /\
    ((evict_loop fuel None p delta = (Ok (), p') /\ usedBytes p' + delta <= maxBytes p) \/
     (evict_loop fuel None p delta = (Err EOOM, step_world p') /\ maxBytes p < usedBytes p' + delta /\
      victim (step_world p') = None)).
Proof.
  revert p; induction fuel as [|f IH]; intros p Hf; [lia|]. cbn [evict_loop].
  destruct (maxBytes p <? usedBytes p + delta) eqn:E; breflect.
  2: { exists [], p. split; [apply evictions_nil|]. left. done. }
  destruct (evictOne_spec p) as [(k & p1 & -> & Hev)|[-> Hv]].
  - destruct (IH p1) as (ks & p2 & Hev2 & Hr).
    { rewrite (ev_lru _ _ _ Hev). cbn. pose proof (ev_keys _ _ _ Hev) as Hk. inversion Hk as [|? ? (e & He & _)]; subst.
      rewrite map_size_delete_Some by eauto. assert (base.size (lru p) <> 0%nat); [|lia].
      eapply map_size_ne_0_lookup_2. by eauto. }
    exists (k :: ks), p2. split; [by eapply evictions_cons|]. by rewrite <- (ev_max _ _ _ Hev).
  - exists [], p. split; [apply evictions_nil|]. by right.
Qed.

Lemma reserve_spec p delta :
  exists ks p', evictions p ks p' /\
    ((evictForDelta None p delta = (Ok (), p') /\ (0 < maxBytes p -> usedBytes p' + delta <= maxBytes p)) \/
     (evictForDelta None p delta = (Err EOOM, step_world p') /\ 0 < maxBytes p < usedBytes p' + delta /\
      victim (step_world p') = None)).
Proof.
  unfold evictForDelta. destruct (0 <? maxBytes p) eqn:E; breflect.
  - destruct (evict_loop_spec (S (base.size (lru p))) p delta ltac:(lia)) as (ks & p' & Hev & [[Hr Hb]|(Hr & Hb & Hv)]);
      exists ks, p'; (split; [done|]); rewrite Hr; [left | right]; done.
  - exists [], p. split; [apply evictions_nil|]. left. split; [done|]. lia.
Qed.

Lemma reserve_unlimited p delta : maxBytes p <= 0 -> evictForDelta None p delta = (Ok (), p).
Proof. intros. unfold evictForDelta. zdec. done. Qed.

(** ** The operations *)

Lemma trackSet_coherent V p k v :
  coherent V (lru p) (usedBytes p) ->
  coherent (<[k := v]> V) (lru (trackSet p k v)) (usedBytes (trackSet p k v)) /\
  usedBytes (trackSet p k v) = usedBytes p + deltaFor p k (len k + len v).
Proof.
  intros Hc. unfold trackSet, deltaFor. rewrite expiry_ea. cbn. set (e := mkLru _ _ _ _ _). split.
  - pose proof (coherent_insert V (lru p) (usedBytes p) k v e Hc eq_refl eq_refl eq_refl) as G.
    destruct (lru p !! k); [exact G|]. cbn in G. by rewrite Z.sub_0_r in G.
  - destruct (lru p !! k); lia.
Qed.

Lemma trackDelete_coherent V p k :
  coherent V (lru p) (usedBytes p) ->
  coherent (delete k V) (lru (trackDelete p k)) (usedBytes (trackDelete p k)).
Proof.
  intros Hc. unfold trackDelete. destruct (lru p !! k) eqn:E; [by apply coherent_delete | by apply coherent_delete_db].
Qed.

Lemma storage_publish_fields p op :
  view (publish p op) = view p /\ lru (publish p op) = lru p /\ usedBytes (publish p op) = usedBytes p /\
  has_hub (publish p op) = has_hub p /\ maxBytes (publish p op) = maxBytes p /\
  published (publish p op) = published p ++ (if has_hub p then [op] else []).
Proof. unfold publish. destruct (has_hub p) eqn:E; cbn; rewrite ?app_nil_r; done. Qed.

Definition set_done p k v p2 : Prop :=
  view p2 = <[k := v]> (view p) /\ (ok p -> ok p2) /\
  published p2 = published p ++ (if has_hub p then [set_op k v] else []) /\
  (ok p -> usedBytes p2 = usedBytes p + deltaFor p k (len k + len v)) /\ maxBytes p2 = maxBytes p.

Lemma Set_spec p k v :
  exists ks p1, evictions p ks p1 /\
    ((exists p2, Set_ None p k v = (Ok (), p2) /\ set_done p1 k v p2 /\
        (0 < maxBytes p -> usedBytes p1 + deltaFor p k (len k + len v) <= maxBytes p)) \/
     (Set_ None p k v = (Err EOOM, step_world p1) /\
      0 < maxBytes p < usedBytes p1 + deltaFor p k (len k + len v) /\ victim (step_world p1) = None)).
Proof.
  destruct (reserve_spec p (deltaFor p k (len k + len v))) as (ks & p1 & Hev & [[Hr Hb]|(Hr & Hb & Hv)]);
    exists ks, p1; (split; [done|]); unfold Set_; rewrite Hr; [left | by right].
  destruct (pdb_set_ok (writeOptions p1) (db p1) k v) as (d & -> & Hd).
  eexists. split; [reflexivity|]. split; [|done]. unfold set_done.
  destruct (storage_publish_fields (call_hook (trackSet (set_db p1 d) k v) (HChange "s" k)) (set_op k v)) as (F1 & F2 & F3 & F4 & F5 & F6).
  rewrite F1, F5, F6. unfold ok at 2. rewrite F1, F2, F3.
  change (view (call_hook (trackSet (set_db p1 d) k v) (HChange "s" k))) with (view (trackSet (set_db p1 d) k v)).
  change (lru (call_hook _ _)) with (lru (trackSet (set_db p1 d) k v)).
  change (usedBytes (call_hook _ _)) with (usedBytes (trackSet (set_db p1 d) k v)).
  assert (view (trackSet (set_db p1 d) k v) = <[k := v]> (view p1)) as Hview.
  { unfold trackSet. rewrite expiry_ea. exact Hd. }
  rewrite Hview. split_and!; [done| | |intros Hok; by apply (trackSet_coherent (view p1) (set_db p1 d))|];
    [intros Hok; by apply (trackSet_coherent (view p1) (set_db p1 d))|..];
    unfold trackSet; rewrite expiry_ea; done.
Qed.

Lemma deleteInternal_spec p k :
  exists p', deleteInternal None p k = (Ok (), p') /\ view p' = delete k (view p) /\ (ok p -> ok p') /\
    published p' = published p ++ (if has_hub p then [del_op k] else []) /\ maxBytes p' = maxBytes p.
Proof.
  unfold deleteInternal. destruct (pdb_delete_ok (writeOptions p) (db p) k) as (d & -> & Hd).
  eexists. split; [reflexivity|].
  destruct (storage_publish_fields (trackDelete (set_db p d) k) (del_op k)) as (F1 & F2 & F3 & F4 & F5 & F6).
  rewrite F1, F5, F6. unfold ok at 2. rewrite F1, F2, F3.
  assert (view (trackDelete (set_db p d) k) = delete k (view p)) as ->.
  { unfold trackDelete. cbn. destruct (lru p !! k); exact Hd. }
  split_and!; [done | intros Hok; by apply (trackDelete_coherent (view p) (set_db p d)) |..];
    unfold trackDelete; cbn; by destruct (lru p !! k).
Qed.

Lemma Get_spec p k :
  exists p', Get None p k = (match view p !! k with Some v => Ok v | None => Err ENotFound end, p') /\
    view p' = view p /\ (ok p -> ok p') /\ published p' = published p /\ maxBytes p' = maxBytes p /\
    usedBytes p' = usedBytes p.
Proof.
  unfold Get. rewrite pdb_get_ok. unfold view. destruct (pdb_view (db p) !! k) as [v|]; [|by exists p].
  eexists. split; [reflexivity|]. unfold trackGet, ok, view. destruct (lru p !! k) as [e|] eqn:E; cbn; split_and!; try done.
  intros Hok. by apply coherent_touch.
Qed.

Lemma track_ops_coherent V p ops :
  coherent V (lru p) (usedBytes p) ->
  coherent (batch_apply V ops) (lru (foldl track_op p ops)) (usedBytes (foldl track_op p ops)).
Proof.
  unfold batch_apply. revert V p; induction ops as [|op ops IH]; intros V p Hc; cbn; [done|]. apply IH.
  unfold track_op, batch_step. destruct (bDelete op); cbn; [by apply trackDelete_coherent|].
  by apply (trackSet_coherent V p).
Qed.

Lemma track_ops_fields p ops :
  let q := foldl track_op p ops in
  db q = db p /\ maxBytes q = maxBytes p /\ published q = published p /\ has_hub q = has_hub p.
Proof.
  revert p; induction ops as [|op ops IH]; intros p; cbn; [done|].
  destruct (IH (track_op p op)) as (-> & -> & -> & ->).
  unfold track_op, trackDelete, trackSet. rewrite expiry_ea. destruct (bDelete op); cbn; [|done].
  destruct (lru p !! bKey op); done.
Qed.

Lemma publish_ops_fields p ops :
  let q := foldl (fun p op => publish p (batch_op op)) p ops in
  view q = view p /\ lru q = lru p /\ usedBytes q = usedBytes p /\ maxBytes q = maxBytes p /\
  published q = published p ++ (if has_hub p then map batch_op ops else []).
Proof.
  revert p; induction ops as [|op ops IH]; intros p; cbn.
  { destruct (has_hub p); by rewrite app_nil_r. }
  destruct (IH (publish p (batch_op op))) as (-> & -> & -> & -> & ->).
  destruct (storage_publish_fields p (batch_op op)) as (-> & -> & -> & -> & -> & ->).
  split_and!; try done. destruct (has_hub p); by rewrite <- app_assoc.
Qed.

Lemma stage_all_ok ops : stage_all ops = Ok ().
Proof. induction ops as [|op ops IH]; cbn; [done|]. by rewrite pdb_stage_ok. Qed.

(** A batch: the reservation evicts [ks1], the commit applies the batch, the
    trailing check evicts [ks2] before anything is published. *)
Lemma WriteBatch_spec p ops :
  ops <> [] ->
  exists ks1 p1, evictions p ks1 p1 /\
    ((exists pc ks2 p2, view pc = batch_apply (view p1) ops /\ published pc = published p1 /\
        maxBytes pc = maxBytes p1 /\ has_hub pc = has_hub p1 /\
        (ok p1 -> ok pc) /\ evictions pc ks2 p2 /\
        ((exists p3, WriteBatch None p ops = (Ok (), p3) /\ view p3 = view p2 /\ (ok p2 -> ok p3) /\
            published p3 = published p2 ++ (if has_hub p2 then map batch_op ops else []) /\
            usedBytes p3 = usedBytes p2 /\ maxBytes p3 = maxBytes p2 /\
            (0 < maxBytes p -> usedBytes p3 <= maxBytes p)) \/
         WriteBatch None p ops = (Err EOOM, step_world p2))) \/
     WriteBatch None p ops = (Err EOOM, step_world p1)).
Proof.
  intros Hne. destruct (reserve_spec p (batch_delta p (rev ops) ∅ 0)) as (ks1 & p1 & Hev & Hr).
  exists ks1, p1. split; [done|].
  assert (forall r : result unit * Pebble D, WriteBatch None p ops = r <->
    (match evictForDelta None p (batch_delta p (rev ops) ∅ 0) with
     | (Ok _, p) => match pdb_commit (writeOptions p) ops (db p) with
        | Ok d => match evictIfNeeded None (foldl track_op (set_db p d) ops) with
            | (Ok _, p) => (Ok (), foldl (fun p op => publish p (batch_op op)) p ops)
            | (e, p) => (e, p) end
        | Err _ => (fail "storage: batch commit", p)
        | Panic => (Panic, p) end
     | (e, p) => (e, p) end) = r) as Eq.
  { intros r. unfold WriteBatch. rewrite stage_all_ok. by destruct ops. }
  destruct Hr as [[Hr _]|(Hr & _ & _)]; [|right; apply Eq; by rewrite Hr]. left.
  destruct (pdb_commit_ok (writeOptions p1) (db p1) ops) as (d & Hd & Hview).
  set (pc := foldl track_op (set_db p1 d) ops).
  destruct (track_ops_fields (set_db p1 d) ops) as (T1 & T2 & T3 & T4). fold pc in T1, T2, T3, T4.
  destruct (reserve_spec pc 0) as (ks2 & p2 & Hev2 & Hr2). exists pc, ks2, p2.
  assert (view pc = batch_apply (view p1) ops) as Hvc by (unfold view; rewrite T1; exact Hview).
  split_and!; try done.
  { intros Hok. unfold ok. rewrite Hvc. by apply track_ops_coherent. }
  destruct Hr2 as [[Hr2 Hb2]|(Hr2 & _ & _)].
  - left. destruct (publish_ops_fields p2 ops) as (P1 & P2 & P3 & P4 & P5). eexists. split.
    { apply Eq. rewrite Hr, Hd. unfold evictIfNeeded. fold pc. by rewrite Hr2. }
    split_and!; [done | unfold ok; by rewrite P1, P2, P3 | done | done | done |].
    intros Hm. rewrite P3. pose proof (ev_max _ _ _ Hev) as M. cbn in T2. rewrite T2, M in Hb2. specialize (Hb2 Hm). lia.
  - right. apply Eq. rewrite Hr, Hd. unfold evictIfNeeded. fold pc. by rewrite Hr2.
Qed.

(** ** Scans *)

Lemma take_prefix_sorted prefix l :
  StronglySorted (fun a b => bytes_ltb b a = false) l ->
  take_prefix prefix (List.filter (fun x => negb (bytes_ltb x prefix)) l) = List.filter (fun k => HasPrefix k prefix) l.
Proof.
  induction 1 as [|x l Hl IH Hx]; cbn; [done|].
  destruct (bytes_ltb x prefix) eqn:L; cbn.
  - destruct (HasPrefix x prefix) eqn:P; [|done]. apply HasPrefix_nlt in P. congruence.
  - destruct (HasPrefix x prefix) eqn:P; [by rewrite IH|]. clear IH Hl. induction Hx as [|y l Hy Hl IH]; cbn; [done|].
    by rewrite (HasPrefix_interval prefix x y).
Qed.

Lemma Scan_spec p prefix : Scan None p prefix = Ok (keys_with prefix (view p)).
Proof.
  unfold Scan. rewrite pdb_iter_ok. f_equal. unfold keys_with, view.
  rewrite take_prefix_sorted by apply sortStrings_sorted. by rewrite sortStrings_filter.
Qed.

(** ** The engine without a memory limit implements the store interface *)

#[export] Instance pebble_kv : KV (Pebble D) := {|
  kv_get k p := Get None (set_limit p 0) k;
  kv_set k v p := Set_ None (set_limit p 0) k v;
  kv_delete k p := Delete None (set_limit p 0) k;
  kv_scan prefix p := (Scan None (set_limit p 0) prefix, p);
  kv_write_batch ops p := WriteBatch None (set_limit p 0) ops;
|}.

Lemma evictions_unlimited p delta : maxBytes p <= 0 -> evictForDelta None p delta = (Ok (), p).
Proof. intros. unfold evictForDelta. by zdec. Qed.

Lemma Set_unlimited p k v :
  maxBytes p <= 0 -> exists p', Set_ None p k v = (Ok (), p') /\ view p' = <[k := v]> (view p).
Proof.
  intros Hm. unfold Set_. rewrite evictions_unlimited by done.
  destruct (pdb_set_ok (writeOptions p) (db p) k v) as (d & -> & Hd). eexists. split; [reflexivity|].
  destruct (storage_publish_fields (call_hook (trackSet (set_db p d) k v) (HChange "s" k)) (set_op k v)) as (-> & _).
  unfold trackSet. rewrite expiry_ea. exact Hd.
Qed.

Lemma WriteBatch_unlimited p ops :
  maxBytes p <= 0 -> exists p', WriteBatch None p ops = (Ok (), p') /\ view p' = batch_apply (view p) ops.
Proof.
  intros Hm. unfold WriteBatch. rewrite stage_all_ok, evictions_unlimited by done.
  destruct (pdb_commit_ok (writeOptions p) (db p) ops) as (d & -> & Hd).
  destruct (track_ops_fields (set_db p d) ops) as (T1 & T2 & T3 & T4).
  unfold evictIfNeeded. rewrite evictions_unlimited by (rewrite T2; done).
  destruct ops as [|op ops]; [by exists p|]. eexists. split; [reflexivity|].
  destruct (publish_ops_fields (foldl track_op (set_db p d) (op :: ops)) (op :: ops)) as (-> & _).
  unfold view at 1. rewrite T1. exact Hd.
Qed.

#[export] Instance pebble_kv_laws : KVLaws (Pebble D).
Proof.
  apply (Build_KVLaws _ _ view); intros s; cbn [kv_get kv_set kv_delete kv_scan kv_write_batch pebble_kv].
  - intros k. destruct (Get_spec (set_limit s 0) k) as (p' & -> & _). done.
  - intros k. destruct (Get_spec (set_limit s 0) k) as (p' & -> & Hv & _). exact Hv.
  - intros k v. destruct (Set_unlimited (set_limit s 0) k v) as (p' & -> & _); done.
  - intros k v. destruct (Set_unlimited (set_limit s 0) k v) as (p' & -> & Hv); done.
  - intros k. unfold Delete. destruct (deleteInternal_spec (set_limit s 0) k) as (p' & -> & _). done.
  - intros k. unfold Delete. destruct (deleteInternal_spec (set_limit s 0) k) as (p' & -> & Hv & _). exact Hv.
  - intros q. exact (Scan_spec (set_limit s 0) q).
  - done.
  - intros ops. destruct (WriteBatch_unlimited (set_limit s 0) ops) as (p' & -> & _); done.
  - intros ops. destruct (WriteBatch_unlimited (set_limit s 0) ops) as (p' & -> & Hv); done.
Defined.

End laws.
(** ** Concrete instances *)

#[export] Instance map_pebble : PebbleDB (gmap bytes bytes) := {|
  pdb_get k m := match m !! k with Some v => Ok v | None => Err ENotFound end;
  pdb_set _ k v m := Ok (<[k := v]> m);
  pdb_delete _ k m := Ok (delete k m);
  pdb_stage _ := Ok ();
  pdb_commit _ ops m := Ok (batch_apply m ops);
  pdb_iter k m := Ok (List.filter (fun x => negb (bytes_ltb x k)) (sortStrings (map fst (map_to_list m))));
|}.

#[export] Instance map_pebble_laws : PebbleLaws (gmap bytes bytes).
Proof. apply (Build_PebbleLaws _ _ id); intros; cbn; eauto. Defined.

(** A clock that stands still, ranges in the map's own order, draws of zero. *)
Definition still_world : GoWorld := {|
  clock_sec := fun _ => 0; range_lru := fun _ m => map fst (map_to_list m); rand_intn := fun _ _ => 0;
|}.

Lemma still_world_laws : @GoWorldLaws still_world.
Proof. constructor; cbn; [done|lia]. Qed.

Definition empty_engine (hub : bool) (limit : Z) : Pebble (gmap bytes bytes) :=
  mkPebble ∅ false hub ∅ 0 limit [] 0 [] [] 0.

Lemma empty_engine_ok hub limit : ok (empty_engine hub limit).
Proof. split; [symmetry; apply total_empty|]. intros k e He. cbn [lru empty_engine] in He. by rewrite lookup_empty in He. Qed.

(** ** Properties *)

Section properties.
Context {D : Type} `{PebbleLaws D} `{GoWorldLaws}.
Implicit Types p : Pebble D.

(** C3: the memory account is exact: used bytes are the sum of the tracked
    sizes, every tracked key is stored with that size and expiry, and every
    operation (reads, writes, deletes, batches, with whatever evictions they
    trigger, failing or not) keeps it so. *)
Theorem account_invariant p k v ops :
  ok p ->
  ok (Get None p k).2 /\ ok (Set_ None p k v).2 /\ ok (Delete None p k).2 /\ ok (WriteBatch None p ops).2.
Proof.
  intros Hok. split_and!.
  - destruct (Get_spec p k) as (p' & -> & _ & Hp & _). auto.
  - destruct (Set_spec p k v) as (ks & p1 & Hev & [(p2 & -> & (_ & Hp & _) & _)|(-> & _)]); cbn; [apply Hp|]; by apply Hev.
  - unfold Delete. destruct (deleteInternal_spec p k) as (p' & -> & _ & Hp & _). cbn. by apply Hp.
  - destruct ops as [|op ops]; [done|].
    destruct (WriteBatch_spec p (op :: ops) ltac:(done)) as (ks1 & p1 & Hev & [(pc & ks2 & p2 & _ & _ & _ & _ & Hc & Hev2 & Hr)| ->]);
      [|by apply (ev_ok _ _ _ Hev)].
    assert (ok p2) as Hok2 by (apply (ev_ok _ _ _ Hev2), Hc, (ev_ok _ _ _ Hev), Hok).
    destruct Hr as [(p3 & -> & _ & Hp & _)| ->]; cbn; auto.
Qed.

(** C4: Set, in full.  It always returns (the eviction loop ends), and either
    succeeds after evicting some tracked keys that the policy allows, having
    stored exactly the new value and published every eviction and then the
    write; or fails with ErrOOM without writing, when the reservation does not
    fit and no tracked key is eligible. *)
Theorem set_outcome p k v :
  exists ks p1, evictions p ks p1 /\
    ((exists p2, Set_ None p k v = (Ok (), p2) /\
        view p2 = <[k := v]> (foldl (fun m j => delete j m) (view p) ks) /\
        published p2 = published p ++ (if has_hub p then map del_op ks ++ [set_op k v] else [])) \/
     (Set_ None p k v = (Err EOOM, step_world p1) /\
      view p1 = foldl (fun m j => delete j m) (view p) ks /\
      maxBytes p < usedBytes p1 + deltaFor p k (len k + len v) /\
      (forall j e, lru p1 !! j = Some e -> Policy p = lit "noeviction" \/ ~ eligible p e))).
Proof.
  destruct (Set_spec p k v) as (ks & p1 & Hev & [(p2 & Hs & (Hv & _ & Hp & _) & _)|(Hs & Hb & Hn)]);
    exists ks, p1; (split; [done|]); [left | right].
  - exists p2. split; [done|]. rewrite Hv, Hp, (ev_view _ _ _ Hev), (ev_published _ _ _ Hev), (ev_hub _ _ _ Hev).
    split; [done|]. destruct (has_hub p); by rewrite <- app_assoc.
  - split; [done|]. split; [apply Hev|]. split; [lia|]. intros j e He.
    pose proof (victim_none (step_world p1) j e Hn He) as G. unfold eligible, Policy in *. cbn in G.
    by rewrite (ev_policy _ _ _ Hev) in G.
Qed.

(** The limit holds for new keys: after a successful Set of a key that
    was not tracked, the used bytes are within a positive limit. *)
Theorem set_within_limit p k v p2 :
  ok p -> lru p !! k = None -> 0 < maxBytes p -> Set_ None p k v = (Ok (), p2) ->
  usedBytes p2 <= maxBytes p.
Proof.
  intros Hok Hk Hm E. destruct (Set_spec p k v) as (ks & p1 & Hev & [(q & Hs & (_ & _ & _ & Hu & _) & Hb)|(Hs & _)]);
    rewrite E in Hs; [|done]. simplify_eq. specialize (Hb Hm). rewrite Hu by (by apply Hev).
  unfold deltaFor in *. rewrite Hk in Hb. destruct (lru p1 !! k) as [e|] eqn:He; [|done].
  assert (lru p !! k = Some e); [|congruence]. clear -Hev He. revert He. rewrite (ev_lru _ _ _ Hev).
  generalize (lru p). clear. induction ks as [|j ks IH]; intros m; cbn; [done|].
  intros E. apply IH, lookup_delete_Some in E. tauto.
Qed.

(** What the hub is told is what happened: after Get, Set or Delete the
    new content is the old one with the newly published operations applied in
    order, evictions included, so a replica that applies them stays equal. *)
Theorem published_mirrors_view p k v :
  has_hub p = true ->
  Forall (fun q => exists new, published q = published p ++ new /\ view q = replication.apply_ops (view p) new)
    [(Get None p k).2; (Set_ None p k v).2; (Delete None p k).2].
Proof.
  intros Hh.
  assert (forall m ks, foldl (fun m j => delete j m) m ks = replication.apply_ops m (map del_op ks)) as Hdel.
  { unfold replication.apply_ops. intros m ks; revert m; induction ks as [|j ks IH]; intros m; cbn; [done|]. by rewrite IH. }
  repeat apply Forall_cons_2; [| | |apply Forall_nil_2].
  - destruct (Get_spec p k) as (p' & -> & Hv & _ & Hp & _). exists []. by rewrite app_nil_r.
  - destruct (Set_spec p k v) as (ks & p1 & Hev & [(p2 & -> & (Hv & _ & Hp & _) & _)|(-> & _)]); cbn [snd].
    + exists (map del_op ks ++ [set_op k v]).
      rewrite Hp, Hv, (ev_view _ _ _ Hev), (ev_published _ _ _ Hev), (ev_hub _ _ _ Hev), Hh, Hdel.
      rewrite replication.apply_ops_app, <- app_assoc. done.
    + exists (map del_op ks). change (published (step_world p1)) with (published p1).
      change (view (step_world p1)) with (view p1). rewrite (ev_view _ _ _ Hev), (ev_published _ _ _ Hev), Hh, Hdel. done.
  - unfold Delete. destruct (deleteInternal_spec p k) as (p' & -> & Hv & _ & Hp & _). exists [del_op k].
    rewrite Hh in Hp. done.
Qed.

(** C5: the engine without a memory limit is a correct implementation of the
    store interface: on every sequence of reads, writes, deletes, prefix scans
    and batches it gives the answers of a finite map, and ends with its
    content. *)
Theorem engine_refines_map cs p :
  let '(answers, p') := kv_run cs p in
  let '(answers', m') := kv_run cs (view p) in
  answers = answers' /\ view p' = m'.
Proof.
  pose proof (kv_run_refines cs p) as [E1 E2]. cbn [kv_view pebble_kv_laws] in E1, E2.
  destruct (kv_run cs p), (kv_run cs (view p)). done.
Qed.

(** Under volatile-ttl the victim is a key whose expiry is the earliest of
    all tracked keys that have one; under noeviction there is never a victim;
    under every volatile policy the victim has an expiry. *)
Theorem victim_by_policy p k :
  victim p = Some k ->
  Policy p <> lit "noeviction" /\
  exists e, lru p !! k = Some e /\
    (HasPrefix (Policy p) (lit "volatile-") = true -> expires e = true) /\
    (Policy p = lit "volatile-ttl" -> forall j x, lru p !! j = Some x -> expires x = true -> expAt e <= expAt x).
Proof.
  intros Hv. split.
  { intros E. unfold victim in Hv. rewrite E in Hv. done. }
  destruct (decide (Policy p = lit "volatile-ttl")) as [Ep|N].
  - unfold victim in Hv. rewrite Ep in Hv. rewrite (bytes_eqb_neq (lit "volatile-ttl") (lit "noeviction")) in Hv by done.
    rewrite bytes_eqb_refl in Hv. apply fmap_Some in Hv as ([j m] & Hp & ->).
    pose proof (pick_ttl_spec (ranged p) None) as G. rewrite Hp in G.
    destruct G as ([?|(e & He & Hx & <-)] & Hmin & _); [done|]. exists e. split; [by apply ranged_elem|].
    split; [done|]. intros _ i x Hi. apply (Hmin i x). by apply ranged_elem.
  - destruct (victim_spec p k Hv) as (e & He & Hx). by exists e.
Qed.
End properties.

(** ** Runs *)

Definition run_set (p : Pebble (gmap bytes bytes)) (k v : bytes) : Pebble (gmap bytes bytes) :=
  (@Set_ _ map_pebble still_world None p k v).2.

(** A limit of 20 bytes, 15 of them used by two keys. *)
Definition small_engine : Pebble (gmap bytes bytes) :=
  run_set (run_set (empty_engine true 20) (lit "z") (lit "123456789")) (lit "k") (lit "1234").

Lemma small_engine_ok : @ok _ map_pebble map_pebble_laws small_engine.
Proof.
  unfold small_engine, run_set.
  assert (forall p k v, ok p -> ok (@Set_ _ map_pebble still_world None p k v).2) as G.
  { intros p k v Hok.
    destruct (@Set_spec _ map_pebble map_pebble_laws still_world still_world_laws p k v) as (ks & p1 & Hev & [(p2 & -> & (_ & Hp & _) & _)|(-> & _)]);
      cbn; [apply Hp|]; by apply Hev. }
  apply G, G, empty_engine_ok.
Qed.

Lemma account_invariant_witness :
  @ok _ map_pebble map_pebble_laws (run_set small_engine (lit "n") (lit "12")).
Proof.
  exact (proj1 (proj2 (@account_invariant _ map_pebble map_pebble_laws still_world still_world_laws
    small_engine (lit "n") (lit "12") [] small_engine_ok))).
Defined.

Lemma set_outcome_witness :
  exists ks p1, @evictions _ map_pebble map_pebble_laws small_engine ks p1 /\
    view (run_set small_engine (lit "n") (lit "1234567")) =
      <[lit "n" := lit "1234567"]> (foldl (fun m j => delete j m) (view small_engine) ks).
Proof.
  destruct (@set_outcome _ map_pebble map_pebble_laws still_world still_world_laws small_engine (lit "n") (lit "1234567"))
    as (ks & p1 & Hev & [(p2 & Hs & Hv & _)|[Hs _]]); [|vm_compute in Hs; discriminate].
  exists ks, p1. split; [exact Hev|]. unfold run_set. rewrite Hs. exact Hv.
Defined.

Lemma set_within_limit_witness :
  usedBytes (run_set small_engine (lit "n") (lit "1234567")) <= 20.
Proof.
  apply (@set_within_limit _ map_pebble map_pebble_laws still_world still_world_laws
           small_engine (lit "n") (lit "1234567") (run_set small_engine (lit "n") (lit "1234567")));
    [exact small_engine_ok | vm_compute; reflexivity..].
Defined.

Lemma published_mirrors_view_witness :
  exists new, published (run_set small_engine (lit "n") (lit "1234567")) = published small_engine ++ new /\
    db (run_set small_engine (lit "n") (lit "1234567")) = replication.apply_ops (db small_engine) new.
Proof.
  pose proof (@published_mirrors_view _ map_pebble map_pebble_laws still_world still_world_laws
    small_engine (lit "n") (lit "1234567") eq_refl) as H.
  apply Forall_inv_tail, Forall_inv in H. exact H.
Defined.

Lemma victim_by_policy_witness :
  Policy small_engine <> lit "noeviction".
Proof.
  refine (proj1 (@victim_by_policy _ still_world still_world_laws small_engine (lit "z") _)).
  vm_compute. reflexivity.
Defined.

(** The limit does not hold for an overwrite: when the key being
    overwritten is itself evicted to make room, its old size is subtracted
    twice, and a successful Set leaves more bytes used than the limit. *)
Theorem overwrite_exceeds_limit :
  exists (p p2 : Pebble (gmap bytes bytes)) k v,
    ok p /\ 0 < maxBytes p /\ is_Some (lru p !! k) /\
    @Set_ _ map_pebble still_world None p k v = (Ok (), p2) /\ maxBytes p2 < usedBytes p2.
Proof.
  exists small_engine, (run_set small_engine (lit "z") (lit "123456789012345678")), (lit "z"), (lit "123456789012345678").
  split; [exact small_engine_ok|]. split_and!; [vm_compute; reflexivity | vm_compute; eauto | vm_compute; reflexivity..].
Qed.

(** A batch is published after the trailing eviction: when that evicts a
    key of the batch, the hub hears the deletion first and the write last, so
    a replica keeps a key the master no longer has. *)
Theorem batch_published_out_of_order :
  exists (p p2 : Pebble (gmap bytes bytes)) ops k,
    ok p /\ db p = replication.apply_ops ∅ (published p) /\
    @WriteBatch _ map_pebble still_world None p ops = (Ok (), p2) /\
    db p2 !! k = None /\ is_Some (replication.apply_ops ∅ (published p2) !! k).
Proof.
  exists small_engine, (@WriteBatch _ map_pebble still_world None small_engine [mkBatchOp (lit "z") (lit "123456789012345678") false]).2,
    [mkBatchOp (lit "z") (lit "123456789012345678") false], (lit "z").
  split; [exact small_engine_ok|]. split_and!; [vm_compute; reflexivity.. | vm_compute; eauto].
Qed.

End storage.
