(* ===== verification/Cmd.v ===== *)
(** * Commands: the state a handler runs in

    A command handler of src/internal/commands runs against the store, reads
    the clock, publishes keyspace notifications and counts expired keys.  The
    state monad [M] threads these through: [Err] is a Go error returned by a
    helper, [Panic] a run-time panic.  Handlers are written over the store
    interface [KV]; [sim] relates a handler over any lawful store to the same
    handler over the plain map, so that the functional theorems are proved on
    the map and hold for the engine. *)

From S2P Require Import Prelude GoLib GoStrings Resp Codec Kv.
Open Scope Z_scope.
Open Scope gedis_scope.

(** [time.Now().UnixNano()], by reading number. *)
Class Clock : Type := { clock_ns : nat -> Z }.

(** One call of Notify(class, event, key). *)
Record event : Type := mkEvent { ev_class : ascii; ev_name : bytes; ev_key : bytes }.

(** [w_tick]: clock readings so far; [w_expired]: stats.IncExpired calls. *)
Record world (S : Type) : Type := mkWorld {
  w_kv : S; w_tick : nat; w_events : list event; w_expired : Z;
}.
Arguments mkWorld {S}. Arguments w_kv {S}. Arguments w_tick {S}. Arguments w_events {S}. Arguments w_expired {S}.

Definition M (S A : Type) : Type := world S -> result A * world S.

Definition mret {S A} (a : A) : M S A := fun w => (Ok a, w).
Definition merr {S A} (e : goerr) : M S A := fun w => (Err e, w).
Definition mpanic {S A} : M S A := fun w => (Panic, w).
Definition mbind {S A B} (m : M S A) (k : A -> M S B) : M S B := fun w =>
  match m w with
  | (Ok a, w') => k a w'
  | (Err e, w') => (Err e, w')
  | (Panic, w') => (Panic, w')
  end.

Notation "'let!' x := m 'in' k" := (mbind m (fun x => k))
  (at level 10, x pattern, m at level 100, k at level 200) : gedis_scope.

(** [v, err := m]: the error becomes a value. *)
Definition attempt {S A} (m : M S A) : M S (A + goerr) := fun w =>
  match m w with
  | (Ok a, w') => (Ok (inl a), w')
  | (Err e, w') => (Ok (inr e), w')
  | (Panic, w') => (Panic, w')
  end.

Definition lift {S A} (r : result A) : M S A := fun w => (r, w).

Section prims.
Context {S : Type} `{KV S} `{Clock}.

Definition now : M S Z := fun w =>
  (Ok (clock_ns (w_tick w)), mkWorld (w_kv w) (Datatypes.S (w_tick w)) (w_events w) (w_expired w)).

Definition Notify (class : ascii) (name : bytes) (key : bytes) : M S unit := fun w =>
  (Ok (), mkWorld (w_kv w) (w_tick w) (w_events w ++ [mkEvent class name key]) (w_expired w)).

Definition IncExpired : M S unit := fun w =>
  (Ok (), mkWorld (w_kv w) (w_tick w) (w_events w) (w_expired w + 1)).

Definition on_kv {A} (f : S -> result A * S) : M S A := fun w =>
  let '(r, s) := f (w_kv w) in (r, mkWorld s (w_tick w) (w_events w) (w_expired w)).

Definition kvGet (k : bytes) : M S bytes := on_kv (kv_get k).
Definition kvSet (k v : bytes) : M S unit := on_kv (kv_set k v).
Definition kvDelete (k : bytes) : M S unit := on_kv (kv_delete k).
Definition kvScan (p : bytes) : M S (list bytes) := on_kv (kv_scan p).
Definition kvWriteBatch (ops : list BatchOp) : M S unit := on_kv (kv_write_batch ops).

End prims.

(** [_ = m]: the error is dropped. *)
Definition ignore {S A} (m : M S A) : M S unit := let! _ := attempt m in mret ().

(** ** Replies *)

Definition errValueStr (msg : bytes) : Value := VError msg.
Definition errS (msg : string) : Value := VError (lit msg).
Arguments errS _%_string_scope.
Definition errValue (e : goerr) : Value := VError (err_text e).
Definition nilBulk : Value := VBulkString None.
Definition okReply : Value := VSimpleString (lit "OK").
Definition argString (v : Value) : option bytes :=
  match v with VBulkString b => Some (default [] b) | _ => None end.

Definition isNotFound (e : goerr) : bool := bool_decide (e = ENotFound).

Definition WRONGTYPE : goerr := EMsg (lit "WRONGTYPE Operation against a key holding the wrong kind of value").

(** ** Simulation *)

Definition abs {S} `{KVLaws S} (w : world S) : world (gmap bytes bytes) :=
  mkWorld (kv_view (w_kv w)) (w_tick w) (w_events w) (w_expired w).

(** [m] over a lawful store gives the result and leaves the content that [n]
    over the map does. *)
Definition sim {S} `{KVLaws S} {A} (m : M S A) (n : M (gmap bytes bytes) A) : Prop :=
  forall w, (m w).1 = (n (abs w)).1 /\ abs (m w).2 = (n (abs w)).2.

Section sim.
Context {S : Type} `{KVLaws S} `{Clock}.

Lemma sim_ret {A} (a : A) : sim (S := S) (mret a) (mret a).
Proof. done. Qed.

Lemma sim_err {A} e : sim (S := S) (A := A) (merr e) (merr e).
Proof. done. Qed.

Lemma sim_panic {A} : sim (S := S) (A := A) mpanic mpanic.
Proof. done. Qed.

Lemma sim_lift {A} (r : result A) : sim (S := S) (lift r) (lift r).
Proof. done. Qed.

Lemma sim_bind {A B} (m : M S A) n (k : A -> M S B) l :
  sim m n -> (forall a, sim (k a) (l a)) -> sim (mbind m k) (mbind n l).
Proof.
  intros Hm Hk w. unfold mbind. destruct (Hm w) as [E1 E2]. destruct (m w) as [r w'], (n (abs w)) as [r' w''].
  cbn in E1, E2. subst. destruct r'; cbn; [apply Hk | done..].
Qed.

Lemma sim_attempt {A} (m : M S A) n : sim m n -> sim (attempt m) (attempt n).
Proof.
  intros Hm w. unfold attempt. destruct (Hm w) as [E1 E2]. destruct (m w) as [r w'], (n (abs w)) as [r' w''].
  cbn in E1, E2. subst. by destruct r'.
Qed.

Lemma sim_now : sim (S := S) now now.
Proof. done. Qed.

Lemma sim_Notify c e k : sim (S := S) (Notify c e k) (Notify c e k).
Proof. done. Qed.

Lemma sim_IncExpired : sim (S := S) IncExpired IncExpired.
Proof. done. Qed.

Lemma sim_on_kv {A} (f : S -> result A * S) g :
  (forall s, (f s).1 = (g (kv_view s)).1 /\ kv_view (f s).2 = (g (kv_view s)).2) -> sim (on_kv f) (on_kv g).
Proof.
  intros Hf w. unfold on_kv, abs. cbn. destruct (Hf (w_kv w)) as [E1 E2].
  destruct (f (w_kv w)) as [r s], (g (kv_view (w_kv w))) as [r' m]. cbn in *. by subst.
Qed.

Lemma sim_kvGet k : sim (S := S) (kvGet k) (kvGet k).
Proof. apply sim_on_kv. intros s. split; [apply kv_get_ok | apply kv_get_view]. Qed.
Lemma sim_kvSet k v : sim (S := S) (kvSet k v) (kvSet k v).
Proof. apply sim_on_kv. intros s. split; [apply kv_set_ok | apply kv_set_view]. Qed.
Lemma sim_kvDelete k : sim (S := S) (kvDelete k) (kvDelete k).
Proof. apply sim_on_kv. intros s. split; [apply kv_delete_ok | apply kv_delete_view]. Qed.
Lemma sim_kvScan p : sim (S := S) (kvScan p) (kvScan p).
Proof. apply sim_on_kv. intros s. split; [apply kv_scan_ok | apply kv_scan_view]. Qed.
Lemma sim_kvWriteBatch ops : sim (S := S) (kvWriteBatch ops) (kvWriteBatch ops).
Proof. apply sim_on_kv. intros s. split; [apply kv_batch_ok | apply kv_batch_view]. Qed.

Lemma sim_ignore {A} (m : M S A) n : sim m n -> sim (ignore m) (ignore n).
Proof. intros. apply sim_bind; [by apply sim_attempt | intros; apply sim_ret]. Qed.
End sim.

Create HintDb sim discriminated.
#[export] Hint Resolve sim_ret sim_err sim_panic sim_lift sim_now sim_Notify sim_IncExpired
  sim_kvGet sim_kvSet sim_kvDelete sim_kvScan sim_kvWriteBatch : sim.

(** Simulation of a handler, by its structure. *)
Ltac sim_step :=
  match goal with
  | |- sim (mbind _ _) (mbind _ _) => apply sim_bind; [|intros]
  | |- sim (attempt _) (attempt _) => apply sim_attempt
  | |- sim (ignore _) (ignore _) => apply sim_ignore
  | |- sim (match ?x with _ => _ end) _ => destruct x
  | |- sim _ _ => solve [eauto with sim]
  end.
Ltac solve_sim := repeat (cbv beta zeta; sim_step).

(** ** Arguments, replies and writes shared by the handlers *)

Definition wrong_args (name : string) : Value :=
  VError (lit "ERR wrong number of arguments for '" ++ lit name ++ lit "' command").

Definition err_int : Value := errS "ERR value is not an integer or out of range".

(** [key, _ := argString(v)] *)
Definition arg_or_empty (v : Value) : bytes := default [] (argString v).

Section shared.
Context {S : Type} `{KV S} `{Clock}.

Definition with_key (a : Value) (k : bytes -> M S Value) : M S Value :=
  match argString a with None => mret (errS "ERR invalid key") | Some key => k key end.
Definition with_value (a : Value) (k : bytes -> M S Value) : M S Value :=
  match argString a with None => mret (errS "ERR invalid value") | Some v => k v end.
Definition with_int (a : Value) (k : Z -> M S Value) : M S Value :=
  match argString a with
  | None => mret err_int
  | Some s => match ParseInt s with None => mret err_int | Some n => k n end
  end.

(** Write, then notify and reply, unless the store fails. *)
Definition commit (write : M S unit) (k : M S Value) : M S Value :=
  let! r := attempt write in
  match r with inr e => mret (errValue e) | inl _ => k end.

Fixpoint notify_all (class : ascii) (name : bytes) (keys : list bytes) : M S unit :=
  match keys with
  | [] => mret ()
  | k :: ks => let! _ := Notify class name k in notify_all class name ks
  end.

End shared.

Lemma sim_notify_all {S} `{KVLaws S} c e ks : sim (S := S) (notify_all c e ks) (notify_all c e ks).
Proof. induction ks as [|k ks IH]; cbn [notify_all]; solve_sim. Qed.
#[export] Hint Resolve sim_notify_all : sim.

Lemma sim_commit {S} `{KVLaws S} m n k l : sim m n -> sim (S := S) k l -> sim (S := S) (commit m k) (commit n l).
Proof. intros. unfold commit. solve_sim. Qed.

Ltac solve_cmd :=
  repeat (cbv beta zeta;
    lazymatch goal with
    | |- sim (commit _ _) (commit _ _) => apply sim_commit
    | |- sim (with_key _ _) _ => unfold with_key
    | |- sim (with_value _ _) _ => unfold with_value
    | |- sim (with_int _ _) _ => unfold with_int
    | |- _ => sim_step
    end).

(** ** Looking a key up (keyspace.go) *)

Definition typePrefixes : list bytes :=
  map lit ["s:"; "h:"; "l:"; "st:"; "z:"; "hll:"; "x:"; "vs:"]%string.

Section lookup.
Context {S : Type} `{KV S} `{Clock}.
Import datastruct.

Fixpoint lookup_from (prefixes : list bytes) (key : bytes) : M S (bytes * Entry) :=
  match prefixes with
  | [] => merr ENotFound
  | p :: ps =>
      let raw := p ++ key in
      let! r := attempt (kvGet raw) in
      match r with
      | inr e => if isNotFound e then lookup_from ps key else merr e
      | inl val =>
          let! e := lift (Decode val) in
          if Expiry e =? 0 then mret (raw, e)
          else
            let! t := now in
            if Expiry e <=? t then
              let! _ := ignore (kvDelete raw) in
              let! _ := ignore (kvDelete (HashExpKey key)) in
              let! _ := IncExpired in
              let! _ := Notify "x" (lit "expired") key in
              merr ENotFound
            else mret (raw, e)
      end
  end.

Definition lookupRaw (key : bytes) : M S (bytes * Entry) := lookup_from typePrefixes key.

Definition lookupKey (key : bytes) : M S Entry := let! (_, e) := lookupRaw key in mret e.

Definition getAny (key : bytes) : M S Entry := lookupKey key.

Definition getEntry (key : bytes) : M S Entry :=
  let! e := getAny key in
  if bool_decide (Type_ e = TypeString) then mret e else merr WRONGTYPE.

End lookup.

Section lookup_sim.
Context {S : Type} `{KVLaws S} `{Clock}.

Lemma sim_lookup_from ps key : sim (S := S) (lookup_from ps key) (lookup_from ps key).
Proof. induction ps as [|p ps IH]; cbn [lookup_from]; solve_sim. Qed.
Hint Resolve sim_lookup_from : sim.
Lemma sim_lookupRaw key : sim (S := S) (lookupRaw key) (lookupRaw key).
Proof. apply sim_lookup_from. Qed.
Hint Resolve sim_lookupRaw : sim.
Lemma sim_getAny key : sim (S := S) (getAny key) (getAny key).
Proof. unfold getAny, lookupKey. solve_sim. Qed.
Hint Resolve sim_getAny : sim.
Lemma sim_getEntry key : sim (S := S) (getEntry key) (getEntry key).
Proof. unfold getEntry. solve_sim. Qed.
Lemma sim_lookupKey key : sim (S := S) (lookupKey key) (lookupKey key).
Proof. apply sim_getAny. Qed.
End lookup_sim.
#[export] Hint Resolve sim_lookup_from sim_lookupRaw sim_getAny sim_getEntry sim_lookupKey : sim.

(** ** The lookup over the map *)

Section lookup_map.
Context `{Clock}.
Import datastruct.
Notation W := (world (gmap bytes bytes)).

(** The first type prefix under which the key is stored. *)
Fixpoint first_hit (ps : list bytes) (key : bytes) (m : gmap bytes bytes) : option (bytes * bytes) :=
  match ps with
  | [] => None
  | p :: ps' => match m !! (p ++ key) with
                | Some v => Some (p ++ key, v)
                | None => first_hit ps' key m
                end
  end.

Definition ticked (w : W) : W := mkWorld (w_kv w) (Datatypes.S (w_tick w)) (w_events w) (w_expired w).

(** The world after a passive expiry of the key stored under [raw]. *)
Definition expire_world (raw key : bytes) (w : W) : W :=
  mkWorld (delete (HashExpKey key) (delete raw (w_kv w))) (Datatypes.S (w_tick w))
    (w_events w ++ [mkEvent "x" (lit "expired") key]) (w_expired w + 1).

Definition find_key (key : bytes) (w : W) : result (bytes * Entry) * W :=
  match first_hit typePrefixes key (w_kv w) with
  | None => (Err ENotFound, w)
  | Some (raw, v) =>
      match Decode v with
      | Ok e =>
          if Expiry e =? 0 then (Ok (raw, e), w)
          else if Expiry e <=? clock_ns (w_tick w) then (Err ENotFound, expire_world raw key w)
          else (Ok (raw, e), ticked w)
      | Err x => (Err x, w)
      | Panic => (Panic, w)
      end
  end.

Lemma lookupRaw_map key w : lookupRaw key w = find_key key w.
Proof.
  unfold lookupRaw, find_key. destruct w as [m t ev ex]. cbn [w_kv w_tick].
  induction typePrefixes as [|p ps IH]; cbn [lookup_from first_hit]; [done|].
  unfold mbind at 1, attempt, kvGet, on_kv. cbn. destruct (m !! (p ++ key)) as [v|] eqn:E; cbn.
  - unfold mbind, lift. destruct (Decode v) as [e|x|]; try done. destruct (Expiry e =? 0); [done|]. cbn.
    destruct (Expiry e <=? clock_ns t); done.
  - exact IH.
Qed.

Lemma getAny_map key w :
  getAny key w = match find_key key w with
                 | (Ok (_, e), w') => (Ok e, w')
                 | (Err x, w') => (Err x, w')
                 | (Panic, w') => (Panic, w')
                 end.
Proof. unfold getAny, lookupKey, mbind. rewrite lookupRaw_map. by destruct (find_key key w) as [[[? ?]| |] ?]. Qed.

Lemma getEntry_map key w :
  getEntry key w = match find_key key w with
                   | (Ok (_, e), w') => if bool_decide (Type_ e = TypeString) then (Ok e, w') else (Err WRONGTYPE, w')
                   | (Err x, w') => (Err x, w')
                   | (Panic, w') => (Panic, w')
                   end.
Proof.
  unfold getEntry, mbind at 1. rewrite getAny_map. destruct (find_key key w) as [[[? e]| |] ?]; try done.
  by case_bool_decide.
Qed.

Lemma first_hit_cons p ps key m :
  first_hit (p :: ps) key m =
  match m !! (p ++ key) with Some v => Some (p ++ key, v) | None => first_hit ps key m end.
Proof. done. Qed.

Lemma first_hit_none ps key m :
  first_hit ps key m = None <-> forall p, p ∈ ps -> m !! (p ++ key) = None.
Proof.
  induction ps as [|p ps IH]; cbn; [split; [by intros _ ? ?%not_elem_of_nil | done]|].
  destruct (m !! (p ++ key)) eqn:E.
  - split; [done|]. intros Hn. rewrite Hn in E; [done|by left].
  - rewrite IH. split; [intros Hn q [->|Hq]%elem_of_cons; auto | intros Hn q Hq; apply Hn; by right].
Qed.

Lemma first_hit_some ps key m raw v :
  first_hit ps key m = Some (raw, v) -> exists p, p ∈ ps /\ raw = p ++ key /\ m !! raw = Some v.
Proof.
  induction ps as [|p ps IH]; cbn; [done|]. destruct (m !! (p ++ key)) eqn:E.
  - intros [= <- <-]. exists p. split; [by left | done].
  - intros Hf. destruct (IH Hf) as (q & Hq & Hr). exists q. split; [by right | done].
Qed.

(** A string key is probed first. *)
Lemma first_hit_string key m v :
  m !! StringKey key = Some v -> first_hit typePrefixes key m = Some (StringKey key, v).
Proof. intros E. change typePrefixes with (lit "s:" :: tail typePrefixes). rewrite first_hit_cons.
  change (lit "s:" ++ key) with (StringKey key). by rewrite E.
Qed.

(** A key stored as a live string is found. *)
Lemma find_string key w exp payload :
  w_kv w !! StringKey key = Some (EncodeString payload exp) -> is_i64 exp ->
  exp = 0 \/ clock_ns (w_tick w) < exp ->
  find_key key w = (Ok (StringKey key, mkEntry TypeString exp payload), if exp =? 0 then w else ticked w).
Proof.
  intros E Hi Hl. unfold find_key. rewrite (first_hit_string _ _ _ E). unfold EncodeString.
  rewrite Decode_Encode_entry by done. cbn [Expiry]. destruct (exp =? 0) eqn:Z0; [done|]. breflect.
  destruct Hl as [?|Hl]; [done|]. zdec. done.
Qed.

End lookup_map.

(** ** Worlds to run handlers in *)

(** A clock that advances by one nanosecond per reading. *)
Definition step_clock : Clock := {| clock_ns := fun n => 1000 + Z.of_nat n |}.
Definition empty_world : world (gmap bytes bytes) := mkWorld ∅ 0 [] 0.
Definition world_of (l : list (bytes * bytes)) : world (gmap bytes bytes) :=
  mkWorld (foldl (fun m '(k, v) => <[k := v]> m) ∅ l) 0 [] 0.
Definition run (h : forall (c : Clock) (u : GoUnicode), list Value -> M (gmap bytes bytes) Value) (args : list Value)
    (w : world (gmap bytes bytes)) : result Value * world (gmap bytes bytes) :=
  h step_clock ascii_tables args w.

