(* ===== verification/CmdString.v ===== *)
(** * String commands
    (src/internal/commands/string.go, string_incr.go, string_extra.go, string_multi.go)

    One definition per handler, over the store interface and the clock. *)

From S2P Require Import Prelude GoLib GoStrings Resp Codec Kv Cmd.
Open Scope Z_scope.
Open Scope gedis_scope.

(** ** Time arithmetic: [time.Duration] is an [int64] count of nanoseconds *)

Definition Second : Z := 1000000000.
Definition Millisecond : Z := 1000000.

(** [time.Now().Add(time.Duration(n) * unit).UnixNano()] at time [t]. *)
Definition add_duration (t n unit : Z) : Z := i64 (t + i64 (n * unit)).
(** [time.Unix(n, 0).UnixNano()] and [time.Unix(0, n*1e6).UnixNano()] *)
Definition unix_sec (n : Z) : Z := i64 (n * Second).
Definition unix_ms (n : Z) : Z := i64 (n * Millisecond).

(** Float addition, and [strconv.FormatFloat(f, 'f', -1, 64)]. *)
Class GoFloatArith : Type := { f64_add : Z -> Z -> Z; FormatFloatF : Z -> bytes }.

Section handlers.
Context {S : Type} `{KV S} `{Clock} `{GoUnicode}.
Import datastruct.


(** [s.kv.Set(ctx, StringKey(key), EncodeString(value, expiry))] *)
Definition put_string (key value : bytes) (expiry : Z) : M S unit :=
  kvSet (StringKey key) (EncodeString value expiry).

(** ** SET *)

Record setOptions : Type := mkSetOptions { so_expiry : Z; so_keepTTL : bool; so_nx : bool; so_xx : bool; so_get : bool }.

(** [kind] is matched as written: any other text leaves the expiry at 0. *)
Definition parseExpiry (kind s : bytes) : M S Z :=
  match ParseInt s with
  | None => merr (EMsg (lit "ERR value is not an integer or out of range"))
  | Some n =>
      let invalid := merr (EMsg (lit "ERR invalid expire time in 'set' command")) in
      if bytes_eqb kind (lit "EX") then
        if n <=? 0 then invalid else let! t := now in mret (add_duration t n Second)
      else if bytes_eqb kind (lit "PX") then
        if n <=? 0 then invalid else let! t := now in mret (add_duration t n Millisecond)
      else if bytes_eqb kind (lit "EXAT") then mret (unix_sec n)
      else if bytes_eqb kind (lit "PXAT") then mret (unix_ms n)
      else mret 0
  end.

Definition is_expiry_option (u : bytes) : bool :=
  bytes_eqb u (lit "EX") || bytes_eqb u (lit "PX") || bytes_eqb u (lit "EXAT") || bytes_eqb u (lit "PXAT").

(** The option loop of parseSetArgs. *)
Fixpoint parse_set_options (args : list Value) (opt : setOptions) : M S (setOptions + Value) :=
  match args with
  | [] => mret (inl opt)
  | a :: rest =>
      match argString a with
      | None => mret (inr (errS "ERR syntax error"))
      | Some name =>
          let u := ToUpper name in
          if bytes_eqb u (lit "NX") then
            parse_set_options rest (mkSetOptions (so_expiry opt) (so_keepTTL opt) true (so_xx opt) (so_get opt))
          else if bytes_eqb u (lit "XX") then
            parse_set_options rest (mkSetOptions (so_expiry opt) (so_keepTTL opt) (so_nx opt) true (so_get opt))
          else if bytes_eqb u (lit "KEEPTTL") then
            parse_set_options rest (mkSetOptions (so_expiry opt) true (so_nx opt) (so_xx opt) (so_get opt))
          else if bytes_eqb u (lit "GET") then
            parse_set_options rest (mkSetOptions (so_expiry opt) (so_keepTTL opt) (so_nx opt) (so_xx opt) true)
          else if is_expiry_option u then
            match rest with
            | [] => mret (inr (errS "ERR syntax error"))
            | b :: rest' =>
                match argString b with
                | None => mret (inr err_int)
                | Some n =>
                    let! r := attempt (parseExpiry name n) in
                    match r with
                    | inr e => mret (inr (errValue e))
                    | inl exp => parse_set_options rest' (mkSetOptions exp (so_keepTTL opt) (so_nx opt) (so_xx opt) (so_get opt))
                    end
                end
            end
          else mret (inr (errS "ERR syntax error"))
      end
  end.

Definition parseSetArgs (args : list Value) : M S ((bytes * setOptions) + Value) :=
  match args with
  | _ :: a1 :: rest =>
      match argString a1 with
      | None => mret (inr (errS "ERR invalid value"))
      | Some v =>
          let! r := parse_set_options rest (mkSetOptions 0 false false false false) in
          match r with
          | inr e => mret (inr e)
          | inl opt => if so_nx opt && so_xx opt then mret (inr (errS "ERR syntax error")) else mret (inl (v, opt))
          end
      end
  | _ => mret (inr (wrong_args "set"))
  end.

Definition set_ (args : list Value) : M S Value :=
  let! p := parseSetArgs args in
  match p with
  | inr e => mret e
  | inl (value, opt) =>
      let key := match args with a :: _ => arg_or_empty a | [] => [] end in
      let! r := attempt (getEntry key) in
      match r with
      | inr e => if negb (isNotFound e) then mret (errValue e)
                 else if so_xx opt then mret nilBulk
                 else
                   let! w := attempt (put_string key value (so_expiry opt)) in
                   match w with
                   | inr e => mret (errValue e)
                   | inl _ => let! _ := Notify "$" (lit "set") key in
                              mret (if so_get opt then nilBulk else okReply)
                   end
      | inl old =>
          if so_nx opt then mret nilBulk
          else
            let! w := attempt (put_string key value (if so_keepTTL opt then Expiry old else so_expiry opt)) in
            match w with
            | inr e => mret (errValue e)
            | inl _ => let! _ := Notify "$" (lit "set") key in
                       mret (if so_get opt then VBulkString (Some (Payload old)) else okReply)
            end
      end
  end.

(** ** Reads and simple writes *)

Definition get (args : list Value) : M S Value :=
  match args with
  | [a] => with_key a (fun key =>
      let! r := attempt (getEntry key) in
      match r with
      | inr e => mret (if isNotFound e then nilBulk else errValue e)
      | inl e => mret (VBulkString (Some (Payload e)))
      end)
  | _ => mret (wrong_args "get")
  end.

Definition getset (args : list Value) : M S Value :=
  match args with
  | [a; b] => with_key a (fun key => with_value b (fun value =>
      let! r := attempt (getEntry key) in
      match r with
      | inr e => if negb (isNotFound e) then mret (errValue e)
                 else commit (put_string key value 0) (let! _ := Notify "$" (lit "set") key in mret nilBulk)
      | inl old => commit (put_string key value 0)
                     (let! _ := Notify "$" (lit "set") key in mret (VBulkString (Some (Payload old))))
      end))
  | _ => mret (wrong_args "getset")
  end.

Definition setWithTTL (name : string) (unit : Z) (args : list Value) : M S Value :=
  match args with
  | [a; b; c] => with_key a (fun key =>
      match argString b with
      | None => mret err_int
      | Some ttlStr => with_value c (fun value =>
          match ParseInt ttlStr with
          | None => mret err_int
          | Some n =>
              if n <=? 0 then mret (VError (lit "ERR invalid expire time in '" ++ lit name ++ lit "' command"))
              else
                let! t := now in
                commit (put_string key value (add_duration t n unit))
                  (let! _ := Notify "$" (lit "set") key in
                   let! _ := Notify "g" (lit "expire") key in
                   mret okReply)
          end)
      end)
  | _ => mret (wrong_args name)
  end.
Definition setex : list Value -> M S Value := setWithTTL "setex" Second.
Definition psetex : list Value -> M S Value := setWithTTL "psetex" Millisecond.

Definition setnx (args : list Value) : M S Value :=
  match args with
  | [a; b] => with_key a (fun key => with_value b (fun value =>
      let! r := attempt (getAny key) in
      match r with
      | inl _ => mret (VInteger 0)
      | inr e => if negb (isNotFound e) then mret (errValue e)
                 else commit (put_string key value 0) (let! _ := Notify "$" (lit "set") key in mret (VInteger 1))
      end))
  | _ => mret (wrong_args "setnx")
  end.

Fixpoint touch_loop (args : list Value) (n : Z) : M S Value :=
  match args with
  | [] => mret (VInteger n)
  | a :: rest =>
      match argString a with
      | None => touch_loop rest n
      | Some key =>
          let! r := attempt (lookupRaw key) in
          touch_loop rest (match r with inl _ => n + 1 | inr _ => n end)
      end
  end.
Definition touch (args : list Value) : M S Value :=
  match args with [] => mret (wrong_args "touch") | _ => touch_loop args 0 end.

Definition getdel (args : list Value) : M S Value :=
  match args with
  | [a] => with_key a (fun key =>
      let! r := attempt (getEntry key) in
      match r with
      | inr e => mret (if isNotFound e then nilBulk else errValue e)
      | inl e =>
          let! _ := ignore (kvDelete (StringKey key)) in
          let! _ := Notify "g" (lit "del") key in
          mret (VBulkString (Some (Payload e)))
      end)
  | _ => mret (wrong_args "getdel")
  end.

(** The new expiry GETEX asks for. *)
Definition getex_expiry (opts : list Value) (cur : Z) : M S (Z + Value) :=
  match opts with
  | [] => mret (inl cur)
  | [o; v] =>
      match argString o, argString v with
      | Some name, Some n =>
          let u := ToUpper name in
          if bytes_eqb u (lit "PERSIST") then mret (inl 0)
          else if is_expiry_option u then
            let! r := attempt (parseExpiry u n) in
            match r with inr e => mret (inr (errValue e)) | inl exp => mret (inl exp) end
          else mret (inr (errS "ERR syntax error"))
      | _, _ => mret (inr (errS "ERR syntax error"))
      end
  | _ => mret (inr (errS "ERR syntax error"))
  end.

Definition getex (args : list Value) : M S Value :=
  match args with
  | [] | _ :: _ :: _ :: _ :: _ => mret (wrong_args "getex")
  | a :: opts => with_key a (fun key =>
      let! r := attempt (getEntry key) in
      match r with
      | inr e => mret (if isNotFound e then nilBulk else errValue e)
      | inl e =>
          let! x := getex_expiry opts (Expiry e) in
          match x with
          | inr v => mret v
          | inl expiry =>
              if expiry =? Expiry e then mret (VBulkString (Some (Payload e)))
              else commit (put_string key (Payload e) expiry) (mret (VBulkString (Some (Payload e))))
          end
      end)
  end.

Fixpoint del_loop (args : list Value) (n : Z) : M S Value :=
  match args with
  | [] => mret (VInteger n)
  | a :: rest =>
      match argString a with
      | None => del_loop rest n
      | Some key =>
          let! r := attempt (lookupRaw key) in
          match r with
          | inr _ => del_loop rest n
          | inl (storeKey, e) =>
              let! _ := ignore (kvDelete storeKey) in
              let! _ := (if bool_decide (Type_ e = TypeHash) then ignore (kvDelete (HashExpKey key)) else mret ()) in
              let! _ := Notify "g" (lit "del") key in
              del_loop rest (n + 1)
          end
      end
  end.
Definition del (args : list Value) : M S Value :=
  match args with [] => mret (wrong_args "del") | _ => del_loop args 0 end.

Definition ttl (args : list Value) : M S Value :=
  match args with
  | [a] => with_key a (fun key =>
      let! r := attempt (getAny key) in
      match r with
      | inr e => mret (if isNotFound e then VInteger (-2) else errValue e)
      | inl e =>
          if Expiry e =? 0 then mret (VInteger (-1))
          else
            let! t := now in
            let ms := Z.quot (i64 (Expiry e - t)) Millisecond in
            mret (VInteger (Z.quot (ms + 500) 1000))
      end)
  | _ => mret (wrong_args "ttl")
  end.

(** ** Counters (string_incr.go) *)

Definition incrBy (delta : Z) (args : list Value) : M S Value :=
  match args with
  | [a] => with_key a (fun key =>
      let! r := attempt (getEntry key) in
      let step (cur expiry : Z) : M S Value :=
        if ((0 <? delta) && (maxInt64 - delta <? cur)) || ((delta <? 0) && (cur <? minInt64 - delta))
        then mret (errS "ERR increment or decrement would overflow")
        else
          let next := i64 (cur + delta) in
          commit (put_string key (FormatInt next) expiry)
            (let! _ := Notify "$" (lit "incrby") key in mret (VInteger next)) in
      match r with
      | inr e => if negb (isNotFound e) then mret (errValue e) else step 0 0
      | inl e => match ParseInt (Payload e) with
                 | None => mret err_int
                 | Some cur => step cur (Expiry e)
                 end
      end)
  | _ => mret (wrong_args "incr")
  end.

Definition incr : list Value -> M S Value := incrBy 1.
Definition decr : list Value -> M S Value := incrBy (-1).

Definition incrby (args : list Value) : M S Value :=
  match args with
  | [a; b] => with_int b (fun n => incrBy n [a])
  | _ => mret (wrong_args "incrby")
  end.
Definition decrby (args : list Value) : M S Value :=
  match args with
  | [a; b] => with_int b (fun n => incrBy (i64 (- n)) [a])
  | _ => mret (wrong_args "decrby")
  end.

Definition err_float : Value := errS "ERR value is not a valid float".

Definition incrbyfloat `{GoFloat} `{GoFloatArith} (args : list Value) : M S Value :=
  match args with
  | [a; b] => with_key a (fun key =>
      match argString b with
      | None => mret err_float
      | Some inc =>
          match ParseFloat inc with
          | None => mret err_float
          | Some delta =>
              let! r := attempt (getEntry key) in
              let step (cur expiry : Z) : M S Value :=
                let out := FormatFloatF (f64_add cur delta) in
                commit (put_string key out expiry)
                  (let! _ := Notify "$" (lit "incrbyfloat") key in mret (BulkOf out)) in
              match r with
              | inr e => if negb (isNotFound e) then mret (errValue e) else step 0 0
              | inl e => match ParseFloat (Payload e) with
                         | None => mret err_float
                         | Some cur => step cur (Expiry e)
                         end
              end
          end
      end)
  | _ => mret (wrong_args "incrbyfloat")
  end.

(** ** Ranges (string_extra.go) *)

(** The string to extend: empty without expiry when the key is missing. *)
Definition get_base (key : bytes) (k : bytes -> Z -> M S Value) : M S Value :=
  let! r := attempt (getEntry key) in
  match r with
  | inr e => if negb (isNotFound e) then mret (errValue e) else k [] 0
  | inl e => k (Payload e) (Expiry e)
  end.

Definition append (args : list Value) : M S Value :=
  match args with
  | [a; b] => with_key a (fun key => with_value b (fun val =>
      get_base key (fun base expiry =>
        let out := base ++ val in
        commit (put_string key out expiry)
          (let! _ := Notify "$" (lit "append") key in mret (VInteger (len out))))))
  | _ => mret (wrong_args "append")
  end.

Definition strlen (args : list Value) : M S Value :=
  match args with
  | [a] => with_key a (fun key =>
      let! r := attempt (getEntry key) in
      match r with
      | inr e => mret (if isNotFound e then VInteger 0 else errValue e)
      | inl e => mret (VInteger (len (Payload e)))
      end)
  | _ => mret (wrong_args "strlen")
  end.

(** [out := make([]byte, n); copy(out, base); copy(out[offset:], val)]: the
    slice bound and the allocation are checked at run time. *)
Definition overlay (base val : bytes) (offset newLen : Z) : result bytes :=
  if negb (make_ok newLen 1) then Panic
  else if newLen <? offset then Panic
  else
    let out := take (Z.to_nat newLen) (base ++ replicate (Z.to_nat (newLen - len base)) "000"%char) in
    let tail := drop (Z.to_nat offset) out in
    Ok (take (Z.to_nat offset) out ++ take (length tail) val ++ drop (length val) tail).

Definition setrange (args : list Value) : M S Value :=
  match args with
  | [a; b; c] => with_key a (fun key =>
      match argString b with
      | None => mret err_int
      | Some offStr =>
          match ParseInt offStr with
          | None => mret (errS "ERR offset is out of range")
          | Some offset =>
              if offset <? 0 then mret (errS "ERR offset is out of range")
              else with_value c (fun val =>
                get_base key (fun base expiry =>
                  let end_ := i64 (offset + len val) in
                  let newLen := if len base <? end_ then end_ else len base in
                  let! out := lift (overlay base val offset newLen) in
                  commit (put_string key out expiry)
                    (let! _ := Notify "$" (lit "setrange") key in mret (VInteger newLen))))
          end
      end)
  | _ => mret (wrong_args "setrange")
  end.

(** The clamping of GETRANGE's bounds. *)
Definition clamp_range (n start end_ : Z) : Z * Z :=
  let start := if start <? 0 then i64 (start + n) else start in
  let end_ := if end_ <? 0 then i64 (end_ + n) else end_ in
  let start := if start <? 0 then 0 else start in
  let end_ := if n <=? end_ then n - 1 else end_ in
  (start, end_).

Definition getrange (args : list Value) : M S Value :=
  match args with
  | [a; b; c] => with_key a (fun key =>
      match argString b, argString c with
      | Some s1, Some s2 =>
          match ParseInt s1, ParseInt s2 with
          | Some start, Some end_ =>
              let! r := attempt (getEntry key) in
              match r with
              | inr e => mret (if isNotFound e then BulkOf [] else errValue e)
              | inl e =>
                  let n := len (Payload e) in
                  let '(start, end_) := clamp_range n start end_ in
                  if (end_ <? start) || (n <=? start) then mret (BulkOf [])
                  else mret (VBulkString (Some (take (Z.to_nat (end_ + 1 - start)) (drop (Z.to_nat start) (Payload e)))))
              end
          | _, _ => mret err_int
          end
      | _, _ => mret err_int
      end)
  | _ => mret (wrong_args "getrange")
  end.

(** ** Several keys (string_multi.go) *)

Fixpoint mset_ops (args : list Value) : (list BatchOp * list bytes) + Value :=
  match args with
  | [] => inl ([], [])
  | [_] => inl ([], [])
  | a :: b :: rest =>
      match argString a with
      | None => inr (errS "ERR invalid key")
      | Some key =>
          match argString b with
          | None => inr (errS "ERR invalid value")
          | Some val =>
              match mset_ops rest with
              | inr e => inr e
              | inl (ops, ks) => inl (mkBatchOp (StringKey key) (EncodeString val 0) false :: ops, key :: ks)
              end
          end
      end
  end.

Definition mset (args : list Value) : M S Value :=
  if (len args <? 2) || negb (len args mod 2 =? 0) then mret (wrong_args "mset")
  else match mset_ops args with
       | inr e => mret e
       | inl (ops, ks) => commit (kvWriteBatch ops) (let! _ := notify_all "$" (lit "set") ks in mret okReply)
       end.

Fixpoint mget_loop (args : list Value) (out : list Value) : M S Value :=
  match args with
  | [] => mret (ArrayOf out)
  | a :: rest => with_key a (fun key =>
      let! r := attempt (getEntry key) in
      match r with
      | inr e => if isNotFound e then mget_loop rest (out ++ [VNull]) else mret (errValue e)
      | inl e => mget_loop rest (out ++ [VBulkString (Some (Payload e))])
      end)
  end.
Definition mget (args : list Value) : M S Value :=
  match args with [] => mret (wrong_args "mget") | _ => mget_loop args [] end.

(** The existence pass, then the writes. *)
Fixpoint msetnx_check (args : list Value) (k : M S Value) : M S Value :=
  match args with
  | a :: _ :: rest => with_key a (fun key =>
      let! r := attempt (getEntry key) in
      match r with
      | inl _ => mret (VInteger 0)
      | inr e => if negb (isNotFound e) then mret (errValue e) else msetnx_check rest k
      end)
  | _ => k
  end.
Fixpoint msetnx_write (args : list Value) : M S Value :=
  match args with
  | a :: b :: rest => commit (put_string (arg_or_empty a) (arg_or_empty b) 0) (msetnx_write rest)
  | _ => mret (VInteger 1)
  end.
Definition msetnx (args : list Value) : M S Value :=
  if (len args <? 2) || negb (len args mod 2 =? 0) then mret (wrong_args "msetnx")
  else msetnx_check args (msetnx_write args).

End handlers.

(** ** The handlers over any lawful store *)

Section sim.
Context {S : Type} `{KVLaws S} `{Clock} `{GoUnicode}.

Lemma sim_parseExpiry k s : sim (S := S) (parseExpiry k s) (parseExpiry k s).
Proof. unfold parseExpiry. solve_sim. Qed.
Hint Resolve sim_parseExpiry : sim.

Lemma sim_put_string k v e : sim (S := S) (put_string k v e) (put_string k v e).
Proof. apply sim_kvSet. Qed.
Hint Resolve sim_put_string : sim.

Lemma sim_parse_set_options args opt : sim (S := S) (parse_set_options args opt) (parse_set_options args opt).
Proof.
  revert opt. induction args as [args IH] using (induction_ltof1 _ (@length Value)). unfold ltof in IH.
  destruct args as [|a rest]; intros opt; cbn [parse_set_options]; [solve_sim|].
  assert (forall o, sim (S := S) (parse_set_options rest o) (parse_set_options rest o)) by (intros; apply IH; cbn; lia).
  destruct rest as [|b rest']; [solve_sim|].
  assert (forall o, sim (S := S) (parse_set_options rest' o) (parse_set_options rest' o)) by (intros; apply IH; cbn; lia).
  solve_sim.
Qed.
Hint Resolve sim_parse_set_options : sim.

Lemma sim_touch_loop args n : sim (S := S) (touch_loop args n) (touch_loop args n).
Proof. revert n; induction args as [|a args IH]; intros n; cbn [touch_loop]; solve_cmd. Qed.
Lemma sim_del_loop args n : sim (S := S) (del_loop args n) (del_loop args n).
Proof. revert n; induction args as [|a args IH]; intros n; cbn [del_loop]; solve_cmd. Qed.
Lemma sim_getex_expiry o c : sim (S := S) (getex_expiry o c) (getex_expiry o c).
Proof. unfold getex_expiry. solve_cmd. Qed.
Hint Resolve sim_touch_loop sim_del_loop sim_getex_expiry : sim.
Lemma sim_incrBy d args : sim (S := S) (incrBy d args) (incrBy d args).
Proof. unfold incrBy. solve_cmd. Qed.
Lemma sim_get_base key k l : (forall b e, sim (S := S) (k b e) (l b e)) -> sim (get_base key k) (get_base key l).
Proof. intros. unfold get_base. solve_cmd. Qed.
Hint Resolve sim_incrBy : sim.
Lemma sim_mget_loop args out : sim (S := S) (mget_loop args out) (mget_loop args out).
Proof. revert out; induction args as [|a args IH]; intros out; cbn [mget_loop]; solve_cmd. Qed.
Lemma sim_msetnx_write args : sim (S := S) (msetnx_write args) (msetnx_write args).
Proof.
  induction args as [args IH] using (induction_ltof1 _ (@length Value)). unfold ltof in IH.
  destruct args as [|a [|b rest]]; cbn [msetnx_write]; [solve_cmd..|].
  assert (sim (S := S) (msetnx_write rest) (msetnx_write rest)) by (apply IH; cbn; lia). solve_cmd.
Qed.
Hint Resolve sim_mget_loop sim_msetnx_write : sim.
Lemma sim_msetnx_check args k l : sim (S := S) k l -> sim (S := S) (msetnx_check args k) (msetnx_check args l).
Proof.
  intros Hk. induction args as [args IH] using (induction_ltof1 _ (@length Value)). unfold ltof in IH.
  destruct args as [|a [|b rest]]; cbn [msetnx_check]; [solve_cmd..|].
  assert (sim (S := S) (msetnx_check rest k) (msetnx_check rest l)) by (apply IH; cbn; lia). solve_cmd.
Qed.

(** Every string command is store-independent: over any lawful store it
    gives the reply, the notifications and the final content that it gives
    over the plain map of the keyspace. *)
Theorem string_commands_simulate args :
  Forall (fun h => sim (S := S) h.1 h.2)
    [(set_ args, set_ args); (get args, get args); (getset args, getset args); (setex args, setex args);
     (psetex args, psetex args); (setnx args, setnx args); (touch args, touch args); (getdel args, getdel args);
     (getex args, getex args); (del args, del args); (ttl args, ttl args); (incr args, incr args);
     (decr args, decr args); (incrby args, incrby args); (decrby args, decrby args); (append args, append args);
     (strlen args, strlen args); (setrange args, setrange args); (getrange args, getrange args);
     (mset args, mset args); (mget args, mget args); (msetnx args, msetnx args)].
Proof.
  repeat apply Forall_cons_2; [..|apply Forall_nil_2]; cbn [fst snd];
    unfold set_, get, getset, setex, psetex, setWithTTL, setnx, touch, getdel, getex, del, ttl, incr, decr, incrby, decrby,
      append, strlen, setrange, getrange, mset, mget, msetnx, parseSetArgs;
    try solve [solve_cmd].
  - solve_cmd. apply sim_get_base. intros. solve_cmd.
  - solve_cmd. apply sim_get_base. intros. solve_cmd.
  - destruct (_ || _); [apply sim_ret|]. apply sim_msetnx_check, sim_msetnx_write.
Qed.
End sim.

(** ** The handlers over the map *)

Section spec.
Context `{Clock} `{GoUnicode}.
Import datastruct.
Notation W := (world (gmap bytes bytes)).
Implicit Types (key value raw payload base val : bytes) (exp cur delta off acc : Z) (deltas : list Z) (w : W).

(** The world after a successful write of a string and its notification. *)
Definition put_world (w : W) (key value : bytes) (exp : Z) (name : bytes) : W :=
  mkWorld (<[StringKey key := EncodeString value exp]> (w_kv w)) (w_tick w) (w_events w ++ [mkEvent "$" name key]) (w_expired w).

Lemma commit_put (w : W) (key value : bytes) exp name v :
  commit (put_string key value exp) (let! _ := Notify "$" name key in mret v) w = (Ok v, put_world w key value exp name).
Proof. done. Qed.

Lemma set_plain (key value : bytes) (w : W) :
  set_ [BulkOf key; BulkOf value] w =
  match getEntry key w with
  | (Ok _, w') => (Ok okReply, put_world w' key value 0 (lit "set"))
  | (Err e, w') => if isNotFound e then (Ok okReply, put_world w' key value 0 (lit "set")) else (Ok (errValue e), w')
  | (Panic, w') => (Panic, w')
  end.
Proof.
  unfold set_, parseSetArgs. cbn [BulkOf argString]. unfold mbind at 1 2. cbn [parse_set_options mret so_nx so_xx andb].
  change (arg_or_empty (BulkOf key)) with key. change (default [] (Some value)) with value.
  unfold mbind at 1, attempt at 1. destruct (getEntry key w) as [[old|e|] w']; [done| |done]. cbn. by destruct (isNotFound e).
Qed.

Lemma get_plain (key : bytes) (w : W) :
  get [BulkOf key] w =
  match getEntry key w with
  | (Ok e, w') => (Ok (BulkOf (Payload e)), w')
  | (Err e, w') => (Ok (if isNotFound e then nilBulk else errValue e), w')
  | (Panic, w') => (Panic, w')
  end.
Proof.
  unfold get, with_key. cbn [BulkOf argString]. change (default [] (Some key)) with key.
  unfold mbind, attempt. destruct (getEntry key w) as [[old|e|] w']; done.
Qed.

(** A lookup changes nothing but the entries of its own key. *)
Lemma find_key_frame key (w : W) raw :
  (forall p, raw <> p ++ key) -> w_kv (find_key key w).2 !! raw = w_kv w !! raw.
Proof.
  intros Hr. unfold find_key. destruct (first_hit typePrefixes key (w_kv w)) as [[r v]|] eqn:E; [|done].
  apply first_hit_some in E as (p & _ & -> & _).
  destruct (Decode v) as [e| |]; try done. destruct (Expiry e =? 0); [done|].
  destruct (Expiry e <=? _); [|done]. cbn. rewrite !lookup_delete_ne; [done|..]; intros <-; [by eapply Hr|].
  by apply (Hr (lit "x:")).
Qed.

Lemma getEntry_world key (w : W) : (getEntry key w).2 = (find_key key w).2.
Proof. rewrite getEntry_map. destruct (find_key key w) as [[[? e]| |] w']; try done. cbn. by case_bool_decide. Qed.

Lemma put_lookup (w : W) (key value : bytes) exp name : w_kv (put_world w key value exp name) !! StringKey key = Some (EncodeString value exp).
Proof. cbn. apply lookup_insert_eq. Qed.

(** A live string is what getEntry returns. *)
Lemma getEntry_string key (w : W) exp payload :
  w_kv w !! StringKey key = Some (EncodeString payload exp) -> is_i64 exp ->
  exp = 0 \/ clock_ns (w_tick w) < exp ->
  getEntry key w = (Ok (mkEntry TypeString exp payload), if exp =? 0 then w else ticked w).
Proof. intros. rewrite getEntry_map, (find_string key w exp payload) by done. done. Qed.

Lemma kv_ticked exp (w : W) : w_kv (if exp =? 0 then w else ticked w) = w_kv w.
Proof. by destruct (exp =? 0). Qed.

(** One INCRBY on a live integer string. *)
Lemma incrBy_stored key delta (w : W) cur exp payload :
  w_kv w !! StringKey key = Some (EncodeString payload exp) -> is_i64 exp ->
  exp = 0 \/ clock_ns (w_tick w) < exp ->
  ParseInt payload = Some cur -> is_i64 delta ->
  incrBy delta [BulkOf key] w =
  (let w1 := if exp =? 0 then w else ticked w in
   if bool_decide (is_i64 (cur + delta))
   then (Ok (VInteger (cur + delta)), put_world w1 key (FormatInt (cur + delta)) exp (lit "incrby"))
   else (Ok (errS "ERR increment or decrement would overflow"), w1)).
Proof.
  intros E Hi Hl Hp Hd. pose proof (ParseInt_range _ _ Hp) as Hc. cbv zeta. unfold incrBy, with_key. cbn [BulkOf argString].
  change (default [] (Some key)) with key. unfold mbind at 1, attempt at 1.
  rewrite (getEntry_string key w exp payload) by done. cbn [Payload Expiry]. rewrite Hp. cbv beta zeta.
  destruct (decide (is_i64 (cur + delta))) as [R|R].
  - rewrite bool_decide_eq_true_2 by done. rewrite (i64_id (cur + delta)) by done. unfold is_i64, maxInt64, minInt64 in *.
    destruct (0 <? delta) eqn:D1, (delta <? 0) eqn:D2; breflect; try lia; zdec; cbn [andb orb]; rewrite commit_put; done.
  - rewrite bool_decide_eq_false_2 by done. unfold is_i64, maxInt64, minInt64 in *.
    destruct (0 <? delta) eqn:D1, (delta <? 0) eqn:D2; breflect; zdec; cbn [andb orb]; try done; lia.
Qed.

(** INCRBY on a missing key starts from zero. *)
Lemma incrBy_missing key delta (w : W) :
  first_hit typePrefixes key (w_kv w) = None -> is_i64 delta ->
  incrBy delta [BulkOf key] w = (Ok (VInteger delta), put_world w key (FormatInt delta) 0 (lit "incrby")).
Proof.
  intros E Hd. unfold incrBy, with_key. cbn [BulkOf argString].
  change (default [] (Some key)) with key. unfold mbind at 1, attempt at 1. rewrite getEntry_map. unfold find_key. rewrite E.
  cbn [isNotFound]. change (isNotFound ENotFound) with true. cbn [negb]. cbv beta zeta. rewrite Z.add_0_l, (i64_id delta) by done.
  unfold is_i64, maxInt64, minInt64 in *.
  destruct (0 <? delta) eqn:D1, (delta <? 0) eqn:D2; breflect; try lia; zdec; cbn [andb orb]; rewrite commit_put; done.
Qed.

(** A sequence of INCRBY commands. *)
Fixpoint incr_run (key : bytes) (deltas : list Z) (w : W) : list (result Value) * W :=
  match deltas with
  | [] => ([], w)
  | d :: ds => let '(r, w1) := incrBy d [BulkOf key] w in
               let '(rs, w2) := incr_run key ds w1 in (r :: rs, w2)
  end.

Fixpoint partial_sums (acc : Z) (deltas : list Z) : list Z :=
  match deltas with
  | [] => []
  | d :: ds => (acc + d) :: partial_sums (acc + d) ds
  end.

Lemma incr_run_stored key deltas (w : W) acc :
  w_kv w !! StringKey key = Some (EncodeString (FormatInt acc) 0) -> is_i64 acc ->
  Forall is_i64 deltas -> Forall is_i64 (partial_sums acc deltas) ->
  (incr_run key deltas w).1 = map (fun n => Ok (VInteger n)) (partial_sums acc deltas) /\
  w_kv (incr_run key deltas w).2 !! StringKey key = Some (EncodeString (FormatInt (foldl Z.add acc deltas)) 0).
Proof.
  revert w acc; induction deltas as [|d ds IH]; intros w acc E Ha Hds Hps; cbn [incr_run partial_sums foldl map]; [done|].
  apply Forall_cons in Hds as [Hd Hds]. cbn in Hps. apply Forall_cons in Hps as [Hp Hps].
  rewrite (incrBy_stored key d w acc 0 (FormatInt acc)); [|done|unfold is_i64; lia|by left|by apply ParseInt_FormatInt|done].
  cbv zeta. cbn [Z.eqb]. rewrite bool_decide_eq_true_2 by done.
  specialize (IH (put_world w key (FormatInt (acc + d)) 0 (lit "incrby")) (acc + d) (put_lookup _ _ _ _ _) Hp Hds Hps).
  destruct (incr_run key ds _) as [rs w2]. cbn [fst snd] in *. destruct IH as [-> ->]. done.
Qed.

(** ** Overlaying *)

Lemma overlay_ok base val off :
  0 <= off -> off + len val <= maxAlloc -> len base <= maxAlloc ->
  let newLen := Z.max (len base) (off + len val) in
  exists p, overlay base val off newLen = Ok p /\ len p = newLen /\
    (forall i, (i < length p)%nat ->
       p !! i = if (off <=? Z.of_nat i) && (Z.of_nat i <? off + len val) then val !! (i - Z.to_nat off)%nat
                else if Z.of_nat i <? len base then base !! i else Some "000"%char).
Proof.
  intros Ho Hv Hb newLen. pose proof (len_nonneg base). pose proof (len_nonneg val). unfold overlay.
  unfold make_ok. assert ((0 <=? newLen) = true) as -> by (unfold newLen; zdec; done).
  assert ((newLen * 1 <=? maxAlloc) = true) as -> by (apply Z.leb_le; unfold newLen; lia). cbn [andb negb].
  assert ((newLen <? off) = false) as -> by (apply Z.ltb_ge; unfold newLen; lia).
  set (out := take (Z.to_nat newLen) (base ++ replicate (Z.to_nat (newLen - len base)) "000"%char)).
  assert (length out = Z.to_nat newLen) as Hlen.
  { unfold out. rewrite length_take, length_app, length_replicate. unfold newLen, len in *. lia. }
  assert (forall i, (i < Z.to_nat newLen)%nat -> out !! i = if Z.of_nat i <? len base then base !! i else Some "000"%char) as Hout.
  { intros i Hi. unfold out. rewrite lookup_take_lt by done. destruct (Z.of_nat i <? len base) eqn:L; breflect; unfold len in *.
    - by rewrite lookup_app_l by lia.
    - rewrite lookup_app_r by lia. apply lookup_replicate_2. unfold newLen in *. lia. }
  set (k := Z.to_nat off). assert (take (length (drop k out)) val = val) as ->.
  { apply take_ge. rewrite length_drop, Hlen. unfold newLen, k, len in *. lia. }
  eexists. split; [reflexivity|].
  assert (length (take k out) = k) as Hk by (rewrite length_take, Hlen; unfold newLen, k, len in *; lia).
  split. { unfold len. rewrite !length_app, length_drop, length_drop, Hk, Hlen. unfold newLen, k, len in *. lia. }
  intros i Hi. rewrite !length_app, !length_drop, Hk, Hlen in Hi. destruct (Z.leb_spec off (Z.of_nat i)); cbn [andb].
  - rewrite lookup_app_r by (rewrite Hk; unfold k; lia). rewrite Hk. destruct (Z.ltb_spec (Z.of_nat i) (off + len val)).
    + rewrite lookup_app_l by (unfold k, len in *; lia). done.
    + rewrite lookup_app_r by (unfold k, len in *; lia). rewrite !lookup_drop.
      replace (k + (length val + (i - k - length val)))%nat with i by (unfold k, len in *; lia).
      apply Hout. unfold newLen, k, len in *. lia.
  - rewrite lookup_app_l by (rewrite Hk; unfold k; lia). rewrite lookup_take_lt by (unfold k; lia).
    apply Hout. unfold newLen, k, len in *. lia.
Qed.

Lemma getrange_stored key w exp payload start end_ :
  w_kv w !! StringKey key = Some (EncodeString payload exp) -> is_i64 exp ->
  exp = 0 \/ clock_ns (w_tick w) < exp -> is_i64 start -> is_i64 end_ ->
  getrange [BulkOf key; BulkOf (FormatInt start); BulkOf (FormatInt end_)] w =
  (let '(s, e) := clamp_range (len payload) start end_ in
   Ok (BulkOf (if (e <? s) || (len payload <=? s) then [] else take (Z.to_nat (e + 1 - s)) (drop (Z.to_nat s) payload))),
   if exp =? 0 then w else ticked w).
Proof.
  intros E Hi Hl Hs He. unfold getrange, with_key. cbn [BulkOf argString].
  change (default [] (Some key)) with key. change (default [] (Some (FormatInt start))) with (FormatInt start).
  change (default [] (Some (FormatInt end_))) with (FormatInt end_). rewrite !ParseInt_FormatInt by done.
  unfold mbind at 1, attempt at 1. rewrite (getEntry_string key w exp payload) by done. cbn [Payload].
  destruct (clamp_range _ _ _) as [s e]. by destruct (_ || _).
Qed.

Lemma setrange_stored key w exp base val off :
  w_kv w !! StringKey key = Some (EncodeString base exp) -> is_i64 exp ->
  exp = 0 \/ clock_ns (w_tick w) < exp ->
  0 <= off -> off + len val <= maxAlloc -> len base <= maxAlloc ->
  exists p, overlay base val off (Z.max (len base) (off + len val)) = Ok p /\
    setrange [BulkOf key; BulkOf (FormatInt off); BulkOf val] w =
    (Ok (VInteger (Z.max (len base) (off + len val))),
     put_world (if exp =? 0 then w else ticked w) key p exp (lit "setrange")).
Proof.
  intros E Hi Hl Ho Hv Hb. destruct (overlay_ok base val off Ho Hv Hb) as (p & Hp & _). exists p. split; [done|].
  pose proof (len_nonneg val). pose proof (len_nonneg base). unfold maxAlloc in *.
  unfold setrange, with_key. cbn [BulkOf argString]. change (default [] (Some key)) with key.
  change (default [] (Some (FormatInt off))) with (FormatInt off).
  rewrite ParseInt_FormatInt by (unfold is_i64; lia). zdec. unfold with_value. change (argString (BulkOf val)) with (Some val). cbv beta iota. unfold get_base, mbind at 1, attempt at 1.
  rewrite (getEntry_string key w exp base) by done. cbn [Payload Expiry].
  rewrite (i64_id (off + len val)) by (unfold is_i64; lia).
  assert ((if len base <? off + len val then off + len val else len base) = Z.max (len base) (off + len val)) as ->.
  { destruct (Z.ltb_spec (len base) (off + len val)); lia. }
  unfold mbind at 1, lift. rewrite Hp. rewrite commit_put. done.
Qed.

(** ** Properties *)

(** SET then GET: when a plain SET answers OK, GET on the same key
    answers the value that was set (whatever the key held before), the key has
    no expiry left, and no other key's entries were touched. *)
Theorem set_then_get key value w w1 :
  set_ [BulkOf key; BulkOf value] w = (Ok okReply, w1) ->
  get [BulkOf key] w1 = (Ok (BulkOf value), w1) /\
  w_kv w1 !! StringKey key = Some (EncodeString value 0) /\
  (forall raw, (forall p, raw <> p ++ key) -> w_kv w1 !! raw = w_kv w !! raw).
Proof.
  intros E. assert (w1 = put_world (getEntry key w).2 key value 0 (lit "set")) as ->.
  { rewrite set_plain in E. destruct (getEntry key w) as [[?|e|] w']; cbn in *; try congruence.
    destruct (isNotFound e); [congruence | discriminate E]. }
  split_and!.
  - rewrite get_plain, (getEntry_string key _ 0 value); [done | apply put_lookup | unfold is_i64; lia | by left].
  - apply put_lookup.
  - intros raw Hr. cbn. rewrite lookup_insert_ne by (intros <-; by apply (Hr (lit "s:"))).
    rewrite getEntry_world. by apply find_key_frame.
Qed.

(** C26: INCRBY on a live integer string is exact signed 64-bit addition: the
    reply and the stored numeral are the sum, the expiry is kept; when the sum
    leaves the range the command is refused and nothing is written. *)
Theorem incrby_exact key delta w cur exp payload :
  w_kv w !! StringKey key = Some (EncodeString payload exp) -> is_i64 exp ->
  exp = 0 \/ clock_ns (w_tick w) < exp ->
  ParseInt payload = Some cur -> is_i64 delta ->
  let '(r, w') := incrby [BulkOf key; BulkOf (FormatInt delta)] w in
  if bool_decide (is_i64 (cur + delta))
  then r = Ok (VInteger (cur + delta)) /\ w_kv w' = <[StringKey key := EncodeString (FormatInt (cur + delta)) exp]> (w_kv w)
  else r = Ok (errS "ERR increment or decrement would overflow") /\ w_kv w' = w_kv w.
Proof.
  intros E Hi Hl Hp Hd. unfold incrby, with_int. cbn [BulkOf argString].
  change (default [] (Some (FormatInt delta))) with (FormatInt delta). rewrite ParseInt_FormatInt by done.
  change (VBulkString (Some key)) with (BulkOf key). rewrite (incrBy_stored key delta w cur exp payload) by done.
  cbv zeta. case_bool_decide; cbn [w_kv put_world]; by rewrite kv_ticked.
Qed.

(** A counter: from a missing key, any sequence of INCRBY whose partial
    sums stay in range answers exactly those partial sums, and the key ends
    holding the total. *)
Theorem incr_sequence_is_sum key deltas w :
  first_hit typePrefixes key (w_kv w) = None ->
  Forall is_i64 deltas -> Forall is_i64 (partial_sums 0 deltas) -> deltas <> [] ->
  (incr_run key deltas w).1 = map (fun n => Ok (VInteger n)) (partial_sums 0 deltas) /\
  w_kv (incr_run key deltas w).2 !! StringKey key = Some (EncodeString (FormatInt (foldl Z.add 0 deltas)) 0).
Proof.
  intros E Hds Hps Hne. destruct deltas as [|d ds]; [done|]. cbn [incr_run partial_sums foldl map] in *.
  apply Forall_cons in Hds as [Hd Hds]. apply Forall_cons in Hps as [Hp Hps]. rewrite Z.add_0_l in *.
  rewrite (incrBy_missing key d w E Hd).
  pose proof (incr_run_stored key ds (put_world w key (FormatInt d) 0 (lit "incrby")) d (put_lookup _ _ _ _ _) Hd Hds Hps) as G.
  destruct (incr_run key ds _) as [rs w2]. cbn [fst snd] in *. destruct G as [-> ->]. done.
Qed.

(** SETRANGE writes the value at the offset (padding with zero bytes),
    keeps everything else and the expiry, and answers the new length; GETRANGE
    over the same range then answers exactly the value that was written. *)
Theorem setrange_getrange key w exp base val off :
  w_kv w !! StringKey key = Some (EncodeString base exp) -> is_i64 exp ->
  exp = 0 \/ clock_ns (S (w_tick w)) < exp -> exp = 0 \/ clock_ns (w_tick w) < exp ->
  0 <= off -> off + len val <= maxAlloc -> len base <= maxAlloc -> val <> [] ->
  exists p w1,
    setrange [BulkOf key; BulkOf (FormatInt off); BulkOf val] w = (Ok (VInteger (len p)), w1) /\
    w_kv w1 = <[StringKey key := EncodeString p exp]> (w_kv w) /\
    len p = Z.max (len base) (off + len val) /\
    (forall i, (i < length p)%nat ->
       p !! i = if (off <=? Z.of_nat i) && (Z.of_nat i <? off + len val) then val !! (i - Z.to_nat off)%nat
                else if Z.of_nat i <? len base then base !! i else Some "000"%char) /\
    (getrange [BulkOf key; BulkOf (FormatInt off); BulkOf (FormatInt (off + len val - 1))] w1).1 = Ok (BulkOf val).
Proof.
  intros E Hi Hl1 Hl Ho Hv Hb Hne. destruct (overlay_ok base val off Ho Hv Hb) as (p & Hp & Hlen & Hat).
  destruct (setrange_stored key w exp base val off E Hi Hl Ho Hv Hb) as (p' & Hp' & Hs).
  rewrite Hp in Hp'. apply Ok_inj in Hp'. subst p'. rewrite <- Hlen in Hs. exists p. eexists. split; [exact Hs|].
  cbn [w_kv put_world]. rewrite kv_ticked. split; [done|]. split; [done|]. split; [done|].
  pose proof (len_nonneg base). assert (0 < len val) by (destruct val; [done|]; rewrite len_cons; pose proof (len_nonneg val); lia).
  unfold maxAlloc in *.
  rewrite (getrange_stored key _ exp p); [|apply put_lookup|done| |unfold is_i64; lia..].
  2: { cbn [w_tick put_world]. destruct (exp =? 0) eqn:Z0; [breflect; by left | exact Hl1]. }
  unfold clamp_range. zdec. cbv zeta. zdec. cbn [fst orb]. zdec. f_equal. f_equal. f_equal.
  replace (off + len val - 1 + 1 - off) with (len val) by lia.
  apply list_eq. intros i. destruct (Nat.lt_ge_cases i (length val)) as [Hlt|Hge].
  - rewrite lookup_take_lt by (unfold len in *; lia). rewrite lookup_drop, Hat by (unfold len in *; lia).
    unfold len in *. zdec. cbn [andb]. f_equal. lia.
  - rewrite (lookup_ge_None_2 val) by done. apply lookup_ge_None_2. rewrite length_take. unfold len in *. lia.
Qed.

End spec.

(** ** Witnesses and counterexamples *)

Section examples.
Import datastruct.

Lemma set_then_get_witness :
  @get _ map_kv step_clock [BulkOf (lit "k")] (run (fun c u => @set_ _ map_kv c u) [BulkOf (lit "k"); BulkOf (lit "v")] empty_world).2
  = (Ok (BulkOf (lit "v")), (run (fun c u => @set_ _ map_kv c u) [BulkOf (lit "k"); BulkOf (lit "v")] empty_world).2).
Proof.
  refine (proj1 (@set_then_get step_clock ascii_tables (lit "k") (lit "v") empty_world _ _)).
  vm_compute. reflexivity.
Defined.

Definition counter_world : world (gmap bytes bytes) :=
  world_of [(StringKey (lit "n"), EncodeString (lit "9223372036854775800") 0)].

Lemma incrby_exact_witness :
  (run (fun c u => @incrby _ map_kv c) [BulkOf (lit "n"); BulkOf (FormatInt 8)] counter_world).1
  = Ok (errS "ERR increment or decrement would overflow").
Proof.
  pose proof (@incrby_exact step_clock (lit "n") 8 counter_world 9223372036854775800 0 (lit "9223372036854775800")
    ltac:(vm_compute; reflexivity) ltac:(unfold is_i64; lia) ltac:(by left) ltac:(vm_compute; reflexivity) ltac:(unfold is_i64; lia)) as G.
  unfold run. destruct (incrby _ counter_world) as [r w']. rewrite bool_decide_eq_false_2 in G by (unfold is_i64; lia). exact (proj1 G).
Defined.

Lemma incr_sequence_is_sum_witness :
  (@incr_run step_clock (lit "n") [5; -7; 10] empty_world).1 = [Ok (VInteger 5); Ok (VInteger (-2)); Ok (VInteger 8)].
Proof.
  refine (proj1 (@incr_sequence_is_sum step_clock (lit "n") [5; -7; 10] empty_world _ _ _ _)).
  - vm_compute. reflexivity.
  - repeat constructor; unfold is_i64; lia.
  - repeat constructor; cbn; unfold is_i64; lia.
  - discriminate.
Defined.

Definition range_world : world (gmap bytes bytes) := world_of [(StringKey (lit "k"), EncodeString (lit "Hello World") 0)].

Lemma setrange_getrange_witness :
  exists (p : bytes) w1,
    @setrange _ map_kv step_clock [BulkOf (lit "k"); BulkOf (FormatInt 6); BulkOf (lit "Redis!")] range_world = (Ok (VInteger (len p)), w1) /\
    (@getrange _ map_kv step_clock [BulkOf (lit "k"); BulkOf (FormatInt 6); BulkOf (FormatInt (6 + len (lit "Redis!") - 1))] w1).1
    = Ok (BulkOf (lit "Redis!")).
Proof.
  destruct (@setrange_getrange step_clock (lit "k") range_world 0 (lit "Hello World") (lit "Redis!") 6) as (p & w1 & H1 & _ & _ & _ & H2);
    [vm_compute; reflexivity | unfold is_i64; lia | by left | by left | lia | vm_compute; discriminate | vm_compute; discriminate
    | vm_compute; discriminate |].
  exists p, w1. exact (conj H1 H2).
Defined.

(** The expiry options of SET are recognised in any case but applied only
    in upper case: SET k v ex 10 answers OK and stores the key without an
    expiry. *)
Theorem set_lowercase_ex_is_dropped :
  exists w1 w2,
    run (fun c u => @set_ _ map_kv c u) [BulkOf (lit "k"); BulkOf (lit "v"); BulkOf (lit "ex"); BulkOf (lit "10")] empty_world
      = (Ok okReply, w1) /\
    w_kv w1 !! StringKey (lit "k") = Some (EncodeString (lit "v") 0) /\
    run (fun c u => @set_ _ map_kv c u) [BulkOf (lit "k"); BulkOf (lit "v"); BulkOf (lit "EX"); BulkOf (lit "10")] empty_world
      = (Ok okReply, w2) /\
    w_kv w2 !! StringKey (lit "k") = Some (EncodeString (lit "v") 10000001000).
Proof. eexists _, _. split_and!; vm_compute; reflexivity. Qed.

(** SETRANGE does not bound its offset: with the largest offset the
    handler panics, on a slice bound when a missing key is written. *)
Theorem setrange_huge_offset_panics :
  (run (fun c u => @setrange _ map_kv c) [BulkOf (lit "k"); BulkOf (lit "9223372036854775807"); BulkOf (lit "v")] empty_world).1 = Panic.
Proof. vm_compute. reflexivity. Qed.

(** A key can hold two types, and an expiring string then takes a stream
    with it: SETEX on a key that holds a stream writes the string beside it,
    and the lookup that finds the string expired deletes both. *)
Theorem expired_string_deletes_stream :
  let w := world_of [(StreamKey (lit "k"), Encode TypeStream 0 []); (StringKey (lit "k"), EncodeString (lit "v") 500)] in
  exists w1,
    run (fun c u => @get _ map_kv c) [BulkOf (lit "k")] w = (Ok nilBulk, w1) /\
    w_kv w !! StreamKey (lit "k") = Some (Encode TypeStream 0 []) /\ w_kv w1 !! StreamKey (lit "k") = None.
Proof. eexists. split_and!; vm_compute; reflexivity. Qed.

(** SETEX itself creates such a state. *)
Theorem setex_keeps_other_type :
  let w := world_of [(StreamKey (lit "k"), Encode TypeStream 0 [])] in
  exists w1,
    run (fun c u => @setex _ map_kv c) [BulkOf (lit "k"); BulkOf (lit "1"); BulkOf (lit "v")] w = (Ok okReply, w1) /\
    is_Some (w_kv w1 !! StreamKey (lit "k")) /\ is_Some (w_kv w1 !! StringKey (lit "k")).
Proof. eexists. split_and!; [vm_compute; reflexivity | vm_compute; eauto | vm_compute; eauto]. Qed.

End examples.
