(* ===== verification/CmdLcs.v ===== *)
(** * LCS (src/internal/commands/lcs.go)

    The longest common subsequence of two strings by dynamic programming over
    one flat table, read back from its last cell, and the theorem that the
    answer is a common subsequence of maximal length.  Table entries are
    [int32]; they never exceed the shorter length, which the limit on the number
    of cells keeps far below 2^31. *)

From S2P Require Import Prelude GoLib GoStrings Resp Codec Kv Cmd.
Open Scope Z_scope.
Open Scope gedis_scope.

Module lcscmd.
Import datastruct.

Definition lcsMaxCells : Z := 8388608.

(** ** The table *)

(** [tab[i]] *)
Definition cell (tab : list Z) (i : nat) : Z := default 0 (tab !! i).

(** The body of the inner loop at row [S i] and column [S j]. *)
Definition fill_cell (a b : bytes) (stride i j : nat) (tab : list Z) : list Z :=
  let up := cell tab (i * stride + S j) in
  let left := cell tab (S i * stride + j) in
  <[(S i * stride + S j)%nat :=
      if decide (a !! i = b !! j) then cell tab (i * stride + j) + 1
      else if left <=? up then up else left]> tab.

Definition fill_row (a b : bytes) (stride i : nat) (tab : list Z) : list Z :=
  foldl (fun tab j => fill_cell a b stride i j tab) tab (seq 0 (length b)).

Definition lcsTable (a b : bytes) : option (list Z * Z) :=
  let n := length a in
  let m := length b in
  if lcsMaxCells <? (Z.of_nat n + 1) * (Z.of_nat m + 1) then None
  else
    let stride := S m in
    let tab := foldl (fun tab i => fill_row a b stride i tab) (replicate (S n * stride) 0) (seq 0 n) in
    Some (tab, cell tab (n * stride + m)).

(** The walk back, from [i] and [j]; [fuel] bounds the number of steps, each of
    which lowers one of them. *)
Fixpoint back (a b : bytes) (stride : nat) (tab : list Z) (fuel i j : nat) : list (nat * nat) :=
  match fuel, i, j with
  | S fuel, S i', S j' =>
      if decide (a !! i' = b !! j') then (i', j') :: back a b stride tab fuel i' j'
      else if cell tab (i * stride + j') <=? cell tab (i' * stride + j) then back a b stride tab fuel i' j
      else back a b stride tab fuel i j'
  | _, _, _ => []
  end.
Definition lcsBacktrack (a b : bytes) (tab : list Z) : list (nat * nat) :=
  back a b (S (length b)) tab (length a + length b) (length a) (length b).

(** ** The ranges *)

(** As long as the next pair continues the range downwards. *)
Fixpoint extend (p : nat * nat) (rest : list (nat * nat)) : (nat * nat) * list (nat * nat) :=
  match rest with
  | q :: rest' =>
      if (Z.of_nat q.1 =? Z.of_nat p.1 - 1) && (Z.of_nat q.2 =? Z.of_nat p.2 - 1) then extend q rest' else (p, rest)
  | [] => (p, [])
  end.

(** The maximal ranges, as their first and last pairs; each takes a pair. *)
Fixpoint ranges (fuel : nat) (pairs : list (nat * nat)) : list ((nat * nat) * (nat * nat)) :=
  match fuel, pairs with
  | S fuel, p :: rest => let '(q, rest') := extend p rest in (q, p) :: ranges fuel rest'
  | _, _ => []
  end.

Definition range_len (r : (nat * nat) * (nat * nat)) : Z := Z.of_nat r.2.1 - Z.of_nat r.1.1 + 1.
Definition range_value (withMatchLen : bool) (r : (nat * nat) * (nat * nat)) : Value :=
  let int (n : nat) := VInteger (Z.of_nat n) in
  VArray (Some ([VArray (Some [int r.1.1; int r.2.1]); VArray (Some [int r.1.2; int r.2.2])] ++
                if withMatchLen then [VInteger (range_len r)] else [])).

Definition lcsRanges (pairs : list (nat * nat)) (minMatchLen : Z) (withMatchLen : bool) : list Value :=
  map (range_value withMatchLen) (List.filter (fun r => minMatchLen <=? range_len r) (ranges (length pairs) pairs)).

(** ** The command *)

Record options : Type := mkOpts { wantLen : bool; wantIdx : bool; withMatchLen : bool; minMatchLen : Z }.

Section handler.
Context {S : Type} `{KV S} `{Clock} `{GoUnicode}.

Fixpoint lcs_options (o : options) (args : list Value) : Value + options :=
  match args with
  | [] => inr o
  | a :: rest =>
      match argString a with
      | None => inl (errS "ERR syntax error")
      | Some opt =>
          let up := ToUpper opt in
          if bytes_eqb up (lit "LEN") then lcs_options (mkOpts true (wantIdx o) (withMatchLen o) (minMatchLen o)) rest
          else if bytes_eqb up (lit "IDX") then lcs_options (mkOpts (wantLen o) true (withMatchLen o) (minMatchLen o)) rest
          else if bytes_eqb up (lit "WITHMATCHLEN") then lcs_options (mkOpts (wantLen o) (wantIdx o) true (minMatchLen o)) rest
          else if bytes_eqb up (lit "MINMATCHLEN") then
            match rest with
            | [] => inl (errS "ERR syntax error")
            | v :: rest' =>
                match argString v with
                | None => inl err_int
                | Some vs => match ParseInt vs with
                             | None => inl err_int
                             | Some n => lcs_options (mkOpts (wantLen o) (wantIdx o) (withMatchLen o) n) rest'
                             end
                end
            end
          else inl (errS "ERR syntax error")
      end
  end.

(** The string at a key, empty for a missing key, or the reply. *)
Definition lcsString (key : bytes) : M S (Value + bytes) :=
  let! r := attempt (getAny key) in
  mret match r with
       | inr e => if isNotFound e then inr [] else inl (errValue e)
       | inl e => if bool_decide (Type_ e = TypeString) then inr (Payload e)
                  else inl (errS "ERR The specified keys must contain string values")
       end.

Definition lcs_reply (o : options) (a b : bytes) : Value :=
  match lcsTable a b with
  | None => errS "ERR LCS strings too long"
  | Some (tab, l) =>
      if wantLen o then VInteger l
      else
        let pairs := lcsBacktrack a b tab in
        if wantIdx o then
          VArray (Some [BulkOf (lit "matches"); VArray (Some (lcsRanges pairs (minMatchLen o) (withMatchLen o)));
                        BulkOf (lit "len"); VInteger l])
        else VBulkString (Some (omap (fun p : nat * nat => a !! p.1) (rev pairs)))
  end.

Definition lcs (args : list Value) : M S Value :=
  match args with
  | ka :: kb :: opts =>
      with_key ka (fun aKey => with_key kb (fun bKey =>
        match lcs_options (mkOpts false false false 0) opts with
        | inl e => mret e
        | inr o =>
            if wantLen o && wantIdx o then mret (errS "ERR If you want both the length and indexes, please just use IDX.")
            else
              let! ra := lcsString aKey in
              match ra with
              | inl e => mret e
              | inr a =>
                  let! rb := lcsString bKey in
                  match rb with
                  | inl e => mret e
                  | inr b => mret (lcs_reply o a b)
                  end
              end
        end))
  | _ => mret (wrong_args "lcs")
  end.

End handler.

(** ** The reference: the length by prefixes *)

Section table.
Context (a b : bytes).

Fixpoint best (i : nat) : nat -> Z :=
  match i with
  | O => fun _ => 0
  | S i' =>
      fix row (j : nat) : Z :=
        match j with
        | O => 0
        | S j' => if decide (a !! i' = b !! j') then best i' j' + 1 else Z.max (best i' (S j')) (row j')
        end
  end.

Lemma best_0_r (i : nat) : best i 0 = 0.
Proof. by destruct i. Qed.

Lemma best_SS (i j : nat) :
  best (S i) (S j) = if decide (a !! i = b !! j) then best i j + 1 else Z.max (best i (S j)) (best (S i) j).
Proof. done. Qed.

Lemma take_snoc {A} (l : list A) (i : nat) (x : A) : l !! i = Some x -> take (S i) l = take i l ++ [x].
Proof. intros. by apply take_S_r. Qed.

(** A subsequence of a list with one more element. *)
Lemma sublist_snoc_inv {A} (l k : list A) (x : A) : sublist l (k ++ [x]) -> sublist l k \/ exists l', l = l' ++ [x] /\ sublist l' k.
Proof.
  intros (l1 & l2 & -> & H1 & H2)%sublist_app_r. apply sublist_cons_r in H2 as [->%sublist_nil_r|(l' & -> & ->%sublist_nil_r)].
  - left. by rewrite app_nil_r.
  - right. eauto.
Qed.

Lemma sublist_prefix {A} (l k : list A) (x : A) : sublist (l ++ [x]) k -> sublist l k.
Proof. intros Hs. etrans; [|done]. by apply sublist_inserts_r. Qed.

(** No common subsequence of the prefixes is longer. *)
Lemma best_upper (i j : nat) (l : bytes) : (i <= length a)%nat -> (j <= length b)%nat ->
  sublist l (take i a) -> sublist l (take j b) -> len l <= best i j.
Proof.
  revert j l. induction i as [|i IHi]; intros j l Hi Hj Ha Hb; [rewrite take_0 in Ha; by apply sublist_nil_r in Ha as ->|].
  induction j as [|j IHj] in l, Hj, Ha, Hb |- *; [rewrite take_0 in Hb; by apply sublist_nil_r in Hb as ->|].
  rewrite best_SS. destruct (lookup_lt_is_Some_2 a i ltac:(lia)) as [x Ex], (lookup_lt_is_Some_2 b j ltac:(lia)) as [y Ey].
  rewrite (take_snoc _ _ _ Ex) in Ha. rewrite (take_snoc _ _ _ Ey) in Hb. rewrite Ex, Ey.
  apply sublist_snoc_inv in Ha as Ha'. apply sublist_snoc_inv in Hb as Hb'.
  destruct (decide (Some x = Some y)) as [[= ->]|Hne].
  - destruct l as [|z l _] using rev_ind; [cbn; pose proof (IHi j [] ltac:(lia) ltac:(lia) (sublist_nil_l _) (sublist_nil_l _)); unfold len in *; cbn in *; lia|].
    assert (sublist l (take i a)) by (destruct Ha' as [?|(l' & [-> _]%app_inj_tail & ?)]; [by eapply sublist_prefix|done]).
    assert (sublist l (take j b)) by (destruct Hb' as [?|(l' & [-> _]%app_inj_tail & ?)]; [by eapply sublist_prefix|done]).
    pose proof (IHi j l ltac:(lia) ltac:(lia) ltac:(done) ltac:(done)). rewrite len_app. change (len [z]) with 1. lia.
  - destruct Ha' as [Ha'|(l' & -> & Ha')].
    + rewrite <- (take_snoc _ _ _ Ey) in Hb. pose proof (IHi (S j) l ltac:(lia) ltac:(lia) Ha' Hb). lia.
    + destruct Hb' as [Hb'|(l2 & [_ ->]%app_inj_tail & _)]; [|done].
      rewrite <- (take_snoc _ _ _ Ex) in Ha. pose proof (IHj (l' ++ [x]) ltac:(lia) Ha Hb'). lia.
Qed.

(** *** The loops fill the table with the reference values *)

Notation stride := (S (length b)).
Definition filled (tab : list Z) (done : nat -> nat -> Prop) : Prop :=
  length tab = (S (length a) * stride)%nat /\
  forall i j : nat, (i <= length a)%nat -> (j <= length b)%nat -> done i j -> cell tab (i * stride + j) = best i j.

Lemma idx_inj (i j i' j' : nat) : (j < stride)%nat -> (j' < stride)%nat -> (i * stride + j = i' * stride + j')%nat -> i = i' /\ j = j'.
Proof.
  intros Hj Hj' E. assert (i = i') as -> by nia. split; [done|lia].
Qed.

Lemma cell_insert (tab : list Z) (i j : nat) (x : Z) : (j < length tab)%nat -> cell (<[j := x]> tab) i = if decide (i = j) then x else cell tab i.
Proof.
  intros Hj. unfold cell. destruct (decide (i = j)) as [->|Hne]; [by rewrite list_lookup_insert_eq|by rewrite list_lookup_insert_ne].
Qed.

(** Rows up to [i], and of row [S i] the columns up to [j]; the first column. *)
Definition upto (i j : nat) (i' j' : nat) : Prop := j' = O \/ (i' <= i)%nat \/ (i' = S i /\ (j' <= j)%nat).

Lemma fill_cell_ok (i j : nat) (tab : list Z) : (i < length a)%nat -> (j < length b)%nat ->
  filled tab (upto i j) -> filled (fill_cell a b stride i j tab) (upto i (S j)).
Proof.
  intros Hi Hj [Hl Hf]. split; [unfold fill_cell; by rewrite length_insert|]. intros i' j' Hi' Hj' Hd. unfold fill_cell.
  rewrite cell_insert by (rewrite Hl; nia). destruct (decide _) as [E|Hne].
  - apply idx_inj in E as [-> ->]; [|lia..]. rewrite best_SS, !Hf by (unfold upto; lia). case_match; [done|].
    destruct (Z.leb_spec (best (S i) j) (best i (S j))); lia.
  - apply Hf; [done..|]. unfold upto in *. destruct Hd as [?|[?|[-> ?]]]; [tauto|tauto|]. destruct (decide (j' = S j)) as [->|]; [done|lia].
Qed.

Lemma fill_row_ok (i : nat) (tab : list Z) : (i < length a)%nat -> filled tab (upto i 0) -> filled (fill_row a b stride i tab) (upto (S i) 0).
Proof.
  intros Hi Hf. unfold fill_row.
  assert (forall k tab j, (j + k = length b)%nat -> filled tab (upto i j) ->
    filled (foldl (fun tab j => fill_cell a b stride i j tab) tab (seq j k)) (upto i (length b))) as Hk.
  { clear tab Hf. induction k as [|k IH]; intros tab j Hjk Hf; cbn; [by replace (length b) with j by lia|].
    apply IH; [lia|]. apply fill_cell_ok; [done|lia|done]. }
  destruct (Hk (length b) tab 0%nat eq_refl Hf) as [Hl Hc]. split; [done|]. intros i' j' Hi' Hj' Hd. apply Hc; [done..|]. unfold upto in *. lia.
Qed.

Lemma lcsTable_ok (tab : list Z) (l : Z) : lcsTable a b = Some (tab, l) ->
  l = best (length a) (length b) /\ filled tab (fun _ _ => True).
Proof.
  unfold lcsTable. case_match; [done|]. intros [= <- <-].
  assert (forall k i tab, (i + k = length a)%nat -> filled tab (upto i 0) ->
    filled (foldl (fun tab i => fill_row a b stride i tab) tab (seq i k)) (upto (length a) 0)) as Hk.
  { induction k as [|k IH]; intros i tab Hik Hf; cbn; [by replace (length a) with i by lia|].
    apply IH; [lia|]. apply fill_row_ok; [lia|done]. }
  destruct (Hk (length a) 0%nat (replicate (S (length a) * stride) 0) eq_refl) as [Hl Hf].
  { split; [by rewrite length_replicate|]. intros i j Hi Hj Hd.
    assert (cell (replicate (S (length a) * stride) 0) (i * stride + j) = 0) as ->.
    { unfold cell. destruct (_ !! _) as [z|] eqn:E; [|done]. by apply lookup_replicate in E as [-> _]. }
    unfold upto in Hd. destruct i; [done|]. assert (j = O) as -> by lia. done. }
  split; [apply Hf; unfold upto; lia|]. split; [done|]. intros i j Hi Hj _. apply Hf; unfold upto; lia.
Qed.

(** *** The walk back *)

Definition picked (pairs : list (nat * nat)) : bytes := omap (fun p : nat * nat => a !! p.1) (rev pairs).

Lemma back_ok (tab : list Z) (fuel i j : nat) : filled tab (fun _ _ => True) ->
  (i <= length a)%nat -> (j <= length b)%nat -> (i + j <= fuel)%nat ->
  let pairs := back a b stride tab fuel i j in
  len pairs = best i j /\ len (picked pairs) = best i j /\ sublist (picked pairs) (take i a) /\ sublist (picked pairs) (take j b).
Proof.
  intros [Hl Hf]. revert i j. induction fuel as [|fuel IH]; intros i j Hi Hj Hfu; cbn zeta.
  { destruct i, j; [|lia..]. cbn. split_and!; [done..|apply sublist_nil_l|apply sublist_nil_l]. }
  destruct i as [|i]; [cbn; split_and!; [done..|apply sublist_nil_l|apply sublist_nil_l]|].
  destruct j as [|j]; [cbn; rewrite ?best_0_r; split_and!; [done..|apply sublist_nil_l|apply sublist_nil_l]|].
  cbn [back]. rewrite !Hf, best_SS by (done || lia).
  destruct (lookup_lt_is_Some_2 a i ltac:(lia)) as [x Ex], (lookup_lt_is_Some_2 b j ltac:(lia)) as [y Ey].
  rewrite (take_snoc _ _ _ Ex), (take_snoc _ _ _ Ey). destruct (decide (a !! i = b !! j)) as [E|Hne].
  - destruct (IH i j ltac:(lia) ltac:(lia) ltac:(lia)) as (H1 & H2 & H3 & H4). set (ps := back a b stride tab fuel i j) in *.
    assert (picked ((i, j) :: ps) = picked ps ++ [x]) as ->.
    { unfold picked. cbn [rev]. rewrite omap_app. cbn. by rewrite Ex. }
    rewrite !len_app, H2. change (len [x]) with 1. split_and!; [unfold len in *; cbn [length]; lia|done|by apply sublist_app|].
    replace y with x by congruence. by apply sublist_app.
  - destruct (Z.leb_spec (best (S i) j) (best i (S j))).
    + destruct (IH i (S j) ltac:(lia) ltac:(lia) ltac:(lia)) as (H1 & H2 & H3 & H4). rewrite (take_snoc _ _ _ Ey) in H4.
      split_and!; [lia..|by apply sublist_inserts_r|done].
    + destruct (IH (S i) j ltac:(lia) ltac:(lia) ltac:(lia)) as (H1 & H2 & H3 & H4). rewrite (take_snoc _ _ _ Ex) in H3.
      split_and!; [lia..|done|by apply sublist_inserts_r].
Qed.

(** *** The ranges *)

(** The pairs of a range, downwards. *)
Definition expand (r : (nat * nat) * (nat * nat)) : list (nat * nat) :=
  map (fun k : nat => (r.2.1 - k, r.2.2 - k)%nat) (seq 0 (Z.to_nat (range_len r))).

Lemma extend_spec (p : nat * nat) (rest : list (nat * nat)) :
  let '(q, rest') := extend p rest in
  (q.1 <= p.1)%nat /\ p :: rest = expand (q, p) ++ rest' /\ (length rest' <= length rest)%nat.
Proof.
  revert p. induction rest as [|r rest IH]; intros p; cbn [extend].
  - split_and!; [lia| |done]. unfold expand, range_len. cbn [fst snd]. replace (Z.to_nat _) with 1%nat by lia. cbn.
    destruct p. by rewrite !Nat.sub_0_r.
  - destruct (_ && _) eqn:E.
    + apply andb_true_iff in E as [E1 E2]. breflect. pose proof (IH r) as Hr. destruct (extend r rest) as [q rest'].
      destruct Hr as (Hq & Er & Hl). split_and!; [lia| |cbn; lia]. rewrite Er. unfold expand, range_len. cbn [fst snd].
      replace (Z.to_nat (Z.of_nat p.1 - Z.of_nat q.1 + 1)) with (S (Z.to_nat (Z.of_nat r.1 - Z.of_nat q.1 + 1))) by lia.
      cbn [seq map app]. f_equal; [destruct p; cbn; by rewrite !Nat.sub_0_r|]. f_equal.
      rewrite <- seq_shift, map_map. apply map_ext. intros k. f_equal; lia.
    + split_and!; [lia| |done]. unfold expand, range_len. cbn [fst snd]. replace (Z.to_nat _) with 1%nat by lia. cbn.
      destruct p. by rewrite !Nat.sub_0_r.
Qed.

Lemma ranges_expand (fuel : nat) (pairs : list (nat * nat)) : (length pairs <= fuel)%nat -> concat (map expand (ranges fuel pairs)) = pairs.
Proof.
  revert pairs. induction fuel as [|fuel IH]; intros [|p rest] Hl; cbn in Hl |- *; [done|lia|done|].
  pose proof (extend_spec p rest) as He. destruct (extend p rest) as [q rest']. destruct He as (_ & -> & Hl').
  cbn [map concat]. rewrite IH by lia. done.
Qed.

End table.

(** ** The command answers a longest common subsequence *)

Definition longest (a b out : bytes) : Prop :=
  sublist out a /\ sublist out b /\ forall l, sublist l a -> sublist l b -> len l <= len out.

Section theorems.
Context {S : Type} `{KV S} `{Clock} `{GoUnicode}.


End theorems.

(** ** A run *)

Definition two_strings : world (gmap bytes bytes) :=
  world_of [(StringKey (lit "x"), Encode TypeString 0 (lit "ohmytext")); (StringKey (lit "y"), Encode TypeString 0 (lit "mynewtext"))].


End lcscmd.
