(* ===== verification/CmdHll.v ===== *)
(** * HyperLogLog commands (src/internal/commands/hll.go)

    PFADD, PFCOUNT and PFMERGE, and the theorem that a keyspace of sketches
    behaves like one of collections of elements, each key's registers being
    those of one sketch to which all its elements were added. *)

From S2P Require Import Prelude GoLib GoStrings Resp Codec Kv Cmd Hll.
Open Scope Z_scope.
Open Scope gedis_scope.

Module hllcmd.
Import datastruct hll.

Section handlers.
Context {S : Type} `{KV S} `{Clock} `{GoFloatMath}.

Definition readHLL (key : bytes) : M S (bytes * Z) :=
  let! e := lookupKey key in
  if negb (bool_decide (Type_ e = TypeHLL)) then merr hll_wrongtype
  else let! r := attempt (lift (DecodeHLL (Payload e))) in
       match r with inl reg => mret (reg, Expiry e) | inr _ => merr hll_wrongtype end.

Definition writeHLL (key : bytes) (reg : bytes) (expiry : Z) : M S unit :=
  kvSet (HLLKey key) (Encode TypeHLL expiry (EncodeHLL reg)).

(** The elements in turn; [None] when one is not a string. *)
Fixpoint add_all (reg : bytes) (changed : bool) (args : list Value) {struct args} : option (bool * bytes) :=
  match args with
  | [] => Some (changed, reg)
  | a :: rest =>
      match argString a with
      | None => None
      | Some el => let '(c, reg) := HLLDenseAdd reg el in add_all reg (changed || c) rest
      end
  end.

Definition pfadd (args : list Value) : M S Value :=
  match args with
  | [] => mret (wrong_args "pfadd")
  | k :: els =>
      with_key k (fun key =>
        let! r := attempt (readHLL key) in
        let go (reg : bytes) (expiry : Z) (created : bool) : M S Value :=
          match add_all reg false els with
          | None => mret (errS "ERR invalid element")
          | Some (changed, reg) =>
              commit (writeHLL key reg expiry) (mret (VInteger (if changed || created then 1 else 0)))
          end in
        match r with
        | inl (reg, expiry) => go reg expiry false
        | inr e => if isNotFound e then go HLLNewDense 0 true else mret (errValue e)
        end)
  end.

(** The sketches of the keys merged into one, and whether there was any; or the
    reply of the first bad key. *)
Fixpoint merge_keys (reg : bytes) (found : bool) (args : list Value) {struct args} : M S (Value + (bytes * bool)) :=
  match args with
  | [] => mret (inr (reg, found))
  | a :: rest =>
      match argString a with
      | None => mret (inl (errS "ERR invalid key"))
      | Some key =>
          let! r := attempt (readHLL key) in
          match r with
          | inl (src, _) => merge_keys (HLLDenseMerge reg src).2 true rest
          | inr e => if isNotFound e then merge_keys reg found rest else mret (inl (errValue e))
          end
      end
  end.

(** [fuel] bounds the estimator's loops. *)
Definition count_value (fuel : nat) (reg : bytes) : M S Value :=
  match HLLDenseCount fuel reg with Some n => mret (VInteger (i64 n)) | None => mpanic end.

Definition pfcount (fuel : nat) (args : list Value) : M S Value :=
  match args with
  | [] => mret (wrong_args "pfcount")
  | [k] =>
      with_key k (fun key =>
        let! r := attempt (readHLL key) in
        match r with
        | inl (reg, _) => count_value fuel reg
        | inr e => mret (if isNotFound e then VInteger 0 else errValue e)
        end)
  | _ =>
      let! r := merge_keys HLLNewDense false args in
      match r with
      | inl e => mret e
      | inr (reg, found) => if found : bool then count_value fuel reg else mret (VInteger 0)
      end
  end.

Definition pfmerge (args : list Value) : M S Value :=
  match args with
  | [] => mret (wrong_args "pfmerge")
  | k :: srcs =>
      with_key k (fun dst =>
        let! r := attempt (lookupKey dst) in
        let go (merged : bytes) (expiry : Z) : M S Value :=
          let! m := merge_keys merged false srcs in
          match m with
          | inl e => mret e
          | inr (merged, _) =>
              commit (kvWriteBatch [mkBatchOp (HLLKey dst) (Encode TypeHLL expiry (EncodeHLL merged)) false]) (mret okReply)
          end in
        match r with
        | inl e =>
            if negb (bool_decide (Type_ e = TypeHLL)) then mret (errValue hll_wrongtype)
            else match DecodeHLL (Payload e) with
                 | Ok dstRegs => go (HLLDenseMerge HLLNewDense dstRegs).2 (Expiry e)
                 | Err x => mret (errValue x)
                 | Panic => mpanic
                 end
        | inr e => if isNotFound e then go HLLNewDense 0 else mret (errValue e)
        end)
  end.

End handlers.

(** ** Collections of elements *)

Notation db := (gmap bytes (gset bytes)).

(** What the elements of a collection make of a register. *)
Definition level (X : gset bytes) (pos : Z) : Z := foldr (fun e n => Z.max (mark e pos) n) 0 (elements X).

Lemma level_le (X : gset bytes) (pos n : Z) : level X pos <= n <-> 0 <= n /\ forall e, e ∈ X -> mark e pos <= n.
Proof.
  unfold level. setoid_rewrite <- elem_of_elements. induction (elements X) as [|e l IH]; cbn [foldr].
  - split; [intros; split; [done|intros e He; by apply elem_of_nil in He]|tauto].
  - rewrite Z.max_lub_iff, IH. split.
    + intros (He & Hn & Hl). split; [done|]. intros e' [-> | He']%elem_of_cons; auto.
    + intros (Hn & Hl). repeat split; [apply Hl; by left|done|intros; apply Hl; by right].
Qed.

Lemma level_nonneg (X : gset bytes) (pos : Z) : 0 <= level X pos.
Proof. by apply (level_le X pos (level X pos)). Qed.

Lemma level_max (X Y : gset bytes) (pos : Z) : level (X ∪ Y) pos = Z.max (level X pos) (level Y pos).
Proof.
  assert (forall n, level (X ∪ Y) pos <= n <-> Z.max (level X pos) (level Y pos) <= n) as Hn.
  { intros n. rewrite Z.max_lub_iff, !level_le. setoid_rewrite elem_of_union. naive_solver. }
  apply Z.le_antisymm; [apply Hn|apply (Hn (level (X ∪ Y) pos))]; lia.
Qed.

Lemma level_singleton (e : bytes) (pos : Z) : level {[e]} pos = mark e pos.
Proof.
  unfold level. rewrite elements_singleton. cbn [foldr]. unfold mark. case_match; [|done]. pose proof (hllPatLen_range e). lia.
Qed.

Lemma level_empty (pos : Z) : level ∅ pos = 0.
Proof. done. Qed.

(** The registers are those of one sketch to which the collection was added. *)
Record sketches (reg : bytes) (X : gset bytes) : Prop := {
  sk_len : regs_ok reg;
  sk_get : forall pos, 0 <= pos < hllRegisters -> hllDenseGet reg pos = level X pos;
}.

Lemma sketches_new : sketches HLLNewDense ∅.
Proof. split; [unfold regs_ok, len, HLLNewDense; by rewrite length_replicate|]. intros pos _. by rewrite HLLNewDense_get. Qed.

Lemma sketches_add (reg : bytes) (X : gset bytes) (e : bytes) : sketches reg X -> sketches (HLLDenseAdd reg e).2 (X ∪ {[e]}).
Proof.
  intros [Hl Hg]. split; [by apply (add_spec reg e 0)|]. intros pos Hp. destruct (add_spec reg e pos Hl) as [-> _]; [lia|].
  by rewrite Hg, level_max, level_singleton by done.
Qed.

Lemma sketches_merge (r1 r2 : bytes) (X Y : gset bytes) : sketches r1 X -> sketches r2 Y -> sketches (HLLDenseMerge r1 r2).2 (X ∪ Y).
Proof.
  intros [Hl Hg] [_ Hg2]. split; [apply (merge_spec r1 r2 0 Hl); unfold hllRegisters; lia|]. intros pos Hp.
  destruct (merge_spec r1 r2 pos Hl Hp) as [-> _]. by rewrite Hg, Hg2, level_max by done.
Qed.

(** The reference sketch, and its estimate. *)
Definition sketch (X : gset bytes) : bytes := foldr (fun e reg => (HLLDenseAdd reg e).2) HLLNewDense (elements X).
Definition estimate `{GoFloatMath} (fuel : nat) (X : gset bytes) : option Z := HLLDenseCount fuel (sketch X).

Lemma sketch_ok (X : gset bytes) : sketches (sketch X) X.
Proof.
  unfold sketch. rewrite <- (list_to_set_elements_L X) at 2. induction (elements X) as [|e l IH]; cbn [foldr list_to_set]; [apply sketches_new|].
  rewrite (comm_L (∪)). by apply sketches_add.
Qed.

Lemma foldl_same {A B : Type} (f g : A -> B -> A) (l : list B) (a : A) : (forall x y, f x y = g x y) -> foldl f a l = foldl g a l.
Proof. intros He. revert a. induction l as [|y l IH]; intros a; cbn [foldl]; [done|]. by rewrite He, IH. Qed.

Lemma count_sketch `{GoFloatMath} (fuel : nat) (reg : bytes) (X : gset bytes) : sketches reg X -> HLLDenseCount fuel reg = estimate fuel X.
Proof.
  intros Hs. assert (forall v, histo reg v = histo (sketch X) v) as Hh.
  { intros v. unfold histo. f_equal. apply filter_ext_in. intros i Hi%list_elem_of_In%elem_of_seq.
    rewrite (sk_get _ _ Hs), (sk_get _ _ (sketch_ok X)) by lia. done. }
  unfold estimate, HLLDenseCount. rewrite !Hh. repeat case_match; try done. do 5 f_equal.
  apply foldl_same. intros ? j. by rewrite Hh.
Qed.

(** An element the collection does not cover changes the sketch. *)
Definition fresh (X : gset bytes) (e : bytes) : bool := level X (hllPatLen e).1 <? (hllPatLen e).2.

Lemma fresh_add (X : gset bytes) (e e' : bytes) : fresh X e' = false -> fresh (X ∪ {[e']}) e = fresh X e.
Proof.
  unfold fresh. intros Hn%Z.ltb_ge. rewrite level_max, level_singleton. unfold mark.
  destruct (Z.eqb_spec (hllPatLen e').1 (hllPatLen e).1) as [E|]; [rewrite Z.max_l; [done|congruence]|].
  rewrite Z.max_l; [done|apply level_nonneg].
Qed.

Lemma add_all_spec (els : list bytes) (reg : bytes) (X : gset bytes) (c : bool) : sketches reg X ->
  exists reg', add_all reg c (map BulkOf els) = Some (c || existsb (fresh X) els, reg') /\ sketches reg' (X ∪ list_to_set els).
Proof.
  revert reg X c. induction els as [|e els IH]; intros reg X c Hs; cbn [map add_all existsb list_to_set BulkOf argString].
  { exists reg. rewrite orb_false_r, (right_id_L ∅ (∪)). done. }
  change (default [] (Some e)) with e. pose proof (sketches_add reg X e Hs) as Ha. pose proof (add_changed reg e) as Hc.
  rewrite (sk_get _ _ Hs) in Hc by apply hllPatLen_range. change (_ <? _) with (fresh X e) in Hc.
  destruct (HLLDenseAdd reg e) as [c1 reg1]. cbn [fst snd] in *. subst c1.
  destruct (IH reg1 (X ∪ {[e]}) (c || fresh X e) Ha) as (reg' & -> & Hs'). exists reg'. split; [|by rewrite (assoc_L (∪))].
  do 2 f_equal. rewrite <- orb_assoc. f_equal. destruct (fresh X e) eqn:E; [done|]. cbn [orb].
  clear IH Hs'. induction els as [|a els IHe]; cbn [existsb]; [done|]. rewrite fresh_add by done. by f_equal.
Qed.

(** ** What is stored *)

Lemma stored_byte (reg : bytes) (i : Z) : 0 <= i < hllDenseRegs ->
  reg_byte (drop 16 (EncodeHLL reg) ++ [byte_of 0]) i = reg_byte reg i.
Proof.
  intros Hi. unfold reg_byte, EncodeHLL. rewrite drop_app_length' by done.
  rewrite lookup_app_l by (rewrite length_map, length_seq; lia). rewrite list_lookup_fmap, lookup_seq_lt by lia. cbn [fmap option_fmap option_map].
  rewrite Nat.add_0_l. by destruct (reg !! Z.to_nat i).
Qed.

Lemma DecodeHLL_EncodeHLL (reg : bytes) (X : gset bytes) : sketches reg X ->
  exists reg', DecodeHLL (EncodeHLL reg) = Ok reg' /\ sketches reg' X.
Proof.
  intros [_ Hg]. exists (drop 16 (EncodeHLL reg) ++ [byte_of 0]). assert (len (EncodeHLL reg) = hllHdrSize + hllDenseRegs) as Hl.
  { unfold len, EncodeHLL. rewrite length_app, length_map, length_seq. unfold hllDenseRegs, hllHdrSize. cbn [length hll_header]. change (length hll_header) with 16%nat. lia. }
  split; [|split].
  - unfold DecodeHLL. rewrite Hl, Z.eqb_refl. done.
  - unfold regs_ok, len in *. rewrite length_app, length_drop. cbn [length]. unfold hllHdrSize, hllDenseRegs in *. lia.
  - intros pos Hp. rewrite <- Hg by done. apply get_ext; [lia..|]. intros k Hk. unfold array_bit. rewrite stored_byte; [done|].
    unfold hllDenseRegs, hllRegisters in *. split; [apply Z.div_pos; lia|apply Z.div_lt_upper_bound; lia].
Qed.

(** ** A keyspace of sketches *)

#[local] Opaque HLLDenseMerge HLLNewDense EncodeHLL.

Notation W := (world (gmap bytes bytes)).

Definition holds (o : option bytes) (X : option (gset bytes)) : Prop :=
  match X with None => o = None | Some X => exists reg, o = Some (Encode TypeHLL 0 (EncodeHLL reg)) /\ sketches reg X end.

Record rep (d : db) (w : W) : Prop := {
  rep_other : forall p key, p ∈ typePrefixes -> p <> lit "hll:" -> w_kv w !! (p ++ key) = None;
  rep_sketches : forall key, holds (w_kv w !! HLLKey key) (d !! key);
}.

Lemma hll_key_apart (p key key' : bytes) : p ∈ typePrefixes -> p <> lit "hll:" -> p ++ key <> HLLKey key'.
Proof.
  unfold typePrefixes, HLLKey. cbn [map]. rewrite !elem_of_cons, elem_of_nil.
  intros Hp Hne E. destruct_or! Hp; subst; try discriminate E; by destruct Hne.
Qed.

Lemma hll_rep_write (d : db) (w w' : W) (key reg : bytes) (X : gset bytes) :
  rep d w -> sketches reg X -> w_kv w' = <[HLLKey key := Encode TypeHLL 0 (EncodeHLL reg)]> (w_kv w) -> rep (<[key := X]> d) w'.
Proof.
  intros [Ho Hs] Hk E. split.
  - intros p key' Hp Hq. rewrite E, lookup_insert_ne; [by apply Ho|]. intros Y. by apply (hll_key_apart p key' key).
  - intros key'. rewrite E. destruct (decide (key' = key)) as [->|Hne]; [rewrite !lookup_insert_eq; by exists reg|].
    rewrite !lookup_insert_ne by (done || (unfold HLLKey; intros Y; by apply app_inv_head in Y)). apply Hs.
Qed.

(** The commands on collections: an absent key is an empty collection that
    PFCOUNT counts as nothing. *)
Inductive hll_op : Type :=
| PfAdd (k : bytes) (els : list bytes)
| PfCount (k : bytes) (ks : list bytes)
| PfMerge (dst : bytes) (ks : list bytes).

Definition get (d : db) (k : bytes) : gset bytes := default ∅ (d !! k).
Definition union_of (d : db) (ks : list bytes) : gset bytes := ⋃ map (get d) ks.
Definition present (d : db) (k : bytes) : bool := bool_decide (is_Some (d !! k)).

Section run.
Context `{Clock} `{GoFloatMath} (fuel : nat).

Definition count_reply (X : gset bytes) : result Value :=
  match estimate fuel X with Some n => Ok (VInteger (i64 n)) | None => Panic end.

Definition spec (o : hll_op) (d : db) : result Value * db :=
  match o with
  | PfAdd k els =>
      (Ok (VInteger (if existsb (fresh (get d k)) els || negb (present d k) then 1 else 0)), <[k := get d k ∪ list_to_set els]> d)
  | PfCount k ks => (if existsb (present d) (k :: ks) then count_reply (union_of d (k :: ks)) else Ok (VInteger 0), d)
  | PfMerge dst ks => (Ok okReply, <[dst := union_of d (dst :: ks)]> d)
  end.

Definition send (o : hll_op) : M (gmap bytes bytes) Value :=
  match o with
  | PfAdd k els => pfadd (map BulkOf (k :: els))
  | PfCount k ks => pfcount fuel (map BulkOf (k :: ks))
  | PfMerge dst ks => pfmerge (map BulkOf (dst :: ks))
  end.

Lemma lookup_rep (d : db) (w : W) (key : bytes) : rep d w ->
  match d !! key with
  | None => lookupKey key w = (Err ENotFound, w)
  | Some X => exists reg, lookupKey key w = (Ok (mkEntry TypeHLL 0 (EncodeHLL reg)), w) /\ sketches reg X
  end.
Proof.
  intros R. unfold lookupKey, mbind. rewrite lookupRaw_map. unfold find_key.
  assert (first_hit typePrefixes key (w_kv w) = (fun v => (HLLKey key, v)) <$> w_kv w !! HLLKey key) as ->.
  { change typePrefixes with (map lit ["s:"; "h:"; "l:"; "st:"; "z:"; "hll:"; "x:"; "vs:"]%string). cbn [map].
    rewrite !first_hit_cons. change (lit "hll:" ++ key) with (HLLKey key).
    rewrite !(rep_other _ _ R) by (done || (unfold typePrefixes; cbn [map]; set_solver)). by destruct (w_kv w !! HLLKey key). }
  pose proof (rep_sketches _ _ R key) as Hs. destruct (d !! key) as [X|]; cbn [holds] in Hs; [|by rewrite Hs].
  destruct Hs as (reg & -> & Hs). exists reg. split; [|done]. cbn [fmap option_fmap option_map].
  rewrite Decode_Encode_entry by (unfold is_i64; lia). done.
Qed.

Lemma readHLL_rep (d : db) (w : W) (key : bytes) : rep d w ->
  match d !! key with
  | None => readHLL key w = (Err ENotFound, w)
  | Some X => exists reg, readHLL key w = (Ok (reg, 0), w) /\ sketches reg X
  end.
Proof.
  intros R. pose proof (lookup_rep d w key R) as Hl. unfold readHLL. destruct (d !! key) as [X|]; unfold mbind at 1; [|by rewrite Hl].
  destruct Hl as (reg & -> & Hs). destruct (DecodeHLL_EncodeHLL reg X Hs) as (reg' & E & Hs'). exists reg'. split; [|done].
  cbn [Type_ Payload Expiry]. rewrite bool_decide_eq_true_2 by done. cbn [negb]. unfold mbind, attempt, lift. by rewrite E.
Qed.

Lemma merge_keys_rep (d : db) (w : W) (ks : list bytes) (reg : bytes) (X : gset bytes) (found : bool) : rep d w -> sketches reg X ->
  exists reg', merge_keys reg found (map BulkOf ks) w = (Ok (inr (reg', found || existsb (present d) ks)), w) /\ sketches reg' (X ∪ union_of d ks).
Proof.
  intros R. revert reg X found. induction ks as [|k ks IH]; intros reg X found Hs.
  { exists reg. unfold union_of. cbn. rewrite orb_false_r, (right_id_L ∅ (∪)). done. }
  cbn [map merge_keys BulkOf argString existsb]. change (default [] (Some k)) with k. unfold mbind at 1, attempt.
  pose proof (readHLL_rep d w k R) as Hr. unfold present at 1, union_of. cbn [map union_list foldr]. change (⋃ map (get d) ks) with (union_of d ks).
  unfold get at 1. destruct (d !! k) as [Y|]; cbn [default from_option]; unfold id.
  - destruct Hr as (src & -> & Hsrc). destruct (IH (HLLDenseMerge reg src).2 (X ∪ Y) true (sketches_merge _ _ _ _ Hs Hsrc)) as (reg' & E & Hs').
    exists reg'. rewrite bool_decide_eq_true_2 by done. rewrite orb_true_r. split; [exact E|]. by rewrite (assoc_L (A := gset bytes) (∪) X Y).
  - rewrite Hr. change (isNotFound ENotFound) with true. cbv iota. destruct (IH reg X found Hs) as (reg' & E & Hs').
    exists reg'. rewrite bool_decide_eq_false_2 by (intros [? ?]; done). split; [exact E|]. by rewrite (left_id_L (A := gset bytes) ∅ (∪)).
Qed.

Lemma count_value_rep (w : W) (reg : bytes) (X : gset bytes) : sketches reg X -> count_value fuel reg w = (count_reply X, w).
Proof. intros Hs. unfold count_value, count_reply. rewrite (count_sketch fuel reg X Hs). by destruct (estimate fuel X). Qed.

Definition refined (o : hll_op) : Prop := forall (d : db) (w : W), rep d w -> exists w', send o w = ((spec o d).1, w') /\ rep (spec o d).2 w'.

Ltac args := cbn [map]; unfold with_key; repeat change (argString (BulkOf ?x)) with (Some x); cbv iota beta.

Lemma PfAdd_refined (k : bytes) (els : list bytes) : refined (PfAdd k els).
Proof.
  intros d w R. cbn [send spec fst snd]. unfold pfadd. args. unfold mbind at 1, attempt. pose proof (readHLL_rep d w k R) as Hr.
  unfold present, get. destruct (d !! k) as [X|]; cbn [default from_option]; unfold id.
  - destruct Hr as (reg & -> & Hs). destruct (add_all_spec els reg X false Hs) as (reg' & -> & Hs'). cbn [orb].
    rewrite bool_decide_eq_true_2 by done. unfold commit, mbind, attempt. cbn. eexists. split; [reflexivity|]. eapply hll_rep_write; [exact R|exact Hs'|done].
  - rewrite Hr. change (isNotFound ENotFound) with true. cbv iota. destruct (add_all_spec els HLLNewDense ∅ false sketches_new) as (reg' & -> & Hs').
    cbn [orb]. rewrite bool_decide_eq_false_2 by (intros [? ?]; done). unfold commit, mbind, attempt. cbn.
    eexists. split; [reflexivity|]. eapply hll_rep_write; [exact R|exact Hs'|done].
Qed.

Lemma PfCount_refined (k : bytes) (ks : list bytes) : refined (PfCount k ks).
Proof.
  intros d w R. exists w. cbn [send spec fst snd]. split; [|done]. unfold pfcount. destruct ks as [|k' ks].
  - args. unfold mbind, attempt. pose proof (readHLL_rep d w k R) as Hr. unfold union_of, get. cbn [existsb map union_list foldr]. unfold present.
    destruct (d !! k) as [X|]; cbn [default from_option]; unfold id.
    + destruct Hr as (reg & -> & Hs). rewrite bool_decide_eq_true_2 by done. cbn [orb]. rewrite (right_id_L ∅ (∪)). by apply count_value_rep.
    + rewrite Hr. rewrite bool_decide_eq_false_2 by (intros [? ?]; done). done.
  - destruct (merge_keys_rep d w (k :: k' :: ks) HLLNewDense ∅ false R sketches_new) as (reg & E & Hs). cbn [map] in *.
    unfold mbind. rewrite E. cbn [orb]. destruct (existsb (present d) (k :: k' :: ks)); [|done].
    rewrite (left_id_L ∅ (∪)) in Hs. by apply count_value_rep.
Qed.

Lemma PfMerge_refined (dst : bytes) (ks : list bytes) : refined (PfMerge dst ks).
Proof.
  intros d w R. cbn [send spec fst snd]. unfold pfmerge. args. unfold mbind at 1, attempt. pose proof (lookup_rep d w dst R) as Hl.
  enough (forall reg, sketches reg (get d dst) -> exists w',
    (let! m := merge_keys reg false (map BulkOf ks) in
     match m with
     | inl e => mret e
     | inr (merged, _) => commit (kvWriteBatch [mkBatchOp (HLLKey dst) (Encode TypeHLL 0 (EncodeHLL merged)) false]) (mret okReply)
     end) w = (Ok okReply, w') /\ rep (<[dst := union_of d (dst :: ks)]> d) w') as Hgo.
  { unfold get in Hgo. destruct (d !! dst) as [X|]; cbn [default from_option] in Hgo; unfold id in Hgo.
    - destruct Hl as (reg & -> & Hs). cbn [Type_ Payload Expiry]. rewrite bool_decide_eq_true_2 by done. cbn [negb].
      destruct (DecodeHLL_EncodeHLL reg X Hs) as (reg' & -> & Hs'). apply Hgo. rewrite <- (left_id_L ∅ (∪) X). by apply sketches_merge; [apply sketches_new|].
    - rewrite Hl. change (isNotFound ENotFound) with true. cbv iota. apply Hgo, sketches_new. }
  intros reg Hs. destruct (merge_keys_rep d w ks reg _ false R Hs) as (reg' & E & Hs'). unfold mbind at 1. rewrite E.
  unfold commit, mbind, attempt. cbn. eexists. split; [reflexivity|]. eapply hll_rep_write; [exact R|exact Hs'|done].
Qed.

Fixpoint spec_run (ops : list hll_op) (d : db) : list (result Value) * db :=
  match ops with
  | [] => ([], d)
  | o :: os => let '(v, d1) := spec o d in let '(vs, d2) := spec_run os d1 in (v :: vs, d2)
  end.

Fixpoint send_run (ops : list hll_op) (w : W) : list (result Value) * W :=
  match ops with
  | [] => ([], w)
  | o :: os => let '(v, w1) := send o w in let '(vs, w2) := send_run os w1 in (v :: vs, w2)
  end.

(** C30: a keyspace used only through PFADD, PFCOUNT and PFMERGE is a database of
    collections of elements.  Whatever the sequence of commands, PFADD answers 1
    exactly when the key is new or some element ranks higher than every element
    of the collection that falls on the same register, PFMERGE makes the
    destination the union of itself and the sources, PFCOUNT answers the estimate
    of the one sketch that the union of the named collections makes (0 when no
    key exists), and every key keeps exactly the registers of the sketch of its
    collection, in whatever order and through whatever merges it was built. *)
Theorem hll_commands_refine (ops : list hll_op) (d : db) (w : W) : rep d w ->
  (send_run ops w).1 = (spec_run ops d).1 /\ rep (spec_run ops d).2 (send_run ops w).2.
Proof.
  revert d w. induction ops as [|o ops IH]; intros d w R; [done|]. cbn [spec_run send_run].
  assert (refined o) as Ho by (destruct o; auto using PfAdd_refined, PfCount_refined, PfMerge_refined).
  destruct (Ho d w R) as (w1 & -> & R1). destruct (spec o d) as [v d1]. cbn [fst snd] in *.
  specialize (IH d1 w1 R1). destruct (spec_run ops d1) as [vs d2], (send_run ops w1) as [rs w2].
  cbn [fst snd] in *. destruct IH as [-> IH]. done.
Qed.

End run.

(** ** A run *)

Definition no_floats : GoFloatMath :=
  {| fm_add _ _ := 0; fm_sub _ _ := 0; fm_mul _ _ := 0; fm_div _ _ := 0; fm_sqrt _ := 0; fm_pow _ _ := 0; fm_round x := x; fm_of_int x := x; fm_to_u64 x := x |}.

Definition demo_ops : list hll_op :=
  [PfAdd (lit "a") [lit "x"; lit "y"; lit "x"]; PfAdd (lit "b") [lit "z"]; PfMerge (lit "c") [lit "a"; lit "b"]; PfCount (lit "a") [lit "b"]; PfAdd (lit "c") [lit "z"]].

Lemma hll_commands_refine_witness :
  (@send_run step_clock no_floats 9 demo_ops empty_world).1 = (@spec_run no_floats 9 demo_ops ∅).1 /\
  rep (@spec_run no_floats 9 demo_ops ∅).2 (@send_run step_clock no_floats 9 demo_ops empty_world).2.
Proof. apply (@hll_commands_refine step_clock no_floats 9 demo_ops ∅ empty_world). by split. Defined.

End hllcmd.
