(* ===== verification/CmdBit.v ===== *)
(** * Bitmap commands (src/internal/commands/bit_base.go, bit_count.go,
    bit_op.go, bitfield.go)

    The bits of a string value, most significant bit of each byte first:
    SETBIT, GETBIT, BITCOUNT, BITPOS, BITOP, BITFIELD and BITFIELD_RO. *)

From S2P Require Import Prelude GoLib GoStrings Resp Codec Kv Cmd.
Open Scope Z_scope.
Open Scope gedis_scope.

Module bitcmd.
Import datastruct.

(** ** Bits of a buffer *)

Definition zero : ascii := byte_of 0.

(** [0x80 >> (off%8)] *)
Definition bit_mask (off : Z) : Z := Z.shiftr 128 (off mod 8).

Definition getBitAt (buf : bytes) (off : Z) : Z :=
  match buf !! Z.to_nat (off / 8) with
  | None => 0
  | Some b => if negb (Z.land (byte_val b) (bit_mask off) =? 0) then 1 else 0
  end.

(** [for uint64(len(buf)) < n { buf = append(buf, 0) }] *)
Definition grow (buf : bytes) (n : Z) : bytes := buf ++ replicate (Z.to_nat n - length buf) zero.

(** [buf[i] |= mask] or [buf[i] &^= mask], for an index in range. *)
Definition write_bit (buf : bytes) (off : Z) (v : bool) : bytes :=
  alter (fun b => byte_of (if v then Z.lor (byte_val b) (bit_mask off) else Z.ldiff (byte_val b) (bit_mask off)))
    (Z.to_nat (off / 8)) buf.

Definition setBitAt (buf : bytes) (off : Z) (v : bool) : bytes * Z :=
  let buf := grow buf (off / 8 + 1) in
  (write_bit buf off v, getBitAt buf off).

(** [for b != 0 { n += b & 1; b >>= 1 }]: at most eight rounds for a byte. *)
Fixpoint pop_byte (fuel : nat) (b : Z) : Z :=
  match fuel with
  | O => 0
  | S fuel => if b =? 0 then 0 else Z.land b 1 + pop_byte fuel (Z.shiftr b 1)
  end.
Definition popCountBits (buf : bytes) : Z := foldl (fun n b => n + pop_byte 8 (byte_val b)) 0 buf.

(** The closed range of bits, or [None] when it is empty. *)
Definition bitRangeToBytes (totalBits start end_ : Z) (byBit : bool) : option (Z * Z) :=
  let total := if byBit then totalBits else totalBits / 8 in
  let start := if start <? 0 then i64 (start + total) else start in
  let end_ := if end_ <? 0 then i64 (end_ + total) else end_ in
  let start := if start <? 0 then 0 else start in
  let end_ := if total <=? end_ then total - 1 else end_ in
  if end_ <? start then None
  else if byBit then Some (start, end_) else Some (start * 8, end_ * 8 + 7).

(** [for b := from; b <= to; b++]: the first position with the wanted bit. *)
Fixpoint first_bit (fuel : nat) (want : Z) (bit : Z -> Z) (b : Z) : option Z :=
  match fuel with
  | O => None
  | S fuel => if bit b =? want then Some b else first_bit fuel want bit (b + 1)
  end.
Definition search (want : Z) (bit : Z -> Z) (from to : Z) : option Z :=
  first_bit (Z.to_nat (to - from + 1)) want bit from.

Definition findBit (buf : bytes) (want from to totalBits : Z) : Z :=
  let bounded to :=
    if to <? from then -1
    else default (-1) (search want (fun b => if b <? totalBits then getBitAt buf (u64 b) else 0) from to) in
  if to <? 0 then
    if want =? 1 then bounded (totalBits - 1)
    else if totalBits <=? from then -1
    else default totalBits (search 0 (fun b => getBitAt buf (u64 b)) from (totalBits - 1))
  else bounded to.

(** ** BITFIELD's integers *)

Record bitfieldType : Type := mkType { signed : bool; bits : Z }.
Inductive bitOverflow : Type := bitOverflowWrap | bitOverflowSat | bitOverflowFail.

Definition bitfieldTypeErr : bytes :=
  lit "ERR Invalid bitfield type. Use something like i16 u8. Note that u64 is not supported but i64 is.".
Definition bitOffsetErr : bytes := lit "ERR bit offset is not an integer or out of range".

Definition parseBitfieldType (s : bytes) : option bitfieldType :=
  match s with
  | c :: _ :: _ =>
      match (if Ascii.eqb c "u" || Ascii.eqb c "U" then Some false
             else if Ascii.eqb c "i" || Ascii.eqb c "I" then Some true else None) with
      | None => None
      | Some sg =>
          match Atoi (drop 1 s) with
          | None => None
          | Some n => if (n <? 1) || ((if sg then 64 else 63) <? n) then None else Some (mkType sg n)
          end
      end
  | _ => None
  end.

(** [strconv.ParseUint(s, 10, 32)] *)
Definition ParseUint32 (s : bytes) : option Z :=
  match ParseUint s with Some n => if n <? 2 ^ 32 then Some n else None | None => None end.

Definition bitOffset (s : bytes) : option Z := ParseUint32 s.

Definition parseBitfieldOffset (s : bytes) (width : Z) : option Z :=
  if HasPrefix s (lit "#") then n ← ParseUint32 (drop 1 s); Some (u64 (n * width)) else ParseUint32 s.

Definition bitfieldMask (n : Z) : Z := if n =? 64 then 2 ^ 64 - 1 else u64 (Z.shiftl 1 n - 1).

Definition bitfieldBounds (t : bitfieldType) : Z * Z :=
  if negb (signed t) then (0, i64 (bitfieldMask (bits t)))
  else if bits t =? 64 then (minInt64, maxInt64)
  else let max := i64 (u64 (Z.shiftl 1 (bits t - 1))) - 1 in (- max - 1, max).

(** [n] bits from [off], most significant first; zero past the end. *)
Fixpoint raw_loop (buf : bytes) (idx : Z) (n : nat) (v : Z) : Z :=
  match n with
  | O => v
  | S n =>
      let v := u64 (Z.shiftl v 1) in
      raw_loop buf (idx + 1) n (if getBitAt buf idx =? 1 then Z.lor v 1 else v)
  end.
Definition bitfieldRaw (buf : bytes) (off n : Z) : Z := raw_loop buf off (Z.to_nat n) 0.

Definition bitfieldSignExtend (v : Z) (t : bitfieldType) : Z :=
  if signed t && (bits t <? 64) && (Z.land (Z.shiftr v (bits t - 1)) 1 =? 1)
  then i64 (i64 v - i64 (u64 (Z.shiftl 1 (bits t)))) else i64 v.

Definition bitfieldGet (buf : bytes) (off : Z) (t : bitfieldType) : Z :=
  bitfieldSignExtend (bitfieldRaw buf off (bits t)) t.

(** The loop of bitfieldSet: bits [n-1 .. 0] of [v] from [idx] on. *)
Fixpoint set_loop (buf : bytes) (idx v : Z) (n : nat) : bytes :=
  match n with
  | O => buf
  | S n => set_loop (write_bit buf idx (Z.land (Z.shiftr v (Z.of_nat n)) 1 =? 1)) (idx + 1) v n
  end.

Definition bitfieldSet (buf : bytes) (off : Z) (t : bitfieldType) (val : Z) : Z * bytes :=
  let v := Z.land (u64 val) (bitfieldMask (bits t)) in
  (bitfieldGet buf off t, set_loop (grow buf ((off + bits t + 7) / 8)) off v (Z.to_nat (bits t))).

(** [None]: the overflow is reported and nothing is written. *)
Definition bitfieldIncrby (buf : bytes) (off : Z) (t : bitfieldType) (incr : Z) (ov : bitOverflow) : option (Z * bytes) :=
  let old := bitfieldGet buf off t in
  let '(min, max) := bitfieldBounds t in
  let overflowed := if 0 <=? incr then i64 (max - incr) <? old else old <? i64 (min - incr) in
  let wrap :=
    let raw := u64 (u64 old + u64 incr) in
    let res := bitfieldSignExtend (Z.land raw (bitfieldMask (bits t))) t in
    Some (res, (bitfieldSet buf off t res).2) in
  match ov with
  | bitOverflowFail => if overflowed then None else wrap
  | bitOverflowSat =>
      if overflowed then
        let lim := if 0 <=? incr then max else min in Some (lim, (bitfieldSet buf off t lim).2)
      else wrap
  | bitOverflowWrap => wrap
  end.

(** ** Handlers *)

Section handlers.
Context {S : Type} `{KV S} `{Clock} `{GoUnicode}.

Definition readBytes (key : bytes) : M S (bytes * Z) :=
  let! e := getEntry key in mret (Payload e, Expiry e).

Definition writeBytes (key buf : bytes) (expiry : Z) : M S unit := kvSet (StringKey key) (EncodeString buf expiry).

(** A missing key reads as an empty buffer without expiry. *)
Definition read_or_empty (key : bytes) (k : bytes -> Z -> M S Value) : M S Value :=
  let! r := attempt (readBytes key) in
  match r with
  | inl (buf, expiry) => k buf expiry
  | inr e => if isNotFound e then k [] 0 else mret (errValue e)
  end.

Definition with_offset (a : Value) (k : Z -> M S Value) : M S Value :=
  match a' ← argString a; bitOffset a' with None => mret (VError bitOffsetErr) | Some off => k off end.

(** An argument that must be the text 0 or 1. *)
Definition zero_one (a : Value) : option bool :=
  s ← argString a; if bytes_eqb s (lit "0") then Some false else if bytes_eqb s (lit "1") then Some true else None.

Definition setbit (args : list Value) : M S Value :=
  match args with
  | [a; b; c] => with_key a (fun key => with_offset b (fun off =>
      match zero_one c with
      | None => mret (errS "ERR bit is not an integer or out of range")
      | Some v =>
          read_or_empty key (fun buf expiry =>
            let '(buf, old) := setBitAt buf off v in
            commit (writeBytes key buf expiry) (mret (VInteger old)))
      end))
  | _ => mret (wrong_args "setbit")
  end.

Definition getbit (args : list Value) : M S Value :=
  match args with
  | [a; b] => with_key a (fun key => with_offset b (fun off =>
      read_or_empty key (fun buf _ => mret (VInteger (getBitAt buf off)))))
  | _ => mret (wrong_args "getbit")
  end.

Definition parseBitUnit (s : bytes) : option bool :=
  if bytes_eqb (ToUpper s) (lit "BYTE") then Some false
  else if bytes_eqb (ToUpper s) (lit "BIT") then Some true else None.

Definition with_unit (a : option Value) (k : bool -> M S Value) : M S Value :=
  match a with
  | None => k false
  | Some v => match s ← argString v; parseBitUnit s with None => mret (errS "ERR syntax error") | Some b => k b end
  end.

Definition count_range (buf : bytes) (from to : Z) : Z :=
  foldl (fun n b => n + getBitAt buf (u64 b)) 0 (seqZ from (to - from + 1)).

(** Both bounds are texts before either is parsed: every failure has the same
    reply. *)
Definition bitcount (args : list Value) : M S Value :=
  match args with
  | [a] => with_key a (fun key => read_or_empty key (fun buf _ => mret (VInteger (popCountBits buf))))
  | a :: b :: c :: rest =>
      if bool_decide (2 <= length rest)%nat then mret (wrong_args "bitcount") else
      with_key a (fun key => with_int b (fun start => with_int c (fun end_ => with_unit (head rest) (fun byBit =>
        read_or_empty key (fun buf _ =>
          mret (VInteger match bitRangeToBytes (len buf * 8) start end_ byBit with
                         | None => 0
                         | Some (from, to) => count_range buf from to
                         end))))))
  | _ => mret (wrong_args "bitcount")
  end.

(** The search range of BITPOS, or the reply -1; a missing [end_] is [None]. *)
Definition bitpos_in (buf : bytes) (want start : Z) (end_ : option Z) (byBit : bool) : Z :=
  let totalBits := len buf * 8 in
  let total := if byBit then totalBits else totalBits / 8 in
  let start := if start <? 0 then i64 (start + total) else start in
  let start := if start <? 0 then 0 else start in
  let from := if byBit then start else i64 (start * 8) in
  match end_ with
  | None => findBit buf want from (-1) totalBits
  | Some end_ =>
      let end_ := if end_ <? 0 then i64 (end_ + total) else end_ in
      if end_ <? 0 then -1
      else
        let to := if byBit then end_ else i64 (i64 (end_ * 8) + 7) in
        findBit buf want from (if totalBits <=? to then totalBits - 1 else to) totalBits
  end.

Definition with_opt_int (a : option Value) (k : option Z -> M S Value) : M S Value :=
  match a with None => k None | Some v => with_int v (fun n => k (Some n)) end.

Definition bitpos (args : list Value) : M S Value :=
  match args with
  | a :: b :: rest =>
      if bool_decide (4 <= length rest)%nat then mret (wrong_args "bitpos") else
      with_key a (fun key =>
        match zero_one b with
        | None => mret (errS "ERR The bit argument must be 1 or 0.")
        | Some w =>
            let want := if (w : bool) then 1 else 0 in
            with_opt_int (rest !! 0%nat) (fun start => with_opt_int (rest !! 1%nat) (fun end_ =>
              with_unit (rest !! 2%nat) (fun byBit =>
                let! r := attempt (readBytes key) in
                mret match r with
                     | inl (buf, _) => VInteger (bitpos_in buf want (default 0 start) end_ byBit)
                     | inr e => if isNotFound e then VInteger (if w : bool then -1 else 0) else errValue e
                     end)))
        end)
  | _ => mret (wrong_args "bitpos")
  end.

(** The sources of BITOP; [inr] is the reply that ends the command. *)
Fixpoint read_sources (args : list Value) : M S (list bytes + Value) :=
  match args with
  | [] => mret (inl [])
  | a :: rest =>
      match argString a with
      | None => mret (inr (errS "ERR invalid key"))
      | Some name =>
          let more buf := let! l := read_sources rest in mret match l with inl l => inl (buf :: l) | inr v => inr v end in
          let! r := attempt (readBytes name) in
          match r with
          | inl (buf, _) => more buf
          | inr e => if isNotFound e then more [] else mret (inr (errValue e))
          end
      end
  end.

Inductive bitOp : Type := OpAnd | OpOr | OpXor | OpNot.
Definition parse_op (s : bytes) : option bitOp :=
  let op := ToUpper s in
  if bytes_eqb op (lit "AND") then Some OpAnd else if bytes_eqb op (lit "OR") then Some OpOr
  else if bytes_eqb op (lit "XOR") then Some OpXor else if bytes_eqb op (lit "NOT") then Some OpNot else None.

(** Byte [i] of a source, zero past its end. *)
Definition byte_at (s : bytes) (i : nat) : Z := match s !! i with Some b => byte_val b | None => 0 end.

Definition combine_byte (op : bitOp) (srcs : list bytes) (i : nat) : Z :=
  match op with
  | OpAnd => foldl (fun acc s => Z.land acc (byte_at s i)) 255 srcs
  | OpOr => foldl (fun acc s => Z.lor acc (byte_at s i)) 0 srcs
  | OpXor => foldl (fun acc s => Z.lxor acc (byte_at s i)) 0 srcs
  | OpNot => Z.lxor 255 (byte_at (default [] (head srcs)) i)
  end.

Definition max_len (srcs : list bytes) : nat := foldl (fun m s => Nat.max m (length s)) 0%nat srcs.

Definition combine (op : bitOp) (srcs : list bytes) : bytes :=
  map (fun i => byte_of (combine_byte op srcs i)) (seq 0 (max_len srcs)).

Definition deleteBitmap (raw : bytes) (e : Entry) (userKey : bytes) : M S unit :=
  let! _ := ignore (kvDelete raw) in
  if bool_decide (Type_ e = TypeHash) then ignore (kvDelete (HashExpKey userKey)) else mret ().

(** Remove the destination, of whatever type, before the result is stored. *)
Definition clear_dest (dst : bytes) (k : M S Value) : M S Value :=
  let! r := attempt (lookupRaw dst) in
  match r with
  | inl (raw, e) => let! _ := deleteBitmap raw e dst in k
  | inr e => if isNotFound e then k else mret (errValue e)
  end.

Definition bitop (args : list Value) : M S Value :=
  match args with
  | a :: b :: _ :: _ =>
      match argString a with
      | None => mret (errS "ERR syntax error")
      | Some opStr => with_key b (fun dst =>
          match parse_op opStr with
          | None => mret (errS "ERR syntax error")
          | Some op =>
              if match op with OpNot => negb (len args =? 3) | _ => false end
              then mret (errS "ERR BITOP NOT must be called with a single source key.")
              else
                let! srcs := read_sources (drop 2 args) in
                match srcs with
                | inr v => mret v
                | inl srcs =>
                    let out := combine op srcs in
                    clear_dest dst (if bool_decide (max_len srcs = 0%nat) then mret (VInteger 0)
                                    else commit (writeBytes dst out 0) (mret (VInteger (len out))))
                end
          end)
      end
  | _ => mret (wrong_args "bitop")
  end.

(** *** BITFIELD *)

Definition parseFieldTypeOffset (tArg oArg : Value) : (bitfieldType * Z) + Value :=
  match argString tArg ≫= parseBitfieldType with
  | None => inr (VError bitfieldTypeErr)
  | Some typ =>
      match s ← argString oArg; parseBitfieldOffset s (bits typ) with
      | None => inr (VError bitOffsetErr)
      | Some off => inl (typ, off)
      end
  end.

Definition parse_mode (s : bytes) : option bitOverflow :=
  let m := ToUpper s in
  if bytes_eqb m (lit "WRAP") then Some bitOverflowWrap else if bytes_eqb m (lit "SAT") then Some bitOverflowSat
  else if bytes_eqb m (lit "FAIL") then Some bitOverflowFail else None.

Definition syntax_error : Value := errS "ERR syntax error".

(** The loop over the subcommands: the buffer, whether it was written, and the
    replies so far; [inr] is an error reply, which drops what was done. *)
Fixpoint fields (args : list Value) (ov : bitOverflow) (buf : bytes) (dirty : bool) (out : list Value) :
    (bytes * bool * list Value) + Value :=
  match args with
  | [] => inl (buf, dirty, out)
  | a :: rest =>
      match argString a with
      | None => inr syntax_error
      | Some name =>
          let name := ToUpper name in
          if bytes_eqb name (lit "GET") then
            match rest with
            | ty :: ofs :: rest =>
                match parseFieldTypeOffset ty ofs with
                | inr v => inr v
                | inl (typ, off) => fields rest ov buf dirty (out ++ [VInteger (bitfieldGet buf off typ)])
                end
            | _ => inr syntax_error
            end
          else if bytes_eqb name (lit "SET") then
            match rest with
            | ty :: ofs :: va :: rest =>
                match parseFieldTypeOffset ty ofs with
                | inr v => inr v
                | inl (typ, off) =>
                    match argString va ≫= ParseInt with
                    | None => inr err_int
                    | Some val =>
                        let '(old, next) := bitfieldSet buf off typ val in
                        fields rest ov next true (out ++ [VInteger old])
                    end
                end
            | _ => inr syntax_error
            end
          else if bytes_eqb name (lit "INCRBY") then
            match rest with
            | ty :: ofs :: va :: rest =>
                match parseFieldTypeOffset ty ofs with
                | inr v => inr v
                | inl (typ, off) =>
                    match argString va ≫= ParseInt with
                    | None => inr err_int
                    | Some incr =>
                        match bitfieldIncrby buf off typ incr ov with
                        | None => fields rest ov buf dirty (out ++ [nilBulk])
                        | Some (res, next) => fields rest ov next true (out ++ [VInteger res])
                        end
                    end
                end
            | _ => inr syntax_error
            end
          else if bytes_eqb name (lit "OVERFLOW") then
            match rest with
            | m :: rest =>
                match argString m ≫= parse_mode with
                | None => inr syntax_error
                | Some ov => fields rest ov buf dirty out
                end
            | _ => inr syntax_error
            end
          else inr syntax_error
      end
  end.

Definition bitfield (args : list Value) : M S Value :=
  match args with
  | [] => mret (wrong_args "bitfield")
  | a :: rest => with_key a (fun key =>
      read_or_empty key (fun buf expiry =>
        match fields rest bitOverflowWrap buf false [] with
        | inr v => mret v
        | inl (buf, dirty, out) =>
            if dirty : bool then commit (writeBytes key buf expiry) (mret (VArray (Some out))) else mret (VArray (Some out))
        end))
  end.

(** The scan of BITFIELD_RO for a writing subcommand. *)
Fixpoint ro_scan (fuel : nat) (args : list Value) : bool :=
  match fuel, args with
  | Datatypes.S fuel, a :: _ =>
      match argString a with
      | None => false
      | Some name =>
          let name := ToUpper name in
          let skip n := if bool_decide (length args < n)%nat then false else ro_scan fuel (drop n args) in
          if bytes_eqb name (lit "GET") then skip 3%nat
          else if bytes_eqb name (lit "SET") || bytes_eqb name (lit "INCRBY") then true
          else if bytes_eqb name (lit "OVERFLOW") then skip 2%nat
          else false
      end
  | _, _ => false
  end.

Definition bitfieldRO (args : list Value) : M S Value :=
  if ro_scan (length args) (drop 1 args) then mret (errS "ERR BITFIELD_RO only supports the GET subcommand")
  else bitfield args.

End handlers.
End bitcmd.
