(* ===== verification/CmdBitSpec.v ===== *)
(** * Bitmap commands: what they compute

    The view of a buffer as a sequence of bits, and the theorems that the
    commands of CmdBit read and write exactly those bits. *)

From S2P Require Import Prelude GoLib GoStrings Resp Codec Kv Cmd CmdString CmdBit.
Open Scope Z_scope.
Open Scope gedis_scope.

Module bitspec.
Import datastruct bitcmd.

(** ** The handlers over any store *)

Section sim.
Context {S : Type} `{KVLaws S} `{Clock} `{GoUnicode}.

Lemma sim_readBytes key : sim (S := S) (readBytes key) (readBytes key).
Proof. unfold readBytes. solve_sim. Qed.
Hint Resolve sim_readBytes : sim.

Lemma sim_read_or_empty key k l :
  (forall b e, sim (S := S) (k b e) (l b e)) -> sim (S := S) (read_or_empty key k) (read_or_empty key l).
Proof. intros Hk. unfold read_or_empty. solve_sim; apply Hk. Qed.

Lemma sim_writeBytes key b e : sim (S := S) (writeBytes key b e) (writeBytes key b e).
Proof. unfold writeBytes. solve_sim. Qed.
Hint Resolve sim_writeBytes : sim.

Lemma sim_deleteBitmap raw e k : sim (S := S) (deleteBitmap raw e k) (deleteBitmap raw e k).
Proof. unfold deleteBitmap. solve_sim. Qed.
Hint Resolve sim_deleteBitmap : sim.

Lemma sim_read_sources args : sim (S := S) (read_sources args) (read_sources args).
Proof. induction args as [|a args IH]; cbn [read_sources]; solve_sim. Qed.
Hint Resolve sim_read_sources : sim.

Ltac solve_bit :=
  repeat (cbv beta zeta;
    lazymatch goal with
    | |- sim (read_or_empty _ _) _ => apply sim_read_or_empty; intros
    | |- sim (with_offset _ _) _ => unfold with_offset
    | |- sim (with_unit _ _) _ => unfold with_unit
    | |- sim (with_opt_int _ _) _ => unfold with_opt_int
    | |- sim (clear_dest _ _) _ => unfold clear_dest
    | |- _ => solve_cmd
    end).

(** Every bitmap command behaves the same over any lawful store and the map. *)
Lemma bit_handlers_simulate args :
  Forall (fun h => sim (S := S) h.1 h.2)
    [(setbit args, setbit args); (getbit args, getbit args); (bitcount args, bitcount args); (bitpos args, bitpos args);
     (bitop args, bitop args); (bitfield args, bitfield args); (bitfieldRO args, bitfieldRO args)].
Proof.
  repeat apply Forall_cons_2; [..|apply Forall_nil_2]; cbn [fst snd];
    unfold setbit, getbit, bitcount, bitpos, bitop, bitfieldRO, bitfield; solve_bit.
Qed.
End sim.

(** ** Bits *)

(** Bit [n] of a buffer, counted from the most significant bit of its first
    byte; zero past the end. *)
Definition bit (buf : bytes) (n : Z) : bool := Z.testbit (byte_at buf (Z.to_nat (n / 8))) (7 - n mod 8).

Lemma mask_pow n : bit_mask n = 2 ^ (7 - n mod 8).
Proof.
  unfold bit_mask. pose proof (Z.mod_pos_bound n 8 ltac:(lia)). rewrite Z.shiftr_div_pow2 by lia.
  change 128 with (2 ^ 7). by rewrite <- Z.pow_sub_r by lia.
Qed.

Lemma land_pow2 b j : 0 <= j -> Z.land b (2 ^ j) = if Z.testbit b j then 2 ^ j else 0.
Proof.
  intros Hj. apply Z.bits_inj'. intros i Hi. rewrite Z.land_spec, Z.pow2_bits_eqb by done.
  destruct (Z.eqb_spec j i) as [<-|Hn].
  - destruct (Z.testbit b j); cbn; [by rewrite Z.pow2_bits_eqb, Z.eqb_refl by done | by rewrite Z.testbit_0_l].
  - rewrite andb_false_r. destruct (Z.testbit b j); [rewrite Z.pow2_bits_eqb by done; symmetry; by apply Z.eqb_neq | by rewrite Z.testbit_0_l].
Qed.

Lemma getBitAt_bit buf n : getBitAt buf n = Z.b2z (bit buf n).
Proof.
  pose proof (Z.mod_pos_bound n 8 ltac:(lia)). unfold getBitAt, bit, byte_at. destruct (buf !! Z.to_nat (n / 8)) as [b|]; [|by rewrite Z.testbit_0_l].
  rewrite mask_pow, land_pow2 by lia. destruct (Z.testbit (byte_val b) (7 - n mod 8)); [|reflexivity].
  pose proof (Z.pow_pos_nonneg 2 (7 - n mod 8)). by rewrite (proj2 (Z.eqb_neq _ 0)) by lia.
Qed.

Lemma getBitAt_1 buf n : (getBitAt buf n =? 1) = bit buf n.
Proof. rewrite getBitAt_bit. by destruct (bit buf n). Qed.

Lemma byte_testbit x i : 0 <= i < 8 -> Z.testbit (byte_val (byte_of x)) i = Z.testbit x i.
Proof. intros Hi. rewrite byte_val_of. apply (Z.mod_pow2_bits_low x 8). lia. Qed.

Lemma same_byte n m : 0 <= n -> 0 <= m -> Z.to_nat (n / 8) = Z.to_nat (m / 8) -> 7 - n mod 8 = 7 - m mod 8 -> n = m.
Proof.
  intros Hn Hm E1 E2. pose proof (Z.div_mod n 8). pose proof (Z.div_mod m 8).
  pose proof (Z.div_pos n 8). pose proof (Z.div_pos m 8). lia.
Qed.

Lemma bit_write buf n m v :
  0 <= n -> 0 <= m -> n / 8 < len buf -> bit (write_bit buf n v) m = if decide (m = n) then v else bit buf m.
Proof.
  intros Hn Hm Hl. unfold bit, write_bit, byte_at.
  destruct (decide (Z.to_nat (m / 8) = Z.to_nat (n / 8))) as [E|E].
  - rewrite E, list_lookup_alter_eq. destruct (lookup_lt_is_Some_2 buf (Z.to_nat (n / 8))) as [b Hb].
    { unfold len in Hl. pose proof (Z.div_pos n 8). lia. }
    rewrite Hb. cbn [fmap option_fmap option_map]. pose proof (Z.mod_pos_bound m 8 ltac:(lia)). pose proof (Z.mod_pos_bound n 8 ltac:(lia)).
    rewrite byte_testbit, mask_pow by lia.
    assert (Z.testbit (2 ^ (7 - n mod 8)) (7 - m mod 8) = bool_decide (m = n)) as Hp.
    { rewrite Z.pow2_bits_eqb by lia. destruct (Z.eqb_spec (7 - n mod 8) (7 - m mod 8)) as [Ei|Ei].
      - rewrite bool_decide_eq_true_2; [done|]. by apply same_byte.
      - rewrite bool_decide_eq_false_2; [done|]. by intros ->. }
    destruct v; [rewrite Z.lor_spec | rewrite Z.ldiff_spec]; rewrite Hp; case_bool_decide; destruct (decide (m = n)); try done;
      rewrite ?orb_true_r, ?orb_false_r, ?andb_false_r, ?andb_true_r; done.
  - rewrite list_lookup_alter_ne by done. destruct (decide (m = n)) as [->|]; done.
Qed.

Lemma bit_grow buf k m : bit (grow buf k) m = bit buf m.
Proof.
  unfold bit, byte_at, grow. destruct (decide (Z.to_nat (m / 8) < length buf)%nat) as [Hl|Hl].
  - by rewrite lookup_app_l.
  - rewrite lookup_app_r by lia. rewrite (lookup_ge_None_2 buf) by lia.
    destruct (replicate _ zero !! _) as [b|] eqn:E; [|done]. apply lookup_replicate in E as [-> _]. done.
Qed.

Lemma grow_length buf k : len buf <= len (grow buf k) /\ k <= len (grow buf k).
Proof. unfold len, grow. rewrite length_app, length_replicate. lia. Qed.

Lemma write_length buf n v : len (write_bit buf n v) = len buf.
Proof. unfold len, write_bit. by rewrite length_alter. Qed.

Lemma setBitAt_spec buf off v :
  0 <= off -> (setBitAt buf off v).2 = Z.b2z (bit buf off) /\
  forall m, 0 <= m -> bit (setBitAt buf off v).1 m = if decide (m = off) then v else bit buf m.
Proof.
  intros Ho. unfold setBitAt. cbn [fst snd]. rewrite getBitAt_bit, bit_grow. split; [done|]. intros m Hm.
  destruct (grow_length buf (off / 8 + 1)). rewrite bit_write by lia. by rewrite bit_grow.
Qed.

(** ** Counting and searching *)

Definition ones (buf : bytes) (from to : Z) : Z := len (List.filter (bit buf) (seqZ from (to - from + 1))).

Lemma count_range_ones buf from to : 0 <= from -> to < 2 ^ 63 -> count_range buf from to = ones buf from to.
Proof.
  intros Hf Ht. unfold count_range, ones.
  assert (forall l acc, Forall (fun b => 0 <= b < 2 ^ 64) l ->
    foldl (fun n b => n + getBitAt buf (u64 b)) acc l = acc + len (List.filter (bit buf) l)) as Hl.
  { induction l as [|b l IH]; intros acc Hb; cbn [foldl List.filter]; [rewrite len_nil; lia|].
    apply Forall_cons in Hb as [Hb Hb']. rewrite IH by done. rewrite u64_id by (unfold is_u64; lia). rewrite getBitAt_bit.
    destruct (bit buf b); cbn [Z.b2z]; rewrite ?len_cons; lia. }
  rewrite Hl; [lia|]. apply Forall_forall. intros b Hb%elem_of_seqZ. lia.
Qed.

Lemma pop_byte_bits b : pop_byte 8 (byte_val b) = foldr (fun j n => Z.b2z (Z.testbit (byte_val b) (7 - j)) + n) 0 (seqZ 0 8).
Proof. destruct b as [[] [] [] [] [] [] [] []]; vm_compute; reflexivity. Qed.

Lemma ones_app buf a n m : 0 <= n -> 0 <= m -> ones buf a (a + n + m - 1) = ones buf a (a + n - 1) + ones buf (a + n) (a + n + m - 1).
Proof.
  intros Hn Hm. unfold ones. replace (a + n + m - 1 - a + 1) with (n + m) by lia. replace (a + n - 1 - a + 1) with n by lia.
  replace (a + n + m - 1 - (a + n) + 1) with m by lia. rewrite seqZ_app by done. rewrite List.filter_app. unfold len. rewrite length_app. lia.
Qed.

Lemma bit_middle pre b l j : 0 <= j < 8 -> bit (pre ++ b :: l) (len pre * 8 + j) = Z.testbit (byte_val b) (7 - j).
Proof.
  intros Hj. unfold bit, byte_at. rewrite (Z.add_comm (len pre * 8)), Z.div_add, Z.mod_add by lia.
  rewrite Z.div_small, Z.mod_small by lia. unfold len. rewrite Z.add_0_l, Nat2Z.id. by rewrite list_lookup_middle.
Qed.

Lemma ones_byte pre b l : ones (pre ++ b :: l) (len pre * 8) (len pre * 8 + 7) = pop_byte 8 (byte_val b).
Proof.
  rewrite pop_byte_bits. unfold ones. replace (len pre * 8 + 7 - len pre * 8 + 1) with 8 by lia.
  rewrite <- (Z.add_0_r (len pre * 8)) at 1. rewrite <- fmap_add_seqZ.
  change (seqZ 0 8) with [0;1;2;3;4;5;6;7].
  cbn [fmap list_fmap map List.filter foldr]. rewrite !bit_middle by lia.
  repeat match goal with |- context [Z.testbit (byte_val b) ?k] => destruct (Z.testbit (byte_val b) k) end; reflexivity.
Qed.

(** BITCOUNT of a whole value counts every bit once. *)
Lemma popCount_ones buf : popCountBits buf = ones buf 0 (len buf * 8 - 1).
Proof.
  unfold popCountBits.
  assert (forall l acc pre, foldl (fun n b => n + pop_byte 8 (byte_val b)) acc l =
            acc + ones (pre ++ l) (len pre * 8) (len (pre ++ l) * 8 - 1)) as Hl.
  { induction l as [|b l IH]; intros acc pre.
    - cbn [foldl]. rewrite app_nil_r. unfold ones. replace (len pre * 8 - 1 - len pre * 8 + 1) with 0 by lia. rewrite seqZ_nil by lia. unfold len. cbn [List.filter length]. lia.
    - cbn [foldl]. rewrite (IH _ (pre ++ [b])), <- app_assoc. cbn [app]. rewrite len_snoc.
      assert (len (pre ++ b :: l) = len pre + 1 + len l) as Hlen by (unfold len; rewrite length_app; cbn [length]; lia).
      rewrite Hlen. replace ((len pre + 1 + len l) * 8 - 1) with (len pre * 8 + 8 + len l * 8 - 1) by lia.
      pose proof (len_nonneg pre). pose proof (len_nonneg l). rewrite (ones_app _ (len pre * 8) 8) by lia.
      replace ((len pre + 1) * 8) with (len pre * 8 + 8) by lia.
      replace (len pre * 8 + 8 - 1) with (len pre * 8 + 7) by lia. rewrite ones_byte. lia. }
  apply (Hl buf 0 []).
Qed.

Lemma first_bit_spec fuel want f b :
  match first_bit fuel want f b with
  | Some r => b <= r < b + Z.of_nat fuel /\ f r = want /\ forall j, b <= j < r -> f j <> want
  | None => forall j, b <= j < b + Z.of_nat fuel -> f j <> want
  end.
Proof.
  revert b. induction fuel as [|fuel IH]; intros b; cbn [first_bit]; [intros j Hj; lia|].
  destruct (Z.eqb_spec (f b) want) as [E|E]; [split; [lia|]; split; [done|]; intros j Hj; lia|].
  specialize (IH (b + 1)). destruct (first_bit fuel want f (b + 1)) as [r|].
  - destruct IH as (Hr & Hf & Hn). split; [lia|]. split; [done|]. intros j Hj. destruct (decide (j = b)) as [->|]; [done|]. apply Hn. lia.
  - intros j Hj. destruct (decide (j = b)) as [->|]; [done|]. apply IH. lia.
Qed.

Lemma search_spec want f from to :
  match search want f from to with
  | Some r => from <= r <= to /\ f r = want /\ forall j, from <= j < r -> f j <> want
  | None => forall j, from <= j <= to -> f j <> want
  end.
Proof.
  unfold search. pose proof (first_bit_spec (Z.to_nat (to - from + 1)) want f from) as Hs.
  destruct (first_bit _ want f from) as [r|]; [destruct Hs as (Hr & Hs)|]; [split; [lia|done]|]. intros j Hj. apply Hs. lia.
Qed.

(** Over a range of bit positions BITPOS's search answers the first
    position in it that holds the wanted bit, and -1 exactly when there is
    none; without an end it searches a set bit up to the last bit, and a clear
    bit also in the zeros that follow the value, whose first position it
    answers when every bit from the start on is set. *)
Theorem findBit_first buf (want : bool) from to :
  0 <= from -> len buf * 8 < 2 ^ 63 -> to < len buf * 8 ->
  let r := findBit buf (Z.b2z want) from to (len buf * 8) in
  let last := if to <? 0 then len buf * 8 - 1 else to in
  (from <= r <= last /\ bit buf r = want /\ forall j, from <= j < r -> bit buf j <> want) \/
  ((forall j, from <= j <= last -> bit buf j <> want) /\
   r = if (to <? 0) && negb want && (from <? len buf * 8) then len buf * 8 else -1).
Proof.
  intros Hf Hb Ht. cbv zeta. set (total := len buf * 8) in *. unfold findBit.
  assert (forall j, from <= j < total -> getBitAt buf (u64 j) = Z.b2z (bit buf j)) as Hg.
  { intros j Hj. rewrite u64_id by (unfold is_u64; lia). apply getBitAt_bit. }
  assert (forall to', to' < total ->
    let r := if to' <? from then -1 else default (-1) (search (Z.b2z want) (fun b => if b <? total then getBitAt buf (u64 b) else 0) from to') in
    (from <= r <= to' /\ bit buf r = want /\ forall j, from <= j < r -> bit buf j <> want) \/
    ((forall j, from <= j <= to' -> bit buf j <> want) /\ r = -1)) as Hbd.
  { intros to' Ht'. cbv zeta. destruct (to' <? from) eqn:E; breflect; [right; split; [intros j Hj; lia|done]|].
    pose proof (search_spec (Z.b2z want) (fun b => if b <? total then getBitAt buf (u64 b) else 0) from to') as Hs.
    assert (forall j, from <= j <= to' -> (if j <? total then getBitAt buf (u64 j) else 0) = Z.b2z (bit buf j)) as Hj.
    { intros j Hj. zdec. apply Hg. lia. }
    destruct (search _ _ from to') as [r|]; cbn [from_option]; unfold id.
    - left. destruct Hs as (Hr & Hw & Hn). split; [done|]. rewrite Hj in Hw by lia. split; [by apply Z.b2z_inj|].
      intros j Hj'. specialize (Hn j Hj'). rewrite Hj in Hn by lia. congruence.
    - right. split; [|done]. intros j Hj' E'. apply (Hs j Hj'). rewrite Hj by lia. congruence. }
  destruct (to <? 0) eqn:E0; breflect; cbn [andb].
  - destruct want; cbn [Z.b2z negb andb Z.eqb].
    + change (1 =? 1) with true. cbv iota. apply (Hbd (total - 1)). lia.
    + change (0 =? 1) with false. cbv iota. destruct (total <=? from) eqn:E1; breflect; zdec.
      { right. split; [intros j Hj; lia|done]. }
      pose proof (search_spec 0 (fun b => getBitAt buf (u64 b)) from (total - 1)) as Hs.
      destruct (search _ _ from (total - 1)) as [r|]; cbn [from_option]; unfold id.
      * left. destruct Hs as (Hr & Hw & Hn). split; [done|]. rewrite Hg in Hw by lia. split; [by destruct (bit buf r)|].
        intros j Hj Ej. apply (Hn j Hj). rewrite Hg by lia. by rewrite Ej.
      * right. split; [|done]. intros j Hj Ej. apply (Hs j Hj). rewrite Hg by lia. by rewrite Ej.
  - apply Hbd. lia.
Qed.

(** ** BITFIELD *)

Definition type_ok (t : bitfieldType) : Prop := 1 <= bits t <= if signed t then 64 else 63.

Definition lowest (t : bitfieldType) : Z := if signed t then - 2 ^ (bits t - 1) else 0.
Definition highest (t : bitfieldType) : Z := if signed t then 2 ^ (bits t - 1) - 1 else 2 ^ bits t - 1.

(** The value of the type that is congruent to [z]. *)
Definition fit (t : bitfieldType) (z : Z) : Z := lowest t + (z - lowest t) mod 2 ^ bits t.

Lemma fit_range t z : type_ok t -> lowest t <= fit t z <= highest t.
Proof.
  intros Ht. unfold fit, lowest, highest, type_ok in *. pose proof (Z.mod_pos_bound (z - (if signed t then - 2 ^ (bits t - 1) else 0)) (2 ^ bits t)) as Hm.
  pose proof (Z.pow_pos_nonneg 2 (bits t)). destruct (signed t); [|lia].
  replace (bits t) with (bits t - 1 + 1) in * by lia. rewrite Z.pow_add_r in * by lia. replace (bits t - 1 + 1 - 1) with (bits t - 1) in * by lia. lia.
Qed.

Lemma fit_id t z : type_ok t -> lowest t <= z <= highest t -> fit t z = z.
Proof.
  intros Ht Hz. unfold fit. rewrite Z.mod_small; [lia|]. unfold lowest, highest, type_ok in *. destruct (signed t); [|lia].
  replace (2 ^ bits t) with (2 * 2 ^ (bits t - 1)); [lia|]. rewrite <- Z.pow_succ_r by lia. f_equal. lia.
Qed.

Lemma fit_congr t a b : type_ok t -> a mod 2 ^ bits t = b mod 2 ^ bits t -> fit t a = fit t b.
Proof. intros Ht E. unfold fit. f_equal. by rewrite Zminus_mod, E, <- Zminus_mod. Qed.

Lemma mask_land t x : type_ok t -> Z.land x (bitfieldMask (bits t)) = x mod 2 ^ bits t.
Proof.
  intros Ht. unfold type_ok in Ht. assert (1 <= bits t <= 64) as Hb by (destruct (signed t); lia).
  rewrite <- Z.land_ones by lia. f_equal. unfold bitfieldMask. destruct (bits t =? 64) eqn:E; breflect; [by rewrite E|].
  rewrite Z.shiftl_1_l, Z.ones_equiv. unfold u64. rewrite Z.mod_small; [lia|].
  pose proof (Z.pow_pos_nonneg 2 (bits t)). pose proof (Z.pow_le_mono_r 2 (bits t) 63). lia.
Qed.

Lemma signExtend_fit t v : type_ok t -> 0 <= v < 2 ^ bits t -> bitfieldSignExtend v t = fit t v.
Proof.
  intros Ht Hv. unfold type_ok in Ht. unfold bitfieldSignExtend, fit, lowest.
  assert (Z.land (Z.shiftr v (bits t - 1)) 1 = v / 2 ^ (bits t - 1)) as Hb.
  { change 1 with (Z.ones 1) at 2. rewrite Z.land_ones, Z.shiftr_div_pow2 by (destruct (signed t); lia). apply Z.mod_small.
    split; [apply Z.div_pos; [lia|]; apply Z.pow_pos_nonneg; destruct (signed t); lia|].
    apply Z.div_lt_upper_bound; [apply Z.pow_pos_nonneg; destruct (signed t); lia|].
    replace (2 ^ (bits t - 1) * 2 ^ 1) with (2 ^ bits t); [lia|]. rewrite <- Z.pow_add_r by (destruct (signed t); lia). f_equal. lia. }
  rewrite Hb. destruct (signed t) eqn:Es; cbn [andb].
  - assert (2 ^ bits t = 2 * 2 ^ (bits t - 1)) as Hp by (rewrite <- Z.pow_succ_r by lia; f_equal; lia).
    pose proof (Z.pow_pos_nonneg 2 (bits t - 1)). pose proof (Z.pow_le_mono_r 2 (bits t - 1) 63).
    destruct (bits t <? 64) eqn:E64; breflect; cbn [andb].
    + pose proof (Z.pow_le_mono_r 2 (bits t) 63). destruct (decide (v < 2 ^ (bits t - 1))) as [Hl|Hl].
      * rewrite Z.div_small by lia. change (0 =? 1) with false. cbv iota. rewrite i64_id by (unfold is_i64; lia). rewrite Z.mod_small; lia.
      * replace (v / 2 ^ (bits t - 1)) with 1; [|apply Z.div_unique with (v - 2 ^ (bits t - 1)); lia].
        change (1 =? 1) with true. cbv iota. rewrite Z.shiftl_1_l.
        destruct (decide (bits t = 63)) as [E63|].
        { rewrite E63 in *. unfold i64, u64. change (2 ^ 63 mod 2 ^ 64) with (2 ^ 63).
          replace (v - - 2 ^ (63 - 1)) with (v - 2 ^ 62 + 1 * 2 ^ 63) by lia. rewrite Z.mod_add by lia. rewrite (Z.mod_small (v - 2 ^ 62)) by lia.
          rewrite (Z.mod_small (v + 2 ^ 63)) by lia. change ((2 ^ 63 + 2 ^ 63) mod 2 ^ 64 - 2 ^ 63) with (- 2 ^ 63).
          replace (v + 2 ^ 63 - 2 ^ 63 - - 2 ^ 63 + 2 ^ 63) with (v + 1 * 2 ^ 64) by lia. rewrite Z.mod_add, Z.mod_small by lia. lia. }
        pose proof (Z.pow_le_mono_r 2 (bits t) 62). rewrite (u64_id (2 ^ bits t)) by (unfold is_u64; lia).
        rewrite (i64_id v), (i64_id (2 ^ bits t)) by (unfold is_i64; lia). rewrite i64_id by (unfold is_i64; lia).
        replace (v - - 2 ^ (bits t - 1)) with (v - 2 ^ (bits t - 1) + 1 * 2 ^ bits t) by lia. rewrite Z.mod_add, Z.mod_small; lia.
    + replace (bits t) with 64 in * by lia. unfold i64. change (2 ^ (64 - 1)) with (2 ^ 63). replace (v - - 2 ^ 63) with (v + 2 ^ 63) by lia. lia.
  - pose proof (Z.pow_le_mono_r 2 (bits t) 63). rewrite i64_id by (unfold is_i64; lia). rewrite Z.mod_small; lia.
Qed.

Lemma raw_step buf idx v j :
  0 <= v < 2 ^ j -> 0 <= j < 64 ->
  let v' := (if getBitAt buf idx =? 1 then Z.lor (u64 (Z.shiftl v 1)) 1 else u64 (Z.shiftl v 1)) in
  v' = 2 * v + Z.b2z (bit buf idx) /\ 0 <= v' < 2 ^ (j + 1).
Proof.
  intros Hv Hj. cbv zeta. rewrite Z.shiftl_mul_pow2 by lia. change (2 ^ 1) with 2.
  assert (2 ^ (j + 1) = 2 * 2 ^ j) as Hp by (rewrite Z.pow_add_r by lia; lia). pose proof (Z.pow_le_mono_r 2 j 63).
  rewrite u64_id by (unfold is_u64; lia). rewrite getBitAt_1. destruct (bit buf idx); cbn [Z.b2z]; [|lia].
  assert (Z.lor (v * 2) 1 = 2 * v + 1) as ->; [|lia]. rewrite Z.mul_comm. destruct v; [done|done|lia].
Qed.

Lemma raw_loop_bits buf n idx v j :
  0 <= v < 2 ^ j -> 0 <= j -> j + Z.of_nat n <= 64 ->
  0 <= raw_loop buf idx n v < 2 ^ (j + Z.of_nat n) /\
  forall i, 0 <= i -> Z.testbit (raw_loop buf idx n v) i =
    if decide (i < Z.of_nat n) then bit buf (idx + Z.of_nat n - 1 - i) else Z.testbit v (i - Z.of_nat n).
Proof.
  revert idx v j. induction n as [|n IH]; intros idx v j Hv Hj Hn.
  - cbn [raw_loop]. rewrite Nat2Z.inj_0, Z.add_0_r. split; [done|]. intros i Hi. destruct (decide _); [lia|]. by rewrite Z.sub_0_r.
  - cbn [raw_loop]. cbv zeta. destruct (raw_step buf idx v j Hv) as [Ev Hv']; [lia|]. cbv zeta in Ev, Hv'.
    set (v' := if getBitAt buf idx =? 1 then _ else _) in *.
    destruct (IH (idx + 1) v' (j + 1)) as [Hr Hb]; [done|lia|lia|]. split.
    + replace (j + Z.of_nat (S n)) with (j + 1 + Z.of_nat n) by lia. done.
    + intros i Hi. rewrite Hb by done. destruct (decide (i < Z.of_nat n)) as [Hl|Hl], (decide (i < Z.of_nat (S n))) as [Hl'|Hl']; try lia.
      * f_equal. lia.
      * replace i with (Z.of_nat n) by lia. rewrite Z.sub_diag, Ev. replace (idx + Z.of_nat (S n) - 1 - Z.of_nat n) with idx by lia.
        rewrite Z.add_comm, Z.add_b2z_double_bit0. done.
      * rewrite Ev. replace (i - Z.of_nat n) with (Z.succ (i - Z.of_nat (S n))) by lia.
        rewrite Z.testbit_succ_r by lia. done.
Qed.

Lemma bitfieldRaw_spec buf off t :
  type_ok t -> 0 <= bitfieldRaw buf off (bits t) < 2 ^ bits t /\
  forall i, 0 <= i < bits t -> Z.testbit (bitfieldRaw buf off (bits t)) i = bit buf (off + bits t - 1 - i).
Proof.
  intros Ht. assert (1 <= bits t <= 64) as Hb by (unfold type_ok in Ht; destruct (signed t); lia). unfold bitfieldRaw.
  destruct (raw_loop_bits buf (Z.to_nat (bits t)) off 0 0) as [Hr Hx]; try lia. rewrite Z2Nat.id in * by lia. rewrite Z.add_0_l in Hr.
  split; [done|]. intros i Hi. rewrite Hx by lia. destruct (decide _); [done|lia].
Qed.

Lemma set_loop_bits n buf idx v m :
  0 <= idx -> 0 <= m -> (idx + Z.of_nat n + 7) / 8 <= len buf ->
  len (set_loop buf idx v n) = len buf /\
  bit (set_loop buf idx v n) m =
    if decide (idx <= m < idx + Z.of_nat n) then Z.testbit v (idx + Z.of_nat n - 1 - m) else bit buf m.
Proof.
  revert buf idx. induction n as [|n IH]; intros buf idx Hi Hm Hl; cbn [set_loop].
  { split; [done|]. destruct (decide _); [lia|done]. }
  assert (idx / 8 < len buf) as Hidx.
  { pose proof (Z.div_le_mono (idx + 8) (idx + Z.of_nat (S n) + 7) 8 ltac:(lia) ltac:(lia)).
    replace (idx + 8) with (idx + 1 * 8) in * by lia. rewrite Z.div_add in * by lia. lia. }
  set (b := Z.land _ 1 =? 1). destruct (IH (write_bit buf idx b) (idx + 1)) as [E1 E2]; [lia|done| |].
  { rewrite write_length. replace (idx + 1 + Z.of_nat n + 7) with (idx + Z.of_nat (S n) + 7) by lia. done. }
  rewrite write_length in E1. split; [done|]. rewrite E2. destruct (decide (idx + 1 <= m < _)) as [Hin|Hin], (decide (idx <= m < _)) as [Hin'|Hin']; try lia.
  - f_equal. lia.
  - replace m with idx by lia. rewrite bit_write by lia. destruct (decide _); [|done]. unfold b.
    replace (idx + Z.of_nat (S n) - 1 - idx) with (Z.of_nat n) by lia.
    change 1 with (Z.ones 1) at 1. rewrite Z.land_ones, Z.shiftr_div_pow2 by lia. rewrite Z.testbit_odd, Z.shiftr_div_pow2 by lia.
    rewrite Zmod_odd. by destruct (Z.odd _).
  - rewrite bit_write by lia. by destruct (decide (m = idx)); [lia|].
Qed.

Lemma bits_le t : type_ok t -> 1 <= bits t <= 64.
Proof. unfold type_ok. destruct (signed t); lia. Qed.

Lemma mod_mod_pow a k n : 0 <= k <= n -> (a mod 2 ^ n) mod 2 ^ k = a mod 2 ^ k.
Proof.
  intros Hk. apply Z.bits_inj'. intros i Hi. destruct (decide (i < k)).
  - rewrite !Z.mod_pow2_bits_low by lia. done.
  - rewrite !Z.mod_pow2_bits_high by lia. done.
Qed.

Lemma u64_congr t a : type_ok t -> u64 a mod 2 ^ bits t = a mod 2 ^ bits t.
Proof. intros Ht%bits_le. apply mod_mod_pow. lia. Qed.

Lemma bitfieldGet_range buf off t : type_ok t -> lowest t <= bitfieldGet buf off t <= highest t.
Proof.
  intros Ht. unfold bitfieldGet. destruct (bitfieldRaw_spec buf off t Ht) as [Hr _]. rewrite signExtend_fit by done. by apply fit_range.
Qed.

Lemma set_get buf off t val :
  type_ok t -> 0 <= off ->
  let buf' := (bitfieldSet buf off t val).2 in
  bitfieldGet buf' off t = fit t val /\ forall m, 0 <= m -> ~ (off <= m < off + bits t) -> bit buf' m = bit buf m.
Proof.
  intros Ht Ho. pose proof (bits_le t Ht) as Hb. cbv zeta. unfold bitfieldSet. cbn [snd]. rewrite mask_land by done.
  set (v := u64 val mod 2 ^ bits t). set (g := grow _ _). assert ((off + Z.of_nat (Z.to_nat (bits t)) + 7) / 8 <= len g) as Hl.
  { rewrite Z2Nat.id by lia. apply grow_length. }
  assert (forall m, 0 <= m -> bit (set_loop g off v (Z.to_nat (bits t))) m =
    if decide (off <= m < off + bits t) then Z.testbit v (off + bits t - 1 - m) else bit buf m) as Hbit.
  { intros m Hm. destruct (set_loop_bits (Z.to_nat (bits t)) g off v m Ho Hm Hl) as [_ ->]. rewrite Z2Nat.id by lia.
    destruct (decide _); [done|]. apply bit_grow. }
  pose proof (Z.pow_pos_nonneg 2 (bits t) ltac:(lia) ltac:(lia)). pose proof (Z.mod_pos_bound (u64 val) (2 ^ bits t)) as Hv. split.
  - unfold bitfieldGet. destruct (bitfieldRaw_spec (set_loop g off v (Z.to_nat (bits t))) off t Ht) as [Hr Hx].
    assert (bitfieldRaw (set_loop g off v (Z.to_nat (bits t))) off (bits t) = v) as ->.
    { apply Z.bits_inj'. intros k Hk. destruct (decide (k < bits t)).
      - rewrite Hx, Hbit by lia. destruct (decide _); [|lia]. f_equal. lia.
      - rewrite <- (Z.mod_small _ _ Hr), Z.mod_pow2_bits_high by lia. unfold v. by rewrite Z.mod_pow2_bits_high by lia. }
    rewrite signExtend_fit by (done || lia). apply fit_congr; [done|]. unfold v. rewrite Z.mod_mod by lia. by apply u64_congr.
  - intros m Hm Hn. rewrite Hbit by done. by destruct (decide _).
Qed.

(** BITFIELD SET answers the old value of the field and stores the new
    one: GET on the field then answers the value of the type congruent to the
    one given, and every bit outside the field is what it was, whatever the
    position of the field and the length of the string. *)
Theorem bitfield_set_get buf off t val :
  type_ok t -> 0 <= off ->
  let '(old, buf') := bitfieldSet buf off t val in
  old = bitfieldGet buf off t /\ bitfieldGet buf' off t = fit t val /\
  lowest t <= fit t val <= highest t /\ (fit t val - val) mod 2 ^ bits t = 0 /\
  forall m, 0 <= m -> ~ (off <= m < off + bits t) -> bit buf' m = bit buf m.
Proof.
  intros Ht Ho. pose proof (set_get buf off t val Ht Ho) as [Hg Hb]. destruct (bitfieldSet buf off t val) as [old buf'] eqn:E.
  cbn [snd] in *. split; [by injection E as <- _|]. split; [done|]. split; [by apply fit_range|]. split; [|done].
  unfold fit. pose proof (bits_le t Ht). pose proof (Z.pow_pos_nonneg 2 (bits t) ltac:(lia) ltac:(lia)).
  replace (lowest t + (val - lowest t) mod 2 ^ bits t - val) with ((val - lowest t) mod 2 ^ bits t - (val - lowest t)) by lia.
  rewrite Zminus_mod, Z.mod_mod, Z.sub_diag by lia. apply Z.mod_0_l. lia.
Qed.

Lemma bounds_ok t : type_ok t -> bitfieldBounds t = (lowest t, highest t).
Proof.
  intros Ht. unfold bitfieldBounds, lowest, highest, type_ok in *. destruct (signed t); cbn [negb].
  - destruct (bits t =? 64) eqn:E; breflect; [by rewrite E|]. rewrite Z.shiftl_1_l. pose proof (Z.pow_le_mono_r 2 (bits t - 1) 62).
    pose proof (Z.pow_pos_nonneg 2 (bits t - 1)). rewrite u64_id by (unfold is_u64; lia). rewrite i64_id by (unfold is_i64; lia). f_equal. lia.
  - pose proof (Z.pow_le_mono_r 2 (bits t) 63). pose proof (Z.pow_pos_nonneg 2 (bits t)). unfold bitfieldMask. zdec. rewrite Z.shiftl_1_l.
    rewrite u64_id by (unfold is_u64; lia). rewrite i64_id by (unfold is_i64; lia). done.
Qed.

Lemma bounds_width t : type_ok t -> - 2 ^ 63 <= lowest t /\ 0 <= highest t < 2 ^ 63 /\ lowest t <= 0 /\ (signed t = true -> lowest t < 0).
Proof.
  intros Ht. unfold lowest, highest, type_ok in *. pose proof (Z.pow_le_mono_r 2 (bits t - 1) 63). pose proof (Z.pow_le_mono_r 2 (bits t) 63).
  pose proof (Z.pow_pos_nonneg 2 (bits t - 1)). pose proof (Z.pow_pos_nonneg 2 (bits t)).
  destruct (signed t); split_and!; try lia; done.
Qed.

(** BITFIELD INCRBY is exact for every type and every increment (for an
    unsigned field, above the smallest integer): with OVERFLOW WRAP the field
    becomes the value congruent to the sum, with SAT the sum clamped to the
    type's bounds, and with FAIL the sum when it fits, while nothing is written
    when it does not; the answer is the value stored. *)
Theorem bitfield_incrby_exact buf off t incr ov :
  type_ok t -> 0 <= off -> is_i64 incr -> (signed t = true \/ minInt64 < incr) ->
  let sum := bitfieldGet buf off t + incr in
  let want := match ov with
              | bitOverflowWrap => Some (fit t sum)
              | bitOverflowSat => Some (Z.max (lowest t) (Z.min (highest t) sum))
              | bitOverflowFail => if decide (lowest t <= sum <= highest t) then Some sum else None
              end in
  match bitfieldIncrby buf off t incr ov with
  | None => want = None
  | Some (res, buf') => want = Some res /\ bitfieldGet buf' off t = res /\
      forall m, 0 <= m -> ~ (off <= m < off + bits t) -> bit buf' m = bit buf m
  end.
Proof.
  intros Ht Ho Hi Hs. cbv zeta. pose proof (bitfieldGet_range buf off t Ht) as Hold. set (old := bitfieldGet buf off t) in *.
  destruct (bounds_width t Ht) as (Hw1 & Hw2 & Hw3 & Hw4).
  assert ((if 0 <=? incr then i64 (highest t - incr) <? old else old <? i64 (lowest t - incr)) =
          negb (bool_decide (lowest t <= old + incr <= highest t))) as Hov.
  { unfold is_i64, minInt64 in *. destruct (0 <=? incr) eqn:E; breflect.
    - rewrite i64_id by (unfold is_i64; lia). case_bool_decide; zdec; done.
    - rewrite i64_id by (unfold is_i64; destruct Hs as [Hs|]; [specialize (Hw4 Hs)|]; lia). case_bool_decide; zdec; done. }
  set (raw := Z.land (u64 (u64 old + u64 incr)) (bitfieldMask (bits t))).
  assert (bitfieldSignExtend raw t = fit t (old + incr)) as Hres.
  { unfold raw. rewrite mask_land by done. pose proof (bits_le t Ht). pose proof (Z.pow_pos_nonneg 2 (bits t) ltac:(lia) ltac:(lia)).
    rewrite signExtend_fit; [|done|apply Z.mod_pos_bound; lia]. apply fit_congr; [done|]. rewrite Z.mod_mod, u64_congr by (done || lia).
    rewrite Z.add_mod, !u64_congr, <- Z.add_mod by (done || lia). done. }
  assert (forall lim, lowest t <= lim <= highest t ->
    bitfieldGet (bitfieldSet buf off t lim).2 off t = lim /\
    forall m, 0 <= m -> ~ (off <= m < off + bits t) -> bit (bitfieldSet buf off t lim).2 m = bit buf m) as Hset.
  { intros lim Hlim. destruct (set_get buf off t lim Ht Ho) as [-> Hb]. split; [by apply fit_id|done]. }
  assert (fit t (old + incr) = old + incr \/ ~ (lowest t <= old + incr <= highest t)) as Hfit.
  { destruct (decide (lowest t <= old + incr <= highest t)); [left; by apply fit_id|by right]. }
  pose proof (fit_range t (old + incr) Ht) as Hfr.
  unfold bitfieldIncrby. fold old. rewrite bounds_ok by done. cbv beta zeta iota. fold raw. rewrite Hres, Hov.
  destruct ov; [by destruct (Hset (fit t (old + incr)) Hfr)|..]; case_bool_decide as Hin; cbn [negb].
  - destruct Hfit as [Hfit|]; [|done]. rewrite Hfit. destruct (Hset (old + incr) Hin). split; [f_equal; lia|done].
  - destruct (0 <=? incr) eqn:E; breflect;
      [destruct (Hset (highest t)) as [? ?]; [lia|] | destruct (Hset (lowest t)) as [? ?]; [lia|]]; (split; [f_equal; lia|done]).
  - destruct Hfit as [Hfit|]; [|done]. rewrite Hfit. destruct (Hset (old + incr) Hin). destruct (decide _); done.
  - by destruct (decide _).
Qed.

(** ** BITOP *)

Definition op_bits (op : bitOp) (l : list bool) : bool :=
  match op with
  | OpAnd => forallb id l
  | OpOr => existsb id l
  | OpXor => foldr xorb false l
  | OpNot => negb (default false (head l))
  end.

Lemma max_len_ge srcs : forall s, s ∈ srcs -> (length s <= max_len srcs)%nat.
Proof.
  unfold max_len. assert (forall l m, (m <= foldl (fun m s => Nat.max m (length s)) m l)%nat /\
    forall s, s ∈ l -> (length s <= foldl (fun m (s : bytes) => Nat.max m (length s)) m l)%nat) as Hm.
  { induction l as [|x l IH]; intros m; cbn [foldl]; [split; [lia|by intros s ?%not_elem_of_nil]|].
    destruct (IH (Nat.max m (length x))) as [H1 H2]. split; [lia|]. intros s [->|Hs]%elem_of_cons; [lia|by apply H2]. }
  apply Hm.
Qed.

Lemma byte_at_range s i : 0 <= byte_at s i < 256.
Proof. unfold byte_at. destruct (s !! i); [apply byte_val_range|lia]. Qed.

Lemma combine_byte_bit op srcs i k :
  0 <= k < 8 -> srcs <> [] -> Z.testbit (combine_byte op srcs i) k = op_bits op (map (fun s => Z.testbit (byte_at s i) k) srcs).
Proof.
  intros Hk Hne. destruct op; cbn [combine_byte op_bits].
  - assert (forall l acc, Z.testbit (foldl (fun acc s => Z.land acc (byte_at s i)) acc l) k =
      Z.testbit acc k && forallb id (map (fun s => Z.testbit (byte_at s i) k) l)) as ->.
    { induction l as [|s l IH]; intros acc; cbn; [by rewrite andb_true_r|]. by rewrite IH, Z.land_spec, andb_assoc. }
    assert (Z.testbit 255 k = true) as -> by (change 255 with (Z.ones 8); apply Z.ones_spec_low; lia). done.
  - assert (forall l acc, Z.testbit (foldl (fun acc s => Z.lor acc (byte_at s i)) acc l) k =
      Z.testbit acc k || existsb id (map (fun s => Z.testbit (byte_at s i) k) l)) as ->.
    { induction l as [|s l IH]; intros acc; cbn; [by rewrite orb_false_r|]. by rewrite IH, Z.lor_spec, orb_assoc. }
    by rewrite Z.testbit_0_l.
  - assert (forall l acc, Z.testbit (foldl (fun acc s => Z.lxor acc (byte_at s i)) acc l) k =
      xorb (Z.testbit acc k) (foldr xorb false (map (fun s => Z.testbit (byte_at s i) k) l))) as ->.
    { induction l as [|s l IH]; intros acc; cbn; [by rewrite xorb_false_r|]. by rewrite IH, Z.lxor_spec, xorb_assoc. }
    rewrite Z.testbit_0_l. by rewrite xorb_false_l.
  - destruct srcs as [|s l]; [done|]. cbn. rewrite Z.lxor_spec.
    assert (Z.testbit 255 k = true) as -> by (change 255 with (Z.ones 8); apply Z.ones_spec_low; lia). apply xorb_true_l.
Qed.

Lemma combine_length op srcs : length (combine op srcs) = max_len srcs.
Proof. unfold combine. by rewrite length_map, length_seq. Qed.

Lemma combine_bits op srcs n :
  srcs <> [] -> 0 <= n < len (combine op srcs) * 8 -> bit (combine op srcs) n = op_bits op (map (fun s => bit s n) srcs).
Proof.
  intros Hne Hn. unfold len in Hn. rewrite combine_length in Hn. pose proof (Z.mod_pos_bound n 8 ltac:(lia)). unfold bit. unfold byte_at at 1.
  assert (Z.to_nat (n / 8) < max_len srcs)%nat as Hi.
  { pose proof (Z.div_lt_upper_bound n 8 (Z.of_nat (max_len srcs))). pose proof (Z.div_pos n 8). lia. }
  unfold combine. change (map ?f ?l) with (f <$> l). rewrite list_lookup_fmap, lookup_seq_lt by done. cbn [fmap option_fmap option_map].
  rewrite byte_testbit by lia. by apply combine_byte_bit; [lia|].
Qed.

(** ** The handlers over the map *)

Section spec.
Context `{Clock} `{GoUnicode}.
Notation W := (world (gmap bytes bytes)).

(** The key holds the buffer as a string without expiry, or nothing while the
    buffer is empty. *)
Definition holds (key buf : bytes) (w : W) : Prop :=
  w_kv w !! StringKey key = Some (EncodeString buf 0) \/ (first_hit typePrefixes key (w_kv w) = None /\ buf = []).

Lemma attempt_read (key buf : bytes) (w : W) :
  holds key buf w ->
  attempt (readBytes key) w = (Ok (inl (buf, 0)), w) \/ (attempt (readBytes key) w = (Ok (inr ENotFound), w) /\ buf = []).
Proof.
  intros [E|[E ->]]; unfold readBytes, attempt, mbind.
  - left. by rewrite (getEntry_string key w 0 buf) by (done || by left).
  - right. rewrite getEntry_map. unfold find_key. by rewrite E.
Qed.

Lemma read_held (key buf : bytes) (w : W) (k : bytes -> Z -> M (gmap bytes bytes) Value) :
  holds key buf w -> read_or_empty key k w = k buf 0 w.
Proof. intros Hh. unfold read_or_empty, mbind. by destruct (attempt_read key buf w Hh) as [-> | [-> ->]]. Qed.

Lemma offset_parsed (off : Z) (k : Z -> M (gmap bytes bytes) Value) : 0 <= off < 2 ^ 32 -> with_offset (S := gmap bytes bytes) (BulkOf (FormatUint off)) k = k off.
Proof.
  intros Ho. change (match bitOffset (FormatUint off) with None => mret (VError bitOffsetErr) | Some off => k off end = k off).
  unfold bitOffset, ParseUint32. rewrite ParseUint_FormatUint by (unfold is_u64; lia). by zdec.
Qed.

Definition bit_text (v : bool) : Value := BulkOf (if v then lit "1" else lit "0").

Inductive bitcall : Type := SetBit (off : Z) (v : bool) | GetBit (off : Z).
Definition call_off (c : bitcall) : Z := match c with SetBit o _ | GetBit o => o end.

(** The reference: an unbounded sequence of bits. *)
Definition spec (c : bitcall) (f : Z -> bool) : Value * (Z -> bool) :=
  match c with
  | SetBit off v => (VInteger (Z.b2z (f off)), fun n => if decide (n = off) then v else f n)
  | GetBit off => (VInteger (Z.b2z (f off)), f)
  end.
Definition send (key : bytes) (c : bitcall) : M (gmap bytes bytes) Value :=
  match c with
  | SetBit off v => setbit [BulkOf key; BulkOf (FormatUint off); bit_text v]
  | GetBit off => getbit [BulkOf key; BulkOf (FormatUint off)]
  end.

(** The key's string has these bits. *)
Definition shows (key : bytes) (f : Z -> bool) (w : W) : Prop :=
  exists buf, holds key buf w /\ forall n, 0 <= n -> bit buf n = f n.

Lemma send_spec (key : bytes) (c : bitcall) (f : Z -> bool) (w : W) :
  0 <= call_off c < 2 ^ 32 -> shows key f w ->
  exists w', send key c w = (Ok (spec c f).1, w') /\ shows key (spec c f).2 w'.
Proof.
  intros Ho (buf & Hh & Hf). destruct c as [off v|off]; cbn [call_off send spec fst snd] in *.
  - unfold setbit. change (with_key (BulkOf key) ?k) with (k key). cbv beta. rewrite offset_parsed by done.
    assert (zero_one (bit_text v) = Some v) as -> by (by destruct v). rewrite (read_held key buf w) by done.
    pose proof (setBitAt_spec buf off v ltac:(lia)) as [Hold Hnew]. destruct (setBitAt buf off v) as [buf' old]. cbn [fst snd] in *.
    eexists. split; [unfold commit, attempt, mbind; cbn; rewrite Hold, Hf by lia; reflexivity|].
    exists buf'. split; [left; cbn; apply lookup_insert_eq|]. intros n Hn. rewrite Hnew by done. destruct (decide _); [done|by apply Hf].
  - unfold getbit. change (with_key (BulkOf key) ?k) with (k key). cbv beta. rewrite offset_parsed by done. rewrite (read_held key buf w) by done.
    exists w. split; [rewrite getBitAt_bit, Hf by lia; done|]. by exists buf.
Qed.

Fixpoint spec_run (cs : list bitcall) (f : Z -> bool) : list Value * (Z -> bool) :=
  match cs with
  | [] => ([], f)
  | c :: cs => let '(v, f) := spec c f in let '(vs, f) := spec_run cs f in (v :: vs, f)
  end.
Fixpoint send_run (key : bytes) (cs : list bitcall) (w : W) : list (result Value) * W :=
  match cs with
  | [] => ([], w)
  | c :: cs => let '(v, w) := send key c w in let '(vs, w) := send_run key cs w in (v :: vs, w)
  end.

(** A string used through SETBIT and GETBIT is an unbounded array of bits,
    initially those of its bytes and zero after them: for every sequence of the
    two commands every reply is the one the array gives, and the string ends
    up with the bits of the array. *)
Theorem bit_commands_refine (key : bytes) (cs : list bitcall) (f : Z -> bool) (w : W) :
  Forall (fun c => 0 <= call_off c < 2 ^ 32) cs -> shows key f w ->
  (send_run key cs w).1 = map Ok (spec_run cs f).1 /\ shows key (spec_run cs f).2 (send_run key cs w).2.
Proof.
  intros Ho. revert f w. induction Ho as [|c cs Hc Ho IH]; intros f w Hs; [done|]. cbn [send_run spec_run].
  destruct (send_spec key c f w Hc Hs) as (w' & -> & Hs'). destruct (spec c f) as [v f']. cbn [fst snd] in *.
  destruct (IH f' w' Hs') as [E1 E2]. destruct (spec_run cs f') as [vs f''], (send_run key cs w') as [rs w'']. cbn in *. by rewrite E1.
Qed.

Lemma read_sources_held (names bufs : list bytes) (w : W) :
  Forall2 (fun n b => holds n b w) names bufs -> read_sources (map BulkOf names) w = (Ok (inl bufs), w).
Proof.
  induction 1 as [|n b names bufs Hh Hf IH]; [done|]. cbn [map read_sources]. change (argString (BulkOf n)) with (Some n). cbv beta zeta iota.
  unfold mbind at 1. destruct (attempt_read n b w Hh) as [-> | [-> ->]]; [|change (isNotFound ENotFound) with true]; cbv iota;
    unfold mbind; by rewrite IH.
Qed.

Definition op_text (op : bitOp) : bytes :=
  match op with OpAnd => lit "and" | OpOr => lit "or" | OpXor => lit "xor" | OpNot => lit "not" end.

(** BITOP stores, without expiry, a string as long as the longest source
    whose every bit is the operation of the sources' bits there (zero past a
    source's end), answers its length, and touches no other key. *)
Theorem bitop_bitwise (op : bitOp) (dst : bytes) (names bufs : list bytes) (old : bytes) (w : W) :
  parse_op (op_text op) = Some op -> names <> [] -> (op = OpNot -> length names = 1%nat) ->
  Forall2 (fun n b => holds n b w) names bufs -> holds dst old w -> (0 < max_len bufs)%nat ->
  exists out w', bitop (BulkOf (op_text op) :: BulkOf dst :: map BulkOf names) w = (Ok (VInteger (len out)), w') /\
    len out = Z.of_nat (max_len bufs) /\
    (forall n, 0 <= n < len out * 8 -> bit out n = op_bits op (map (fun s => bit s n) bufs)) /\
    w_kv w' = <[StringKey dst := EncodeString out 0]> (w_kv w).
Proof.
  intros Hop Hne Hnot Hsrc Hdst Hmax. exists (combine op bufs). assert (bufs <> []) as Hb by (by destruct Hsrc).
  assert (forall w1, w_kv w1 = w_kv w \/ w_kv w1 = delete (StringKey dst) (w_kv w) ->
    exists w', (if bool_decide (max_len bufs = 0%nat) then mret (VInteger 0)
      else commit (writeBytes dst (combine op bufs) 0) (mret (VInteger (len (combine op bufs))))) w1 = (Ok (VInteger (len (combine op bufs))), w') /\
      w_kv w' = <[StringKey dst := EncodeString (combine op bufs) 0]> (w_kv w)) as Hstore.
  { intros w1 Hw. rewrite bool_decide_eq_false_2 by lia. eexists. split; [reflexivity|]. cbn. destruct Hw as [Hw | Hw]; rewrite Hw; [done|].
    by rewrite insert_delete_eq. }
  assert (exists w', bitop (BulkOf (op_text op) :: BulkOf dst :: map BulkOf names) w = (Ok (VInteger (len (combine op bufs))), w') /\
    w_kv w' = <[StringKey dst := EncodeString (combine op bufs) 0]> (w_kv w)) as (w' & E & Ew).
  { unfold bitop. destruct names as [|n0 names]; [done|]. cbn [map].
    change (argString (BulkOf (op_text op))) with (Some (op_text op)). cbv iota. change (with_key (BulkOf dst) ?k) with (k dst). cbv beta.
    rewrite Hop. assert (match op with OpNot => negb (len (BulkOf (op_text op) :: BulkOf dst :: BulkOf n0 :: map BulkOf names) =? 3) | _ => false end = false) as ->.
    { destruct op; try done. specialize (Hnot eq_refl). cbn [length] in Hnot. unfold len. cbn [length]. rewrite length_map. by replace (length names) with 0%nat by lia. }
    cbn [drop]. unfold mbind at 1. change (BulkOf n0 :: map BulkOf names) with (map BulkOf (n0 :: names)). rewrite read_sources_held with (bufs := bufs) by done.
    unfold clear_dest, mbind at 1, attempt at 1. rewrite lookupRaw_map. destruct Hdst as [Ed|[Ed ->]].
    - rewrite (find_string dst w 0 old) by (done || by left). change (0 =? 0) with true. cbv iota beta.
      unfold mbind at 1, deleteBitmap. apply Hstore. right. done.
    - unfold find_key. rewrite Ed. change (isNotFound ENotFound) with true. cbv iota. apply Hstore. by left. }
  exists w'. split; [done|]. split; [unfold len; by rewrite combine_length|]. split; [|done]. intros n Hn. by apply combine_bits.
Qed.
End spec.

(** ** What the code gets wrong *)

(** BITPOS multiplies the start by eight without a bound: at 2^60 the position
    wraps to the smallest integer, which is then answered as a clear bit. *)
Theorem bitpos_start_wraps : bitpos_in (lit "a") 0 (2 ^ 60) None false = minInt64.
Proof.
  unfold bitpos_in. change (2 ^ 60 <? 0) with false. cbv iota zeta. change (i64 (2 ^ 60 * 8)) with minInt64. unfold findBit.
  change (-1 <? 0) with true. change (0 =? 1) with false. change (len (lit "a") * 8 <=? minInt64) with false. cbv iota.
  unfold search. destruct (Z.to_nat (len (lit "a") * 8 - 1 - minInt64 + 1)) as [|n] eqn:E; [change (len (lit "a")) with 1 in E; unfold minInt64 in E; lia|].
  cbn [first_bit]. change (getBitAt (lit "a") (u64 minInt64) =? 0) with true. done.
Qed.

(** The overflow check of INCRBY misses the smallest increment on an unsigned
    field: the bound minus the increment wraps. *)
Theorem bitfield_min_increment_missed :
  option_map fst (bitfieldIncrby (lit "a") 0 (mkType false 8) minInt64 bitOverflowFail) = Some 97.
Proof. vm_compute. reflexivity. Qed.

(** ** Concrete runs *)

Lemma findBit_first_witness :
  let buf := [byte_of 255; byte_of 240] in let r := findBit buf (Z.b2z false) 3 (-1) (len buf * 8) in
  (3 <= r <= 15 /\ bit buf r = false /\ forall j, 3 <= j < r -> bit buf j <> false) \/
  ((forall j, 3 <= j <= 15 -> bit buf j <> false) /\ r = 16).
Proof. apply (findBit_first [byte_of 255; byte_of 240] false 3 (-1)); vm_compute; congruence. Defined.

Lemma bitfield_set_get_witness :
  let t := mkType true 5 in
  let '(old, buf') := bitfieldSet (lit "ab") 6 t 19 in
  old = bitfieldGet (lit "ab") 6 t /\ bitfieldGet buf' 6 t = fit t 19 /\
  lowest t <= fit t 19 <= highest t /\ (fit t 19 - 19) mod 2 ^ bits t = 0 /\
  forall m, 0 <= m -> ~ (6 <= m < 6 + bits t) -> bit buf' m = bit (lit "ab") m.
Proof. apply (bitfield_set_get (lit "ab") 6 (mkType true 5) 19); [split; vm_compute; congruence | lia]. Defined.

Example fit_signed : fit (mkType true 5) 19 = -13.
Proof. reflexivity. Qed.

Lemma bitfield_incrby_exact_witness :
  match bitfieldIncrby (lit "a") 0 (mkType false 8) 200 bitOverflowSat with
  | None => Some (Z.max 0 (Z.min 255 (97 + 200))) = None
  | Some (res, buf') => Some (Z.max 0 (Z.min 255 (97 + 200))) = Some res /\ bitfieldGet buf' 0 (mkType false 8) = res /\
      forall m, 0 <= m -> ~ (0 <= m < 0 + 8) -> bit buf' m = bit (lit "a") m
  end.
Proof.
  apply (bitfield_incrby_exact (lit "a") 0 (mkType false 8) 200 bitOverflowSat);
    [split; vm_compute; congruence | lia | split; vm_compute; congruence | right; reflexivity].
Defined.

Lemma bit_commands_refine_witness :
  let cs := [SetBit 9 true; GetBit 9; SetBit 9 false; GetBit 3] in
  (@send_run step_clock (lit "k") cs empty_world).1 = map Ok (spec_run cs (fun _ => false)).1 /\
  shows (lit "k") (spec_run cs (fun _ => false)).2 (@send_run step_clock (lit "k") cs empty_world).2.
Proof.
  apply (@bit_commands_refine step_clock (lit "k") [SetBit 9 true; GetBit 9; SetBit 9 false; GetBit 3] (fun _ => false) empty_world).
  - repeat apply Forall_cons_2; try apply Forall_nil_2; cbn [call_off]; lia.
  - exists []. split; [right; split; reflexivity|]. intros n _. apply Z.testbit_0_l.
Defined.

Definition two_strings : world (gmap bytes bytes) :=
  world_of [(StringKey (lit "a"), EncodeString (lit "abc") 0); (StringKey (lit "b"), EncodeString (lit "xy") 0)].

Lemma bitop_bitwise_witness :
  exists out w', @bitop _ map_kv step_clock ascii_tables (BulkOf (lit "xor") :: BulkOf (lit "d") :: map BulkOf [lit "a"; lit "b"]) two_strings
    = (Ok (VInteger (len out)), w') /\
    len out = Z.of_nat (max_len [lit "abc"; lit "xy"]) /\
    (forall n, 0 <= n < len out * 8 -> bit out n = op_bits OpXor (map (fun s => bit s n) [lit "abc"; lit "xy"])) /\
    w_kv w' = <[StringKey (lit "d") := EncodeString out 0]> (w_kv two_strings).
Proof.
  apply (@bitop_bitwise step_clock ascii_tables OpXor (lit "d") [lit "a"; lit "b"] [lit "abc"; lit "xy"] [] two_strings).
  - reflexivity.
  - discriminate.
  - discriminate.
  - repeat apply Forall2_cons_2; [..|apply Forall2_nil_2]; left; vm_compute; reflexivity.
  - right. split; vm_compute; reflexivity.
  - vm_compute. lia.
Defined.

End bitspec.
