(* ===== verification/CmdList.v ===== *)
(** * List commands
    (src/internal/commands/list.go, list_mod.go, list_block.go)

    One definition per handler.  The blocking commands poll the store; what
    other clients do to it between two polls is an argument, the list of
    [wake]s. *)

From S2P Require Import Prelude GoLib GoStrings Resp Codec Kv Cmd.
Open Scope Z_scope.
Open Scope gedis_scope.

Module listcmd.

(** [time.Duration(f * float64(time.Second))] *)
Class GoDuration : Type := { seconds : Z -> Z }.

Definition listKey (args : list Value) : option bytes :=
  match args with [] => None | a :: _ => argString a end.

Definition toBulkArray (elems : list bytes) : Value := VArray (Some (map BulkOf elems)).
Definition toIntArray (ns : list Z) : Value := VArray (Some (map VInteger ns)).

Definition normalizeIndex (idx n : Z) : Z :=
  let idx := if idx <? 0 then idx + n else idx in
  if (idx <? 0) || (n <=? idx) then -1 else idx.

(** LRANGE and LTRIM: negative positions count from the end, then both ends
    are clamped. *)
Definition clamp (n start stop : Z) : Z * Z :=
  let start := if start <? 0 then start + n else start in
  let stop := if stop <? 0 then stop + n else stop in
  (if start <? 0 then 0 else start, if n <=? stop then n - 1 else stop).

Definition absCount (n : Z) : Z := if n <? 0 then i64 (- n) else n.

Section handlers.
Context {S : Type} `{KV S} `{Clock} `{GoUnicode}.
Import datastruct.

Definition readList (key : bytes) : M S (list bytes * Z) :=
  let! e := lookupKey key in
  if bool_decide (Type_ e = TypeList) then
    let! elems := lift (DecodeList (Payload e)) in mret (elems, Expiry e)
  else merr WRONGTYPE.

Definition writeList (key : bytes) (elems : list bytes) (expiry : Z) : M S unit :=
  kvSet (ListKey key) (Encode TypeList expiry (EncodeList elems)).

(** The usual read: [missing] when there is no such key, the error's text for
    any other error. *)
Definition with_list (key : bytes) (missing : M S Value) (k : list bytes -> Z -> M S Value) : M S Value :=
  let! r := attempt (readList key) in
  match r with
  | inr e => if isNotFound e then missing else mret (errValue e)
  | inl (elems, expiry) => k elems expiry
  end.

Definition with_lkey (args : list Value) (k : bytes -> M S Value) : M S Value :=
  match listKey args with None => mret (errS "ERR invalid key") | Some key => k key end.

(** ** Pushing and popping *)

Fixpoint push_values (vals : list Value) (head : bool) (elems : list bytes) : option (list bytes) :=
  match vals with
  | [] => Some elems
  | a :: rest =>
      match argString a with
      | None => None
      | Some v => push_values rest head (if head then v :: elems else elems ++ [v])
      end
  end.

Definition push (args : list Value) (head : bool) : M S Value :=
  if len args <? 2 then mret (wrong_args "push")
  else with_lkey args (fun key =>
    let k elems expiry :=
      match push_values (drop 1 args) head elems with
      | None => mret (errS "ERR invalid value")
      | Some elems =>
          commit (writeList key elems expiry)
            (let! _ := Notify "l" (lit (if head then "lpush" else "rpush")) key in
             mret (VInteger (len elems)))
      end in
    with_list key (k [] 0) k).

Definition lpush (args : list Value) : M S Value := push args true.
Definition rpush (args : list Value) : M S Value := push args false.

(** [out, elems = ...]: the [count] elements taken and those that remain. *)
Definition split_pop (elems : list bytes) (count : Z) (tail : bool) : result (list bytes * list bytes) :=
  if tail then
    let? out := slice elems (len elems - count) (len elems) in
    let? rest := slice elems 0 (len elems - count) in Ok (out, rest)
  else
    let? out := slice elems 0 count in
    let? rest := slice elems count (len elems) in Ok (out, rest).

Definition pop_count (args : list Value) : option (Z * bool) :=
  match args with
  | [_; a] =>
      match argString a with
      | None => None
      | Some c => match ParseInt c with
                  | None => None
                  | Some n => if n <? 0 then None else Some (n, true)
                  end
      end
  | _ => Some (1, false)
  end.

Definition popOne (args : list Value) (tail : bool) : M S Value :=
  if (len args <? 1) || (2 <? len args) then mret (wrong_args "pop")
  else with_lkey args (fun key =>
    match pop_count args with
    | None => mret err_int
    | Some (count, withCount) =>
        with_list key (mret (if withCount then toBulkArray [] else nilBulk)) (fun elems expiry =>
          let! (out, elems) := lift (split_pop elems (if len elems <? count then len elems else count) tail) in
          let event := lit (if tail then "rpop" else "lpop") in
          let reply := mret (if withCount then toBulkArray out
                             else match out with [] => nilBulk | e :: _ => BulkOf e end) in
          match elems with
          | [] => commit (kvDelete (ListKey key))
                    (let! _ := Notify "l" event key in let! _ := Notify "g" (lit "del") key in reply)
          | _ => commit (writeList key elems expiry) (let! _ := Notify "l" event key in reply)
          end)
    end).

Definition lpop (args : list Value) : M S Value := popOne args false.
Definition rpop (args : list Value) : M S Value := popOne args true.

(** ** Reading *)

Definition llen (args : list Value) : M S Value :=
  if negb (len args =? 1) then mret (wrong_args "llen")
  else with_lkey args (fun key =>
    with_list key (mret (VInteger 0)) (fun elems _ => mret (VInteger (len elems)))).

(** [elems[pos]] *)
Definition elem_at (elems : list bytes) (pos : Z) : result bytes :=
  match slice elems pos (pos + 1) with Ok [e] => Ok e | _ => Panic end.

Definition lindex (args : list Value) : M S Value :=
  match args with
  | [a; b] => with_key a (fun key => with_int b (fun idx =>
      with_list key (mret nilBulk) (fun elems _ =>
        let pos := normalizeIndex idx (len elems) in
        if pos <? 0 then mret nilBulk
        else let! e := lift (elem_at elems pos) in mret (BulkOf e))))
  | _ => mret (wrong_args "lindex")
  end.

(** The two positions are read as strings before either is parsed. *)
Definition with_range (a b : Value) (k : Z -> Z -> M S Value) : M S Value :=
  match argString a, argString b with
  | Some s, Some t =>
      match ParseInt s, ParseInt t with
      | Some start, Some stop => k start stop
      | _, _ => mret err_int
      end
  | _, _ => mret err_int
  end.

Definition lrange (args : list Value) : M S Value :=
  match args with
  | [a; b; c] => with_key a (fun key => with_range b c (fun start stop =>
      with_list key (mret (toBulkArray [])) (fun elems _ =>
        let n := len elems in
        let '(start, stop) := clamp n start stop in
        if (stop <? start) || (n <=? start) then mret (toBulkArray [])
        else let! out := lift (slice elems start (stop + 1)) in mret (toBulkArray out))))
  | _ => mret (wrong_args "lrange")
  end.

(** ** Updating *)

Definition lset (args : list Value) : M S Value :=
  match args with
  | [a; b; c] => with_key a (fun key => with_int b (fun idx => with_value c (fun val =>
      with_list key (mret (errS "ERR no such key")) (fun elems expiry =>
        let pos := normalizeIndex idx (len elems) in
        if pos <? 0 then mret (errS "ERR index out of range")
        else commit (writeList key (<[Z.to_nat pos := val]> elems) expiry)
               (let! _ := Notify "l" (lit "lset") key in mret okReply)))))
  | _ => mret (wrong_args "lset")
  end.

(** The first position of [pivot], or -1. *)
Fixpoint pivot_pos (i : Z) (elems : list bytes) (pivot : bytes) : Z :=
  match elems with
  | [] => -1
  | e :: rest => if bytes_eqb e pivot then i else pivot_pos (i + 1) rest pivot
  end.

(** [append(elems, ""); copy(elems[pos+1:], elems[pos:]); elems[pos] = val] *)
Definition insert_at (elems : list bytes) (pos : Z) (val : bytes) : list bytes :=
  let grown := elems ++ [[]] in
  let moved := take (Z.to_nat (pos + 1)) grown ++ take (length grown - Z.to_nat (pos + 1)) (drop (Z.to_nat pos) grown) in
  <[Z.to_nat pos := val]> moved.

Definition linsert (args : list Value) : M S Value :=
  match args with
  | [a; b; c; d] => with_key a (fun key =>
      match argString b with
      | None => mret (errS "ERR syntax error")
      | Some where_ =>
          let where_ := ToUpper where_ in
          if negb (bytes_eqb where_ (lit "BEFORE")) && negb (bytes_eqb where_ (lit "AFTER")) then mret (errS "ERR syntax error")
          else match argString c with
          | None => mret (errS "ERR invalid pivot")
          | Some pivot => with_value d (fun val =>
              with_list key (mret (VInteger 0)) (fun elems expiry =>
                let pos := pivot_pos 0 elems pivot in
                if pos <? 0 then mret (VInteger (-1))
                else
                  let pos := if bytes_eqb where_ (lit "AFTER") then pos + 1 else pos in
                  let elems := insert_at elems pos val in
                  commit (writeList key elems expiry)
                    (let! _ := Notify "l" (lit "linsert") key in mret (VInteger (len elems)))))
          end
      end)
  | _ => mret (wrong_args "linsert")
  end.

(** The two loops of LREM: from the head, appending what is kept; from the
    tail, prepending it. *)
Fixpoint lrem_loop (count : Z) (val : bytes) (forward : bool) (elems : list bytes) (kept : list bytes) (removed : Z)
    : list bytes * Z :=
  match elems with
  | [] => (kept, removed)
  | e :: rest =>
      if bytes_eqb e val && ((count =? 0) || (removed <? absCount count)) then
        lrem_loop count val forward rest kept (removed + 1)
      else lrem_loop count val forward rest (if forward then kept ++ [e] else e :: kept) removed
  end.

Definition lrem_elems (count : Z) (val : bytes) (elems : list bytes) : list bytes * Z :=
  if 0 <=? count then lrem_loop count val true elems [] 0
  else lrem_loop count val false (rev elems) [] 0.

Definition lrem (args : list Value) : M S Value :=
  match args with
  | [a; b; c] => with_key a (fun key => with_int b (fun count => with_value c (fun val =>
      with_list key (mret (VInteger 0)) (fun elems expiry =>
        let '(kept, removed) := lrem_elems count val elems in
        if (len kept =? 0) && (0 <? removed) then
          let! _ := ignore (kvDelete (ListKey key)) in
          let! _ := Notify "l" (lit "lrem") key in
          let! _ := Notify "g" (lit "del") key in
          mret (VInteger removed)
        else if 0 <? removed then
          commit (writeList key kept expiry) (let! _ := Notify "l" (lit "lrem") key in mret (VInteger removed))
        else mret (VInteger removed)))))
  | _ => mret (wrong_args "lrem")
  end.

Definition ltrim (args : list Value) : M S Value :=
  match args with
  | [a; b; c] => with_key a (fun key => with_range b c (fun start stop =>
      with_list key (mret okReply) (fun elems expiry =>
        let n := len elems in
        let '(start, stop) := clamp n start stop in
        let! kept := lift (if (stop <? start) || (n <=? start) then Ok [] else slice elems start (stop + 1)) in
        if len kept =? 0 then
          let! _ := ignore (kvDelete (ListKey key)) in
          let! _ := Notify "l" (lit "ltrim") key in
          let! _ := Notify "g" (lit "del") key in
          mret okReply
        else
          commit (writeList key kept expiry) (let! _ := Notify "l" (lit "ltrim") key in mret okReply))))
  | _ => mret (wrong_args "ltrim")
  end.
(** ** Moving *)

Definition parseMoveSide (s : bytes) : option bool :=
  let u := ToUpper s in
  if bytes_eqb u (lit "LEFT") then Some false
  else if bytes_eqb u (lit "RIGHT") then Some true
  else None.

(** [elem, srcElems = ...] *)
Definition take_one (elems : list bytes) (tail : bool) : result (bytes * list bytes) :=
  if tail then
    let? e := elem_at elems (len elems - 1) in
    let? rest := slice elems 0 (len elems - 1) in Ok (e, rest)
  else
    let? e := elem_at elems 0 in
    let? rest := slice elems 1 (len elems) in Ok (e, rest).

Definition moveCore (src dst : bytes) (fromTail toTail : bool) : M S Value :=
  with_list src (mret nilBulk) (fun srcElems srcExp =>
    if len srcElems =? 0 then mret nilBulk
    else
      let! (elem, srcElems) := lift (take_one srcElems fromTail) in
      let k dstElems dstExp :=
        let dstElems := if toTail then dstElems ++ [elem] else elem :: dstElems in
        let pushEvent := lit (if toTail then "rpush" else "lpush") in
        let popEvent := lit (if fromTail then "rpop" else "lpop") in
        if bytes_eqb src dst then
          commit (writeList dst dstElems srcExp)
            (let! _ := Notify "l" pushEvent dst in
             let! _ := Notify "l" popEvent src in
             mret (BulkOf elem))
        else
          commit (writeList dst dstElems dstExp)
            (let! _ := Notify "l" pushEvent dst in
             commit (match srcElems with [] => kvDelete (ListKey src) | _ => writeList src srcElems srcExp end)
               (let! _ := Notify "l" popEvent src in
                let! _ := (match srcElems with [] => Notify "g" (lit "del") src | _ => mret () end) in
                mret (BulkOf elem))) in
      with_list dst (k [] 0) k).

Definition with_sides (a b : Value) (k : bool -> bool -> M S Value) : M S Value :=
  match argString a with
  | None => mret (errS "ERR syntax error")
  | Some f =>
      match parseMoveSide f with
      | None => mret (errS "ERR syntax error")
      | Some fromTail =>
          match argString b with
          | None => mret (errS "ERR syntax error")
          | Some t => match parseMoveSide t with
                      | None => mret (errS "ERR syntax error")
                      | Some toTail => k fromTail toTail
                      end
          end
      end
  end.

Definition lmove (args : list Value) : M S Value :=
  match args with
  | [a; b; c; d] => with_key a (fun src => with_key b (fun dst =>
      with_sides c d (fun fromTail toTail => moveCore src dst fromTail toTail)))
  | _ => mret (wrong_args "lmove")
  end.

Definition rpoplpush (args : list Value) : M S Value :=
  match args with
  | [a; b] => with_key a (fun src => with_key b (fun dst => moveCore src dst true false))
  | _ => mret (wrong_args "rpoplpush")
  end.

(** ** Popping from several keys *)

Definition tryPopCount (key : bytes) (tail : bool) (count : Z) : M S (option (list bytes)) :=
  let! r := attempt (readList key) in
  match r with
  | inr e => if isNotFound e then mret None else merr e
  | inl (elems, expiry) =>
      if len elems =? 0 then mret None
      else
        let! (out, elems) := lift (split_pop elems (if len elems <? count then len elems else count) tail) in
        let! _ := (match elems with [] => kvDelete (ListKey key) | _ => writeList key elems expiry end) in
        mret (Some out)
  end.

Definition tryPopSingle (key : bytes) (tail : bool) : M S (option bytes) :=
  let! r := attempt (readList key) in
  match r with
  | inr e => if isNotFound e then mret None else merr e
  | inl (elems, expiry) =>
      if len elems =? 0 then mret None
      else
        let! (elem, elems) := lift (take_one elems tail) in
        let! _ := (match elems with [] => kvDelete (ListKey key) | _ => writeList key elems expiry end) in
        mret (Some elem)
  end.

Fixpoint arg_keys (args : list Value) : option (list bytes) :=
  match args with
  | [] => Some []
  | a :: rest => match argString a with
                 | None => None
                 | Some k => match arg_keys rest with None => None | Some ks => Some (k :: ks) end
                 end
  end.

(** numkeys key [key ...] LEFT|RIGHT [COUNT n] *)
Definition mpop_args (badCount : Value) (args : list Value) : (list bytes * bool * Z) + Value :=
  match args with
  | [] => inr err_int
  | a :: rest =>
      match argString a with
      | None => inr err_int
      | Some s =>
          match ParseInt s with
          | None => inr err_int
          | Some numkeys =>
              if (numkeys <=? 0) || (len args - 1 <? numkeys) then inr err_int
              else match arg_keys (take (Z.to_nat numkeys) rest) with
              | None => inr (errS "ERR invalid key")
              | Some keys =>
                  match drop (Z.to_nat numkeys) rest with
                  | [] => inr (errS "ERR syntax error")
                  | d :: opts =>
                      match argString d with
                      | None => inr (errS "ERR syntax error")
                      | Some dir =>
                          match parseMoveSide dir with
                          | None => inr (errS "ERR syntax error")
                          | Some tail =>
                              match opts with
                              | [] => inl (keys, tail, 1)
                              | [o; c] =>
                                  match argString o with
                                  | None => inr (errS "ERR syntax error")
                                  | Some opt =>
                                      if negb (bytes_eqb (ToUpper opt) (lit "COUNT")) then inr (errS "ERR syntax error")
                                      else match argString c with
                                      | None => inr err_int
                                      | Some cs => match ParseInt cs with
                                                   | None => inr badCount
                                                   | Some count => if count <=? 0 then inr badCount else inl (keys, tail, count)
                                                   end
                                      end
                                  end
                              | _ => inr (errS "ERR syntax error")
                              end
                          end
                      end
                  end
              end
          end
      end
  end.

(** Every key is first read for its type. *)
Fixpoint check_lists (keys : list bytes) (k : M S Value) : M S Value :=
  match keys with
  | [] => k
  | key :: rest =>
      let! r := attempt (readList key) in
      match r with
      | inr e => if isNotFound e then check_lists rest k else mret (errValue e)
      | inl _ => check_lists rest k
      end
  end.

(** One round over the keys: the first that has an element is popped. *)
Fixpoint mpop_round (keys : list bytes) (tail : bool) (count : Z) : M S (option Value) :=
  match keys with
  | [] => mret None
  | key :: rest =>
      let! r := attempt (tryPopCount key tail count) in
      match r with
      | inr e => mret (Some (errValue e))
      | inl (Some got) => mret (Some (VArray (Some [BulkOf key; toBulkArray got])))
      | inl None => mpop_round rest tail count
      end
  end.

Definition nilArray : Value := VArray None.

Definition lmpop (args : list Value) : M S Value :=
  if len args <? 3 then mret (wrong_args "lmpop")
  else match mpop_args (errS "ERR count should be greater than 0") args with
  | inr e => mret e
  | inl (keys, tail, count) =>
      check_lists keys (let! r := mpop_round keys tail count in
                        mret (match r with Some v => v | None => nilArray end))
  end.

(** ** LPOS *)

Record lposOptions : Type := mkLpos { lp_rank : Z; lp_count : Z; lp_withCount : bool; lp_maxlen : Z }.

Fixpoint lpos_options (args : list Value) (o : lposOptions) : lposOptions + Value :=
  match args with
  | [] => inl o
  | a :: rest =>
      match argString a with
      | None => inr (errS "ERR syntax error")
      | Some opt =>
          match rest with
          | [] => inr (errS "ERR syntax error")
          | b :: rest' =>
              match argString b with
              | None => inr err_int
              | Some s =>
                  match ParseInt s with
                  | None => inr err_int
                  | Some n =>
                      let u := ToUpper opt in
                      if bytes_eqb u (lit "RANK") then
                        if n =? 0 then inr (errS "ERR RANK can't be zero")
                        else lpos_options rest' (mkLpos n (lp_count o) (lp_withCount o) (lp_maxlen o))
                      else if bytes_eqb u (lit "COUNT") then
                        if n <? 0 then inr (errS "ERR COUNT can't be negative")
                        else lpos_options rest' (mkLpos (lp_rank o) n true (lp_maxlen o))
                      else if bytes_eqb u (lit "MAXLEN") then
                        if n <? 0 then inr (errS "ERR MAXLEN can't be negative")
                        else lpos_options rest' (mkLpos (lp_rank o) (lp_count o) (lp_withCount o) n)
                      else inr (errS "ERR syntax error")
                  end
              end
          end
      end
  end.

(** The positions in the order they are examined. *)
Definition lpos_order (n limit rank : Z) : list Z :=
  if 0 <? rank then seqZ 0 limit else map (fun i => n - 1 - i) (seqZ 0 limit).

Fixpoint lpos_scan (elems : list bytes) (target : bytes) (want count : Z) (withCount : bool)
    (order : list Z) (seen : Z) (matched : list Z) : list Z :=
  match order with
  | [] => matched
  | idx :: rest =>
      if negb (bytes_eqb (default [] (elems !! Z.to_nat idx)) target) then
        lpos_scan elems target want count withCount rest seen matched
      else if seen + 1 <? want then lpos_scan elems target want count withCount rest (seen + 1) matched
      else
        let matched := matched ++ [idx] in
        if (withCount && (0 <? count) && (count <=? len matched)) || negb withCount then matched
        else lpos_scan elems target want count withCount rest (seen + 1) matched
  end.

Definition lpos_matches (elems : list bytes) (target : bytes) (o : lposOptions) : list Z :=
  let n := len elems in
  let limit := if (0 <? lp_maxlen o) && (lp_maxlen o <? n) then lp_maxlen o else n in
  lpos_scan elems target (absCount (lp_rank o)) (lp_count o) (lp_withCount o) (lpos_order n limit (lp_rank o)) 0 [].

Definition lpos (args : list Value) : M S Value :=
  match args with
  | a :: b :: opts => with_key a (fun key => with_value b (fun target =>
      match lpos_options opts (mkLpos 1 1 false 0) with
      | inr e => mret e
      | inl o =>
          with_list key (mret (if lp_withCount o then toIntArray [] else nilBulk)) (fun elems _ =>
            let matched := lpos_matches elems target o in
            mret (if lp_withCount o then toIntArray matched
                  else match matched with [] => nilBulk | i :: _ => VInteger i end))
      end))
  | _ => mret (wrong_args "lpos")
  end.
End handlers.

(** ** Waiting *)

(** What ends one wait of a blocked command: the connection's context, or the
    poll interval, in which other clients may have run. *)
Inductive wake (S : Type) : Type :=
| Cancelled
| Slept (others : world S -> world S).
Arguments Cancelled {S}. Arguments Slept {S} _.

Section blocking.
Context {S : Type} `{KV S} `{Clock} `{GoUnicode} `{GoFloat} `{GoDuration}.

(** [timeout > 0 && !time.Now().Before(deadline)] *)
Definition timed_out (timeout deadline : Z) : M S bool :=
  if 0 <? timeout then let! t := now in mret (deadline <=? t) else mret false.

Definition deadline_of (timeout : Z) : M S Z :=
  if 0 <? timeout then let! t := now in mret (t + timeout) else mret 0.

(** The polling loop.  [try] is one round over the keys, [gaveUp] the reply
    on a timeout or a cancellation; [gauge] is the count of blocked clients,
    raised by the first wait and lowered by the deferred call.  [None]: still
    waiting when the wakes are used up. *)
Fixpoint poll (try : M S (option Value)) (expired : M S bool) (gaveUp : Value) (wakes : list (wake S))
    (blocked : bool) (gauge : Z) (w : world S) : option (result Value) * world S * Z :=
  let release g := if blocked then g - 1 else g in
  match try w with
  | (Panic, w) => (Some Panic, w, release gauge)
  | (Err e, w) => (Some (Err e), w, release gauge)
  | (Ok (Some v), w) => (Some (Ok v), w, release gauge)
  | (Ok None, w) =>
      match expired w with
      | (Panic, w) => (Some Panic, w, release gauge)
      | (Err e, w) => (Some (Err e), w, release gauge)
      | (Ok true, w) => (Some (Ok gaveUp), w, release gauge)
      | (Ok false, w) =>
          let gauge := if blocked then gauge else gauge + 1 in
          match wakes with
          | [] => (None, w, gauge)
          | Cancelled :: _ => (Some (Ok gaveUp), w, gauge - 1)
          | Slept others :: ws => poll try expired gaveUp ws true gauge (others w)
          end
      end
  end.

(** A handler that answers before it waits, or starts to poll. *)
Definition blocking : Type := list (wake S) -> Z -> world S -> option (result Value) * world S * Z.

Definition bret (v : Value) : blocking := fun _ gauge w => (Some (Ok v), w, gauge).

(** Run [m] first; [inr] is a reply, [inl] goes on. *)
Definition bbind {A} (m : M S (A + Value)) (k : A -> blocking) : blocking := fun wakes gauge w =>
  match m w with
  | (Ok (inl a), w) => k a wakes gauge w
  | (Ok (inr v), w) => (Some (Ok v), w, gauge)
  | (Err e, w) => (Some (Err e), w, gauge)
  | (Panic, w) => (Some Panic, w, gauge)
  end.

Definition poll_for (timeout : Z) (try : M S (option Value)) (gaveUp : Value) : blocking :=
  bbind (let! d := deadline_of timeout in mret (inl d)) (fun deadline wakes gauge w =>
    poll try (timed_out timeout deadline) gaveUp wakes false gauge w).

(** The type check of every key before the loop. *)
Fixpoint type_check (keys : list bytes) : M S (unit + Value) :=
  match keys with
  | [] => mret (inl ())
  | key :: rest =>
      let! r := attempt (readList key) in
      match r with
      | inr e => if isNotFound e then type_check rest else mret (inr (errValue e))
      | inl _ => type_check rest
      end
  end.

Definition parseTimeout (s : bytes) : option Z :=
  match ParseFloat s with
  | None => None
  | Some f => if f64_ltb f 0 then None else Some (seconds f)
  end.

(** blockPop: an error while popping ends the loop like a timeout. *)
Fixpoint pop_round (keys : list bytes) (tail : bool) : M S (option Value) :=
  match keys with
  | [] => mret None
  | key :: rest =>
      let! r := attempt (tryPopSingle key tail) in
      match r with
      | inr _ => mret (Some nilArray)
      | inl (Some e) => mret (Some (VArray (Some [BulkOf key; BulkOf e])))
      | inl None => pop_round rest tail
      end
  end.

Definition bad_timeout : Value := errS "ERR timeout is not a float or out of range".

Definition bpop (args : list Value) (tail : bool) : blocking :=
  match rev args with
  | t :: ((_ :: _) as front) =>
      match argString t with
      | None => bret bad_timeout
      | Some s =>
          match parseTimeout s with
          | None => bret bad_timeout
          | Some timeout =>
              match arg_keys (rev front) with
              | None => bret (errS "ERR invalid key")
              | Some keys => bbind (type_check keys) (fun _ => poll_for timeout (pop_round keys tail) nilArray)
              end
          end
      end
  | _ => bret (wrong_args "bpop")
  end.

Definition blpop (args : list Value) : blocking := bpop args false.
Definition brpop (args : list Value) : blocking := bpop args true.

Definition bmpop (args : list Value) (_ : bool) : blocking :=
  if len args <? 4 then bret (wrong_args "bmpop")
  else match args with
  | [] => bret (wrong_args "bmpop")
  | t :: rest =>
      match argString t with
      | None => bret bad_timeout
      | Some s =>
          match parseTimeout s with
          | None => bret bad_timeout
          | Some timeout =>
              match mpop_args err_int rest with
              | inr e => bret e
              | inl (keys, tail, count) =>
                  bbind (type_check keys) (fun _ => poll_for timeout (mpop_round keys tail count) nilArray)
              end
          end
      end
  end.

Definition blmpop (args : list Value) : blocking := bmpop args false.
Definition brmpop (args : list Value) : blocking := bmpop args true.

(** BLMOVE and BRPOPLPUSH *)

Definition parseMoveTimeout (s : bytes) : Z + Value :=
  match ParseFloat s with
  | None => inr bad_timeout
  | Some f => if f64_ltb f 0 then inr (errS "ERR timeout is negative") else inl (seconds f)
  end.

(** [res.Kind != KindBulkString || len(res.Bulk) > 0] *)
Definition move_result (v : Value) : option Value :=
  match v with
  | VBulkString b => if 0 <? len (default [] b) then Some v else None
  | _ => Some v
  end.

Definition blockMove (src dst : bytes) (fromTail toTail : bool) (timeout : Z) : blocking :=
  bbind (type_check [src]) (fun _ =>
    poll_for timeout (let! v := moveCore src dst fromTail toTail in mret (move_result v)) nilBulk).

Definition with_move_timeout (a : Value) (k : Z -> blocking) : blocking :=
  match argString a with
  | None => bret bad_timeout
  | Some s => match parseMoveTimeout s with inr e => bret e | inl t => k t end
  end.

Definition blmove (args : list Value) : blocking :=
  match args with
  | [a; b; c; d; t] =>
      match argString a, argString b with
      | Some src, Some dst =>
          match argString c with
          | None => bret (errS "ERR syntax error")
          | Some f =>
              match parseMoveSide f with
              | None => bret (errS "ERR syntax error")
              | Some fromTail =>
                  match argString d with
                  | None => bret (errS "ERR syntax error")
                  | Some s => match parseMoveSide s with
                              | None => bret (errS "ERR syntax error")
                              | Some toTail => with_move_timeout t (blockMove src dst fromTail toTail)
                              end
                  end
              end
          end
      | _, _ => bret (errS "ERR invalid key")
      end
  | _ => bret (wrong_args "blmove")
  end.

Definition brpoplpush (args : list Value) : blocking :=
  match args with
  | [a; b; t] =>
      match argString a, argString b with
      | Some src, Some dst => with_move_timeout t (blockMove src dst true false)
      | _, _ => bret (errS "ERR invalid key")
      end
  | _ => bret (wrong_args "brpoplpush")
  end.
End blocking.

(** ** Any lawful store *)

Section sim.
Context {S : Type} `{KVLaws S} `{Clock} `{GoUnicode}.

Lemma sim_readList key : sim (S := S) (readList key) (readList key).
Proof. unfold readList, lookupKey. solve_sim. Qed.
Hint Resolve sim_readList : sim.
Lemma sim_writeList key l e : sim (S := S) (writeList key l e) (writeList key l e).
Proof. apply sim_kvSet. Qed.
Hint Resolve sim_writeList : sim.
Lemma sim_with_list key m n k l :
  sim (S := S) m n -> (forall es x, sim (S := S) (k es x) (l es x)) -> sim (with_list key m k) (with_list key n l).
Proof. intros. unfold with_list. solve_sim. Qed.

Ltac solve_list :=
  repeat (cbv beta zeta;
    lazymatch goal with
    | |- sim (commit _ _) (commit _ _) => apply sim_commit
    | |- sim (with_list _ _ _) _ => apply sim_with_list; [|intros]
    | |- sim (with_key _ _) _ => unfold with_key
    | |- sim (with_lkey _ _) _ => unfold with_lkey
    | |- sim (with_value _ _) _ => unfold with_value
    | |- sim (with_int _ _) _ => unfold with_int
    | |- sim (with_range _ _ _) _ => unfold with_range
    | |- sim (with_sides _ _ _) _ => unfold with_sides
    | |- _ => sim_step
    end).

Lemma sim_moveCore src dst f t : sim (S := S) (moveCore src dst f t) (moveCore src dst f t).
Proof. unfold moveCore. solve_list. Qed.
Hint Resolve sim_moveCore : sim.
Lemma sim_tryPopCount key tail n : sim (S := S) (tryPopCount key tail n) (tryPopCount key tail n).
Proof. unfold tryPopCount. solve_list. Qed.
Hint Resolve sim_tryPopCount : sim.
Lemma sim_mpop_round keys tail n : sim (S := S) (mpop_round keys tail n) (mpop_round keys tail n).
Proof. induction keys as [|k ks IH]; cbn [mpop_round]; solve_list. Qed.
Hint Resolve sim_mpop_round : sim.
Lemma sim_check_lists keys k l : sim (S := S) k l -> sim (check_lists keys k) (check_lists keys l).
Proof. intros Hk. induction keys as [|key ks IH]; cbn [check_lists]; solve_list. Qed.

Lemma list_handlers_simulate args :
  Forall (fun h => sim (S := S) h.1 h.2)
    [(lpush args, lpush args); (rpush args, rpush args); (lpop args, lpop args); (rpop args, rpop args);
     (llen args, llen args); (lindex args, lindex args); (lrange args, lrange args); (lset args, lset args);
     (linsert args, linsert args); (lrem args, lrem args); (ltrim args, ltrim args); (lmove args, lmove args);
     (rpoplpush args, rpoplpush args); (lmpop args, lmpop args); (lpos args, lpos args)].
Proof.
  repeat apply Forall_cons_2; [..|apply Forall_nil_2]; cbn [fst snd];
    unfold lpush, rpush, push, lpop, rpop, popOne, llen, lindex, lrange, lset, linsert, lrem, ltrim, lmove, rpoplpush, lmpop, lpos;
    try solve [solve_list].
  destruct (_ <? _); [apply sim_ret|]. destruct (mpop_args _ _) as [[[keys tail] n]|]; [|apply sim_ret].
  apply sim_check_lists. solve_list.
Qed.
End sim.

End listcmd.
