(* ===== verification/CmdListSpec.v ===== *)
(** * What the list commands do to one key

    The abstract state of a list key is a list of byte strings, the empty list
    for a missing key.  [spec] gives each command's reply and effect on it by
    reference definitions (selection by position, removal of the first
    occurrences, insertion next to the first pivot) that share nothing with
    the handlers' index arithmetic; [rep] relates the abstract state to the
    keyspace. *)

From S2P Require Import Prelude GoLib GoStrings Resp Codec Kv Cmd CmdList.
Open Scope Z_scope.
Open Scope gedis_scope.

Module listspec.
Import datastruct listcmd.

(** ** Reference operations *)

(** The elements whose position satisfies [f]. *)
Fixpoint select {A} (f : Z -> bool) (i : Z) (l : list A) : list A :=
  match l with
  | [] => []
  | e :: rest => if f i then e :: select f (i + 1) rest else select f (i + 1) rest
  end.

(** Positions from [a] to [b], negative ones counting from the end. *)
Definition between (n a b : Z) (i : Z) : bool :=
  ((if a <? 0 then a + n else a) <=? i) && (i <=? (if b <? 0 then b + n else b)).

Definition range_of {A} (l : list A) (a b : Z) : list A := select (between (len l) a b) 0 l.

(** Remove the first [n] occurrences. *)
Fixpoint remove_first (n : nat) (v : bytes) (l : list bytes) : list bytes :=
  match n, l with
  | _, [] => []
  | O, _ => l
  | S n', e :: rest => if bytes_eqb e v then remove_first n' v rest else e :: remove_first n v rest
  end.

Definition remove_count (c : Z) (v : bytes) (l : list bytes) : list bytes :=
  if c =? 0 then List.filter (fun e => negb (bytes_eqb e v)) l
  else if 0 <? c then remove_first (Z.to_nat c) v l
  else rev (remove_first (Z.to_nat (- c)) v (rev l)).

Fixpoint insert_next (after : bool) (pivot v : bytes) (l : list bytes) : option (list bytes) :=
  match l with
  | [] => None
  | e :: rest =>
      if bytes_eqb e pivot then Some (if after then e :: v :: rest else v :: e :: rest)
      else option_map (cons e) (insert_next after pivot v rest)
  end.

(** The element at a position, negative ones counting from the end. *)
Definition nth_of (l : list bytes) (i : Z) : option bytes :=
  let j := if i <? 0 then i + len l else i in
  if j <? 0 then None else l !! Z.to_nat j.

(** ** Commands on one key *)

Inductive list_op : Type :=
| LPush (v : bytes) (vs : list bytes)
| RPush (v : bytes) (vs : list bytes)
| LPop
| RPop
| LPopN (n : Z)
| RPopN (n : Z)
| LLen
| LIndex (i : Z)
| LRange (a b : Z)
| LSet (i : Z) (v : bytes)
| LInsert (after : bool) (pivot v : bytes)
| LRem (c : Z) (v : bytes)
| LTrim (a b : Z).

Definition bulk_opt (o : option bytes) : Value := VBulkString o.

Definition spec (o : list_op) (l : list bytes) : Value * list bytes :=
  match o with
  | LPush v vs => (VInteger (len (reverse (v :: vs) ++ l)), reverse (v :: vs) ++ l)
  | RPush v vs => (VInteger (len (l ++ v :: vs)), l ++ v :: vs)
  | LPop => (bulk_opt (head l), tail l)
  | RPop => (bulk_opt (last l), take (length l - 1) l)
  | LPopN n => (toBulkArray (take (Z.to_nat n) l), drop (Z.to_nat n) l)
  | RPopN n => (toBulkArray (drop (length l - Z.to_nat n) l), take (length l - Z.to_nat n) l)
  | LLen => (VInteger (len l), l)
  | LIndex i => (bulk_opt (nth_of l i), l)
  | LRange a b => (toBulkArray (range_of l a b), l)
  | LSet i v =>
      match l with
      | [] => (errS "ERR no such key", l)
      | _ => match nth_of l i with
             | None => (errS "ERR index out of range", l)
             | Some _ => (okReply, <[Z.to_nat (if i <? 0 then i + len l else i) := v]> l)
             end
      end
  | LInsert after pivot v =>
      match l with
      | [] => (VInteger 0, l)
      | _ => match insert_next after pivot v l with
             | None => (VInteger (-1), l)
             | Some l' => (VInteger (len l'), l')
             end
      end
  | LRem c v => (VInteger (len l - len (remove_count c v l)), remove_count c v l)
  | LTrim a b => (okReply, range_of l a b)
  end.

(** Integers are what a client can write; LREM's count is not the minimum. *)
Definition op_ok (o : list_op) : Prop :=
  match o with
  | LPopN n | RPopN n => 0 <= n /\ is_i64 n
  | LIndex i | LSet i _ => is_i64 i
  | LRange a b | LTrim a b => is_i64 a /\ is_i64 b
  | LRem c _ => is_i64 c /\ c <> minInt64
  | _ => True
  end.

(** ** The handlers' arithmetic computes the reference operations *)

Implicit Types (l kept : list bytes) (v pivot : bytes).

Lemma push_values_head vs l : push_values (map BulkOf vs) true l = Some (reverse vs ++ l).
Proof.
  revert l; induction vs as [|v vs IH]; intros l; cbn [map push_values BulkOf argString]; [done|].
  change (default [] (Some v)) with v. rewrite IH, reverse_cons, <- app_assoc. done.
Qed.

Lemma push_values_tail vs l : push_values (map BulkOf vs) false l = Some (l ++ vs).
Proof.
  revert l; induction vs as [|v vs IH]; intros l; cbn [map push_values BulkOf argString]; [by rewrite app_nil_r|].
  change (default [] (Some v)) with v. rewrite IH, <- app_assoc. done.
Qed.

Lemma split_pop_head l n :
  0 <= n -> split_pop l (if len l <? n then len l else n) false = Ok (take (Z.to_nat n) l, drop (Z.to_nat n) l).
Proof.
  intros Hn. unfold split_pop. destruct (len l <? n) eqn:E; breflect.
  - rewrite slice_prefix, slice_suffix by (pose proof (len_nonneg l); lia). cbn [res_bind]. unfold len in *.
    rewrite !take_ge, !drop_ge by lia. done.
  - by rewrite slice_prefix, slice_suffix by lia.
Qed.

Lemma split_pop_tail l n :
  0 <= n -> split_pop l (if len l <? n then len l else n) true =
  Ok (drop (length l - Z.to_nat n) l, take (length l - Z.to_nat n) l).
Proof.
  intros Hn. unfold split_pop. pose proof (len_nonneg l).
  replace (len l - (if len l <? n then len l else n)) with (Z.of_nat (length l - Z.to_nat n))
    by (destruct (len l <? n) eqn:E; breflect; unfold len in *; lia).
  rewrite slice_suffix, slice_prefix by (unfold len; lia). cbn [res_bind]. by rewrite Nat2Z.id.
Qed.

Lemma select_slice {A} lo hi i (l : list A) :
  0 <= i -> 0 <= lo ->
  select (fun j => (lo <=? j) && (j <=? hi)) i l = take (Z.to_nat (hi + 1 - Z.max lo i)) (drop (Z.to_nat (lo - i)) l).
Proof.
  intros Hi Hlo. revert i Hi. induction l as [|e l IH]; intros i Hi; cbn [select]; [by rewrite drop_nil, take_nil|].
  rewrite IH by lia. destruct (lo <=? i) eqn:E1; breflect.
  - replace (Z.to_nat (lo - i)) with 0%nat by lia. replace (Z.to_nat (lo - (i + 1))) with 0%nat by lia.
    rewrite !drop_0. rewrite !Z.max_r by lia. cbn [andb]. destruct (i <=? hi) eqn:E2; breflect.
    + replace (Z.to_nat (hi + 1 - i)) with (S (Z.to_nat (hi + 1 - (i + 1)))) by lia. done.
    + replace (Z.to_nat (hi + 1 - i)) with 0%nat by lia. replace (Z.to_nat (hi + 1 - (i + 1))) with 0%nat by lia. done.
  - cbn [andb]. replace (Z.to_nat (lo - i)) with (S (Z.to_nat (lo - (i + 1)))) by lia. cbn [drop].
    replace (Z.max lo (i + 1)) with (Z.max lo i) by lia. done.
Qed.

Lemma select_ext {A} f g i (l : list A) :
  (forall j, i <= j < i + len l -> f j = g j) -> select f i l = select g i l.
Proof.
  revert i; induction l as [|e l IH]; intros i Hfg; cbn [select]; [done|]. rewrite len_cons in Hfg.
  pose proof (len_nonneg l). rewrite Hfg by lia. rewrite (IH (i + 1)) by (intros; apply Hfg; lia). done.
Qed.

Lemma select_none {A} f i (l : list A) : (forall j, i <= j < i + len l -> f j = false) -> select f i l = [].
Proof.
  revert i; induction l as [|e l IH]; intros i Hf; cbn [select]; [done|]. rewrite len_cons in Hf.
  pose proof (len_nonneg l). rewrite Hf by lia. apply IH. intros. apply Hf. lia.
Qed.

(** LRANGE's and LTRIM's clamped slice is the selection. *)
Lemma clamped_range {A} (l : list A) a b :
  (let '(start, stop) := clamp (len l) a b in
   if (stop <? start) || (len l <=? start) then Ok [] else slice l start (stop + 1)) = Ok (range_of l a b).
Proof.
  unfold clamp, range_of, between. pose proof (len_nonneg l) as Hl.
  set (lo := if a <? 0 then a + len l else a). set (hi := if b <? 0 then b + len l else b). cbv beta zeta.
  set (st := if lo <? 0 then 0 else lo). set (en := if len l <=? hi then len l - 1 else hi).
  assert (select (fun i => (lo <=? i) && (i <=? hi)) 0 l = select (fun i => (st <=? i) && (i <=? en)) 0 l) as ->.
  { apply select_ext. intros j Hj. unfold st, en. destruct (lo <? 0) eqn:E1, (len l <=? hi) eqn:E2; breflect;
      f_equal; apply eq_bool_prop_intro; rewrite !Is_true_true, !Z.leb_le; lia. }
  assert (0 <= st) as Hst by (unfold st; destruct (lo <? 0) eqn:?; breflect; lia).
  assert (en < len l) as Hen by (unfold en; destruct (len l <=? hi) eqn:?; breflect; lia).
  destruct (en <? st) eqn:E1; cbn [orb]; breflect.
  { rewrite select_none; [done|]. intros j _. apply andb_false_iff. rewrite !Z.leb_gt. lia. }
  destruct (len l <=? st) eqn:E2; breflect; [lia|].
  rewrite slice_ok by lia. rewrite select_slice by lia. rewrite Z.max_l, !Z.sub_0_r by lia. done.
Qed.

Lemma nth_of_normalize l i :
  nth_of l i = let pos := normalizeIndex i (len l) in if pos <? 0 then None else l !! Z.to_nat pos.
Proof.
  unfold nth_of, normalizeIndex. set (j := if i <? 0 then i + len l else i). cbv zeta.
  destruct (j <? 0) eqn:E; cbn [orb]; [done|]. destruct (len l <=? j) eqn:E2; breflect.
  - cbn. apply lookup_ge_None. unfold len in *. lia.
  - by rewrite (proj2 (Z.ltb_ge j 0)) by lia.
Qed.

Lemma normalize_pos l i :
  (normalizeIndex i (len l) <? 0) = false ->
  0 <= normalizeIndex i (len l) < len l /\ normalizeIndex i (len l) = (if i <? 0 then i + len l else i).
Proof.
  unfold normalizeIndex. set (j := if i <? 0 then i + len l else i). cbv zeta.
  destruct (j <? 0) eqn:E, (len l <=? j) eqn:E2; cbn [orb]; try (cbn; discriminate). breflect. intros _. lia.
Qed.

Lemma elem_at_lookup l pos : 0 <= pos < len l -> exists e, l !! Z.to_nat pos = Some e /\ elem_at l pos = Ok e.
Proof.
  intros Hp. destruct (lookup_lt_is_Some_2 l (Z.to_nat pos)) as [e He]; [unfold len in *; lia|].
  exists e. split; [done|]. unfold elem_at. rewrite slice_ok by lia.
  replace (Z.to_nat (pos + 1 - pos)) with 1%nat by lia. by rewrite (drop_S _ _ _ He).
Qed.

Lemma pivot_pos_spec i l pivot :
  0 <= i -> match insert_next true pivot [] l with
            | None => pivot_pos i l pivot = -1
            | Some _ => i <= pivot_pos i l pivot < i + len l
            end.
Proof.
  revert i; induction l as [|e l IH]; intros i Hi; cbn [insert_next pivot_pos]; [done|]. rewrite len_cons.
  pose proof (len_nonneg l). destruct (bytes_eqb e pivot); [lia|]. specialize (IH (i + 1)).
  destruct (insert_next true pivot [] l); cbn [option_map]; lia.
Qed.

Lemma insert_at_split l pos v :
  0 <= pos <= len l -> insert_at l pos v = take (Z.to_nat pos) l ++ v :: drop (Z.to_nat pos) l.
Proof.
  intros Hp. unfold insert_at. set (n := Z.to_nat pos). assert (n <= length l)%nat as Hn by (unfold n, len in *; lia).
  replace (Z.to_nat (pos + 1)) with (S n) by lia. rewrite length_app. cbn [length].
  rewrite (drop_app_le l) by lia. rewrite take_app_le with (n := (length l + 1 - S n)%nat) by (rewrite length_drop; lia).
  rewrite (take_ge (drop n l)) by (rewrite length_drop; lia).
  rewrite insert_app_l by (rewrite length_take, length_app; cbn [length]; lia).
  assert (exists x, take (S n) (l ++ [[]]) = take n l ++ [x]) as [x ->].
  { destruct (decide (n < length l)%nat) as [E|E].
    - destruct (lookup_lt_is_Some_2 l n E) as [x Hx]. exists x. rewrite take_app_le by lia. by apply take_S_r.
    - exists []. replace n with (length l) by lia. rewrite firstn_all. rewrite take_ge; [done|]. rewrite length_app. cbn. lia. }
  rewrite insert_app_r_alt by (rewrite length_take; lia). rewrite length_take, Nat.min_l, Nat.sub_diag by lia.
  cbn. by rewrite <- app_assoc.
Qed.

Lemma insert_next_at after pivot v i l :
  0 <= i ->
  insert_next after pivot v l =
  let pos := pivot_pos i l pivot - i in
  if pivot_pos i l pivot <? 0 then None else
  let pos := if after then pos + 1 else pos in
  Some (take (Z.to_nat pos) l ++ v :: drop (Z.to_nat pos) l).
Proof.
  revert i; induction l as [|e l IH]; intros i Hi; cbn [insert_next pivot_pos]; [done|]. cbv zeta.
  destruct (bytes_eqb e pivot).
  - zdec. rewrite Z.sub_diag. by destruct after.
  - rewrite (IH (i + 1)) by lia. cbv zeta. pose proof (pivot_pos_spec (i + 1) l pivot ltac:(lia)) as Hs.
    destruct (pivot_pos (i + 1) l pivot <? 0) eqn:E; [done|]. breflect.
    destruct (insert_next true pivot [] l); [|lia]. cbn [option_map].
    set (q := pivot_pos (i + 1) l pivot) in *.
    destruct after.
    + replace (Z.to_nat (q - i + 1)) with (S (Z.to_nat (q - (i + 1) + 1))) by lia. done.
    + replace (Z.to_nat (q - i)) with (S (Z.to_nat (q - (i + 1)))) by lia. done.
Qed.

(** LREM's loop, for a bounded count and for the count zero. *)
Lemma lrem_loop_all v fwd l kept r :
  lrem_loop 0 v fwd l kept r =
  ((let k := List.filter (fun e => negb (bytes_eqb e v)) l in if fwd then kept ++ k else rev k ++ kept),
   r + (len l - len (List.filter (fun e => negb (bytes_eqb e v)) l))).
Proof.
  revert kept r; induction l as [|e l IH]; intros kept r; cbn [lrem_loop List.filter].
  { rewrite app_nil_r. destruct fwd; f_equal; unfold len; cbn; lia. }
  cbn [Z.eqb orb]. rewrite andb_true_r. destruct (bytes_eqb e v); cbn [negb]; rewrite IH, ?len_cons.
  - f_equal. lia.
  - f_equal; [|lia]. destruct fwd; [by rewrite <- app_assoc | cbn [rev]; by rewrite <- app_assoc].
Qed.

Lemma lrem_loop_first c v fwd l kept r :
  c <> 0 -> 0 <= r ->
  lrem_loop c v fwd l kept r =
  ((let k := remove_first (Z.to_nat (absCount c - r)) v l in if fwd then kept ++ k else rev k ++ kept),
   r + (len l - len (remove_first (Z.to_nat (absCount c - r)) v l))).
Proof.
  intros Hc. revert kept r; induction l as [|e l IH]; intros kept r Hr; cbn [lrem_loop].
  { destruct (Z.to_nat (absCount c - r)); cbn [remove_first]; rewrite app_nil_r; destruct fwd; f_equal; unfold len; cbn; lia. }
  rewrite (proj2 (Z.eqb_neq c 0)) by done. cbn [orb]. destruct (r <? absCount c) eqn:E; breflect.
  - rewrite andb_true_r. replace (Z.to_nat (absCount c - r)) with (S (Z.to_nat (absCount c - (r + 1)))) by lia.
    cbn [remove_first]. destruct (bytes_eqb e v).
    + rewrite IH by lia. rewrite len_cons. f_equal. lia.
    + rewrite IH by lia. replace (Z.to_nat (absCount c - r)) with (S (Z.to_nat (absCount c - (r + 1)))) by lia.
      rewrite !len_cons. f_equal; [|lia]. destruct fwd; [by rewrite <- app_assoc | cbn [rev]; by rewrite <- app_assoc].
  - rewrite andb_false_r. rewrite IH by lia. replace (Z.to_nat (absCount c - r)) with 0%nat by lia.
    assert (forall k, remove_first 0 v k = k) as R0 by (by intros []). rewrite !R0, !len_cons.
    f_equal; [|lia]. destruct fwd; [by rewrite <- app_assoc | cbn [rev]; by rewrite <- app_assoc].
Qed.

Lemma lrem_elems_spec c v l :
  is_i64 c -> c <> minInt64 -> lrem_elems c v l = (remove_count c v l, len l - len (remove_count c v l)).
Proof.
  intros Hc Hm. unfold lrem_elems, remove_count, absCount, minInt64, is_i64 in *.
  destruct (c =? 0) eqn:E0; breflect; [subst; cbn [Z.leb]; by rewrite lrem_loop_all, Z.add_0_l|].
  destruct (0 <? c) eqn:E1; breflect.
  - zdec. rewrite lrem_loop_first by lia. unfold absCount. zdec. by rewrite Z.sub_0_r.
  - zdec. rewrite lrem_loop_first by lia. unfold absCount. zdec. rewrite i64_id by (unfold is_i64; lia).
    rewrite Z.sub_0_r, app_nil_r. f_equal. unfold len. rewrite !length_rev. lia.
Qed.

Lemma remove_first_shrinks n v l :
  (length (remove_first n v l) < length l)%nat \/ remove_first n v l = l.
Proof.
  revert n; induction l as [|e l IH]; intros [|n]; cbn [remove_first]; auto.
  destruct (bytes_eqb e v); [|destruct (IH (S n)) as [| ->]; cbn [length]; auto with lia].
  left. cbn [length]. destruct (IH n) as [|Hr]; [|rewrite Hr]; lia.
Qed.

Lemma remove_count_shrinks c v l : len (remove_count c v l) < len l \/ remove_count c v l = l.
Proof.
  unfold remove_count, len. destruct (c =? 0); [|destruct (0 <? c)].
  - induction l as [|e l IH]; cbn [List.filter]; auto. destruct (bytes_eqb e v); cbn [negb length].
    + left. destruct IH as [|Hr]; [|rewrite Hr]; lia.
    + destruct IH as [|Hr]; [|rewrite Hr; auto]. left. lia.
  - destruct (remove_first_shrinks (Z.to_nat c) v l); [left; lia | auto].
  - destruct (remove_first_shrinks (Z.to_nat (- c)) v (rev l)) as [Hr|Hr].
    + left. rewrite length_rev in *. lia.
    + right. by rewrite Hr, rev_involutive.
Qed.

Lemma remove_count_nil c v : remove_count c v [] = [].
Proof. unfold remove_count. destruct (c =? 0), (0 <? c); try done; by destruct (Z.to_nat _). Qed.

Lemma range_of_nil a b : range_of (@nil bytes) a b = [].
Proof. done. Qed.

Section run.
Context `{Clock} `{GoUnicode}.
Notation W := (world (gmap bytes bytes)).
Implicit Types (key : bytes) (w : W).

Definition int_arg (n : Z) : Value := BulkOf (FormatInt n).

(** The command a client sends. *)
Definition send (key : bytes) (o : list_op) : M (gmap bytes bytes) Value :=
  match o with
  | LPush v vs => lpush (BulkOf key :: map BulkOf (v :: vs))
  | RPush v vs => rpush (BulkOf key :: map BulkOf (v :: vs))
  | LPop => lpop [BulkOf key]
  | RPop => rpop [BulkOf key]
  | LPopN n => lpop [BulkOf key; int_arg n]
  | RPopN n => rpop [BulkOf key; int_arg n]
  | LLen => llen [BulkOf key]
  | LIndex i => lindex [BulkOf key; int_arg i]
  | LRange a b => lrange [BulkOf key; int_arg a; int_arg b]
  | LSet i v => lset [BulkOf key; int_arg i; BulkOf v]
  | LInsert after pivot v =>
      linsert [BulkOf key; BulkOf (lit (if after then "AFTER" else "BEFORE")); BulkOf pivot; BulkOf v]
  | LRem c v => lrem [BulkOf key; int_arg c; BulkOf v]
  | LTrim a b => ltrim [BulkOf key; int_arg a; int_arg b]
  end.

(** The key holds the list [l] without an expiry, and nothing else. *)
Record rep (key : bytes) (l : list bytes) (w : W) : Prop := {
  rep_other : forall p, p ∈ typePrefixes -> p <> lit "l:" -> w_kv w !! (p ++ key) = None;
  rep_list : w_kv w !! ListKey key = match l with [] => None | _ => Some (Encode TypeList 0 (EncodeList l)) end;
  rep_fits : strs_ok l;
}.

(** Every list the run goes through fits in memory. *)
Fixpoint fits (ops : list list_op) (l : list bytes) : Prop :=
  match ops with
  | [] => True
  | o :: os => strs_ok (spec o l).2 /\ fits os (spec o l).2
  end.

Fixpoint spec_run (ops : list list_op) (l : list bytes) : list (result Value) * list bytes :=
  match ops with
  | [] => ([], l)
  | o :: os => let '(v, l1) := spec o l in let '(vs, l2) := spec_run os l1 in (Ok v :: vs, l2)
  end.

Fixpoint send_run (key : bytes) (ops : list list_op) (w : W) : list (result Value) * W :=
  match ops with
  | [] => ([], w)
  | o :: os => let '(v, w1) := send key o w in let '(vs, w2) := send_run key os w1 in (v :: vs, w2)
  end.

(** ** Reading and writing the representation *)

Lemma rep_first_hit key l w :
  rep key l w ->
  first_hit typePrefixes key (w_kv w) =
  match l with [] => None | _ => Some (ListKey key, Encode TypeList 0 (EncodeList l)) end.
Proof.
  intros [Ho Hl _]. change typePrefixes with (map lit ["s:"; "h:"; "l:"; "st:"; "z:"; "hll:"; "x:"; "vs:"]%string).
  cbn [map]. rewrite !first_hit_cons. change (lit "l:" ++ key) with (ListKey key).
  rewrite Hl. rewrite !Ho by (done || (unfold typePrefixes; cbn [map]; set_solver)). by destruct l.
Qed.

Lemma readList_rep key l w :
  rep key l w -> readList key w = (match l with [] => Err ENotFound | _ => Ok (l, 0) end, w).
Proof.
  intros R. unfold readList, lookupKey, mbind. rewrite lookupRaw_map. unfold find_key. rewrite (rep_first_hit _ _ _ R).
  destruct l as [|e l]; [done|]. rewrite Decode_Encode_entry by (unfold is_i64; lia). cbn [Expiry Z.eqb mret fst snd Type_ Payload].
  rewrite bool_decide_eq_true_2 by done. unfold lift. by rewrite DecodeList_EncodeList by apply R.
Qed.

Lemma with_list_rep key l w m k :
  rep key l w -> with_list key m k w = match l with [] => m w | _ => k l 0 w end.
Proof. intros R. unfold with_list, mbind, attempt. rewrite (readList_rep key l) by done. by destruct l. Qed.

Lemma prefix_not_list p key : p ∈ typePrefixes -> p <> lit "l:" -> p ++ key <> ListKey key.
Proof. intros _ Hp E. apply Hp. unfold ListKey in E. by apply app_inv_tail in E. Qed.

Lemma rep_store key l l' w w' :
  rep key l w -> l' <> [] -> strs_ok l' ->
  w_kv w' = <[ListKey key := Encode TypeList 0 (EncodeList l')]> (w_kv w) -> rep key l' w'.
Proof.
  intros [Ho Hl _] Hn Hf E. split; [| |done].
  - intros p Hp Hne. rewrite E, lookup_insert_ne; [by apply Ho|]. intros X. by apply (prefix_not_list p key).
  - rewrite E, lookup_insert_eq. by destruct l'.
Qed.

Lemma rep_clear key l w w' :
  rep key l w -> w_kv w' = delete (ListKey key) (w_kv w) -> rep key [] w'.
Proof.
  intros [Ho Hl _] E. split.
  - intros p Hp Hne. rewrite E, lookup_delete_ne; [by apply Ho|]. intros X. by apply (prefix_not_list p key).
  - rewrite E. apply lookup_delete_eq.
  - split; [done|constructor].
Qed.

Lemma rep_kv key l w w' : rep key l w -> w_kv w' = w_kv w -> rep key l w'.
Proof. intros [Ho Hl Hf] E. split; rewrite ?E; auto. Qed.

Lemma commit_list key l l' w class name (val : Value) :
  rep key l w -> l' <> [] -> strs_ok l' ->
  exists w', commit (writeList key l' 0) (let! _ := Notify class name key in mret val) w = (Ok val, w') /\ rep key l' w'.
Proof. intros R Hn Hf. eexists. split; [reflexivity|]. by eapply rep_store. Qed.

Lemma commit_empty key l w class name class' name' (val : Value) :
  rep key l w ->
  exists w', commit (kvDelete (ListKey key)) (let! _ := Notify class name key in let! _ := Notify class' name' key in mret val) w
             = (Ok val, w') /\ rep key [] w'.
Proof. intros R. eexists. split; [reflexivity|]. by eapply rep_clear. Qed.

Lemma ignore_empty key l w class name class' name' (val : Value) :
  rep key l w ->
  exists w', (let! _ := ignore (kvDelete (ListKey key)) in
              let! _ := Notify class name key in let! _ := Notify class' name' key in mret val) w
             = (Ok val, w') /\ rep key [] w'.
Proof. intros R. eexists. split; [reflexivity|]. by eapply rep_clear. Qed.

(** One command: the reply and the new content are the specified ones. *)
Definition refined (o : list_op) : Prop := forall key l w,
  rep key l w -> op_ok o -> strs_ok (spec o l).2 ->
  exists w', send key o w = (Ok (spec o l).1, w') /\ rep key (spec o l).2 w'.

Lemma with_int_arg (n : Z) (k : Z -> M (gmap bytes bytes) Value) : is_i64 n -> with_int (int_arg n) k = k n.
Proof. intros Hn. unfold with_int, int_arg. cbn [BulkOf argString]. change (default [] (Some ?x)) with x. by rewrite ParseInt_FormatInt. Qed.

Lemma with_range_arg (a b : Z) (k : Z -> Z -> M (gmap bytes bytes) Value) :
  is_i64 a -> is_i64 b -> with_range (int_arg a) (int_arg b) k = k a b.
Proof.
  intros Ha Hb. unfold with_range, int_arg. cbn [BulkOf argString]. change (default [] (Some ?x)) with x.
  by rewrite !ParseInt_FormatInt.
Qed.

Lemma with_key_arg key (k : bytes -> M (gmap bytes bytes) Value) : with_key (BulkOf key) k = k key.
Proof. done. Qed.

Lemma with_value_arg v (k : bytes -> M (gmap bytes bytes) Value) : with_value (BulkOf v) k = k v.
Proof. done. Qed.

Lemma push_refined key l w v vs (hd : bool) :
  rep key l w -> let l' := if hd then reverse (v :: vs) ++ l else l ++ v :: vs in
  strs_ok l' ->
  exists w', push (BulkOf key :: map BulkOf (v :: vs)) hd w = (Ok (VInteger (len l')), w') /\ rep key l' w'.
Proof.
  intros R l' Hf. unfold push. rewrite (proj2 (Z.ltb_ge _ 2)) by (cbn [map]; rewrite !len_cons; pose proof (len_nonneg (map BulkOf vs)); lia).
  change (with_lkey (BulkOf key :: ?x) ?k) with (k key). cbv beta zeta. rewrite (with_list_rep key l) by done.
  assert (push_values (map BulkOf (v :: vs)) hd l = Some l') as E.
  { unfold l'. destruct hd; [apply push_values_head | apply push_values_tail]. }
  change (drop 1 (BulkOf key :: map BulkOf (v :: vs))) with (map BulkOf (v :: vs)).
  assert (l' <> []) as Hn.
  { unfold l'. destruct hd; [rewrite reverse_cons, <- app_assoc|]; intros X; by apply app_nil in X as [_ ?]. }
  destruct l as [|e l]; rewrite E; by eapply commit_list.
Qed.
(** What popOne does once the arguments are read. *)
Lemma pop_refined key l w (tl wc : bool) (c : Z) args out rest :
  rep key l w -> strs_ok rest -> listKey args = Some key -> pop_count args = Some (c, wc) -> 1 <= len args <= 2 ->
  split_pop l (if len l <? c then len l else c) tl = Ok (out, rest) -> (l = [] -> out = [] /\ rest = []) ->
  exists w', popOne args tl w =
    (Ok (if wc then toBulkArray out else match out with [] => nilBulk | e :: _ => BulkOf e end), w') /\ rep key rest w'.
Proof.
  intros R Hf Hk Hc Hl Hs He. unfold popOne. zdec. cbn [orb]. unfold with_lkey. rewrite Hk, Hc.
  rewrite (with_list_rep key l) by done. destruct l as [|e l].
  - destruct (He eq_refl) as [-> ->]. eexists. split; [|exact R]. by destruct wc.
  - unfold mbind at 1, lift. rewrite Hs. destruct rest as [|r rest]; [by eapply commit_empty | by eapply commit_list].
Qed.

Lemma LPop_refined : refined LPop.
Proof.
  intros key l w R _ Hf.
  destruct (pop_refined key l w false false 1 [BulkOf key] (take 1 l) (drop 1 l)) as (w' & E & R'); try done.
  - by apply split_pop_head.
  - by intros ->.
  - exists w'. split; [|destruct l; exact R']. cbn [send]. unfold lpop. rewrite E. by destruct l.
Qed.

Lemma RPop_refined : refined RPop.
Proof.
  intros key l w R _ Hf. cbn [spec snd fst] in *.
  destruct (pop_refined key l w true false 1 [BulkOf key] (drop (length l - 1) l) (take (length l - 1) l)) as (w' & E & R'); try done.
  - by apply split_pop_tail.
  - by intros ->.
  - exists w'. split; [|done]. cbn [send]. unfold rpop. rewrite E. destruct l as [|e l _] using rev_ind; [done|].
    rewrite last_snoc, length_app. cbn [length]. rewrite Nat.add_sub, drop_app_length. done.
Qed.

Lemma pop_count_arg key n : 0 <= n -> is_i64 n -> pop_count [BulkOf key; int_arg n] = Some (n, true).
Proof.
  intros Hn Hi. unfold pop_count, int_arg. cbn [BulkOf argString]. change (default [] (Some ?x)) with x.
  rewrite ParseInt_FormatInt by done. by zdec.
Qed.

Lemma LPopN_refined n : refined (LPopN n).
Proof.
  intros key l w R [Hn Hi] Hf. eapply (pop_refined key l w false true n); try done.
  - by apply pop_count_arg.
  - by apply split_pop_head.
  - intros ->. cbn. by rewrite take_nil, drop_nil.
Qed.

Lemma RPopN_refined n : refined (RPopN n).
Proof.
  intros key l w R [Hn Hi] Hf. eapply (pop_refined key l w true true n); try done.
  - by apply pop_count_arg.
  - by apply split_pop_tail.
  - intros ->. cbn. by rewrite ?take_nil, ?drop_nil.
Qed.

(** The commands that only read. *)
Lemma LLen_refined : refined LLen.
Proof.
  intros key l w R _ _. exists w. split; [|done]. cbn [send]. unfold llen.
  change (negb (len [BulkOf key] =? 1)) with false. cbv iota. change (with_lkey (BulkOf key :: ?x) ?k) with (k key). cbv beta.
  rewrite (with_list_rep key l) by done. by destruct l.
Qed.

Lemma LIndex_refined i : refined (LIndex i).
Proof.
  intros key l w R Hi _. exists w. split; [|done]. cbn [send spec fst]. unfold lindex.
  rewrite with_key_arg, with_int_arg, (with_list_rep key l) by done. destruct l as [|e l].
  { unfold nth_of. cbn. destruct (i <? 0), (_ <? 0); by rewrite ?lookup_nil. }
  rewrite nth_of_normalize. cbv zeta. destruct (normalizeIndex i (len (e :: l)) <? 0) eqn:E; [done|].
  apply normalize_pos in E as [E _]. destruct (elem_at_lookup _ _ E) as (x & -> & Hx).
  unfold mbind, lift. by rewrite Hx.
Qed.

Lemma LRange_refined a b : refined (LRange a b).
Proof.
  intros key l w R [Ha Hb] _. exists w. split; [|done]. cbn [send spec fst]. unfold lrange.
  rewrite with_key_arg, with_range_arg, (with_list_rep key l) by done. destruct l as [|e l]; [done|].
  pose proof (clamped_range (e :: l) a b) as E. cbv zeta. destruct (clamp _ a b) as [st en].
  destruct (_ || _); [by injection E as <-|]. unfold mbind, lift. by rewrite E.
Qed.

(** The commands that update. *)
Lemma LSet_refined i v : refined (LSet i v).
Proof.
  intros key l w R Hi. cbn [op_ok] in Hi. cbn [send spec]. unfold lset.
  rewrite with_key_arg, with_int_arg, with_value_arg, (with_list_rep key l) by done.
  destruct l as [|e l]; intros Hf; [by exists w|]. rewrite nth_of_normalize in *. cbv zeta in *.
  destruct (normalizeIndex i (len (e :: l)) <? 0) eqn:E; [by exists w|].
  apply normalize_pos in E as [E E']. destruct (elem_at_lookup _ _ E) as (x & Hx & _). rewrite Hx in *.
  rewrite <- E' in *. cbn [fst snd] in *. eapply commit_list; [done| |done].
  intros X. apply (f_equal length) in X. rewrite length_insert in X. done.
Qed.

Lemma LInsert_refined after pivot v : refined (LInsert after pivot v).
Proof.
  intros key l w R _. cbn [send spec]. unfold linsert. rewrite with_key_arg.
  cbn [BulkOf argString]. change (default [] (Some ?x)) with x.
  assert (ToUpper (lit (if after then "AFTER" else "BEFORE")) = lit (if after then "AFTER" else "BEFORE")) as -> by (by destruct after).
  assert (negb (bytes_eqb (lit (if after then "AFTER" else "BEFORE")) (lit "BEFORE")) &&
          negb (bytes_eqb (lit (if after then "AFTER" else "BEFORE")) (lit "AFTER")) = false) as -> by (by destruct after).
  assert (bytes_eqb (lit (if after then "AFTER" else "BEFORE")) (lit "AFTER") = after) as -> by (by destruct after).
  rewrite with_value_arg, (with_list_rep key l) by done.
  destruct l as [|e l]; intros Hf; [by exists w|].
  rewrite (insert_next_at after pivot v 0) in * by done. cbv zeta in *. rewrite Z.sub_0_r in *.
  pose proof (pivot_pos_spec 0 (e :: l) pivot ltac:(done)) as Hp.
  destruct (pivot_pos 0 (e :: l) pivot <? 0) eqn:E; [by exists w|]. breflect.
  destruct (insert_next true pivot [] (e :: l)); [|lia].
  rewrite insert_at_split by (destruct after; lia). eapply commit_list; [done| |done].
  intros X. by apply app_nil in X as [_ ?].
Qed.
Lemma LRem_refined c v : refined (LRem c v).
Proof.
  intros key l w R [Hc Hm]. cbn [send spec fst snd]. unfold lrem.
  rewrite with_key_arg, with_int_arg, with_value_arg, (with_list_rep key l) by done.
  destruct l as [|e l]; intros Hf; [exists w; by rewrite remove_count_nil|]. rewrite lrem_elems_spec by done.
  destruct (remove_count_shrinks c v (e :: l)) as [Hs| ->].
  - rewrite (proj2 (Z.ltb_lt 0 _)) by lia. destruct (remove_count c v (e :: l)) as [|k ks] eqn:E.
    + by eapply ignore_empty.
    + rewrite (proj2 (Z.eqb_neq (len (k :: ks)) 0)) by (rewrite len_cons; pose proof (len_nonneg ks); lia). by eapply commit_list.
  - rewrite Z.sub_diag. cbn [Z.ltb Z.compare]. rewrite andb_false_r. by exists w.
Qed.

Lemma LTrim_refined a b : refined (LTrim a b).
Proof.
  intros key l w R [Ha Hb]. cbn [send spec fst snd]. unfold ltrim.
  rewrite with_key_arg, with_range_arg, (with_list_rep key l) by done. destruct l as [|e l]; intros Hf; [by exists w|].
  pose proof (clamped_range (e :: l) a b) as E. cbv zeta. destruct (clamp _ a b) as [st en].
  rewrite E. unfold lift, mbind at 1. destruct (range_of (e :: l) a b) as [|k ks].
  - by eapply ignore_empty.
  - rewrite (proj2 (Z.eqb_neq (len (k :: ks)) 0)) by (rewrite len_cons; pose proof (len_nonneg ks); lia). by eapply commit_list.
Qed.

Lemma every_refined o : refined o.
Proof.
  destruct o.
  - intros key l w R _ Hf. by apply (push_refined key l w v vs true).
  - intros key l w R _ Hf. by apply (push_refined key l w v vs false).
  - apply LPop_refined.
  - apply RPop_refined.
  - apply LPopN_refined.
  - apply RPopN_refined.
  - apply LLen_refined.
  - apply LIndex_refined.
  - apply LRange_refined.
  - apply LSet_refined.
  - apply LInsert_refined.
  - apply LRem_refined.
  - apply LTrim_refined.
Qed.


(** ** Two keys *)

Lemma list_key_apart p key key' : p ∈ typePrefixes -> p <> lit "l:" -> p ++ key <> ListKey key'.
Proof.
  unfold typePrefixes, ListKey. cbn [map]. rewrite !elem_of_cons, elem_of_nil.
  intros Hp Hne E. destruct_or! Hp; subst; try discriminate E; by destruct Hne.
Qed.

(** A write to another list key leaves the representation alone. *)
Lemma rep_frame key key' l w w' :
  key <> key' -> rep key l w -> (forall k, k <> ListKey key' -> w_kv w' !! k = w_kv w !! k) -> rep key l w'.
Proof.
  intros Hk [Ho Hl Hf] E. split; [| |done].
  - intros p Hp Hne. rewrite E; [by apply Ho|]. by apply list_key_apart.
  - rewrite E; [done|]. unfold ListKey. intros X. by apply app_inv_head in X.
Qed.

Lemma take_one_spec l (tl : bool) :
  l <> [] -> exists e rest, take_one l tl = Ok (e, rest) /\ l = if tl then rest ++ [e] else e :: rest.
Proof.
  intros Hl. unfold take_one. destruct tl.
  - destruct l as [|e l _] using rev_ind; [done|]. exists e, l. split; [|done]. rewrite len_snoc, Z.add_simpl_r.
    destruct (elem_at_lookup (l ++ [e]) (len l)) as (x & Hx & ->); [rewrite len_snoc; pose proof (len_nonneg l); lia|].
    unfold len in Hx. rewrite Nat2Z.id, list_lookup_middle in Hx by done. injection Hx as <-. cbn [res_bind].
    rewrite slice_prefix by (rewrite len_snoc; pose proof (len_nonneg l); lia).
    unfold len. by rewrite Nat2Z.id, take_app_length.
  - destruct l as [|e l]; [done|]. exists e, l. split; [|done].
    destruct (elem_at_lookup (e :: l) 0) as (x & Hx & ->); [rewrite len_cons; pose proof (len_nonneg l); lia|].
    injection Hx as <-. cbn [res_bind]. by rewrite slice_suffix by (rewrite len_cons; pose proof (len_nonneg l); lia).
Qed.

Lemma strs_ok_sub l l' : l' `sublist_of` l -> strs_ok l -> strs_ok l'.
Proof.
  intros Hs [Hl Hf]. split.
  - apply sublist_length in Hs. unfold len, sizeofString in *. lia.
  - clear Hl. induction Hs as [|x k k' _ IH|x k k' _ IH]; [done|..]; apply Forall_cons in Hf as [Hx Hf]; [constructor|]; auto.
Qed.

Definition side (tl : bool) : Value := BulkOf (lit (if tl then "RIGHT" else "LEFT")).

Definition put_end (tl : bool) (l : list bytes) (e : bytes) : list bytes := if tl then l ++ [e] else e :: l.

Lemma lmove_sides src dst (f t : bool) w :
  lmove [BulkOf src; BulkOf dst; side f; side t] w = moveCore src dst f t w.
Proof. unfold lmove. rewrite !with_key_arg. by destruct f, t. Qed.

Lemma put_end_nonempty tl l e : put_end tl l e <> [].
Proof. destruct tl; [|done]. cbn. intros X. by apply app_nil in X as [_ ?]. Qed.

(** LMOVE between two keys loses and duplicates nothing: from a list
    with the element [e] at the named end it answers [e], the source keeps the
    rest (and disappears when nothing is left) and the destination has [e]
    added at the named end. *)
Theorem lmove_moves src dst rest ld e (f t : bool) w :
  src <> dst -> rep src (put_end f rest e) w -> rep dst ld w -> strs_ok (put_end t ld e) ->
  exists w', lmove [BulkOf src; BulkOf dst; side f; side t] w = (Ok (BulkOf e), w') /\
    rep src rest w' /\ rep dst (put_end t ld e) w'.
Proof.
  intros Hne Rs Rd Hf. rewrite lmove_sides. unfold moveCore. rewrite (with_list_rep src (put_end f rest e)) by done.
  pose proof (put_end_nonempty f rest e) as Hl. destruct (take_one_spec _ f Hl) as (e' & rest' & Ht & Hp).
  assert (e' = e /\ rest' = rest) as [-> ->].
  { destruct f; cbn [put_end] in Hp; [apply app_inj_2 in Hp as [-> [= ->]] | injection Hp as -> ->]; done. }
  destruct (put_end f rest e) as [|x xs] eqn:El; [done|]. cbv zeta.
  rewrite (proj2 (Z.eqb_neq (len (x :: xs)) 0)) by (rewrite len_cons; pose proof (len_nonneg xs); lia).
  unfold mbind at 1, lift. rewrite Ht. cbv beta iota. rewrite (with_list_rep dst ld) by done.
  assert (bytes_eqb src dst = false) as -> by (by apply bytes_eqb_neq).
  assert (strs_ok rest) as Hr.
  { eapply strs_ok_sub; [|apply Rs]. rewrite Hp. destruct f; [by apply sublist_inserts_r | by apply sublist_cons]. }
  set (m1 := <[ListKey dst := Encode TypeList 0 (EncodeList (put_end t ld e))]> (w_kv w)).
  match goal with |- exists w', ?lhs = _ /\ _ =>
    assert (exists w', lhs = (Ok (BulkOf e), w') /\
      w_kv w' = match rest with [] => delete (ListKey src) m1
                | _ => <[ListKey src := Encode TypeList 0 (EncodeList rest)]> m1 end) as (w' & E & Ek)
      by (destruct ld, rest, t; eexists; split; reflexivity) end.
  exists w'. split; [exact E|]. assert (rep src (x :: xs) (mkWorld m1 0 [] 0)) as Rs1.
  { eapply (rep_frame src dst); [done..|]. intros k Hk. by apply lookup_insert_ne. }
  split; [destruct rest; [by eapply (rep_clear src) | by eapply (rep_store src)]|].
  eapply (rep_frame dst src _ (mkWorld m1 0 [] 0)); [done|by eapply rep_store; [|apply put_end_nonempty|..]|].
  intros k Hk. rewrite Ek. cbn. destruct rest; by rewrite ?lookup_insert_ne, ?lookup_delete_ne by done.
Qed.
(** LMOVE with the same key as source and destination does not rotate
    the list: the destination is read again after the element was taken from
    the copy, so the element stays where it was and is also added. *)
Theorem lmove_same_key_duplicates key rest e (f t : bool) w :
  rep key (put_end f rest e) w -> strs_ok (put_end t (put_end f rest e) e) ->
  exists w', lmove [BulkOf key; BulkOf key; side f; side t] w = (Ok (BulkOf e), w') /\
    rep key (put_end t (put_end f rest e) e) w'.
Proof.
  intros R Hf. rewrite lmove_sides. unfold moveCore. rewrite (with_list_rep key (put_end f rest e)) by done.
  pose proof (put_end_nonempty f rest e) as Hl. destruct (take_one_spec _ f Hl) as (e' & rest' & Ht & Hp).
  assert (e' = e) as ->.
  { destruct f; cbn [put_end] in Hp; [apply app_inj_2 in Hp as [-> [= ->]] | injection Hp as -> ->]; done. }
  destruct (put_end f rest e) as [|x xs] eqn:El; [done|]. cbv zeta.
  rewrite (proj2 (Z.eqb_neq (len (x :: xs)) 0)) by (rewrite len_cons; pose proof (len_nonneg xs); lia).
  unfold mbind at 1, lift. rewrite Ht. cbv beta iota. rewrite (with_list_rep key (x :: xs)) by done.
  rewrite bytes_eqb_refl. destruct t; (eexists; split; [reflexivity|]);
    (eapply (rep_store key (x :: xs)); [done | | done | reflexivity]); [apply (put_end_nonempty true)|done].
Qed.
End run.

(** ** Waiting *)

Section waiting.
Context `{Clock} `{GoUnicode} `{GoFloat} `{GoDuration}.
Notation W := (world (gmap bytes bytes)).
Implicit Types (key : bytes) (w : W).

(** While the loop runs the gauge counts this client once, if at all. *)
Lemma poll_gauge {S} (try : M S (option Value)) expired gaveUp wakes blocked gauge (w : world S) :
  let '(r, _, g) := poll try expired gaveUp wakes blocked gauge w in
  g = gauge - (if blocked then 1 else 0) + (if r then 0 else 1).
Proof.
  revert blocked gauge w; induction wakes as [|wk wakes IH]; intros blocked gauge w; cbn [poll];
    destruct (try w) as [[[v|]|er|] w1]; try (destruct blocked; lia);
    destruct (expired w1) as [[[|]|er|] w2]; try (destruct blocked; lia).
  destruct wk as [|others]; [destruct blocked; lia|].
  specialize (IH true (if blocked then gauge else gauge + 1) (others w2)).
  destruct (poll _ _ _ _ _ _ _) as [[r w'] g]. destruct blocked, r; lia.
Qed.

Definition balanced (b : blocking (S := gmap bytes bytes)) : Prop := forall wakes gauge w,
  let '(r, _, g) := b wakes gauge w in g = gauge + (if r then 0 else 1).

Lemma balanced_ret (val : Value) : balanced (bret val).
Proof. intros wakes gauge w. cbn. lia. Qed.

Lemma balanced_bind {A} (m : M (gmap bytes bytes) (A + Value)) k : (forall a, balanced (k a)) -> balanced (bbind m k).
Proof.
  intros Hk wakes gauge w. unfold bbind. destruct (m w) as [[[a|v]|e|] w']; [apply Hk|lia..].
Qed.

Lemma balanced_poll timeout try (val : Value) : balanced (poll_for timeout try val).
Proof.
  apply balanced_bind. intros d wakes gauge w. pose proof (poll_gauge try (timed_out timeout d) val wakes false gauge w) as G.
  destruct (poll _ _ _ _ _ _ _) as [[r w'] g]. destruct r; lia.
Qed.

(** The gauge of blocked clients is balanced: when BLPOP, BRPOP, BLMPOP,
    BRMPOP, BLMOVE or BRPOPLPUSH returns, by whatever path, the gauge is what
    it was before the command, and while the command still waits it is one
    more. *)
Theorem blocked_gauge_balanced args :
  Forall balanced [blpop args; brpop args; blmpop args; brmpop args; blmove args; brpoplpush args].
Proof.
  repeat apply Forall_cons_2; [..|apply Forall_nil_2];
    unfold blpop, brpop, bpop, blmpop, brmpop, bmpop, blmove, brpoplpush, with_move_timeout, blockMove;
    repeat first [apply balanced_ret | apply balanced_poll | (apply balanced_bind; intros ?) | case_match].
Qed.

Lemma pop_round_rep key l w :
  rep key l w ->
  exists w', pop_round [key] false w = (Ok (match l with [] => None | e :: _ => Some (VArray (Some [BulkOf key; BulkOf e])) end), w') /\
    rep key (tail l) w'.
Proof.
  intros R. cbn [pop_round]. unfold tryPopSingle. unfold mbind at 1, attempt at 1, mbind at 1, attempt.
  rewrite (readList_rep key l) by done. destruct l as [|e l]; [by exists w|].
  rewrite (proj2 (Z.eqb_neq (len (e :: l)) 0)) by (rewrite len_cons; pose proof (len_nonneg l); lia).
  unfold mbind at 1, lift.
  destruct (take_one_spec (e :: l) false) as (e' & l' & -> & [= <- <-]); [done|].
  assert (strs_ok l) by (eapply strs_ok_sub; [|apply R]; by apply sublist_cons).
  destruct l as [|x l]; eexists; (split; [reflexivity|]); [by eapply rep_clear | by eapply rep_store].
Qed.

Lemma poll_again {S} (try : M S (option Value)) expired gaveUp others wakes blocked gauge (w w1 w2 : world S) :
  try w = (Ok None, w1) -> expired w1 = (Ok false, w2) ->
  poll try expired gaveUp (Slept others :: wakes) blocked gauge w =
  poll try expired gaveUp wakes true (if blocked then gauge else gauge + 1) (others w2).
Proof. intros E1 E2. cbn [poll]. by rewrite E1, E2. Qed.

Lemma poll_done {S} (try : M S (option Value)) expired gaveUp wakes blocked gauge (w w1 : world S) val :
  try w = (Ok (Some val), w1) ->
  poll try expired gaveUp wakes blocked gauge w = (Some (Ok val), w1, if blocked then gauge - 1 else gauge).
Proof. intros E. destruct wakes; cbn [poll]; by rewrite E. Qed.

Lemma poll_quiet key quiet last more l e gauge blocked w :
  rep key [] w ->
  Forall (fun wk => exists f, wk = Slept f /\ forall w, rep key [] w -> rep key [] (f w)) quiet ->
  (forall w, rep key [] w -> rep key (e :: l) (last w)) ->
  exists w', poll (pop_round [key] false) (timed_out 0 0) nilArray (quiet ++ Slept last :: more) blocked gauge w
    = (Some (Ok (VArray (Some [BulkOf key; BulkOf e]))), w', gauge - (if blocked then 1 else 0)) /\ rep key l w'.
Proof.
  intros R Hq Hl. revert w R gauge blocked. induction Hq as [|wk quiet (f & -> & Hf) _ IH]; intros w R gauge blocked; cbn [app];
    destruct (pop_round_rep key [] w R) as (w1 & E1 & R1); rewrite (poll_again _ _ _ _ _ _ _ _ w1 w1) by done.
  - destruct (pop_round_rep key (e :: l) (last w1)) as (w2 & E & R2); [by apply Hl|].
    exists w2. split; [|done]. erewrite poll_done by exact E. destruct blocked; f_equal; lia.
  - destruct (IH (f w1) ltac:(by apply Hf) (if blocked then gauge else gauge + 1) true) as (w2 & -> & R2).
    exists w2. split; [|done]. destruct blocked; f_equal; lia.
Qed.

(** C33: a client blocked on an empty key is served: BLPOP without a timeout
    waits as long as the other clients leave the key empty, and when they have
    made it a list it pops and answers the head, leaving the rest. *)
Theorem blpop_served key s quiet last more l e gauge w :
  parseTimeout s = Some 0 -> rep key [] w ->
  Forall (fun wk => exists f, wk = Slept f /\ forall w, rep key [] w -> rep key [] (f w)) quiet ->
  (forall w, rep key [] w -> rep key (e :: l) (last w)) ->
  exists w', blpop [BulkOf key; BulkOf s] (quiet ++ Slept last :: more) gauge w
    = (Some (Ok (VArray (Some [BulkOf key; BulkOf e]))), w', gauge) /\ rep key l w'.
Proof.
  intros Hs R Hq Hl. unfold blpop, bpop. cbn [rev app BulkOf argString]. change (default [] (Some ?x)) with x. rewrite Hs.
  cbn [rev app arg_keys BulkOf argString]. change (default [] (Some ?x)) with x.
  assert (type_check [key] w = (Ok (inl ()), w)) as E.
  { cbn [type_check]. unfold mbind, attempt. by rewrite (readList_rep key []). }
  unfold bbind at 1. rewrite E. unfold poll_for, bbind, deadline_of. cbn [Z.ltb Z.compare mbind mret].
  destruct (poll_quiet key quiet last more l e gauge false w R Hq Hl) as (w' & -> & R').
  exists w'. split; [|done]. f_equal. lia.
Qed.
End waiting.

(** ** Runs *)

Ltac strs_now :=
  match goal with |- strs_ok ?l => let x := eval vm_compute in l in change (strs_ok x) end;
  split; [vm_compute; discriminate|];
  repeat (apply Forall_cons_2; [split; vm_compute; (discriminate || reflexivity)|]); apply Forall_nil_2.

Definition lworld (lists : list (bytes * list bytes)) : world (gmap bytes bytes) :=
  world_of (map (fun '(k, l) => (ListKey k, Encode TypeList 0 (EncodeList l))) lists).

(** Concrete representations. *)
Ltac rep_now :=
  split; [ | vm_compute; reflexivity | strs_now];
  unfold typePrefixes; cbn [map]; intros ?p Hp Hne; rewrite !elem_of_cons, elem_of_nil in Hp;
  destruct_or! Hp; subst; first [vm_compute; reflexivity | by destruct Hne | done].

Definition demo_ops : list list_op :=
  [RPush (lit "a") [lit "b"; lit "c"]; LPush (lit "z") []; LRange 0 (-1); LRem (-1) (lit "b"); LInsert true (lit "a") (lit "x");
   LPop; RPopN 2; LLen; LTrim 5 9; LLen].


Definition two_lists : world (gmap bytes bytes) := lworld [(lit "s", [lit "a"; lit "b"]); (lit "d", [lit "c"])].

Lemma lmove_moves_witness :
  exists w', @lmove _ map_kv step_clock ascii_tables [BulkOf (lit "s"); BulkOf (lit "d"); side true; side false] two_lists
             = (Ok (BulkOf (lit "b")), w') /\ rep (lit "s") [lit "a"] w' /\ rep (lit "d") [lit "b"; lit "c"] w'.
Proof.
  apply (@lmove_moves step_clock ascii_tables (lit "s") (lit "d") [lit "a"] [lit "c"] (lit "b") true false two_lists);
    [discriminate | rep_now | rep_now | strs_now].
Defined.

Lemma lmove_same_key_duplicates_witness :
  exists w', @lmove _ map_kv step_clock ascii_tables [BulkOf (lit "s"); BulkOf (lit "s"); side false; side true] two_lists
             = (Ok (BulkOf (lit "a")), w') /\ rep (lit "s") [lit "a"; lit "b"; lit "a"] w'.
Proof.
  apply (@lmove_same_key_duplicates step_clock ascii_tables (lit "s") [lit "b"] (lit "a") false true two_lists);
    [rep_now | strs_now].
Defined.

Definition instant : GoDuration := {| seconds := fun _ => 0 |}.

(** Another client pushes one element to an empty key. *)
Definition other_push (w : world (gmap bytes bytes)) : world (gmap bytes bytes) :=
  mkWorld (<[ListKey (lit "q") := Encode TypeList 0 (EncodeList [lit "job"])]> (w_kv w)) (w_tick w) (w_events w) (w_expired w).

Lemma other_push_rep w : rep (lit "q") [] w -> rep (lit "q") [lit "job"] (other_push w).
Proof. intros R. eapply rep_store; [exact R | done | strs_now | reflexivity]. Qed.

Lemma blpop_served_witness :
  exists w', @blpop _ map_kv step_clock zero_float instant [BulkOf (lit "q"); BulkOf (lit "0")]
               ([Slept id] ++ Slept other_push :: [Cancelled]) 3 empty_world
             = (Some (Ok (VArray (Some [BulkOf (lit "q"); BulkOf (lit "job")]))), w', 3) /\ rep (lit "q") [] w'.
Proof.
  apply (@blpop_served step_clock zero_float instant (lit "q") (lit "0") [Slept id] other_push [Cancelled] [] (lit "job") 3 empty_world).
  - reflexivity.
  - rep_now.
  - apply Forall_cons_2; [|apply Forall_nil_2]. by exists id.
  - exact other_push_rep.
Defined.

(** LREM with the smallest count removes nothing: its magnitude does not fit. *)
Theorem lrem_min_count_removes_nothing :
  (@lrem _ map_kv step_clock [BulkOf (lit "s"); int_arg minInt64; BulkOf (lit "a")] two_lists).1 = Ok (VInteger 0).
Proof. vm_compute. reflexivity. Qed.

(** BLMOVE takes the move of an empty string for a wait: it goes on to move
    the next element and answers that one. *)
Theorem blmove_empty_element_moves_on :
  let w := lworld [(lit "s", [[]; lit "b"])] in
  let '(r, w', _) := @blmove _ map_kv step_clock ascii_tables zero_float instant
     [BulkOf (lit "s"); BulkOf (lit "d"); side false; side true; BulkOf (lit "0")] [Slept id] 0 w in
  r = Some (Ok (BulkOf (lit "b"))) /\ w_kv w' !! ListKey (lit "d") = Some (Encode TypeList 0 (EncodeList [[]; lit "b"])).
Proof. vm_compute. split; reflexivity. Qed.

End listspec.
