(* ===== verification/Pattern.v ===== *)
(** * Glob patterns (src/internal/commands/pattern.go)

    [matchBytes] walks the pattern and the text with two indices and goes back
    to the latest star on a mismatch.  Here the indices are the suffixes that
    remain; [matches] is the declarative meaning of a pattern, and the two
    agree ([matchPattern_matches]). *)

From S2P Require Import Prelude.
Open Scope Z_scope.

Module pattern.

(** The search for the closing bracket, from the byte after the opening one:
    the body and what follows the bracket. *)
Fixpoint class_end (p : bytes) (body : bytes) : option (bytes * bytes) :=
  match p with
  | [] => None
  | c :: p1 =>
      if Ascii.eqb c "\" then
        match p1 with [] => None | d :: p2 => class_end p2 (body ++ [c; d]) end
      else if Ascii.eqb c "]" then Some (body, p1)
      else class_end p1 (body ++ [c])
  end.

(** A bracket right after the opening one is a member. *)
Definition scanClassEnd (p : bytes) : option (bytes * bytes) :=
  match p with
  | c :: p1 => if Ascii.eqb c "]" then class_end p1 [c] else class_end p []
  | [] => None
  end.

Definition in_range (lo hi c : ascii) : bool := (byte_val lo <=? byte_val c) && (byte_val c <=? byte_val hi).

Fixpoint class_loop (body : bytes) (c : ascii) (matched : bool) : bool :=
  match body with
  | [] => matched
  | x :: b1 =>
      match b1 with
      | [] => matched || in_range x x c
      | y :: b2 =>
          if Ascii.eqb x "\" then class_loop b2 c (matched || in_range y y c)
          else match b2 with
               | z :: b3 =>
                   if Ascii.eqb y "-" && negb (Ascii.eqb z "]") then class_loop b3 c (matched || in_range x z c)
                   else class_loop b1 c (matched || in_range x x c)
               | [] => class_loop b1 c (matched || in_range x x c)
               end
      end
  end.

Definition classMatch (body : bytes) (c : ascii) : bool :=
  match body with
  | x :: b => if Ascii.eqb x "^" then negb (class_loop b c false) else class_loop body c false
  | [] => class_loop body c false
  end.

Fixpoint skip_stars (p : bytes) : bytes :=
  match p with
  | c :: p' => if Ascii.eqb c "*" then skip_stars p' else p
  | [] => []
  end.

(** [star]: what follows the latest star, and the text from [mark] on. *)
Fixpoint match_loop (fuel : nat) (p s : bytes) (star : option (bytes * bytes)) : bool :=
  match fuel with
  | O => false
  | S fuel =>
    match s with
    | [] => match skip_stars p with [] => true | _ => false end
    | c :: s' =>
        let fail :=
          match star with
          | Some (sp, _ :: mark) => match_loop fuel sp mark (Some (sp, mark))
          | _ => false
          end in
        match p with
        | [] => fail
        | x :: p1 =>
            if Ascii.eqb x "*" then match_loop fuel p1 s (Some (p1, s))
            else if Ascii.eqb x "?" then match_loop fuel p1 s' star
            else match (if Ascii.eqb x "\" then p1 else []) with
            | e :: p2 => if Ascii.eqb e c then match_loop fuel p2 s' star else fail
            | [] =>
                if Ascii.eqb x "[" then
                  match scanClassEnd p1 with
                  | None => if Ascii.eqb x c then match_loop fuel p1 s' star else fail
                  | Some (body, rest) => if classMatch body c then match_loop fuel rest s' star else fail
                  end
                else if Ascii.eqb x c then match_loop fuel p1 s' star else fail
            end
        end
    end
  end.

Definition matchBytes (p s : bytes) : bool :=
  match_loop ((length s + 2) * (length p + 1) + 1) p s None.

Definition matchPattern (p s : bytes) : bool := matchBytes p s.

(** ** The meaning of a pattern *)

Inductive matches : bytes -> bytes -> Prop :=
| m_end : matches [] []
| m_star p s1 s2 : matches p s2 -> matches ("*"%char :: p) (s1 ++ s2)
| m_any p c s : matches p s -> matches ("?"%char :: p) (c :: s)
| m_escape p c s : matches p s -> matches ("\"%char :: c :: p) (c :: s)
| m_class p body rest c s :
    scanClassEnd p = Some (body, rest) -> classMatch body c = true -> matches rest s -> matches ("["%char :: p) (c :: s)
| m_open p s : scanClassEnd p = None -> matches p s -> matches ("["%char :: p) ("["%char :: s)
| m_char x p s :
    x ∉ ["*"; "?"; "["]%char -> (x = "\"%char -> p = []) -> matches p s -> matches (x :: p) (x :: s).

(** ** Tokens: a star, or a test of one byte *)

Inductive tok : Type :=
| TEnd
| TStar (p : bytes)
| TOne (test : ascii -> bool) (p : bytes).

Definition head_tok (p : bytes) : tok :=
  match p with
  | [] => TEnd
  | x :: p1 =>
      if Ascii.eqb x "*" then TStar p1
      else if Ascii.eqb x "?" then TOne (fun _ => true) p1
      else match (if Ascii.eqb x "\" then p1 else []) with
      | e :: p2 => TOne (Ascii.eqb e) p2
      | [] =>
          if Ascii.eqb x "[" then
            match scanClassEnd p1 with
            | None => TOne (Ascii.eqb x) p1
            | Some (body, rest) => TOne (classMatch body) rest
            end
          else TOne (Ascii.eqb x) p1
      end
  end.

Definition fail_step (fuel : nat) (star : option (bytes * bytes)) : bool :=
  match star with
  | Some (sp, _ :: mark) => match_loop fuel sp mark (Some (sp, mark))
  | _ => false
  end.

Lemma match_loop_tok fuel p c s star :
  match_loop (S fuel) p (c :: s) star =
  match head_tok p with
  | TEnd => fail_step fuel star
  | TStar p1 => match_loop fuel p1 (c :: s) (Some (p1, c :: s))
  | TOne test p1 => if test c then match_loop fuel p1 s star else fail_step fuel star
  end.
Proof.
  destruct p as [|x p1]; [done|]. cbn [match_loop head_tok]. change (match star with
    | Some (sp, _ :: mark) => match_loop fuel sp mark (Some (sp, mark)) | _ => false end) with (fail_step fuel star).
  repeat case_match; simplify_eq; done.
Qed.

Lemma class_end_shorter p body b rest : class_end p body = Some (b, rest) -> (length rest < length p)%nat.
Proof.
  revert body. induction p as [p IH] using (induction_ltof1 _ (@length ascii)). unfold ltof in IH.
  destruct p as [|c p1]; cbn [class_end]; intros body E; [done|].
  destruct (Ascii.eqb c "\"); [destruct p1 as [|d p2]; [done|]; apply IH in E; cbn in *; lia|].
  destruct (Ascii.eqb c "]"); [simplify_eq; cbn; lia|]. apply IH in E; cbn in *; lia.
Qed.

Lemma scanClassEnd_shorter p b rest : scanClassEnd p = Some (b, rest) -> (length rest < length p)%nat.
Proof.
  destruct p as [|c p]; [done|]. unfold scanClassEnd. destruct (Ascii.eqb c "]"); intros E%class_end_shorter; cbn in *; lia.
Qed.

Lemma head_tok_shorter p :
  match head_tok p with TEnd => p = [] | TStar q | TOne _ q => (length q < length p)%nat end.
Proof.
  destruct p as [|x p]; [done|]. cbn [head_tok]. repeat case_match; simplify_eq; cbn [length] in *; try lia;
    try (match goal with H : scanClassEnd _ = _ |- _ => apply scanClassEnd_shorter in H end; lia).
  all: destruct (Ascii.eqb x "\"); simplify_eq; cbn; lia.
Qed.

Lemma matches_tok p s :
  matches p s <->
  match head_tok p with
  | TEnd => s = []
  | TStar q => exists s1 s2, s = s1 ++ s2 /\ matches q s2
  | TOne test q => exists c s', s = c :: s' /\ test c = true /\ matches q s'
  end.
Proof.
  split.
  - intros M. destruct M as [|p s1 s2 M|p c s M|p c s M|p body rest c s Hb Hc M|p s Hb M|x p s Hx He M]; cbn [head_tok Ascii.eqb Bool.eqb].
    1: done.
    1: by exists s1, s2.
    1: by exists c, s.
    1: exists c, s; by rewrite Ascii.eqb_refl.
    1: rewrite Hb; by exists c, s.
    1: rewrite Hb; by exists "["%char, s.
    rewrite !not_elem_of_cons in Hx. destruct Hx as (H1 & H2 & H3 & _).
    rewrite (proj2 (Ascii.eqb_neq x "*")), (proj2 (Ascii.eqb_neq x "?")), (proj2 (Ascii.eqb_neq x "[")) by done.
    destruct (Ascii.eqb x "\") eqn:E; [apply Ascii.eqb_eq in E; specialize (He E); subst p|];
      exists x, s; by rewrite Ascii.eqb_refl.
  - destruct p as [|x p]; cbn [head_tok]; [intros ->; constructor|].
    destruct (Ascii.eqb x "*") eqn:E1; [apply Ascii.eqb_eq in E1 as ->; intros (s1 & s2 & -> & M); by constructor|].
    destruct (Ascii.eqb x "?") eqn:E2; [apply Ascii.eqb_eq in E2 as ->; intros (c & s' & -> & _ & M); by constructor|].
    destruct (Ascii.eqb x "\") eqn:E3; [destruct p as [|e p]|].
    + apply Ascii.eqb_eq in E3 as ->. change (Ascii.eqb "\" "[") with false. cbv iota. intros (c & s' & -> & <-%Ascii.eqb_eq & M).
      constructor; [|done..]. by rewrite !not_elem_of_cons; repeat split; try apply not_elem_of_nil.
    + apply Ascii.eqb_eq in E3 as ->. intros (c & s' & -> & ->%Ascii.eqb_eq & M). by constructor.
    + destruct (Ascii.eqb x "[") eqn:E4; [apply Ascii.eqb_eq in E4 as ->; destruct (scanClassEnd p) as [[body rest]|] eqn:Eb|].
      * intros (c & s' & -> & Hc & M). by eapply m_class.
      * intros (c & s' & -> & <-%Ascii.eqb_eq & M). by apply m_open.
      * apply Ascii.eqb_neq in E1, E2, E3, E4. intros (c & s' & -> & <-%Ascii.eqb_eq & M).
        apply m_char; [|congruence|done]. rewrite !not_elem_of_cons. repeat split; try done. apply not_elem_of_nil.
Qed.

(** [walked p u q]: the text [u] takes the one-byte tests of [p] up to [q]. *)
Inductive walked : bytes -> bytes -> bytes -> Prop :=
| w_nil p : walked p [] p
| w_snoc p u q test r c : walked p u q -> head_tok q = TOne test r -> test c = true -> walked p (u ++ [c]) r.

(** A match of the whole uses as many bytes on the way to [q]. *)
Lemma walked_split p u q s :
  walked p u q -> matches p s -> exists u' s2, s = u' ++ s2 /\ length u' = length u /\ matches q s2.
Proof.
  intros Hw. revert s. induction Hw as [|p u q test r c Hw IH Hh Ht]; intros s M; [by exists [], s|].
  destruct (IH s M) as (u' & s2 & -> & Hl & M2). apply matches_tok in M2. rewrite Hh in M2.
  destruct M2 as (d & s3 & -> & _ & M3). exists (u' ++ [d]), s3. rewrite <- app_assoc, !length_app. auto with lia.
Qed.

Definition later (star : option (bytes * bytes)) : Prop :=
  match star with
  | None => False
  | Some (sp, mark) => exists k, (0 < k <= length mark)%nat /\ matches sp (drop k mark)
  end.

Definition state_ok (n : nat) (p s : bytes) (star : option (bytes * bytes)) : Prop :=
  (length p <= n)%nat /\
  match star with
  | None => True
  | Some (sp, mark) => (length sp <= n)%nat /\ exists u, mark = u ++ s /\ walked sp u p
  end.

Definition work (n : nat) (p s : bytes) (star : option (bytes * bytes)) : nat :=
  ((match star with None => length s + 1 | Some (_, mark) => length mark end) * (n + 1) + length p)%nat.

Lemma skip_stars_matches p : (match skip_stars p with [] => true | _ => false end) = true <-> matches p [].
Proof.
  induction p as [|x p IH]; cbn [skip_stars]; [split; [constructor|done]|].
  destruct (Ascii.eqb x "*") eqn:E; rewrite (matches_tok (x :: p)).
  - cbn [head_tok]. rewrite E, IH. split; [intros M; by exists [], []|].
    intros (s1 & s2 & Hs & M). symmetry in Hs. by apply app_nil in Hs as [-> ->].
  - split; [done|]. cbn [head_tok]. rewrite E. intros M. exfalso. repeat case_match; naive_solver.
Qed.

Lemma later_cons sp a mark : later (Some (sp, a :: mark)) <-> matches sp mark \/ later (Some (sp, mark)).
Proof.
  cbn [later length]. split.
  - intros ([|[|k]] & Hk & M); [lia|by left|]. right. exists (S k). split; [lia|done].
  - intros [M|(k & Hk & M)]; [exists 1%nat | exists (S k)]; cbn; split; (lia || done).
Qed.

Lemma match_loop_spec n fuel p s star :
  state_ok n p s star -> (work n p s star < fuel)%nat ->
  match_loop fuel p s star = true <-> matches p s \/ later star.
Proof.
  revert p s star. induction fuel as [|fuel IH]; intros p s star [Hp Hst] Hf; [lia|].
  destruct s as [|c s].
  { cbn [match_loop]. rewrite skip_stars_matches. split; [auto|]. intros [M|L]; [done|exfalso].
    destruct star as [[sp mark]|]; [|done]. destruct Hst as (_ & u & Hm & Hw), L as (k & Hk & M).
    rewrite app_nil_r in Hm. subst u. destruct (walked_split _ _ _ _ Hw M) as (u' & s2 & E & Hl & _).
    apply (f_equal length) in E. rewrite length_drop, length_app in E. lia. }
  rewrite match_loop_tok. pose proof (head_tok_shorter p) as Hs. pose proof (matches_tok p (c :: s)) as Mp.
  assert (fail_step fuel star = true <-> later star) as Hfail.
  { destruct star as [[sp mark]|]; [|done]. destruct Hst as (Hsp & u & -> & Hw).
    destruct (u ++ c :: s) as [|a mark] eqn:E; [by apply app_nil in E as [_ ?]|]. rewrite later_cons. apply IH.
    - split; [done|]. split; [done|]. exists []. split; [done|constructor].
    - unfold work in *. cbn [length] in Hf. nia. }
  destruct (head_tok p) as [|p1|test p1] eqn:Eh.
  - rewrite Hfail. rewrite Mp. naive_solver.
  - rewrite IH; [|split; [lia|]; split; [lia|]; exists []; split; [done|constructor]|].
    2: { unfold work in *. destruct star as [[sp mark]|]; [|cbn in *; nia].
         destruct Hst as (_ & u & -> & _). rewrite length_app in Hf. nia. }
    rewrite Mp. split.
    + intros [M|(k & Hk & M)]; left; [by exists [], (c :: s)|]. exists (take k (c :: s)), (drop k (c :: s)). by rewrite take_drop.
    + assert ((exists s1 s2, c :: s = s1 ++ s2 /\ matches p1 s2) -> matches p1 (c :: s) \/ later (Some (p1, c :: s))) as G.
      { intros (s1 & s2 & E & M). destruct s1 as [|a s1]; [left; cbn in E; by rewrite E|]. right.
        exists (length (a :: s1)). rewrite E, drop_app_length, length_app. split; [cbn; lia|done]. }
      intros [M|L]; [by apply G|]. apply G. destruct star as [[sp mark]|]; [|done].
      destruct Hst as (_ & u & -> & Hw), L as (k & Hk & M).
      destruct (walked_split _ _ _ _ Hw M) as (u' & s2 & E & Hl & M2). apply matches_tok in M2. rewrite Eh in M2.
      destruct M2 as (s3 & s4 & -> & M2).
      assert (s3 ++ s4 = drop k (c :: s)) as E2.
      { assert (drop (length u') (drop k (u ++ c :: s)) = s3 ++ s4) as <- by (rewrite E; by rewrite drop_app_length).
        rewrite drop_drop. rewrite Nat.add_comm, <- drop_drop, Hl, drop_app_length. done. }
      exists (take k (c :: s) ++ s3), s4. split; [|done]. by rewrite <- app_assoc, E2, take_drop.
  - rewrite Mp. destruct (test c) eqn:Et.
    + rewrite IH.
      * split; [intros [M|L]; [left; by exists c, s|by right]|]. intros [(d & s' & [= <- <-] & _ & M)|L]; auto.
      * split; [lia|]. destruct star as [[sp mark]|]; [|done]. destruct Hst as (Hsp & u & -> & Hw). split; [done|].
        exists (u ++ [c]). rewrite <- app_assoc. split; [done|]. by econstructor.
      * unfold work in *. destruct star as [[sp mark]|]; cbn [length] in *; nia.
    + rewrite Hfail. split; [auto|]. intros [(d & s' & [= <- <-] & Ht & _)|L]; [congruence|done].
Qed.

(** C39: the matcher that remembers only the latest star decides the pattern
    language: it answers true exactly when the text is a match, on every
    pattern and text (classes, negation, escapes and unclosed brackets
    included), within its bound. *)
Theorem matchPattern_matches p s : matchPattern p s = true <-> matches p s.
Proof.
  unfold matchPattern, matchBytes. rewrite (match_loop_spec (length p)).
  - split; [intros [M|[]]; done | auto].
  - split; [lia|done].
  - unfold work. nia.
Qed.

End pattern.
