(* ===== verification/CmdKeys.v ===== *)
(** * Key commands
    (src/internal/commands/expire.go, keyspace.go, expiry.go, scan.go, and the
    COPY and RENAME handlers of generic.go)

    Expiry, type queries, enumeration of the keyspace, the background sweep,
    copying and renaming. *)

From S2P Require Import Prelude GoLib GoStrings GoPath Resp Codec Kv Cmd CmdString.
Open Scope Z_scope.
Open Scope gedis_scope.

Module keycmd.
Import datastruct.

(** [rand.Intn(n)] *)
Class GoRand : Type := { intn : Z -> Z }.
(** [KV.ObjectStats]: idle seconds and access frequency of a tracked key. *)
Class KVStats (S : Type) : Type := { object_stats : bytes -> S -> option (Z * Z) }.

Inductive expireKind : Type := expireRelativeSec | expireRelativeMs | expireAbsoluteSec | expireAbsoluteMs.
Inductive expireCond : Type := condNone | condNX | condXX | condGT | condLT.

Definition typeName (t : ascii) : bytes :=
  if Ascii.eqb t TypeString then lit "string"
  else if Ascii.eqb t TypeHash then lit "hash"
  else if Ascii.eqb t TypeList then lit "list"
  else if Ascii.eqb t TypeSet then lit "set"
  else if Ascii.eqb t TypeZSet then lit "zset"
  else if Ascii.eqb t TypeHLL then lit "string"
  else if Ascii.eqb t TypeStream then lit "stream"
  else if Ascii.eqb t TypeVector then lit "vectorset"
  else lit "none".

Definition first_is (payload : bytes) (c : ascii) : bool :=
  match payload with x :: _ => Ascii.eqb x c | [] => false end.

Definition objectEncodingOf (e : Entry) : option bytes :=
  let t := Type_ e in
  if Ascii.eqb t TypeHash then Some (if first_is (Payload e) EncodingHashtable then lit "hashtable" else lit "listpack")
  else if Ascii.eqb t TypeList then Some (if first_is (Payload e) ListEncodingQuicklist then lit "quicklist" else lit "ziplist")
  else if Ascii.eqb t TypeSet then Some (if first_is (Payload e) EncodingIntset then lit "intset" else lit "hashtable")
  else if Ascii.eqb t TypeZSet then Some (if first_is (Payload e) ZSetEncodingSkiplist then lit "skiplist" else lit "listpack")
  else if Ascii.eqb t TypeString then Some (if len (Payload e) <=? 44 then lit "embstr" else lit "raw")
  else None.

(** The longest type prefix of a storage key is removed. *)
Definition best_prefix (k : bytes) : bytes :=
  foldl (fun best p => if HasPrefix k p && (len best <? len p) then p else best) [] typePrefixes.
Definition stripTypePrefix (k : bytes) : option bytes :=
  let best := best_prefix k in
  match best with [] => None | _ => Some (TrimPrefix k best) end.

(** The first prefix that fits is removed. *)
Fixpoint user_key (ps : list bytes) (raw : bytes) : bytes :=
  match ps with
  | [] => raw
  | p :: rest => if HasPrefix raw p then TrimPrefix raw p else user_key rest raw
  end.
Definition userKeyFromRaw (raw : bytes) : bytes := user_key typePrefixes raw.

(** The names not seen yet, with their storage keys. *)
Fixpoint add_names (raw : list bytes) (seen : list bytes) (out : list (bytes * bytes)) : list bytes * list (bytes * bytes) :=
  match raw with
  | [] => (seen, out)
  | k :: rest =>
      match stripTypePrefix k with
      | None => add_names rest seen out
      | Some name =>
          if bool_decide (name ∈ seen) then add_names rest seen out
          else add_names rest (name :: seen) (out ++ [(name, k)])
      end
  end.

Section handlers.
Context {S : Type} `{KV S} `{Clock} `{GoUnicode} `{GoRand} `{KVStats S}.

(** ** EXPIRE and its family *)

Definition expire_at (kind : expireKind) (n : Z) : M S Z :=
  match kind with
  | expireRelativeSec => let! t := now in mret (add_duration t n Second)
  | expireRelativeMs => let! t := now in mret (add_duration t n Millisecond)
  | expireAbsoluteSec => mret (unix_sec n)
  | expireAbsoluteMs => mret (unix_ms n)
  end.

Definition parse_cond (args : list Value) : option expireCond :=
  match args with
  | [] => Some condNone
  | a :: _ =>
      match argString a with
      | None => None
      | Some name =>
          let u := ToUpper name in
          if bytes_eqb u (lit "NX") then Some condNX
          else if bytes_eqb u (lit "XX") then Some condXX
          else if bytes_eqb u (lit "GT") then Some condGT
          else if bytes_eqb u (lit "LT") then Some condLT
          else None
      end
  end.

(** The condition that keeps the old expiry [old]. *)
Definition cond_refuses (cond : expireCond) (old exp : Z) : bool :=
  match cond with
  | condNone => false
  | condNX => negb (old =? 0)
  | condXX => old =? 0
  | condGT => negb (old =? 0) && (exp <=? old)
  | condLT => (old =? 0) || (old <=? exp)
  end.

Definition expire (args : list Value) (kind : expireKind) : M S Value :=
  if (len args <? 2) || (3 <? len args) then mret (wrong_args "expire")
  else match args with
  | a :: b :: opts =>
      with_key a (fun key => with_int b (fun n =>
        match parse_cond opts with
        | None => mret (errS "ERR syntax error")
        | Some cond =>
            let! exp := expire_at kind n in
            let! r := attempt (getAny key) in
            match r with
            | inr e => mret (if isNotFound e then VInteger 0 else errValue e)
            | inl e =>
                let! r2 := attempt (lookupRaw key) in
                match r2 with
                | inr err => mret (errValue err)
                | inl (storeKey, _) =>
                    let! t := now in
                    if exp <=? t then
                      let! _ := ignore (kvDelete storeKey) in
                      let! _ := Notify "g" (lit "del") key in
                      mret (VInteger 1)
                    else if cond_refuses cond (Expiry e) exp then mret (VInteger 0)
                    else
                      commit (kvSet storeKey (Encode (Type_ e) exp (Payload e)))
                        (let! _ := Notify "g" (lit "expire") key in mret (VInteger 1))
                end
            end
        end))
  | _ => mret (wrong_args "expire")
  end.

(** [getAny], with the reply for a missing key. *)
Definition with_any (key : bytes) (missing : Value) (k : Entry -> M S Value) : M S Value :=
  let! r := attempt (getAny key) in
  match r with
  | inr e => mret (if isNotFound e then missing else errValue e)
  | inl e => k e
  end.

Definition persist (args : list Value) : M S Value :=
  match args with
  | [a] => with_key a (fun key => with_any key (VInteger 0) (fun e =>
      if Expiry e =? 0 then mret (VInteger 0)
      else
        let! r := attempt (lookupRaw key) in
        match r with
        | inr err => mret (errValue err)
        | inl (storeKey, _) =>
            commit (kvSet storeKey (Encode (Type_ e) 0 (Payload e)))
              (let! _ := Notify "g" (lit "persist") key in mret (VInteger 1))
        end))
  | _ => mret (wrong_args "persist")
  end.

Definition pttl (args : list Value) : M S Value :=
  match args with
  | [a] => with_key a (fun key => with_any key (VInteger (-2)) (fun e =>
      if Expiry e =? 0 then mret (VInteger (-1))
      else
        let! t := now in
        let ms := Z.quot (i64 (Expiry e - t)) Millisecond in
        mret (VInteger (if ms <? 0 then 0 else ms))))
  | _ => mret (wrong_args "pttl")
  end.

Definition expireTime (args : list Value) (ms : bool) : M S Value :=
  match args with
  | [a] => with_key a (fun key => with_any key (VInteger (-2)) (fun e =>
      mret (VInteger (if Expiry e =? 0 then -1 else Z.quot (Expiry e) (if ms then Millisecond else Second)))))
  | _ => mret (wrong_args (if ms then "pexpiretime" else "expiretime"))
  end.

Fixpoint first_stats (ps : list bytes) (key : bytes) (s : S) : option (Z * Z) :=
  match ps with
  | [] => None
  | p :: rest => match object_stats (p ++ key) s with Some x => Some x | None => first_stats rest key s end
  end.

Definition object (args : list Value) : M S Value :=
  match args with
  | [a; b] =>
      match argString a with
      | None => mret (errS "ERR syntax error")
      | Some sub =>
          let u := ToUpper sub in
          if bytes_eqb u (lit "REFCOUNT") || bytes_eqb u (lit "IDLETIME") || bytes_eqb u (lit "FREQ") then
            with_key b (fun key => fun w =>
              let stats := first_stats typePrefixes key (w_kv w) in
              with_any key nilBulk (fun _ =>
                mret (VInteger (if EqualFold sub (lit "REFCOUNT") then 1
                                else match stats with
                                     | None => 0
                                     | Some (idle, freq) => if EqualFold sub (lit "IDLETIME") then i64 idle else freq
                                     end))) w)
          else if bytes_eqb u (lit "ENCODING") then
            with_key b (fun key => with_any key nilBulk (fun e =>
              mret (match objectEncodingOf e with
                    | None => errS "ERR OBJECT ENCODING not supported for this type"
                    | Some enc => BulkOf enc
                    end)))
          else mret (errS "ERR syntax error")
      end
  | _ => mret (wrong_args "object")
  end.

(** ** The keyspace *)

Definition type_ (args : list Value) : M S Value :=
  match args with
  | [a] => with_key a (fun key => with_any key (VSimpleString (lit "none")) (fun e => mret (VSimpleString (typeName (Type_ e)))))
  | _ => mret (wrong_args "type")
  end.

Fixpoint exists_loop (args : list Value) (n : Z) : M S Value :=
  match args with
  | [] => mret (VInteger n)
  | a :: rest =>
      match argString a with
      | None => exists_loop rest n
      | Some key =>
          let! r := attempt (getAny key) in
          match r with
          | inr e => if isNotFound e then exists_loop rest n else mret (errValue e)
          | inl _ => exists_loop rest (n + 1)
          end
      end
  end.

Definition exists_ (args : list Value) : M S Value :=
  if len args <? 1 then mret (wrong_args "exists") else exists_loop args 0.

Fixpoint scan_prefixes (ps : list bytes) (seen : list bytes) (out : list (bytes * bytes)) : M S (list (bytes * bytes)) :=
  match ps with
  | [] => mret out
  | p :: rest =>
      let! raw := kvScan p in
      let '(seen, out) := add_names raw seen out in
      scan_prefixes rest seen out
  end.

(** Names with their storage keys. *)
Definition allUserKeys : M S (list (bytes * bytes)) := scan_prefixes typePrefixes [] [].

Definition path_matches (pattern name : bytes) : bool := match path_match pattern name with Some b => b | None => false end.

Definition keys (args : list Value) : M S Value :=
  match args with
  | [a] =>
      match argString a with
      | None => mret (errS "ERR invalid pattern")
      | Some pattern =>
          let! r := attempt allUserKeys in
          match r with
          | inr e => mret (errValue e)
          | inl names => mret (VArray (Some (map BulkOf (List.filter (path_matches pattern) (map fst names)))))
          end
      end
  | _ => mret (wrong_args "keys")
  end.

Definition move (args : list Value) : M S Value :=
  match args with
  | [a; b] => with_key a (fun key => with_int b (fun db =>
      if db <? 0 then mret (errS "ERR DB index is out of range")
      else if db =? 0 then mret (errS "ERR source and destination objects are the same")
      else with_any key (VInteger 0) (fun _ => mret (VInteger 0))))
  | _ => mret (wrong_args "move")
  end.

Definition randomKey (args : list Value) : M S Value :=
  match args with
  | [] =>
      let! r := attempt allUserKeys in
      match r with
      | inr e => mret (errValue e)
      | inl [] => mret nilBulk
      | inl names =>
          match map fst names !! Z.to_nat (intn (len names)) with
          | Some name => mret (BulkOf name)
          | None => mpanic
          end
      end
  | _ => mret (wrong_args "randomkey")
  end.

(** ** The background sweep *)

Fixpoint sweep_loop (t : Z) (raws : list bytes) (n : Z) : M S Z :=
  match raws with
  | [] => mret n
  | k :: rest =>
      let! r := attempt (kvGet k) in
      match r with
      | inr e => if isNotFound e then sweep_loop t rest n else merr e
      | inl v =>
          let! entry := lift (Decode v) in
          if (Expiry entry =? 0) || (t <? Expiry entry) then sweep_loop t rest n
          else
            let! _ := kvDelete k in
            let! _ := IncExpired in
            let! _ := Notify "x" (lit "expired") (userKeyFromRaw k) in
            sweep_loop t rest (n + 1)
      end
  end.

Definition SweepOnce : M S Z :=
  let! names := allUserKeys in
  let! t := now in
  sweep_loop t (map snd names) 0.

(** ** SCAN *)

Record scanOptions : Type := mkScan { sc_pattern : bytes; sc_count : Z; sc_type : bytes }.

Fixpoint scan_options (args : list Value) (o : scanOptions) : scanOptions + Value :=
  match args with
  | [] => inl o
  | a :: rest =>
      match argString a with
      | None => inr (errS "ERR syntax error")
      | Some name =>
          let u := ToUpper name in
          if bytes_eqb u (lit "MATCH") || bytes_eqb u (lit "COUNT") || bytes_eqb u (lit "TYPE") then
            match rest with
            | [] => inr (errS "ERR syntax error")
            | b :: rest' =>
                match argString b with
                | None => inr (errS "ERR syntax error")
                | Some v =>
                    if bytes_eqb u (lit "MATCH") then scan_options rest' (mkScan v (sc_count o) (sc_type o))
                    else if bytes_eqb u (lit "COUNT") then
                      match ParseInt v with
                      | None => inr err_int
                      | Some n => if n <? 0 then inr err_int else scan_options rest' (mkScan (sc_pattern o) n (sc_type o))
                      end
                    else scan_options rest' (mkScan (sc_pattern o) (sc_count o) v)
                end
            end
          else inr (errS "ERR syntax error")
      end
  end.

(** The live keys with their types; what cannot be read is left out. *)
Fixpoint typed_keys (t : Z) (names : list (bytes * bytes)) (out : list (bytes * ascii)) : M S (list (bytes * ascii)) :=
  match names with
  | [] => mret out
  | (name, raw) :: rest =>
      let! r := attempt (kvGet raw) in
      match r with
      | inr _ => typed_keys t rest out
      | inl v =>
          match Decode v with
          | Ok e => if negb (Expiry e =? 0) && (Expiry e <=? t) then typed_keys t rest out
                    else typed_keys t rest (out ++ [(name, Type_ e)])
          | Err _ => typed_keys t rest out
          | Panic => mpanic
          end
      end
  end.

Definition by_name (a b : bytes * ascii) : bool := bytes_ltb a.1 b.1.

Definition scan_matches (o : scanOptions) (kt : bytes * ascii) : bool :=
  (bytes_eqb (sc_type o) [] || EqualFold (typeName kt.2) (sc_type o)) && path_matches (sc_pattern o) kt.1.

(** One page of the sorted matches, and the next cursor. *)
Definition scan_page (matched : list bytes) (cursor count : Z) : result (Z * list bytes) :=
  let cursor := if len matched <? cursor then len matched else cursor in
  let end_ := i64 (cursor + count) in
  let '(end_, next) := if len matched <=? end_ then (len matched, 0) else (end_, end_) in
  if end_ <? cursor then Panic
  else let? page := slice matched cursor end_ in Ok (next, page).

Definition scan (args : list Value) : M S Value :=
  match args with
  | [] => mret (wrong_args "scan")
  | a :: opts =>
      match argString a with
      | None => mret (errS "ERR invalid cursor")
      | Some cs =>
          match ParseInt cs with
          | None => mret err_int
          | Some cursor =>
              if cursor <? 0 then mret err_int
              else match scan_options opts (mkScan (lit "*") 10 []) with
              | inr e => mret e
              | inl o =>
                  let! r := attempt allUserKeys in
                  match r with
                  | inr e => mret (errValue e)
                  | inl names =>
                      let! t := now in
                      let! typed := typed_keys t names [] in
                      let matched := map fst (List.filter (scan_matches o) (isort by_name typed)) in
                      let! (next, page) := lift (scan_page matched cursor (sc_count o)) in
                      mret (VArray (Some [BulkOf (FormatInt next); VArray (Some (map BulkOf page))]))
                  end
              end
          end
      end
  end.

(** ** COPY and RENAME *)

Definition prefixForType (t : ascii) : bytes :=
  if Ascii.eqb t TypeString then lit "s:"
  else if Ascii.eqb t TypeHash then lit "h:"
  else if Ascii.eqb t TypeList then lit "l:"
  else if Ascii.eqb t TypeSet then lit "st:"
  else if Ascii.eqb t TypeZSet then lit "z:"
  else if Ascii.eqb t TypeVector then lit "vs:"
  else [].

Definition deleteByRaw (raw : bytes) (e : Entry) (userKey : bytes) : M S unit :=
  let! _ := ignore (kvDelete raw) in
  if Ascii.eqb (Type_ e) TypeHash then ignore (kvDelete (HashExpKey userKey)) else mret ().

Fixpoint copy_options (args : list Value) (replace : bool) : bool + Value :=
  match args with
  | [] => inl replace
  | a :: rest =>
      match argString a with
      | None => inr (errS "ERR syntax error")
      | Some name =>
          let u := ToUpper name in
          if bytes_eqb u (lit "REPLACE") then copy_options rest true
          else if bytes_eqb u (lit "DB") then
            match rest with
            | [] => inr (errS "ERR syntax error")
            | b :: rest' =>
                match argString b with
                | None => inr (errS "ERR syntax error")
                | Some d => match Atoi d with
                            | Some 0 => copy_options rest' replace
                            | _ => inr (errS "ERR DB index is out of range")
                            end
                end
            end
          else inr (errS "ERR syntax error")
      end
  end.

(** The tail of COPY once the source's bytes are read. *)
Definition copy_write (src dst : bytes) (se : Entry) (val : bytes) : M S Value :=
  commit (kvSet (prefixForType (Type_ se) ++ dst) val)
    (let! r :=
       (if Ascii.eqb (Type_ se) TypeHash then
          let! x := attempt (kvGet (HashExpKey src)) in
          match x with
          | inl expRaw => let! _ := ignore (kvSet (HashExpKey dst) expRaw) in mret None
          | inr e => mret (if isNotFound e then None else Some (errValue e))
          end
        else mret None) in
     match r with
     | Some v => mret v
     | None => let! _ := Notify "g" (lit "copy_to") dst in mret (VInteger 1)
     end).

Definition copy (args : list Value) : M S Value :=
  match args with
  | a :: b :: opts => with_key a (fun src => with_key b (fun dst =>
      match copy_options opts false with
      | inr e => mret e
      | inl replace =>
          if bytes_eqb src dst then mret (errS "ERR source and destination objects are the same")
          else
            let! r := attempt (lookupRaw src) in
            match r with
            | inr e => mret (if isNotFound e then VInteger 0 else errValue e)
            | inl (_, se) =>
                let! d := attempt (lookupRaw dst) in
                let go :=
                  let! v := attempt (kvGet (prefixForType (Type_ se) ++ src)) in
                  match v with
                  | inr e => mret (if isNotFound e then VInteger 0 else errValue e)
                  | inl val =>
                      match prefixForType (Type_ se) with
                      | [] => mret (errS "ERR unknown source type")
                      | _ =>
                          let! d2 := attempt (lookupRaw dst) in
                          match d2 with
                          | inl (_, de) =>
                              let! _ := deleteByRaw (prefixForType (Type_ de) ++ dst) de dst in
                              copy_write src dst se val
                          | inr e => if isNotFound e then copy_write src dst se val else mret (errValue e)
                          end
                      end
                  end in
                match d with
                | inl _ => if negb replace then mret (VInteger 0) else go
                | inr e => if isNotFound e then go else mret (errValue e)
                end
            end
      end))
  | _ => mret (wrong_args "copy")
  end.

(** The tail of RENAME once the destination is cleared. *)
Definition rename_write (src dst srcRaw : bytes) (se : Entry) (nx : bool) : M S Value :=
  let! v := attempt (kvGet srcRaw) in
  match v with
  | inr e => mret (if isNotFound e then errS "ERR no such key" else errValue e)
  | inl val =>
      match prefixForType (Type_ se) with
      | [] => mret (errS "ERR unknown source type")
      | dstPrefix =>
          commit (kvSet (dstPrefix ++ dst) val)
            (let! _ := deleteByRaw srcRaw se src in
             let! r :=
               (if Ascii.eqb (Type_ se) TypeHash then
                  let! x := attempt (kvGet (HashExpKey src)) in
                  match x with
                  | inl expRaw =>
                      let! _ := ignore (kvSet (HashExpKey dst) expRaw) in
                      let! _ := ignore (kvDelete (HashExpKey src)) in
                      mret None
                  | inr e => mret (if isNotFound e then None else Some (errValue e))
                  end
                else mret None) in
             match r with
             | Some v => mret v
             | None =>
                 let! _ := Notify "g" (lit "rename_from") src in
                 let! _ := Notify "g" (lit "rename_to") dst in
                 mret (if nx then VInteger 1 else okReply)
             end)
      end
  end.

Definition rename (args : list Value) (nx : bool) : M S Value :=
  match args with
  | [a; b] => with_key a (fun src => with_key b (fun dst =>
      if bytes_eqb src dst then
        if nx then mret (VInteger 0)
        else
          let! r := attempt (lookupRaw src) in
          mret (match r with
                | inr e => if isNotFound e then errS "ERR no such key" else errValue e
                | inl _ => okReply
                end)
      else
        let! r := attempt (lookupRaw src) in
        match r with
        | inr e => mret (if isNotFound e then errS "ERR no such key" else errValue e)
        | inl (srcRaw, se) =>
            let! d := attempt (lookupRaw dst) in
            match d with
            | inl (draw, de) =>
                if nx then mret (VInteger 0)
                else let! _ := deleteByRaw draw de dst in rename_write src dst srcRaw se nx
            | inr e => if isNotFound e then rename_write src dst srcRaw se nx else mret (errValue e)
            end
        end))
  | _ => mret (wrong_args (if nx then "renamenx" else "rename"))
  end.

Definition renamenx (args : list Value) : M S Value := rename args true.
Definition renamePlain (args : list Value) : M S Value := rename args false.
End handlers.

(** ** Any lawful store *)

Section sim.
Context {S : Type} `{KVLaws S} `{Clock} `{GoUnicode} `{GoRand}.

Lemma sim_with_any key v k l : (forall e, sim (S := S) (k e) (l e)) -> sim (with_any key v k) (with_any key v l).
Proof. intros. unfold with_any. solve_sim. Qed.

Ltac solve_keys :=
  repeat (cbv beta zeta;
    lazymatch goal with
    | |- sim (commit _ _) (commit _ _) => apply sim_commit
    | |- sim (with_any _ _ _) _ => apply sim_with_any; intros
    | |- sim (with_key _ _) _ => unfold with_key
    | |- sim (with_int _ _) _ => unfold with_int
    | |- _ => sim_step
    end).

Lemma sim_expire_at k n : sim (S := S) (expire_at k n) (expire_at k n).
Proof. unfold expire_at. solve_keys. Qed.
Lemma sim_exists_loop args n : sim (S := S) (exists_loop args n) (exists_loop args n).
Proof. revert n; induction args as [|a args IH]; intros n; cbn [exists_loop]; solve_keys. Qed.
Lemma sim_scan_prefixes ps seen out : sim (S := S) (scan_prefixes ps seen out) (scan_prefixes ps seen out).
Proof. revert seen out; induction ps as [|p ps IH]; intros seen out; cbn [scan_prefixes]; solve_keys. Qed.
Hint Resolve sim_expire_at sim_exists_loop sim_scan_prefixes : sim.
Lemma sim_allUserKeys : sim (S := S) allUserKeys allUserKeys.
Proof. apply sim_scan_prefixes. Qed.
Lemma sim_sweep_loop t raws n : sim (S := S) (sweep_loop t raws n) (sweep_loop t raws n).
Proof. revert n; induction raws as [|k raws IH]; intros n; cbn [sweep_loop]; solve_keys. Qed.
Lemma sim_typed_keys t names out : sim (S := S) (typed_keys t names out) (typed_keys t names out).
Proof. revert out; induction names as [|[nm raw] names IH]; intros out; cbn [typed_keys]; solve_keys. Qed.
Hint Resolve sim_allUserKeys sim_sweep_loop sim_typed_keys : sim.
Lemma sim_deleteByRaw raw e k : sim (S := S) (deleteByRaw raw e k) (deleteByRaw raw e k).
Proof. unfold deleteByRaw. solve_keys. Qed.
Hint Resolve sim_deleteByRaw : sim.
Lemma sim_copy_write a b e v : sim (S := S) (copy_write a b e v) (copy_write a b e v).
Proof. unfold copy_write. solve_keys. Qed.
Lemma sim_rename_write a b r e nx : sim (S := S) (rename_write a b r e nx) (rename_write a b r e nx).
Proof. unfold rename_write. solve_keys. Qed.
Hint Resolve sim_copy_write sim_rename_write : sim.

Lemma key_handlers_simulate args k ms nx :
  Forall (fun h => sim (S := S) h.1 h.2)
    [(expire args k, expire args k); (persist args, persist args); (pttl args, pttl args);
     (expireTime args ms, expireTime args ms); (type_ args, type_ args); (exists_ args, exists_ args);
     (keys args, keys args); (move args, move args); (randomKey args, randomKey args); (scan args, scan args);
     (copy args, copy args); (rename args nx, rename args nx)] /\
  sim (S := S) SweepOnce SweepOnce.
Proof.
  split; [|unfold SweepOnce; solve_keys].
  repeat apply Forall_cons_2; [..|apply Forall_nil_2]; cbn [fst snd];
    unfold expire, persist, pttl, expireTime, type_, exists_, keys, move, randomKey, scan, copy, rename; solve_keys.
Qed.
End sim.

End keycmd.
