(* ===== verification/CmdKeysSpec.v ===== *)
(** * What the key commands do

    Expiry round trips, the exact effect of the background sweep, complete
    iteration by SCAN, and RENAME. *)

From S2P Require Import Prelude GoLib GoStrings GoPath Resp Codec Kv Cmd CmdString CmdKeys.
Open Scope Z_scope.
Open Scope gedis_scope.

Module keyspec.
Import datastruct keycmd.

Section spec.
Context `{Clock} `{GoUnicode} `{GoRand}.
Notation W := (world (gmap bytes bytes)).
Implicit Types (key raw payload : bytes) (w : W) (m : gmap bytes bytes).

(** ** Expiry *)

(** Not expired at any of the readings up to number [t]. *)
Definition alive (exp : Z) (t : nat) : Prop := exp = 0 \/ forall i, (i <= t)%nat -> clock_ns i < exp.

(** The key is stored under [raw] with this entry, and will not expire before
    reading number [t]. *)
Definition stored (key raw : bytes) (e : Entry) (t : nat) (w : W) : Prop :=
  first_hit typePrefixes key (w_kv w) = Some (raw, Encode (Type_ e) (Expiry e) (Payload e)) /\
  is_i64 (Expiry e) /\ alive (Expiry e) t.

Definition after_read (exp : Z) (w : W) : W := if exp =? 0 then w else ticked w.

Lemma find_stored key raw e t w :
  stored key raw e t w -> (w_tick w <= t)%nat -> find_key key w = (Ok (raw, e), after_read (Expiry e) w).
Proof.
  intros (Hf & Hi & Ha) Ht. unfold find_key, after_read. rewrite Hf, Decode_Encode_entry by done. cbn [Expiry].
  destruct e as [ty exp pl]. cbn [Expiry Type_ Payload] in *. destruct (exp =? 0) eqn:E; [done|]. breflect.
  destruct Ha as [?|Ha]; [done|]. specialize (Ha (w_tick w) Ht). zdec. done.
Qed.

Lemma getAny_stored key raw e t w :
  stored key raw e t w -> (w_tick w <= t)%nat -> getAny key w = (Ok e, after_read (Expiry e) w).
Proof. intros. rewrite getAny_map, (find_stored key raw e t) by done. done. Qed.

Lemma with_any_stored key raw e t w v k :
  stored key raw e t w -> (w_tick w <= t)%nat -> with_any key v k w = k e (after_read (Expiry e) w).
Proof. intros Hs Ht. unfold with_any, mbind, attempt. by rewrite (getAny_stored key raw e t). Qed.

Lemma after_read_kv exp w : w_kv (after_read exp w) = w_kv w.
Proof. unfold after_read. by destruct (exp =? 0). Qed.
Lemma after_read_tick exp w : (w_tick w <= w_tick (after_read exp w) <= w_tick w + 1)%nat.
Proof. unfold after_read. destruct (exp =? 0); cbn; lia. Qed.

Lemma stored_kv key raw e t w w' : stored key raw e t w -> w_kv w' = w_kv w -> stored key raw e t w'.
Proof. unfold stored. by intros ? ->. Qed.

Lemma first_hit_update ps key raw v v' m :
  first_hit ps key m = Some (raw, v) -> first_hit ps key (<[raw := v']> m) = Some (raw, v').
Proof.
  induction ps as [|p ps IH]; cbn; [done|]. destruct (m !! (p ++ key)) as [x|] eqn:E.
  - intros [= <- <-]. by rewrite lookup_insert_eq.
  - intros Hf. destruct (decide (raw = p ++ key)) as [->|Hne]; [by rewrite lookup_insert_eq|].
    rewrite lookup_insert_ne by done. rewrite E. auto.
Qed.

(** Replacing the entry where it is stored. *)
Lemma stored_update key raw e e' t t' w w' :
  stored key raw e t w -> w_kv w' = <[raw := Encode (Type_ e') (Expiry e') (Payload e')]> (w_kv w) ->
  is_i64 (Expiry e') -> alive (Expiry e') t' -> stored key raw e' t' w'.
Proof. intros (Hf & _ & _) E Hi Ha. split; [|done]. rewrite E. by eapply first_hit_update. Qed.

Definition key_args (key : bytes) (n : Z) : list Value := [BulkOf key; BulkOf (FormatInt n)].

Lemma with_int_fmt (n : Z) (k : Z -> M (gmap bytes bytes) Value) : is_i64 n -> with_int (BulkOf (FormatInt n)) k = k n.
Proof. intros Hn. unfold with_int. cbn [BulkOf argString]. change (default [] (Some ?x)) with x. by rewrite ParseInt_FormatInt. Qed.

(** EXPIRE and its variants without a condition, on a live key. *)
Lemma expire_stored key raw e t w kind n exp w0 :
  is_i64 n -> expire_at kind n w = (Ok exp, w0) -> w_kv w0 = w_kv w -> (w_tick w <= w_tick w0)%nat -> (w_tick w0 + 2 <= t)%nat ->
  stored key raw e t w ->
  let w1 := after_read (Expiry e) (after_read (Expiry e) w0) in
  clock_ns (w_tick w1) < exp ->
  exists w', expire (key_args key n) kind w = (Ok (VInteger 1), w') /\
    w_kv w' = <[raw := Encode (Type_ e) exp (Payload e)]> (w_kv w) /\ w_tick w' = S (w_tick w1).
Proof.
  intros Hn Hx Hk Ht1 Ht2 Hs w1 Hc. unfold expire, key_args. change (len _ <? 2) with false. change (3 <? len _) with false.
  cbn [orb]. change (with_key (BulkOf key) ?k) with (k key). cbv beta. rewrite with_int_fmt by done. cbn [parse_cond].
  unfold mbind at 1. rewrite Hx. cbv beta iota. unfold mbind at 1, attempt at 1.
  assert (stored key raw e t w0) as Hs0 by (by eapply stored_kv).
  rewrite (getAny_stored key raw e t) by (done || lia). cbv beta iota. unfold mbind at 1, attempt at 1. rewrite lookupRaw_map.
  pose proof (after_read_tick (Expiry e) w0). rewrite (find_stored key raw e t) by (lia || (eapply stored_kv; [done|apply after_read_kv])).
  cbv beta iota. fold w1. unfold mbind at 1, now. cbn [w_kv w_tick]. zdec. cbn [cond_refuses].
  eexists. split; [reflexivity|]. cbn [w_kv w_tick]. split; [|done]. unfold w1. by rewrite !after_read_kv, Hk.
Qed.

(** An absolute expiry is stored exactly: after PEXPIREAT with a future
    time on a live key, of any type and with or without an earlier expiry, the
    entry keeps its type and bytes, no other key changes, PEXPIRETIME answers
    the time given, and PERSIST leaves the key as it was but without an
    expiry. *)
Theorem pexpireat_exact key raw e t w n :
  is_i64 n -> is_i64 (n * Millisecond) -> 0 < n -> stored key raw e t w -> (w_tick w + 8 <= t)%nat ->
  (forall i, (i <= t)%nat -> clock_ns i < n * Millisecond) ->
  exists w', expire (key_args key n) expireAbsoluteMs w = (Ok (VInteger 1), w') /\
    w_kv w' = <[raw := Encode (Type_ e) (n * Millisecond) (Payload e)]> (w_kv w) /\
    (expireTime [BulkOf key] true w').1 = Ok (VInteger n) /\
    (persist [BulkOf key] w').1 = Ok (VInteger 1) /\
    w_kv (persist [BulkOf key] w').2 = <[raw := Encode (Type_ e) 0 (Payload e)]> (w_kv w).
Proof.
  intros Hn Hn' Hpos Hs Ht Hc. unfold Millisecond in *.
  pose proof (after_read_tick (Expiry e) w) as T1. pose proof (after_read_tick (Expiry e) (after_read (Expiry e) w)) as T2.
  destruct (expire_stored key raw e t w expireAbsoluteMs n (n * 1000000) w) as (w' & E & Ek & Et); try done; try lia.
  { cbn [expire_at]. unfold unix_ms, Millisecond. by rewrite i64_id. }
  { apply Hc. lia. }
  exists w'. split; [exact E|]. split; [exact Ek|].
  assert (stored key raw (mkEntry (Type_ e) (n * 1000000) (Payload e)) t w') as Hs'.
  { eapply stored_update; [exact Hs|exact Ek|done|]. right. exact Hc. }
  split.
  - unfold expireTime. change (with_key (BulkOf key) ?k) with (k key). cbv beta.
    rewrite (with_any_stored key raw _ t) by (exact Hs' || lia). cbn [Expiry mret fst]. zdec. unfold Millisecond. by rewrite Z.quot_mul by lia.
  - unfold persist. change (with_key (BulkOf key) ?k) with (k key). cbv beta.
    rewrite (with_any_stored key raw _ t) by (exact Hs' || lia). cbn [Expiry Type_ Payload]. zdec.
    set (w2 := after_read (n * 1000000) w'). pose proof (after_read_tick (n * 1000000) w').
    assert (w_kv w2 = w_kv w') as K2 by apply after_read_kv.
    unfold mbind at 1 3, attempt at 1 2. rewrite lookupRaw_map.
    rewrite (find_stored key raw (mkEntry (Type_ e) (n * 1000000) (Payload e)) t) by (unfold w2; (lia || (by eapply stored_kv))).
    cbn [fst snd]. split; [done|]. cbn [w_kv]. cbn. rewrite after_read_kv, K2, Ek. apply insert_insert_eq.
Qed.

(** ** The keyspace as names *)

Lemma strip_prefixed p name : p ∈ typePrefixes -> stripTypePrefix (p ++ name) = Some name.
Proof.
  unfold typePrefixes. cbn [map]. rewrite !elem_of_cons, elem_of_nil. intros Hp. destruct_or! Hp; subst; by destruct name.
Qed.

Lemma userKey_prefixed p name : p ∈ typePrefixes -> userKeyFromRaw (p ++ name) = name.
Proof.
  unfold typePrefixes. cbn [map]. rewrite !elem_of_cons, elem_of_nil. intros Hp. destruct_or! Hp; subst; by destruct name.
Qed.

Lemma prefix_inj p q a b : p ∈ typePrefixes -> q ∈ typePrefixes -> p ++ a = q ++ b -> p = q /\ a = b.
Proof.
  intros Hp Hq E. pose proof (strip_prefixed p a Hp) as E1. rewrite E, strip_prefixed in E1 by done. injection E1 as ->.
  by apply app_inv_tail in E.
Qed.

(** Every name is stored under one type prefix. *)
Definition single (m : gmap bytes bytes) : Prop := forall p q name,
  p ∈ typePrefixes -> q ∈ typePrefixes -> is_Some (m !! (p ++ name)) -> is_Some (m !! (q ++ name)) -> p = q.

(** The storage keys of one type, with their names. *)
Definition named (p : bytes) (m : gmap bytes bytes) : list (bytes * bytes) :=
  map (fun k => (drop (length p) k, k)) (keys_with p m).

Lemma elem_of_keys_with p k m : k ∈ keys_with p m <-> is_Some (m !! k) /\ exists name, k = p ++ name.
Proof.
  unfold keys_with. rewrite sortStrings_perm, list_elem_of_In, filter_In, in_map_iff. split.
  - intros [([k' v] & <- & Hin) Hp]. apply HasPrefix_spec in Hp as [r Hr]. cbn [fst] in *. split; [|by exists r].
    exists v. by apply elem_of_map_to_list, list_elem_of_In.
  - intros [[v Hv] [name ->]]. split; [|apply HasPrefix_app]. exists (p ++ name, v). split; [done|].
    by apply list_elem_of_In, elem_of_map_to_list.
Qed.

Lemma add_names_fresh p m seen out ks :
  p ∈ typePrefixes -> (forall k, k ∈ ks -> exists name, k = p ++ name /\ name ∉ seen) -> NoDup ks ->
  exists seen', add_names ks seen out = (seen', out ++ map (fun k => (drop (length p) k, k)) ks) /\
    forall name, name ∈ seen' <-> name ∈ seen \/ p ++ name ∈ ks.
Proof.
  intros Hp. revert seen out; induction ks as [|k ks IH]; intros seen out Hk Hd; cbn [add_names map].
  { exists seen. rewrite app_nil_r. split; [done|]. intros name. rewrite elem_of_nil. tauto. }
  apply NoDup_cons in Hd as [Hnk Hd]. destruct (Hk k) as (name & -> & Hn); [by left|].
  rewrite strip_prefixed by done. rewrite bool_decide_eq_false_2 by done.
  destruct (IH (name :: seen) (out ++ [(name, p ++ name)])) as (seen' & E & Hs); [|done|].
  - intros k Hin. destruct (Hk k) as (nm & -> & Hnm); [by right|]. exists nm. split; [done|].
    rewrite not_elem_of_cons. split; [|done]. intros ->. done.
  - exists seen'. rewrite E, <- app_assoc, drop_app_length. split; [done|]. intros nm. rewrite Hs, !elem_of_cons.
    split; [intros [[->|?]|?]; auto | intros [?|[Hx|?]]; auto]. apply app_inv_head in Hx as ->. auto.
Qed.

Lemma keys_with_NoDup p m : NoDup (keys_with p m).
Proof.
  unfold keys_with. rewrite sortStrings_perm. apply NoDup_ListNoDup, List.NoDup_filter, NoDup_ListNoDup.
  change (map fst (map_to_list m)) with ((map_to_list m).*1). apply NoDup_fst_map_to_list.
Qed.

Lemma scan_prefixes_single ps seen out w :
  single (w_kv w) -> Forall (fun p => p ∈ typePrefixes) ps -> NoDup ps ->
  (forall p name, p ∈ ps -> is_Some (w_kv w !! (p ++ name)) -> name ∉ seen) ->
  scan_prefixes ps seen out w = (Ok (out ++ concat (map (fun p => named p (w_kv w)) ps)), w).
Proof.
  intros Hs Hps. revert seen out; induction Hps as [|p ps Hp Hall IH]; intros seen out Hd Hn; cbn [scan_prefixes].
  { cbn. by rewrite app_nil_r. }
  apply NoDup_cons in Hd as [Hnp Hd]. unfold mbind, kvScan, on_kv. cbn [kv_scan map_kv].
  destruct (add_names_fresh p (w_kv w) seen out (keys_with p (w_kv w))) as (seen' & E & Hseen); [done| |apply keys_with_NoDup|].
  { intros k [Hk [name ->]]%elem_of_keys_with. exists name. split; [done|]. apply (Hn p); [by left|done]. }
  rewrite E. destruct w as [m tk ev ex]. cbn [w_kv w_tick w_events w_expired] in *. rewrite IH; [|done|].
  - cbn [map concat]. by rewrite <- app_assoc.
  - intros q name Hq Hin [Hx|Hx%elem_of_keys_with]%Hseen.
    + revert Hx. apply (Hn q); [by right|done].
    + destruct Hx as [Hx _]. assert (p = q) as ->; [|done]. eapply Hs; [done| |exact Hx|exact Hin].
      rewrite Forall_forall in Hall. by apply Hall.
Qed.

Lemma allUserKeys_single w :
  single (w_kv w) -> allUserKeys w = (Ok (concat (map (fun p => named p (w_kv w)) typePrefixes)), w).
Proof.
  intros Hs. unfold allUserKeys. rewrite scan_prefixes_single; [done|done| | |].
  - by apply Forall_forall.
  - apply NoDup_ListNoDup. unfold typePrefixes. cbn [map]. repeat (constructor; [cbn; intuition discriminate|]). constructor.
  - intros p name _ _. apply not_elem_of_nil.
Qed.

(** The storage keys of the typed entries. *)
Definition typed_raws (m : gmap bytes bytes) : list bytes := concat (map (fun p => keys_with p m) typePrefixes).

Definition typed (k : bytes) : Prop := exists p name, p ∈ typePrefixes /\ k = p ++ name.

Lemma named_raws m : map snd (concat (map (fun p => named p m) typePrefixes)) = typed_raws m.
Proof.
  unfold typed_raws, named. rewrite concat_map, map_map. f_equal. apply map_ext; intros p.
  rewrite map_map. apply map_id.
Qed.

Lemma elem_of_typed_raws m k : k ∈ typed_raws m <-> is_Some (m !! k) /\ typed k.
Proof.
  unfold typed_raws, typed. rewrite list_elem_of_In, in_concat. split.
  - intros (ks & Hks & Hk). apply in_map_iff in Hks as (p & <- & Hp). apply list_elem_of_In in Hk, Hp.
    apply elem_of_keys_with in Hk as [Hs [name ->]]. split; [done|]. by exists p, name.
  - intros [Hs (p & name & Hp & ->)]. exists (keys_with p m). split; [apply in_map_iff; exists p; by rewrite <- list_elem_of_In|].
    apply list_elem_of_In, elem_of_keys_with. split; [done|by exists name].
Qed.

Lemma typed_raws_NoDup m : NoDup (typed_raws m).
Proof.
  unfold typed_raws.
  assert (NoDup typePrefixes /\ forall p, p ∈ typePrefixes -> p ∈ typePrefixes) as [Hd Hall].
  { split; [|done]. apply NoDup_ListNoDup. unfold typePrefixes. cbn [map]. repeat (constructor; [cbn; intuition discriminate|]). constructor. }
  revert Hd Hall. generalize typePrefixes at 1 2 4 as ps. induction ps as [|p ps IH]; intros Hd Hall; cbn [map concat]; [constructor|].
  apply NoDup_cons in Hd as [Hp Hd]. apply NoDup_app. split; [apply keys_with_NoDup|]. split.
  - intros k Hk Hin. apply elem_of_keys_with in Hk as [_ [name ->]].
    apply list_elem_of_In, in_concat in Hin as (ks & Hks & Hin). apply in_map_iff in Hks as (q & <- & Hq).
    apply list_elem_of_In in Hq, Hin. apply elem_of_keys_with in Hin as [_ [nm E]].
    apply prefix_inj in E as [-> _]; [done|apply Hall; by left|apply Hall; by right].
  - apply IH; [done|]. intros q Hq. apply Hall. by right.
Qed.

(** ** The sweep *)

(** The entry under [k] has an expiry that has been reached at [t]. *)
Definition dead (t : Z) (m : gmap bytes bytes) (k : bytes) : bool :=
  match m !! k with
  | Some v => match Decode v with Ok e => negb (Expiry e =? 0) && (Expiry e <=? t) | _ => false end
  | None => false
  end.

Lemma dead_guard (e t : Z) : (e =? 0) || (t <? e) = negb (negb (e =? 0) && (e <=? t)).
Proof. rewrite negb_andb, negb_involutive. f_equal. by rewrite Z.ltb_antisym. Qed.

Lemma sweep_loop_spec m t raws n w :
  NoDup raws -> (forall k, k ∈ raws -> w_kv w !! k = m !! k /\ exists v e, m !! k = Some v /\ Decode v = Ok e) ->
  exists w', sweep_loop t raws n w = (Ok (n + len (List.filter (dead t m) raws)), w') /\
    (forall k, w_kv w' !! k = if bool_decide (k ∈ raws) && dead t m k then None else w_kv w !! k) /\
    w_expired w' = w_expired w + len (List.filter (dead t m) raws) /\
    w_events w' = w_events w ++ map (fun k => mkEvent "x" (lit "expired") (userKeyFromRaw k)) (List.filter (dead t m) raws).
Proof.
  revert n w; induction raws as [|k raws IH]; intros n w Hd Hw; cbn [sweep_loop List.filter].
  { exists w. rewrite len_nil, !Z.add_0_r, app_nil_r. done. }
  apply NoDup_cons in Hd as [Hk Hd]. destruct (Hw k) as [E1 (v & e & Hv & He)]; [by left|].
  unfold mbind at 1, attempt, kvGet, on_kv. cbn [kv_get map_kv]. rewrite E1, Hv. unfold mbind at 1, lift. rewrite He.
  assert (dead t m k = negb (Expiry e =? 0) && (Expiry e <=? t)) as Ed by (unfold dead; by rewrite Hv, He).
  rewrite dead_guard, <- Ed. destruct w as [m' tk ev ex]. cbn [w_kv w_tick w_events w_expired] in *.
  destruct (dead t m k) eqn:Dk; cbn [negb].
  - edestruct (IH (n + 1) (mkWorld (delete k m') tk (ev ++ [mkEvent "x" (lit "expired") (userKeyFromRaw k)]) (ex + 1)))
      as (w' & E & Hm & Hx & Hev); [done| |].
    { intros j Hj. cbn [w_kv]. rewrite lookup_delete_ne by (intros ->; done). apply Hw. by right. }
    exists w'. cbn [w_kv w_events w_expired] in *.
    assert (len (k :: List.filter (dead t m) raws) = 1 + len (List.filter (dead t m) raws)) as L by apply len_cons.
    split; [etransitivity; [exact E|]; do 2 f_equal; lia|]. split; [|split; [rewrite Hx, L; lia|rewrite Hev, <- app_assoc; done]].
    intros j. rewrite Hm. destruct (decide (j = k)) as [->|Hne].
    + rewrite (bool_decide_eq_true_2 (k ∈ k :: raws)) by (by left). rewrite Dk, bool_decide_eq_false_2 by done. apply lookup_delete_eq.
    + rewrite lookup_delete_ne by done. by rewrite (bool_decide_ext (j ∈ raws) (j ∈ k :: raws)) by (rewrite elem_of_cons; naive_solver).
  - edestruct (IH n (mkWorld m' tk ev ex)) as (w' & E & Hm & Hx & Hev); [done| |].
    { intros j Hj. apply Hw. by right. }
    exists w'. split; [exact E|]. split; [|done]. intros j. rewrite Hm. cbn [w_kv]. destruct (decide (j = k)) as [->|Hne].
    + by rewrite Dk, !andb_false_r.
    + by rewrite (bool_decide_ext (j ∈ raws) (j ∈ k :: raws)) by (rewrite elem_of_cons; naive_solver).
Qed.

(** The background sweep is exact: on a keyspace where every name has
    one type and every entry decodes, one pass removes precisely the typed
    entries whose expiry has been reached at the time of the pass, keeps every
    other key as it is, and reports, counts and announces as many expired keys
    as it removed. *)
Theorem sweep_exact w :
  single (w_kv w) -> (forall k v, w_kv w !! k = Some v -> typed k -> exists e, Decode v = Ok e) ->
  let t := clock_ns (w_tick w) in
  exists n w', SweepOnce w = (Ok n, w') /\
    (forall k, w_kv w' !! k = w_kv w !! k \/ (w_kv w' !! k = None /\ typed k /\ dead t (w_kv w) k = true)) /\
    (forall k, typed k -> dead t (w_kv w') k = false) /\
    w_expired w' = w_expired w + n /\ len (w_events w') = len (w_events w) + n /\
    n = len (List.filter (dead t (w_kv w)) (typed_raws (w_kv w))).
Proof.
  intros Hs Hdec t. unfold SweepOnce, mbind. rewrite allUserKeys_single by done. unfold now. cbn [fst snd]. rewrite named_raws.
  destruct (sweep_loop_spec (w_kv w) t (typed_raws (w_kv w)) 0 (mkWorld (w_kv w) (S (w_tick w)) (w_events w) (w_expired w)))
    as (w' & E & Hm & Hx & Hev); [apply typed_raws_NoDup| |].
  { intros k [[v Hv] Ht]%elem_of_typed_raws. cbn [w_kv]. split; [done|]. destruct (Hdec k v Hv Ht) as [e He]. eauto. }
  eexists _, w'. split; [exact E|]. cbn [w_kv w_events w_expired] in *. rewrite Z.add_0_l.
  split_and!; try done.
  - intros k. rewrite Hm. destruct (bool_decide (k ∈ typed_raws (w_kv w))) eqn:B; [|by left]. breflect.
    apply elem_of_typed_raws in B as [_ Ht]. destruct (dead t (w_kv w) k); [by right|by left].
  - intros k Ht. unfold dead at 1. rewrite Hm. destruct (w_kv w !! k) as [v|] eqn:Hv.
    + rewrite bool_decide_eq_true_2 by (apply elem_of_typed_raws; split; [by rewrite Hv|done]). cbn [andb].
      destruct (dead t (w_kv w) k) eqn:D; [done|]. unfold dead in D. rewrite Hv in D. exact D.
    + by destruct (_ && _).
  - rewrite Hev, len_app. unfold len. by rewrite length_map.
Qed.

(** ** SCAN *)

(** Every typed entry decodes and has no expiry. *)
Definition persistent (m : gmap bytes bytes) : Prop := forall k v,
  m !! k = Some v -> typed k -> exists e, Decode v = Ok e /\ Expiry e = 0.

Definition type_at (m : gmap bytes bytes) (raw : bytes) : option ascii :=
  match m !! raw with Some v => match Decode v with Ok e => Some (Type_ e) | _ => None end | None => None end.

Definition with_types (m : gmap bytes bytes) (names : list (bytes * bytes)) : list (bytes * ascii) :=
  omap (fun nr => t ← type_at m nr.2; Some (nr.1, t)) names.

Lemma typed_keys_persistent t names out w :
  persistent (w_kv w) -> Forall (fun nr => typed nr.2 /\ is_Some (w_kv w !! nr.2)) names ->
  typed_keys t names out w = (Ok (out ++ with_types (w_kv w) names), w).
Proof.
  intros Hp Hn. revert out; induction Hn as [|[name raw] names [Ht [v Hv]] _ IH]; intros out; cbn [typed_keys].
  { unfold with_types. cbn. by rewrite app_nil_r. }
  destruct (Hp raw v Hv Ht) as (e & He & Hz). cbn [snd] in *.
  unfold mbind at 1, attempt, kvGet, on_kv. cbn [kv_get map_kv]. rewrite Hv, He, Hz. cbn [Z.eqb negb andb].
  destruct w as [m tk ev ex]. cbn [w_kv w_tick w_events w_expired] in *. rewrite IH, <- app_assoc. do 2 f_equal.
  unfold with_types. cbn [omap list_omap fst snd]. unfold type_at at 2. rewrite Hv, He. done.
Qed.

(** What SCAN enumerates. *)
Definition scan_set (m : gmap bytes bytes) (o : scanOptions) : list bytes :=
  map fst (List.filter (scan_matches o) (isort by_name (with_types m (concat (map (fun p => named p m) typePrefixes))))).

Lemma named_typed m : Forall (fun nr => typed nr.2 /\ is_Some (m !! nr.2)) (concat (map (fun p => named p m) typePrefixes)).
Proof.
  apply Forall_forall. intros [name raw] Hin. assert (raw ∈ typed_raws m) as Hr.
  { rewrite <- named_raws. apply list_elem_of_In, in_map_iff. exists (name, raw). by rewrite <- list_elem_of_In. }
  apply elem_of_typed_raws in Hr as [? ?]. done.
Qed.

Definition page_reply (next : Z) (page : list bytes) : Value :=
  VArray (Some [BulkOf (FormatInt next); VArray (Some (map BulkOf page))]).

Lemma scan_reply cursor opts o w :
  is_i64 cursor -> 0 <= cursor -> scan_options opts (mkScan (lit "*") 10 []) = inl o -> single (w_kv w) -> persistent (w_kv w) ->
  scan (BulkOf (FormatInt cursor) :: opts) w =
  match scan_page (scan_set (w_kv w) o) cursor (sc_count o) with
  | Ok (next, page) => (Ok (page_reply next page), ticked w)
  | Err e => (Err e, ticked w)
  | Panic => (Panic, ticked w)
  end.
Proof.
  intros Hi Hc Ho Hs Hp. unfold scan. cbn [BulkOf argString]. change (default [] (Some ?x)) with x.
  rewrite ParseInt_FormatInt by done. zdec. rewrite Ho. unfold mbind at 1, attempt. rewrite allUserKeys_single by done.
  unfold mbind at 1, now. unfold mbind at 1. rewrite typed_keys_persistent; [|done|apply named_typed].
  cbn [app w_kv]. unfold mbind, lift. fold (scan_set (w_kv w) o).
  destruct (scan_page _ _ _) as [[next page]| |]; done.
Qed.

(** A client's iteration: it goes on from the cursor it was given. *)
Fixpoint scan_all (fuel : nat) (opts : list Value) (cursor : Z) (w : W) : option (list Value * W) :=
  match fuel with
  | O => None
  | S fuel =>
      match scan (BulkOf (FormatInt cursor) :: opts) w with
      | (Ok (VArray (Some [VBulkString (Some c); VArray (Some page)])), w') =>
          match ParseInt c with
          | None => None
          | Some next =>
              if next =? 0 then Some (page, w')
              else match scan_all fuel opts next w' with
                   | None => None
                   | Some (rest, w'') => Some (page ++ rest, w'')
                   end
          end
      | _ => None
      end
  end.

Lemma scan_page_next l cursor count :
  0 <= cursor < len l \/ cursor = 0 -> 0 < count -> cursor + count < 2 ^ 63 ->
  scan_page l cursor count =
  Ok (if len l <=? cursor + count then (0, drop (Z.to_nat cursor) l)
      else (cursor + count, take (Z.to_nat count) (drop (Z.to_nat cursor) l))).
Proof.
  intros Hc Hn Hb. unfold scan_page. pose proof (len_nonneg l). rewrite i64_id by (unfold is_i64; destruct (len l <? cursor) eqn:?; breflect; lia).
  rewrite (proj2 (Z.ltb_ge (len l) cursor)) by lia. destruct (len l <=? cursor + count) eqn:E; breflect.
  - zdec. by rewrite slice_suffix by lia.
  - zdec. rewrite slice_ok by lia. cbn [res_bind]. by replace (cursor + count - cursor) with count by lia.
Qed.

Lemma scan_all_from opts o fuel cursor w :
  scan_options opts (mkScan (lit "*") 10 []) = inl o -> single (w_kv w) -> persistent (w_kv w) ->
  let l := scan_set (w_kv w) o in
  0 < sc_count o -> len l + sc_count o < 2 ^ 63 -> 0 <= cursor < len l \/ cursor = 0 ->
  (Z.to_nat (len l - cursor) < fuel)%nat ->
  exists w', scan_all fuel opts cursor w = Some (map BulkOf (drop (Z.to_nat cursor) l), w') /\ w_kv w' = w_kv w.
Proof.
  intros Ho Hs Hp l Hn Hb. pose proof (len_nonneg l) as Hl.
  enough (forall w0, w_kv w0 = w_kv w -> 0 <= cursor < len l \/ cursor = 0 -> (Z.to_nat (len l - cursor) < fuel)%nat ->
    exists w', scan_all fuel opts cursor w0 = Some (map BulkOf (drop (Z.to_nat cursor) l), w') /\ w_kv w' = w_kv w) as G
    by (intros; by apply G).
  revert cursor. induction fuel as [|fuel IH]; intros cursor w0 Ew Hc Hf; [lia|]. cbn [scan_all].
  rewrite (scan_reply cursor opts o) by (rewrite ?Ew; (done || unfold is_i64; lia)). rewrite Ew. fold l.
  rewrite scan_page_next by lia. destruct (len l <=? cursor + sc_count o) eqn:E; breflect.
  - unfold page_reply. cbn [BulkOf]. rewrite ParseInt_FormatInt by (unfold is_i64; lia). cbn [Z.eqb]. by exists (ticked w0).
  - unfold page_reply. cbn [BulkOf]. rewrite ParseInt_FormatInt by (unfold is_i64; lia). zdec.
    destruct (IH (cursor + sc_count o) (ticked w0)) as (w' & -> & Ew'); [done|lia|lia|].
    exists w'. split; [|done]. do 2 f_equal. rewrite <- map_app. f_equal.
    rewrite <- (take_drop (Z.to_nat (sc_count o)) (drop (Z.to_nat cursor) l)) at 2. f_equal. rewrite drop_drop. f_equal. lia.
Qed.

Lemma named_elem m name raw :
  (name, raw) ∈ concat (map (fun p => named p m) typePrefixes) <->
  exists p, p ∈ typePrefixes /\ raw = p ++ name /\ is_Some (m !! raw).
Proof.
  rewrite list_elem_of_In, in_concat. split.
  - intros (l & Hl & Hin). apply in_map_iff in Hl as (p & <- & Hp). apply list_elem_of_In in Hp.
    unfold named in Hin. apply in_map_iff in Hin as (k & [= <- <-] & Hk). apply list_elem_of_In, elem_of_keys_with in Hk as [Hs [nm ->]].
    exists p. by rewrite drop_app_length.
  - intros (p & Hp & -> & Hs). exists (named p m). split; [apply in_map_iff; exists p; by rewrite <- list_elem_of_In|].
    unfold named. apply in_map_iff. exists (p ++ name). rewrite drop_app_length. split; [done|].
    apply list_elem_of_In, elem_of_keys_with. split; [done|by exists name].
Qed.

Lemma with_types_elem m l name t :
  (name, t) ∈ with_types m l <-> exists raw, (name, raw) ∈ l /\ type_at m raw = Some t.
Proof.
  unfold with_types. rewrite list_elem_of_omap. split.
  - intros ([nm raw] & Hin & E). cbn [fst snd] in E. destruct (type_at m raw) as [t'|] eqn:Et; [|done]. cbn in E. simplify_eq. eauto.
  - intros (raw & Hin & Et). exists (name, raw). split; [done|]. cbn [fst snd]. by rewrite Et.
Qed.

(** Membership: the names with an entry of a type and a name that match. *)
Lemma scan_set_elem m o name :
  name ∈ scan_set m o <->
  exists p t, p ∈ typePrefixes /\ type_at m (p ++ name) = Some t /\ scan_matches o (name, t) = true.
Proof.
  unfold scan_set. rewrite list_elem_of_In, in_map_iff. split.
  - intros ([nm t] & <- & Hin). apply filter_In in Hin as [Hin Hm]. apply list_elem_of_In in Hin. rewrite isort_perm in Hin.
    apply with_types_elem in Hin as (raw & Hin & Ht). apply named_elem in Hin as (p & Hp & -> & _). cbn [fst]. eauto.
  - intros (p & t & Hp & Ht & Hm). exists (name, t). split; [done|]. apply filter_In. split; [|done].
    apply list_elem_of_In. rewrite isort_perm. apply with_types_elem. exists (p ++ name). split; [|done].
    apply named_elem. exists p. split; [done|]. split; [done|]. unfold type_at in Ht. destruct (m !! (p ++ name)); [eauto|done].
Qed.

Lemma with_types_names m l : NoDup (map fst l) -> NoDup (map fst (with_types m l)).
Proof.
  induction l as [|[nm raw] l IH]; cbn [map]; intros Hd; [constructor|]. apply NoDup_cons in Hd as [Hn Hd].
  unfold with_types. cbn [omap list_omap fst snd]. destruct (type_at m raw) as [t|]; cbn; [|by apply IH].
  apply NoDup_cons. split; [|by apply IH]. intros Hin. apply Hn. apply list_elem_of_In, in_map_iff in Hin as ([x y] & <- & Hin).
  apply list_elem_of_In in Hin. apply with_types_elem in Hin as (r & Hin & _). cbn [fst].
  apply list_elem_of_In, in_map_iff. exists (x, r). by rewrite <- list_elem_of_In.
Qed.

Lemma named_NoDup m : single m -> NoDup (map fst (concat (map (fun p => named p m) typePrefixes))).
Proof.
  intros Hs. set (l := concat (map (fun p => named p m) typePrefixes)).
  assert (NoDup (map snd l)) as Hd by (unfold l; rewrite named_raws; apply typed_raws_NoDup).
  assert (forall a b, a ∈ l -> b ∈ l -> a.1 = b.1 -> a.2 = b.2) as Hinj.
  { intros [na ra] [nb rb] Ha Hb E. cbn [fst snd] in *. subst nb. apply named_elem in Ha as (p & Hp & -> & Sa), Hb as (q & Hq & -> & Sb).
    by rewrite (Hs p q na Hp Hq Sa Sb). }
  clearbody l. induction l as [|a l IH]; cbn [map] in *; [constructor|]. apply NoDup_cons in Hd as [Hn Hd]. apply NoDup_cons. split.
  - intros Hin. apply Hn. apply list_elem_of_In, in_map_iff in Hin as (b & Eb & Hin). apply list_elem_of_In in Hin.
    apply list_elem_of_In, in_map_iff. exists b. rewrite <- list_elem_of_In. split; [|done]. symmetry. apply Hinj; [by left|by right|done].
  - apply IH; [done|]. intros x y Hx Hy. apply Hinj; by right.
Qed.

Lemma scan_set_sorted m o : single m -> StronglySorted (fun a b => bytes_ltb a b = true) (scan_set m o).
Proof.
  intros Hs. unfold scan_set. set (l := with_types m _).
  assert (NoDup (map fst (isort by_name l))) as Hd.
  { rewrite isort_perm. by apply with_types_names, named_NoDup. }
  assert (StronglySorted (fun a b => by_name b a = false) (isort by_name l)) as Hsort.
  { apply (isort_sorted by_name (fun _ => True)); unfold by_name; eauto using bytes_ltb_asym, bytes_nltb_trans, Forall_true. }
  induction Hsort as [|[x t] k Hk IH Hx]; cbn [List.filter map]; [constructor|].
  cbn [map fst] in Hd. apply NoDup_cons in Hd as [Hn Hd]. specialize (IH Hd). destruct (scan_matches o (x, t)); [|done].
  cbn [map fst]. constructor; [done|]. apply Forall_forall. intros y Hy. apply list_elem_of_In, in_map_iff in Hy as ([y' u] & <- & Hy).
  apply filter_In in Hy as [Hy _]. apply list_elem_of_In in Hy. rewrite Forall_forall in Hx. specialize (Hx _ Hy). unfold by_name in Hx.
  cbn [fst] in *. destruct (bytes_ltb_total x y') as [?|[<-|?]]; [done| |congruence].
  exfalso. apply Hn, list_elem_of_In, in_map_iff. exists (x, u). by rewrite <- list_elem_of_In.
Qed.

(** Iterating SCAN from cursor 0 with a positive COUNT on a keyspace that
    does not change ends after at most one call per key and returns every
    matching key exactly once, in strictly increasing byte order; the keyspace
    is left as it was. *)
Theorem scan_complete opts o w :
  scan_options opts (mkScan (lit "*") 10 []) = inl o -> single (w_kv w) -> persistent (w_kv w) ->
  0 < sc_count o -> len (scan_set (w_kv w) o) + sc_count o < 2 ^ 63 ->
  exists found w', scan_all (S (length found)) opts 0 w = Some (map BulkOf found, w') /\ w_kv w' = w_kv w /\
    StronglySorted (fun a b => bytes_ltb a b = true) found /\
    forall name, name ∈ found <->
      exists p t, p ∈ typePrefixes /\ type_at (w_kv w) (p ++ name) = Some t /\ scan_matches o (name, t) = true.
Proof.
  intros Ho Hs Hp Hn Hb. exists (scan_set (w_kv w) o).
  destruct (scan_all_from opts o (S (length (scan_set (w_kv w) o))) 0 w) as (w' & E & Ew); try done.
  - by right.
  - unfold len. lia.
  - exists w'. split; [done|]. split; [done|]. split; [by apply scan_set_sorted|]. intros. apply scan_set_elem.
Qed.

(** ** RENAME *)

Lemma prefixForType_typed t : prefixForType t <> [] -> prefixForType t ∈ typePrefixes.
Proof.
  intros Hn. unfold prefixForType in *. repeat match goal with |- context [if ?c then _ else _] => destruct c end;
    try done; unfold typePrefixes; cbn [map]; rewrite !elem_of_cons; auto 10.
Qed.

Lemma first_hit_new ps p key v m :
  first_hit ps key m = None -> p ∈ ps -> first_hit ps key (<[p ++ key := v]> m) = Some (p ++ key, v).
Proof.
  induction ps as [|q ps IH]; cbn; [by intros _ ?%not_elem_of_nil|]. destruct (m !! (q ++ key)) eqn:E; [done|].
  intros Hf Hp. destruct (decide (q = p)) as [->|Hne]; [by rewrite lookup_insert_eq|].
  rewrite lookup_insert_ne, E by (intros X; apply app_inv_tail in X; congruence). apply IH; [done|]. by apply elem_of_cons in Hp as [?|?].
Qed.

Lemma first_hit_delete_other ps raw key m :
  (forall p, p ∈ ps -> raw <> p ++ key) -> first_hit ps key (delete raw m) = first_hit ps key m.
Proof.
  induction ps as [|q ps IH]; cbn; [done|]. intros Hn. rewrite lookup_delete_ne by (apply Hn; by left).
  rewrite IH; [done|]. intros p Hp. apply Hn. by right.
Qed.

Lemma find_missing key w : first_hit typePrefixes key (w_kv w) = None -> find_key key w = (Err ENotFound, w).
Proof. intros Hf. unfold find_key. by rewrite Hf. Qed.

(** RENAME of a live key other than a hash to a free name moves it: the
    bytes of the entry, its expiry included, are found under the new name, the
    old entry is removed, and no other key changes. *)
Theorem rename_moves src dst e t w :
  src <> dst -> let p := prefixForType (Type_ e) in
  p <> [] -> Type_ e <> TypeHash ->
  stored src (p ++ src) e t w -> (w_tick w + 2 <= t)%nat -> first_hit typePrefixes dst (w_kv w) = None ->
  exists w', renamePlain [BulkOf src; BulkOf dst] w = (Ok okReply, w') /\
    w_kv w' = delete (p ++ src) (<[p ++ dst := Encode (Type_ e) (Expiry e) (Payload e)]> (w_kv w)) /\
    stored dst (p ++ dst) e t w' /\ w_kv w' !! (p ++ src) = None.
Proof.
  intros Hne p Hp Hh Hs Ht Hd. assert (p ∈ typePrefixes) as Hin by (by apply prefixForType_typed).
  unfold renamePlain, rename. change (with_key (BulkOf src) ?k) with (k src). cbv beta.
  change (with_key (BulkOf dst) ?k) with (k dst). cbv beta.
  rewrite (bytes_eqb_neq src dst) by done.
  unfold mbind at 1, attempt at 1. rewrite lookupRaw_map, (find_stored src (p ++ src) e t) by (done || lia). cbv beta iota.
  set (w1 := after_read (Expiry e) w). assert (w_kv w1 = w_kv w) as K1 by apply after_read_kv.
  unfold mbind at 1, attempt at 1. rewrite lookupRaw_map, find_missing by (by rewrite K1). change (isNotFound ENotFound) with true. cbv iota.
  unfold rename_write. unfold mbind at 1, attempt at 1, kvGet, on_kv. cbn [kv_get map_kv]. rewrite K1.
  destruct Hs as (Hf & Hi & Ha). destruct (first_hit_some _ _ _ _ _ Hf) as (q & Hq & Eq & Hl). rewrite Hl. fold p.
  assert (Ascii.eqb (Type_ e) TypeHash = false) as Eh by (by apply Ascii.eqb_neq).
  unfold deleteByRaw. rewrite Eh. clearbody p. destruct p as [|c p']; [done|].
  eexists. split; [reflexivity|]. cbn [w_kv]. split; [done|]. split; [|apply lookup_delete_eq]. split; [|done].
  cbn [w_kv]. rewrite first_hit_delete_other; [by apply first_hit_new|].
  intros r Hr E. apply prefix_inj in E as [_ ?]; [done|done|done].
Qed.
End spec.

(** ** Runs *)

Definition kworld (l : list (bytes * bytes)) : world (gmap bytes bytes) := world_of l.

Lemma pexpireat_exact_witness :
  exists w', @expire _ map_kv step_clock ascii_tables (key_args (lit "k") 5) expireAbsoluteMs
               (kworld [(ListKey (lit "k"), Encode TypeList 0 (lit "x"))]) = (Ok (VInteger 1), w') /\
    (@expireTime _ map_kv step_clock [BulkOf (lit "k")] true w').1 = Ok (VInteger 5).
Proof.
  destruct (@pexpireat_exact step_clock ascii_tables (lit "k") (ListKey (lit "k")) (mkEntry TypeList 0 (lit "x")) 20
    (kworld [(ListKey (lit "k"), Encode TypeList 0 (lit "x"))]) 5) as (w' & E & _ & T & _).
  - unfold is_i64; lia.
  - unfold is_i64, Millisecond; lia.
  - lia.
  - split; [vm_compute; reflexivity|]. split; [unfold is_i64; cbn; lia|by left].
  - cbn. lia.
  - intros i Hi. unfold Millisecond. cbn. lia.
  - exists w'. split; [exact E|exact T].
Defined.

Definition sweep_world : world (gmap bytes bytes) :=
  kworld [(StringKey (lit "a"), EncodeString (lit "1") 500); (ListKey (lit "b"), Encode TypeList 0 (lit "x"));
          (StringKey (lit "c"), EncodeString (lit "2") 5000)].

(** A decision procedure for the two conditions on a concrete keyspace. *)
Definition singleb (m : gmap bytes bytes) : bool :=
  bool_decide (NoDup (map fst (concat (map (fun p => named p m) typePrefixes)))).
Definition persistentb (m : gmap bytes bytes) : bool :=
  forallb (fun k => match m !! k with Some v => match Decode v with Ok e => Expiry e =? 0 | _ => false end | None => true end) (typed_raws m).
Definition decodesb (m : gmap bytes bytes) : bool :=
  forallb (fun k => match m !! k with Some v => match Decode v with Ok e => true | _ => false end | None => true end) (typed_raws m).

Lemma singleb_ok m : singleb m = true -> single m.
Proof.
  intros Hd%bool_decide_eq_true_1 p q name Hp Hq Sp Sq.
  assert ((name, p ++ name) ∈ concat (map (fun p => named p m) typePrefixes)) as H1 by (apply named_elem; eauto).
  assert ((name, q ++ name) ∈ concat (map (fun p => named p m) typePrefixes)) as H2 by (apply named_elem; eauto).
  apply list_elem_of_lookup in H1 as [i Hi], H2 as [j Hj]. rewrite NoDup_alt in Hd.
  assert (i = j) as ->. { apply (Hd i j name); rewrite list_lookup_fmap; [by rewrite Hi | by rewrite Hj]. }
  rewrite Hi in Hj. injection Hj as Hj. by apply app_inv_tail in Hj.
Qed.

Lemma persistentb_ok m : persistentb m = true -> persistent m.
Proof.
  intros Hf k v Hv Ht. unfold persistentb in Hf. rewrite forallb_forall in Hf. specialize (Hf k). rewrite Hv in Hf.
  assert (k ∈ typed_raws m) as Hin by (apply elem_of_typed_raws; split; [rewrite Hv; eauto|done]).
  apply list_elem_of_In in Hin. specialize (Hf Hin). destruct (Decode v) as [e| |]; try done. breflect. eauto.
Qed.

Lemma decodesb_ok m : decodesb m = true -> forall k v, m !! k = Some v -> typed k -> exists e, Decode v = Ok e.
Proof.
  intros Hf k v Hv Ht. unfold decodesb in Hf. rewrite forallb_forall in Hf. specialize (Hf k). rewrite Hv in Hf.
  assert (k ∈ typed_raws m) as Hin by (apply elem_of_typed_raws; split; [rewrite Hv; eauto|done]).
  apply list_elem_of_In in Hin. specialize (Hf Hin). destruct (Decode v) as [e| |]; try done. eauto.
Qed.

Lemma sweep_exact_witness :
  exists n w', @SweepOnce _ map_kv step_clock sweep_world = (Ok n, w') /\ w_expired w' = 0 + n /\ n = 1.
Proof.
  destruct (@sweep_exact step_clock sweep_world) as (n & w' & E & _ & _ & Hx & _ & Hn).
  - apply singleb_ok. vm_compute. reflexivity.
  - apply decodesb_ok. vm_compute. reflexivity.
  - exists n, w'. split; [exact E|]. split; [exact Hx|]. rewrite Hn. vm_compute. reflexivity.
Defined.

Definition scan_world : world (gmap bytes bytes) :=
  kworld [(StringKey (lit "b"), EncodeString (lit "1") 0); (ListKey (lit "a"), Encode TypeList 0 (lit "x"));
          (HashKey (lit "c"), Encode TypeHash 0 (lit "x"))].

Lemma scan_complete_witness :
  exists found w', @scan_all step_clock ascii_tables (S (length found)) [BulkOf (lit "COUNT"); BulkOf (lit "2")] 0 scan_world
    = Some (map BulkOf found, w') /\ w_kv w' = w_kv scan_world.
Proof.
  destruct (@scan_complete step_clock ascii_tables [BulkOf (lit "COUNT"); BulkOf (lit "2")] (mkScan (lit "*") 2 []) scan_world)
    as (found & w' & E & Ew & _).
  - vm_compute. reflexivity.
  - apply singleb_ok. vm_compute. reflexivity.
  - apply persistentb_ok. vm_compute. reflexivity.
  - cbn. lia.
  - vm_compute. reflexivity.
  - exists found, w'. split; [exact E|exact Ew].
Defined.

Lemma rename_moves_witness :
  exists w', @renamePlain _ map_kv step_clock [BulkOf (lit "a"); BulkOf (lit "z")] scan_world = (Ok okReply, w') /\
    w_kv w' !! (lit "l:" ++ lit "a") = None.
Proof.
  destruct (@rename_moves step_clock (lit "a") (lit "z") (mkEntry TypeList 0 (lit "x")) 10 scan_world) as (w' & E & _ & _ & Hn).
  - discriminate.
  - discriminate.
  - discriminate.
  - split; [vm_compute; reflexivity|]. split; [unfold is_i64; cbn; lia|by left].
  - cbn. lia.
  - vm_compute. reflexivity.
  - exists w'. split; [exact E|exact Hn].
Defined.

(** RENAME of a stream onto an existing key destroys the key: the
    destination is deleted before the handler finds that it has no storage
    prefix for the source's type, and answers an error. *)
Theorem rename_stream_deletes_destination :
  let w := kworld [(StreamKey (lit "s"), Encode TypeStream 0 (lit "x")); (StringKey (lit "d"), EncodeString (lit "v") 0)] in
  let '(r, w') := @renamePlain _ map_kv step_clock [BulkOf (lit "s"); BulkOf (lit "d")] w in
  r = Ok (errS "ERR unknown source type") /\ w_kv w' !! StringKey (lit "d") = None /\
  is_Some (w_kv w' !! StreamKey (lit "s")).
Proof. vm_compute. split_and!; eauto. Qed.

(** RENAME of a hash loses the expiries of its fields: the sidecar is deleted
    with the old key before it is read to be copied. *)
Theorem rename_hash_drops_field_expiry :
  let w := kworld [(HashKey (lit "h"), Encode TypeHash 0 (EncodeHash {[lit "f" := lit "v"]}));
                   (HashExpKey (lit "h"), Encode TypeHash 0 (EncodeHash {[lit "f" := lit "99"]}))] in
  let '(r, w') := @renamePlain _ map_kv step_clock [BulkOf (lit "h"); BulkOf (lit "d")] w in
  r = Ok okReply /\ is_Some (w_kv w' !! HashKey (lit "d")) /\
  w_kv w' !! HashExpKey (lit "d") = None /\ w_kv w' !! HashExpKey (lit "h") = None.
Proof. vm_compute. split_and!; eauto. Qed.

(** SCAN adds the count to the cursor without a check: the largest count with
    a cursor above zero panics as soon as a key matches. *)
Theorem scan_huge_count_panics :
  (@scan _ map_kv step_clock ascii_tables
     [BulkOf (lit "1"); BulkOf (lit "COUNT"); BulkOf (FormatInt maxInt64)] scan_world).1 = Panic.
Proof. vm_compute. reflexivity. Qed.

(** EXPIRE with a time in the past deletes the key even when its condition
    (here XX, on a key without an expiry) would refuse the change. *)
Theorem expire_past_ignores_condition :
  let '(r, w') := @expire _ map_kv step_clock ascii_tables [BulkOf (lit "b"); BulkOf (lit "-1"); BulkOf (lit "XX")]
                    expireRelativeSec scan_world in
  r = Ok (VInteger 1) /\ w_kv w' !! StringKey (lit "b") = None.
Proof. vm_compute. split; reflexivity. Qed.

(** COPY ... REPLACE onto a stream leaves the stream in place beside the
    copy: the destination is deleted under a key without its type prefix. *)
Theorem copy_replace_keeps_stream :
  let w := kworld [(StringKey (lit "s"), EncodeString (lit "v") 0); (StreamKey (lit "d"), Encode TypeStream 0 (lit "x"))] in
  let '(r, w') := @copy _ map_kv step_clock ascii_tables [BulkOf (lit "s"); BulkOf (lit "d"); BulkOf (lit "REPLACE")] w in
  r = Ok (VInteger 1) /\ is_Some (w_kv w' !! StringKey (lit "d")) /\ is_Some (w_kv w' !! StreamKey (lit "d")).
Proof. vm_compute. split_and!; eauto. Qed.

(** KEYS * and SCAN leave out every name with a slash, which the star of
    path.Match does not cross. *)
Theorem keys_star_misses_slash :
  let w := kworld [(StringKey (lit "a/b"), EncodeString (lit "1") 0); (StringKey (lit "c"), EncodeString (lit "2") 0)] in
  (@keys _ map_kv [BulkOf (lit "*")] w).1 = Ok (VArray (Some [BulkOf (lit "c")])) /\
  (@scan _ map_kv step_clock ascii_tables [BulkOf (lit "0")] w).1 =
    Ok (VArray (Some [BulkOf (lit "0"); VArray (Some [BulkOf (lit "c")])])).
Proof. vm_compute. split; reflexivity. Qed.

End keyspec.
