(* ===== verification/CmdDump.v ===== *)
(** * DUMP and RESTORE (src/internal/commands/dump_restore.go)

    The serialized form of a key is its stored cell. *)

From S2P Require Import Prelude GoLib GoStrings Resp Codec Kv Cmd CmdString CmdKeys CmdKeysSpec.
Open Scope Z_scope.
Open Scope gedis_scope.

Module dumpcmd.
Import datastruct.
Import keycmd (prefixForType, deleteByRaw).

Definition restorePrefix (t : ascii) : bytes :=
  match prefixForType t with
  | [] => if Ascii.eqb t TypeHLL then lit "hll:" else if Ascii.eqb t TypeStream then lit "x:" else []
  | p => p
  end.

Definition bad_payload : Value := errS "ERR DUMP payload version or checksum are wrong".
Definition bad_ttl : Value := errS "ERR invalid expire time in 'restore' command".

(** REPLACE and ABSTTL. *)
Fixpoint restore_options `{GoUnicode} (args : list Value) (replace absttl : bool) : option (bool * bool) :=
  match args with
  | [] => Some (replace, absttl)
  | a :: rest =>
      match argString a with
      | None => None
      | Some name =>
          let u := ToUpper name in
          if bytes_eqb u (lit "REPLACE") then restore_options rest true absttl
          else if bytes_eqb u (lit "ABSTTL") then restore_options rest replace true
          else None
      end
  end.

Section handlers.
Context {S : Type} `{KV S} `{Clock} `{GoUnicode}.

Definition dump (args : list Value) : M S Value :=
  match args with
  | [a] =>
      with_key a (fun key =>
        let! r := attempt (lookupRaw key) in
        match r with
        | inr e => mret (if isNotFound e then nilBulk else errValue e)
        | inl (_, e) => mret (BulkOf (Encode (Type_ e) (Expiry e) (Payload e)))
        end)
  | _ => mret (wrong_args "dump")
  end.

(** The time at which the restored key expires. *)
Definition restore_expiry (ttl : Z) (absttl : bool) : M S Z :=
  if ttl =? 0 then mret 0
  else if absttl then mret (i64 (ttl * 1000000))
  else let! t := now in mret (i64 (t + i64 (ttl * 1000000))).

Definition restore (args : list Value) : M S Value :=
  match args with
  | k :: ttlArg :: p :: opts =>
      with_key k (fun key =>
        match argString ttlArg with
        | None => mret bad_ttl
        | Some s =>
            match ParseInt s with
            | None => mret bad_ttl
            | Some ttl =>
                if ttl <? 0 then mret bad_ttl
                else
                  match p with
                  | VBulkString (Some payload) =>
                      match restore_options opts false false with
                      | None => mret (errS "ERR syntax error")
                      | Some (replace, absttl) =>
                          match Decode payload with
                          | Panic => mpanic
                          | Err _ => mret bad_payload
                          | Ok e =>
                              match restorePrefix (Type_ e) with
                              | [] => mret bad_payload
                              | prefix =>
                                  let write : M S Value :=
                                    let! expiry := restore_expiry ttl absttl in
                                    commit (kvSet (prefix ++ key) (Encode (Type_ e) expiry (Payload e)))
                                      (let! _ := Notify "g" (lit "restore") key in mret okReply) in
                                  let! r := attempt (lookupRaw key) in
                                  match r with
                                  | inl _ =>
                                      if negb replace then mret (errS "BUSYKEY Target key name already exists.")
                                      else
                                        let! d := attempt (lookupKey key) in
                                        match d with
                                        | inl de => let! _ := deleteByRaw (prefixForType (Type_ de) ++ key) de key in write
                                        | inr _ => write
                                        end
                                  | inr x => if isNotFound x then write else mret (errValue x)
                                  end
                              end
                          end
                      end
                  | _ => mret bad_payload
                  end
            end
        end)
  | _ => mret (wrong_args "restore")
  end.

End handlers.

(** ** What is restored *)

Section map.
Context `{Clock} `{GoUnicode}.
Notation W := (world (gmap bytes bytes)).

(** The types that have a place in the keyspace. *)
Definition known_type (t : ascii) : Prop := restorePrefix t <> [].

Lemma restorePrefix_typed (t : ascii) : known_type t -> restorePrefix t ∈ typePrefixes.
Proof.
  unfold known_type, restorePrefix, prefixForType. repeat case_match; try done; intros _; simplify_eq; unfold typePrefixes; cbn [map]; set_solver.
Qed.

(** A key that is dumped and restored under a free name is copied.  If DUMP
    answers a payload, the key is stored and not expired; RESTORE of that payload
    with time to live 0 under a name that no type uses answers OK and stores, under
    the name's key for the same type, the same value without an expiry, notifies,
    and changes nothing else; and DUMP of the new key answers it. *)
Theorem dump_restore_copies (src dst payload : bytes) (w w1 : W) (e : Entry) (raw : bytes) :
  find_key src w = (Ok (raw, e), w1) -> known_type (Type_ e) -> is_i64 (Expiry e) ->
  (forall p, p ∈ typePrefixes -> w_kv w1 !! (p ++ dst) = None) ->
  dump [BulkOf src] w = (Ok (BulkOf payload), w1) ->
  exists w2, restore [BulkOf dst; BulkOf (lit "0"); BulkOf payload] w1 = (Ok okReply, w2) /\
    w_kv w2 = <[restorePrefix (Type_ e) ++ dst := Encode (Type_ e) 0 (Payload e)]> (w_kv w1) /\
    dump [BulkOf dst] w2 = (Ok (BulkOf (Encode (Type_ e) 0 (Payload e))), w2).
Proof.
  intros Hf Ht He Hfree Hd. unfold dump, with_key in Hd. cbn [BulkOf argString] in Hd. change (default [] (Some src)) with src in Hd. unfold mbind, attempt in Hd.
  rewrite lookupRaw_map, Hf in Hd. injection Hd as <-.
  unfold restore, with_key. cbn [BulkOf argString]. change (default [] (Some dst)) with dst. change (default [] (Some (lit "0"))) with (lit "0").
  change (ParseInt (lit "0")) with (Some 0). change (0 <? 0) with false. cbv iota. cbn [restore_options]. rewrite Decode_Encode_entry by done. cbn [Type_ Payload].
  pose proof (restorePrefix_typed _ Ht) as Hp. unfold known_type in Ht. destruct (restorePrefix (Type_ e)) as [|c pr] eqn:Ep; [done|].
  cbv zeta. unfold mbind, attempt. rewrite Z.ltb_irrefl. cbv iota beta. rewrite lookupRaw_map. unfold find_key. rewrite (proj2 (first_hit_none typePrefixes dst (w_kv w1)) Hfree).
  change (isNotFound ENotFound) with true. cbv iota. change (restore_expiry 0 false) with (@mret (gmap bytes bytes) Z 0). unfold commit, mbind, mret, attempt.
  eexists. split; [reflexivity|]. split; [done|]. unfold dump, with_key. cbn [BulkOf argString]. change (default [] (Some dst)) with dst. unfold mbind, attempt. rewrite lookupRaw_map. unfold find_key.
  cbn [w_kv]. assert (first_hit typePrefixes dst (<[(c :: pr) ++ dst := Encode (Type_ e) 0 (Payload e)]> (w_kv w1)) = Some ((c :: pr) ++ dst, Encode (Type_ e) 0 (Payload e))) as Hhit.
  { destruct (first_hit typePrefixes dst _) as [[r v]|] eqn:Eh.
    - apply first_hit_some in Eh as (q & Hq & -> & Hv). destruct (decide (q = c :: pr)) as [->|Hne]; [by rewrite lookup_insert_eq in Hv; injection Hv as <-|].
      rewrite lookup_insert_ne in Hv; [by rewrite Hfree in Hv|]. intros E. by apply keyspec.prefix_inj in E as [E _].
    - rewrite first_hit_none in Eh. specialize (Eh _ Hp). by rewrite lookup_insert_eq in Eh. }
  cbn [kv_set map_kv on_kv kvSet w_kv]. unfold kvSet, on_kv. cbn [kv_set map_kv w_kv w_tick w_events w_expired]. rewrite Hhit. rewrite Decode_Encode_entry by (unfold is_i64; lia). done.
Qed.

End map.

(** ** Runs *)

Definition store_of (k v : bytes) : world (gmap bytes bytes) := mkWorld {[k := v]} 0 [] 0.

Lemma dump_restore_copies_witness :
  exists w2, @restore _ _ step_clock ascii_tables [BulkOf (lit "b"); BulkOf (lit "0"); BulkOf (Encode TypeString 0 (lit "v"))] (store_of (lit "s:a") (EncodeString (lit "v") 0)) = (Ok okReply, w2) /\
    w_kv w2 = <[lit "s:b" := Encode TypeString 0 (lit "v")]> {[lit "s:a" := EncodeString (lit "v") 0]} /\
    @dump _ _ step_clock [BulkOf (lit "b")] w2 = (Ok (BulkOf (Encode TypeString 0 (lit "v"))), w2).
Proof.
  apply (@dump_restore_copies step_clock ascii_tables (lit "a") (lit "b") (Encode TypeString 0 (lit "v")) (store_of (lit "s:a") (EncodeString (lit "v") 0)) (store_of (lit "s:a") (EncodeString (lit "v") 0))
    (mkEntry TypeString 0 (lit "v")) (lit "s:a")).
  - vm_compute. reflexivity.
  - done.
  - unfold is_i64. cbn. lia.
  - intros p Hp. cbn [w_kv store_of]. apply lookup_singleton_ne. intros E. apply (keyspec.prefix_inj (lit "s:") p (lit "a") (lit "b")) in E as [_ E]; [done|unfold typePrefixes; cbn; set_solver|done].
  - vm_compute. reflexivity.
Defined.

(** RESTORE with REPLACE over a stream does not remove it: it comes back when
    the restored key is deleted. *)
Definition replaced : world (gmap bytes bytes) :=
  (@restore _ _ step_clock ascii_tables [BulkOf (lit "k"); BulkOf (lit "0"); BulkOf (EncodeString (lit "v") 0); BulkOf (lit "REPLACE")]
     (store_of (StreamKey (lit "k")) (Encode TypeStream 0 (lit "stream")))).2.
Example replace_keeps_stream :
  w_kv replaced = {[StringKey (lit "k") := EncodeString (lit "v") 0; StreamKey (lit "k") := Encode TypeStream 0 (lit "stream")]}.
Proof. vm_compute. reflexivity. Qed.

End dumpcmd.
