(* ===== verification/CmdSave.v ===== *)
(** * Saving and loading (src/internal/commands/save.go,
    src/internal/rdb/import.go, src/cmd/gedis/load_rdb.go)

    The database as entries of a file and back.  The file system is a map from
    path to content; what the system answers to the calls of one save is an
    argument (removing a temporary file succeeds).  A snapshot is read like the store it was taken of. *)

From S2P Require Import Prelude GoLib GoStrings Resp Codec StreamDs Hll Rdb RdbExport RdbSpec Kv Cmd CmdString CmdKeys.
Open Scope Z_scope.
Open Scope gedis_scope.

Module savecmd.
Import datastruct rdb rdbexport.
Import keycmd (stripTypePrefix).

Definition Millisecond : Z := 1000000.

(** ** Stored values as entries of a file (save.go) *)

Fixpoint field_pairs (l : list bytes) : list (bytes * bytes) :=
  match l with a :: b :: l => (a, b) :: field_pairs l | _ => [] end.

Definition group_data (g : stream.StreamGroup) : StreamGroupData :=
  mkSG (stream.gName g) (stream.Ms (stream.LastID g)) (stream.Seq (stream.LastID g)) (stream.EntriesRead g) (stream.HasRead g)
    (map (fun p => mkSP (stream.Ms (stream.pID p)) (stream.Seq (stream.pID p)) (stream.DeliveryMs p) (stream.Count p) (stream.Consumer p)) (stream.PEL g))
    (map (fun c => mkSC (stream.Name c) (stream.SeenMs c) (stream.ActiveMs c)) (stream.Consumers g)).

Definition streamDataOf (st : stream.Stream) : StreamData :=
  let first := match stream.Entries st with [] => stream.mkID 0 0 | e :: _ => stream.ID e end in
  mkSD (map (fun e => mkSE (stream.Ms (stream.ID e)) (stream.Seq (stream.ID e)) (field_pairs (stream.Fields e))) (stream.Entries st))
       (len (stream.Entries st)) (stream.Ms (stream.Last st)) (stream.Seq (stream.Last st)) (stream.Ms first) (stream.Seq first)
       (stream.Ms (stream.MaxDeleted st)) (stream.Seq (stream.MaxDeleted st)) (stream.Added st) (map group_data (stream.Groups st)).

(** The value of a payload; a type that the file has no form for is an error. *)
Definition collect_value (typ : ascii) (payload : bytes) : result value :=
  if Ascii.eqb typ TypeString then Ok (RString payload)
  else if Ascii.eqb typ TypeHash then let? (m, _) := DecodeHash payload in Ok (RHash m)
  else if Ascii.eqb typ TypeList then let? l := DecodeList payload in Ok (RList l)
  else if Ascii.eqb typ TypeSet then let? (s, _) := DecodeSet payload in Ok (RSet (sortStrings (elements s)))
  else if Ascii.eqb typ TypeZSet then let? (z, _) := DecodeZSet payload in Ok (RZSet (isort member_less (map_to_list z)))
  else if Ascii.eqb typ TypeHLL then Ok (RHLL payload)
  else if Ascii.eqb typ TypeStream then let? st := stream.DecodeStream payload in Ok (RStream (streamDataOf st))
  else fail "not collected".

Definition collectEntry (raw : bytes) : result (Z * value) :=
  let? ent := Decode raw in
  let? v := collect_value (Type_ ent) (Payload ent) in
  Ok (Z.quot (Expiry ent) Millisecond, v).

(** One stored key: its entry under its name, unless the name is taken or the
    value cannot be collected. *)
Definition emit (now : Z) (seen : gmap bytes Entry) (rawKey raw : bytes) : result (gmap bytes Entry) :=
  match stripTypePrefix rawKey with
  | None => Ok seen
  | Some name =>
      match seen !! name with
      | Some _ => Ok seen
      | None =>
          match collectEntry raw with
          | Panic => Panic
          | Err _ => Ok seen
          | Ok (ms, v) => Ok (if negb (ms =? 0) && (i64 (ms * Millisecond) <=? now) then seen else <[name := mkEntry name ms v]> seen)
          end
      end
  end.

Section save.
Context {S : Type} `{KV S} `{Clock}.

Fixpoint emit_keys (t : Z) (ks : list bytes) (seen : gmap bytes Entry) : M S (gmap bytes Entry) :=
  match ks with
  | [] => mret seen
  | k :: ks =>
      let! r := attempt (kvGet k) in
      match r with
      | inr _ => emit_keys t ks seen
      | inl v => let! seen := lift (emit t seen k v) in emit_keys t ks seen
      end
  end.

Fixpoint emit_prefixes (t : Z) (ps : list bytes) (seen : gmap bytes Entry) : M S (gmap bytes Entry) :=
  match ps with
  | [] => mret seen
  | p :: ps =>
      let! ks := kvScan p in
      let! seen := emit_keys t ks seen in
      emit_prefixes t ps seen
  end.

(** [order]: how the program ranges over the table. *)
Definition collectAll (order : gmap bytes Entry -> list Entry) : M S (list Entry) :=
  let! t := now in
  let! seen := emit_prefixes t typePrefixes ∅ in
  mret (order seen).

(** ** Writing the file *)

Record SaveTracker : Type := mkTracker {
  dir : bytes; file : bytes; target : bool; lastSaveUnix : Z; bgsaveRunning : bool; lastStatus : bytes;
}.

Definition NewSaveTracker (d : bytes) (tg : bool) (startUnix : Z) : SaveTracker := mkTracker d (lit "dump.rdb") tg startUnix false (lit "ok").
Definition SetFileName (t : SaveTracker) (name : bytes) : SaveTracker := mkTracker (dir t) name (target t) (lastSaveUnix t) (bgsaveRunning t) (lastStatus t).
Definition SetSaveTarget (t : SaveTracker) (tg : bool) (d f : bytes) : SaveTracker := mkTracker d f tg (lastSaveUnix t) false (lit "ok").
Definition resetStartUnix (t : SaveTracker) (u : Z) : SaveTracker := mkTracker (dir t) (file t) (target t) u (bgsaveRunning t) (lastStatus t).
Definition BGSAVEState (t : SaveTracker) : bool * bytes := (bgsaveRunning t, lastStatus t).

(** What the file system answers to one save, and [filepath.Join]. *)
Record io : Type := mkIO { io_create : option goerr; io_write : option goerr; io_close : option goerr; io_rename : option goerr }.
Context (join : bytes -> bytes -> bytes) `{GoFloat}.

Notation disk := (gmap bytes bytes).
Definition savePath (t : SaveTracker) : bytes := join (dir t) (file t).

(** The disk after a save, and its error. *)
Definition write_out (o : io) (path content : bytes) (d : disk) : disk * option goerr :=
  let tmp := path ++ lit ".tmp" in
  match io_create o with
  | Some e => (d, Some e)
  | None =>
      match io_write o with
      | Some e => (delete tmp (<[tmp := content]> d), Some e)
      | None =>
          match io_close o with
          | Some e => (delete tmp (<[tmp := content]> d), Some e)
          | None =>
              match io_rename o with
              | Some e => (delete tmp (<[tmp := content]> d), Some e)
              | None => (<[path := content]> (delete tmp d), None)
              end
          end
      end
  end.

(** An export that fails comes after the creation of the temporary file. *)
Definition saveFile (order : gmap bytes Entry -> list Entry) (o : io) (t : SaveTracker) (d : disk) : M S (SaveTracker * disk * option goerr) :=
  if negb (target t) then mret (t, d, Some (EMsg (lit "save target not set")))
  else
    let! r := attempt (collectAll order) in
    match r with
    | inr e => mret (t, d, Some e)
    | inl entries =>
        match io_create o with
        | Some e => mret (t, d, Some e)
        | None =>
            let! ctime := now in
            match Export (Z.div ctime Second) entries with
            | Panic => mpanic
            | Err e => mret (t, delete (savePath t ++ lit ".tmp") d, Some e)
            | Ok content =>
                let '(d, e) := write_out o (savePath t) content d in
                match e with
                | Some e => mret (t, d, Some e)
                | None =>
                    let! u := now in
                    mret (mkTracker (dir t) (file t) (target t) (Z.div u Second) (bgsaveRunning t) (lastStatus t), d, None)
                end
            end
        end
    end.

Definition saveCmd (order : gmap bytes Entry -> list Entry) (o : io) (args : list Value) (t : SaveTracker) (d : disk) : M S (SaveTracker * disk * Value) :=
  match args with
  | [] =>
      let! (t, d, e) := saveFile order o t d in
      mret (t, d, match e with Some e => VError (lit "ERR " ++ err_text e) | None => okReply end)
  | _ => mret (t, d, wrong_args "save")
  end.

(** The reply, and whether a background save starts. *)
Definition bgsaveCmd (args : list Value) (t : SaveTracker) : SaveTracker * bool * Value :=
  match args with
  | [] =>
      if bgsaveRunning t then (t, false, errS "ERR Background save already in progress")
      else (mkTracker (dir t) (file t) (target t) (lastSaveUnix t) true (lastStatus t), true, VSimpleString (lit "Background saving started"))
  | _ => (t, false, errS "ERR syntax error")
  end.

(** The background save itself. *)
Definition bgsave (order : gmap bytes Entry -> list Entry) (o : io) (t : SaveTracker) (d : disk) : M S (SaveTracker * disk) :=
  let! (t, d, e) := saveFile order o t d in
  mret (mkTracker (dir t) (file t) (target t) (lastSaveUnix t) false (lit match e with Some _ => "err" | None => "ok" end), d).

End save.

(** ** Entries of a file as stored values (import.go) *)

Definition importStream (sd : StreamData) : stream.Stream :=
  stream.mkStream
    (map (fun e => stream.mkSEntry (stream.mkID (eMS e) (eSeq e)) (concat (map (fun fv : bytes * bytes => [fv.1; fv.2]) (eFields e)))) (sEntries sd))
    (stream.mkID (LastMS sd) (LastSeq sd)) true (sAdded sd) (stream.mkID (MaxDeletedMS sd) (MaxDeletedSeq sd))
    (map (fun g => stream.mkGroup (gdName g) (stream.mkID (gLastMS g) (gLastSeq g)) (gEntriesRead g) (HasEntriesRead g)
       (map (fun c => stream.mkConsumer (cName c) (SeenTime c) (ActiveTime c) (negb (ActiveTime c =? 2 ^ 64 - 1))) (gdConsumers g))
       (map (fun p => stream.mkPEL (stream.mkID (pMS p) (pSeq p)) (pConsumer p) (DeliveryTime p) (DeliveryCount p)) (Pending g))) (sGroups sd)).

Definition encodeEntry (e : Entry) (expNs : Z) : result (bytes * bytes) :=
  let k := Key e in
  match Val e with
  | RString s => Ok (StringKey k, EncodeString s expNs)
  | RHash m => Ok (HashKey k, Encode TypeHash expNs (EncodeHash m))
  | RList l => Ok (ListKey k, Encode TypeList expNs (EncodeList l))
  | RSet l => Ok (SetKey k, Encode TypeSet expNs (EncodeSet l))
  | RZSet l => Ok (ZSetKey k, Encode TypeZSet expNs (EncodeZSet (map_of_pairs l)))
  | RHLL s =>
      let? reg := match hll.DecodeHLL s with
                  | Err _ => match DensifySparseHLL s with Err x => fail "rdb: key: not a HyperLogLog" | r => r end
                  | r => r
                  end in
      Ok (HLLKey k, Encode TypeHLL expNs (hll.EncodeHLL reg))
  | RStream s => Ok (StreamKey k, Encode TypeStream expNs (stream.EncodeStream (importStream s)))
  end.

Record ImportStats : Type := mkStats { Loaded : Z; ExpiredSkipped : Z }.

Definition importBatchSize : Z := 1000.

Section import.
Context {S : Type} `{KV S} `{Clock}.

Definition flush (ops : list BatchOp) : M S unit := match ops with [] => mret () | _ => kvWriteBatch ops end.

Fixpoint import_loop (t : Z) (es : list Entry) (ops : list BatchOp) (st : ImportStats) : M S ImportStats :=
  match es with
  | [] => let! _ := flush ops in mret st
  | e :: es =>
      let expNs := if 0 <? ExpireMs e then i64 (ExpireMs e * Millisecond) else 0 in
      if (0 <? ExpireMs e) && (expNs <=? t) then import_loop t es ops (mkStats (Loaded st) (ExpiredSkipped st + 1))
      else
        let! (key, val) := lift (encodeEntry e expNs) in
        let ops := ops ++ [mkBatchOp key val false] in
        let! ops := (if importBatchSize <=? len ops then let! _ := flush ops in mret [] else mret ops) in
        import_loop t es ops (mkStats (Loaded st + 1) (ExpiredSkipped st))
  end.

Definition Import (es : list Entry) : M S ImportStats := let! t := now in import_loop t es [] (mkStats 0 0).

(** [has]: what HasAny says of the store; [content]: the file, when it can be
    read. *)
Definition loadRDBFile `{GoFloat} (has : result bool) (content : result bytes) : M S ImportStats :=
  let! h := lift has in
  if h : bool then merr (EMsg (lit "refusing --load-rdb: database is not empty"))
  else
    let! es := lift (let? c := content in Load c) in
    Import es.

End import.

End savecmd.
