(* ===== verification/CmdSaveSpec.v ===== *)
(** * A database saved and loaded

    [db] is the database as the commands see it: a map from name to expiry and
    value.  [on_disk] says that a keyspace stores exactly this database. *)

From S2P Require Import Prelude GoLib GoStrings Resp Codec StreamDs Hll Rdb RdbExport RdbSpec Kv Cmd CmdString CmdKeys CmdKeysSpec CmdSave.
Open Scope Z_scope.
Open Scope gedis_scope.

Module savespec.
Import datastruct rdb rdbexport rdbspec savecmd.
Import keycmd (stripTypePrefix).

(** ** Stored values *)

Inductive stored : Type :=
| LString (s : bytes) | LHash (m : gmap bytes bytes) | LList (l : list bytes) | LSet (s : gset bytes)
| LZSet (z : gmap bytes Z) | LHLL (regs : bytes) | LStream (st : stream.Stream).

Definition typ (v : stored) : ascii :=
  match v with
  | LString _ => TypeString | LHash _ => TypeHash | LList _ => TypeList | LSet _ => TypeSet
  | LZSet _ => TypeZSet | LHLL _ => TypeHLL | LStream _ => TypeStream
  end.
Definition prefix (v : stored) : bytes :=
  lit match v with
  | LString _ => "s:" | LHash _ => "h:" | LList _ => "l:" | LSet _ => "st:" | LZSet _ => "z:" | LHLL _ => "hll:" | LStream _ => "x:"
  end.
Definition payload (v : stored) : bytes :=
  match v with
  | LString s => s
  | LHash m => EncodeHash m
  | LList l => EncodeList l
  | LSet s => EncodeSet (elements s)
  | LZSet z => EncodeZSet z
  | LHLL regs => hll.hll_header ++ regs
  | LStream st => stream.EncodeStream st
  end.
Definition cell (v : stored) (exp : Z) : bytes := Encode (typ v) exp (payload v).

(** The entry of the file. *)
Definition value_of (v : stored) : value :=
  match v with
  | LString s => RString s
  | LHash m => RHash m
  | LList l => RList l
  | LSet s => RSet (sortStrings (elements s))
  | LZSet z => RZSet (isort member_less (map_to_list z))
  | LHLL regs => RHLL (hll.hll_header ++ regs)
  | LStream st => RStream (streamDataOf st)
  end.

(** What a value is after a save and a load.  Of a stream the file does not
    keep whether the last id and the read counters are known, and it marks a
    consumer that was never active. *)
Definition kept_consumer (c : stream.StreamConsumer) : stream.StreamConsumer :=
  let active := if stream.ActiveMs c =? 0 then 2 ^ 64 - 1 else stream.ActiveMs c in
  stream.mkConsumer (stream.Name c) (stream.SeenMs c) active (negb (active =? 2 ^ 64 - 1)).
Definition kept_group (g : stream.StreamGroup) : stream.StreamGroup :=
  stream.mkGroup (stream.gName g) (stream.LastID g) (stream.EntriesRead g) true (map kept_consumer (stream.Consumers g)) (stream.PEL g).
Definition kept_last (st : stream.Stream) : stream.StreamID :=
  match last (stream.Entries st) with
  | Some e => if (stream.Ms (stream.Last st) =? 0) && (stream.Seq (stream.Last st) =? 0) then stream.ID e else stream.Last st
  | None => stream.Last st
  end.
Definition kept_stream (st : stream.Stream) : stream.Stream :=
  stream.mkStream (stream.Entries st) (kept_last st) true (Z.max (stream.Added st) (len (stream.Entries st)))
    (stream.MaxDeleted st) (map kept_group (stream.Groups st)).
Definition kept (v : stored) : stored := match v with LStream st => LStream (kept_stream st) | v => v end.

(** The stored bytes decode, and text does not look like a sketch. *)
Definition stored_ok (v : stored) : Prop :=
  match v with
  | LString s => isHYLL s = false
  | LHash m => hash_ok m
  | LList l => strs_ok l
  | LSet s => is_u64 (len (elements s)) /\ Forall str_ok (elements s)
  | LZSet z => zset_ok z /\ map_Forall (fun _ f => IsNaN f = false) z
  | LHLL regs => len regs = hll.hllDenseRegs
  | LStream st => stream.stream_ok st
  end.

Lemma prefix_typed (v : stored) : prefix v ∈ typePrefixes.
Proof. destruct v; unfold typePrefixes; cbn [map prefix]; set_solver. Qed.

Lemma kept_prefix (v : stored) : prefix (kept v) = prefix v.
Proof. by destruct v. Qed.

(** ** Collecting *)

Lemma collect_cell (v : stored) (exp : Z) : stored_ok v -> is_i64 exp -> collectEntry (cell v exp) = Ok (Z.quot exp Millisecond, value_of v).
Proof.
  intros Hv He. unfold collectEntry, cell. rewrite Decode_Encode_entry by done. cbn [res_bind Type_ Payload Expiry].
  enough (collect_value (typ v) (payload v) = Ok (value_of v)) as -> by done.
  destruct v as [s|m|l|s|z|regs|st]; cbn [stored_ok typ payload value_of] in *; unfold collect_value; cbn [Ascii.eqb Bool.eqb TypeString TypeHash TypeList TypeSet TypeZSet TypeHLL TypeStream]; try done.
  - by rewrite DecodeHash_EncodeHash.
  - by rewrite DecodeList_EncodeList.
  - destruct Hv as [Hn Hf]. destruct (DecodeSet_EncodeSet (elements s) Hn Hf) as [enc ->]. cbn [res_bind]. by rewrite list_to_set_elements_L.
  - destruct Hv as [Hz _]. by rewrite DecodeZSet_EncodeZSet.
  - by rewrite stream.DecodeStream_EncodeStream.
Qed.

(** ** Restoring *)

Lemma field_pairs_flat (l : list bytes) : len l mod 2 = 0 -> concat (map (fun fv : bytes * bytes => [fv.1; fv.2]) (field_pairs l)) = l.
Proof.
  assert (forall n (l : list bytes), (length l <= n)%nat -> len l mod 2 = 0 -> concat (map (fun fv : bytes * bytes => [fv.1; fv.2]) (field_pairs l)) = l) as Hn; [|by apply (Hn (length l))].
  clear l. induction n as [|n IH]; intros l Hl He; [by destruct l; [|cbn in Hl; lia]|]. destruct l as [|a [|b l]]; [done|done|]. cbn. do 2 f_equal.
  apply IH; [cbn in Hl; lia|]. rewrite !len_cons in He. replace (1 + (1 + len l)) with (len l + 1 * 2) in He by lia. by rewrite Z.mod_add in He.
Qed.

Lemma import_collected (st : stream.Stream) : stream.stream_ok st -> importStream (norm_stream (streamDataOf st)) = kept_stream st.
Proof.
  intros (_ & He & _ & _ & _ & _ & _). unfold importStream, norm_stream, kept_stream. cbn [sEntries LastMS LastSeq sAdded MaxDeletedMS MaxDeletedSeq sGroups streamDataOf].
  f_equal.
  - rewrite map_map. rewrite <- (map_id (stream.Entries st)) at 2. apply map_ext_in. intros e Hin. cbn [eMS eSeq eFields].
    apply list_elem_of_In in Hin. destruct (proj1 (Forall_forall _ _) He e Hin) as (_ & _ & _ & Hm). rewrite field_pairs_flat by done. by destruct e as [[]].
  - unfold out_last, kept_last. cbn [sEntries LastMS LastSeq streamDataOf]. rewrite (fmap_last (fun e => mkSE (stream.Ms (stream.ID e)) (stream.Seq (stream.ID e)) (field_pairs (stream.Fields e)))).
    destruct (last (stream.Entries st)) as [e|]; cbn [fmap option_fmap option_map eMS eSeq];
      [case_match; [by destruct (stream.ID e)|]|]; by destruct (stream.Last st).
  - unfold out_added. cbn [sAdded sEntries streamDataOf]. unfold len at 1 2. rewrite length_map. fold (len (stream.Entries st)). destruct (Z.ltb_spec (stream.Added st) (len (stream.Entries st))); lia.
  - by destruct (stream.MaxDeleted st).
  - rewrite !map_map. apply map_ext. intros g. unfold norm_group, group_data, kept_group. cbn [gdName gLastMS gLastSeq gEntriesRead HasEntriesRead gdConsumers Pending].
    f_equal; [by destruct (stream.LastID g)|by rewrite !map_map|]. rewrite map_map. rewrite <- (map_id (stream.PEL g)) at 2. apply map_ext. intros p. cbn. by destruct p as [[]].
Qed.

Lemma norm_scores (l : list (bytes * Z)) : Forall (fun p => IsNaN p.2 = false) l -> map (fun p : bytes * Z => (p.1, norm_score p.2)) l = l.
Proof. intros Hl. induction Hl as [|[m f] l Hf _ IH]; cbn; [done|]. rewrite IH. unfold norm_score. cbn in Hf. by rewrite Hf. Qed.

Lemma DecodeHLL_stored (regs : bytes) : len regs = hll.hllDenseRegs -> hll.DecodeHLL (hll.hll_header ++ regs) = Ok (regs ++ [byte_of 0]).
Proof.
  intros Hl. unfold hll.DecodeHLL. rewrite len_app, Hl. change (len hll.hll_header) with hll.hllHdrSize. rewrite Z.eqb_refl. cbn [negb].
  change (HasPrefix (hll.hll_header ++ regs) (lit "HYLL")) with true. change (hll.reg_byte (hll.hll_header ++ regs) 4) with 0. cbn [negb Z.eqb]. done.
Qed.

Lemma map_seq_lookup (l k : bytes) : map (fun i : nat => default (byte_of 0) ((l ++ k) !! i)) (seq 0 (length l)) = l.
Proof.
  apply list_eq. intros i. destruct (decide (i < length l)%nat) as [Hi|Hi].
  - rewrite list_lookup_fmap, lookup_seq_lt by done. cbn. rewrite lookup_app_l by done. destruct (lookup_lt_is_Some_2 l i Hi) as [c Hc]. by rewrite Hc.
  - rewrite !lookup_ge_None_2; [done|lia|]. rewrite length_map, length_seq. lia.
Qed.

Lemma EncodeHLL_stored (regs : bytes) : len regs = hll.hllDenseRegs -> hll.EncodeHLL (regs ++ [byte_of 0]) = hll.hll_header ++ regs.
Proof.
  intros Hl. unfold hll.EncodeHLL. f_equal. rewrite <- Hl. unfold len. rewrite Nat2Z.id. apply map_seq_lookup.
Qed.

Lemma encode_cell (v : stored) (k : bytes) (ms exp : Z) : stored_ok v ->
  encodeEntry (norm_entry (mkEntry k ms (value_of v))) exp = Ok (prefix v ++ k, cell (kept v) exp).
Proof.
  intros Hv. unfold encodeEntry, norm_entry, cell. cbn [Key Val ExpireMs].
  destruct v as [s|m|l|s|z|regs|st]; cbn [stored_ok typ payload value_of norm_value kept prefix] in *; try done.
  - by rewrite Hv.
  - unfold EncodeSet. do 4 f_equal. f_equal. apply set_eq. intros x. rewrite !elem_of_list_to_set, !sortStrings_perm. done.
  - destruct Hv as [_ Hz]. rewrite norm_scores.
    + rewrite (map_of_pairs_perm z); [done|]. by rewrite !isort_perm.
    + rewrite !isort_perm. apply Forall_forall. intros [m f] Hin%elem_of_map_to_list. by apply (Hz m f).
  - rewrite DecodeHLL_stored by done. cbn [res_bind]. by rewrite EncodeHLL_stored.
  - by rewrite import_collected.
Qed.

(** ** The database *)

Notation db := (gmap bytes (Z * stored)).
Notation W := (world (gmap bytes bytes)).

Definition on_disk (d : db) (m : gmap bytes bytes) : Prop := forall (p k : bytes), p ∈ typePrefixes ->
  m !! (p ++ k) = match d !! k with Some (exp, v) => if decide (p = prefix v) then Some (cell v exp) else None | None => None end.

(** Expiry times are kept to the millisecond. *)
Definition whole_ms (exp : Z) : Z := exp ÷ Millisecond * Millisecond.
Definition live (t exp : Z) : Prop := exp = 0 \/ t < whole_ms exp.

Record db_ok `{GoFloat} (d : db) : Prop := {
  ok_keys : forall k x, d !! k = Some x -> str_fits k;
  ok_stored : forall k exp v, d !! k = Some (exp, v) -> stored_ok v /\ value_ok (value_of v);
  ok_exp : forall k exp v, d !! k = Some (exp, v) -> 0 <= exp /\ is_i64 exp;
}.

Definition kept_db (d : db) : db := (fun x => (whole_ms x.1, kept x.2)) <$> d.

Definition entry_of (k : bytes) (x : Z * stored) : Entry := mkEntry k (x.1 ÷ Millisecond) (value_of x.2).

Lemma whole_bounds (exp : Z) : 0 <= exp -> is_i64 exp -> 0 <= exp ÷ Millisecond /\ is_i64 (exp ÷ Millisecond) /\ i64 (exp ÷ Millisecond * Millisecond) = whole_ms exp.
Proof.
  intros Hp Hi. unfold whole_ms, Millisecond, is_i64 in *. rewrite Z.quot_div_nonneg by lia. pose proof (Z.div_mod exp 1000000 ltac:(lia)).
  pose proof (Z.mod_pos_bound exp 1000000 ltac:(lia)). assert (0 <= exp / 1000000) by (apply Z.div_pos; lia). split_and!; [lia|lia|lia|]. apply i64_id. unfold is_i64. lia.
Qed.

Section run.
Context `{Clock} `{GoFloat}.

(** The names of which the stored key is among the given ones are collected. *)
Definition collected (d : db) (seen : gmap bytes Entry) (done : list bytes) : Prop := forall k,
  seen !! k = match d !! k with Some x => if decide (prefix x.2 ++ k ∈ done) then Some (entry_of k x) else None | None => None end.

Lemma emit_one (d : db) (t : Z) (seen : gmap bytes Entry) (done : list bytes) (k : bytes) (x : Z * stored) :
  db_ok d -> 0 <= t -> d !! k = Some x -> live t x.1 -> collected d seen done ->
  exists seen', emit t seen (prefix x.2 ++ k) (cell x.2 x.1) = Ok seen' /\ collected d seen' ((prefix x.2 ++ k) :: done).
Proof.
  intros Hd Ht Hk Hl Hc. destruct x as [exp v]. cbn [fst snd] in *. destruct (ok_stored _ Hd k exp v Hk) as [Hs _]. destruct (ok_exp _ Hd k exp v Hk) as [He Hi].
  destruct (whole_bounds exp He Hi) as (Hq & _ & Hw). unfold emit. rewrite keyspec.strip_prefixed by apply prefix_typed.
  pose proof (Hc k) as Hck. rewrite Hk in Hck. cbn [snd] in Hck.
  destruct (seen !! k) as [e|] eqn:E.
  - exists seen. split; [done|]. intros k'. rewrite (Hc k'). destruct (d !! k') as [[exp' v']|] eqn:Ek'; [|done]. cbn [snd].
    destruct (decide (prefix v' ++ k' ∈ done)) as [Hin|Hnin]; [by rewrite decide_True by (by right)|]. rewrite decide_False; [done|].
    rewrite elem_of_cons. intros [Heq|Hin']; [|done]. apply keyspec.prefix_inj in Heq as [_ ->]; [|apply prefix_typed..].
    rewrite Hk in Ek'. injection Ek' as <- <-. destruct (decide _); done.
  - rewrite collect_cell by done. cbn [res_bind]. rewrite Hw.
    assert (negb (exp ÷ Millisecond =? 0) && (whole_ms exp <=? t) = false) as ->.
    { apply andb_false_iff. destruct Hl as [->|Hl]; [by left|]. right. by apply Z.leb_gt. }
    eexists. split; [reflexivity|]. intros k'. destruct (decide (k' = k)) as [->|Hne].
    + rewrite lookup_insert_eq, Hk. cbn [snd]. by rewrite decide_True by (by left).
    + rewrite lookup_insert_ne by done. rewrite (Hc k'). destruct (d !! k') as [[exp' v']|]; [|done]. cbn [snd].
      destruct (decide (prefix v' ++ k' ∈ done)) as [Hin|Hnin]; [by rewrite decide_True by (by right)|]. rewrite decide_False; [done|].
      rewrite elem_of_cons. intros [Heq|Hin']; [|done]. apply keyspec.prefix_inj in Heq as [_ ?]; [done|apply prefix_typed..].
Qed.

Lemma on_disk_key (d : db) (m : gmap bytes bytes) (p k raw : bytes) : on_disk d m -> p ∈ typePrefixes -> m !! (p ++ k) = Some raw ->
  exists x, d !! k = Some x /\ p = prefix x.2 /\ raw = cell x.2 x.1.
Proof.
  intros Hm Hp Hr. rewrite (Hm p k Hp) in Hr. destruct (d !! k) as [[exp v]|]; [|done]. exists (exp, v). destruct (decide (p = prefix v)); [|done].
  by injection Hr as <-.
Qed.

Definition all_live (d : db) (t : Z) : Prop := forall k x, d !! k = Some x -> live t x.1.

Lemma emit_keys_ok (d : db) (w : W) (t : Z) (p : bytes) (ks : list bytes) (seen : gmap bytes Entry) (done : list bytes) :
  db_ok d -> on_disk d (w_kv w) -> 0 <= t -> all_live d t -> p ∈ typePrefixes -> (forall k, k ∈ ks -> k ∈ keys_with p (w_kv w)) -> collected d seen done ->
  exists seen', emit_keys t ks seen w = (Ok seen', w) /\ collected d seen' (ks ++ done).
Proof.
  intros Hd Hm Ht Hl Hp. revert seen done. induction ks as [|k ks IH]; intros seen done Hks Hc; [by exists seen|]. cbn [emit_keys].
  destruct (proj1 (keyspec.elem_of_keys_with p k (w_kv w)) (Hks k ltac:(by left))) as [[raw Hr] [name ->]].
  destruct (on_disk_key d (w_kv w) p name raw Hm Hp Hr) as (x & Hx & -> & ->).
  unfold mbind at 1, attempt, kvGet, on_kv. cbn [kv_get map_kv]. rewrite Hr. destruct w as [m tk ev ex]. cbn [w_kv w_tick w_events w_expired] in *.
  destruct (emit_one d t seen done name x Hd Ht Hx (Hl name x Hx) Hc) as (seen1 & E & Hc1). unfold mbind at 1, lift. rewrite E.
  destruct (IH seen1 ((prefix x.2 ++ name) :: done)) as (seen' & E' & Hc'); [intros; apply Hks; by right|done|]. exists seen'. split; [done|].
  intros k. rewrite (Hc' k). destruct (d !! k); [|done]. destruct (decide _) as [Hin|Hnin], (decide _) as [Hin'|Hnin']; try done; exfalso; [apply Hnin'|apply Hnin];
    revert Hin || revert Hin'; rewrite !elem_of_app, !elem_of_cons; tauto.
Qed.

Lemma emit_prefixes_ok (d : db) (w : W) (t : Z) (ps : list bytes) (seen : gmap bytes Entry) (done : list bytes) :
  db_ok d -> on_disk d (w_kv w) -> 0 <= t -> all_live d t -> (forall p, p ∈ ps -> p ∈ typePrefixes) -> collected d seen done ->
  exists seen' done', emit_prefixes t ps seen w = (Ok seen', w) /\ collected d seen' done' /\
    (forall k, k ∈ done -> k ∈ done') /\ forall p k, p ∈ ps -> k ∈ keys_with p (w_kv w) -> k ∈ done'.
Proof.
  intros Hd Hm Ht Hl. revert seen done. induction ps as [|p ps IH]; intros seen done Hps Hc.
  { exists seen, done. split_and!; [done|done|done|]. intros p k Hp. by apply elem_of_nil in Hp. }
  cbn [emit_prefixes]. unfold mbind at 1, kvScan, on_kv. cbn [kv_scan map_kv]. destruct (emit_keys_ok d w t p (keys_with p (w_kv w)) seen done) as (s1 & E1 & Hc1); [done..|by apply Hps; left|done|done|].
  destruct w as [m tk ev ex]. cbn [w_kv w_tick w_events w_expired] in *. unfold mbind. rewrite E1.
  destruct (IH s1 (keys_with p m ++ done)) as (s2 & done' & E2 & Hc2 & Hsub & Hall); [intros; apply Hps; by right|done|].
  exists s2, done'. split_and!; [done|done|intros k Hk; apply Hsub, elem_of_app; by right|].
  intros q k [->|Hq]%elem_of_cons Hk; [apply Hsub, elem_of_app; by left|by eapply Hall].
Qed.

Lemma collectAll_ok (d : db) (w : W) (order : gmap bytes Entry -> list Entry) :
  db_ok d -> on_disk d (w_kv w) -> 0 <= clock_ns (w_tick w) -> all_live d (clock_ns (w_tick w)) ->
  collectAll order w = (Ok (order (map_imap (fun k x => Some (entry_of k x)) d)), ticked w).
Proof.
  intros Hd Hm Ht Hl. unfold collectAll. unfold mbind at 1, now. fold (ticked w).
  destruct (emit_prefixes_ok d (ticked w) (clock_ns (w_tick w)) typePrefixes ∅ []) as (seen & done' & E & Hc & _ & Hall); [done..| |].
  { intros k. rewrite lookup_empty. destruct (d !! k); [|done]. rewrite decide_False; [done|]. apply not_elem_of_nil. }
  unfold mbind. rewrite E. unfold mret. do 3 f_equal. apply map_eq. intros k. rewrite (Hc k), map_lookup_imap. destruct (d !! k) as [x|] eqn:Ex; [|done]. cbn [mbind option_bind].
  rewrite decide_True; [done|]. apply (Hall (prefix x.2)); [apply prefix_typed|]. apply keyspec.elem_of_keys_with. split; [|by exists k].
  change (w_kv (ticked w)) with (w_kv w). rewrite (Hm _ _ (prefix_typed _)), Ex. destruct x as [exp v]. cbn [fst snd]. rewrite decide_True by done. by eexists.
Qed.

(** ** Importing *)

Definition put_all (m : gmap bytes bytes) (kvs : list (bytes * bytes)) : gmap bytes bytes := fold_left (fun m '(k, v) => <[k := v]> m) kvs m.

Lemma batch_put (m : gmap bytes bytes) (kvs : list (bytes * bytes)) :
  batch_apply m (map (fun kv : bytes * bytes => mkBatchOp kv.1 kv.2 false) kvs) = put_all m kvs.
Proof. revert m. induction kvs as [|[k v] kvs IH]; intros m; cbn; [done|]. apply IH. Qed.

(** Entries that are live and have a stored form go to the store, in whatever
    batches. *)
Lemma import_loop_ok (t : Z) (es : list Entry) (kvs pending : list (bytes * bytes)) (st : ImportStats) (w : W) :
  Forall2 (fun e kv => encodeEntry e (if 0 <? ExpireMs e then i64 (ExpireMs e * Millisecond) else 0) = Ok kv /\
                       (0 < ExpireMs e -> t < i64 (ExpireMs e * Millisecond))) es kvs ->
  exists w', import_loop t es (map (fun kv : bytes * bytes => mkBatchOp kv.1 kv.2 false) pending) st w = (Ok (mkStats (Loaded st + len es) (ExpiredSkipped st)), w') /\
    w_kv w' = put_all (w_kv w) (pending ++ kvs).
Proof.
  intros Hf. revert pending st w. induction Hf as [|e [k v] es kvs [He Hl] _ IH]; intros pending st w.
  - rewrite app_nil_r, len_nil, Z.add_0_r. cbn [import_loop]. destruct st as [a b]. cbn [Loaded ExpiredSkipped]. destruct pending as [|kv pending]; [by exists w|].
    eexists. split; [reflexivity|]. cbn [w_kv]. rewrite <- batch_put. done.
  - cbn [import_loop]. assert ((0 <? ExpireMs e) && ((if 0 <? ExpireMs e then i64 (ExpireMs e * Millisecond) else 0) <=? t) = false) as ->.
    { destruct (Z.ltb_spec 0 (ExpireMs e)) as [Hp|]; [|done]. cbn [andb]. apply Z.leb_gt. by apply Hl. }
    unfold mbind at 1, lift. rewrite He. set (ops := map _ pending ++ [_]).
    assert (ops = map (fun kv : bytes * bytes => mkBatchOp kv.1 kv.2 false) (pending ++ [(k, v)])) as -> by (unfold ops; by rewrite map_app).
    rewrite len_cons. replace (Loaded st + (1 + len es)) with (Loaded (mkStats (Loaded st + 1) (ExpiredSkipped st)) + len es) by (cbn; lia).
    unfold mbind at 1. destruct (importBatchSize <=? _).
    + destruct (IH [] (mkStats (Loaded st + 1) (ExpiredSkipped st))
        (mkWorld (put_all (w_kv w) (pending ++ [(k, v)])) (w_tick w) (w_events w) (w_expired w))) as (w' & E & Ew).
      exists w'. split; [|rewrite Ew; cbn [w_kv app]; unfold put_all; by rewrite <- fold_left_app, <- app_assoc].
      etransitivity; [|exact E]. unfold mbind, mret. destruct (map _ (pending ++ [(k, v)])) as [|o os] eqn:Eo; [by destruct pending|].
      cbn [flush kvWriteBatch on_kv kv_write_batch map_kv]. unfold kvWriteBatch, on_kv. cbn [kv_write_batch map_kv]. rewrite <- Eo, batch_put. done.
    + destruct (IH (pending ++ [(k, v)]) (mkStats (Loaded st + 1) (ExpiredSkipped st)) w) as (w' & E & Ew).
      exists w'. split; [exact E|]. by rewrite Ew, <- app_assoc.
Qed.

Definition stored_pair (k : bytes) (x : Z * stored) : bytes * bytes := (prefix x.2 ++ k, cell (kept x.2) (whole_ms x.1)).

Lemma import_one (d : db) (t : Z) (k : bytes) (x : Z * stored) : db_ok d -> 0 <= t -> all_live d t -> d !! k = Some x ->
  let e := norm_entry (entry_of k x) in
  encodeEntry e (if 0 <? ExpireMs e then i64 (ExpireMs e * Millisecond) else 0) = Ok (stored_pair k x) /\
  (0 < ExpireMs e -> t < i64 (ExpireMs e * Millisecond)).
Proof.
  intros Hd Ht Hl Hk. cbv zeta. destruct x as [exp v]. destruct (ok_stored _ Hd k exp v Hk) as [Hs _]. destruct (ok_exp _ Hd k exp v Hk) as [He Hi].
  destruct (whole_bounds exp He Hi) as (Hq & _ & Hw). specialize (Hl k _ Hk). unfold entry_of. cbn [norm_entry ExpireMs fst snd] in *. split.
  - rewrite (encode_cell v k) by done. unfold stored_pair. cbn [fst snd]. do 2 f_equal.
    destruct (Z.ltb_spec 0 (exp ÷ Millisecond)); [by rewrite Hw|]. assert (exp ÷ Millisecond = 0) as E0 by lia. unfold whole_ms. by rewrite E0.
  - intros Hp. rewrite Hw. destruct Hl as [->|Hl]; [done|exact Hl].
Qed.

Lemma put_all_on_disk (d : db) (l : list (bytes * (Z * stored))) : l ≡ₚ map_to_list d ->
  on_disk (kept_db d) (put_all ∅ (map (fun kx => stored_pair kx.1 kx.2) l)).
Proof.
  intros Hp. assert (NoDup (map (fun kx => stored_pair kx.1 kx.2) l).*1) as Hnd.
  { rewrite <- list_fmap_compose. apply NoDup_fmap_2_strong; [|rewrite Hp; apply NoDup_map_to_list].
    intros [k1 [e1 v1]] [k2 [e2 v2]] H1 H2 E. rewrite Hp in H1, H2. apply elem_of_map_to_list in H1, H2. cbn in E.
    apply keyspec.prefix_inj in E as [_ ->]; [|apply prefix_typed..]. congruence. }
  unfold put_all. rewrite fold_insert_list_to_map, map_union_empty by done. intros p k Hpp.
  unfold kept_db. rewrite lookup_fmap. destruct (d !! k) as [[exp v]|] eqn:E; cbn [fmap option_fmap option_map fst snd].
  - rewrite kept_prefix. destruct (decide (p = prefix v)) as [->|Hne].
    + apply elem_of_list_to_map_1; [done|]. apply list_elem_of_fmap. exists (k, (exp, v)). split; [done|]. rewrite Hp. by apply elem_of_map_to_list.
    + apply not_elem_of_list_to_map_1. intros Hin. apply list_elem_of_fmap in Hin as (rkv & Er & Hin). apply list_elem_of_fmap in Hin as ([k' [e' v']] & Ekv & Hin).
      rewrite Hp in Hin. apply elem_of_map_to_list in Hin. subst rkv. cbn [fst snd stored_pair] in Er. apply keyspec.prefix_inj in Er as [-> ->]; [|done|apply prefix_typed].
      rewrite E in Hin. by injection Hin as <- <-.
  - apply not_elem_of_list_to_map_1. intros Hin. apply list_elem_of_fmap in Hin as (rkv & Er & Hin). apply list_elem_of_fmap in Hin as ([k' [e' v']] & Ekv & Hin).
    rewrite Hp in Hin. apply elem_of_map_to_list in Hin. subst rkv. cbn [fst snd stored_pair] in Er. apply keyspec.prefix_inj in Er as [_ ->]; [|done|apply prefix_typed].
    congruence.
Qed.

(** The order in which the program ranges over the collected entries. *)
Definition ranges (order : gmap bytes Entry -> list Entry) : Prop := forall m, order m ≡ₚ (map_to_list m).*2.

Lemma ordered (d : db) (order : gmap bytes Entry -> list Entry) : ranges order ->
  exists l, l ≡ₚ map_to_list d /\ order (map_imap (fun k x => Some (entry_of k x)) d) = map (fun kx => entry_of kx.1 kx.2) l.
Proof.
  intros Ho. specialize (Ho (map_imap (fun k x => Some (entry_of k x)) d)).
  assert ((map_to_list (map_imap (fun k x => Some (entry_of k x)) d)).*2 ≡ₚ map (fun kx => entry_of kx.1 kx.2) (map_to_list d)) as Hp.
  { assert (map_to_list (map_imap (fun k x => Some (entry_of k x)) d) ≡ₚ map (fun kx => (kx.1, entry_of kx.1 kx.2)) (map_to_list d)) as Hq.
    { apply NoDup_Permutation; [apply NoDup_map_to_list|apply NoDup_fmap_2_strong; [|apply NoDup_map_to_list]|].
      - intros [k1 x1] [k2 x2] H1 H2 E. apply elem_of_map_to_list in H1, H2. injection E as -> _. congruence.
      - intros [k e]. rewrite elem_of_map_to_list, map_lookup_imap, list_elem_of_fmap. split.
        + destruct (d !! k) as [x|] eqn:Ex; [|done]. cbn. intros [= <-]. exists (k, x). split; [done|]. by apply elem_of_map_to_list.
        + intros ([k' x] & [= -> ->] & Hin). apply elem_of_map_to_list in Hin. by rewrite Hin. }
    rewrite Hq, <- list_fmap_compose. done. }
  rewrite Hp in Ho. destruct (Permutation_map_inv _ _ Ho) as (l & E & Hl). exists l. split; [by symmetry|done].
Qed.

Lemma collected_ok (d : db) (l : list (bytes * (Z * stored))) : db_ok d -> l ≡ₚ map_to_list d -> Forall file_entry_ok (map (fun kx => entry_of kx.1 kx.2) l).
Proof.
  intros Hd Hp. apply Forall_forall. intros e ([k [exp v]] & -> & Hin)%list_elem_of_fmap. rewrite Hp in Hin. apply elem_of_map_to_list in Hin.
  destruct (ok_exp _ Hd k exp v Hin) as [He Hi]. split; cbn [entry_of Key ExpireMs Val fst snd]; [by eapply ok_keys|by apply whole_bounds|by eapply ok_stored].
Qed.

Definition io_ok : io := mkIO None None None None.


(** A save that fails leaves the file of the last save in place: whatever
    the file system answers and whatever the store returns, a save that reports
    an error changes no file but its own temporary one and not the time of the
    last save; a save that reports none has replaced the file. *)
Theorem save_is_atomic (join : bytes -> bytes -> bytes) (order : gmap bytes Entry -> list Entry) (o : io) (t t' : SaveTracker) (disk disk' : gmap bytes bytes) (w w' : W) (e : option goerr) :
  saveFile join order o t disk w = (Ok (t', disk', e), w') ->
  match e with
  | Some _ => t' = t /\ forall path, path <> savePath join t ++ lit ".tmp" -> disk' !! path = disk !! path
  | None => exists content entries w1 ct, collectAll order w = (Ok entries, w1) /\ Export ct entries = Ok content /\ disk' !! savePath join t = Some content /\
      forall path, path <> savePath join t -> path <> savePath join t ++ lit ".tmp" -> disk' !! path = disk !! path
  end.
Proof.
  unfold saveFile. destruct (target t); cbn [negb]; [|intros [= <- <- <- _]; done]. unfold mbind at 1, attempt.
  destruct (collectAll order w) as [[es|x|] w1] eqn:Ec; [|intros [= <- <- <- _]; done|done].
  destruct (io_create o) as [x|] eqn:Eo; [intros [= <- <- <- _]; done|]. unfold mbind at 1, now.
  set (ct := clock_ns (w_tick w1) / Second). destruct (Export ct es) as [content|x|] eqn:Ex; [|intros [= <- <- <- _]; split; [done|]; intros path Hne; by rewrite lookup_delete_ne|done].
  unfold write_out. rewrite Eo. assert (forall path, path <> savePath join t ++ lit ".tmp" -> delete (savePath join t ++ lit ".tmp") (<[savePath join t ++ lit ".tmp" := content]> disk) !! path = disk !! path) as Hd.
  { intros path Hne. rewrite lookup_delete_ne, lookup_insert_ne by done. done. }
  destruct (io_write o); [intros [= <- <- <- _]; done|]. destruct (io_close o); [intros [= <- <- <- _]; done|]. destruct (io_rename o); [intros [= <- <- <- _]; done|].
  unfold mbind. intros E. injection E as <- <- <- _. exists content, es, w1, ct. split_and!; [done|done|apply lookup_insert_eq|].
  intros path H1 H2. by rewrite lookup_insert_ne, lookup_delete_ne.
Qed.

End run.

(** ** Runs *)

Definition demo_db : db := {[lit "s" := (5000000000, LString (lit "text")); lit "l" := (0, LList [lit "b"; lit "a"])]}.
Definition demo_store : gmap bytes bytes := {[lit "s:s" := cell (LString (lit "text")) 5000000000; lit "l:l" := cell (LList [lit "b"; lit "a"]) 0]}.
Definition demo_world (m : gmap bytes bytes) : W := mkWorld m 0 [] 0.
Definition demo_tracker : SaveTracker := NewSaveTracker (lit "/data") true 0.
Definition slash_join (a b : bytes) : bytes := a ++ lit "/" ++ b.
Definition in_map_order (m : gmap bytes Entry) : list Entry := (map_to_list m).*2.
Definition still_clock : Clock := {| clock_ns := fun _ => 1000 |}.

Lemma demo_db_lookup (k : bytes) (x : Z * stored) : demo_db !! k = Some x ->
  (k = lit "s" /\ x = (5000000000, LString (lit "text"))) \/ (k = lit "l" /\ x = (0, LList [lit "b"; lit "a"])).
Proof.
  unfold demo_db. rewrite lookup_insert_Some, lookup_singleton_Some. intros [[<- <-]|[_ [<- <-]]]; [by left|by right].
Qed.

Lemma demo_on_disk : on_disk demo_db demo_store.
Proof.
  intros p k Hp. unfold demo_store, demo_db.
  destruct (decide (k = lit "s")) as [->|Hs]; [|destruct (decide (k = lit "l")) as [->|Hl]].
  - rewrite lookup_insert_eq. destruct (decide (p = prefix (LString (lit "text")))) as [->|Hne]; [done|].
    rewrite lookup_insert_ne, lookup_singleton_ne; [done|..]; intros E.
    + apply (keyspec.prefix_inj (lit "l:") p (lit "l") (lit "s")) in E as [_ ?]; [done|unfold typePrefixes; cbn; set_solver|done].
    + apply (keyspec.prefix_inj (lit "s:") p (lit "s") (lit "s")) in E as [? _]; [done|unfold typePrefixes; cbn; set_solver|done].
  - rewrite (lookup_insert_ne _ (lit "s") (lit "l")), lookup_singleton_eq by done. destruct (decide (p = prefix (LList [lit "b"; lit "a"]))) as [->|Hne]; [done|].
    rewrite lookup_insert_ne, lookup_singleton_ne; [done|..]; intros E.
    + apply (keyspec.prefix_inj (lit "l:") p (lit "l") (lit "l")) in E as [? _]; [done|unfold typePrefixes; cbn; set_solver|done].
    + apply (keyspec.prefix_inj (lit "s:") p (lit "s") (lit "l")) in E as [_ ?]; [done|unfold typePrefixes; cbn; set_solver|done].
  - rewrite (lookup_insert_ne _ (lit "s") k), lookup_singleton_ne by done.
    rewrite lookup_insert_ne, lookup_singleton_ne; [done|..]; intros E.
    + apply (keyspec.prefix_inj (lit "l:") p (lit "l") k) in E as [_ ?]; [done|unfold typePrefixes; cbn; set_solver|done].
    + apply (keyspec.prefix_inj (lit "s:") p (lit "s") k) in E as [_ ?]; [done|unfold typePrefixes; cbn; set_solver|done].
Qed.


(** A save whose last step fails. *)
Definition old_disk : gmap bytes bytes := {[lit "/data/dump.rdb" := lit "old"]}.
Definition no_rename : io := mkIO None None None (Some ENotFound).
Definition failed_save : result (SaveTracker * gmap bytes bytes * option goerr) * W :=
  @saveFile _ _ still_clock slash_join zero_float in_map_order no_rename demo_tracker old_disk (demo_world demo_store).

Lemma failed_save_fails : exists t' disk' w', failed_save = (Ok (t', disk', Some ENotFound), w').
Proof. eexists _, _, _. vm_compute. reflexivity. Qed.

Lemma save_is_atomic_witness :
  exists t' disk' w', failed_save = (Ok (t', disk', Some ENotFound), w') /\ t' = demo_tracker /\ disk' !! lit "/data/dump.rdb" = Some (lit "old").
Proof.
  destruct failed_save_fails as (t' & disk' & w' & E). exists t', disk', w'. split; [exact E|].
  destruct (@save_is_atomic still_clock zero_float slash_join in_map_order no_rename demo_tracker t' old_disk disk' (demo_world demo_store) w' (Some ENotFound) E) as [Ht Hd].
  split; [exact Ht|]. rewrite Hd by discriminate. apply lookup_singleton_eq.
Defined.

(** Text that starts like a sketch saves, and then nothing can be loaded. *)
Definition hyll_db : gmap bytes bytes := {[lit "s:a" := EncodeString (lit "HYLL!") 0; lit "s:b" := EncodeString (lit "fine") 0]}.
Definition saved (m : gmap bytes bytes) : result bytes :=
  match @saveFile _ _ still_clock slash_join zero_float in_map_order io_ok demo_tracker ∅ (demo_world m) with
  | (Ok (_, disk, None), _) => match disk !! lit "/data/dump.rdb" with Some c => Ok c | None => Panic end
  | _ => Panic
  end.
Example hyll_text_blocks_load :
  exists e, (@loadRDBFile _ _ still_clock zero_float (Ok false) (saved hyll_db) (demo_world ∅)).1 = Err e.
Proof. eexists. vm_compute. reflexivity. Qed.

(** A key that expires in the year 2262 or later is dropped as expired. *)
Example far_expiry_dropped :
  (@Import _ _ still_clock [mkEntry (lit "k") 9223372036855 (RString (lit "v"))] (demo_world ∅)).1 = Ok (mkStats 0 1).
Proof. vm_compute. reflexivity. Qed.

(** A read counter that is not known comes back as known. *)
Definition unknown_read : stream.Stream :=
  stream.mkStream [stream.mkSEntry (stream.mkID 1 0) [lit "f"; lit "v"]] (stream.mkID 1 0) true 1 (stream.mkID 0 0)
    [stream.mkGroup (lit "g") (stream.mkID 1 0) 0 false [] []].
Example unknown_counter_becomes_known :
  match @loadRDBFile _ _ still_clock zero_float (Ok false) (saved {[lit "x:k" := Encode TypeStream 0 (stream.EncodeStream unknown_read)]}) (demo_world ∅) with
  | (Ok _, w) => w_kv w !! lit "x:k" = Some (Encode TypeStream 0 (stream.EncodeStream (kept_stream unknown_read)))
  | _ => False
  end /\ map stream.HasRead (stream.Groups (kept_stream unknown_read)) = [true].
Proof. vm_compute. split; reflexivity. Qed.

(** A set of vectors is left out, and the save reports success. *)
Example vectors_not_saved :
  match @saveFile _ _ still_clock slash_join zero_float in_map_order io_ok demo_tracker ∅ (demo_world {[lit "vs:k" := Encode TypeVector 0 (lit "any")]}) with
  | (Ok (_, disk, None), _) => match disk !! lit "/data/dump.rdb" with Some c => @Load zero_float c = Ok [] | None => False end
  | _ => False
  end.
Proof. vm_compute. reflexivity. Qed.

End savespec.
