(* ===== verification/CmdHash.v ===== *)
(** * Hash commands
    (src/internal/commands/hash.go, hash_multi.go, hash_incr.go, hash_expire.go)

    A hash is one storage entry; the expiries of its fields are a second entry,
    the sidecar, a hash from field to the decimal text of a time in
    nanoseconds.  Every read drops the fields whose time has come from both.
    Go's maps are finite maps; the order in which HRANDFIELD ranges over a map
    and its random draws are a class. *)

From S2P Require Import Prelude GoLib GoStrings GoPath Resp Codec Kv Cmd CmdString CmdKeys.
Open Scope Z_scope.
Open Scope gedis_scope.

Module hashcmd.
Import datastruct keycmd.

(** The order of [for f := range m], the i-th [rand.Intn(n)] of a command and
    [rand.Perm(n)]. *)
Class MapRand : Type := {
  range_order : gmap bytes bytes -> list bytes;
  draw : nat -> Z -> Z;
  perm : Z -> list nat;
}.

(** What the Go documentation promises of them. *)
Class MapRandLaws `{MapRand} : Prop := {
  range_order_perm : forall m, range_order m ≡ₚ map_keys m;
  draw_range : forall i n, 0 < n -> 0 <= draw i n < n;
  perm_perm : forall n, perm n ≡ₚ seq 0 (Z.to_nat n);
}.

Notation hash := (gmap bytes bytes).

Definition sortedHashFields (m : hash) : list bytes := sortStrings (map_keys m).

(** [perr != nil || now >= nano] *)
Definition field_expired (t : Z) (ts : bytes) : bool :=
  match ParseInt ts with None => true | Some nano => nano <=? t end.

Definition dead_fields (t : Z) (exp : hash) : hash := filter (fun p => field_expired t p.2 = true) exp.

(** The pairs of HSET and HMSET; counts the new fields. *)
Fixpoint set_fields (args : list Value) (m : hash) (added : Z) : (hash * Z) + Value :=
  match args with
  | a :: b :: rest =>
      match argString a with
      | None => inr (errS "ERR invalid field")
      | Some f =>
          match argString b with
          | None => inr (errS "ERR invalid value")
          | Some v => set_fields rest (<[f := v]> m) (match m !! f with Some _ => added | None => added + 1 end)
          end
      end
  | _ => inl (m, added)
  end.

(** HDEL's loop: the hash, the sidecar, the deleted fields and whether the
    sidecar changed. *)
Fixpoint del_fields (args : list Value) (m exp : hash) (deleted : Z) (dirty : bool) : hash * hash * Z * bool :=
  match args with
  | [] => (m, exp, deleted, dirty)
  | a :: rest =>
      match argString a with
      | None => del_fields rest m exp deleted dirty
      | Some f =>
          del_fields rest (delete f m) (delete f exp)
            (match m !! f with Some _ => deleted + 1 | None => deleted end)
            (match exp !! f with Some _ => true | None => dirty end)
      end
  end.

Definition bulk_of (o : option bytes) : Value := match o with None => nilBulk | Some v => BulkOf v end.

Fixpoint get_fields (args : list Value) (m : hash) (out : list Value) : Value :=
  match args with
  | [] => VArray (Some out)
  | a :: rest =>
      match argString a with
      | None => errS "ERR invalid field"
      | Some f => get_fields rest m (out ++ [bulk_of (m !! f)])
      end
  end.

Definition hrandfieldElem (m : hash) (f : bytes) (withValues : bool) : Value :=
  if withValues then VArray (Some [BulkOf f; BulkOf (default [] (m !! f))]) else BulkOf f.

(** [fields[rand.Intn(len(fields))]], the i-th draw. *)
Definition pick_field `{MapRand} (fields : list bytes) (i : nat) : result bytes :=
  if len fields <=? 0 then Panic
  else match fields !! Z.to_nat (draw i (len fields)) with Some f => Ok f | None => Panic end.

Fixpoint pick_fields `{MapRand} (m : hash) (fields : list bytes) (withValues : bool) (i n : nat) : result (list Value) :=
  match n with
  | O => Ok []
  | Datatypes.S n' =>
      let? f := pick_field fields i in
      let? rest := pick_fields m fields withValues (Datatypes.S i) n' in
      Ok (hrandfieldElem m f withValues :: rest)
  end.

Inductive hexpireCond : Type := hexpireNone | hexpireNX | hexpireXX | hexpireGT | hexpireLT.

Definition hcond_applies (cond : hexpireCond) (cur : option Z) (exp : Z) : bool :=
  match cond, cur with
  | hexpireNone, _ => true
  | hexpireNX, c => negb (bool_decide (is_Some c))
  | hexpireXX, c => bool_decide (is_Some c)
  | hexpireGT, c => match c with Some x => x <? exp | None => false end
  | hexpireLT, c => match c with Some x => exp <? x | None => true end
  end.

(** The state of HEXPIRE's loop over the fields. *)
Record hexpireState : Type := mkHex {
  hx_main : hash; hx_side : hash; hx_out : list Value; hx_dirtyMain : bool; hx_dirtyExp : bool;
}.

(** [cur, _ = strconv.ParseInt(curStr, 10, 64)]; readHash has just dropped the
    fields whose text is not a number. *)
Definition stored_time (ts : bytes) : Z := default 0 (ParseInt ts).

Definition hexpire_field (cond : hexpireCond) (exp t : Z) (f : bytes) (st : hexpireState) : hexpireState :=
  let say n := hx_out st ++ [VInteger n] in
  match hx_main st !! f with
  | None => mkHex (hx_main st) (hx_side st) (say (-2)) (hx_dirtyMain st) (hx_dirtyExp st)
  | Some _ =>
      if negb (hcond_applies cond (stored_time <$> hx_side st !! f) exp) then
        mkHex (hx_main st) (hx_side st) (say 0) (hx_dirtyMain st) (hx_dirtyExp st)
      else if exp <=? t then
        mkHex (delete f (hx_main st)) (delete f (hx_side st)) (say 1) true true
      else mkHex (hx_main st) (<[f := FormatInt exp]> (hx_side st)) (say 1) (hx_dirtyMain st) true
  end.

Fixpoint hexpire_loop (cond : hexpireCond) (exp t : Z) (args : list Value) (st : hexpireState) : option hexpireState :=
  match args with
  | [] => Some st
  | a :: rest =>
      match argString a with
      | None => None
      | Some f => hexpire_loop cond exp t rest (hexpire_field cond exp t f st)
      end
  end.

Definition httlMissing (n : Z) : Value := VArray (Some (replicate (Z.to_nat n) (VInteger (-2)))).

(** The reply of HTTL and HEXPIRETIME for one field; [show nano] is the number
    for a live expiry. *)
Definition field_time (show : Z -> Z) (t : Z) (m side : hash) (f : bytes) : Value :=
  match m !! f with
  | None => VInteger (-2)
  | Some _ =>
      match side !! f with
      | None => VInteger (-1)
      | Some ts =>
          match ParseInt ts with
          | None => VInteger (-2)
          | Some nano => if nano <=? t then VInteger (-2) else VInteger (show nano)
          end
      end
  end.

Record ttlFields : Type := mkTtl { tf_key : bytes; tf_names : list bytes }.

Fixpoint arg_names (args : list Value) : option (list bytes) :=
  match args with
  | [] => Some []
  | a :: rest =>
      match argString a, arg_names rest with Some f, Some fs => Some (f :: fs) | _, _ => None end
  end.

(** HPERSIST's loop. *)
Fixpoint persist_fields (names : list bytes) (m side : hash) (out : list Value) (dirty : bool) : hash * list Value * bool :=
  match names with
  | [] => (side, out, dirty)
  | f :: rest =>
      match m !! f, side !! f with
      | None, _ => persist_fields rest m side (out ++ [VInteger (-2)]) dirty
      | Some _, None => persist_fields rest m side (out ++ [VInteger (-1)]) dirty
      | Some _, Some _ => persist_fields rest m (delete f side) (out ++ [VInteger 1]) true
      end
  end.

Section handlers.
Context {S : Type} `{KV S} `{Clock} `{GoUnicode}.

(** ** The hash and its sidecar *)

(** Whatever cannot be read counts as an empty sidecar. *)
Definition readFieldExp (key : bytes) : M S hash :=
  let! r := attempt (
    let! raw := kvGet (HashExpKey key) in
    let! e := lift (Decode raw) in
    let! (exp, _) := lift (DecodeHash (Payload e)) in
    mret exp) in
  mret (match r with inl exp => exp | inr _ => ∅ end).

Definition writeFieldExp (key : bytes) (exp : hash) : M S unit :=
  if bool_decide (exp = ∅) then kvDelete (HashExpKey key)
  else kvSet (HashExpKey key) (Encode TypeHash 0 (EncodeHash exp)).

Definition writeHash (key : bytes) (m : hash) (expiry : Z) : M S unit :=
  kvSet (HashKey key) (Encode TypeHash expiry (EncodeHash m)).

Definition readHash (key : bytes) : M S (hash * Z) :=
  let! e := lookupKey key in
  if negb (bool_decide (Type_ e = TypeHash)) then merr WRONGTYPE
  else
    let! (m, _) := lift (DecodeHash (Payload e)) in
    let! exp := readFieldExp key in
    if bool_decide (exp = ∅) then mret (m, Expiry e)
    else
      let! t := now in
      let dead := dead_fields t exp in
      if bool_decide (dead = ∅) then mret (m, Expiry e)
      else
        let m' := m ∖ dead in
        let! _ := writeHash key m' (Expiry e) in
        let! _ := writeFieldExp key (exp ∖ dead) in
        let! _ := Notify "h" (lit "hexpired") key in
        mret (m', Expiry e).

(** The hash, with what to do when the key is missing. *)
Definition with_hash (key : bytes) (missing : M S Value) (k : hash -> Z -> M S Value) : M S Value :=
  let! r := attempt (readHash key) in
  match r with
  | inr e => if isNotFound e then missing else mret (errValue e)
  | inl (m, expiry) => k m expiry
  end.

(** The hash to write to: a new one without expiry when the key is missing. *)
Definition hash_or_new (key : bytes) (k : hash -> Z -> M S Value) : M S Value := with_hash key (k ∅ 0) k.

Definition with_field (a : Value) (k : bytes -> M S Value) : M S Value :=
  match argString a with None => mret (errS "ERR invalid field") | Some f => k f end.

(** ** hash.go *)

(** HSET and HMSET differ in the name and the reply. *)
Definition set_all (name : string) (reply : Z -> Value) (args : list Value) : M S Value :=
  if (len args <? 3) || Z.even (len args) then mret (wrong_args name)
  else match args with
  | a :: pairs => with_key a (fun key => hash_or_new key (fun m expiry =>
      match set_fields pairs m 0 with
      | inr e => mret e
      | inl (m', added) =>
          commit (writeHash key m' expiry) (let! _ := Notify "h" (lit "hset") key in mret (reply added))
      end))
  | [] => mret (wrong_args name)
  end.

Definition hset (args : list Value) : M S Value := set_all "hset" VInteger args.

Definition hget (args : list Value) : M S Value :=
  match args with
  | [a; b] => with_key a (fun key => with_field b (fun f =>
      with_hash key (mret nilBulk) (fun m _ => mret (bulk_of (m !! f)))))
  | _ => mret (wrong_args "hget")
  end.

Definition hdel (args : list Value) : M S Value :=
  match args with
  | a :: fs =>
      if len args <? 2 then mret (wrong_args "hdel")
      else with_key a (fun key => with_hash key (mret (VInteger 0)) (fun m expiry =>
        let! exp := readFieldExp key in
        let '(m', exp', deleted, dirty) := del_fields fs m exp 0 false in
        let gone := bool_decide (m' = ∅) in
        commit (if gone && (0 <? deleted) then kvDelete (HashKey key) else writeHash key m' expiry)
          (commit (if dirty then writeFieldExp key exp' else mret ())
            (let! _ := (if 0 <? deleted then
                          let! _ := Notify "h" (lit "hdel") key in
                          if gone then Notify "g" (lit "del") key else mret ()
                        else mret ()) in
             mret (VInteger deleted)))))
  | _ => mret (wrong_args "hdel")
  end.

Definition hsetnx (args : list Value) : M S Value :=
  match args with
  | [a; b; c] => with_key a (fun key => with_field b (fun f => with_value c (fun v =>
      hash_or_new key (fun m expiry =>
        match m !! f with
        | Some _ => mret (VInteger 0)
        | None => commit (writeHash key (<[f := v]> m) expiry)
                    (let! _ := Notify "h" (lit "hset") key in mret (VInteger 1))
        end))))
  | _ => mret (wrong_args "hsetnx")
  end.

Definition hexists (args : list Value) : M S Value :=
  match args with
  | [a; b] => with_key a (fun key => with_field b (fun f =>
      with_hash key (mret (VInteger 0)) (fun m _ => mret (VInteger (match m !! f with Some _ => 1 | None => 0 end)))))
  | _ => mret (wrong_args "hexists")
  end.

Definition hlen (args : list Value) : M S Value :=
  match args with
  | [a] => with_key a (fun key => with_hash key (mret (VInteger 0)) (fun m _ => mret (VInteger (map_len m))))
  | _ => mret (wrong_args "hlen")
  end.

Definition hstrlen (args : list Value) : M S Value :=
  match args with
  | [a; b] => with_key a (fun key => with_field b (fun f =>
      with_hash key (mret (VInteger 0)) (fun m _ => mret (VInteger (len (default [] (m !! f)))))))
  | _ => mret (wrong_args "hstrlen")
  end.

(** ** hash_multi.go *)

Definition hmset (args : list Value) : M S Value := set_all "hmset" (fun _ => okReply) args.

Definition hmget (args : list Value) : M S Value :=
  match args with
  | a :: fs =>
      if len args <? 2 then mret (wrong_args "hmget")
      else with_key a (fun key => with_hash key (mret (get_fields fs ∅ [])) (fun m _ => mret (get_fields fs m [])))
  | _ => mret (wrong_args "hmget")
  end.

(** HGETALL, HKEYS and HVALS: what is shown of each field, in field order. *)
Definition enumerate (name : string) (show : hash -> bytes -> list Value) (args : list Value) : M S Value :=
  match args with
  | [a] => with_key a (fun key => with_hash key (mret (VArray (Some []))) (fun m _ =>
      mret (VArray (Some (concat (map (show m) (sortedHashFields m)))))))
  | _ => mret (wrong_args name)
  end.

Definition hgetall (args : list Value) : M S Value :=
  enumerate "hgetall" (fun m f => [BulkOf f; BulkOf (default [] (m !! f))]) args.
Definition hkeys (args : list Value) : M S Value := enumerate "hkeys" (fun _ f => [BulkOf f]) args.
Definition hvals (args : list Value) : M S Value := enumerate "hvals" (fun m f => [BulkOf (default [] (m !! f))]) args.

Record hscanOptions : Type := mkHscan { hs_pattern : bytes; hs_count : Z; hs_noValues : bool }.

Fixpoint hscan_options (args : list Value) (o : hscanOptions) : hscanOptions + Value :=
  match args with
  | [] => inl o
  | a :: rest =>
      match argString a with
      | None => inr (errS "ERR syntax error")
      | Some name =>
          let u := ToUpper name in
          if bytes_eqb u (lit "MATCH") || bytes_eqb u (lit "COUNT") then
            match rest with
            | [] => inr (errS "ERR syntax error")
            | b :: rest' =>
                match argString b with
                | None => inr (errS "ERR syntax error")
                | Some v =>
                    if bytes_eqb u (lit "MATCH") then hscan_options rest' (mkHscan v (hs_count o) (hs_noValues o))
                    else match ParseInt v with
                         | None => inr err_int
                         | Some n => if n <? 0 then inr err_int
                                     else hscan_options rest' (mkHscan (hs_pattern o) n (hs_noValues o))
                         end
                end
            end
          else if bytes_eqb u (lit "NOVALUES") then hscan_options rest (mkHscan (hs_pattern o) (hs_count o) true)
          else inr (errS "ERR syntax error")
      end
  end.

Definition hscan_reply (next : Z) (flat : list Value) : Value := VArray (Some [BulkOf (FormatInt next); VArray (Some flat)]).

Definition hscan (args : list Value) : M S Value :=
  match args with
  | a :: c :: opts => with_key a (fun key =>
      match argString c with
      | None => mret (errS "ERR invalid cursor")
      | Some cs =>
          match ParseInt cs with
          | None => mret err_int
          | Some cursor =>
              if cursor <? 0 then mret err_int
              else match hscan_options opts (mkHscan (lit "*") 10 false) with
              | inr e => mret e
              | inl o =>
                  with_hash key (mret (hscan_reply 0 [])) (fun m _ =>
                    let matched := List.filter (path_matches (hs_pattern o)) (sortedHashFields m) in
                    let! (next, page) := lift (scan_page matched cursor (hs_count o)) in
                    mret (hscan_reply next (concat (map (fun f =>
                      BulkOf f :: (if hs_noValues o then [] else [BulkOf (default [] (m !! f))])) page))))
              end
          end
      end)
  | _ => mret (wrong_args "hscan")
  end.

(** The arguments are looked at after the key, so a missing key hides their
    errors. *)
Definition hrandfield `{MapRand} (args : list Value) : M S Value :=
  match args with
  | a :: opts =>
      if 3 <? len args then mret (wrong_args "hrandfield")
      else with_key a (fun key =>
        with_hash key (mret (match opts with [] => nilBulk | _ => VArray (Some []) end)) (fun m _ =>
          let fields := range_order m in
          match opts with
          | [] => if len fields =? 0 then mret nilBulk
                  else let! f := lift (pick_field fields 0) in mret (BulkOf f)
          | c :: rest => with_int c (fun count =>
              match (match rest with
                     | [] => Some false
                     | w :: _ => match argString w with
                                 | Some s => if EqualFold s (lit "WITHVALUES") then Some true else None
                                 | None => None
                                 end
                     end) with
              | None => mret (errS "ERR syntax error")
              | Some withValues =>
                  if 0 <=? count then
                    let n := if len fields <? count then len fields else count in
                    let! ix := lift (slice (perm (len fields)) 0 n) in
                    mret (VArray (Some (map (fun i => hrandfieldElem m (default [] (fields !! i)) withValues) ix)))
                  else
                    let! out := lift (pick_fields m fields withValues 0 (Z.to_nat (i64 (- count)))) in
                    mret (VArray (Some out))
              end)
          end))
  | [] => mret (wrong_args "hrandfield")
  end.

(** ** hash_incr.go *)

Definition hincrby (args : list Value) : M S Value :=
  match args with
  | [a; b; c] => with_key a (fun key => with_field b (fun f => with_int c (fun delta =>
      hash_or_new key (fun m expiry =>
        match (match m !! f with None => Some 0 | Some v => ParseInt v end) with
        | None => mret (errS "ERR hash value is not an integer")
        | Some cur =>
            if ((0 <? delta) && (maxInt64 - delta <? cur)) || ((delta <? 0) && (cur <? minInt64 - delta)) then
              mret (errS "ERR increment or decrement would overflow")
            else
              let next := i64 (cur + delta) in
              commit (writeHash key (<[f := FormatInt next]> m) expiry)
                (let! _ := Notify "h" (lit "hincrby") key in mret (VInteger next))
        end))))
  | _ => mret (wrong_args "hincrby")
  end.

Definition hincrbyfloat `{GoFloat} `{GoFloatArith} (args : list Value) : M S Value :=
  match args with
  | [a; b; c] => with_key a (fun key => with_field b (fun f =>
      match argString c with
      | None => mret (errS "ERR value is not a valid float")
      | Some inc =>
          match ParseFloat inc with
          | None => mret (errS "ERR value is not a valid float")
          | Some delta =>
              hash_or_new key (fun m expiry =>
                match (match m !! f with None => Some 0 | Some v => ParseFloat v end) with
                | None => mret (errS "ERR hash value is not a valid float")
                | Some cur =>
                    let out := FormatFloatF (f64_add cur delta) in
                    commit (writeHash key (<[f := out]> m) expiry)
                      (let! _ := Notify "h" (lit "hincrbyfloat") key in mret (BulkOf out))
                end)
          end
      end))
  | _ => mret (wrong_args "hincrbyfloat")
  end.

(** ** hash_expire.go *)

Definition parse_hcond (a : Value) : option hexpireCond :=
  match argString a with
  | None => None
  | Some name =>
      let u := ToUpper name in
      if bytes_eqb u (lit "NX") then Some hexpireNX
      else if bytes_eqb u (lit "XX") then Some hexpireXX
      else if bytes_eqb u (lit "GT") then Some hexpireGT
      else if bytes_eqb u (lit "LT") then Some hexpireLT
      else None
  end.

Definition is_FIELDS (a : Value) : bool :=
  match argString a with Some s => bytes_eqb (ToUpper s) (lit "FIELDS") | None => false end.

(** [FIELDS n field...], the count being the number of fields. *)
Definition fields_clause (args : list Value) : option (list Value) :=
  match args with
  | kw :: c :: names =>
      if negb (is_FIELDS kw) then None
      else match argString c with
      | None => None
      | Some cs => match ParseInt cs with
                   | None => None
                   | Some count => if (count <=? 0) || negb (count =? len names) then None else Some names
                   end
      end
  | _ => None
  end.

Definition hexpire (args : list Value) (kind : expireKind) : M S Value :=
  if len args <? 4 then mret (wrong_args "hexpire")
  else match args with
  | a :: b :: c :: rest => with_key a (fun key => with_int b (fun n =>
      let '(cond, clause) := match parse_hcond c with Some cond => (cond, rest) | None => (hexpireNone, c :: rest) end in
      match fields_clause clause with
      | None => mret (errS "ERR syntax error")
      | Some names =>
          let! exp := expire_at kind n in
          with_hash key (mret (httlMissing (len names))) (fun m expiry =>
            let! side := readFieldExp key in
            let! t := now in
            match hexpire_loop cond exp t names (mkHex m side [] false false) with
            | None => mret (errS "ERR invalid field")
            | Some st =>
                commit (if hx_dirtyMain st then writeHash key (hx_main st) expiry else mret ())
                  (commit (if hx_dirtyExp st then writeFieldExp key (hx_side st) else mret ())
                    (let! _ := Notify "h" (lit "hexpired") key in mret (VArray (Some (hx_out st)))))
            end)
      end))
  | _ => mret (wrong_args "hexpire")
  end.

(** The FIELDS clause is optional here. *)
Definition httlFields (args : list Value) : ttlFields + Value :=
  match args with
  | a :: b :: rest =>
      match argString a with
      | None => inr (errS "ERR invalid key")
      | Some key =>
          match (if is_FIELDS b then fields_clause (b :: rest) else Some (b :: rest)) with
          | None => inr (errS "ERR syntax error")
          | Some names =>
              match arg_names names with
              | None => inr (errS "ERR invalid field")
              | Some fs => inl (mkTtl key fs)
              end
          end
      end
  | _ => inr (errS "ERR wrong number of arguments")
  end.

(** HTTL, HPTTL, HEXPIRETIME and HPEXPIRETIME: [show now nano] is the number
    reported for a live expiry. *)
Definition field_times (show : Z -> Z -> Z) (args : list Value) : M S Value :=
  match httlFields args with
  | inr e => mret e
  | inl tf =>
      with_hash (tf_key tf) (mret (httlMissing (len (tf_names tf)))) (fun m _ =>
        let! side := readFieldExp (tf_key tf) in
        let! t := now in
        mret (VArray (Some (map (field_time (show t) t m side) (tf_names tf)))))
  end.

Definition fieldExpireAt (args : list Value) (millis : bool) : M S Value :=
  field_times (fun _ nano => Z.quot nano (if millis then Millisecond else Second)) args.

Definition hfieldttl (args : list Value) (millis : bool) : M S Value :=
  field_times (fun t nano =>
    let ms := Z.quot (i64 (nano - t)) Millisecond in if millis then ms else Z.quot (ms + 500) 1000) args.

Definition httl (args : list Value) : M S Value := hfieldttl args false.
Definition hpttl (args : list Value) : M S Value := hfieldttl args true.
Definition hexpiretime (args : list Value) : M S Value := fieldExpireAt args false.
Definition hpexpiretime (args : list Value) : M S Value := fieldExpireAt args true.

Definition hpersist (args : list Value) : M S Value :=
  match httlFields args with
  | inr e => mret e
  | inl tf =>
      with_hash (tf_key tf) (mret (httlMissing (len (tf_names tf)))) (fun m _ =>
        let! side := readFieldExp (tf_key tf) in
        let '(side', out, dirty) := persist_fields (tf_names tf) m side [] false in
        if dirty then
          commit (writeFieldExp (tf_key tf) side')
            (let! _ := Notify "h" (lit "hpersist") (tf_key tf) in mret (VArray (Some out)))
        else mret (VArray (Some out)))
  end.

End handlers.
End hashcmd.
