(* ===== verification/CmdHashSpec.v ===== *)
(** * What the hash commands do to one key

    The abstract state of a hash key is [option hfields]: no key, or a finite
    map from field to value and optional deadline.  It is more than the fields
    because the program can keep an empty hash.  [spec] gives each command's
    reply and effect on it together with the clock readings the command makes;
    [rep] relates the abstract state to the two stored entries. *)

From S2P Require Import Prelude GoLib GoStrings GoPath Resp Codec Kv Cmd CmdString CmdKeys CmdHash.
Open Scope Z_scope.
Open Scope gedis_scope.

Module hashspec.
Import datastruct keycmd hashcmd.

(** ** The handlers over any store *)

Section sim.
Context {S : Type} `{KVLaws S} `{Clock} `{GoUnicode}.

Lemma sim_readFieldExp key : sim (S := S) (readFieldExp key) (readFieldExp key).
Proof. unfold readFieldExp. solve_sim. Qed.
Lemma sim_writeFieldExp key exp : sim (S := S) (writeFieldExp key exp) (writeFieldExp key exp).
Proof. unfold writeFieldExp. solve_sim. Qed.
Lemma sim_writeHash key m e : sim (S := S) (writeHash key m e) (writeHash key m e).
Proof. apply sim_kvSet. Qed.
Hint Resolve sim_readFieldExp sim_writeFieldExp sim_writeHash sim_expire_at : sim.
Lemma sim_readHash key : sim (S := S) (readHash key) (readHash key).
Proof. unfold readHash. solve_sim. Qed.
Hint Resolve sim_readHash : sim.

Ltac solve_hash :=
  repeat (cbv beta zeta;
    lazymatch goal with
    | |- sim (with_hash _ _ _) _ => unfold with_hash
    | |- sim (hash_or_new _ _) _ => unfold hash_or_new
    | |- sim (with_field _ _) _ => unfold with_field
    | |- _ => solve_cmd
    end).

(** Every hash command behaves the same over any lawful store and the map. *)
Lemma hash_handlers_simulate `{MapRand} `{GoFloat} `{GoFloatArith} args kind :
  Forall (fun h => sim (S := S) h.1 h.2)
    [(hset args, hset args); (hget args, hget args); (hdel args, hdel args); (hsetnx args, hsetnx args);
     (hexists args, hexists args); (hlen args, hlen args); (hstrlen args, hstrlen args); (hmset args, hmset args);
     (hmget args, hmget args); (hgetall args, hgetall args); (hkeys args, hkeys args); (hvals args, hvals args);
     (hscan args, hscan args); (hrandfield args, hrandfield args); (hincrby args, hincrby args);
     (hincrbyfloat args, hincrbyfloat args); (hexpire args kind, hexpire args kind); (httl args, httl args);
     (hpttl args, hpttl args); (hexpiretime args, hexpiretime args); (hpexpiretime args, hpexpiretime args);
     (hpersist args, hpersist args)].
Proof.
  repeat apply Forall_cons_2; [..|apply Forall_nil_2]; cbn [fst snd];
    unfold hset, hget, hdel, hsetnx, hexists, hlen, hstrlen, hmset, hmget, hgetall, hkeys, hvals, hscan, hrandfield, hincrby,
      hincrbyfloat, hexpire, httl, hpttl, hexpiretime, hpexpiretime, hfieldttl, fieldExpireAt, field_times, hpersist, set_all, enumerate;
    solve_hash.
Qed.
End sim.

(** ** Fields with deadlines *)

Notation hfields := (gmap bytes (bytes * option Z)).
Implicit Types (h : hfields) (key f v : bytes) (t e : Z).

(** The stored hash and its sidecar. *)
Definition main (h : hfields) : hash := fst <$> h.
Definition side (h : hfields) : hash := omap (fun p => FormatInt <$> p.2) h.

Definition dead_at (t : Z) (p : bytes * option Z) : bool :=
  match p.2 with Some e => e <=? t | None => false end.
Definition alive (t : Z) (h : hfields) : hfields := filter (fun p => dead_at t p.2 = false) h.

(** Some field has a deadline. *)
Definition timed (h : hfields) : bool := negb (bool_decide (side h = ∅)).

Definition in_memory (h : hfields) : Prop :=
  hash_ok (main h) /\ hash_ok (side h) /\ map_Forall (fun _ p => match p.2 with Some e => is_i64 e | None => True end) h.

Lemma main_lookup h f : main h !! f = fst <$> h !! f.
Proof. apply lookup_fmap. Qed.
Lemma side_lookup h f : side h !! f = h !! f ≫= fun p => FormatInt <$> p.2.
Proof. apply lookup_omap. Qed.
Lemma alive_lookup t h f : alive t h !! f = h !! f ≫= fun p => if dead_at t p then None else Some p.
Proof.
  unfold alive. destruct (h !! f) as [p|] eqn:E; cbn.
  - destruct (dead_at t p) eqn:D.
    + apply map_lookup_filter_None. right. intros x Hx. cbn. congruence.
    + by apply map_lookup_filter_Some.
  - apply map_lookup_filter_None. by left.
Qed.

Lemma timed_false h f p : timed h = false -> h !! f = Some p -> p.2 = None.
Proof.
  unfold timed. intros Ht E. apply negb_false_iff, bool_decide_eq_true_1 in Ht.
  pose proof (side_lookup h f) as Hs. rewrite Ht, lookup_empty, E in Hs. cbn in Hs. by destruct p as [v [e|]].
Qed.

Lemma alive_untimed t h : timed h = false -> alive t h = h.
Proof.
  intros Ht. apply map_eq. intros f. rewrite alive_lookup. destruct (h !! f) as [p|] eqn:E; cbn; [|done].
  unfold dead_at. by rewrite (timed_false h f p Ht E).
Qed.

Lemma main_empty h : main h = ∅ <-> h = ∅.
Proof. unfold main. by rewrite fmap_empty_iff. Qed.

(** The dead fields of the sidecar are those past their deadline. *)
Lemma dead_fields_lookup t h f :
  in_memory h -> dead_fields t (side h) !! f = h !! f ≫= fun p => if dead_at t p then FormatInt <$> p.2 else None.
Proof.
  intros (_ & _ & Hi). unfold dead_fields. destruct (h !! f) as [p|] eqn:E; cbn.
  - specialize (Hi f p E). pose proof (side_lookup h f) as Hs. rewrite E in Hs. cbn in Hs. unfold dead_at.
    destruct p as [v [e|]]; cbn in Hs, Hi |- *; [|apply map_lookup_filter_None; by left].
    destruct (e <=? t) eqn:D.
    + apply map_lookup_filter_Some. split; [done|]. cbn. unfold field_expired. by rewrite ParseInt_FormatInt by done.
    + apply map_lookup_filter_None. right. intros x Hx. rewrite Hs in Hx. injection Hx as <-. cbn. unfold field_expired.
      rewrite ParseInt_FormatInt by done. by rewrite D.
  - apply map_lookup_filter_None. left. by rewrite side_lookup, E.
Qed.

Lemma main_drop t h : in_memory h -> main h ∖ dead_fields t (side h) = main (alive t h).
Proof.
  intros Hm. apply map_eq. intros f. rewrite main_lookup, alive_lookup, lookup_difference, dead_fields_lookup, main_lookup by done.
  destruct (h !! f) as [[v [e|]]|]; cbn; try done. by destruct (e <=? t).
Qed.

Lemma side_drop t h : in_memory h -> side h ∖ dead_fields t (side h) = side (alive t h).
Proof.
  intros Hm. apply map_eq. intros f. rewrite side_lookup, alive_lookup, lookup_difference, dead_fields_lookup, side_lookup by done.
  destruct (h !! f) as [[v [e|]]|]; cbn; try done. by destruct (e <=? t).
Qed.

Lemma no_dead_alive t h : in_memory h -> dead_fields t (side h) = ∅ -> alive t h = h.
Proof.
  intros Hm Hd. apply map_eq. intros f. rewrite alive_lookup. pose proof (dead_fields_lookup t h f Hm) as E. rewrite Hd, lookup_empty in E.
  destruct (h !! f) as [p|]; cbn in E |- *; [|done]. unfold dead_at in *. destruct p as [v [e|]]; cbn in *; [|done]. by destruct (e <=? t).
Qed.

Lemma hash_ok_sub (m m' : hash) : m' ⊆ m -> hash_ok m -> hash_ok m'.
Proof.
  intros Hs [Hn Hm]. split.
  - unfold map_len, is_u64 in *. pose proof (map_subseteq_size _ _ Hs). lia.
  - intros f v E. apply Hm. by eapply lookup_weaken.
Qed.

Lemma in_memory_sub h h' : h' ⊆ h -> in_memory h -> in_memory h'.
Proof.
  intros Hs (Hm & He & Hi). split_and!.
  - apply (hash_ok_sub (main h)); [|done]. apply map_subseteq_spec. intros f v. rewrite !main_lookup, !fmap_Some.
    intros (p & E & ->). exists p. split; [by eapply lookup_weaken|done].
  - apply (hash_ok_sub (side h)); [|done]. apply map_subseteq_spec. intros f v. rewrite !side_lookup, !bind_Some.
    intros (p & E & Ep). exists p. split; [by eapply lookup_weaken|done].
  - intros f p E. apply (Hi f). by eapply lookup_weaken.
Qed.

Lemma alive_sub t h : alive t h ⊆ h.
Proof. apply map_filter_subseteq. Qed.

(** ** Commands on one key *)

Inductive hash_op : Type :=
| HSet (p : bytes * bytes) (ps : list (bytes * bytes))
| HSetNX (f v : bytes)
| HGet (f : bytes)
| HMGet (f : bytes) (fs : list bytes)
| HDel (f : bytes) (fs : list bytes)
| HExists (f : bytes)
| HLen
| HStrLen (f : bytes)
| HGetAll
| HKeys
| HVals
| HIncrBy (f : bytes) (n : Z)
| HPExpireAt (ms : Z) (f : bytes) (fs : list bytes)
| HPersist (f : bytes) (fs : list bytes)
| HPTtl (f : bytes) (fs : list bytes).

(** A write keeps the deadline of the field. *)
Definition put (f v : bytes) (h : hfields) : hfields := <[f := (v, h !! f ≫= snd)]> h.
Definition set_deadline (f : bytes) (d : option Z) (h : hfields) : hfields := alter (fun p => (p.1, d)) f h.
Definition without (fs : list bytes) (h : hfields) : hfields := filter (fun p => p.1 ∉ fs) h.

Definition bulks (vs : list bytes) : Value := VArray (Some (map BulkOf vs)).
Definition value_of (h : hfields) (f : bytes) : bytes := default [] (main h !! f).
Definition names_of (h : hfields) : list bytes := sortStrings (map_keys (main h)).
Definition field_opt (h : hfields) (f : bytes) : Value := VBulkString (main h !! f).

(** HPEXPIREAT on one field at time [t]: a deadline in the past removes it. *)
Definition expire_one (t e : Z) (f : bytes) (h : hfields) : Z * hfields :=
  match h !! f with
  | None => (-2, h)
  | Some _ => (1, if e <=? t then delete f h else set_deadline f (Some e) h)
  end.
Definition persist_one (f : bytes) (h : hfields) : Z * hfields :=
  match h !! f with
  | None => (-2, h)
  | Some (_, None) => (-1, h)
  | Some (_, Some _) => (1, set_deadline f None h)
  end.
Fixpoint each (one : bytes -> hfields -> Z * hfields) (fs : list bytes) (h : hfields) : list Z * hfields :=
  match fs with
  | [] => ([], h)
  | f :: rest => let '(n, h1) := one f h in let '(ns, h2) := each one rest h1 in (n :: ns, h2)
  end.
Definition ints (ns : list Z) : Value := VArray (Some (map VInteger ns)).

Definition ttl_of (t : Z) (h : hfields) (f : bytes) : Z :=
  match h !! f with
  | None => -2
  | Some (_, None) => -1
  | Some (_, Some e) => if e <=? t then -2 else Z.quot (i64 (e - t)) Millisecond
  end.

(** The reply and the new state for live fields [h] ([None] for no key), at
    the time [t] of a further reading of the clock. *)
Definition act (o : hash_op) (t : Z) (s : option hfields) : Value * option hfields :=
  let h := default ∅ s in
  match o with
  | HSet p ps =>
      let h' := foldl (fun h p => put p.1 p.2 h) h (p :: ps) in (VInteger (map_len h' - map_len h), Some h')
  | HSetNX f v => match h !! f with Some _ => (VInteger 0, s) | None => (VInteger 1, Some (put f v h)) end
  | HGet f => (field_opt h f, s)
  | HMGet f fs => (VArray (Some (map (field_opt h) (f :: fs))), s)
  | HDel f fs =>
      let h' := without (f :: fs) h in
      (VInteger (map_len h - map_len h'), if bool_decide (h' = ∅ /\ h <> ∅) then None else ((fun _ => h') <$> s))
  | HExists f => (VInteger (match h !! f with Some _ => 1 | None => 0 end), s)
  | HLen => (VInteger (map_len h), s)
  | HStrLen f => (VInteger (len (value_of h f)), s)
  | HGetAll => (bulks (concat (map (fun f => [f; value_of h f]) (names_of h))), s)
  | HKeys => (bulks (names_of h), s)
  | HVals => (bulks (map (value_of h) (names_of h)), s)
  | HIncrBy f n =>
      match (match main h !! f with None => Some 0 | Some v => ParseInt v end) with
      | None => (errS "ERR hash value is not an integer", s)
      | Some cur =>
          if bool_decide (is_i64 (cur + n)) then (VInteger (cur + n), Some (put f (FormatInt (cur + n)) h))
          else (errS "ERR increment or decrement would overflow", s)
      end
  | HPExpireAt ms f fs =>
      let '(ns, h') := each (expire_one t (ms * Millisecond)) (f :: fs) h in (ints ns, ((fun _ => h') <$> s))
  | HPersist f fs => let '(ns, h') := each persist_one (f :: fs) h in (ints ns, ((fun _ => h') <$> s))
  | HPTtl f fs => (ints (map (ttl_of t h) (f :: fs)), s)
  end.

(** Commands that read the clock once more when the key exists. *)
Definition reads_clock (o : hash_op) : bool := match o with HPExpireAt _ _ _ | HPTtl _ _ => true | _ => false end.

Section spec.
Context `{Clock}.

(** A command first drops the fields whose deadline has passed, reading the
    clock when some field has one. *)
Definition spec (o : hash_op) (st : option hfields * nat) : Value * (option hfields * nat) :=
  let '(s, n) := st in
  let s1 := alive (clock_ns n) <$> s in
  let n1 := match s with Some h => if timed h then Datatypes.S n else n | None => n end in
  let '(v, s2) := act o (clock_ns n1) s1 in
  (v, (s2, if reads_clock o then match s with Some _ => Datatypes.S n1 | None => n1 end else n1)).

Notation W := (world (gmap bytes bytes)).

Definition hash_entry (m : hash) : bytes := Encode TypeHash 0 (EncodeHash m).
Definition side_entry (h : hfields) : option bytes := if timed h then Some (hash_entry (side h)) else None.

(** The key holds the state without an expiry of its own, and nothing else;
    the clock has been read as often as the state says. *)
Record rep (key : bytes) (st : option hfields * nat) (w : W) : Prop := {
  rep_other : forall p, p ∈ typePrefixes -> p <> lit "h:" -> p <> lit "x:" -> w_kv w !! (p ++ key) = None;
  rep_main : w_kv w !! HashKey key = (fun h => hash_entry (main h)) <$> st.1;
  rep_side : w_kv w !! HashExpKey key = st.1 ≫= side_entry;
  rep_fits : from_option in_memory True st.1;
  rep_tick : w_tick w = st.2;
}.

Lemma find_rep key s n w :
  rep key (s, n) w ->
  find_key key w = (match s with None => Err ENotFound | Some h => Ok (HashKey key, mkEntry TypeHash 0 (EncodeHash (main h))) end, w).
Proof.
  intros [Ho Hm Hs _ _]. cbn [fst] in *. unfold find_key.
  assert (first_hit typePrefixes key (w_kv w) = match s with None => None | Some h => Some (HashKey key, hash_entry (main h)) end) as ->.
  { change typePrefixes with (map lit ["s:"; "h:"; "l:"; "st:"; "z:"; "hll:"; "x:"; "vs:"]%string). cbn [map].
    rewrite !first_hit_cons. change (lit "h:" ++ key) with (HashKey key). change (lit "x:" ++ key) with (HashExpKey key).
    rewrite Hm, Hs. rewrite !Ho by (done || (unfold typePrefixes; cbn [map]; set_solver)). by destruct s. }
  destruct s as [h|]; [|done]. unfold hash_entry. rewrite Decode_Encode_entry by (unfold is_i64; lia). done.
Qed.

Lemma readFieldExp_rep key h n w : rep key (Some h, n) w -> readFieldExp key w = (Ok (side h), w).
Proof.
  intros [_ _ Hs (_ & Hf & _) _]. cbn in Hs. unfold readFieldExp, mbind, attempt, kvGet, on_kv. cbn. rewrite Hs.
  unfold side_entry, timed. case_bool_decide as E; cbn; [by rewrite E; destruct w|].
  unfold lift, hash_entry. rewrite Decode_Encode_entry by (unfold is_i64; lia). cbn [Payload]. rewrite DecodeHash_EncodeHash by done. by destruct w.
Qed.

Lemma prefix_apart p q key : p <> q -> p ++ key <> q ++ key.
Proof. intros Hp E. by apply app_inv_tail in E. Qed.

(** A write of both entries establishes the new state. *)
Lemma hrep_write key s n w h' n' w' :
  rep key (s, n) w -> in_memory h' -> w_kv w' !! HashKey key = Some (hash_entry (main h')) ->
  w_kv w' !! HashExpKey key = side_entry h' ->
  (forall k, k <> HashKey key -> k <> HashExpKey key -> w_kv w' !! k = w_kv w !! k) -> w_tick w' = n' -> rep key (Some h', n') w'.
Proof.
  intros [Ho _ _ _ _] Hf Hm Hs Hk Ht. split; try done. intros p Hp Hh Hx.
  rewrite Hk; [by apply Ho|..]; unfold HashKey, HashExpKey; by apply prefix_apart.
Qed.

Lemma main_key_apart key : HashKey key <> HashExpKey key.
Proof. unfold HashKey, HashExpKey. by apply prefix_apart. Qed.

(** Writing the sidecar. *)
Definition with_side (key : bytes) (h : hfields) (m : gmap bytes bytes) : gmap bytes bytes :=
  if timed h then <[HashExpKey key := hash_entry (side h)]> m else delete (HashExpKey key) m.

Lemma writeFieldExp_world key h (w : W) :
  writeFieldExp key (side h) w = (Ok (), mkWorld (with_side key h (w_kv w)) (w_tick w) (w_events w) (w_expired w)).
Proof. unfold writeFieldExp, with_side, timed. by case_bool_decide. Qed.

Lemma with_side_at key h m : with_side key h m !! HashExpKey key = side_entry h.
Proof. unfold with_side, side_entry. destruct (timed h); [apply lookup_insert_eq|apply lookup_delete_eq]. Qed.
Lemma with_side_ne key h m k : k <> HashExpKey key -> with_side key h m !! k = m !! k.
Proof. intros Hk. unfold with_side. destruct (timed h); [by rewrite lookup_insert_ne|by rewrite lookup_delete_ne]. Qed.

(** Both entries written, in either order. *)
Lemma rep_store_both key s n w h' n' w' :
  rep key (s, n) w -> in_memory h' ->
  w_kv w' = with_side key h' (<[HashKey key := hash_entry (main h')]> (w_kv w)) -> w_tick w' = n' -> rep key (Some h', n') w'.
Proof.
  intros R Hf E Ht. eapply hrep_write; try done; rewrite E.
  - rewrite with_side_ne by apply main_key_apart. apply lookup_insert_eq.
  - apply with_side_at.
  - intros k Hk Hx. rewrite with_side_ne by done. by rewrite lookup_insert_ne.
Qed.

(** The hash alone written, the sidecar being the same. *)
Lemma rep_store_main key s n w h' n' w' :
  rep key (s, n) w -> in_memory h' -> side_entry h' = s ≫= side_entry ->
  w_kv w' = <[HashKey key := hash_entry (main h')]> (w_kv w) -> w_tick w' = n' -> rep key (Some h', n') w'.
Proof.
  intros R Hf Hs E Ht. eapply hrep_write; try done; rewrite E.
  - apply lookup_insert_eq.
  - rewrite lookup_insert_ne by apply main_key_apart. rewrite Hs. apply R.
  - intros k Hk Hx. by rewrite lookup_insert_ne.
Qed.

Lemma hrep_kv key st w w' : rep key st w -> w_kv w' = w_kv w -> w_tick w' = w_tick w -> rep key st w'.
Proof. intros [Ho Hm Hs Hf Ht] E Et. split; rewrite ?E, ?Et; auto. Qed.

(** The state after the fields past their deadline were dropped. *)
Definition settle (st : option hfields * nat) : option hfields * nat :=
  (alive (clock_ns st.2) <$> st.1, match st.1 with Some h => if timed h then Datatypes.S st.2 else st.2 | None => st.2 end).

Lemma readHash_rep key st w :
  rep key st w ->
  exists w', readHash key w = (match (settle st).1 with None => Err ENotFound | Some h => Ok (main h, 0) end, w') /\
             rep key (settle st) w'.
Proof.
  destruct st as [s n]. intros R. unfold readHash, mbind at 1. unfold lookupKey, mbind at 1. rewrite lookupRaw_map, (find_rep key s n w R).
  unfold settle. cbn [fst snd]. destruct s as [h|]; [|by exists w]. cbn [mret fst snd Type_ Payload Expiry fmap option_fmap option_map].
  rewrite bool_decide_eq_true_2 by done. cbn [negb]. unfold mbind at 1, lift. pose proof (rep_fits _ _ _ R) as Hf. cbn in Hf.
  rewrite DecodeHash_EncodeHash by apply Hf. unfold mbind at 1. rewrite (readFieldExp_rep key h n w R).
  unfold timed at 1. case_bool_decide as E; cbn [negb].
  { rewrite alive_untimed by (unfold timed; by rewrite bool_decide_eq_true_2). by exists w. }
  unfold mbind at 1, now. rewrite (rep_tick _ _ _ R). cbn [snd]. set (w1 := mkWorld _ _ _ _).
  assert (rep key (Some h, Datatypes.S n) w1) as R1 by (destruct R; by split).
  case_bool_decide as Hd.
  { rewrite no_dead_alive by done. by exists w1. }
  rewrite main_drop, side_drop by done. unfold mbind at 1, writeHash, kvSet, on_kv. cbn [kv_set map_kv w_kv w1 w_tick w_events w_expired].
  unfold mbind at 1. rewrite writeFieldExp_world. unfold mbind, Notify, mret. cbn [w_kv w_tick w_events w_expired].
  eexists. split; [reflexivity|]. eapply rep_store_both; [exact R1| |reflexivity|done].
  eapply in_memory_sub; [apply alive_sub|done].
Qed.

(** ** Commands and their specification *)

Context `{GoUnicode}.

Definition int_arg (n : Z) : Value := BulkOf (FormatInt n).
Definition flat (ps : list (bytes * bytes)) : list Value := concat (map (fun p => [BulkOf p.1; BulkOf p.2]) ps).
Definition fields_arg (fs : list bytes) : list Value := BulkOf (lit "FIELDS") :: int_arg (len fs) :: map BulkOf fs.

(** The command a client sends. *)
Definition send (key : bytes) (o : hash_op) : M (gmap bytes bytes) Value :=
  match o with
  | HSet p ps => hset (BulkOf key :: flat (p :: ps))
  | HSetNX f v => hsetnx [BulkOf key; BulkOf f; BulkOf v]
  | HGet f => hget [BulkOf key; BulkOf f]
  | HMGet f fs => hmget (BulkOf key :: map BulkOf (f :: fs))
  | HDel f fs => hdel (BulkOf key :: map BulkOf (f :: fs))
  | HExists f => hexists [BulkOf key; BulkOf f]
  | HLen => hlen [BulkOf key]
  | HStrLen f => hstrlen [BulkOf key; BulkOf f]
  | HGetAll => hgetall [BulkOf key]
  | HKeys => hkeys [BulkOf key]
  | HVals => hvals [BulkOf key]
  | HIncrBy f n => hincrby [BulkOf key; BulkOf f; int_arg n]
  | HPExpireAt ms f fs => hexpire (BulkOf key :: int_arg ms :: fields_arg (f :: fs)) expireAbsoluteMs
  | HPersist f fs => hpersist (BulkOf key :: fields_arg (f :: fs))
  | HPTtl f fs => hpttl (BulkOf key :: fields_arg (f :: fs))
  end.

(** Integers are what a client can write and the server can store. *)
Definition op_ok (o : hash_op) : Prop :=
  match o with
  | HIncrBy _ n => is_i64 n
  | HPExpireAt ms f fs => is_i64 ms /\ is_i64 (ms * Millisecond) /\ is_i64 (len (f :: fs))
  | HPersist f fs | HPTtl f fs => is_i64 (len (f :: fs))
  | _ => True
  end.

Lemma with_hash_rep key st w m k :
  rep key st w ->
  exists w1, with_hash key m k w = match (settle st).1 with None => m w1 | Some h => k (main h) 0 w1 end /\ rep key (settle st) w1.
Proof.
  intros R. destruct (readHash_rep key st w R) as (w1 & E & R1). exists w1. split; [|done].
  unfold with_hash, mbind, attempt. rewrite E. by destruct (settle st).1.
Qed.

Lemma hash_or_new_rep key st w k :
  rep key st w ->
  exists w1, hash_or_new key k w = k (main (default ∅ (settle st).1)) 0 w1 /\ rep key (settle st) w1.
Proof.
  intros R. destruct (with_hash_rep key st w (k ∅ 0) k R) as (w1 & E & R1). exists w1. split; [|done].
  unfold hash_or_new. rewrite E. destruct (settle st).1; [done|]. cbn. unfold main. by rewrite fmap_empty.
Qed.

Lemma spec_settle o st :
  spec o st = let '(v, s2) := act o (clock_ns (settle st).2) (settle st).1 in
    (v, (s2, if reads_clock o then match (settle st).1 with Some _ => Datatypes.S (settle st).2 | None => (settle st).2 end else (settle st).2)).
Proof. destruct st as [[h|] n]; done. Qed.

(** One command: the reply and the new state are the specified ones. *)
Definition refined (o : hash_op) : Prop := forall key st w,
  rep key st w -> op_ok o -> from_option in_memory True (spec o st).2.1 ->
  exists w', send key o w = (Ok (spec o st).1, w') /\ rep key (spec o st).2 w'.

(** A command that only looks. *)
Lemma refine_read (o : hash_op) (g : hash -> Value) (v0 : Value) :
  reads_clock o = false -> (forall t s, act o t s = (match s with None => v0 | Some h => g (main h) end, s)) ->
  (forall key, send key o = with_hash key (mret v0) (fun m _ => mret (g m))) -> refined o.
Proof.
  intros Hc Ha Hs key st w R _ _. rewrite Hs, spec_settle, Ha, Hc.
  destruct (with_hash_rep key st w (mret v0) (fun m _ => mret (g m)) R) as (w1 & E & R1). exists w1. rewrite E.
  by destruct (settle st) as [[h|] n].
Qed.

Lemma map_len_main h : map_len (main h) = map_len h.
Proof. unfold map_len, main. by rewrite map_size_fmap. Qed.

Ltac reads g r := apply (refine_read _ g r); [done| |done]; intros t [h|]; cbn [act default from_option]; unfold id.

Lemma bulk_of_lookup (m : hash) f : bulk_of (m !! f) = VBulkString (m !! f).
Proof. by destruct (m !! f). Qed.

Lemma get_fields_map (fs : list bytes) (m : hash) (out : list Value) :
  get_fields (map BulkOf fs) m out = VArray (Some (out ++ map (fun f => VBulkString (m !! f)) fs)).
Proof.
  revert out. induction fs as [|f fs IH]; intros out; cbn [map get_fields BulkOf argString]; [by rewrite app_nil_r|].
  change (default [] (Some f)) with f. by rewrite IH, bulk_of_lookup, <- app_assoc.
Qed.

Lemma concat_singles {A} (g : A -> Value) l : concat (map (fun x => [g x]) l) = map g l.
Proof. induction l as [|x l IH]; cbn; [done|]. by rewrite IH. Qed.

Lemma HGet_refined f : refined (HGet f).
Proof. reads (fun m : hash => bulk_of (m !! f)) nilBulk; unfold field_opt; [by rewrite bulk_of_lookup|done]. Qed.
Lemma HExists_refined f : refined (HExists f).
Proof.
  reads (fun m : hash => VInteger (match m !! f with Some _ => 1 | None => 0 end)) (VInteger 0); [|done].
  rewrite main_lookup. by destruct (h !! f).
Qed.
Lemma HLen_refined : refined HLen.
Proof. reads (fun m : hash => VInteger (map_len m)) (VInteger 0); [by rewrite map_len_main|done]. Qed.
Lemma HStrLen_refined f : refined (HStrLen f).
Proof. reads (fun m : hash => VInteger (len (default [] (m !! f)))) (VInteger 0); done. Qed.
Lemma HKeys_refined : refined HKeys.
Proof.
  reads (fun m : hash => VArray (Some (concat (map (fun f => [BulkOf f]) (sortedHashFields m))))) (VArray (Some [])); [|done].
  unfold bulks. by rewrite concat_singles.
Qed.
Lemma HVals_refined : refined HVals.
Proof.
  reads (fun m : hash => VArray (Some (concat (map (fun f => [BulkOf (default [] (m !! f))]) (sortedHashFields m))))) (VArray (Some [])); [|done].
  unfold bulks. by rewrite concat_singles, map_map.
Qed.
Lemma HGetAll_refined : refined HGetAll.
Proof.
  reads (fun m : hash => VArray (Some (concat (map (fun f => [BulkOf f; BulkOf (default [] (m !! f))]) (sortedHashFields m))))) (VArray (Some []));
    [|done].
  unfold bulks. by rewrite concat_map, map_map.
Qed.
Lemma HMGet_refined f fs : refined (HMGet f fs).
Proof.
  apply (refine_read _ (fun m => get_fields (map BulkOf (f :: fs)) m []) (get_fields (map BulkOf (f :: fs)) ∅ [])); [done| |].
  - intros t [h|]; cbn [act default from_option]; unfold id; by rewrite get_fields_map.
  - intros key. cbn [send]. unfold hmget. destruct (Z.ltb_spec (len (BulkOf key :: map BulkOf (f :: fs))) 2) as [Hl|]; [|done].
    unfold len in Hl. cbn in Hl. lia.
Qed.

(** ** Commands that write *)

Lemma main_put f v h : main (put f v h) = <[f := v]> (main h).
Proof. unfold main, put. by rewrite fmap_insert. Qed.
Lemma side_put f v h : side (put f v h) = side h.
Proof.
  apply map_eq. intros g. rewrite !side_lookup. unfold put. destruct (decide (g = f)) as [->|Hn].
  - rewrite lookup_insert_eq. by destruct (h !! f) as [[x d]|].
  - by rewrite lookup_insert_ne.
Qed.
Lemma side_entry_eq h h' : side h' = side h -> side_entry h' = side_entry h.
Proof. intros E. unfold side_entry, timed. by rewrite E. Qed.

Lemma map_len_put f v h : map_len (put f v h) = map_len h + match h !! f with Some _ => 0 | None => 1 end.
Proof. unfold map_len, put. rewrite map_size_insert. destruct (h !! f); cbn; lia. Qed.

Lemma set_fields_put (ps : list (bytes * bytes)) h n :
  set_fields (flat ps) (main h) n =
  let h' := foldl (fun h p => put p.1 p.2 h) h ps in inl (main h', n + (map_len h' - map_len h)).
Proof.
  cbv zeta. revert h n. induction ps as [|[f v] ps IH]; intros h n; cbn [flat map concat app set_fields foldl]; [f_equal; f_equal; lia|].
  cbn [fst snd BulkOf argString]. change (default [] (Some ?x)) with x. change (concat (map _ ps)) with (flat ps).
  rewrite <- main_put, IH. do 2 f_equal. rewrite main_lookup, map_len_put. destruct (h !! f); cbn [fmap option_fmap option_map]; lia.
Qed.

Lemma side_puts (ps : list (bytes * bytes)) h : side (foldl (fun h p => put p.1 p.2 h) h ps) = side h.
Proof. revert h. induction ps as [|p ps IH]; intros h; cbn [foldl]; [done|]. by rewrite IH, side_put. Qed.

Lemma side_entry_default (s : option hfields) : side_entry (default ∅ s) = s ≫= side_entry.
Proof.
  destruct s; [done|]. cbn. unfold side_entry, timed. rewrite bool_decide_eq_true_2; [done|].
  apply map_eq. intros f. by rewrite side_lookup, !lookup_empty.
Qed.

(** The hash written, the deadlines being the same. *)
Lemma commit_main key s n w h' (class : ascii) (name : bytes) (r : Value) :
  rep key (s, n) w -> in_memory h' -> side h' = side (default ∅ s) ->
  exists w', commit (writeHash key (main h') 0) (let! _ := Notify class name key in mret r) w = (Ok r, w') /\ rep key (Some h', n) w'.
Proof.
  intros R Hf Hs. eexists. split; [reflexivity|]. eapply rep_store_main; [exact R|done| |reflexivity|apply R].
  by rewrite (side_entry_eq _ _ Hs), side_entry_default.
Qed.

Lemma HSet_refined p ps : refined (HSet p ps).
Proof.
  intros key st w R _. rewrite spec_settle. cbn [send act reads_clock snd fst from_option]. intros Hf.
  unfold hset, set_all. destruct (Z.ltb_spec (len (BulkOf key :: flat (p :: ps))) 3) as [Hl|_].
  { exfalso. unfold len in Hl. cbn in Hl. lia. }
  assert (Z.even (len (BulkOf key :: flat (p :: ps))) = false) as ->.
  { rewrite len_cons. enough (Z.even (len (flat (p :: ps))) = true) as Hx by (rewrite Z.even_add, Hx; done). clear.
    induction (p :: ps) as [|q qs IH]; [done|]. change (flat (q :: qs)) with (BulkOf q.1 :: BulkOf q.2 :: flat qs).
    rewrite !len_cons, !Z.even_add, IH. done. }
  cbn [orb]. unfold with_key. cbn [BulkOf argString]. change (default [] (Some key)) with key.
  destruct (hash_or_new_rep key st w (fun m expiry => match set_fields (flat (p :: ps)) m 0 with
    | inr e => mret e
    | inl (m', added) => commit (writeHash key m' expiry) (let! _ := Notify "h" (lit "hset") key in mret (VInteger added)) end) R)
    as (w1 & E & R1).
  rewrite E. rewrite set_fields_put. cbv zeta beta. destruct (settle st) as [s n]. cbn [fst snd] in *.
  rewrite Z.add_0_l. apply (commit_main key s n); [done|done|]. apply side_puts.
Qed.

Lemma HSetNX_refined f v : refined (HSetNX f v).
Proof.
  intros key st w R _. rewrite spec_settle. cbn [send act reads_clock]. unfold hsetnx, with_key, with_field, with_value.
  cbn [BulkOf argString]. change (default [] (Some ?x)) with x.
  destruct (hash_or_new_rep key st w (fun m expiry => match m !! f with
    | Some _ => mret (VInteger 0)
    | None => commit (writeHash key (<[f := v]> m) expiry) (let! _ := Notify "h" (lit "hset") key in mret (VInteger 1)) end) R)
    as (w1 & E & R1).
  rewrite E, main_lookup. destruct (settle st) as [s n]. cbn [fst snd] in *.
  destruct (default ∅ s !! f) eqn:Ef; cbn [fmap option_fmap option_map fst snd from_option]; intros Hf; [by exists w1|].
  rewrite <- main_put. apply (commit_main key s n); [done|done|]. apply side_put.
Qed.

Lemma HIncrBy_refined f n : refined (HIncrBy f n).
Proof.
  intros key st w R Hn. cbn [op_ok] in Hn. rewrite spec_settle. cbn [send act reads_clock]. unfold hincrby, with_key, with_field, with_int, int_arg.
  cbn [BulkOf argString]. change (default [] (Some ?x)) with x. change (default [] (Some ?x)) with x. change (default [] (Some ?x)) with x.
  rewrite ParseInt_FormatInt by done.
  edestruct (hash_or_new_rep key st w) as (w1 & E & R1); [done|]. rewrite E. clear E. destruct (settle st) as [s k]. cbn [fst snd] in *.
  destruct (match main (default ∅ s) !! f with None => _ | Some v => _ end) as [cur|] eqn:Ec; [|by exists w1].
  assert (is_i64 cur) as Hc.
  { destruct (main (default ∅ s) !! f); [by eapply ParseInt_range|]. injection Ec as <-. unfold is_i64. lia. }
  assert ((0 <? n) && (maxInt64 - n <? cur) || (n <? 0) && (cur <? minInt64 - n) = negb (bool_decide (is_i64 (cur + n)))) as ->.
  { unfold is_i64, maxInt64, minInt64 in *. case_bool_decide; cbn [negb].
    - destruct (0 <? n) eqn:E1, (2 ^ 63 - 1 - n <? cur) eqn:E2, (n <? 0) eqn:E3, (- 2 ^ 63 - n <? cur) eqn:E4, (cur <? - 2 ^ 63 - n) eqn:E5; try done; breflect; lia.
    - destruct (0 <? n) eqn:E1, (2 ^ 63 - 1 - n <? cur) eqn:E2, (n <? 0) eqn:E3, (cur <? - 2 ^ 63 - n) eqn:E5; try done; breflect; lia. }
  case_bool_decide as Hr; cbn [negb fst snd from_option]; intros Hf; [|by exists w1].
  rewrite i64_id by done. rewrite <- main_put. apply (commit_main key s k); [done|done|]. apply side_put.
Qed.

(** Both entries written as far as they changed. *)
Lemma commit_both key (s : option hfields) (n : nat) (w : W) h' (dm de : bool) (k : M (gmap bytes bytes) Value) :
  rep key (s, n) w -> in_memory h' -> (dm = false -> exists h, s = Some h /\ main h' = main h) ->
  (de = false -> side h' = side (default ∅ s)) ->
  exists w', commit (if dm then writeHash key (main h') 0 else mret ())
               (commit (if de then writeFieldExp key (side h') else mret ()) k) w = k w' /\ rep key (Some h', n) w'.
Proof.
  intros R Hf Hm Hs.
  assert (exists w1, commit (if dm then writeHash key (main h') 0 else mret ())
    (commit (if de then writeFieldExp key (side h') else mret ()) k) w = commit (if de then writeFieldExp key (side h') else mret ()) k w1 /\
    w_kv w1 !! HashKey key = Some (hash_entry (main h')) /\ (forall x, x <> HashKey key -> w_kv w1 !! x = w_kv w !! x) /\ w_tick w1 = n)
    as (w1 & -> & Hk1 & Ho1 & Ht1).
  { destruct dm.
    - eexists. split; [reflexivity|]. cbn. rewrite lookup_insert_eq. split_and!; [done| |apply R]. intros x Hx. by rewrite lookup_insert_ne.
    - exists w. destruct (Hm eq_refl) as (h & -> & E). split; [done|]. split_and!; [|done|apply R]. rewrite (rep_main _ _ _ R). cbn. by rewrite E. }
  assert (exists w2, commit (if de then writeFieldExp key (side h') else mret ()) k w1 = k w2 /\
    w_kv w2 !! HashExpKey key = side_entry h' /\ (forall x, x <> HashExpKey key -> w_kv w2 !! x = w_kv w1 !! x) /\ w_tick w2 = n)
    as (w2 & -> & Hk2 & Ho2 & Ht2).
  { destruct de.
    - unfold commit, mbind, attempt. rewrite writeFieldExp_world. eexists. split; [reflexivity|]. cbn.
      split_and!; [apply with_side_at| |done]. intros x Hx. by rewrite with_side_ne.
    - exists w1. split; [done|]. split_and!; try done. rewrite Ho1 by (symmetry; apply main_key_apart).
      rewrite (rep_side _ _ _ R). cbn. by rewrite (side_entry_eq _ _ (Hs eq_refl)), side_entry_default. }
  exists w2. split; [done|]. eapply hrep_write; [exact R|done|rewrite Ho2 by apply main_key_apart; done|done| |done].
  intros x Hx Hx'. by rewrite Ho2, Ho1.
Qed.

Lemma main_delete f h : main (delete f h) = delete f (main h).
Proof. unfold main. by rewrite fmap_delete. Qed.
Lemma side_delete f h : side (delete f h) = delete f (side h).
Proof. unfold side. by rewrite omap_delete. Qed.
Lemma without_cons f (fs : list bytes) h : without (f :: fs) h = without fs (delete f h).
Proof.
  apply map_eq. intros g. apply option_eq. intros x. unfold without.
  rewrite !map_lookup_filter_Some, lookup_delete_Some. cbn. rewrite not_elem_of_cons. naive_solver.
Qed.
Lemma map_len_delete f h : map_len (delete f h) = map_len h - match h !! f with Some _ => 1 | None => 0 end.
Proof.
  unfold map_len. rewrite map_size_delete. destruct (h !! f) eqn:E; cbn; [|lia].
  pose proof (map_size_ne_0_lookup_2 h f ltac:(eauto)). lia.
Qed.

Lemma del_fields_without (fs : list bytes) h (d : Z) (dirty : bool) :
  exists dirty', del_fields (map BulkOf fs) (main h) (side h) d dirty =
    (main (without fs h), side (without fs h), d + (map_len h - map_len (without fs h)), dirty') /\
    (dirty' = false -> dirty = false /\ side (without fs h) = side h).
Proof.
  revert h d dirty. induction fs as [|f fs IH]; intros h d dirty; cbn [map del_fields BulkOf argString].
  - exists dirty. assert (without [] h = h) as ->. { unfold without. apply map_filter_id. intros. cbn. apply not_elem_of_nil. }
    split; [|done]. f_equal. f_equal. lia.
  - change (default [] (Some f)) with f. rewrite <- main_delete, <- side_delete, without_cons.
    destruct (IH (delete f h) (match main h !! f with Some _ => d + 1 | None => d end)
                (match side h !! f with Some _ => true | None => dirty end)) as (dirty' & E & Hd).
    exists dirty'. rewrite E, main_lookup, map_len_delete. split.
    + do 2 f_equal. destruct (h !! f); cbn [fmap option_fmap option_map]; lia.
    + intros Ef. destruct (Hd Ef) as [Hn Hs]. rewrite Hs, side_delete. destruct (side h !! f) eqn:Es; [done|].
      split; [done|]. by apply delete_id.
Qed.

Lemma without_sub (fs : list bytes) h : without fs h ⊆ h.
Proof. apply map_filter_subseteq. Qed.

(** The last field gone, both entries are deleted. *)
Lemma commit_gone key h (n : nat) (w : W) (dirty : bool) (k : M (gmap bytes bytes) Value) :
  rep key (Some h, n) w -> (dirty = false -> side h = ∅) ->
  exists w', commit (kvDelete (HashKey key)) (commit (if dirty then writeFieldExp key ∅ else mret ()) k) w = k w' /\ rep key (None, n) w'.
Proof.
  intros R Hd. assert (exists w', commit (kvDelete (HashKey key)) (commit (if dirty then writeFieldExp key ∅ else mret ()) k) w = k w' /\
    w_kv w' !! HashKey key = None /\ w_kv w' !! HashExpKey key = None /\
    (forall x, x <> HashKey key -> x <> HashExpKey key -> w_kv w' !! x = w_kv w !! x) /\ w_tick w' = n) as (w' & E & Hm & Hs & Ho & Ht).
  { destruct dirty.
    - eexists. split; [reflexivity|]. cbn. split_and!; [| |intros x Hx Hx'; by rewrite !lookup_delete_ne|apply R].
      + rewrite lookup_delete_ne by (symmetry; apply main_key_apart). apply lookup_delete_eq.
      + apply lookup_delete_eq.
    - eexists. split; [reflexivity|]. cbn. split_and!; [apply lookup_delete_eq| |intros x Hx _; by rewrite lookup_delete_ne|apply R].
      rewrite lookup_delete_ne by apply main_key_apart. rewrite (rep_side _ _ _ R). cbn. unfold side_entry, timed.
      by rewrite bool_decide_eq_true_2 by auto. }
  exists w'. split; [done|]. split; try done. intros p Hp Hh Hx. rewrite Ho by (unfold HashKey, HashExpKey; by apply prefix_apart). by apply R.
Qed.

Lemma side_empty : side ∅ = ∅.
Proof. apply map_eq. intros f. by rewrite side_lookup, !lookup_empty. Qed.

Lemma HDel_refined f fs : refined (HDel f fs).
Proof.
  intros key st w R _. rewrite spec_settle. cbn [send act reads_clock]. unfold hdel.
  destruct (Z.ltb_spec (len (BulkOf key :: map BulkOf (f :: fs))) 2) as [Hl|_]; [unfold len in Hl; cbn in Hl; lia|].
  unfold with_key. cbn [BulkOf argString]. change (default [] (Some key)) with key.
  edestruct (with_hash_rep key st w) as (w1 & E & R1); [done|]. rewrite E. clear E. destruct (settle st) as [[h|] n]; cbn [fst snd] in *.
  2: { intros _. exists w1. split; [done|]. by rewrite bool_decide_eq_false_2 by (intros [_ []]; done). }
  cbn [fmap option_fmap option_map default from_option fst snd]. unfold id. unfold mbind at 1. rewrite (readFieldExp_rep key h n w1 R1).
  destruct (del_fields_without (f :: fs) h 0 false) as (dirty & -> & Hd). set (h' := without (f :: fs) h) in *. rewrite Z.add_0_l.
  assert (0 < map_len h - map_len h' <-> h' <> h) as Hz.
  { pose proof (map_subseteq_size _ _ (without_sub (f :: fs) h)) as Hsz. fold h' in Hsz. unfold map_len. split; [intros ? E; rewrite E in *; lia|].
    intros Hn. enough (size h' <> size h) by lia. intros E. apply Hn. apply map_subseteq_size_eq; [apply without_sub|lia]. }
  assert ((bool_decide (main h' = ∅) && (0 <? map_len h - map_len h')) = bool_decide (h' = ∅ /\ h <> ∅)) as ->.
  { apply eq_bool_prop_intro. rewrite andb_True, !bool_decide_spec, Is_true_true, Z.ltb_lt, Hz, main_empty.
    clear. split; intros [E1 E2]; (split; [exact E1|]); congruence. }
  clearbody h'. intros Hf. case_bool_decide as He.
  - destruct He as [He Hne]. rewrite (bool_decide_eq_true_2 (main h' = ∅)) by (exact (proj2 (main_empty h') He)).
    assert (side h' = ∅) as -> by (rewrite He; apply side_empty).
    edestruct (commit_gone key h n w1 dirty) as (w2 & E & R2); [done| |rewrite E].
    { intros Hn. destruct (Hd Hn) as [_ Hs]. rewrite <- Hs, He. apply side_empty. }
    rewrite (proj2 (Z.ltb_lt 0 _)) by (apply Hz; congruence). eexists. split; [reflexivity|]. by eapply hrep_kv.
  - set (k := mbind _ _). destruct (commit_both key (Some h) n w1 h' true dirty k R1) as (w2 & E & R2); [done|done|apply Hd|].
    cbn [fst snd] in *. unfold commit at 1 in E. unfold commit at 1. rewrite E. unfold k, mbind. destruct (0 <? _); [|by exists w2].
    unfold Notify. cbn. case_bool_decide; (eexists; split; [reflexivity|]; by eapply hrep_kv).
Qed.

(** ** Deadlines *)

Lemma main_set_deadline f d h : main (set_deadline f d h) = main h.
Proof.
  apply map_eq. intros g. rewrite !main_lookup. unfold set_deadline. destruct (decide (g = f)) as [->|Hn].
  - rewrite lookup_alter_eq. by destruct (h !! f).
  - by rewrite lookup_alter_ne.
Qed.
Lemma side_set_Some f e h : is_Some (h !! f) -> side (set_deadline f (Some e) h) = <[f := FormatInt e]> (side h).
Proof.
  intros [p Hp]. apply map_eq. intros g. rewrite side_lookup. unfold set_deadline. destruct (decide (g = f)) as [->|Hn].
  - by rewrite lookup_alter_eq, lookup_insert_eq, Hp.
  - by rewrite lookup_alter_ne, lookup_insert_ne, side_lookup.
Qed.
Lemma side_set_None f h : side (set_deadline f None h) = delete f (side h).
Proof.
  apply map_eq. intros g. rewrite side_lookup. unfold set_deadline. destruct (decide (g = f)) as [->|Hn].
  - rewrite lookup_alter_eq, lookup_delete_eq. by destruct (h !! f).
  - by rewrite lookup_alter_ne, lookup_delete_ne, side_lookup.
Qed.

Lemma hexpire_loop_each (t e : Z) (fs : list bytes) h (out : list Value) (dm de : bool) :
  exists dm' de', hexpire_loop hexpireNone e t (map BulkOf fs) (mkHex (main h) (side h) out dm de) =
    (let '(ns, h') := each (expire_one t e) fs h in Some (mkHex (main h') (side h') (out ++ map VInteger ns) dm' de')) /\
    (dm' = false -> dm = false /\ main (each (expire_one t e) fs h).2 = main h) /\
    (de' = false -> de = false /\ side (each (expire_one t e) fs h).2 = side h).
Proof.
  revert h out dm de. induction fs as [|f fs IH]; intros h out dm de; cbn [map hexpire_loop BulkOf argString each].
  { exists dm, de. cbn. by rewrite app_nil_r. }
  change (default [] (Some f)) with f. unfold hexpire_field. assert (Hone := eq_refl (expire_one t e f h)). unfold expire_one in Hone at 2. cbn [hx_main hx_side hx_out hx_dirtyMain hx_dirtyExp hcond_applies negb].
  rewrite main_lookup. destruct (h !! f) as [p|] eqn:Ef; cbn [fmap option_fmap option_map].
  - destruct (e <=? t); rewrite Hone.
    + rewrite <- main_delete, <- side_delete. destruct (IH (delete f h) (out ++ [VInteger 1]) true true) as (dm' & de' & E & Hm & He).
      exists dm', de'. rewrite E. destruct (each _ fs (delete f h)) as [ns h']. cbn [snd] in *. rewrite <- app_assoc.
      split_and!; [done|intros X; by destruct (Hm X)|intros X; by destruct (He X)].
    + rewrite <- (side_set_Some f e h) by eauto.
      destruct (IH (set_deadline f (Some e) h) (out ++ [VInteger 1]) dm true) as (dm' & de' & E & Hm & He).
      rewrite main_set_deadline in E, Hm. exists dm', de'. rewrite E. destruct (each _ fs (set_deadline f (Some e) h)) as [ns h']. cbn [snd] in *. rewrite <- app_assoc.
      split_and!; [done|done|intros X; by destruct (He X)].
  - rewrite Hone. destruct (IH h (out ++ [VInteger (-2)]) dm de) as (dm' & de' & E & Hm & He). exists dm', de'. rewrite E.
    destruct (each _ fs h) as [ns h']. cbn [snd] in *. rewrite <- app_assoc. done.
Qed.

Lemma persist_fields_each (fs : list bytes) (m : hash) h (out : list Value) (dirty : bool) :
  m = main h ->
  exists dirty', persist_fields fs m (side h) out dirty =
    (let '(ns, h') := each persist_one fs h in (side h', out ++ map VInteger ns, dirty')) /\
    main (each persist_one fs h).2 = main h /\ (dirty' = false -> dirty = false /\ (each persist_one fs h).2 = h).
Proof.
  intros ->. revert h out dirty. induction fs as [|f fs IH]; intros h out dirty; cbn [persist_fields each].
  { exists dirty. cbn. by rewrite app_nil_r. }
  rewrite main_lookup, side_lookup. assert (Hone := eq_refl (persist_one f h)). unfold persist_one in Hone at 2.
  destruct (h !! f) as [[v [e|]]|] eqn:Ef; rewrite Hone; cbn [fmap option_fmap option_map fst snd].
  - rewrite <- side_set_None.
    destruct (IH (set_deadline f None h) (out ++ [VInteger 1]) true) as (d' & E & Hm & Hd).
    rewrite main_set_deadline in E, Hm. exists d'. rewrite E. destruct (each _ fs (set_deadline f None h)) as [ns h']. cbn [snd] in *. rewrite <- app_assoc.
    split_and!; [done|done|intros X; by destruct (Hd X)].
  - destruct (IH h (out ++ [VInteger (-1)]) dirty) as (d' & E & Hm & Hd). exists d'. rewrite E.
    destruct (each _ fs h) as [ns h']. cbn [snd] in *. by rewrite <- app_assoc.
  - destruct (IH h (out ++ [VInteger (-2)]) dirty) as (d' & E & Hm & Hd). exists d'. rewrite E.
    destruct (each _ fs h) as [ns h']. cbn [snd] in *. by rewrite <- app_assoc.
Qed.

Lemma fields_clause_arg (fs : list bytes) :
  fs <> [] -> is_i64 (len fs) -> fields_clause (fields_arg fs) = Some (map BulkOf fs).
Proof.
  intros Hn Hl. unfold fields_arg, fields_clause, int_arg. cbn [is_FIELDS BulkOf argString]. change (default [] (Some ?x)) with x.
  change (bytes_eqb (ToUpper (lit "FIELDS")) (lit "FIELDS")) with true. cbn [negb]. rewrite ParseInt_FormatInt by done.
  assert (len (map BulkOf fs) = len fs) as -> by (unfold len; by rewrite length_map).
  rewrite Z.eqb_refl. destruct (Z.leb_spec (len fs) 0) as [Hz|]; [|done]. destruct fs; [done|]. rewrite len_cons in Hz. pose proof (len_nonneg fs). lia.
Qed.

Lemma arg_names_bulk (fs : list bytes) : arg_names (map BulkOf fs) = Some fs.
Proof. induction fs as [|f fs IH]; cbn [map arg_names BulkOf argString]; [done|]. by rewrite IH. Qed.

Lemma httlFields_arg key f (fs : list bytes) :
  is_i64 (len (f :: fs)) -> httlFields (BulkOf key :: fields_arg (f :: fs)) = inl (mkTtl key (f :: fs)).
Proof.
  intros Hl. pose proof (fields_clause_arg (f :: fs) ltac:(done) Hl) as E. unfold fields_arg in *. unfold httlFields.
  change (is_FIELDS (BulkOf (lit "FIELDS"))) with true. rewrite E, arg_names_bulk. done.
Qed.

Lemma missing_ints (fs : list bytes) (one : bytes -> hfields -> Z * hfields) :
  (forall f, one f ∅ = (-2, ∅)) -> each one fs ∅ = (replicate (length fs) (-2), ∅).
Proof. intros Ho. induction fs as [|f fs IH]; cbn [each replicate length]; [done|]. by rewrite Ho, IH. Qed.

Lemma httlMissing_ints (fs : list bytes) : httlMissing (len fs) = ints (replicate (length fs) (-2)).
Proof. unfold httlMissing, ints, len. rewrite Nat2Z.id. do 2 f_equal. symmetry. apply fmap_replicate. Qed.

Lemma HPExpireAt_refined ms f fs : refined (HPExpireAt ms f fs).
Proof.
  intros key st w R (Hms & Hns & Hl). rewrite spec_settle. cbn [send act reads_clock]. unfold hexpire.
  destruct (Z.ltb_spec (len (BulkOf key :: int_arg ms :: fields_arg (f :: fs))) 4) as [Hlt|_].
  { unfold len in Hlt. cbn in Hlt. lia. }
  unfold fields_arg at 1. unfold with_key, with_int, int_arg at 1. cbn [BulkOf argString]. change (default [] (Some ?x)) with x.
  change (default [] (Some ?x)) with x. rewrite ParseInt_FormatInt by done.
  change (parse_hcond (BulkOf (lit "FIELDS"))) with (@None hexpireCond). cbv beta iota.
  change (BulkOf (lit "FIELDS") :: int_arg (len (f :: fs)) :: map BulkOf (f :: fs)) with (fields_arg (f :: fs)).
  rewrite fields_clause_arg by done. unfold mbind at 1. cbn [expire_at mret]. unfold unix_ms. rewrite i64_id by done.
  edestruct (with_hash_rep key st w) as (w1 & E & R1); [done|]. rewrite E. clear E. set (e := ms * Millisecond).
  assert (len (map BulkOf (f :: fs)) = len (f :: fs)) as -> by (unfold len; by rewrite length_map).
  destruct (settle st) as [[h|] n]; cbn [fst snd default from_option] in *; unfold id.
  2: { rewrite missing_ints by done. cbn [fmap option_fmap option_map fst snd]. rewrite httlMissing_ints. by exists w1. }
  unfold mbind at 1. rewrite (readFieldExp_rep key h n w1 R1). unfold mbind at 1, now. rewrite (rep_tick _ _ _ R1). cbn [snd].
  set (w2 := mkWorld _ _ _ _). assert (rep key (Some h, Datatypes.S n) w2) as R2 by (destruct R1; by split).
  destruct (hexpire_loop_each (clock_ns n) e (f :: fs) h [] false false) as (dm & de & El & Hm & He). rewrite El.
  destruct (each (expire_one (clock_ns n) e) (f :: fs) h) as [ns h'] eqn:Ee. cbn [fst snd fmap option_fmap option_map from_option] in *. intros Hf.
  cbn [hx_main hx_side hx_out hx_dirtyMain hx_dirtyExp app].
  edestruct (commit_both key (Some h) (Datatypes.S n) w2 h' dm de) as (w3 & E & R3); [exact R2|done| | |rewrite E].
  - intros X. destruct (Hm X) as [_ ->]. eauto.
  - intros X. by destruct (He X) as [_ ->].
  - eexists. split; [reflexivity|]. by eapply hrep_kv.
Qed.

Lemma HPersist_refined f fs : refined (HPersist f fs).
Proof.
  intros key st w R Hl. rewrite spec_settle. cbn [send act reads_clock]. unfold hpersist. rewrite httlFields_arg by done. cbn [tf_key tf_names].
  edestruct (with_hash_rep key st w) as (w1 & E & R1); [done|]. rewrite E. clear E.
  destruct (settle st) as [[h|] n]; cbn [fst snd default from_option] in *; unfold id.
  2: { rewrite missing_ints by done. cbn [fmap option_fmap option_map fst snd]. rewrite httlMissing_ints. by exists w1. }
  unfold mbind at 1. rewrite (readFieldExp_rep key h n w1 R1).
  destruct (persist_fields_each (f :: fs) (main h) h [] false eq_refl) as (dirty & E & Hm & Hd). rewrite E.
  destruct (each persist_one (f :: fs) h) as [ns h']. cbn [fst snd fmap option_fmap option_map from_option app] in *. intros Hf.
  destruct dirty; [|exists w1; destruct (Hd eq_refl) as [_ ->]; done].
  edestruct (commit_both key (Some h) n w1 h' false true) as (w2 & E2 & R2); [exact R1|done|eauto|done|].
  change (commit (mret ()) ?k w1) with (k w1) in E2. rewrite E2. eexists. split; [reflexivity|]. by eapply hrep_kv.
Qed.

Lemma missing_ttl (t : Z) (fs : list bytes) : replicate (length fs) (-2) = map (ttl_of t ∅) fs.
Proof. induction fs as [|f fs IH]; [done|]. cbn [length replicate map]. by rewrite IH. Qed.

Lemma HPTtl_refined f fs : refined (HPTtl f fs).
Proof.
  intros key st w R Hl. rewrite spec_settle. cbn [send act reads_clock]. unfold hpttl, hfieldttl, field_times.
  rewrite httlFields_arg by done. cbn [tf_key tf_names].
  edestruct (with_hash_rep key st w) as (w1 & E & R1); [done|]. rewrite E. clear E. intros _.
  destruct (settle st) as [[h|] n]; cbn [fst snd default from_option] in *; unfold id.
  2: { exists w1. split; [|done]. rewrite httlMissing_ints. unfold mret, ints. do 5 f_equal.
       apply missing_ttl. }
  unfold mbind at 1. rewrite (readFieldExp_rep key h n w1 R1). unfold mbind at 1, now. rewrite (rep_tick _ _ _ R1). cbn [snd].
  set (w2 := mkWorld _ _ _ _). exists w2. split; [|destruct R1; by split]. unfold mret, ints. do 4 f_equal. rewrite map_map. apply map_ext. intros g.
  unfold field_time, ttl_of. rewrite main_lookup, side_lookup. pose proof (rep_fits _ _ _ R1) as (_ & _ & Hi).
  destruct (h !! g) as [[v [d|]]|] eqn:Eg; cbn; try done. rewrite ParseInt_FormatInt by (apply (Hi g _ Eg)). by destruct (d <=? clock_ns n).
Qed.

Lemma every_hash_refined o : refined o.
Proof.
  destruct o; auto using HSet_refined, HSetNX_refined, HGet_refined, HMGet_refined, HDel_refined, HExists_refined, HLen_refined,
    HStrLen_refined, HGetAll_refined, HKeys_refined, HVals_refined, HIncrBy_refined, HPExpireAt_refined, HPersist_refined, HPTtl_refined.
Qed.

(** Every state the run goes through fits in memory. *)
Fixpoint fits (ops : list hash_op) (st : option hfields * nat) : Prop :=
  match ops with
  | [] => True
  | o :: os => from_option in_memory True (spec o st).2.1 /\ fits os (spec o st).2
  end.

Fixpoint spec_run (ops : list hash_op) (st : option hfields * nat) : list (result Value) * (option hfields * nat) :=
  match ops with
  | [] => ([], st)
  | o :: os => let '(v, st1) := spec o st in let '(vs, st2) := spec_run os st1 in (Ok v :: vs, st2)
  end.

Fixpoint send_run (key : bytes) (ops : list hash_op) (w : W) : list (result Value) * W :=
  match ops with
  | [] => ([], w)
  | o :: os => let '(v, w1) := send key o w in let '(vs, w2) := send_run key os w1 in (v :: vs, w2)
  end.


(** ** What an empty hash does *)

(** When the last deadline passes, the read that drops the fields leaves an
    empty hash behind: the key still exists, unlike after HDEL of the last
    field. *)
Theorem expired_fields_leave_key key h n w :
  rep key (Some h, n) w -> timed h = true -> alive (clock_ns n) h = ∅ ->
  exists w', hlen [BulkOf key] w = (Ok (VInteger 0), w') /\ rep key (Some ∅, Datatypes.S n) w' /\
             (exists_ [BulkOf key] w').1 = Ok (VInteger 1).
Proof.
  intros R Ht Ha. destruct (with_hash_rep key (Some h, n) w (mret (VInteger 0)) (fun m _ => mret (VInteger (map_len m))) R) as (w1 & E & R1).
  unfold settle in E, R1. cbn [fst snd fmap option_fmap option_map] in E, R1. rewrite Ht, Ha in *. exists w1. split_and!; [|done|].
  - unfold hlen, with_key. cbn [BulkOf argString]. change (default [] (Some key)) with key. by rewrite E, map_len_main.
  - unfold exists_. change (len [BulkOf key] <? 1) with false. cbn [exists_loop BulkOf argString]. change (default [] (Some key)) with key. unfold mbind at 1, attempt.
    rewrite getAny_map, (find_rep _ _ _ _ R1). done.
Qed.

(** HRANDFIELD with a negative count draws from no fields and panics. *)
Theorem hrandfield_empty_panics `{MapRand} key n w :
  range_order ∅ = [] -> rep key (Some ∅, n) w -> (hrandfield [BulkOf key; int_arg (-1)] w).1 = Panic.
Proof.
  intros Ho R. unfold hrandfield, with_key. cbn [BulkOf argString]. change (default [] (Some key)) with key.
  destruct (Z.ltb_spec 3 (len [BulkOf key; int_arg (-1)])) as [Hl|_]; [unfold len in Hl; cbn in Hl; lia|].
  edestruct (with_hash_rep key (Some ∅, n) w) as (w1 & E & R1); [done|]. rewrite E. unfold settle. cbn [fst snd fmap option_fmap option_map].
  assert (main (alive (clock_ns n) ∅) = ∅) as -> by (apply map_eq; intros f; by rewrite main_lookup, alive_lookup, !lookup_empty).
  unfold with_int, int_arg. cbn [BulkOf argString]. change (default [] (Some ?x)) with x. rewrite ParseInt_FormatInt by (unfold is_i64; lia).
  cbn [Z.leb Z.compare]. rewrite Ho. reflexivity.
Qed.

End spec.

(** ** Runs *)

#[local] Instance is_u64_dec n : Decision (is_u64 n).
Proof. unfold is_u64. apply _. Defined.
#[local] Instance is_i64_dec n : Decision (is_i64 n).
Proof. unfold is_i64. apply _. Defined.
#[local] Instance str_ok_dec s : Decision (str_ok s).
Proof. unfold str_ok. apply _. Defined.
#[local] Instance hash_ok_dec m : Decision (hash_ok m).
Proof. unfold hash_ok. apply _. Defined.
#[local] Instance in_memory_dec h : Decision (in_memory h).
Proof. unfold in_memory. refine (and_dec _ (and_dec _ (map_Forall_dec _ _))). intros f [v [e|]]; cbn; apply _. Defined.
#[local] Instance from_in_memory_dec s : Decision (from_option in_memory True s).
Proof. destruct s; cbn; apply _. Defined.
#[local] Instance fits_dec `{Clock} ops st : Decision (fits ops st).
Proof. revert st. induction ops as [|o os IH]; intros st; cbn [fits]; apply _. Defined.

Definition deadline : Z := 1.
Definition demo_ops : list hash_op :=
  [HSet (lit "a", lit "1") [(lit "b", lit "2"); (lit "a", lit "3")]; HPExpireAt deadline (lit "b") [lit "zz"]; HPTtl (lit "a") [lit "b"];
   HIncrBy (lit "a") 4; HGetAll; HDel (lit "a") [lit "zz"]; HLen].

(** A clock that stands before the deadline for a while and passes it then. *)
Definition jump_clock : Clock := {| clock_ns := fun n => if (n <? 4)%nat then 1000 else 2000000 |}.

Example demo_spec :
  (@spec_run jump_clock demo_ops (None, 0%nat)).1 =
  [Ok (VInteger 2); Ok (ints [1; -2]); Ok (ints [-1; 0]); Ok (VInteger 7);
   Ok (bulks (map lit ["a"; "7"]%string)); Ok (VInteger 1); Ok (VInteger 0)].
Proof. vm_compute. reflexivity. Qed.

Lemma empty_rep key : rep key (None, 0%nat) empty_world.
Proof. by split. Qed.


(** HSCAN adds the count to the cursor without a bound. *)
Example hscan_huge_count_panics :
  (@hscan _ map_kv step_clock ascii_tables [BulkOf (lit "k"); BulkOf (lit "1"); BulkOf (lit "COUNT"); int_arg maxInt64]
     (world_of [(HashKey (lit "k"), hash_entry {[lit "a" := lit "1"; lit "b" := lit "2"]})])).1 = Panic.
Proof. vm_compute. reflexivity. Qed.

(** A hash past its expiry whose field has a deadline. *)
Definition expiring : world (gmap bytes bytes) :=
  world_of [(HashKey (lit "k"), Encode TypeHash 5 (EncodeHash {[lit "a" := lit "1"]}));
            (HashExpKey (lit "k"), hash_entry {[lit "a" := lit "9000"]})].

(** The sweep deletes the hash and leaves its sidecar, which lookup takes for a
    hash of the same name: the key still exists and answers the deadline as
    the value. *)
Example swept_hash_leaves_ghost :
  let w := (@SweepOnce _ map_kv step_clock expiring).2 in
  w_kv w !! HashKey (lit "k") = None /\
  (@hgetall _ map_kv step_clock [BulkOf (lit "k")] w).1 = Ok (bulks (map lit ["a"; "9000"]%string)).
Proof. vm_compute. done. Qed.

End hashspec.
