(* ===== verification/CmdSet.v ===== *)
(** * Set commands (src/internal/commands/set.go, set_ops.go)

    A set is stored as the sorted list of its members; in memory it is a
    [gset].  Ranging over a Go map only matters for the random commands, which
    draw from the sorted members. *)

From S2P Require Import Prelude GoLib GoStrings GoPath Resp Codec Kv Cmd CmdString CmdList CmdKeys CmdHash.
Open Scope Z_scope.
Open Scope gedis_scope.

Module setcmd.
Import datastruct keycmd hashcmd.
Import listcmd (toBulkArray).

Definition set_len (s : gset bytes) : Z := Z.of_nat (size s).
Definition sortedMembers (s : gset bytes) : list bytes := sortStrings (elements s).

(** SADD's loop: the set and the number of new members. *)
Fixpoint add_members (args : list Value) (s : gset bytes) (added : Z) : option (gset bytes * Z) :=
  match args with
  | [] => Some (s, added)
  | a :: rest =>
      match argString a with
      | None => None
      | Some m => if bool_decide (m ∈ s) then add_members rest s added else add_members rest ({[m]} ∪ s) (added + 1)
      end
  end.

(** SREM's loop; what is not a string is skipped. *)
Fixpoint remove_members (args : list Value) (s : gset bytes) (deleted : Z) : gset bytes * Z :=
  match args with
  | [] => (s, deleted)
  | a :: rest =>
      match argString a with
      | None => remove_members rest s deleted
      | Some m => if bool_decide (m ∈ s) then remove_members rest (s ∖ {[m]}) (deleted + 1) else remove_members rest s deleted
      end
  end.

Definition bit_of (b : bool) : Z := if b then 1 else 0.

Fixpoint are_members (args : list Value) (s : gset bytes) (out : list Value) : Value :=
  match args with
  | [] => VArray (Some out)
  | a :: rest =>
      match argString a with
      | None => errS "ERR invalid member"
      | Some m => are_members rest s (out ++ [VInteger (bit_of (bool_decide (m ∈ s)))])
      end
  end.

(** The count of SPOP and SRANDMEMBER, and whether there is one. *)
Definition popCount (args : list Value) (allowNegative : bool) : (Z * bool) + Value :=
  match args with
  | _ :: c :: _ =>
      match argString c with
      | None => inr err_int
      | Some cs => match ParseInt cs with
                   | None => inr err_int
                   | Some n => if negb allowNegative && (n <? 0) then inr err_int else inl (n, true)
                   end
      end
  | _ => inl (1, false)
  end.

(** [members[perm[i]]] for i below [count]. *)
Definition permuted `{MapRand} (members : list bytes) (count : Z) : result (list bytes) :=
  let? ix := slice (perm (len members)) 0 count in
  Ok (map (fun i => default [] (members !! i)) ix).

(** The n draws [members[rand.Intn(len(members))]] from the i-th on. *)
Fixpoint drawn `{MapRand} (members : list bytes) (i n : nat) : result (list bytes) :=
  match n with
  | O => Ok []
  | S n' => let? m := pick_field members i in let? rest := drawn members (S i) n' in Ok (m :: rest)
  end.

(** ** Set algebra (set_ops.go); the list of sets is never empty *)

Definition interSets (sets : list (gset bytes)) : gset bytes :=
  match sets with
  | [] => ∅
  | s0 :: rest => filter (fun m => Forall (fun s : gset bytes => m ∈ s) rest) s0
  end.

Definition unionSets (sets : list (gset bytes)) : gset bytes := foldl (fun out s => out ∪ s) ∅ sets.

Definition diffSets (sets : list (gset bytes)) : gset bytes :=
  match sets with
  | [] => ∅
  | s0 :: rest => filter (fun m => ~ Exists (fun s : gset bytes => m ∈ s) rest) s0
  end.

(** The index of the first smallest set. *)
Fixpoint smallest_from (sets : list (gset bytes)) (i best : nat) (size_best : nat) : nat :=
  match sets with
  | [] => best
  | s :: rest => if (size s <? size_best)%nat then smallest_from rest (S i) i (size s) else smallest_from rest (S i) best size_best
  end.
Definition smallest (sets : list (gset bytes)) : nat :=
  match sets with [] => 0%nat | s :: rest => smallest_from rest 1 0 (size s) end.

(** The count stops at a positive limit. *)
Fixpoint card_loop (members : list bytes) (hit : bytes -> bool) (limit n : Z) : Z :=
  match members with
  | [] => n
  | m :: rest =>
      if hit m then if (0 <? limit) && (limit <=? n + 1) then n + 1 else card_loop rest hit limit (n + 1)
      else card_loop rest hit limit n
  end.

(** [i == smallest] is skipped. *)
Definition in_others (sets : list (gset bytes)) (best : nat) (m : bytes) : bool :=
  forallb (fun '(i, s) => Nat.eqb i best || bool_decide (m ∈ s)) (zip (seq 0 (length sets)) sets).

Definition intersection_card (sets : list (gset bytes)) (limit : Z) : Z :=
  let best := smallest sets in
  card_loop (elements (default ∅ (sets !! best))) (in_others sets best) limit 0.

Fixpoint setKeys (args : list Value) : option (list bytes) :=
  match args with
  | [] => Some []
  | a :: rest => match argString a, setKeys rest with Some k, Some ks => Some (k :: ks) | _, _ => None end
  end.

Section handlers.
Context {S : Type} `{KV S} `{Clock} `{GoUnicode}.

Definition readSet (key : bytes) : M S (gset bytes * Z) :=
  let! e := lookupKey key in
  if negb (bool_decide (Type_ e = TypeSet)) then merr WRONGTYPE
  else let! (s, _) := lift (DecodeSet (Payload e)) in mret (s, Expiry e).

Definition writeSet (key : bytes) (s : gset bytes) (expiry : Z) : M S unit :=
  kvSet (SetKey key) (Encode TypeSet expiry (EncodeSet (elements s))).

Definition with_set (key : bytes) (missing : M S Value) (k : gset bytes -> Z -> M S Value) : M S Value :=
  let! r := attempt (readSet key) in
  match r with
  | inr e => if isNotFound e then missing else mret (errValue e)
  | inl (s, expiry) => k s expiry
  end.

Definition set_or_new (key : bytes) (k : gset bytes -> Z -> M S Value) : M S Value := with_set key (k ∅ 0) k.

Definition with_member (a : Value) (k : bytes -> M S Value) : M S Value :=
  match argString a with None => mret (errS "ERR invalid member") | Some m => k m end.

(** ** set.go *)

Definition sadd (args : list Value) : M S Value :=
  match args with
  | a :: ms =>
      if len args <? 2 then mret (wrong_args "sadd")
      else with_key a (fun key => set_or_new key (fun s expiry =>
        match add_members ms s 0 with
        | None => mret (errS "ERR invalid member")
        | Some (s', added) =>
            commit (writeSet key s' expiry) (let! _ := Notify "s" (lit "sadd") key in mret (VInteger added))
        end))
  | [] => mret (wrong_args "sadd")
  end.

(** The set written back, or deleted when empty; [name] is announced when
    something was taken out. *)
Definition put_back (key : bytes) (s : gset bytes) (expiry : Z) (name : bytes) (taken : bool) (k : M S Value) : M S Value :=
  if bool_decide (s = ∅) then
    commit (kvDelete (SetKey key))
      (let! _ := (if taken then let! _ := Notify "s" name key in Notify "g" (lit "del") key else mret ()) in k)
  else
    commit (writeSet key s expiry) (let! _ := (if taken then Notify "s" name key else mret ()) in k).

Definition srem (args : list Value) : M S Value :=
  match args with
  | a :: ms =>
      if len args <? 2 then mret (wrong_args "srem")
      else with_key a (fun key => with_set key (mret (VInteger 0)) (fun s expiry =>
        let '(s', deleted) := remove_members ms s 0 in
        put_back key s' expiry (lit "srem") (0 <? deleted) (mret (VInteger deleted))))
  | [] => mret (wrong_args "srem")
  end.

Definition smembers (args : list Value) : M S Value :=
  match args with
  | [a] => with_key a (fun key => with_set key (mret (toBulkArray [])) (fun s _ => mret (toBulkArray (sortedMembers s))))
  | _ => mret (wrong_args "smembers")
  end.

Definition sismember (args : list Value) : M S Value :=
  match args with
  | [a; b] => with_key a (fun key => with_member b (fun m =>
      with_set key (mret (VInteger 0)) (fun s _ => mret (VInteger (bit_of (bool_decide (m ∈ s)))))))
  | _ => mret (wrong_args "sismember")
  end.

Definition smismember (args : list Value) : M S Value :=
  match args with
  | a :: ms =>
      if len args <? 2 then mret (wrong_args "smismember")
      else with_key a (fun key => set_or_new key (fun s _ => mret (are_members ms s [])))
  | [] => mret (wrong_args "smismember")
  end.

Definition scard (args : list Value) : M S Value :=
  match args with
  | [a] => with_key a (fun key => with_set key (mret (VInteger 0)) (fun s _ => mret (VInteger (set_len s))))
  | _ => mret (wrong_args "scard")
  end.

Definition spop `{MapRand} (args : list Value) : M S Value :=
  match args with
  | a :: opts =>
      if 2 <? len args then mret (wrong_args "spop")
      else with_key a (fun key =>
        match popCount args false with
        | inr e => mret e
        | inl (count, withCount) =>
            with_set key (mret (if withCount then toBulkArray [] else nilBulk)) (fun s expiry =>
              let members := sortedMembers s in
              let n := if len members <? count then len members else count in
              let! popped := lift (permuted members n) in
              put_back key (s ∖ list_to_set popped) expiry (lit "spop") (0 <? len popped)
                (mret (if withCount then toBulkArray popped
                       else match popped with [] => nilBulk | m :: _ => BulkOf m end)))
        end)
  | [] => mret (wrong_args "spop")
  end.

Definition srandmember `{MapRand} (args : list Value) : M S Value :=
  match args with
  | a :: opts =>
      if 2 <? len args then mret (wrong_args "srandmember")
      else with_key a (fun key =>
        match popCount args true with
        | inr e => mret e
        | inl (count, withCount) =>
            with_set key (mret (if withCount then toBulkArray [] else nilBulk)) (fun s _ =>
              let members := sortedMembers s in
              if negb withCount then
                if len members =? 0 then mret nilBulk
                else let! m := lift (pick_field members 0) in mret (BulkOf m)
              else if count =? 0 then mret (toBulkArray [])
              else if 0 <? count then
                let n := if len members <? count then len members else count in
                let! out := lift (permuted members n) in mret (toBulkArray out)
              else
                let! out := lift (drawn members 0 (Z.to_nat (i64 (- count)))) in mret (toBulkArray out))
        end)
  | [] => mret (wrong_args "srandmember")
  end.

Definition smove (args : list Value) : M S Value :=
  match args with
  | [a; b; c] =>
      match argString a with
      | None => mret (errS "ERR invalid source")
      | Some src =>
          match argString b with
          | None => mret (errS "ERR invalid destination")
          | Some dst => with_member c (fun m =>
              with_set src (mret (VInteger 0)) (fun srcSet srcExpiry =>
                if negb (bool_decide (m ∈ srcSet)) then mret (VInteger 0)
                else if bytes_eqb src dst then mret (VInteger 1)
                else set_or_new dst (fun dstSet dstExpiry =>
                  let srcSet' := srcSet ∖ {[m]} in
                  commit (if bool_decide (srcSet' = ∅) then kvDelete (SetKey src) else writeSet src srcSet' srcExpiry)
                    (commit (writeSet dst ({[m]} ∪ dstSet) dstExpiry)
                      (let! _ := Notify "s" (lit "srem") src in
                       let! _ := Notify "s" (lit "sadd") dst in
                       mret (VInteger 1))))))
          end
      end
  | _ => mret (wrong_args "smove")
  end.

(** ** set_ops.go *)

(** A missing key counts as the empty set. *)
Fixpoint readSets (keys : list bytes) : M S (list (gset bytes) + Value) :=
  match keys with
  | [] => mret (inl [])
  | k :: ks =>
      let! r := attempt (readSet k) in
      match (match r with
             | inr e => if isNotFound e then inl ∅ else inr (errValue e)
             | inl (s, _) => inl s
             end) with
      | inr e => mret (inr e)
      | inl s =>
          let! rest := readSets ks in
          mret (match rest with inl ss => inl (s :: ss) | inr e => inr e end)
      end
  end.

Definition with_sets (args : list Value) (k : list (gset bytes) -> M S Value) : M S Value :=
  match setKeys args with
  | None => mret (errS "ERR invalid key")
  | Some keys =>
      let! r := readSets keys in
      match r with inr e => mret e | inl sets => k sets end
  end.

(** SINTER, SUNION and SDIFF. *)
Definition set_algebra (name : string) (op : list (gset bytes) -> gset bytes) (args : list Value) : M S Value :=
  match args with
  | [] => mret (wrong_args name)
  | _ => with_sets args (fun sets => mret (toBulkArray (sortedMembers (op sets))))
  end.

Definition sinter (args : list Value) : M S Value := set_algebra "sinter" interSets args.
Definition sunion (args : list Value) : M S Value := set_algebra "sunion" unionSets args.
Definition sdiff (args : list Value) : M S Value := set_algebra "sdiff" diffSets args.

Definition card_limit (rest : list Value) : Z + Value :=
  match rest with
  | [] => inl 0
  | [o; l] =>
      if match argString o with Some s => EqualFold s (lit "LIMIT") | None => false end then
        match argString l with
        | None => inr err_int
        | Some ls => match ParseInt ls with
                     | None => inr err_int
                     | Some n => if n <? 0 then inr (errS "ERR LIMIT can't be negative") else inl n
                     end
        end
      else inr (errS "ERR syntax error")
  | _ => inr (errS "ERR syntax error")
  end.

Definition sintercard (args : list Value) : M S Value :=
  match args with
  | a :: rest =>
      if len args <? 2 then mret (wrong_args "sintercard")
      else match argString a with
      | None => mret err_int
      | Some ns =>
          match ParseInt ns with
          | None => mret (wrong_args "sintercard")
          | Some numkeys =>
              if (numkeys <=? 0) || (len rest <? numkeys) then mret (wrong_args "sintercard")
              else match setKeys (take (Z.to_nat numkeys) rest) with
              | None => mret (errS "ERR invalid key")
              | Some _ =>
                  match card_limit (drop (Z.to_nat numkeys) rest) with
                  | inr e => mret e
                  | inl limit =>
                      with_sets (take (Z.to_nat numkeys) rest) (fun sets => mret (VInteger (intersection_card sets limit)))
                  end
              end
          end
      end
  | [] => mret (wrong_args "sintercard")
  end.

Definition storeResult (dst : bytes) (r : gset bytes) : M S Value :=
  if bool_decide (r = ∅) then let! _ := ignore (kvDelete (SetKey dst)) in mret (VInteger 0)
  else commit (writeSet dst r 0) (mret (VInteger (set_len r))).

Definition storeSetOp (args : list Value) (name : string) (op : list (gset bytes) -> gset bytes) : M S Value :=
  match args with
  | a :: ks =>
      if len args <? 2 then mret (wrong_args name)
      else match argString a with
      | None => mret (errS "ERR invalid destination")
      | Some dst => with_sets ks (fun sets =>
          let! old := attempt (readSet dst) in
          let r := op sets in
          let! out := storeResult dst r in
          match out with
          | VError _ => mret out
          | _ =>
              let! _ := Notify "s" (lit name) dst in
              let! _ := (if bool_decide (r = ∅) && (match old with inl _ => true | inr _ => false end)
                         then Notify "g" (lit "del") dst else mret ()) in
              mret out
          end)
      end
  | [] => mret (wrong_args name)
  end.

Definition sinterstore (args : list Value) : M S Value := storeSetOp args "sinterstore" interSets.
Definition sunionstore (args : list Value) : M S Value := storeSetOp args "sunionstore" unionSets.
Definition sdiffstore (args : list Value) : M S Value := storeSetOp args "sdiffstore" diffSets.

Fixpoint sscan_options (args : list Value) (pattern : bytes) (count : Z) : (bytes * Z) + Value :=
  match args with
  | [] => inl (pattern, count)
  | a :: rest =>
      match argString a with
      | None => inr (errS "ERR syntax error")
      | Some name =>
          let u := ToUpper name in
          if bytes_eqb u (lit "MATCH") || bytes_eqb u (lit "COUNT") then
            match rest with
            | [] => inr (errS "ERR syntax error")
            | b :: rest' =>
                match argString b with
                | None => inr (errS "ERR syntax error")
                | Some v =>
                    if bytes_eqb u (lit "MATCH") then sscan_options rest' v count
                    else match ParseInt v with
                         | None => inr err_int
                         | Some n => if n <? 0 then inr err_int else sscan_options rest' pattern n
                         end
                end
            end
          else inr (errS "ERR syntax error")
      end
  end.

Definition sscan (args : list Value) : M S Value :=
  match args with
  | a :: c :: opts => with_key a (fun key =>
      match argString c with
      | None => mret (errS "ERR invalid cursor")
      | Some cs =>
          match ParseInt cs with
          | None => mret err_int
          | Some cursor =>
              if cursor <? 0 then mret err_int
              else match sscan_options opts (lit "*") 10 with
              | inr e => mret e
              | inl (pattern, count) =>
                  with_set key (mret (hscan_reply 0 [])) (fun s _ =>
                    let matched := List.filter (path_matches pattern) (sortedMembers s) in
                    let! (next, page) := lift (scan_page matched cursor count) in
                    mret (hscan_reply next (map BulkOf page)))
              end
          end
      end)
  | _ => mret (wrong_args "sscan")
  end.

End handlers.
End setcmd.
