(* ===== verification/CmdSetSpec.v ===== *)
(** * What the set commands do to a database of sets

    The abstract state is a finite map from key to non-empty finite set.
    [spec] gives each command's reply and effect by the operations of finite
    sets; [rep] says that the keyspace holds exactly these sets and nothing
    else. *)

From S2P Require Import Prelude GoLib GoStrings GoPath Resp Codec Kv Cmd CmdString CmdList CmdKeys CmdHash CmdSet.
Open Scope Z_scope.
Open Scope gedis_scope.

Module setspec.
Import datastruct keycmd hashcmd setcmd.
Import listcmd (toBulkArray).

(** ** The handlers over any store *)

Section sim.
Context {S : Type} `{KVLaws S} `{Clock} `{GoUnicode}.

Lemma sim_readSet key : sim (S := S) (readSet key) (readSet key).
Proof. unfold readSet. solve_sim. Qed.
Lemma sim_writeSet key s e : sim (S := S) (writeSet key s e) (writeSet key s e).
Proof. apply sim_kvSet. Qed.
Hint Resolve sim_readSet sim_writeSet : sim.
Lemma sim_readSets keys : sim (S := S) (readSets keys) (readSets keys).
Proof. induction keys as [|k ks IH]; cbn [readSets]; solve_sim. Qed.
Lemma sim_storeResult dst r : sim (S := S) (storeResult dst r) (storeResult dst r).
Proof. unfold storeResult, commit. solve_sim. Qed.
Hint Resolve sim_readSets sim_storeResult : sim.

Ltac solve_set :=
  repeat (cbv beta zeta;
    lazymatch goal with
    | |- sim (with_set _ _ _) _ => unfold with_set
    | |- sim (set_or_new _ _) _ => unfold set_or_new
    | |- sim (with_member _ _) _ => unfold with_member
    | |- sim (put_back _ _ _ _ _ _) _ => unfold put_back
    | |- sim (with_sets _ _) _ => unfold with_sets
    | |- _ => solve_cmd
    end).

(** Every set command behaves the same over any lawful store and the map. *)
Lemma set_handlers_simulate `{MapRand} args :
  Forall (fun h => sim (S := S) h.1 h.2)
    [(sadd args, sadd args); (srem args, srem args); (smembers args, smembers args); (sismember args, sismember args);
     (smismember args, smismember args); (scard args, scard args); (spop args, spop args); (srandmember args, srandmember args);
     (smove args, smove args); (sinter args, sinter args); (sunion args, sunion args); (sdiff args, sdiff args);
     (sintercard args, sintercard args); (sinterstore args, sinterstore args); (sunionstore args, sunionstore args);
     (sdiffstore args, sdiffstore args); (sscan args, sscan args)].
Proof.
  repeat apply Forall_cons_2; [..|apply Forall_nil_2]; cbn [fst snd];
    unfold sadd, srem, smembers, sismember, smismember, scard, spop, srandmember, smove, sinter, sunion, sdiff, sintercard,
      sinterstore, sunionstore, sdiffstore, sscan, set_algebra, storeSetOp; solve_set.
Qed.
End sim.

(** ** Commands on a database of sets *)

Notation db := (gmap bytes (gset bytes)).
Implicit Types (d : db) (s : gset bytes) (key m : bytes).

Inductive set_op : Type :=
| SAdd (k m : bytes) (ms : list bytes)
| SRem (k m : bytes) (ms : list bytes)
| SMembers (k : bytes)
| SIsMember (k m : bytes)
| SMIsMember (k m : bytes) (ms : list bytes)
| SCard (k : bytes)
| SMove (src dst m : bytes)
| SInter (k : bytes) (ks : list bytes)
| SUnion (k : bytes) (ks : list bytes)
| SDiff (k : bytes) (ks : list bytes)
| SInterStore (dst k : bytes) (ks : list bytes)
| SUnionStore (dst k : bytes) (ks : list bytes)
| SDiffStore (dst k : bytes) (ks : list bytes)
| SInterCard (k : bytes) (ks : list bytes) (limit : Z).

(** The set at a key; an empty set is no key. *)
Definition get (d : db) (k : bytes) : gset bytes := default ∅ (d !! k).
Definition put (k : bytes) (s : gset bytes) (d : db) : db := if decide (s = ∅) then delete k d else <[k := s]> d.

Definition inter_of (d : db) (k : bytes) (ks : list bytes) : gset bytes := foldr (fun k s => get d k ∩ s) (get d k) ks.
Definition union_of (d : db) (ks : list bytes) : gset bytes := ⋃ map (get d) ks.
Definition diff_of (d : db) (k : bytes) (ks : list bytes) : gset bytes := get d k ∖ union_of d ks.

Definition spec (o : set_op) (d : db) : Value * db :=
  match o with
  | SAdd k m ms => let s' := get d k ∪ list_to_set (m :: ms) in (VInteger (set_len s' - set_len (get d k)), put k s' d)
  | SRem k m ms => let s' := get d k ∖ list_to_set (m :: ms) in (VInteger (set_len (get d k) - set_len s'), put k s' d)
  | SMembers k => (toBulkArray (sortedMembers (get d k)), d)
  | SIsMember k m => (VInteger (bit_of (bool_decide (m ∈ get d k))), d)
  | SMIsMember k m ms => (VArray (Some (map (fun m => VInteger (bit_of (bool_decide (m ∈ get d k)))) (m :: ms))), d)
  | SCard k => (VInteger (set_len (get d k)), d)
  | SMove src dst m =>
      if decide (m ∈ get d src) then
        (VInteger 1, if decide (src = dst) then d else put dst ({[m]} ∪ get d dst) (put src (get d src ∖ {[m]}) d))
      else (VInteger 0, d)
  | SInter k ks => (toBulkArray (sortedMembers (inter_of d k ks)), d)
  | SUnion k ks => (toBulkArray (sortedMembers (union_of d (k :: ks))), d)
  | SDiff k ks => (toBulkArray (sortedMembers (diff_of d k ks)), d)
  | SInterStore dst k ks => (VInteger (set_len (inter_of d k ks)), put dst (inter_of d k ks) d)
  | SUnionStore dst k ks => (VInteger (set_len (union_of d (k :: ks))), put dst (union_of d (k :: ks)) d)
  | SDiffStore dst k ks => (VInteger (set_len (diff_of d k ks)), put dst (diff_of d k ks) d)
  | SInterCard k ks limit =>
      let n := set_len (inter_of d k ks) in (VInteger (if limit =? 0 then n else Z.min limit n), d)
  end.

(** ** The loops compute the operations *)

Lemma add_members_union (ms : list bytes) s n :
  add_members (map BulkOf ms) s n = Some (s ∪ list_to_set ms, n + (set_len (s ∪ list_to_set ms) - set_len s)).
Proof.
  revert s n. induction ms as [|m ms IH]; intros s n; cbn [map add_members BulkOf argString list_to_set].
  { rewrite (right_id_L ∅ (∪)). do 2 f_equal. lia. }
  change (default [] (Some m)) with m. case_bool_decide as Hm; rewrite IH.
  - assert (s ∪ ({[m]} ∪ list_to_set ms) = s ∪ list_to_set ms) as -> by set_solver. done.
  - assert ({[m]} ∪ s ∪ list_to_set ms = s ∪ ({[m]} ∪ list_to_set ms)) as -> by set_solver. do 2 f_equal.
    unfold set_len. rewrite (size_union {[m]} s) by set_solver. rewrite size_singleton. lia.
Qed.

Lemma set_len_remove s m : m ∈ s -> set_len (s ∖ {[m]}) = set_len s - 1.
Proof.
  intros Hm. unfold set_len. rewrite size_difference by set_solver. rewrite size_singleton.
  assert (size s <> 0%nat) by (intros E; apply size_empty_inv in E; set_solver). lia.
Qed.

Lemma remove_members_difference (ms : list bytes) s n :
  remove_members (map BulkOf ms) s n = (s ∖ list_to_set ms, n + (set_len s - set_len (s ∖ list_to_set ms))).
Proof.
  revert s n. induction ms as [|m ms IH]; intros s n; cbn [map remove_members BulkOf argString list_to_set].
  { rewrite difference_empty_L. f_equal. lia. }
  change (default [] (Some m)) with m. case_bool_decide as Hm; rewrite IH.
  - assert (s ∖ {[m]} ∖ list_to_set ms = s ∖ ({[m]} ∪ list_to_set ms)) as -> by set_solver. rewrite set_len_remove by done. f_equal. lia.
  - assert (s ∖ list_to_set ms = s ∖ ({[m]} ∪ list_to_set ms)) as -> by set_solver. done.
Qed.

Lemma are_members_map (ms : list bytes) s (out : list Value) :
  are_members (map BulkOf ms) s out = VArray (Some (out ++ map (fun m => VInteger (bit_of (bool_decide (m ∈ s)))) ms)).
Proof.
  revert out. induction ms as [|m ms IH]; intros out; cbn [map are_members BulkOf argString]; [by rewrite app_nil_r|].
  change (default [] (Some m)) with m. by rewrite IH, <- app_assoc.
Qed.

Lemma interSets_spec d k (ks : list bytes) : interSets (map (get d) (k :: ks)) = inter_of d k ks.
Proof.
  cbn [map interSets]. apply set_eq. intros x. rewrite elem_of_filter, Forall_map. unfold inter_of.
  induction ks as [|k' ks IH]; cbn [foldr]; [rewrite Forall_nil; naive_solver|].
  rewrite Forall_cons, elem_of_intersection, <- IH. naive_solver.
Qed.

Lemma unionSets_spec d (ks : list bytes) : unionSets (map (get d) ks) = union_of d ks.
Proof.
  unfold unionSets, union_of. enough (forall X : gset bytes, foldl (fun out s => out ∪ s) X (map (get d) ks) = X ∪ ⋃ map (get d) ks) as E.
  { rewrite E. apply (left_id_L ∅ (∪)). }
  induction ks as [|k ks IH]; intros X; cbn; [set_solver|]. rewrite IH. set_solver.
Qed.

Lemma diffSets_spec d k (ks : list bytes) : diffSets (map (get d) (k :: ks)) = diff_of d k ks.
Proof.
  cbn [map diffSets]. unfold diff_of, union_of. apply set_eq. intros x.
  rewrite elem_of_filter, elem_of_difference, elem_of_union_list, Exists_exists. naive_solver.
Qed.

Lemma smallest_bound (sets : list (gset bytes)) : sets <> [] -> (smallest sets < length sets)%nat.
Proof.
  destruct sets as [|s sets]; [done|]. intros _. cbn [smallest length].
  enough (forall l i best n, (best < i)%nat -> (smallest_from l i best n < i + length l)%nat) as E by (specialize (E sets 1%nat 0%nat (size s)); lia).
  intros l. induction l as [|s' l IH]; intros i best n Hb; cbn [smallest_from length]; [lia|].
  destruct (size s' <? n)%nat; (eapply Nat.lt_le_trans; [apply IH; lia|lia]).
Qed.

Lemma in_others_spec (sets : list (gset bytes)) best m :
  in_others sets best m = true <-> forall i s, sets !! i = Some s -> i <> best -> m ∈ s.
Proof.
  unfold in_others. rewrite forallb_forall. split.
  - intros Hf i s Hs Hne. specialize (Hf (i, s)). rewrite orb_true_iff, bool_decide_eq_true, Nat.eqb_eq in Hf.
    destruct Hf; [|done|done]. apply list_elem_of_In, list_elem_of_lookup. exists i. apply lookup_zip_Some. split; [|done].
    apply lookup_seq. split; [lia|]. by eapply lookup_lt_Some.
  - intros Hf [i s] Hin. apply list_elem_of_In, list_elem_of_lookup in Hin as [j Hj]. apply lookup_zip_Some in Hj as [Hi Hs].
    apply lookup_seq in Hi as [-> _]. rewrite orb_true_iff, bool_decide_eq_true, Nat.eqb_eq. cbn.
    destruct (decide (j = best)); [by left|right]. by apply (Hf j).
Qed.

Lemma card_loop_count (l : list bytes) (hit : bytes -> bool) (limit n : Z) :
  0 <= n -> limit = 0 \/ n < limit ->
  card_loop l hit limit n = let t := n + len (List.filter hit l) in if limit =? 0 then t else Z.min limit t.
Proof.
  cbv zeta. revert n. induction l as [|m l IH]; intros n Hz Hl; cbn [card_loop List.filter].
  { unfold len. cbn. destruct (limit =? 0) eqn:E; breflect; lia. }
  destruct (hit m); [|by apply IH]. rewrite len_cons. pose proof (len_nonneg (List.filter hit l)).
  destruct (Z.ltb_spec 0 limit) as [Hp|Hp]; cbn [andb].
  - destruct (Z.leb_spec limit (n + 1)) as [Hn|Hn].
    + rewrite (proj2 (Z.eqb_neq limit 0)) by lia. lia.
    + rewrite IH by lia. destruct (limit =? 0); lia.
  - assert (limit = 0) as -> by lia. rewrite IH by lia. cbn. lia.
Qed.

Lemma intersection_card_spec d k (ks : list bytes) (limit : Z) :
  0 <= limit ->
  intersection_card (map (get d) (k :: ks)) limit =
  let n := set_len (inter_of d k ks) in if limit =? 0 then n else Z.min limit n.
Proof.
  intros Hl. cbv zeta. unfold intersection_card. set (sets := map (get d) (k :: ks)). rewrite card_loop_count by lia. cbv zeta. rewrite Z.add_0_l.
  enough (len (List.filter (in_others sets (smallest sets)) (elements (default ∅ (sets !! smallest sets)))) = set_len (inter_of d k ks)) as -> by done.
  destruct (lookup_lt_is_Some_2 sets (smallest sets)) as [s0 Hs0]; [apply smallest_bound; done|]. rewrite Hs0. cbn [default from_option]. unfold id.
  unfold len, set_len. f_equal. rewrite <- (size_list_to_set (C := gset bytes)).
  - f_equal. apply set_eq. intros x. rewrite elem_of_list_to_set, list_elem_of_In, filter_In, <- list_elem_of_In, elem_of_elements, in_others_spec.
    rewrite <- interSets_spec. fold sets. unfold sets in *. cbn [map interSets]. rewrite elem_of_filter. rewrite Forall_lookup. split.
    + intros [Hx Ho]. assert (forall i s, (get d k :: map (get d) ks) !! i = Some s -> x ∈ s) as Hall.
      { intros i s Hi. destruct (decide (i = smallest (get d k :: map (get d) ks))) as [->|]; [|by eapply Ho]. cbn [map] in Hs0. congruence. }
      split; [intros i s Hi; by apply (Hall (Datatypes.S i))|by apply (Hall 0%nat)].
    + intros [Hf Hx]. assert (forall i s, (get d k :: map (get d) ks) !! i = Some s -> x ∈ s) as Hall.
      { intros [|i] s Hi; [by injection Hi as <-|by eapply Hf]. }
      split; [by eapply Hall|intros i s Hi _; by eapply Hall].
  - apply NoDup_ListNoDup, List.NoDup_filter, NoDup_ListNoDup, NoDup_elements.
Qed.

(** ** The keyspace holds the sets *)

Definition set_ok (s : gset bytes) : Prop := is_u64 (len (elements s)) /\ Forall str_ok (elements s).
Definition set_entry (s : gset bytes) : bytes := Encode TypeSet 0 (EncodeSet (elements s)).

Notation W := (world (gmap bytes bytes)).

Record rep (d : db) (w : W) : Prop := {
  rep_other : forall p key, p ∈ typePrefixes -> p <> lit "st:" -> w_kv w !! (p ++ key) = None;
  rep_sets : forall key, w_kv w !! SetKey key = set_entry <$> d !! key;
  rep_nonempty : map_Forall (fun _ s => s <> ∅) d;
  rep_fits : map_Forall (fun _ s => set_ok s) d;
}.

Lemma set_ok_sub s s' : s' ⊆ s -> set_ok s -> set_ok s'.
Proof.
  intros Hs [Hn Hf]. split.
  - unfold is_u64, len in *. pose proof (subseteq_size _ _ Hs) as Hz. unfold size, set_size in Hz. cbn in Hz. lia.
  - rewrite Forall_forall in *. intros x. rewrite elem_of_elements. intros Hx. apply Hf. rewrite elem_of_elements. set_solver.
Qed.

Lemma DecodeSet_set s : set_ok s -> exists enc, DecodeSet (EncodeSet (elements s)) = Ok (s, enc).
Proof.
  intros [Hn Hf]. destruct (DecodeSet_EncodeSet (elements s) Hn Hf) as [enc E]. exists enc. rewrite E.
  do 2 f_equal. apply list_to_set_elements_L.
Qed.

Lemma set_key_apart p key key' : p ∈ typePrefixes -> p <> lit "st:" -> p ++ key <> SetKey key'.
Proof.
  unfold typePrefixes, SetKey. cbn [map]. rewrite !elem_of_cons, elem_of_nil.
  intros Hp Hne E. destruct_or! Hp; subst; try discriminate E; by destruct Hne.
Qed.

Lemma srep_kv d w w' : rep d w -> w_kv w' = w_kv w -> rep d w'.
Proof. intros [Ho Hs Hn Hf] E. split; try done; rewrite E; auto. Qed.

Lemma srep_write d w w' key s :
  rep d w -> s <> ∅ -> set_ok s -> w_kv w' = <[SetKey key := set_entry s]> (w_kv w) -> rep (<[key := s]> d) w'.
Proof.
  intros [Ho Hs Hn Hf] Hne Hok E. split.
  - intros p key' Hp Hq. rewrite E, lookup_insert_ne; [by apply Ho|]. intros X. by apply (set_key_apart p key' key).
  - intros key'. rewrite E. destruct (decide (key' = key)) as [->|Hk]; [by rewrite !lookup_insert_eq|].
    rewrite !lookup_insert_ne by (done || (unfold SetKey; intros X; by apply app_inv_head in X)). apply Hs.
  - by apply map_Forall_insert_2.
  - by apply map_Forall_insert_2.
Qed.

Lemma rep_delete d w w' key : rep d w -> w_kv w' = delete (SetKey key) (w_kv w) -> rep (delete key d) w'.
Proof.
  intros [Ho Hs Hn Hf] E. split.
  - intros p key' Hp Hq. rewrite E, lookup_delete_ne; [by apply Ho|]. intros X. by apply (set_key_apart p key' key).
  - intros key'. rewrite E. destruct (decide (key' = key)) as [->|Hk]; [by rewrite !lookup_delete_eq|].
    rewrite !lookup_delete_ne by (done || (unfold SetKey; intros X; by apply app_inv_head in X)). apply Hs.
  - by apply map_Forall_delete.
  - by apply map_Forall_delete.
Qed.

Section run.
Context `{Clock} `{GoUnicode}.

Lemma readSet_rep d (w : W) key :
  rep d w -> readSet key w = (match d !! key with None => Err ENotFound | Some s => Ok (s, 0) end, w).
Proof.
  intros R. unfold readSet, lookupKey, mbind. rewrite lookupRaw_map. unfold find_key.
  assert (first_hit typePrefixes key (w_kv w) = (fun s => (SetKey key, set_entry s)) <$> d !! key) as ->.
  { change typePrefixes with (map lit ["s:"; "h:"; "l:"; "st:"; "z:"; "hll:"; "x:"; "vs:"]%string). cbn [map].
    rewrite !first_hit_cons. change (lit "st:" ++ key) with (SetKey key). rewrite (rep_sets _ _ R).
    rewrite !(rep_other _ _ R) by (done || (unfold typePrefixes; cbn [map]; set_solver)). by destruct (d !! key). }
  destruct (d !! key) as [s|] eqn:E; [|done]. cbn [fmap option_fmap option_map]. unfold set_entry.
  rewrite Decode_Encode_entry by (unfold is_i64; lia). cbn [Expiry Z.eqb mret fst snd Type_ Payload].
  rewrite bool_decide_eq_true_2 by done. cbn [negb]. unfold lift. destruct (DecodeSet_set s) as [enc ->]; [|done]. apply (rep_fits _ _ R _ _ E).
Qed.

Lemma with_set_rep d (w : W) key (missing : M (gmap bytes bytes) Value) (k : gset bytes -> Z -> M (gmap bytes bytes) Value) :
  rep d w -> with_set key missing k w = match d !! key with None => missing w | Some s => k s 0 w end.
Proof. intros R. unfold with_set, mbind, attempt. rewrite (readSet_rep d) by done. by destruct (d !! key). Qed.

Lemma set_or_new_rep d (w : W) key (k : gset bytes -> Z -> M (gmap bytes bytes) Value) : rep d w -> set_or_new key k w = k (get d key) 0 w.
Proof. intros R. unfold set_or_new, get. rewrite (with_set_rep d) by done. by destruct (d !! key). Qed.

Lemma readSets_rep d (w : W) (keys : list bytes) : rep d w -> readSets keys w = (Ok (inl (map (get d) keys)), w).
Proof.
  intros R. induction keys as [|k ks IH]; cbn [readSets map]; [done|]. unfold mbind at 1, attempt. rewrite (readSet_rep d) by done.
  unfold get at 1. destruct (d !! k) as [s|]; try change (isNotFound ENotFound) with true; cbv iota beta; unfold mbind; by rewrite IH.
Qed.

Lemma setKeys_bulk (ks : list bytes) : setKeys (map BulkOf ks) = Some ks.
Proof. induction ks as [|k ks IH]; cbn [map setKeys BulkOf argString]; [done|]. by rewrite IH. Qed.

Lemma with_sets_rep d (w : W) (ks : list bytes) (k : list (gset bytes) -> M (gmap bytes bytes) Value) : rep d w -> with_sets (map BulkOf ks) k w = k (map (get d) ks) w.
Proof. intros R. unfold with_sets. rewrite setKeys_bulk. unfold mbind. by rewrite (readSets_rep d). Qed.

(** The new database fits in memory. *)
Definition fitting (d : db) : Prop := map_Forall (fun _ s => set_ok s) d.

Lemma fitting_put k s d : fitting (put k s d) -> s <> ∅ -> set_ok s.
Proof. intros Hf Hs. unfold put in Hf. rewrite decide_False in Hf by done. apply (Hf k). apply lookup_insert_eq. Qed.

Lemma commit_set_put d (w : W) key s (r : Value) (k : M (gmap bytes bytes) Value) :
  rep d w -> (s <> ∅ -> set_ok s) -> (forall w1, exists w2, k w1 = (Ok r, w2) /\ w_kv w2 = w_kv w1) ->
  exists w', commit (if bool_decide (s = ∅) then kvDelete (SetKey key) else writeSet key s 0) k w = (Ok r, w') /\ rep (put key s d) w'.
Proof.
  intros R Hs Hk. unfold put, commit, mbind, attempt. case_bool_decide as E.
  - rewrite decide_True by done. cbn. set (w1 := mkWorld _ _ _ _). destruct (Hk w1) as (w2 & -> & Ew). exists w2. split; [done|].
    eapply rep_delete; [exact R|]. by rewrite Ew.
  - rewrite decide_False by done. cbn. set (w1 := mkWorld _ _ _ _). destruct (Hk w1) as (w2 & -> & Ew). exists w2. split; [done|].
    eapply srep_write; [exact R|done|by apply Hs|]. by rewrite Ew.
Qed.

Lemma put_back_rep d (w : W) key s (name : bytes) (taken : bool) (r : Value) :
  rep d w -> (s <> ∅ -> set_ok s) ->
  exists w', put_back key s 0 name taken (mret r) w = (Ok r, w') /\ rep (put key s d) w'.
Proof.
  intros R Hs. edestruct (commit_set_put d w key s r
    (let! _ := (if bool_decide (s = ∅) then if taken then let! _ := Notify "s" name key in Notify "g" (lit "del") key else mret ()
                else if taken then Notify "s" name key else mret ()) in mret r)) as (w' & E & R'); [done|done| |exists w'; split; [|done]].
  - intros w1. case_bool_decide; destruct taken; (eexists; split; [reflexivity|done]).
  - rewrite <- E. unfold put_back. by case_bool_decide.
Qed.

(** The command a client sends. *)
Definition int_arg (n : Z) : Value := BulkOf (FormatInt n).
Definition store_args (dst k : bytes) (ks : list bytes) : list Value := BulkOf dst :: map BulkOf (k :: ks).

Definition send (o : set_op) : M (gmap bytes bytes) Value :=
  match o with
  | SAdd k m ms => sadd (BulkOf k :: map BulkOf (m :: ms))
  | SRem k m ms => srem (BulkOf k :: map BulkOf (m :: ms))
  | SMembers k => smembers [BulkOf k]
  | SIsMember k m => sismember [BulkOf k; BulkOf m]
  | SMIsMember k m ms => smismember (BulkOf k :: map BulkOf (m :: ms))
  | SCard k => scard [BulkOf k]
  | SMove src dst m => smove [BulkOf src; BulkOf dst; BulkOf m]
  | SInter k ks => sinter (map BulkOf (k :: ks))
  | SUnion k ks => sunion (map BulkOf (k :: ks))
  | SDiff k ks => sdiff (map BulkOf (k :: ks))
  | SInterStore dst k ks => sinterstore (store_args dst k ks)
  | SUnionStore dst k ks => sunionstore (store_args dst k ks)
  | SDiffStore dst k ks => sdiffstore (store_args dst k ks)
  | SInterCard k ks limit =>
      sintercard (int_arg (len (k :: ks)) :: map BulkOf (k :: ks) ++ [BulkOf (lit "LIMIT"); int_arg limit])
  end.

Definition op_ok (o : set_op) : Prop :=
  match o with SInterCard k ks limit => is_i64 (len (k :: ks)) /\ 0 <= limit /\ is_i64 limit | _ => True end.

(** One command: the reply and the new database are the specified ones. *)
Definition refined (o : set_op) : Prop := forall d (w : W),
  rep d w -> op_ok o -> fitting (spec o d).2 -> exists w', send o w = (Ok (spec o d).1, w') /\ rep (spec o d).2 w'.

Lemma two_args (k : bytes) (l : list bytes) (a : bytes) : (len (BulkOf k :: map BulkOf (a :: l)) <? 2) = false.
Proof. apply Z.ltb_ge. unfold len. cbn. lia. Qed.

Ltac args := unfold with_key, with_member; rewrite ?two_args; cbn [BulkOf argString]; repeat change (default [] (Some ?x)) with x.

Lemma SAdd_refined (k : bytes) m (ms : list bytes) : refined (SAdd k m ms).
Proof.
  intros d w R _. cbn [send spec fst snd]. intros Hf. unfold sadd. args. rewrite (set_or_new_rep d) by done. rewrite add_members_union, Z.add_0_l.
  set (s' := get d k ∪ list_to_set (m :: ms)) in *. assert (s' <> ∅) as Hne by (unfold s'; set_solver).
  destruct (commit_set_put d w k s' (VInteger (set_len s' - set_len (get d k)))
    (let! _ := Notify "s" (lit "sadd") k in mret (VInteger (set_len s' - set_len (get d k))))) as (w' & E & R').
  - done.
  - by eapply fitting_put.
  - intros w1. by eexists.
  - exists w'. split; [|done]. rewrite bool_decide_eq_false_2 in E by done. exact E.
Qed.

Lemma SRem_refined (k : bytes) m (ms : list bytes) : refined (SRem k m ms).
Proof.
  intros d w R _. cbn [send spec fst snd]. intros Hf. unfold srem. args. rewrite (with_set_rep d) by done.
  unfold get in *. destruct (d !! k) as [s|] eqn:Ek; cbn [default from_option] in *; unfold id in *.
  - rewrite remove_members_difference, Z.add_0_l. apply put_back_rep; [done|]. by eapply fitting_put.
  - exists w. assert ((∅ ∖ list_to_set (m :: ms) : gset bytes) = ∅) as -> by set_solver. rewrite Z.sub_diag. split; [done|].
    unfold put. rewrite decide_True by done. by rewrite delete_id.
Qed.

Ltac reads d k := rewrite (with_set_rep d) by done; unfold get; destruct (d !! k); (eexists; split; [reflexivity|done]).

Lemma SMembers_refined (k : bytes) : refined (SMembers k).
Proof. intros d w R _ _. cbn [send spec fst snd]. unfold smembers. args. reads d k. Qed.
Lemma SCard_refined (k : bytes) : refined (SCard k).
Proof. intros d w R _ _. cbn [send spec fst snd]. unfold scard. args. reads d k. Qed.
Lemma SIsMember_refined (k : bytes) m : refined (SIsMember k m).
Proof. intros d w R _ _. cbn [send spec fst snd]. unfold sismember. args. reads d k. Qed.
Lemma SMIsMember_refined (k : bytes) m (ms : list bytes) : refined (SMIsMember k m ms).
Proof.
  intros d w R _ _. cbn [send spec fst snd]. unfold smismember. args. rewrite (set_or_new_rep d) by done. rewrite are_members_map. by exists w.
Qed.

Lemma algebra_refined (name : string) (op : list (gset bytes) -> gset bytes) (k : bytes) (ks : list bytes) d (w : W) :
  rep d w -> set_algebra name op (map BulkOf (k :: ks)) w = (Ok (toBulkArray (sortedMembers (op (map (get d) (k :: ks))))), w).
Proof. intros R. unfold set_algebra. cbn [map]. change (BulkOf k :: map BulkOf ks) with (map BulkOf (k :: ks)). by rewrite (with_sets_rep d). Qed.

Lemma SInter_refined (k : bytes) (ks : list bytes) : refined (SInter k ks).
Proof. intros d w R _ _. exists w. cbn [send spec fst snd]. unfold sinter. by rewrite (algebra_refined _ _ _ _ d), interSets_spec. Qed.
Lemma SUnion_refined (k : bytes) (ks : list bytes) : refined (SUnion k ks).
Proof. intros d w R _ _. exists w. cbn [send spec fst snd]. unfold sunion. by rewrite (algebra_refined _ _ _ _ d), unionSets_spec. Qed.
Lemma SDiff_refined (k : bytes) (ks : list bytes) : refined (SDiff k ks).
Proof. intros d w R _ _. exists w. cbn [send spec fst snd]. unfold sdiff. by rewrite (algebra_refined _ _ _ _ d), diffSets_spec. Qed.

Lemma store_refined (name : string) (op : list (gset bytes) -> gset bytes) (dst k : bytes) (ks : list bytes) d (w : W) s :
  rep d w -> op (map (get d) (k :: ks)) = s -> fitting (put dst s d) ->
  exists w', storeSetOp (store_args dst k ks) name op w = (Ok (VInteger (set_len s)), w') /\ rep (put dst s d) w'.
Proof.
  intros R Hs Hf. unfold storeSetOp, store_args. args. rewrite (with_sets_rep d) by done. rewrite Hs. clear Hs.
  unfold mbind at 1, attempt. rewrite (readSet_rep d) by done.
  assert (exists w1, storeResult dst s w = (Ok (VInteger (set_len s)), w1) /\ rep (put dst s d) w1) as (w1 & E & R1).
  { unfold storeResult, put. case_bool_decide as He.
    - subst s. rewrite decide_True by done. eexists. split; [reflexivity|]. by eapply rep_delete.
    - rewrite decide_False by done. eexists. split; [reflexivity|]. eapply srep_write; [done|done|by eapply fitting_put|reflexivity]. }
  destruct (d !! dst) as [s0|]; cbv beta iota; unfold mbind; rewrite E; cbn; destruct (bool_decide (s = ∅));
    (eexists; split; [reflexivity|]; by eapply srep_kv).
Qed.

Lemma SInterStore_refined (dst k : bytes) (ks : list bytes) : refined (SInterStore dst k ks).
Proof. intros d w R _ Hf. apply store_refined; [done|apply interSets_spec|done]. Qed.
Lemma SUnionStore_refined (dst k : bytes) (ks : list bytes) : refined (SUnionStore dst k ks).
Proof. intros d w R _ Hf. apply store_refined; [done|apply unionSets_spec|done]. Qed.
Lemma SDiffStore_refined (dst k : bytes) (ks : list bytes) : refined (SDiffStore dst k ks).
Proof. intros d w R _ Hf. apply store_refined; [done|apply diffSets_spec|done]. Qed.

Lemma SInterCard_refined (k : bytes) (ks : list bytes) (limit : Z) : refined (SInterCard k ks limit).
Proof.
  intros d w R (Hn & Hl & Hli) _. exists w. split; [|done]. cbn [send spec fst snd]. unfold sintercard.
  destruct (Z.ltb_spec (len (int_arg (len (k :: ks)) :: map BulkOf (k :: ks) ++ [BulkOf (lit "LIMIT"); int_arg limit])) 2) as [Hlt|_].
  { exfalso. unfold len in Hlt. cbn in Hlt. lia. }
  unfold int_arg at 1. cbn [BulkOf argString]. change (default [] (Some ?x)) with x. rewrite ParseInt_FormatInt by done.
  pose proof (len_nonneg ks) as Hks. assert (Z.to_nat (len (k :: ks)) = length (map BulkOf (k :: ks))) as Ht.
  { unfold len. rewrite length_map. lia. }
  rewrite Ht, take_app_length, drop_app_length. destruct (Z.leb_spec (len (k :: ks)) 0) as [Hz|_]; [rewrite len_cons in Hz; lia|].
  destruct (Z.ltb_spec (len (map BulkOf (k :: ks) ++ [BulkOf (lit "LIMIT"); int_arg limit])) (len (k :: ks))) as [Hz|_].
  { exfalso. unfold len in Hz. rewrite length_app, length_map in Hz. cbn in Hz. lia. }
  cbn [orb]. rewrite setKeys_bulk. unfold card_limit. cbn [BulkOf argString]. change (default [] (Some ?x)) with x.
  change (EqualFold (lit "LIMIT") (lit "LIMIT")) with true. cbv iota. unfold int_arg. cbn [BulkOf argString]. change (default [] (Some ?x)) with x.
  rewrite ParseInt_FormatInt by done. rewrite (proj2 (Z.ltb_ge limit 0)) by done.
  rewrite (with_sets_rep d) by done. by rewrite intersection_card_spec.
Qed.

Lemma SMove_refined (src dst : bytes) m : refined (SMove src dst m).
Proof.
  intros d w R _. cbn [send spec]. unfold smove. args. rewrite (with_set_rep d) by done.
  destruct (d !! src) as [s|] eqn:Es.
  2: { assert (get d src = ∅) as E by (unfold get; by rewrite Es). rewrite E. rewrite decide_False by set_solver. intros _. by exists w. }
  assert (get d src = s) as E by (unfold get; by rewrite Es). rewrite E.
  case_bool_decide as Hm; cbn [negb]; [rewrite decide_True by done|rewrite decide_False by done; intros _; by exists w].
  cbn [fst snd]. destruct (bytes_eqb_spec src dst) as [Hd|Hd]; [rewrite decide_True by done; intros _; by exists w|].
  rewrite decide_False by done. intros Hf. rewrite (set_or_new_rep d) by done. set (t := {[m]} ∪ get d dst) in *.
  assert (t <> ∅) as Hne by (unfold t; set_solver).
  destruct (commit_set_put d w src (s ∖ {[m]}) okReply (mret okReply)) as (w1 & E1 & R1); [done| |by eexists|].
  { intros _. eapply set_ok_sub; [|by apply (rep_fits _ _ R src)]. set_solver. }
  destruct (commit_set_put (put src (s ∖ {[m]}) d) w1 dst t (VInteger 1)
    (let! _ := Notify "s" (lit "srem") src in let! _ := Notify "s" (lit "sadd") dst in mret (VInteger 1))) as (w2 & E2 & R2);
    [done|by eapply fitting_put|by eexists|].
  exists w2. split; [|done]. rewrite bool_decide_eq_false_2 in E2 by done. revert E1. unfold commit at 1 2, mbind, attempt.
  destruct ((if bool_decide (s ∖ {[m]} = ∅) then kvDelete (SetKey src) else writeSet src (s ∖ {[m]}) 0) w) as [[[]| |] w1'];
    cbn; [|done..]. intros [= ->]. exact E2.
Qed.

Lemma every_set_refined o : refined o.
Proof.
  destruct o; auto using SAdd_refined, SRem_refined, SMembers_refined, SIsMember_refined, SMIsMember_refined, SCard_refined, SMove_refined,
    SInter_refined, SUnion_refined, SDiff_refined, SInterStore_refined, SUnionStore_refined, SDiffStore_refined, SInterCard_refined.
Qed.

(** Every database the run goes through fits in memory. *)
Fixpoint fits (ops : list set_op) (d : db) : Prop :=
  match ops with [] => True | o :: os => fitting (spec o d).2 /\ fits os (spec o d).2 end.

Fixpoint spec_run (ops : list set_op) (d : db) : list (result Value) * db :=
  match ops with
  | [] => ([], d)
  | o :: os => let '(v, d1) := spec o d in let '(vs, d2) := spec_run os d1 in (Ok v :: vs, d2)
  end.

Fixpoint send_run (ops : list set_op) (w : W) : list (result Value) * W :=
  match ops with
  | [] => ([], w)
  | o :: os => let '(v, w1) := send o w in let '(vs, w2) := send_run os w1 in (v :: vs, w2)
  end.

(** C19: a keyspace used only through the set commands is a database of
    non-empty finite sets: for every sequence of SADD, SREM, SMEMBERS,
    SISMEMBER, SMISMEMBER, SCARD, SMOVE, SINTER, SUNION, SDIFF, their STORE
    forms and SINTERCARD on any keys, every reply is the one the operations of
    finite sets give, and the keyspace ends up holding exactly the resulting
    sets; a set that becomes empty is removed. *)
Theorem set_commands_refine (ops : list set_op) d (w : W) :
  rep d w -> Forall op_ok ops -> fits ops d ->
  (send_run ops w).1 = (spec_run ops d).1 /\ rep (spec_run ops d).2 (send_run ops w).2.
Proof.
  intros R Ho. revert d w R. induction Ho as [|o ops Ho _ IH]; intros d w R Hf; [done|].
  destruct Hf as [Hf Hfs]. cbn [spec_run send_run].
  destruct (every_set_refined o d w R Ho Hf) as (w1 & E & R1). rewrite E. destruct (spec o d) as [v d1]. cbn [fst snd] in *.
  specialize (IH d1 w1 R1 Hfs). destruct (spec_run ops d1) as [vs d2], (send_run ops w1) as [rs w2].
  cbn [fst snd] in *. destruct IH as [-> IH]. done.
Qed.

(** ** Random members *)

Context `{MapRandLaws}.

Lemma permuted_spec (l : list bytes) (n : Z) :
  NoDup l -> 0 <= n <= len l ->
  exists out, permuted l n = Ok out /\ NoDup out /\ len out = n /\ forall m, m ∈ out -> m ∈ l.
Proof.
  intros Hl Hn. unfold permuted. pose proof (perm_perm (len l)) as Hp.
  assert (length (perm (len l)) = length l) as Hlen by (rewrite Hp, length_seq; unfold len; lia).
  rewrite slice_prefix by (unfold len in *; lia). cbn [res_bind]. set (ix := take (Z.to_nat n) (perm (len l))).
  assert (NoDup ix) as Hix.
  { assert (NoDup (perm (len l))) as X by (rewrite Hp; apply NoDup_seq). rewrite <- (take_drop (Z.to_nat n)) in X. by apply NoDup_app in X as [X _]. }
  assert (forall i, i ∈ ix -> is_Some (l !! i)) as Hlt.
  { intros i Hi. apply lookup_lt_is_Some_2. apply (subseteq_take (Z.to_nat n)) in Hi. rewrite Hp in Hi. apply elem_of_seq in Hi. unfold len in Hi. lia. }
  eexists. split; [reflexivity|]. split_and!.
  - apply NoDup_fmap_2_strong; [|done]. intros i j Hi Hj E. destruct (Hlt i Hi) as [a Ha], (Hlt j Hj) as [b Hb].
    rewrite Ha, Hb in E. cbn in E. subst b. exact (NoDup_lookup l i j a Hl Ha Hb).
  - unfold len at 1. rewrite length_map. unfold ix. rewrite length_take, Hlen. unfold len in *. lia.
  - intros m Hm. apply list_elem_of_fmap in Hm as (i & -> & Hi). destruct (Hlt i Hi) as [a Ha]. rewrite Ha. cbn. by eapply list_elem_of_lookup_2.
Qed.

Lemma sortedMembers_perm s : sortedMembers s ≡ₚ elements s.
Proof. apply sortStrings_perm. Qed.

Lemma sortedMembers_len s : len (sortedMembers s) = set_len s.
Proof. unfold len, set_len. by rewrite sortedMembers_perm. Qed.

(** SPOP with a count answers that many distinct members of the set (all
    of them when it has fewer), whatever permutation was drawn, and removes
    exactly these; other keys are untouched. *)
Theorem spop_takes key d (w : W) (n : Z) :
  rep d w -> 0 <= n -> is_i64 n ->
  exists popped w', spop [BulkOf key; int_arg n] w = (Ok (toBulkArray popped), w') /\
    NoDup popped /\ len popped = Z.min n (set_len (get d key)) /\ list_to_set popped ⊆ get d key /\
    rep (put key (get d key ∖ list_to_set popped) d) w'.
Proof.
  intros R Hn Hi. unfold spop. change (2 <? len [BulkOf key; int_arg n]) with false. cbv iota. args. unfold popCount, int_arg. cbn [BulkOf argString].
  change (default [] (Some ?x)) with x. rewrite ParseInt_FormatInt by done. rewrite (proj2 (Z.ltb_ge n 0)) by done. cbn [negb andb].
  rewrite (with_set_rep d) by done. unfold get. destruct (d !! key) as [s|] eqn:E; cbn [default from_option]; unfold id.
  2: { exists [], w. split; [done|]. split_and!; [constructor|unfold len, set_len; rewrite size_empty; cbn; lia|set_solver|].
       unfold put. rewrite decide_True by set_solver. by rewrite delete_id. }
  cbv zeta. rewrite sortedMembers_len. assert (0 <= set_len s) as Hp by (unfold set_len; lia).
  replace (if set_len s <? n then set_len s else n) with (Z.min n (set_len s)) by (destruct (Z.ltb_spec (set_len s) n); lia).
  destruct (permuted_spec (sortedMembers s) (Z.min n (set_len s))) as (popped & Ep & Hnd & Hl & Hsub).
  { rewrite sortedMembers_perm. apply NoDup_elements. } { rewrite sortedMembers_len. lia. }
  unfold mbind at 1, lift. rewrite Ep. edestruct (put_back_rep d w key (s ∖ list_to_set popped)) as (w' & Ew & R'); [done| |].
  { intros _. eapply set_ok_sub; [|by apply (rep_fits _ _ R key)]. set_solver. }
  exists popped, w'. rewrite Ew. split; [done|]. split_and!; [done|done| |done].
  intros x. rewrite elem_of_list_to_set. intros Hx. apply Hsub in Hx. by rewrite sortedMembers_perm, elem_of_elements in Hx.
Qed.

End run.

(** ** Runs *)

#[local] Instance set_ok_dec s : Decision (set_ok s).
Proof. unfold set_ok, is_u64, str_ok, is_u64. apply _. Defined.
#[local] Instance fits_dec ops d : Decision (fits ops d).
Proof. revert d. induction ops as [|o os IH]; intros d; cbn [fits]; unfold fitting; apply _. Defined.

Definition demo_ops : list set_op :=
  [SAdd (lit "a") (lit "1") [lit "2"; lit "1"]; SAdd (lit "b") (lit "2") [lit "3"]; SInter (lit "a") [lit "b"]; SUnionStore (lit "c") (lit "a") [lit "b"];
   SMove (lit "a") (lit "b") (lit "1"); SInterCard (lit "a") [lit "c"] 0; SRem (lit "a") (lit "2") []; SDiffStore (lit "c") (lit "a") [lit "b"]; SMembers (lit "b")].

Lemma set_commands_refine_witness :
  (@send_run step_clock ascii_tables demo_ops empty_world).1 = (spec_run demo_ops ∅).1 /\
  rep (spec_run demo_ops ∅).2 (@send_run step_clock ascii_tables demo_ops empty_world).2.
Proof.
  apply (@set_commands_refine step_clock ascii_tables demo_ops ∅ empty_world).
  - by split.
  - repeat apply Forall_cons_2; try apply Forall_nil_2; cbn; unfold is_i64, len; cbn; lia.
  - apply (bool_decide_unpack _). vm_compute. exact I.
Defined.

Example demo_replies :
  (@send_run step_clock ascii_tables demo_ops empty_world).1 =
  map Ok [VInteger 2; VInteger 2; toBulkArray [lit "2"]; VInteger 3; VInteger 1; VInteger 1; VInteger 1; VInteger 0; toBulkArray (map lit ["1"; "2"; "3"]%string)].
Proof. vm_compute. reflexivity. Qed.

(** A lawful source of randomness. *)
Definition in_order : MapRand := {| range_order := map_keys; draw := fun _ _ => 0; perm := fun n => seq 0 (Z.to_nat n) |}.
#[local] Instance in_order_laws : @MapRandLaws in_order.
Proof. split; intros; cbn; [done|lia|done]. Defined.

Definition one_set : world (gmap bytes bytes) := world_of [(SetKey (lit "a"), set_entry {[lit "x"; lit "y"]})].

Lemma one_set_rep : rep {[lit "a" := {[lit "x"; lit "y"]}]} one_set.
Proof.
  split.
  - intros p key Hp Hne. unfold one_set, world_of. cbn [foldl w_kv]. rewrite lookup_insert_ne; [apply lookup_empty|].
    intros X. symmetry in X. by apply (set_key_apart p key (lit "a")).
  - intros key. unfold one_set, world_of. cbn [foldl w_kv]. destruct (decide (key = lit "a")) as [->|Hk]; [by rewrite lookup_insert_eq|].
    rewrite lookup_insert_ne, lookup_singleton_ne by (done || (unfold SetKey; intros X; by apply app_inv_head in X)). done.
  - apply map_Forall_singleton. vm_compute. discriminate.
  - apply map_Forall_singleton. apply (bool_decide_unpack _). vm_compute. exact I.
Qed.

Lemma spop_takes_witness :
  exists popped w', @spop _ map_kv step_clock in_order [BulkOf (lit "a"); int_arg 1] one_set = (Ok (toBulkArray popped), w') /\
    NoDup popped /\ len popped = Z.min 1 (set_len (get {[lit "a" := {[lit "x"; lit "y"]}]} (lit "a"))) /\
    list_to_set popped ⊆ get {[lit "a" := {[lit "x"; lit "y"]}]} (lit "a") /\
    rep (put (lit "a") (get {[lit "a" := {[lit "x"; lit "y"]}]} (lit "a") ∖ list_to_set popped) {[lit "a" := {[lit "x"; lit "y"]}]}) w'.
Proof.
  apply (@spop_takes step_clock in_order in_order_laws (lit "a") {[lit "a" := {[lit "x"; lit "y"]}]} one_set 1);
    [apply one_set_rep | lia | unfold is_i64; lia].
Defined.

(** SUNIONSTORE onto a key that holds a string stores the set beside it: the
    key answers as the string it was, and the set cannot be reached. *)
Example store_keeps_other_type :
  let w := (@sunionstore _ map_kv step_clock [BulkOf (lit "d"); BulkOf (lit "a")]
             (world_of [(SetKey (lit "a"), set_entry {[lit "x"]}); (StringKey (lit "d"), EncodeString (lit "v") 0)])).2 in
  (@CmdString.get _ map_kv step_clock [BulkOf (lit "d")] w).1 = Ok (BulkOf (lit "v")) /\
  w_kv w !! SetKey (lit "d") = Some (set_entry {[lit "x"]}) /\
  (@smembers _ map_kv step_clock [BulkOf (lit "d")] w).1 = Ok (errValue WRONGTYPE).
Proof. vm_compute. done. Qed.

End setspec.
