(* ===== verification/CmdZSet.v ===== *)
(** * Sorted-set commands
    (src/internal/commands/zset.go, zset_range.go, and ParseScore of
    src/internal/datastruct/zset.go)

    A sorted set is a finite map from member to score, a float64 bit pattern;
    it is sorted by score and member whenever an order is needed.  Parsing,
    adding, multiplying and printing floats are classes; comparing them is
    defined on the bits. *)

From S2P Require Import Prelude GoLib GoStrings GoPath Resp Codec Kv Cmd CmdString CmdList CmdKeys.
Open Scope Z_scope.
Open Scope gedis_scope.

Module zsetcmd.
Import datastruct keycmd.
Import listcmd (toBulkArray).

Notation zset := (gmap bytes Z).
Notation zsetMember := (bytes * Z)%type.

(** [strconv.FormatFloat(f, 'e', -1, 64)] *)
Class GoFloatSci : Type := { FormatFloatE : Z -> bytes }.
(** Float multiplication. *)
Class GoFloatMul : Type := { f64_mul : Z -> Z -> Z }.

Definition f64_pos_inf : Z := 2047 * 2 ^ 52.
Definition f64_neg_inf : Z := 2 ^ 63 + 2047 * 2 ^ 52.

(** [strings.Replace(s, old, new, 1)], [old] not being empty. *)
Fixpoint replace_once (old new s : bytes) : bytes :=
  if HasPrefix s old then new ++ drop (length old) s
  else match s with [] => [] | c :: r => c :: replace_once old new r end.

(** ** Scores *)

Definition ParseScore `{GoFloat} (s : bytes) : option Z :=
  match ParseFloat s with
  | None => None
  | Some f => if IsNaN f || IsInf f then None else Some f
  end.

Definition err_score : Value := errS "ERR value is not a valid float".

Definition sortedZSet (z : zset) : list zsetMember := sortZSetPairs (map_to_list z).

Section format.
Context `{GoFloatArith} `{GoFloatSci}.

Definition splitSci (f : Z) : bytes * Z :=
  let s := FormatFloatE f in
  let idx := IndexByte s "e" in
  match Atoi (drop (Z.to_nat (idx + 1)) s) with
  | None => (s, 0)
  | Some n => (take (Z.to_nat idx) s, n)
  end.

Definition normSci (f : Z) : bytes :=
  replace_once (lit "e+0") (lit "e+") (replace_once (lit "e-0") (lit "e-") (FormatFloatE f)).

Definition formatScore (f : Z) : bytes :=
  if f64_eqb f 0 then lit "0"
  else
    let '(mant, exp) := splitSci f in
    let digits := replace_once (lit ".") [] mant in
    if (19 <=? exp) && (8 <=? exp + 1 - len digits) then normSci f
    else if exp <=? -7 then normSci f
    else FormatFloatF f.

Definition score_opt (o : option Z) : Value := match o with None => nilBulk | Some s => BulkOf (formatScore s) end.

Definition rangeReply (members : list zsetMember) (withScores : bool) : Value :=
  VArray (Some (concat (map (fun p : zsetMember =>
    BulkOf p.1 :: (if withScores then [BulkOf (formatScore p.2)] else [])) members))).
End format.

(** ** Bounds *)

Record scoreBound : Type := mkScoreBound { sb_v : Z; sb_ex : bool; sb_inf : Z }.

Definition parseScoreBound `{GoFloat} `{GoUnicode} (s : bytes) : option scoreBound :=
  let ex := HasPrefix s (lit "(") in
  let s := if ex then drop 1 s else s in
  let l := ToLower s in
  if bytes_eqb l (lit "-inf") then Some (mkScoreBound f64_neg_inf false (-1))
  else if bytes_eqb l (lit "+inf") || bytes_eqb l (lit "inf") then Some (mkScoreBound f64_pos_inf false 1)
  else match ParseFloat s with
  | None => None
  | Some f => if IsNaN f then None else Some (mkScoreBound f ex 0)
  end.

Definition err_score_bound : Value := errS "ERR min or max is not a float".

Definition inScoreRange (s : Z) (min max : scoreBound) : bool :=
  negb ((sb_inf min =? 0) && (f64_ltb s (sb_v min) || (sb_ex min && f64_eqb s (sb_v min)))) &&
  negb ((sb_inf max =? 0) && (f64_ltb (sb_v max) s || (sb_ex max && f64_eqb s (sb_v max)))).

Definition normalizeRange (start stop n : Z) : option (Z * Z) :=
  if n =? 0 then None
  else
    let start := if start <? 0 then start + n else start in
    let stop := if stop <? 0 then stop + n else stop in
    let start := if start <? 0 then 0 else start in
    let stop := if n <=? stop then n - 1 else stop in
    if stop <? start then None else Some (start, stop).

Record lexBound : Type := mkLexBound { lb_v : bytes; lb_ex : bool; lb_inf : Z }.

Definition parseLexBound (s : bytes) : option lexBound :=
  if bytes_eqb s (lit "-") then Some (mkLexBound [] false (-1))
  else if bytes_eqb s (lit "+") then Some (mkLexBound [] false 1)
  else if HasPrefix s (lit "[") then Some (mkLexBound (drop 1 s) false 0)
  else if HasPrefix s (lit "(") then Some (mkLexBound (drop 1 s) true 0)
  else None.

Definition inLexRange (m : bytes) (min max : lexBound) : bool :=
  negb ((lb_inf min =? 0) && (bytes_ltb m (lb_v min) || (lb_ex min && bytes_eqb m (lb_v min)))) &&
  negb ((lb_inf max =? 0) && (bytes_ltb (lb_v max) m || (lb_ex max && bytes_eqb m (lb_v max)))).

(** From the first element that satisfies [p]; up to the first that does. *)
Fixpoint drop_until {A} (p : A -> bool) (l : list A) : list A :=
  match l with [] => [] | x :: r => if p x then l else drop_until p r end.
Fixpoint take_until {A} (p : A -> bool) (l : list A) : list A :=
  match l with [] => [] | x :: r => if p x then [] else x :: take_until p r end.

Definition lexRangeMembers (sorted : list zsetMember) (min max : lexBound) (reversed : bool) : list zsetMember :=
  if reversed then
    let l := rev sorted in
    let l := if lb_inf max =? 0
             then drop_until (fun e => bytes_ltb e.1 (lb_v max) || (negb (lb_ex max) && bytes_eqb e.1 (lb_v max))) l else l in
    take_until (fun e => (lb_inf min =? 0) && (bytes_ltb e.1 (lb_v min) || (lb_ex min && bytes_eqb e.1 (lb_v min)))) l
  else
    let l := if lb_inf min =? 0
             then drop_until (fun e => bytes_ltb (lb_v min) e.1 || (negb (lb_ex min) && bytes_eqb e.1 (lb_v min))) sorted else sorted in
    take_until (fun e => (lb_inf max =? 0) && (bytes_ltb (lb_v max) e.1 || (lb_ex max && bytes_eqb e.1 (lb_v max)))) l.

(** ** Queries *)

Record rangeQuery : Type := mkQuery {
  q_byScore : bool; q_byLex : bool; q_rev : bool; q_withScores : bool;
  q_rank : option (Z * Z);          (* hasRank, start, stop *)
  q_min : bytes; q_max : bytes;
  q_limit : option (Z * Z);         (* hasLimit, limitOffset, limitCount *)
}.

Definition no_query : rangeQuery := mkQuery false false false false None [] [] None.
Definition syntax : Value := errS "ERR syntax error".

Section query.
Context `{GoUnicode} `{GoFloat}.

Fixpoint range_options (args : list Value) (q : rangeQuery) : rangeQuery + Value :=
  match args with
  | [] => inl q
  | a :: rest =>
      match argString a with
      | None => inr syntax
      | Some opt =>
          let u := ToUpper opt in
          if bytes_eqb u (lit "BYSCORE") then
            range_options rest (mkQuery true (q_byLex q) (q_rev q) (q_withScores q) None [] [] (q_limit q))
          else if bytes_eqb u (lit "BYLEX") then
            range_options rest (mkQuery (q_byScore q) true (q_rev q) (q_withScores q) None [] [] (q_limit q))
          else if bytes_eqb u (lit "REV") then
            range_options rest (mkQuery (q_byScore q) (q_byLex q) true (q_withScores q) None [] [] (q_limit q))
          else if bytes_eqb u (lit "WITHSCORES") then
            range_options rest (mkQuery (q_byScore q) (q_byLex q) (q_rev q) true None [] [] (q_limit q))
          else if bytes_eqb u (lit "LIMIT") then
            match rest with
            | b :: c :: rest' =>
                match argString b, argString c with
                | Some off, Some cnt =>
                    match ParseInt off, ParseInt cnt with
                    | Some o, Some n =>
                        range_options rest' (mkQuery (q_byScore q) (q_byLex q) (q_rev q) (q_withScores q) None [] [] (Some (o, n)))
                    | _, _ => inr err_int
                    end
                | _, _ => inr syntax
                end
            | _ => inr syntax
            end
          else inr syntax
      end
  end.

Definition parseRangeQuery (args : list Value) (name : string) : (bytes * rangeQuery) + Value :=
  match args with
  | a :: b :: c :: opts =>
      match argString a with
      | None => inr (errS "ERR invalid key")
      | Some key =>
          match argString b with
          | None => inr (errS "ERR invalid start")
          | Some lo =>
              match argString c with
              | None => inr (errS "ERR invalid stop")
              | Some hi =>
                  match range_options opts no_query with
                  | inr e => inr e
                  | inl q =>
                      if q_byScore q && q_byLex q then inr (errS "ERR syntax error, BYSCORE and BYLEX are incompatible")
                      else if q_byScore q || q_byLex q then
                        let '(mn, mx) := if q_rev q then (hi, lo) else (lo, hi) in
                        inl (key, mkQuery (q_byScore q) (q_byLex q) (q_rev q) (q_withScores q) None mn mx (q_limit q))
                      else match ParseInt lo, ParseInt hi with
                      | Some s, Some e =>
                          match q_limit q with
                          | Some _ => inr (errS "ERR syntax error, LIMIT is only supported in combination with either BYSCORE or BYLEX")
                          | None => inl (key, mkQuery false false (q_rev q) (q_withScores q) (Some (s, e)) [] [] None)
                          end
                      | _, _ => inr err_int
                      end
                  end
              end
          end
      end
  | _ => inr (wrong_args name)
  end.

(** The members that answer a query, in the order of the reply; unreadable
    bounds answer none. *)
Definition select_range (sorted : list zsetMember) (q : rangeQuery) : option (list zsetMember) :=
  if q_byScore q then
    match parseScoreBound (q_min q), parseScoreBound (q_max q) with
    | Some mn, Some mx => Some (List.filter (fun p => inScoreRange p.2 mn mx) sorted)
    | _, _ => None
    end
  else if q_byLex q then
    match parseLexBound (q_min q), parseLexBound (q_max q) with
    | Some mn, Some mx => Some (lexRangeMembers sorted mn mx (q_rev q))
    | _, _ => None
    end
  else Some sorted.

Definition evalRange (sorted : list zsetMember) (q : rangeQuery) : result (list zsetMember) :=
  match select_range sorted q with
  | None => Ok []
  | Some out =>
      let out := if q_rev q && negb (q_byLex q) then rev out else out in
      match q_limit q with
      | Some (off, cnt) =>
          let off := if off <? 0 then 0 else off in
          if (len out <=? off) || (cnt <? 0) then Ok []
          else
            let end_ := i64 (off + cnt) in
            slice out off (if len out <? end_ then len out else end_)
      | None =>
          match q_rank q with
          | Some (start, stop) =>
              match normalizeRange start stop (len out) with
              | None => Ok []
              | Some (lo, hi) => slice out lo (hi + 1)
              end
          | None => Ok out
          end
      end
  end.

(** The checks of the bounds before the key is read: the reply when one is
    unreadable. *)
Definition check_bounds (q : rangeQuery) (lexReply : Value) : option Value :=
  if q_byScore q && negb (bool_decide (is_Some (parseScoreBound (q_min q)) /\ is_Some (parseScoreBound (q_max q)))) then Some err_score_bound
  else if q_byLex q && negb (bool_decide (is_Some (parseLexBound (q_min q)) /\ is_Some (parseLexBound (q_max q)))) then Some lexReply
  else None.

(** [WITHSCORES] taken out of the arguments wherever it stands. *)
Definition is_withscores (a : Value) : bool :=
  match argString a with Some s => EqualFold s (lit "WITHSCORES") | None => false end.

End query.

(** ** ZADD *)

Record zaddFlags : Type := mkFlags { fl_nx : bool; fl_xx : bool; fl_gt : bool; fl_lt : bool; fl_ch : bool; fl_incr : bool }.
Definition no_flags : zaddFlags := mkFlags false false false false false false.

Fixpoint parseZAddFlags `{GoUnicode} (args : list Value) (fl : zaddFlags) : (zaddFlags * list Value) + Value :=
  match args with
  | [] => inl (fl, [])
  | a :: rest =>
      match argString a with
      | None => inr (errS "ERR invalid argument")
      | Some s =>
          let '(mkFlags nx xx gt lt ch incr) := fl in
          let u := ToUpper s in
          if bytes_eqb u (lit "NX") then parseZAddFlags rest (mkFlags true xx gt lt ch incr)
          else if bytes_eqb u (lit "XX") then parseZAddFlags rest (mkFlags nx true gt lt ch incr)
          else if bytes_eqb u (lit "GT") then parseZAddFlags rest (mkFlags nx xx true lt ch incr)
          else if bytes_eqb u (lit "LT") then parseZAddFlags rest (mkFlags nx xx gt true ch incr)
          else if bytes_eqb u (lit "CH") then parseZAddFlags rest (mkFlags nx xx gt lt true incr)
          else if bytes_eqb u (lit "INCR") then parseZAddFlags rest (mkFlags nx xx gt lt ch true)
          else inl (fl, args)
      end
  end.

(** Whether an existing score is replaced. *)
Definition zadd_keeps (fl : zaddFlags) (delta cur : Z) : bool :=
  fl_nx fl || (fl_gt fl && (f64_ltb delta cur || f64_eqb delta cur)) || (fl_lt fl && (f64_ltb cur delta || f64_eqb delta cur)).

(** How the loop over the pairs ends: with the set to write and its counts,
    with a reply, or with the incremented score to write and reply. *)
Inductive zaddOut : Type :=
| ZAdded (z : zset) (added changed : Z)
| ZReply (v : Value)
| ZIncremented (z : zset) (score : Z).

Definition err_incr_range : Value := errS "ERR resulting score is out of range (result of INCRBY would be out of range)".

Fixpoint zadd_pairs `{GoFloat} `{GoFloatArith} `{GoFloatSci} (fl : zaddFlags) (args : list Value) (z : zset) (added changed : Z) : zaddOut :=
  match args with
  | a :: b :: rest =>
      match argString a with
      | None => ZReply (errS "ERR invalid score")
      | Some sstr =>
          match ParseScore sstr with
          | None => ZReply err_score
          | Some delta =>
              match argString b with
              | None => ZReply (errS "ERR invalid member")
              | Some m =>
                  if fl_incr fl then
                    match z !! m with
                    | None => if fl_xx fl then ZReply nilBulk
                              else let cur := f64_add 0 delta in
                                   if IsNaN cur || IsInf cur then ZReply err_incr_range else ZIncremented (<[m := cur]> z) cur
                    | Some cur => if fl_nx fl then ZReply (BulkOf (formatScore cur))
                                  else let cur := f64_add cur delta in
                                       if IsNaN cur || IsInf cur then ZReply err_incr_range else ZIncremented (<[m := cur]> z) cur
                    end
                  else match z !! m with
                  | None => if fl_xx fl then zadd_pairs fl rest z added changed
                            else zadd_pairs fl rest (<[m := delta]> z) (added + 1) (changed + 1)
                  | Some cur =>
                      if zadd_keeps fl delta cur || f64_eqb delta cur then zadd_pairs fl rest z added changed
                      else zadd_pairs fl rest (<[m := delta]> z) added (changed + 1)
                  end
              end
          end
      end
  | _ => ZAdded z added changed
  end.

Fixpoint zrem_members (args : list Value) (z : zset) (removed : Z) : option (zset * Z) :=
  match args with
  | [] => Some (z, removed)
  | a :: rest =>
      match argString a with
      | None => None
      | Some m => match z !! m with
                  | Some _ => zrem_members rest (delete m z) (removed + 1)
                  | None => zrem_members rest z removed
                  end
      end
  end.

Fixpoint scores_of `{GoFloatArith} `{GoFloatSci} (args : list Value) (z : zset) (out : list Value) : Value :=
  match args with
  | [] => VArray (Some out)
  | a :: rest =>
      match argString a with
      | None => errS "ERR invalid member"
      | Some m => scores_of rest z (out ++ [score_opt (z !! m)])
      end
  end.

Fixpoint rank_from (i : Z) (l : list zsetMember) (m : bytes) : option (Z * Z) :=
  match l with
  | [] => None
  | p :: r => if bytes_eqb p.1 m then Some (i, p.2) else rank_from (i + 1) r m
  end.
Definition rankOf (z : zset) (m : bytes) (reversed : bool) : option (Z * Z) :=
  let sorted := sortedZSet z in
  match rank_from 0 sorted m with
  | None => None
  | Some (i, s) => Some (if reversed then len sorted - 1 - i else i, s)
  end.

Definition delete_all (ps : list zsetMember) (z : zset) : zset := foldl (fun z p => delete p.1 z) z ps.

Section handlers.
Context {S : Type} `{KV S} `{Clock} `{GoUnicode} `{GoFloat} `{GoFloatArith} `{GoFloatSci}.

Definition readZSet (key : bytes) : M S (zset * Z) :=
  let! e := lookupKey key in
  if negb (bool_decide (Type_ e = TypeZSet)) then merr WRONGTYPE
  else let! (z, _) := lift (DecodeZSet (Payload e)) in mret (z, Expiry e).

Definition writeZSet (key : bytes) (z : zset) (expiry : Z) : M S unit :=
  if bool_decide (z = ∅) then kvDelete (ZSetKey key)
  else kvSet (ZSetKey key) (Encode TypeZSet expiry (EncodeZSet z)).

Definition with_zset (key : bytes) (missing : M S Value) (k : zset -> Z -> M S Value) : M S Value :=
  let! r := attempt (readZSet key) in
  match r with
  | inr e => if isNotFound e then missing else mret (errValue e)
  | inl (z, expiry) => k z expiry
  end.
Definition zset_or_new (key : bytes) (k : zset -> Z -> M S Value) : M S Value := with_zset key (k ∅ 0) k.

Definition with_zmember (a : Value) (k : bytes -> M S Value) : M S Value :=
  match argString a with None => mret (errS "ERR invalid member") | Some m => k m end.

Definition zadd (args : list Value) : M S Value :=
  match args with
  | a :: opts =>
      if len args <? 3 then mret (wrong_args "zadd")
      else with_key a (fun key =>
        match parseZAddFlags opts no_flags with
        | inr e => mret e
        | inl (fl, rest) =>
            if fl_gt fl && fl_lt fl then mret (errS "ERR syntax error, GT and LT not compatible")
            else if (fl_gt fl || fl_lt fl) && fl_nx fl then
              mret (errS "ERR syntax error, GT, LT, and/or NX options at the same time are not compatible")
            else if (len rest =? 0) || Z.odd (len rest) then mret syntax
            else if fl_incr fl && negb (len rest =? 2) then mret (errS "ERR INCR option supports a single increment-element pair")
            else zset_or_new key (fun z expiry =>
              match zadd_pairs fl rest z 0 0 with
              | ZReply v => mret v
              | ZIncremented z' score => commit (writeZSet key z' expiry) (mret (BulkOf (formatScore score)))
              | ZAdded z' added changed =>
                  commit (writeZSet key z' expiry)
                    (let! _ := Notify "z" (lit "zadd") key in mret (VInteger (if fl_ch fl then changed else added)))
              end)
        end)
  | [] => mret (wrong_args "zadd")
  end.

(** [name], and that the key is gone, are announced when something was
    removed. *)
Definition announce_removed (key : bytes) (name : bytes) (removed : bool) (z : zset) : M S unit :=
  if removed then
    let! _ := Notify "z" name key in
    if bool_decide (z = ∅) then Notify "g" (lit "del") key else mret ()
  else mret ().

Definition zrem (args : list Value) : M S Value :=
  match args with
  | a :: ms =>
      if len args <? 2 then mret (wrong_args "zrem")
      else with_key a (fun key => with_zset key (mret (VInteger 0)) (fun z expiry =>
        match zrem_members ms z 0 with
        | None => mret (errS "ERR invalid member")
        | Some (z', removed) =>
            commit (writeZSet key z' expiry)
              (let! _ := announce_removed key (lit "zrem") (0 <? removed) z' in mret (VInteger removed))
        end))
  | [] => mret (wrong_args "zrem")
  end.

Definition zscore (args : list Value) : M S Value :=
  match args with
  | [a; b] => with_key a (fun key => with_zset key (mret nilBulk) (fun z _ =>
      with_zmember b (fun m => mret (score_opt (z !! m)))))
  | _ => mret (wrong_args "zscore")
  end.

Definition zmscore (args : list Value) : M S Value :=
  match args with
  | a :: ms =>
      if len args <? 2 then mret (wrong_args "zmscore")
      else with_key a (fun key => zset_or_new key (fun z _ => mret (scores_of ms z [])))
  | [] => mret (wrong_args "zmscore")
  end.

Definition zcard (args : list Value) : M S Value :=
  match args with
  | [a] => with_key a (fun key => with_zset key (mret (VInteger 0)) (fun z _ => mret (VInteger (map_len z))))
  | _ => mret (wrong_args "zcard")
  end.

Definition zincrby (args : list Value) : M S Value :=
  match args with
  | [a; b; c] => with_key a (fun key =>
      match argString b with
      | None => mret (errS "ERR invalid increment")
      | Some istr =>
          match ParseScore istr with
          | None => mret err_score
          | Some incr => with_zmember c (fun m => zset_or_new key (fun z expiry =>
              let ns := f64_add (default 0 (z !! m)) incr in
              if IsNaN ns || IsInf ns then mret err_incr_range
              else commit (writeZSet key (<[m := ns]> z) expiry)
                     (let! _ := Notify "z" (lit "zincr") key in mret (BulkOf (formatScore ns)))))
          end
      end)
  | _ => mret (wrong_args "zincrby")
  end.

Definition rank (args : list Value) (reversed : bool) (name : string) : M S Value :=
  match args with
  | a :: b :: opts =>
      if 3 <? len args then mret (wrong_args name)
      else match (match opts with
                  | [] => Some false
                  | o :: _ => match argString o with
                              | Some s => if EqualFold s (lit "WITHSCORE") then Some true else None
                              | None => None
                              end
                  end) with
      | None => mret syntax
      | Some withScore => with_key a (fun key => with_zset key (mret nilBulk) (fun z _ => with_zmember b (fun m =>
          match rankOf z m reversed with
          | None => mret nilBulk
          | Some (r, s) => mret (if withScore then VArray (Some [VInteger r; BulkOf (formatScore s)]) else VInteger r)
          end)))
      end
  | _ => mret (wrong_args name)
  end.
Definition zrank (args : list Value) : M S Value := rank args false "zrank".
Definition zrevrank (args : list Value) : M S Value := rank args true "zrevrank".

Definition zcount (args : list Value) : M S Value :=
  match args with
  | [a; b; c] => with_key a (fun key =>
      match argString b with
      | None => mret (errS "ERR invalid min")
      | Some mn =>
          match argString c with
          | None => mret (errS "ERR invalid max")
          | Some mx =>
              match parseScoreBound mn, parseScoreBound mx with
              | Some mn, Some mx => with_zset key (mret (VInteger 0)) (fun z _ =>
                  mret (VInteger (map_len (filter (fun p => inScoreRange p.2 mn mx = true) z))))
              | _, _ => mret err_score_bound
              end
          end
      end)
  | _ => mret (wrong_args "zcount")
  end.

Definition pair_values (ps : list zsetMember) : list Value :=
  concat (map (fun p : zsetMember => [BulkOf p.1; BulkOf (formatScore p.2)]) ps).

Definition zpop (args : list Value) (reversed : bool) (name : string) : M S Value :=
  match args with
  | a :: opts =>
      if 2 <? len args then mret (wrong_args name)
      else with_key a (fun key =>
        match (match opts with
               | [] => inl 1
               | c :: _ => match argString c with
                           | None => inr (errS "ERR invalid count")
                           | Some cs => match ParseInt cs with
                                        | Some n => if n <? 0 then inr (errS "ERR value is out of range, must be positive") else inl n
                                        | None => inr (errS "ERR value is out of range, must be positive")
                                        end
                           end
               end) with
        | inr e => mret e
        | inl count => with_zset key (mret (VArray (Some []))) (fun z expiry =>
            let sorted := if reversed then rev (sortedZSet z) else sortedZSet z in
            let count := if len sorted <? count then len sorted else count in
            let popped := take (Z.to_nat count) sorted in
            commit (writeZSet key (delete_all popped z) expiry) (mret (VArray (Some (pair_values popped)))))
        end)
  | [] => mret (wrong_args name)
  end.
Definition zpopmin (args : list Value) : M S Value := zpop args false "zpopmin".
Definition zpopmax (args : list Value) : M S Value := zpop args true "zpopmax".

(** ** zset_range.go *)

Definition emptyArray : Value := VArray (Some []).

(** Read the key and answer the query. *)
Definition answer_range (key : bytes) (q : rangeQuery) (withScores : bool) : M S Value :=
  with_zset key (mret emptyArray) (fun z _ =>
    let! hit := lift (evalRange (sortedZSet z) q) in mret (rangeReply hit withScores)).

Definition checked_range (key : bytes) (q : rangeQuery) (withScores : bool) : M S Value :=
  match check_bounds q emptyArray with Some e => mret e | None => answer_range key q withScores end.

Definition zrange (args : list Value) : M S Value :=
  match parseRangeQuery args "zrange" with
  | inr e => mret e
  | inl (key, q) => checked_range key q (q_withScores q)
  end.

Definition zrevrange (args : list Value) : M S Value :=
  match args with
  | a :: b :: c :: opts =>
      if 4 <? len args then mret (wrong_args "zrevrange")
      else match (match opts with [] => Some false | o :: _ => if is_withscores o then Some true else None end) with
      | None => mret syntax
      | Some withScores =>
          match parseRangeQuery ([a; b; c; BulkOf (lit "REV")] ++ (if withScores then [BulkOf (lit "WITHSCORES")] else [])) "zrevrange" with
          | inr e => mret e
          | inl (key, q) => answer_range key q withScores
          end
      end
  | _ => mret (wrong_args "zrevrange")
  end.

(** ZRANGEBYSCORE and ZREVRANGEBYSCORE: the query is built by appending
    BYSCORE (and REV), WITHSCORES being taken out first. *)
Definition by_score (args : list Value) (name : string) (reversed : bool) : M S Value :=
  match args with
  | a :: rest =>
      if len args <? 3 then mret (wrong_args name)
      else with_key a (fun key =>
        let kept := List.filter (fun v => negb (is_withscores v)) rest in
        match parseRangeQuery (BulkOf key :: kept ++ [BulkOf (lit "BYSCORE")] ++ (if reversed then [BulkOf (lit "REV")] else [])) name with
        | inr e => mret e
        | inl (k, q) =>
            match parseScoreBound (q_min q), parseScoreBound (q_max q) with
            | Some _, Some _ => answer_range k q (existsb is_withscores rest)
            | _, _ => mret err_score_bound
            end
        end)
  | [] => mret (wrong_args name)
  end.
Definition zrangebyscore (args : list Value) : M S Value := by_score args "zrangebyscore" false.
Definition zrevrangebyscore (args : list Value) : M S Value := by_score args "zrevrangebyscore" true.

Definition by_lex (args : list Value) (name : string) (reversed : bool) : M S Value :=
  match args with
  | a :: rest =>
      if len args <? 3 then mret (wrong_args name)
      else with_key a (fun key =>
        match parseRangeQuery (BulkOf key :: rest ++ [BulkOf (lit "BYLEX")] ++ (if reversed then [BulkOf (lit "REV")] else [])) name with
        | inr e => mret e
        | inl (k, q) =>
            match parseLexBound (q_min q), parseLexBound (q_max q) with
            | Some _, Some _ => answer_range k q false
            | _, _ => mret emptyArray
            end
        end)
  | [] => mret (wrong_args name)
  end.
Definition zrangebylex (args : list Value) : M S Value := by_lex args "zrangebylex" false.
Definition zrevrangebylex (args : list Value) : M S Value := by_lex args "zrevrangebylex" true.

Definition zremrangebyrank (args : list Value) : M S Value :=
  match args with
  | [a; b; c] => with_key a (fun key =>
      match ParseInt (arg_or_empty b), ParseInt (arg_or_empty c) with
      | Some start, Some stop => with_zset key (mret (VInteger 0)) (fun z expiry =>
          let sorted := sortedZSet z in
          match normalizeRange start stop (len sorted) with
          | None => mret (VInteger 0)
          | Some (lo, hi) =>
              let! hit := lift (slice sorted lo (hi + 1)) in
              let z' := delete_all hit z in
              commit (writeZSet key z' expiry)
                (let! _ := announce_removed key (lit "zrembyrank") true z' in mret (VInteger (hi - lo + 1)))
          end)
      | _, _ => mret err_int
      end)
  | _ => mret (wrong_args "zremrangebyrank")
  end.

Definition zremrangebyscore (args : list Value) : M S Value :=
  match args with
  | [a; b; c] => with_key a (fun key =>
      match parseScoreBound (arg_or_empty b), parseScoreBound (arg_or_empty c) with
      | Some mn, Some mx => with_zset key (mret (VInteger 0)) (fun z expiry =>
          let z' := filter (fun p => inScoreRange p.2 mn mx = false) z in
          let n := map_len z - map_len z' in
          commit (writeZSet key z' expiry)
            (let! _ := announce_removed key (lit "zrembyscore") (0 <? n) z' in mret (VInteger n)))
      | _, _ => mret err_score_bound
      end)
  | _ => mret (wrong_args "zremrangebyscore")
  end.

Definition zremrangebylex (args : list Value) : M S Value :=
  match args with
  | [a; b; c] => with_key a (fun key =>
      match parseLexBound (arg_or_empty b), parseLexBound (arg_or_empty c) with
      | Some mn, Some mx => with_zset key (mret (VInteger 0)) (fun z expiry =>
          let z' := delete_all (lexRangeMembers (sortedZSet z) mn mx false) z in
          commit (writeZSet key z' expiry) (mret (VInteger (map_len z - map_len z'))))
      | _, _ => mret (VInteger 0)
      end)
  | _ => mret (wrong_args "zremrangebylex")
  end.

Definition zrangestore (args : list Value) : M S Value :=
  match args with
  | d :: rest =>
      if len args <? 4 then mret (wrong_args "zrangestore")
      else with_key d (fun dst =>
        match parseRangeQuery rest "zrangestore" with
        | inr e => mret e
        | inl (src, q) =>
            if q_withScores q then mret syntax
            else match check_bounds q (VInteger 0) with
            | Some e => mret e
            | None =>
                with_zset src (let! _ := ignore (writeZSet dst ∅ 0) in mret (VInteger 0)) (fun z _ =>
                  let! hit := lift (evalRange (sortedZSet z) q) in
                  let! r := attempt (readZSet dst) in
                  match (match r with inr e => if isNotFound e then None else Some (errValue e) | inl _ => None end) with
                  | Some e => mret e
                  | None =>
                      commit (writeZSet dst (foldl (fun z p => <[p.1 := p.2]> z) ∅ hit) 0) (mret (VInteger (len hit)))
                  end)
            end
        end)
  | [] => mret (wrong_args "zrangestore")
  end.

End handlers.
End zsetcmd.
