(* ===== verification/CmdZSetOps.v ===== *)
(** * Sorted-set algebra, scans and blocking pops
    (src/internal/commands/zset_store.go, zset_scan.go, zset_block.go) *)

From S2P Require Import Prelude GoLib GoStrings GoPath Resp Codec Kv Cmd CmdString CmdList CmdKeys CmdHash CmdSet CmdZSet.
Open Scope Z_scope.
Open Scope gedis_scope.

Module zsetops.
Import datastruct keycmd zsetcmd.
Import hashcmd (MapRand, perm, draw, pick_field, hscan_reply).
Import listcmd (blocking, bret, bbind, poll_for, nilArray, bad_timeout, parseTimeout, GoDuration, seconds, wake).
Import setcmd (setKeys, sscan_options, card_loop).

Inductive zsetAggregate : Type := aggSum | aggMin | aggMax.

Record zsetOpSpec : Type := mkOpSpec { zo_keys : list bytes; zo_weights : list Z; zo_agg : zsetAggregate; zo_withScores : bool }.

(** The float64 1. *)
Definition f64_one : Z := 1023 * 2 ^ 52.

Section parse.
Context `{GoUnicode} `{GoFloat}.

Fixpoint parse_weights (args : list Value) : list Z + Value :=
  match args with
  | [] => inl []
  | a :: rest =>
      match argString a with
      | None => inr (errS "ERR invalid weight")
      | Some ws =>
          match ParseScore ws with
          | None => inr (errS "ERR weight value is not a float")
          | Some w => match parse_weights rest with inl l => inl (w :: l) | inr e => inr e end
          end
      end
  end.

(** The options after the keys; the fuel is the number of arguments. *)
Fixpoint op_options (fuel : nat) (num : nat) (allowExtra : bool) (args : list Value)
    (weights : option (list Z)) (agg : zsetAggregate) (withScores : bool) : (option (list Z) * zsetAggregate * bool) + Value :=
  match fuel, args with
  | _, [] => inl (weights, agg, withScores)
  | O, _ => inl (weights, agg, withScores)
  | S fuel', a :: rest =>
      match argString a with
      | None => inr syntax
      | Some opt =>
          let u := ToUpper opt in
          if bytes_eqb u (lit "WEIGHTS") then
            if negb allowExtra || (length rest <? num)%nat then inr syntax
            else match parse_weights (take num rest) with
            | inr e => inr e
            | inl ws => op_options fuel' num allowExtra (drop num rest) (Some ws) agg withScores
            end
          else if bytes_eqb u (lit "AGGREGATE") then
            if negb allowExtra then inr syntax
            else match rest with
            | [] => inr syntax
            | b :: rest' =>
                match argString b with
                | None => inr syntax
                | Some s =>
                    let v := ToUpper s in
                    if bytes_eqb v (lit "SUM") then op_options fuel' num allowExtra rest' weights aggSum withScores
                    else if bytes_eqb v (lit "MIN") then op_options fuel' num allowExtra rest' weights aggMin withScores
                    else if bytes_eqb v (lit "MAX") then op_options fuel' num allowExtra rest' weights aggMax withScores
                    else inr syntax
                end
            end
          else if bytes_eqb u (lit "WITHSCORES") then
            if negb allowExtra then inr syntax else op_options fuel' num allowExtra rest weights agg true
          else inr syntax
      end
  end.

Definition at_least_one (name : string) : Value :=
  VError (lit "ERR at least 1 input key is needed for '" ++ lit name ++ lit "' command").

(** [numkeys key...]: the keys and what follows.  [1+num] wraps for the
    largest count, which passes the check and then cannot be allocated. *)
Definition parse_keys (args : list Value) (name : string) : result ((list bytes * list Value) + Value) :=
  match args with
  | [] => Ok (inr (wrong_args name))
  | a :: rest =>
      match argString a with
      | None => Ok (inr (errS "ERR invalid numkeys"))
      | Some ns =>
          match ParseInt ns with
          | None => Ok (inr (at_least_one name))
          | Some num =>
              if num <? 1 then Ok (inr (at_least_one name))
              else if len args <? i64 (1 + num) then Ok (inr (wrong_args name))
              else if negb (make_ok num sizeofString) then Panic
              else match setKeys (take (Z.to_nat num) rest) with
              | None => Ok (inr (errS "ERR invalid key"))
              | Some keys => Ok (inl (keys, drop (Z.to_nat num) rest))
              end
          end
      end
  end.

Definition parseZSetOp (args : list Value) (name : string) (allowExtra : bool) : result (zsetOpSpec + Value) :=
  let? r := parse_keys args name in
  match r with
  | inr e => Ok (inr e)
  | inl (keys, opts) =>
      match op_options (length opts) (length keys) allowExtra opts None aggSum false with
      | inr e => Ok (inr e)
      | inl (weights, agg, withScores) =>
          Ok (inl (mkOpSpec keys (default (map (fun _ => f64_one) keys) weights) agg withScores))
      end
  end.
End parse.

(** ** Algebra *)

Section algebra.
Context `{GoFloatArith} `{GoFloatMul}.

Definition aggregateScore (agg : zsetAggregate) (cur : option Z) (next : Z) : Z :=
  match cur with
  | None => next
  | Some cur =>
      match agg with
      | aggMin => if f64_ltb next cur then next else cur
      | aggMax => if f64_ltb cur next then next else cur
      | aggSum => f64_add cur next
      end
  end.

(** One set into the union; the members are distinct, so the order of ranging
    over it does not matter. *)
Definition union_step (agg : zsetAggregate) (out : zset) (zw : zset * Z) : zset :=
  merge (fun cur s => match s with
                      | None => cur
                      | Some s => Some (aggregateScore agg cur (f64_mul s zw.2))
                      end) out zw.1.
Definition unionZSets (sets : list zset) (weights : list Z) (agg : zsetAggregate) : zset :=
  foldl (union_step agg) ∅ (zip sets weights).

(** The score of one member over the remaining sets, unless one lacks it. *)
Fixpoint inter_score (agg : zsetAggregate) (m : bytes) (acc : Z) (zws : list (zset * Z)) : option Z :=
  match zws with
  | [] => Some acc
  | (z, w) :: rest =>
      match z !! m with
      | None => None
      | Some s => inter_score agg m (aggregateScore agg (Some acc) (f64_mul s w)) rest
      end
  end.
Definition interZSets (sets : list zset) (weights : list Z) (agg : zsetAggregate) : zset :=
  match zip sets weights with
  | [] => ∅
  | (z0, w0) :: rest => map_imap (fun m s => inter_score agg m (f64_mul s w0) rest) z0
  end.

Definition diffZSets (sets : list zset) : zset :=
  match sets with
  | [] => ∅
  | z0 :: rest => filter (fun p => ~ Exists (fun z : zset => is_Some (z !! p.1)) rest) z0
  end.
End algebra.

(** The first smallest set. *)
Fixpoint smallest_zset (best : zset) (sets : list zset) : zset :=
  match sets with
  | [] => best
  | z :: rest => smallest_zset (if (size z <? size best)%nat then z else best) rest
  end.

Definition in_all (sets : list zset) (m : bytes) : bool := forallb (fun z : zset => bool_decide (is_Some (z !! m))) sets.

Section handlers.
Context {S : Type} `{KV S} `{Clock} `{GoUnicode} `{GoFloat} `{GoFloatArith} `{GoFloatSci} `{GoFloatMul}.

Fixpoint readZSets (keys : list bytes) : M S (list zset + Value) :=
  match keys with
  | [] => mret (inl [])
  | k :: ks =>
      let! r := attempt (readZSet k) in
      match (match r with
             | inr e => if isNotFound e then inl ∅ else inr (errValue e)
             | inl (z, _) => inl z
             end) with
      | inr e => mret (inr e)
      | inl z =>
          let! rest := readZSets ks in
          mret (match rest with inl zs => inl (z :: zs) | inr e => inr e end)
      end
  end.

Definition with_op (args : list Value) (name : string) (allowExtra : bool) (k : zsetOpSpec -> M S Value) : M S Value :=
  let! r := lift (parseZSetOp args name allowExtra) in
  match r with inr e => mret e | inl spec => k spec end.

Definition with_zsets (keys : list bytes) (k : list zset -> M S Value) : M S Value :=
  let! r := readZSets keys in
  match r with inr e => mret e | inl sets => k sets end.

Definition zsetOpFunc : Type := list zset -> list Z -> zsetAggregate -> zset.
Definition diffOp : zsetOpFunc := fun sets _ _ => diffZSets sets.

(** ZUNION, ZINTER and ZDIFF. *)
Definition zset_algebra (args : list Value) (name : string) (op : zsetOpFunc) (allowExtra : bool) : M S Value :=
  with_op args name allowExtra (fun spec => with_zsets (zo_keys spec) (fun sets =>
    mret (rangeReply (sortedZSet (op sets (zo_weights spec) (zo_agg spec))) (zo_withScores spec)))).

Definition zunion (args : list Value) : M S Value := zset_algebra args "zunion" unionZSets true.
Definition zinter (args : list Value) : M S Value := zset_algebra args "zinter" interZSets true.
Definition zdiff (args : list Value) : M S Value := zset_algebra args "zdiff" diffOp false.

Definition storeZSetOp (args : list Value) (name : string) (op : zsetOpFunc) (allowExtra : bool) : M S Value :=
  match args with
  | d :: rest =>
      if len args <? 2 then mret (wrong_args name)
      else match argString d with
      | None => mret (errS "ERR invalid destination")
      | Some dst => with_op rest name allowExtra (fun spec =>
          let! old := attempt (readZSet dst) in
          match (match old with inr e => if isNotFound e then inl false else inr e | inl _ => inl true end) with
          | inr e => mret (errValue e)
          | inl oldExisted => with_zsets (zo_keys spec) (fun sets =>
              let res := op sets (zo_weights spec) (zo_agg spec) in
              let gone := bool_decide (res = ∅) in
              commit (kvWriteBatch [if gone then mkBatchOp (ZSetKey dst) [] true
                                    else mkBatchOp (ZSetKey dst) (Encode TypeZSet 0 (EncodeZSet res)) false])
                (let! _ := Notify "z" (lit name) dst in
                 let! _ := (if gone && oldExisted then Notify "g" (lit "del") dst else mret ()) in
                 mret (VInteger (map_len res))))
          end)
      end
  | [] => mret (wrong_args name)
  end.

Definition zunionstore (args : list Value) : M S Value := storeZSetOp args "zunionstore" unionZSets true.
Definition zinterstore (args : list Value) : M S Value := storeZSetOp args "zinterstore" interZSets true.
Definition zdiffstore (args : list Value) : M S Value := storeZSetOp args "zdiffstore" diffOp false.

(** The optional LIMIT of ZINTERCARD. *)
Definition zcard_limit (rest : list Value) : option Z + Value :=
  match rest with
  | [] => inl None
  | [o; l] =>
      if match argString o with Some s => EqualFold s (lit "LIMIT") | None => false end then
        match argString l with
        | None => inr err_int
        | Some ls => match ParseInt ls with
                     | None => inr err_int
                     | Some n => if n <? 0 then inr err_int else inl (Some n)
                     end
        end
      else inr syntax
  | _ => inr syntax
  end.

Definition zintercard (args : list Value) : M S Value :=
  let! r := lift (parse_keys args "zintercard") in
  match r with
  | inr e => mret e
  | inl (keys, rest) =>
      match zcard_limit rest with
      | inr e => mret e
      | inl limit => with_zsets keys (fun sets =>
          match limit, sets with
          | Some 0, _ | _, [] => mret (VInteger 0)
          | _, z0 :: rest => mret (VInteger (card_loop (map_keys (smallest_zset z0 rest)) (in_all sets) (default 0 limit) 0))
          end)
      end
  end.

(** ** zset_scan.go *)

Definition emit (withScores : bool) (p : zsetMember) : Value :=
  if withScores then VArray (Some [BulkOf p.1; BulkOf (formatScore p.2)]) else BulkOf p.1.

(** The n draws from the i-th on. *)
Fixpoint draw_members `{MapRand} (members : list zsetMember) (i n : nat) : result (list zsetMember) :=
  match n with
  | O => Ok []
  | Datatypes.S n' =>
      if len members <=? 0 then Panic
      else match members !! Z.to_nat (draw i (len members)) with
      | None => Panic
      | Some p => let? rest := draw_members members (Datatypes.S i) n' in Ok (p :: rest)
      end
  end.

Definition zrandmember `{MapRand} (args : list Value) : M S Value :=
  match args with
  | a :: opts =>
      if 3 <? len args then mret (wrong_args "zrandmember")
      else with_key a (fun key =>
        match (match opts with
               | [] => inl (0, false)
               | c :: rest =>
                   match argString c with
                   | None => inr (errS "ERR invalid count")
                   | Some cs =>
                       match ParseInt cs with
                       | None => inr err_int
                       | Some n => match rest with
                                   | [] => inl (n, false)
                                   | o :: _ => if is_withscores o then inl (n, true) else inr syntax
                                   end
                       end
                   end
               end) with
        | inr e => mret e
        | inl (count, withScores) =>
            with_zset key (mret (match opts with [] => nilBulk | _ => emptyArray end)) (fun z _ =>
              let members := sortedZSet z in
              match opts with
              | [] => if len members =? 0 then mret nilBulk
                      else let! m := lift (pick_field (map fst members) 0) in mret (BulkOf m)
              | _ =>
                  if count =? 0 then mret emptyArray
                  else if 0 <? count then
                    if len members <=? count then mret (VArray (Some (map (emit withScores) members)))
                    else
                      let! ix := lift (slice (perm (len members)) 0 count) in
                      mret (VArray (Some (map (fun i => emit withScores (default ([], 0) (members !! i))) ix)))
                  else
                    let n := i64 (- count) in
                    if negb (make_ok n sizeofValue) then mpanic
                    else let! out := lift (draw_members members 0 (Z.to_nat n)) in
                         mret (VArray (Some (map (emit withScores) out)))
              end)
        end)
  | [] => mret (wrong_args "zrandmember")
  end.

(** One page of the sorted matches, and the next cursor. *)
Definition zscan_page (matched : list zsetMember) (cursor count : Z) : result (Z * list zsetMember) :=
  let cursor := if len matched <? cursor then len matched else cursor in
  let end_ := i64 (cursor + count) in
  let '(end_, next) := if len matched <=? end_ then (len matched, 0) else (end_, end_) in
  if end_ <? cursor then Panic
  else let? page := slice matched cursor end_ in Ok (next, page).

Definition zscan (args : list Value) : M S Value :=
  match args with
  | a :: c :: opts => with_key a (fun key =>
      match argString c with
      | None => mret (errS "ERR invalid cursor")
      | Some cs =>
          match ParseInt cs with
          | None => mret err_int
          | Some cursor =>
              if cursor <? 0 then mret err_int
              else match sscan_options opts (lit "*") 10 with
              | inr e => mret e
              | inl (pattern, count) =>
                  with_zset key (mret (hscan_reply 0 [])) (fun z _ =>
                    let matched := List.filter (fun p => path_matches pattern p.1) (sortedZSet z) in
                    let! (next, page) := lift (zscan_page matched cursor count) in
                    mret (hscan_reply next (pair_values page)))
              end
          end
      end)
  | _ => mret (wrong_args "zscan")
  end.

(** ** zset_block.go *)

Definition tryZPopSingle (key : bytes) (count : Z) (reversed : bool) : M S (option (list zsetMember)) :=
  let! r := attempt (readZSet key) in
  match r with
  | inr e => if isNotFound e then mret None else merr e
  | inl (z, expiry) =>
      if bool_decide (z = ∅) then mret None
      else
        let sorted := if reversed then rev (sortedZSet z) else sortedZSet z in
        let! popped := lift (slice sorted 0 (if len sorted <? count then len sorted else count)) in
        let! _ := writeZSet key (delete_all popped z) expiry in
        mret (Some popped)
  end.

(** One round over the keys of a blocking pop: an error gives up. *)
Fixpoint zpop_round (keys : list bytes) (count : Z) (reversed : bool) (reply : bytes -> list zsetMember -> Value) : M S (option Value) :=
  match keys with
  | [] => mret None
  | k :: ks =>
      let! r := attempt (tryZPopSingle k count reversed) in
      match r with
      | inr _ => mret (Some nilArray)
      | inl (Some popped) => mret (Some (reply k popped))
      | inl None => zpop_round ks count reversed reply
      end
  end.

Definition zpopReply (key : bytes) (popped : list zsetMember) : Value := VArray (Some (BulkOf key :: pair_values popped)).
Definition zmpopReply (key : bytes) (popped : list zsetMember) : Value :=
  VArray (Some [BulkOf key; VArray (Some (map (emit true) popped))]).

(** Every key must be missing or a sorted set. *)
Fixpoint ztype_check (keys : list bytes) : M S (unit + Value) :=
  match keys with
  | [] => mret (inl ())
  | k :: ks =>
      let! r := attempt (readZSet k) in
      match r with
      | inr e => if isNotFound e then ztype_check ks else mret (inr (errValue e))
      | inl _ => ztype_check ks
      end
  end.

(** [numkeys key... MIN|MAX [COUNT n]] *)
Definition zmpop_args (args : list Value) : (list bytes * bool * Z) + Value :=
  match args with
  | [] => inr err_int
  | a :: rest =>
      match argString a with
      | None => inr err_int
      | Some ns =>
          match ParseInt ns with
          | None => inr err_int
          | Some numkeys =>
              if (numkeys <=? 0) || (len rest <? numkeys) then inr err_int
              else match setKeys (take (Z.to_nat numkeys) rest) with
              | None => inr (errS "ERR invalid key")
              | Some keys =>
                  match drop (Z.to_nat numkeys) rest with
                  | [] | _ :: _ :: _ :: _ :: _ => inr syntax
                  | d :: opts =>
                      match argString d with
                      | None => inr syntax
                      | Some dir =>
                          let u := ToUpper dir in
                          if negb (bytes_eqb u (lit "MIN") || bytes_eqb u (lit "MAX")) then inr syntax
                          else
                            let reversed := bytes_eqb u (lit "MAX") in
                            match opts with
                            | [o; c] =>
                                if negb (match argString o with Some s => EqualFold s (lit "COUNT") | None => false end) then inr syntax
                                else match argString c with
                                | None => inr err_int
                                | Some cs => match ParseInt cs with
                                             | Some n => if n <? 1 then inr (errS "ERR value is out of range, must be positive")
                                                         else inl (keys, reversed, n)
                                             | None => inr (errS "ERR value is out of range, must be positive")
                                             end
                                end
                            | [] => inl (keys, reversed, 1)
                            | _ => inr syntax
                            end
                      end
                  end
              end
          end
      end
  end.

(** The non-blocking round reports an error of the store. *)
Fixpoint zmpop_round (keys : list bytes) (count : Z) (reversed : bool) : M S Value :=
  match keys with
  | [] => mret nilArray
  | k :: ks =>
      let! r := attempt (tryZPopSingle k count reversed) in
      match r with
      | inr e => mret (errValue e)
      | inl (Some popped) => mret (zmpopReply k popped)
      | inl None => zmpop_round ks count reversed
      end
  end.

Definition zmpop (args : list Value) : M S Value :=
  if len args <? 3 then mret (wrong_args "zmpop")
  else match zmpop_args args with
  | inr e => mret e
  | inl (keys, reversed, count) =>
      let! r := ztype_check keys in
      match r with inr e => mret e | inl _ => zmpop_round keys count reversed end
  end.

Context `{GoDuration}.

(** The blocking forms do not touch the gauge of blocked clients. *)
Definition unpolled (b : blocking) : list (wake S) -> world S -> option (result Value) * world S :=
  fun wakes w => (b wakes 0 w).1.

Definition bzpop (args : list Value) (reversed : bool) (name : string) : list (wake S) -> world S -> option (result Value) * world S :=
  unpolled (match rev args with
  | t :: ((_ :: _) as front) =>
      match argString t with
      | None => bret bad_timeout
      | Some s =>
          match parseTimeout s with
          | None => bret bad_timeout
          | Some timeout =>
              match setKeys (rev front) with
              | None => bret (errS "ERR invalid key")
              | Some keys => bbind (ztype_check keys) (fun _ => poll_for timeout (zpop_round keys 1 reversed zpopReply) nilArray)
              end
          end
      end
  | _ => bret (wrong_args name)
  end).
Definition bzpopmin (args : list Value) := bzpop args false "bzpopmin".
Definition bzpopmax (args : list Value) := bzpop args true "bzpopmax".

Definition bzmpop (args : list Value) : list (wake S) -> world S -> option (result Value) * world S :=
  unpolled (if len args <? 4 then bret (wrong_args "bzmpop")
  else match args with
  | [] => bret (wrong_args "bzmpop")
  | t :: rest =>
      match argString t with
      | None => bret bad_timeout
      | Some s =>
          match parseTimeout s with
          | None => bret bad_timeout
          | Some timeout =>
              match zmpop_args rest with
              | inr e => bret e
              | inl (keys, reversed, count) =>
                  bbind (ztype_check keys) (fun _ => poll_for timeout (zpop_round keys count reversed zmpopReply) nilArray)
              end
          end
      end
  end).

End handlers.
End zsetops.
