(* ===== verification/CmdZSetSpec.v ===== *)
(** * What the sorted-set commands do to one key

    The abstract state is a finite map from member to score.  Positions are
    specified by counting ([before]: how many members sort before one), score
    ranges by comparing the real order of the floats, and the sorted listing
    by its uniqueness ([sortedZSet_order]). *)

From S2P Require Import Prelude GoLib GoStrings GoPath Resp Codec Kv Cmd CmdString CmdList CmdListSpec CmdKeys CmdHash CmdSet CmdSetSpec CmdZSet CmdZSetOps.
Open Scope Z_scope.
Open Scope gedis_scope.

Module zsetspec.
Import datastruct keycmd zsetcmd zsetops.

(** ** The handlers over any store *)

Section sim.
Context {S : Type} `{KVLaws S} `{Clock} `{GoUnicode} `{GoFloat} `{GoFloatArith} `{GoFloatSci} `{GoFloatMul}.

Lemma sim_readZSet key : sim (S := S) (readZSet key) (readZSet key).
Proof. unfold readZSet. solve_sim. Qed.
Lemma sim_writeZSet key z e : sim (S := S) (writeZSet key z e) (writeZSet key z e).
Proof. unfold writeZSet. solve_sim. Qed.
Lemma sim_announce key name b z : sim (S := S) (announce_removed key name b z) (announce_removed key name b z).
Proof. unfold announce_removed. solve_sim. Qed.
Hint Resolve sim_readZSet sim_writeZSet sim_announce : sim.
Lemma sim_readZSets keys : sim (S := S) (readZSets keys) (readZSets keys).
Proof. induction keys as [|k ks IH]; cbn [readZSets]; solve_sim. Qed.
Lemma sim_tryZPop key n b : sim (S := S) (tryZPopSingle key n b) (tryZPopSingle key n b).
Proof. unfold tryZPopSingle. solve_sim. Qed.
Lemma sim_ztype_check keys : sim (S := S) (ztype_check keys) (ztype_check keys).
Proof. induction keys as [|k ks IH]; cbn [ztype_check]; solve_sim. Qed.
Hint Resolve sim_readZSets sim_tryZPop sim_ztype_check : sim.
Lemma sim_zmpop_round keys n b : sim (S := S) (zmpop_round keys n b) (zmpop_round keys n b).
Proof. induction keys as [|k ks IH]; cbn [zmpop_round]; solve_sim. Qed.
Hint Resolve sim_zmpop_round : sim.

Ltac solve_zset :=
  repeat (cbv beta zeta;
    lazymatch goal with
    | |- sim (with_zset _ _ _) _ => unfold with_zset
    | |- sim (zset_or_new _ _) _ => unfold zset_or_new
    | |- sim (with_zmember _ _) _ => unfold with_zmember
    | |- sim (answer_range _ _ _) _ => unfold answer_range
    | |- sim (checked_range _ _ _) _ => unfold checked_range
    | |- sim (with_op _ _ _ _) _ => unfold with_op
    | |- sim (with_zsets _ _) _ => unfold with_zsets
    | |- _ => solve_cmd
    end).

(** Every sorted-set command that does not block behaves the same over any
    lawful store and the map. *)
Lemma zset_handlers_simulate `{hashcmd.MapRand} args :
  Forall (fun h => sim (S := S) h.1 h.2)
    [(zadd args, zadd args); (zrem args, zrem args); (zscore args, zscore args); (zmscore args, zmscore args); (zcard args, zcard args);
     (zincrby args, zincrby args); (zrank args, zrank args); (zrevrank args, zrevrank args); (zcount args, zcount args);
     (zpopmin args, zpopmin args); (zpopmax args, zpopmax args); (zrange args, zrange args); (zrevrange args, zrevrange args);
     (zrangebyscore args, zrangebyscore args); (zrevrangebyscore args, zrevrangebyscore args); (zrangebylex args, zrangebylex args);
     (zrevrangebylex args, zrevrangebylex args); (zremrangebyrank args, zremrangebyrank args);
     (zremrangebyscore args, zremrangebyscore args); (zremrangebylex args, zremrangebylex args); (zrangestore args, zrangestore args);
     (zunion args, zunion args); (zinter args, zinter args); (zdiff args, zdiff args); (zunionstore args, zunionstore args);
     (zinterstore args, zinterstore args); (zdiffstore args, zdiffstore args); (zintercard args, zintercard args);
     (zrandmember args, zrandmember args); (zscan args, zscan args); (zmpop args, zmpop args)].
Proof.
  repeat apply Forall_cons_2; [..|apply Forall_nil_2]; cbn [fst snd];
    unfold zadd, zrem, zscore, zmscore, zcard, zincrby, zrank, zrevrank, rank, zcount, zpopmin, zpopmax, zpop, zrange, zrevrange,
      zrangebyscore, zrevrangebyscore, by_score, zrangebylex, zrevrangebylex, by_lex, zremrangebyrank, zremrangebyscore, zremrangebylex,
      zrangestore, zunion, zinter, zdiff, zset_algebra, zunionstore, zinterstore, zdiffstore, storeZSetOp, zintercard, zrandmember,
      zscan, zmpop; solve_zset.
Qed.
End sim.

(** ** Order *)

Implicit Types (z : zset) (m key : bytes) (p q : zsetMember).

Definition numeric (z : zset) : Prop := map_Forall (fun _ s => IsNaN s = false) z.

(** Strictly before, by score and then by member. *)
Definition zlt (p q : zsetMember) : Prop :=
  f64_key p.2 < f64_key q.2 \/ (f64_key p.2 = f64_key q.2 /\ bytes_ltb p.1 q.1 = true).

Lemma numeric_elem z p : numeric z -> p ∈ map_to_list z -> zpair_num p.
Proof. intros Hn Hp. destruct p as [m s]. apply elem_of_map_to_list in Hp. exact (Hn _ _ Hp). Qed.

Lemma sortedZSet_perm z : sortedZSet z ≡ₚ map_to_list z.
Proof. apply isort_perm. Qed.

Lemma sortedZSet_elem z p : p ∈ sortedZSet z <-> z !! p.1 = Some p.2.
Proof. rewrite sortedZSet_perm. destruct p. apply elem_of_map_to_list. Qed.

(** Two members of one set are ordered one way or the other. *)
Lemma zlt_total z p q : numeric z -> p ∈ sortedZSet z -> q ∈ sortedZSet z -> p <> q -> zpair_less q p = false -> zlt p q.
Proof.
  intros Hn Hp Hq Hne Hl. rewrite sortedZSet_perm in Hp, Hq. pose proof (numeric_elem z p Hn Hp). pose proof (numeric_elem z q Hn Hq).
  apply zpair_nless_spec in Hl; [|done|done]. destruct Hl as [Hl|[He Hl]]; [by left|right]. split; [lia|].
  destruct (bytes_ltb p.1 q.1) eqn:E; [done|]. exfalso. apply Hne. pose proof (bytes_nltb_antisym _ _ E Hl) as Em.
  destruct p as [m s], q as [m' s']. cbn in *. subst m'. apply elem_of_map_to_list in Hp, Hq. congruence.
Qed.

Lemma sorted_strict {A} (R S : A -> A -> Prop) l :
  NoDup l -> StronglySorted R l -> (forall a b, a ∈ l -> b ∈ l -> a <> b -> R a b -> S a b) -> StronglySorted S l.
Proof.
  intros Hnd Hs HR. induction Hs as [|a l Hs IH Ha]; [constructor|]. apply NoDup_cons in Hnd as [Hna Hnd]. constructor.
  - apply IH; [done|]. intros x y Hx Hy. apply HR; by right.
  - rewrite Forall_forall in *. intros b Hb. apply HR; [by left|by right|by intros ->|by apply Ha].
Qed.

(** The listing is strictly increasing. *)
Lemma sortedZSet_sorted z : numeric z -> StronglySorted zlt (sortedZSet z).
Proof.
  intros Hn. apply (sorted_strict (fun a b => zpair_less b a = false)).
  - rewrite sortedZSet_perm. apply NoDup_map_to_list.
  - apply (isort_sorted zpair_less zpair_num zpair_asym zpair_nless_trans). apply Forall_forall. intros p Hp. by eapply numeric_elem.
  - intros a b Ha Hb. by apply zlt_total with z.
Qed.

Lemma zlt_asym p q : zlt p q -> zlt q p -> False.
Proof. intros [?|[? Ha]] [?|[? Hb]]; try lia. apply bytes_ltb_asym in Ha. congruence. Qed.

(** How many members sort before [m] with score [s]. *)
Definition before (z : zset) (m : bytes) (s : Z) : Z := map_len (filter (fun p => zpair_less p (m, s) = true) z).

Lemma length_filter_map z (f : zsetMember -> bool) :
  len (List.filter f (sortedZSet z)) = map_len (filter (fun p => f p = true) z).
Proof.
  unfold len, map_len. f_equal. rewrite <- length_map_to_list.
  assert (List.filter f (sortedZSet z) ≡ₚ map_to_list (filter (fun p => f p = true) z)) as E; [|by rewrite E].
  apply NoDup_Permutation.
  - apply NoDup_ListNoDup, List.NoDup_filter, NoDup_ListNoDup. rewrite sortedZSet_perm. apply NoDup_map_to_list.
  - apply NoDup_map_to_list.
  - intros [m s]. rewrite list_elem_of_In, filter_In, <- list_elem_of_In, sortedZSet_elem, elem_of_map_to_list, map_lookup_filter_Some. done.
Qed.

(** The scan for a member counts the members before it. *)
Lemma rank_from_counts i (l : list zsetMember) m :
  StronglySorted zlt l -> NoDup l.*1 -> Forall zpair_num l ->
  rank_from i l m =
  match list_find (fun p => p.1 = m) l with
  | None => None
  | Some (_, p) => Some (i + len (List.filter (fun q => zpair_less q p) l), p.2)
  end.
Proof.
  intros Hs Hnd Hn. revert i. induction Hs as [|a l Hs IH Ha]; intros i; cbn [rank_from list_find]; [done|].
  apply NoDup_cons in Hnd as [Hna Hnd]. apply Forall_cons in Hn as [Hpa Hn]. rewrite Forall_forall in Ha.
  destruct (bytes_eqb_spec a.1 m) as [E|E].
  - rewrite decide_True by done. cbn [List.filter]. assert (zpair_less a a = false) as ->.
    { apply zpair_nless_spec; [done|done|]. right. split; [done|]. apply bytes_ltb_irrefl. }
    assert (List.filter (fun q => zpair_less q a) l = []) as ->.
    { rewrite Forall_forall in Hn. clear -Ha Hpa Hn. induction l as [|q l IH]; [done|]. cbn [List.filter].
      destruct (zpair_less q a) eqn:Eq; [|apply IH; intros; (apply Ha || apply Hn); by right].
      apply zpair_less_spec in Eq; [|apply Hn; by left|done]. exfalso. apply (zlt_asym a q); [apply Ha; by left|exact Eq]. }
    do 2 f_equal. unfold len. cbn. lia.
  - rewrite decide_False by done. rewrite IH by done. destruct (list_find (fun p => p.1 = m) l) as [[j p]|] eqn:Ef; [|done]. cbn.
    apply list_find_Some in Ef as (Hj & _ & _). assert (p ∈ l) as Hp by (by eapply list_elem_of_lookup_2).
    assert (zpair_less a p = true) as ->.
    { apply zpair_less_spec; [done| |by apply Ha]. rewrite Forall_forall in Hn. by apply Hn. }
    rewrite len_cons. do 2 f_equal. lia.
Qed.

Lemma sortedZSet_find z m :
  match z !! m with
  | Some s => exists i, list_find (fun p => p.1 = m) (sortedZSet z) = Some (i, (m, s))
  | None => list_find (fun p => p.1 = m) (sortedZSet z) = None
  end.
Proof.
  destruct (list_find (fun p => p.1 = m) (sortedZSet z)) as [[i p]|] eqn:E.
  - pose proof (list_find_Some (fun p => p.1 = m) (sortedZSet z) i p) as [X _]. destruct (X E) as (Hi & Hm & _).
    apply list_elem_of_lookup_2, sortedZSet_elem in Hi. destruct p as [m' s]. cbn in *. subst m'. rewrite Hi. by exists i.
  - destruct (z !! m) as [s|] eqn:Em; [|done]. apply list_find_None in E. rewrite Forall_forall in E. exfalso.
    apply (E (m, s)); [|done]. by apply sortedZSet_elem.
Qed.

(** The rank of a member is the number of members before it, from the other
    end with REV. *)
Lemma rankOf_counts z m (reversed : bool) :
  numeric z ->
  rankOf z m reversed =
  match z !! m with
  | None => None
  | Some s => Some (if reversed then map_len z - 1 - before z m s else before z m s, s)
  end.
Proof.
  intros Hn. unfold rankOf. assert (len (sortedZSet z) = map_len z) as Hl.
  { unfold len, map_len. by rewrite sortedZSet_perm, length_map_to_list. }
  rewrite rank_from_counts.
  - pose proof (sortedZSet_find z m) as Hf. destruct (z !! m) as [s|]; [destruct Hf as [i ->]|by rewrite Hf].
    rewrite Hl, length_filter_map, Z.add_0_l. done.
  - by apply sortedZSet_sorted.
  - assert ((sortedZSet z).*1 ≡ₚ (map_to_list z).*1) as -> by (by rewrite sortedZSet_perm). apply NoDup_fst_map_to_list.
  - apply Forall_forall. intros p Hp. rewrite sortedZSet_perm in Hp. by eapply numeric_elem.
Qed.

(** ** Score ranges *)

Definition lower_ok (b : scoreBound) (s : Z) : bool :=
  if sb_ex b then f64_key (sb_v b) <? f64_key s else f64_key (sb_v b) <=? f64_key s.
Definition upper_ok (b : scoreBound) (s : Z) : bool :=
  if sb_ex b then f64_key s <? f64_key (sb_v b) else f64_key s <=? f64_key (sb_v b).
Definition within (mn mx : scoreBound) (s : Z) : bool := lower_ok mn s && upper_ok mx s.

(** A float64 that is a number lies between the infinities. *)
Lemma f64_key_bounds f : is_u64 f -> IsNaN f = false -> - (2047 * 2 ^ 52) <= f64_key f <= 2047 * 2 ^ 52.
Proof.
  intros Hf Hn. assert (f mod 2 ^ 63 <= 2047 * 2 ^ 52) as Hm.
  { unfold IsNaN, f64_exp, f64_frac in Hn. change 2047 with (Z.ones 11) in Hn. change (2 ^ 52 - 1) with (Z.ones 52) in Hn.
    rewrite !Z.land_ones, Z.shiftr_div_pow2 in Hn by lia. change (2 ^ 63) with (2 ^ 52 * 2 ^ 11). rewrite Z.rem_mul_r by lia.
    pose proof (Z.mod_pos_bound f (2 ^ 52) ltac:(lia)). pose proof (Z.mod_pos_bound (f / 2 ^ 52) (2 ^ 11) ltac:(lia)).
    change (Z.ones 11) with 2047 in Hn. destruct (f / 2 ^ 52 mod 2 ^ 11 =? 2047) eqn:E; cbn [andb] in Hn; breflect.
    - rewrite E in *. lia.
    - lia. }
  pose proof (Z.mod_pos_bound f (2 ^ 63) ltac:(lia)). unfold f64_key. destruct (f64_neg f); lia.
Qed.

Lemma f64_key_inf : f64_key f64_pos_inf = 2047 * 2 ^ 52 /\ f64_key f64_neg_inf = - (2047 * 2 ^ 52).
Proof. vm_compute. done. Qed.

(** Bounds as parseScoreBound makes them. *)
Definition bound_ok (b : scoreBound) : Prop :=
  IsNaN (sb_v b) = false /\ (sb_inf b = 0 \/ (sb_inf b = -1 /\ sb_v b = f64_neg_inf /\ sb_ex b = false) \/ (sb_inf b = 1 /\ sb_v b = f64_pos_inf /\ sb_ex b = false)).

Lemma parseScoreBound_ok `{GoFloat} `{GoUnicode} t b : parseScoreBound t = Some b -> bound_ok b.
Proof.
  unfold parseScoreBound. cbv zeta. destruct (bytes_eqb _ (lit "-inf")); [intros [= <-]; split; [done|right; left; done]|].
  destruct (_ || _); [intros [= <-]; split; [done|right; right; done]|].
  destruct (ParseFloat _) as [f|]; [|done]. destruct (IsNaN f) eqn:E; [done|]. intros [= <-]. split; [done|by left].
Qed.

(** Bounds that are not the wrong infinity filter as the order says. *)
Lemma inScoreRange_within mn mx s :
  bound_ok mn -> bound_ok mx -> sb_inf mn <> 1 -> sb_inf mx <> -1 -> is_u64 s -> IsNaN s = false ->
  inScoreRange s mn mx = within mn mx s.
Proof.
  intros [Hn1 Hb1] [Hn2 Hb2] H1' H2' Hu Hs. pose proof (f64_key_bounds s Hu Hs) as Hk. destruct f64_key_inf as [Kp Kn].
  unfold inScoreRange, within. f_equal.
  - unfold lower_ok. destruct Hb1 as [E|[(E & Ev & Ex)|(E & _)]]; [| |by rewrite E in H1'].
    + rewrite E. cbn [Z.eqb andb]. rewrite f64_ltb_key, f64_eqb_key by done.
      destruct (sb_ex mn); cbn [andb orb]; destruct (Z.ltb_spec (f64_key s) (f64_key (sb_v mn))), (Z.eqb_spec (f64_key s) (f64_key (sb_v mn)));
        cbn; symmetry; rewrite ?Z.ltb_lt, ?Z.leb_le, ?Z.ltb_ge, ?Z.leb_gt; lia.
    + rewrite E, Ev, Ex, Kn. cbn [Z.eqb andb negb]. symmetry. apply Z.leb_le. lia.
  - unfold upper_ok. destruct Hb2 as [E|[(E & _)|(E & Ev & Ex)]]; [|by rewrite E in H2'|].
    + rewrite E. cbn [Z.eqb andb]. rewrite f64_ltb_key, f64_eqb_key by done.
      destruct (sb_ex mx); cbn [andb orb]; destruct (Z.ltb_spec (f64_key (sb_v mx)) (f64_key s)), (Z.eqb_spec (f64_key s) (f64_key (sb_v mx)));
        cbn; symmetry; rewrite ?Z.ltb_lt, ?Z.leb_le, ?Z.ltb_ge, ?Z.leb_gt; lia.
    + rewrite E, Ev, Ex, Kp. cbn [Z.eqb andb negb]. symmetry. apply Z.leb_le. lia.
Qed.

(** ** Commands on one key *)

Section commands.
Context `{GoUnicode} `{GoFloat} `{GoFloatArith} `{GoFloatSci}.

Inductive zset_op : Type :=
| ZAdd (fl : zaddFlags) (p : bytes * bytes) (ps : list (bytes * bytes))   (* text of the score, member *)
| ZRem (m : bytes) (ms : list bytes)
| ZScore (m : bytes)
| ZCard
| ZIncrBy (t m : bytes)
| ZRank (m : bytes)
| ZRevRank (m : bytes)
| ZCount (lo hi : bytes)
| ZRange (a b : Z) (reversed : bool)
| ZRangeByScore (lo hi : bytes) (reversed : bool)
| ZRemRangeByScore (lo hi : bytes)
| ZPopMin (n : Z)
| ZPopMax (n : Z).

Definition number (t : bytes) : Z := default 0 (ParseScore t).
Definition bound (t : bytes) : scoreBound := default (mkScoreBound 0 false 0) (parseScoreBound t).

(** ZADD's rule for one pair. *)
Definition accepts (fl : zaddFlags) (cur : option Z) (s : Z) : bool :=
  match cur with
  | None => negb (fl_xx fl)
  | Some c => negb (fl_nx fl) && implb (fl_gt fl) (f64_key c <? f64_key s) && implb (fl_lt fl) (f64_key s <? f64_key c) &&
              negb (f64_key s =? f64_key c)
  end.
Definition add_one (fl : zaddFlags) (z : zset) (p : bytes * bytes) : zset :=
  if accepts fl (z !! p.2) (number p.1) then <[p.2 := number p.1]> z else z.
Fixpoint changes (fl : zaddFlags) (z : zset) (ps : list (bytes * bytes)) : Z :=
  match ps with
  | [] => 0
  | p :: rest => (if accepts fl (z !! p.2) (number p.1) then 1 else 0) + changes fl (add_one fl z p) rest
  end.

(** The members in reply order, with positions selected as LRANGE selects. *)
Definition listing (z : zset) (reversed : bool) : list zsetMember := if reversed then rev (sortedZSet z) else sortedZSet z.
Definition names (l : list zsetMember) : Value := VArray (Some (map (fun p => BulkOf p.1) l)).

Definition spec (o : zset_op) (z : zset) : Value * zset :=
  match o with
  | ZAdd fl p ps =>
      let z' := foldl (add_one fl) z (p :: ps) in
      (VInteger (if fl_ch fl then changes fl z (p :: ps) else map_len z' - map_len z), z')
  | ZRem m ms => let z' := filter (fun p => p.1 ∉ m :: ms) z in (VInteger (map_len z - map_len z'), z')
  | ZScore m => (score_opt (z !! m), z)
  | ZCard => (VInteger (map_len z), z)
  | ZIncrBy t m =>
      let s := f64_add (default 0 (z !! m)) (number t) in
      if IsNaN s || IsInf s then (err_incr_range, z) else (BulkOf (formatScore s), <[m := s]> z)
  | ZRank m => (match z !! m with None => nilBulk | Some s => VInteger (before z m s) end, z)
  | ZRevRank m => (match z !! m with None => nilBulk | Some s => VInteger (map_len z - 1 - before z m s) end, z)
  | ZCount lo hi => (VInteger (map_len (filter (fun p => within (bound lo) (bound hi) p.2 = true) z)), z)
  | ZRange a b reversed => (names (listspec.range_of (listing z reversed) a b), z)
  | ZRangeByScore lo hi reversed => (names (List.filter (fun p => within (bound lo) (bound hi) p.2) (listing z reversed)), z)
  | ZRemRangeByScore lo hi =>
      let z' := filter (fun p => within (bound lo) (bound hi) p.2 = false) z in (VInteger (map_len z - map_len z'), z')
  | ZPopMin n => let l := take (Z.to_nat n) (listing z false) in (VArray (Some (pair_values l)), filter (fun p => p ∉ l) z)
  | ZPopMax n => let l := take (Z.to_nat n) (listing z true) in (VArray (Some (pair_values l)), filter (fun p => p ∉ l) z)
  end.

Definition flag_words : list bytes := map lit ["NX"; "XX"; "GT"; "LT"; "CH"; "INCR"]%string.

(** Scores and bounds are numbers the parser reads, the range is not the wrong
    way round at infinity, flags are compatible and not taken for scores. *)
Definition score_text (t : bytes) : Prop := is_Some (ParseScore t) /\ ToUpper t ∉ flag_words.
Definition range_ok (lo hi : bytes) : Prop :=
  exists a b, parseScoreBound lo = Some a /\ parseScoreBound hi = Some b /\ sb_inf a <> 1 /\ sb_inf b <> -1.
Definition op_ok (o : zset_op) : Prop :=
  match o with
  | ZAdd fl p ps => Forall (fun p : bytes * bytes => score_text p.1) (p :: ps) /\ fl_incr fl = false /\
      fl_gt fl && fl_lt fl = false /\ (fl_gt fl || fl_lt fl) && fl_nx fl = false
  | ZIncrBy t m => is_Some (ParseScore t)
  | ZCount lo hi | ZRangeByScore lo hi _ | ZRemRangeByScore lo hi => range_ok lo hi
  | ZRange a b _ => is_i64 a /\ is_i64 b
  | ZPopMin n | ZPopMax n => 0 <= n /\ is_i64 n
  | _ => True
  end.

(** ** The loops compute the reference operations *)

Lemma ParseScore_num t s : ParseScore t = Some s -> IsNaN s = false.
Proof. unfold ParseScore. destruct (ParseFloat t) as [f|]; [|done]. destruct (IsNaN f) eqn:E; [done|]. cbn. destruct (IsInf f); [done|]. by intros [= <-]. Qed.

Lemma add_one_numeric (fl : zaddFlags) z (p : bytes * bytes) : is_Some (ParseScore p.1) -> numeric z -> numeric (add_one fl z p).
Proof.
  intros [s Hs] Hn. unfold add_one. destruct (accepts _ _ _); [|done]. apply map_Forall_insert_2; [|done].
  unfold number. rewrite Hs. cbn. by eapply ParseScore_num.
Qed.

Lemma keeps_accepts (fl : zaddFlags) (delta cur : Z) :
  IsNaN delta = false -> IsNaN cur = false -> zadd_keeps fl delta cur || f64_eqb delta cur = negb (accepts fl (Some cur) delta).
Proof.
  intros Hd Hc. unfold zadd_keeps, accepts. rewrite !f64_ltb_key, !f64_eqb_key by done.
  destruct (fl_nx fl), (fl_gt fl), (fl_lt fl); cbn [orb andb negb implb];
    destruct (Z.ltb_spec (f64_key delta) (f64_key cur)), (Z.eqb_spec (f64_key delta) (f64_key cur)), (Z.ltb_spec (f64_key cur) (f64_key delta));
    cbn; try done; lia.
Qed.

Definition flat (ps : list (bytes * bytes)) : list Value := concat (map (fun p : bytes * bytes => [BulkOf p.1; BulkOf p.2]) ps).

Lemma zadd_pairs_spec (fl : zaddFlags) (ps : list (bytes * bytes)) z (a c : Z) :
  fl_incr fl = false -> Forall (fun p : bytes * bytes => is_Some (ParseScore p.1)) ps -> numeric z ->
  zadd_pairs fl (flat ps) z a c =
  let z' := foldl (add_one fl) z ps in ZAdded z' (a + (map_len z' - map_len z)) (c + changes fl z ps).
Proof.
  intros Hi Hps. cbv zeta. revert z a c. induction Hps as [|[t m] ps [s Hs] Hps IH]; intros z a c Hn; cbn [flat map concat app zadd_pairs foldl changes].
  { f_equal; lia. }
  cbn [fst snd BulkOf argString] in *. change (default [] (Some ?x)) with x. rewrite Hs, Hi. change (concat (map _ ps)) with (flat ps).
  pose proof (add_one_numeric fl z (t, m) ltac:(eauto) Hn) as Hn'.
  assert (number t = s) as Et by (unfold number; by rewrite Hs). unfold add_one in *. cbn [fst snd] in *. rewrite Et in *.
  destruct (z !! m) as [cur|] eqn:Em.
  - rewrite keeps_accepts; [|exact (ParseScore_num _ _ Hs)|exact (Hn _ _ Em)]. destruct (accepts fl (Some cur) s); cbn [negb].
    + rewrite IH by done. f_equal; [|lia]. unfold map_len. rewrite (map_size_insert_Some m s z) by eauto. lia.
    + rewrite IH by done. f_equal; lia.
  - unfold accepts in *. destruct (fl_xx fl); cbn [negb] in *.
    + rewrite IH by done. f_equal; lia.
    + rewrite IH by done. f_equal; [|lia]. unfold map_len. rewrite (map_size_insert_None m s z) by done. lia.
Qed.

Lemma foldl_numeric (fl : zaddFlags) (ps : list (bytes * bytes)) z :
  Forall (fun p : bytes * bytes => is_Some (ParseScore p.1)) ps -> numeric z -> numeric (foldl (add_one fl) z ps).
Proof. intros Hps. revert z. induction Hps as [|p ps Hp Hps IH]; intros z Hn; cbn [foldl]; [done|]. apply IH. by apply add_one_numeric. Qed.

Lemma zrem_members_spec (ms : list bytes) z (n : Z) :
  zrem_members (map BulkOf ms) z n =
  let z' := filter (fun p => p.1 ∉ ms) z in Some (z', n + (map_len z - map_len z')).
Proof.
  cbv zeta. revert z n. induction ms as [|m ms IH]; intros z n; cbn [map zrem_members BulkOf argString].
  { rewrite map_filter_id by (intros; apply not_elem_of_nil). do 2 f_equal. lia. }
  change (default [] (Some m)) with m.
  assert (filter (fun p : zsetMember => p.1 ∉ m :: ms) z = filter (fun p : zsetMember => p.1 ∉ ms) (delete m z)) as E.
  { apply map_eq. intros x. apply option_eq. intros s. rewrite !map_lookup_filter_Some, lookup_delete_Some. cbn. rewrite not_elem_of_cons. naive_solver. }
  rewrite E. destruct (z !! m) as [s|] eqn:Em; rewrite IH.
  - do 2 f_equal. unfold map_len. rewrite (map_size_delete_Some m z) by eauto.
    pose proof (map_size_ne_0_lookup_2 z m ltac:(eauto)). lia.
  - by rewrite delete_id.
Qed.

Lemma delete_all_filter (l : list zsetMember) z :
  (forall p, p ∈ l -> z !! p.1 = Some p.2) -> delete_all l z = filter (fun p => p ∉ l) z.
Proof.
  intros Hl. unfold delete_all. assert (forall z, foldl (fun z p => delete p.1 z) z l = filter (fun p => p.1 ∉ l.*1) z) as ->.
  { clear. induction l as [|p l IH]; intros z; cbn [foldl]; [by rewrite map_filter_id by (intros; apply not_elem_of_nil)|].
    rewrite IH. apply map_eq. intros x. apply option_eq. intros s. rewrite !map_lookup_filter_Some, lookup_delete_Some. cbn.
    rewrite not_elem_of_cons. naive_solver. }
  apply map_filter_ext. intros m s Hm. cbn. split; intros Hn Hin; apply Hn.
  - apply list_elem_of_fmap. by exists (m, s).
  - apply list_elem_of_fmap in Hin as ([m' s'] & -> & Hin). pose proof (Hl _ Hin) as E. cbn in *. congruence.
Qed.

Lemma sorted_len z : len (sortedZSet z) = map_len z.
Proof. unfold len, map_len. by rewrite sortedZSet_perm, length_map_to_list. Qed.
Lemma listing_len z (b : bool) : len (listing z b) = map_len z.
Proof. unfold listing. destruct b; [unfold len; rewrite length_rev; apply sorted_len|apply sorted_len]. Qed.
Lemma listing_elem z (b : bool) p : p ∈ listing z b <-> z !! p.1 = Some p.2.
Proof. rewrite <- sortedZSet_elem. unfold listing. destruct b; [|done]. by rewrite list_elem_of_In, <- in_rev, <- list_elem_of_In. Qed.

Lemma normalized_range (l : list zsetMember) (a b : Z) :
  match normalizeRange a b (len l) with None => Ok [] | Some (lo, hi) => slice l lo (hi + 1) end = Ok (listspec.range_of l a b).
Proof.
  rewrite <- listspec.clamped_range. unfold normalizeRange, listcmd.clamp. cbv zeta. pose proof (len_nonneg l).
  set (lo := if (if a <? 0 then _ else _) <? 0 then _ else _). set (hi := if len l <=? _ then _ else _).
  destruct (len l =? 0) eqn:E; breflect.
  - destruct (hi <? lo) eqn:E1; cbn [orb]; [done|]. destruct (len l <=? lo) eqn:E2; [done|]. breflect. subst lo. destruct (_ <? 0) eqn:E3 in E2; breflect; lia.
  - destruct (hi <? lo) eqn:E1; cbn [orb]; [done|]. destruct (len l <=? lo) eqn:E2; [|done]. breflect. exfalso.
    subst hi. destruct (len l <=? (if b <? 0 then b + len l else b)) eqn:E3; breflect; lia.
Qed.

(** ** The keyspace holds one sorted set *)

Notation W := (world (gmap bytes bytes)).
Definition zset_entry (z : zset) : bytes := Encode TypeZSet 0 (EncodeZSet z).

Context `{Clock}.
Variable key : bytes.

(** An empty sorted set is no key. *)
Record rep (z : zset) (w : W) : Prop := {
  zrep_other : forall p : bytes, p ∈ typePrefixes -> p <> lit "z:" -> w_kv w !! (p ++ key) = None;
  zrep_entry : w_kv w !! ZSetKey key = if decide (z = ∅) then None else Some (zset_entry z);
  zrep_fits : zset_ok z;
  zrep_numeric : numeric z;
}.

Lemma zset_key_apart (p : bytes) : p ∈ typePrefixes -> p <> lit "z:" -> p ++ key <> ZSetKey key.
Proof.
  unfold typePrefixes, ZSetKey. cbn [map]. rewrite !elem_of_cons, elem_of_nil.
  intros Hp Hne E. destruct_or! Hp; subst; try discriminate E; by destruct Hne.
Qed.

Lemma zrep_kv z (w w' : W) : rep z w -> w_kv w' = w_kv w -> rep z w'.
Proof. intros [Ho He Hf Hn] E. split; try done; rewrite E; auto. Qed.

Lemma readZSet_rep z (w : W) : rep z w -> readZSet key w = (if decide (z = ∅) then Err ENotFound else Ok (z, 0), w).
Proof.
  intros R. unfold readZSet, lookupKey, mbind. rewrite lookupRaw_map. unfold find_key.
  assert (first_hit typePrefixes key (w_kv w) = if decide (z = ∅) then None else Some (ZSetKey key, zset_entry z)) as ->.
  { change typePrefixes with (map lit ["s:"; "h:"; "l:"; "st:"; "z:"; "hll:"; "x:"; "vs:"]%string). cbn [map].
    rewrite !first_hit_cons. change (lit "z:" ++ key) with (ZSetKey key). rewrite (zrep_entry _ _ R).
    rewrite !(zrep_other _ _ R) by (done || (unfold typePrefixes; cbn [map]; set_solver)). by destruct (decide (z = ∅)). }
  destruct (decide (z = ∅)) as [|Hne]; [done|]. unfold zset_entry.
  rewrite Decode_Encode_entry by (unfold is_i64; lia). cbn [Expiry Z.eqb mret fst snd Type_ Payload].
  rewrite bool_decide_eq_true_2 by done. cbn [negb]. unfold lift. by rewrite (DecodeZSet_EncodeZSet z (zrep_fits _ _ R)).
Qed.

Lemma with_zset_rep z (w : W) (missing : M (gmap bytes bytes) Value) (k : zset -> Z -> M (gmap bytes bytes) Value) :
  rep z w -> with_zset key missing k w = if decide (z = ∅) then missing w else k z 0 w.
Proof. intros R. unfold with_zset, mbind, attempt. rewrite (readZSet_rep z) by done. by destruct (decide (z = ∅)). Qed.

Lemma zset_or_new_rep z (w : W) (k : zset -> Z -> M (gmap bytes bytes) Value) : rep z w -> zset_or_new key k w = k z 0 w.
Proof. intros R. unfold zset_or_new. rewrite (with_zset_rep z) by done. by destruct (decide (z = ∅)) as [->|]. Qed.

Lemma commit_zset z z' (w : W) (r : Value) (k : M (gmap bytes bytes) Value) :
  rep z w -> zset_ok z' -> numeric z' -> (forall w1 : W, exists w2, k w1 = (Ok r, w2) /\ w_kv w2 = w_kv w1) ->
  exists w', commit (writeZSet key z' 0) k w = (Ok r, w') /\ rep z' w'.
Proof.
  intros R Hok Hn Hk. unfold writeZSet, commit, mbind, attempt. case_bool_decide as E; cbn; set (w1 := mkWorld _ _ _ _);
    destruct (Hk w1) as (w2 & -> & Ew); (exists w2; split; [done|]); (split; [intros p Hp Hq; rewrite Ew; cbn|rewrite Ew; cbn|done|done]).
  - rewrite lookup_delete_ne; [by apply (zrep_other _ _ R)|]. intros X. by apply (zset_key_apart p Hp Hq).
  - rewrite lookup_delete_eq. by rewrite decide_True.
  - rewrite lookup_insert_ne; [by apply (zrep_other _ _ R)|]. intros X. by apply (zset_key_apart p Hp Hq).
  - rewrite lookup_insert_eq. by rewrite decide_False.
Qed.

Lemma announce_kv (name : bytes) (b : bool) z (r : Value) (w : W) :
  exists w2, (let! _ := announce_removed key name b z in mret r) w = (Ok r, w2) /\ w_kv w2 = w_kv w.
Proof. unfold announce_removed. destruct b; [|by eexists]. case_bool_decide; by eexists. Qed.

(** ** The commands *)

Definition flag_args (fl : zaddFlags) : list Value :=
  let w (b : bool) (s : string) := if b then [BulkOf (lit s)] else [] in
  w (fl_nx fl) "NX" ++ w (fl_xx fl) "XX" ++ w (fl_gt fl) "GT" ++ w (fl_lt fl) "LT" ++ w (fl_ch fl) "CH" ++ w (fl_incr fl) "INCR".
Definition int_arg (n : Z) : Value := BulkOf (FormatInt n).
Definition rev_arg (reversed : bool) : list Value := if reversed then [BulkOf (lit "REV")] else [].

Definition send (o : zset_op) : M (gmap bytes bytes) Value :=
  let k := BulkOf key in
  match o with
  | ZAdd fl p ps => zadd (k :: flag_args fl ++ flat (p :: ps))
  | ZRem m ms => zrem (k :: map BulkOf (m :: ms))
  | ZScore m => zscore [k; BulkOf m]
  | ZCard => zcard [k]
  | ZIncrBy t m => zincrby [k; BulkOf t; BulkOf m]
  | ZRank m => zrank [k; BulkOf m]
  | ZRevRank m => zrevrank [k; BulkOf m]
  | ZCount lo hi => zcount [k; BulkOf lo; BulkOf hi]
  | ZRange a b reversed => zrange ([k; int_arg a; int_arg b] ++ rev_arg reversed)
  | ZRangeByScore lo hi reversed =>
      zrange ([k; BulkOf (if reversed then hi else lo); BulkOf (if reversed then lo else hi); BulkOf (lit "BYSCORE")] ++ rev_arg reversed)
  | ZRemRangeByScore lo hi => zremrangebyscore [k; BulkOf lo; BulkOf hi]
  | ZPopMin n => zpopmin [k; int_arg n]
  | ZPopMax n => zpopmax [k; int_arg n]
  end.

Definition refined (o : zset_op) : Prop := forall z (w : W),
  rep z w -> op_ok o -> zset_ok (spec o z).2 -> exists w', send o w = (Ok (spec o z).1, w') /\ rep (spec o z).2 w'.

Ltac zargs := unfold with_key, with_zmember, int_arg; cbn [BulkOf argString]; repeat change (default [] (Some ?x)) with x.

Lemma flags_end (p : bytes * bytes) (ps : list (bytes * bytes)) (fl : zaddFlags) :
  ToUpper p.1 ∉ flag_words -> parseZAddFlags (flat (p :: ps)) fl = inl (fl, flat (p :: ps)).
Proof.
  intros Hw. destruct p as [t m]. unfold flat. cbn [map concat app parseZAddFlags fst snd BulkOf argString] in *. change (default [] (Some t)) with t.
  destruct fl as [nx xx gt lt ch incr]. cbv zeta.
  assert (forall s, In s ["NX"; "XX"; "GT"; "LT"; "CH"; "INCR"]%string -> bytes_eqb (ToUpper t) (lit s) = false) as E.
  { intros s Hs. destruct (bytes_eqb_spec (ToUpper t) (lit s)) as [X|X]; [|done]. exfalso. apply Hw. rewrite X. unfold flag_words.
    apply list_elem_of_In. by apply in_map. }
  rewrite !E by (cbn; tauto). done.
Qed.

Lemma parse_flags (p : bytes * bytes) (ps : list (bytes * bytes)) (fl : zaddFlags) :
  ToUpper p.1 ∉ flag_words -> parseZAddFlags (flag_args fl ++ flat (p :: ps)) no_flags = inl (fl, flat (p :: ps)).
Proof.
  intros Hw. rewrite <- (flags_end p ps fl Hw). destruct fl as [[] [] [] [] [] []]; reflexivity.
Qed.

Lemma flat_len (ps : list (bytes * bytes)) : len (flat ps) = 2 * len ps.
Proof. unfold len. induction ps as [|p ps IH]; cbn; [done|]. unfold flat in IH. lia. Qed.

Lemma ZAdd_refined (fl : zaddFlags) (p : bytes * bytes) (ps : list (bytes * bytes)) : refined (ZAdd fl p ps).
Proof.
  intros z w R (Hps & Hi & Hgl & Hnx). cbn [send spec fst snd]. intros Hok. unfold zadd.
  assert (0 <= len (flag_args fl)) as Hfa by apply len_nonneg. pose proof (len_nonneg ps) as Hl. pose proof (flat_len (p :: ps)) as Hfl. rewrite len_cons in Hfl.
  rewrite (proj2 (Z.ltb_ge _ 3)) by (rewrite len_cons, len_app, Hfl; lia). zargs.
  assert (Forall (fun p : bytes * bytes => is_Some (ParseScore p.1)) (p :: ps)) as Hs by (eapply Forall_impl; [exact Hps|by intros ? []]).
  apply Forall_cons in Hps as [[_ Hw] _]. rewrite parse_flags by done. rewrite Hgl, Hnx, Hfl, Hi.
  rewrite (proj2 (Z.eqb_neq (2 * (1 + len ps)) 0)) by lia. rewrite Z.odd_mul. cbn [Z.odd orb andb].
  rewrite (zset_or_new_rep z) by done. rewrite zadd_pairs_spec by (done || apply (zrep_numeric _ _ R)). cbv zeta. rewrite !Z.add_0_l.
  apply commit_zset with z; [done|done|apply foldl_numeric; [done|apply (zrep_numeric _ _ R)]|by eexists].
Qed.

Lemma filter_numeric z (P : zsetMember -> Prop) `{forall x, Decision (P x)} : numeric z -> numeric (filter P z).
Proof. intros Hn m s Hm. apply map_lookup_filter_Some in Hm as [Hm _]. exact (Hn _ _ Hm). Qed.

Lemma ZRem_refined m (ms : list bytes) : refined (ZRem m ms).
Proof.
  intros z w R _. cbn [send spec fst snd]. intros Hok. unfold zrem. rewrite (proj2 (Z.ltb_ge _ 2)) by (unfold len; cbn; lia). zargs.
  rewrite (with_zset_rep z) by done. destruct (decide (z = ∅)) as [->|Hne].
  - exists w. rewrite map_filter_empty. done.
  - rewrite zrem_members_spec. cbv zeta. rewrite Z.add_0_l. apply commit_zset with z; [done|done|apply filter_numeric, (zrep_numeric _ _ R)|].
    intros w1. apply announce_kv.
Qed.

Ltac zreads z := rewrite (with_zset_rep z) by done; destruct (decide (z = ∅)) as [->|]; (eexists; split; [|done]).

Lemma ZScore_refined m : refined (ZScore m).
Proof. intros z w R _ _. cbn [send spec fst snd]. unfold zscore. zargs. zreads z; [by rewrite lookup_empty|done]. Qed.
Lemma ZCard_refined : refined ZCard.
Proof. intros z w R _ _. cbn [send spec fst snd]. unfold zcard. zargs. zreads z; done. Qed.

Lemma ZIncrBy_refined (t : bytes) m : refined (ZIncrBy t m).
Proof.
  intros z w R [s Hs]. cbn [send spec]. unfold zincrby, number. zargs. rewrite Hs, (zset_or_new_rep z) by done. cbv zeta.
  change (default 0 (Some s)) with s. set (f := f64_add (default 0 (z !! m)) s) in *.
  destruct (IsNaN f) eqn:En; cbn [orb fst snd]; [by exists w|]. destruct (IsInf f); cbn [fst snd]; [by exists w|].
  intros Hok. apply commit_zset with z; [done|done|apply map_Forall_insert_2; [done|apply (zrep_numeric _ _ R)]|by eexists].
Qed.

Lemma rank_refined m (reversed : bool) (name : string) z (w : W) :
  rep z w ->
  rank [BulkOf key; BulkOf m] reversed name w =
  (Ok (match z !! m with None => nilBulk | Some s => VInteger (if reversed then map_len z - 1 - before z m s else before z m s) end), w).
Proof.
  intros R. unfold rank. change (3 <? len [BulkOf key; BulkOf m]) with false. cbv iota. zargs. rewrite (with_zset_rep z) by done.
  destruct (decide (z = ∅)) as [->|Hne]; [done|]. rewrite rankOf_counts by apply (zrep_numeric _ _ R). by destruct (z !! m).
Qed.
Lemma ZRank_refined m : refined (ZRank m).
Proof. intros z w R _ _. exists w. cbn [send spec fst snd]. unfold zrank. by rewrite (rank_refined _ _ _ z). Qed.
Lemma ZRevRank_refined m : refined (ZRevRank m).
Proof. intros z w R _ _. exists w. cbn [send spec fst snd]. unfold zrevrank. by rewrite (rank_refined _ _ _ z). Qed.

(** What the bounds of an accepted range parse to, and that they filter by the
    order. *)
Lemma range_ok_within (lo hi : bytes) z :
  range_ok lo hi -> zset_ok z -> numeric z ->
  exists a b, parseScoreBound lo = Some a /\ parseScoreBound hi = Some b /\ bound lo = a /\ bound hi = b /\
    forall m s, z !! m = Some s -> inScoreRange s a b = within a b s.
Proof.
  intros (a & b & Ea & Eb & Ha & Hb) [_ Hok] Hn. exists a, b. unfold bound. rewrite Ea, Eb. split_and!; try done.
  intros m s Hm. apply inScoreRange_within; [by eapply parseScoreBound_ok|by eapply parseScoreBound_ok|done|done|by apply (Hok m)|by apply (Hn m)].
Qed.

Lemma ZCount_refined (lo hi : bytes) : refined (ZCount lo hi).
Proof.
  intros z w R Hr _. destruct (range_ok_within lo hi z Hr (zrep_fits _ _ R) (zrep_numeric _ _ R)) as (a & b & Ea & Eb & Ba & Bb & Hw).
  cbn [send spec fst snd]. unfold zcount. zargs. rewrite Ea, Eb, Ba, Bb. zreads z; [done|]. unfold mret. do 4 f_equal.
  apply map_filter_ext. intros m s Hm. cbn. by rewrite (Hw m).
Qed.

Lemma ZRemRangeByScore_refined (lo hi : bytes) : refined (ZRemRangeByScore lo hi).
Proof.
  intros z w R Hr. destruct (range_ok_within lo hi z Hr (zrep_fits _ _ R) (zrep_numeric _ _ R)) as (a & b & Ea & Eb & Ba & Bb & Hw).
  cbn [send spec fst snd]. rewrite Ba, Bb. intros Hok. unfold zremrangebyscore, arg_or_empty. zargs. rewrite Ea, Eb, (with_zset_rep z) by done.
  destruct (decide (z = ∅)) as [->|Hne]; [exists w; by rewrite map_filter_empty|]. cbv zeta.
  assert (filter (fun p : zsetMember => inScoreRange p.2 a b = false) z = filter (fun p : zsetMember => within a b p.2 = false) z) as ->.
  { apply map_filter_ext. intros m s Hm. cbn. by rewrite (Hw m). }
  apply commit_zset with z; [done|done|apply filter_numeric, (zrep_numeric _ _ R)|]. intros w1. apply announce_kv.
Qed.

Lemma rangeReply_names (l : list zsetMember) : rangeReply l false = names l.
Proof. unfold rangeReply, names. do 2 f_equal. induction l as [|p l IH]; cbn; [done|]. by rewrite IH. Qed.

Lemma ZRange_refined (a b : Z) (reversed : bool) : refined (ZRange a b reversed).
Proof.
  intros z w R [Ha Hb] _. exists w. split; [|done]. cbn [send spec fst snd]. unfold zrange.
  assert (parseRangeQuery ([BulkOf key; int_arg a; int_arg b] ++ rev_arg reversed) "zrange" =
          inl (key, mkQuery false false reversed false (Some (a, b)) [] [] None)) as ->.
  { unfold int_arg, rev_arg. destruct reversed; cbn [app parseRangeQuery BulkOf argString];
      repeat change (default [] (Some ?x)) with x; [change (range_options [BulkOf (lit "REV")] no_query) with (inl (B := Value) (mkQuery false false true false None [] [] None))|cbn [range_options]];
      cbn; by rewrite !ParseInt_FormatInt. }
  unfold checked_range, check_bounds. cbn [q_byScore q_byLex andb q_withScores]. unfold answer_range. rewrite (with_zset_rep z) by done.
  destruct (decide (z = ∅)) as [->|Hne].
  - unfold listspec.range_of, listing. destruct reversed; done.
  - unfold evalRange, select_range. cbn [q_byScore q_byLex q_rev q_limit q_rank negb andb]. rewrite andb_true_r.
    change (if reversed then rev (sortedZSet z) else sortedZSet z) with (listing z reversed).
    unfold mbind, lift. rewrite normalized_range. by rewrite rangeReply_names.
Qed.

Lemma ZRangeByScore_refined (lo hi : bytes) (reversed : bool) : refined (ZRangeByScore lo hi reversed).
Proof.
  intros z w R Hr _. destruct (range_ok_within lo hi z Hr (zrep_fits _ _ R) (zrep_numeric _ _ R)) as (a & b & Ea & Eb & Ba & Bb & Hw).
  exists w. split; [|done]. cbn [send spec fst snd]. unfold zrange. rewrite Ba, Bb.
  match goal with |- context [parseRangeQuery ?l "zrange"] =>
    assert (parseRangeQuery l "zrange" = inl (key, mkQuery true false reversed false None lo hi None)) as -> by (by destruct reversed) end.
  unfold checked_range, check_bounds. cbn [q_byScore q_byLex andb q_withScores q_min q_max]. rewrite bool_decide_eq_true_2 by (rewrite Ea, Eb; eauto). cbn [negb].
  unfold answer_range. rewrite (with_zset_rep z) by done.
  assert (List.filter (fun p : zsetMember => inScoreRange p.2 a b) (sortedZSet z) = List.filter (fun p : zsetMember => within a b p.2) (sortedZSet z)) as E.
  { apply filter_ext_in. intros p Hp. apply list_elem_of_In, sortedZSet_elem in Hp. by apply Hw in Hp. }
  destruct (decide (z = ∅)) as [->|Hne]; [by destruct reversed|].
  unfold evalRange, select_range. cbn [q_byScore q_byLex q_rev q_limit q_rank q_min q_max negb]. rewrite Ea, Eb, E, andb_true_r.
  unfold mbind, lift, mret. rewrite rangeReply_names. unfold listing. destruct reversed; [by rewrite filter_rev|done].
Qed.

Lemma take_clamped {A} (l : list A) (n : Z) : take (Z.to_nat (if len l <? n then len l else n)) l = take (Z.to_nat n) l.
Proof. destruct (Z.ltb_spec (len l) n) as [Hl|Hl]; [|done]. unfold len in *. rewrite !take_ge by lia. done. Qed.

Lemma zpop_refined (n : Z) (reversed : bool) (name : string) z (w : W) :
  rep z w -> 0 <= n -> is_i64 n ->
  let l := take (Z.to_nat n) (listing z reversed) in
  zset_ok (filter (fun p => p ∉ l) z) ->
  exists w', zpop [BulkOf key; int_arg n] reversed name w = (Ok (VArray (Some (pair_values l))), w') /\ rep (filter (fun p => p ∉ l) z) w'.
Proof.
  intros R Hn Hi l Hok. unfold zpop. change (2 <? len [BulkOf key; int_arg n]) with false. cbv iota. zargs.
  rewrite ParseInt_FormatInt by done. rewrite (proj2 (Z.ltb_ge n 0)) by done. rewrite (with_zset_rep z) by done. subst l.
  destruct (decide (z = ∅)) as [->|Hne].
  - exists w. rewrite map_filter_empty. split; [|done].
    assert (listing ∅ reversed = []) as -> by (by destruct reversed). by rewrite take_nil.
  - cbv zeta. change (if reversed then rev (sortedZSet z) else sortedZSet z) with (listing z reversed).
    rewrite take_clamped, delete_all_filter.
    + apply commit_zset with z; [done|done|apply filter_numeric, (zrep_numeric _ _ R)|by eexists].
    + intros p Hp. apply (listing_elem z reversed). by apply (subseteq_take (Z.to_nat n)) in Hp.
Qed.
Lemma ZPopMin_refined (n : Z) : refined (ZPopMin n).
Proof. intros z w R [Hn Hi] Hok. by apply zpop_refined. Qed.
Lemma ZPopMax_refined (n : Z) : refined (ZPopMax n).
Proof. intros z w R [Hn Hi] Hok. by apply zpop_refined. Qed.

Lemma every_zset_refined o : refined o.
Proof.
  destruct o; auto using ZAdd_refined, ZRem_refined, ZScore_refined, ZCard_refined, ZIncrBy_refined, ZRank_refined, ZRevRank_refined, ZCount_refined,
    ZRange_refined, ZRangeByScore_refined, ZRemRangeByScore_refined, ZPopMin_refined, ZPopMax_refined.
Qed.

(** Every sorted set of the run can be stored. *)
Fixpoint fits (ops : list zset_op) (z : zset) : Prop :=
  match ops with [] => True | o :: os => zset_ok (spec o z).2 /\ fits os (spec o z).2 end.

Fixpoint spec_run (ops : list zset_op) (z : zset) : list (result Value) * zset :=
  match ops with
  | [] => ([], z)
  | o :: os => let '(v, z1) := spec o z in let '(vs, z2) := spec_run os z1 in (Ok v :: vs, z2)
  end.

Fixpoint send_run (ops : list zset_op) (w : W) : list (result Value) * W :=
  match ops with
  | [] => ([], w)
  | o :: os => let '(v, w1) := send o w in let '(vs, w2) := send_run os w1 in (v :: vs, w2)
  end.


End commands.

(** ** Algebra *)

Section algebra.
Context `{GoFloatArith} `{GoFloatMul}.

(** The weighted scores of a member in the sets that have it, in the order of
    the keys, and what they aggregate to. *)
Definition contributions (m : bytes) (zws : list (zset * Z)) : list Z :=
  omap (fun zw : zset * Z => (fun s => f64_mul s zw.2) <$> zw.1 !! m) zws.
Definition total (agg : zsetAggregate) (l : list Z) : option Z :=
  match l with [] => None | s :: r => Some (foldl (fun a n => aggregateScore agg (Some a) n) s r) end.
Definition everywhere (m : bytes) (zws : list (zset * Z)) : bool := forallb (fun zw : zset * Z => bool_decide (is_Some (zw.1 !! m))) zws.

Lemma total_snoc (agg : zsetAggregate) (l : list Z) (s : Z) : total agg (l ++ [s]) = Some (aggregateScore agg (total agg l) s).
Proof. destruct l as [|a l]; cbn; [done|]. by rewrite foldl_snoc. Qed.

Lemma union_lookup (agg : zsetAggregate) (zws : list (zset * Z)) (m : bytes) :
  foldl (union_step agg) ∅ zws !! m = total agg (contributions m zws).
Proof.
  induction zws as [|[z w] zws IH] using rev_ind; [apply lookup_empty|]. rewrite foldl_snoc. unfold union_step at 1.
  rewrite lookup_merge, IH. unfold contributions. rewrite omap_app. cbn. destruct (z !! m) as [s|]; cbn.
  - rewrite total_snoc. by destruct (total agg _).
  - rewrite app_nil_r. by destruct (total agg _).
Qed.

Lemma inter_score_total (agg : zsetAggregate) (m : bytes) (acc : Z) (zws : list (zset * Z)) :
  inter_score agg m acc zws = if everywhere m zws then total agg (acc :: contributions m zws) else None.
Proof.
  revert acc. induction zws as [|[z w] zws IH]; intros acc; cbn; [done|].
  destruct (z !! m) as [s|] eqn:E; cbn.
  - by rewrite IH.
  - done.
Qed.

(** The results of ZUNION, ZINTER and ZDIFF, member by member: a member
    of the union has the SUM, MIN or MAX, in key order, of its weighted scores
    over the sets that have it, a member of the intersection the same over all
    the sets, every one of which has it, and a member of the difference keeps
    the score it has in the first set, no other set having it. *)
Theorem zset_algebra_pointwise (agg : zsetAggregate) (sets : list zset) (weights : list Z) (m : bytes) :
  unionZSets sets weights agg !! m = total agg (contributions m (zip sets weights)) /\
  interZSets sets weights agg !! m =
    (if everywhere m (zip sets weights) then total agg (contributions m (zip sets weights)) else None) /\
  diffZSets sets !! m =
    match sets with
    | [] => None
    | z :: rest => if existsb (fun z' : zset => bool_decide (is_Some (z' !! m))) rest then None else z !! m
    end.
Proof.
  split_and!.
  - apply union_lookup.
  - unfold interZSets. destruct (zip sets weights) as [|[z w] zws]; [done|]. rewrite map_lookup_imap.
    change (everywhere m ((z, w) :: zws)) with (bool_decide (is_Some (z !! m)) && everywhere m zws). unfold contributions. cbn.
    destruct (z !! m) as [s|]; cbn; [|done]. apply inter_score_total.
  - destruct sets as [|z rest]; [apply lookup_empty|]. cbn [diffZSets].
    destruct (existsb _ rest) eqn:E.
    + apply map_lookup_filter_None. right. intros s _ Hn. apply Hn. apply existsb_exists in E as (z' & Hin & Hz).
      apply Exists_exists. exists z'. split; [by apply list_elem_of_In|by apply bool_decide_eq_true in Hz].
    + destruct (z !! m) as [s|] eqn:Em; [|apply map_lookup_filter_None; by left]. apply map_lookup_filter_Some. split; [done|].
      intros Hx. apply Exists_exists in Hx as (z' & Hin & Hz). assert (existsb (fun z' : zset => bool_decide (is_Some (z' !! m))) rest = true) as X; [|congruence].
      apply existsb_exists. exists z'. split; [by apply list_elem_of_In|by apply bool_decide_eq_true].
Qed.

Lemma smallest_zset_elem (z : zset) (sets : list zset) : smallest_zset z sets ∈ z :: sets.
Proof.
  revert z. induction sets as [|z' sets IH]; intros z; cbn [smallest_zset]; [by left|].
  specialize (IH (if (size z' <? size z)%nat then z' else z)). destruct (size z' <? size z)%nat; set_solver.
Qed.

Lemma in_all_spec (sets : list zset) (m : bytes) : in_all sets m = true <-> forall z, z ∈ sets -> is_Some (z !! m).
Proof.
  unfold in_all. rewrite forallb_forall. split; intros X z Hz; specialize (X z); rewrite ?bool_decide_eq_true, <- ?list_elem_of_In in *; auto.
Qed.

(** The count of ZINTERCARD, from the smallest set, is the size of the
    intersection, or the limit when that is reached first. *)
Lemma zintercard_counts (z : zset) (sets : list zset) (limit : Z) :
  0 <= limit ->
  setcmd.card_loop (map_keys (smallest_zset z sets)) (in_all (z :: sets)) limit 0 =
  let n := map_len (filter (fun p => in_all (z :: sets) p.1 = true) z) in if limit =? 0 then n else Z.min limit n.
Proof.
  intros Hl. rewrite setspec.card_loop_count by lia. cbv zeta. rewrite Z.add_0_l.
  enough (len (List.filter (in_all (z :: sets)) (map_keys (smallest_zset z sets))) = map_len (filter (fun p => in_all (z :: sets) p.1 = true) z)) as -> by done.
  unfold len, map_len. f_equal. rewrite <- length_map_to_list, <- (length_fmap fst). apply Permutation_length, NoDup_Permutation.
  - apply NoDup_ListNoDup, List.NoDup_filter, NoDup_ListNoDup, NoDup_fst_map_to_list.
  - apply NoDup_fst_map_to_list.
  - intros m. rewrite list_elem_of_In, filter_In, <- list_elem_of_In. unfold map_keys. rewrite !list_elem_of_fmap. rewrite (in_all_spec (z :: sets) m). split.
    + intros [_ Ha]. destruct (Ha z) as [s Hs]; [by left|]. exists (m, s). split; [done|]. apply elem_of_map_to_list, map_lookup_filter_Some.
      split; [done|]. by apply in_all_spec.
    + intros ([m' s] & -> & Hp). apply elem_of_map_to_list, map_lookup_filter_Some in Hp as [Hp Ha]. cbn [fst] in *. pose proof (proj1 (in_all_spec (z :: sets) m') Ha) as Hb.
      split; [|done]. destruct (Hb (smallest_zset z sets)) as [s' Hs']; [apply smallest_zset_elem|]. exists (m', s'). split; [done|]. by apply elem_of_map_to_list.
Qed.
End algebra.

(** ** Runs *)

#[local] Instance zset_ok_dec z : Decision (zset_ok z).
Proof. unfold zset_ok, is_u64, is_i64. apply _. Defined.
#[local] Instance fits_dec `{GoUnicode} `{GoFloat} `{GoFloatArith} `{GoFloatSci} ops z : Decision (fits ops z).
Proof. revert z. induction ops as [|o os IH]; intros z; cbn [fits]; apply _. Defined.

(** Floats for concrete runs: the natural numbers below 2^53. *)
Definition nat_bits (n : Z) : Z :=
  if n <=? 0 then 0 else (1023 + Z.log2 n) * 2 ^ 52 + (Z.shiftl n (52 - Z.log2 n) - 2 ^ 52).
Definition bits_nat (f : Z) : Z :=
  if f =? 0 then 0 else Z.shiftr (f mod 2 ^ 52 + 2 ^ 52) (52 - (f / 2 ^ 52 - 1023)).
Definition nat_float : GoFloat := {| FormatFloatG := fun f => FormatInt (bits_nat f); ParseFloat := fun s => option_map nat_bits (ParseInt s) |}.
Definition nat_arith : CmdString.GoFloatArith :=
  {| CmdString.f64_add := fun a b => nat_bits (bits_nat a + bits_nat b); CmdString.FormatFloatF := fun f => FormatInt (bits_nat f) |}.
Definition nat_sci : GoFloatSci := {| FormatFloatE := fun f => FormatInt (bits_nat f) ++ lit "e+00" |}.

Definition no_fl : zaddFlags := no_flags.
Definition demo_ops : list zset_op :=
  [ZAdd no_fl (lit "3", lit "c") [(lit "1", lit "a"); (lit "2", lit "b")]; ZAdd (mkFlags false false true false true false) (lit "5", lit "a") [(lit "1", lit "c")];
   ZRank (lit "a"); ZRevRank (lit "c"); ZScore (lit "a"); ZRange 0 (-1) true; ZRangeByScore (lit "(2") (lit "+inf") false; ZCount (lit "-inf") (lit "3");
   ZIncrBy (lit "4") (lit "b"); ZPopMin 1; ZRemRangeByScore (lit "6") (lit "6"); ZPopMax 7; ZCard].


Definition strs (l : list string) : Value := VArray (Some (map (fun s => BulkOf (lit s)) l)).

Example demo_zreplies :
  (@send_run ascii_tables nat_float nat_arith nat_sci step_clock (lit "k") demo_ops empty_world).1 =
  map Ok [VInteger 3; VInteger 1; VInteger 2; VInteger 1; BulkOf (lit "5"); strs ["a"; "c"; "b"]; strs ["c"; "a"]; VInteger 2;
          BulkOf (lit "6"); strs ["c"; "3"]; VInteger 1; strs ["a"; "5"]; VInteger 0].
Proof. vm_compute. reflexivity. Qed.

(** ** Findings *)

Definition ab_world : world (gmap bytes bytes) := world_of [(ZSetKey (lit "k"), zset_entry {[lit "a" := nat_bits 1; lit "b" := nat_bits 2]})].

(** A range from +inf down to -inf answers every member instead of none. *)
Example inverted_infinities :
  (@zcount _ map_kv step_clock ascii_tables nat_float (map (fun s => BulkOf (lit s)) ["k"; "+inf"; "-inf"]%string) ab_world).1 = Ok (VInteger 2) /\
  (@zcount _ map_kv step_clock ascii_tables nat_float (map (fun s => BulkOf (lit s)) ["k"; "7"; "1"]%string) ab_world).1 = Ok (VInteger 0).
Proof. vm_compute. done. Qed.

(** LIMIT with an offset and a count whose sum overflows panics. *)
Example limit_overflow_panics :
  (@zrange _ map_kv step_clock ascii_tables nat_float nat_arith nat_sci
    (map (fun s => BulkOf (lit s)) ["k"; "-inf"; "+inf"; "BYSCORE"; "LIMIT"; "1"; "9223372036854775807"]%string) ab_world).1 = Panic.
Proof. vm_compute. reflexivity. Qed.

(** A key count of 2^63-1 passes the check of the argument count and panics. *)
Example zset_numkeys_panics :
  (@zintercard _ map_kv step_clock ascii_tables (map (fun s => BulkOf (lit s)) ["9223372036854775807"; "k"]%string) ab_world).1 = Panic.
Proof. vm_compute. reflexivity. Qed.

(** A large negative count for ZRANDMEMBER panics in the allocation. *)
Example zrandmember_count_panics :
  (@zrandmember _ map_kv step_clock ascii_tables nat_arith nat_sci setspec.in_order
    (map (fun s => BulkOf (lit s)) ["k"; "-9223372036854775807"]%string) ab_world).1 = Panic.
Proof. vm_compute. reflexivity. Qed.

End zsetspec.
