(* ===== verification/CmdGeo.v ===== *)
(** * Geo commands (src/internal/commands/geo.go, geo_search.go)

    The members are those of a sorted set, whose scores are cells; searching
    goes over all of them.  Distances are floats through [GoFloatMath] and
    [GoFloatGeo]. *)

From S2P Require Import Prelude GoLib GoStrings Resp Codec Hll Geo Kv Cmd CmdString CmdList CmdKeys CmdZSet.
Open Scope Z_scope.
Open Scope gedis_scope.

Module geocmd.
Import datastruct geo.
Import zsetcmd (zset, sortedZSet, readZSet, writeZSet).

Definition syntax : Value := errS "ERR syntax error".
Definition not_float : Value := errS "ERR value is not a valid float".
Definition bad_unit : Value := errS "ERR unsupported unit provided. please use M, KM, FT, MI".

(** [strings.TrimRight(s, c)] of one character *)
Definition trim_right (c : ascii) (s : bytes) : bytes :=
  reverse ((fix go (l : bytes) : bytes := match l with x :: l' => if Ascii.eqb x c then go l' else l | [] => [] end) (reverse s)).

Section geo_format.
Context `{GoFloatMath} `{GoFloatGeo}.

Definition formatGeoCoord (f : Z) : bytes := trim_right "." (trim_right "0" (FormatFloatPrec f 17)).

Definition geoBase32 : bytes := lit "0123456789bcdefghjkmnpqrstuvwxyz".
Definition f_90 : Z := 0x4056800000000000.
Definition f_m90 : Z := 0xc056800000000000.

(** [n] halvings of the interval, the upper half giving 1. *)
Fixpoint halvings (n : nat) (x lo hi : Z) : list Z :=
  match n with
  | O => []
  | S n => let mid := fm_div (fm_add lo hi) f_2 in
           if f64_leb mid x then 1 :: halvings n x mid hi else 0 :: halvings n x lo mid
  end.
(** Longitude first, alternating, in groups of five bits. *)
Definition hash_char (lonBits latBits : list Z) (i : nat) : ascii :=
  let v := foldl (fun v j => let p := (i * 5 + j)%nat in
                             Z.lor (Z.shiftl v 1) (default 0 ((if Nat.even p then lonBits else latBits) !! Nat.div p 2))) 0 (seq 0 5) in
  default "000"%char (geoBase32 !! Z.to_nat v).
Definition geoHashCenter (lon lat : Z) : bytes :=
  let lonBits := halvings 25 lon geoLonMin geoLonMax in
  let latBits := halvings 25 lat f_m90 f_90 in
  map (hash_char lonBits latBits) (seq 0 10) ++ lit "0".

Definition absFloat (f : Z) : Z := if f64_ltb f 0 then f64_opp f else f.
Definition metersPerDeg : Z := 0x40fb25b000000000.
Definition tiny : Z := 0x3e112e0be826d695.
Definition geoInBox (clon clat lon lat wM hM : Z) : bool :=
  let c := fm_cos (fm_div (fm_mul clat f_pi) f_180) in
  let cosLat := if f64_ltb c tiny then tiny else c in
  let dLatM := fm_mul (absFloat (fm_sub lat clat)) metersPerDeg in
  let dLonM := fm_mul (fm_mul (absFloat (fm_sub lon clon)) metersPerDeg) cosLat in
  f64_leb (fm_mul dLatM f_2) hM && f64_leb (fm_mul dLonM f_2) wM.

End geo_format.

(** ** Options *)

Inductive geoSort : Type := geoSortNone | geoSortAsc | geoSortDesc.
#[export] Instance geoSort_eq_dec : EqDecision geoSort.
Proof. solve_decision. Defined.

Record geoSearchOpts : Type := mkOpts {
  fromMember : bytes; fromLon : Z; fromLat : Z; hasCenter : bool; byRadius : bool; radiusM : Z; byBox : bool; boxWM : Z; boxHM : Z;
  gsort : geoSort; count : Z; countSet : bool; any : bool; withDist : bool; withHash : bool; withCoord : bool; unitFactor : Z;
  store : bytes; storeSet : bool; storeDist : bool;
}.
Definition no_opts : geoSearchOpts := mkOpts [] 0 0 false false 0 false 0 0 geoSortNone 0 false false false false false 0 [] false false.

Definition set_member (m : bytes) (o : geoSearchOpts) : geoSearchOpts :=
  mkOpts m (fromLon o) (fromLat o) false (byRadius o) (radiusM o) (byBox o) (boxWM o) (boxHM o) (gsort o) (count o) (countSet o) (any o) (withDist o) (withHash o) (withCoord o) (unitFactor o) (store o) (storeSet o) (storeDist o).
Definition set_center (lon lat : Z) (o : geoSearchOpts) : geoSearchOpts :=
  mkOpts (fromMember o) lon lat true (byRadius o) (radiusM o) (byBox o) (boxWM o) (boxHM o) (gsort o) (count o) (countSet o) (any o) (withDist o) (withHash o) (withCoord o) (unitFactor o) (store o) (storeSet o) (storeDist o).
Definition set_radius (r factor : Z) (o : geoSearchOpts) : geoSearchOpts :=
  mkOpts (fromMember o) (fromLon o) (fromLat o) (hasCenter o) true r false (boxWM o) (boxHM o) (gsort o) (count o) (countSet o) (any o) (withDist o) (withHash o) (withCoord o) factor (store o) (storeSet o) (storeDist o).
Definition set_box (w h factor : Z) (o : geoSearchOpts) : geoSearchOpts :=
  mkOpts (fromMember o) (fromLon o) (fromLat o) (hasCenter o) false (radiusM o) true w h (gsort o) (count o) (countSet o) (any o) (withDist o) (withHash o) (withCoord o) factor (store o) (storeSet o) (storeDist o).
Definition set_sort (s : geoSort) (o : geoSearchOpts) : geoSearchOpts :=
  mkOpts (fromMember o) (fromLon o) (fromLat o) (hasCenter o) (byRadius o) (radiusM o) (byBox o) (boxWM o) (boxHM o) s (count o) (countSet o) (any o) (withDist o) (withHash o) (withCoord o) (unitFactor o) (store o) (storeSet o) (storeDist o).
Definition set_count (n : Z) (a : bool) (o : geoSearchOpts) : geoSearchOpts :=
  mkOpts (fromMember o) (fromLon o) (fromLat o) (hasCenter o) (byRadius o) (radiusM o) (byBox o) (boxWM o) (boxHM o) (gsort o) n true (any o || a) (withDist o) (withHash o) (withCoord o) (unitFactor o) (store o) (storeSet o) (storeDist o).
Definition set_with (d h c : bool) (o : geoSearchOpts) : geoSearchOpts :=
  mkOpts (fromMember o) (fromLon o) (fromLat o) (hasCenter o) (byRadius o) (radiusM o) (byBox o) (boxWM o) (boxHM o) (gsort o) (count o) (countSet o) (any o) (withDist o || d) (withHash o || h) (withCoord o || c) (unitFactor o) (store o) (storeSet o) (storeDist o).
Definition set_store (dst : bytes) (dist : bool) (o : geoSearchOpts) : geoSearchOpts :=
  mkOpts (fromMember o) (fromLon o) (fromLat o) (hasCenter o) (byRadius o) (radiusM o) (byBox o) (boxWM o) (boxHM o) (gsort o) (count o) (countSet o) (any o) (withDist o) (withHash o) (withCoord o) (unitFactor o) dst true dist.

Section options.
Context `{GoUnicode} `{GoFloat} `{GoFloatMath}.

(** The number after COUNT. *)
Definition count_arg (a : Value) : Z + Value :=
  match argString a with
  | None => inr syntax
  | Some s => match ParseInt s with Some n => if n <? 0 then inr err_int else inl n | None => inr err_int end
  end.
Definition is_any (a : Value) : bool := match argString a with Some s => EqualFold s (lit "ANY") | None => false end.

Definition unit_arg (r : Z) (u : bytes) (k : Z -> Z -> geoSearchOpts + Value) : geoSearchOpts + Value :=
  match GeoUnitFactor u with Some factor => k (fm_mul r factor) factor | None => inr bad_unit end.

Fixpoint parseGeoSearchOpts (args : list Value) (storeAllowed : bool) (o : geoSearchOpts) (hasFrom : bool) {struct args} : geoSearchOpts + Value :=
  match args with
  | [] => if negb hasFrom || (negb (byRadius o) && negb (byBox o)) then inr syntax else inl o
  | a :: rest =>
      match argString a with
      | None => inr syntax
      | Some name =>
          let u := ToUpper name in
          let opt (s : string) : bool := bytes_eqb u (lit s) in
          if opt "FROMMEMBER"%string then
            match rest with
            | x :: rest => match argString x with Some m => parseGeoSearchOpts rest storeAllowed (set_member m o) true | None => inr syntax end
            | [] => inr syntax
            end
          else if opt "FROMLONLAT"%string then
            match rest with
            | x :: y :: rest =>
                match argString x, argString y with
                | Some lo, Some la =>
                    match ParseFloat lo, ParseFloat la with
                    | Some lon, Some lat =>
                        if out_of_range lon lat then inr (errS "ERR invalid longitude,latitude pair")
                        else parseGeoSearchOpts rest storeAllowed (set_center lon lat o) true
                    | _, _ => inr not_float
                    end
                | _, _ => inr syntax
                end
            | _ => inr syntax
            end
          else if opt "BYRADIUS"%string then
            match rest with
            | x :: y :: rest =>
                match argString x, argString y with
                | Some rs, Some us =>
                    match ParseFloat rs with
                    | Some r => unit_arg r us (fun rm factor => parseGeoSearchOpts rest storeAllowed (set_radius rm factor o) hasFrom)
                    | None => inr not_float
                    end
                | _, _ => inr syntax
                end
            | _ => inr syntax
            end
          else if opt "BYBOX"%string then
            match rest with
            | x :: y :: z :: rest =>
                match argString x, argString y, argString z with
                | Some ws, Some hs, Some us =>
                    match ParseFloat ws, ParseFloat hs with
                    | Some w, Some h => unit_arg w us (fun wm factor => parseGeoSearchOpts rest storeAllowed (set_box wm (fm_mul h factor) factor o) hasFrom)
                    | _, _ => inr not_float
                    end
                | _, _, _ => inr syntax
                end
            | _ => inr syntax
            end
          else if opt "ASC"%string then parseGeoSearchOpts rest storeAllowed (set_sort geoSortAsc o) hasFrom
          else if opt "DESC"%string then parseGeoSearchOpts rest storeAllowed (set_sort geoSortDesc o) hasFrom
          else if opt "COUNT"%string then
            match rest with
            | x :: rest =>
                match count_arg x with
                | inr v => inr v
                | inl n =>
                    match rest with
                    | y :: rest' => if is_any y then parseGeoSearchOpts rest' storeAllowed (set_count n true o) hasFrom
                                    else parseGeoSearchOpts rest storeAllowed (set_count n false o) hasFrom
                    | [] => parseGeoSearchOpts rest storeAllowed (set_count n false o) hasFrom
                    end
                end
            | [] => inr syntax
            end
          else if opt "WITHCOORD"%string then parseGeoSearchOpts rest storeAllowed (set_with false false true o) hasFrom
          else if opt "WITHDIST"%string then parseGeoSearchOpts rest storeAllowed (set_with true false false o) hasFrom
          else if opt "WITHHASH"%string then parseGeoSearchOpts rest storeAllowed (set_with false true false o) hasFrom
          else if opt "STOREDIST"%string then
            if negb storeAllowed then inr syntax
            else match rest with
            | x :: rest => match argString x with Some dst => parseGeoSearchOpts rest storeAllowed (set_store dst true o) hasFrom | None => inr syntax end
            | [] => inr syntax
            end
          else inr syntax
      end
  end.

Fixpoint parseRadiusOpts (args : list Value) (o : geoSearchOpts) {struct args} : geoSearchOpts + Value :=
  match args with
  | [] => inl o
  | a :: rest =>
      match argString a with
      | None => inr syntax
      | Some name =>
          let u := ToUpper name in
          let opt (s : string) : bool := bytes_eqb u (lit s) in
          if opt "WITHCOORD"%string then parseRadiusOpts rest (set_with false false true o)
          else if opt "WITHDIST"%string then parseRadiusOpts rest (set_with true false false o)
          else if opt "WITHHASH"%string then parseRadiusOpts rest (set_with false true false o)
          else if opt "COUNT"%string then
            match rest with
            | x :: rest =>
                match count_arg x with
                | inr v => inr v
                | inl n =>
                    match rest with
                    | y :: rest' => if is_any y then parseRadiusOpts rest' (set_count n true o) else parseRadiusOpts rest (set_count n false o)
                    | [] => parseRadiusOpts rest (set_count n false o)
                    end
                end
            | [] => inr syntax
            end
          else if opt "ASC"%string then parseRadiusOpts rest (set_sort geoSortAsc o)
          else if opt "DESC"%string then parseRadiusOpts rest (set_sort geoSortDesc o)
          else if opt "STORE"%string then
            match rest with
            | x :: rest => match argString x with Some dst => parseRadiusOpts rest (set_store dst (storeDist o) o) | None => inr syntax end
            | [] => inr syntax
            end
          else if opt "STOREDIST"%string then
            match rest with
            | x :: rest => match argString x with Some dst => parseRadiusOpts rest (set_store dst true o) | None => inr syntax end
            | [] => inr syntax
            end
          else inr syntax
      end
  end.

End options.

(** ** Handlers *)

Record geoHit : Type := mkHit { member : bytes; score : Z; lon : Z; lat : Z; dist : Z }.

(** Before, in the order asked. *)
Definition hit_less (asc : bool) (a b : geoHit) : bool :=
  if negb (f64_eqb (dist a) (dist b)) then (if asc then f64_ltb (dist a) (dist b) else f64_ltb (dist b) (dist a))
  else if asc then bytes_ltb (member a) (member b) else bytes_ltb (member b) (member a).

(** The options before the triples. *)
Record geoFlags : Type := mkGeoFlags { gf_nx : bool; gf_xx : bool; gf_ch : bool }.

Fixpoint geo_flags `{GoUnicode} (args : list Value) (fl : geoFlags) {struct args} : option (geoFlags * list Value) :=
  match args with
  | [] => Some (fl, [])
  | a :: rest =>
      match argString a with
      | None => None
      | Some s =>
          let u := ToUpper s in
          if bytes_eqb u (lit "NX") then geo_flags rest (mkGeoFlags true (gf_xx fl) (gf_ch fl))
          else if bytes_eqb u (lit "XX") then geo_flags rest (mkGeoFlags (gf_nx fl) true (gf_ch fl))
          else if bytes_eqb u (lit "CH") then geo_flags rest (mkGeoFlags (gf_nx fl) (gf_xx fl) true)
          else Some (fl, args)
      end
  end.

Fixpoint geoMemberArgs (args : list Value) : list bytes + Value :=
  match args with
  | [] => inl []
  | a :: rest =>
      match argString a with
      | None => inr (errS "ERR invalid member")
      | Some m => match geoMemberArgs rest with inl ms => inl (m :: ms) | inr v => inr v end
      end
  end.

Section pure.
Context `{GoUnicode} `{GoFloat} `{GoFloatMath} `{GoFloatGeo}.

(** The loop of GEOADD over the triples: the set, how many were added and how
    many added or moved. *)
Fixpoint geo_triples (fl : geoFlags) (rest : list Value) (z : zset) (added changed : Z) {struct rest} : (zset * Z * Z) + Value :=
  match rest with
  | a :: b :: c :: rest =>
      match argString a, argString b with
      | Some ls, Some ts =>
          match ParseFloat ls, ParseFloat ts with
          | Some lo, Some la =>
              match argString c with
              | None => inr (errS "ERR invalid member")
              | Some m =>
                  match GeoEncode lo la with
                  | Ok sc =>
                      match z !! m with
                      | None => if gf_xx fl then geo_triples fl rest z added changed
                                else geo_triples fl rest (<[m := sc]> z) (added + 1) (changed + 1)
                      | Some cur => if gf_nx fl then geo_triples fl rest z added changed
                                    else if negb (f64_eqb sc cur) then geo_triples fl rest (<[m := sc]> z) added (changed + 1)
                                    else geo_triples fl rest z added changed
                      end
                  | Err e => inr (errValue e)
                  | Panic => inr syntax   (* GeoEncode does not panic *)
                  end
              end
          | _, _ => inr not_float
          end
      | _, _ => inr not_float
      end
  | _ => inl (z, added, changed)
  end.

(** The middle of the search: its centre, or that the member is not there. *)
Definition center (z : zset) (o : geoSearchOpts) : option (Z * Z) :=
  if hasCenter o then Some (fromLon o, fromLat o) else option_map GeoDecode (z !! fromMember o).

Definition hit_of (c : Z * Z) (p : bytes * Z) : geoHit :=
  let '(lo, la) := GeoDecode p.2 in mkHit p.1 p.2 lo la (GeoDistM c.1 c.2 lo la).
Definition in_area (c : Z * Z) (o : geoSearchOpts) (h : geoHit) : bool :=
  if byRadius o then negb (f64_ltb (radiusM o) (dist h)) else geoInBox c.1 c.2 (lon h) (lat h) (boxWM o) (boxHM o).

Definition cut (o : geoSearchOpts) (hits : list geoHit) : list geoHit :=
  if count o <? len hits then take (Z.to_nat (count o)) hits else hits.
Definition search (z : zset) (c : Z * Z) (o : geoSearchOpts) : list geoHit :=
  let hits := List.filter (in_area c o) (map (hit_of c) (sortedZSet z)) in
  if countSet o && any o then cut o hits
  else
    let order := if bool_decide (gsort o = geoSortNone) && countSet o then geoSortAsc else gsort o in
    let hits := match order with
                | geoSortNone => hits
                | geoSortAsc => isort (hit_less true) hits
                | geoSortDesc => isort (hit_less false) hits
                end in
    if countSet o then cut o hits else hits.

Definition coords (lo la : Z) : Value := ArrayOf [BulkOf (formatGeoCoord lo); BulkOf (formatGeoCoord la)].
Definition formatGeoReply (hits : list geoHit) (o : geoSearchOpts) : Value :=
  ArrayOf (map (fun h =>
    if withDist o || withHash o || withCoord o then
      ArrayOf (BulkOf (member h) ::
        (if withDist o then [BulkOf (FormatFloatPrec (fm_div (dist h) (unitFactor o)) 4)] else []) ++
        (if withHash o then [VInteger (fm_to_i64 (score h))] else []) ++
        (if withCoord o then [coords (lon h) (lat h)] else []))
    else BulkOf (member h)) hits).

(** The scores STORE and STOREDIST write. *)
Definition stored_scores (hits : list geoHit) (o : geoSearchOpts) : zset :=
  foldl (fun z h => <[member h := if storeDist o then fm_div (dist h) (unitFactor o) else score h]> z) ∅ hits.
End pure.

Section handlers.
Context {S : Type} `{KV S} `{Clock} `{GoUnicode} `{GoFloat} `{GoFloatMath} `{GoFloatGeo}.

Definition geoadd (args : list Value) : M S Value :=
  match args with
  | a :: opts =>
      if len args <? 4 then mret (wrong_args "geoadd")
      else with_key a (fun key =>
        match geo_flags opts (mkGeoFlags false false false) with
        | None => mret syntax
        | Some (fl, rest) =>
            if (len rest =? 0) || negb (len rest mod 3 =? 0) then mret syntax
            else zsetcmd.zset_or_new key (fun z expiry =>
              match geo_triples fl rest z 0 0 with
              | inr v => mret v
              | inl (z', added, changed) => commit (writeZSet key z' expiry) (mret (VInteger (if gf_ch fl then changed else added)))
              end)
        end)
  | [] => mret (wrong_args "geoadd")
  end.

(** The positions of those of [members] that are there; [None] without a key. *)
Definition geoMembers (key : bytes) (members : list bytes) (k : option (gmap bytes (Z * Z)) -> M S Value) : M S Value :=
  zsetcmd.with_zset key (k None) (fun z _ =>
    k (Some (foldl (fun out m => match z !! m with Some s => <[m := GeoDecode s]> out | None => out end) ∅ members))).

Definition with_members (args : list Value) (k : list bytes -> M S Value) : M S Value :=
  match geoMemberArgs args with inl ms => k ms | inr v => mret v end.

Definition geodist (args : list Value) : M S Value :=
  match args with
  | a :: ms =>
      if (len args <? 3) || (4 <? len args) then mret (wrong_args "geodist")
      else with_key a (fun key => with_members ms (fun members =>
        let m1 := default [] (members !! 0%nat) in
        let m2 := default [] (members !! 1%nat) in
        let unit := match members !! 2%nat with Some u => u | None => lit "m" end in
        match GeoUnitFactor unit with
        | None => mret bad_unit
        | Some factor =>
            geoMembers key [m1; m2] (fun pts =>
              mret (match pts with
                    | None => nilBulk
                    | Some pts =>
                        match pts !! m1, pts !! m2 with
                        | Some p1, Some p2 => BulkOf (FormatFloatPrec (fm_div (GeoDistM p1.1 p1.2 p2.1 p2.2) factor) 4)
                        | _, _ => nilBulk
                        end
                    end))
        end))
  | [] => mret (wrong_args "geodist")
  end.

Definition per_member (name : string) (args : list Value) (f : Z * Z -> Value) : M S Value :=
  match args with
  | a :: ms =>
      if len args <? 2 then mret (wrong_args name)
      else with_key a (fun key => with_members ms (fun members => geoMembers key members (fun pts =>
        mret (ArrayOf (map (fun m => match pts with None => nilBulk | Some pts => match pts !! m with Some p => f p | None => nilBulk end end) members)))))
  | [] => mret (wrong_args name)
  end.
Definition geopos (args : list Value) : M S Value := per_member "geopos" args (fun p => coords p.1 p.2).
Definition geohash (args : list Value) : M S Value := per_member "geohash" args (fun p => BulkOf (geoHashCenter p.1 p.2)).

Definition runSearch (key : bytes) (o : geoSearchOpts) (k : list geoHit -> M S Value) : M S Value :=
  zsetcmd.with_zset key (k []) (fun z _ =>
    match center z o with
    | None => mret (errS "ERR could not decode requested zset member")
    | Some c => k (search z c o)
    end).

Definition storeSearch (hits : list geoHit) (o : geoSearchOpts) : M S Value :=
  if withDist o || withHash o || withCoord o
  then mret (errS "ERR STORE option in GEORADIUS is not compatible with WITHDIST, WITHHASH and WITHCOORDS options")
  else commit (writeZSet (store o) (stored_scores hits o) 0) (mret (VInteger (len hits))).

Definition geosearch (args : list Value) : M S Value :=
  match args with
  | a :: rest =>
      if len args <? 6 then mret (wrong_args "geosearch")
      else with_key a (fun key =>
        match parseGeoSearchOpts rest false no_opts false with
        | inr v => mret v
        | inl o => runSearch key o (fun hits => mret (formatGeoReply hits o))
        end)
  | [] => mret (wrong_args "geosearch")
  end.

Definition is_storedist (a : Value) : bool := match argString a with Some s => EqualFold s (lit "STOREDIST") | None => false end.
Definition geosearchstore (args : list Value) : M S Value :=
  match args with
  | a :: b :: rest =>
      if len args <? 7 then mret (wrong_args "geosearchstore")
      else with_key a (fun dst => with_key b (fun src =>
        match parseGeoSearchOpts (List.filter (fun x => negb (is_storedist x)) rest) false no_opts false with
        | inr v => mret v
        | inl o =>
            let o := set_store dst (existsb is_storedist rest) o in
            runSearch src o (fun hits => storeSearch hits o)
        end))
  | _ => mret (wrong_args "geosearchstore")
  end.

(** The end of both GEORADIUS commands. *)
Definition radius_search (key : bytes) (o : geoSearchOpts) : M S Value :=
  runSearch key o (fun hits => if storeSet o then storeSearch hits o else mret (formatGeoReply hits o)).

Definition georadius (args : list Value) : M S Value :=
  match args with
  | a :: b :: c :: d :: e :: rest => with_key a (fun key =>
      match argString b, argString c, argString d, argString e with
      | Some ls, Some ts, Some rs, Some us =>
          match ParseFloat ls, ParseFloat ts, ParseFloat rs with
          | Some lo, Some la, Some r =>
              match GeoUnitFactor us with
              | None => mret bad_unit
              | Some factor =>
                  match parseRadiusOpts rest (set_center 0 0 no_opts) with
                  | inr v => mret v
                  | inl o => radius_search key (set_radius (fm_mul r factor) factor (set_center lo la o))
                  end
              end
          | _, _, _ => mret not_float
          end
      | _, _, _, _ => mret syntax
      end)
  | _ => mret (wrong_args "georadius")
  end.

Definition georadiusbymember (args : list Value) : M S Value :=
  match args with
  | a :: b :: c :: d :: rest => with_key a (fun key =>
      match argString b with
      | None => mret syntax
      | Some m =>
          match argString c, argString d with
          | Some rs, Some us =>
              match ParseFloat rs with
              | None => mret not_float
              | Some r =>
                  match GeoUnitFactor us with
                  | None => mret bad_unit
                  | Some factor =>
                      match parseRadiusOpts rest (set_center 0 0 no_opts) with
                      | inr v => mret v
                      | inl o => radius_search key (set_radius (fm_mul r factor) factor (set_member m o))
                      end
                  end
              end
          | _, _ => mret syntax
          end
      end)
  | _ => mret (wrong_args "georadiusbymember")
  end.

(** The commands and their handlers. *)
Definition RegisterGeo : list (bytes * (list Value -> M S Value)) :=
  [(lit "GEOADD", geoadd); (lit "GEODIST", geodist); (lit "GEOPOS", geopos); (lit "GEOHASH", geohash); (lit "GEOSEARCH", geosearch);
   (lit "GEOSEARCHSTORE", geosearchstore); (lit "GEORADIUS", georadius); (lit "GEORADIUS_RO", georadius);
   (lit "GEORADIUSBYMEMBER", georadiusbymember); (lit "GEORADIUSBYMEMBER_RO", georadiusbymember)].

End handlers.

(** Those declared read-only. *)
Definition geoMeta : list (bytes * bool) := [(lit "GEOADD", false); (lit "GEODIST", true); (lit "GEOPOS", true); (lit "GEOHASH", true)].
Definition geoSearchMeta : list (bytes * bool) :=
  [(lit "GEOSEARCH", true); (lit "GEOSEARCHSTORE", false); (lit "GEORADIUS", false); (lit "GEORADIUS_RO", true);
   (lit "GEORADIUSBYMEMBER", false); (lit "GEORADIUSBYMEMBER_RO", true)].

End geocmd.
