(* ===== verification/CmdGeoSpec.v ===== *)
(** * Properties of the geo commands

    Every geo command behaves the same over any lawful store; a search finds
    exactly the members inside its area, the nearest ones when COUNT bounds it. *)

From S2P Require Import Prelude GoLib GoStrings Resp Codec Hll Geo Kv Cmd CmdString CmdList CmdKeys CmdKeysSpec CmdZSet CmdZSetSpec CmdGeo.
Open Scope Z_scope.
Open Scope gedis_scope.

Module geospec.
Import datastruct geo geocmd.
Import zsetcmd (zset, sortedZSet, readZSet, writeZSet).

(** ** Order of the hits *)

Definition hit_pair (h : geoHit) : bytes * Z := (member h, dist h).
Definition hit_num (h : geoHit) : Prop := IsNaN (dist h) = false.

Lemma hit_less_asc (a b : geoHit) : hit_less true a b = zpair_less (hit_pair a) (hit_pair b).
Proof.
  unfold hit_less, zpair_less, hit_pair, f64_eqb, f64_ltb. cbn [fst snd]. destruct (IsNaN (dist a)); [done|]. destruct (IsNaN (dist b)); [done|]. cbn [negb andb].
  destruct (Z.eqb_spec (f64_key (dist a)) (f64_key (dist b))) as [->|]; cbn [negb andb]; [by rewrite Z.ltb_irrefl|]. by rewrite orb_false_r.
Qed.
Lemma hit_less_desc (a b : geoHit) : hit_less false a b = hit_less true b a.
Proof.
  unfold hit_less, f64_eqb. rewrite (andb_comm (negb (IsNaN (dist b)))), (Z.eqb_sym (f64_key (dist b))). by destruct (negb _).
Qed.

Lemma hit_asym (asc : bool) (a b : geoHit) : hit_num a -> hit_num b -> hit_less asc a b = true -> hit_less asc b a = false.
Proof. destruct asc; rewrite ?hit_less_desc, !hit_less_asc; intros; by apply zpair_asym. Qed.
Lemma hit_nless_trans (asc : bool) (a b c : geoHit) : hit_num a -> hit_num b -> hit_num c ->
  hit_less asc b a = false -> hit_less asc c b = false -> hit_less asc c a = false.
Proof.
  destruct asc; rewrite ?hit_less_desc, !hit_less_asc; intros Ha Hb Hc H1 H2.
  - by apply (zpair_nless_trans (hit_pair a) (hit_pair b)).
  - by apply (zpair_nless_trans (hit_pair c) (hit_pair b)).
Qed.

(** ** What a search finds *)

Section search.
Context `{GoUnicode} `{GoFloat} `{GoFloatMath} `{GoFloatGeo}.

(** A member of the set with its position and distance, inside the area. *)
Definition found (z : zset) (c : Z * Z) (o : geoSearchOpts) (h : geoHit) : Prop :=
  z !! member h = Some (score h) /\ h = hit_of c (member h, score h) /\ in_area c o h = true.

Definition ordered (o : geoSearchOpts) : bool := negb (countSet o && any o) && (negb (bool_decide (gsort o = geoSortNone)) || countSet o).
Definition ascending (o : geoSearchOpts) : bool := negb (bool_decide (gsort o = geoSortDesc)).

Definition area (z : zset) (c : Z * Z) (o : geoSearchOpts) : list geoHit := List.filter (in_area c o) (map (hit_of c) (sortedZSet z)).

Lemma hit_of_fields (c : Z * Z) (p : bytes * Z) : member (hit_of c p) = p.1 /\ score (hit_of c p) = p.2.
Proof. unfold hit_of. by destruct (GeoDecode p.2). Qed.

Lemma area_elem (z : zset) (c : Z * Z) (o : geoSearchOpts) (h : geoHit) : h ∈ area z c o <-> found z c o h.
Proof.
  unfold area, found. rewrite list_elem_of_In, filter_In, in_map_iff. split.
  - intros [([m s] & <- & Hin) Ha]. apply list_elem_of_In, zsetspec.sortedZSet_elem in Hin. destruct (hit_of_fields c (m, s)) as [-> ->]. done.
  - intros (Hz & E & Ha). split; [|done]. exists (member h, score h). split; [done|]. apply list_elem_of_In. by apply zsetspec.sortedZSet_elem.
Qed.

Lemma area_NoDup (z : zset) (c : Z * Z) (o : geoSearchOpts) : NoDup (map member (area z c o)).
Proof.
  assert (NoDup (map fst (sortedZSet z))) as Hn.
  { assert ((sortedZSet z).*1 ≡ₚ (map_to_list z).*1) as -> by (by rewrite zsetspec.sortedZSet_perm). apply NoDup_fst_map_to_list. }
  unfold area. induction (sortedZSet z) as [|p l IH]; cbn [map List.filter] in *; [constructor|]. apply NoDup_cons in Hn as [Hp Hn]. specialize (IH Hn).
  destruct (in_area c o (hit_of c p)); [|done]. cbn [map]. constructor; [|done]. destruct (hit_of_fields c p) as [-> _]. contradict Hp.
  apply list_elem_of_In, in_map_iff in Hp as (h & E & Hin). apply filter_In in Hin as [Hin _]. apply in_map_iff in Hin as (q & <- & Hq).
  apply list_elem_of_In, in_map_iff. exists q. split; [|done]. destruct (hit_of_fields c q) as [<- _]. done.
Qed.

(** [search] is the first hits of a rearrangement of the area, sorted when an order is asked. *)
Lemma search_shape (z : zset) (c : Z * Z) (o : geoSearchOpts) : Forall hit_num (area z c o) ->
  exists l, l ≡ₚ area z c o /\ search z c o = (if countSet o then cut o l else l) /\
    (ordered o = true -> StronglySorted (fun a b => hit_less (ascending o) b a = false) l).
Proof.
  intros Hn. unfold search, ordered, ascending. fold (area z c o).
  destruct (countSet o && any o) eqn:Eany.
  - exists (area z c o). apply andb_true_iff in Eany as [-> _]. done.
  - assert (forall asc, StronglySorted (fun a b => hit_less asc b a = false) (isort (hit_less asc) (area z c o))) as Hs.
    { intros asc. apply (isort_sorted (hit_less asc) hit_num); [apply hit_asym|apply hit_nless_trans|done]. }
    exists (match (if bool_decide (gsort o = geoSortNone) && countSet o then geoSortAsc else gsort o) with
            | geoSortNone => area z c o | geoSortAsc => isort (hit_less true) (area z c o) | geoSortDesc => isort (hit_less false) (area z c o) end).
    split_and!; [|done|].
    + destruct (bool_decide (gsort o = geoSortNone) && countSet o), (gsort o); (done || apply isort_perm).
    + destruct (gsort o), (countSet o); try done; intros _; apply Hs.
Qed.

Lemma cut_prefix (o : geoSearchOpts) (l : list geoHit) : 0 <= count o ->
  exists n, cut o l = take n l /\ len (cut o l) <= count o /\ (drop n l = [] \/ len (cut o l) = count o).
Proof.
  intros Hc. unfold cut. destruct (count o <? len l) eqn:E; breflect.
  - exists (Z.to_nat (count o)). unfold len in *. rewrite length_take. split_and!; [done|lia|right; lia].
  - exists (length l). rewrite take_ge, drop_ge by lia. split_and!; [done|lia|by left].
Qed.

Lemma geo_search_spec (z : zset) (c : Z * Z) (o : geoSearchOpts) : Forall hit_num (area z c o) -> 0 <= count o ->
  let hits := search z c o in
  NoDup (map member hits) /\ (forall h, h ∈ hits -> found z c o h) /\ (countSet o = true -> len hits <= count o) /\
  (forall h, found z c o h -> h ∈ hits \/ (countSet o = true /\ len hits = count o /\ (ordered o = true -> forall h', h' ∈ hits -> hit_less (ascending o) h h' = false))) /\
  (ordered o = true -> StronglySorted (fun a b => hit_less (ascending o) b a = false) hits).
Proof.
  intros Hn Hc. destruct (search_shape z c o Hn) as (l & Hp & E & Hs). cbv zeta.
  assert (NoDup (map member l)) as Hd by (rewrite Hp; apply area_NoDup).
  assert (exists n, search z c o = take n l /\ (countSet o = true -> len (search z c o) <= count o) /\ (drop n l = [] \/ (countSet o = true /\ len (search z c o) = count o))) as (n & -> & Hle & Hcut).
  { rewrite E. destruct (countSet o); [|exists (length l); rewrite take_ge, drop_ge by lia; split_and!; [done|done|by left]].
    destruct (cut_prefix o l Hc) as (n & -> & ? & ?). exists n. split_and!; [done|done|]. intuition auto. }
  assert (forall h, h ∈ l <-> found z c o h) as Hl by (intros h; by rewrite Hp, area_elem).
  split_and!.
  - rewrite <- firstn_map. apply NoDup_ListNoDup. apply NoDup_ListNoDup in Hd. rewrite <- (firstn_skipn n (map member l)) in Hd. by apply NoDup_app_remove_r in Hd.
  - intros h Hh. apply Hl. rewrite <- (take_drop n l). apply elem_of_app. by left.
  - done.
  - intros h Hh. apply Hl in Hh. rewrite <- (take_drop n l) in Hh. apply elem_of_app in Hh as [Hh|Hh]; [by left|right]. destruct Hcut as [Hcut|[Hcs Hcut]]; [rewrite Hcut in Hh; by apply elem_of_nil in Hh|].
    split_and!; [done|done|]. intros Ho h' Hh'. apply (sorted_prefix _ n l h' h (Hs Ho) Hh' Hh).
  - intros Ho. by apply StronglySorted_take, Hs.
Qed.
End search.

(** A parsed COUNT is not negative. *)
Lemma count_arg_nonneg `{GoUnicode} (a : Value) (n : Z) : count_arg a = inl n -> 0 <= n.
Proof. unfold count_arg. repeat case_match; intros; simplify_eq; breflect; lia. Qed.

Lemma parse_count `{GoUnicode} `{GoFloat} `{GoFloatMath} (sa : bool) (n : nat) : forall (args : list Value) (o : geoSearchOpts) (hf : bool) (o' : geoSearchOpts),
  (length args < n)%nat -> 0 <= count o -> parseGeoSearchOpts args sa o hf = inl o' -> 0 <= count o'.
Proof.
  induction n as [|n IH]; intros args o hf o' Hn Hc; [lia|]. destruct args as [|a rest]; cbn [parseGeoSearchOpts length] in *; [case_match; intros; simplify_eq; done|].
  unfold unit_arg. repeat (case_match; try discriminate); cbn [length] in *;
    first [ solve [eapply IH; [cbn [length]; lia|done]] | match goal with E : count_arg _ = inl _ |- _ => apply count_arg_nonneg in E; eapply IH; [cbn [length]; lia|done] end ].
Qed.

(** ** Over any store *)

Section sim.
Context {S : Type} `{KVLaws S} `{Clock} `{GoUnicode} `{GoFloat} `{GoFloatMath} `{GoFloatGeo}.

Lemma sim_geo_read (key : bytes) : sim (S := S) (readZSet key) (readZSet key).
Proof. unfold readZSet. solve_sim. Qed.
Lemma sim_geo_write (key : bytes) (z : zset) (e : Z) : sim (S := S) (writeZSet key z e) (writeZSet key z e).
Proof. unfold writeZSet. solve_sim. Qed.
Hint Resolve sim_geo_read sim_geo_write : sim.

Ltac solve_geo :=
  repeat (cbv beta zeta;
    lazymatch goal with
    | |- sim (zsetcmd.with_zset _ _ _) _ => unfold zsetcmd.with_zset
    | |- sim (zsetcmd.zset_or_new _ _) _ => unfold zsetcmd.zset_or_new
    | |- sim (geoMembers _ _ _) _ => unfold geoMembers
    | |- sim (with_members _ _) _ => unfold with_members
    | |- sim (runSearch _ _ _) _ => unfold runSearch
    | |- sim (storeSearch _ _) _ => unfold storeSearch
    | |- _ => solve_cmd
    end).

(** Every geo command behaves the same over any lawful store and the map. *)
Lemma geo_handlers_simulate (args : list Value) :
  Forall (fun h => sim (S := S) h.1 h.2)
    [(geoadd args, geoadd args); (geodist args, geodist args); (geopos args, geopos args); (geohash args, geohash args);
     (geosearch args, geosearch args); (geosearchstore args, geosearchstore args); (georadius args, georadius args); (georadiusbymember args, georadiusbymember args)].
Proof.
  repeat apply Forall_cons_2; [..|apply Forall_nil_2]; cbn [fst snd];
    unfold geoadd, geodist, geopos, geohash, per_member, geosearch, geosearchstore, georadius, georadiusbymember, radius_search; solve_geo.
Qed.
End sim.


(** ** GEOSEARCH *)

Section spec.
Context `{Clock} `{GoUnicode} `{GoFloat} `{GoFloatMath} `{GoFloatGeo}.
Notation W := (world (gmap bytes bytes)).
Import keyspec.

Lemma with_zset_stored (key raw : bytes) (exp : Z) (z : zset) (t : nat) (w : W) (missing : M (gmap bytes bytes) Value) (k : zset -> Z -> M (gmap bytes bytes) Value) :
  stored key raw (mkEntry TypeZSet exp (EncodeZSet z)) t w -> (w_tick w <= t)%nat -> zset_ok z ->
  zsetcmd.with_zset key missing k w = k z exp (after_read exp w).
Proof.
  intros Hst Ht Hz. unfold zsetcmd.with_zset, mbind at 1, attempt at 1. unfold readZSet, mbind at 1.
  change (lookupKey key) with (getAny (S := gmap bytes bytes) key). rewrite (getAny_stored key raw _ t w) by done. cbn [Type_ Payload Expiry].
  rewrite bool_decide_eq_true_2 by done. cbn [negb]. unfold mbind at 1, lift. rewrite DecodeZSet_EncodeZSet by done. done.
Qed.

End spec.

(** ** On concrete sets

    Floats on which the distance of two positions is the difference of their
    longitude indices: small positive bit patterns, ordered as the numbers. *)

Section examples.
Definition line_math : GoFloatMath :=
  {| fm_add := fun _ b => b; fm_sub := fun a b => Z.abs (a - b); fm_div := fun a _ => a;
     fm_mul := fun a b => if existsb (Z.eqb b) [f_pi; latRange; lonRange; 0x3ff0000000000000] then a else b;
     fm_sqrt := fun a => a; fm_pow := fun a _ => a; fm_round := fun a => a; fm_of_int := fun n => n; fm_to_u64 := fun n => n |}.
Definition line_geo : GoFloatGeo :=
  {| fm_sin := fun a => a; fm_cos := fun a => a; fm_asin := fun a => a; fm_to_u32 := fun n => n; fm_to_i64 := fun n => n; FormatFloatPrec := fun f _ => FormatInt f |}.
Definition line_float : GoFloat := {| FormatFloatG := FormatInt; ParseFloat := ParseInt |}.

#[local] Instance geo_clock : Clock := step_clock.
#[local] Instance geo_ascii : GoUnicode := ascii_tables.
#[local] Instance geo_float : GoFloat := line_float.
#[local] Instance geo_math : GoFloatMath := line_math.
#[local] Instance geo_geo : GoFloatGeo := line_geo.

Definition words (l : list string) : list Value := map (fun s => BulkOf (lit s)) l.
Definition towns : zset := {[lit "a" := interleave64 0 1; lit "b" := interleave64 0 7; lit "c" := interleave64 0 3; lit "STOREDIST" := interleave64 0 4]}.
Definition map4 : world (gmap bytes bytes) := world_of [(ZSetKey (lit "k"), Encode TypeZSet 0 (EncodeZSet towns))].

#[local] Instance towns_dec (z : zset) : Decision (zset_ok z).
Proof. unfold zset_ok, is_u64, is_i64. apply _. Defined.

Definition nearest2 : list Value := words ["FROMMEMBER"; "a"; "BYRADIUS"; "5"; "m"; "COUNT"; "2"]%string.
Definition nearest2_opts : geoSearchOpts := match parseGeoSearchOpts nearest2 false no_opts false with inl o => o | inr _ => no_opts end.


Example geosearch_nearest_run : (geosearch (BulkOf (lit "k") :: nearest2) map4).1 = Ok (ArrayOf (words ["a"; "c"]%string)).
Proof. vm_compute. reflexivity. Qed.

(** GEORADIUS_RO is declared read-only and runs the handler of GEORADIUS,
    which writes when STORE is given. *)
Example georadius_ro_writes :
  geoSearchMeta !! 3%nat = Some (lit "GEORADIUS_RO", true) /\
  exists h, RegisterGeo (S := gmap bytes bytes) !! 7%nat = Some (lit "GEORADIUS_RO", h) /\
    w_kv (h (BulkOf (lit "k") :: words ["1"; "1"; "5"; "m"; "STORE"; "d"]%string) map4).2 !! ZSetKey (lit "d") <> None.
Proof. split; [reflexivity|]. exists georadius. split; [reflexivity|]. vm_compute. discriminate. Qed.

(** GEOSEARCHSTORE takes a member called STOREDIST for the option: the
    member's name is dropped and the next word searched for. *)
Example storedist_member_is_lost :
  (geosearchstore (words ["d"; "k"; "FROMMEMBER"; "STOREDIST"; "BYRADIUS"; "5"; "m"]%string) map4).1 = Ok syntax.
Proof. vm_compute. reflexivity. Qed.

(** The options are refused only after the search. *)
Example store_refuses_with_after_search :
  (geosearchstore (words ["d"; "k"; "FROMMEMBER"; "zz"; "BYRADIUS"; "5"; "m"; "WITHDIST"]%string) map4).1 = Ok (errS "ERR could not decode requested zset member").
Proof. vm_compute. reflexivity. Qed.

(** GEOHASH answers eleven characters. *)
Example geohash_eleven (x y : Z) : length (geoHashCenter x y) = 11%nat.
Proof. reflexivity. Qed.

(** Coordinates that are not numbers are inside every range. *)
Example nan_is_in_range : out_of_range 0x7ff8000000000001 0x7ff8000000000001 = false.
Proof. vm_compute. reflexivity. Qed.

End examples.
End geospec.
