(* ===== verification/CmdVector.v ===== *)
(** * Vector set commands (src/internal/commands/vector.go)

    A vector set is a finite map from element to vector; VSIM scans all of it.
    Components are float64 bit patterns, computed with through [GoFloatMath]. *)

From S2P Require Import Prelude GoLib GoFloatBits GoStrings Resp Codec Hll Kv Cmd CmdString CmdList CmdKeys CmdHash CmdSet CmdZSet.
Open Scope Z_scope.
Open Scope gedis_scope.

(** The entry a range over the set gives first. *)
Class VecRange : Type := { first_entry : gmap bytes datastruct.VEntry -> datastruct.VEntry }.
Class VecRangeLaws `{VecRange} : Prop := {
  first_entry_in : forall m, m <> ∅ -> exists n, m !! n = Some (first_entry m);
}.

Module vectorcmd.
Import datastruct keycmd.
Import listcmd (toBulkArray).

Notation vset := (gmap bytes VEntry).

Definition syntax : Value := errS "ERR syntax error".
Definition errVectorType : Value := errS "WRONGTYPE Key is not a valid vectorset value.".
Definition argBulk (v : Value) : option bytes := match v with VBulkString b => Some (default [] b) | _ => None end.

(** ** Input forms *)

Fixpoint floats32 (b : bytes) : list Z :=
  match b with
  | b0 :: b1 :: b2 :: b3 :: r =>
      f64_of_f32 (byte_val b0 + byte_val b1 * 2 ^ 8 + byte_val b2 * 2 ^ 16 + byte_val b3 * 2 ^ 24) :: floats32 r
  | _ => []
  end.
Definition parseFP32Bulk (b : bytes) : option (list Z) := if negb (len b mod 4 =? 0) || (len b =? 0) then None else Some (floats32 b).

Definition parseValuesBulk `{GoUnicode} `{GoFloat} (s : bytes) (num : Z) : option (list Z) :=
  let fs := Fields s in
  if (0 <=? num) && negb (len fs =? num) then None else mapM ParseFloat fs.

(** [n, err := strconv.Atoi(nStr); err != nil || n < 0] *)
Definition count_of (a : Value) : option Z :=
  match Atoi (default [] (argString a)) with Some n => if n <? 0 then None else Some n | None => None end.
Definition is_word `{GoUnicode} (a : Value) (w : string) : bool := EqualFold (default [] (argString a)) (lit w).

(** The vector and the element VADD is given, [None] being a syntax error. *)
Definition parse_vadd `{GoUnicode} `{GoFloat} (rest : list Value) : option (list Z * bytes) :=
  let finish (vec : option (list Z)) (e : Value) (rest : list Value) : option (list Z * bytes) :=
    match argString e, vec, rest with
    | Some elem, Some vec, [] => if bytes_eqb elem [] then None else Some (vec, elem)
    | _, _, _ => None
    end in
  match rest with
  | k :: x :: y :: rest1 =>
      if is_word k "FP32" then
        match argBulk x with Some b => finish (parseFP32Bulk b) y rest1 | None => None end
      else match rest1 with
      | e :: rest2 =>
          if is_word k "VALUES" then
            match count_of x, argString y with Some n, Some s => finish (parseValuesBulk s n) e rest2 | _, _ => None end
          else None
      | [] => None
      end
  | _ => None
  end.

(** What VSIM compares with: a reply ends the command. *)
Definition parse_target `{GoUnicode} `{GoFloat} (m : vset) (rest : list Value) : (list Z * list Value) + Value :=
  let finish (v : option (list Z)) (rest : list Value) : (list Z * list Value) + Value := match v with Some v => inl (v, rest) | None => inr syntax end in
  match rest with
  | k :: rest =>
      if is_word k "ELE" then
        match rest with
        | e :: rest =>
            match argString e with
            | None => inr syntax
            | Some elem => match m !! elem with
                           | None => inr (VError (lit "ERR No such element '" ++ elem ++ lit "'"))
                           | Some ent => inl (Vec ent, rest)
                           end
            end
        | [] => inr syntax
        end
      else if is_word k "FP32" then
        match rest with
        | x :: rest => match argBulk x with Some b => finish (parseFP32Bulk b) rest | None => inr syntax end
        | [] => inr syntax
        end
      else if is_word k "VALUES" then
        match rest with
        | x :: y :: rest => match count_of x, argString y with Some n, Some s => finish (parseValuesBulk s n) rest | _, _ => inr syntax end
        | _ => inr syntax
        end
      else inr syntax
  | [] => inr syntax
  end.

(** The options after it: WITHSCORES and COUNT, -1 without. *)
Fixpoint parse_vsim `{GoUnicode} (rest : list Value) (withScores : bool) (count : Z) {struct rest} : option (bool * Z) :=
  match rest with
  | [] => Some (withScores, count)
  | a :: rest =>
      match argString a with
      | None => None
      | Some kw =>
          if EqualFold kw (lit "WITHSCORES") then parse_vsim rest true count
          else if EqualFold kw (lit "COUNT") then
            match rest with
            | x :: rest => match argString x with
                           | Some _ => match count_of x with Some n => parse_vsim rest withScores n | None => None end
                           | None => None
                           end
            | [] => None
            end
          else if EqualFold kw (lit "TRUTH") || EqualFold kw (lit "NOTHREAD") then parse_vsim rest withScores count
          else None
      end
  end.

(** ** Similarity *)

Record scored : Type := mkScored { name : bytes; sim_ : Z }.

Definition cosSim `{GoFloatMath} (a b : list Z) : Z :=
  let '(dot, na, nb) := foldl (fun '(dot, na, nb) '(x, y) => (fm_add dot (fm_mul x y), fm_add na (fm_mul x x), fm_add nb (fm_mul y y))) (0, 0, 0) (zip a b) in
  if f64_eqb na 0 || f64_eqb nb 0 then 0 else fm_div dot (fm_mul (fm_sqrt na) (fm_sqrt nb)).

Definition closer (a b : scored) : bool :=
  if f64_eqb (sim_ a) (sim_ b) then bytes_ltb (name a) (name b) else f64_ltb (sim_ b) (sim_ a).

(** The elements of the target's dimension, most similar first; without NaN the
    order of the range over the map does not show. *)
Definition candidates `{GoFloatMath} (m : vset) (target : list Z) : list scored :=
  map (fun p => mkScored p.1 (cosSim target (Vec p.2))) (List.filter (fun p => len (Vec p.2) =? len target) (map_to_list m)).
Definition similar `{GoFloatMath} (m : vset) (target : list Z) (count : Z) : list scored :=
  let all := isort closer (candidates m target) in
  if (0 <=? count) && (count <? len all) then take (Z.to_nat count) all else all.

(** ** Handlers *)

Section handlers.
Context {S : Type} `{KV S} `{Clock} `{GoUnicode} `{GoFloat} `{GoFloatArith} `{zsetcmd.GoFloatSci} `{GoFloatMath} `{VecRange} `{hashcmd.MapRand}.

Definition loadVector (key : bytes) (missing : M S Value) (k : vset -> M S Value) : M S Value :=
  let! r := attempt (lookupKey key) in
  match r with
  | inr e => if isNotFound e then missing else mret (errValue e)
  | inl e =>
      if negb (bool_decide (Type_ e = TypeVector)) then mret errVectorType
      else
        let! r := attempt (lift (DecodeVector (Payload e))) in
        match r with inr _ => mret errVectorType | inl m => k m end
  end.

Definition saveVector (key : bytes) (m : vset) (k : M S Value) : M S Value :=
  let! r := attempt (lift (EncodeVector m)) in
  match r with
  | inr e => mret (VError (lit "ERR " ++ err_text e))
  | inl payload => commit (kvSet (VectorKey key) (Encode TypeVector 0 payload)) k
  end.

Definition vadd (args : list Value) : M S Value :=
  match args with
  | a :: rest =>
      if len args <? 3 then mret (wrong_args "vadd")
      else with_key a (fun key =>
        match parse_vadd rest with
        | None => mret syntax
        | Some (vec, elem) =>
            let put (m : vset) : M S Value :=
              saveVector key (<[elem := mkVEntry vec []]> m) (mret (VInteger (match m !! elem with Some _ => 0 | None => 1 end))) in
            loadVector key (put ∅) (fun m =>
              if (0 <? map_len m) && negb (len (Vec (first_entry m)) =? len vec) then mret (errS "ERR vector dimension mismatch")
              else put m)
        end)
  | [] => mret (wrong_args "vadd")
  end.

Definition vcard (args : list Value) : M S Value :=
  match args with
  | [a] => with_key a (fun key => loadVector key (mret (VInteger 0)) (fun m => mret (VInteger (map_len m))))
  | _ => mret (wrong_args "vcard")
  end.

Definition vdim (args : list Value) : M S Value :=
  match args with
  | [a] => with_key a (fun key => loadVector key (mret (VInteger 0)) (fun m =>
      mret (VInteger (if map_len m =? 0 then 0 else len (Vec (first_entry m))))))
  | _ => mret (wrong_args "vdim")
  end.

Definition with_elem (b : Value) (k : bytes -> M S Value) : M S Value := match argString b with None => mret syntax | Some e => k e end.

Definition vemb (args : list Value) : M S Value :=
  match args with
  | [a; b] => with_key a (fun key => with_elem b (fun elem => loadVector key (mret nilBulk) (fun m =>
      mret (match m !! elem with None => nilBulk | Some e => toBulkArray (map FormatFloatG (Vec e)) end))))
  | _ => mret (wrong_args "vemb")
  end.

Definition vrem (args : list Value) : M S Value :=
  match args with
  | [a; b] => with_key a (fun key => with_elem b (fun elem => loadVector key (mret (VInteger 0)) (fun m =>
      match m !! elem with
      | None => mret (VInteger 0)
      | Some _ => saveVector key (delete elem m) (mret (VInteger 1))
      end)))
  | _ => mret (wrong_args "vrem")
  end.

Definition vrandmember (args : list Value) : M S Value :=
  match args with
  | a :: opts =>
      if 2 <? len args then mret (wrong_args "vrandmember")
      else with_key a (fun key =>
        match (match opts with
               | [] => inl None
               | c :: _ => match argString c with
                           | None => inr err_int
                           | Some s => match Atoi s with Some n => inl (Some n) | None => inr err_int end
                           end
               end) with
        | inr v => mret v
        | inl count =>
            loadVector key (mret (match count with Some _ => toBulkArray [] | None => nilBulk end)) (fun m =>
              let names := sortStrings (map_keys m) in
              match count with
              | None => if len names =? 0 then mret nilBulk else let! n := lift (hashcmd.pick_field names 0) in mret (BulkOf n)
              | Some n =>
                  if 0 <=? n then
                    let! out := lift (setcmd.permuted names (if len names <? n then len names else n)) in mret (toBulkArray out)
                  else
                    let n := i64 (- n) in
                    if negb (make_ok n 16) then mpanic
                    else let! out := lift (setcmd.drawn names 0 (Z.to_nat n)) in mret (toBulkArray out)
              end)
        end)
  | [] => mret (wrong_args "vrandmember")
  end.

Definition vsim_reply (l : list scored) (withScores : bool) : Value :=
  toBulkArray (concat (map (fun s => name s :: (if withScores then [zsetcmd.formatScore (sim_ s)] else [])) l)).

Definition vsim (args : list Value) : M S Value :=
  match args with
  | a :: rest =>
      if len args <? 3 then mret (wrong_args "vsim")
      else with_key a (fun key => loadVector key (mret (toBulkArray [])) (fun m =>
        match parse_target m rest with
        | inr v => mret v
        | inl (target, rest) =>
            match parse_vsim rest false (-1) with
            | None => mret syntax
            | Some (withScores, count) => mret (vsim_reply (similar m target count) withScores)
            end
        end))
  | [] => mret (wrong_args "vsim")
  end.

End handlers.
End vectorcmd.
