(* ===== verification/CmdVectorSpec.v ===== *)
(** * What the vector set commands do

    A key used through them is nothing or a finite map from element to vector,
    all of one dimension; VSIM answers the most similar elements. *)

From S2P Require Import Prelude GoLib GoStrings Resp Codec Hll Kv Cmd CmdString CmdList CmdKeys CmdHash CmdSet CmdSetSpec CmdZSet CmdVector.
Open Scope Z_scope.
Open Scope gedis_scope.

Module vectorspec.
Import datastruct keycmd vectorcmd.
Import listcmd (toBulkArray).

(** ** The handlers over any store *)

Section sim.
Context {S : Type} `{KVLaws S} `{Clock} `{GoUnicode} `{GoFloat} `{GoFloatArith} `{zsetcmd.GoFloatSci} `{GoFloatMath} `{VecRange} `{hashcmd.MapRand}.

Ltac solve_vec :=
  repeat (cbv beta zeta;
    lazymatch goal with
    | |- sim (loadVector _ _ _) _ => unfold loadVector
    | |- sim (saveVector _ _ _) _ => unfold saveVector
    | |- sim (with_elem _ _) _ => unfold with_elem
    | |- _ => solve_cmd
    end).

(** Every vector set command behaves the same over any lawful store and the map. *)
Lemma vector_handlers_simulate (args : list Value) :
  Forall (fun h => sim (S := S) h.1 h.2)
    [(vadd args, vadd args); (vcard args, vcard args); (vdim args, vdim args); (vemb args, vemb args); (vrem args, vrem args);
     (vrandmember args, vrandmember args); (vsim args, vsim args)].
Proof.
  repeat apply Forall_cons_2; [..|apply Forall_nil_2]; cbn [fst snd]; unfold vadd, vcard, vdim, vemb, vrem, vrandmember, vsim; solve_vec.
Qed.
End sim.

(** ** Abstract state *)

Notation vectors := (gmap bytes (list Z)).
Notation W := (world (gmap bytes bytes)).

Definition entries (m : vectors) : vset := (fun v => mkVEntry v []) <$> m.
Definition uniform (m : vectors) : Prop := exists d, map_Forall (fun _ v => len v = d) m.
Definition payload_of (m : vectors) : bytes := match EncodeVector (entries m) with Ok p => p | _ => [] end.

Lemma entries_lookup (m : vectors) (n : bytes) : entries m !! n = (fun v => mkVEntry v []) <$> m !! n.
Proof. apply lookup_fmap. Qed.
Lemma entries_size (m : vectors) : map_len (entries m) = map_len m.
Proof. unfold map_len, entries. by rewrite map_size_fmap. Qed.
Lemma entries_empty (m : vectors) : entries m = ∅ <-> m = ∅.
Proof. apply fmap_empty_iff. Qed.

Lemma check_dims_same (d : Z) (ds : list Z) (o : option Z) : Forall (fun x => x = d) ds -> o = None \/ o = Some d -> check_dims o ds = true.
Proof.
  intros Hd. revert o. induction Hd as [|x ds -> Hd IH]; intros o Ho; cbn; [done|].
  destruct Ho as [->| ->]; [by apply IH; right|]. rewrite Z.eqb_refl. by apply IH; right.
Qed.

(** A set of one dimension is written. *)
Lemma uniform_encodes (m : vectors) : uniform m -> EncodeVector (entries m) = Ok (payload_of m).
Proof.
  intros [d Hd]. unfold payload_of. unfold EncodeVector. rewrite (check_dims_same d); [done| |by left].
  apply Forall_map, Forall_forall. intros n Hn. apply elem_of_sorted_keys in Hn as [e He]. rewrite (lookup_total_correct _ _ _ He).
  rewrite entries_lookup in He. apply fmap_Some in He as (v & Hv & ->). exact (Hd n v Hv).
Qed.

Lemma uniform_insert (m : vectors) (n : bytes) (v : list Z) : map_Forall (fun _ x => len x = len v) m -> uniform (<[n := v]> m).
Proof. intros Hm. exists (len v). by apply map_Forall_insert_2. Qed.
Lemma uniform_delete (m : vectors) (n : bytes) : uniform m -> uniform (delete n m).
Proof. intros [d Hd]. exists d. by apply map_Forall_delete. Qed.

(** ** Commands *)

Inductive vec_op : Type :=
| OAdd (rest : list Value)
| ORem (e : bytes)
| OCard
| ODim
| OEmb (e : bytes).

Definition dim_of (m : vectors) : Z := match map_to_list m with [] => 0 | p :: _ => len p.2 end.

Section refine.
Context `{Clock} `{GoUnicode} `{GoFloat} `{GoFloatArith} `{zsetcmd.GoFloatSci} `{GoFloatMath} `{VecRangeLaws} `{hashcmd.MapRand}.
Variable key : bytes.

(** The key is not there, or holds the vectors. *)
Record rep (st : option vectors) (w : W) : Prop := {
  vrep_other : forall p : bytes, p ∈ typePrefixes -> p <> lit "vs:" -> w_kv w !! (p ++ key) = None;
  vrep_entry : w_kv w !! VectorKey key = (fun m => Encode TypeVector 0 (payload_of m)) <$> st;
  vrep_ok : forall m, st = Some m -> uniform m /\ vector_ok (entries m);
}.

Definition spec (o : vec_op) (st : option vectors) : Value * option vectors :=
  let m := default ∅ st in
  match o with
  | OAdd rest =>
      if len rest <? 2 then (wrong_args "vadd", st)
      else match parse_vadd rest with
      | None => (syntax, st)
      | Some (v, e) =>
          if decide (map_Forall (fun _ x => len x = len v) m)
          then (VInteger (match m !! e with Some _ => 0 | None => 1 end), Some (<[e := v]> m))
          else (errS "ERR vector dimension mismatch", st)
      end
  | ORem e => match m !! e with Some _ => (VInteger 1, Some (delete e m)) | None => (VInteger 0, st) end
  | OCard => (VInteger (map_len m), st)
  | ODim => (VInteger (dim_of m), st)
  | OEmb e => (match m !! e with Some v => toBulkArray (map FormatFloatG v) | None => nilBulk end, st)
  end.

Definition send (o : vec_op) : M (gmap bytes bytes) Value :=
  let k := BulkOf key in
  match o with
  | OAdd rest => vadd (k :: rest)
  | ORem e => vrem [k; BulkOf e]
  | OCard => vcard [k]
  | ODim => vdim [k]
  | OEmb e => vemb [k; BulkOf e]
  end.

Definition state_ok (st : option vectors) : Prop := forall m, st = Some m -> vector_ok (entries m).

Lemma vector_key_apart (p : bytes) : p ∈ typePrefixes -> p <> lit "vs:" -> p ++ key <> VectorKey key.
Proof.
  unfold typePrefixes, VectorKey. cbn [map]. rewrite !elem_of_cons, elem_of_nil.
  intros Hp Hne E. destruct_or! Hp; subst; try discriminate E; by destruct Hne.
Qed.

Lemma load_rep (st : option vectors) (w : W) (missing : M (gmap bytes bytes) Value) (k : vset -> M (gmap bytes bytes) Value) :
  rep st w -> loadVector key missing k w = match st with None => missing w | Some m => k (entries m) w end.
Proof.
  intros R. unfold loadVector, mbind at 1, attempt at 1, lookupKey, mbind at 1. rewrite lookupRaw_map. unfold find_key.
  assert (first_hit typePrefixes key (w_kv w) = (fun m => (VectorKey key, Encode TypeVector 0 (payload_of m))) <$> st) as ->.
  { change typePrefixes with (map lit ["s:"; "h:"; "l:"; "st:"; "z:"; "hll:"; "x:"; "vs:"]%string). cbn [map].
    rewrite !first_hit_cons. change (lit "vs:" ++ key) with (VectorKey key). rewrite (vrep_entry _ _ R).
    rewrite !(vrep_other _ _ R) by (done || (unfold typePrefixes; cbn [map]; set_solver)). by destruct st. }
  destruct st as [m|]; cbn [fmap option_fmap option_map]; [|done]. rewrite Decode_Encode_entry by (unfold is_i64; lia).
  cbn [Expiry Z.eqb mret fst snd Type_ Payload]. rewrite bool_decide_eq_true_2 by done. cbn [negb].
  destruct (vrep_ok _ _ R m eq_refl) as [Hu Hok]. unfold mbind, attempt, lift.
  by rewrite (DecodeVector_EncodeVector (entries m) (payload_of m) Hok (uniform_encodes m Hu)).
Qed.

Lemma save_rep (st : option vectors) (m : vectors) (r : Value) (w : W) : rep st w -> uniform m -> vector_ok (entries m) ->
  exists w', saveVector key (entries m) (mret r) w = (Ok r, w') /\ rep (Some m) w'.
Proof.
  intros R Hu Hok. unfold saveVector, mbind, attempt at 1, lift. rewrite (uniform_encodes m Hu). unfold commit, mbind, attempt. cbn.
  eexists. split; [done|]. split; cbn.
  - intros p Hp Hq. rewrite lookup_insert_ne; [by apply (vrep_other _ _ R)|]. intros X. by apply (vector_key_apart p Hp Hq).
  - by rewrite lookup_insert_eq.
  - by intros m' [= <-].
Qed.

(** In a set of one dimension any entry tells it. *)
Lemma first_dim (m : vectors) : uniform m -> m <> ∅ -> exists n v, m !! n = Some v /\ first_entry (entries m) = mkVEntry v [].
Proof.
  intros Hu Hne. destruct (first_entry_in (entries m)) as [n Hn]; [by rewrite entries_empty|]. rewrite entries_lookup in Hn.
  apply fmap_Some in Hn as (v & Hv & E). by exists n, v.
Qed.

Lemma map_len_zero {V : Type} (m : gmap bytes V) : (map_len m =? 0) = bool_decide (m = ∅).
Proof.
  unfold map_len. case_bool_decide as E; [subst; by rewrite map_size_empty|]. apply Z.eqb_neq. intros X. apply E, map_size_empty_iff. lia.
Qed.

Lemma dim_check (m : vectors) (v : list Z) : uniform m ->
  (0 <? map_len (entries m)) && negb (len (Vec (first_entry (entries m))) =? len v) = negb (bool_decide (map_Forall (fun _ x => len x = len v) m)).
Proof.
  intros Hu. pose proof (map_len_zero m) as Hz. rewrite entries_size. case_bool_decide as E.
  - rewrite bool_decide_eq_true_2 by (subst; apply map_Forall_empty). apply Z.eqb_eq in Hz. by rewrite Hz.
  - destruct (first_dim m Hu E) as (n & x & Hx & ->). destruct Hu as [d Hd]. assert ((0 <? map_len m) = true) as -> by (apply Z.eqb_neq in Hz; unfold map_len in *; lia).
    cbn [Vec andb]. f_equal. pose proof (Hd n x Hx) as Ex. destruct (Z.eqb_spec (len x) (len v)) as [Ev|Ev].
    + symmetry. apply bool_decide_eq_true_2. intros n' x' Hx'. rewrite (Hd n' x' Hx'). congruence.
    + symmetry. apply bool_decide_eq_false_2. intros Hall. by apply Ev, (Hall n x).
Qed.

Lemma dim_of_uniform (m : vectors) : uniform m -> (if map_len (entries m) =? 0 then 0 else len (Vec (first_entry (entries m)))) = dim_of m.
Proof.
  intros Hu. rewrite entries_size, map_len_zero. unfold dim_of. case_bool_decide as E; [by rewrite E, map_to_list_empty|].
  destruct (first_dim m Hu E) as (n & x & Hx & ->). destruct Hu as [d Hd]. cbn [Vec]. rewrite (Hd n x Hx).
  destruct (map_to_list m) as [|[n' x'] l] eqn:El; [by apply map_to_list_empty_iff in El|]. cbn. symmetry. apply (Hd n'). apply elem_of_map_to_list. rewrite El. by left.
Qed.

Lemma rep_uniform (st : option vectors) (w : W) : rep st w -> uniform (default ∅ st).
Proof. intros R. destruct st as [m|]; [by apply (vrep_ok _ _ R)|]. exists 0. apply map_Forall_empty. Qed.

Definition refined (o : vec_op) : Prop := forall st (w : W), rep st w -> state_ok (spec o st).2 ->
  exists w', send o w = (Ok (spec o st).1, w') /\ rep (spec o st).2 w'.

Ltac vargs := unfold with_key, with_elem; cbn [BulkOf argString]; repeat change (default [] (Some ?x)) with x.

Lemma OAdd_refined (rest : list Value) : refined (OAdd rest).
Proof.
  intros st w R. unfold send, spec, vadd. cbv zeta. assert (len (BulkOf key :: rest) = len rest + 1) as -> by (unfold len; cbn [length]; lia).
  assert ((len rest + 1 <? 3) = (len rest <? 2)) as -> by (destruct (len rest <? 2) eqn:E; breflect; lia).
  destruct (len rest <? 2); [by exists w|]. vargs. destruct (parse_vadd rest) as [[v e]|]; [|by exists w].
  pose proof (rep_uniform st w R) as Hu. rewrite (load_rep st) by done.
  assert (forall m : vectors, saveVector (S := gmap bytes bytes) key (<[e := mkVEntry v []]> (entries m)) (mret (VInteger (match entries m !! e with Some _ => 0 | None => 1 end)))
    = saveVector key (entries (<[e := v]> m)) (mret (VInteger (match m !! e with Some _ => 0 | None => 1 end)))) as Hput.
  { intros m. unfold entries at 3. rewrite fmap_insert, entries_lookup. by destruct (m !! e). }
  destruct (decide (map_Forall (fun _ x => len x = len v) (default ∅ st))) as [Hd|Hd]; cbn [fst snd]; intros Hok.
  - destruct (save_rep st (<[e := v]> (default ∅ st)) (VInteger (match default ∅ st !! e with Some _ => 0 | None => 1 end)) w R (uniform_insert _ _ _ Hd) (Hok _ eq_refl)) as (w' & E & R').
    exists w'. split; [|done]. rewrite <- E. destruct st as [m|]; cbn [default from_option id] in *.
    + rewrite dim_check, bool_decide_eq_true_2 by done. cbn [negb]. by rewrite Hput.
    + by rewrite <- (Hput ∅).
  - exists w. split; [|done]. destruct st as [m|]; cbn [default from_option id] in *; [|destruct Hd; apply map_Forall_empty].
    rewrite dim_check, bool_decide_eq_false_2 by done. done.
Qed.

Lemma ORem_refined (e : bytes) : refined (ORem e).
Proof.
  intros st w R. unfold send, spec, vrem. vargs. rewrite (load_rep st) by done. destruct st as [m|]; cbn [default from_option id]; [|rewrite lookup_empty; by exists w].
  rewrite entries_lookup. destruct (m !! e) as [v|]; cbn [fmap option_fmap option_map fst snd]; [|by exists w]. intros Hok.
  destruct (save_rep (Some m) (delete e m) (VInteger 1) w R (uniform_delete _ _ (rep_uniform _ _ R)) (Hok _ eq_refl)) as (w' & E & R').
  exists w'. split; [|done]. rewrite <- E. unfold entries. by rewrite fmap_delete.
Qed.

Lemma every_vector_refined (o : vec_op) : refined o.
Proof.
  destruct o; [apply OAdd_refined|apply ORem_refined|..]; intros st w R _; exists w; (split; [|done]); unfold send, spec, vcard, vdim, vemb; vargs;
    rewrite (load_rep st) by done; pose proof (rep_uniform _ _ R) as Hu; destruct st as [m|]; cbn [default from_option id fst] in *; try done.
  - by rewrite entries_size.
  - by rewrite dim_of_uniform.
  - rewrite entries_lookup. by destruct (m !! e).
Qed.

Fixpoint spec_run (ops : list vec_op) (st : option vectors) : list (result Value) * option vectors :=
  match ops with
  | [] => ([], st)
  | o :: os => let '(v, st1) := spec o st in let '(vs, st2) := spec_run os st1 in (Ok v :: vs, st2)
  end.
Fixpoint send_run (ops : list vec_op) (w : W) : list (result Value) * W :=
  match ops with
  | [] => ([], w)
  | o :: os => let '(v, w1) := send o w in let '(vs, w2) := send_run os w1 in (v :: vs, w2)
  end.
(** Every set of the run can be stored. *)
Fixpoint fits (ops : list vec_op) (st : option vectors) : Prop :=
  match ops with [] => True | o :: os => state_ok (spec o st).2 /\ fits os (spec o st).2 end.

(** C37: a key used through VADD, VREM, VCARD, VDIM and VEMB is nothing or a
    finite map from element to vector: for every sequence of them, with any
    arguments to VADD, every reply is the one the map gives, whichever entry a
    range over the Go map meets first, all vectors have one dimension at any
    time, and the key ends up holding exactly the resulting map; once created
    it stays, also when its last element is removed. *)
Theorem vector_commands_refine (ops : list vec_op) (st : option vectors) (w : W) :
  rep st w -> fits ops st -> (send_run ops w).1 = (spec_run ops st).1 /\ rep (spec_run ops st).2 (send_run ops w).2.
Proof.
  revert st w. induction ops as [|o os IH]; intros st w R Hf; cbn [send_run spec_run fits] in *; [done|]. destruct Hf as [Hok Hf].
  destruct (every_vector_refined o st w R Hok) as (w1 & E & R1). rewrite E. destruct (spec o st) as [v st1]. cbn [fst snd] in *.
  destruct (IH st1 w1 R1 Hf) as [E2 R2]. destruct (send_run os w1) as [vs w2], (spec_run os st1) as [vs' st2]. cbn [fst snd] in *. by rewrite E2.
Qed.
End refine.

(** ** VSIM *)

Lemma closer_spec (a b : scored) : IsNaN (sim_ a) = false -> IsNaN (sim_ b) = false ->
  closer a b = (f64_key (sim_ b) <? f64_key (sim_ a)) || ((f64_key (sim_ a) =? f64_key (sim_ b)) && bytes_ltb (name a) (name b)).
Proof.
  intros Ha Hb. unfold closer. rewrite f64_eqb_key, f64_ltb_key by done. destruct (Z.eqb_spec (f64_key (sim_ a)) (f64_key (sim_ b))) as [->|]; cbn [andb].
  - by rewrite Z.ltb_irrefl.
  - by rewrite orb_false_r.
Qed.

Definition sim_num (s : scored) : Prop := IsNaN (sim_ s) = false.

Lemma closer_asym (a b : scored) : sim_num a -> sim_num b -> closer a b = true -> closer b a = false.
Proof.
  intros Ha Hb. rewrite !closer_spec by done. intros [E|[E E']%andb_true_iff]%orb_true_iff; apply orb_false_iff; rewrite andb_false_iff; breflect; split; try lia.
  right. by apply bytes_ltb_asym.
Qed.
Lemma closer_ntrans (a b c : scored) : sim_num a -> sim_num b -> sim_num c -> closer b a = false -> closer c b = false -> closer c a = false.
Proof.
  intros Ha Hb Hc. rewrite !closer_spec by done. rewrite !orb_false_iff, !andb_false_iff. intros [E1 E2] [E3 E4]. breflect. split; [lia|].
  destruct (Z.eqb_spec (f64_key (sim_ c)) (f64_key (sim_ a))) as [E|E]; [right|by left]. breflect.
  destruct E2 as [E2|E2]; [breflect; lia|]. destruct E4 as [E4|E4]; [breflect; lia|]. by apply (bytes_nltb_trans _ (name b)).
Qed.

Section vsim.
Context `{Clock} `{GoUnicode} `{GoFloat} `{GoFloatArith} `{zsetcmd.GoFloatSci} `{GoFloatMath} `{VecRangeLaws} `{hashcmd.MapRand}.

(** An element with its similarity to the target. *)
Definition rated (m : vectors) (target : list Z) (s : scored) : Prop :=
  exists v, m !! name s = Some v /\ len v = len target /\ sim_ s = cosSim target v.

Lemma vector_candidates_elem (m : vectors) (target : list Z) (s : scored) : s ∈ candidates (entries m) target <-> rated m target s.
Proof.
  unfold candidates, rated. rewrite list_elem_of_In, in_map_iff. split.
  - intros ([n e] & <- & Hin). apply filter_In in Hin as [Hin Hl]. apply list_elem_of_In, elem_of_map_to_list in Hin. rewrite entries_lookup in Hin.
    apply fmap_Some in Hin as (v & Hv & ->). exists v. cbn in *. by breflect.
  - intros (v & Hv & Hl & Es). exists (name s, mkVEntry v []). cbn. split; [destruct s; cbn in *; by subst|]. apply filter_In. cbn. split; [|by apply Z.eqb_eq].
    apply list_elem_of_In, elem_of_map_to_list. by rewrite entries_lookup, Hv.
Qed.

Lemma candidates_NoDup (m : vset) (target : list Z) : NoDup (map name (candidates m target)).
Proof.
  unfold candidates. rewrite map_map. cbn [name]. pose proof (NoDup_fst_map_to_list m) as Hn. induction (map_to_list m) as [|p l IH]; cbn [List.filter map]; [constructor|].
  apply NoDup_cons in Hn as [Hp Hn]. specialize (IH Hn). destruct (len (Vec p.2) =? len target); [|done]. cbn [map]. constructor; [|done]. contradict Hp.
  apply list_elem_of_In, in_map_iff in Hp as (q & E & Hq). apply filter_In in Hq as [Hq _]. apply list_elem_of_In, in_map_iff. by exists q.
Qed.

(** VSIM answers the most similar elements.  On a stored set, with a
    well-formed target and options and similarities that are numbers, it writes
    nothing and answers pairwise different elements of the target's dimension,
    each with its own similarity, most similar first and by name where they are
    equal; an element of that dimension is only left out when COUNT of them are
    answered, and then it is not before any of these. *)
Theorem vsim_most_similar (key : bytes) (m : vectors) (w : W) (rest rest' : list Value) (target : list Z) (withScores : bool) (count : Z) :
  rep key (Some m) w -> 2 <= len rest -> parse_target (entries m) rest = inl (target, rest') -> parse_vsim rest' false (-1) = Some (withScores, count) ->
  (forall s, rated m target s -> IsNaN (sim_ s) = false) ->
  exists l, vsim (BulkOf key :: rest) w = (Ok (vsim_reply l withScores), w) /\
    NoDup (map name l) /\ StronglySorted (fun a b => closer b a = false) l /\ (forall s, s ∈ l -> rated m target s) /\
    (forall s, rated m target s -> s ∈ l \/ (0 <= count /\ len l = count /\ forall s', s' ∈ l -> closer s s' = false)).
Proof.
  intros R Hlen Ht Hv Hnum. exists (similar (entries m) target count). split.
  { unfold vsim. rewrite (proj2 (Z.ltb_ge _ _)) by (unfold len in *; cbn [length]; lia). unfold with_key. cbn [argString BulkOf].
    change (default [] (Some key)) with key. rewrite (load_rep key (Some m)) by done. by rewrite Ht, Hv. }
  pose proof (isort_perm closer (candidates (entries m) target)) as Hp.
  assert (StronglySorted (fun a b => closer b a = false) (isort closer (candidates (entries m) target))) as Hs.
  { apply (isort_sorted closer sim_num closer_asym closer_ntrans). apply Forall_forall. intros s Hin. exact (Hnum s (proj1 (vector_candidates_elem m target s) Hin)). }
  assert (forall s, s ∈ isort closer (candidates (entries m) target) <-> rated m target s) as He by (intros s; by rewrite Hp, vector_candidates_elem).
  assert (NoDup (map name (isort closer (candidates (entries m) target)))) as Hd by (rewrite Hp; apply candidates_NoDup).
  unfold similar. cbv zeta. set (all := isort closer _) in *. destruct ((0 <=? count) && (count <? len all)) eqn:E; [|split_and!; [done|done|by intros s; rewrite He|intros s; rewrite <- He; by left]].
  apply andb_true_iff in E as [E1 E2]. breflect. split_and!.
  - rewrite <- firstn_map. rewrite <- (firstn_skipn (Z.to_nat count) (map name all)) in Hd. by apply NoDup_app in Hd as (? & _).
  - by apply StronglySorted_take.
  - intros s Hs'. apply He. rewrite <- (take_drop (Z.to_nat count) all). apply elem_of_app. by left.
  - intros s Hr. apply He in Hr. rewrite <- (take_drop (Z.to_nat count) all) in Hr. apply elem_of_app in Hr as [Hr|Hr]; [by left|right].
    split_and!; [done|unfold len in *; rewrite length_take; lia|]. intros s' Hs'. by apply (sorted_prefix _ (Z.to_nat count) all s' s Hs).
Qed.
End vsim.

(** ** On concrete sets

    Floats on which small natural numbers are their own bit patterns. *)

Section examples.
Definition nat_math : GoFloatMath :=
  {| fm_add := Z.add; fm_sub := Z.sub; fm_mul := Z.mul; fm_div := fun a b => 100 * a / b; fm_sqrt := Z.sqrt; fm_pow := fun a _ => a;
     fm_round := fun a => a; fm_of_int := fun n => n; fm_to_u64 := fun n => n |}.
Definition first_key : VecRange := {| first_entry := fun m => match map_to_list m with p :: _ => p.2 | [] => mkVEntry [] [] end |}.

#[local] Instance ve_clock : Clock := step_clock.
#[local] Instance ve_ascii : GoUnicode := ascii_tables.
#[local] Instance ve_float : GoFloat := {| FormatFloatG := FormatInt; ParseFloat := ParseInt |}.
#[local] Instance ve_arith : GoFloatArith := {| f64_add := Z.add; FormatFloatF := FormatInt |}.
#[local] Instance ve_sci : zsetcmd.GoFloatSci := {| zsetcmd.FormatFloatE := fun f => FormatInt f ++ lit "e0" |}.
#[local] Instance ve_math : GoFloatMath := nat_math.
#[local] Instance ve_range : VecRange := first_key.
#[local] Instance ve_laws : VecRangeLaws.
Proof.
  constructor. intros m Hm. cbn. destruct (map_to_list m) as [|[n e] l] eqn:E; [by apply map_to_list_empty_iff in E|].
  exists n. apply elem_of_map_to_list. rewrite E. by left.
Qed.
#[local] Instance ve_rand : hashcmd.MapRand := setspec.in_order.

Definition words (l : list string) : list Value := map (fun s => BulkOf (lit s)) l.
Definition demo : list vec_op :=
  [OAdd (words ["VALUES"; "2"; "3 4"; "a"]%string); OAdd (words ["VALUES"; "2"; "4 3"; "b"]%string); OAdd (words ["VALUES"; "1"; "9"; "c"]%string);
   ODim; OCard; OEmb (lit "a"); ORem (lit "a"); ORem (lit "b"); OCard].

#[local] Instance str_ok_dec (s : bytes) : Decision (str_ok s).
Proof. unfold str_ok, is_u64. apply _. Defined.
#[local] Instance u64_dec (n : Z) : Decision (is_u64 n).
Proof. unfold is_u64. apply _. Defined.
#[local] Instance vector_ok_dec (m : vset) : Decision (vector_ok m).
Proof. unfold vector_ok. apply _. Defined.
#[local] Instance state_ok_dec (st : option vectors) : Decision (state_ok st).
Proof.
  destruct st as [m|]; [|left; by intros m]. destruct (decide (vector_ok (entries m))) as [Hm|Hm].
  - left. by intros m' [= <-].
  - right. intros Hs. by apply Hm, Hs.
Defined.
#[local] Instance fits_dec (ops : list vec_op) (st : option vectors) : Decision (fits ops st).
Proof. revert st. induction ops as [|o os IH]; intros st; cbn [fits]; apply _. Defined.

Lemma vector_commands_refine_witness :
  (send_run (lit "k") demo empty_world).1 = (spec_run demo None).1 /\ rep (lit "k") (spec_run demo None).2 (send_run (lit "k") demo empty_world).2.
Proof.
  apply (vector_commands_refine (lit "k") demo None empty_world).
  - split; [intros p _ _; reflexivity|reflexivity|discriminate].
  - apply (bool_decide_unpack _). vm_compute. exact I.
Defined.

(** The run of the witness: the third vector is refused, and the empty set
    remains. *)
Example vector_demo_replies :
  (send_run (lit "k") demo empty_world).1 =
    [Ok (VInteger 1); Ok (VInteger 1); Ok (errS "ERR vector dimension mismatch"); Ok (VInteger 2); Ok (VInteger 2); Ok (toBulkArray [lit "3"; lit "4"]);
     Ok (VInteger 1); Ok (VInteger 1); Ok (VInteger 0)].
Proof. vm_compute. reflexivity. Qed.

Definition vecs : vectors := {[lit "a" := [3; 4]; lit "b" := [4; 3]; lit "c" := [0; 5]]}.
Definition vec_world : W := world_of [(VectorKey (lit "k"), Encode TypeVector 0 (payload_of vecs))].

Lemma vec_world_rep : rep (lit "k") (Some vecs) vec_world.
Proof.
  split.
  - unfold typePrefixes. cbn [map]. intros p Hp Hne. rewrite !elem_of_cons, elem_of_nil in Hp. destruct_or! Hp; subst; try done; by destruct Hne.
  - vm_compute. reflexivity.
  - intros m [= <-]. split; [exists 2|]; apply (bool_decide_unpack _); vm_compute; exact I.
Qed.

Lemma vsim_most_similar_witness :
  exists l, vsim (BulkOf (lit "k") :: words ["ELE"; "a"; "COUNT"; "2"]%string) vec_world = (Ok (vsim_reply l false), vec_world) /\
    NoDup (map name l) /\ forall s, s ∈ l -> rated vecs [3; 4] s.
Proof.
  destruct (vsim_most_similar (lit "k") vecs vec_world (words ["ELE"; "a"; "COUNT"; "2"]%string) (words ["COUNT"; "2"]%string) [3; 4] false 2) as (l & E & Hd & _ & Hr & _).
  - exact vec_world_rep.
  - vm_compute. congruence.
  - vm_compute. reflexivity.
  - vm_compute. reflexivity.
  - intros s (v & Hv & _ & ->). apply elem_of_map_to_list in Hv. revert Hv. generalize (name s). intros n Hv.
    change (IsNaN (cosSim [3; 4] (n, v).2) = false). revert Hv. generalize (n, v). apply Forall_forall. apply (bool_decide_unpack _). vm_compute. exact I.
  - exists l. split; [exact E|]. split; [exact Hd|exact Hr].
Defined.

Example vsim_nearest_run : (vsim (BulkOf (lit "k") :: words ["ELE"; "a"; "COUNT"; "2"]%string) vec_world).1 = Ok (toBulkArray [lit "a"; lit "b"]).
Proof. vm_compute. reflexivity. Qed.

(** Removing the last element leaves an empty set, which EXISTS sees. *)
Definition emptied : W := (vrem [BulkOf (lit "k"); BulkOf (lit "a")] (vadd (BulkOf (lit "k") :: words ["VALUES"; "1"; "7"; "a"]%string) empty_world).2).2.
Example vrem_leaves_empty_set : (exists_ [BulkOf (lit "k")] emptied).1 = Ok (VInteger 1).
Proof. vm_compute. reflexivity. Qed.

(** Drawing from it with repetition panics. *)
Example vrandmember_empty_panics : (vrandmember [BulkOf (lit "k"); BulkOf (lit "-1")] emptied).1 = Panic.
Proof. vm_compute. reflexivity. Qed.

(** The most negative count panics in the allocation. *)
Example vrandmember_huge_panics : (vrandmember [BulkOf (lit "k"); BulkOf (lit "-9223372036854775808")] vec_world).1 = Panic.
Proof. vm_compute. reflexivity. Qed.

(** Adding an element makes a key with an expiry permanent. *)
Example vadd_drops_expiry :
  let w := world_of [(VectorKey (lit "k"), Encode TypeVector 1000000 (payload_of vecs))] in
  w_kv (vadd (BulkOf (lit "k") :: words ["VALUES"; "2"; "3 4"; "a"]%string) w).2 !! VectorKey (lit "k") = Some (Encode TypeVector 0 (payload_of vecs)).
Proof. vm_compute. reflexivity. Qed.

End examples.
End vectorspec.
