(* ===== verification/LuaValue.v ===== *)
(** * Lua values and the errors of the script libraries
    (src/internal/commands/lua_liberr.go)

    A value is a constant or a reference into a heap of tables.  The tables are
    those of the interpreter, a third-party library: a class states what its
    documentation promises of getting, setting and traversing. *)

From S2P Require Import Prelude GoLib GoFloatBits GoStrings Resp.
Open Scope Z_scope.
Open Scope gedis_scope.

Inductive LValue : Type :=
| LNil
| LBool (b : bool)
| LNumber (f : Z)          (* the bits of a float64 *)
| LString (s : bytes)
| LTable (t : positive)
| LUserData (u : positive)
| LFunction (p : positive).

#[export] Instance LValue_eq_dec : EqDecision LValue.
Proof. solve_decision. Defined.

(** [v.Type().String()] *)
Definition type_name (v : LValue) : bytes :=
  match v with
  | LNil => lit "nil" | LBool _ => lit "boolean" | LNumber _ => lit "number" | LString _ => lit "string"
  | LTable _ => lit "table" | LUserData _ => lit "userdata" | LFunction _ => lit "function"
  end.

(** ** Tables *)

Class LuaTable (T : Type) : Type := {
  NewTable : T;
  RawGet : T -> LValue -> LValue;
  RawSet : T -> LValue -> LValue -> T;
  ForEach : T -> list (LValue * LValue);   (* the order of the callback's calls *)
  NextKeys : T -> list LValue;             (* the keys in the order of Next *)
}.

(** Keys on which tables are maps: strings, booleans and numbers but NaN. *)
Definition plain_key (k : LValue) : Prop :=
  match k with LString _ | LBool _ => True | LNumber f => IsNaN f = false | _ => False end.
Definition key_eqb (a b : LValue) : bool :=
  match a, b with LNumber f, LNumber g => f64_eqb f g | _, _ => bool_decide (a = b) end.

Class LuaTableLaws (T : Type) `{LuaTable T} : Prop := {
  get_new : forall k, RawGet NewTable k = LNil;
  get_set : forall t k v k', plain_key k -> plain_key k' -> RawGet (RawSet t k v) k' = if key_eqb k k' then v else RawGet t k';
  each_get : forall t k v, plain_key k -> v <> LNil -> (RawGet t k = v <-> exists k0, key_eqb k0 k = true /\ (k0, v) ∈ ForEach t);
  each_value : forall t k v, (k, v) ∈ ForEach t -> v <> LNil;
  next_each : forall t k, k ∈ NextKeys t <-> exists v, (k, v) ∈ ForEach t;
}.

Definition RawGetInt {T : Type} `{LuaTable T} (t : T) (i : Z) : LValue := RawGet t (LNumber (f64_of_Z i)).
Definition RawSetInt {T : Type} `{LuaTable T} (t : T) (i : Z) (v : LValue) : T := RawSet t (LNumber (f64_of_Z i)) v.

Record heap (T : Type) : Type := mkHeap { next_addr : positive; tables : gmap positive T }.
Arguments mkHeap {T}. Arguments next_addr {T}. Arguments tables {T}.
Definition empty_heap {T : Type} : heap T := mkHeap 1 ∅.

Definition alloc {T : Type} (h : heap T) (t : T) : LValue * heap T :=
  (LTable (next_addr h), mkHeap (Pos.succ (next_addr h)) (<[next_addr h := t]> (tables h))).
Definition table_at {T : Type} `{LuaTable T} (h : heap T) (a : positive) : T := default NewTable (tables h !! a).

(** ** Calling a library function

    The arguments are a list ([L.Get(n)] is nil beyond them); the call pushes
    values or raises an error. *)

Definition Get (args : list LValue) (n : Z) : LValue := default LNil (args !! Z.to_nat (n - 1)).

Section liberr.
(** The position of the calling Lua code, empty when there is none. *)
Variable libCallPos : bytes.

Definition libArgError (fname : string) (n : Z) (detail : bytes) : bytes :=
  if bytes_eqb libCallPos [] then lit "bad argument #" ++ FormatInt n ++ lit " to '?' (" ++ detail ++ lit ")"
  else libCallPos ++ lit "bad argument #" ++ FormatInt n ++ lit " to '" ++ lit fname ++ lit "' (" ++ detail ++ lit ")".
Definition libErrorf (msg : bytes) : bytes := libCallPos ++ msg.
End liberr.

(** ** Association lists are tables *)

Definition assoc : Type := list (LValue * LValue).
Definition assoc_set (t : assoc) (k v : LValue) : assoc :=
  List.filter (fun p => negb (key_eqb k p.1)) t ++ (if bool_decide (v = LNil) then [] else [(k, v)]).
Definition assoc_get (t : assoc) (k : LValue) : LValue := match List.find (fun p => key_eqb p.1 k) t with Some p => p.2 | None => LNil end.
Definition assoc_each (t : assoc) : assoc := List.filter (fun p => negb (bool_decide (p.2 = LNil))) (map (fun p => (p.1, assoc_get t p.1)) t).

Definition assoc_table : LuaTable assoc :=
  {| NewTable := []; RawGet := assoc_get; RawSet := assoc_set; ForEach := assoc_each; NextKeys := fun t => map fst (assoc_each t) |}.

Lemma key_eqb_refl (k : LValue) : plain_key k -> key_eqb k k = true.
Proof.
  destruct k; cbn [plain_key key_eqb]; try done; intros; try (by apply bool_decide_eq_true_2).
  unfold f64_eqb. rewrite H, Z.eqb_refl. done.
Qed.
Lemma key_eqb_sym (a b : LValue) : key_eqb a b = key_eqb b a.
Proof. destruct a, b; cbn [key_eqb]; try (by apply bool_decide_ext); apply f64_eqb_sym. Qed.
Lemma key_eqb_trans (a b c : LValue) : key_eqb a b = true -> key_eqb b c = true -> key_eqb a c = true.
Proof.
  destruct a, b, c; cbn [key_eqb]; rewrite ?bool_decide_eq_true; intros; try (simplify_eq; done); try (by eapply f64_eqb_trans).
Qed.

Lemma key_eqb_cong (a b c : LValue) : key_eqb a b = true -> key_eqb a c = key_eqb b c.
Proof.
  intros E. destruct (key_eqb b c) eqn:E2; [by apply (key_eqb_trans _ b)|]. destruct (key_eqb a c) eqn:E3; [|done].
  rewrite <- E2. symmetry. apply (key_eqb_trans _ a); [by rewrite key_eqb_sym|done].
Qed.

Lemma assoc_get_cong (t : assoc) (a b : LValue) : key_eqb a b = true -> assoc_get t a = assoc_get t b.
Proof.
  intros E. unfold assoc_get. induction t as [|p t IH]; cbn [List.find]; [done|]. rewrite !(key_eqb_sym p.1), (key_eqb_cong a b) by done.
  destruct (key_eqb b p.1); [done|exact IH].
Qed.

Lemma assoc_get_set (t : assoc) (k v k' : LValue) : assoc_get (assoc_set t k v) k' = if key_eqb k k' then v else assoc_get t k'.
Proof.
  unfold assoc_get, assoc_set. induction t as [|p t IH]; cbn [List.filter List.find app].
  - case_bool_decide as E; cbn [List.find fst snd]; by destruct (key_eqb k k').
  - destruct (key_eqb k p.1) eqn:Ep; cbn [negb].
    + rewrite IH. destruct (key_eqb k k') eqn:E; [done|]. assert (key_eqb p.1 k' = false) as -> by (by rewrite <- (key_eqb_cong k)). done.
    + cbn [app List.find]. destruct (key_eqb p.1 k') eqn:E; [|exact IH]. destruct (key_eqb k k') eqn:E'; [|done].
      assert (key_eqb k p.1 = true) by (apply (key_eqb_trans _ k'); [done|by rewrite key_eqb_sym]). congruence.
Qed.

Lemma assoc_each_elem (t : assoc) (k v : LValue) : (k, v) ∈ assoc_each t <-> (exists v0, (k, v0) ∈ t) /\ assoc_get t k = v /\ v <> LNil.
Proof.
  unfold assoc_each. rewrite list_elem_of_In, filter_In, in_map_iff, negb_true_iff, bool_decide_eq_false. split.
  - intros [([k0 v0] & [= <- <-] & Hin) Hv]. split_and!; [|done|done]. exists v0. by apply list_elem_of_In.
  - intros ([v0 Hin] & <- & Hv). split; [|done]. exists (k, v0). split; [done|]. by apply list_elem_of_In.
Qed.

#[export] Instance assoc_laws : @LuaTableLaws assoc assoc_table.
Proof.
  split; cbn.
  - done.
  - intros t k v k' _ _. apply assoc_get_set.
  - intros t k v Hk Hv. split.
    + intros E. assert (exists k0 v0, key_eqb k0 k = true /\ (k0, v0) ∈ t) as (k0 & v0 & Hk0 & Hin).
      { unfold assoc_get in E. destruct (List.find _ t) as [[k0 v0]|] eqn:F; [|by subst]. apply find_some in F as [Hin Hk0]. exists k0, v0. by rewrite list_elem_of_In. }
      exists k0. split; [done|]. apply assoc_each_elem. split_and!; [by exists v0|by rewrite (assoc_get_cong t k0 k)|done].
    + intros (k0 & E & Hin). apply assoc_each_elem in Hin as (_ & <- & _). by rewrite (assoc_get_cong t k0 k).
  - intros t k v Hin. by apply assoc_each_elem in Hin as (_ & _ & ?).
  - intros t k. rewrite list_elem_of_In, in_map_iff. split.
    + intros ([k0 v] & <- & Hin). exists v. by apply list_elem_of_In.
    + intros [v Hin]. exists (k, v). split; [done|]. by apply list_elem_of_In.
Qed.
