(* ===== verification/LuaBit.v ===== *)
(** * The bit library of scripts (src/internal/commands/lua_bit.go)

    32-bit operations on numbers; an int32 is its value. *)

From S2P Require Import Prelude GoLib GoFloatBits GoStrings Resp LuaValue.
Open Scope Z_scope.
Open Scope gedis_scope.

Module luabit.

Definition i32 (z : Z) : Z := let u := u32 z in if u <? 2 ^ 31 then u else u - 2 ^ 32.

Definition norm32 (f : Z) : Z :=
  if negb (f64_finite f) then 0 else let i := f64_round f in i32 (if (- 2 ^ 63 <=? i) && (i <? 2 ^ 63) then i else - 2 ^ 63).

(** [fmt.Sprintf("%08x", u)], or with upper-case letters *)
Definition hex_char (upper : bool) (d : Z) : ascii := byte_of (if d <? 10 then 48 + d else (if upper then 55 else 87) + d).
Definition hex8 (upper : bool) (u : Z) : bytes := map (fun i => hex_char upper (Z.land (Z.shiftr u (4 * Z.of_nat i)) 15)) (reverse (seq 0 8)).

Definition bswap32 (u : Z) : Z :=
  Z.lor (Z.lor (Z.lor (u32 (Z.shiftl (Z.land u 0xFF) 24)) (u32 (Z.shiftl (Z.land u 0xFF00) 8))) (Z.shiftr (Z.land u 0xFF0000) 8)) (Z.shiftr u 24).
(** [bits.RotateLeft32] *)
Definition RotateLeft32 (x k : Z) : Z := let s := k mod 32 in Z.lor (u32 (Z.shiftl x s)) (Z.shiftr x (32 - s)).

Inductive fold_name : Type := band | bor | bxor.
Inductive unary_name : Type := bnot | bswap.
Inductive shift_name : Type := lshift | rshift | arshift | rol | ror.
Definition fold_text (o : fold_name) : string := match o with band => "band" | bor => "bor" | bxor => "bxor" end%string.
Definition unary_text (o : unary_name) : string := match o with bnot => "bnot" | bswap => "bswap" end%string.
Definition shift_text (o : shift_name) : string :=
  match o with lshift => "lshift" | rshift => "rshift" | arshift => "arshift" | rol => "rol" | ror => "ror" end%string.

Definition fold_op (o : fold_name) (a v : Z) : Z := match o with band => Z.land a v | bor => Z.lor a v | bxor => Z.lxor a v end.
Definition unary_op (o : unary_name) (v : Z) : Z := match o with bnot => Z.lnot v | bswap => i32 (bswap32 (u32 v)) end.
Definition shift_op (o : shift_name) (a s : Z) : Z :=
  let n := Z.land (u32 s) 31 in
  match o with
  | lshift => i32 (u32 (Z.shiftl (u32 a) n))
  | rshift => i32 (Z.shiftr (u32 a) n)
  | arshift => Z.shiftr a n
  | rol => i32 (RotateLeft32 (u32 a) n)
  | ror => i32 (RotateLeft32 (u32 a) (- n))
  end.

Section lib.
Variable libCallPos : bytes.
Context `{GoUnicode} `{GoFloat}.

Definition bitRaise {A : Type} (fname : string) (n : Z) (got : bytes) : result A := Err (EMsg (libArgError libCallPos fname n (lit "number expected, got " ++ got))).

Definition bitToInt32 (fname : string) (args : list LValue) (n : Z) : result Z :=
  match Get args n with
  | LNumber f => Ok (norm32 f)
  | LString s => match ParseFloat (TrimSpace s) with Some f => Ok (norm32 f) | None => bitRaise fname n (lit "string") end
  | v => bitRaise fname n (if len args <? n then lit "no value" else type_name v)
  end.

Definition int_value (i : Z) : list LValue := [LNumber (f64_of_Z i)].

Definition bitTobit (args : list LValue) : result (list LValue) := let? v := bitToInt32 "tobit" args 1 in Ok (int_value v).
Definition bitUnary (o : unary_name) (args : list LValue) : result (list LValue) := let? v := bitToInt32 (unary_text o) args 1 in Ok (int_value (unary_op o v)).

Fixpoint fold_args (o : fold_name) (args : list LValue) (i : Z) (k : nat) (acc : Z) : result Z :=
  match k with
  | O => Ok acc
  | S k => let? v := bitToInt32 (fold_text o) args i in fold_args o args (i + 1) k (fold_op o acc v)
  end.
Definition bitFold (o : fold_name) (args : list LValue) : result (list LValue) :=
  if len args <? 1 then bitRaise (fold_text o) 1 (lit "no value")
  else
    let? acc := bitToInt32 (fold_text o) args 1 in
    let? acc := fold_args o args 2 (length args - 1) acc in
    Ok (int_value acc).

Definition bitShift (o : shift_name) (args : list LValue) : result (list LValue) :=
  let? a := bitToInt32 (shift_text o) args 1 in
  let? s := bitToInt32 (shift_text o) args 2 in
  Ok (int_value (shift_op o a s)).

(** [-n] wraps for the smallest int32. *)
Definition bitTohex (args : list LValue) : result (list LValue) :=
  let? v := bitToInt32 "tohex" args 1 in
  let? (width, upper) := (if 2 <=? len args then let? n := bitToInt32 "tohex" args 2 in Ok (if n <? 0 then (i32 (- n), true) else (n, false)) else Ok (8, false)) in
  let full := hex8 upper (u32 v) in
  Ok [LString (if width =? 8 then full
               else if width <? 8 then (if width <=? 0 then [] else drop (Z.to_nat (8 - width)) full)
               else repeat "0"%char (Z.to_nat (width - 8)) ++ full)].
End lib.

(** ** Properties *)

Definition is_i32 (z : Z) : Prop := - 2 ^ 31 <= z < 2 ^ 31.

Lemma i32_range (z : Z) : is_i32 (i32 z).
Proof. unfold i32, is_i32, u32. pose proof (Z.mod_pos_bound z (2 ^ 32)). destruct (z mod 2 ^ 32 <? 2 ^ 31) eqn:E; breflect; lia. Qed.
Lemma i32_u32 (z : Z) : u32 (i32 z) = u32 z.
Proof.
  unfold i32. cbv zeta. destruct (u32 z <? 2 ^ 31); unfold u32; [apply Z.mod_mod; lia|]. rewrite Zminus_mod_idemp_l.
  replace (z - 2 ^ 32) with (z + (-1) * 2 ^ 32) by lia. apply Z.mod_add. lia.
Qed.
Lemma i32_id (z : Z) : is_i32 z -> i32 z = z.
Proof.
  unfold is_i32, i32, u32. intros Hz. destruct (Z.lt_ge_cases z 0).
  - assert (z mod 2 ^ 32 = z + 2 ^ 32) as -> by (symmetry; apply (Z.mod_unique_pos _ _ (-1)); lia). rewrite (proj2 (Z.ltb_ge _ _)) by lia. lia.
  - rewrite Z.mod_small by lia. by rewrite (proj2 (Z.ltb_lt _ _)) by lia.
Qed.

Lemma testbit_u32 (z i : Z) : 0 <= i -> Z.testbit (u32 z) i = (i <? 32) && Z.testbit z i.
Proof. intros Hi. unfold u32. destruct (Z.ltb_spec i 32); [by rewrite Z.mod_pow2_bits_low|by rewrite Z.mod_pow2_bits_high]. Qed.

(** Rotating moves bit [i - k], modulo 32, to [i]. *)
Lemma testbit_rotate (x k i : Z) : 0 <= x < 2 ^ 32 -> 0 <= i < 32 -> Z.testbit (RotateLeft32 x k) i = Z.testbit x ((i - k) mod 32).
Proof.
  intros Hx Hi. pose proof (Z.mod_pos_bound k 32 ltac:(lia)). unfold RotateLeft32. cbv zeta. rewrite Z.lor_spec, testbit_u32, Z.shiftr_spec by lia. rewrite (proj2 (Z.ltb_lt _ _)) by lia. cbn [andb].
  rewrite Z.shiftl_spec by lia. rewrite <- Zminus_mod_idemp_r. set (s := k mod 32) in *.
  assert (forall j, 32 <= j -> Z.testbit x j = false) as Hhigh.
  { intros j Hj. destruct (Z.eq_dec x 0) as [->|]; [apply Z.bits_0|]. apply Z.bits_above_log2; [lia|]. apply Z.log2_lt_pow2; [lia|]. eapply Z.lt_le_trans; [apply Hx|]. apply Z.pow_le_mono_r; lia. }
  destruct (Z.lt_ge_cases i s) as [Hlt|Hge].
  - rewrite (Z.testbit_neg_r x (i - s)) by lia. cbn [orb]. assert ((i - s) mod 32 = i - s + 32) as -> by (symmetry; apply (Z.mod_unique_pos _ _ (-1)); lia). f_equal. lia.
  - rewrite (Z.mod_small (i - s)) by lia. rewrite (Hhigh (i + (32 - s))) by lia. by rewrite orb_false_r.
Qed.

Lemma rotate_range (x k : Z) : 0 <= x < 2 ^ 32 -> 0 <= RotateLeft32 x k < 2 ^ 32.
Proof.
  intros Hx. pose proof (Z.mod_pos_bound k 32 ltac:(lia)). unfold RotateLeft32. cbv zeta. set (s := k mod 32) in *.
  assert (RotateLeft32 x k = u32 (RotateLeft32 x k)) as E; [|unfold RotateLeft32 in E; fold s in E; rewrite E; unfold u32; apply Z.mod_pos_bound; lia].
  apply Z.bits_inj'. intros i Hi. rewrite testbit_u32 by done. destruct (Z.ltb_spec i 32) as [|Hge]; [done|]. cbn [andb].
  unfold RotateLeft32. cbv zeta. rewrite Z.lor_spec, testbit_u32, Z.shiftr_spec by lia. rewrite (proj2 (Z.ltb_ge _ _)) by lia. cbn [andb orb].
  destruct (Z.eq_dec x 0) as [->|]; [apply Z.bits_0|]. apply Z.bits_above_log2; [lia|]. apply Z.log2_lt_pow2; [lia|]. eapply Z.lt_le_trans; [apply Hx|]. apply Z.pow_le_mono_r; lia.
Qed.

(** rol and ror by the same amount undo each other. *)
Theorem rol_ror (a s : Z) : is_i32 a -> shift_op ror (shift_op rol a s) s = a.
Proof.
  intros Ha. unfold shift_op. cbv zeta. rewrite i32_u32. assert (0 <= u32 a < 2 ^ 32) as Hu by (unfold u32; apply Z.mod_pos_bound; lia).
  set (n := Z.land (u32 s) 31). pose proof (rotate_range (u32 a) n Hu) as Hr.
  assert (u32 (RotateLeft32 (u32 a) n) = RotateLeft32 (u32 a) n) as -> by (unfold u32 at 1; by apply Z.mod_small).
  assert (RotateLeft32 (RotateLeft32 (u32 a) n) (- n) = u32 a) as ->; [|rewrite <- (i32_id a Ha) at 2; unfold i32; assert (u32 (u32 a) = u32 a) as -> by (unfold u32; apply Z.mod_mod; lia); done].
  apply Z.bits_inj'. intros i Hi. destruct (Z.lt_ge_cases i 32) as [Hlt|Hge].
  - rewrite testbit_rotate by (done || lia). rewrite testbit_rotate by (done || (apply Z.mod_pos_bound; lia)). f_equal. rewrite Zminus_mod_idemp_l. replace (i - - n - n) with i by lia. by apply Z.mod_small.
  - assert (forall y, 0 <= y < 2 ^ 32 -> Z.testbit y i = false) as Hh.
    { intros y Hy. rewrite <- (Z.mod_small y (2 ^ 32)) by done. by apply Z.mod_pow2_bits_high. }
    rewrite !Hh; [done|done|by apply rotate_range].
Qed.

(** The smallest width wraps: tohex answers nothing. *)
Example tohex_min_width `{GoUnicode} `{GoFloat} : bitTohex [] [LNumber (f64_of_Z 255); LNumber (f64_of_Z (- 2 ^ 31))] = Ok [LString []].
Proof. vm_compute. reflexivity. Qed.
Example tohex_upper `{GoUnicode} `{GoFloat} : bitTohex [] [LNumber (f64_of_Z (-1)); LNumber (f64_of_Z (-4))] = Ok [LString (lit "FFFF")].
Proof. vm_compute. reflexivity. Qed.
End luabit.
