(* ===== verification/LuaStruct.v ===== *)
(** * The struct library of scripts (src/internal/commands/lua_struct.go)

    Packing numbers and strings into bytes after a format.  The byte order of
    the machine is a parameter. *)

From S2P Require Import Prelude GoLib GoFloatBits GoStrings Resp Hll LuaValue.
Open Scope Z_scope.
Open Scope gedis_scope.

(** [strconv.FormatFloat(f, 'g', prec, 64)] *)
Class GoFloatGP : Type := { FormatFloatGP : Z -> Z -> bytes }.

Module luastruct.

(** ** Formats *)

Record structItem : Type := mkItem { code : ascii; size : Z; c0 : bool; maxalign : Z; little : bool }.

Definition structAlign (it : structItem) : Z :=
  if existsb (Ascii.eqb (code it)) (lit "csx") then 1 else if size it <=? 0 then 1 else size it.
Definition structPad (off align maxalign : Z) : Z :=
  if (maxalign <? 0) || (align <=? 1) then off
  else let a := if maxalign <? align then maxalign else align in
       let r := Z.rem off a in if r =? 0 then off else i64 (off + (a - r)).

Fixpoint span_digits (s : bytes) : bytes * bytes :=
  match s with
  | c :: r => if is_digit c then let '(ds, rest) := span_digits r in (c :: ds, rest) else ([], s)
  | [] => ([], [])
  end.
(** [n, _ = strconv.Atoi(ds)] of digits: the largest int when out of range. *)
Definition atoi_digits (ds : bytes) : Z := match parse_digits 0 ds with Some n => Z.min n (2 ^ 63 - 1) | None => 0 end.

Definition is_space (c : ascii) : bool := existsb (Z.eqb (byte_val c)) [32; 9; 10; 13; 11; 12].
(** [fmt.Sprintf("%c", ch)] of a byte *)
Definition char_text (c : ascii) : bytes :=
  if byte_val c <? 128 then [c] else [byte_of (192 + byte_val c / 64); byte_of (128 + byte_val c mod 64)].

(** The size without a suffix, [None] for an unknown option. *)
Definition natural_size (c : ascii) : option Z :=
  if existsb (Ascii.eqb c) (lit "bBcx") then Some 1
  else if existsb (Ascii.eqb c) (lit "hH") then Some 2
  else if existsb (Ascii.eqb c) (lit "iIf") then Some 4
  else if existsb (Ascii.eqb c) (lit "lLTd") then Some 8
  else if Ascii.eqb c "s" then Some 0
  else None.

Section lib.
Variable libCallPos : bytes.
Variable structNativeLittle : bool.

Definition invalid (fname : string) (c : ascii) : bytes :=
  libArgError libCallPos fname 1 (lit "invalid format option '" ++ char_text c ++ lit "'").

(** [fuel] bounds the iterations: each consumes a byte of the format. *)
Fixpoint parse_items (fuel : nat) (fname : string) (strict : bool) (f : bytes) (little : bool) (maxalign : Z) {struct fuel} : result (list structItem) :=
  match fuel with
  | O => Ok []
  | S fuel =>
      match f with
      | [] => Ok []
      | ch :: r =>
          if is_space ch then parse_items fuel fname strict r little maxalign
          else if Ascii.eqb ch ">" || Ascii.eqb ch "<" then parse_items fuel fname strict r (Ascii.eqb ch "<") maxalign
          else if Ascii.eqb ch "!" then
            let '(ds, r) := span_digits r in
            let n := match ds with [] => 8 | _ => atoi_digits ds end in
            if (n =? 0) || negb (Z.land n (n - 1) =? 0) then Err (EMsg (libErrorf libCallPos (lit "alignment " ++ FormatInt n ++ lit " is not a power of 2")))
            else parse_items fuel fname strict r little n
          else if is_digit ch then
            if strict then Err (EMsg (invalid fname ch)) else parse_items fuel fname strict r little maxalign
          else match natural_size ch with
          | None => if strict then Err (EMsg (invalid fname ch)) else parse_items fuel fname strict r little maxalign
          | Some sz =>
              if existsb (Ascii.eqb ch) (lit "iIc") then
                let '(ds, r) := span_digits r in
                let sz := match ds with [] => sz | _ => atoi_digits ds end in
                let? items := parse_items fuel fname strict r little maxalign in
                Ok (mkItem ch sz (Ascii.eqb ch "c" && (sz =? 0)) maxalign little :: items)
              else
                match r with
                | d :: _ =>
                    if is_digit d && strict then Err (EMsg (invalid fname d))
                    else let? items := parse_items fuel fname strict r little maxalign in Ok (mkItem ch sz false maxalign little :: items)
                | [] => Ok [mkItem ch sz false maxalign little]
                end
          end
      end
  end.
Definition structParse (fname : string) (f : bytes) (strict : bool) : result (list structItem) :=
  parse_items (S (length f)) fname strict f structNativeLittle (-1).

(** ** Arguments *)

Context `{GoFloatGP} `{GoFloatMath}.

Definition structNumString (f : Z) : bytes :=
  if f64_integral f && f64_finite f && (Z.abs (f64_trunc f) <? 2 ^ 53) then FormatInt (f64_trunc f) else FormatFloatGP f 14.

Definition raise_arg {A : Type} (fname : string) (n : Z) (detail : bytes) : result A := Err (EMsg (libArgError libCallPos fname n detail)).

Definition structStrArg (fname : string) (args : list LValue) (n : Z) : result bytes :=
  match Get args n with
  | LString s => Ok s
  | LNumber f => Ok (structNumString f)
  | v => raise_arg fname n (lit "string expected, got " ++ type_name v)
  end.
Definition structFmtArg (fname : string) (args : list LValue) (n : Z) : result bytes :=
  if len args <? n then raise_arg fname n (lit "string expected, got no value") else structStrArg fname args n.
Definition structDataArg (fname : string) (args : list LValue) (n : Z) : result bytes := structFmtArg fname args n.
Definition structNumArg (fname : string) (args : list LValue) (n : Z) : result Z :=
  match Get args n with LNumber f => Ok f | v => raise_arg fname n (lit "number expected, got " ++ type_name v) end.
Definition structOffsetArg (fname : string) (args : list LValue) (n : Z) : result Z :=
  if len args <? n then Ok 1
  else match Get args n with
  | LNil => Ok 1
  | LNumber f => Ok (f64_to_i64 f)
  | v => raise_arg fname n (lit "number expected, got " ++ type_name v)
  end.

(** ** Packing *)

Definition is_signed (c : ascii) : bool := existsb (Ascii.eqb c) (lit "bhil").

(** [n] bytes of [u] in the byte order asked. *)
Definition ordered (little : bool) (b : bytes) : bytes := if little then reverse b else b.

Definition structPackInt (v n : Z) (little signed : bool) : bytes :=
  if n <=? 0 then []
  else
    let u := u64 v in
    if n <=? 8 then ordered little (be_bytes (Z.to_nat n) u)
    else let fill := if signed && (v <? 0) then byte_of 255 else byte_of 0 in
         ordered little (repeat fill (Z.to_nat (n - 8)) ++ be_bytes 8 u).

(** The float is truncated to an int64 first. *)
Definition structPackNum (it : structItem) (v : Z) : bytes :=
  if Ascii.eqb (code it) "b" || Ascii.eqb (code it) "B" then [byte_of (f64_to_i64 v)]
  else if existsb (Ascii.eqb (code it)) (lit "hHiIlLT") then structPackInt (f64_to_i64 v) (size it) (little it) (is_signed (code it))
  else if Ascii.eqb (code it) "f" then ordered (little it) (be_bytes 4 (f32_of_f64 v))
  else ordered (little it) (be_bytes 8 v).

Fixpoint pack_items (items : list structItem) (args : list LValue) (arg : Z) (out : bytes) (off : Z) {struct items} : result bytes :=
  match items with
  | [] => Ok out
  | it :: items =>
      let off := structPad off (structAlign it) (maxalign it) in
      let out := out ++ repeat (byte_of 0) (Z.to_nat (off - len out)) in
      if Ascii.eqb (code it) "x" then pack_items items args arg (out ++ [byte_of 0]) (off + 1)
      else if Ascii.eqb (code it) "s" then
        let? s := structStrArg "pack" args arg in
        pack_items items args (arg + 1) (out ++ s ++ [byte_of 0]) (off + len s + 1)
      else if Ascii.eqb (code it) "c" then
        let? s := structStrArg "pack" args arg in
        if (len s <? size it) && negb (c0 it) then raise_arg "pack" (arg + 1) (lit "string too short")
        else if c0 it then pack_items items args (arg + 1) (out ++ s) (off + len s)
        else pack_items items args (arg + 1) (out ++ take (Z.to_nat (size it)) s) (off + size it)
      else
        let? v := structNumArg "pack" args arg in
        pack_items items args (arg + 1) (out ++ structPackNum it v) (off + size it)
  end.

Definition structPack (args : list LValue) : result (list LValue) :=
  let? f := structFmtArg "pack" args 1 in
  let? items := structParse "pack" f true in
  let? out := pack_items items args 2 [] 0 in
  Ok [LString out].

(** ** Unpacking *)

(** [math.Ldexp(1, k)] for a positive [k] *)
Definition ldexp_one (k : Z) : Z := if 1024 <=? k then 2047 * 2 ^ 52 else (k + 1023) * 2 ^ 52.
Definition f_256 : Z := 0x4070000000000000.

(** A big-endian integer of more than eight bytes, in floats. *)
Definition wide_float (b : bytes) (signed : bool) : Z :=
  let v := foldl (fun v c => fm_add (fm_mul v f_256) (f64_of_Z (byte_val c))) 0 b in
  if signed && (match b with c :: _ => 128 <=? byte_val c | [] => false end) then fm_sub v (ldexp_one (8 * len b)) else v.

(** Sign extension of the low [n] bytes. *)
Definition extend (n u : Z) : Z := if u <? 2 ^ (8 * n - 1) then u else u - 2 ^ (8 * n).

Definition structUnpackNum (b : bytes) (it : structItem) : Z :=
  let n := len b in
  let c := code it in
  let b := ordered (little it) b in
  let u := be_val 0 b in
  if Ascii.eqb c "b" then f64_of_Z (extend 1 u)
  else if Ascii.eqb c "B" then f64_of_Z u
  else if Ascii.eqb c "h" then f64_of_Z (extend 2 u)
  else if Ascii.eqb c "H" then f64_of_Z u
  else if Ascii.eqb c "f" then f64_of_f32 u
  else if Ascii.eqb c "d" then u
  else if n =? 0 then 0
  else if n <=? 8 then f64_of_Z (if is_signed c then extend n u else u)
  else wide_float b (is_signed c).

(** [strings.IndexByte(s, 0)]: what precedes the first zero byte. *)
Fixpoint before_zero (s : bytes) : option bytes :=
  match s with
  | [] => None
  | c :: r => if byte_val c =? 0 then Some [] else option_map (cons c) (before_zero r)
  end.

Definition retShort {A : Type} : result A := raise_arg "unpack" 2 (lit "data string too short").

Fixpoint unpack_items (items : list structItem) (data : bytes) (pos : Z) (rets : list LValue) (prev : option Z) {struct items} : result (list LValue) :=
  match items with
  | [] => Ok (rets ++ [LNumber (f64_of_Z (pos + 1))])
  | it :: items =>
      let pos := structPad pos (structAlign it) (maxalign it) in
      if Ascii.eqb (code it) "x" then
        if len data <? pos + 1 then retShort else unpack_items items data (pos + 1) rets None
      else if Ascii.eqb (code it) "s" then
        let? tail := slice data pos (len data) in
        match before_zero tail with
        | None => Err (EMsg (libErrorf libCallPos (lit "unfinished string in data")))
        | Some s => unpack_items items data (pos + len s + 1) (rets ++ [LString s]) None
        end
      else if Ascii.eqb (code it) "c" then
        match (if c0 it then (match prev with None => None | Some f => Some (f64_to_i64 f, take (length rets - 1) rets) end) else Some (size it, rets)) with
        | None => Err (EMsg (libErrorf libCallPos (lit "format 'c0' needs a previous size")))
        | Some (n, rets) =>
            if (n <? 0) || (len data <? i64 (pos + n)) then retShort
            else let? s := slice data pos (i64 (pos + n)) in unpack_items items data (pos + n) (rets ++ [LString s]) None
        end
      else
        if len data <? i64 (pos + size it) then retShort
        else
          let? b := slice data pos (i64 (pos + size it)) in
          let v := structUnpackNum b it in
          unpack_items items data (pos + size it) (rets ++ [LNumber v]) (Some v)
  end.

Definition structUnpack (args : list LValue) : result (list LValue) :=
  let? f := structFmtArg "unpack" args 1 in
  let? items := structParse "unpack" f true in
  let? data := structDataArg "unpack" args 2 in
  let? off := structOffsetArg "unpack" args 3 in
  if off =? 0 then raise_arg "unpack" 3 (lit "offset must be 1 or greater")
  else
    let pos := i64 (off - 1) in
    if (pos <? 0) || (len data <? pos) then raise_arg "unpack" 2 (lit "data string too short")
    else unpack_items items data pos [] None.

Fixpoint size_items (items : list structItem) (off : Z) : result Z :=
  match items with
  | [] => Ok off
  | it :: items =>
      if Ascii.eqb (code it) "s" then raise_arg "size" 1 (lit "option 's' has no fixed size")
      else if c0 it then raise_arg "size" 1 (lit "option 'c0' has no fixed size")
      else size_items items (i64 (structPad off (structAlign it) (maxalign it) + size it))
  end.
Definition structSize (args : list LValue) : result (list LValue) :=
  let? f := structFmtArg "size" args 1 in
  let? items := structParse "size" f false in
  let? off := size_items items 0 in
  Ok [LNumber (f64_of_Z off)].

End lib.

(** ** The same format brings back what was packed *)

Section spec.
Variable libCallPos : bytes.
Variable native : bool.
Context `{GoFloatGP} `{GoFloatMath}.

Definition small (it : structItem) : Prop := maxalign it <= 2 ^ 31 /\ maxalign it <> 0.

Definition int_codes : bytes := lit "bBhHiIlLT".
(** The width of a code that has one. *)
Definition width_ok (it : structItem) (n : Z) : Prop :=
  (code it ∈ lit "bB" -> n = 1) /\ (code it ∈ lit "hH" -> n = 2) /\ 1 <= n <= 8.

(** The number a number is read back as: an integer that fits the width, a
    float32, a float64. *)
Inductive num_back (it : structItem) (f r : Z) : Prop :=
| back_int : code it ∈ int_codes -> width_ok it (size it) ->
    (if is_signed (code it) then - 2 ^ (8 * size it - 1) <= f64_to_i64 f < 2 ^ (8 * size it - 1) else 0 <= f64_to_i64 f < 2 ^ (8 * size it)) ->
    r = f64_of_Z (f64_to_i64 f) -> num_back it f r
| back_float : code it = "f"%char -> size it = 4 -> 0 <= f32_of_f64 f < 2 ^ 32 -> r = f64_of_f32 (f32_of_f64 f) -> num_back it f r
| back_double : code it = "d"%char -> size it = 8 -> is_u64 f -> r = f -> num_back it f r.

(** One item: the values it takes, the values it gives back, its bytes. *)
Inductive item_step (it : structItem) : list LValue -> list LValue -> bytes -> Prop :=
| step_x : code it = "x"%char -> size it = 1 -> item_step it [] [] [byte_of 0]
| step_s (s : bytes) : code it = "s"%char -> Forall (fun c => byte_val c <> 0) s -> item_step it [LString s] [LString s] (s ++ [byte_of 0])
| step_c (s : bytes) : code it = "c"%char -> c0 it = false -> 0 <= size it <= len s ->
    item_step it [LString s] [LString (take (Z.to_nat (size it)) s)] (take (Z.to_nat (size it)) s)
| step_n (f r : Z) : num_back it f r -> item_step it [LNumber f] [LNumber r] (structPackNum it f).

(** The items, the values packed with them, and the values read back. *)
Inductive packable : list structItem -> list LValue -> list LValue -> Prop :=
| pack_nil : packable [] [] []
| pack_cons (it : structItem) (items : list structItem) (hd hr : list LValue) (chunk : bytes) (vs rs : list LValue) :
    small it -> item_step it hd hr chunk -> packable items vs rs -> packable (it :: items) (hd ++ vs) (hr ++ rs).

Lemma ordered_twice (l : bool) (b : bytes) : ordered l (ordered l b) = b.
Proof. destruct l; cbn; [apply reverse_involutive|done]. Qed.
Lemma ordered_length (l : bool) (b : bytes) : length (ordered l b) = length b.
Proof. destruct l; cbn; [apply length_reverse|done]. Qed.

Lemma be_val_be_bytes (n : nat) (x : Z) : be_val 0 (be_bytes n x) = x mod 2 ^ (8 * Z.of_nat n).
Proof. by rewrite be_val_bytes. Qed.

Lemma extend_mod (n x : Z) : 1 <= n -> - 2 ^ (8 * n - 1) <= x < 2 ^ (8 * n - 1) -> extend n (x mod 2 ^ (8 * n)) = x.
Proof.
  intros Hn Hx. assert (2 ^ (8 * n) = 2 * 2 ^ (8 * n - 1)) as Hp by (rewrite <- Z.pow_succ_r by lia; f_equal; lia). unfold extend. rewrite Hp.
  set (h := 2 ^ (8 * n - 1)) in *. destruct (Z.lt_ge_cases x 0) as [Hneg|Hpos].
  - assert (x mod (2 * h) = x + 2 * h) as -> by (symmetry; apply (Z.mod_unique_pos _ _ (-1)); lia). rewrite (proj2 (Z.ltb_ge _ _)) by lia. lia.
  - rewrite Z.mod_small by lia. by rewrite (proj2 (Z.ltb_lt _ _)) by lia.
Qed.

Lemma pack_int_back (v n : Z) (l sg : bool) : 1 <= n <= 8 -> be_val 0 (ordered l (structPackInt v n l sg)) = v mod 2 ^ (8 * n) /\ len (structPackInt v n l sg) = n.
Proof.
  intros Hn. unfold structPackInt. rewrite (proj2 (Z.leb_gt _ _)), (proj2 (Z.leb_le _ _)) by lia. rewrite ordered_twice. unfold len. rewrite ordered_length, be_bytes_length. split; [|lia].
  rewrite be_val_be_bytes. rewrite Z2Nat.id by lia. unfold u64. symmetry. apply Znumtheory.Zmod_div_mod; [apply Z.pow_pos_nonneg; lia|lia|].
  exists (2 ^ (64 - 8 * n)). rewrite <- Z.pow_add_r by lia. f_equal. lia.
Qed.

Lemma byte_back (v : Z) : be_val 0 [byte_of v] = v mod 2 ^ 8.
Proof. change [byte_of v] with [byte_of v]. cbn [be_val]. rewrite byte_val_of. cbn. done. Qed.


Ltac each_code Hc := apply list_elem_of_In in Hc; vm_compute in Hc; destruct_or? Hc; [subst..|destruct Hc].
Ltac in_codes := apply list_elem_of_In; vm_compute; tauto.

Lemma pack_int_form (it : structItem) (f : Z) : code it ∈ int_codes -> width_ok it (size it) ->
  structPackNum it f = structPackInt (f64_to_i64 f) (size it) (little it) (is_signed (code it)).
Proof.
  destruct it as [c n z ma l]. unfold width_ok. cbn [code size little]. intros Hc (Hb & Hh & Hn).
  assert (forall sg, n = 1 -> [byte_of (f64_to_i64 f)] = structPackInt (f64_to_i64 f) n l sg) as H1.
  { intros sg ->. unfold structPackInt. cbn [Z.leb Z.compare Pos.compare Pos.compare_cont]. change (Z.to_nat 1) with 1%nat. cbn [be_bytes]. rewrite Z.shiftr_0_r.
    assert (byte_of (u64 (f64_to_i64 f)) = byte_of (f64_to_i64 f)) as ->; [|by destruct l].
    apply byte_val_inj. rewrite !byte_val_of. unfold u64. symmetry. apply Znumtheory.Zmod_div_mod; [lia|lia|]. by exists (2 ^ 56). }
  unfold structPackNum. cbn [code size little]. each_code Hc; first [reflexivity | refine (H1 _ (Hb _)); in_codes].
Qed.

Lemma unpack_int_form (it : structItem) (b : bytes) : code it ∈ int_codes -> width_ok it (len b) ->
  structUnpackNum b it = f64_of_Z (if is_signed (code it) then extend (len b) (be_val 0 (ordered (little it) b)) else be_val 0 (ordered (little it) b)).
Proof.
  destruct it as [c n z ma l]. unfold width_ok. cbn [code size little]. intros Hc (Hb & Hh & Hn). unfold structUnpackNum. cbn [code size little]. cbv zeta.
  rewrite (proj2 (Z.eqb_neq (len b) 0)), (proj2 (Z.leb_le (len b) 8)) by lia.
  each_code Hc; first [reflexivity | rewrite Hb by in_codes; reflexivity | rewrite Hh by in_codes; reflexivity].
Qed.

Lemma num_back_spec (it : structItem) (f r : Z) : num_back it f r ->
  structUnpackNum (structPackNum it f) it = r /\ len (structPackNum it f) = size it /\ 0 <= size it <= 8 /\
  Ascii.eqb (code it) "x" = false /\ Ascii.eqb (code it) "s" = false /\ Ascii.eqb (code it) "c" = false.
Proof.
  intros [Hc Hw Hv ->|Hc Hn Hv ->|Hc Hn Hv ->].
  - destruct (pack_int_back (f64_to_i64 f) (size it) (little it) (is_signed (code it))) as [Ei El]; [apply Hw|].
    assert (0 <= size it <= 8 /\ 1 <= size it) as [Hs Hs1] by (destruct Hw as (_ & _ & ?); lia).
    rewrite pack_int_form by done. rewrite unpack_int_form by (rewrite ?El; done). rewrite Ei, El. split; [|split; [done|split; [done|clear -Hc; revert Hc; generalize (code it); intros c Hc; each_code Hc; done]]].
    f_equal. destruct (is_signed (code it)); [by apply extend_mod|by apply Z.mod_small].
  - destruct it as [c n z ma l]. cbn [code size little] in *. subst c n. unfold structPackNum, structUnpackNum. cbn [code size little Ascii.eqb Bool.eqb orb existsb lit].
    change (existsb (Ascii.eqb "f") (lit "hHiIlLT")) with false. cbv iota. cbv zeta. rewrite ordered_twice, be_val_be_bytes. unfold len. rewrite ordered_length, be_bytes_length. split_and!; try done; try lia.
    change (8 * Z.of_nat 4) with 32. by rewrite Z.mod_small.
  - destruct it as [c n z ma l]. cbn [code size little] in *. subst c n. unfold structPackNum, structUnpackNum. cbn [code size little Ascii.eqb Bool.eqb orb existsb lit].
    change (existsb (Ascii.eqb "d") (lit "hHiIlLT")) with false. cbv iota. cbv zeta. rewrite ordered_twice, be_val_be_bytes. unfold len. rewrite ordered_length, be_bytes_length. split_and!; try done; try lia.
    change (8 * Z.of_nat 8) with 64. by rewrite Z.mod_small.
Qed.

(** ** Offsets *)

Lemma pad_bounds (off al ma : Z) : 0 <= off < 2 ^ 62 -> ma <= 2 ^ 31 -> ma <> 0 -> off <= structPad off al ma < 2 ^ 62 + 2 ^ 32.
Proof.
  intros Ho Hm Hm0. unfold structPad. destruct ((ma <? 0) || (al <=? 1)) eqn:E; [lia|]. apply orb_false_iff in E as [E1 E2]. breflect. cbv zeta.
  set (a := if ma <? al then ma else al). assert (0 < a <= 2 ^ 31) as Ha by (unfold a; destruct (ma <? al) eqn:?; breflect; lia).
  destruct (Z.eqb_spec (Z.rem off a) 0) as [|Hr]; [lia|].
  pose proof (Z.rem_bound_pos off a ltac:(lia) ltac:(lia)). rewrite i64_id by (unfold is_i64; lia). lia.
Qed.

Lemma Get_after (pre : list LValue) (v : LValue) (vs : list LValue) : Get (pre ++ v :: vs) (len pre + 1) = v.
Proof. unfold Get. replace (Z.to_nat (len pre + 1 - 1)) with (length pre) by (unfold len; lia). by rewrite list_lookup_middle. Qed.

Lemma before_zero_app (s r : bytes) : Forall (fun c => byte_val c <> 0) s -> before_zero (s ++ byte_of 0 :: r) = Some s.
Proof.
  induction 1 as [|c s Hc Hs IH]; cbn [before_zero app]; [done|]. rewrite (proj2 (Z.eqb_neq _ _)) by done. by rewrite IH.
Qed.

Lemma slice_middle (a b c : bytes) : slice (a ++ b ++ c) (len a) (len a + len b) = Ok b.
Proof.
  pose proof (len_nonneg a). pose proof (len_nonneg b). pose proof (len_nonneg c). rewrite slice_ok by (rewrite ?len_app; lia). f_equal.
  replace (Z.to_nat (len a + len b - len a)) with (length b) by (unfold len; lia).
  replace (Z.to_nat (len a)) with (length a) by (unfold len; lia). by rewrite drop_app_length, take_app_length.
Qed.

Definition padded (it : structItem) (out : bytes) (off : Z) : bytes := out ++ repeat (byte_of 0) (Z.to_nat (off - len out)).
Definition aligned (it : structItem) (off : Z) : Z := structPad off (structAlign it) (maxalign it).

Lemma padded_length (it : structItem) (out : bytes) : small it -> len out < 2 ^ 62 -> len (padded it out (aligned it (len out))) = aligned it (len out).
Proof.
  intros [Hs Hs0] Ho. pose proof (len_nonneg out). pose proof (pad_bounds (len out) (structAlign it) (maxalign it) ltac:(lia) Hs Hs0). unfold padded, aligned.
  rewrite len_app. unfold len at 2. rewrite repeat_length. lia.
Qed.

(** Packing one item appends its bytes. *)
Lemma pack_step (it : structItem) (hd hr : list LValue) (chunk : bytes) : item_step it hd hr chunk ->
  forall (items : list structItem) (pre vs : list LValue) (out : bytes) (off : Z),
  pack_items libCallPos (it :: items) (pre ++ hd ++ vs) (len pre + 1) out off =
  pack_items libCallPos items ((pre ++ hd) ++ vs) (len (pre ++ hd) + 1) (padded it out (aligned it off) ++ chunk) (aligned it off + len chunk).
Proof.
  intros Hstep items pre vs out off. cbn [pack_items]. fold (aligned it off). fold (padded it out (aligned it off)). rewrite <- (app_assoc pre hd vs).
  assert (forall v : LValue, len (pre ++ [v]) + 1 = len pre + 1 + 1) as Hl by (intros v; rewrite len_app; unfold len; cbn; lia).
  destruct Hstep as [Hc Hx|s Hc Hz|s Hc Hc0 Hn|f r Hb].
  - rewrite Hc. by rewrite app_nil_r.
  - rewrite Hc. cbn [Ascii.eqb Bool.eqb app]. unfold structStrArg. rewrite Get_after, Hl. cbn [res_bind]. f_equal. rewrite len_app. unfold len; cbn; lia.
  - rewrite Hc, Hc0. cbn [Ascii.eqb Bool.eqb app]. unfold structStrArg. rewrite Get_after, Hl. cbn [res_bind]. rewrite (proj2 (Z.ltb_ge _ _)) by lia. cbn [andb].
    f_equal. unfold len in *. rewrite length_take. lia.
  - destruct (num_back_spec it f r Hb) as (_ & Es & _ & -> & -> & ->). cbn [app]. unfold structNumArg. rewrite Get_after, Hl. cbn [res_bind]. by rewrite Es.
Qed.

(** Reading it gives its values back. *)
Lemma unpack_step (it : structItem) (hd hr : list LValue) (chunk : bytes) : item_step it hd hr chunk ->
  forall (items : list structItem) (off : Z) (o tail : bytes) (rets : list LValue) (prev : option Z),
  aligned it off = len o -> len (o ++ chunk ++ tail) < 2 ^ 62 ->
  exists prev', unpack_items libCallPos (it :: items) (o ++ chunk ++ tail) off rets prev = unpack_items libCallPos items (o ++ chunk ++ tail) (len (o ++ chunk)) (rets ++ hr) prev'.
Proof.
  intros Hstep items off o tail rets prev Ho Hf. cbn [unpack_items]. fold (aligned it off). rewrite Ho. rewrite !len_app in Hf. rewrite (len_app o chunk).
  pose proof (len_nonneg o). pose proof (len_nonneg tail). pose proof (len_nonneg chunk).
  destruct Hstep as [Hc Hx|s Hc Hz|s Hc Hc0 Hn|f r Hb].
  - rewrite Hc. cbn [Ascii.eqb Bool.eqb]. exists None. rewrite (proj2 (Z.ltb_ge _ _)) by (rewrite !len_app; unfold len at 3; cbn; lia). rewrite (app_nil_r rets). reflexivity.
  - rewrite Hc. cbn [Ascii.eqb Bool.eqb]. exists None. pose proof (slice_middle o ((s ++ [byte_of 0]) ++ tail) []) as Hsl. rewrite app_nil_r, <- len_app in Hsl. rewrite Hsl. cbn [res_bind].
    rewrite <- app_assoc. cbn [app]. rewrite before_zero_app by done. f_equal. rewrite len_app. unfold len; cbn; lia.
  - rewrite Hc, Hc0. cbn [Ascii.eqb Bool.eqb]. exists None. set (c := take (Z.to_nat (size it)) s) in *. assert (size it = len c) as -> by (unfold c, len in *; rewrite length_take; lia).
    rewrite i64_id by (unfold is_i64; lia). rewrite (proj2 (Z.ltb_ge (len c) 0)), (proj2 (Z.ltb_ge _ _)) by (rewrite ?len_app; lia). cbn [orb]. by rewrite slice_middle.
  - destruct (num_back_spec it f r Hb) as (Er & Es & Hn & -> & -> & ->). eexists. rewrite <- Es. rewrite i64_id by (unfold is_i64; lia).
    rewrite (proj2 (Z.ltb_ge _ _)) by (rewrite !len_app; lia). rewrite slice_middle. cbn [res_bind]. by rewrite Er.
Qed.

Lemma pack_extends (items : list structItem) (vs rs : list LValue) : packable items vs rs -> forall (pre post : list LValue) (out : bytes) (off : Z),
  exists tail, pack_items libCallPos items (pre ++ vs ++ post) (len pre + 1) out off = Ok (out ++ tail).
Proof.
  induction 1 as [|it items hd hr chunk vs rs Hs Hstep Hp IH]; intros pre post out off; [exists []; by rewrite app_nil_r|].
  rewrite <- app_assoc, (pack_step it hd hr chunk Hstep). destruct (IH (pre ++ hd) post (padded it out (aligned it off) ++ chunk) (aligned it off + len chunk)) as [tail ->].
  unfold padded. rewrite <- !app_assoc. by eexists.
Qed.

(** Reading where packing wrote. *)
Lemma unpack_packed (items : list structItem) (vs rs : list LValue) : packable items vs rs -> forall (pre post : list LValue) (out final : bytes) (rets : list LValue) (prev : option Z),
  pack_items libCallPos items (pre ++ vs ++ post) (len pre + 1) out (len out) = Ok final -> len final < 2 ^ 62 ->
  unpack_items libCallPos items final (len out) rets prev = Ok (rets ++ rs ++ [LNumber (f64_of_Z (len final + 1))]).
Proof.
  induction 1 as [|it items hd hr chunk vs rs Hs Hstep Hp IH]; intros pre post out final rets prev E Hf; [by injection E as <-|].
  rewrite <- app_assoc, (pack_step it hd hr chunk Hstep) in E. set (o := padded it out (aligned it (len out))) in *.
  destruct (pack_extends items vs rs Hp (pre ++ hd) post (o ++ chunk) (aligned it (len out) + len chunk)) as [tail E']. rewrite E in E'. injection E' as Efin.
  assert (len out < 2 ^ 62) as Ho by (rewrite Efin in Hf; unfold o, padded in Hf; rewrite !len_app in Hf; pose proof (len_nonneg tail); pose proof (len_nonneg chunk);
    pose proof (len_nonneg (repeat (byte_of 0) (Z.to_nat (aligned it (len out) - len out)))); lia).
  pose proof (padded_length it out Hs Ho) as Hl. fold o in Hl. rewrite <- app_assoc in Efin.
  destruct (unpack_step it hd hr chunk Hstep items (len out) o tail rets prev) as [prev' Eu]; [done|by rewrite <- Efin|]. rewrite <- Efin in Eu. rewrite Eu.
  rewrite <- Hl, <- len_app in E. rewrite (IH (pre ++ hd) post (o ++ chunk) final (rets ++ hr) prev' E Hf). by rewrite <- !app_assoc.
Qed.

(** A format accepted by one function is read the same by all. *)
Lemma parse_same (fuel : nat) (fn1 fn2 : string) (b : bool) : forall (f : bytes) (l : bool) (ma : Z) (items : list structItem),
  parse_items libCallPos fuel fn1 true f l ma = Ok items -> parse_items libCallPos fuel fn2 b f l ma = Ok items.
Proof.
  induction fuel as [|fuel IH]; intros f l ma items; cbn [parse_items]; [done|]. destruct f as [|ch r]; [done|].
  destruct (is_space ch); [apply IH|]. destruct (Ascii.eqb ch ">" || Ascii.eqb ch "<"); [apply IH|].
  destruct (Ascii.eqb ch "!"); [destruct (span_digits r) as [ds r']; cbv zeta; destruct (_ || _); [done|apply IH]|].
  destruct (is_digit ch); [done|]. destruct (natural_size ch) as [sz|]; [|done]. destruct (existsb (Ascii.eqb ch) (lit "iIc")).
  - destruct (span_digits r) as [ds r']. cbv zeta. destruct (parse_items libCallPos fuel fn1 true r' l ma) as [its| |] eqn:E; [|done|done]. by rewrite (IH _ _ _ _ E).
  - destruct r as [|d r]; [done|]. destruct (is_digit d); cbn [andb]; [done|].
    destruct (parse_items libCallPos fuel fn1 true (d :: r) l ma) as [its| |] eqn:E; [|done|done]. by rewrite (IH _ _ _ _ E).
Qed.

Lemma size_packed (items : list structItem) (vs rs : list LValue) : packable items vs rs -> Forall (fun it => Ascii.eqb (code it) "s" = false /\ c0 it = false) items ->
  forall (pre post : list LValue) (out final : bytes),
  pack_items libCallPos items (pre ++ vs ++ post) (len pre + 1) out (len out) = Ok final -> len final < 2 ^ 62 ->
  size_items libCallPos items (len out) = Ok (len final).
Proof.
  induction 1 as [|it items hd hr chunk vs rs Hs Hstep Hp IH]; intros Hfix pre post out final E Hf; [by injection E as <-|].
  apply Forall_cons in Hfix as [[Hns Hc0] Hfix]. rewrite <- app_assoc, (pack_step it hd hr chunk Hstep) in E. set (o := padded it out (aligned it (len out))) in *.
  destruct (pack_extends items vs rs Hp (pre ++ hd) post (o ++ chunk) (aligned it (len out) + len chunk)) as [tail E']. rewrite E in E'. injection E' as Efin.
  pose proof (len_nonneg tail). pose proof (len_nonneg chunk). pose proof (len_nonneg o).
  assert (len (o ++ chunk) < 2 ^ 62) as Hoc by (rewrite Efin in Hf; rewrite len_app in Hf; lia). rewrite len_app in Hoc.
  assert (len out < 2 ^ 62) as Ho by (unfold o, padded in Hoc; rewrite !len_app in Hoc; pose proof (len_nonneg (repeat (byte_of 0) (Z.to_nat (aligned it (len out) - len out)))); lia).
  pose proof (padded_length it out Hs Ho) as Hl. fold o in Hl.
  assert (size it = len chunk) as Hsz.
  { destruct Hstep as [Hc Hx|s Hc Hz|s Hc Hc0' Hn|f r Hb]; [done|by rewrite Hc in Hns|unfold len in *; rewrite length_take; lia|]. by destruct (num_back_spec it f r Hb) as (_ & -> & _). }
  cbn [size_items]. rewrite Hns, Hc0. fold (aligned it (len out)). rewrite Hsz, <- Hl, <- len_app. rewrite i64_id by (unfold is_i64; rewrite len_app; lia).
  rewrite <- Hl, <- len_app in E. by apply (IH Hfix (pre ++ hd) post).
Qed.

(** What struct.pack wrote, struct.unpack reads.  For every format the
    parser accepts, with any byte orders, alignments and widths up to 8 bytes,
    and values that fit its items, packing succeeds, unpacking the bytes with
    the same format gives every value back (an integer as itself, a float
    rounded to the item's precision, a string cut to its length) followed by the
    position after the last byte, and for a format of fixed size struct.size is
    the number of bytes packed. *)
Theorem struct_roundtrip (f : bytes) (items : list structItem) (vals rs : list LValue) :
  structParse libCallPos native "pack" f true = Ok items -> packable items vals rs ->
  exists out, structPack libCallPos native (LString f :: vals) = Ok [LString out] /\
    (len out < 2 ^ 62 -> structUnpack libCallPos native [LString f; LString out] = Ok (rs ++ [LNumber (f64_of_Z (len out + 1))]) /\
      (Forall (fun it => Ascii.eqb (code it) "s" = false /\ c0 it = false) items -> structSize libCallPos native [LString f] = Ok [LNumber (f64_of_Z (len out))])).
Proof.
  intros Hparse Hp. destruct (pack_extends items vals rs Hp [LString f] [] [] 0) as [out E]. cbn [app] in E. rewrite app_nil_r in E. exists out.
  assert (forall fn b, structParse libCallPos native fn f b = Ok items) as Hall by (intros; by apply (parse_same _ "pack")).
  split; [|intros Hf; split; [|intros Hfix]].
  - unfold structPack, structFmtArg, structStrArg. rewrite (proj2 (Z.ltb_ge _ _)) by (unfold len; cbn [length]; lia). cbn [Get]. change (Get (LString f :: vals) 1) with (LString f).
    cbn [res_bind]. rewrite Hparse. cbn [res_bind]. change 2 with (len [LString f] + 1). by rewrite E.
  - unfold structUnpack, structDataArg, structFmtArg, structStrArg, structOffsetArg. change (len [LString f; LString out] <? 1) with false. change (len [LString f; LString out] <? 2) with false.
    change (len [LString f; LString out] <? 3) with true. change (Get [LString f; LString out] 1) with (LString f).
    change (Get [LString f; LString out] 2) with (LString out). cbn [res_bind]. rewrite Hall. cbn [res_bind]. change (1 =? 0) with false. change (i64 (1 - 1)) with 0. cbv iota zeta. change (0 <? 0) with false.
    rewrite (proj2 (Z.ltb_ge _ _)) by (pose proof (len_nonneg out); lia). cbn [orb].
    change 0 with (len (@nil ascii)). rewrite (unpack_packed items vals rs Hp [LString f] [] [] out [] None); [done| |done]. cbn [app]. by rewrite app_nil_r.
  - unfold structSize, structFmtArg, structStrArg. change (len [LString f] <? 1) with false. change (Get [LString f] 1) with (LString f). cbn [res_bind]. rewrite Hall. cbn [res_bind]. change 0 with (len (@nil ascii)).
    rewrite (size_packed items vals rs Hp Hfix [LString f] [] [] out); [done| |done]. cbn [app]. by rewrite app_nil_r.
Qed.
End spec.

(** ** On concrete formats *)

Section examples.
#[local] Instance st_gp : GoFloatGP := {| FormatFloatGP := fun f _ => FormatInt f |}.
#[local] Instance st_math : GoFloatMath :=
  {| fm_add := fun a _ => a; fm_sub := fun a _ => a; fm_mul := fun a _ => a; fm_div := fun a _ => a; fm_sqrt := fun a => a; fm_pow := fun a _ => a;
     fm_round := fun a => a; fm_of_int := f64_of_Z; fm_to_u64 := fun n => n |}.

Definition num (i : Z) : LValue := LNumber (f64_of_Z i).
Definition demo_items : list structItem :=
  [mkItem "b" 1 false 4 true; mkItem "H" 2 false 4 false; mkItem "s" 0 false 4 false; mkItem "i" 3 false 4 false; mkItem "x" 1 false 4 false; mkItem "c" 2 false 4 false; mkItem "d" 8 false 4 false].

Definition demo_values : list LValue := [num (-7); num 513; LString (lit "hi"); num (-70000); LString (lit "abc"); num 9].
Definition demo_back : list LValue := [num (-7); num 513; LString (lit "hi"); num (-70000); LString (lit "ab"); num 9].

#[local] Instance width_dec (it : structItem) (n : Z) : Decision (width_ok it n).
Proof. unfold width_ok. apply _. Defined.

Lemma int_step (c : ascii) (n ma : Z) (l : bool) (i : Z) :
  let it := mkItem c n false ma l in
  bool_decide (c ∈ int_codes) && bool_decide (width_ok it n) &&
  (if is_signed c then bool_decide (- 2 ^ (8 * n - 1) <= f64_to_i64 (f64_of_Z i) < 2 ^ (8 * n - 1)) else bool_decide (0 <= f64_to_i64 (f64_of_Z i) < 2 ^ (8 * n))) &&
  (f64_of_Z (f64_to_i64 (f64_of_Z i)) =? f64_of_Z i) = true ->
  item_step it [num i] [num i] (structPackNum it (f64_of_Z i)).
Proof.
  cbv zeta. rewrite !andb_true_iff. intros [[[Hc Hw] Hv] E]. apply bool_decide_eq_true in Hc, Hw. apply Z.eqb_eq in E. apply step_n, back_int; [done|done| |done].
  cbn [code size]. destruct (is_signed c); by apply bool_decide_eq_true in Hv.
Qed.

Lemma demo_packable : packable demo_items demo_values demo_back.
Proof.
  assert (forall it, maxalign it = 4 -> small it) as Hsm by (intros it E; split; rewrite E; lia).
  unfold demo_items, demo_values, demo_back.
  eapply (pack_cons _ _ [_] [_]); [by apply Hsm|by apply int_step; vm_compute|].
  eapply (pack_cons _ _ [_] [_]); [by apply Hsm|by apply int_step; vm_compute|].
  eapply (pack_cons _ _ [_] [_]); [by apply Hsm|apply step_s; [done|repeat constructor; vm_compute; congruence]|].
  eapply (pack_cons _ _ [_] [_]); [by apply Hsm|by apply int_step; vm_compute|].
  eapply (pack_cons _ _ [] []); [by apply Hsm|by apply step_x|].
  eapply (pack_cons _ _ [_] [_]); [by apply Hsm|refine (step_c (mkItem "c" 2 false 4 false) (lit "abc") _ _ _); by vm_compute|].
  eapply (pack_cons _ _ [_] [_]); [by apply Hsm|by apply step_n, back_double|]. constructor.
Qed.

Lemma struct_roundtrip_witness :
  exists out, structPack [] true (LString (lit "!4<b>Hsi3xc2d") :: demo_values) = Ok [LString out] /\
    (len out < 2 ^ 62 -> structUnpack [] true [LString (lit "!4<b>Hsi3xc2d"); LString out] = Ok (demo_back ++ [LNumber (f64_of_Z (len out + 1))])).
Proof.
  destruct (struct_roundtrip [] true (lit "!4<b>Hsi3xc2d") demo_items demo_values demo_back) as (out & E & Hu).
  - vm_compute. reflexivity.
  - exact demo_packable.
  - exists out. split; [exact E|]. intros Hf. exact (proj1 (Hu Hf)).
Defined.

(** A width beyond int64 is taken for the largest: the end of the slice
    overflows. *)
Example unpack_huge_width_panics : structUnpack [] true [LString (lit "bI99999999999999999999"); LString (lit "ab")] = Panic.
Proof. vm_compute. reflexivity. Qed.

(** struct.size answers a negative size. *)
Example size_overflows : structSize [] true [LString (lit "I9223372036854775807I1")] = Ok [num (- 2 ^ 63)].
Proof. vm_compute. reflexivity. Qed.
End examples.
End luastruct.
