(* ===== verification/LuaMsgpack.v ===== *)
(** * The cmsgpack library of scripts (src/internal/commands/lua_cmsgpack.go)

    MessagePack encoding of Lua values.  Tables live in a heap, so that shared
    and cyclic ones can be packed; unpacking allocates. *)

From S2P Require Import Prelude GoLib GoFloatBits GoStrings Resp Hll LuaValue LuaStruct.
Open Scope Z_scope.
Open Scope gedis_scope.

Module luamsgpack.
Import luastruct.

Definition cmsgpackMaxNesting : nat := 16.

(** ** Encoding *)

Definition cmsgpackEncodeNumber (f : Z) : bytes :=
  let i := f64_trunc f in
  if f64_finite f && f64_integral f && (- 2 ^ 63 <=? i) && (i <? 2 ^ 63) then
    if (0 <=? i) && (i <=? 0x7f) then [byte_of i]
    else if (-32 <=? i) && (i <? 0) then [byte_of i]
    else if (0 <=? i) && (i <=? 0xff) then [byte_of 0xcc; byte_of i]
    else if (0 <=? i) && (i <=? 0xffff) then byte_of 0xcd :: be_bytes 2 i
    else if (0 <=? i) && (i <=? 0xffffffff) then byte_of 0xce :: be_bytes 4 i
    else if 0 <=? i then byte_of 0xcf :: be_bytes 8 i
    else if -128 <=? i then [byte_of 0xd0; byte_of i]
    else if -32768 <=? i then byte_of 0xd1 :: be_bytes 2 (i mod 2 ^ 16)
    else if -2147483648 <=? i then byte_of 0xd2 :: be_bytes 4 (u32 i)
    else byte_of 0xd3 :: be_bytes 8 (u64 i)
  else if f64_eqb (f64_of_f32 (f32_of_f64 f)) f then byte_of 0xca :: be_bytes 4 (f32_of_f64 f)
  else byte_of 0xcb :: be_bytes 8 f.

Definition cmsgpackEncodeString (s : bytes) : bytes :=
  let n := len s in
  if n <=? 31 then byte_of (Z.lor 0xa0 n) :: s
  else if n <=? 0xff then byte_of 0xd9 :: byte_of n :: s
  else if n <=? 0xffff then byte_of 0xda :: be_bytes 2 n ++ s
  else byte_of 0xdb :: be_bytes 4 (u32 n) ++ s.

Definition cmsgpackEncodeLen (fix_ len16 len32 n : Z) : bytes :=
  if n <=? 15 then [byte_of (Z.lor fix_ n)]
  else if n <=? 0xffff then byte_of len16 :: be_bytes 2 n
  else byte_of len32 :: be_bytes 4 (u32 n).

Section encode.
Context {T : Type} `{LuaTable T}.

(** The first traversal: number of pairs, of keys that are integers above 0,
    whether all are, the largest. *)
Definition is_index (k : LValue) : option Z :=
  match k with LNumber f => if f64_integral f && (1 <=? f64_to_i64 f) then Some (f64_to_i64 f) else None | _ => None end.
Definition survey (ps : list (LValue * LValue)) : Z * Z * bool * Z :=
  foldl (fun '(pairs, an, array, mx) p =>
    match is_index p.1 with
    | None => (pairs + 1, an, false, mx)
    | Some i => (pairs + 1, an + 1, array, if mx <? i then i else mx)
    end) (0, 0, true, 0) ps.

(** [enc] encodes at the next level. *)
Definition cmsgpackEncodeTable (enc : LValue -> bytes) (t : T) : bytes :=
  let '(pairs, an, array, mx) := survey (ForEach t) in
  if array && ((an =? 0) || (mx =? an)) then
    cmsgpackEncodeLen 0x90 0xdc 0xdd an ++ concat (map (fun i => enc (RawGetInt t (Z.of_nat i))) (seq 1 (Z.to_nat an)))
  else cmsgpackEncodeLen 0x80 0xde 0xdf pairs ++ concat (map (fun p => enc p.1 ++ enc p.2) (ForEach t)).

(** [levels] tables may be nested below; the top call has [cmsgpackMaxNesting]. *)
Fixpoint cmsgpackEncode (h : heap T) (levels : nat) (v : LValue) : bytes :=
  match v with
  | LNil => [byte_of 0xc0]
  | LBool b => [byte_of (if b then 0xc3 else 0xc2)]
  | LNumber f => cmsgpackEncodeNumber f
  | LString s => cmsgpackEncodeString s
  | LTable a => match levels with
                | O => [byte_of 0xc0]
                | S levels => cmsgpackEncodeTable (cmsgpackEncode h levels) (table_at h a)
                end
  | _ => [byte_of 0xc0]
  end.
End encode.

(** ** Decoding

    The decoder is what remains of the input.  [None]: out of fuel. *)

Section decode.
Context {T : Type} `{LuaTable T}.
Variable libCallPos : bytes.

Definition missing : goerr := EMsg (libErrorf libCallPos (lit "Missing bytes in input.")).
Definition bad_data : goerr := EMsg (libErrorf libCallPos (lit "Bad data format in input.")).

Definition decoded : Type := option (result (LValue * bytes * heap T)).
Definition ret (v : LValue) (r : bytes) (h : heap T) : decoded := Some (Ok (v, r, h)).

(** [u8], [u16], [u32] and [u64]: an unsigned integer of [n] bytes. *)
Definition uint (n : Z) (r : bytes) (k : Z -> bytes -> decoded) : decoded :=
  if len r <? n then Some (Err missing) else k (be_val 0 (take (Z.to_nat n) r)) (drop (Z.to_nat n) r).
(** Two's complement on [n] bytes. *)
Definition sint (n : Z) (u : Z) : Z := extend n u.

Definition bytes_ (n : Z) (r : bytes) (h : heap T) : decoded :=
  if len r <? n then Some (Err missing) else ret (LString (take (Z.to_nat n) r)) (drop (Z.to_nat n) r) h.

(** The loops of [array] and [mp], element [i] of [n]; an iteration reads at
    least a byte or fails. *)
Fixpoint array_loop (val : bytes -> heap T -> decoded) (fuel : nat) (n i : Z) (t : T) (r : bytes) (h : heap T) {struct fuel} : decoded :=
  if n <? i then let '(v, h) := alloc h t in ret v r h
  else match fuel with
  | O => None
  | S fuel =>
      match val r h with
      | None => None
      | Some (Err e) => Some (Err e)
      | Some Panic => Some Panic
      | Some (Ok (v, r, h)) => array_loop val fuel n (i + 1) (RawSetInt t i v) r h
      end
  end.
Fixpoint mp_loop (val : bytes -> heap T -> decoded) (fuel : nat) (n i : Z) (t : T) (r : bytes) (h : heap T) {struct fuel} : decoded :=
  if n <=? i then let '(v, h) := alloc h t in ret v r h
  else match fuel with
  | O => None
  | S fuel =>
      match val r h with
      | None => None
      | Some (Err e) => Some (Err e)
      | Some Panic => Some Panic
      | Some (Ok (k, r, h)) =>
          match val r h with
          | None => None
          | Some (Err e) => Some (Err e)
          | Some Panic => Some Panic
          | Some (Ok (v, r, h)) => mp_loop val fuel n (i + 1) (RawSet t k v) r h
          end
      end
  end.

(** What a first byte announces. *)
Inductive form : Type :=
| FConst (v : LValue) | FUint (n : Z) | FSint (n : Z) | FFloat32 | FFloat64
| FStr (n : Z) | FStrLen (n : Z) | FArr (n : Z) | FArrLen (n : Z) | FMap (n : Z) | FMapLen (n : Z) | FBad.

Definition form_of (b : Z) : form :=
  if b <=? 0x7f then FConst (LNumber (f64_of_Z b))
  else if 0xe0 <=? b then FConst (LNumber (f64_of_Z (b - 256)))
  else if (0xa0 <=? b) && (b <=? 0xbf) then FStr (Z.land b 0x1f)
  else if (0x90 <=? b) && (b <=? 0x9f) then FArr (Z.land b 0x0f)
  else if (0x80 <=? b) && (b <=? 0x8f) then FMap (Z.land b 0x0f)
  else if b =? 0xc0 then FConst LNil
  else if b =? 0xc2 then FConst (LBool false)
  else if b =? 0xc3 then FConst (LBool true)
  else if b =? 0xca then FFloat32
  else if b =? 0xcb then FFloat64
  else if b =? 0xcc then FUint 1 else if b =? 0xcd then FUint 2 else if b =? 0xce then FUint 4 else if b =? 0xcf then FUint 8
  else if b =? 0xd0 then FSint 1 else if b =? 0xd1 then FSint 2 else if b =? 0xd2 then FSint 4 else if b =? 0xd3 then FSint 8
  else if b =? 0xd9 then FStrLen 1 else if b =? 0xda then FStrLen 2 else if b =? 0xdb then FStrLen 4
  else if b =? 0xdc then FArrLen 2 else if b =? 0xdd then FArrLen 4
  else if b =? 0xde then FMapLen 2 else if b =? 0xdf then FMapLen 4
  else FBad.

Fixpoint value (fuel : nat) (s : bytes) (h : heap T) {struct fuel} : decoded :=
  match fuel with
  | O => None
  | S fuel =>
      match s with
      | [] => Some (Err missing)
      | b :: r =>
          let array (n : Z) (r : bytes) : decoded := array_loop (value fuel) (S (length r)) n 1 NewTable r h in
          let mp (n : Z) (r : bytes) : decoded := mp_loop (value fuel) (S (length r)) n 0 NewTable r h in
          match form_of (byte_val b) with
          | FConst v => ret v r h
          | FUint n => uint n r (fun u r => ret (LNumber (f64_of_Z u)) r h)
          | FSint n => uint n r (fun u r => ret (LNumber (f64_of_Z (sint n u))) r h)
          | FFloat32 => uint 4 r (fun u r => ret (LNumber (f64_of_f32 u)) r h)
          | FFloat64 => uint 8 r (fun u r => ret (LNumber u) r h)
          | FStr n => bytes_ n r h
          | FStrLen n => uint n r (fun m r => bytes_ m r h)
          | FArr n => array n r
          | FArrLen n => uint n r array
          | FMap n => mp n r
          | FMapLen n => uint n r mp
          | FBad => Some (Err bad_data)
          end
      end
  end.

(** Values up to the end of the input, or [limit] of them when it is not
    negative. *)
Fixpoint values (fuel : nat) (limit : Z) (s : bytes) (h : heap T) (acc : list LValue) : option (result (list LValue * bytes * heap T)) :=
  match s with
  | [] => Some (Ok (acc, [], h))
  | _ =>
      if (0 <=? limit) && (limit <=? len acc) then Some (Ok (acc, s, h))
      else match fuel with
      | O => None
      | S fuel =>
          match value (S (length s)) s h with
          | None => None
          | Some (Err e) => Some (Err e)
          | Some Panic => Some Panic
          | Some (Ok (v, r, h)) => values fuel limit r h (acc ++ [v])
          end
      end
  end.
Definition all_values (limit : Z) (s : bytes) (h : heap T) : option (result (list LValue * bytes * heap T)) := values (length s) limit s h [].

End decode.

(** ** The functions of the library *)

Definition hex_value (c : ascii) : option Z :=
  let b := byte_val c in
  if (48 <=? b) && (b <=? 57) then Some (b - 48)
  else if (97 <=? b) && (b <=? 102) then Some (b - 87)
  else if (65 <=? b) && (b <=? 70) then Some (b - 55)
  else None.
(** [strconv.ParseUint(s, 16, 64)] of a string that is not empty *)
Fixpoint parse_hex (acc : Z) (s : bytes) : option Z :=
  match s with
  | [] => if acc <? 2 ^ 64 then Some acc else None
  | c :: r => match hex_value c with Some d => parse_hex (acc * 16 + d) r | None => None end
  end.

Section lib.
Context {T : Type} `{LuaTable T} `{GoUnicode} `{GoFloat} `{GoFloatGP}.
Variable libCallPos : bytes.

Definition cmsgpackToNumber (s : bytes) : option Z :=
  match TrimSpace s with
  | [] => None
  | t => if (2 <? len t) && bytes_eqb (take 1 t) (lit "0") && (bytes_eqb (take 1 (drop 1 t)) (lit "x") || bytes_eqb (take 1 (drop 1 t)) (lit "X"))
         then option_map f64_of_Z (parse_hex 0 (drop 2 t)) else ParseFloat t
  end.

Definition cmsgpackStringArg (fname : string) (args : list LValue) (n : Z) : result bytes := structFmtArg libCallPos fname args n.

Definition cmsgpackIntArg (fname : string) (args : list LValue) (n def : Z) (required : bool) : result Z :=
  let absent (got : bytes) : result Z := if required then raise_arg libCallPos fname n (lit "number expected, got " ++ got) else Ok def in
  if len args <? n then absent (lit "no value")
  else match Get args n with
  | LNil => absent (lit "nil")
  | LNumber f => Ok (f64_to_i64 f)
  | LString s => match cmsgpackToNumber s with Some f => Ok (f64_to_i64 f) | None => raise_arg libCallPos fname n (lit "number expected, got string") end
  | v => raise_arg libCallPos fname n (lit "number expected, got " ++ type_name v)
  end.

(** A call pushes values into a heap or raises; [None]: out of fuel. *)
Definition called : Type := option (result (list LValue * heap T)).
Definition lift_arg {A : Type} (r : result A) (k : A -> called) : called :=
  match r with Ok a => k a | Err e => Some (Err e) | Panic => Some Panic end.
Definition lift_values (r : option (result (list LValue * bytes * heap T))) (k : list LValue -> bytes -> heap T -> called) : called :=
  match r with None => None | Some (Ok (vs, rest, h)) => k vs rest h | Some (Err e) => Some (Err e) | Some Panic => Some Panic end.

Definition cmsgpackPack (args : list LValue) (h : heap T) : called :=
  match args with
  | [] => Some (raise_arg libCallPos "pack" 0 (lit "MessagePack pack needs input."))
  | _ => Some (Ok ([LString (concat (map (cmsgpackEncode h cmsgpackMaxNesting) args))], h))
  end.

Definition cmsgpackDecodeAll (s : bytes) (off : Z) (h : heap T) : called :=
  if 0 <? off then Some (Ok ([LNumber (f64_of_Z off)], h)) else lift_values (all_values libCallPos (-1) s h) (fun vs _ h => Some (Ok (vs, h))).

Definition cmsgpackUnpack (args : list LValue) (h : heap T) : called :=
  lift_arg (cmsgpackStringArg "unpack" args 1) (fun s => lift_values (all_values libCallPos (-1) s h) (fun vs _ h => Some (Ok (vs, h)))).

Definition raise_request (off n : Z) : called :=
  Some (Err (EMsg (libErrorf libCallPos (lit "Invalid request to unpack with offset of " ++ FormatInt off ++ lit " and limit of " ++ FormatInt n ++ lit ".")))).
Definition raise_start (off n : Z) : called :=
  Some (Err (EMsg (libErrorf libCallPos (lit "Start offset " ++ FormatInt off ++ lit " greater than input length " ++ FormatInt n ++ lit ".")))).

(** The position after the values, -1 at the end, and the values. *)
Definition cmsgpackDecodeRange (s : bytes) (off limit : Z) (h : heap T) : called :=
  if off <? 0 then raise_request off (len s)
  else if len s <? off then raise_start off (len s)
  else lift_values (all_values libCallPos limit (drop (Z.to_nat off) s) h) (fun vs rest h =>
    let pos := len s - len rest in
    let next := if len s <=? pos then -1 else pos in
    Some (Ok (LNumber (f64_of_Z next) :: vs, h))).

Definition cmsgpackUnpackOne (args : list LValue) (h : heap T) : called :=
  lift_arg (cmsgpackStringArg "unpack_one" args 1) (fun s =>
  lift_arg (cmsgpackIntArg "unpack_one" args 2 0 false) (fun off => cmsgpackDecodeRange s off 1 h)).

Definition cmsgpackUnpackLimit (args : list LValue) (h : heap T) : called :=
  lift_arg (cmsgpackStringArg "unpack_limit" args 1) (fun s =>
  lift_arg (cmsgpackIntArg "unpack_limit" args 2 0 true) (fun limit =>
  lift_arg (cmsgpackIntArg "unpack_limit" args 3 0 false) (fun off =>
    if (off <? 0) || (limit <? 0) then raise_request off (len s)
    else if len s <? off then raise_start off (len s)
    else if limit =? 0 then cmsgpackDecodeAll s off h
    else cmsgpackDecodeRange s off limit h))).
End lib.
End luamsgpack.
