(* ===== verification/LuaMsgpackSpec.v ===== *)
(** * MessagePack: unpacking terminates and inverts packing

    Packed tables come back as fresh tables with the same contents, up to the
    identity of tables and the sign of zero. *)

From S2P Require Import Prelude GoLib GoFloatBits GoStrings Resp Hll LuaValue LuaStruct LuaMsgpack.
Open Scope Z_scope.
Open Scope gedis_scope.

Module msgpackspec.
Import luastruct luamsgpack.

(** ** Unpacking terminates *)

Section total.
Context {T : Type} `{LuaTable T}.
Variable pos : bytes.

(** The result of reading [s]: it is one, and what remains is shorter by
    [n] bytes at least. *)
Definition reads (n : nat) (s : bytes) (d : decoded (T := T)) : Prop :=
  exists res, d = Some res /\ forall v r h, res = Ok (v, r, h) -> (length r + n <= length s)%nat.

Lemma packed_ret (n : nat) (s r : bytes) (v : LValue) (h : heap T) : (length r + n <= length s)%nat -> reads n s (ret v r h).
Proof. intros Hl. eexists. split; [done|]. by intros ? ? ? [= <- <- <-]. Qed.
Lemma reads_err (n : nat) (s : bytes) (e : goerr) : reads n s (Some (Err e)).
Proof. eexists. by split. Qed.
Lemma reads_panic (n : nat) (s : bytes) : reads n s (Some Panic).
Proof. eexists. by split. Qed.
Lemma packed_weaken (n m : nat) (s s' : bytes) (d : decoded (T := T)) : reads n s d -> (length s + m <= length s' + n)%nat -> reads m s' d.
Proof. intros (res & -> & Hr) Hl. exists res. split; [done|]. intros v r h E. specialize (Hr v r h E). lia. Qed.

Lemma reads_uint (n : Z) (s : bytes) (k : Z -> bytes -> decoded (T := T)) : (forall u r, (length r <= length s)%nat -> reads 0 r (k u r)) -> reads 0 s (uint pos n s k).
Proof.
  intros Hk. unfold uint. destruct (len s <? n); [apply reads_err|]. eapply packed_weaken; [apply Hk|]; rewrite length_drop; lia.
Qed.

Section loops.
Variables (val : bytes -> heap T -> decoded (T := T)) (bound : nat).
Hypothesis val_reads : forall r h, (length r <= bound)%nat -> reads 1 r (val r h).

Lemma array_reads (fuel : nat) : forall (n i : Z) (t : T) (r : bytes) (h : heap T), (length r < fuel)%nat -> (length r <= bound)%nat -> reads 0 r (array_loop val fuel n i t r h).
Proof.
  induction fuel as [|fuel IH]; intros n i t r h Hf Hb; [lia|]. cbn [array_loop]. destruct (n <? i); [apply packed_ret; lia|].
  destruct (val_reads r h Hb) as (res & -> & Hr). destruct res as [[[v r'] h']|e|]; [|apply reads_err|apply reads_panic].
  specialize (Hr v r' h' eq_refl). eapply packed_weaken; [apply IH; lia|lia].
Qed.
Lemma mp_reads (fuel : nat) : forall (n i : Z) (t : T) (r : bytes) (h : heap T), (length r < fuel)%nat -> (length r <= bound)%nat -> reads 0 r (mp_loop val fuel n i t r h).
Proof.
  induction fuel as [|fuel IH]; intros n i t r h Hf Hb; [lia|]. cbn [mp_loop]. destruct (n <=? i); [apply packed_ret; lia|].
  destruct (val_reads r h Hb) as (res & -> & Hr). destruct res as [[[k r'] h']|e|]; [|apply reads_err|apply reads_panic]. specialize (Hr k r' h' eq_refl).
  destruct (val_reads r' h' ltac:(lia)) as (res & -> & Hr'). destruct res as [[[v r''] h'']|e|]; [|apply reads_err|apply reads_panic]. specialize (Hr' v r'' h'' eq_refl).
  eapply packed_weaken; [apply IH; lia|lia].
Qed.
End loops.

Lemma value_reads (fuel : nat) : forall (s : bytes) (h : heap T), (length s < fuel)%nat -> reads 1 s (value pos fuel s h).
Proof.
  induction fuel as [|fuel IH]; intros s h Hf; [lia|]. cbn [value]. destruct s as [|b r]; [apply reads_err|]. cbn [length] in Hf. cbv zeta.
  assert (forall d, reads 0 r d -> reads 1 (b :: r) d) as Hw by (intros d Hd; eapply packed_weaken; [exact Hd|cbn [length]; lia]).
  assert (forall n r', (length r' <= length r)%nat -> reads 0 r' (array_loop (value pos fuel) (S (length r')) n 1 NewTable r' h)) as Ha.
  { intros n r' Hr. apply (array_reads _ (length r)); [|lia|done]. intros; apply IH; lia. }
  assert (forall n r', (length r' <= length r)%nat -> reads 0 r' (mp_loop (value pos fuel) (S (length r')) n 0 NewTable r' h)) as Hm.
  { intros n r' Hr. apply (mp_reads _ (length r)); [|lia|done]. intros; apply IH; lia. }
  assert (forall n r', reads 0 r' (bytes_ pos n r' h)) as Hb.
  { intros n r'. unfold bytes_. destruct (len r' <? n); [apply reads_err|]. apply packed_ret. rewrite length_drop. lia. }
  apply Hw. destruct (form_of (byte_val b)); auto using reads_err; try (apply packed_ret; lia); apply reads_uint; intros; auto; apply packed_ret; lia.
Qed.

Lemma values_total (fuel : nat) (limit : Z) : forall (s : bytes) (h : heap T) (acc : list LValue), (length s <= fuel)%nat -> values pos fuel limit s h acc <> None.
Proof.
  induction fuel as [|fuel IH]; intros s h acc Hf; cbn [values]; (destruct s as [|b r]; [done|]); (destruct (_ && _); [done|]); [cbn in Hf; lia|].
  destruct (value_reads (S (length (b :: r))) (b :: r) h) as (res & -> & Hr); [lia|]. destruct res as [[[v r'] h']|e|]; [|done|done].
  specialize (Hr v r' h' eq_refl). apply IH. lia.
Qed.

(** Unpacking ends on every input: the fuel of the decoder and of its loops,
    the length of what they read, never decides a run. *)
Theorem unpack_terminates `{GoUnicode} `{GoFloat} `{GoFloatGP} (args : list LValue) (h : heap T) :
  cmsgpackUnpack pos args h <> None /\ cmsgpackUnpackOne pos args h <> None /\ cmsgpackUnpackLimit pos args h <> None.
Proof.
  assert (forall limit s h k, (forall vs r h, k vs r h <> None) -> lift_values (T := T) (all_values pos limit s h) k <> None) as Hv.
  { intros limit s h0 k Hk. unfold lift_values. pose proof (values_total (length s) limit s h0 [] ltac:(lia)) as Hn. unfold all_values. destruct (values _ _ _ _ _ _) as [[[[vs r] h1]|e|]|]; done. }
  assert (forall s off limit h, cmsgpackDecodeRange (T := T) pos s off limit h <> None) as Hr.
  { intros s off limit h0. unfold cmsgpackDecodeRange. destruct (off <? 0); [done|]. destruct (len s <? off); [done|]. by apply Hv. }
  unfold cmsgpackUnpack, cmsgpackUnpackOne, cmsgpackUnpackLimit, lift_arg. split_and!.
  - destruct (cmsgpackStringArg _ _ _ _); [by apply Hv|done|done].
  - destruct (cmsgpackStringArg _ _ _ _); [|done|done]. destruct (cmsgpackIntArg _ _ _ _ _ _); [apply Hr|done|done].
  - destruct (cmsgpackStringArg _ _ _ _); [|done|done]. destruct (cmsgpackIntArg _ _ _ _ _ _); [|done|done]. destruct (cmsgpackIntArg _ _ _ _ _ _) as [off| |]; [|done|done].
    destruct (_ || _); [done|]. destruct (_ <? off); [done|]. destruct (_ =? 0); [|apply Hr]. unfold cmsgpackDecodeAll. destruct (0 <? off); [done|by apply Hv].
Qed.
End total.

(** ** Scalars *)

Section scalars.
Context {T : Type} `{LuaTable T}.
Variable pos : bytes.

Lemma uint_be (n : nat) (x : Z) (r : bytes) (k : Z -> bytes -> decoded (T := T)) : uint pos (Z.of_nat n) (be_bytes n x ++ r) k = k (x mod 2 ^ (8 * Z.of_nat n)) r.
Proof.
  unfold uint. rewrite (proj2 (Z.ltb_ge _ _)) by (rewrite len_app; unfold len; rewrite be_bytes_length; lia). rewrite Nat2Z.id.
  rewrite take_app_length', drop_app_length' by (by rewrite be_bytes_length). by rewrite be_val_be_bytes.
Qed.

Lemma round_even_nonneg (n s : Z) : 0 <= n -> 0 <= round_even n s.
Proof. intros Hn. unfold round_even. assert (0 <= n / 2 ^ s) by (destruct (Z.lt_ge_cases s 0); [rewrite (Z.pow_neg_r 2 s), Z.div_0_r by lia; lia|apply Z.div_pos; [lia|apply Z.pow_pos_nonneg; lia]]). case_match; lia. Qed.
Lemma scaled_nonneg (n s : Z) : 0 <= n -> 0 <= scaled n s.
Proof. intros Hn. unfold scaled. destruct (s <=? 0); [|by apply round_even_nonneg]. apply Z.mul_nonneg_nonneg; [done|apply Z.pow_nonneg; lia]. Qed.

Lemma f32_range (f : Z) : is_u64 f -> IsNaN f = false -> 0 <= f32_of_f64 f < 2 ^ 32.
Proof.
  intros Hf Hn. destruct (f64_split f Hf) as (_ & _ & Hfr). unfold f32_of_f64. cbv zeta.
  match goal with |- context [_ + ?x] => assert (0 <= x <= 0x7f800000) end; [|destruct (f64_neg f); lia].
  unfold f64_finite. unfold IsNaN in Hn. destruct (f64_exp f =? 2047); cbn [negb andb] in *; [apply negb_false_iff in Hn; rewrite Hn; lia|].
  destruct (f64_sig f =? 0); [lia|]. assert (0 <= f64_sig f) as Hs by (unfold f64_sig; case_match; lia).
  split; [|lia]. apply Z.min_glb; [|lia]. apply Z.add_nonneg_nonneg; [|by apply scaled_nonneg]. apply Z.mul_nonneg_nonneg; lia.
Qed.

(** Equal as numbers, or the same bits. *)
Definition num_same (f g : Z) : Prop := f = g \/ f64_eqb f g = true.

Lemma integral_same (f : Z) : is_u64 f -> f64_finite f = true -> f64_integral f = true -> num_same f (f64_of_Z (f64_trunc f)).
Proof. intros Hf Hfin Hint. right. rewrite f64_eqb_sym. by apply f64_of_trunc_eqb. Qed.

Lemma form_small (i : Z) : 0 <= i <= 0x7f -> form_of i = FConst (LNumber (f64_of_Z i)).
Proof. intros Hi. unfold form_of. by rewrite (proj2 (Z.leb_le _ _)) by lia. Qed.
Lemma form_neg (i : Z) : -32 <= i < 0 -> form_of (i mod 256) = FConst (LNumber (f64_of_Z i)).
Proof.
  intros Hi. assert (i mod 256 = i + 256) as -> by (symmetry; apply (Z.mod_unique_pos _ _ (-1)); lia). unfold form_of.
  rewrite (proj2 (Z.leb_gt _ _)), (proj2 (Z.leb_le _ _)) by lia. do 3 f_equal. lia.
Qed.

Lemma value_uint (n : nat) (c i : Z) (fuel : nat) (r : bytes) (h : heap T) : 0 <= c < 256 -> form_of c = FUint (Z.of_nat n) -> 0 <= i < 2 ^ (8 * Z.of_nat n) ->
  value pos (S fuel) (byte_of c :: be_bytes n i ++ r) h = ret (LNumber (f64_of_Z i)) r h.
Proof. intros Hc Hform Hi. cbn [value]. rewrite byte_val_of_small, Hform by done. cbv zeta. rewrite uint_be. by rewrite Z.mod_small. Qed.
Lemma value_sint (n : nat) (c i x : Z) (fuel : nat) (r : bytes) (h : heap T) : 0 <= c < 256 -> form_of c = FSint (Z.of_nat n) -> (1 <= n)%nat ->
  x mod 2 ^ (8 * Z.of_nat n) = i mod 2 ^ (8 * Z.of_nat n) -> - 2 ^ (8 * Z.of_nat n - 1) <= i < 2 ^ (8 * Z.of_nat n - 1) ->
  value pos (S fuel) (byte_of c :: be_bytes n x ++ r) h = ret (LNumber (f64_of_Z i)) r h.
Proof.
  intros Hc Hform Hn Hx Hi. cbn [value]. rewrite byte_val_of_small, Hform by done. cbv zeta. rewrite uint_be, Hx. unfold sint. by rewrite extend_mod by lia.
Qed.

Lemma be_one (i : Z) : [byte_of i] = be_bytes 1 i.
Proof. cbn [be_bytes]. by rewrite Z.shiftr_0_r. Qed.

Lemma int_back (i : Z) (fuel : nat) (r : bytes) (h : heap T) : - 2 ^ 63 <= i < 2 ^ 63 ->
  value pos (S fuel) ((if (0 <=? i) && (i <=? 0x7f) then [byte_of i]
    else if (-32 <=? i) && (i <? 0) then [byte_of i]
    else if (0 <=? i) && (i <=? 0xff) then [byte_of 0xcc; byte_of i]
    else if (0 <=? i) && (i <=? 0xffff) then byte_of 0xcd :: be_bytes 2 i
    else if (0 <=? i) && (i <=? 0xffffffff) then byte_of 0xce :: be_bytes 4 i
    else if 0 <=? i then byte_of 0xcf :: be_bytes 8 i
    else if -128 <=? i then [byte_of 0xd0; byte_of i]
    else if -32768 <=? i then byte_of 0xd1 :: be_bytes 2 (i mod 2 ^ 16)
    else if -2147483648 <=? i then byte_of 0xd2 :: be_bytes 4 (u32 i)
    else byte_of 0xd3 :: be_bytes 8 (u64 i)) ++ r) h = ret (LNumber (f64_of_Z i)) r h.
Proof.
  intros Hi. destruct (Z.leb_spec 0 i) as [H0|H0]; cbn [andb].
  - destruct (Z.leb_spec i 0x7f). { cbn [app value]. by rewrite byte_val_of_small, form_small by lia. }
    rewrite (proj2 (Z.ltb_ge i 0)), andb_false_r by lia.
    destruct (Z.leb_spec i 0xff). { change ([byte_of 0xcc; byte_of i] ++ r) with (byte_of 0xcc :: [byte_of i] ++ r). rewrite be_one. apply (value_uint 1); [lia|done|cbn; lia]. }
    destruct (Z.leb_spec i 0xffff). { apply (value_uint 2); [lia|done|cbn; lia]. }
    destruct (Z.leb_spec i 0xffffffff). { apply (value_uint 4); [lia|done|cbn; lia]. }
    apply (value_uint 8); [lia|done|cbn; lia].
  - destruct (Z.leb_spec (-32) i); rewrite ?(proj2 (Z.ltb_lt i 0)) by lia; cbn [andb]. { cbn [app value]. by rewrite byte_val_of, form_neg by lia. }
    destruct (Z.leb_spec (-128) i). { change ([byte_of 0xd0; byte_of i] ++ r) with (byte_of 0xd0 :: [byte_of i] ++ r). rewrite be_one. apply (value_sint 1); [lia|done|lia|done|cbn; lia]. }
    destruct (Z.leb_spec (-32768) i). { apply (value_sint 2 _ i); [lia|done|lia|change (8 * Z.of_nat 2) with 16; apply Z.mod_mod; lia|cbn; lia]. }
    destruct (Z.leb_spec (-2147483648) i). { apply (value_sint 4 _ i); [lia|done|lia|change (8 * Z.of_nat 4) with 32; apply Z.mod_mod; lia|cbn; lia]. }
    apply (value_sint 8 _ i); [lia|done|lia|change (8 * Z.of_nat 8) with 64; apply Z.mod_mod; lia|cbn; lia].
Qed.

Lemma number_back (f : Z) (fuel : nat) (r : bytes) (h : heap T) : is_u64 f ->
  exists g, value pos (S fuel) (cmsgpackEncodeNumber f ++ r) h = ret (LNumber g) r h /\ num_same f g.
Proof.
  intros Hf. unfold cmsgpackEncodeNumber. cbv zeta.
  destruct (f64_finite f && f64_integral f && (- 2 ^ 63 <=? f64_trunc f) && (f64_trunc f <? 2 ^ 63)) eqn:E.
  - rewrite !andb_true_iff in E. destruct E as [[[Hfin Hint] H1] H2]. breflect. exists (f64_of_Z (f64_trunc f)). split; [by apply int_back|by apply integral_same].
  - clear E. destruct (f64_eqb (f64_of_f32 (f32_of_f64 f)) f) eqn:E.
    + exists (f64_of_f32 (f32_of_f64 f)). split; [|right; by rewrite f64_eqb_sym].
      assert (IsNaN f = false) as Hn by (unfold f64_eqb in E; destruct (IsNaN f); [by rewrite andb_false_r in E|done]).
      cbn [app value]. rewrite byte_val_of_small by lia. change (form_of 0xca) with FFloat32. cbv zeta. rewrite (uint_be 4), Z.mod_small; [done|]. by apply f32_range.
    + exists f. split; [|by left]. cbn [app value]. rewrite byte_val_of_small by lia. change (form_of 0xcb) with FFloat64. cbv zeta. rewrite (uint_be 8), Z.mod_small; [done|]. exact Hf.
Qed.

Lemma take_string (n : Z) (s r : bytes) (h : heap T) : n = len s -> bytes_ pos n (s ++ r) h = ret (LString s) r h.
Proof.
  intros ->. unfold bytes_. rewrite (proj2 (Z.ltb_ge _ _)) by (rewrite len_app; pose proof (len_nonneg r); lia).
  replace (Z.to_nat (len s)) with (length s) by (unfold len; lia). by rewrite take_app_length, drop_app_length.
Qed.

#[local] Instance form_eq_dec : EqDecision form.
Proof. solve_decision. Defined.

(** A prefix byte with a small number in it. *)
Lemma form_fix (base n m : Z) : (base = 0xa0 /\ 0 <= n <= 31) \/ ((base = 0x90 \/ base = 0x80) /\ 0 <= n <= 15) -> m = Z.lor base n ->
  0 <= m < 256 /\ form_of m = (if base =? 0xa0 then FStr n else if base =? 0x90 then FArr n else FMap n).
Proof.
  intros Hb ->.
  set (fixes := map (pair 0xa0) (map Z.of_nat (seq 0 32)) ++ map (pair 0x90) (map Z.of_nat (seq 0 16)) ++ map (pair 0x80) (map Z.of_nat (seq 0 16))).
  assert (Forall (fun p => 0 <= Z.lor p.1 p.2 < 256 /\ form_of (Z.lor p.1 p.2) = (if p.1 =? 0xa0 then FStr p.2 else if p.1 =? 0x90 then FArr p.2 else FMap p.2)) fixes) as Hall.
  { apply (bool_decide_unpack _). vm_compute. exact I. }
  rewrite Forall_forall in Hall. apply (Hall (base, n)). assert (forall k : nat, 0 <= n < Z.of_nat k -> n ∈ map Z.of_nat (seq 0 k)) as Hin.
  { intros k Hk. apply list_elem_of_In, in_map_iff. exists (Z.to_nat n). split; [lia|]. apply in_seq. lia. }
  unfold fixes. rewrite !elem_of_app. destruct Hb as [[-> Hn]|[[->| ->] Hn]]; [left|right; left|right; right]; apply list_elem_of_In, in_map_iff; exists n; (split; [done|]); apply list_elem_of_In, Hin; lia.
Qed.

Lemma string_back (s : bytes) (fuel : nat) (r : bytes) (h : heap T) : len s < 2 ^ 32 -> value pos (S fuel) (cmsgpackEncodeString s ++ r) h = ret (LString s) r h.
Proof.
  intros Hs. pose proof (len_nonneg s). unfold cmsgpackEncodeString. cbv zeta.
  assert (forall (k : nat) c, 0 <= c < 256 -> form_of c = FStrLen (Z.of_nat k) -> len s < 2 ^ (8 * Z.of_nat k) -> value pos (S fuel) (byte_of c :: be_bytes k (len s) ++ s ++ r) h = ret (LString s) r h) as Hlen.
  { intros k c Hc Hform Hk. cbn [value]. rewrite byte_val_of_small, Hform by done. cbv zeta. rewrite uint_be, Z.mod_small by lia. by apply take_string. }
  destruct (Z.leb_spec (len s) 31). { cbn [app value]. destruct (form_fix 0xa0 (len s) _ ltac:(lia) eq_refl) as [Hr Hform]. rewrite byte_val_of_small, Hform by done. cbv zeta. by apply take_string. }
  destruct (Z.leb_spec (len s) 0xff). { cbn [app]. change (byte_of (len s) :: s ++ r) with ([byte_of (len s)] ++ s ++ r). rewrite be_one. apply (Hlen 1%nat); [lia|done|cbn; lia]. }
  destruct (Z.leb_spec (len s) 0xffff); cbn [app]; rewrite <- app_assoc. { apply (Hlen 2%nat); [lia|done|cbn; lia]. }
  unfold u32. rewrite Z.mod_small by lia. apply (Hlen 4%nat); [lia|done|cbn; lia].
Qed.
End scalars.

(** ** Tables *)

Section roundtrip.
Context {T : Type} `{LuaTableLaws T}.
Variable pos : bytes.
Variable h : heap T.

(** Values of nesting [n] at most that MessagePack can express: no cycle, plain
    keys, lengths below 2^32. *)
Fixpoint expressible (n : nat) (v : LValue) : Prop :=
  match v with
  | LNil | LBool _ => True
  | LNumber f => is_u64 f
  | LString s => len s < 2 ^ 32
  | LTable a => match n with
                | O => False
                | S n => len (ForEach (table_at h a)) < 2 ^ 32 /\
                         forall k x, (k, x) ∈ ForEach (table_at h a) -> plain_key k /\ expressible n k /\ expressible n x
                end
  | _ => False
  end.

(** The same value in two heaps: tables by their contents. *)
Fixpoint same (n : nat) (h' : heap T) (v v' : LValue) : Prop :=
  match v, v' with
  | LNil, LNil => True
  | LBool b, LBool b' => b = b'
  | LNumber f, LNumber g => num_same f g
  | LString s, LString s' => s = s'
  | LUserData u, LUserData u' => u = u'
  | LTable a, LTable a' =>
      match n with
      | O => False
      | S n => is_Some (tables h' !! a') /\ forall k, plain_key k -> same n h' (RawGet (table_at h a) k) (RawGet (table_at h' a') k)
      end
  | _, _ => False
  end.

Definition heap_ok (h1 : heap T) : Prop := forall a, is_Some (tables h1 !! a) -> (a < next_addr h1)%positive.
Definition grows (h1 h2 : heap T) : Prop := tables h1 ⊆ tables h2 /\ heap_ok h2.

Lemma same_grows (n : nat) : forall (h1 h2 : heap T) (v v' : LValue), tables h1 ⊆ tables h2 -> same n h1 v v' -> same n h2 v v'.
Proof.
  induction n as [|n IH]; intros h1 h2 v v' Hg; destruct v, v'; cbn [same]; try done. intros [[t' Ht] Hk].
  pose proof (lookup_weaken _ _ _ _ Ht Hg) as Ht2. split; [by exists t'|]. intros k Hp. specialize (Hk k Hp). unfold table_at in *. rewrite Ht in Hk. rewrite Ht2. by apply (IH h1).
Qed.

Lemma get_cong (t : T) (k k' : LValue) : plain_key k -> plain_key k' -> key_eqb k k' = true -> RawGet t k = RawGet t k'.
Proof.
  intros Hk Hk' E. destruct (decide (RawGet t k = LNil)) as [E1|E1].
  - destruct (decide (RawGet t k' = LNil)) as [E2|E2]; [congruence|]. exfalso. apply E2. rewrite <- E1. symmetry.
    destruct (proj1 (each_get t k' (RawGet t k') Hk' E2) eq_refl) as (k0 & E0 & Hin). apply (each_get t k _ Hk E2). exists k0. split; [|done].
    apply (key_eqb_trans _ k'); [done|]. by rewrite key_eqb_sym.
  - symmetry. destruct (proj1 (each_get t k (RawGet t k) Hk E1) eq_refl) as (k0 & E0 & Hin). apply (each_get t k' _ Hk' E1). exists k0. split; [|done]. by apply (key_eqb_trans _ k).
Qed.

(** A table filled by setting every key of [t] once or more, each to a value
    that is the same, is the same as [t]. *)
Definition fill (l : list (LValue * LValue)) : T := foldl (fun t p => RawSet t p.1 p.2) NewTable l.

Lemma fill_same (n : nat) (h' : heap T) (t : T) (l : list (LValue * LValue)) :
  (forall k v, (k, v) ∈ l -> plain_key k /\ same n h' (RawGet t k) v) ->
  (forall k, plain_key k -> RawGet t k <> LNil -> exists p, p ∈ l /\ key_eqb p.1 k = true) ->
  forall k, plain_key k -> same n h' (RawGet t k) (RawGet (fill l) k).
Proof.
  intros Hl Hcover k Hk. unfold fill.
  assert (forall l0, (forall p, p ∈ l0 -> p ∈ l) -> (exists p, p ∈ l0 /\ key_eqb p.1 k = true) \/ RawGet (foldl (fun t p => RawSet t p.1 p.2) NewTable l0) k = LNil) as Hnone.
  { intros l0 Hsub. induction l0 as [|p l0 IH] using rev_ind; [right; apply get_new|]. rewrite foldl_snoc.
    destruct (Hl p.1 p.2 ltac:(rewrite <- surjective_pairing; apply Hsub, elem_of_app; right; by left)) as [Hp _]. rewrite get_set by done.
    destruct (key_eqb p.1 k) eqn:E; [left; exists p; split; [apply elem_of_app; right; by left|done]|].
    destruct IH as [(q & Hq & Eq)|IH]; [intros q Hq; apply Hsub, elem_of_app; by left|left; exists q; split; [apply elem_of_app; by left|done]|by right]. }
  assert (forall l0, (forall p, p ∈ l0 -> p ∈ l) -> (exists p, p ∈ l0 /\ key_eqb p.1 k = true) -> same n h' (RawGet t k) (RawGet (foldl (fun t p => RawSet t p.1 p.2) NewTable l0) k)) as Hsome.
  { intros l0 Hsub. induction l0 as [|p l0 IH] using rev_ind; [by intros (p & Hp%elem_of_nil & _)|]. intros (q & Hq & Eq). rewrite foldl_snoc.
    assert (p ∈ l) as Hpl by (apply Hsub, elem_of_app; right; by left). destruct (Hl p.1 p.2 ltac:(by rewrite <- surjective_pairing)) as [Hp Hs]. rewrite get_set by done.
    destruct (key_eqb p.1 k) eqn:E; [by rewrite (get_cong t k p.1) by (done || by rewrite key_eqb_sym)|]. apply IH; [intros x Hx; apply Hsub, elem_of_app; by left|].
    exists q. split; [|done]. apply elem_of_app in Hq as [Hq|Hq]; [done|]. apply list_elem_of_singleton in Hq as ->. congruence. }
  destruct (Hnone l (fun p Hp => Hp)) as [Hex|Hnil]; [by apply Hsome|]. rewrite Hnil. destruct (decide (RawGet t k = LNil)) as [->|Hne]; [by destruct n|].
  rewrite <- Hnil. by apply Hsome, Hcover.
Qed.

(** Reading the encoding [e] of [x] gives the same value in a larger heap. *)
Definition decodes (n : nat) (x : LValue) (e : bytes) : Prop := forall (fuel : nat) (r : bytes) (h1 : heap T),
  (length (e ++ r) < fuel)%nat -> heap_ok h1 -> exists x' h2, value pos fuel (e ++ r) h1 = ret x' r h2 /\ same n h2 x x' /\ grows h1 h2.

Lemma grows_refl (h1 : heap T) : heap_ok h1 -> grows h1 h1.
Proof. by split. Qed.
Lemma grows_trans (h1 h2 h3 : heap T) : grows h1 h2 -> grows h2 h3 -> grows h1 h3.
Proof. intros [E1 _] [E2 Hok]. split; [by etransitivity|done]. Qed.

Lemma alloc_grows (h1 : heap T) (t : T) : heap_ok h1 -> exists a h2, alloc h1 t = (LTable a, h2) /\ tables h2 !! a = Some t /\ grows h1 h2.
Proof.
  intros Hok. do 2 eexists. split; [done|]. cbn [tables]. split; [apply lookup_insert_eq|]. split; cbn [tables next_addr].
  - apply insert_subseteq. destruct (tables h1 !! next_addr h1) as [t0|] eqn:E; [|done]. specialize (Hok (next_addr h1) ltac:(by exists t0)). lia.
  - intros a [t0 Ha]. cbn [tables next_addr] in *. destruct (decide (a = next_addr h1)) as [->|Hne]; [lia|]. rewrite lookup_insert_ne in Ha by done. specialize (Hok a ltac:(by exists t0)). lia.
Qed.

Section loops.
Variables (n : nat) (enc : LValue -> bytes).

Lemma array_back (xs : list LValue) : (forall x, x ∈ xs -> decodes n x (enc x)) -> forall (i : Z) (l0 : list (LValue * LValue)) (lf fuel : nat) (r : bytes) (h1 : heap T),
  heap_ok h1 -> (length xs < lf)%nat -> (length (concat (map enc xs) ++ r) < fuel)%nat ->
  exists vs a h2, array_loop (value pos fuel) lf (i + len xs - 1) i (fill l0) (concat (map enc xs) ++ r) h1 = ret (LTable a) r h2 /\ grows h1 h2 /\
    Forall2 (same n h2) xs vs /\ tables h2 !! a = Some (fill (l0 ++ zip (map (fun j => LNumber (f64_of_Z (i + Z.of_nat j))) (seq 0 (length xs))) vs)).
Proof.
  induction xs as [|x xs IH]; intros Hdec i l0 lf fuel r h1 Hok Hlf Hfuel; (destruct lf as [|lf]; [lia|]); cbn [array_loop map concat app length seq] in *.
  - replace (i + len (@nil LValue) - 1) with (i - 1) by (unfold len; cbn; lia). rewrite (proj2 (Z.ltb_lt _ _)) by lia. destruct (alloc_grows h1 (fill l0) Hok) as (a & h2 & -> & Ha & Hg).
    exists [], a, h2. split_and!; [done|done|constructor|]. cbn [zip zip_with]. by rewrite app_nil_r.
  - rewrite (proj2 (Z.ltb_ge _ _)) by (unfold len; cbn [length]; lia). rewrite <- app_assoc in Hfuel |- *.
    destruct (Hdec x ltac:(by left) fuel (concat (map enc xs) ++ r) h1 Hfuel Hok) as (x' & h2 & -> & Hs & Hg). unfold ret at 1.
    replace (RawSetInt (fill l0) i x') with (fill (l0 ++ [(LNumber (f64_of_Z i), x')])) by (unfold fill; by rewrite foldl_snoc).
    rewrite length_app in Hfuel. replace (i + len (x :: xs) - 1) with (i + 1 + len xs - 1) by (unfold len; cbn [length]; lia).
    destruct (IH (fun y Hy => Hdec y ltac:(by right)) (i + 1) (l0 ++ [(LNumber (f64_of_Z i), x')]) lf fuel r h2 (proj2 Hg) ltac:(lia) ltac:(lia)) as (vs & a & h3 & -> & Hg2 & Hvs & Ha).
    exists (x' :: vs), a, h3. split_and!; [done|by eapply grows_trans|constructor; [eapply same_grows; [apply Hg2|done]|done]|]. rewrite Ha. do 2 f_equal. rewrite <- app_assoc. cbn [app zip zip_with]. f_equal.
    rewrite Z.add_0_r. f_equal. f_equal. rewrite <- seq_shift, map_map. apply map_ext. intros j. do 2 f_equal. lia.
Qed.

Lemma mp_back (ps : list (LValue * LValue)) : (forall k x, (k, x) ∈ ps -> decodes n k (enc k) /\ decodes n x (enc x)) ->
  forall (i : Z) (l0 : list (LValue * LValue)) (lf fuel : nat) (r : bytes) (h1 : heap T),
  heap_ok h1 -> (length ps < lf)%nat -> (length (concat (map (fun p => enc p.1 ++ enc p.2) ps) ++ r) < fuel)%nat ->
  exists l a h2, mp_loop (value pos fuel) lf (i + len ps) i (fill l0) (concat (map (fun p => enc p.1 ++ enc p.2) ps) ++ r) h1 = ret (LTable a) r h2 /\ grows h1 h2 /\
    Forall2 (fun p q => same n h2 p.1 q.1 /\ same n h2 p.2 q.2) ps l /\ tables h2 !! a = Some (fill (l0 ++ l)).
Proof.
  induction ps as [|[k x] ps IH]; intros Hdec i l0 lf fuel r h1 Hok Hlf Hfuel; (destruct lf as [|lf]; [lia|]); cbn [mp_loop map concat app length fst snd] in *.
  - rewrite (proj2 (Z.leb_le _ _)) by (unfold len; cbn; lia). destruct (alloc_grows h1 (fill l0) Hok) as (a & h2 & -> & Ha & Hg).
    exists [], a, h2. split_and!; [done|done|constructor|]. by rewrite app_nil_r.
  - rewrite (proj2 (Z.leb_gt _ _)) by (unfold len; cbn [length]; lia). rewrite <- !app_assoc in Hfuel |- *. destruct (Hdec k x ltac:(by left)) as [Hk Hx].
    destruct (Hk fuel (enc x ++ concat (map (fun p => enc p.1 ++ enc p.2) ps) ++ r) h1 Hfuel Hok) as (k' & h2 & -> & Hsk & Hg). unfold ret at 1. rewrite length_app in Hfuel.
    destruct (Hx fuel (concat (map (fun p => enc p.1 ++ enc p.2) ps) ++ r) h2 ltac:(lia) (proj2 Hg)) as (x' & h3 & -> & Hsx & Hg2). unfold ret at 1. rewrite length_app in Hfuel.
    replace (RawSet (fill l0) k' x') with (fill (l0 ++ [(k', x')])) by (unfold fill; by rewrite foldl_snoc).
    replace (i + len ((k, x) :: ps)) with (i + 1 + len ps) by (unfold len; cbn [length]; lia).
    destruct (IH (fun k0 y Hy => Hdec k0 y ltac:(by right)) (i + 1) (l0 ++ [(k', x')]) lf fuel r h3 (proj2 Hg2) ltac:(lia) ltac:(lia)) as (l & a & h4 & -> & Hg3 & Hl & Ha).
    exists ((k', x') :: l), a, h4. split_and!; [done|by eapply grows_trans, grows_trans|constructor; [|done]|by rewrite Ha, <- app_assoc].
    cbn [fst snd]. split; [eapply same_grows, same_grows, Hsk; [apply Hg3|apply Hg2]|eapply same_grows, Hsx; apply Hg3].
Qed.
End loops.

(** The length before the elements. *)
Lemma array_len (k : Z) (fuel : nat) (r : bytes) (h1 : heap T) : 0 <= k < 2 ^ 32 ->
  value pos (S fuel) (cmsgpackEncodeLen 0x90 0xdc 0xdd k ++ r) h1 = array_loop (value pos fuel) (S (length r)) k 1 NewTable r h1.
Proof.
  intros Hk. unfold cmsgpackEncodeLen. destruct (Z.leb_spec k 15).
  - cbn [app value]. destruct (form_fix 0x90 k _ ltac:(lia) eq_refl) as [Hr Hform]. by rewrite byte_val_of_small, Hform by done.
  - destruct (Z.leb_spec k 0xffff); cbn [app value]; rewrite byte_val_of_small by lia; [change (form_of 0xdc) with (FArrLen 2)|change (form_of 0xdd) with (FArrLen 4)]; cbv zeta iota beta.
    + rewrite (uint_be pos 2). change (8 * Z.of_nat 2) with 16. by rewrite Z.mod_small by lia.
    + rewrite (uint_be pos 4). change (8 * Z.of_nat 4) with 32. unfold u32. rewrite Z.mod_mod by lia. by rewrite Z.mod_small by lia.
Qed.
Lemma map_len_bytes (k : Z) (fuel : nat) (r : bytes) (h1 : heap T) : 0 <= k < 2 ^ 32 ->
  value pos (S fuel) (cmsgpackEncodeLen 0x80 0xde 0xdf k ++ r) h1 = mp_loop (value pos fuel) (S (length r)) k 0 NewTable r h1.
Proof.
  intros Hk. unfold cmsgpackEncodeLen. destruct (Z.leb_spec k 15).
  - cbn [app value]. destruct (form_fix 0x80 k _ ltac:(lia) eq_refl) as [Hr Hform]. by rewrite byte_val_of_small, Hform by done.
  - destruct (Z.leb_spec k 0xffff); cbn [app value]; rewrite byte_val_of_small by lia; [change (form_of 0xde) with (FMapLen 2)|change (form_of 0xdf) with (FMapLen 4)]; cbv zeta iota beta.
    + rewrite (uint_be pos 2). change (8 * Z.of_nat 2) with 16. by rewrite Z.mod_small by lia.
    + rewrite (uint_be pos 4). change (8 * Z.of_nat 4) with 32. unfold u32. rewrite Z.mod_mod by lia. by rewrite Z.mod_small by lia.
Qed.

(** What the first traversal finds out. *)
Lemma survey_spec (ps : list (LValue * LValue)) : forall (pairs an : Z) (array : bool) (mx : Z), survey ps = (pairs, an, array, mx) ->
  pairs = len ps /\ (array = true -> an = len ps /\ forall p, p ∈ ps -> exists i, is_index p.1 = Some i /\ i <= mx).
Proof.
  unfold survey. induction ps as [|p ps IH] using rev_ind; intros pairs an array mx.
  - intros [= <- <- <- <-]. split; [done|]. intros _. split; [done|]. by intros p Hp%elem_of_nil.
  - rewrite foldl_snoc. destruct (foldl _ _ ps) as [[[pairs0 an0] array0] mx0]. destruct (IH _ _ _ _ eq_refl) as [Hp Ha]. rewrite len_app. change (len [p]) with 1.
    destruct (is_index p.1) as [i|] eqn:Ei; intros [= <- <- <- <-]; (split; [lia|]); [|done]. intros ->. destruct (Ha eq_refl) as [Han Hall]. split; [lia|]. intros q Hq.
    apply elem_of_app in Hq as [Hq|Hq]; [destruct (Hall q Hq) as (j & Ej & Hj); exists j; split; [done|]; destruct (mx0 <? i) eqn:?; breflect; lia|].
    apply list_elem_of_singleton in Hq as ->. exists i. split; [done|]. destruct (mx0 <? i) eqn:?; breflect; lia.
Qed.

Lemma encode_nonempty (n : nat) (v : LValue) : (0 < length (cmsgpackEncode h n v))%nat.
Proof.
  assert (forall a b c k (l : bytes), (0 < length (cmsgpackEncodeLen a b c k ++ l))%nat) as Hl by (intros; unfold cmsgpackEncodeLen; repeat case_match; cbn; lia).
  destruct n, v; cbn [cmsgpackEncode]; try (cbn; lia); try (unfold cmsgpackEncodeNumber; repeat case_match; cbn; lia); try (unfold cmsgpackEncodeString; repeat case_match; cbn; lia).
  unfold cmsgpackEncodeTable. destruct (survey _) as [[[? ?] ?] ?]. case_match; apply Hl.
Qed.

(** A plain key comes back equal. *)
Lemma num_key (f g : Z) : IsNaN f = false -> num_same f g -> IsNaN g = false /\ f64_eqb f g = true.
Proof.
  intros Hf [<-|E]; [split; [done|]; unfold f64_eqb; by rewrite Hf, Z.eqb_refl|]. split; [|done]. unfold f64_eqb in E. rewrite Hf in E. cbn [negb andb] in E. by destruct (IsNaN g).
Qed.
Lemma same_key (n : nat) (h' : heap T) (k k' : LValue) : plain_key k -> same n h' k k' -> plain_key k' /\ key_eqb k k' = true.
Proof.
  destruct n, k, k'; cbn [same plain_key key_eqb]; try done; intros Hk; solve [by apply num_key|intros ->; split; [done|by apply bool_decide_eq_true_2]].
Qed.

Lemma index_key (k : LValue) (i : Z) (n : nat) : expressible n k -> is_index k = Some i -> key_eqb (LNumber (f64_of_Z i)) k = true /\ 1 <= i /\ plain_key (LNumber (f64_of_Z i)).
Proof.
  intros Hk. unfold is_index. destruct k as [| |f| | | |]; try done. assert (is_u64 f) as Hf by (by destruct n). destruct (f64_integral f && (1 <=? f64_to_i64 f)) eqn:E; [|done]. intros [= <-].
  apply andb_true_iff in E as [Hint Hge]. breflect. unfold f64_to_i64 in *. cbv zeta in *. destruct (f64_finite f) eqn:Hfin; [|lia].
  destruct ((- 2 ^ 63 <=? f64_trunc f) && (f64_trunc f <? 2 ^ 63)) eqn:Hr; [|lia]. cbn [key_eqb plain_key].
  pose proof (f64_of_trunc_eqb f Hf Hfin Hint) as E. split_and!; [done|done|]. unfold f64_eqb in E. destruct (IsNaN (f64_of_Z (f64_trunc f))); [done|done].
Qed.

(** Small integers are numbers. *)
Lemma int_plain (i : Z) : 0 < i < 2 ^ 32 -> plain_key (LNumber (f64_of_Z i)).
Proof. intros Hi. cbn [plain_key]. apply of_Z_num. lia. Qed.

Lemma get_expressible (n : nat) (t : T) (k : LValue) : plain_key k -> (forall k x, (k, x) ∈ ForEach t -> expressible n x) -> expressible n (RawGet t k).
Proof.
  intros Hk Hall. destruct (decide (RawGet t k = LNil)) as [->|Hne]; [by destruct n|]. destruct (proj1 (each_get t k _ Hk Hne) eq_refl) as (k0 & _ & Hin). by apply (Hall k0).
Qed.

(** The value read for a table whose contents are the same. *)
Lemma same_table (n : nat) (h2 : heap T) (a a' : positive) (t' : T) : tables h2 !! a' = Some t' ->
  (forall k, plain_key k -> same n h2 (RawGet (table_at h a) k) (RawGet t' k)) -> same (S n) h2 (LTable a) (LTable a').
Proof. intros Ha Hs. cbn [same]. split; [by exists t'|]. intros k Hk. unfold table_at at 2. rewrite Ha. by apply Hs. Qed.

Lemma array_decodes (n : nat) (a : positive) (pairs an mx : Z) : (forall v, expressible n v -> decodes n v (cmsgpackEncode h n v)) -> expressible (S n) (LTable a) ->
  survey (ForEach (table_at h a)) = (pairs, an, true, mx) -> an = 0 \/ mx = an ->
  decodes (S n) (LTable a) (cmsgpackEncodeLen 0x90 0xdc 0xdd an ++ concat (map (fun i => cmsgpackEncode h n (RawGetInt (table_at h a) (Z.of_nat i))) (seq 1 (Z.to_nat an)))).
Proof.
  intros IH [Hlen Hall] Hs Hmx fuel r h1 Hf Hok. destruct (survey_spec _ _ _ _ _ Hs) as [_ Ha]. destruct (Ha eq_refl) as [Han Hidx]. clear Ha.
  pose proof (len_nonneg (ForEach (table_at h a))). destruct fuel as [|fuel]; [lia|]. rewrite <- app_assoc, array_len by lia.
  set (xs := map (fun i => RawGetInt (table_at h a) (Z.of_nat i)) (seq 1 (Z.to_nat an))).
  replace (map (fun i => cmsgpackEncode h n (RawGetInt (table_at h a) (Z.of_nat i))) (seq 1 (Z.to_nat an))) with (map (cmsgpackEncode h n) xs) in * by (unfold xs; by rewrite map_map).
  assert (length xs = Z.to_nat an) as Hxl by (unfold xs; by rewrite length_map, length_seq).
  assert (forall x, x ∈ xs -> decodes n x (cmsgpackEncode h n x)) as Hdec.
  { intros x Hx. apply IH. apply list_elem_of_In, in_map_iff in Hx as (i & <- & Hi). apply in_seq in Hi. apply get_expressible; [apply int_plain; lia|]. intros k y Hy. by apply (Hall k y). }
  pose proof (concat_map_length (cmsgpackEncode h n) xs (encode_nonempty n)) as Hcl. rewrite !length_app in Hf.
  assert (0 < length (cmsgpackEncodeLen 144 220 221 an))%nat as Hhd by (unfold cmsgpackEncodeLen; repeat case_match; cbn; lia).
  destruct (array_back n (cmsgpackEncode h n) xs Hdec 1 [] (S (length (concat (map (cmsgpackEncode h n) xs) ++ r))) fuel r h1 Hok) as (vs & a' & h2 & E & Hg & Hvs & Ht); [rewrite length_app; lia|rewrite length_app; lia|].
  replace (1 + len xs - 1) with an in E by (unfold len; lia). change (fill []) with (NewTable (T := T)) in E. rewrite E.
  exists (LTable a'), h2. split_and!; [done| |done]. apply (same_table n h2 a a' _ Ht). cbn [app]. rewrite Hxl.
  assert (forall j x v, xs !! j = Some x -> vs !! j = Some v -> same n h2 x v) as Hjv by (intros j x v Hx Hv; by apply (Forall2_lookup_lr _ _ _ _ _ _ Hvs Hx Hv)).
  apply fill_same.
  - intros k v Hin. apply list_elem_of_lookup in Hin as [j Hj]. apply lookup_zip_with_Some in Hj as (k0 & v0 & [= <- <-] & Hk & Hv). rewrite list_lookup_fmap in Hk. apply fmap_Some in Hk as (j0 & Hj0 & ->).
    apply lookup_seq in Hj0 as [-> Hjl]. split; [apply int_plain; lia|]. apply (Hjv j); [|done]. unfold xs. rewrite list_lookup_fmap, lookup_seq_lt by lia. cbn. unfold RawGetInt. by replace (Z.of_nat (S j)) with (1 + Z.of_nat j) by lia.
  - intros k Hk Hne. destruct (proj1 (each_get _ k _ Hk Hne) eq_refl) as (k0 & E0 & Hin). destruct (Hidx _ Hin) as (i & Ei & Hi). cbn [fst] in Ei.
    destruct (index_key k0 i n ltac:(by apply (Hall k0 _ Hin)) Ei) as (Ek & Hi1 & _). assert (i <= an) as Hle by (destruct Hmx as [->|<-]; [|done]; destruct (ForEach (table_at h a)); [by apply elem_of_nil in Hin|unfold len in Han; cbn in Han; lia]).
    assert (length vs = Z.to_nat an) as Hvl by (by rewrite <- Hxl, (Forall2_length _ _ _ Hvs)). destruct (lookup_lt_is_Some_2 vs (Z.to_nat (i - 1)) ltac:(lia)) as [v Hv].
    exists (LNumber (f64_of_Z i), v). split; [|by apply (key_eqb_trans _ k0)]. apply list_elem_of_lookup. exists (Z.to_nat (i - 1)). apply lookup_zip_with_Some. do 2 eexists. split_and!; [done| |done].
    rewrite list_lookup_fmap, lookup_seq_lt by lia. cbn. do 3 f_equal. lia.
Qed.

Lemma map_decodes (n : nat) (a : positive) : (forall v, expressible n v -> decodes n v (cmsgpackEncode h n v)) -> expressible (S n) (LTable a) ->
  decodes (S n) (LTable a) (cmsgpackEncodeLen 0x80 0xde 0xdf (len (ForEach (table_at h a))) ++
    concat (map (fun p => cmsgpackEncode h n p.1 ++ cmsgpackEncode h n p.2) (ForEach (table_at h a)))).
Proof.
  intros IH [Hlen Hall] fuel r h1 Hf Hok. set (ps := ForEach (table_at h a)) in *. pose proof (len_nonneg ps). destruct fuel as [|fuel]; [lia|]. rewrite <- app_assoc, map_len_bytes by lia.
  pose proof (concat_map_length (fun p => cmsgpackEncode h n p.1 ++ cmsgpackEncode h n p.2) ps ltac:(intros p; cbv beta; rewrite length_app; pose proof (encode_nonempty n p.1); lia)) as Hcl.
  rewrite !length_app in Hf. assert (0 < length (cmsgpackEncodeLen 128 222 223 (len ps)))%nat as Hhd by (unfold cmsgpackEncodeLen; repeat case_match; cbn; lia).
  destruct (mp_back n (cmsgpackEncode h n) ps ltac:(intros k x Hin; destruct (Hall k x Hin) as (_ & ? & ?); split; by apply IH) 0 []
    (S (length (concat (map (fun p => cmsgpackEncode h n p.1 ++ cmsgpackEncode h n p.2) ps) ++ r))) fuel r h1 Hok) as (l & a' & h2 & E & Hg & Hl & Ht); [rewrite length_app; lia|rewrite length_app; lia|].
  rewrite Z.add_0_l in E. change (fill []) with (NewTable (T := T)) in E. rewrite E. clear E.
  exists (LTable a'), h2. split_and!; [done| |done]. apply (same_table n h2 a a' _ Ht). cbn [app]. apply fill_same.
  - intros k v Hin. apply list_elem_of_lookup in Hin as [j Hj]. destruct (Forall2_lookup_r _ _ _ _ _ Hl Hj) as ([k0 x] & Hp & Hsk & Hsx). cbn [fst snd] in *.
    apply list_elem_of_lookup_2 in Hp. destruct (Hall k0 x Hp) as (Hk0 & _ & _). destruct (same_key n h2 k0 k Hk0 Hsk) as [Hk E]. split; [done|].
    assert (RawGet (table_at h a) k = x) as ->; [|done]. apply (each_get _ k x Hk (each_value _ k0 x Hp)). by exists k0.
  - intros k Hk Hne. destruct (proj1 (each_get _ k _ Hk Hne) eq_refl) as (k0 & E0 & Hin). fold ps in Hin. apply list_elem_of_lookup in Hin as [j Hj].
    destruct (Forall2_lookup_l _ _ _ _ _ Hl Hj) as ([k' v] & Hq & Hsk & _). cbn [fst] in Hsk. exists (k', v). split; [by apply list_elem_of_lookup_2 in Hq|]. cbn [fst].
    apply list_elem_of_lookup_2 in Hj. destruct (Hall _ _ Hj) as (Hk0 & _ & _). destruct (same_key n h2 k0 k' Hk0 Hsk) as [_ E]. apply (key_eqb_trans _ k0); [by rewrite key_eqb_sym|done].
Qed.

Lemma encode_decodes (n : nat) : forall v : LValue, expressible n v -> decodes n v (cmsgpackEncode h n v).
Proof.
  assert (forall n v, (match v with LTable _ => False | _ => True end) -> expressible n v -> decodes n v (cmsgpackEncode h n v)) as Hscalar.
  { intros m v Hv He fuel r h1 Hf Hok. destruct fuel as [|fuel]; [lia|]. pose proof (grows_refl h1 Hok) as Hg.
    assert (exists x, value pos (S fuel) (cmsgpackEncode h m v ++ r) h1 = ret x r h1 /\ same m h1 v x) as (x & E & Hs); [|by exists x, h1].
    destruct m, v; try done; cbn [cmsgpackEncode expressible same] in *;
      try (by eexists; split; [cbn [app value]; rewrite byte_val_of_small by lia; reflexivity|]);
      try (by destruct b; eexists; (split; [cbn [app value]; rewrite byte_val_of_small by lia; reflexivity|]));
      try (by destruct (number_back pos f fuel r h1 He) as (g & E & Hg'); exists (LNumber g));
      by exists (LString s); rewrite string_back. }
  induction n as [|n IH]; intros v He; (destruct v as [| | | |a| |]; try (by apply Hscalar)). cbn [cmsgpackEncode]. unfold cmsgpackEncodeTable.
  destruct (survey (ForEach (table_at h a))) as [[[pairs an] array] mx] eqn:Es. destruct (survey_spec _ _ _ _ _ Es) as [-> _].
  destruct (array && ((an =? 0) || (mx =? an))) eqn:E; [|by apply map_decodes].
  apply andb_true_iff in E as [-> Hmx]. apply (array_decodes n a _ an mx IH He Es). apply orb_true_iff in Hmx. by breflect; destruct Hmx; breflect; auto.
Qed.

Lemma values_back (n : nat) (args : list LValue) : Forall (expressible n) args -> forall (fuel : nat) (h1 : heap T) (acc : list LValue), heap_ok h1 ->
  (length (concat (map (cmsgpackEncode h n) args)) <= fuel)%nat ->
  exists vs h2, values pos fuel (-1) (concat (map (cmsgpackEncode h n) args)) h1 acc = Some (Ok (acc ++ vs, [], h2)) /\ Forall2 (same n h2) args vs /\ grows h1 h2.
Proof.
  induction 1 as [|v args Hv Hargs IH]; intros fuel h1 acc Hok Hf; cbn [map concat] in *.
  - exists [], h1. rewrite app_nil_r. destruct fuel; (split_and!; [done|constructor|by apply grows_refl]).
  - pose proof (encode_nonempty n v) as Hne. rewrite length_app in Hf. destruct fuel as [|fuel]; [lia|].
    destruct (encode_decodes n v Hv (S (length (cmsgpackEncode h n v ++ concat (map (cmsgpackEncode h n) args)))) (concat (map (cmsgpackEncode h n) args)) h1 ltac:(lia) Hok) as (v' & h2 & E & Hs & Hg).
    destruct (IH fuel h2 (acc ++ [v']) (proj2 Hg) ltac:(lia)) as (vs & h3 & E2 & Hvs & Hg2). exists (v' :: vs), h3.
    split_and!; [|constructor; [eapply same_grows; [apply Hg2|done]|done]|by eapply grows_trans].
    cbn [values]. destruct (cmsgpackEncode h n v ++ concat (map (cmsgpackEncode h n) args)) as [|c s] eqn:Es; [destruct (cmsgpackEncode h n v); [cbn in Hne; lia|done]|].
    cbn [Z.leb Z.compare andb]. rewrite E. unfold ret. rewrite E2. by rewrite <- app_assoc.
Qed.

End roundtrip.

(** ** On concrete values *)

Section examples.
#[local] Instance mp_tables : LuaTable assoc := assoc_table.
#[local] Instance mp_ascii : GoUnicode := ascii_tables.
#[local] Instance mp_float : GoFloat := {| FormatFloatG := FormatInt; ParseFloat := ParseInt |}.
#[local] Instance mp_gp : GoFloatGP := {| FormatFloatGP := fun f _ => FormatInt f |}.

Definition num (i : Z) : LValue := LNumber (f64_of_Z i).
(** {"x", 2.5, true} and {a = that, [-7] = -300} *)
Definition inner : assoc := [(num 1, LString (lit "x")); (num 2, LNumber 0x4004000000000000); (num 3, LBool true)].
Definition outer : assoc := [(LString (lit "a"), LTable 1); (num (-7), num (-300))].
Definition demo_heap : heap assoc := mkHeap 3 {[1%positive := inner; 2%positive := outer]}.

Lemma inner_expressible (n : nat) : expressible demo_heap (S n) (LTable 1).
Proof.
  split; [done|]. change (ForEach (table_at demo_heap 1)) with inner. intros k x Hin. apply list_elem_of_In in Hin. cbn in Hin.
  destruct_or? Hin; try done; injection Hin as <- <-; (split_and!; [done|by destruct n|by destruct n]).
Qed.


Example pack_bytes : cmsgpackPack [] [LTable 2] demo_heap =
  Some (Ok ([LString (map byte_of [0x82; 0xa1; 97; 0x93; 0xa1; 120; 0xca; 0x40; 0x20; 0; 0; 0xc3; 0xf9; 0xd1; 0xfe; 0xd4])], demo_heap)).
Proof. vm_compute. reflexivity. Qed.

(** A cyclic table is packed too, cut at the sixteenth level. *)
Example pack_cycle : let h := mkHeap 2 {[1%positive := [(num 1, LTable 1)]]} in
  cmsgpackPack [] [LTable 1] h = Some (Ok ([LString (repeat (byte_of 0x91) 16 ++ [byte_of 0xc0])], h)).
Proof. vm_compute. reflexivity. Qed.

(** unpack_limit with limit 0 and an offset answers the offset, no value. *)
Example unpack_limit_zero : cmsgpackUnpackLimit [] [LString (map byte_of [1; 2; 3]); num 0; num 1] demo_heap = Some (Ok ([num 1], demo_heap)).
Proof. vm_compute. reflexivity. Qed.

(** Negative zero comes back as zero. *)
Example negative_zero : cmsgpackPack [] [LNumber (2 ^ 63)] demo_heap = Some (Ok ([LString [byte_of 0]], demo_heap)).
Proof. vm_compute. reflexivity. Qed.
End examples.
End msgpackspec.
