(* ===== verification/LuaCjson.v ===== *)
(** * The cjson library of scripts (src/internal/commands/cjson.go)

    JSON text of Lua values, and the settings of an instance.  Numbers are
    printed and parsed by classes. *)

From S2P Require Import Prelude GoLib GoFloatBits GoStrings Resp Hll LuaValue LuaStruct.
Open Scope Z_scope.
Open Scope gedis_scope.

(** [strconv.ParseFloat(s, 64)] with the kind of its error. *)
Inductive parse_err : Type := POk | PRange | PSyntax.
Class GoFloatParse : Type := { ParseFloat64 : bytes -> Z * parse_err }.
(** [LNumber.String()] of the interpreter. *)
Class LuaNumberText : Type := { number_text : Z -> bytes }.

Module luacjson.
Import luastruct.

Definition cjsonNull : LValue := LUserData 1.

(** ** Settings *)

Record cjsonSettings : Type := mkSettings { maxDepth : Z; decDepth : Z; precision : Z; sparseConv : bool; sparseRatio : Z; sparseMax : Z }.
Definition defaultCjsonSettings : cjsonSettings := mkSettings 1000 1000 14 false 2 10.

Definition set_maxDepth (v : Z) (s : cjsonSettings) : cjsonSettings := mkSettings v (decDepth s) (precision s) (sparseConv s) (sparseRatio s) (sparseMax s).
Definition set_decDepth (v : Z) (s : cjsonSettings) : cjsonSettings := mkSettings (maxDepth s) v (precision s) (sparseConv s) (sparseRatio s) (sparseMax s).
Definition set_precision (v : Z) (s : cjsonSettings) : cjsonSettings := mkSettings (maxDepth s) (decDepth s) v (sparseConv s) (sparseRatio s) (sparseMax s).
Definition set_sparse (c : bool) (r m : Z) (s : cjsonSettings) : cjsonSettings := mkSettings (maxDepth s) (decDepth s) (precision s) c r m.

Definition cjsonRaise {A : Type} (msg : bytes) : result A := Err (EMsg msg).
Definition bad_argument (n : Z) (fname : string) (detail : bytes) : bytes :=
  lit "bad argument #" ++ FormatInt n ++ lit " to '" ++ lit fname ++ lit "' (" ++ detail ++ lit ")".
Definition between (lo hi : Z) : bytes := lit "expected integer between " ++ FormatInt lo ++ lit " and " ++ FormatInt hi.
Definition max_int32 : Z := 2147483647.

Section settings.
Context `{GoUnicode} `{GoFloat} `{LuaNumberText}.

Definition cjsonCheckIntLocked (args : list LValue) (fname : string) (n : Z) : result Z :=
  let bad (v : LValue) : result Z := cjsonRaise (bad_argument n fname (lit "number expected, got " ++ type_name v)) in
  match Get args n with
  | LNumber f => Ok (f64_to_i64 f)
  | LString s => match ParseFloat (TrimSpace s) with Some f => Ok (f64_to_i64 f) | None => bad (LString s) end
  | v => bad v
  end.

(** A call of a setting function: what it pushes or raises, and the settings
    after it; what was set before an error stays set. *)
Definition called : Type := result (list LValue) * cjsonSettings.
Definition int_value (i : Z) : LValue := LNumber (f64_of_Z i).

Definition mkCjsonDepth (fname : string) (isEncode : bool) (args : list LValue) (cfg : cjsonSettings) : called :=
  if 1 <? len args then (cjsonRaise (bad_argument 2 fname (lit "found too many arguments")), cfg)
  else if (len args =? 0) || bool_decide (Get args 1 = LNil) then (Ok [int_value (if isEncode then maxDepth cfg else decDepth cfg)], cfg)
  else match cjsonCheckIntLocked args fname 1 with
  | Ok v => if (v <? 1) || (max_int32 <? v) then (cjsonRaise (bad_argument 1 fname (between 1 max_int32)), cfg)
            else (Ok [int_value v], if isEncode then set_maxDepth v cfg else set_decDepth v cfg)
  | Err e => (Err e, cfg)
  | Panic => (Panic, cfg)
  end.

Definition mkCjsonPrecision (args : list LValue) (cfg : cjsonSettings) : called :=
  let fname := "encode_number_precision"%string in
  if 1 <? len args then (cjsonRaise (bad_argument 2 fname (lit "found too many arguments")), cfg)
  else if (len args =? 0) || bool_decide (Get args 1 = LNil) then (Ok [int_value (precision cfg)], cfg)
  else match cjsonCheckIntLocked args fname 1 with
  | Ok v => if (v <? 1) || (14 <? v) then (cjsonRaise (bad_argument 1 fname (between 1 14)), cfg) else (Ok [int_value v], set_precision v cfg)
  | Err e => (Err e, cfg)
  | Panic => (Panic, cfg)
  end.

Definition pushSparseTriple (cfg : cjsonSettings) : list LValue := [LBool (sparseConv cfg); int_value (sparseRatio cfg); int_value (sparseMax cfg)].

(** Argument [n] of encode_sparse_array, when it is there: [put] stores it. *)
Definition sparse_arg (args : list LValue) (n : Z) (put : Z -> cjsonSettings -> cjsonSettings) (cfg : cjsonSettings) (k : cjsonSettings -> called) : called :=
  if (n <=? len args) && negb (bool_decide (Get args n = LNil)) then
    match cjsonCheckIntLocked args "encode_sparse_array" n with
    | Ok v => if (v <? 0) || (max_int32 <? v) then (cjsonRaise (bad_argument 1 "encode_sparse_array" (between 0 max_int32)), cfg) else k (put v cfg)
    | Err e => (Err e, cfg)
    | Panic => (Panic, cfg)
    end
  else k cfg.

Definition mkCjsonSparse (args : list LValue) (cfg : cjsonSettings) : called :=
  let fname := "encode_sparse_array"%string in
  if 3 <? len args then (cjsonRaise (bad_argument 4 fname (lit "found too many arguments")), cfg)
  else if (len args =? 0) || ((len args =? 1) && bool_decide (Get args 1 = LNil)) then (Ok (pushSparseTriple cfg), cfg)
  else
    let rest (cfg : cjsonSettings) : called :=
      sparse_arg args 2 (fun v s => set_sparse (sparseConv s) v (sparseMax s) s) cfg (fun cfg =>
      sparse_arg args 3 (fun v s => set_sparse (sparseConv s) (sparseRatio s) v s) cfg (fun cfg => (Ok [LBool (sparseConv cfg)], cfg))) in
    match Get args 1 with
    | LBool b => rest (set_sparse b (sparseRatio cfg) (sparseMax cfg) cfg)
    | LNil => rest cfg
    | LString s => (cjsonRaise (lit "invalid option '" ++ s ++ lit "'"), cfg)
    | LNumber f => (cjsonRaise (lit "invalid option '" ++ number_text f ++ lit "'"), cfg)
    | v => (cjsonRaise (bad_argument 1 fname (lit "string expected, got " ++ type_name v)), cfg)
    end.
End settings.

(** ** Encoding *)

Definition hex_lower (d : Z) : ascii := byte_of (if d <? 10 then 48 + d else 87 + d).
Definition backslash : ascii := byte_of 92.
Definition quote : ascii := byte_of 34.

Definition escape (c : ascii) : bytes :=
  let b := byte_val c in
  if b =? 34 then [backslash; quote]
  else if b =? 92 then [backslash; backslash]
  else if b =? 8 then [backslash; "b"%char]
  else if b =? 12 then [backslash; "f"%char]
  else if b =? 10 then [backslash; "n"%char]
  else if b =? 13 then [backslash; "r"%char]
  else if b =? 9 then [backslash; "t"%char]
  else if b <? 32 then backslash :: lit "u00" ++ [hex_lower (b / 16); hex_lower (b mod 16)]
  else [c].
Definition writeJSONString (s : bytes) : bytes := quote :: concat (map escape s) ++ [quote].

Section encode.
Context {T : Type} `{LuaTable T} `{GoFloatGP} `{GoFloatMath}.

Definition fmtNum (f prec : Z) : bytes := FormatFloatGP f prec.

Fixpoint join_comma (l : list bytes) : bytes :=
  match l with [] => [] | x :: l' => match l' with [] => x | _ => x ++ lit "," ++ join_comma l' end end.
(** Encodings of the elements in order, the first error ending it. *)
Fixpoint all_ok (l : list (result bytes)) : result (list bytes) :=
  match l with [] => Ok [] | r :: l => let? x := r in let? xs := all_ok l in Ok (x :: xs) end.

(** [enc] encodes one level below. *)
Definition writeJSONObjectAsObject (enc : LValue -> result bytes) (t : T) (keys : list LValue) (snap : cjsonSettings) : result bytes :=
  let? xs := all_ok (map (fun k =>
    let? ks := match k with
               | LString s => Ok s
               | LNumber f => Ok (fmtNum f (precision snap))
               | _ => cjsonRaise (lit "Cannot serialise " ++ type_name k ++ lit ": table key must be a number or string")
               end in
    let? v := enc (RawGet t k) in
    Ok (writeJSONString ks ++ lit ":" ++ v)) keys) in
  Ok (lit "{" ++ join_comma xs ++ lit "}").

(** The largest index and how many keys are one; [None] when a key is not. *)
Definition is_position (k : LValue) : bool := match k with LNumber f => negb (f64_ltb f 0x3ff0000000000000) && negb (IsNaN f) && f64_integral f | _ => false end.
Definition largest (keys : list LValue) : Z :=
  foldl (fun mx k => match k with LNumber f => if is_position k && (mx <? f64_to_i64 f) then f64_to_i64 f else mx | _ => mx end) 0 keys.

Definition writeJSONObject (enc : LValue -> result bytes) (t : T) (snap : cjsonSettings) : result bytes :=
  let keys := NextKeys t in
  match keys with
  | [] => Ok (lit "{}")
  | _ =>
      let maxIdx := largest keys in
      let count := len (List.filter is_position keys) in
      let isArray := forallb is_position keys in
      if isArray && (sparseMax snap <? maxIdx) && (0 <? sparseRatio snap) &&
         f64_ltb (f64_of_Z (sparseRatio snap)) (fm_div (f64_of_Z maxIdx) (f64_of_Z count)) then
        if negb (sparseConv snap) && ((5 <? maxDepth snap) || negb (sparseMax snap =? 10)) then cjsonRaise (lit "Cannot serialise table: excessively sparse array")
        else writeJSONObjectAsObject enc t keys snap
      else if isArray then
        let? xs := all_ok (map (fun i => match RawGetInt t (Z.of_nat i) with LNil => Ok (lit "null") | item => enc item end) (seq 1 (Z.to_nat maxIdx))) in
        Ok (lit "[" ++ join_comma xs ++ lit "]")
      else writeJSONObjectAsObject enc t keys snap
  end.

(** [levels] tables may still be entered: [maxDepth] less the level. *)
Fixpoint writeJSON (h : heap T) (snap : cjsonSettings) (levels : nat) (v : LValue) : result bytes :=
  match v with
  | LBool b => Ok (lit (if b then "true" else "false")%string)
  | LNumber f => if negb (f64_finite f) then cjsonRaise (lit "Cannot serialise number: must not be NaN or Inf") else Ok (fmtNum f (precision snap))
  | LString s => Ok (writeJSONString s)
  | LTable a => match levels with
                | O => cjsonRaise (lit "Cannot serialise, excessive nesting (" ++ FormatInt (maxDepth snap + 1) ++ lit ")")
                | S levels => writeJSONObject (writeJSON h snap levels) (table_at h a) snap
                end
  | _ => if bool_decide (v = cjsonNull) then Ok (lit "null") else cjsonRaise (lit "Cannot serialise " ++ type_name v ++ lit ": type not supported")
  end.

Definition cjsonEncode (cfg : cjsonSettings) (args : list LValue) (h : heap T) : result (list LValue) :=
  match args with
  | [] => cjsonRaise (bad_argument 1 "encode" (lit "expected 1 argument"))
  | LNil :: _ => Ok [LNil]
  | v :: _ => let? s := writeJSON h cfg (Z.to_nat (maxDepth cfg)) v in Ok [LString s]
  end.
End encode.

(** ** Decoding

    The decoder is the text [s] and what remains of it; the character number of
    an error counts from 1. *)

Definition jerror (expect found : bytes) (charNo : Z) : goerr :=
  EMsg (lit "Expected " ++ expect ++ lit " but found " ++ found ++ lit " at character " ++ FormatInt charNo).

Definition is_ws (c : ascii) : bool := existsb (Z.eqb (byte_val c)) [32; 9; 10; 13].
Fixpoint skipWS (r : bytes) : bytes := match r with c :: r' => if is_ws c then skipWS r' else r | [] => [] end.

Definition is_sign (c : ascii) : bool := (byte_val c =? 45) || (byte_val c =? 43).
Definition skip_sign (r : bytes) : bytes := match r with c :: r' => if is_sign c then r' else r | [] => [] end.
Definition skip_digits (r : bytes) : bytes := (span_digits r).2.

(** The length of the number at the beginning, 0 when there is none. *)
Definition numLen (s : bytes) : Z :=
  let r := skip_sign s in
  let r1 := skip_digits r in
  let hasInt := len r1 <? len r in
  let '(r2, hasFrac) := match r1 with
                        | c :: r' => if byte_val c =? 46 then (skip_digits r', len (skip_digits r') <? len r') else (r1, false)
                        | [] => (r1, false)
                        end in
  if negb hasInt && negb hasFrac then 0
  else
    let r3 := match r2 with
              | c :: r' => if (byte_val c =? 101) || (byte_val c =? 69) then
                             let q := skip_sign r' in let q' := skip_digits q in if len q' <? len q then q' else r2
                           else r2
              | [] => r2
              end in
    len s - len r3.

Definition tokenName (r : bytes) : bytes :=
  match r with
  | [] => lit "T_END"
  | c :: _ =>
      let b := byte_val c in
      if b =? 123 then lit "T_OBJ_BEGIN" else if b =? 125 then lit "T_OBJ_END"
      else if b =? 91 then lit "T_ARR_BEGIN" else if b =? 93 then lit "T_ARR_END"
      else if b =? 44 then lit "T_COMMA" else if b =? 58 then lit "T_COLON" else if b =? 34 then lit "T_STRING"
      else if b =? 116 then (if HasPrefix r (lit "true") then lit "T_BOOLEAN" else lit "invalid token")
      else if b =? 102 then (if HasPrefix r (lit "false") then lit "T_BOOLEAN" else lit "invalid token")
      else if (b =? 110) && HasPrefix r (lit "null") then lit "T_NULL"
      else if is_sign c || is_digit c then (if 0 <? numLen r then lit "T_NUMBER" else lit "invalid number")
      else lit "invalid token"
  end.

Definition hex_value (c : ascii) : option Z :=
  let b := byte_val c in
  if (48 <=? b) && (b <=? 57) then Some (b - 48)
  else if (97 <=? b) && (b <=? 102) then Some (b - 87)
  else if (65 <=? b) && (b <=? 70) then Some (b - 55)
  else None.
(** [r] is at the position [d.p]; the four digits are those after it. *)
Definition hex4 (r : bytes) : option (Z * bytes) :=
  match r with
  | _ :: a :: b :: c :: d :: r' =>
      match hex_value a, hex_value b, hex_value c, hex_value d with
      | Some a, Some b, Some c, Some d => Some (((a * 16 + b) * 16 + c) * 16 + d, r')
      | _, _, _, _ => None
      end
  | _ => None
  end.
(** [r] is at the [u]. *)
Definition parseUnicode (r : bytes) : option (Z * bytes) :=
  match hex4 r with
  | None => None
  | Some (hi, r) =>
      if (0xD800 <=? hi) && (hi <=? 0xDBFF) then
        match r with
        | x :: y :: r' =>
            if (byte_val x =? 92) && (byte_val y =? 117) then
              match hex4 r' with
              | Some (lo, r'') => if (lo <? 0xDC00) || (0xDFFF <? lo) then None else Some (0x10000 + (hi - 0xD800) * 1024 + (lo - 0xDC00), r'')
              | None => None
              end
            else None
        | _ => None
        end
      else if (0xDC00 <=? hi) && (hi <=? 0xDFFF) then None
      else Some (hi, r)
  end.

(** [sb.WriteRune(r)] of a code point that is no surrogate *)
Definition utf8 (r : Z) : bytes :=
  if r <? 0x80 then [byte_of r]
  else if r <? 0x800 then [byte_of (0xC0 + r / 64); byte_of (0x80 + r mod 64)]
  else if r <? 0x10000 then [byte_of (0xE0 + r / 4096); byte_of (0x80 + r / 64 mod 64); byte_of (0x80 + r mod 64)]
  else [byte_of (0xF0 + r / 262144); byte_of (0x80 + r / 4096 mod 64); byte_of (0x80 + r / 64 mod 64); byte_of (0x80 + r mod 64)].

(** The byte a one-letter escape stands for. *)
Definition simple_escape (b : Z) : option Z :=
  if (b =? 34) || (b =? 92) || (b =? 47) then Some b
  else if b =? 98 then Some 8 else if b =? 102 then Some 12 else if b =? 110 then Some 10 else if b =? 114 then Some 13 else if b =? 116 then Some 9
  else None.

Section decode.
Context {T : Type} `{LuaTable T} `{GoFloatParse}.
Variable s : bytes.     (* the whole text *)
Variable dmax : Z.

(** [d.p+1] *)
Definition char_no (r : bytes) : Z := len s - len r + 1.

(** The rest of a string after its opening quote; [fuel] bounds the characters. *)
Fixpoint string_body (fuel : nat) (r : bytes) (acc : bytes) : result (bytes * bytes) :=
  let ended : result (bytes * bytes) := Err (jerror (lit "value") (lit "unexpected end of string") (len s + 1)) in
  match fuel with
  | O => ended
  | S fuel =>
      match r with
      | [] => ended
      | c :: r' =>
          if byte_val c =? 34 then Ok (acc, r')
          else if byte_val c =? 92 then
            match r' with
            | [] => ended
            | e :: r'' =>
                match simple_escape (byte_val e) with
                | Some b => string_body fuel r'' (acc ++ [byte_of b])
                | None =>
                    if byte_val e =? 117 then
                      match parseUnicode r' with
                      | Some (x, r3) => string_body fuel r3 (acc ++ utf8 x)
                      | None => Err (jerror (lit "value") (lit "invalid unicode escape code") (char_no r))
                      end
                    else Err (jerror (lit "value") (lit "invalid escape code") (char_no r))
                end
            end
          else string_body fuel r' (acc ++ [c])
      end
  end.
(** [r] is at the opening quote. *)
Definition parseString (r : bytes) : result (bytes * bytes) := string_body (length r) (drop 1 r) [].

Definition parseNumber (r : bytes) : result (LValue * bytes) :=
  let n := numLen r in
  if n =? 0 then Err (jerror (lit "value") (lit "invalid number") (char_no r))
  else match ParseFloat64 (take (Z.to_nat n) r) with
  | (f, PSyntax) => Err (jerror (lit "value") (lit "invalid number") (char_no r))
  | (f, _) => Ok (LNumber f, drop (Z.to_nat n) r)
  end.

(** [None]: out of fuel. *)
Definition decoded : Type := option (result (LValue * bytes * heap T)).
Definition then_ {A : Type} (r : result A) (k : A -> decoded) : decoded :=
  match r with Ok a => k a | Err e => Some (Err e) | Panic => Some Panic end.
Definition ret (v : LValue) (r : bytes) (h : heap T) : decoded := Some (Ok (v, r, h)).
Definition expected (what : string) (r : bytes) : decoded := Some (Err (jerror (lit what) (tokenName r) (char_no r))).

Definition starts (b : Z) (r : bytes) : bool := match r with c :: _ => byte_val c =? b | [] => false end.

(** The loops of [parseObject] and [parseArray]; the table is stored when it is
    complete, nothing refers to it before. *)
Fixpoint object_loop (val : bytes -> heap T -> decoded) (fuel : nat) (t : T) (r : bytes) (h : heap T) {struct fuel} : decoded :=
  match fuel with
  | O => None
  | S fuel =>
      let r := skipWS r in
      if negb (starts 34 r) then expected "object key string" r
      else then_ (parseString r) (fun '(key, r) =>
        let r := skipWS r in
        if negb (starts 58 r) then expected "colon" r
        else match val (drop 1 r) h with
        | None => None
        | Some (Err e) => Some (Err e)
        | Some Panic => Some Panic
        | Some (Ok (v, r, h)) =>
            let t := RawSet t (LString key) v in
            let r := skipWS r in
            if starts 44 r then object_loop val fuel t (drop 1 r) h
            else if starts 125 r then let '(v, h) := alloc h t in ret v (drop 1 r) h
            else expected "comma or object end" r
        end)
  end.
Fixpoint array_loop (val : bytes -> heap T -> decoded) (fuel : nat) (n : Z) (t : T) (r : bytes) (h : heap T) {struct fuel} : decoded :=
  match fuel with
  | O => None
  | S fuel =>
      match val r h with
      | None => None
      | Some (Err e) => Some (Err e)
      | Some Panic => Some Panic
      | Some (Ok (v, r, h)) =>
          let t := RawSetInt t n v in
          let r := skipWS r in
          if starts 44 r then array_loop val fuel (n + 1) t (drop 1 r) h
          else if starts 93 r then let '(v, h) := alloc h t in ret v (drop 1 r) h
          else expected "comma or array end" r
      end
  end.

Fixpoint parseValue (fuel : nat) (depth : Z) (r : bytes) (h : heap T) {struct fuel} : decoded :=
  match fuel with
  | O => None
  | S fuel =>
      let r := skipWS r in
      match r with
      | [] => Some (Err (jerror (lit "value") (lit "T_END") (char_no r)))
      | c :: r' =>
          let b := byte_val c in
          if b =? 34 then then_ (parseString r) (fun '(v, r) => ret (LString v) r h)
          else if (b =? 123) || (b =? 91) then
            let lv := depth + 1 in
            if dmax <? lv then Some (Err (EMsg (lit "Found too many nested data structures (" ++ FormatInt lv ++ lit ") at character " ++ FormatInt (char_no r))))
            else
              let r' := skipWS r' in
              if b =? 123 then
                if starts 125 r' then let '(v, h) := alloc h NewTable in ret v (drop 1 r') h
                else object_loop (parseValue fuel lv) (S (length r')) NewTable r' h
              else
                if starts 93 r' then let '(v, h) := alloc h NewTable in ret v (drop 1 r') h
                else array_loop (parseValue fuel lv) (S (length r')) 1 NewTable r' h
          else if (b =? 116) && HasPrefix r (lit "true") then ret (LBool true) (drop 4 r) h
          else if (b =? 102) && HasPrefix r (lit "false") then ret (LBool false) (drop 5 r) h
          else if (b =? 110) && HasPrefix r (lit "null") then ret cjsonNull (drop 4 r) h
          else if is_sign c || is_digit c then then_ (parseNumber r) (fun '(v, r) => ret v r h)
          else expected "value" r
      end
  end.

Definition decodeJSON (h : heap T) : option (result (LValue * heap T)) :=
  match parseValue (S (length s)) 0 s h with
  | None => None
  | Some (Err e) => Some (Err e)
  | Some Panic => Some Panic
  | Some (Ok (v, r, h)) =>
      let r := skipWS r in
      match r with [] => Some (Ok (v, h)) | _ => Some (Err (jerror (lit "the end") (tokenName r) (char_no r))) end
  end.
End decode.

Definition cjsonDecode {T : Type} `{LuaTable T} `{GoFloatParse} `{GoFloatGP} (cfg : cjsonSettings) (args : list LValue) (h : heap T) : option (result (list LValue * heap T)) :=
  match args with
  | [] => Some (cjsonRaise (bad_argument 1 "decode" (lit "expected 1 argument")))
  | v :: _ =>
      match (match v with LString t => Ok t | LNumber f => Ok (fmtNum f 14) | _ => cjsonRaise (bad_argument 1 "decode" (lit "string expected, got " ++ type_name v)) end) with
      | Err e => Some (Err e)
      | Panic => Some Panic
      | Ok t => match decodeJSON t (decDepth cfg) h with
                | None => None
                | Some (Err e) => Some (Err e)
                | Some Panic => Some Panic
                | Some (Ok (v, h)) => Some (Ok ([v], h))
                end
      end
  end.
End luacjson.
