(* ===== verification/LuaCjsonSpec.v ===== *)
(** * JSON: settings stay in range, decoding terminates and inverts encoding *)

From S2P Require Import Prelude GoLib GoFloatBits GoStrings Resp Hll LuaValue LuaStruct LuaMsgpack LuaMsgpackSpec LuaCjson.
Open Scope Z_scope.
Open Scope gedis_scope.

Module cjsonspec.
Import luastruct luacjson.
Import msgpackspec (num_same, same, heap_ok, grows, grows_refl, grows_trans, same_grows, alloc_grows, fill, fill_same, same_table, int_plain).


(** ** Settings *)

Record settings_ok (c : cjsonSettings) : Prop := {
  ok_max : 1 <= maxDepth c <= max_int32; ok_dec : 1 <= decDepth c <= max_int32; ok_prec : 1 <= precision c <= 14;
  ok_ratio : 0 <= sparseRatio c <= max_int32; ok_sparse : 0 <= sparseMax c <= max_int32;
}.

Section settings.
Context `{GoUnicode} `{GoFloat} `{LuaNumberText}.

Lemma sparse_arg_ok (args : list LValue) (n : Z) (put : Z -> cjsonSettings -> cjsonSettings) (c : cjsonSettings) (k : cjsonSettings -> called) :
  settings_ok c -> (forall v, 0 <= v <= max_int32 -> settings_ok (put v c)) -> (forall c', settings_ok c' -> settings_ok (k c').2) -> settings_ok (sparse_arg args n put c k).2.
Proof.
  intros Hc Hput Hk. unfold sparse_arg. destruct (_ && _); [|by apply Hk]. destruct (cjsonCheckIntLocked _ _ _) as [v| |]; [|done|done].
  destruct ((v <? 0) || (max_int32 <? v)) eqn:E; [done|]. apply orb_false_iff in E as [? ?]. breflect. apply Hk, Hput. lia.
Qed.

(** The settings of an instance stay in range, whatever is called. *)
Theorem settings_stay_ok (fname : string) (isEncode : bool) (args : list LValue) (c : cjsonSettings) : settings_ok c ->
  settings_ok (mkCjsonDepth fname isEncode args c).2 /\ settings_ok (mkCjsonPrecision args c).2 /\ settings_ok (mkCjsonSparse args c).2.
Proof.
  intros Hc. pose proof Hc as [Hm Hd Hp Hr Hs]. split_and!.
  - unfold mkCjsonDepth. destruct (1 <? len args); [done|]. destruct (_ || _); [done|]. destruct (cjsonCheckIntLocked _ _ _) as [v| |]; [|done|done].
    destruct ((v <? 1) || (max_int32 <? v)) eqn:E; [done|]. apply orb_false_iff in E as [? ?]. breflect. destruct isEncode; split; cbn; lia.
  - unfold mkCjsonPrecision. cbv zeta. destruct (1 <? len args); [done|]. destruct (_ || _); [done|]. destruct (cjsonCheckIntLocked _ _ _) as [v| |]; [|done|done].
    destruct ((v <? 1) || (14 <? v)) eqn:E; [done|]. apply orb_false_iff in E as [? ?]. breflect. split; cbn; lia.
  - unfold mkCjsonSparse. cbv zeta. destruct (3 <? len args); [done|]. destruct (_ || _); [done|].
    assert (forall c, settings_ok c -> settings_ok (sparse_arg args 2 (fun v s => set_sparse (sparseConv s) v (sparseMax s) s) c (fun cfg =>
      sparse_arg args 3 (fun v s => set_sparse (sparseConv s) (sparseRatio s) v s) cfg (fun cfg => (Ok [LBool (sparseConv cfg)], cfg)))).2) as Hrest.
    { intros c' Hc'. apply sparse_arg_ok; [done|intros v Hv; destruct Hc'; split; cbn; lia|]. intros c2 Hc2. apply sparse_arg_ok; [done|intros v Hv; destruct Hc2; split; cbn; lia|done]. }
    destruct (Get args 1); try done; apply Hrest; [done|]. split; cbn; lia.
Qed.
End settings.

(** ** Strings *)

Section strings.
Variable s : bytes.

Lemma escape_read (c : ascii) (fuel : nat) (r acc : bytes) : string_body s (S fuel) (escape c ++ r) acc = string_body s fuel r (acc ++ [c]).
Proof. destruct c as [[] [] [] [] [] [] [] []]; reflexivity. Qed.

Lemma body_read (k : bytes) : forall (fuel : nat) (r acc : bytes), (length k < fuel)%nat -> string_body s fuel (concat (map escape k) ++ quote :: r) acc = Ok (acc ++ k, r).
Proof.
  induction k as [|c k IH]; intros fuel r acc Hf; (destruct fuel as [|fuel]; [cbn in Hf; lia|]); cbn [map concat].
  - cbn. by rewrite app_nil_r.
  - rewrite <- app_assoc, escape_read, IH by (cbn in Hf; lia). by rewrite <- app_assoc.
Qed.

Lemma escape_nonempty (c : ascii) : (0 < length (escape c))%nat.
Proof. unfold escape. repeat case_match; cbn; lia. Qed.

(** Every string is read back from its encoding. *)
Lemma string_read (k r : bytes) : parseString s (writeJSONString k ++ r) = Ok (k, r).
Proof.
  unfold parseString, writeJSONString.
  replace (drop 1 ((quote :: concat (map escape k) ++ [quote]) ++ r)) with (concat (map escape k) ++ quote :: r) by (cbn; by rewrite drop_0, <- app_assoc).
  rewrite body_read; [done|]. rewrite length_app. cbn [length]. rewrite length_app.
  pose proof (concat_map_length escape k escape_nonempty). lia.
Qed.
End strings.

(** ** Decoding terminates *)

Section total.
Context {T : Type} `{LuaTable T} `{GoFloatParse}.
Variables (s : bytes) (dmax : Z).
Import msgpackspec (reads, packed_ret, reads_err, reads_panic, packed_weaken).

Lemma skipWS_length (r : bytes) : (length (skipWS r) <= length r)%nat.
Proof. induction r as [|c r IH]; cbn [skipWS]; [done|]. destruct (is_ws c); cbn [length]; lia. Qed.

Lemma hex4_length (r r' : bytes) (x : Z) : hex4 r = Some (x, r') -> (length r' < length r)%nat.
Proof. unfold hex4. repeat case_match; intros; simplify_eq; cbn; lia. Qed.
Lemma parseUnicode_length (r r' : bytes) (x : Z) : parseUnicode r = Some (x, r') -> (length r' < length r)%nat.
Proof.
  unfold parseUnicode. destruct (hex4 r) as [[hi r1]|] eqn:E; [|done]. apply hex4_length in E. destruct (_ && _).
  - destruct r1 as [|x1 [|y1 r2]]; [done|done|]. destruct (_ && _); [|done]. destruct (hex4 r2) as [[lo r3]|] eqn:E2; [|done]. apply hex4_length in E2. destruct (_ || _); [done|]. intros [= <- <-]. cbn in *. lia.
  - destruct (_ && _); [done|]. by intros [= <- <-].
Qed.

Lemma body_length (fuel : nat) : forall (r acc k r' : bytes), string_body s fuel r acc = Ok (k, r') -> (length r' < length r)%nat.
Proof.
  induction fuel as [|fuel IH]; intros r acc k r'; cbn [string_body]; [done|]. destruct r as [|c r]; [done|]. destruct (byte_val c =? 34); [intros [= <- <-]; cbn; lia|].
  destruct (byte_val c =? 92); [|intros E%IH; cbn; lia]. destruct r as [|e r]; [done|]. destruct (simple_escape (byte_val e)); [intros E%IH; cbn; lia|].
  destruct (byte_val e =? 117); [|done]. destruct (parseUnicode (e :: r)) as [[x r3]|] eqn:Eu; [|done]. apply parseUnicode_length in Eu. intros E%IH. cbn in *. lia.
Qed.
Lemma parseString_length (r k r' : bytes) : parseString s r = Ok (k, r') -> (length r' < length r)%nat.
Proof. unfold parseString. intros E%body_length. rewrite length_drop in E. lia. Qed.

Lemma parseNumber_length (r r' : bytes) (v : LValue) : parseNumber s r = Ok (v, r') -> 0 <= numLen r -> r <> [] -> (length r' < length r)%nat.
Proof.
  unfold parseNumber. cbv zeta. destruct (Z.eqb_spec (numLen r) 0); [done|]. destruct (ParseFloat64 _) as [f []]; intros [= <- <-] Hn Hr; rewrite length_drop; destruct r; try done; cbn [length]; lia.
Qed.

Section loops.
Variables (val : bytes -> heap T -> decoded (T := T)) (bound : nat).
Hypothesis val_reads : forall r h, (length r <= bound)%nat -> reads 1 r (val r h).

Lemma starts_cons (b : Z) (r : bytes) : starts b r = true -> exists c r', r = c :: r'.
Proof. destruct r as [|c r]; [done|]. by exists c, r. Qed.

Lemma json_array_reads (fuel : nat) : forall (n : Z) (t : T) (r : bytes) (h : heap T), (length r < fuel)%nat -> (length r <= bound)%nat -> reads 0 r (array_loop s val fuel n t r h).
Proof.
  induction fuel as [|fuel IH]; intros n t r h Hf Hb; [lia|]. cbn [array_loop]. destruct (val_reads r h Hb) as (res & -> & Hr).
  destruct res as [[[v r'] h']|e|]; [|apply reads_err|apply reads_panic]. specialize (Hr v r' h' eq_refl). cbv zeta. pose proof (skipWS_length r').
  destruct (starts 44 (skipWS r')); [eapply packed_weaken; [apply IH; rewrite length_drop; lia|rewrite length_drop; lia]|].
  destruct (starts 93 (skipWS r')); [|apply reads_err]. apply packed_ret. rewrite length_drop. lia.
Qed.
Lemma object_reads (fuel : nat) : forall (t : T) (r : bytes) (h : heap T), (length r < fuel)%nat -> (length r <= bound)%nat -> reads 0 r (object_loop s val fuel t r h).
Proof.
  induction fuel as [|fuel IH]; intros t r h Hf Hb; [lia|]. cbn [object_loop]. cbv zeta. pose proof (skipWS_length r). destruct (starts 34 (skipWS r)); cbn [negb]; [|apply reads_err].
  destruct (parseString s (skipWS r)) as [[key r1]|e|] eqn:Es; cbn [then_]; [|apply reads_err|apply reads_panic]. apply parseString_length in Es. pose proof (skipWS_length r1).
  destruct (starts 58 (skipWS r1)); cbn [negb]; [|apply reads_err]. destruct (val_reads (drop 1 (skipWS r1)) h ltac:(rewrite length_drop; lia)) as (res & -> & Hr).
  destruct res as [[[v r'] h']|e|]; [|apply reads_err|apply reads_panic]. specialize (Hr v r' h' eq_refl). rewrite length_drop in Hr. pose proof (skipWS_length r').
  destruct (starts 44 (skipWS r')); [eapply packed_weaken; [apply IH; rewrite length_drop; lia|rewrite length_drop; lia]|].
  destruct (starts 125 (skipWS r')); [|apply reads_err]. apply packed_ret. rewrite length_drop. lia.
Qed.
End loops.

Lemma numLen_nonneg (r : bytes) : 0 <= numLen r.
Proof.
  assert (forall x, len (skip_digits x) <= len x) as Hd.
  { intros x. unfold skip_digits. induction x as [|c x IH]; cbn [span_digits]; [done|]. destruct (is_digit c); [destruct (span_digits x); cbn in *; rewrite len_cons; lia|cbn; lia]. }
  assert (forall x, len (skip_sign x) <= len x) as Hs by (intros [|c x]; cbn [skip_sign]; [done|destruct (is_sign c); rewrite ?len_cons; lia]).
  unfold numLen. cbv zeta. pose proof (Hs r). pose proof (Hd (skip_sign r)). set (r1 := skip_digits (skip_sign r)) in *.
  assert (forall r2 b, (match r1 with c :: r' => if byte_val c =? 46 then (skip_digits r', len (skip_digits r') <? len r') else (r1, false) | [] => (r1, false) end) = (r2, b) -> len r2 <= len r1) as Hr2.
  { intros r2 b. destruct r1 as [|c r']; [by intros [= <- <-]|]. destruct (byte_val c =? 46); intros [= <- <-]; [pose proof (Hd r'); rewrite len_cons; lia|done]. }
  destruct (match r1 with c :: r' => if byte_val c =? 46 then (skip_digits r', len (skip_digits r') <? len r') else (r1, false) | [] => (r1, false) end) as [r2 b] eqn:E2. specialize (Hr2 r2 b eq_refl).
  destruct (_ && _); [done|]. destruct r2 as [|c r']; [lia|]. destruct (_ || _); [|lia]. pose proof (Hs r'). pose proof (Hd (skip_sign r')). rewrite len_cons in *. destruct (_ <? _); rewrite ?len_cons; lia.
Qed.

Lemma json_value_reads (fuel : nat) : forall (depth : Z) (r : bytes) (h : heap T), (length r < fuel)%nat -> reads 1 r (parseValue s dmax fuel depth r h).
Proof.
  induction fuel as [|fuel IH]; intros depth r h Hf; [lia|]. cbn [parseValue]. cbv zeta. pose proof (skipWS_length r) as Hw. destruct (skipWS r) as [|c r'] eqn:Er; [apply reads_err|]. cbn [length] in Hw.
  assert (forall k (d : decoded (T := T)), reads 0 k d -> (length k <= length r')%nat -> reads 1 r d) as Hk by (intros k d Hd Hl; eapply packed_weaken; [exact Hd|lia]).
  destruct (byte_val c =? 34).
  { destruct (parseString s (c :: r')) as [[v r1]|e|] eqn:Es; cbn [then_]; [|apply reads_err|apply reads_panic]. apply parseString_length in Es. cbn [length] in Es. apply packed_ret. lia. }
  pose proof (skipWS_length r') as Hw'.
  destruct ((byte_val c =? 123) || (byte_val c =? 91)).
  { destruct (dmax <? depth + 1); [apply reads_err|]. destruct (byte_val c =? 123).
    - destruct (starts 125 (skipWS r')); [apply packed_ret; rewrite length_drop; lia|]. eapply (Hk (skipWS r')); [|lia]. apply (object_reads _ (length (skipWS r'))); [intros; apply IH; lia|lia|lia].
    - destruct (starts 93 (skipWS r')); [apply packed_ret; rewrite length_drop; lia|]. eapply (Hk (skipWS r')); [|lia]. apply (json_array_reads _ (length (skipWS r'))); [intros; apply IH; lia|lia|lia]. }
  destruct (_ && _); [apply packed_ret; rewrite length_drop; cbn [length]; lia|]. destruct (_ && _); [apply packed_ret; rewrite length_drop; cbn [length]; lia|].
  destruct (_ && _); [apply packed_ret; rewrite length_drop; cbn [length]; lia|]. destruct (_ || _); [|apply reads_err].
  destruct (parseNumber s (c :: r')) as [[v r1]|e|] eqn:En; cbn [then_]; [|apply reads_err|apply reads_panic]. apply parseNumber_length in En; [|apply numLen_nonneg|done]. cbn [length] in En. apply packed_ret. lia.
Qed.

(** Decoding ends on every text. *)
Theorem decode_terminates (h : heap T) : decodeJSON s dmax h <> None.
Proof.
  unfold decodeJSON. destruct (json_value_reads (S (length s)) 0 s h ltac:(lia)) as (res & -> & _). destruct res as [[[v r] h']|e|]; [|done|done]. by destruct (skipWS r).
Qed.
End total.

(** ** Decoding inverts encoding *)

Section roundtrip.
Context {T : Type} `{LuaTableLaws T} `{GoFloatGP} `{GoFloatMath} `{GoFloatParse}.
Variables (h : heap T) (snap : cjsonSettings).

(** What may follow a value inside a text. *)
Definition delim (r : bytes) : Prop := match r with [] => True | c :: _ => byte_val c ∈ [44; 93; 125] end.
(** A byte a value begins with. *)
Definition value_head (c : ascii) : Prop := is_ws c = false /\ byte_val c <> 93 /\ byte_val c <> 125.

(** A finite number whose text is read as a number equal to it. *)
Definition number_ok (f : Z) : Prop :=
  f64_finite f = true /\ (exists c r, fmtNum f (precision snap) = c :: r /\ (byte_val c =? 45) || is_digit c = true) /\
  (forall r, delim r -> numLen (fmtNum f (precision snap) ++ r) = len (fmtNum f (precision snap))) /\
  exists g, ParseFloat64 (fmtNum f (precision snap)) = (g, POk) /\ num_same f g.

(** An array without holes that the sparse test lets pass. *)
Definition dense (t : T) (m : Z) : Prop :=
  1 <= m < 2 ^ 32 /\ largest (NextKeys t) = m /\ (forall i, 1 <= i <= m -> RawGetInt t i <> LNil) /\
  (forall k x, (k, x) ∈ ForEach t -> exists f, k = LNumber f /\ is_u64 f /\ is_position k = true /\ 1 <= f64_to_i64 f) /\
  (sparseMax snap <? m) && (0 <? sparseRatio snap) &&
    f64_ltb (f64_of_Z (sparseRatio snap)) (fm_div (f64_of_Z m) (f64_of_Z (len (List.filter is_position (NextKeys t))))) = false.

(** Values with [n] nested tables at most that come back from JSON: strings,
    booleans, null, such numbers, arrays without holes, tables with string keys. *)
Fixpoint json_ok (n : nat) (v : LValue) : Prop :=
  match v with
  | LBool _ | LString _ => True
  | LNumber f => number_ok f
  | LUserData u => u = 1%positive
  | LTable a =>
      match n with
      | O => False
      | S n => (forall k x, (k, x) ∈ ForEach (table_at h a) -> json_ok n x) /\
               ((forall k x, (k, x) ∈ ForEach (table_at h a) -> exists s, k = LString s) \/ exists m, dense (table_at h a) m)
      end
  | _ => False
  end.

(** The text [e] is read as [x]. *)
Definition reads_as (n : nat) (x : LValue) (e : bytes) : Prop :=
  (exists c r, e = c :: r /\ value_head c) /\
  forall (s : bytes) (dmax : Z) (fuel : nat) (depth : Z) (r : bytes) (h1 : heap T), delim r -> (length (e ++ r) < fuel)%nat -> depth + Z.of_nat n <= dmax -> heap_ok h1 ->
    exists x' h2, parseValue s dmax fuel depth (e ++ r) h1 = ret x' r h2 /\ same h n h2 x x' /\ grows h1 h2.

Lemma skip_head (c : ascii) (r : bytes) : is_ws c = false -> skipWS (c :: r) = c :: r.
Proof. intros E. cbn [skipWS]. by rewrite E. Qed.

Lemma join_cons (x : bytes) (xs : list bytes) : xs <> [] -> join_comma (x :: xs) = x ++ lit "," ++ join_comma xs.
Proof. by destruct xs. Qed.

Section loops.
Variables (n : nat) (s : bytes) (dmax depth : Z) (fuel : nat).
Hypothesis room : depth + Z.of_nat n <= dmax.

Lemma array_text (xes : list (LValue * bytes)) : xes <> [] -> Forall (fun p => reads_as n p.1 p.2) xes -> forall (i : Z) (l0 : list (LValue * LValue)) (lf : nat) (r : bytes) (h1 : heap T),
  heap_ok h1 -> (length xes <= lf)%nat -> (length (join_comma (map snd xes) ++ lit "]" ++ r) < fuel)%nat ->
  exists vs a h2, array_loop s (parseValue s dmax fuel depth) lf i (fill l0) (join_comma (map snd xes) ++ lit "]" ++ r) h1 = ret (LTable a) r h2 /\ grows h1 h2 /\
    Forall2 (same h n h2) (map fst xes) vs /\ tables h2 !! a = Some (fill (l0 ++ zip (map (fun j => LNumber (f64_of_Z (i + Z.of_nat j))) (seq 0 (length xes))) vs)).
Proof.
  induction xes as [|[x e] xes IH]; [done|]. intros _ Hall i l0 lf r h1 Hok Hlf Hfuel. apply Forall_cons in Hall as [[_ Hx] Hall]. cbn [fst snd] in Hx. destruct lf as [|lf]; [cbn in Hlf; lia|].
  cbn [map snd fst length seq] in *. destruct xes as [|p xes].
  - cbn [map join_comma array_loop] in *. destruct (Hx s dmax fuel depth (lit "]" ++ r) h1 ltac:(right; by left) Hfuel room Hok) as (x' & h2 & -> & Hs & Hg). unfold ret at 1. cbv zeta.
    change (skipWS (lit "]" ++ r)) with (lit "]" ++ r). cbn [starts lit app]. change (starts 44 (lit "]" ++ r)) with false. change (starts 93 (lit "]" ++ r)) with true. cbv iota.
    destruct (alloc_grows h2 (RawSetInt (fill l0) i x') (proj2 Hg)) as (a & h3 & -> & Ha & Hg2). exists [x'], a, h3.
    split_and!; [done|by eapply grows_trans|repeat constructor; eapply same_grows; [apply Hg2|done]|]. rewrite Ha. cbn [seq map zip zip_with length]. rewrite Z.add_0_r. unfold fill. by rewrite foldl_snoc.
  - cbn [array_loop]. rewrite join_cons in Hfuel |- * by done. rewrite <- !app_assoc in Hfuel |- *.
    destruct (Hx s dmax fuel depth (lit "," ++ join_comma (map snd (p :: xes)) ++ lit "]" ++ r) h1 ltac:(by left) Hfuel room Hok) as (x' & h2 & -> & Hs & Hg). unfold ret at 1. cbv zeta.
    change (skipWS (lit "," ++ join_comma (map snd (p :: xes)) ++ lit "]" ++ r)) with (lit "," ++ join_comma (map snd (p :: xes)) ++ lit "]" ++ r).
    change (starts 44 (lit "," ++ join_comma (map snd (p :: xes)) ++ lit "]" ++ r)) with true. cbv iota.
    replace (RawSetInt (fill l0) i x') with (fill (l0 ++ [(LNumber (f64_of_Z i), x')])) by (unfold fill; by rewrite foldl_snoc).
    change (drop 1 (lit "," ++ join_comma (map snd (p :: xes)) ++ lit "]" ++ r)) with (join_comma (map snd (p :: xes)) ++ lit "]" ++ r).
    rewrite length_app in Hfuel. destruct (IH ltac:(done) Hall (i + 1) (l0 ++ [(LNumber (f64_of_Z i), x')]) lf r h2 (proj2 Hg) ltac:(cbn in *; lia) ltac:(rewrite length_app in Hfuel; cbn in *; lia)) as (vs & a & h3 & -> & Hg2 & Hvs & Ha).
    exists (x' :: vs), a, h3. split_and!; [done|by eapply grows_trans|constructor; [eapply same_grows; [apply Hg2|done]|done]|]. rewrite Ha. do 2 f_equal. rewrite <- app_assoc. cbn [app zip zip_with map seq]. f_equal.
    rewrite Z.add_0_r. f_equal. f_equal. rewrite <- seq_shift, map_map. apply map_ext. intros j. do 2 f_equal. lia.
Qed.

Definition member_text (p : bytes * LValue * bytes) : bytes := writeJSONString p.1.1 ++ lit ":" ++ p.2.

Lemma value_skip (e r : bytes) : (exists c r', e = c :: r' /\ value_head c) -> skipWS (e ++ r) = e ++ r.
Proof. intros (c & r' & -> & Hc & _). cbn [app]. by apply skip_head. Qed.

Lemma object_text (ms : list (bytes * LValue * bytes)) : ms <> [] -> Forall (fun p => reads_as n p.1.2 p.2) ms -> forall (l0 : list (LValue * LValue)) (lf : nat) (r : bytes) (h1 : heap T),
  heap_ok h1 -> (length ms <= lf)%nat -> (length (join_comma (map member_text ms) ++ lit "}" ++ r) < fuel)%nat ->
  exists vs a h2, object_loop s (parseValue s dmax fuel depth) lf (fill l0) (join_comma (map member_text ms) ++ lit "}" ++ r) h1 = ret (LTable a) r h2 /\ grows h1 h2 /\
    Forall2 (same h n h2) (map (fun p => p.1.2) ms) vs /\ tables h2 !! a = Some (fill (l0 ++ zip (map (fun p => LString p.1.1) ms) vs)).
Proof.
  assert (forall (k e tail : bytes) (lf : nat) (t : T) (h1 : heap T) (x' : LValue) (h2 : heap T), parseValue s dmax fuel depth (e ++ tail) h1 = ret x' tail h2 ->
    object_loop s (parseValue s dmax fuel depth) (S lf) t (member_text (k, LNil, e) ++ tail) h1 =
    (if starts 44 (skipWS tail) then object_loop s (parseValue s dmax fuel depth) lf (RawSet t (LString k) x') (drop 1 (skipWS tail)) h2
     else if starts 125 (skipWS tail) then let '(v, h) := alloc h2 (RawSet t (LString k) x') in ret v (drop 1 (skipWS tail)) h
     else expected s "comma or object end" (skipWS tail))) as Hstep.
  { intros k e tail lf t h1 x' h2 E. cbn [object_loop]. cbv zeta. unfold member_text. cbn [fst snd]. rewrite <- !app_assoc.
    change (skipWS (writeJSONString k ++ lit ":" ++ e ++ tail)) with (writeJSONString k ++ lit ":" ++ e ++ tail). change (starts 34 (writeJSONString k ++ lit ":" ++ e ++ tail)) with true. cbn [negb].
    rewrite string_read. cbn [then_]. change (skipWS (lit ":" ++ e ++ tail)) with (lit ":" ++ e ++ tail). change (starts 58 (lit ":" ++ e ++ tail)) with true. cbn [negb].
    change (drop 1 (lit ":" ++ e ++ tail)) with (e ++ tail). by rewrite E. }
  induction ms as [|[[k x] e] ms IH]; [done|]. intros _ Hall l0 lf r h1 Hok Hlf Hfuel. apply Forall_cons in Hall as [[_ Hx] Hall]. cbn [fst snd] in Hx. destruct lf as [|lf]; [cbn in Hlf; lia|].
  change (member_text (k, x, e)) with (member_text (k, LNil, e)) in *. cbn [map length] in *. change (member_text (k, x, e)) with (member_text (k, LNil, e)) in *. destruct ms as [|p ms].
  - cbn [map join_comma] in *. assert (length (e ++ lit "}" ++ r) < fuel)%nat as Hfe by (unfold member_text in Hfuel; rewrite !length_app in *; cbn [snd] in Hfuel; lia).
    destruct (Hx s dmax fuel depth (lit "}" ++ r) h1 ltac:(right; right; by left) Hfe room Hok) as (x' & h2 & E & Hs & Hg). rewrite (Hstep k e _ lf _ h1 x' h2 E).
    change (starts 44 (skipWS (lit "}" ++ r))) with false. change (starts 125 (skipWS (lit "}" ++ r))) with true. cbv iota.
    destruct (alloc_grows h2 (RawSet (fill l0) (LString k) x') (proj2 Hg)) as (a & h3 & -> & Ha & Hg2). exists [x'], a, h3.
    split_and!; [done|by eapply grows_trans|repeat constructor; eapply same_grows; [apply Hg2|done]|]. rewrite Ha. cbn [map zip zip_with fst]. unfold fill. by rewrite foldl_snoc.
  - rewrite join_cons in Hfuel |- * by done. rewrite <- !app_assoc in Hfuel |- *. set (tail := lit "," ++ join_comma (map member_text (p :: ms)) ++ lit "}" ++ r) in *.
    assert (length (e ++ tail) < fuel)%nat as Hfe by (unfold member_text in Hfuel; rewrite !length_app in *; cbn [snd] in Hfuel; lia).
    destruct (Hx s dmax fuel depth tail h1 ltac:(by left) Hfe room Hok) as (x' & h2 & E & Hs & Hg). rewrite (Hstep k e _ lf _ h1 x' h2 E).
    change (starts 44 (skipWS tail)) with true. cbv iota. change (drop 1 (skipWS tail)) with (join_comma (map member_text (p :: ms)) ++ lit "}" ++ r).
    replace (RawSet (fill l0) (LString k) x') with (fill (l0 ++ [(LString k, x')])) by (unfold fill; by rewrite foldl_snoc).
    unfold tail in Hfe. rewrite !length_app in Hfe. destruct (IH ltac:(done) Hall (l0 ++ [(LString k, x')]) lf r h2 (proj2 Hg) ltac:(cbn in *; lia) ltac:(rewrite !length_app; cbn in *; lia)) as (vs & a & h3 & -> & Hg2 & Hvs & Ha).
    exists (x' :: vs), a, h3. split_and!; [done|by eapply grows_trans|constructor; [eapply same_grows; [apply Hg2|done]|done]|]. rewrite Ha. do 2 f_equal. by rewrite <- app_assoc.
Qed.
End loops.

(** *** Scalars *)

Lemma head_digit (c : ascii) : (byte_val c =? 45) || is_digit c = true -> byte_val c = 45 \/ 48 <= byte_val c <= 57.
Proof. unfold is_digit. intros [E|E]%orb_true_iff; [left; by breflect|right]. apply andb_true_iff in E as [? ?]. by breflect. Qed.

Lemma scalar_text (n levels : nat) (v : LValue) : (match v with LTable _ => False | _ => True end) -> json_ok n v ->
  exists e, writeJSON h snap levels v = Ok e /\ reads_as n v e.
Proof.
  intros Hv Hok.
  destruct v as [|b|f|s|a|u|p]; try (by destruct n).
  - exists (lit (if b then "true" else "false")%string). split; [by destruct levels|]. split; [destruct b; by do 2 eexists|].
    intros s dmax fuel depth r h1 Hr Hf Hd Hh. destruct fuel as [|fuel]; [lia|]. exists (LBool b), h1. split_and!; [destruct b, r; reflexivity|by destruct n|by apply grows_refl].
  - assert (number_ok f) as (Hfin & (c & t & Ec & Hc) & Hlen & g & Hg & Hs) by (by destruct n). exists (fmtNum f (precision snap)).
    split; [destruct levels; cbn [writeJSON]; by rewrite Hfin|]. apply head_digit in Hc as Hb. assert (is_ws c = false) as Hws by (unfold is_ws; cbn; repeat (rewrite (proj2 (Z.eqb_neq _ _)) by lia); done).
    split; [exists c, t; split; [done|]; split_and!; [done|lia|lia]|].
    intros s dmax fuel depth r h1 Hr Hf Hd Hh. destruct fuel as [|fuel]; [lia|]. exists (LNumber g), h1. split_and!; [|by destruct n|by apply grows_refl].
    specialize (Hlen r Hr). set (e := fmtNum f (precision snap)) in *. cbn [parseValue]. cbv zeta.
    assert (skipWS (e ++ r) = c :: t ++ r) as -> by (rewrite Ec; cbn [app]; by apply skip_head). repeat (rewrite (proj2 (Z.eqb_neq (byte_val c) _)) by lia). cbn [orb andb].
    assert (is_sign c || is_digit c = true) as -> by (unfold is_sign; apply orb_true_iff in Hc as [-> | ->]; [done|apply orb_true_r]).
    change (c :: t ++ r) with ((c :: t) ++ r). rewrite <- Ec. unfold parseNumber. cbv zeta. rewrite Hlen. rewrite (proj2 (Z.eqb_neq _ _)) by (rewrite Ec, len_cons; pose proof (len_nonneg t); lia).
    replace (Z.to_nat (len e)) with (length e) by (unfold len; lia). rewrite take_app_length, drop_app_length. by rewrite Hg.
  - exists (writeJSONString s). split; [by destruct levels|]. split; [by do 2 eexists|].
    intros s0 dmax fuel depth r h1 Hr Hf Hd Hh. destruct fuel as [|fuel]; [lia|]. exists (LString s), h1. split_and!; [|by destruct n|by apply grows_refl].
    cbn [parseValue]. cbv zeta. change (skipWS (writeJSONString s ++ r)) with (writeJSONString s ++ r). pose proof (string_read s0 s r) as E.
    change (writeJSONString s ++ r) with (quote :: (concat (map escape s) ++ [quote]) ++ r) in *. change (byte_val quote =? 34) with true. cbv iota. by rewrite E.
  - assert (u = 1%positive) as -> by (by destruct n). exists (lit "null"). split; [by destruct levels|]. split; [by do 2 eexists|].
    intros s dmax fuel depth r h1 Hr Hf Hd Hh. destruct fuel as [|fuel]; [lia|]. exists cjsonNull, h1. split_and!; [destruct r; reflexivity|by destruct n|by apply grows_refl].
Qed.

(** *** Tables *)

Lemma all_ok_forall {A : Type} (f : A -> result bytes) (P : A -> bytes -> Prop) (l : list A) :
  (forall x, x ∈ l -> exists e, f x = Ok e /\ P x e) -> exists es, all_ok (map f l) = Ok es /\ Forall2 P l es.
Proof.
  induction l as [|x l IH]; intros Hl; [by exists []|]. destruct (Hl x ltac:(by left)) as (e & E & He). destruct (IH (fun y Hy => Hl y ltac:(by right))) as (es & Es & Hes).
  exists (e :: es). split; [|by constructor]. cbn [map all_ok]. by rewrite E, Es.
Qed.

Lemma join_length (l : list bytes) : Forall (fun e => 0 < length e)%nat l -> (length l <= length (join_comma l))%nat.
Proof.
  induction 1 as [|x l Hx Hl IH]; [done|]. destruct l as [|y l]; [cbn [join_comma length] in *; lia|].
  rewrite join_cons by done. rewrite !length_app. cbn [length lit] in *. lia.
Qed.

Lemma reads_nonempty (n : nat) (x : LValue) (e : bytes) : reads_as n x e -> (0 < length e)%nat.
Proof. intros [(c & r & -> & _) _]. cbn; lia. Qed.

Lemma largest_ge (keys : list LValue) (f : Z) : LNumber f ∈ keys -> is_position (LNumber f) = true -> f64_to_i64 f <= largest keys.
Proof.
  unfold largest. intros Hin Hp. induction keys as [|k keys IH] using rev_ind; [by apply elem_of_nil in Hin|]. rewrite foldl_snoc. apply elem_of_app in Hin as [Hin|Hin].
  - specialize (IH Hin). destruct k; try done. destruct (_ && _) eqn:E; [|done]. apply andb_true_iff in E as [_ E]. breflect. lia.
  - apply list_elem_of_singleton in Hin as <-. rewrite Hp. cbn [andb]. destruct (_ <? _) eqn:E; breflect; lia.
Qed.

Lemma get_each (t : T) (k : LValue) : plain_key k -> RawGet t k <> LNil -> exists k0, key_eqb k0 k = true /\ (k0, RawGet t k) ∈ ForEach t.
Proof. intros Hk Hne. exact (proj1 (each_get t k _ Hk Hne) eq_refl). Qed.
Lemma each_gets (t : T) (k x : LValue) : plain_key k -> (k, x) ∈ ForEach t -> RawGet t k = x.
Proof. intros Hk Hin. apply (each_get t k x Hk (each_value t k x Hin)). exists k. split; [by apply key_eqb_refl|done]. Qed.

(** Entering a table. *)
Lemma parse_open (s : bytes) (dmax depth : Z) (fuel : nat) (object : bool) (body : bytes) (h1 : heap T) : depth + 1 <= dmax -> skipWS body = body -> starts (if object then 125 else 93) body = false ->
  parseValue s dmax (S fuel) depth (lit (if object then "{" else "[")%string ++ body) h1 =
  if object then object_loop s (parseValue s dmax fuel (depth + 1)) (S (length body)) NewTable body h1 else array_loop s (parseValue s dmax fuel (depth + 1)) (S (length body)) 1 NewTable body h1.
Proof.
  intros Hd Hw Hs. assert ((dmax <? depth + 1) = false) as E by (apply Z.ltb_ge; lia). destruct object; cbn [parseValue]; cbv zeta.
  - change (skipWS (lit "{" ++ body)) with ("{"%char :: body). cbv iota. change (byte_val "{"%char) with 123. cbn [Z.eqb Pos.eqb orb]. by rewrite E, Hw, Hs.
  - change (skipWS (lit "[" ++ body)) with ("["%char :: body). cbv iota. change (byte_val "["%char) with 91. cbn [Z.eqb Pos.eqb orb]. by rewrite E, Hw, Hs.
Qed.

Lemma get_json_ok (n : nat) (t : T) (k : LValue) : plain_key k -> RawGet t k <> LNil -> (forall k x, (k, x) ∈ ForEach t -> json_ok n x) -> json_ok n (RawGet t k).
Proof. intros Hk Hne Hall. destruct (get_each t k Hk Hne) as (k0 & _ & Hin). by apply (Hall k0). Qed.

Lemma position_key (f : Z) : is_u64 f -> is_position (LNumber f) = true -> 1 <= f64_to_i64 f -> key_eqb (LNumber (f64_of_Z (f64_to_i64 f))) (LNumber f) = true.
Proof.
  intros Hf Hp Hge. cbn [is_position] in Hp. apply andb_true_iff in Hp as [_ Hint]. unfold f64_to_i64 in *. cbv zeta in *. destruct (f64_finite f) eqn:Hfin; [|lia].
  destruct ((- 2 ^ 63 <=? f64_trunc f) && (f64_trunc f <? 2 ^ 63)); [|lia]. by apply f64_of_trunc_eqb.
Qed.

Section tables.
Variables (n levels : nat) (a : positive).
Notation t := (table_at h a).
Hypothesis IH : forall v, json_ok n v -> exists e, writeJSON h snap levels v = Ok e /\ reads_as n v e.
Hypothesis entries_ok : forall k x, (k, x) ∈ ForEach t -> json_ok n x.

Lemma array_back_json (m : Z) : dense t m -> exists e, writeJSONObject (writeJSON h snap levels) t snap = Ok e /\ reads_as (S n) (LTable a) e.
Proof.
  intros (Hm & Hlg & Hfull & Hkeys & Hsp).
  assert (forall k, k ∈ NextKeys t -> exists f, k = LNumber f /\ is_u64 f /\ is_position k = true /\ 1 <= f64_to_i64 f) as Hnk by (intros k [x Hx]%next_each; by apply (Hkeys k x)).
  assert (forallb is_position (NextKeys t) = true) as Hfa by (apply forallb_forall; intros k Hk%list_elem_of_In; by destruct (Hnk k Hk) as (f & _ & _ & ? & _)).
  set (xs := map (fun i => RawGetInt t (Z.of_nat i)) (seq 1 (Z.to_nat m))).
  destruct (all_ok_forall (fun i => match RawGetInt t (Z.of_nat i) with LNil => Ok (lit "null") | item => writeJSON h snap levels item end)
    (fun i e => reads_as n (RawGetInt t (Z.of_nat i)) e) (seq 1 (Z.to_nat m))) as (es & Ees & Hes).
  { intros i Hi%elem_of_seq. assert (RawGetInt t (Z.of_nat i) <> LNil) as Hne by (apply Hfull; lia).
    destruct (IH (RawGetInt t (Z.of_nat i))) as (e & E & He); [apply get_json_ok; [apply int_plain; lia|done|done]|]. exists e. split; [|done]. by destruct (RawGetInt t (Z.of_nat i)). }
  exists (lit "[" ++ join_comma es ++ lit "]"). split.
  { unfold writeJSONObject. cbv zeta. rewrite Hlg, Hfa. destruct (NextKeys t) as [|k0 ks] eqn:Ek; [unfold largest in Hlg; cbn in Hlg; lia|]. cbn [andb]. rewrite Hsp. by rewrite Ees. }
  assert (Forall2 (reads_as n) xs es) as Hxe by (unfold xs; by apply Forall2_fmap_l).
  assert (length xs = Z.to_nat m) as Hxl by (unfold xs; by rewrite length_map, length_seq). pose proof (Forall2_length _ _ _ Hxe) as Hel.
  split; [by do 2 eexists|]. intros s dmax fuel depth r h1 Hr Hf Hd Hok. destruct fuel as [|fuel]; [lia|].
  set (xes := zip xs es). assert (map fst xes = xs) as Efst by (unfold xes; apply fst_zip; lia). assert (map snd xes = es) as Esnd by (unfold xes; apply snd_zip; lia).
  assert (Forall (fun p => reads_as n p.1 p.2) xes) as Hall by (unfold xes; clear -Hxe; induction Hxe; constructor; auto).
  assert (length xes = Z.to_nat m) as Hzl by (by rewrite <- Hxl, <- Efst, length_map). assert (xes <> []) as Hne by (intros ->; cbn in Hzl; lia).
  pose proof (join_length es ltac:(clear -Hxe; induction Hxe; constructor; eauto using reads_nonempty)) as Hjl.
  rewrite <- !app_assoc in Hf |- *. set (body := join_comma es ++ lit "]" ++ r) in *.
  assert (exists c r', body = c :: r' /\ value_head c) as (c & r' & Eb & Hc & Hc1 & _).
  { unfold body. destruct Hxe as [|x e xs' es' [(c & r' & -> & Hc) _] _]; [cbn in Hxl; lia|]. destruct es' as [|e2 es']; [|rewrite join_cons by done]; by do 2 eexists. }
  assert (skipWS body = body /\ starts 93 body = false) as [Hw Hs] by (rewrite Eb; split; [by apply skip_head|cbn; by apply Z.eqb_neq]).
  rewrite (parse_open s dmax depth fuel false body h1 ltac:(lia) Hw Hs).
  assert (length body < fuel)%nat as Hbf by (rewrite length_app in Hf; change (length (lit "[")) with 1%nat in Hf; lia).
  destruct (array_text n s dmax (depth + 1) fuel ltac:(lia) xes Hne Hall 1 [] (S (length body)) r h1 Hok) as (vs & a' & h2 & E & Hg & Hvs & Ht); [unfold body; rewrite length_app; lia|by rewrite Esnd|].
  rewrite Esnd in E. fold body in E. change (fill []) with (NewTable (T := T)) in E. rewrite Efst in Hvs. rewrite Hzl in Ht. cbn [app] in Ht.
  exists (LTable a'), h2. split_and!; [exact E| |exact Hg]. apply (same_table h n h2 a a' _ Ht). apply fill_same.
  - intros k v Hin. apply list_elem_of_lookup in Hin as [j Hj]. apply lookup_zip_with_Some in Hj as (k0 & v0 & [= <- <-] & Hk & Hv). rewrite list_lookup_fmap in Hk. apply fmap_Some in Hk as (j0 & Hj0 & ->).
    apply lookup_seq in Hj0 as [-> Hjl0]. split; [apply int_plain; lia|]. eapply (Forall2_lookup_lr _ _ _ _ _ _ Hvs); [|exact Hv]. unfold xs. rewrite list_lookup_fmap, lookup_seq_lt by lia. cbn. unfold RawGetInt. by replace (Z.of_nat (S j)) with (1 + Z.of_nat j) by lia.
  - intros k Hk Hnil. destruct (get_each _ k Hk Hnil) as (k0 & E0 & Hin). destruct (Hkeys _ _ Hin) as (f & -> & Hf64 & Hp & Hge).
    assert (f64_to_i64 f <= m) as Hle by (rewrite <- Hlg; apply largest_ge; [apply next_each; by eexists|done]).
    assert (length vs = Z.to_nat m) as Hvl by (by rewrite <- Hxl, (Forall2_length _ _ _ Hvs)). destruct (lookup_lt_is_Some_2 vs (Z.to_nat (f64_to_i64 f - 1)) ltac:(lia)) as [v Hv].
    exists (LNumber (f64_of_Z (f64_to_i64 f)), v). split; [|apply (key_eqb_trans _ (LNumber f)); [by apply position_key|done]]. apply list_elem_of_lookup. exists (Z.to_nat (f64_to_i64 f - 1)).
    apply lookup_zip_with_Some. do 2 eexists. split_and!; [done| |done]. rewrite list_lookup_fmap, lookup_seq_lt by lia. cbn. do 3 f_equal. lia.
Qed.

Lemma string_keys (l : list LValue) : (forall k, k ∈ l -> exists s, k = LString s) -> exists ks, l = map LString ks.
Proof.
  induction l as [|k l IHl]; intros Hl; [by exists []|]. destruct (Hl k ltac:(by left)) as [s ->]. destruct (IHl (fun k Hk => Hl k ltac:(by right))) as [ks ->]. by exists (s :: ks).
Qed.

(** The text of an object with the keys [ks]. *)
Lemma object_encoding (ks : list bytes) : (forall s, s ∈ ks -> LString s ∈ NextKeys t) -> exists ms,
  writeJSONObjectAsObject (writeJSON h snap levels) t (map LString ks) snap = Ok (lit "{" ++ join_comma (map member_text ms) ++ lit "}") /\
  Forall (fun p => reads_as n p.1.2 p.2 /\ p.1.2 = RawGet t (LString p.1.1)) ms /\ map (fun p => p.1.1) ms = ks.
Proof.
  intros Hks. destruct (all_ok_forall (fun k => let? ks := match k with LString s => Ok s | LNumber f => Ok (fmtNum f (precision snap))
      | _ => cjsonRaise (lit "Cannot serialise " ++ type_name k ++ lit ": table key must be a number or string") end in
    let? v := writeJSON h snap levels (RawGet t k) in Ok (writeJSONString ks ++ lit ":" ++ v))
    (fun k e => exists s v, k = LString s /\ e = member_text (s, RawGet t k, v) /\ reads_as n (RawGet t k) v) (map LString ks)) as (es & E & Hes).
  { intros k Hk. apply list_elem_of_In, in_map_iff in Hk as (s & <- & Hs%list_elem_of_In). destruct (proj1 (next_each _ _) (Hks s Hs)) as [x Hx].
    destruct (IH (RawGet t (LString s))) as (v & Ev & Hv); [rewrite (each_gets _ (LString s) x) by done; by apply (entries_ok (LString s))|].
    exists (member_text (s, RawGet t (LString s), v)). split; [cbn; by rewrite Ev|by exists s, v]. }
  assert (exists ms, es = map member_text ms /\ Forall (fun p => reads_as n p.1.2 p.2 /\ p.1.2 = RawGet t (LString p.1.1)) ms /\ map (fun p => p.1.1) ms = ks) as (ms & -> & Hms & Hk).
  { clear E Hks. revert es Hes. induction ks as [|k ks IHk]; intros es Hes; cbn [map] in Hes.
    - apply Forall2_nil_inv_l in Hes as ->. by exists [].
    - apply Forall2_cons_inv_l in Hes as (e & es' & (s & v & [= <-] & -> & Hv) & Hes & ->). destruct (IHk es' Hes) as (ms & -> & Hms & <-).
      exists ((k, RawGet t (LString k), v) :: ms). split_and!; [done|by constructor|done]. }
  exists ms. split_and!; [|done|done]. unfold writeJSONObjectAsObject. by rewrite E.
Qed.

Lemma object_back_json : (forall k x, (k, x) ∈ ForEach t -> exists s, k = LString s) ->
  exists e, writeJSONObject (writeJSON h snap levels) t snap = Ok e /\ reads_as (S n) (LTable a) e.
Proof.
  intros Hstr. destruct (string_keys (NextKeys t)) as [ks Eks]; [intros k [x Hx]%next_each; by apply (Hstr k x)|].
  destruct (object_encoding ks ltac:(intros s Hs; rewrite Eks; apply list_elem_of_In, in_map, list_elem_of_In, Hs)) as (ms & E & Hms & Hk).
  assert (forall k, plain_key k -> RawGet t k <> LNil -> exists s, s ∈ ks /\ key_eqb (LString s) k = true) as Hcover.
  { intros k Hp Hne. destruct (get_each t k Hp Hne) as (k0 & E0 & Hin). destruct (Hstr _ _ Hin) as [s ->]. exists s. split; [|done].
    assert (LString s ∈ NextKeys t) as Hin' by (apply next_each; by eexists). rewrite Eks in Hin'. apply list_elem_of_In, in_map_iff in Hin' as (s' & [= ->] & ?). by apply list_elem_of_In. }
  exists (lit "{" ++ join_comma (map member_text ms) ++ lit "}"). split.
  { unfold writeJSONObject. rewrite Eks. destruct ks as [|k0 ks]; [by destruct ms|]. cbn [map forallb is_position andb]. cbn [map] in E. exact E. }
  split; [by do 2 eexists|]. intros s dmax fuel depth r h1 Hr Hf Hd Hok. destruct fuel as [|fuel]; [lia|]. destruct (decide (ms = [])) as [->|Hne].
  - assert ((dmax <? depth + 1) = false) as Ed by (apply Z.ltb_ge; lia). destruct (alloc_grows h1 NewTable Hok) as (a' & h2 & Ea & Ht & Hg). exists (LTable a'), h2. split_and!; [|apply (same_table h n h2 a a' _ Ht)|done].
    + cbn [parseValue]. cbv zeta. change (skipWS ((lit "{" ++ join_comma (map member_text []) ++ lit "}") ++ r)) with ("{"%char :: "}"%char :: r). cbv iota. change (byte_val "{"%char) with 123. cbn [Z.eqb Pos.eqb orb]. rewrite Ed.
      change (skipWS ("}"%char :: r)) with ("}"%char :: r). change (starts 125 ("}"%char :: r)) with true. cbv iota. by rewrite Ea.
    + intros k Hp. subst ks. destruct (decide (RawGet t k = LNil)) as [->|Hn]; [rewrite get_new; by destruct n|]. by destruct (Hcover k Hp Hn) as (s0 & Hs0%elem_of_nil & _).
  - rewrite <- !app_assoc in Hf |- *. set (body := join_comma (map member_text ms) ++ lit "}" ++ r) in *.
    assert (exists r', body = quote :: r') as [r' Eb] by (unfold body; destruct ms as [|p [|q ms]]; [done|by eexists|cbn [map]; rewrite join_cons by done; by eexists]).
    assert (skipWS body = body /\ starts 125 body = false) as [Hw Hs] by (rewrite Eb; done). rewrite (parse_open s dmax depth fuel true body h1 ltac:(lia) Hw Hs).
    assert (length body < fuel)%nat as Hbf by (rewrite length_app in Hf; change (length (lit "{")) with 1%nat in Hf; lia).
    assert (length ms <= length body)%nat as Hml by (unfold body; rewrite length_app; rewrite <- (length_map member_text ms) at 1; pose proof (join_length (map member_text ms) ltac:(apply Forall_map, Forall_true; intros; cbn; lia)); lia).
    destruct (object_text n s dmax (depth + 1) fuel ltac:(lia) ms Hne ltac:(eapply Forall_impl; [exact Hms|by intros ? [? _]]) [] (S (length body)) r h1 Hok ltac:(lia) Hbf) as (vs & a' & h2 & Eo & Hg & Hvs & Ht).
    fold body in Eo. change (fill []) with (NewTable (T := T)) in Eo. cbn [app] in Ht. exists (LTable a'), h2. split_and!; [exact Eo| |exact Hg]. apply (same_table h n h2 a a' _ Ht). apply fill_same.
    + intros k v Hin. apply list_elem_of_lookup in Hin as [j Hj]. apply lookup_zip_with_Some in Hj as (k0 & v0 & [= <- <-] & Hkj & Hv). rewrite list_lookup_fmap in Hkj. apply fmap_Some in Hkj as (p & Hp & ->).
      split; [done|]. rewrite Forall_lookup in Hms. destruct (Hms _ _ Hp) as [_ <-]. eapply (Forall2_lookup_lr _ _ _ _ _ _ Hvs); [|exact Hv]. by rewrite list_lookup_fmap, Hp.
    + intros k Hp Hn. destruct (Hcover k Hp Hn) as (s0 & Hs0 & E0). rewrite <- Hk in Hs0. apply list_elem_of_lookup in Hs0 as [j Hj]. rewrite list_lookup_fmap in Hj. apply fmap_Some in Hj as (p & Hpj & ->).
      destruct (Forall2_lookup_l _ _ _ j p.1.2 Hvs) as (v & Hv & _); [by rewrite list_lookup_fmap, Hpj|]. exists (LString p.1.1, v). split; [|done].
      apply list_elem_of_lookup. exists j. apply lookup_zip_with_Some. do 2 eexists. split_and!; [done| |done]. by rewrite list_lookup_fmap, Hpj.
Qed.
End tables.

Lemma encode_reads (n : nat) : forall (levels : nat) (v : LValue), (n <= levels)%nat -> json_ok n v -> exists e, writeJSON h snap levels v = Ok e /\ reads_as n v e.
Proof.
  induction n as [|n IH]; intros levels v Hl Hv; (destruct v as [| | | |a| |]; try (by apply scalar_text)). destruct levels as [|levels]; [lia|].
  destruct Hv as [Hx [Hstr|[m Hm]]]; cbn [writeJSON]; [|apply (array_back_json n levels a) with (m := m); [|done|done]]; [apply object_back_json; [|done|done]|]; intros v Hv; apply IH; [lia|done|lia|done].
Qed.

End roundtrip.

(** ** On concrete values *)

Section examples.
#[local] Instance cj_tables : LuaTable assoc := assoc_table.
#[local] Instance cj_gp : GoFloatGP := {| FormatFloatGP := fun f _ => FormatInt (f64_trunc f) |}.
#[local] Instance cj_parse : GoFloatParse := {| ParseFloat64 := fun t => match ParseInt t with Some i => (f64_of_Z i, POk) | None => (0, PSyntax) end |}.
#[local] Instance cj_math : GoFloatMath :=
  {| fm_add := Z.add; fm_sub := Z.sub; fm_mul := Z.mul; fm_div := fun a b => f64_of_Z (f64_trunc a / f64_trunc b); fm_sqrt := Z.sqrt; fm_pow := Z.pow;
     fm_round := fun a => a; fm_of_int := f64_of_Z; fm_to_u64 := f64_trunc |}.

Definition jnum (i : Z) : LValue := LNumber (f64_of_Z i).
(** {"x", 7, true} and {a = that, b = null} *)
Definition jinner : assoc := [(jnum 1, LString (lit "x")); (jnum 2, jnum 7); (jnum 3, LBool true)].
Definition jouter : assoc := [(LString (lit "a"), LTable 1); (LString (lit "b"), cjsonNull)].
Definition jheap : heap assoc := mkHeap 3 {[1%positive := jinner; 2%positive := jouter]}.

Lemma seven_ok : number_ok defaultCjsonSettings (f64_of_Z 7).
Proof.
  split_and!; [done|by do 2 eexists| |eexists; split; [reflexivity|by left]].
  change (fmtNum (f64_of_Z 7) (precision defaultCjsonSettings)) with (lit "7"). intros [|c r] Hr; [reflexivity|]. cbn [delim] in Hr.
  destruct c as [[] [] [] [] [] [] [] []]; try (exfalso; revert Hr; vm_compute; intros Hr; repeat (apply elem_of_cons in Hr as [Hr|Hr]; [discriminate|]); by apply elem_of_nil in Hr);
    unfold numLen; match goal with |- context [lit "7" ++ ?x] => change (skip_sign (lit "7" ++ x)) with (lit "7" ++ x); change (skip_digits (lit "7" ++ x)) with x; set (y := x) end;
    rewrite (proj2 (Z.ltb_lt (len y) (len (lit "7" ++ y)))) by (rewrite len_app; change (len (lit "7")) with 1; lia); unfold y at 1; cbv zeta; cbn [byte_val negb andb];
    match goal with |- context [byte_val ?c =? 46] => change (byte_val c =? 46) with false end; cbv iota beta; rewrite len_app; unfold y; 
    match goal with |- context [(byte_val ?c =? 101) || (byte_val ?c =? 69)] => change ((byte_val c =? 101) || (byte_val c =? 69)) with false end; cbv iota; lia.
Qed.

Lemma jouter_ok : json_ok jheap defaultCjsonSettings 2 (LTable 2).
Proof.
  assert (forall k x, (k, x) ∈ jouter -> (k, x) = (LString (lit "a"), LTable 1) \/ (k, x) = (LString (lit "b"), cjsonNull)) as Ho.
  { intros k x Hin. apply list_elem_of_In in Hin. cbn in Hin. naive_solver. }
  assert (forall k x, (k, x) ∈ jinner -> (k, x) = (jnum 1, LString (lit "x")) \/ (k, x) = (jnum 2, jnum 7) \/ (k, x) = (jnum 3, LBool true)) as Hi.
  { intros k x Hin. apply list_elem_of_In in Hin. cbn [In jinner] in Hin. naive_solver. }
  split; change (ForEach (table_at jheap 2)) with jouter; [|left; intros k x [[= -> ->]|[= -> ->]]%Ho; by eexists].
  intros k x [[= -> ->]|[= -> ->]]%Ho; [|done]. split; change (ForEach (table_at jheap 1)) with jinner; [intros k x [[= -> ->]|[[= -> ->]|[= -> ->]]]%Hi; [done|apply seven_ok|done]|].
  right. exists 3. split_and!; [lia|done|done| | |reflexivity].
  - intros i Hx. assert (i = 1 \/ i = 2 \/ i = 3) as [->|[->| ->]] by lia; discriminate.
  - intros k x [[= -> ->]|[[= -> ->]|[= -> ->]]]%Hi; eexists; (split; [reflexivity|]); (split; [by vm_compute|]); (split; [reflexivity|by vm_compute]).
Qed.


Example encode_text : cjsonEncode defaultCjsonSettings [LTable 2] jheap =
  Ok [LString (lit "{" ++ [quote] ++ lit "a" ++ [quote] ++ lit ":[" ++ [quote] ++ lit "x" ++ [quote] ++ lit ",7,true]," ++ [quote] ++ lit "b" ++ [quote] ++ lit ":null}")].
Proof. vm_compute. reflexivity. Qed.

(** A surrogate pair, the only way JSON text can escape a character beyond
    U+FFFF, is refused: the second escape is read one byte too far. *)
Example surrogate_pair_refused : cjsonDecode defaultCjsonSettings [LString ([quote; backslash] ++ lit "ud83d" ++ [backslash] ++ lit "ude00" ++ [quote])] jheap =
  Some (Err (EMsg (lit "Expected value but found invalid unicode escape code at character 2"))).
Proof. vm_compute. reflexivity. Qed.
(** With a stray byte after the second [u] it is accepted. *)
Example surrogate_pair_stray : cjsonDecode defaultCjsonSettings [LString ([quote; backslash] ++ lit "ud83d" ++ [backslash] ++ lit "u!de00" ++ [quote])] jheap =
  Some (Ok ([LString (map byte_of [0xf0; 0x9f; 0x98; 0x80])], jheap)).
Proof. vm_compute. reflexivity. Qed.

(** A table whose only key is 2^63 is encoded as the empty array. *)
Example huge_key_lost : cjsonEncode defaultCjsonSettings [LTable 1] (mkHeap 2 {[1%positive := [(jnum (2 ^ 63), LString (lit "lost"))]]}) = Ok [LString (lit "[]")].
Proof. vm_compute. reflexivity. Qed.
End examples.
End cjsonspec.
