(* ===== verification/CmdSort.v ===== *)
(** * SORT and SORT_RO (src/internal/commands/generic.go)

    [sort.SliceStable] is the stable insertion sort; on scores that are not NaN
    every stable sort gives the same result. *)

From S2P Require Import Prelude GoLib GoStrings GoPath Resp Codec Kv Cmd CmdString CmdList CmdKeys CmdKeysSpec CmdHash CmdSet CmdZSet CmdZSetSpec.
Open Scope Z_scope.
Open Scope gedis_scope.

Module sortcmd.
Import datastruct keycmd.

Record sortOptions : Type := mkSort {
  by_ : option bytes; limit : option (Z * Z); gets : list bytes; desc : bool; alpha : bool; store_ : option bytes;
}.
Definition no_options : sortOptions := mkSort None None [] false false None.

(** [strings.Index(s, sep)] for the two bytes of an arrow: what precedes and
    what follows. *)
Fixpoint arrow (s : bytes) : option (bytes * bytes) :=
  match s with
  | a :: s' =>
      match s' with
      | b :: r => if Ascii.eqb a "-" && Ascii.eqb b ">" then Some ([], r) else option_map (fun p : bytes * bytes => (a :: p.1, p.2)) (arrow s')
      | [] => None
      end
  | [] => None
  end.

Record sortItem : Type := mkItem { elem : bytes; score : Z; str : bytes }.

Definition item_less (o : sortOptions) (a b : sortItem) : bool :=
  if alpha o then
    if bytes_eqb (str a) (str b) then false else if desc o then bytes_ltb (str b) (str a) else bytes_ltb (str a) (str b)
  else if f64_eqb (score a) (score b) then false
  else if desc o then f64_ltb (score b) (score a) else f64_ltb (score a) (score b).

(** The slice of LIMIT; the sum wraps around. *)
Definition window (o : sortOptions) (items : list sortItem) : result (list sortItem) :=
  let n := len items in
  match limit o with
  | None => Ok items
  | Some (off, cnt) =>
      let lo := if off <? 0 then 0 else off in
      let lo := if n <? lo then n else lo in
      let hi := if cnt <? 0 then n else let hi := i64 (lo + cnt) in if n <? hi then n else hi in
      if hi <? lo then Panic else Ok (take (Z.to_nat (hi - lo)) (drop (Z.to_nat lo) items))
  end.

Section handlers.
Context {S : Type} `{KV S} `{Clock} `{GoUnicode} `{GoFloat}.

Definition sort_syntax : Value := errS "ERR syntax error".

Fixpoint parseSortOptions (args : list Value) (o : sortOptions) : sortOptions + Value :=
  match args with
  | [] => inl o
  | a :: rest =>
      match argString a with
      | None => inr sort_syntax
      | Some name =>
          let u := ToUpper name in
          if bytes_eqb u (lit "BY") then
            match rest with
            | b :: rest => match argString b with Some s => parseSortOptions rest (mkSort (Some s) (limit o) (gets o) (desc o) (alpha o) (store_ o)) | None => inr sort_syntax end
            | [] => inr sort_syntax
            end
          else if bytes_eqb u (lit "LIMIT") then
            match rest with
            | b :: c :: rest =>
                match argString b, argString c with
                | Some offStr, Some cntStr =>
                    match ParseInt offStr, ParseInt cntStr with
                    | Some off, Some cnt => parseSortOptions rest (mkSort (by_ o) (Some (off, cnt)) (gets o) (desc o) (alpha o) (store_ o))
                    | _, _ => inr err_int
                    end
                | _, _ => inr sort_syntax
                end
            | _ => inr sort_syntax
            end
          else if bytes_eqb u (lit "GET") then
            match rest with
            | b :: rest => match argString b with Some s => parseSortOptions rest (mkSort (by_ o) (limit o) (gets o ++ [s]) (desc o) (alpha o) (store_ o)) | None => inr sort_syntax end
            | [] => inr sort_syntax
            end
          else if bytes_eqb u (lit "ASC") then parseSortOptions rest (mkSort (by_ o) (limit o) (gets o) false (alpha o) (store_ o))
          else if bytes_eqb u (lit "DESC") then parseSortOptions rest (mkSort (by_ o) (limit o) (gets o) true (alpha o) (store_ o))
          else if bytes_eqb u (lit "ALPHA") then parseSortOptions rest (mkSort (by_ o) (limit o) (gets o) (desc o) true (store_ o))
          else if bytes_eqb u (lit "STORE") then
            match rest with
            | b :: rest => match argString b with Some s => parseSortOptions rest (mkSort (by_ o) (limit o) (gets o) (desc o) (alpha o) (Some s)) | None => inr sort_syntax end
            | [] => inr sort_syntax
            end
          else inr sort_syntax
      end
  end.

(** The value a pattern stands for; any error counts as missing. *)
Definition resolveSortPattern (pattern el : bytes) : M S (option bytes) :=
  if bytes_eqb pattern (lit "#") then mret (Some el)
  else
    let key := match Cut pattern "*" with Some (a, b) => a ++ el ++ b | None => pattern end in
    let '(key, field) := match arrow key with Some (k, f) => (k, f) | None => (key, []) end in
    match field with
    | _ :: _ =>
        let! r := attempt (hashcmd.readHash key) in
        mret (match r with inl (m, _) => m !! field | inr _ => None end)
    | [] =>
        let! r := attempt (lookupKey key) in
        mret (match r with inl e => if bool_decide (Type_ e = TypeString) then Some (Payload e) else None | inr _ => None end)
    end.

Definition not_a_score : Value := errS "ERR One or more scores can't be converted into double".

(** The elements with what they are compared by. *)
Fixpoint sort_items (o : sortOptions) (elems : list bytes) : M S (list sortItem + Value) :=
  match elems with
  | [] => mret (inl [])
  | el :: rest =>
      let! item :=
        match by_ o with
        | None =>
            if alpha o then mret (inl (mkItem el 0 el))
            else mret (match ParseFloat el with Some f => inl (mkItem el f []) | None => inr not_a_score end)
        | Some pat =>
            let! v := resolveSortPattern pat el in
            mret (if alpha o then inl (mkItem el 0 (default [] v))
                  else match v with
                       | None => inl (mkItem el 0 [])
                       | Some s => match ParseFloat s with Some f => inl (mkItem el f []) | None => inr not_a_score end
                       end)
        end in
      match item with
      | inr e => mret (inr e)
      | inl it => let! r := sort_items o rest in mret (match r with inl its => inl (it :: its) | inr e => inr e end)
      end
  end.

Fixpoint get_all (pats : list bytes) (el : bytes) (forStore : bool) : M S (list Value) :=
  match pats with
  | [] => mret []
  | pat :: rest =>
      let! v := if bytes_eqb pat (lit "#") then mret (BulkOf el)
                else let! r := resolveSortPattern pat el in
                     mret (match r with Some v => BulkOf v | None => if forStore then BulkOf [] else nilBulk end) in
      let! vs := get_all rest el forStore in mret (v :: vs)
  end.

Fixpoint collectGet (pats : list bytes) (items : list sortItem) (forStore : bool) : M S (list Value) :=
  match items with
  | [] => mret []
  | it :: rest =>
      let! vs := get_all pats (elem it) forStore in
      let! more := collectGet pats rest forStore in mret (vs ++ more)
  end.

Definition sort_elems (e : Entry) (key : bytes) : M S (list bytes) :=
  if bool_decide (Type_ e = TypeList) then let! (l, _) := listcmd.readList key in mret l
  else if bool_decide (Type_ e = TypeSet) then let! (s, _) := setcmd.readSet key in mret (sortStrings (elements s))
  else if bool_decide (Type_ e = TypeZSet) then let! (z, _) := zsetcmd.readZSet key in mret (map fst (zsetcmd.sortedZSet z))
  else merr WRONGTYPE.

(** STORE *)
Definition sort_store (dst : bytes) (out : list bytes) : M S Value :=
  let write (oldExisted : bool) : M S Value :=
    let! w := attempt (listcmd.writeList dst out 0) in
    match w with
    | inr e => mret (errValue e)
    | inl _ =>
        let! _ := Notify "g" (lit "sortstore") dst in
        let! _ := if (len out =? 0) && oldExisted then Notify "g" (lit "del") dst else mret () in
        mret (VInteger (len out))
    end in
  let! r := attempt (lookupRaw dst) in
  match r with
  | inl (raw, e) => let! _ := deleteByRaw raw e dst in write true
  | inr e => if isNotFound e then write false else mret (errValue e)
  end.

Definition sort (args : list Value) : M S Value :=
  match args with
  | [] => mret (wrong_args "sort")
  | a :: rest =>
      match argString a with
      | None => mret (errS "ERR invalid key")
      | Some key =>
          match parseSortOptions rest no_options with
          | inr e => mret e
          | inl o =>
              let! r := attempt (lookupKey key) in
              match r with
              | inr e => mret (if isNotFound e then match store_ o with Some _ => VInteger 0 | None => ArrayOf [] end else errValue e)
              | inl e =>
                  let! r := attempt (sort_elems e key) in
                  match r with
                  | inr e => mret (errValue e)
                  | inl elems =>
                      let! r := sort_items o elems in
                      match r with
                      | inr e => mret e
                      | inl items =>
                          let! items := lift (window o (isort (item_less o) items)) in
                          match store_ o with
                          | Some dst =>
                              let! out := match gets o with
                                          | [] => mret (map elem items)
                                          | _ => let! vs := collectGet (gets o) items true in mret (map arg_or_empty vs)
                                          end in
                              sort_store dst out
                          | None =>
                              match gets o with
                              | [] => mret (ArrayOf (map (fun it => BulkOf (elem it)) items))
                              | _ => let! vs := collectGet (gets o) items false in mret (ArrayOf vs)
                              end
                          end
                      end
                  end
              end
          end
      end
  end.

Definition sortRO (args : list Value) : M S Value :=
  match parseSortOptions (tail args) no_options with
  | inr e => mret e
  | inl o => match store_ o with Some _ => mret sort_syntax | None => sort args end
  end.

End handlers.
(** ** The order of the items *)

Definition item_num (o : sortOptions) (it : sortItem) : Prop := alpha o = true \/ IsNaN (score it) = false.

Lemma item_less_alpha (o : sortOptions) (a b : sortItem) : alpha o = true ->
  item_less o a b = if desc o then bytes_ltb (str b) (str a) else bytes_ltb (str a) (str b).
Proof.
  intros Ha. unfold item_less. rewrite Ha. destruct (bytes_eqb_spec (str a) (str b)) as [E|E]; [|done].
  rewrite E, bytes_ltb_irrefl. by destruct (desc o).
Qed.

Lemma item_less_num (o : sortOptions) (a b : sortItem) : alpha o = false -> IsNaN (score a) = false -> IsNaN (score b) = false ->
  item_less o a b = if desc o then f64_key (score b) <? f64_key (score a) else f64_key (score a) <? f64_key (score b).
Proof.
  intros Ha Na Nb. unfold item_less. rewrite Ha, f64_eqb_key, !f64_ltb_key by done. destruct (desc o), (f64_key (score a) =? f64_key (score b)) eqn:E; try done; lia.
Qed.

Lemma item_asym (o : sortOptions) (a b : sortItem) : item_num o a -> item_num o b -> item_less o a b = true -> item_less o b a = false.
Proof.
  intros Ha Hb. destruct (alpha o) eqn:Al.
  - rewrite !item_less_alpha by done. destruct (desc o); apply bytes_ltb_asym.
  - destruct Ha as [?|Ha], Hb as [?|Hb]; try congruence. rewrite !item_less_num by done. destruct (desc o); lia.
Qed.

Lemma item_nless_trans (o : sortOptions) (a b c : sortItem) : item_num o a -> item_num o b -> item_num o c ->
  item_less o b a = false -> item_less o c b = false -> item_less o c a = false.
Proof.
  intros Ha Hb Hc. destruct (alpha o) eqn:Al.
  - rewrite !item_less_alpha by done. destruct (desc o); eauto using bytes_nltb_trans.
  - destruct Ha as [?|Ha], Hb as [?|Hb], Hc as [?|Hc]; try congruence. rewrite !item_less_num by done. destruct (desc o); lia.
Qed.

(** The sort is stable: within a class of elements none of which is less than
    another, the order is kept. *)
Lemma isort_stable {A : Type} (less : A -> A -> bool) (P : A -> Prop) (q : A -> bool) (l : list A) : Forall P l ->
  (forall a b, P a -> P b -> q a = true -> q b = true -> less a b = false) -> List.filter q (isort less l) = List.filter q l.
Proof.
  intros Hl Hq.
  assert (forall x rp, P x -> Forall P rp -> List.filter q (ins less x rp) = List.filter q (x :: rp)) as Hins.
  { intros x rp Hx. induction 1 as [|y r Hy Hr IH]; cbn [ins]; [done|]. destruct (less x y) eqn:E; [|done].
    cbn [List.filter]. rewrite IH. cbn [List.filter]. destruct (q x) eqn:Ex, (q y) eqn:Ey; try done. by rewrite (Hq x y Hx Hy Ex Ey) in E. }
  assert (forall rp, Forall P rp -> List.filter q (fold_left (fun rp x => ins less x rp) l rp) = reverse (List.filter q l) ++ List.filter q rp) as Hfold.
  { induction Hl as [|x l Hx Hl IH]; intros rp Hrp; cbn [fold_left List.filter]; [done|]. rewrite IH by (rewrite ins_perm; by constructor). rewrite Hins by done. cbn [List.filter].
    destruct (q x); [|done]. by rewrite reverse_cons, <- app_assoc. }
  assert (forall l, List.filter q (reverse l) = reverse (List.filter q l)) as Hrev.
  { clear. induction l as [|x l IH]; [done|]. rewrite reverse_cons. rewrite List.filter_app, IH. cbn [List.filter]. destruct (q x); [by rewrite reverse_cons|by rewrite app_nil_r]. }
  unfold isort. rewrite Hrev, Hfold by constructor. cbn [List.filter]. by rewrite app_nil_r, reverse_involutive.
Qed.

(** ** The properties *)

Section spec.
Context `{Clock} `{GoUnicode} `{GoFloat}.
Notation W := (world (gmap bytes bytes)).
Import keyspec.

(** What an element is compared by, without BY. *)
Definition item_of (o : sortOptions) (el : bytes) : option sortItem :=
  if alpha o then Some (mkItem el 0 el)
  else match ParseFloat el with Some f => if IsNaN f then None else Some (mkItem el f []) | None => None end.

Lemma sort_items_plain (o : sortOptions) (elems : list bytes) (items : list sortItem) (w : W) : by_ o = None -> mapM (item_of o) elems = Some items ->
  sort_items o elems w = (Ok (inl items), w) /\ Forall (item_num o) items /\ map elem items = elems.
Proof.
  intros Hb. revert items. induction elems as [|el elems IH]; intros items; cbn [sort_items mapM]; [intros [= <-]; done|].
  destruct (item_of o el) as [it|] eqn:Ei; [|done]. cbn. destruct (mapM (item_of o) elems) as [its|] eqn:E; [|done]. intros [= <-].
  destruct (IH its eq_refl) as (E1 & Hn & Hm). unfold mbind at 1. rewrite Hb. unfold item_of in Ei.
  assert (exists v, (if alpha o then mret (inl (mkItem el 0 el)) else mret (match ParseFloat el with Some f => inl (mkItem el f []) | None => inr not_a_score end)) w = (Ok v, w) /\ v = inl it /\ item_num o it /\ elem it = el) as (v & -> & -> & Hit & Hel).
  { unfold item_num. destruct (alpha o); [injection Ei as <-; eexists; split_and!; eauto|]. destruct (ParseFloat el) as [f|]; [|done].
    destruct (IsNaN f) eqn:En; [done|]. injection Ei as <-. eexists. split_and!; eauto. }
  unfold mbind. rewrite E1. cbn [fst snd]. unfold mret. split_and!; [done|by constructor|cbn; congruence].
Qed.

(** The part of the sorted list that LIMIT selects. *)
Definition limited {A : Type} (o : sortOptions) (l : list A) : list A :=
  match limit o with
  | None => l
  | Some (off, cnt) => let rest := drop (Z.to_nat off) l in if cnt <? 0 then rest else take (Z.to_nat cnt) rest
  end.

Lemma window_limited (o : sortOptions) (items : list sortItem) : len items < 2 ^ 62 -> (forall off cnt, limit o = Some (off, cnt) -> cnt < 2 ^ 62) ->
  window o items = Ok (limited o items).
Proof.
  intros Hn Hl. unfold window, limited. destruct (limit o) as [[off cnt]|]; [|done]. specialize (Hl off cnt eq_refl). cbv zeta. pose proof (len_nonneg items).
  set (lo := if len items <? (if off <? 0 then 0 else off) then len items else if off <? 0 then 0 else off).
  assert (0 <= lo <= len items) as Hlo by (unfold lo; destruct (off <? 0) eqn:?; destruct (len items <? _) eqn:?; breflect; lia).
  assert (drop (Z.to_nat lo) items = drop (Z.to_nat off) items) as Hd.
  { unfold lo. destruct (off <? 0) eqn:E1; destruct (len items <? _) eqn:E2; breflect; try done; try lia.
    - by replace (Z.to_nat off) with 0%nat by lia.
    - unfold len in *. rewrite !drop_ge by lia. done. }
  assert (length (drop (Z.to_nat lo) items) = Z.to_nat (len items - lo)) as Hlen by (rewrite length_drop; unfold len in *; lia).
  destruct (cnt <? 0) eqn:Ec; breflect.
  - rewrite (proj2 (Z.ltb_ge _ _)) by lia. rewrite Hd in *. by rewrite take_ge by lia.
  - rewrite i64_id by (unfold is_i64; lia). destruct (len items <? lo + cnt) eqn:E3; breflect; rewrite (proj2 (Z.ltb_ge _ _)) by lia; rewrite Hd in *.
    + rewrite !take_ge by lia. done.
    + by replace (lo + cnt - lo) with cnt by lia.
Qed.

(** SORT of a list without BY, GET and STORE, when every element is a
    number (or ALPHA is given) and LIMIT is not gigantic: the answer is the
    part LIMIT selects of a permutation of the list that is ordered as asked,
    equal elements keeping their order; nothing is written. *)
Theorem sort_exact (key raw : bytes) (exp : Z) (elems : list bytes) (rest : list Value) (o : sortOptions) (items : list sortItem) (t : nat) (w : W) :
  stored key raw (mkEntry TypeList exp (EncodeList elems)) t w -> (w_tick w < t)%nat -> strs_ok elems -> len elems < 2 ^ 62 ->
  parseSortOptions rest no_options = inl o -> by_ o = None -> gets o = [] -> store_ o = None ->
  (forall off cnt, limit o = Some (off, cnt) -> cnt < 2 ^ 62) -> mapM (item_of o) elems = Some items ->
  exists sorted w', sort (BulkOf key :: rest) w = (Ok (ArrayOf (map (fun it => BulkOf (elem it)) (limited o sorted))), w') /\ w_kv w' = w_kv w /\
    sorted ≡ₚ items /\ StronglySorted (fun a b => item_less o b a = false) sorted /\
    forall x, item_num o x -> let same := fun y => negb (item_less o x y) && negb (item_less o y x) in List.filter same sorted = List.filter same items.
Proof.
  intros Hst Ht Hok Hlen Hp Hby Hg Hs Hl Hi. destruct (sort_items_plain o elems items (after_read exp (after_read exp w)) Hby Hi) as (Ei & Hnum & Hmap).
  pose proof (isort_perm (item_less o) items) as Hperm. exists (isort (item_less o) items), (after_read exp (after_read exp w)). split_and!; [| |done|..].
  - assert (forall w', w_kv w' = w_kv w -> (w_tick w' <= t)%nat -> lookupKey key w' = (Ok (mkEntry TypeList exp (EncodeList elems)), after_read exp w')) as Hlook.
    { intros w' Hkv Htk. change (lookupKey key) with (getAny (S := gmap bytes bytes) key). by rewrite (getAny_stored key raw _ t w') by (done || by eapply stored_kv). }
    pose proof (after_read_tick exp w). pose proof (after_read_kv exp w) as Hkv.
    unfold sort. cbn [argString BulkOf default]. rewrite Hp. unfold mbind at 1, attempt at 1. rewrite Hlook by (done || lia).
    unfold mbind at 1, attempt at 1. unfold sort_elems. cbn [Type_]. rewrite bool_decide_eq_true_2 by done.
    unfold listcmd.readList, mbind at 1 2. rewrite Hlook by (done || lia). cbn [Type_ Payload Expiry]. rewrite bool_decide_eq_true_2 by done.
    unfold mbind at 1, lift at 1. rewrite DecodeList_EncodeList by done. unfold mret at 1. unfold mret at 1. unfold mbind at 1. rewrite Ei. unfold mbind, lift.
    rewrite window_limited, Hs, Hg; [done| |done]. unfold len in *. rewrite Hperm. rewrite <- (length_map elem items), Hmap. done.
  - by rewrite !after_read_kv.
  - apply (isort_sorted (item_less o) (item_num o) (item_asym o) (item_nless_trans o)). done.
  - intros x Hx same. apply (isort_stable _ (item_num o)); [done|]. unfold same. intros a b Ha Hb [_ Hax]%andb_true_iff [Hxb _]%andb_true_iff.
    apply negb_true_iff in Hax, Hxb. by apply (item_nless_trans o b x a).
Qed.

End spec.
(** ** On concrete lists *)

Section examples.
#[local] Instance so_clock : Clock := step_clock.
#[local] Instance so_ascii : GoUnicode := ascii_tables.
#[local] Instance so_float : GoFloat := zsetspec.nat_float.

Definition list3 : world (gmap bytes bytes) := world_of [(ListKey (lit "l"), Encode TypeList 0 (EncodeList [lit "10"; lit "2"; lit "30"]))].
Definition words (l : list string) : list Value := map (fun s => BulkOf (lit s)) l.
Definition num (s : string) (n : Z) : sortItem := mkItem (lit s) (zsetspec.nat_bits n) [].

Lemma sort_exact_witness :
  exists sorted w', sort (BulkOf (lit "l") :: words ["DESC"; "LIMIT"; "0"; "2"]%string) list3 = (Ok (ArrayOf (map (fun it => BulkOf (elem it)) (take 2 sorted))), w') /\
    sorted ≡ₚ [num "10" 10; num "2" 2; num "30" 30].
Proof.
  destruct (sort_exact (lit "l") (ListKey (lit "l")) 0 [lit "10"; lit "2"; lit "30"] (words ["DESC"; "LIMIT"; "0"; "2"]%string) (mkSort None (Some (0, 2)) [] true false None)
    [num "10" 10; num "2" 2; num "30" 30] 1 list3) as (sorted & w' & E & _ & Hp & _).
  - split; [vm_compute; reflexivity|]. split; [unfold is_i64; cbn; lia|by left].
  - vm_compute. lia.
  - split; [vm_compute; discriminate|]. repeat constructor; vm_compute; discriminate.
  - vm_compute. reflexivity.
  - vm_compute. reflexivity.
  - reflexivity.
  - reflexivity.
  - reflexivity.
  - intros off cnt [= <- <-]. lia.
  - vm_compute. reflexivity.
  - exists sorted, w'. split; [exact E|exact Hp].
Defined.

(** A large count after an offset overflows the end of the slice. *)
Example sort_limit_overflow_panics : (sort (BulkOf (lit "l") :: words ["LIMIT"; "1"; "9223372036854775807"]%string) list3).1 = Panic.
Proof. vm_compute. reflexivity. Qed.

(** An empty result is stored as an empty list: the destination exists. *)
Example sort_store_empty_exists :
  let w := (sort (BulkOf (lit "l") :: words ["LIMIT"; "0"; "0"; "STORE"; "d"]%string) list3).2 in (exists_ [BulkOf (lit "d")] w).1 = Ok (VInteger 1).
Proof. vm_compute. reflexivity. Qed.

(** An arrow inside an element is taken for the field separator. *)
Example sort_by_arrow_in_element :
  let w := world_of [(ListKey (lit "l"), Encode TypeList 0 (EncodeList [lit "a->b"])); (StringKey (lit "w_a->b"), Encode TypeString 0 (lit "7"))] in
  (sort (BulkOf (lit "l") :: words ["BY"; "nosort"; "GET"; "w_*"]%string) w).1 = Ok (ArrayOf [nilBulk]).
Proof. vm_compute. reflexivity. Qed.

End examples.
End sortcmd.
