(* ===== verification/CmdStream.v ===== *)
(** * Stream commands
    (src/internal/commands/stream.go, stream_trim.go, stream_read.go)

    A handler reads the whole stream, changes the value and writes it back.
    XREAD with BLOCK is driven by the sequence of its wake-ups, as the
    blocking list commands are. *)

From S2P Require Import Prelude GoLib GoStrings Resp Codec StreamDs Kv Cmd CmdString CmdList.
Open Scope Z_scope.
Open Scope gedis_scope.

Module streamcmd.
Import datastruct stream.
Import listcmd (blocking, bret, bbind, poll, timed_out, wake, nilArray).

Definition err_id : Value := errS "ERR Invalid stream ID specified as stream command argument".
Definition syntax : Value := errS "ERR syntax error".

(** ** Values *)

Definition set_entries (s : Stream) (es : list StreamEntry) : Stream :=
  mkStream es (Last s) (HasLast s) (Added s) (MaxDeleted s) (Groups s).

Definition streamEntryValue (e : StreamEntry) : Value :=
  VArray (Some [BulkOf (String_ (ID e)); VArray (Some (map BulkOf (Fields e)))]).

Fixpoint strings_of (args : list Value) : option (list bytes) :=
  match args with
  | [] => Some []
  | a :: rest => match argString a with
                 | None => None
                 | Some s => match strings_of rest with None => None | Some l => Some (s :: l) end
                 end
  end.

(** ** Ids *)

(** [uint64(time.Now().UnixMilli())] of the time [ns]. *)
Definition unix_milli (ns : Z) : Z := ns / Millisecond.

Definition max_u64 : Z := 2 ^ 64 - 1.

(** The id of a new entry; the clock is read for ["*"] only. *)
Definition resolveAddID (idStr : bytes) (s : Stream) (ns : Z) : result StreamID :=
  let? (id, auto) := StreamParseID idStr in
  let smaller := fail "ERR The ID specified in XADD is equal or smaller than the target stream top item" in
  if negb auto then
    if negb (HasLast s) then
      if bool_decide (id = mkID 0 0) then fail "ERR The ID specified in XADD must be greater than 0-0" else Ok id
    else if Compare id (Last s) <=? 0 then smaller else Ok id
  else if bytes_eqb idStr (lit "*") then
    let ms := u64 (unix_milli ns) in
    if HasLast s && (ms <=? Ms (Last s)) then
      if Seq (Last s) =? max_u64 then smaller else Ok (mkID (Ms (Last s)) (Seq (Last s) + 1))
    else Ok (mkID ms 0)
  else if negb (HasLast s) then Ok (if Ms id =? 0 then mkID 0 1 else mkID (Ms id) 0)
  else if Ms (Last s) <? Ms id then Ok (mkID (Ms id) 0)
  else if Ms id =? Ms (Last s) then
    if Seq (Last s) =? max_u64 then smaller else Ok (mkID (Ms id) (Seq (Last s) + 1))
  else smaller.

(** What XADD appends. *)
Definition add_entry (s : Stream) (id : StreamID) (fields : list bytes) : Stream :=
  let s := Add s id fields in
  mkStream (Entries s) id true (u64 (Added s + 1)) (MaxDeleted s) (Groups s).

(** ** Ranges *)

Definition parseRangeBound (s : bytes) (isStart : bool) : result StreamID :=
  if bytes_eqb s (lit "-") then Ok StreamMinID
  else if bytes_eqb s (lit "+") then Ok StreamMaxID
  else let? (id, _) := StreamParseID s in Ok id.

Definition parseRangeCount (rest : list Value) : Z + Value :=
  match rest with
  | [a; b] =>
      match argString a with
      | None => inr syntax
      | Some opt =>
          if negb (bytes_eqb opt (lit "COUNT") || bytes_eqb opt (lit "count") || bytes_eqb opt (lit "Count")) then inr syntax
          else match argString b with
          | None => inr err_int
          | Some s => match ParseInt s with None => inr err_int | Some n => inl n end
          end
      end
  | _ => inr syntax
  end.

(** The closure [collect] over the entries in the order of the reply. *)
Fixpoint collect (lo hi : StreamID) (count : Z) (es : list StreamEntry) (out : list Value) : list Value :=
  match es with
  | [] => out
  | e :: r =>
      if (Compare (ID e) lo <? 0) || (0 <? Compare (ID e) hi) then collect lo hi count r out
      else if (0 <=? count) && (count <=? len out) then collect lo hi count r out
      else collect lo hi count r (out ++ [streamEntryValue e])
  end.

(** ** Deletion and trimming *)

Fixpoint remove_entry (id : StreamID) (es : list StreamEntry) : option (list StreamEntry) :=
  match es with
  | [] => None
  | e :: r => if bool_decide (ID e = id) then Some r else option_map (cons e) (remove_entry id r)
  end.

Fixpoint xdel_ids (ids : list StreamID) (s : Stream) (deleted : Z) : Stream * Z :=
  match ids with
  | [] => (s, deleted)
  | id :: rest =>
      match remove_entry id (Entries s) with
      | None => xdel_ids rest s deleted
      | Some es =>
          let maxd := if Compare (MaxDeleted s) id <? 0 then id else MaxDeleted s in
          xdel_ids rest (mkStream es (Last s) (HasLast s) (Added s) maxd (Groups s)) (deleted + 1)
      end
  end.

Inductive threshold : Type := MaxLen (n : Z) | MinID (id : StreamID).

(** The trimming loop: the oldest entry goes while the threshold asks for it
    and the limit allows it. *)
Fixpoint trim (t : threshold) (limit : Z) (es : list StreamEntry) (deleted : Z) : list StreamEntry * Z :=
  match es with
  | [] => ([], deleted)
  | e :: r =>
      if match t with MaxLen n => n <? len es | MinID id => Compare (ID e) id <? 0 end then
        if (0 <=? limit) && (limit <=? deleted) then (es, deleted) else trim t limit r (deleted + 1)
      else (es, deleted)
  end.

(** ** Reading *)

Record streamReadReq : Type := mkReadReq { rq_key : bytes; rq_after : StreamID }.

(** The entries after an id, as many as asked for when that is positive. *)
Fixpoint entries_after (after : StreamID) (count : Z) (es : list StreamEntry) (out : list Value) : list Value :=
  match es with
  | [] => out
  | e :: r =>
      if Compare (ID e) after <=? 0 then entries_after after count r out
      else if (0 <? count) && (count <=? len out) then out
      else entries_after after count r (out ++ [streamEntryValue e])
  end.

Section handlers.
Context {S : Type} `{KV S} `{Clock} `{GoUnicode}.

Definition readStream (key : bytes) : M S (Stream * Z) :=
  let! e := lookupKey key in
  if negb (bool_decide (Type_ e = TypeStream)) then merr WRONGTYPE
  else let! s := lift (DecodeStream (Payload e)) in mret (s, Expiry e).

Definition writeStream (key : bytes) (s : Stream) (expiry : Z) : M S unit :=
  kvSet (StreamKey key) (Encode TypeStream expiry (EncodeStream s)).

Definition with_stream (key : bytes) (missing : M S Value) (k : Stream -> Z -> M S Value) : M S Value :=
  let! r := attempt (readStream key) in
  match r with
  | inr e => if isNotFound e then missing else mret (errValue e)
  | inl (s, expiry) => k s expiry
  end.

Definition with_arg (a : Value) (e : Value) (k : bytes -> M S Value) : M S Value :=
  match argString a with None => mret e | Some s => k s end.

(** [r, err := ...; if err != nil return errValue(err)] *)
Definition with_ok {A} (r : result A) (k : A -> M S Value) : M S Value :=
  let! x := attempt (lift r) in
  match x with inr e => mret (errValue e) | inl a => k a end.

Definition xadd (args : list Value) : M S Value :=
  match args with
  | a :: b :: rest => with_key a (fun key => with_arg b err_id (fun idStr =>
      match strings_of rest with
      | None => mret (errS "ERR invalid field")
      | Some fields =>
          if Z.odd (len fields) then mret (wrong_args "xadd")
          else
            let add (s : Stream) (expiry : Z) : M S Value :=
              let! t := (if bytes_eqb idStr (lit "*") then now else mret 0) in
              with_ok (resolveAddID idStr s t) (fun id =>
                commit (writeStream key (add_entry s id fields) expiry)
                  (let! _ := Notify "t" (lit "xadd") key in mret (BulkOf (String_ id)))) in
            with_stream key (add StreamNew 0) add
      end))
  | _ => mret (wrong_args "xadd")
  end.

Definition xlen (args : list Value) : M S Value :=
  match args with
  | [a] => with_key a (fun key => with_stream key (mret (VInteger 0)) (fun s _ => mret (VInteger (len (Entries s)))))
  | _ => mret (wrong_args "xlen")
  end.

(** The options of XSETID. *)
Fixpoint xsetid_options (args : list Value) (added : option Z) (maxDel : option StreamID) : (option Z * option StreamID) + Value :=
  match args with
  | [] => inl (added, maxDel)
  | [a] => inr syntax
  | a :: b :: rest =>
      match argString a, argString b with
      | Some opt, Some val =>
          if EqualFold opt (lit "ENTRIES-ADDED") then
            match ParseUint val with None => inr err_int | Some n => xsetid_options rest (Some n) maxDel end
          else if EqualFold opt (lit "MAXDELETEDID") then
            match StreamParseID val with
            | Ok (md, false) => xsetid_options rest added (Some md)
            | _ => inr err_id
            end
          else inr syntax
      | _, _ => inr syntax
      end
  end.

Definition xsetid (args : list Value) : M S Value :=
  match args with
  | a :: b :: opts => with_key a (fun key => with_arg b err_id (fun idStr =>
      match StreamParseID idStr with
      | Ok (last, false) =>
          match xsetid_options opts None None with
          | inr e => mret e
          | inl (added, maxDel) =>
              with_stream key (mret (errS "ERR no such key")) (fun s expiry =>
                let s' := mkStream (Entries s) last true (default (Added s) added) (default (MaxDeleted s) maxDel) (Groups s) in
                commit (writeStream key s' expiry) (let! _ := Notify "t" (lit "xsetid") key in mret okReply))
          end
      | _ => mret err_id
      end))
  | _ => mret (wrong_args "xsetid")
  end.

Definition rangeCmd (args : list Value) (reversed : bool) : M S Value :=
  match args with
  | a :: b :: c :: opts => with_key a (fun key => with_arg b err_id (fun startStr => with_arg c err_id (fun endStr =>
      with_ok (parseRangeBound startStr true) (fun start => with_ok (parseRangeBound endStr false) (fun end_ =>
        match (match opts with [] => inl (-1) | _ => parseRangeCount opts end) with
        | inr e => mret e
        | inl count => with_stream key (mret (VArray (Some []))) (fun s _ =>
            let '(lo, hi) := if reversed then (end_, start) else (start, end_) in
            mret (VArray (Some (collect lo hi count (if reversed then rev (Entries s) else Entries s) []))))
        end)))))
  | _ => mret (wrong_args (if reversed then "xrevrange" else "xrange"))
  end.
Definition xrange (args : list Value) : M S Value := rangeCmd args false.
Definition xrevrange (args : list Value) : M S Value := rangeCmd args true.

(** The ids of XDEL: all are parsed before anything is deleted. *)
Fixpoint del_ids (args : list Value) : list StreamID + Value :=
  match args with
  | [] => inl []
  | a :: rest =>
      match argString a with
      | None => inr err_id
      | Some s =>
          match StreamParseID s with
          | Ok (id, _) => match del_ids rest with inl l => inl (id :: l) | inr e => inr e end
          | Err e => inr (errValue e)
          | Panic => inr err_id
          end
      end
  end.

Definition xdel (args : list Value) : M S Value :=
  match args with
  | a :: b :: rest => with_key a (fun key =>
      match del_ids (b :: rest) with
      | inr e => mret e
      | inl ids => with_stream key (mret (VInteger 0)) (fun s expiry =>
          let '(s', deleted) := xdel_ids ids s 0 in
          commit (writeStream key s' expiry)
            (let! _ := (if 0 <? deleted then Notify "t" (lit "xdel") key else mret ()) in mret (VInteger deleted)))
      end)
  | _ => mret (wrong_args "xdel")
  end.

(** The optional LIMIT of XTRIM. *)
Definition trim_limit (approx : bool) (rest : list Value) : Z + Value :=
  match rest with
  | [] => inl (-1)
  | _ =>
      if negb approx then inr (errS "ERR syntax error, LIMIT cannot be used without the special ~ option")
      else match rest with
      | [o; n] =>
          match argString o with
          | None => inr syntax
          | Some opt =>
              if negb (EqualFold opt (lit "LIMIT")) then inr syntax
              else match argString n with
              | None => inr err_int
              | Some s => match ParseInt s with
                          | None => inr err_int
                          | Some n => if n <? 0 then inr err_int else inl n
                          end
              end
          end
      | _ => inr syntax
      end
  end.

Definition trim_threshold (isMaxlen : bool) (s : bytes) : threshold + Value :=
  if isMaxlen then
    match ParseInt s with
    | None => inr err_int
    | Some n => if n <? 0 then inr (errS "ERR The MAXLEN argument must be >= 0.") else inl (MaxLen n)
    end
  else match StreamParseID s with
  | Ok (id, _) => inl (MinID id)
  | Err e => inr (errValue e)
  | Panic => inr err_id
  end.

Definition xtrim (args : list Value) : M S Value :=
  match args with
  | a :: b :: ((c :: cs) as rest) => with_key a (fun key => with_arg b syntax (fun strategy =>
      let isMaxlen := EqualFold strategy (lit "MAXLEN") in
      if negb isMaxlen && negb (EqualFold strategy (lit "MINID")) then mret syntax
      else
        let marked := match argString c with Some s => bytes_eqb s (lit "=") || bytes_eqb s (lit "~") | None => false end in
        let approx := match argString c with Some s => bytes_eqb s (lit "~") | None => false end in
        match (if marked then cs else rest) with
        | [] => mret syntax
        | t :: rest => with_arg t (if isMaxlen then err_int else err_id) (fun threshStr =>
            match trim_limit approx rest with
            | inr e => mret e
            | inl limit =>
                match trim_threshold isMaxlen threshStr with
                | inr e => mret e
                | inl thr => with_stream key (mret (VInteger 0)) (fun s expiry =>
                    let '(es, deleted) := trim thr limit (Entries s) 0 in
                    commit (writeStream key (set_entries s es) expiry)
                      (let! _ := Notify "t" (lit "xtrim") key in mret (VInteger deleted)))
                end
            end)
        end))
  | _ => mret (wrong_args "xtrim")
  end.

(** ** XREAD *)

Fixpoint xread_options (args : list Value) (count block : Z) : (Z * Z * list Value) + Value :=
  match args with
  | [] => inl (count, block, [])
  | a :: rest =>
      match argString a with
      | None => inr syntax
      | Some opt =>
          let u := ToUpper opt in
          if bytes_eqb u (lit "COUNT") then
            match rest with
            | [] => inr syntax
            | b :: rest' => match argString b with
                            | None => inr err_int
                            | Some s => match ParseInt s with None => inr err_int | Some n => xread_options rest' n block end
                            end
            end
          else if bytes_eqb u (lit "BLOCK") then
            match rest with
            | [] => inr syntax
            | b :: rest' =>
                let bad := inr (errS "ERR timeout is not an integer or out of range") in
                match argString b with
                | None => bad
                | Some s => match ParseInt s with
                            | None => bad
                            | Some ms => if ms <? 0 then inr (errS "ERR timeout is negative") else xread_options rest' count ms
                            end
                end
            end
          else if EqualFold opt (lit "GROUP") then inr (wrong_args "xread")
          else inl (count, block, args)
      end
  end.

Definition err_gt : Value := errS "ERR The > ID can be specified only when calling XREADGROUP using the GROUP <group> <consumer> option.".

(** Where to start in each stream; [$] is the last id of the moment. *)
Fixpoint xread_reqs (keys ids : list Value) : M S (list streamReadReq + Value) :=
  match keys, ids with
  | k :: ks, i :: is_ =>
      match argString k with
      | None => mret (inr (errS "ERR invalid key"))
      | Some key =>
          match argString i with
          | None => mret (inr err_id)
          | Some idStr =>
              if bytes_eqb idStr (lit ">") then mret (inr err_gt)
              else
                let! after := (if bytes_eqb idStr (lit "$") then
                    let! r := attempt (readStream key) in
                    mret (match r with
                          | inr e => if isNotFound e then inl (mkID 0 0) else inr (errValue e)
                          | inl (s, _) => inl (if HasLast s then Last s else mkID 0 0)
                          end)
                  else mret (match StreamParseID idStr with
                             | Ok (id, _) => inl id
                             | Err e => inr (errValue e)
                             | Panic => inr err_id
                             end)) in
                match after with
                | inr e => mret (inr e)
                | inl after =>
                    let! rest := xread_reqs ks is_ in
                    mret (match rest with inl l => inl (mkReadReq key after :: l) | inr e => inr e end)
                end
          end
      end
  | _, _ => mret (inl [])
  end.

Fixpoint xread_types (reqs : list streamReadReq) : M S (unit + Value) :=
  match reqs with
  | [] => mret (inl ())
  | q :: qs =>
      let! r := attempt (readStream (rq_key q)) in
      match r with
      | inr e => if isNotFound e then xread_types qs else mret (inr (errValue e))
      | inl _ => xread_types qs
      end
  end.

(** The streams that have something new, or the reply for an error. *)
Fixpoint try_reqs (reqs : list streamReadReq) (count : Z) : M S (list Value + Value) :=
  match reqs with
  | [] => mret (inl [])
  | q :: qs =>
      let! r := attempt (readStream (rq_key q)) in
      match r with
      | inr e => if isNotFound e then try_reqs qs count else mret (inr (errValue e))
      | inl (s, _) =>
          let! rest := try_reqs qs count in
          match rest with
          | inr e => mret (inr e)
          | inl out =>
              let es := entries_after (rq_after q) count (Entries s) [] in
              mret (inl (match es with [] => out | _ => VArray (Some [BulkOf (rq_key q); VArray (Some es)]) :: out end))
          end
      end
  end.
Definition tryRead (reqs : list streamReadReq) (count : Z) : M S (option Value) :=
  let! r := try_reqs reqs count in
  mret (match r with inr e => Some e | inl [] => None | inl out => Some (VArray (Some out)) end).

(** The deadline of a wait of [ms] milliseconds, when there is one. *)
Definition block_deadline (ms : Z) : M S Z :=
  if 0 <? ms then let! t := now in mret (t + i64 (ms * Millisecond)) else mret 0.

Definition xread (args : list Value) : blocking :=
  match xread_options args (-1) (-1) with
  | inr e => bret e
  | inl (_, _, []) => bret (wrong_args "xread")
  | inl (count, block, kw :: rest) =>
      if match argString kw with Some s => negb (bytes_eqb (ToUpper s) (lit "STREAMS")) | None => true end then bret syntax
      else if len rest <? 2 then bret (wrong_args "xread")
      else if Z.odd (len rest) then
        bret (errS "ERR Unbalanced 'xread' list of streams: for each stream key an ID or '$' must be specified.")
      else
        let nh := Nat.div (length rest) 2 in
        bbind (xread_reqs (take nh rest) (drop nh rest)) (fun reqs =>
        bbind (xread_types reqs) (fun _ =>
        bbind (let! r := tryRead reqs count in mret (match r with Some v => inr v | None => inl () end)) (fun _ =>
        if block <? 0 then bret nilArray
        else bbind (let! d := block_deadline block in mret (inl d)) (fun deadline wakes gauge w =>
          poll (tryRead reqs count) (timed_out block deadline) nilArray wakes false gauge w))))
  end.

End handlers.
End streamcmd.
