(* ===== verification/CmdStreamGroup.v ===== *)
(** * Consumer groups
    (src/internal/commands/stream_group.go, stream_claim.go, stream_xclaim.go,
    stream_info.go)

    A group, a consumer and a pending record are pointers into the stream that
    was read; here they are values, put back where they came from. *)

From S2P Require Import Prelude GoLib GoStrings Resp Codec StreamDs Kv Cmd CmdString CmdList CmdStream.
Open Scope Z_scope.
Open Scope gedis_scope.

Module streamgroup.
Import datastruct stream streamcmd.
Import listcmd (blocking, bret, bbind, timed_out, wake, Cancelled, Slept, nilArray).

(** ** Groups of a stream *)

Definition set_groups (s : Stream) (gs : list StreamGroup) : Stream :=
  mkStream (Entries s) (Last s) (HasLast s) (Added s) (MaxDeleted s) gs.

Definition findGroup (s : Stream) (name : bytes) : option StreamGroup :=
  List.find (fun g => bytes_eqb (gName g) name) (Groups s).

(** The group that was found, put back. *)
Fixpoint replace_group (name : bytes) (g : StreamGroup) (gs : list StreamGroup) : list StreamGroup :=
  match gs with
  | [] => []
  | g0 :: r => if bytes_eqb (gName g0) name then g :: r else g0 :: replace_group name g r
  end.
Definition put_back (s : Stream) (name : bytes) (g : StreamGroup) : Stream := set_groups s (replace_group name g (Groups s)).

Definition set_last (g : StreamGroup) (id : StreamID) : StreamGroup :=
  mkGroup (gName g) id (EntriesRead g) (HasRead g) (Consumers g) (PEL g).
Definition set_read (g : StreamGroup) (n : Z) : StreamGroup :=
  mkGroup (gName g) (LastID g) n true (Consumers g) (PEL g).

(** [c := &g.Consumers[i]] and an assignment through [c]. *)
Definition on_consumer (i : Z) (f : StreamConsumer -> StreamConsumer) (g : StreamGroup) : StreamGroup :=
  set_consumers g (alter f (Z.to_nat i) (Consumers g)).
Definition seen (nowMs : Z) (c : StreamConsumer) : StreamConsumer := mkConsumer (Name c) nowMs (ActiveMs c) (HasActive c).
Definition active (nowMs : Z) (c : StreamConsumer) : StreamConsumer := mkConsumer (Name c) (SeenMs c) nowMs true.

(** The record that FindPEL answered, put back. *)
Fixpoint replace_pel (p : StreamPEL) (l : list StreamPEL) : list StreamPEL :=
  match l with
  | [] => []
  | e :: r => if bool_decide (pID e = pID p) then p :: r else e :: replace_pel p r
  end.

Definition findStreamEntry (s : Stream) (id : StreamID) : option StreamEntry :=
  List.find (fun e => bool_decide (ID e = id)) (Entries s).

Definition parseIntArg (v : Value) : option Z :=
  match argString v with None => None | Some s => ParseInt s end.

(** ** Delivery *)

Record readgroupReq : Type := mkGroupReq { gq_key : bytes; gq_isNew : bool; gq_explicit : StreamID }.
Record resolvedGroup : Type := mkResolved { rg_req : readgroupReq; rg_s : Stream; rg_expiry : Z; rg_g : StreamGroup }.

Fixpoint deliverNew (es : list StreamEntry) (i : Z) (name : bytes) (count : Z) (noack : bool) (nowMs : Z)
    (g : StreamGroup) (out : list Value) : StreamGroup * list Value :=
  match es with
  | [] => (g, out)
  | e :: r =>
      if Compare (ID e) (LastID g) <=? 0 then deliverNew r i name count noack nowMs g out
      else if (0 <? count) && (count <=? len out) then (g, out)
      else
        let g := set_last g (ID e) in
        let g := if noack then g else on_consumer i (active nowMs) (UpsertPEL g (mkPEL (ID e) name nowMs 1)) in
        deliverNew r i name count noack nowMs g (out ++ [streamEntryValue e])
  end.

(** [byID]: the last entry with an id. *)
Definition by_id (es : list StreamEntry) (id : StreamID) : option StreamEntry :=
  List.find (fun e => bool_decide (ID e = id)) (rev es).

Fixpoint redeliver_pel (es : list StreamEntry) (name : bytes) (after : StreamID) (count nowMs : Z)
    (pel : list StreamPEL) (out : list Value) : list StreamPEL * list Value :=
  match pel with
  | [] => ([], out)
  | p :: r =>
      let skip := let '(r', out') := redeliver_pel es name after count nowMs r out in (p :: r', out') in
      if negb (bytes_eqb (Consumer p) name) || (Compare (pID p) after <=? 0) then skip
      else match by_id es (pID p) with
      | None => skip
      | Some e =>
          if (0 <? count) && (count <=? len out) then (pel, out)
          else
            let '(r', out') := redeliver_pel es name after count nowMs r (out ++ [streamEntryValue e]) in
            (mkPEL (pID p) (Consumer p) nowMs (u64 (Count p + 1)) :: r', out')
      end
  end.
Definition redeliver (s : Stream) (i : Z) (name : bytes) (after : StreamID) (count nowMs : Z) (g : StreamGroup) : StreamGroup * list Value :=
  let '(pel, out) := redeliver_pel (Entries s) name after count nowMs (PEL g) [] in
  let g := set_pel g pel in
  (match out with [] => g | _ => on_consumer i (active nowMs) g end, out).

Definition groupHasData (rs : list resolvedGroup) (consumer : bytes) : bool :=
  existsb (fun r =>
    if gq_isNew (rg_req r) then existsb (fun e => 0 <? Compare (ID e) (LastID (rg_g r))) (Entries (rg_s r))
    else existsb (fun p => bytes_eqb (Consumer p) consumer && (0 <? Compare (pID p) (gq_explicit (rg_req r)))) (PEL (rg_g r))) rs.

(** One stream of XREADGROUP: the group afterwards and what is delivered. *)
Definition read_one (r : resolvedGroup) (consumer : bytes) (count : Z) (noack : bool) (nowMs : Z) : StreamGroup * list Value :=
  let '(i, g) := EnsureConsumer (rg_g r) consumer nowMs in
  let g := on_consumer i (seen nowMs) g in
  if gq_isNew (rg_req r) then
    let '(g, vals) := deliverNew (Entries (rg_s r)) i consumer count noack nowMs g [] in
    (if 0 <? len vals then set_read g (u64 (EntriesRead g + len vals)) else g, vals)
  else redeliver (rg_s r) i consumer (gq_explicit (rg_req r)) count nowMs g.

(** ** Pending entries *)

Definition parsePelBound (s : bytes) : (StreamID * bool) + Value :=
  if bytes_eqb s (lit "-") then inl (StreamMinID, false)
  else if bytes_eqb s (lit "+") then inl (StreamMaxID, false)
  else
    let excl := HasPrefix s (lit "(") in
    match StreamParseID (if excl then drop 1 s else s) with
    | Ok (id, false) => inl (id, excl)
    | _ => inr err_id
    end.

Definition pendingSummary (g : StreamGroup) : Value :=
  let '(minV, maxV) :=
    match PEL g with
    | [] => (nilBulk, nilBulk)
    | p :: _ => (BulkOf (String_ (pID p)), BulkOf (String_ (pID (List.last (PEL g) p))))
    end in
  let names := sortStrings (remove_dups (map Consumer (PEL g))) in
  let count n := len (List.filter (fun p => bytes_eqb (Consumer p) n) (PEL g)) in
  VArray (Some [VInteger (len (PEL g)); minV; maxV;
                VArray (Some (map (fun n => VArray (Some [BulkOf n; VInteger (count n)])) names))]).

(** [idle]: the time since the delivery, or zero. *)
Definition idle_of (nowMs : Z) (p : StreamPEL) : Z := if DeliveryMs p <? nowMs then i64 (nowMs - DeliveryMs p) else 0.

Fixpoint pending_list (start : StreamID) (startExcl : bool) (end_ : StreamID) (endExcl : bool) (count : Z)
    (consumer : option bytes) (idleMs : option Z) (nowMs : Z) (pel : list StreamPEL) (out : list Value) : list Value :=
  match pel with
  | [] => out
  | p :: r =>
      let next := pending_list start startExcl end_ endExcl count consumer idleMs nowMs r in
      let cs := Compare (pID p) start in
      let ce := Compare (pID p) end_ in
      if match consumer with Some c => negb (bytes_eqb (Consumer p) c) | None => false end then next out
      else if (cs <? 0) || ((cs =? 0) && startExcl) then next out
      else if (0 <? ce) || ((ce =? 0) && endExcl) then next out
      else
        let idle := idle_of nowMs p in
        if match idleMs with Some m => idle <? m | None => false end then next out
        else if count <=? len out then out
        else next (out ++ [VArray (Some [BulkOf (String_ (pID p)); BulkOf (Consumer p); VInteger idle; VInteger (i64 (Count p))])])
  end.

(** ** Claims *)

Record claimOpts : Type := mkClaim {
  cl_ids : list StreamID; cl_idle : option Z; cl_time : option Z; cl_retry : option Z; cl_force : bool; cl_justid : bool;
}.

(** The consumer that claims is made when it does not exist, and is seen and
    active now. *)
Definition claimant (consumer : bytes) (nowMs : Z) (g : StreamGroup) : StreamGroup :=
  let '(i, g) := EnsureConsumer g consumer nowMs in
  on_consumer i (fun c => active nowMs (seen nowMs c)) g.

(** The pending record XCLAIM works on and whether it is new, or [None] when
    the id is passed over. *)
Definition claim_target (s : Stream) (consumer : bytes) (minIdle now : Z) (o : claimOpts) (id : StreamID) (g : StreamGroup)
    : option (StreamPEL * bool * StreamGroup) :=
  match FindPEL g id with
  | Some p => if i64 (now - minIdle) <? i64 (DeliveryMs p) then None else Some (p, false, g)
  | None =>
      if negb (cl_force o) then None
      else match findStreamEntry s id with
      | None => None
      | Some _ => let p := mkPEL id consumer (u64 now) 1 in Some (p, true, UpsertPEL g p)
      end
  end.

(** The record after the claim: time, idle time and count of deliveries. *)
Definition claimed (consumer : bytes) (now : Z) (o : claimOpts) (fresh : bool) (p : StreamPEL) : StreamPEL :=
  let ms := match cl_time o with Some t => u64 t | None => u64 now end in
  let ms := match cl_idle o with Some i => u64 (now - i) | None => ms end in
  mkPEL (pID p) consumer ms
    (match cl_retry o with Some r => u64 r | None => if fresh then Count p else u64 (Count p + 1) end).

(** The loop of XCLAIM.  A pending id whose entry was deleted is dereferenced
    without a check, which panics. *)
Fixpoint claim_ids (s : Stream) (consumer : bytes) (minIdle now : Z) (o : claimOpts) (ids : list StreamID)
    (g : StreamGroup) (out : list Value) : result (StreamGroup * list Value) :=
  match ids with
  | [] => Ok (g, out)
  | id :: rest =>
      match claim_target s consumer minIdle now o id g with
      | None => claim_ids s consumer minIdle now o rest g out
      | Some (p, fresh, g) =>
          let g := claimant consumer (u64 now) g in
          if cl_justid o then
            let p' := mkPEL (pID p) consumer (DeliveryMs p) (Count p) in
            claim_ids s consumer minIdle now o rest (set_pel g (replace_pel p' (PEL g))) (out ++ [BulkOf (String_ id)])
          else
            match findStreamEntry s id with
            | None => Panic
            | Some e =>
                claim_ids s consumer minIdle now o rest (set_pel g (replace_pel (claimed consumer now o fresh p) (PEL g)))
                  (out ++ [streamEntryValue e])
            end
      end
  end.

Record autoclaim : Type := mkAuto { au_consumers : StreamGroup; au_entries : list Value; au_orphans : list StreamID; au_visited : Z; au_lastVisited : option StreamID }.

(** The loop of XAUTOCLAIM over the pending records, which are changed in
    place; the group is threaded for its consumers. *)
Fixpoint auto_pel (s : Stream) (consumer : bytes) (minIdle now : Z) (start : StreamID) (count : Z) (justid : bool)
    (pel : list StreamPEL) (a : autoclaim) : list StreamPEL * autoclaim :=
  match pel with
  | [] => ([], a)
  | p :: r =>
      let go p a := let '(r', a') := auto_pel s consumer minIdle now start count justid r a in (p :: r', a') in
      let '(mkAuto g entries orphans visited lastVisited) := a in
      if Compare (pID p) start <? 0 then go p a
      else if count <=? visited then (pel, a)
      else match findStreamEntry s (pID p) with
      | None => go p (mkAuto g entries (orphans ++ [pID p]) (visited + 1) (Some (pID p)))
      | Some e =>
          if i64 (now - minIdle) <? i64 (DeliveryMs p) then go p (mkAuto g entries orphans (visited + 1) (Some (pID p)))
          else
            let g := claimant consumer (u64 now) g in
            if justid then
              go (mkPEL (pID p) consumer (DeliveryMs p) (Count p))
                 (mkAuto g (entries ++ [BulkOf (String_ (pID p))]) orphans (visited + 1) (Some (pID p)))
            else
              go (mkPEL (pID p) consumer (u64 now) (u64 (Count p + 1)))
                 (mkAuto g (entries ++ [streamEntryValue e]) orphans (visited + 1) (Some (pID p)))
      end
  end.

(** The id read back from the reply's text. *)
Definition reparse (id : StreamID) : StreamID :=
  match StreamParseID (String_ id) with Ok (id, _) => id | _ => mkID 0 0 end.

(** The first pending id after the last visited one, or 0-0. *)
Definition auto_cursor (lastVisited : option StreamID) (pel : list StreamPEL) : StreamID :=
  match lastVisited with
  | None => StreamMinID
  | Some lv =>
      match List.find (fun p => Compare lv (pID p) <? 0) pel with
      | None => StreamMinID
      | Some p => if bool_decide (pID p = StreamMaxID) then StreamMinID else pID p
      end
  end.

(** ** Information *)

Definition groupLag (s : Stream) (g : StreamGroup) : Z :=
  if HasRead g then i64 (i64 (Added s) - i64 (EntriesRead g))
  else len (List.filter (fun e => Compare (LastID g) (ID e) <? 0) (Entries s)).

Definition kv (k : string) (v : Value) : list Value := [BulkOf (lit k); v].
Definition limited {A} (count : Z) (l : list A) : list A := if 0 <? count then take (Z.to_nat count) l else l.
Definition readV (g : StreamGroup) : Value := if HasRead g then VInteger (i64 (EntriesRead g)) else nilBulk.

Definition consumerDetail (g : StreamGroup) (count : Z) (c : StreamConsumer) : Value :=
  let own := List.filter (fun p => bytes_eqb (Consumer p) (Name c)) (PEL g) in
  VArray (Some (
    kv "name" (BulkOf (Name c)) ++ kv "seen-time" (VInteger (i64 (SeenMs c))) ++
    kv "active-time" (VInteger (if HasActive c then i64 (ActiveMs c) else -1)) ++
    kv "pel-count" (VInteger (len own)) ++
    kv "pending" (VArray (Some (map (fun p => VArray (Some [BulkOf (String_ (pID p)); VInteger (i64 (DeliveryMs p)); VInteger (i64 (Count p))]))
                                    (limited count own)))))).

Definition groupDetailValue (s : Stream) (g : StreamGroup) (count : Z) : Value :=
  VArray (Some (
    kv "name" (BulkOf (gName g)) ++ kv "last-delivered-id" (BulkOf (String_ (LastID g))) ++
    kv "entries-read" (readV g) ++ kv "lag" (VInteger (groupLag s g)) ++ kv "pel-count" (VInteger (len (PEL g))) ++
    kv "pending" (VArray (Some (map (fun p => VArray (Some [BulkOf (String_ (pID p)); BulkOf (Consumer p);
                                                            VInteger (i64 (DeliveryMs p)); VInteger (i64 (Count p))]))
                                    (limited count (PEL g))))) ++
    kv "consumers" (VArray (Some (map (consumerDetail g count) (Consumers g)))))).

Definition streamInfo (s : Stream) (full : bool) (count : Z) : Value :=
  let entry (o : option StreamEntry) := match o with Some e => streamEntryValue e | None => nilBulk end in
  let head := kv "length" (VInteger (len (Entries s))) ++ kv "radix-tree-keys" (VInteger 0) ++ kv "radix-tree-nodes" (VInteger 0) ++
    kv "last-generated-id" (BulkOf (if HasLast s then String_ (Last s) else lit "0-0")) ++
    kv "max-deleted-entry-id" (BulkOf (String_ (MaxDeleted s))) ++ kv "entries-added" (VInteger (i64 (Added s))) ++
    kv "recorded-first-entry-id" (BulkOf (match Entries s with e :: _ => String_ (ID e) | [] => lit "0-0" end)) in
  VArray (Some (head ++
    if full then kv "entries" (VArray (Some (map streamEntryValue (limited count (Entries s))))) ++
                 kv "groups" (VArray (Some (map (fun g => groupDetailValue s g count) (Groups s))))
    else kv "groups" (VInteger (len (Groups s))) ++ kv "first-entry" (entry (List.hd_error (Entries s))) ++
         kv "last-entry" (entry (last (Entries s))))).

Definition groupInfo (s : Stream) (g : StreamGroup) : Value :=
  VArray (Some (kv "name" (BulkOf (gName g)) ++ kv "consumers" (VInteger (len (Consumers g))) ++ kv "pending" (VInteger (len (PEL g))) ++
    kv "last-delivered-id" (BulkOf (String_ (LastID g))) ++ kv "entries-read" (readV g) ++ kv "lag" (VInteger (groupLag s g)))).

Definition consumerInfo (g : StreamGroup) (nowMs : Z) (c : StreamConsumer) : Value :=
  VArray (Some (kv "name" (BulkOf (Name c)) ++
    kv "pending" (VInteger (len (List.filter (fun p => bytes_eqb (Consumer p) (Name c)) (PEL g)))) ++
    kv "idle" (VInteger (if negb (SeenMs c =? 0) then i64 (nowMs - SeenMs c) else 0)) ++
    kv "inactive" (VInteger (if HasActive c then i64 (nowMs - ActiveMs c) else -1)))).

(** ** Group cursors *)

Definition parseGroupID (s : bytes) (st : Stream) : StreamID + Value :=
  if bytes_eqb s (lit "$") then inl (if HasLast st then Last st else mkID 0 0)
  else match StreamParseID s with Ok (id, false) => inl id | _ => inr err_id end.

(** The consumer that is removed, and the rest. *)
Fixpoint remove_consumer (name : bytes) (cs : list StreamConsumer) : option (list StreamConsumer) :=
  match cs with
  | [] => None
  | c :: r => if bytes_eqb (Name c) name then Some r else option_map (cons c) (remove_consumer name r)
  end.
Fixpoint remove_group (name : bytes) (gs : list StreamGroup) : option (list StreamGroup) :=
  match gs with
  | [] => None
  | g :: r => if bytes_eqb (gName g) name then Some r else option_map (cons g) (remove_group name r)
  end.

Section handlers.
Context {S : Type} `{KV S} `{Clock} `{GoUnicode}.

Definition err_group : Value := errS "ERR invalid group".
Definition err_consumer : Value := errS "ERR invalid consumer".

(** [uint64(time.Now().UnixMilli())] *)
Definition now_ms : M S Z := let! t := now in mret (u64 (unix_milli t)).

(** ** XREADGROUP *)

Definition xreadgroup_nogroup (key group : bytes) : Value :=
  VError (lit "NOGROUP No such key '" ++ key ++ lit "' or consumer group '" ++ group ++ lit "' in XREADGROUP with GROUP option").
Definition err_dollar : Value :=
  errS "ERR The $ ID is meaningless in the context of XREADGROUP: you want to read the history of this consumer by specifying a proper ID, or use the > ID to get new messages. The $ ID would just return an empty result set.".

(** Up to STREAMS: count, block, noack and what follows. *)
Fixpoint xreadgroup_options (args : list Value) (count : Z) (block : option Z) (noack : bool) : (Z * option Z * bool * list Value) + Value :=
  match args with
  | [] => inr (wrong_args "xreadgroup")
  | a :: rest =>
      match argString a with
      | None => inr syntax
      | Some opt =>
          if EqualFold opt (lit "STREAMS") then inl (count, block, noack, rest)
          else if EqualFold opt (lit "COUNT") then
            match rest with
            | [] => inr syntax
            | b :: rest' => match parseIntArg b with None => inr err_int | Some n => xreadgroup_options rest' n block noack end
            end
          else if EqualFold opt (lit "BLOCK") then
            match rest with
            | [] => inr syntax
            | b :: rest' =>
                match parseIntArg b with
                | None => inr (errS "ERR timeout is not an integer or out of range")
                | Some n => if n <? 0 then inr (errS "ERR timeout is negative") else xreadgroup_options rest' count (Some n) noack
                end
            end
          else if EqualFold opt (lit "NOACK") then xreadgroup_options rest count block true
          else inr syntax
      end
  end.

Fixpoint group_reqs (keys ids : list Value) : list readgroupReq + Value :=
  match keys, ids with
  | k :: ks, i :: is_ =>
      match argString k with
      | None => inr (errS "ERR invalid key")
      | Some key =>
          match argString i with
          | None => inr err_id
          | Some idStr =>
              match (if bytes_eqb idStr (lit ">") then inl (mkGroupReq key true (mkID 0 0))
                     else if bytes_eqb idStr (lit "$") then inr err_dollar
                     else match StreamParseID idStr with
                          | Ok (id, false) => inl (mkGroupReq key false id)
                          | _ => inr err_id
                          end) with
              | inr e => inr e
              | inl q => match group_reqs ks is_ with inl l => inl (q :: l) | inr e => inr e end
              end
          end
      end
  | _, _ => inl []
  end.

(** The streams and groups of all requests. *)
Fixpoint resolve (reqs : list readgroupReq) (group : bytes) : M S (list resolvedGroup + Value) :=
  match reqs with
  | [] => mret (inl [])
  | q :: qs =>
      let! r := attempt (readStream (gq_key q)) in
      match r with
      | inr e => mret (inr (if isNotFound e then xreadgroup_nogroup (gq_key q) group else errValue e))
      | inl (s, expiry) =>
          match findGroup s group with
          | None => mret (inr (xreadgroup_nogroup (gq_key q) group))
          | Some g =>
              let! rest := resolve qs group in
              mret (match rest with inl l => inl (mkResolved q s expiry g :: l) | inr e => inr e end)
          end
      end
  end.

(** Deliver from every stream, in order, writing the streams that gave
    something and those whose history was read. *)
Fixpoint deliver_all (rs : list resolvedGroup) (group consumer : bytes) (count : Z) (noack : bool) (nowMs : Z) (out : list Value) : M S Value :=
  match rs with
  | [] => mret (match out with [] => nilArray | _ => VArray (Some out) end)
  | r :: rest =>
      let '(g, vals) := read_one r consumer count noack nowMs in
      if gq_isNew (rg_req r) && (len vals =? 0) then deliver_all rest group consumer count noack nowMs out
      else commit (writeStream (gq_key (rg_req r)) (put_back (rg_s r) group g) (rg_expiry r))
             (deliver_all rest group consumer count noack nowMs (out ++ [VArray (Some [BulkOf (gq_key (rg_req r)); VArray (Some vals)])]))
  end.

(** The polling loop of BLOCK: the streams are read again after each wait, and
    an error or a missing group ends the wait with nil. *)
Fixpoint group_poll (reqs : list readgroupReq) (group consumer : bytes) (block deadline : Z) (finish : list resolvedGroup -> M S Value)
    (wakes : list (wake S)) (rs : list resolvedGroup) (blocked : bool) (gauge : Z) (w : world S) : option (result Value) * world S * Z :=
  let release g := if blocked then g - 1 else g in
  if groupHasData rs consumer then let '(v, w) := finish rs w in (Some v, w, release gauge)
  else match timed_out block deadline w with
  | (Panic, w) => (Some Panic, w, release gauge)
  | (Err e, w) => (Some (Err e), w, release gauge)
  | (Ok true, w) => (Some (Ok nilArray), w, release gauge)
  | (Ok false, w) =>
      let gauge := if blocked then gauge else gauge + 1 in
      match wakes with
      | [] => (None, w, gauge)
      | Cancelled :: _ => (Some (Ok nilArray), w, gauge - 1)
      | Slept others :: ws =>
          match resolve reqs group (others w) with
          | (Ok (inl rs), w) => group_poll reqs group consumer block deadline finish ws rs true gauge w
          | (Ok (inr _), w) => (Some (Ok nilArray), w, gauge - 1)
          | (Err e, w) => (Some (Err e), w, gauge - 1)
          | (Panic, w) => (Some Panic, w, gauge - 1)
          end
      end
  end.

Definition xreadgroup (args : list Value) : blocking :=
  match args with
  | kw :: ga :: ca :: opts =>
      if len args <? 6 then bret (wrong_args "xreadgroup")
      else if match argString kw with Some s => negb (EqualFold s (lit "GROUP")) | None => true end then bret (wrong_args "xreadgroup")
      else match argString ga with
      | None => bret err_group
      | Some group =>
          match argString ca with
          | None => bret err_consumer
          | Some consumer =>
              match xreadgroup_options opts 0 None false with
              | inr e => bret e
              | inl (count, block, noack, rest) =>
                  if len rest <? 2 then bret (wrong_args "xreadgroup")
                  else if Z.odd (len rest) then bret (errS "ERR Unbalanced 'xreadgroup' command")
                  else
                    let nk := Nat.div (length rest) 2 in
                    match group_reqs (take nk rest) (drop nk rest) with
                    | inr e => bret e
                    | inl reqs =>
                        bbind (let! t := now_ms in mret (inl t)) (fun nowMs =>
                        bbind (resolve reqs group) (fun rs =>
                        let finish rs := deliver_all rs group consumer count noack nowMs [] in
                        match block with
                        | None => bbind (let! v := finish rs in mret (inr v)) (fun _ : unit => bret nilArray)
                        | Some ms => bbind (let! d := block_deadline ms in mret (inl d)) (fun deadline wakes gauge w =>
                            group_poll reqs group consumer ms deadline finish wakes rs false gauge w)
                        end))
                    end
              end
          end
      end
  | _ => bret (wrong_args "xreadgroup")
  end.

(** ** XACK, XPENDING *)

Definition nogroup (key group : bytes) : Value := VError (lit "NOGROUP No such key '" ++ key ++ lit "' or consumer group '" ++ group ++ lit "'").

(** [missing]: no such key or group. *)
Definition loadGroup (key group : bytes) (missing : M S Value) (k : Stream -> Z -> StreamGroup -> M S Value) : M S Value :=
  with_stream key missing (fun s expiry => match findGroup s group with None => missing | Some g => k s expiry g end).

Fixpoint strict_ids (args : list Value) : option (list StreamID) :=
  match args with
  | [] => Some []
  | a :: rest =>
      match argString a with
      | None => None
      | Some s => match StreamParseID s with
                  | Ok (id, false) => option_map (cons id) (strict_ids rest)
                  | _ => None
                  end
      end
  end.

Fixpoint ack_ids (ids : list StreamID) (g : StreamGroup) (n : Z) : StreamGroup * Z :=
  match ids with
  | [] => (g, n)
  | id :: rest => let '(b, g) := DelPEL g id in ack_ids rest g (if b then n + 1 else n)
  end.

Definition xack (args : list Value) : M S Value :=
  match args with
  | a :: b :: c :: rest => with_key a (fun key => with_arg b err_group (fun group =>
      match strict_ids (c :: rest) with
      | None => mret err_id
      | Some ids => loadGroup key group (mret (VInteger 0)) (fun s expiry g =>
          let '(g', n) := ack_ids ids g 0 in
          commit (writeStream key (put_back s group g') expiry) (mret (VInteger n)))
      end))
  | _ => mret (wrong_args "xack")
  end.

(** The extended form: [IDLE ms] start end count [consumer]. *)
Definition xpending_range (g : StreamGroup) (rest : list Value) : M S Value :=
  match (match rest with
         | a :: rest' =>
             if match argString a with Some s => EqualFold s (lit "IDLE") | None => false end then
               match rest' with
               | [] => inr syntax
               | b :: rest'' => match parseIntArg b with None => inr err_int | Some n => inl (Some n, rest'') end
               end
             else inl (None, rest)
         | [] => inl (None, rest)
         end) with
  | inr e => mret e
  | inl (idleMs, a :: b :: c :: extra) =>
      with_arg a err_id (fun startStr => with_arg b err_id (fun endStr =>
        match parsePelBound startStr with
        | inr e => mret e
        | inl (start, startExcl) =>
            match parsePelBound endStr with
            | inr e => mret e
            | inl (end_, endExcl) =>
                match parseIntArg c with
                | None => mret err_int
                | Some count =>
                    if count <=? 0 then mret (VArray (Some []))
                    else match (match extra with
                                | [] => inl None
                                | d :: _ => match argString d with None => inr err_consumer | Some s => inl (Some s) end
                                end) with
                    | inr e => mret e
                    | inl consumer =>
                        let! nowMs := now_ms in
                        mret (VArray (Some (pending_list start startExcl end_ endExcl count consumer idleMs nowMs (PEL g) [])))
                    end
                end
            end
        end))
  | inl _ => mret syntax
  end.

Definition xpending (args : list Value) : M S Value :=
  match args with
  | a :: b :: rest => with_key a (fun key => with_arg b err_group (fun group =>
      loadGroup key group (mret (nogroup key group)) (fun s _ g =>
        match rest with [] => mret (pendingSummary g) | _ => xpending_range g rest end)))
  | _ => mret (wrong_args "xpending")
  end.

(** ** XCLAIM, XAUTOCLAIM *)

Definition bad_idle (name : string) : Value := VError (lit "ERR Invalid min-idle-time argument for " ++ lit name).
Definition bad_claim_option (name : string) : Value := VError (lit "ERR Invalid " ++ lit name ++ lit " option argument for XCLAIM").

(** Options and ids in any order. *)
Fixpoint xclaim_options (args : list Value) (o : claimOpts) : claimOpts + Value :=
  match args with
  | [] => inl o
  | a :: rest =>
      match argString a with
      | None => inr err_id
      | Some tok =>
          let '(mkClaim ids idle time retry force justid) := o in
          let up := ToUpper tok in
          if bytes_eqb up (lit "FORCE") then xclaim_options rest (mkClaim ids idle time retry true justid)
          else if bytes_eqb up (lit "JUSTID") then xclaim_options rest (mkClaim ids idle time retry force true)
          else if bytes_eqb up (lit "IDLE") then
            match rest with
            | [] => inr syntax
            | b :: rest' => match argString b with
                            | None => inr syntax
                            | Some v => match ParseInt v with
                                        | None => inr (bad_claim_option "IDLE")
                                        | Some n => xclaim_options rest' (mkClaim ids (Some n) time retry force justid)
                                        end
                            end
            end
          else if bytes_eqb up (lit "TIME") then
            match rest with
            | [] => inr syntax
            | b :: rest' => match argString b with
                            | None => inr syntax
                            | Some v => match ParseInt v with
                                        | None => inr (bad_claim_option "TIME")
                                        | Some n => xclaim_options rest' (mkClaim ids idle (Some n) retry force justid)
                                        end
                            end
            end
          else if bytes_eqb up (lit "RETRYCOUNT") then
            match rest with
            | [] => inr syntax
            | b :: rest' => match argString b with
                            | None => inr syntax
                            | Some v => match ParseInt v with
                                        | None => inr (bad_claim_option "RETRYCOUNT")
                                        | Some n => xclaim_options rest' (mkClaim ids idle time (Some n) force justid)
                                        end
                            end
            end
          else match StreamParseID tok with
          | Ok (id, false) => xclaim_options rest (mkClaim (ids ++ [id]) idle time retry force justid)
          | _ => inr (VError (lit "ERR Unrecognized XCLAIM option '" ++ tok ++ lit "'"))
          end
      end
  end.

Definition no_claim : claimOpts := mkClaim [] None None None false false.

Definition with_min_idle (a : Value) (name : string) (k : Z -> M S Value) : M S Value :=
  with_arg a (bad_idle name) (fun s => match ParseInt s with None => mret (bad_idle name) | Some n => k n end).

Definition xclaim (args : list Value) : M S Value :=
  match args with
  | a :: b :: c :: d :: e :: rest => with_key a (fun key => with_arg b err_group (fun group => with_arg c err_consumer (fun consumer =>
      with_min_idle d "XCLAIM" (fun minIdle =>
        match xclaim_options (e :: rest) no_claim with
        | inr e => mret e
        | inl o => loadGroup key group (mret (nogroup key group)) (fun s expiry g =>
            let! t := now in
            let! (g', out) := lift (claim_ids s consumer minIdle (unix_milli t) o (cl_ids o) g []) in
            commit (writeStream key (put_back s group g') expiry) (mret (VArray (Some out))))
        end))))
  | _ => mret (wrong_args "xclaim")
  end.

Fixpoint xautoclaim_options (args : list Value) (count : Z) (justid : bool) : (Z * bool) + Value :=
  match args with
  | [] => inl (count, justid)
  | a :: rest =>
      match argString a with
      | None => inr syntax
      | Some opt =>
          let u := ToUpper opt in
          if bytes_eqb u (lit "COUNT") then
            match rest with
            | [] => inr syntax
            | b :: rest' =>
                match parseIntArg b with
                | None => inr err_int
                | Some n => if n <=? 0 then inr (errS "ERR COUNT must be > 0") else xautoclaim_options rest' n justid
                end
            end
          else if bytes_eqb u (lit "JUSTID") then xautoclaim_options rest count true
          else inr syntax
      end
  end.

Definition xautoclaim (args : list Value) : M S Value :=
  match args with
  | a :: b :: c :: d :: e :: rest => with_key a (fun key => with_arg b err_group (fun group => with_arg c err_consumer (fun consumer =>
      with_min_idle d "XAUTOCLAIM" (fun minIdle => with_arg e err_id (fun startStr =>
        match (if bytes_eqb startStr (lit "-") then Some StreamMinID
               else match StreamParseID startStr with Ok (id, false) => Some id | _ => None end) with
        | None => mret err_id
        | Some start =>
            match xautoclaim_options rest 100 false with
            | inr e => mret e
            | inl (count, justid) => loadGroup key group (mret (nogroup key group)) (fun s expiry g =>
                let! t := now in
                let '(pel, au) := auto_pel s consumer minIdle (unix_milli t) start count justid (PEL g) (mkAuto g [] [] 0 None) in
                let orphans := map reparse (au_orphans au) in
                let pel := List.filter (fun p => negb (bool_decide (pID p ∈ orphans))) pel in
                let cursor := auto_cursor (au_lastVisited au) pel in
                commit (writeStream key (put_back s group (set_pel (au_consumers au) pel)) expiry)
                  (mret (VArray (Some [BulkOf (String_ cursor); VArray (Some (au_entries au));
                                       VArray (Some (map (fun id => BulkOf (String_ id)) (au_orphans au)))]))))
            end
        end)))))
  | _ => mret (wrong_args "xautoclaim")
  end.

(** ** XINFO *)

Definition no_such_key : Value := errS "ERR no such key".
Definition bad_stream_sub : Value := errS "ERR unknown subcommand or wrong number of arguments for 'STREAM'. Try XINFO HELP.".

Definition full_options (args : list Value) : (bool * Z) + Value :=
  let spells (a : Value) (word : string) := match argString a with Some s => EqualFold s (lit word) | None => false end in
  match args with
  | [] => inl (false, 0)
  | f :: rest =>
      if negb (spells f "FULL"%string) then inr bad_stream_sub
      else match rest with
      | [] => inl (true, 0)
      | [c; n] =>
          if negb (spells c "COUNT"%string) then inr bad_stream_sub
          else match parseIntArg n with None => inr err_int | Some n => inl (true, n) end
      | _ => inr bad_stream_sub
      end
  end.

Definition xinfoStream (args : list Value) : M S Value :=
  match args with
  | a :: opts => with_key a (fun key =>
      match full_options opts with
      | inr e => mret e
      | inl (full, count) => with_stream key (mret no_such_key) (fun s _ => mret (streamInfo s full count))
      end)
  | [] => mret (wrong_args "xinfo")
  end.

Definition xinfoGroups (args : list Value) : M S Value :=
  match args with
  | [a] => with_key a (fun key => with_stream key (mret no_such_key) (fun s _ => mret (VArray (Some (map (groupInfo s) (Groups s))))))
  | _ => mret (wrong_args "xinfo")
  end.

Definition nogroupErr (group key : bytes) : Value :=
  VError (lit "NOGROUP No such consumer group '" ++ group ++ lit "' for key name '" ++ key ++ lit "'").

Definition xinfoConsumers (args : list Value) : M S Value :=
  match args with
  | [a; b] => with_key a (fun key => with_arg b err_group (fun group =>
      with_stream key (mret no_such_key) (fun s _ =>
        match findGroup s group with
        | None => mret (nogroupErr group key)
        | Some g => let! nowMs := now_ms in mret (VArray (Some (map (consumerInfo g nowMs) (Consumers g))))
        end)))
  | _ => mret (wrong_args "xinfo")
  end.

Definition xinfo (args : list Value) : M S Value :=
  match args with
  | a :: rest => with_arg a syntax (fun sub =>
      let u := ToUpper sub in
      if bytes_eqb u (lit "STREAM") then xinfoStream rest
      else if bytes_eqb u (lit "GROUPS") then xinfoGroups rest
      else if bytes_eqb u (lit "CONSUMERS") then xinfoConsumers rest
      else mret (VError (lit "ERR unknown subcommand '" ++ sub ++ lit "'. Try XINFO HELP.")))
  | [] => mret (wrong_args "xinfo")
  end.

(** ** XGROUP *)

Definition xgroupNeedKeyErr : Value :=
  errS "ERR The XGROUP subcommand requires the key to exist. Note that for CREATE you may want to use the MKSTREAM option to create an empty stream automatically.".

(** [n, err := ParseInt; err != nil || n < 0] *)
Definition entries_read_arg (a : Value) : option Z :=
  match parseIntArg a with Some n => if n <? 0 then None else Some n | None => None end.

Fixpoint create_options (args : list Value) (mkstream : bool) (entriesRead : option Z) : (bool * option Z) + Value :=
  match args with
  | [] => inl (mkstream, entriesRead)
  | a :: rest =>
      match argString a with
      | None => inr (wrong_args "xgroup|create")
      | Some opt =>
          if EqualFold opt (lit "MKSTREAM") then create_options rest true entriesRead
          else if EqualFold opt (lit "ENTRIESREAD") then
            match rest with
            | [b] => match entries_read_arg b with None => inr err_int | Some n => inl (mkstream, Some n) end
            | _ => inr (wrong_args "xgroup|create")
            end
          else inr (wrong_args "xgroup|create")
      end
  end.

Definition xgroupCreate (args : list Value) : M S Value :=
  match args with
  | a :: b :: c :: opts =>
      if 6 <? len args then mret (wrong_args "xgroup|create")
      else with_key a (fun key => with_arg b err_group (fun group => with_arg c err_id (fun idStr =>
        match create_options opts false None with
        | inr e => mret e
        | inl (mkstream, entriesRead) =>
            let create (s : Stream) (expiry : Z) : M S Value :=
              match findGroup s group with
              | Some _ => mret (errS "BUSYGROUP Consumer Group name already exists")
              | None =>
                  match parseGroupID idStr s with
                  | inr e => mret e
                  | inl id =>
                      let g := mkGroup group id (default 0 entriesRead) (match entriesRead with Some _ => true | None => false end) [] [] in
                      commit (writeStream key (set_groups s (Groups s ++ [g])) expiry)
                        (let! _ := Notify "t" (lit "xgroup-create") key in mret okReply)
                  end
              end in
            with_stream key (if mkstream then create StreamNew 0 else mret xgroupNeedKeyErr) create
        end)))
  | _ => mret (wrong_args "xgroup|create")
  end.

Definition xgroupSetID (args : list Value) : M S Value :=
  match args with
  | a :: b :: c :: opts =>
      if negb ((len args =? 3) || (len args =? 5)) then mret (wrong_args "xgroup|setid")
      else with_key a (fun key => with_arg b err_group (fun group => with_arg c err_id (fun idStr =>
        match (match opts with
               | [o; n] =>
                   if match argString o with Some s => negb (EqualFold s (lit "ENTRIESREAD")) | None => true end then inr (wrong_args "xgroup|setid")
                   else match entries_read_arg n with None => inr err_int | Some n => inl (Some n) end
               | _ => inl None
               end) with
        | inr e => mret e
        | inl entriesRead =>
            with_stream key (mret xgroupNeedKeyErr) (fun s expiry =>
              match findGroup s group with
              | None => mret (nogroupErr group key)
              | Some g =>
                  match parseGroupID idStr s with
                  | inr e => mret e
                  | inl id =>
                      let g := set_last g id in
                      let g := match entriesRead with Some n => set_read g n | None => g end in
                      commit (writeStream key (put_back s group g) expiry)
                        (let! _ := Notify "t" (lit "xgroup-setid") key in mret okReply)
                  end
              end)
        end)))
  | _ => mret (wrong_args "xgroup|setid")
  end.

Definition xgroupDestroy (args : list Value) : M S Value :=
  match args with
  | [a; b] => with_key a (fun key => with_arg b err_group (fun group =>
      with_stream key (mret xgroupNeedKeyErr) (fun s expiry =>
        match remove_group group (Groups s) with
        | None => mret (VInteger 0)
        | Some gs => commit (writeStream key (set_groups s gs) expiry)
                       (let! _ := Notify "t" (lit "xgroup-destroy") key in mret (VInteger 1))
        end)))
  | _ => mret (wrong_args "xgroup|destroy")
  end.

Definition xgroupCreateConsumer (args : list Value) : M S Value :=
  match args with
  | [a; b; c] =>
      let key := arg_or_empty a in
      with_arg b err_group (fun group => with_arg c err_consumer (fun consumer =>
        with_stream key (mret xgroupNeedKeyErr) (fun s expiry =>
          match findGroup s group with
          | None => mret (nogroupErr group key)
          | Some g =>
              if existsb (fun c => bytes_eqb (Name c) consumer) (Consumers g) then mret (VInteger 0)
              else
                let! nowMs := now_ms in
                let g := set_consumers g (Consumers g ++ [mkConsumer consumer nowMs 0 false]) in
                commit (writeStream key (put_back s group g) expiry)
                  (let! _ := Notify "t" (lit "xgroup-createconsumer") key in mret (VInteger 1))
          end)))
  | _ => mret (wrong_args "xgroup|createconsumer")
  end.

Definition xgroupDelConsumer (args : list Value) : M S Value :=
  match args with
  | [a; b; c] =>
      let key := arg_or_empty a in
      with_arg b err_group (fun group => with_arg c err_consumer (fun consumer =>
        with_stream key (mret xgroupNeedKeyErr) (fun s expiry =>
          match findGroup s group with
          | None => mret (nogroupErr group key)
          | Some g =>
              match remove_consumer consumer (Consumers g) with
              | None => mret (VInteger 0)
              | Some cs =>
                  let kept := List.filter (fun p => negb (bytes_eqb (Consumer p) consumer)) (PEL g) in
                  commit (writeStream key (put_back s group (set_pel (set_consumers g cs) kept)) expiry)
                    (let! _ := Notify "t" (lit "xgroup-delconsumer") key in mret (VInteger (len (PEL g) - len kept)))
              end
          end)))
  | _ => mret (wrong_args "xgroup|delconsumer")
  end.

Definition xgroup (args : list Value) : M S Value :=
  match args with
  | a :: rest => with_arg a syntax (fun sub =>
      let u := ToUpper sub in
      if bytes_eqb u (lit "CREATE") then xgroupCreate rest
      else if bytes_eqb u (lit "SETID") then xgroupSetID rest
      else if bytes_eqb u (lit "DESTROY") then xgroupDestroy rest
      else if bytes_eqb u (lit "CREATECONSUMER") then xgroupCreateConsumer rest
      else if bytes_eqb u (lit "DELCONSUMER") then xgroupDelConsumer rest
      else mret (VError (lit "ERR unknown subcommand '" ++ sub ++ lit "'. Try XGROUP HELP.")))
  | [] => mret (wrong_args "xgroup")
  end.

End handlers.

End streamgroup.
