(* ===== verification/CmdStreamSpec.v ===== *)
(** * What the stream commands keep true

    A stream is well formed when its entries are in strictly increasing order
    of id and none is above the last id, the names of its groups are distinct,
    and in every group the pending list is strictly increasing, the consumers
    have distinct names and every pending entry belongs to one of them.  [sstep]
    lists what the commands do to a stream, and the handlers are shown to do
    nothing else. *)

From S2P Require Import Prelude GoLib GoStrings Resp Codec StreamDs Kv Cmd CmdString CmdList CmdStream CmdStreamGroup.
Open Scope Z_scope.
Open Scope gedis_scope.

Module streamspec.
Import datastruct stream streamcmd streamgroup.

Implicit Types (s : Stream) (g : StreamGroup) (id : StreamID) (p : StreamPEL).

(** ** The handlers over any store *)

Section sim.
Context {S : Type} `{KVLaws S} `{Clock} `{GoUnicode}.

Lemma sim_readStream (key : bytes) : sim (S := S) (readStream key) (readStream key).
Proof. unfold readStream. solve_sim. Qed.
Lemma sim_writeStream (key : bytes) s (e : Z) : sim (S := S) (writeStream key s e) (writeStream key s e).
Proof. unfold writeStream. solve_sim. Qed.
Lemma sim_now_ms : sim (S := S) now_ms now_ms.
Proof. unfold now_ms. solve_sim. Qed.
Hint Resolve sim_readStream sim_writeStream sim_now_ms : sim.

Ltac solve_stream :=
  repeat (cbv beta zeta;
    lazymatch goal with
    | |- sim (with_stream _ _ _) _ => unfold with_stream
    | |- sim (with_arg _ _ _) _ => unfold with_arg
    | |- sim (with_ok _ _) _ => unfold with_ok
    | |- sim (with_min_idle _ _ _) _ => unfold with_min_idle
    | |- sim (loadGroup _ _ _ _) _ => unfold loadGroup
    | |- _ => solve_cmd
    end).

(** Every stream command that does not block behaves the same over any lawful
    store and the map. *)
Lemma stream_handlers_simulate args :
  Forall (fun h => sim (S := S) h.1 h.2)
    [(xadd args, xadd args); (xlen args, xlen args); (xsetid args, xsetid args); (xrange args, xrange args); (xrevrange args, xrevrange args);
     (xdel args, xdel args); (xtrim args, xtrim args); (xack args, xack args); (xpending args, xpending args); (xclaim args, xclaim args);
     (xautoclaim args, xautoclaim args); (xinfo args, xinfo args); (xgroup args, xgroup args)].
Proof.
  repeat apply Forall_cons_2; [..|apply Forall_nil_2]; cbn [fst snd];
    unfold xadd, xlen, xsetid, xrange, xrevrange, rangeCmd, xdel, xtrim, xack, xpending, xpending_range, xclaim, xautoclaim,
      xinfo, xinfoStream, xinfoGroups, xinfoConsumers, xgroup, xgroupCreate, xgroupSetID, xgroupDestroy, xgroupCreateConsumer, xgroupDelConsumer;
    solve_stream.
Qed.
End sim.

(** ** Well-formed streams *)

Definition names (g : StreamGroup) : list bytes := map Name (Consumers g).

Record group_wf (g : StreamGroup) : Prop := {
  gwf_sorted : pel_sorted (PEL g);
  gwf_names : NoDup (names g);
  gwf_owners : Forall (fun p => Consumer p ∈ names g) (PEL g);
}.

Definition entries_sorted (es : list StreamEntry) : Prop := StronglySorted (fun a b => id_lt (ID a) (ID b)) es.

Record stream_wf (s : Stream) : Prop := {
  swf_sorted : entries_sorted (Entries s);
  swf_last : Forall (fun e => HasLast s = true /\ ~ id_lt (Last s) (ID e)) (Entries s);
  swf_groups : NoDup (map gName (Groups s));
  swf_group : Forall group_wf (Groups s);
}.

(** ** What the commands do *)

(** Updates of one group of a stream. *)
Inductive gstep (s : Stream) (g : StreamGroup) : StreamGroup -> Prop :=
| G_setid id : gstep s g (set_last g id)
| G_setid_read id n : gstep s g (set_read (set_last g id) n)
| G_consumer name now : name ∉ names g -> gstep s g (set_consumers g (Consumers g ++ [mkConsumer name now 0 false]))
| G_delconsumer name cs : remove_consumer name (Consumers g) = Some cs ->
    gstep s g (set_pel (set_consumers g cs) (List.filter (fun p => negb (bytes_eqb (Consumer p) name)) (PEL g)))
| G_read req expiry consumer count noack now : gstep s g (read_one (mkResolved req s expiry g) consumer count noack now).1
| G_ack ids : gstep s g (ack_ids ids g 0).1
| G_claim consumer minIdle now o ids g' out : claim_ids s consumer minIdle now o ids g [] = Ok (g', out) -> gstep s g g'
| G_auto consumer minIdle now start count justid pel au (keep : StreamPEL -> bool) :
    auto_pel s consumer minIdle now start count justid (PEL g) (mkAuto g [] [] 0 None) = (pel, au) ->
    gstep s g (set_pel (au_consumers au) (List.filter keep pel)).

(** Updates of a stream.  XSETID may not go below the top entry. *)
Inductive sstep (s : Stream) : Stream -> Prop :=
| S_add idStr t id fields : resolveAddID idStr s t = Ok id -> sstep s (add_entry s id fields)
| S_setid last added maxDel : Forall (fun e => ~ id_lt last (ID e)) (Entries s) ->
    sstep s (mkStream (Entries s) last true added maxDel (Groups s))
| S_del ids : sstep s (xdel_ids ids s 0).1
| S_trim t limit : sstep s (set_entries s (trim t limit (Entries s) 0).1)
| S_create name id n b : findGroup s name = None -> sstep s (set_groups s (Groups s ++ [mkGroup name id n b [] []]))
| S_destroy name gs : remove_group name (Groups s) = Some gs -> sstep s (set_groups s gs)
| S_group name g g' : findGroup s name = Some g -> gstep s g g' -> sstep s (put_back s name g').

(** ** New ids are above the last *)

Lemma Compare_le a b : (Compare a b <=? 0) = negb (Less b a).
Proof.
  unfold Compare. destruct (Less a b) eqn:E; [|by destruct (Less b a)]. apply Less_spec in E.
  assert (Less b a = false) as -> by (apply Less_false; intros X; by apply (id_lt_irrefl a), (id_lt_trans a b a)). done.
Qed.

Lemma Compare_lt a b : (Compare a b <? 0) = Less a b.
Proof. unfold Compare. by destruct (Less a b), (Less b a). Qed.

Lemma Compare_gt a b : (0 <? Compare a b) = Less b a.
Proof. rewrite Z.ltb_antisym, Compare_le. apply negb_involutive. Qed.

Lemma resolve_above idStr s t id : resolveAddID idStr s t = Ok id -> HasLast s = true -> id_lt (Last s) id.
Proof.
  unfold resolveAddID. destruct (StreamParseID idStr) as [[i auto]| |]; cbn [res_bind]; try done. intros E Hl. rewrite Hl in E.
  cbn [negb andb] in E. destruct auto; cbn [negb] in E.
  - destruct (bytes_eqb idStr (lit "*")).
    + destruct (_ <=? _) eqn:Em; breflect.
      * destruct (Seq (Last s) =? max_u64); [done|]. injection E as <-. right. cbn. lia.
      * injection E as <-. left. cbn. lia.
    + destruct (Ms (Last s) <? Ms i) eqn:Em; breflect; [injection E as <-; left; cbn; lia|].
      destruct (Ms i =? Ms (Last s)) eqn:Ee; [|done]. breflect. destruct (Seq (Last s) =? max_u64); [done|]. injection E as <-. right. cbn. lia.
  - rewrite Compare_le in E. destruct (Less (Last s) i) eqn:L; [|done]. injection E as <-. by apply Less_spec.
Qed.

(** ** Entries *)

Lemma sorted_snoc (es : list StreamEntry) (e : StreamEntry) :
  entries_sorted es -> Forall (fun x => id_lt (ID x) (ID e)) es -> entries_sorted (es ++ [e]).
Proof.
  induction 1 as [|x es Hs IH Hx]; intros Hf; [repeat constructor|]. apply Forall_cons in Hf as [Hxe Hf]. cbn. constructor; [by apply IH|].
  apply Forall_app. split; [done|by apply Forall_singleton].
Qed.

Lemma remove_entry_spec id (es es' : list StreamEntry) :
  remove_entry id es = Some es' -> sublist es' es.
Proof.
  revert es'. induction es as [|e es IH]; intros es' E; cbn in E; [done|]. case_bool_decide; [injection E as <-; by constructor|].
  destruct (remove_entry id es) as [r|]; [|done]. injection E as <-. constructor. by apply IH.
Qed.

Lemma xdel_sublist (ids : list StreamID) s n :
  let s' := (xdel_ids ids s n).1 in
  sublist (Entries s') (Entries s) /\ Last s' = Last s /\ HasLast s' = HasLast s /\ Groups s' = Groups s.
Proof.
  cbv zeta. revert s n. induction ids as [|id ids IH]; intros s n; cbn [xdel_ids]; [done|].
  destruct (remove_entry id (Entries s)) as [es|] eqn:E; [|apply IH].
  destruct (IH (mkStream es (Last s) (HasLast s) (Added s) (if Compare (MaxDeleted s) id <? 0 then id else MaxDeleted s) (Groups s)) (n + 1))
    as (H1 & H2 & H3 & H4). cbn in *. split_and!; [|done..]. etrans; [exact H1|]. by apply remove_entry_spec in E.
Qed.

Lemma trim_suffix (t : threshold) limit (es : list StreamEntry) n : exists k : nat, (trim t limit es n).1 = drop k es /\ (trim t limit es n).2 = n + Z.of_nat k /\ (k <= length es)%nat.
Proof.
  revert n. induction es as [|e es IH]; intros n; cbn [trim]; [exists 0%nat; cbn; split_and!; [done|lia|lia]|].
  destruct (match t with MaxLen m => _ | MinID i => _ end); [|exists 0%nat; cbn; split_and!; [done|lia|lia]].
  destruct (_ && _); [exists 0%nat; cbn; split_and!; [done|lia|lia]|].
  destruct (IH (n + 1)) as (k & E1 & E2 & Hk). exists (S k). cbn. split_and!; [done|rewrite E2; lia|lia].
Qed.

Lemma sublist_sorted (es es' : list StreamEntry) : sublist es' es -> entries_sorted es -> entries_sorted es'.
Proof.
  induction 1 as [|e l1 l2 Hs IH|e l1 l2 Hs IH]; intros Hw; [constructor| |]; apply StronglySorted_inv in Hw as [Hw He]; [|by apply IH].
  constructor; [by apply IH|]. rewrite Forall_forall in *. intros x Hx. apply He. by eapply elem_of_sublist.
Qed.

Lemma sublist_Forall {A} (P : A -> Prop) (l l' : list A) : sublist l' l -> Forall P l -> Forall P l'.
Proof. rewrite !Forall_forall. intros Hs Hf x Hx. apply Hf. by eapply elem_of_sublist. Qed.

(** ** Consumers *)

(** [g'] has the pending list of [g] and all its consumers. *)
Record extends (g g' : StreamGroup) : Prop := {
  ext_pel : PEL g' = PEL g;
  ext_last : LastID g' = LastID g;
  ext_name : gName g' = gName g;
  ext_names : NoDup (names g) -> NoDup (names g');
  ext_sub : forall n, n ∈ names g -> n ∈ names g';
}.

Lemma extends_trans g1 g2 g3 : extends g1 g2 -> extends g2 g3 -> extends g1 g3.
Proof. intros [] []. split; try congruence; eauto. Qed.

Lemma names_on_consumer (i : Z) (f : StreamConsumer -> StreamConsumer) g :
  (forall c, Name (f c) = Name c) -> names (on_consumer i f g) = names g.
Proof.
  intros Hf. unfold names, on_consumer. cbn. generalize (Z.to_nat i). induction (Consumers g) as [|c cs IH]; intros [|n]; cbn; try done.
  - by rewrite Hf.
  - f_equal. apply IH.
Qed.

Lemma extends_on_consumer (i : Z) (f : StreamConsumer -> StreamConsumer) g :
  (forall c, Name (f c) = Name c) -> extends g (on_consumer i f g).
Proof. intros Hf. split; try done; by rewrite (names_on_consumer i f g Hf). Qed.

Lemma ensure_extends g (name : bytes) now :
  extends g (EnsureConsumer g name now).2 /\ name ∈ names (EnsureConsumer g name now).2.
Proof.
  unfold EnsureConsumer, FindConsumer. destruct (find_consumer_spec 0 (Consumers g) name) as [[E Hn]|(H1 & c & H2 & H3)].
  - rewrite E. cbn. split; [split; try done; unfold names; cbn; rewrite map_app|unfold names; cbn; rewrite map_app; set_solver].
    + intros Hd. apply NoDup_app. split_and!; [done| |apply NoDup_singleton]. intros x Hx ->%list_elem_of_singleton. apply list_elem_of_fmap in Hx as (c & Ec & Hc). cbn in Ec.
      rewrite Forall_forall in Hn. by apply (Hn c).
    + intros n Hin. apply elem_of_app. by left.
  - rewrite (proj2 (Z.leb_le 0 (find_consumer 0 (Consumers g) name))) by lia. cbn. split; [by split|].
    apply list_elem_of_fmap. exists c. split; [done|]. by eapply list_elem_of_lookup_2.
Qed.

Lemma claimant_extends (consumer : bytes) now g :
  extends g (claimant consumer now g) /\ consumer ∈ names (claimant consumer now g).
Proof.
  unfold claimant. destruct (ensure_extends g consumer now) as [He Hc]. destruct (EnsureConsumer g consumer now) as [i g1]. cbn in He, Hc.
  split; [eapply extends_trans; [exact He|by apply extends_on_consumer]|]. by rewrite names_on_consumer.
Qed.

(** ** Pending lists *)

Lemma pel_sorted_ids (l : list StreamPEL) : pel_sorted l <-> StronglySorted id_lt (map pID l).
Proof.
  unfold pel_sorted. induction l as [|p l IH]; cbn; [split; constructor|]. split; intros Hs; apply StronglySorted_inv in Hs as [Hs Hf].
  - constructor; [by apply IH|]. rewrite Forall_map. exact Hf.
  - constructor; [by apply IH|]. rewrite Forall_map in Hf. exact Hf.
Qed.

Lemma filter_sublist {A} (f : A -> bool) (l : list A) : sublist (List.filter f l) l.
Proof. induction l as [|x l IH]; cbn; [done|]. destruct (f x); by constructor. Qed.

Lemma sublist_pel_sorted (l l' : list StreamPEL) : sublist l' l -> pel_sorted l -> pel_sorted l'.
Proof.
  induction 1 as [|e l1 l2 Hs IH|e l1 l2 Hs IH]; intros Hw; [constructor| |]; apply StronglySorted_inv in Hw as [Hw He]; [|by apply IH].
  constructor; [by apply IH|]. eapply sublist_Forall; [exact Hs|done].
Qed.

(** Putting a pending list with the same ids, or fewer, into a group whose
    consumers own it. *)
Lemma group_wf_pel g g' (l : list StreamPEL) :
  group_wf g -> extends g g' -> map pID l = map pID (PEL g) -> Forall (fun p => Consumer p ∈ names g') l -> group_wf (set_pel g' l).
Proof.
  intros [Hs Hn Ho] [Hp _ _ Hnn _] Hi Hf. split; cbn; [apply pel_sorted_ids; rewrite Hi; by apply pel_sorted_ids|by apply Hnn|done].
Qed.

Lemma group_wf_filter g (keep : StreamPEL -> bool) : group_wf g -> group_wf (set_pel g (List.filter keep (PEL g))).
Proof.
  intros [Hs Hn Ho]. split; cbn; [eapply sublist_pel_sorted; [apply filter_sublist|done]|done|eapply sublist_Forall; [apply filter_sublist|done]].
Qed.

Lemma group_wf_extends g g' : group_wf g -> extends g g' -> group_wf g'.
Proof.
  intros [Hs Hn Ho] [Hp _ _ Hnn Hsub]. split; [by rewrite Hp|by apply Hnn|]. rewrite Hp. eapply Forall_impl; [exact Ho|]. intros p. apply Hsub.
Qed.

Lemma group_wf_upsert g p : group_wf g -> Consumer p ∈ names g -> group_wf (UpsertPEL g p).
Proof. intros [Hs Hn Ho] Hc. split; cbn; [by apply upsert_pel_sorted|done|by apply upsert_pel_Forall]. Qed.

Lemma replace_pel_ids p (l : list StreamPEL) : map pID (replace_pel p l) = map pID l.
Proof. induction l as [|e l IH]; cbn; [done|]. case_bool_decide as E; cbn; [by rewrite E|by rewrite IH]. Qed.

Lemma replace_pel_Forall (P : StreamPEL -> Prop) p (l : list StreamPEL) : P p -> Forall P l -> Forall P (replace_pel p l).
Proof. intros Hp. induction 1 as [|e l He Hl IH]; cbn; [constructor|]. case_bool_decide; by constructor. Qed.

Lemma redeliver_pel_like (es : list StreamEntry) (name : bytes) after count now (pel : list StreamPEL) (out : list Value) :
  map pID (redeliver_pel es name after count now pel out).1 = map pID pel /\
  map Consumer (redeliver_pel es name after count now pel out).1 = map Consumer pel.
Proof.
  revert out. induction pel as [|p pel IH]; intros out; cbn [redeliver_pel]; [done|].
  destruct (_ || _).
  - specialize (IH out). destruct (redeliver_pel es name after count now pel out). cbn in *. destruct IH as [-> ->]. done.
  - destruct (by_id es (pID p)) as [e|].
    + destruct (_ && _); [done|]. specialize (IH (out ++ [streamEntryValue e])).
      destruct (redeliver_pel es name after count now pel (out ++ [streamEntryValue e])). cbn in *. destruct IH as [-> ->]. done.
    + specialize (IH out). destruct (redeliver_pel es name after count now pel out). cbn in *. destruct IH as [-> ->]. done.
Qed.

Lemma owners_like (ns : list bytes) (l l' : list StreamPEL) :
  map Consumer l' = map Consumer l -> Forall (fun p => Consumer p ∈ ns) l -> Forall (fun p => Consumer p ∈ ns) l'.
Proof.
  intros E. rewrite !Forall_forall. intros Hf p Hp. assert (Consumer p ∈ map Consumer l) as Hq by (rewrite <- E; by apply list_elem_of_fmap_2).
  apply list_elem_of_fmap in Hq as (q & -> & Hq). by apply Hf.
Qed.

(** ** Delivery keeps a group well formed *)

Lemma deliverNew_wf (es : list StreamEntry) (i : Z) (name : bytes) count (noack : bool) now g (out : list Value) :
  group_wf g -> name ∈ names g ->
  group_wf (deliverNew es i name count noack now g out).1 /\ gName (deliverNew es i name count noack now g out).1 = gName g.
Proof.
  revert g out. induction es as [|e es IH]; intros g out Hw Hn; cbn [deliverNew]; [done|].
  destruct (_ <=? 0); [by apply IH|]. destruct (_ && _); [done|]. cbv zeta.
  assert (group_wf (set_last g (ID e))) as Hw1 by (by destruct Hw; split).
  destruct noack; [by destruct (IH (set_last g (ID e)) (out ++ [streamEntryValue e]) Hw1 Hn)|].
  set (g1 := UpsertPEL _ _). assert (group_wf g1) as Hw2 by (apply group_wf_upsert; done).
  assert (extends g1 (on_consumer i (active now) g1)) as He by (by apply extends_on_consumer).
  destruct (IH (on_consumer i (active now) g1) (out ++ [streamEntryValue e])) as [Hw3 Hg].
  - by eapply group_wf_extends.
  - apply (ext_sub _ _ He). exact Hn.
  - split; [done|]. rewrite Hg. by rewrite (ext_name _ _ He).
Qed.

Lemma read_one_wf r (consumer : bytes) count (noack : bool) now :
  group_wf (rg_g r) -> group_wf (read_one r consumer count noack now).1 /\ gName (read_one r consumer count noack now).1 = gName (rg_g r).
Proof.
  intros Hw. unfold read_one. destruct (ensure_extends (rg_g r) consumer now) as [He Hc].
  destruct (EnsureConsumer (rg_g r) consumer now) as [i g1]. cbn in He, Hc.
  set (g2 := on_consumer i (seen now) g1). assert (extends (rg_g r) g2) as He2 by (eapply extends_trans; [done|by apply extends_on_consumer]).
  assert (consumer ∈ names g2) as Hc2 by (unfold g2; by rewrite names_on_consumer). pose proof (group_wf_extends _ _ Hw He2) as Hw2.
  pose proof (ext_name _ _ He2) as Hg2. destruct (gq_isNew _).
  - destruct (deliverNew_wf (Entries (rg_s r)) i consumer count noack now g2 [] Hw2 Hc2) as [Hd Hg].
    destruct (deliverNew (Entries (rg_s r)) i consumer count noack now g2 []) as [g3 vals]. cbn in *.
    destruct (0 <? len vals); cbn; [|split; congruence]. split; [by destruct Hd; split|congruence].
  - unfold redeliver. destruct (redeliver_pel_like (Entries (rg_s r)) consumer (gq_explicit (rg_req r)) count now (PEL g2) []) as [Hi Ho].
    destruct (redeliver_pel (Entries (rg_s r)) consumer (gq_explicit (rg_req r)) count now (PEL g2) []) as [pel out]. cbn in *.
    assert (group_wf (set_pel g2 pel)) as Hw3.
    { apply group_wf_pel with g2; [done|by split|done|]. eapply owners_like; [exact Ho|apply (gwf_owners _ Hw2)]. }
    destruct out; cbn; [done|]. split; [|done]. eapply group_wf_extends; [exact Hw3|by apply extends_on_consumer].
Qed.

(** ** Acknowledgements, claims and removals *)

Lemma ack_ids_sublist (ids : list StreamID) g n :
  sublist (PEL (ack_ids ids g n).1) (PEL g) /\ Consumers (ack_ids ids g n).1 = Consumers g /\ gName (ack_ids ids g n).1 = gName g.
Proof.
  revert g n. induction ids as [|id ids IH]; intros g n; cbn [ack_ids]; [done|]. unfold DelPEL.
  assert (sublist (del_pel id (PEL g)).2 (PEL g)) as Hd.
  { induction (PEL g) as [|e l IHl]; cbn; [done|]. case_bool_decide; cbn; [by constructor|].
    destruct (del_pel id l) as [b l']; cbn in *. by constructor. }
  destruct (del_pel id (PEL g)) as [b l]. cbn in Hd. destruct (IH (set_pel g l) (if b then n + 1 else n)) as (H1 & H2 & H3).
  split_and!; [etrans; [exact H1|exact Hd]|done|done].
Qed.

Lemma claim_target_wf s (consumer : bytes) minIdle now (o : claimOpts) id g p (fresh : bool) g1 :
  group_wf g -> claim_target s consumer minIdle now o id g = Some (p, fresh, g1) ->
  group_wf (claimant consumer (u64 now) g1) /\ gName g1 = gName g.
Proof.
  intros Hw. unfold claim_target. destruct (FindPEL g id) as [q|].
  - destruct (_ <? _); [done|]. intros [= <- <- <-]. split; [|done]. eapply group_wf_extends; [exact Hw|apply claimant_extends].
  - destruct (negb _); [done|]. destruct (findStreamEntry s id); [|done]. intros [= <- <- <-]. split; [|done].
    set (p := mkPEL id consumer (u64 now) 1).
    assert (claimant consumer (u64 now) (UpsertPEL g p) = UpsertPEL (claimant consumer (u64 now) g) p) as ->.
    { unfold claimant, EnsureConsumer, FindConsumer. cbn. by destruct (0 <=? find_consumer 0 (Consumers g) consumer). }
    destruct (claimant_extends consumer (u64 now) g) as [He Hc]. apply group_wf_upsert; [by eapply group_wf_extends|exact Hc].
Qed.

Lemma claim_replace_wf g (consumer : bytes) now p :
  group_wf (claimant consumer now g) -> Consumer p = consumer ->
  group_wf (set_pel (claimant consumer now g) (replace_pel p (PEL (claimant consumer now g)))).
Proof.
  intros Hw Hp. destruct (claimant_extends consumer now g) as [_ Hc].
  apply group_wf_pel with (claimant consumer now g); [done|by split|apply replace_pel_ids|].
  apply replace_pel_Forall; [by rewrite Hp|apply (gwf_owners _ Hw)].
Qed.

Lemma claim_ids_wf s (consumer : bytes) minIdle now (o : claimOpts) (ids : list StreamID) g (out : list Value) g' (out' : list Value) :
  group_wf g -> claim_ids s consumer minIdle now o ids g out = Ok (g', out') -> group_wf g' /\ gName g' = gName g.
Proof.
  revert g out. induction ids as [|id ids IH]; intros g out Hw E; cbn [claim_ids] in E; [by injection E as <- _|].
  destruct (claim_target s consumer minIdle now o id g) as [[[p fresh] g1]|] eqn:Et; [|by eapply IH].
  destruct (claim_target_wf _ _ _ _ _ _ _ _ _ _ Hw Et) as [Hw1 Hg1]. cbv zeta in E.
  assert (forall p', Consumer p' = consumer ->
    group_wf (set_pel (claimant consumer (u64 now) g1) (replace_pel p' (PEL (claimant consumer (u64 now) g1)))) /\
    gName (set_pel (claimant consumer (u64 now) g1) (replace_pel p' (PEL (claimant consumer (u64 now) g1)))) = gName g) as Hr.
  { intros p' Hp'. split; [by apply claim_replace_wf|]. cbn. destruct (claimant_extends consumer (u64 now) g1) as [He _]. by rewrite (ext_name _ _ He). }
  destruct (cl_justid o).
  - destruct (Hr (mkPEL (pID p) consumer (DeliveryMs p) (Count p)) eq_refl) as [Hw2 Hg2]. destruct (IH _ _ Hw2 E) as [? Hg3]. split; [done|congruence].
  - destruct (findStreamEntry s id); [|done]. destruct (Hr (claimed consumer now o fresh p) eq_refl) as [Hw2 Hg2].
    destruct (IH _ _ Hw2 E) as [? Hg3]. split; [done|congruence].
Qed.

Lemma auto_pel_like s (consumer : bytes) minIdle now start count (justid : bool) (pel : list StreamPEL) (a : autoclaim) pel' a' :
  auto_pel s consumer minIdle now start count justid pel a = (pel', a') ->
  extends (au_consumers a) (au_consumers a') /\ map pID pel' = map pID pel /\
  Forall2 (fun p p' => Consumer p' = Consumer p \/ (Consumer p' = consumer /\ consumer ∈ names (au_consumers a'))) pel pel'.
Proof.
  assert (forall g, extends g g) as Hrefl by (intros; by split).
  revert a pel' a'. induction pel as [|p pel IH]; intros a pel' a' E; cbn [auto_pel] in E; [injection E as <- <-; split_and!; [done|done|constructor]|].
  destruct a as [g entries orphans visited lv]. cbn [au_consumers].
  assert (forall p1 a1, pID p1 = pID p -> extends g (au_consumers a1) ->
    (Consumer p1 = Consumer p \/ (Consumer p1 = consumer /\ consumer ∈ names (au_consumers a1))) ->
    (let '(r', a') := auto_pel s consumer minIdle now start count justid pel a1 in (p1 :: r', a')) = (pel', a') ->
    extends g (au_consumers a') /\ map pID pel' = map pID (p :: pel) /\
    Forall2 (fun p p' => Consumer p' = Consumer p \/ (Consumer p' = consumer /\ consumer ∈ names (au_consumers a'))) (p :: pel) pel') as Hgo.
  { intros p1 a1 Hid He1 Ho E1. destruct (auto_pel s consumer minIdle now start count justid pel a1) as [r' a2] eqn:Er. injection E1 as <- <-.
    destruct (IH _ _ _ Er) as (He2 & Hi & Hf). split_and!; [by eapply extends_trans|cbn; by rewrite Hi, Hid|]. constructor; [|done].
    destruct Ho as [Ho|[Ho Hc]]; [by left|right]. split; [done|]. by apply (ext_sub _ _ He2). }
  destruct (_ <? 0); [eapply Hgo; [|..|exact E]; auto|].
  destruct (_ <=? visited); [injection E as <- <-; split_and!; [done|done|apply Forall2_same_length_lookup_2; [done|]; intros i x y Hx Hy; left; congruence]|].
  destruct (findStreamEntry s (pID p)) as [e|]; [|eapply Hgo; [|..|exact E]; auto].
  destruct (_ <? _); [eapply Hgo; [|..|exact E]; auto|]. destruct (claimant_extends consumer (u64 now) g) as [He Hc].
  destruct justid; (eapply Hgo; [|..|exact E]; [done|exact He|right; done]).
Qed.

Lemma auto_wf s (consumer : bytes) minIdle now start count (justid : bool) g (pel : list StreamPEL) (au : autoclaim) (keep : StreamPEL -> bool) :
  group_wf g -> auto_pel s consumer minIdle now start count justid (PEL g) (mkAuto g [] [] 0 None) = (pel, au) ->
  group_wf (set_pel (au_consumers au) (List.filter keep pel)) /\ gName (au_consumers au) = gName g.
Proof.
  intros Hw E. destruct (auto_pel_like _ _ _ _ _ _ _ _ _ _ _ E) as (He & Hi & Hf). cbn in He. split; [|apply (ext_name _ _ He)].
  apply (group_wf_filter (set_pel (au_consumers au) pel)). apply group_wf_pel with g; [done|done|done|].
  apply Forall_lookup. intros i p' Hp'. destruct (Forall2_lookup_r _ _ _ _ _ Hf Hp') as (p & Hp & [->|[-> ?]]); [|done].
  apply (ext_sub _ _ He). pose proof (gwf_owners _ Hw) as Ho. rewrite Forall_lookup in Ho. by eapply Ho.
Qed.

Lemma remove_consumer_names (name : bytes) (cs cs' : list StreamConsumer) :
  remove_consumer name cs = Some cs' -> NoDup (map Name cs) ->
  NoDup (map Name cs') /\ forall n, n ∈ map Name cs -> n <> name -> n ∈ map Name cs'.
Proof.
  revert cs'. induction cs as [|c cs IH]; intros cs' E Hd; cbn in *; [done|]. apply NoDup_cons in Hd as [Hc Hd].
  destruct (bytes_eqb_spec (Name c) name) as [En|En].
  - injection E as <-. split; [done|]. intros n [->|Hn]%elem_of_cons Hne; done.
  - destruct (remove_consumer name cs) as [r|] eqn:Er; [|done]. injection E as <-. destruct (IH r eq_refl Hd) as [H1 H2]. cbn. split.
    + apply NoDup_cons. split; [|done]. intros Hin. apply Hc.
      assert (forall r, remove_consumer name cs = Some r -> forall n, n ∈ map Name r -> n ∈ map Name cs) as Hsub; [|by eapply Hsub].
      clear. induction cs as [|d cs IH]; intros r E n Hn; cbn in *; [done|]. destruct (bytes_eqb (Name d) name); [injection E as <-; by right|].
      destruct (remove_consumer name cs); [|done]. injection E as <-. cbn in Hn. apply elem_of_cons in Hn as [->|Hn]; [by left|right]. by eapply IH.
    + intros n [->|Hn]%elem_of_cons Hne; [by left|right]. by apply H2.
Qed.

(** Every update keeps a group well formed, and its name. *)
Lemma gstep_wf s g g' : group_wf g -> gstep s g g' -> group_wf g' /\ gName g' = gName g.
Proof.
  intros Hw Hg. destruct Hg as [id|id n|name now Hn|name cs E|req expiry consumer count noack now|ids|consumer minIdle now o ids g' out E|consumer minIdle now start count justid pel au keep E].
  - split; [by destruct Hw; split|done].
  - split; [by destruct Hw; split|done].
  - split; [|done]. destruct Hw as [Hs Hd Ho]. split; [done| |].
    + unfold names in *. cbn. rewrite map_app. apply NoDup_app. split_and!; [done|by intros x Hx ->%list_elem_of_singleton|apply NoDup_singleton].
    + eapply Forall_impl; [exact Ho|]. intros p Hp. unfold names in *. cbn. rewrite map_app. apply elem_of_app. by left.
  - split; [|done]. destruct Hw as [Hs Hd Ho]. destruct (remove_consumer_names _ _ _ E Hd) as [Hd' Hk]. split; cbn.
    + eapply sublist_pel_sorted; [apply filter_sublist|done].
    + done.
    + rewrite Forall_forall in *. intros p Hp. apply list_elem_of_In, filter_In in Hp as [Hp Hc]. apply list_elem_of_In in Hp.
      apply Hk; [by apply Ho|]. intros Ec. rewrite Ec, bytes_eqb_refl in Hc. done.
  - by apply (read_one_wf (mkResolved req s expiry g)).
  - destruct (ack_ids_sublist ids g 0) as (Hs & Hc & Hn). split; [|done]. destruct Hw as [Hss Hd Ho]. split.
    + by eapply sublist_pel_sorted.
    + unfold names. by rewrite Hc.
    + unfold names. rewrite Hc. by eapply sublist_Forall.
  - by eapply claim_ids_wf.
  - by eapply auto_wf.
Qed.

(** ** Every update of a stream keeps it well formed *)

Lemma replace_group_wf (name : bytes) g (gs : list StreamGroup) :
  gName g = name -> group_wf g -> Forall group_wf gs ->
  Forall group_wf (replace_group name g gs) /\ map gName (replace_group name g gs) = map gName gs.
Proof.
  intros Hn Hg. induction 1 as [|g0 gs Hg0 Hgs [IH1 IH2]]; cbn; [done|].
  destruct (bytes_eqb_spec (gName g0) name) as [E|E]; cbn; (split; [by constructor|congruence]).
Qed.

Lemma remove_group_sublist (name : bytes) (gs gs' : list StreamGroup) : remove_group name gs = Some gs' -> sublist gs' gs.
Proof.
  revert gs'. induction gs as [|g gs IH]; intros gs' E; cbn in E; [done|]. destruct (bytes_eqb (gName g) name); [injection E as <-; by constructor|].
  destruct (remove_group name gs) as [r|]; [|done]. injection E as <-. constructor. by apply IH.
Qed.

Lemma findGroup_some s (name : bytes) g : findGroup s name = Some g -> g ∈ Groups s /\ gName g = name.
Proof. intros E. apply find_some in E as [E1 E2]. split; [by apply list_elem_of_In|]. by destruct (bytes_eqb_spec (gName g) name). Qed.

Lemma stream_new_wf : stream_wf StreamNew.
Proof. split; cbn; constructor. Qed.

Lemma add_entry_wf s (idStr : bytes) t id (fields : list bytes) :
  stream_wf s -> resolveAddID idStr s t = Ok id -> stream_wf (add_entry s id fields).
Proof.
  intros [Hs Hl Hg Hw] E. assert (Forall (fun x => id_lt (ID x) id) (Entries s)) as Hf.
  { rewrite Forall_forall in *. intros e He. destruct (Hl e He) as [Hh Hn]. pose proof (resolve_above _ _ _ _ E Hh) as Ha.
    destruct (id_trichotomy (ID e) (Last s)) as [X|[X|X]]; [by eapply id_lt_trans|by rewrite X|done]. }
  split; cbn; [by apply sorted_snoc| |done|done]. apply Forall_app. split.
  - eapply Forall_impl; [exact Hf|]. intros x Hx. split; [done|]. intros X. apply (id_lt_irrefl id). by eapply id_lt_trans.
  - apply Forall_singleton. split; [done|]. apply id_lt_irrefl.
Qed.

Lemma sstep_wf s s' : stream_wf s -> sstep s s' -> stream_wf s'.
Proof.
  intros Hw Hstep. destruct Hstep as [idStr t id fields E|last added maxDel Hf|ids|t limit|name id n b E|name gs E|name g g' E Hg].
  - by eapply add_entry_wf.
  - destruct Hw as [Hs Hl Hg Hw]. split; cbn; [done| |done|done]. eapply Forall_impl; [exact Hf|]. done.
  - destruct (xdel_sublist ids s 0) as (Hsub & E1 & E2 & E3). destruct Hw as [Hs Hl Hg Hw].
    split; [by eapply sublist_sorted| |by rewrite E3|by rewrite E3]. rewrite E1, E2. by eapply sublist_Forall.
  - destruct (trim_suffix t limit (Entries s) 0) as (k & Ek & _). destruct Hw as [Hs Hl Hg Hw].
    split; cbn; [| |done|done]; rewrite Ek; [eapply sublist_sorted; [apply sublist_drop|done]|eapply sublist_Forall; [apply sublist_drop|done]].
  - destruct Hw as [Hs Hl Hg Hw]. split; cbn; [done|done| |].
    + rewrite map_app. apply NoDup_app. split_and!; [done| |apply NoDup_singleton]. intros x Hx ->%list_elem_of_singleton.
      apply list_elem_of_fmap in Hx as (g0 & En & Hg0). apply list_elem_of_In in Hg0. apply (find_none _ _ E) in Hg0.
      cbn in En. subst name. by rewrite bytes_eqb_refl in Hg0.
    + apply Forall_app. split; [done|]. apply Forall_singleton. split; cbn; constructor.
  - pose proof (remove_group_sublist _ _ _ E) as Hsub. destruct Hw as [Hs Hl Hg Hw]. split; cbn; [done|done| |by eapply sublist_Forall].
    eapply sublist_NoDup; [exact Hg|]. by apply (fmap_sublist gName).
  - destruct (findGroup_some _ _ _ E) as [Hin Hn]. destruct Hw as [Hs Hl Hgn Hw]. rewrite Forall_forall in Hw.
    destruct (gstep_wf s g g' (Hw g Hin) Hg) as [Hwg Hn']. destruct (replace_group_wf name g' (Groups s)) as [H1 H2]; [congruence|done|by apply Forall_forall|].
    split; cbn; [done|done|by rewrite H2|done].
Qed.

(** ** The handlers *)

Section handlers.
Context `{Clock} `{GoUnicode}.
Notation W := (world (gmap bytes bytes)).

(** Every entry that reads as a stream is well formed. *)
Definition all_wf (w : W) : Prop :=
  forall rk raw e s, w_kv w !! rk = Some raw -> Decode raw = Ok e -> Type_ e = TypeStream -> DecodeStream (Payload e) = Ok s -> stream_wf s.

(** [raw] is the stored form of a well-formed stream. *)
Definition wf_raw (raw : bytes) : Prop := exists e s, raw = Encode TypeStream e (EncodeStream s) /\ stream_wf s.

(** What a command may leave: entries that were there, and well-formed streams. *)
Definition okw (w w' : W) : Prop :=
  forall rk raw, w_kv w' !! rk = Some raw -> w_kv w !! rk = Some raw \/ wf_raw raw.

Lemma okw_refl w : okw w w.
Proof. intros rk raw. by left. Qed.
Lemma okw_trans (w1 w2 w3 : W) : okw w1 w2 -> okw w2 w3 -> okw w1 w3.
Proof. intros E1 E2 rk raw Hr. destruct (E2 rk raw Hr) as [X|X]; [by apply E1|by right]. Qed.

(** Only removals. *)
Definition shrinks (w w' : W) : Prop := w_kv w' ⊆ w_kv w.
Lemma shrinks_refl w : shrinks w w.
Proof. unfold shrinks. reflexivity. Qed.
Lemma shrinks_okw w w' : shrinks w w' -> okw w w'.
Proof. intros Hs rk raw Hr. left. by eapply lookup_weaken. Qed.
Lemma shrinks_all_wf w w' : shrinks w w' -> all_wf w -> all_wf w'.
Proof. intros Hs Hw rk raw e s Hr. exact (Hw rk raw e s (lookup_weaken _ _ _ _ Hr Hs)). Qed.

(** A program that only reads, and what its result satisfies. *)
Definition reads {A} (m : M (gmap bytes bytes) A) (Q : A -> Prop) : Prop :=
  forall w, all_wf w -> shrinks w (m w).2 /\ (forall a, (m w).1 = Ok a -> Q a).
(** A program that leaves what it may. *)
Definition good {A} (m : M (gmap bytes bytes) A) : Prop := forall w, all_wf w -> okw w (m w).2.
Definition writes {A} (m : M (gmap bytes bytes) A) : Prop := forall w, okw w (m w).2.

Lemma good_of_writes {A : Type} (m : M (gmap bytes bytes) A) : writes m -> good m.
Proof. intros Hm w _. apply Hm. Qed.
Lemma good_of_reads {A : Type} (m : M (gmap bytes bytes) A) (Q : A -> Prop) : reads m Q -> good m.
Proof. intros Hm w Hw. apply shrinks_okw. by apply Hm. Qed.

Lemma reads_bind {A B : Type} (m : M (gmap bytes bytes) A) (k : A -> M (gmap bytes bytes) B) (P : A -> Prop) (Q : B -> Prop) :
  reads m P -> (forall a, P a -> reads (k a) Q) -> reads (mbind m k) Q.
Proof.
  intros Hm Hk w Hw. unfold mbind. destruct (Hm w Hw) as [Hs Hp]. destruct (m w) as [r w1]. cbn in *.
  destruct r as [a| |]; [|by split..]. destruct (Hk a (Hp a eq_refl) w1) as [Hs2 Hq]; [by eapply shrinks_all_wf|]. split; [|done]. unfold shrinks in *. by etrans.
Qed.
Lemma good_bind {A B : Type} (m : M (gmap bytes bytes) A) (k : A -> M (gmap bytes bytes) B) (P : A -> Prop) :
  reads m P -> (forall a, P a -> good (k a)) -> good (mbind m k).
Proof.
  intros Hm Hk w Hw. unfold mbind. destruct (Hm w Hw) as [Hs Hp]. destruct (m w) as [r w1]. cbn in *.
  destruct r as [a| |]; [|by apply shrinks_okw..]. eapply okw_trans; [by apply shrinks_okw|]. apply (Hk a (Hp a eq_refl)). by eapply shrinks_all_wf.
Qed.
Lemma reads_attempt {A : Type} (m : M (gmap bytes bytes) A) (P : A -> Prop) : reads m P -> reads (attempt m) (fun r => match r with inl a => P a | inr _ => True end).
Proof.
  intros Hm w Hw. unfold attempt. destruct (Hm w Hw) as [Hs Hp]. destruct (m w) as [r w1]. cbn in *.
  destruct r as [a| |]; cbn; (split; [done|]); try done; intros b [= <-]; auto.
Qed.
Lemma reads_weaken {A : Type} (m : M (gmap bytes bytes) A) (P Q : A -> Prop) : reads m P -> (forall a, P a -> Q a) -> reads m Q.
Proof. intros Hm Hpq w Hw. destruct (Hm w Hw). split; auto. Qed.

Lemma reads_ret {A : Type} (a : A) (Q : A -> Prop) : Q a -> reads (mret a) Q.
Proof. intros Hq w _. split; [apply shrinks_refl|]. by intros b [= <-]. Qed.
Lemma good_ret {A : Type} (a : A) : good (mret a).
Proof. intros w _. apply okw_refl. Qed.
Lemma reads_now : reads now (fun _ => True).
Proof. intros w _. split; [unfold shrinks; cbn; reflexivity|done]. Qed.
Lemma reads_lift {A : Type} (r : result A) : reads (lift r) (fun a => r = Ok a).
Proof. intros w _. split; [apply shrinks_refl|]. by intros a. Qed.
Lemma writes_notify (c : ascii) (n k : bytes) : writes (Notify c n k).
Proof. intros w rk raw. by left. Qed.

Lemma lookupKey_reads (key : bytes) : reads (lookupKey key) (fun e => True).
Proof.
  intros w Hw. split; [|done]. pose proof (getAny_map key w) as E. unfold getAny in E. rewrite E. unfold find_key, shrinks.
  destruct (first_hit typePrefixes key (w_kv w)) as [[raw v]|]; [|reflexivity]. destruct (Decode v) as [e| |]; [|reflexivity..].
  destruct (Expiry e =? 0); [reflexivity|]. destruct (Expiry e <=? clock_ns (w_tick w)); cbn; [etrans; apply delete_subseteq|reflexivity].
Qed.

Lemma readStream_reads (key : bytes) : reads (readStream key) (fun r => stream_wf r.1).
Proof.
  intros w Hw. unfold readStream. unfold mbind at 1. pose proof (lookupKey_reads key w Hw) as [Hs _]. pose proof (getAny_map key w) as E. unfold getAny in E.
  unfold mbind. split.
  - destruct (lookupKey key w) as [[e| |] w1]; [|done..]. destruct (negb _); [done|]. unfold lift. by destruct (DecodeStream (Payload e)).
  - intros [s e0]. rewrite E. unfold find_key. destruct (first_hit typePrefixes key (w_kv w)) as [[raw v]|] eqn:Ef; [|done].
    destruct (Decode v) as [e| |] eqn:Ed; [|done..].
    intros X. cbn [fst]. revert X. destruct (Expiry e =? 0); [|destruct (Expiry e <=? clock_ns (w_tick w)); [done|]];
      case_bool_decide as Et; cbn [negb] in *; try done; unfold lift in *; destruct (DecodeStream (Payload e)) as [s1| |] eqn:Es; try done;
      cbn; intros [= -> _]; apply first_hit_some in Ef as (p & _ & _ & Hr); by eapply Hw.
Qed.

Lemma writes_ret {A : Type} (a : A) : writes (mret a).
Proof. intros w. apply okw_refl. Qed.
Lemma writes_bind {A B : Type} (m : M (gmap bytes bytes) A) (k : A -> M (gmap bytes bytes) B) :
  writes m -> (forall a, writes (k a)) -> writes (mbind m k).
Proof.
  intros Hm Hk w. unfold mbind. pose proof (Hm w) as Ho. destruct (m w) as [r w1]. cbn in *.
  destruct r; cbn; [|done..]. eapply okw_trans; [exact Ho|apply Hk].
Qed.
Lemma writes_commit (key : bytes) s (expiry : Z) (k : M (gmap bytes bytes) Value) :
  stream_wf s -> writes k -> writes (commit (writeStream key s expiry) k).
Proof.
  intros Hs Hk w. unfold commit, mbind, attempt, writeStream, kvSet, on_kv. cbn. eapply okw_trans; [|apply Hk].
  intros rk raw. cbn. destruct (decide (rk = StreamKey key)) as [->|Hne].
  - rewrite lookup_insert_eq. intros X%(inj Some). right. exists expiry, s. split; [by symmetry|done].
  - rewrite lookup_insert_ne by done. by left.
Qed.
Lemma good_commit (key : bytes) s (expiry : Z) (k : M (gmap bytes bytes) Value) :
  stream_wf s -> writes k -> good (commit (writeStream key s expiry) k).
Proof. intros. apply good_of_writes. by apply writes_commit. Qed.

Lemma good_with_ok {A : Type} (r : result A) (k : A -> M (gmap bytes bytes) Value) :
  (forall a, r = Ok a -> good (k a)) -> good (with_ok r k).
Proof.
  intros Hk. unfold with_ok. eapply good_bind; [apply reads_attempt, reads_lift|]. intros [a|e] Ha; [by apply Hk|apply good_ret].
Qed.
Lemma good_with_stream (key : bytes) (missing : M (gmap bytes bytes) Value) (k : Stream -> Z -> M (gmap bytes bytes) Value) :
  good missing -> (forall s e, stream_wf s -> good (k s e)) -> good (with_stream key missing k).
Proof.
  intros Hm Hk. unfold with_stream. eapply good_bind; [apply reads_attempt, readStream_reads|].
  intros [[s e]|e] Ha; [by apply Hk|]. destruct (isNotFound e); [done|apply good_ret].
Qed.
Lemma good_loadGroup (key group : bytes) (missing : M (gmap bytes bytes) Value) (k : Stream -> Z -> StreamGroup -> M (gmap bytes bytes) Value) :
  good missing -> (forall s e g, stream_wf s -> findGroup s group = Some g -> good (k s e g)) -> good (loadGroup key group missing k).
Proof.
  intros Hm Hk. apply good_with_stream; [done|]. intros s e Hs. destruct (findGroup s group) as [g|] eqn:E; [by apply Hk|done].
Qed.
Lemma good_now {B : Type} (k : Z -> M (gmap bytes bytes) B) : (forall t, good (k t)) -> good (let! t := now in k t).
Proof. intros Hk. eapply good_bind; [apply reads_now|]. intros t _. apply Hk. Qed.
Lemma good_now_ms {B : Type} (k : Z -> M (gmap bytes bytes) B) : (forall t, good (k t)) -> good (let! t := now_ms in k t).
Proof.
  intros Hk. eapply (good_bind _ _ (fun _ => True)); [|intros t _; apply Hk]. unfold now_ms. eapply reads_bind; [apply reads_now|].
  intros t _. by apply reads_ret.
Qed.

(** Walk through a handler; what is left are the streams it writes. *)
Ltac walk :=
  repeat (cbv beta zeta;
    lazymatch goal with
    | |- good (mret _) => apply good_ret
    | |- writes (mret _) => apply writes_ret
    | |- writes (Notify _ _ _) => apply writes_notify
    | |- writes (mbind _ _) => apply writes_bind; [|intros ?]
    | |- good (with_key _ _) => unfold with_key
    | |- good (with_arg _ _ _) => unfold with_arg
    | |- good (with_min_idle _ _ _) => unfold with_min_idle
    | |- good (with_ok _ _) => apply good_with_ok; intros ? ?
    | |- good (with_stream _ _ _) => apply good_with_stream; [|intros ? ? ?]
    | |- good (loadGroup _ _ _ _) => apply good_loadGroup; [|intros ? ? ? ? ?]
    | |- good (commit (writeStream _ _ _) _) => apply good_commit
    | |- good (mbind now _) => apply good_now; intros ?
    | |- good (mbind now_ms _) => apply good_now_ms; intros ?
    | |- good (match ?x with _ => _ end) => destruct x eqn:?
    | |- writes (match ?x with _ => _ end) => destruct x
    end).

#[local] Hint Resolve stream_new_wf : core.

Lemma xadd_good args : good (xadd args).
Proof.
  unfold xadd. walk.
  - eapply (good_bind _ _ (fun _ => True)); [destruct (bytes_eqb _ _); [apply reads_now|by apply reads_ret]|]. intros t _. walk. by eapply add_entry_wf.
  - eapply (good_bind _ _ (fun _ => True)); [destruct (bytes_eqb _ _); [apply reads_now|by apply reads_ret]|]. intros t _. walk. by eapply add_entry_wf.
Qed.

Lemma reading_good args :
  good (xlen args) /\ good (xrange args) /\ good (xrevrange args) /\ good (xpending args) /\ good (xinfo args).
Proof.
  split_and!; unfold xlen, xrange, xrevrange, rangeCmd, xpending, xpending_range, xinfo, xinfoStream, xinfoGroups, xinfoConsumers; walk.
Qed.

Lemma step_wf s s' s'' : stream_wf s -> sstep s s' -> s' = s'' -> stream_wf s''.
Proof. intros Hw Hs <-. by eapply sstep_wf. Qed.

Lemma xdel_good args : good (xdel args).
Proof.
  unfold xdel. walk. eapply step_wf; [eassumption|apply S_del|]. match goal with E : xdel_ids _ _ _ = _ |- _ => by rewrite E end.
Qed.

Lemma xtrim_good args : good (xtrim args).
Proof.
  unfold xtrim. walk; (eapply step_wf; [eassumption|apply S_trim|]; match goal with E : trim _ _ _ _ = _ |- _ => by rewrite E end).
Qed.

Lemma xack_good args : good (xack args).
Proof.
  unfold xack. walk. eapply step_wf; [eassumption|eapply S_group; [eassumption|apply G_ack]|].
  match goal with E : ack_ids _ _ _ = _ |- _ => by rewrite E end.
Qed.

Lemma xclaim_good args : good (xclaim args).
Proof.
  unfold xclaim. walk. eapply good_bind; [apply reads_lift|]. intros [g' out] E. walk.
  eapply step_wf; [eassumption|eapply S_group; [eassumption|by eapply G_claim]|done].
Qed.

Lemma xautoclaim_good args : good (xautoclaim args).
Proof.
  unfold xautoclaim. walk.
  all: match goal with E : auto_pel _ _ _ _ _ _ _ _ _ = (_, _) |- stream_wf (put_back _ _ (set_pel _ (List.filter ?f _))) =>
    eapply step_wf; [eassumption|eapply S_group; [eassumption|exact (G_auto _ _ _ _ _ _ _ _ _ _ f E)]|done] end.
Qed.

Lemma xgroup_good args : good (xgroup args).
Proof.
  unfold xgroup, xgroupCreate, xgroupSetID, xgroupDestroy, xgroupCreateConsumer, xgroupDelConsumer. walk.
  - eapply step_wf; [apply stream_new_wf|by apply S_create|done].
  - eapply step_wf; [eassumption|by apply S_create|done].
  - match goal with |- context [match ?o with Some n => _ | None => _ end] => destruct o end;
      (eapply step_wf; [eassumption|eapply S_group; [eassumption|constructor]|done]).
  - eapply step_wf; [eassumption|by eapply S_destroy|done].
  - eapply step_wf; [eassumption|eapply S_group; [eassumption|apply G_consumer]|done].
    intros Hin. apply list_elem_of_fmap in Hin as (c & -> & Hc).
    match goal with E : existsb _ _ = false |- _ => rewrite <- not_true_iff_false in E; apply E; apply existsb_exists; exists c; split end;
      [by apply list_elem_of_In|apply bytes_eqb_refl].
  - eapply step_wf; [eassumption|eapply S_group; [eassumption|by apply G_delconsumer]|done].
Qed.

(** ** Blocking reads that do not wait *)

Definition goodb (b : listcmd.blocking) : Prop := forall w, all_wf w -> okw w (b [] 0 w).1.2.

Lemma goodb_ret v : goodb (listcmd.bret v).
Proof. intros w _. apply okw_refl. Qed.
Lemma goodb_bind {A : Type} (m : M (gmap bytes bytes) (A + Value)) (k : A -> listcmd.blocking) (Q : A -> Prop) :
  reads m (fun r => match r with inl a => Q a | inr _ => True end) -> (forall a, Q a -> goodb (k a)) -> goodb (listcmd.bbind m k).
Proof.
  intros Hm Hk w Hw. unfold listcmd.bbind. destruct (Hm w Hw) as [Hs Hq]. destruct (m w) as [[[a|v]| |] w1]; cbn in *; [|by apply shrinks_okw..].
  eapply okw_trans; [by apply shrinks_okw|]. apply (Hk a (Hq _ eq_refl)). by eapply shrinks_all_wf.
Qed.

Lemma reads_deadline (ms : Z) : reads (let! d := block_deadline ms in mret (inl (B := Value) d)) (fun r => match r with inl _ => True | inr _ => True end).
Proof.
  eapply (reads_bind _ _ (fun _ => True)); [|intros; by apply reads_ret]. unfold block_deadline.
  destruct (0 <? ms); [|by apply reads_ret]. eapply reads_bind; [apply reads_now|]. intros; by apply reads_ret.
Qed.

Lemma timed_out_shrinks (block deadline : Z) (w : W) : shrinks w (listcmd.timed_out block deadline w).2.
Proof. unfold listcmd.timed_out, shrinks. destruct (0 <? block); cbn; reflexivity. Qed.

Definition resolved_ok (group : bytes) (r : resolvedGroup) : Prop := stream_wf (rg_s r) /\ findGroup (rg_s r) group = Some (rg_g r).

Lemma resolve_reads (reqs : list readgroupReq) (group : bytes) :
  reads (resolve reqs group) (fun r => match r with inl l => Forall (resolved_ok group) l | inr _ => True end).
Proof.
  induction reqs as [|q qs IH]; cbn [resolve]; [by apply reads_ret|]. eapply reads_bind; [apply reads_attempt, readStream_reads|].
  intros [[s e]|e] Hs; [|by apply reads_ret]. destruct (findGroup s group) as [g|] eqn:E; [|by apply reads_ret].
  eapply reads_bind; [exact IH|]. intros [l|v] Hl; apply reads_ret; [|done]. by constructor.
Qed.

Lemma deliver_all_writes (rs : list resolvedGroup) (group consumer : bytes) (count : Z) (noack : bool) (nowMs : Z) (out : list Value) :
  Forall (resolved_ok group) rs -> writes (deliver_all rs group consumer count noack nowMs out).
Proof.
  intros Hr. revert out. induction Hr as [|r rs [Hs Hf] Hr IH]; intros out; cbn [deliver_all]; [apply writes_ret|].
  destruct (read_one r consumer count noack nowMs) as [g vals] eqn:E. destruct (_ && _); [apply IH|]. apply writes_commit; [|apply IH].
  eapply step_wf; [exact Hs|eapply S_group; [exact Hf|apply (G_read _ _ (rg_req r) (rg_expiry r) consumer count noack nowMs)]|].
  destruct r as [q s e g0]. cbn in *. by rewrite E.
Qed.

Lemma xreadgroup_good args : goodb (xreadgroup args).
Proof.
  unfold xreadgroup. repeat (lazymatch goal with |- goodb (listcmd.bret _) => apply goodb_ret | |- goodb (match ?x with _ => _ end) => destruct x end); cbv zeta.
  all: repeat (lazymatch goal with |- goodb (listcmd.bret _) => apply goodb_ret | |- goodb (match ?x with _ => _ end) => destruct x end).
  all: apply (goodb_bind _ _ (fun _ => True)); [unfold now_ms; eapply reads_bind; [eapply reads_bind; [apply reads_now|intros; by apply (reads_ret _ (fun _ => True))]|intros; by apply reads_ret]|intros nowMs _].
  all: eapply goodb_bind; [apply resolve_reads|intros rs Hrs].
  all: match goal with |- goodb (match ?b with _ => _ end) => destruct b as [ms|] end.
  all: try (apply (goodb_bind _ _ (fun _ => True)); [apply reads_deadline|intros deadline _]).
  - intros w Hw. cbn. destruct (groupHasData rs _); cbn.
    + match goal with |- context [deliver_all rs ?g ?c ?n ?k nowMs [] w] =>
        pose proof (deliver_all_writes rs g c n k nowMs [] Hrs w) as X; by destruct (deliver_all rs g c n k nowMs [] w) end.
    + pose proof (timed_out_shrinks ms deadline w) as X. by destruct (listcmd.timed_out ms deadline w) as [[[]| |] w1]; cbn in *; apply shrinks_okw.
  - intros w Hw. unfold listcmd.bbind, mbind, mret. match goal with |- context [deliver_all rs ?g ?c ?n ?k nowMs [] w] =>
      pose proof (deliver_all_writes rs g c n k nowMs [] Hrs w) as X; by destruct (deliver_all rs g c n k nowMs [] w) as [[]] end.
Qed.

Lemma xread_reqs_reads (keys ids : list Value) : reads (xread_reqs keys ids) (fun r => match r with inl _ => True | inr _ => True end).
Proof.
  revert ids. induction keys as [|k ks IH]; intros [|i is_]; cbn [xread_reqs]; try by apply reads_ret.
  destruct (argString k); [|by apply reads_ret]. destruct (argString i); [|by apply reads_ret]. destruct (bytes_eqb _ (lit ">")); [by apply reads_ret|].
  eapply (reads_bind _ _ (fun _ => True)).
  - destruct (bytes_eqb _ (lit "$")); [|by apply reads_ret]. eapply reads_bind; [apply reads_attempt, readStream_reads|]. intros; by apply reads_ret.
  - intros [a|e] _; [|by apply reads_ret]. eapply reads_bind; [apply IH|]. intros [reqs|e] _; by apply reads_ret.
Qed.

Lemma xread_types_reads (reqs : list streamReadReq) : reads (xread_types reqs) (fun r => match r with inl _ => True | inr _ => True end).
Proof.
  induction reqs as [|q qs IH]; cbn [xread_types]; [by apply reads_ret|]. eapply reads_bind; [apply reads_attempt, readStream_reads|].
  intros [?|e] _; [exact IH|]. destruct (isNotFound e); [exact IH|by apply reads_ret].
Qed.

Lemma tryRead_reads (reqs : list streamReadReq) (count : Z) : reads (tryRead reqs count) (fun _ => True).
Proof.
  unfold tryRead. eapply (reads_bind _ _ (fun _ => True)); [|intros; by apply reads_ret].
  induction reqs as [|q qs IH]; cbn [try_reqs]; [by apply reads_ret|]. eapply reads_bind; [apply reads_attempt, readStream_reads|].
  intros [[s e]|e] _; [|destruct (isNotFound e); [exact IH|by apply reads_ret]]. eapply reads_bind; [exact IH|]. intros [l|v] _; by apply reads_ret.
Qed.

Lemma xread_poll_good (reqs : list streamReadReq) (count block deadline : Z) :
  goodb (fun wakes gauge w => listcmd.poll (tryRead reqs count) (listcmd.timed_out block deadline) listcmd.nilArray wakes false gauge w).
Proof.
  intros w Hw. cbn. destruct (tryRead_reads reqs count w Hw) as [Hs _]. destruct (tryRead reqs count w) as [[[v|]| |] w1]; cbn in *; try by apply shrinks_okw.
  pose proof (timed_out_shrinks block deadline w1) as X. destruct (listcmd.timed_out block deadline w1) as [[[]| |] w2];
    cbn in *; apply shrinks_okw; unfold shrinks in *; by etrans.
Qed.

Lemma xread_good args : goodb (xread args).
Proof.
  unfold xread. destruct (xread_options args (-1) (-1)) as [[[count block] [|kw rest]]|e]; try apply goodb_ret.
  destruct (match argString kw with Some _ => _ | None => _ end); [apply goodb_ret|]. destruct (len rest <? 2); [apply goodb_ret|].
  destruct (Z.odd (len rest)); [apply goodb_ret|]. cbv zeta.
  eapply (goodb_bind _ _ (fun _ => True)); [apply xread_reqs_reads|intros reqs _].
  eapply (goodb_bind _ _ (fun _ => True)); [apply xread_types_reads|intros _ _].
  eapply (goodb_bind _ _ (fun _ => True));
    [eapply (reads_bind _ _ (fun _ => True)); [apply tryRead_reads|intros [v|] _; by apply reads_ret]|intros _ _].
  destruct (block <? 0); [apply goodb_ret|].
  apply (goodb_bind _ _ (fun _ => True)); [apply reads_deadline|intros deadline _]. apply xread_poll_good.
Qed.

(** ** The commands keep streams well formed *)

Inductive stream_call : Type :=
| XADD (args : list Value) | XLEN (args : list Value) | XRANGE (args : list Value) | XREVRANGE (args : list Value)
| XDEL (args : list Value) | XTRIM (args : list Value) | XREAD (args : list Value) | XREADGROUP (args : list Value)
| XACK (args : list Value) | XPENDING (args : list Value) | XCLAIM (args : list Value) | XAUTOCLAIM (args : list Value)
| XINFO (args : list Value) | XGROUP (args : list Value).

(** The keyspace after a call; XREAD and XREADGROUP up to their first wait. *)
Definition after_call (c : stream_call) (w : W) : W :=
  match c with
  | XADD args => (xadd args w).2 | XLEN args => (xlen args w).2 | XRANGE args => (xrange args w).2 | XREVRANGE args => (xrevrange args w).2
  | XDEL args => (xdel args w).2 | XTRIM args => (xtrim args w).2
  | XREAD args => (xread args [] 0 w).1.2 | XREADGROUP args => (xreadgroup args [] 0 w).1.2
  | XACK args => (xack args w).2 | XPENDING args => (xpending args w).2 | XCLAIM args => (xclaim args w).2
  | XAUTOCLAIM args => (xautoclaim args w).2 | XINFO args => (xinfo args w).2 | XGROUP args => (xgroup args w).2
  end.

(** C22: when every stored stream is well formed (entries strictly increasing
    and none above the last id, groups of distinct names, pending lists
    strictly increasing, distinct consumers who own every pending entry), then
    after any stream command other than XSETID, with any arguments, every
    entry of the keyspace either was there before or is the encoding of a
    well-formed stream. *)
Theorem stream_commands_keep_wf (c : stream_call) (w : W) (rk raw : bytes) :
  all_wf w -> w_kv (after_call c w) !! rk = Some raw ->
  w_kv w !! rk = Some raw \/ exists e s, raw = Encode TypeStream e (EncodeStream s) /\ stream_wf s.
Proof.
  intros Hw. revert rk raw. change (okw w (after_call c w)).
  destruct c as [args|args|args|args|args|args|args|args|args|args|args|args|args|args]; cbn [after_call];
    destruct (reading_good args) as (R1 & R2 & R3 & R4 & R5);
    by (apply xadd_good || apply xdel_good || apply xtrim_good || apply xread_good || apply xreadgroup_good || apply xack_good ||
        apply xclaim_good || apply xautoclaim_good || apply xgroup_good || apply R1 || apply R2 || apply R3 || apply R4 || apply R5).
Qed.

End handlers.

(** ** A consumer group is a work queue *)

#[export] Instance StreamID_countable : Countable StreamID.
Proof. apply (inj_countable' (fun id => (Ms id, Seq id)) (fun p : Z * Z => mkID p.1 p.2)). by intros []. Defined.

(** The entries still to be delivered, and who holds the delivered ones that
    were not acknowledged. *)
Record queue : Type := mkQueue { todo : list StreamEntry; pending : gmap StreamID bytes }.

Inductive queue_op : Type :=
| QAdd (id : StreamID) (fields : list bytes)
| QRead (consumer : bytes) (count : Z) (nowMs : Z)
| QAck (ids : list StreamID).

Definition queue_spec (o : queue_op) (q : queue) : Value * queue :=
  match o with
  | QAdd id fields => (BulkOf (String_ id), mkQueue (todo q ++ [mkSEntry id fields]) (pending q))
  | QRead consumer count _ =>
      let d := limited count (todo q) in
      (VArray (Some (map streamEntryValue d)),
       mkQueue (drop (length d) (todo q)) (foldl (fun m e => <[ID e := consumer]> m) (pending q) d))
  | QAck ids =>
      let m := foldl (fun m id => delete id m) (pending q) ids in
      (VInteger (Z.of_nat (size (pending q)) - Z.of_nat (size m)), mkQueue (todo q) m)
  end.

(** XADD, XREADGROUP with [>] and XACK on a stream and a group of it. *)
Definition queue_impl (o : queue_op) (st : Stream * StreamGroup) : Value * (Stream * StreamGroup) :=
  let '(s, g) := st in
  match o with
  | QAdd id fields => (BulkOf (String_ id), (add_entry s id fields, g))
  | QRead consumer count nowMs =>
      let '(g', vals) := read_one (mkResolved (mkGroupReq [] true (mkID 0 0)) s 0 g) consumer count false nowMs in
      (VArray (Some vals), (s, g'))
  | QAck ids => let '(g', n) := ack_ids ids g 0 in (VInteger n, (s, g'))
  end.

Record queue_rep (q : queue) (s : Stream) (g : StreamGroup) : Prop := {
  qr_sorted : entries_sorted (Entries s);
  qr_below : Forall (fun e => ~ id_lt (Last s) (ID e)) (Entries s);
  qr_cursor : ~ id_lt (Last s) (LastID g);
  qr_pel : pel_sorted (PEL g);
  qr_todo : todo q = List.filter (fun e => Less (LastID g) (ID e)) (Entries s);
  qr_pending : forall id, pending q !! id = Consumer <$> FindPEL g id;
}.

(** Ids are added in increasing order. *)
Fixpoint increasing (last : StreamID) (ops : list queue_op) : Prop :=
  match ops with
  | [] => True
  | QAdd id _ :: r => id_lt last id /\ increasing id r
  | _ :: r => increasing last r
  end.

Fixpoint run_spec (ops : list queue_op) (q : queue) : list Value * queue :=
  match ops with
  | [] => ([], q)
  | o :: r => let '(v, q1) := queue_spec o q in let '(vs, q2) := run_spec r q1 in (v :: vs, q2)
  end.
Fixpoint run_impl (ops : list queue_op) (st : Stream * StreamGroup) : list Value * (Stream * StreamGroup) :=
  match ops with
  | [] => ([], st)
  | o :: r => let '(v, st1) := queue_impl o st in let '(vs, st2) := run_impl r st1 in (v :: vs, st2)
  end.

(** *** Delivery *)

Definition deliver1 (i : Z) (name : bytes) (nowMs : Z) (g : StreamGroup) (e : StreamEntry) : StreamGroup :=
  on_consumer i (active nowMs) (UpsertPEL (set_last g (ID e)) (mkPEL (ID e) name nowMs 1)).

Definition above (id : StreamID) (es : list StreamEntry) : list StreamEntry := List.filter (fun e => Less id (ID e)) es.

Lemma above_all id (es : list StreamEntry) : Forall (fun e => id_lt id (ID e)) es -> above id es = es.
Proof.
  induction 1 as [|e es He Hes IH]; [done|]. unfold above in *. cbn. apply Less_spec in He. by rewrite He, IH.
Qed.
Lemma above_none id (es : list StreamEntry) : Forall (fun e => ~ id_lt id (ID e)) es -> above id es = [].
Proof.
  induction 1 as [|e es He Hes IH]; [done|]. unfold above in *. cbn. apply Less_false in He. by rewrite He, IH.
Qed.

(** The entries that are not above the cursor are passed over. *)
Lemma deliverNew_skip (es : list StreamEntry) (i : Z) (name : bytes) (count : Z) (noack : bool) (nowMs : Z) g (out : list Value) :
  entries_sorted es -> deliverNew es i name count noack nowMs g out = deliverNew (above (LastID g) es) i name count noack nowMs g out.
Proof.
  induction 1 as [|e es Hs IH He]; [done|]. unfold above. cbn [List.filter]. fold (above (LastID g) es). cbn [deliverNew].
  rewrite Compare_le. destruct (Less (LastID g) (ID e)) eqn:L; cbn [negb]; [|exact IH].
  apply Less_spec in L. rewrite above_all.
  - cbn [deliverNew]. rewrite Compare_le. apply Less_spec in L. by rewrite L.
  - eapply Forall_impl; [exact He|]. intros x Hx. by eapply id_lt_trans.
Qed.

Lemma deliverNew_fold (es : list StreamEntry) (i : Z) (name : bytes) (count : Z) (nowMs : Z) g (out : list Value) :
  entries_sorted es -> Forall (fun e => id_lt (LastID g) (ID e)) es ->
  let d := if 0 <? count then take (Z.to_nat (count - len out)) es else es in
  deliverNew es i name count false nowMs g out = (foldl (deliver1 i name nowMs) g d, out ++ map streamEntryValue d).
Proof.
  cbv zeta. intros Hs. revert g out. destruct (0 <? count) eqn:Ec; breflect.
  all: induction Hs as [|e es Hs IH He]; intros g out Hf; cbn [deliverNew]; [by rewrite ?take_nil, app_nil_r|].
  all: apply Forall_cons in Hf as [Hl Hf]; apply Less_spec in Hl; rewrite Compare_le, Hl, ?Ec; cbn [negb].
  - rewrite (proj2 (Z.ltb_lt 0 count)) by done. cbn [andb]. destruct (Z.leb_spec count (len out)) as [Hle|Hle].
    + assert (Z.to_nat (count - len out) = 0%nat) as -> by lia. cbn. by rewrite app_nil_r.
    + assert (Z.to_nat (count - len out) = S (Z.to_nat (count - len (out ++ [streamEntryValue e])))) as ->.
      { rewrite len_app, len_cons, len_nil. lia. }
      fold (deliver1 i name nowMs g e). rewrite IH by done. cbn [take foldl map]. by rewrite <- app_assoc.
  - rewrite (proj2 (Z.ltb_ge 0 count)) by lia. cbn [andb]. fold (deliver1 i name nowMs g e). rewrite IH by done. cbn [foldl map]. by rewrite <- app_assoc.
Qed.

(** What delivering [d] does to a group. *)
Lemma deliver_fold_spec (d : list StreamEntry) (i : Z) (name : bytes) (nowMs : Z) g :
  pel_sorted (PEL g) ->
  let g' := foldl (deliver1 i name nowMs) g d in
  pel_sorted (PEL g') /\ LastID g' = match last d with Some e => ID e | None => LastID g end /\
  forall m : gmap StreamID bytes, (forall id, m !! id = Consumer <$> FindPEL g id) ->
    forall id, foldl (fun m e => <[ID e := name]> m) m d !! id = Consumer <$> FindPEL g' id.
Proof.
  cbv zeta. revert g. induction d as [|e d IH]; intros g Hp; cbn [foldl]; [done|].
  assert (pel_sorted (PEL (deliver1 i name nowMs g e))) as Hp1 by (cbn; by apply upsert_pel_sorted).
  destruct (IH _ Hp1) as (H1 & H2 & H3). split_and!; [done|rewrite H2, last_cons; by destruct (last d)|].
  intros m Hm id. apply H3. intros j. unfold FindPEL, deliver1. cbn. change (List.find _ (upsert_pel ?p ?l)) with (find_pel (upsert_pel p l) j).
  rewrite find_upsert_pel by done. cbn. destruct (decide (ID e = j)) as [->|Hne].
  - by rewrite lookup_insert_eq, bool_decide_eq_true_2.
  - rewrite lookup_insert_ne, bool_decide_eq_false_2 by done. apply Hm.
Qed.

Lemma above_take (es : list StreamEntry) (n : nat) id :
  entries_sorted es -> Forall (fun e => id_lt id (ID e)) es ->
  above (match last (take n es) with Some e => ID e | None => id end) es = drop n es.
Proof.
  intros Hs. revert n id. induction Hs as [|e es Hs IH He]; intros n id Hf; [by rewrite take_nil, drop_nil|].
  destruct n as [|n]; [by apply above_all|]. cbn [take drop].
  assert (last (e :: take n es) = match last (take n es) with Some x => Some x | None => Some e end) as -> by apply last_cons.
  specialize (IH n (ID e) He). unfold above. cbn [List.filter].
  assert (forall x, (last (take n es) = Some x) -> Less (ID x) (ID e) = false) as Hx.
  { intros x Hx. apply Less_false. intros X. rewrite Forall_forall in He. apply last_Some_elem_of in Hx. apply (subseteq_take n) in Hx.
    apply (id_lt_irrefl (ID e)). eapply id_lt_trans; [by apply He|done]. }
  destruct (last (take n es)) as [x|] eqn:El.
  - rewrite (Hx x eq_refl). exact IH.
  - assert (Less (ID e) (ID e) = false) as -> by (apply Less_false, id_lt_irrefl). exact IH.
Qed.

Lemma above_above id id' (es : list StreamEntry) : ~ id_lt id' id -> above id' (above id es) = above id' es.
Proof.
  intros Hle. unfold above. induction es as [|e es IH]; [done|]. cbn. destruct (Less id (ID e)) eqn:L; cbn; rewrite IH; [done|].
  destruct (Less id' (ID e)) eqn:L'; [|done]. exfalso. apply Less_false in L. apply Less_spec in L'. apply L.
  destruct (id_trichotomy id id') as [X|[->|X]]; [by eapply id_lt_trans|done|done].
Qed.

Lemma above_sorted id (es : list StreamEntry) : entries_sorted es -> entries_sorted (above id es).
Proof. apply sublist_sorted, filter_sublist. Qed.
Lemma above_Forall id (es : list StreamEntry) : Forall (fun e => id_lt id (ID e)) (above id es).
Proof. apply Forall_forall. intros e He. apply list_elem_of_In, filter_In in He as [_ He]. by apply Less_spec. Qed.

Lemma QRead_refines (consumer : bytes) (count nowMs : Z) q s g :
  queue_rep q s g ->
  let '(v, q') := queue_spec (QRead consumer count nowMs) q in
  let '(v', (s', g')) := queue_impl (QRead consumer count nowMs) (s, g) in
  v' = v /\ queue_rep q' s' g' /\ Last s' = Last s.
Proof.
  intros [Hs Hb Hc Hp Ht Hm]. cbn [queue_spec queue_impl]. unfold read_one. cbn [rg_g rg_s rg_req gq_isNew].
  destruct (ensure_extends g consumer nowMs) as [He _]. destruct (EnsureConsumer g consumer nowMs) as [i g1]. cbn in He.
  set (g2 := on_consumer i (seen nowMs) g1). assert (PEL g2 = PEL g) as Ep by apply (ext_pel _ _ He). assert (LastID g2 = LastID g) as El by apply (ext_last _ _ He).
  rewrite deliverNew_skip by done. rewrite El. fold (above (LastID g) (Entries s)) in Ht. rewrite <- Ht.
  assert (entries_sorted (todo q)) as Hts by (rewrite Ht; by apply above_sorted).
  assert (Forall (fun e => id_lt (LastID g) (ID e)) (todo q)) as Htf by (rewrite Ht; apply above_Forall).
  rewrite deliverNew_fold by (done || (by rewrite El)). cbv zeta. change (len (@nil Value)) with 0. rewrite Z.sub_0_r. fold (limited count (todo q)).
  set (d := limited count (todo q)). cbn [app].
  destruct (deliver_fold_spec d i consumer nowMs g2) as (H1 & H2 & H3); [by rewrite Ep|]. set (g3 := foldl _ g2 d) in *. cbn [fst snd].
  assert (exists n, d = take n (todo q)) as [n Hd].
  { unfold d, limited. destruct (0 <? count); [by eexists|]. exists (length (todo q)). by rewrite take_ge. }
  assert (above (LastID g3) (Entries s) = drop (length d) (todo q)) as Hdrop.
  { rewrite H2, El. rewrite <- (above_above (LastID g)).
    - rewrite <- Ht, Hd. rewrite above_take by done. rewrite length_take. destruct (Nat.le_ge_cases n (length (todo q))) as [X|X].
      + f_equal. lia.
      + rewrite !drop_ge by lia. done.
    - destruct (last d) as [e|] eqn:Ed; [|apply id_lt_irrefl]. apply last_Some_elem_of in Ed. rewrite Hd in Ed. apply (subseteq_take n) in Ed.
      rewrite Forall_forall in Htf. intros X. apply (id_lt_irrefl (ID e)). eapply id_lt_trans; [exact X|by apply Htf]. }
  assert (~ id_lt (Last s) (LastID g3)) as Hc3.
  { rewrite H2, El. destruct (last d) as [e|] eqn:Ed; [|done]. apply last_Some_elem_of in Ed. rewrite Hd in Ed. apply (subseteq_take n) in Ed.
    rewrite Ht in Ed. apply list_elem_of_In, filter_In in Ed as [Ed _]. rewrite Forall_forall in Hb. by apply Hb, list_elem_of_In. }
  split; [done|]. split; [|done].
  destruct (0 <? len (map streamEntryValue d)); (split; [done|done|exact Hc3|exact H1|cbn; by rewrite <- Hdrop|]); cbn; intros id;
    (apply (H3 (pending q)); intros j; rewrite Hm; unfold FindPEL; by rewrite Ep).
Qed.

Lemma ack_refines (ids : list StreamID) (m : gmap StreamID bytes) g (n : Z) :
  pel_sorted (PEL g) -> (forall id, m !! id = Consumer <$> FindPEL g id) ->
  let '(g', n') := ack_ids ids g n in
  let m' := foldl (fun m id => delete id m) m ids in
  n' = n + (Z.of_nat (size m) - Z.of_nat (size m')) /\ pel_sorted (PEL g') /\ LastID g' = LastID g /\
  (forall id, m' !! id = Consumer <$> FindPEL g' id).
Proof.
  revert m g n. induction ids as [|id ids IH]; intros m g n Hp Hm; cbn [ack_ids foldl]; [split_and!; [lia|done..]|].
  unfold DelPEL. destruct (del_pel_spec id (PEL g) Hp) as (D1 & D2 & D3 & _). destruct (del_pel id (PEL g)) as [b l]. cbn [fst snd] in D1, D2, D3.
  specialize (IH (delete id m) (set_pel g l) (if b then n + 1 else n) D1). destruct (ack_ids ids (set_pel g l) (if b then n + 1 else n)) as [g' n'].
  cbv zeta in *. destruct IH as (H1 & H2 & H3 & H4).
  - intros j. unfold FindPEL. cbn. change (List.find _ l) with (find_pel l j). rewrite D3. destruct (decide (j = id)) as [->|Hne].
    + by rewrite lookup_delete_eq, bool_decide_eq_true_2.
    + rewrite lookup_delete_ne, bool_decide_eq_false_2 by done. apply Hm.
  - split_and!; [|done..]. specialize (Hm id). unfold FindPEL in Hm. change (List.find _ (PEL g)) with (find_pel (PEL g) id) in Hm.
    rewrite H1. destruct (find_pel (PEL g) id) as [p|]; cbn in Hm.
    + rewrite bool_decide_eq_true_2 in D2 by eauto. subst b. rewrite (map_size_delete_Some id m) by eauto.
      pose proof (map_size_ne_0_lookup_2 m id ltac:(eauto)). lia.
    + rewrite bool_decide_eq_false_2 in D2 by (by intros []). subst b. by rewrite delete_id.
Qed.

Lemma QAdd_refines id (fields : list bytes) q s g :
  queue_rep q s g -> id_lt (Last s) id -> queue_rep (mkQueue (todo q ++ [mkSEntry id fields]) (pending q)) (add_entry s id fields) g.
Proof.
  intros [Hs Hb Hc Hp Ht Hm] Hid. assert (Forall (fun e => id_lt (ID e) id) (Entries s)) as Hf.
  { eapply Forall_impl; [exact Hb|]. intros e He. cbn in He. destruct (id_trichotomy (ID e) (Last s)) as [X|[X|X]]; [by eapply id_lt_trans|by rewrite X|done]. }
  assert (id_lt (LastID g) id) as Hg by (destruct (id_trichotomy (LastID g) (Last s)) as [X|[X|X]]; [by eapply id_lt_trans|by rewrite X|done]).
  split; cbn; [by apply sorted_snoc| |intros X; apply (id_lt_irrefl id); by eapply id_lt_trans|done| |done].
  - apply Forall_app. split; [|apply Forall_singleton, id_lt_irrefl]. eapply Forall_impl; [exact Hf|]. intros e He X. apply (id_lt_irrefl id). by eapply id_lt_trans.
  - rewrite List.filter_app, Ht. cbn. apply Less_spec in Hg. by rewrite Hg.
Qed.


(** ** Runs *)

Definition example_world : world (gmap bytes bytes) := world_of [(StreamKey (lit "k"), Encode TypeStream 0 (EncodeStream stream_example))].

Lemma stream_example_wf : stream_wf stream_example.
Proof.
  split; cbn.
  - repeat constructor.
  - repeat constructor. apply id_lt_irrefl.
  - apply NoDup_singleton.
  - apply Forall_singleton. split; cbn; [repeat constructor|apply NoDup_singleton|]. apply Forall_singleton. unfold names. cbn. by left.
Qed.

Lemma example_all_wf : all_wf example_world.
Proof.
  intros rk raw e s Hr Hd _ Hs. unfold example_world, world_of in Hr. cbn [foldl w_kv] in Hr.
  apply lookup_insert_Some in Hr as [[_ Hr]|[_ Hr]]; [|by rewrite lookup_empty in Hr]. subst raw.
  rewrite Decode_Encode_entry in Hd by (unfold is_i64; lia). injection Hd as <-.
  assert (DecodeStream (EncodeStream stream_example) = Ok stream_example) as E by (vm_compute; reflexivity).
  cbn [Payload] in Hs. rewrite E in Hs. injection Hs as <-. apply stream_example_wf.
Qed.

Definition words (l : list string) : list Value := map (fun t : string => BulkOf (lit t)) l.

Lemma stream_commands_keep_wf_witness :
  let c := XADD (words ["k"; "9-1"; "f"; "v"]) in
  let raw := default [] (w_kv (@after_call step_clock ascii_tables c example_world) !! StreamKey (lit "k")) in
  w_kv example_world !! StreamKey (lit "k") <> Some raw /\
  (w_kv example_world !! StreamKey (lit "k") = Some raw \/
   exists e s, raw = Encode TypeStream e (EncodeStream s) /\ stream_wf s).
Proof.
  cbv zeta. split; [vm_compute; discriminate|].
  apply (@stream_commands_keep_wf step_clock ascii_tables (XADD (words ["k"; "9-1"; "f"; "v"])) example_world (StreamKey (lit "k"))).
  - apply example_all_wf.
  - vm_compute. reflexivity.
Defined.

Definition queue_demo : list queue_op :=
  [QAdd (mkID 1 0) [lit "a"; lit "1"]; QAdd (mkID 2 0) [lit "b"; lit "2"]; QRead (lit "c1") 1 7; QAdd (mkID 3 0) [lit "c"; lit "3"];
   QRead (lit "c2") 0 8; QAck [mkID 1 0; mkID 9 9; mkID 1 0]; QRead (lit "c1") 5 9].
Definition fresh_group : StreamGroup := mkGroup (lit "g") (mkID 0 0) 0 false [] [].


(** ** Findings *)

Definition exec_all (hs : list (M (gmap bytes bytes) Value)) (w : world (gmap bytes bytes)) : list (result Value) * world (gmap bytes bytes) :=
  foldl (fun st h => let '(r, w) := h st.2 in (st.1 ++ [r], w)) ([], w) hs.

Definition late_clock : Clock := {| clock_ns := fun _ => 1000000000000 |}.

(** XCLAIM of a pending entry that was deleted from the stream panics. *)
Example xclaim_deleted_panics :
  (exec_all [@xdel _ map_kv late_clock (words ["k"; "5-1"]);
             @xclaim _ map_kv late_clock ascii_tables (words ["k"; "g"; "d"; "0"; "5-1"])] example_world).1 = [Ok (VInteger 1); Panic].
Proof. vm_compute. reflexivity. Qed.

(** XSETID goes below the top entry, and XADD then adds an id that is in the
    stream already. *)
Example xsetid_repeats_id :
  (exec_all [@xsetid _ map_kv step_clock ascii_tables (words ["k"; "1-0"]); @xadd _ map_kv step_clock (words ["k"; "5-1"; "x"; "y"]);
             @xrange _ map_kv step_clock (words ["k"; "-"; "+"])] example_world).1 =
  [Ok okReply; Ok (BulkOf (lit "5-1"));
   Ok (VArray (Some [streamEntryValue (mkSEntry (mkID 5 1) (map lit ["f"; "v"]%string)); streamEntryValue (mkSEntry (mkID 5 1) (map lit ["x"; "y"]%string))]))].
Proof. vm_compute. reflexivity. Qed.

(** XREADGROUP with one stream named twice delivers each new entry twice. *)
Example xreadgroup_twice_delivers_twice :
  let w := (exec_all [@xadd _ map_kv step_clock (words ["k"; "6-0"; "x"; "y"])] example_world).2 in
  let es := VArray (Some [BulkOf (lit "k"); VArray (Some [streamEntryValue (mkSEntry (mkID 6 0) (map lit ["x"; "y"]%string))])]) in
  (@xreadgroup _ map_kv step_clock ascii_tables (words ["GROUP"; "g"; "c"; "STREAMS"; "k"; "k"; ">"; ">"]) [] 0 w).1.1 = Some (Ok (VArray (Some [es; es]))).
Proof. vm_compute. reflexivity. Qed.

End streamspec.
