(* ===== verification/Acl.v ===== *)
(** * Access control (src/internal/acl)

    Users, their rules and selectors, the permission check, the extraction of
    keys from a command's arguments, and the lines of the ACL file.  The table
    of command metadata is filled by the Register functions at start-up; it is
    an argument here. *)

From S2P Require Import Prelude GoLib GoStrings GoPath.
Open Scope Z_scope.
Open Scope gedis_scope.

(** [sha256.Sum256]: 32 bytes. *)
Class GoSha256 : Type := { Sum256 : bytes -> bytes; Sum256_length : forall s, length (Sum256 s) = 32%nat }.

Module acl.

(** ** Package encoding/hex *)

Definition hex_char (n : Z) : ascii := byte_of (if n <? 10 then n + 48 else n + 87).
Definition EncodeToString (s : bytes) : bytes :=
  concat (map (fun c => [hex_char (Z.shiftr (byte_val c) 4); hex_char (Z.land (byte_val c) 15)]) s).

Definition hex_val (c : ascii) : option Z :=
  let b := byte_val c in
  if (48 <=? b) && (b <=? 57) then Some (b - 48)
  else if (97 <=? b) && (b <=? 102) then Some (b - 87)
  else if (65 <=? b) && (b <=? 70) then Some (b - 55)
  else None.
Fixpoint DecodeString (s : bytes) : option bytes :=
  match s with
  | [] => Some []
  | [_] => None
  | a :: b :: rest =>
      match hex_val a, hex_val b, DecodeString rest with
      | Some x, Some y, Some r => Some (byte_of (Z.lor (Z.shiftl x 4) y) :: r)
      | _, _, _ => None
      end
  end.

(** ** Metadata and key extraction (keyspec.go) *)

Record KeySpec : Type := mkKeySpec { First : Z; Last : Z; Step : Z; Custom : option (list bytes -> result (list Z)) }.
Record Meta : Type := mkMeta { mName : bytes; mCategory : bytes; mReadOnly : bool; mKeys : KeySpec }.

Definition metas : Type := gmap bytes Meta.

Section keys.
Context `{GoUnicode}.

Definition RegisterMeta (t : metas) (m : Meta) : metas := <[ToUpper (mName m) := m]> t.
Definition LookupMeta (t : metas) (cmd : bytes) : option Meta := t !! ToUpper cmd.

(** [for i := first; i <= last; i += step]; at most one iteration per argument. *)
Fixpoint step_keys (fuel : nat) (args : list bytes) (i last step : Z) : list bytes :=
  match fuel with
  | O => []
  | S fuel =>
      if i <=? last then
        match args !! Z.to_nat i with
        | Some a => a :: step_keys fuel args (i + step) last step
        | None => []
        end
      else []
  end.

Definition ExtractKeys (t : metas) (cmd : bytes) (args : list bytes) : result (list bytes) :=
  match LookupMeta t cmd with
  | None => Ok []
  | Some m =>
      let k := mKeys m in
      if First k <? 0 then Ok []
      else match Custom k with
      | Some f =>
          let? idx := f args in
          Ok (omap (fun i => if (0 <=? i) && (i <? len args) then args !! Z.to_nat i else None) idx)
      | None =>
          let step := if Step k <=? 0 then 1 else Step k in
          let last := if (Last k <? 0) || (len args <=? Last k) then len args - 1 else Last k in
          Ok (if len args <=? First k then [] else step_keys (length args) args (First k) last step)
      end
  end.

(** The position after the first argument that is one of [names]. *)
Fixpoint after_option (names : list bytes) (i : Z) (args : list bytes) : option Z :=
  match args with
  | [] => None
  | a :: rest =>
      match rest with
      | _ :: _ => if existsb (EqualFold a) names then Some (i + 1) else after_option names (i + 1) rest
      | [] => None
      end
  end.

Definition SortStoreKey (args : list bytes) : result (list Z) :=
  Ok (0 :: match after_option [lit "STORE"] 1 (drop 1 args) with Some i => [i] | None => [] end).
Definition GeoRadiusKeys (args : list bytes) : result (list Z) :=
  match args with
  | [] => Ok []
  | _ => Ok (0 :: match after_option [lit "STORE"; lit "STOREDIST"] 1 (drop 1 args) with Some i => [i] | None => [] end)
  end.

Definition EvalKeys (args : list bytes) : result (list Z) :=
  match args with
  | [] => Ok []
  | a :: _ => match Atoi a with
              | None => Ok []
              | Some n => Ok (if (n <=? 0) || (len args - 1 <? n) then [] else seqZ 1 n)
              end
  end.

(** [keyPos+n] wraps for the largest counts, and the allocation then panics. *)
Definition NumkeysKeys (numPos keyPos : Z) (args : list bytes) : result (list Z) :=
  match (if len args <=? numPos then None else args !! Z.to_nat numPos) with
  | None => Ok []
  | Some a => match Atoi a with
              | None => Ok []
              | Some n =>
                  if (n <=? 0) || (len args <? i64 (keyPos + n)) then Ok []
                  else if negb (make_ok n 8) then Panic
                  else Ok (seqZ keyPos n)
              end
  end.

Definition ZStoreKeys (args : list bytes) : result (list Z) := let? ks := NumkeysKeys 1 2 args in Ok (0 :: ks).
Definition DstSrc (args : list bytes) : result (list Z) := Ok (if len args <? 2 then [] else [0; 1]).
Definition AllButLast (args : list bytes) : result (list Z) := Ok (if len args <? 2 then [] else seqZ 0 (len args - 1)).

Fixpoint streams_at (i : Z) (args : list bytes) : Z :=
  match args with
  | [] => -1
  | a :: rest => if EqualFold a (lit "STREAMS") then i else streams_at (i + 1) rest
  end.
Definition XreadKeys (args : list bytes) : result (list Z) :=
  let si := streams_at 0 args in
  if (si <? 0) || (len args <=? si + 1) then Ok []
  else
    let rest := len args - si - 1 in
    Ok (if negb (rest mod 2 =? 0) then [] else seqZ (si + 1) (rest / 2)).

Definition SubKeyAt1 (args : list bytes) : result (list Z) :=
  Ok match args with
     | a :: _ :: _ => if EqualFold a (lit "HELP") then [] else [1]
     | _ => []
     end.
End keys.

(** ** Users (acl.go) *)

Definition DefaultUser : bytes := lit "default".

Record ruleOp : Type := mkRule { allow : bool; token : bytes }.
Record Selector : Type := mkSel { sCmds : list ruleOp; sKeys : list bytes; sChans : list bytes }.
Record User : Type := mkUser {
  On : bool; NoPass : bool; passHash : bytes; hasPass : bool; rules : list ruleOp;
  KeyPatterns : list bytes; Channels : list bytes; Selectors : list Selector;
}.

Record LogEntry : Type := mkLog { lTime : Z; lClient : bytes; lCmd : bytes; lReason : bytes }.
Record Store : Type := mkStore { users : gmap bytes User; log : list LogEntry }.

Definition zero_hash : bytes := replicate 32 "000"%char.
Definition zero_user : User := mkUser false false zero_hash false [] [] [] [].
Definition NewStore : Store :=
  mkStore {[DefaultUser := mkUser true true zero_hash false [mkRule true (lit "@all")] [] [] []]} [].

Definition set_on (u : User) (b : bool) : User :=
  mkUser b (NoPass u) (passHash u) (hasPass u) (rules u) (KeyPatterns u) (Channels u) (Selectors u).
Definition set_nopass (u : User) : User :=
  mkUser (On u) true (passHash u) (hasPass u) (rules u) (KeyPatterns u) (Channels u) (Selectors u).
Definition set_hash (u : User) (h : bytes) : User :=
  mkUser (On u) (NoPass u) h true (rules u) (KeyPatterns u) (Channels u) (Selectors u).
Definition add_rule (u : User) (r : ruleOp) : User :=
  mkUser (On u) (NoPass u) (passHash u) (hasPass u) (rules u ++ [r]) (KeyPatterns u) (Channels u) (Selectors u).
Definition add_key (u : User) (k : bytes) : User :=
  mkUser (On u) (NoPass u) (passHash u) (hasPass u) (rules u) (KeyPatterns u ++ [k]) (Channels u) (Selectors u).
Definition add_chan (u : User) (c : bytes) : User :=
  mkUser (On u) (NoPass u) (passHash u) (hasPass u) (rules u) (KeyPatterns u) (Channels u ++ [c]) (Selectors u).
Definition add_sel (u : User) (s : Selector) : User :=
  mkUser (On u) (NoPass u) (passHash u) (hasPass u) (rules u) (KeyPatterns u) (Channels u) (Selectors u ++ [s]).

(** The rule [+token] or [-token]. *)
Definition rule_of (r : bytes) : ruleOp := mkRule (HasPrefix r (lit "+")) (drop 1 r).
Definition is_rule (r : bytes) : bool := HasPrefix r (lit "+") || HasPrefix r (lit "-").

Definition bad_rule {A} (what : string) (r : bytes) : result A := Err (EMsg (lit what ++ r)).
Arguments bad_rule {A} _%_string_scope _.

Section store.
Context `{GoUnicode} `{GoSha256}.

(** The loop of SetUser; [cur] is the selector being read, if any. *)
Fixpoint set_rules (rs : list bytes) (u : User) (cur : option Selector) : result User :=
  match rs with
  | [] => match cur with Some _ => fail "acl: unclosed selector" | None => Ok u end
  | r :: rest =>
      match cur with
      | Some c =>
          if bytes_eqb r (lit ")") then set_rules rest (add_sel u c) None
          else if is_rule r then set_rules rest u (Some (mkSel (sCmds c ++ [rule_of r]) (sKeys c) (sChans c)))
          else if HasPrefix r (lit "~") then set_rules rest u (Some (mkSel (sCmds c) (sKeys c ++ [drop 1 r]) (sChans c)))
          else if HasPrefix r (lit "&") then set_rules rest u (Some (mkSel (sCmds c) (sKeys c) (sChans c ++ [drop 1 r])))
          else bad_rule "acl: invalid selector rule " r
      | None =>
          if bytes_eqb r (lit "(") then set_rules rest u (Some (mkSel [] [] []))
          else if bytes_eqb r (lit ")") then bad_rule "acl: unexpected " r
          else if bytes_eqb r (lit "on") then set_rules rest (set_on u true) None
          else if bytes_eqb r (lit "off") then set_rules rest (set_on u false) None
          else if bytes_eqb r (lit "nopass") then set_rules rest (set_nopass u) None
          else if bytes_eqb r (lit "reset") then set_rules rest u None
          else if HasPrefix r (lit ">") then set_rules rest (set_hash u (Sum256 (drop 1 r))) None
          else if HasPrefix r (lit "#") then
            match DecodeString (drop 1 r) with
            | None => bad_rule "acl: invalid password hash " r
            | Some h => if negb (len h =? 32) then bad_rule "acl: invalid password hash " r
                        else set_rules rest (set_hash u h) None
            end
          else if is_rule r then set_rules rest (add_rule u (rule_of r)) None
          else if HasPrefix r (lit "~") then set_rules rest (add_key u (drop 1 r)) None
          else if HasPrefix r (lit "&") then set_rules rest (add_chan u (drop 1 r)) None
          else bad_rule "acl: unknown rule " r
      end
  end.

Definition SetUser (s : Store) (name : bytes) (rs : list bytes) : result Store :=
  let? u := set_rules rs zero_user None in
  Ok (mkStore (<[name := u]> (users s)) (log s)).

Definition Authenticate (s : Store) (name pass : bytes) : bool :=
  match users s !! name with
  | None => false
  | Some u =>
      if negb (On u) then false
      else if NoPass u then true
      else if negb (hasPass u) then false
      else bytes_eqb (Sum256 pass) (passHash u)
  end.

Definition inCategory (t : metas) (cmd cat : bytes) : bool :=
  bytes_eqb cat (lit "all") ||
  match LookupMeta t cmd with Some m => bytes_eqb (mCategory m) cat | None => false end.

Definition rule_matches (t : metas) (r : ruleOp) (cmd : bytes) : bool :=
  let tok := ToUpper (token r) in
  if HasPrefix tok (lit "@") then inCategory t (ToUpper cmd) (TrimPrefix (ToLower tok) (lit "@"))
  else EqualFold tok cmd.

Definition evalRules (t : metas) (rs : list ruleOp) (cmd : bytes) : bool :=
  foldl (fun allowed r => if rule_matches t r cmd then allow r else allowed) false rs.

(** [u.rules] on a missing user dereferences a nil pointer. *)
Definition CanRun (t : metas) (s : Store) (name cmd : bytes) : result bool :=
  match users s !! name with
  | None => Panic
  | Some u => Ok (if negb (On u) then false else evalRules t (rules u) cmd)
  end.

Inductive DenyKind : Type := DenyCommand | DenyKey | DenyChannel.
Record Denial : Type := mkDenial { dKind : DenyKind; dUser : bytes; dCmd : bytes; dName : bytes; dMsg : bytes }.

Definition commandNOPERM (user cmd : bytes) : Denial :=
  let cmd := ToLower cmd in
  mkDenial DenyCommand user cmd []
    (if bytes_eqb user DefaultUser
     then lit "NOPERM this user has no permissions to run the '" ++ cmd ++ lit "' command"
     else lit "NOPERM User " ++ user ++ lit " has no permissions to run the '" ++ cmd ++ lit "' command").

Definition matchAny (patterns : list bytes) (s : bytes) : bool :=
  existsb (fun p => match path_match p s with Some b => b | None => false end) patterns.

Definition checkTriple (t : metas) (user cmd : bytes) (rs : list ruleOp) (patterns chans keys channels : list bytes) : option Denial :=
  if negb (evalRules t rs cmd) then Some (commandNOPERM user cmd)
  else match List.find (fun k => negb (matchAny patterns k)) keys with
  | Some k => Some (mkDenial DenyKey user (ToLower cmd) k (lit "NOPERM No permissions to access a key"))
  | None =>
      match List.find (fun c => negb (matchAny chans c)) channels with
      | Some c => Some (mkDenial DenyChannel user (ToLower cmd) c (lit "NOPERM No permissions to access a channel"))
      | None => None
      end
  end.

(** [Ok None]: permitted. *)
Definition Check_ (t : metas) (s : Store) (user cmd : bytes) (keys channels : list bytes) : result (option Denial) :=
  match users s !! user with
  | None => Panic
  | Some u =>
      if negb (On u) then Ok (Some (commandNOPERM user cmd))
      else match checkTriple t user cmd (rules u) (KeyPatterns u) (Channels u) keys channels with
      | None => Ok None
      | Some d =>
          if existsb (fun sel => match checkTriple t user cmd (sCmds sel) (sKeys sel) (sChans sel) keys channels with
                                 | None => true | Some _ => false end) (Selectors u)
          then Ok None else Ok (Some d)
      end
  end.

Definition LogDenied (s : Store) (time : Z) (client cmd reason : bytes) : Store :=
  let l := log s ++ [mkLog time client cmd reason] in
  mkStore (users s) (if 128 <? len l then drop (length l - 128) l else l).
Definition AclLog (s : Store) : list LogEntry := reverse (log s).
Definition ResetLog (s : Store) : Store := mkStore (users s) [].

Definition UserExists (s : Store) (name : bytes) : bool := bool_decide (is_Some (users s !! name)).
Definition DelUser (s : Store) (name : bytes) : result Store :=
  if bytes_eqb name DefaultUser then fail "acl: the 'default' user cannot be removed"
  else Ok (mkStore (delete name (users s)) (log s)).
Definition Names (s : Store) : list bytes := sortStrings (map fst (map_to_list (users s))).
Definition HasPassword (s : Store) (name : bytes) : bool :=
  match users s !! name with Some u => hasPass u | None => false end.
Definition DefaultRequiresAuth (s : Store) : bool :=
  match users s !! DefaultUser with
  | None => true
  | Some u => negb (On u) || (negb (NoPass u) && hasPass u)
  end.
Definition HasRestrictedUsers (s : Store) : bool :=
  if negb (Nat.eqb (base.size (users s)) 1) then true
  else match users s !! DefaultUser with
  | None => true
  | Some d => negb (NoPass d) ||
              match rules d with
              | [r] => negb (bytes_eqb (token r) (lit "@all")) || negb (allow r)
              | _ => true
              end
  end.

(** ** The ACL file (file.go) *)

Record SelectorView : Type := mkView { vCommands : list bytes; vKeys : list bytes; vChans : list bytes }.
Record Snapshot : Type := mkSnap {
  snOn : bool; snNoPass : bool; snPassHash : bytes; snRules : list bytes; snKeys : list bytes; snChans : list bytes;
  snSelectors : list SelectorView;
}.

Definition show_rule (r : ruleOp) : bytes := (if allow r then lit "+" else lit "-") ++ token r.

Definition GetUser (s : Store) (name : bytes) : option Snapshot :=
  match users s !! name with
  | None => None
  | Some u =>
      Some (mkSnap (On u) (NoPass u) (if hasPass u then EncodeToString (passHash u) else [])
              (map show_rule (rules u)) (KeyPatterns u) (Channels u)
              (map (fun sel => mkView (map show_rule (sCmds sel)) (map (fun k => lit "~" ++ k) (sKeys sel))
                                 (map (fun c => lit "&" ++ c) (sChans sel))) (Selectors u)))
  end.

Fixpoint Join (l : list bytes) (sep : bytes) : bytes :=
  match l with
  | [] => []
  | [x] => x
  | x :: rest => x ++ sep ++ Join rest sep
  end.

Definition Inline (v : SelectorView) : bytes :=
  lit "(" ++ Join (vCommands v ++ vKeys v ++ vChans v) (lit " ") ++ lit ")".

Definition line_parts (name : bytes) (sn : Snapshot) : list bytes :=
  [lit "user"; name; if snOn sn then lit "on" else lit "off"] ++
  (if snNoPass sn then [lit "nopass"] else if bytes_eqb (snPassHash sn) [] then [] else [lit "#" ++ snPassHash sn]) ++
  snRules sn ++ map (fun k => lit "~" ++ k) (snKeys sn) ++ map (fun c => lit "&" ++ c) (snChans sn) ++ map Inline (snSelectors sn).

Definition describeLine (name : bytes) (sn : Snapshot) : bytes := Join (line_parts name sn) (lit " ").

Definition ParseLine (line : bytes) : result (bytes * list bytes) :=
  match Fields line with
  | u :: name :: rs => if bytes_eqb u (lit "user") then Ok (name, rs) else fail "must start with 'user <name>'"
  | _ => fail "must start with 'user <name>'"
  end.

(** Load, on the lines of the file. *)
Fixpoint load_lines (lines : list bytes) (s : Store) : result Store :=
  match lines with
  | [] => Ok s
  | line :: rest =>
      let line := TrimSpace line in
      if bytes_eqb line [] || HasPrefix line (lit "#") then load_lines rest s
      else
        let? (name, rs) := ParseLine line in
        let? s := SetUser s name rs in
        load_lines rest s
  end.
Definition Load (data : bytes) (s : Store) : result Store := load_lines (SplitByte data "010"%char) s.

(** The bytes Save writes. *)
Definition Save (s : Store) : bytes :=
  concat (map (fun n => match GetUser s n with Some sn => describeLine n sn ++ ["010"%char] | None => [] end) (Names s)).
End store.

(** ** The permission check *)

Section check.
Context `{GoUnicode} `{GoSha256}.

(** The last rule that applies to the command allows it. *)
Definition permits_cmd (t : metas) (rs : list ruleOp) (cmd : bytes) : Prop :=
  exists before r after, rs = before ++ r :: after /\ rule_matches t r cmd = true /\ allow r = true /\
    Forall (fun r' => rule_matches t r' cmd = false) after.

Definition permits (t : metas) (rs : list ruleOp) (patterns chans : list bytes) (cmd : bytes) (keys channels : list bytes) : Prop :=
  permits_cmd t rs cmd /\
  (forall k, k ∈ keys -> exists p, p ∈ patterns /\ path_match p k = Some true) /\
  (forall c, c ∈ channels -> exists p, p ∈ chans /\ path_match p c = Some true).

Lemma evalRules_permits t rs cmd : evalRules t rs cmd = true <-> permits_cmd t rs cmd.
Proof.
  unfold evalRules. induction rs as [|r rs IH] using rev_ind; cbn.
  { split; [done|]. intros (b & r & a & E & _). by apply app_cons_not_nil in E. }
  rewrite foldl_app. cbn [foldl]. destruct (rule_matches t r cmd) eqn:Em.
  - split.
    + intros Ha. exists rs, r, []. auto.
    + intros (b & r' & a & E & Hm & Ha & Hf). destruct a as [|x a _] using rev_ind.
      * apply app_inj_tail in E as [_ ->]. done.
      * rewrite app_comm_cons, app_assoc in E. apply app_inj_tail in E as [_ ->].
        apply Forall_app in Hf as [_ Hf]. apply Forall_inv in Hf. congruence.
  - rewrite IH. split.
    + intros (b & r' & a & -> & Hm & Ha & Hf). exists b, r', (a ++ [r]). rewrite <- app_assoc. split; [done|].
      split; [done|]. split; [done|]. apply Forall_app. auto.
    + intros (b & r' & a & E & Hm & Ha & Hf). destruct a as [|x a _] using rev_ind.
      * apply app_inj_tail in E as [_ ->]. congruence.
      * rewrite app_comm_cons, app_assoc in E. apply app_inj_tail in E as [-> ->].
        apply Forall_app in Hf as [Hf _]. exists b, r', a. auto.
Qed.

Lemma matchAny_spec patterns k : matchAny patterns k = true <-> exists p, p ∈ patterns /\ path_match p k = Some true.
Proof.
  unfold matchAny. rewrite existsb_exists. split.
  - intros (p & Hp & E). exists p. rewrite list_elem_of_In. destruct (path_match p k) as [[|]|]; done.
  - intros (p & Hp & E). exists p. rewrite <- list_elem_of_In. by rewrite E.
Qed.

Lemma find_none_all {A} (f : A -> bool) l : List.find (fun x => negb (f x)) l = None <-> forall x, x ∈ l -> f x = true.
Proof.
  induction l as [|x l IH]; cbn; [split; [by intros _ ? ?%not_elem_of_nil|done]|]. destruct (f x) eqn:E; cbn.
  - rewrite IH. split; [intros Hl y [->|Hy]%elem_of_cons; auto | intros Hl y Hy; apply Hl; by right].
  - split; [done|]. intros Hl. rewrite Hl in E; [done|by left].
Qed.

Lemma checkTriple_permits t user cmd rs patterns chans keys channels :
  checkTriple t user cmd rs patterns chans keys channels = None <-> permits t rs patterns chans cmd keys channels.
Proof.
  unfold checkTriple, permits. rewrite <- evalRules_permits. destruct (evalRules t rs cmd); cbn [negb]; [|naive_solver].
  destruct (List.find _ keys) as [k|] eqn:Ek.
  - split; [done|]. intros (_ & Hk & _). exfalso.
    assert (List.find (fun x => negb (matchAny patterns x)) keys = None) as X; [|by rewrite X in Ek].
    apply find_none_all. intros x Hx. by apply matchAny_spec, Hk.
  - destruct (List.find _ channels) as [c|] eqn:Ec.
    + split; [done|]. intros (_ & _ & Hc). exfalso.
      assert (List.find (fun x => negb (matchAny chans x)) channels = None) as X; [|by rewrite X in Ec].
      apply find_none_all. intros x Hx. by apply matchAny_spec, Hc.
    + rewrite find_none_all in Ek. rewrite find_none_all in Ec. split; [|done]. intros _. split; [done|].
      split; intros x Hx; apply matchAny_spec; auto.
Qed.

(** The user may run the command with these keys and channels: the user is on
    and either the main rules or one of the selectors permit it on their own. *)
Definition allows (t : metas) (u : User) (cmd : bytes) (keys channels : list bytes) : Prop :=
  On u = true /\
  (permits t (rules u) (KeyPatterns u) (Channels u) cmd keys channels \/
   exists sel, sel ∈ Selectors u /\ permits t (sCmds sel) (sKeys sel) (sChans sel) cmd keys channels).

Lemma selectors_permit t user cmd keys channels sels :
  existsb (fun sel => match checkTriple t user cmd (sCmds sel) (sKeys sel) (sChans sel) keys channels with
                      | None => true | Some _ => false end) sels = true <->
  exists sel, sel ∈ sels /\ permits t (sCmds sel) (sKeys sel) (sChans sel) cmd keys channels.
Proof.
  rewrite existsb_exists. split; intros (sel & Hin & Hs); exists sel; (split; [by apply list_elem_of_In|]).
  - apply (checkTriple_permits t user). by destruct (checkTriple t user cmd _ _ _ _ _).
  - apply (checkTriple_permits t user) in Hs. by rewrite Hs.
Qed.

Lemma Check_user t s user u cmd keys channels :
  users s !! user = Some u ->
  exists r, Check_ t s user cmd keys channels = Ok r /\ (r = None <-> allows t u cmd keys channels).
Proof.
  intros Hu. unfold Check_, allows. rewrite Hu. destruct (On u); cbn [negb]; [|eexists; split; [done|]; naive_solver].
  destruct (checkTriple t user cmd (rules u) _ _ _ _) as [d|] eqn:Em.
  - assert (~ permits t (rules u) (KeyPatterns u) (Channels u) cmd keys channels) as Hn.
    { rewrite <- (checkTriple_permits t user). by rewrite Em. }
    pose proof (selectors_permit t user cmd keys channels (Selectors u)) as Hs.
    destruct (existsb _ (Selectors u)); eexists; (split; [done|]).
    + split; [|done]. intros _. split; [done|]. right. by apply Hs.
    + split; [done|]. intros [_ [Hp|Hp]]; [done|]. by apply Hs in Hp.
  - apply checkTriple_permits in Em. eexists. split; [done|]. split; [intros _; split; [done|by left]|done].
Qed.

Lemma checkTriple_reason t user cmd rs patterns chans keys channels d :
  checkTriple t user cmd rs patterns chans keys channels = Some d ->
  dUser d = user /\ dCmd d = ToLower cmd /\
  match dKind d with
  | DenyCommand => ~ permits_cmd t rs cmd
  | DenyKey => permits_cmd t rs cmd /\ dName d ∈ keys /\ forall p, p ∈ patterns -> path_match p (dName d) <> Some true
  | DenyChannel => permits_cmd t rs cmd /\ dName d ∈ channels /\ forall p, p ∈ chans -> path_match p (dName d) <> Some true
  end.
Proof.
  assert (forall ps k, matchAny ps k = false -> forall p, p ∈ ps -> path_match p k <> Some true) as Hno.
  { intros ps k Hf p Hp E. assert (matchAny ps k = true) by (apply matchAny_spec; eauto). congruence. }
  unfold checkTriple. pose proof (evalRules_permits t rs cmd) as Hc. destruct (evalRules t rs cmd); cbn [negb].
  2:{ intros [= <-]. unfold commandNOPERM. cbn. split_and!; naive_solver. }
  destruct (List.find _ keys) as [k|] eqn:Ek.
  { apply find_some in Ek as [Hin Hk]. apply negb_true_iff in Hk. intros [= <-]. cbn. apply list_elem_of_In in Hin. naive_solver. }
  destruct (List.find _ channels) as [c|] eqn:Ec; [|done].
  apply find_some in Ec as [Hin Hk]. apply negb_true_iff in Hk. intros [= <-]. cbn. apply list_elem_of_In in Hin. naive_solver.
Qed.

(** C40: for a user that exists the check answers, and permits a command
    exactly when the user is on and either the main rules or one of the
    selectors permit it on their own: the last rule that applies to the command
    allows it, and every key and every channel matches one of the patterns.  A
    refusal names the user and the command, and its kind is the stage at which
    the main rules of a user that is on fail: the command, a key no pattern
    matches, or a channel no pattern matches. *)
Theorem acl_check_exact t s user u cmd keys channels :
  users s !! user = Some u ->
  exists r, Check_ t s user cmd keys channels = Ok r /\ (r = None <-> allows t u cmd keys channels) /\
    forall d, r = Some d -> dUser d = user /\ dCmd d = ToLower cmd /\
      match dKind d with
      | DenyCommand => On u = false \/ ~ permits_cmd t (rules u) cmd
      | DenyKey => dName d ∈ keys /\ forall p, p ∈ KeyPatterns u -> path_match p (dName d) <> Some true
      | DenyChannel => dName d ∈ channels /\ forall p, p ∈ Channels u -> path_match p (dName d) <> Some true
      end.
Proof.
  intros Hu. destruct (Check_user t s user u cmd keys channels Hu) as (r & E & Hr). exists r. split; [done|]. split; [done|].
  intros d ->. unfold Check_ in E. rewrite Hu in E. destruct (On u); cbn [negb] in E.
  - destruct (checkTriple t user cmd (rules u) _ _ _ _) as [d'|] eqn:Em; [|done]. destruct (existsb _ _); simplify_eq.
    apply checkTriple_reason in Em as (-> & -> & Hd). destruct (dKind d); naive_solver.
  - simplify_eq. unfold commandNOPERM. cbn. auto.
Qed.

(** The log of refusals holds the latest 128. *)
Lemma log_bounded s time client cmd reason :
  len (log s) <= 128 -> len (log (LogDenied s time client cmd reason)) <= 128 /\
  last (log (LogDenied s time client cmd reason)) = Some (mkLog time client cmd reason).
Proof.
  intros Hl. unfold LogDenied. cbn [log]. set (e := mkLog _ _ _ _). destruct (128 <? len (log s ++ [e])) eqn:E; breflect.
  - split; [unfold len in *; rewrite length_drop, length_app in *; cbn [length] in *; lia|].
    rewrite drop_app_le by (rewrite length_app; unfold len in *; cbn [length]; lia). apply last_snoc.
  - split; [done|apply last_snoc].
Qed.
End check.


(** ** Round trip of the ACL file *)

Section file.
Context `{GoUnicode} `{GoSha256}.

(** A byte that neither separates words nor needs the Unicode tables. *)
Definition plain (c : ascii) : Prop := is_space c = false /\ byte_val c < 128.

Lemma hex_val_char n : 0 <= n < 16 -> hex_val (hex_char n) = Some n.
Proof.
  intros Hn. unfold hex_val, hex_char. destruct (n <? 10) eqn:E; breflect; rewrite byte_val_of_small by lia; zdec; cbn [andb];
    f_equal; lia.
Qed.

Lemma hex_roundtrip s : DecodeString (EncodeToString s) = Some s.
Proof.
  induction s as [|c s IH]; [done|]. unfold EncodeToString. cbn [map concat app]. fold (EncodeToString s). cbn [DecodeString].
  pose proof (byte_val_range c). rewrite Z.shiftr_div_pow2, (Z.land_ones _ 4) by lia.
  assert (0 <= byte_val c / 2 ^ 4 < 16) by (split; [apply Z.div_pos; lia | apply Z.div_lt_upper_bound; lia]).
  assert (0 <= byte_val c mod 2 ^ 4 < 16) by (apply Z.mod_pos_bound; lia).
  rewrite !hex_val_char, IH by done. do 2 f_equal. rewrite Z.lor_comm, lor_add_shift by lia.
  rewrite <- (byte_of_val c) at 3. f_equal. pose proof (Z.div_mod (byte_val c) (2 ^ 4)). lia.
Qed.

Lemma hex_plain s : Forall plain (EncodeToString s).
Proof.
  induction s as [|c s IH]; [constructor|]. unfold EncodeToString. cbn [map concat app]. fold (EncodeToString s).
  assert (forall n, 0 <= n < 16 -> plain (hex_char n)) as Hp.
  { intros n Hn. unfold plain, is_space, hex_char.
    destruct (n <? 10) eqn:E; breflect; rewrite byte_val_of_small by lia; zdec; cbn [andb orb]; split; (done || lia). }
  pose proof (byte_val_range c). rewrite Z.shiftr_div_pow2, (Z.land_ones _ 4) by lia.
  constructor; [|constructor; [|done]]; apply Hp; [split; [apply Z.div_pos; lia | apply Z.div_lt_upper_bound; lia] | apply Z.mod_pos_bound; lia].
Qed.

(** *** Splitting the joined words *)

Lemma fields_word cur w rest :
  Forall plain w -> w <> [] \/ cur <> [] ->
  fields_loop cur (w ++ " "%char :: rest) = (reverse cur ++ w) :: fields_loop [] rest.
Proof.
  revert cur. induction w as [|c w IH]; intros cur Hw Hn; cbn [app fields_loop].
  - change (is_space " ") with true. cbv iota. rewrite bool_decide_eq_false_2 by naive_solver. by rewrite app_nil_r.
  - apply Forall_cons in Hw as [[Hc _] Hw]. rewrite Hc. rewrite IH by (done || by right). by rewrite reverse_cons, <- app_assoc.
Qed.

Lemma fields_last cur w : Forall plain w -> w <> [] \/ cur <> [] -> fields_loop cur w = [reverse cur ++ w].
Proof.
  revert cur. induction w as [|c w IH]; intros cur Hw Hn; cbn [fields_loop].
  - rewrite bool_decide_eq_false_2 by naive_solver. by rewrite app_nil_r.
  - apply Forall_cons in Hw as [[Hc _] Hw]. rewrite Hc. rewrite IH by (done || by right). by rewrite reverse_cons, <- app_assoc.
Qed.

Definition words (l : list bytes) : Prop := Forall (fun w => w <> [] /\ Forall plain w) l.

Lemma Join_cons x y l : Join (x :: y :: l) (lit " ") = x ++ " "%char :: Join (y :: l) (lit " ").
Proof. done. Qed.

Lemma fields_join l : words l -> fields_loop [] (Join l (lit " ")) = l.
Proof.
  induction 1 as [|x l [Hx Hp] Hl IH]; [done|]. destruct l as [|y l].
  - cbn [Join]. rewrite fields_last by auto. done.
  - rewrite Join_cons, fields_word by auto. by rewrite IH.
Qed.

Lemma join_ascii l : words l -> Forall (fun c => byte_val c < 128 /\ c <> "010"%char) (Join l (lit " ")).
Proof.
  assert (forall w, Forall plain w -> Forall (fun c => byte_val c < 128 /\ c <> "010"%char) w) as Hw.
  { intros w Hp. eapply Forall_impl; [exact Hp|]. intros c [Hs Ha]. split; [done|]. intros ->. done. }
  induction 1 as [|x l [Hx Hp] Hl IH]; [constructor|]. destruct l as [|y l]; [by apply Hw|].
  rewrite Join_cons. apply Forall_app. split; [by apply Hw|]. constructor; [split; [done|discriminate]|done].
Qed.

Lemma is_ascii_join l : words l -> is_ascii (Join l (lit " ")) = true.
Proof.
  intros Hl. unfold is_ascii. apply forallb_forall. intros c Hc. apply list_elem_of_In in Hc.
  pose proof (join_ascii l Hl) as Hf. rewrite Forall_forall in Hf. apply Z.ltb_lt. by apply Hf.
Qed.

Lemma Fields_join l : words l -> Fields (Join l (lit " ")) = l.
Proof. intros Hl. unfold Fields. rewrite is_ascii_join by done. by apply fields_join. Qed.

Lemma trim_left_id s : (forall c r, s = c :: r -> is_space c = false) -> trim_left s = s.
Proof. destruct s as [|c r]; [done|]. intros Hs. cbn. by rewrite (Hs c r). Qed.

Lemma join_ends l : words l -> l <> [] ->
  (exists c r, Join l (lit " ") = c :: r /\ is_space c = false /\ head l = Some (c :: match head l with Some (_ :: w) => w | _ => [] end)) /\
  (exists c r, Join l (lit " ") = r ++ [c] /\ is_space c = false).
Proof.
  intros Hl Hn. split.
  - destruct Hl as [|x l [Hx Hp] Hl]; [done|]. destruct x as [|c x]; [done|]. apply Forall_cons in Hp as [[Hc _] _].
    exists c. destruct l as [|y l]; [by exists x|]. rewrite Join_cons. by eexists.
  - induction Hl as [|x l [Hx Hp] Hl IH]; [done|]. destruct l as [|y l].
    + cbn [Join]. destruct x as [|c x _] using rev_ind; [done|]. exists c, x. split; [done|].
      apply Forall_app in Hp as [_ Hp]. apply Forall_inv in Hp. apply Hp.
    + destruct IH as (c & r & E & Hc); [done|]. rewrite Join_cons, E. exists c, (x ++ " "%char :: r). by rewrite <- app_assoc.
Qed.

Lemma TrimSpace_join l : words l -> l <> [] -> TrimSpace (Join l (lit " ")) = Join l (lit " ").
Proof.
  intros Hl Hn. unfold TrimSpace. rewrite is_ascii_join by done. destruct (join_ends l Hl Hn) as [(c & r & E & Hc & _) (d & q & E' & Hd)].
  rewrite (trim_left_id (Join l (lit " "))) by (intros c' r' X; rewrite E in X; by simplify_eq).
  rewrite trim_left_id, reverse_involutive; [done|]. intros c' r' X. rewrite E', reverse_snoc in X. by simplify_eq.
Qed.

(** *** One user *)

(** What SetUser can store and the file can hold: no selectors, a hash exactly
    when there is a password, a password or nopass but not both, and tokens
    without separators. *)
Record writable (name : bytes) (u : User) : Prop := {
  wr_name : name <> [] /\ Forall plain name;
  wr_sels : Selectors u = [];
  wr_hash : if hasPass u then length (passHash u) = 32%nat /\ NoPass u = false else passHash u = zero_hash;
  wr_rules : Forall (fun r => Forall plain (token r)) (rules u);
  wr_keys : Forall (Forall plain) (KeyPatterns u);
  wr_chans : Forall (Forall plain) (Channels u);
}.

Definition snapshot (u : User) : Snapshot :=
  mkSnap (On u) (NoPass u) (if hasPass u then EncodeToString (passHash u) else []) (map show_rule (rules u))
    (KeyPatterns u) (Channels u)
    (map (fun sel => mkView (map show_rule (sCmds sel)) (map (fun k => lit "~" ++ k) (sKeys sel))
                       (map (fun c => lit "&" ++ c) (sChans sel))) (Selectors u)).

Lemma plain_lit_char c : (33 <=? byte_val c) && (byte_val c <? 127) = true -> plain c.
Proof. intros E. breflect. unfold plain, is_space. zdec. cbn. split; [done|lia]. Qed.

Ltac plain_now := repeat first [apply Forall_nil_2 | apply Forall_cons_2 | apply plain_lit_char; reflexivity].

Lemma parts_words name u : writable name u -> words (line_parts name (snapshot u)).
Proof.
  intros [[Hn1 Hn2] Hs Hh Hr Hk Hc]. unfold line_parts, snapshot. cbn [snOn snNoPass snPassHash snRules snKeys snChans snSelectors].
  rewrite Hs. unfold words. cbn [map]. rewrite app_nil_r.
  assert (forall (c : ascii) w, plain c -> Forall plain w -> (c :: w <> [] /\ Forall plain (c :: w))) as W by (intros; split; [done|by constructor]).
  repeat apply Forall_app_2; [repeat apply Forall_cons_2; [..|apply Forall_nil_2]| | | |].
  - split; [done|]. unfold lit; cbn. plain_now.
  - done.
  - destruct (On u); (split; [done|]); unfold lit; cbn; plain_now.
  - destruct (NoPass u); [apply Forall_singleton; split; [done|]; unfold lit; cbn; plain_now|].
    destruct (bytes_eqb (if hasPass u then _ else _) []); [constructor|]. apply Forall_singleton.
    apply W; [by apply plain_lit_char|]. destruct (hasPass u); [apply hex_plain|constructor].
  - rewrite Forall_map. eapply Forall_impl; [exact Hr|]. intros r Hp. unfold show_rule. destruct (allow r); apply W; (done || by apply plain_lit_char).
  - rewrite Forall_map. eapply Forall_impl; [exact Hk|]. intros k Hp. apply W; [by apply plain_lit_char|done].
  - rewrite Forall_map. eapply Forall_impl; [exact Hc|]. intros k Hp. apply W; [by apply plain_lit_char|done].
Qed.

Lemma set_rules_rules rs rest u :
  set_rules (map show_rule rs ++ rest) u None =
  set_rules rest (mkUser (On u) (NoPass u) (passHash u) (hasPass u) (rules u ++ rs) (KeyPatterns u) (Channels u) (Selectors u)) None.
Proof.
  revert u; induction rs as [|[al tk] rs IH]; intros u; cbn [map app]; [rewrite app_nil_r; by destruct u|].
  assert (set_rules (show_rule (mkRule al tk) :: map show_rule rs ++ rest) u None =
          set_rules (map show_rule rs ++ rest) (add_rule u (mkRule al tk)) None) as ->.
  { destruct al, tk; reflexivity. }
  rewrite IH. unfold add_rule. cbn [On NoPass passHash hasPass rules KeyPatterns Channels Selectors]. by rewrite <- app_assoc.
Qed.

Lemma set_rules_keys ks rest u :
  set_rules (map (fun k => lit "~" ++ k) ks ++ rest) u None =
  set_rules rest (mkUser (On u) (NoPass u) (passHash u) (hasPass u) (rules u) (KeyPatterns u ++ ks) (Channels u) (Selectors u)) None.
Proof.
  revert u; induction ks as [|k ks IH]; intros u; cbn [map app]; [rewrite app_nil_r; by destruct u|].
  assert (set_rules ((lit "~" ++ k) :: map (fun k => lit "~" ++ k) ks ++ rest) u None =
          set_rules (map (fun k => lit "~" ++ k) ks ++ rest) (add_key u k) None) as ->.
  { destruct k; reflexivity. }
  rewrite IH. unfold add_key. cbn [On NoPass passHash hasPass rules KeyPatterns Channels Selectors]. by rewrite <- app_assoc.
Qed.

Lemma set_rules_chans cs rest u :
  set_rules (map (fun c => lit "&" ++ c) cs ++ rest) u None =
  set_rules rest (mkUser (On u) (NoPass u) (passHash u) (hasPass u) (rules u) (KeyPatterns u) (Channels u ++ cs) (Selectors u)) None.
Proof.
  revert u; induction cs as [|c cs IH]; intros u; cbn [map app]; [rewrite app_nil_r; by destruct u|].
  assert (set_rules ((lit "&" ++ c) :: map (fun c => lit "&" ++ c) cs ++ rest) u None =
          set_rules (map (fun c => lit "&" ++ c) cs ++ rest) (add_chan u c) None) as ->.
  { destruct c; reflexivity. }
  rewrite IH. unfold add_chan. cbn [On NoPass passHash hasPass rules KeyPatterns Channels Selectors]. by rewrite <- app_assoc.
Qed.

Lemma set_rules_hash h rest u :
  length h = 32%nat -> set_rules ((lit "#" ++ EncodeToString h) :: rest) u None = set_rules rest (set_hash u h) None.
Proof.
  intros Hl.
  assert (forall e, set_rules ((lit "#" ++ e) :: rest) u None =
    match DecodeString e with
    | None => bad_rule "acl: invalid password hash " (lit "#" ++ e)
    | Some h => if negb (len h =? 32) then bad_rule "acl: invalid password hash " (lit "#" ++ e)
                else set_rules rest (set_hash u h) None
    end) as -> by (intros []; reflexivity).
  rewrite hex_roundtrip. unfold len. by rewrite Hl.
Qed.
Lemma set_rules_line name u :
  writable name u -> set_rules (drop 2 (line_parts name (snapshot u))) zero_user None = Ok u.
Proof.
  intros [_ Hs Hh _ _ _]. unfold line_parts, snapshot. cbn [snOn snNoPass snPassHash snRules snKeys snChans snSelectors].
  rewrite Hs. cbn [map app drop].
  assert (forall rest, set_rules ((if On u then lit "on" else lit "off") :: rest) zero_user None =
                       set_rules rest (set_on zero_user (On u)) None) as -> by (intros rest; by destruct (On u)).
  destruct u as [on np h hp rs ks cs sels]. cbn [On NoPass passHash hasPass rules KeyPatterns Channels Selectors] in *. subst sels.
  assert (forall rest, set_rules ((if np then [lit "nopass"]
              else if bytes_eqb (if hp then EncodeToString h else []) [] then []
              else [lit "#" ++ (if hp then EncodeToString h else [])]) ++ rest) (set_on zero_user on) None =
            set_rules rest (mkUser on np h hp [] [] [] []) None) as ->.
  { intros rest. destruct hp.
    - destruct Hh as [Hl ->]. destruct (bytes_eqb_spec (EncodeToString h) []) as [E|E].
      + pose proof (hex_roundtrip h) as X. rewrite E in X. cbn in X. by simplify_eq.
      + cbn [app]. by rewrite set_rules_hash.
    - subst h. by destruct np. }
  rewrite set_rules_rules. cbn [On NoPass passHash hasPass rules KeyPatterns Channels Selectors app].
  rewrite set_rules_keys. cbn [On NoPass passHash hasPass rules KeyPatterns Channels Selectors app].
  by rewrite set_rules_chans.
Qed.

Lemma line_shape name u : exists rest, line_parts name (snapshot u) = lit "user" :: name :: rest.
Proof. by eexists. Qed.

Lemma load_line name u s0 rest :
  writable name u ->
  load_lines (describeLine name (snapshot u) :: rest) s0 = load_lines rest (mkStore (<[name := u]> (users s0)) (log s0)).
Proof.
  intros Hw. pose proof (parts_words name u Hw) as Hp. pose proof (set_rules_line name u Hw) as Hr.
  destruct (line_shape name u) as [ps E]. unfold describeLine. cbn [load_lines]. rewrite TrimSpace_join by (done || by rewrite E).
  assert (bytes_eqb (Join (line_parts name (snapshot u)) (lit " ")) [] ||
          HasPrefix (Join (line_parts name (snapshot u)) (lit " ")) (lit "#") = false) as -> by (rewrite E; reflexivity).
  unfold ParseLine. rewrite Fields_join by done. rewrite E in Hr |- *. change (drop 2 (lit "user" :: name :: ps)) with ps in Hr.
  change (bytes_eqb (lit "user") (lit "user")) with true. cbv iota.
  unfold SetUser. cbn [res_bind]. by rewrite Hr.
Qed.

Lemma load_saved s ns s0 :
  Forall (fun n => exists u, users s !! n = Some u /\ writable n u) ns ->
  exists s', load_lines (SplitByte (concat (map (fun n => match GetUser s n with
                 Some sn => describeLine n sn ++ ["010"%char] | None => [] end) ns)) "010"%char) s0 = Ok s' /\
    log s' = log s0 /\ forall k, users s' !! k = (if bool_decide (k ∈ ns) then users s !! k else users s0 !! k).
Proof.
  intros Hn. revert s0. induction Hn as [|n ns (u & Hu & Hw) Hn IH]; intros s0.
  - exists s0. cbn. done.
  - cbn [map concat]. unfold GetUser at 1. rewrite Hu. fold (snapshot u). rewrite <- app_assoc. cbn [app].
    rewrite SplitByte_app.
    2:{ intros Hin. pose proof (join_ascii _ (parts_words n u Hw)) as Hf. rewrite Forall_forall in Hf. by apply (Hf _ Hin). }
    rewrite load_line by done. destruct (IH (mkStore (<[n:=u]> (users s0)) (log s0))) as (s' & E & Hl & Hk).
    exists s'. split; [done|]. split; [done|]. intros k. rewrite Hk. cbn [users].
    destruct (decide (k ∈ ns)) as [Hin|Hin].
    + by rewrite !bool_decide_eq_true_2 by set_solver.
    + rewrite (bool_decide_eq_false_2 (k ∈ ns)) by done. destruct (decide (k = n)) as [->|Hne].
      * rewrite lookup_insert_eq, bool_decide_eq_true_2 by set_solver. done.
      * rewrite lookup_insert_ne by done. rewrite bool_decide_eq_false_2 by set_solver. done.
Qed.

(** A saved user table, loaded into any store, puts back exactly the saved
    users (names, flags, password hashes, rules, key and channel patterns in
    order) over the users already there, and leaves the log alone; so loading
    into a fresh store restores the table. *)
Theorem aclfile_roundtrip s s0 :
  map_Forall writable (users s) ->
  exists s', Load (Save s) s0 = Ok s' /\ users s' = users s ∪ users s0 /\ log s' = log s0.
Proof.
  intros Hw. assert (forall n, n ∈ Names s <-> is_Some (users s !! n)) as Hnames.
  { intros n. unfold Names. rewrite sortStrings_perm. split.
    - intros ([k u] & -> & Hu)%list_elem_of_fmap. apply elem_of_map_to_list in Hu. by exists u.
    - intros [u Hu]. apply list_elem_of_fmap. exists (n, u). by rewrite elem_of_map_to_list. }
  destruct (load_saved s (Names s) s0) as (s' & E & Hl & Hk).
  { apply Forall_forall. intros n [u Hu]%Hnames. exists u. split; [done|]. by apply (Hw n). }
  exists s'. split; [exact E|]. split; [|done]. apply map_eq. intros k. rewrite Hk, lookup_union.
  destruct (users s !! k) as [u|] eqn:Hu.
  - rewrite bool_decide_eq_true_2 by (apply Hnames; by exists u). by destruct (users s0 !! k).
  - rewrite bool_decide_eq_false_2 by (rewrite Hnames, Hu; by intros []). by destruct (users s0 !! k).
Qed.
End file.

(** ** What the code gets wrong *)

(** The default user that the requirepass setting installs
    ([SetUser("default", "on", ">"+pw, "+@all")] in cmd/gedis/main.go) has no
    key pattern, so the check refuses it every command that names a key. *)
Theorem requirepass_denies_keys `{GoUnicode} `{GoSha256} t s pw cmd k ks channels :
  exists s', SetUser s DefaultUser [lit "on"; lit ">" ++ pw; lit "+@all"] = Ok s' /\
    HasRestrictedUsers s' = true /\
    exists d, Check_ t s' DefaultUser cmd (k :: ks) channels = Ok (Some d).
Proof.
  eexists. split; [by destruct pw|]. split.
  - unfold HasRestrictedUsers. cbn [users]. case_match; [done|]. by rewrite lookup_insert_eq.
  - unfold Check_. cbn [users]. rewrite lookup_insert_eq. cbn [On negb set_on rules KeyPatterns Channels Selectors existsb].
    destruct (checkTriple _ _ _ _ _ _ _ _) eqn:E; [by eexists|]. apply checkTriple_permits in E as (_ & Hk & _).
    destruct (Hk k) as (p & Hp & _); [by left|]. by apply not_elem_of_nil in Hp.
Qed.

(** A check for a user that has been deleted dereferences a nil pointer. *)
Theorem deleted_user_check_panics `{GoUnicode} `{GoSha256} t s name cmd keys channels :
  name <> DefaultUser ->
  exists s', DelUser s name = Ok s' /\ Check_ t s' name cmd keys channels = Panic /\ CanRun t s' name cmd = Panic.
Proof.
  intros Hn. eexists. unfold DelUser. rewrite bytes_eqb_neq by done. split; [done|].
  unfold Check_, CanRun. cbn [users]. by rewrite !lookup_delete_eq.
Qed.

(** ** Concrete runs *)

Definition zero_sha : GoSha256 :=
  {| Sum256 := fun _ => zero_hash; Sum256_length := fun _ => eq_refl |}.

(** A reader of the cache keys with one selector for a counter. *)
Definition reader_rules : list bytes :=
  map lit ["on"; ">pw"; "+get"; "-del"; "~cache:*"; "&news"; "("; "+incr"; "~n"; ")"].
Definition reader : User :=
  mkUser true false zero_hash true [mkRule true (lit "get"); mkRule false (lit "del")] [lit "cache:*"] [lit "news"]
    [mkSel [mkRule true (lit "incr")] [lit "n"] []].
Definition reader_store : Store := mkStore (<[lit "bob" := reader]> (users NewStore)) [].

Example reader_set : @SetUser zero_sha NewStore (lit "bob") reader_rules = Ok reader_store.
Proof. vm_compute. reflexivity. Qed.

Lemma acl_check_exact_witness :
  (exists r, @Check_ ascii_tables ∅ reader_store (lit "bob") (lit "GET") [lit "other"] [] = Ok r /\
    (r = None <-> @allows ascii_tables ∅ reader (lit "GET") [lit "other"] []) /\
    forall d, r = Some d -> dUser d = lit "bob" /\ dCmd d = @ToLower ascii_tables (lit "GET") /\
      match dKind d with
      | DenyCommand => On reader = false \/ ~ @permits_cmd ascii_tables ∅ (rules reader) (lit "GET")
      | DenyKey => dName d ∈ [lit "other"] /\ forall p, p ∈ KeyPatterns reader -> path_match p (dName d) <> Some true
      | DenyChannel => dName d ∈ [] /\ forall p, p ∈ Channels reader -> path_match p (dName d) <> Some true
      end) /\
  @Check_ ascii_tables ∅ reader_store (lit "bob") (lit "GET") [lit "cache:1"] [] = Ok None /\
  @Check_ ascii_tables ∅ reader_store (lit "bob") (lit "INCR") [lit "n"] [] = Ok None.
Proof.
  split; [apply (@acl_check_exact ascii_tables ∅ reader_store (lit "bob") reader); reflexivity|].
  split; vm_compute; reflexivity.
Defined.

Definition plain_user : User :=
  mkUser true false zero_hash true [mkRule true (lit "@all"); mkRule false (lit "flushall")] [lit "*"] [lit "news"] [].
Definition plain_store : Store := mkStore (<[lit "bob" := plain_user]> (users NewStore)) [].

Lemma plain_store_writable : map_Forall writable (users plain_store).
Proof.
  unfold plain_store, NewStore. cbn [users]. apply map_Forall_insert_2; [|apply map_Forall_singleton];
    (split; [split; [done|]| | | | |]); try reflexivity; try (split; reflexivity);
    unfold lit, DefaultUser; cbn; repeat (apply Forall_nil_2 || apply Forall_cons_2 || (apply plain_lit_char; reflexivity)).
Qed.

Lemma aclfile_roundtrip_witness :
  exists s', @Load ascii_tables zero_sha (Save plain_store) NewStore = Ok s' /\
    users s' = users plain_store ∪ users NewStore /\ log s' = [].
Proof. apply (@aclfile_roundtrip ascii_tables zero_sha plain_store NewStore). exact plain_store_writable. Defined.

(** A selector saved by Save cannot be loaded: it is written as "(+incr ~n)"
    and split at its spaces, and "(+incr" is no rule. *)
Theorem saved_selector_unloadable :
  exists e, @Load ascii_tables zero_sha (Save reader_store) NewStore = Err e.
Proof. vm_compute. eexists. reflexivity. Qed.

End acl.
