(* ===== verification/Router.v ===== *)
(** * The command router (src/internal/network)

    The statistics container, and the router: the tables filled at start-up and
    Dispatch, which takes a frame through the interceptors, the permission
    check, the read-only guard and the handler.  The permission check sees the
    user table through an interface, which the access control lists implement. *)

From S2P Require Import Prelude GoLib GoStrings Resp Cmd Acl.
Open Scope Z_scope.
Open Scope gedis_scope.

(** ** The interface of the user table (AuthorizerStore)

    [au_check] answers the text of the refusal, if any; [au_log] is LogDenied at
    a time in seconds. *)
Class AuthorizerStore (A : Type) : Type := {
  au_restricted : A -> bool;
  au_requires : A -> bool;
  au_check : A -> bytes -> bytes -> list bytes -> list bytes -> result (option bytes);
  au_log : A -> Z -> bytes -> bytes -> bytes -> A;
}.

(** The clock as a handler's state sees it: nanoseconds. *)
Class AppClock (A : Type) : Type := { app_now : A -> Z * A }.

Module network.

(** ** Statistics (stats.go) *)

Record SlowEntry : Type := mkSlow {
  slID : Z; slTimestamp : Z; slDuration : Z; slCommand : bytes; slArgs : list bytes;
}.

Record Stats : Type := mkStats {
  connsReceived : Z; commandsProcessed : Z; connectedClients : Z; blockedClients : Z; expiredKeys : Z;
  SlowThresholdMicros : Z; slowMaxLen : Z; slow : list SlowEntry; slowNextID : Z;
  Role : bytes; MasterHost : bytes; MasterPort : Z; slaveOffset : Z;
}.

Definition NewStats : Stats := mkStats 0 0 0 0 0 10000 128 [] 0 (lit "master") [] 0 0.

Definition set_counts (s : Stats) (conns cmds clients blocked expired : Z) : Stats :=
  mkStats conns cmds clients blocked expired (SlowThresholdMicros s) (slowMaxLen s) (slow s) (slowNextID s)
    (Role s) (MasterHost s) (MasterPort s) (slaveOffset s).
Definition set_slow (s : Stats) (l : list SlowEntry) (next : Z) : Stats :=
  mkStats (connsReceived s) (commandsProcessed s) (connectedClients s) (blockedClients s) (expiredKeys s)
    (SlowThresholdMicros s) (slowMaxLen s) l next (Role s) (MasterHost s) (MasterPort s) (slaveOffset s).
Definition set_master (s : Stats) (role host : bytes) (port off : Z) : Stats :=
  mkStats (connsReceived s) (commandsProcessed s) (connectedClients s) (blockedClients s) (expiredKeys s)
    (SlowThresholdMicros s) (slowMaxLen s) (slow s) (slowNextID s) role host port off.

Definition SetRole (s : Stats) (role : bytes) : Stats := set_master s role (MasterHost s) (MasterPort s) (slaveOffset s).
Definition SetMaster (s : Stats) (host : bytes) (port : Z) : Stats := set_master s (lit "slave") host port (slaveOffset s).
Definition ClearMaster (s : Stats) : Stats := set_master s (lit "master") [] 0 (slaveOffset s).
Definition SetSlaveOffset (s : Stats) (off : Z) : Stats := set_master s (Role s) (MasterHost s) (MasterPort s) off.

Definition incConn (s : Stats) : Stats :=
  set_counts s (i64 (connsReceived s + 1)) (commandsProcessed s) (i64 (connectedClients s + 1)) (blockedClients s) (expiredKeys s).
Definition decConn (s : Stats) : Stats :=
  set_counts s (connsReceived s) (commandsProcessed s) (i64 (connectedClients s - 1)) (blockedClients s) (expiredKeys s).
Definition IncExpired (s : Stats) : Stats :=
  set_counts s (connsReceived s) (commandsProcessed s) (connectedClients s) (blockedClients s) (i64 (expiredKeys s + 1)).
Definition IncBlocked (s : Stats) : Stats :=
  set_counts s (connsReceived s) (commandsProcessed s) (connectedClients s) (i64 (blockedClients s + 1)) (expiredKeys s).
Definition DecBlocked (s : Stats) : Stats :=
  set_counts s (connsReceived s) (commandsProcessed s) (connectedClients s) (i64 (blockedClients s - 1)) (expiredKeys s).
Definition incCommands (s : Stats) : Stats :=
  set_counts s (connsReceived s) (i64 (commandsProcessed s + 1)) (connectedClients s) (blockedClients s) (expiredKeys s).

Definition AddSlow (s : Stats) (time : Z) (cmd : bytes) (args : list bytes) (micros : Z) : Stats :=
  let id := i64 (slowNextID s + 1) in
  let l := slow s ++ [mkSlow id time micros cmd args] in
  set_slow s (if slowMaxLen s <? len l then drop (Z.to_nat (len l - slowMaxLen s)) l else l) id.

(** [make([]SlowEntry, n)] panics for a negative [n]. *)
Definition SlowEntries (s : Stats) (n : Z) : result (list SlowEntry) :=
  let n := if len (slow s) <? n then len (slow s) else n in
  if n <? 0 then Panic else Ok (drop (Z.to_nat (len (slow s) - n)) (slow s)).
Definition SlowLen (s : Stats) : Z := len (slow s).
Definition SlowReset (s : Stats) : Stats := set_slow s [] (slowNextID s).
Definition Reset_ (s : Stats) : Stats :=
  set_slow (set_counts s (connsReceived s) 0 (connectedClients s) (blockedClients s) 0) [] (slowNextID s).

(** ** The context of a command (context.go, acl_ctx.go)

    [c_replay] is the mark EXEC puts on the context of a replayed command. *)

Record Conn : Type := mkConn { connId : Z; remoteAddr : bytes }.
Record Ctx : Type := mkCtx { c_user : option bytes; c_conn : option Conn; c_replay : bool }.

Definition ContextWithUser (ctx : Ctx) (name : bytes) : Ctx := mkCtx (Some name) (c_conn ctx) (c_replay ctx).
Definition ContextWithConn (ctx : Ctx) (c : Conn) : Ctx := mkCtx (c_user ctx) (Some c) (c_replay ctx).

(** ** The router *)

(** What a handler runs on: the application's state, the user table, the
    statistics and the read-only mode, the last three shared with the router. *)
Record Srv (A Au : Type) : Type := mkSrv {
  app : A; sv_auth : option Au; sv_stats : option Stats; sv_readonly : bool;
}.
Arguments mkSrv {A Au}. Arguments app {A Au}. Arguments sv_auth {A Au}. Arguments sv_stats {A Au}.
Arguments sv_readonly {A Au}.

Section router.
Context {A Au : Type} `{AuthorizerStore Au} `{AppClock A} `{GoUnicode}.
Implicit Types s : Srv A Au.

(** [Panic] is the only result besides a reply. *)
Definition Handler : Type := Ctx -> list Value -> Srv A Au -> result Value * Srv A Au.
Definition InterceptFunc : Type := Ctx -> Value -> Srv A Au -> result (option Value) * Srv A Au.
Definition MonitorHookFunc : Type := Ctx -> bytes -> list Value -> Srv A Au -> Srv A Au.
Definition ReadHookFunc : Type := Ctx -> bytes -> list bytes -> Srv A Au -> Srv A Au.

Record Router : Type := mkRouter {
  handlers : gmap bytes Handler; writeCmds : gset bytes; intercept : option InterceptFunc;
  monitorHook : option MonitorHookFunc; readHook : option ReadHookFunc;
}.

Definition NewRouter : Router := mkRouter ∅ ∅ None None None.
Definition Register (r : Router) (name : bytes) (h : Handler) : Router :=
  mkRouter (<[ToUpper name := h]> (handlers r)) (writeCmds r) (intercept r) (monitorHook r) (readHook r).
Definition Handler_ (r : Router) (name : bytes) : option Handler := handlers r !! ToUpper name.
Definition SetWriteCommands (r : Router) (cmds : gset bytes) : Router :=
  mkRouter (handlers r) cmds (intercept r) (monitorHook r) (readHook r).
Definition SetIntercept (r : Router) (fn : option InterceptFunc) : Router :=
  mkRouter (handlers r) (writeCmds r) fn (monitorHook r) (readHook r).
Definition SetMonitorHook (r : Router) (fn : option MonitorHookFunc) : Router :=
  mkRouter (handlers r) (writeCmds r) (intercept r) fn (readHook r).
Definition SetReadHook (r : Router) (fn : option ReadHookFunc) : Router :=
  mkRouter (handlers r) (writeCmds r) (intercept r) (monitorHook r) fn.
Definition AttachStats s (st : Stats) : Srv A Au := mkSrv (app s) (sv_auth s) (Some st) (sv_readonly s).
Definition SetReadOnly s (b : bool) : Srv A Au := mkSrv (app s) (sv_auth s) (sv_stats s) b.
Definition SetAuthorizer s (a : option Au) : Srv A Au := mkSrv (app s) a (sv_stats s) (sv_readonly s).

Definition chained (prev fn : InterceptFunc) : InterceptFunc := fun ctx cmd s =>
  match prev ctx cmd s with
  | (Ok None, s) => fn ctx cmd s
  | x => x
  end.
Definition ChainIntercept (r : Router) (fn : InterceptFunc) : Router :=
  SetIntercept r (Some match intercept r with None => fn | Some prev => chained prev fn end).

(** Has does not fold the case of the name. *)
Definition Has (r : Router) (name : bytes) : bool := bool_decide (is_Some (handlers r !! name)).
Definition Commands (r : Router) : list bytes := map fst (map_to_list (handlers r)).

Definition isAuthExempt (name : bytes) : bool :=
  bytes_eqb name (lit "AUTH") || bytes_eqb name (lit "HELLO") || bytes_eqb name (lit "QUIT").

Definition cmdName (v : Value) : option bytes :=
  match v with VBulkString b => Some (ToUpper (default [] b)) | _ => None end.

Definition bulkArgs (elems : list Value) : list bytes := omap argString elems.

Definition UnknownCommandReply (e0 : Value) (args : list Value) : Value :=
  VError (lit "ERR unknown command '" ++ arg_or_empty e0 ++ lit "', with args beginning with: " ++
          concat (map (fun a => match argString a with Some b => lit "'" ++ b ++ lit "' " | None => [] end) args)).

Definition handlePing : Handler := fun _ args s =>
  (Ok match args with
      | [] => VSimpleString (lit "PONG")
      | a :: _ => match argString a with Some b => BulkOf b | None => a end
      end, s).
Definition DefaultRouter : Router := Register NewRouter (lit "PING") handlePing.

Definition extractChannels (name : bytes) (elems : list Value) : list bytes :=
  let args := bulkArgs elems in
  if existsb (bytes_eqb name) [lit "SUBSCRIBE"; lit "UNSUBSCRIBE"; lit "PSUBSCRIBE"; lit "PUNSUBSCRIBE"] then args
  else if bytes_eqb name (lit "PUBLISH") then take 1 args else [].

(** [if stats != nil { stats.incCommands() }] *)
Definition count_command s : Srv A Au :=
  mkSrv (app s) (sv_auth s) (incCommands <$> sv_stats s) (sv_readonly s).

Definition read_now s : Z * Srv A Au :=
  let '(t, a) := app_now (app s) in (t, mkSrv a (sv_auth s) (sv_stats s) (sv_readonly s)).

Variable t : acl.metas.

Definition extractKeys (name : bytes) (elems : list Value) : result (list bytes) :=
  acl.ExtractKeys t name (bulkArgs elems).

(** The user of the context, if the connection has logged in. *)
Definition login (ctx : Ctx) : option bytes :=
  match c_user ctx with Some u => if bytes_eqb u [] then None else Some u | None => None end.

(** The permission gate; [Ok None] lets the command through. *)
Definition auth_gate (ctx : Ctx) (name : bytes) (args : list Value) s : result (option Value) * Srv A Au :=
  match sv_auth s with
  | None => (Ok None, s)
  | Some au =>
      if negb (au_restricted au) || isAuthExempt name then (Ok None, s)
      else if bool_decide (login ctx = None) && au_requires au
      then (Ok (Some (errS "NOAUTH Authentication required.")), count_command s)
      else
        match extractKeys name args with
        | Ok keys =>
            match au_check au (default acl.DefaultUser (login ctx)) name keys (extractChannels name args) with
            | Ok None => (Ok None, s)
            | Ok (Some msg) =>
                let client := match c_conn ctx with Some c => remoteAddr c | None => lit "test" end in
                let '(ns, s) := read_now (count_command s) in
                (Ok (Some (VError msg)),
                 mkSrv (app s) (Some (au_log au (ns / 1000000000) client name msg)) (sv_stats s) (sv_readonly s))
            | Err e => (Err e, s)
            | Panic => (Panic, s)
            end
        | Err e => (Err e, s)
        | Panic => (Panic, s)
        end
  end.

Definition is_error (v : Value) : bool := match v with VError _ => true | _ => false end.

(** The slow log entry of a command that began at [start]. *)
Definition log_slow (name : bytes) (args : list Value) (start : Z) s : Srv A Au :=
  match sv_stats s with
  | None => s
  | Some st =>
      let '(ns, s) := read_now s in
      let micros := Z.quot (ns - start) 1000 in
      if (SlowThresholdMicros st <=? micros) && negb (bytes_eqb name (lit "SLOWLOG")) then
        let '(ns, s) := read_now s in
        mkSrv (app s) (sv_auth s) (Some (AddSlow st (ns / 1000000000) (ToLower name) (bulkArgs args) micros)) (sv_readonly s)
      else s
  end.

Definition call_monitor (r : Router) (ctx : Ctx) (name : bytes) (args : list Value) s : Srv A Au :=
  match monitorHook r with Some f => f ctx name args s | None => s end.

Definition call_read_hook (r : Router) (ctx : Ctx) (name : bytes) (args : list Value) (reply : Value) s : result Value * Srv A Au :=
  match readHook r with
  | Some f =>
      if bool_decide (name ∈ writeCmds r) || is_error reply then (Ok reply, s)
      else match extractKeys name args with
      | Ok [] => (Ok reply, s)
      | Ok keys => (Ok reply, f ctx name keys s)
      | Err e => (Err e, s)
      | Panic => (Panic, s)
      end
  | None => (Ok reply, s)
  end.

(** [stats.incCommands(); start = time.Now()], when there are statistics. *)
Definition begin s : Z * Srv A Au :=
  match sv_stats s with None => (0, s) | Some _ => read_now (count_command s) end.

(** From the command count to the reply. *)
Definition run_handler (r : Router) (h : Handler) (ctx : Ctx) (name : bytes) (args : list Value) s : result Value * Srv A Au :=
  let '(start, s) := begin s in
  match h ctx args (call_monitor r ctx name args s) with
  | (Ok reply, s) => call_read_hook r ctx name args reply (log_slow name args start s)
  | x => x
  end.

Definition Dispatch (r : Router) (ctx : Ctx) (cmd : Value) s : result Value * Srv A Au :=
  match cmd with
  | VArray (Some (e0 :: args)) =>
      match cmdName e0 with
      | None => (Ok (errS "ERR invalid command name"), s)
      | Some name =>
          let readonly := sv_readonly s && bool_decide (name ∈ writeCmds r) in
          match (match intercept r with Some f => f ctx cmd s | None => (Ok None, s) end) with
          | (Ok (Some reply), s) => (Ok reply, count_command s)
          | (Err e, s) => (Err e, s)
          | (Panic, s) => (Panic, s)
          | (Ok None, s) =>
              match auth_gate ctx name args s with
              | (Ok (Some reply), s) => (Ok reply, s)
              | (Err e, s) => (Err e, s)
              | (Panic, s) => (Panic, s)
              | (Ok None, s) =>
                  match handlers r !! name with
                  | None => (Ok (UnknownCommandReply e0 args), count_command s)
                  | Some h =>
                      if readonly then (Ok (errS "READONLY You can't write against a read only replica."), count_command s)
                      else run_handler r h ctx name args s
                  end
              end
          end
      end
  | _ => (Ok (errS "ERR wrong number of arguments for '' command"), s)
  end.
End router.
Arguments Handler : clear implicits. Arguments InterceptFunc : clear implicits. Arguments Router : clear implicits.

(** ** The slow log *)

Definition add_slow (s : Stats) (a : Z * bytes * list bytes * Z) : Stats :=
  let '(time, cmd, args, micros) := a in AddSlow s time cmd args micros.
Definition slow_entry (i : nat) (a : Z * bytes * list bytes * Z) : SlowEntry :=
  let '(time, cmd, args, micros) := a in mkSlow (Z.of_nat i + 1) time micros cmd args.

Lemma keep_last {X} (l : list X) (x : X) (m : Z) :
  0 <= m -> let l' := drop (length l - Z.to_nat m) l ++ [x] in
  (if m <? len l' then drop (Z.to_nat (len l' - m)) l' else l') = drop (length (l ++ [x]) - Z.to_nat m) (l ++ [x]).
Proof.
  intros Hm. cbn zeta. unfold len. rewrite !length_app, length_drop. cbn [length].
  destruct (decide (length l < Z.to_nat m)%nat) as [Hlt|Hge].
  - rewrite (proj2 (Z.ltb_ge _ _)) by lia. replace (length l - Z.to_nat m)%nat with 0%nat by lia.
    by replace (length l + 1 - Z.to_nat m)%nat with 0%nat by lia.
  - rewrite (proj2 (Z.ltb_lt _ _)) by lia. destruct (decide (m = 0)) as [->|Hm0].
    + rewrite !drop_ge; [done|..]; rewrite ?length_app, ?length_drop; cbn [length]; lia.
    + rewrite !drop_app_le by (rewrite ?length_drop; lia). rewrite drop_drop. f_equal. f_equal. lia.
Qed.

(** The slow log holds the latest entries: from an empty log, any number of
    additions (fewer than 2^63) leave the last ones, at most the maximum, in
    order and with consecutive numbers up to the number of additions. *)
Theorem slowlog_keeps_latest adds s0 :
  slow s0 = [] -> slowNextID s0 = 0 -> 0 <= slowMaxLen s0 -> len adds < 2 ^ 63 ->
  let s := foldl add_slow s0 adds in
  slow s = drop (length adds - Z.to_nat (slowMaxLen s0)) (imap slow_entry adds) /\
  slowNextID s = len adds /\ slowMaxLen s = slowMaxLen s0.
Proof.
  intros Hs Hn Hm. cbv zeta. induction adds as [|[[[ti cm] ar] mi] l IH] using rev_ind; intros Hb.
  { cbn [foldl imap]. by rewrite Hs, Hn, drop_nil. }
  unfold len in Hb. rewrite length_app in Hb. cbn [length] in Hb. rewrite foldl_app. cbn [foldl].
  destruct IH as (E1 & E2 & E3); [unfold len; lia|]. unfold add_slow at 1 3 5. unfold AddSlow, set_slow. cbn [slow slowNextID slowMaxLen].
  rewrite E2, E3, i64_id by (unfold is_i64, len; lia). rewrite <- (length_imap slow_entry l) in E1. rewrite E1, imap_app. cbn [imap].
  rewrite keep_last by done. split; [|split; [|done]].
  - rewrite !length_app, length_imap. cbn [length compose slow_entry]. unfold compose, slow_entry, len. repeat f_equal; lia.
  - unfold len. rewrite length_app. cbn [length]. lia.
Qed.

(** ** Interceptors *)

(** Interceptors registered one after the other are tried in that order, and the
    first that answers, or panics, decides. *)
Fixpoint first_intercept {A Au} (fs : list (InterceptFunc A Au)) : InterceptFunc A Au := fun ctx cmd s =>
  match fs with
  | [] => (Ok None, s)
  | f :: fs => match f ctx cmd s with (Ok None, s) => first_intercept fs ctx cmd s | x => x end
  end.

Lemma first_intercept_app {A Au} (fs gs : list (InterceptFunc A Au)) ctx cmd s :
  first_intercept (fs ++ gs) ctx cmd s =
  match first_intercept fs ctx cmd s with (Ok None, s) => first_intercept gs ctx cmd s | x => x end.
Proof. revert s. induction fs as [|f fs IH]; intros s; cbn; [done|]. destruct (f ctx cmd s) as [[[v|]|e|] s']; done. Qed.

Theorem chain_tries_in_order {A Au} (r : Router A Au) fs :
  intercept r = None -> fs <> [] ->
  exists g, intercept (foldl ChainIntercept r fs) = Some g /\ forall ctx cmd s, g ctx cmd s = first_intercept fs ctx cmd s.
Proof.
  intros Hr. induction fs as [|h l IH] using rev_ind; [done|]. intros _. rewrite foldl_app. cbn [foldl]. unfold ChainIntercept at 1.
  destruct l as [|h' l].
  - cbn [foldl]. rewrite Hr. eexists. split; [done|]. intros ctx cmd s. cbn. by destruct (h ctx cmd s) as [[[]| |] ?].
  - destruct IH as (g & -> & Hg); [done|]. eexists. split; [done|]. intros ctx cmd s. unfold chained. rewrite Hg, first_intercept_app.
    destruct (first_intercept (h' :: l) ctx cmd s) as [[[]| |] s']; try done. cbn. by destruct (h ctx cmd s') as [[[]| |] ?].
Qed.

(** ** What a dispatch can do to the application's state *)

Section effects.
Context {A Au : Type} `{AuthorizerStore Au} `{AppClock A} `{GoUnicode}.
Implicit Types s : Srv A Au.
Variable t : acl.metas.
Variable R : A -> A -> Prop.
Context `{!PreOrder R}.
Hypothesis clock_R : forall a, R a (app_now a).2.

Lemma read_now_R s : R (app s) (app (read_now s).2).
Proof. unfold read_now. pose proof (clock_R (app s)). by destruct (app_now (app s)). Qed.

Lemma auth_gate_R ctx name args s : R (app s) (app (auth_gate t ctx name args s).2).
Proof.
  unfold auth_gate. destruct (sv_auth s) as [au|]; [|done]. destruct (negb _ || _); [done|].
  destruct (_ && _); [done|]. destruct (extractKeys t name args) as [keys| |]; [|done..].
  destruct (au_check _ _ _ _ _) as [[msg|]| |]; [|done..].
  pose proof (read_now_R (count_command s)) as Hr. by destruct (read_now (count_command s)).
Qed.

Lemma log_slow_R name args start s : R (app s) (app (log_slow name args start s)).
Proof.
  unfold log_slow. destruct (sv_stats s) as [st|]; [|done]. pose proof (read_now_R s) as E1. destruct (read_now s) as [ns s1].
  destruct (_ && _); [|done]. pose proof (read_now_R s1) as E2. destruct (read_now s1) as [ns2 s2]. by transitivity (app s1).
Qed.

Lemma begin_R s : R (app s) (app (begin s).2).
Proof. unfold begin. destruct (sv_stats s); [|done]. apply (read_now_R (count_command s)). Qed.

Definition hook_R {X} (f : option (Ctx -> bytes -> X -> Srv A Au -> Srv A Au)) : Prop :=
  match f with Some f => forall ctx name x s, R (app s) (app (f ctx name x s)) | None => True end.

Lemma run_handler_R (r : Router A Au) h ctx name args s :
  (forall args s, R (app s) (app (h ctx args s).2)) -> hook_R (monitorHook r) -> hook_R (readHook r) ->
  R (app s) (app (run_handler t r h ctx name args s).2).
Proof.
  intros Hh Hm Hr. unfold run_handler. pose proof (begin_R s) as E1. destruct (begin s) as [start s1]. cbn in E1.
  assert (R (app s) (app (call_monitor r ctx name args s1))) as E2.
  { unfold call_monitor, hook_R in *. destruct (monitorHook r); [|done]. by transitivity (app s1). }
  set (s2 := call_monitor _ _ _ _ _) in *.
  pose proof (Hh args s2) as E3. destruct (h ctx args s2) as [[v|e|] s3]; cbn in E3; [|by transitivity (app s2)..].
  pose proof (log_slow_R name args start s3) as E4. set (s4 := log_slow _ _ _ _) in *.
  assert (R (app s) (app s4)) as E5 by (transitivity (app s2); [done|]; by transitivity (app s3)).
  unfold call_read_hook, hook_R in *. destruct (readHook r) as [f|]; [|done]. destruct (_ || _); [done|].
  destruct (extractKeys t name args) as [[|k ks]| |]; try done. cbn. by transitivity (app s4).
Qed.

(** A relation the clock, the hooks, the interceptor and every handler respect
    is respected by every dispatch in the context. *)
Lemma Dispatch_R (r : Router A Au) ctx cmd s :
  (forall name h, handlers r !! name = Some h -> forall args s, R (app s) (app (h ctx args s).2)) ->
  (forall f, intercept r = Some f -> forall s, R (app s) (app (f ctx cmd s).2)) ->
  hook_R (monitorHook r) -> hook_R (readHook r) ->
  R (app s) (app (Dispatch t r ctx cmd s).2).
Proof.
  intros Hh Hi Hm Hr. unfold Dispatch. destruct cmd as [| | | |[[|e0 args]|]| | | | | | | | | | | ]; try done.
  destruct (cmdName e0) as [name|]; [|done]. cbn zeta. set (cmd := VArray _) in *. set (x := match intercept r with Some f => f ctx cmd s | None => (Ok None, s) end).
  assert (R (app s) (app x.2)) as E1 by (unfold x; destruct (intercept r); [by apply Hi|done]).
  destruct x as [[[v|]|e|] s1]; cbn in E1 |- *; try done.
  pose proof (auth_gate_R ctx name args s1) as E2. destruct (auth_gate t ctx name args s1) as [[[v|]|e|] s2]; cbn in E2 |- *;
    try (by transitivity (app s1)).
  assert (R (app s) (app s2)) as E3 by (by transitivity (app s1)).
  destruct (handlers r !! name) as [h|] eqn:Eh; [|done]. destruct (_ && _); [done|].
  transitivity (app s2); [done|]. apply run_handler_R; [by apply (Hh name)|done..].
Qed.
End effects.

(** ** Admission *)

(** The access control lists as the router's user table. *)
Definition acl_authorizer `{GoUnicode} (t : acl.metas) : AuthorizerStore acl.Store :=
  {| au_restricted := acl.HasRestrictedUsers;
     au_requires := acl.DefaultRequiresAuth;
     au_check := fun st user cmd keys channels =>
       let? r := acl.Check_ t st user cmd keys channels in Ok (acl.dMsg <$> r);
     au_log := acl.LogDenied |}.

Section admission.
Context {A : Type} `{AppClock A} `{GoUnicode}.
Variable t : acl.metas.
Local Instance acl_au : AuthorizerStore acl.Store := acl_authorizer t.
Implicit Types s : Srv A acl.Store.

(** The gate is open for the command, or the connection's user (the default
    one before a login, when it needs none) is allowed to run it. *)
Definition admitted (ctx : Ctx) (name : bytes) (args : list Value) (keys : list bytes) (st : acl.Store) (u : acl.User) : Prop :=
  acl.HasRestrictedUsers st = false \/ isAuthExempt name = true \/
  ((login ctx <> None \/ acl.DefaultRequiresAuth st = false) /\ acl.allows t u name keys (extractChannels name args)).

(** The interceptors leave the frame alone. *)
Definition passes (r : Router A acl.Store) (ctx : Ctx) (cmd : Value) s : Prop :=
  match intercept r with None => True | Some f => f ctx cmd s = (Ok None, s) end.

Lemma gate_admission ctx name args s st u keys :
  sv_auth s = Some st -> extractKeys t name args = Ok keys ->
  acl.users st !! default acl.DefaultUser (login ctx) = Some u ->
  (admitted ctx name args keys st u -> auth_gate t ctx name args s = (Ok None, s)) /\
  (~ admitted ctx name args keys st u -> exists msg s', auth_gate t ctx name args s = (Ok (Some (VError msg)), s') /\
     (app s' = app s \/ app s' = (app_now (app s)).2) /\ sv_stats s' = incCommands <$> sv_stats s /\
     sv_readonly s' = sv_readonly s /\ acl.users <$> sv_auth s' = Some (acl.users st)).
Proof.
  intros Hst Hk Hu. unfold auth_gate, admitted. rewrite Hst. cbn [au_restricted acl_au acl_authorizer].
  destruct (acl.HasRestrictedUsers st); cbn [negb orb]; [|split; [done|naive_solver]].
  destruct (isAuthExempt name); [split; [done|naive_solver]|]. cbn [au_requires acl_au acl_authorizer].
  destruct (bool_decide (login ctx = None) && acl.DefaultRequiresAuth st) eqn:El.
  - apply andb_true_iff in El as [El1%bool_decide_eq_true El2]. split; [intros [|[|[[|] _]]]; congruence|]. intros _.
    eexists _, _. split; [reflexivity|]. cbn. rewrite Hst. auto.
  - assert (login ctx <> None \/ acl.DefaultRequiresAuth st = false) as Hl.
    { apply andb_false_iff in El as [El%bool_decide_eq_false|El]; auto. }
    rewrite Hk. cbn [au_check acl_au acl_authorizer].
    destruct (acl.Check_user t st _ u name keys (extractChannels name args) Hu) as (d & -> & Hd). cbn [res_bind].
    destruct d as [d|]; cbn [fmap option_fmap option_map].
    + split; [naive_solver|]. intros _. unfold read_now, count_command. cbn [app]. destruct (app_now (app s)) as [ns a'].
      eexists _, _. split; [reflexivity|]. cbn. auto.
    + split; [done|]. intros Hn. exfalso. apply Hn. right. right. split; [done|]. by apply Hd.
Qed.

End admission.

(** ** Concrete runs *)

Definition zero_clock : AppClock unit := {| app_now := fun a => (0, a) |}.

(** PING, and a GET that answers a constant. *)
Definition demo_router : Router unit acl.Store :=
  @Register _ _ ascii_tables (@DefaultRouter _ _ ascii_tables) (lit "get") (fun _ _ s => (Ok (BulkOf (lit "v")), s)).
Definition demo_metas : acl.metas :=
  {[lit "GET" := acl.mkMeta (lit "GET") (lit "string") true (acl.mkKeySpec 0 0 1 None)]}.
Definition demo_srv : Srv unit acl.Store := mkSrv () (Some acl.reader_store) (Some NewStats) false.
Definition bob : Ctx := mkCtx (Some (lit "bob")) None false.
Definition get_of (k : string) : list Value := [BulkOf (lit k)].


Lemma slowlog_keeps_latest_witness :
  let s := foldl add_slow NewStats [(1, lit "get", [lit "k"], 20000); (2, lit "set", [], 30000)] in
  slow s = drop (2 - Z.to_nat 128) (imap slow_entry [(1, lit "get", [lit "k"], 20000); (2, lit "set", [], 30000)]) /\
  slowNextID s = 2 /\ slowMaxLen s = 128.
Proof.
  apply (slowlog_keeps_latest [(1, lit "get", [lit "k"], 20000); (2, lit "set", [], 30000)] NewStats);
    first [reflexivity | vm_compute; discriminate].
Defined.

End network.
