(* ===== verification/Arity.v ===== *)
(** * Command arities (src/internal/commands/arity.go)

    The number of words of each command, the name included: exact when positive,
    at least its magnitude when negative. *)

From S2P Require Import Prelude.
Open Scope Z_scope.
Open Scope gedis_scope.

Definition CommandArity : list (string * Z) :=
  [("ACL", -2); ("APPEND", 3); ("ASKING", 1); ("AUTH", -2); ("BGREWRITEAOF", 1); ("BGSAVE", 1);
   ("BITCOUNT", -2); ("BITFIELD", -2); ("BITFIELD_RO", -2); ("BITOP", -4); ("BITPOS", -3); ("BLMOVE", 6);
   ("BLMPOP", -5); ("BLPOP", -3); ("BRMPOP", -5); ("BRPOP", -3); ("BRPOPLPUSH", 4); ("BZMPOP", -5);
   ("BZPOPMAX", -3); ("BZPOPMIN", -3); ("CLUSTER", -2); ("COMMAND", -2); ("CONFIG", -2); ("COPY", -3);
   ("CLIENT", -2); ("DBSIZE", 1); ("DEBUG", -2); ("DECR", 2); ("DECRBY", 3); ("DEL", -2); ("DISCARD", 1);
   ("EXEC", 1); ("EXISTS", -2); ("EXPIRE", -3); ("EXPIREAT", -3); ("EXPIRETIME", 2); ("ECHO", 2); ("EVAL", -3);
   ("EVALSHA", -3); ("FAILOVER", 1); ("FCALL", -3); ("FCALL_RO", -3); ("FLUSHALL", -1); ("FLUSHDB", -1);
   ("FUNCTION", -2); ("GEOADD", -5); ("GEODIST", -4); ("GEOHASH", -3); ("GEOPOS", -2); ("GEORADIUS", -6);
   ("GEORADIUSBYMEMBER", -5); ("GEORADIUSBYMEMBER_RO", -5); ("GEORADIUS_RO", -6); ("GEOSEARCH", -7);
   ("GEOSEARCHSTORE", -8); ("GET", 2); ("GETBIT", 3); ("GETDEL", 2); ("GETEX", -2); ("GETRANGE", 4);
   ("GETSET", 3); ("HDEL", -3); ("HEXISTS", 3); ("HEXPIRE", -5); ("HEXPIREAT", -5); ("HEXPIRETIME", -3);
   ("HGET", 3); ("HGETALL", 2); ("HELLO", -1); ("HINCRBY", 4); ("HINCRBYFLOAT", 4); ("HKEYS", 2); ("HLEN", 2);
   ("HMGET", -3); ("HMSET", -4); ("HPERSIST", -3); ("HPEXPIRE", -5); ("HPEXPIREAT", -5); ("HPEXPIRETIME", -3);
   ("HPTTL", -3); ("HRANDFIELD", -2); ("HSCAN", -3); ("HSET", -4); ("HSETNX", 4); ("HSTRLEN", 3); ("HTTL", -3);
   ("HVALS", 2); ("INCR", 2); ("INCRBY", 3); ("INCRBYFLOAT", 3); ("INFO", -1); ("KEYS", 2); ("LASTSAVE", 1);
   ("LATENCY", -2); ("LCS", -3); ("LINDEX", 3); ("LINSERT", 5); ("LLEN", 2); ("LMOVE", 5); ("LMPOP", -4);
   ("LPOP", -2); ("LPOS", -3); ("LPUSH", -3); ("LRANGE", 4); ("LREM", 4); ("LSET", 4); ("LTRIM", 4);
   ("MEMORY", -2); ("MGET", -2); ("MSET", -3); ("MSETNX", -3); ("MOVE", 3); ("MULTI", 1); ("MONITOR", 1);
   ("OBJECT", -2); ("PERSIST", 2); ("PEXPIRE", -3); ("PEXPIREAT", -3); ("PEXPIRETIME", 2); ("PFADD", -2);
   ("PFCOUNT", -2); ("PFMERGE", -2); ("VADD", -5); ("VCARD", 2); ("VDIM", 2); ("VEMB", 3); ("VREM", 3);
   ("VRANDMEMBER", -2); ("VSIM", -4); ("PING", -1); ("PSUBSCRIBE", -2); ("PSYNC", -3); ("PSETEX", 4);
   ("PUBLISH", 3); ("PTTL", 2); ("PUBSUB", -2); ("PUNSUBSCRIBE", -1); ("SPUBLISH", 3); ("QUIT", 1);
   ("RANDOMKEY", 1); ("READONLY", 1); ("READWRITE", 1); ("RENAME", 3); ("RENAMENX", 3); ("REPLICAOF", 3);
   ("REPLCONF", -2); ("RESET", 1); ("ROLE", 1); ("RPOP", -2); ("RPOPLPUSH", 3); ("RPUSH", -3); ("SADD", -3);
   ("SAVE", 1); ("SCAN", -2); ("SCARD", 2); ("SCRIPT", -2); ("SDIFF", -2); ("SDIFFSTORE", -3); ("SELECT", 2);
   ("SET", -3); ("SETBIT", 4); ("SETEX", 4); ("SETNX", 3); ("SETRANGE", 4); ("SHUTDOWN", -1); ("SINTER", -2);
   ("SINTERCARD", -3); ("SINTERSTORE", -3); ("SISMEMBER", 3); ("SLAVEOF", 3); ("SLOWLOG", -2); ("SMEMBERS", 2);
   ("SMISMEMBER", -3); ("SMOVE", 4); ("SORT", -2); ("SORT_RO", -2); ("SPOP", -2); ("SRANDMEMBER", -2);
   ("SREM", -3); ("SSCAN", -3); ("STRLEN", 2); ("SUBSCRIBE", -2); ("SUBSTR", 4); ("SSUBSCRIBE", -2);
   ("SUNION", -2); ("SUNIONSTORE", -3); ("SWAPDB", 3); ("SYNC", 1); ("TIME", 1); ("TTL", 2); ("TOUCH", -2);
   ("TYPE", 2); ("UNLINK", -2); ("UNSUBSCRIBE", -1); ("SUNSUBSCRIBE", -1); ("UNWATCH", 1); ("WAIT", 3);
   ("WAITAOF", 4); ("WATCH", -2); ("XACK", -4); ("XADD", -5); ("XAUTOCLAIM", -6); ("XCLAIM", -6); ("XDEL", -3);
   ("XGROUP", -2); ("XINFO", -2); ("XLEN", 2); ("XPENDING", -3); ("XRANGE", -4); ("XREAD", -4);
   ("XREADGROUP", -7); ("XREVRANGE", -4); ("XSETID", -3); ("XTRIM", -4); ("ZADD", -4); ("ZCARD", 2);
   ("ZCOUNT", 4); ("ZDIFF", -3); ("ZDIFFSTORE", -4); ("ZINCRBY", 4); ("ZINTERCARD", -3); ("ZINTER", -3);
   ("ZINTERSTORE", -4); ("ZMSCORE", -3); ("ZMPOP", -4); ("ZPOPMAX", -2); ("ZPOPMIN", -2); ("ZRANDMEMBER", -2);
   ("ZRANGE", -4); ("ZRANGEBYLEX", -4); ("ZRANGEBYSCORE", -4); ("ZRANGESTORE", -5); ("ZRANK", -3);
   ("ZREM", -3); ("ZREMRANGEBYLEX", 4); ("ZREMRANGEBYRANK", 4); ("ZREMRANGEBYSCORE", 4); ("ZREVRANGE", -4);
   ("ZREVRANGEBYLEX", -4); ("ZREVRANGEBYSCORE", -4); ("ZREVRANK", -3); ("ZSCAN", -3); ("ZSCORE", 3);
   ("ZUNION", -3); ("ZUNIONSTORE", -4)]%string.

Definition commandArity : gmap bytes Z := list_to_map (map (fun '(n, a) => (lit n, a)) CommandArity).

(** [commandArity[name]]: zero for a name that is not there. *)
Definition arity_of (name : bytes) : Z := default 0 (commandArity !! name).

Definition checkArity (arity argc : Z) : bool := if 0 <? arity then argc =? arity else - arity <=? argc.
