(* ===== verification/Conn.v ===== *)
(** * Connection state and connection commands
    (src/internal/commands/conn.go, auth.go)

    A connection is its number; the pointers to its state that the registry
    hands out inside its lock are the entries of a map.  Looking a connection
    up creates its entry. *)

From S2P Require Import Prelude GoLib GoStrings Resp Cmd Acl Router Arity.
Open Scope Z_scope.
Open Scope gedis_scope.

Module conn.
Import network (Ctx, c_conn, connId).

(** ** The registry *)

Record TrackingCfg : Type := mkCfg { On : bool; BCast : bool; OptIn : bool; OptOut : bool; NoLoop : bool; Prefixes : list bytes }.
Definition no_tracking : TrackingCfg := mkCfg false false false false false [].

(** The fields of CLIENT TRACKING are one record. *)
Record ConnState : Type := mkState {
  ID : Z; Proto : Z; cName : bytes; LibName : bytes; LibVer : bytes; ReadOnly : bool; Track : TrackingCfg; CachingYes : bool;
}.

Record ConnRegistry : Type := mkConns { m : gmap Z ConnState; nextID : Z }.
Definition NewConnRegistry : ConnRegistry := mkConns ∅ 0.

Definition state (c : Z) (r : ConnRegistry) : ConnState * ConnRegistry :=
  match m r !! c with
  | Some st => (st, r)
  | None =>
      let st := mkState (nextID r + 1) 2 [] [] [] false no_tracking false in
      (st, mkConns (<[c := st]> (m r)) (nextID r + 1))
  end.

(** A change of the entry. *)
Definition update (c : Z) (f : ConnState -> ConnState) (r : ConnRegistry) : ConnRegistry :=
  let '(st, r) := state c r in mkConns (<[c := f st]> (m r)) (nextID r).

Definition IDOf (c : Z) (r : ConnRegistry) : Z * ConnRegistry := let '(st, r) := state c r in (ID st, r).
Definition ProtoOf (c : Z) (r : ConnRegistry) : Z * ConnRegistry := let '(st, r) := state c r in (Proto st, r).
Definition NameOf (c : Z) (r : ConnRegistry) : bytes * ConnRegistry := let '(st, r) := state c r in (cName st, r).
Definition LibInfoOf (c : Z) (r : ConnRegistry) : (bytes * bytes) * ConnRegistry := let '(st, r) := state c r in ((LibName st, LibVer st), r).
Definition TrackingOf (c : Z) (r : ConnRegistry) : TrackingCfg * ConnRegistry := let '(st, r) := state c r in (Track st, r).
Definition CachingYesOf (c : Z) (r : ConnRegistry) : bool * ConnRegistry := let '(st, r) := state c r in (CachingYes st, r).

(** The first entry with the id; ids are distinct. *)
Definition ConnByID (id : Z) (r : ConnRegistry) : option Z :=
  fst <$> List.find (fun x : Z * ConnState => ID x.2 =? id) (map_to_list (m r)).

Definition SetProto (c v : Z) : ConnRegistry -> ConnRegistry :=
  update c (fun s => mkState (ID s) v (cName s) (LibName s) (LibVer s) (ReadOnly s) (Track s) (CachingYes s)).
Definition SetConnReadOnly (c : Z) (v : bool) : ConnRegistry -> ConnRegistry :=
  update c (fun s => mkState (ID s) (Proto s) (cName s) (LibName s) (LibVer s) v (Track s) (CachingYes s)).
Definition SetName (c : Z) (v : bytes) : ConnRegistry -> ConnRegistry :=
  update c (fun s => mkState (ID s) (Proto s) v (LibName s) (LibVer s) (ReadOnly s) (Track s) (CachingYes s)).
Definition SetLibInfo (c : Z) (section v : bytes) : ConnRegistry -> ConnRegistry :=
  update c (fun s => if bytes_eqb section (lit "LIB-NAME")
                     then mkState (ID s) (Proto s) (cName s) v (LibVer s) (ReadOnly s) (Track s) (CachingYes s)
                     else mkState (ID s) (Proto s) (cName s) (LibName s) v (ReadOnly s) (Track s) (CachingYes s)).
Definition SetTracking (c : Z) (cfg : TrackingCfg) : ConnRegistry -> ConnRegistry :=
  update c (fun s => mkState (ID s) (Proto s) (cName s) (LibName s) (LibVer s) (ReadOnly s) cfg (CachingYes s)).
Definition SetCaching (c : Z) (v : bool) : ConnRegistry -> ConnRegistry :=
  update c (fun s => mkState (ID s) (Proto s) (cName s) (LibName s) (LibVer s) (ReadOnly s) (Track s) v).
Definition ConsumeCaching (c : Z) (r : ConnRegistry) : bool * ConnRegistry :=
  let '(v, r) := CachingYesOf c r in (v, SetCaching c false r).
Definition Reset_ (c : Z) : ConnRegistry -> ConnRegistry :=
  update c (fun s => mkState (ID s) (Proto s) [] [] [] (ReadOnly s) (Track s) (CachingYes s)).

Record ConnInfo : Type := mkInfo { iID : Z; iAddr : bytes; iName : bytes; iProto : Z }.
(** [addr]: the remote address of a connection; [range_conns]: the order in
    which the map is ranged over. *)
Definition Snapshot (addr : Z -> bytes) (range_conns : gmap Z ConnState -> list (Z * ConnState)) (r : ConnRegistry) : list ConnInfo :=
  map (fun x : Z * ConnState => mkInfo (ID x.2) (addr x.1) (cName x.2) (Proto x.2)) (range_conns (m r)).

(** ** Users (auth.go) *)

Class AuthStore (U : Type) : Type := { Authenticates : U -> bytes -> bytes -> bool; HasPass : U -> bytes -> bool }.
#[export] Instance acl_auth_store `{GoSha256} : AuthStore acl.Store := {| Authenticates := acl.Authenticate; HasPass := acl.HasPassword |}.

Notation AuthRegistry := (gmap Z bytes).
Definition UserOf (a : AuthRegistry) (c : Z) : bytes := default [] (a !! c).
Definition AuthClosed (a : AuthRegistry) (c : Z) : AuthRegistry := delete c a.

(** What the connection commands run on: entries, users, connections asked to
    close. *)
Record Conns : Type := mkAll { reg : ConnRegistry; auth : AuthRegistry; closing : gset Z }.
Definition set_reg (s : Conns) (r : ConnRegistry) : Conns := mkAll r (auth s) (closing s).

(** All arguments as text. *)
Fixpoint texts (args : list Value) : option (list bytes) :=
  match args with
  | [] => Some []
  | a :: rest => match argString a, texts rest with Some s, Some l => Some (s :: l) | _, _ => None end
  end.

Definition wrongpass : Value := errS "WRONGPASS invalid username-password pair or user is disabled.".

Section handlers.
Context {U : Type} `{AuthStore U} `{GoUnicode} (users : U).

(** The connection of the context, if there is one. *)
Definition on_conn (ctx : Ctx) (f : Z -> Conns -> Conns) (s : Conns) : Conns :=
  match c_conn ctx with Some c => f (connId c) s | None => s end.

Definition set_user (name : bytes) (c : Z) (s : Conns) : Conns := mkAll (reg s) (<[c := name]> (auth s)) (closing s).

Definition authCmd (ctx : Ctx) (args : list Value) (s : Conns) : Value * Conns :=
  let login (name pass : bytes) : Value * Conns :=
    if negb (Authenticates users name pass) then (wrongpass, s) else (okReply, on_conn ctx (set_user name) s) in
  match texts args with
  | Some [pass] =>
      if negb (HasPass users (lit "default"))
      then (errS "ERR AUTH <password> called with out any password configured for the default user.", s)
      else login (lit "default") pass
  | Some [name; pass] => login name pass
  | _ => (wrong_args "auth", s)
  end.

(** ** HELLO *)

Definition helloVersion (v : Value) : option Z :=
  match v with
  | VBulkString b => if bytes_eqb (default [] b) (lit "2") then Some 2 else if bytes_eqb (default [] b) (lit "3") then Some 3 else None
  | VInteger i => if (i =? 2) || (i =? 3) then Some i else None
  | _ => None
  end.

Definition isAuthWord (v : Value) : bool := match argString v with Some s => EqualFold s (lit "AUTH") | None => false end.

Definition hello_fields (ver : Z) : list (Value * Value) :=
  [(BulkOf (lit "server"), BulkOf (lit "gedis")); (BulkOf (lit "version"), BulkOf (lit "7.4.0")); (BulkOf (lit "proto"), VInteger ver);
   (BulkOf (lit "mode"), BulkOf (lit "standalone")); (BulkOf (lit "role"), BulkOf (lit "master")); (BulkOf (lit "modules"), VArray None)].
Definition helloReply (ver : Z) : Value :=
  if ver =? 3 then VMap (hello_fields ver) else VArray (Some (concat (map (fun p : Value * Value => [p.1; p.2]) (hello_fields ver)))).

(** The words after the version: each AUTH takes effect at once, the last name
    counts. *)
Fixpoint hello_words (fuel : nat) (ctx : Ctx) (rest : list Value) (name : bytes) (s : Conns) : (Value + bytes) * Conns :=
  match fuel, rest with
  | _, [] => (inr name, s)
  | O, _ => (inl (errS "fuel"), s)
  | S fuel, w :: rest =>
      match argString w with
      | None => (inl (errS "ERR syntax error"), s)
      | Some kw =>
          let u := ToUpper kw in
          if bytes_eqb u (lit "AUTH") then
            match rest with
            | a :: b :: rest =>
                match argString a, argString b with
                | Some user, Some pass =>
                    if negb (Authenticates users user pass) then (inl wrongpass, s)
                    else hello_words fuel ctx rest name (on_conn ctx (set_user user) s)
                | _, _ => (inl (errS "ERR syntax error"), s)
                end
            | _ => (inl (wrong_args "hello"), s)
            end
          else if bytes_eqb u (lit "SETNAME") then
            match rest with
            | a :: rest =>
                match argString a with
                | Some nm => hello_words fuel ctx rest nm s
                | None => (inl (errS "ERR syntax error"), s)
                end
            | _ => (inl (wrong_args "hello"), s)
            end
          else (inl (errS "ERR syntax error"), s)
      end
  end.

Definition hello (ctx : Ctx) (args : list Value) (s : Conns) : Value * Conns :=
  let go (ver : Z) (rest : list Value) : Value * Conns :=
    match hello_words (length rest) ctx rest [] s with
    | (inl e, s) => (e, s)
    | (inr name, s) =>
        (helloReply ver,
         on_conn ctx (fun c s => let r := SetProto c ver (reg s) in set_reg s (match name with [] => r | _ => SetName c name r end)) s)
    end in
  match args with
  | [] => go 3 []
  | a :: rest =>
      match helloVersion a with
      | Some v => go v rest
      | None => if isAuthWord a then go 3 args else (errS "NOPROTO unsupported protocol version", s)
      end
  end.

(** ** SELECT, SWAPDB, QUIT, ECHO, RESET, READONLY, READWRITE *)

Definition db_index (a : Value) : option Value :=
  match argString a with
  | None => Some err_int
  | Some s => match Atoi s with None => Some err_int | Some i => if i =? 0 then None else Some (errS "ERR DB index is out of range") end
  end.

Definition select_ (args : list Value) : Value :=
  match args with [a] => default okReply (db_index a) | _ => wrong_args "select" end.
Definition swapdb (args : list Value) : Value :=
  match args with
  | [a; b] => match db_index a with Some e => e | None => default okReply (db_index b) end
  | _ => wrong_args "swapdb"
  end.
Definition quit (ctx : Ctx) (args : list Value) (s : Conns) : Value * Conns :=
  match args with
  | [] => (okReply, on_conn ctx (fun c s => mkAll (reg s) (auth s) ({[c]} ∪ closing s)) s)
  | _ => (wrong_args "quit", s)
  end.
Definition echo (args : list Value) : Value :=
  match args with
  | [VBulkString b] => BulkOf (default [] b)
  | [VInteger i] => BulkOf (FormatInt i)
  | [_] => errS "ERR syntax error"
  | _ => wrong_args "echo"
  end.
Definition reset (ctx : Ctx) (args : list Value) (s : Conns) : Value * Conns :=
  match args with
  | [] => (VSimpleString (lit "RESET"), on_conn ctx (fun c s => set_reg s (Reset_ c (reg s))) s)
  | _ => (wrong_args "reset", s)
  end.
Definition set_readonly (name : string) (v : bool) (ctx : Ctx) (args : list Value) (s : Conns) : Value * Conns :=
  match args with
  | [] => (okReply, on_conn ctx (fun c s => set_reg s (SetConnReadOnly c v (reg s))) s)
  | _ => (wrong_args name, s)
  end.
Definition readonly := set_readonly "readonly" true.
Definition readwrite := set_readonly "readwrite" false.

(** ** COMMAND *)

(** The names in the handler table and the metadata of the commands. *)
Context (commands : list bytes) (t : acl.metas).

Definition commandHelpLines : list string := [
  "COMMAND <subcommand> [<arg> [value] [opt] ...]. Subcommands are:";
  "(no subcommand)";
  "    Return details about all Redis commands.";
  "COUNT";
  "    Return the total number of commands in this Redis server.";
  "LIST";
  "    Return a list of all commands in this Redis server.";
  "INFO [<command-name> ...]";
  "    Return details about multiple Redis commands.";
  "    If no command names are given, documentation details for all";
  "    commands are returned.";
  "DOCS [<command-name> ...]";
  "    Return documentation details about multiple Redis commands.";
  "    If no command names are given, documentation details for all";
  "    commands are returned.";
  "GETKEYS <full-command>";
  "    Return the keys from a full Redis command.";
  "GETKEYSANDFLAGS <full-command>";
  "    Return the keys and the access flags from a full Redis command.";
  "HELP";
  "    Print this help."]%string.
Definition commandHelp : Value := ArrayOf (map (fun s => VSimpleString (lit s)) commandHelpLines).

Definition arity_of (name : bytes) : Z := default 0 (commandArity !! name).

Definition commandEntry (name : bytes) : Value :=
  match acl.LookupMeta t name with
  | None => VNull
  | Some m =>
      let k := acl.mKeys m in
      let shown (x : Z) : Value := VInteger (if 0 <=? acl.First k then x else 0) in
      ArrayOf [BulkOf (ToLower name); VInteger (arity_of name); ArrayOf (if acl.mReadOnly m then [BulkOf (lit "readonly")] else []);
               shown (acl.First k); shown (acl.Last k); shown (acl.Step k); ArrayOf [BulkOf (lit "@" ++ acl.mCategory m)]]
  end.

Definition commandInfo (names : option (list bytes)) : Value :=
  ArrayOf (map (fun n => commandEntry (ToUpper n)) (match names with Some l => l | None => sortStrings commands end)).

Definition commandDocs : Value :=
  ArrayOf (omap (fun n =>
    match acl.LookupMeta t (ToUpper n) with
    | None => None
    | Some m =>
        Some (ArrayOf [BulkOf (ToLower n);
                       ArrayOf [BulkOf (lit "summary"); BulkOf []; BulkOf (lit "arity"); VInteger (arity_of (ToUpper n)); BulkOf (lit "group"); BulkOf (acl.mCategory m)]])
    end) (sortStrings commands)).

(** GETKEYS and GETKEYSANDFLAGS. *)
Definition get_keys (args : list Value) (name : string) (unknown : bytes -> Value) (reply : acl.Meta -> bytes -> Value) : result Value :=
  match args with
  | [] => Ok (VError (lit "ERR wrong number of arguments for 'command|" ++ lit name ++ lit "' command"))
  | a :: rest =>
      match argString a with
      | None => Ok (errS "ERR syntax error")
      | Some cmd =>
          match acl.LookupMeta t (ToUpper cmd) with
          | None => Ok (unknown cmd)
          | Some m =>
              match texts rest with
              | None => Ok (errS "ERR syntax error")
              | Some strs => let? keys := acl.ExtractKeys t (ToUpper cmd) strs in Ok (ArrayOf (map (reply m) keys))
              end
          end
      end
  end.

Definition command (args : list Value) : result Value :=
  let alone (rest : list Value) (name : string) (v : Value) : result Value :=
    match rest with [] => Ok v | _ => Ok (VError (lit "ERR wrong number of arguments for 'command|" ++ lit name ++ lit "' command")) end in
  match args with
  | [] => Ok (commandInfo None)
  | a :: rest =>
      match argString a with
      | None => Ok (errS "ERR syntax error")
      | Some sub =>
          let u := ToUpper sub in
          if bytes_eqb u (lit "COUNT") then alone rest "count" (VInteger (len commands))
          else if bytes_eqb u (lit "INFO") then
            match texts rest with None => Ok (errS "ERR syntax error") | Some names => Ok (commandInfo (Some names)) end
          else if bytes_eqb u (lit "DOCS") then alone rest "docs" commandDocs
          else if bytes_eqb u (lit "LIST") then
            match rest with
            | [] => Ok (ArrayOf (map (fun n => BulkOf (ToUpper n)) (sortStrings commands)))
            | b :: _ => Ok (VError (lit "ERR unknown argument '" ++ arg_or_empty b ++ lit "' for 'command|list' command"))
            end
          else if bytes_eqb u (lit "GETKEYS") then
            get_keys rest "getkeys" (fun cmd => VError (lit "ERR unknown command '" ++ cmd ++ lit "'")) (fun _ k => BulkOf k)
          else if bytes_eqb u (lit "GETKEYSANDFLAGS") then
            get_keys rest "getkeysandflags" (fun _ => errS "ERR Invalid command specified")
              (fun m k => ArrayOf [BulkOf k; ArrayOf [BulkOf (if acl.mReadOnly m then lit "RO access" else lit "RW access update")]])
          else if bytes_eqb u (lit "HELP") then alone rest "help" commandHelp
          else Ok (VError (lit "ERR unknown subcommand '" ++ sub ++ lit "'. Try COMMAND HELP."))
      end
  end.

End handlers.

(** ** Invariant: ids are distinct and below the counter *)

Record reg_ok (r : ConnRegistry) : Prop := {
  ro_inj : forall c1 c2 s1 s2, m r !! c1 = Some s1 -> m r !! c2 = Some s2 -> ID s1 = ID s2 -> c1 = c2;
  ro_bound : map_Forall (fun _ s => ID s <= nextID r) (m r);
}.

Lemma new_ok : reg_ok NewConnRegistry.
Proof. split; unfold NewConnRegistry; cbn [m nextID]; [intros c1 c2 s1 s2 H1; by rewrite lookup_empty in H1|apply map_Forall_empty]. Qed.

(** Looking up leaves the other entries alone; the entry found is there. *)
Lemma state_spec (c : Z) (r : ConnRegistry) : reg_ok r ->
  reg_ok (state c r).2 /\ m (state c r).2 !! c = Some (state c r).1 /\ (forall c', c' <> c -> m (state c r).2 !! c' = m r !! c') /\
  (forall st, m r !! c = Some st -> state c r = (st, r)).
Proof.
  intros [Hi Hb]. unfold state. destruct (m r !! c) as [st|] eqn:E; cbn [fst snd m nextID].
  - split_and!; [done|done|done|]. intros st' E'. congruence.
  - split_and!; [|apply lookup_insert_eq|intros c' Hc; by rewrite lookup_insert_ne|done]. split; cbn [m nextID].
    + intros c1 c2 s1 s2 [[-> <-]|[Hn1 H1]]%lookup_insert_Some [[-> <-]|[Hn2 H2]]%lookup_insert_Some Hid; cbn [ID] in *; [done|..|by eapply Hi].
      * specialize (Hb _ _ H2). cbn in Hb. lia.
      * specialize (Hb _ _ H1). cbn in Hb. lia.
    + apply map_Forall_insert_2; [cbn; lia|]. eapply map_Forall_impl; [exact Hb|]. cbn. lia.
Qed.

Lemma update_spec (c : Z) (f : ConnState -> ConnState) (r : ConnRegistry) : reg_ok r -> (forall s, ID (f s) = ID s) ->
  reg_ok (update c f r) /\ m (update c f r) !! c = Some (f (state c r).1) /\ (forall c', c' <> c -> m (update c f r) !! c' = m r !! c').
Proof.
  intros Hr Hf. destruct (state_spec c r Hr) as ([Hi Hb] & Hc & Ho & _). unfold update. destruct (state c r) as [st r']. cbn [fst snd m nextID] in *.
  split_and!; [|apply lookup_insert_eq|intros c' Hc'; rewrite lookup_insert_ne by done; by apply Ho]. split; cbn [m nextID].
  - intros c1 c2 s1 s2 [[-> <-]|[Hn1 H1]]%lookup_insert_Some [[-> <-]|[Hn2 H2]]%lookup_insert_Some Hid; rewrite ?Hf in *; [done|by eapply Hi..].
  - apply map_Forall_insert_2; [rewrite Hf; by apply (Hb c)|done].
Qed.

Lemma ConnByID_spec (r : ConnRegistry) (c : Z) (st : ConnState) : reg_ok r -> m r !! c = Some st -> ConnByID (ID st) r = Some c.
Proof.
  intros [Hi _] Hc. unfold ConnByID. destruct (List.find _ _) as [[c' s']|] eqn:E.
  - apply find_some in E as [Hin He]. apply list_elem_of_In, elem_of_map_to_list in Hin. cbn in He. breflect. cbn. f_equal. by eapply Hi.
  - exfalso. apply elem_of_map_to_list, list_elem_of_In in Hc. pose proof (find_none _ _ E _ Hc) as Hn. cbn in Hn. breflect. lia.
Qed.

End conn.
