(* ===== verification/CmdAcl.v ===== *)
(** * The ACL command (src/internal/commands/acl_cmd.go)

    The subcommands over the user table of [Acl], and that DRYRUN foretells
    the gate of the router.  The table of command metadata [t] is filled at
    start-up, [range_metas] is the order in which Go ranges over it;
    [rand_read] is crypto/rand; [saver] and [loader] are the hooks for the ACL
    file, absent when none is configured. *)

From S2P Require Import Prelude GoLib GoStrings GoPath Resp Cmd Acl Router Conn.
Open Scope Z_scope.
Open Scope gedis_scope.

Module aclcmd.
Import acl network.
Import conn (UserOf, texts).

(** ** Loading into the live table: what was read before an error stays *)

Section load.
Context `{GoUnicode} `{GoSha256}.

Definition line_error (i : Z) (e : goerr) : goerr := EMsg (lit "aclfile line " ++ FormatInt i ++ lit ": " ++ err_text e).
Fixpoint load_into (i : Z) (lines : list bytes) (s : Store) : option goerr * Store :=
  match lines with
  | [] => (None, s)
  | line :: rest =>
      let line := TrimSpace line in
      if bytes_eqb line [] || HasPrefix line (lit "#") then load_into (i + 1) rest s
      else match ParseLine line with
      | Err e => (Some (line_error i e), s)
      | Panic => (None, s)
      | Ok (name, rs) =>
          match SetUser s name rs with
          | Ok s => load_into (i + 1) rest s
          | Err e => (Some (line_error i e), s)
          | Panic => (None, s)
          end
      end
  end.
(** [file]: what reading the file gave. *)
Definition LoadFile (file : result bytes) (s : Store) : option goerr * Store :=
  match file with
  | Ok data => load_into 1 (SplitByte data "010"%char) s
  | Err e => (Some e, s)
  | Panic => (None, s)
  end.

Lemma load_into_lines (i : Z) (lines : list bytes) (s s' : Store) : load_lines lines s = Ok s' -> load_into i lines s = (None, s').
Proof.
  revert i s. induction lines as [|l lines IH]; intros i s; cbn [load_lines load_into]; [by intros [= ->]|].
  destruct (_ || _); [apply IH|]. destruct (ParseLine _) as [[n rs]| |]; cbn [res_bind]; [|done|done].
  destruct (SetUser s n rs) as [s1| |]; cbn [res_bind]; [apply IH|done|done].
Qed.

End load.

(** ** Reports *)

Definition describeUser (name : bytes) (sn : Snapshot) : bytes :=
  let parts := [lit "user"; name] ++ [lit (if snOn sn then "on" else "off")] in
  let parts := parts ++ (if snNoPass sn then [lit "nopass"] else if bytes_eqb (snPassHash sn) [] then [] else [lit "#" ++ snPassHash sn]) in
  let parts := parts ++ snRules sn ++ map (fun k => lit "~" ++ k) (snKeys sn) ++ map (fun c => lit "&" ++ c) (snChans sn) in
  Join (parts ++ map Inline (snSelectors sn)) (lit " ").

Definition bulks (l : list bytes) : Value := ArrayOf (map BulkOf l).

Definition renderSelectors (sels : list SelectorView) : Value :=
  ArrayOf (map (fun v => VMap [(BulkOf (lit "commands"), BulkOf (Join (vCommands v) (lit " ")));
                               (BulkOf (lit "keys"), bulks (vKeys v)); (BulkOf (lit "channels"), bulks (vChans v))]) sels).

Definition describeGetUser (sn : Snapshot) : Value :=
  ArrayOf [BulkOf (lit "flags"); bulks (lit (if snOn sn then "on" else "off") :: (if snNoPass sn then [lit "nopass"] else []));
           BulkOf (lit "passwords"); bulks (if bytes_eqb (snPassHash sn) [] then [] else [snPassHash sn]);
           BulkOf (lit "commands"); BulkOf (Join (snRules sn) (lit " "));
           BulkOf (lit "keys"); bulks (map (fun k => lit "~" ++ k) (snKeys sn));
           BulkOf (lit "channels"); bulks (map (fun c => lit "&" ++ c) (snChans sn));
           BulkOf (lit "selectors"); renderSelectors (snSelectors sn)].

Definition renderLog (log : list LogEntry) (n : Z) : Value :=
  let n := if len log <? n then len log else n in
  ArrayOf (map (fun e => bulks [FormatInt (lTime e); lClient e; lCmd e; lReason e]) (take (Z.to_nat n) log)).

Definition dryrunReason (username : bytes) (d : Denial) : bytes :=
  match dKind d with
  | DenyKey => lit "User " ++ username ++ lit " has no permissions to access the '" ++ dName d ++ lit "' key"
  | DenyChannel => lit "User " ++ username ++ lit " has no permissions to access the '" ++ dName d ++ lit "' channel"
  | DenyCommand => TrimPrefix (dMsg d) (lit "NOPERM ")
  end.

Definition dryrunChannels (cmd : bytes) (params : list bytes) : list bytes :=
  if existsb (bytes_eqb cmd) [lit "SUBSCRIBE"; lit "UNSUBSCRIBE"; lit "PSUBSCRIBE"; lit "PUNSUBSCRIBE"] then params
  else if bytes_eqb cmd (lit "PUBLISH") then match params with p :: _ => [p] | [] => [] end
  else [].

Definition aclHelpLines : list string := [
  "ACL <subcommand> [<arg> [value] [opt] ...]. Subcommands are:";
  "CAT [<category>]";
  "    List all commands that belong to <category>, or all command categories";
  "    when no category is specified.";
  "DELUSER <username> [<username> ...]";
  "    Delete a list of users.";
  "DRYRUN <username> <command> [<arg> ...]";
  "    Returns whether the user can execute the given command without executing the command.";
  "GETUSER <username>";
  "    Get the user's details.";
  "GENPASS [<bits>]";
  "    Generate a secure 256-bit user password. The optional `bits` argument can";
  "    be used to specify a different size.";
  "LIST";
  "    Show users details in config file format.";
  "LOAD";
  "    Reload users from the ACL file.";
  "LOG [<count> | RESET]";
  "    Show the ACL log entries.";
  "SAVE";
  "    Save the current config to the ACL file.";
  "SETUSER <username> <attribute> [<attribute> ...]";
  "    Create or modify a user with the specified attributes.";
  "USERS";
  "    List all the registered usernames.";
  "WHOAMI";
  "    Return the current connection username.";
  "HELP";
  "    Print this help."]%string.
Definition aclHelp : Value := ArrayOf (map (fun s => VSimpleString (lit s)) aclHelpLines).

(** The user of the context, else the one the connection logged in as. *)
Definition currentUser (ctx : Ctx) (reg : option (gmap Z bytes)) : bytes :=
  match login ctx with
  | Some name => name
  | None => match reg, c_conn ctx with Some reg, Some c => UserOf reg (connId c) | _, _ => [] end
  end.

(** ** The command *)

Section command.
Context `{GoUnicode} `{GoSha256} (t : metas) (range_metas : metas -> list Meta) (rand_read : Z -> result bytes).
Context (reg : option (gmap Z bytes)) (saver : option (Store -> option goerr)) (loader : option (Store -> option goerr * Store)).

Definition AllMetas : list Meta := range_metas t.

(** The values not seen before, in order. *)
Fixpoint distinct (seen : list bytes) (l : list bytes) : list bytes :=
  match l with
  | [] => []
  | c :: l => if bool_decide (c ∈ seen) then distinct seen l else c :: distinct (c :: seen) l
  end.

Definition aclCat (rest : list Value) : Value :=
  let usage : Value := errS "ERR unknown subcommand or wrong number of arguments for 'CAT'. Try ACL HELP." in
  match rest with
  | [] => bulks (sortStrings (distinct [] (map (fun m => ToLower (mCategory m)) AllMetas)))
  | [a] =>
      match argString a with
      | None => usage
      | Some cat =>
          match map (fun m => ToLower (mName m)) (List.filter (fun m => EqualFold (mCategory m) cat) AllMetas) with
          | [] => VError (lit "ERR Unknown category '" ++ cat ++ lit "'")
          | names => bulks (sortStrings names)
          end
      end
  | _ => usage
  end.

Definition aclGenpass (rest : list Value) : result Value :=
  let usage : Value := errS "ERR unknown subcommand or wrong number of arguments for 'GENPASS'. Try ACL HELP." in
  let generate (bits : Z) : result Value :=
    if (bits <=? 0) || (4096 <? bits)
    then Ok (errS "ERR ACL GENPASS argument must be the number of bits for the output password, a positive number up to 4096")
    else match rand_read (Z.quot (bits + 7) 8) with
    | Ok raw => let? s := slice (EncodeToString raw) 0 (Z.quot (bits + 3) 4) in Ok (BulkOf s)
    | Err e => Ok (VError (lit "ERR " ++ err_text e))
    | Panic => Panic
    end in
  match rest with
  | [] => generate 256
  | [a] =>
      match argString a with
      | None => Ok usage
      | Some s => match Atoi s with Some n => generate n | None => Ok (errS "ERR value is not an integer or out of range") end
      end
  | _ => Ok usage
  end.

(** The names are deleted one by one; an error ends the loop. *)
Fixpoint delete_users (names : list bytes) (n : Z) (s : Store) : Value * Store :=
  match names with
  | [] => (VInteger n, s)
  | name :: names =>
      let existed : bool := UserExists s name in
      match DelUser s name with
      | Ok s => delete_users names (if existed then n + 1 else n) s
      | Err e => (VError (lit "ERR " ++ err_text e), s)
      | Panic => (nilBulk, s)
      end
  end.

(** The names to delete: none of them is the user's own. *)
Fixpoint deluser_names (cur : bytes) (args : list Value) : list bytes + Value :=
  match args with
  | [] => inl []
  | a :: args =>
      match argString a with
      | None => inr (errS "ERR wrong number of arguments for 'acl|deluser' command")
      | Some s =>
          if bytes_eqb s cur && negb (bytes_eqb cur []) then inr (errS "ERR Cannot delete the current user")
          else match deluser_names cur args with inl names => inl (s :: names) | e => e end
      end
  end.

Definition acl_err (sub : string) : Value := VError (lit "ERR wrong number of arguments for 'acl|" ++ lit sub ++ lit "' command").

Definition setuser (rest : list Value) (s : Store) : Value * Store :=
  match rest with
  | [] => (acl_err "setuser", s)
  | _ =>
      match texts rest with
      | Some (name :: rules) =>
          match SetUser s name rules with
          | Ok s => (okReply, s)
          | Err e => (VError (lit "ERR " ++ err_text e), s)
          | Panic => (nilBulk, s)
          end
      | _ => (acl_err "setuser", s)
      end
  end.

Definition deluser (ctx : Ctx) (rest : list Value) (s : Store) : Value * Store :=
  match rest with
  | [] => (acl_err "deluser", s)
  | _ => match deluser_names (currentUser ctx reg) rest with inl names => delete_users names 0 s | inr v => (v, s) end
  end.

Definition dryrun (rest : list Value) (s : Store) : result Value :=
  match rest with
  | a :: (_ :: _) as cmdline =>
      match argString a with
      | None => Ok (acl_err "dryrun")
      | Some username =>
          if negb (UserExists s username) then Ok (VError (lit "ERR User '" ++ username ++ lit "' not found"))
          else match texts (drop 1 rest) with
          | Some (cmd :: params) =>
              let cmdName := ToUpper cmd in
              let? keys := ExtractKeys t cmdName params in
              let? d := Check_ t s username cmdName keys (dryrunChannels cmdName params) in
              Ok (match d with Some d => BulkOf (dryrunReason username d) | None => okReply end)
          | _ => Ok (acl_err "dryrun")
          end
      end
  | _ => Ok (acl_err "dryrun")
  end.

Definition acllog (rest : list Value) (s : Store) : Value * Store :=
  match rest with
  | [] => (renderLog (AclLog s) 10, s)
  | [a] =>
      match argString a with
      | None => (acl_err "log", s)
      | Some x =>
          if EqualFold x (lit "RESET") then (okReply, ResetLog s)
          else match Atoi x with
          | Some n => if n <? 0 then (errS "ERR value is not an integer or out of range", s) else (renderLog (AclLog s) n, s)
          | None => (errS "ERR value is not an integer or out of range", s)
          end
      end
  | _ => (acl_err "log", s)
  end.

Definition RegisterACL (ctx : Ctx) (args : list Value) (s : Store) : result Value * Store :=
  let same (v : Value) : result Value * Store := (Ok v, s) in
  let ok (r : Value * Store) : result Value * Store := (Ok r.1, r.2) in
  match args with
  | [] => same (wrong_args "acl")
  | a :: rest =>
      match argString a with
      | None => same (wrong_args "acl")
      | Some sub =>
          let u := ToUpper sub in
          let sub_is (x : string) : bool := bytes_eqb u (lit x) in
          let alone (name : string) (r : result Value * Store) : result Value * Store := match rest with [] => r | _ => same (acl_err name) end in
          if sub_is "LIST"%string then
            alone "list"%string (same (bulks (map (fun n => describeUser n (default (mkSnap false false [] [] [] [] []) (GetUser s n))) (Names s))))
          else if sub_is "USERS"%string then alone "users"%string (same (bulks (Names s)))
          else if sub_is "SETUSER"%string then ok (setuser rest s)
          else if sub_is "DELUSER"%string then ok (deluser ctx rest s)
          else if sub_is "GETUSER"%string then
            match rest with
            | [n] => same (match argString n with
                           | None => acl_err "getuser"
                           | Some name => match GetUser s name with Some sn => describeGetUser sn | None => VArray None end
                           end)
            | _ => same (acl_err "getuser")
            end
          else if sub_is "WHOAMI"%string then
            alone "whoami"%string (let cur := currentUser ctx reg in same (BulkOf (if bytes_eqb cur [] then lit "default" else cur)))
          else if sub_is "SAVE"%string then
            alone "save"%string (same (match saver with
              | None => errS "ERR There is no ACL file configured to save the users to."
              | Some save => match save s with Some e => VError (lit "ERR " ++ err_text e) | None => okReply end
              end))
          else if sub_is "DRYRUN"%string then (dryrun rest s, s)
          else if sub_is "LOG"%string then ok (acllog rest s)
          else if sub_is "CAT"%string then same (aclCat rest)
          else if sub_is "GENPASS"%string then (aclGenpass rest, s)
          else if sub_is "LOAD"%string then
            alone "load"%string (match loader with
              | None => same (errS "ERR This Redis instance is not configured to use an ACL file. You may want to specify users via the ACL SETUSER command and then issue a CONFIG REWRITE (assuming you have a Redis configuration file set) in order to store users in the Redis configuration.")
              | Some load => let '(e, s) := load s in (Ok (match e with Some e => VError (lit "ERR " ++ err_text e) | None => okReply end), s)
              end)
          else if sub_is "HELP"%string then alone "help"%string (same aclHelp)
          else same (VError (lit "ERR unknown subcommand '" ++ sub ++ lit "'. Try ACL HELP."))
      end
  end.

End command.
(** ** What DRYRUN foretells *)

Section gate.
Context {A : Type} `{AppClock A} `{GoUnicode} `{GoSha256} (t : metas).
#[local] Instance gate_users : AuthorizerStore Store := acl_authorizer t.

Lemma texts_bulk (args : list Value) (params : list bytes) : texts args = Some params -> bulkArgs args = params.
Proof.
  revert params. induction args as [|a args IH]; intros params; cbn [texts]; [by intros [= <-]|].
  unfold bulkArgs in *. cbn. destruct (argString a) as [x|]; [|done]. destruct (texts args) as [ps|]; [|done]. intros [= <-]. by rewrite (IH ps).
Qed.

Lemma channels_agree (name : bytes) (args : list Value) (params : list bytes) :
  texts args = Some params -> extractChannels name args = dryrunChannels name params.
Proof.
  intros Ht. unfold extractChannels, dryrunChannels. rewrite (texts_bulk args params Ht). destruct (existsb _ _); [done|].
  destruct (bytes_eqb _ _); [|done]. by destruct params.
Qed.

(** DRYRUN foretells the gate: for a user of a restricted table and a
    command that needs permission, DRYRUN answers OK exactly when the router
    lets a connection logged in as the user through with the command and
    changes nothing; it answers a reason exactly when the router refuses it
    with an error (for the command itself, the text of that error); and it
    fails in the extraction of the keys exactly when the router does. *)
Theorem dryrun_predicts_gate (ctx : Ctx) (a c : Value) (args : list Value) (username cmd : bytes) (params : list bytes) (s : Srv A Store) (st : Store) :
  sv_auth s = Some st -> HasRestrictedUsers st = true -> login ctx = Some username -> UserExists st username = true ->
  argString a = Some username -> argString c = Some cmd -> texts args = Some params -> isAuthExempt (ToUpper cmd) = false ->
  match dryrun t (a :: c :: args) st with
  | Ok v => (v = okReply /\ auth_gate t ctx (ToUpper cmd) args s = (Ok None, s)) \/
            (exists d msg s', v = BulkOf (dryrunReason username d) /\ auth_gate t ctx (ToUpper cmd) args s = (Ok (Some (VError msg)), s') /\
               msg = dMsg d /\ (users <$> sv_auth s') = Some (users st))
  | Err e => (auth_gate t ctx (ToUpper cmd) args s).1 = Err e
  | Panic => (auth_gate t ctx (ToUpper cmd) args s).1 = Panic
  end.
Proof.
  intros Hst Hr Hl Hu Ha Hc Ht Hx. unfold dryrun, auth_gate. rewrite Hst, Ha, Hu. cbn [negb drop texts]. rewrite Hc, Ht. cbv zeta.
  change (au_restricted st) with (HasRestrictedUsers st). rewrite Hr, Hx, Hl. cbn [negb orb]. rewrite bool_decide_eq_false_2 by done. cbn [andb default].
  unfold extractKeys. rewrite (texts_bulk args params Ht), (channels_agree _ args params Ht). destruct (ExtractKeys t _ params) as [keys|e|]; cbn [res_bind fst]; [|done|done].
  cbn [au_check gate_users acl_authorizer id]. destruct (Check_ t st username _ keys _) as [[d|]|e|]; cbn [res_bind fmap option_fmap option_map fst]; [|by left|done|done].
  right. unfold read_now, count_command. cbn [app]. destruct (app_now (app s)) as [ns ap]. exists d. eexists _, _. split_and!; [done|reflexivity|done|done].
Qed.

End gate.

(** SAVE, then LOAD after any changes: the saved users are back as they were. *)
Lemma load_restores `{GoUnicode} `{GoSha256} (t : metas) (range_metas : metas -> list Meta) (rand_read : Z -> result bytes) (reg : option (gmap Z bytes))
    (saver : option (Store -> option goerr)) (ctx : Ctx) (s s0 : Store) :
  map_Forall writable (users s) ->
  exists s', RegisterACL t range_metas rand_read reg saver (Some (LoadFile (Ok (Save s)))) ctx [BulkOf (lit "LOAD")] s0 = (Ok okReply, s') /\
    users s' = users s ∪ users s0 /\ log s' = log s0.
Proof.
  intros Hw. destruct (aclfile_roundtrip s s0 Hw) as (s' & E & Hs). exists s'. split; [|done].
  change (RegisterACL t range_metas rand_read reg saver (Some (LoadFile (Ok (Save s)))) ctx [BulkOf (lit "LOAD")] s0)
    with (let '(e, s) := LoadFile (Ok (Save s)) s0 in (Ok (match e with Some e => VError (lit "ERR " ++ err_text e) | None => okReply end), s) : result Value * Store).
  unfold LoadFile. unfold Load in E. by rewrite (load_into_lines 1 _ s0 s' E).
Qed.

Section examples.
#[local] Instance ac_ascii : GoUnicode := ascii_tables.
#[local] Instance ac_sha : GoSha256 := zero_sha.

Lemma dryrun_predicts_gate_witness :
  (BulkOf (lit "User bob has no permissions to access the 'x' key") = okReply /\ @auth_gate unit Store (acl_authorizer demo_metas) zero_clock ascii_tables demo_metas bob (lit "GET") (get_of "x") demo_srv = (Ok None, demo_srv)) \/
  (exists d msg s', BulkOf (lit "User bob has no permissions to access the 'x' key") = BulkOf (dryrunReason (lit "bob") d) /\
     @auth_gate unit Store (acl_authorizer demo_metas) zero_clock ascii_tables demo_metas bob (lit "GET") (get_of "x") demo_srv = (Ok (Some (VError msg)), s') /\ msg = dMsg d /\ (users <$> sv_auth s') = Some (users reader_store)).
Proof.
  exact (@dryrun_predicts_gate unit zero_clock ascii_tables demo_metas bob (BulkOf (lit "bob")) (BulkOf (lit "get")) (get_of "x")
    (lit "bob") (lit "get") [lit "x"] demo_srv reader_store eq_refl eq_refl eq_refl eq_refl eq_refl eq_refl eq_refl eq_refl).
Defined.

Definition run (words : list string) (s : Store) : result Value * Store :=
  RegisterACL demo_metas (fun m => map snd (map_to_list m)) (fun n => Ok (replicate (Z.to_nat n) "255"%char)) None None None bob (map (fun w => BulkOf (lit w)) words) s.

(** SETUSER makes the user anew: what it does not name is lost. *)
Example setuser_replaces :
  let s := (run ["setuser"; "al"; "on"; "nopass"; "+get"] NewStore).2 in
  Authenticate s (lit "al") [] = true /\ Authenticate (run ["setuser"; "al"; "+set"] s).2 (lit "al") [] = false.
Proof. vm_compute. done. Qed.

(** DELUSER of a list that ends in an error has deleted the users before it. *)
Example deluser_partial :
  let s := (run ["setuser"; "al"; "on"] NewStore).2 in
  let r := run ["deluser"; "al"; "default"] s in
  r.1 = Ok (errS "ERR acl: the 'default' user cannot be removed") /\ UserExists r.2 (lit "al") = false.
Proof. vm_compute. done. Qed.

(** A file with a bad line has changed the users above it; users the file does
    not name stay. *)
Example load_partial :
  let s := (run ["setuser"; "al"; "on"] NewStore).2 in
  let r := LoadFile (Ok (lit "user bo on" ++ ["010"%char] ++ lit "user cy maybe")) s in
  is_Some r.1 /\ Names r.2 = [lit "al"; lit "bo"; lit "default"].
Proof. vm_compute. split; [by eexists|done]. Qed.

Example genpass_length : (run ["genpass"; "5"] NewStore).1 = Ok (BulkOf (lit "ff")).
Proof. vm_compute. reflexivity. Qed.

End examples.
End aclcmd.
