(* ===== verification/Tracking.v ===== *)
(** * Client-side caching: tracking table, invalidation, outbound pipes
    (src/internal/commands/tracking.go, tracking_push.go, connpipe.go, the
    end of a connection in conn.go)

    Each function is one step: its locks make the table and the registry
    change at once.  The writer goroutine of a pipe is two steps of its own, a
    frame written and a failed write.  [hasPub]: whether a publisher for RESP2
    clients is installed. *)

From S2P Require Import Prelude GoLib GoStrings Resp Cmd CmdKeys Acl Router Arity Conn.
Open Scope Z_scope.
Open Scope gedis_scope.

(** ** The outbound pipe of a connection (connpipe.go) *)

Module connpipe.

Record ConnPipe : Type := mkPipe { ch : list bytes; closed : bool; dropped : Z }.
Definition connPipeBuf : nat := 1024.
Definition NewConnPipe : ConnPipe := mkPipe [] false 0.

Definition Enqueue (frame : bytes) (p : ConnPipe) : bool * ConnPipe :=
  if closed p then (false, p)
  else if (length (ch p) <? connPipeBuf)%nat then (true, mkPipe (ch p ++ [frame]) false (dropped p))
  else (false, mkPipe (ch p) true (dropped p + 1)).
Definition shutdown (p : ConnPipe) : ConnPipe := mkPipe (ch p) true (dropped p).

(** The writer takes the next frame; closing the channel leaves what it
    holds. *)
Definition writeLoop (p : ConnPipe) : option (bytes * ConnPipe) :=
  match ch p with [] => None | f :: rest => Some (f, mkPipe rest (closed p) (dropped p)) end.

(** A failed write ends the writer: what the channel holds is never sent. *)
Definition writeFail (p : ConnPipe) : ConnPipe :=
  match ch p with [] => p | _ => shutdown (mkPipe [] (closed p) (dropped p)) end.

Definition pipe_ok (p : ConnPipe) : Prop := (length (ch p) <= connPipeBuf)%nat.

Lemma Enqueue_ok (f : bytes) (p : ConnPipe) : pipe_ok p -> pipe_ok (Enqueue f p).2.
Proof.
  unfold pipe_ok, Enqueue. destruct (closed p); [done|]. destruct (_ <? _)%nat eqn:E; [|done].
  apply Nat.ltb_lt in E. cbn [snd ch]. rewrite length_app. cbn [length]. lia.
Qed.

End connpipe.

Module tracking.
Import network (Ctx, mkCtx, c_conn, connId).
Import conn connpipe.
Import keycmd (userKeyFromRaw).

(** ** The tracking table *)

Record TrackTable : Type := mkTable { fwd : gmap bytes (gset Z); rev : gmap Z (gset bytes); bcast : gmap Z (list bytes) }.
Definition NewTrackTable : TrackTable := mkTable ∅ ∅ ∅.

(** A missing set reads as empty. *)
Definition conns_of (t : TrackTable) (k : bytes) : gset Z := default ∅ (fwd t !! k).
Definition keys_of (t : TrackTable) (id : Z) : gset bytes := default ∅ (rev t !! id).

Definition Register_key (connID : Z) (t : TrackTable) (k : bytes) : TrackTable :=
  mkTable (<[k := {[connID]} ∪ conns_of t k]> (fwd t)) (<[connID := {[k]} ∪ keys_of t connID]> (rev t)) (bcast t).
Definition Register (connID : Z) (keys : list bytes) (t : TrackTable) : TrackTable := foldl (Register_key connID) t keys.

Definition forget (connID : Z) (f : gmap bytes (gset Z)) (k : bytes) : gmap bytes (gset Z) :=
  match f !! k with
  | None => f
  | Some m => let m := m ∖ {[connID]} in if decide (m = ∅) then delete k f else <[k := m]> f
  end.
Definition RemoveConn (connID : Z) (t : TrackTable) : TrackTable :=
  mkTable (foldl (forget connID) (fwd t) (elements (keys_of t connID))) (delete connID (rev t)) (delete connID (bcast t)).

Definition ConnsFor (key : bytes) (t : TrackTable) : list Z := isort Z.ltb (elements (conns_of t key)).
Definition KeysFor (connID : Z) (t : TrackTable) : list bytes := sortStrings (elements (keys_of t connID)).

Definition RegisterBcast (connID : Z) (prefixes : list bytes) (t : TrackTable) : TrackTable :=
  mkTable (fwd t) (rev t) (match prefixes with [] => delete connID (bcast t) | _ => <[connID := prefixes]> (bcast t) end).
Definition RemoveBcast (connID : Z) (t : TrackTable) : TrackTable := mkTable (fwd t) (rev t) (delete connID (bcast t)).
Definition BcastFor (key : bytes) (t : TrackTable) : list Z :=
  isort Z.ltb (map fst (List.filter (fun x : Z * list bytes => existsb (HasPrefix key) x.2) (map_to_list (bcast t)))).

(** ** The registry, the table, the pipes in use and what was published *)

Record Sys : Type := mkSys {
  conns : ConnRegistry; tracks : TrackTable; pipes : gmap Z ConnPipe; published : list (bytes * Value);
}.
Definition init : Sys := mkSys NewConnRegistry NewTrackTable ∅ [].
Definition set_conns (s : Sys) (r : ConnRegistry) : Sys := mkSys r (tracks s) (pipes s) (published s).
Definition set_tracks (s : Sys) (t : TrackTable) : Sys := mkSys (conns s) t (pipes s) (published s).
Definition set_pipes (s : Sys) (p : gmap Z ConnPipe) : Sys := mkSys (conns s) (tracks s) p (published s).

Definition untrack (c : Z) (s : Sys) : Sys :=
  let r := SetCaching c false (SetTracking c no_tracking (conns s)) in
  let '(id, r) := IDOf c r in
  set_tracks (set_conns s r) (RemoveConn id (tracks s)).

(** ** The read hook *)

Definition matching (prefixes : list bytes) (k : bytes) : bool := existsb (HasPrefix k) prefixes.

(** A slice that is not nil, as Dispatch passes it. *)
Definition read_hook (ctx : Ctx) (keys : list bytes) (s : Sys) : Sys :=
  match c_conn ctx with
  | None => s
  | Some cn =>
      let c := connId cn in
      let '(cfg, r) := TrackingOf c (conns s) in
      let s := set_conns s r in
      if negb (On cfg) || OptOut cfg || BCast cfg then s
      else
        let '(go, r) := if OptIn cfg then ConsumeCaching c (conns s) else (true, conns s) in
        let s := set_conns s r in
        if negb go then s
        else
          let reg := match Prefixes cfg with [] => keys | ps => List.filter (matching ps) keys end in
          match reg with
          | [] => s
          | _ => let '(id, r) := IDOf c (conns s) in set_tracks (set_conns s r) (Register id reg (tracks s))
          end
  end.

(** ** CLIENT TRACKING and CLIENT CACHING *)

Definition syntax : Value := errS "ERR syntax error".

Section handlers.
Context `{GoUnicode} `{GoFloat}.

(** The words after on or off.  A flag given twice in the same spelling is
    refused. *)
Fixpoint flags (args : list Value) (seen : gset bytes) (cfg : TrackingCfg) : option TrackingCfg :=
  match args with
  | [] => Some cfg
  | a :: rest =>
      match argString a with
      | None => None
      | Some tok =>
          let u := ToUpper tok in
          let flag (cfg : TrackingCfg) : option TrackingCfg :=
            if bool_decide (tok ∈ seen) then None else flags rest ({[tok]} ∪ seen) cfg in
          if bytes_eqb u (lit "BCAST") then flag (mkCfg (On cfg) true (OptIn cfg) (OptOut cfg) (NoLoop cfg) (Prefixes cfg))
          else if bytes_eqb u (lit "OPTIN") then flag (mkCfg (On cfg) (BCast cfg) true (OptOut cfg) (NoLoop cfg) (Prefixes cfg))
          else if bytes_eqb u (lit "OPTOUT") then flag (mkCfg (On cfg) (BCast cfg) (OptIn cfg) true (NoLoop cfg) (Prefixes cfg))
          else if bytes_eqb u (lit "NOLOOP") then flag (mkCfg (On cfg) (BCast cfg) (OptIn cfg) (OptOut cfg) true (Prefixes cfg))
          else if bytes_eqb u (lit "PREFIX") then
            match rest with
            | b :: rest =>
                match argString b with
                | None => None
                | Some p => flags rest seen (mkCfg (On cfg) (BCast cfg) (OptIn cfg) (OptOut cfg) (NoLoop cfg) (Prefixes cfg ++ [p]))
                end
            | [] => None
            end
          else None
      end
  end.

Definition connErr (what : string) : Value := VError (lit "ERR no connection for " ++ lit what).

Definition tracking_on (c : Z) (cfg : TrackingCfg) (s : Sys) : Sys :=
  let r := SetCaching c false (SetTracking c cfg (conns s)) in
  let '(id, r) := IDOf c r in
  set_tracks (set_conns s r)
    (if BCast cfg then RegisterBcast id (match Prefixes cfg with [] => [[]] | ps => ps end) (tracks s)
     else RemoveBcast id (tracks s)).

Definition tracking (ctx : Ctx) (args : list Value) (s : Sys) : Value * Sys :=
  match c_conn ctx with
  | None => (connErr "client tracking", s)
  | Some cn =>
      let c := connId cn in
      match args with
      | [] => (syntax, s)
      | a :: rest =>
          match argString a with
          | None => (syntax, s)
          | Some mode =>
              let on := EqualFold mode (lit "on") in
              if negb on && negb (EqualFold mode (lit "off")) then (syntax, s)
              else
                match flags rest ∅ (mkCfg on false false false false []) with
                | None => (syntax, s)
                | Some cfg =>
                    if OptIn cfg && OptOut cfg then (errS "ERR OPTIN and OPTOUT are not compatible", s)
                    else if negb on then (okReply, untrack c s)
                    else (okReply, tracking_on c cfg s)
                end
          end
      end
  end.

Definition caching (ctx : Ctx) (args : list Value) (s : Sys) : Value * Sys :=
  match c_conn ctx with
  | None => (connErr "client caching", s)
  | Some cn =>
      let c := connId cn in
      let '(cfg, r) := TrackingOf c (conns s) in
      let s := set_conns s r in
      if negb (On cfg) then (errS "ERR CLIENT CACHING can be called only when tracking is enabled", s)
      else match args with
      | [a] =>
          match argString a with
          | None => (syntax, s)
          | Some v =>
              if bytes_eqb (ToUpper v) (lit "YES") then (okReply, set_conns s (SetCaching c true (conns s)))
              else if bytes_eqb (ToUpper v) (lit "NO") then (okReply, set_conns s (SetCaching c false (conns s)))
              else (syntax, s)
          end
      | _ => (syntax, s)
      end
  end.

(** ** Invalidation *)

Definition dropPipe (c : Z) (s : Sys) : Sys := set_pipes s (delete c (pipes s)).

Definition push (c : Z) (frame : bytes) (s : Sys) : Sys :=
  let '(ok, p) := Enqueue frame (default NewConnPipe (pipes s !! c)) in
  let s := set_pipes s (<[c := p]> (pipes s)) in
  if ok then s else untrack c (dropPipe c s).

Definition push_frame (key : bytes) : bytes := Append [] (VPush (Some [BulkOf (lit "invalidate"); ArrayOf [BulkOf key]])).

(** The observers, each once, in order. *)
Definition observers (key : bytes) (t : TrackTable) : list Z := fold_left (fun acc id => if existsb (Z.eqb id) acc then acc else acc ++ [id]) (ConnsFor key t ++ BcastFor key t) [].

Fixpoint emit_to (frame : bytes) (skip : Z -> bool) (ids : list Z) (need : bool) (s : Sys) : bool * Sys :=
  match ids with
  | [] => (need, s)
  | id :: ids =>
      if skip id then emit_to frame skip ids need s
      else match ConnByID id (conns s) with
      | None => emit_to frame skip ids need s
      | Some target =>
          let '(proto, r) := ProtoOf target (conns s) in
          let s := set_conns s r in
          if 3 <=? proto then emit_to frame skip ids need (push target frame s) else emit_to frame skip ids true s
      end
  end.

Context (hasPub : bool).

Definition emit (ctx : Ctx) (rawKey : bytes) (s : Sys) : Sys :=
  let key := userKeyFromRaw rawKey in
  match key with
  | [] => s
  | _ =>
      match observers key (tracks s) with
      | [] => s
      | ids =>
          let '(writerID, writerNoLoop, r) :=
            match c_conn ctx with
            | None => (-1, false, conns s)
            | Some cn =>
                let '(id, r) := IDOf (connId cn) (conns s) in
                let '(cfg, r) := TrackingOf (connId cn) r in (id, NoLoop cfg, r)
            end in
          let '(needResp2, s) := emit_to (push_frame key) (fun id => (id =? writerID) && writerNoLoop) ids false (set_conns s r) in
          if needResp2 && hasPub
          then mkSys (conns s) (tracks s) (pipes s) (published s ++ [(lit "__redis__:invalidate", ArrayOf [BulkOf key])])
          else s
      end
  end.

(** The end of a connection (conn.go). *)
Definition ConnClosed (c : Z) (s : Sys) : Sys :=
  let s := match m (conns s) !! c with Some _ => untrack c s | None => s end in
  let s := dropPipe c s in
  set_conns s (mkConns (delete c (m (conns s))) (nextID (conns s))).

(** ** Events *)

Inductive connop : Type :=
| OpLookup | OpProto (v : Z) | OpName (n : bytes) | OpReadOnly (b : bool) | OpLib (section v : bytes) | OpReset.

Definition run_op (c : Z) (o : connop) (r : ConnRegistry) : ConnRegistry :=
  match o with
  | OpLookup => (IDOf c r).2
  | OpProto v => SetProto c v r
  | OpName n => SetName c n r
  | OpReadOnly b => SetConnReadOnly c b r
  | OpLib sec v => SetLibInfo c sec v r
  | OpReset => Reset_ c r
  end.

Inductive event : Type :=
| ETracking (ctx : Ctx) (args : list Value)
| ECaching (ctx : Ctx) (args : list Value)
| ERead (ctx : Ctx) (keys : list bytes)
| EChange (ctx : Ctx) (rawKey : bytes)
| EConn (c : Z) (o : connop)
| EWritten (c : Z)
| EWriteError (c : Z)
| EClose (c : Z).

Definition step (s : Sys) (e : event) : Sys :=
  match e with
  | ETracking ctx args => (tracking ctx args s).2
  | ECaching ctx args => (caching ctx args s).2
  | ERead ctx keys => read_hook ctx keys s
  | EChange ctx raw => emit ctx raw s
  | EConn c o => set_conns s (run_op c o (conns s))
  | EWritten c =>
      match pipes s !! c with
      | Some p =>
          match writeLoop p with Some (_, p) => set_pipes s (<[c := p]> (pipes s)) | None => s end
      | None => s
      end
  | EWriteError c => set_pipes s (alter writeFail c (pipes s))
  | EClose c => ConnClosed c s
  end.

Definition run (es : list event) (s : Sys) : Sys := foldl step s es.

End handlers.
End tracking.
