(* ===== verification/TrackingSpec.v ===== *)
(** * What client-side caching promises

    The table is a relation between connections and keys kept in two
    directions; [sys_ok] says that it is, that every row belongs to a live
    connection whose tracking is on, and that the broadcast prefixes are those
    the connection asked for.  Every sequence of events keeps it. *)

From S2P Require Import Prelude GoLib GoStrings Resp Cmd CmdKeys Acl Router Arity Conn Tracking.
Open Scope Z_scope.
Open Scope gedis_scope.

Module track_spec.
Import network (Ctx, mkCtx, c_conn, connId, Conn, mkConn).
Import conn connpipe tracking.
Import keycmd (userKeyFromRaw).

(** ** The table *)

Record table_ok (t : TrackTable) : Prop := {
  to_mirror : forall (k : bytes) (id : Z), id ∈ conns_of t k <-> k ∈ keys_of t id;
  to_fwd : map_Forall (fun _ x => x <> ∅) (fwd t);
  to_rev : map_Forall (fun _ x => x <> ∅) (rev t);
}.

Lemma conns_of_insert (f : gmap bytes (gset Z)) (r : gmap Z (gset bytes)) (b : gmap Z (list bytes)) (k k' : bytes) (x : gset Z) :
  conns_of (mkTable (<[k := x]> f) r b) k' = if decide (k' = k) then x else default ∅ (f !! k').
Proof. unfold conns_of; cbn [fwd]. case_decide; [subst; by rewrite lookup_insert_eq|by rewrite lookup_insert_ne]. Qed.

Lemma keys_of_insert (f : gmap bytes (gset Z)) (r : gmap Z (gset bytes)) (b : gmap Z (list bytes)) (id id' : Z) (x : gset bytes) :
  keys_of (mkTable f (<[id := x]> r) b) id' = if decide (id' = id) then x else default ∅ (r !! id').
Proof. unfold keys_of; cbn [rev]. case_decide; [subst; by rewrite lookup_insert_eq|by rewrite lookup_insert_ne]. Qed.

Lemma Register_key_spec (id : Z) (t : TrackTable) (k : bytes) : table_ok t ->
  table_ok (Register_key id t k) /\
  (forall id' k', k' ∈ keys_of (Register_key id t k) id' <-> (id' = id /\ k' = k) \/ k' ∈ keys_of t id') /\
  bcast (Register_key id t k) = bcast t.
Proof.
  intros [Hm Hf Hr]. unfold Register_key. split_and!; [split|..|done]; cbn [fwd rev bcast].
  - intros k' id'. rewrite conns_of_insert, keys_of_insert. specialize (Hm k' id'). unfold conns_of, keys_of in *.
    repeat case_decide; subst; set_solver.
  - apply map_Forall_insert_2; [set_solver|done].
  - apply map_Forall_insert_2; [set_solver|done].
  - intros id' k'. rewrite keys_of_insert. unfold keys_of. case_decide; subst; set_solver.
Qed.

Lemma Register_spec (id : Z) (ks : list bytes) (t : TrackTable) : table_ok t ->
  table_ok (Register id ks t) /\
  (forall id' k', k' ∈ keys_of (Register id ks t) id' <-> (id' = id /\ k' ∈ ks) \/ k' ∈ keys_of t id') /\
  bcast (Register id ks t) = bcast t.
Proof.
  unfold Register. revert t. induction ks as [|k ks IH]; intros t Ht; cbn [foldl].
  - split_and!; [done| |done]. set_solver.
  - destruct (Register_key_spec id t k Ht) as (H1 & H2 & H3). destruct (IH _ H1) as (H4 & H5 & H6).
    split_and!; [done| |congruence]. intros id' k'. rewrite H5, H2. set_solver.
Qed.

Lemma forget_spec (id : Z) (f : gmap bytes (gset Z)) (k k' : bytes) :
  default ∅ (forget id f k !! k') = if decide (k' = k) then default ∅ (f !! k) ∖ {[id]} else default ∅ (f !! k').
Proof.
  unfold forget. destruct (f !! k) as [x|] eqn:E; cbn [default].
  - destruct (decide (x ∖ {[id]} = ∅)) as [Hx|Hx]; case_decide; subst.
    + rewrite lookup_delete_eq. cbn. by symmetry.
    + by rewrite lookup_delete_ne.
    + by rewrite lookup_insert_eq.
    + by rewrite lookup_insert_ne.
  - case_decide; subst; [rewrite E; cbn; set_solver|done].
Qed.

Lemma forget_ne (id : Z) (f : gmap bytes (gset Z)) (k : bytes) :
  map_Forall (fun _ x => x <> ∅) f -> map_Forall (fun _ x => x <> ∅) (forget id f k).
Proof.
  intros Hf. unfold forget. destruct (f !! k) as [x|] eqn:E; [|done]. cbv zeta. case_decide.
  - by apply map_Forall_delete.
  - by apply map_Forall_insert_2.
Qed.

Lemma forget_all (id : Z) (ks : list bytes) (f : gmap bytes (gset Z)) (k : bytes) :
  default ∅ (foldl (forget id) f ks !! k) = if decide (k ∈ ks) then default ∅ (f !! k) ∖ {[id]} else default ∅ (f !! k).
Proof.
  revert f. induction ks as [|k1 ks IH]; intros f; cbn [foldl].
  - rewrite decide_False; [done|]. apply not_elem_of_nil.
  - rewrite IH, forget_spec. repeat case_decide; subst; set_solver.
Qed.

Lemma forget_all_ne (id : Z) (ks : list bytes) (f : gmap bytes (gset Z)) :
  map_Forall (fun _ x => x <> ∅) f -> map_Forall (fun _ x => x <> ∅) (foldl (forget id) f ks).
Proof. revert f. induction ks as [|k1 ks IH]; intros f Hf; cbn [foldl]; [done|]. by apply IH, forget_ne. Qed.

Lemma RemoveConn_spec (id : Z) (t : TrackTable) : table_ok t ->
  table_ok (RemoveConn id t) /\
  (forall id' k', k' ∈ keys_of (RemoveConn id t) id' <-> id' <> id /\ k' ∈ keys_of t id') /\
  bcast (RemoveConn id t) = delete id (bcast t).
Proof.
  intros [Hm Hf Hr].
  assert (forall id' k', k' ∈ keys_of (RemoveConn id t) id' <-> id' <> id /\ k' ∈ keys_of t id') as Hk.
  { intros id' k'. unfold keys_of, RemoveConn; cbn [rev]. destruct (decide (id' = id)) as [->|Hne].
    - rewrite lookup_delete_eq. cbn. set_solver.
    - rewrite lookup_delete_ne by done. set_solver. }
  split_and!; [split| |done]; [|by apply forget_all_ne|by apply map_Forall_delete|done].
  intros k' id'. rewrite Hk. unfold conns_of, RemoveConn; cbn [fwd]. rewrite forget_all. specialize (Hm k').
  pose proof (Hm id) as Hmi. specialize (Hm id'). unfold conns_of in *. case_decide as Hd; rewrite elem_of_elements in Hd; set_solver.
Qed.

(** ** The registry *)

Definition st_of (c : Z) (r : ConnRegistry) : ConnState := (state c r).1.

Lemma state_update (c : Z) (f : ConnState -> ConnState) (r : ConnRegistry) : state c (update c f r) = (f (st_of c r), update c f r).
Proof. unfold st_of, update. destruct (state c r) as [st r'] eqn:E. unfold state at 1. cbn [m fst]. by rewrite lookup_insert_eq. Qed.

Lemma update_update (c : Z) (f g : ConnState -> ConnState) (r : ConnRegistry) : update c g (update c f r) = update c (fun s => g (f s)) r.
Proof.
  unfold update at 1. rewrite state_update. unfold update, st_of. destruct (state c r) as [st r']. cbn [m nextID fst].
  by rewrite insert_insert_eq.
Qed.

Lemma st_of_lookup (c : Z) (r : ConnRegistry) (st : ConnState) : m r !! c = Some st -> st_of c r = st.
Proof. intros E. unfold st_of, state. by rewrite E. Qed.

(** A change of the registry that touches no tracking configuration: entries
    keep their id and their configuration, new ones track nothing. *)
Record keeps (r r' : ConnRegistry) : Prop := {
  ke_ok : reg_ok r -> reg_ok r';
  ke_old : forall c st, m r !! c = Some st -> exists st', m r' !! c = Some st' /\ ID st' = ID st /\ Track st' = Track st;
  ke_new : forall c st', m r' !! c = Some st' -> m r !! c = None -> Track st' = no_tracking;
}.

#[export] Instance keeps_preorder : PreOrder keeps.
Proof.
  split.
  - intros r. split; [done|eauto|congruence].
  - intros r1 r2 r3 [A1 B1 C1] [A2 B2 C2]. split; [auto|..].
    + intros c st E. destruct (B1 _ _ E) as (s1 & E1 & ? & ?). destruct (B2 _ _ E1) as (s2 & E2 & ? & ?). exists s2. split_and!; congruence.
    + intros c st E Hn. destruct (m r2 !! c) as [s2|] eqn:E2; [|by eapply C2].
      destruct (B2 _ _ E2) as (s3 & E3 & _ & Ht). rewrite E in E3. injection E3 as <-. rewrite Ht. by eapply C1.
Qed.

Lemma keeps_state (c : Z) (r : ConnRegistry) : keeps r (state c r).2.
Proof.
  split.
  - intros Hr. by apply state_spec.
  - intros c' st E. exists st. split_and!; [|done..]. unfold state. destruct (m r !! c) as [s0|] eqn:E0; cbn [snd m]; [done|].
    destruct (decide (c' = c)) as [->|Hne]; [congruence|by rewrite lookup_insert_ne].
  - intros c' st' E Hn. unfold state in E. destruct (m r !! c) as [s0|] eqn:E0; cbn [snd m] in E; [congruence|].
    destruct (decide (c' = c)) as [->|Hne]; [rewrite lookup_insert_eq in E; by injection E as <-|rewrite lookup_insert_ne in E by done; congruence].
Qed.

Lemma keeps_update (c : Z) (f : ConnState -> ConnState) (r : ConnRegistry) :
  (forall s, ID (f s) = ID s /\ Track (f s) = Track s) -> keeps r (update c f r).
Proof.
  intros Hf. split.
  - intros Hr. apply update_spec; [done|]. intros s. apply Hf.
  - intros c' st E. unfold update, state. destruct (decide (c' = c)) as [->|Hne].
    + rewrite E. exists (f st). cbn [m]. split_and!; [apply lookup_insert_eq|apply Hf..].
    + exists st. split_and!; [|done..]. destruct (m r !! c); cbn [m]; by rewrite ?lookup_insert_ne by done.
  - intros c' st' E Hn. unfold update, state in E. destruct (decide (c' = c)) as [->|Hne].
    + rewrite Hn in E. cbn [m] in E. rewrite lookup_insert_eq in E. injection E as <-. apply Hf.
    + destruct (m r !! c); cbn [m] in E; rewrite ?lookup_insert_ne in E by done; congruence.
Qed.

Lemma keeps_op (c : Z) (o : connop) (r : ConnRegistry) : keeps r (run_op c o r).
Proof.
  destruct o; cbn [run_op]; [|apply keeps_update; intros s; cbn; by repeat case_match..].
  pose proof (keeps_state c r) as H. unfold IDOf. destruct (state c r). exact H.
Qed.

(** ** The invariant *)

Definition effective (ps : list bytes) : list bytes := match ps with [] => [[]] | _ => ps end.
Definition subscribed (cfg : TrackingCfg) : bool := On cfg && BCast cfg.

Record sys_ok (s : Sys) : Prop := {
  so_reg : reg_ok (conns s);
  so_table : table_ok (tracks s);
  so_live : forall (id : Z) (k : bytes), k ∈ keys_of (tracks s) id -> exists c st, m (conns s) !! c = Some st /\ ID st = id /\ On (Track st) = true;
  so_bcast : forall (id : Z) (ps : list bytes), bcast (tracks s) !! id = Some ps <->
    exists c st, m (conns s) !! c = Some st /\ ID st = id /\ subscribed (Track st) = true /\ ps = effective (Prefixes (Track st));
  so_pipes : forall (c : Z) (p : ConnPipe), pipes s !! c = Some p -> is_Some (m (conns s) !! c) /\ pipe_ok p;
}.

Lemma init_ok : sys_ok init.
Proof.
  split; unfold init, NewConnRegistry; cbn [conns tracks pipes m].
  - apply new_ok.
  - split; [|apply map_Forall_empty..]. intros k id. unfold conns_of, keys_of, NewTrackTable; cbn [fwd rev]. rewrite !lookup_empty. cbn. set_solver.
  - intros id k. unfold keys_of, NewTrackTable; cbn [rev]. rewrite lookup_empty. cbn. set_solver.
  - intros id ps. unfold NewTrackTable; cbn [bcast]. rewrite lookup_empty. split; [done|]. intros (c & st & E & _). by rewrite lookup_empty in E.
  - intros c p E. by rewrite lookup_empty in E.
Qed.

Lemma keeps_ok (s : Sys) (r : ConnRegistry) : keeps (conns s) r -> sys_ok s -> sys_ok (set_conns s r).
Proof.
  intros [Ko Kl Kn] [Hr Ht Hl Hb Hp]. split; unfold set_conns; cbn [conns tracks pipes]; [auto|done|..].
  - intros id k Hk. destruct (Hl id k Hk) as (c & st & E & <- & Ho). destruct (Kl _ _ E) as (st' & E' & Hid & Htr). exists c, st'. by rewrite Htr.
  - intros id ps. rewrite Hb. split; intros (c & st & E & <- & Hs & ->).
    + destruct (Kl _ _ E) as (st' & E' & Hid & Htr). exists c, st'. by rewrite Htr.
    + destruct (m (conns s) !! c) as [st0|] eqn:E0.
      * destruct (Kl _ _ E0) as (st' & E' & Hid & Htr). rewrite E in E'. injection E' as <-. exists c, st0. by rewrite <- Htr.
      * rewrite (Kn _ _ E E0) in Hs. done.
  - intros c p E. destruct (Hp c p E) as [[st Es] ?]. split; [|done]. destruct (Kl _ _ Es) as (st' & E' & _). eauto.
Qed.

(** A new configuration for one connection. *)
Lemma retrack_ok (s : Sys) (c : Z) (cfg : TrackingCfg) (f : ConnState -> ConnState) (t : TrackTable) :
  sys_ok s -> (forall st, ID (f st) = ID st /\ Track (f st) = cfg) -> table_ok t ->
  (forall (id : Z) (k : bytes), k ∈ keys_of t id -> k ∈ keys_of (tracks s) id /\ (id = ID (st_of c (conns s)) -> On cfg = true)) ->
  bcast t = (if subscribed cfg then <[ID (st_of c (conns s)) := effective (Prefixes cfg)]> (bcast (tracks s)) else delete (ID (st_of c (conns s))) (bcast (tracks s))) ->
  sys_ok (mkSys (update c f (conns s)) t (pipes s) (published s)).
Proof.
  intros [Hr _ Hl Hb Hp] Hf Ht Hk Hbc. destruct (update_spec c f (conns s) Hr) as (Hr' & Hc & Ho); [intros st; apply Hf|].
  fold (st_of c (conns s)) in Hc. destruct (Hf (st_of c (conns s))) as [Hid Htr].
  assert (forall c' st, c' <> c -> m (conns s) !! c' = Some st -> ID st <> ID (st_of c (conns s))) as Hne.
  { intros c' st Hcc E Heq. rewrite <- Hid in Heq. apply Hcc. eapply (ro_inj _ Hr'); [|exact Hc|exact Heq]. by rewrite Ho. }
  split; cbn [conns tracks pipes]; [done|done|..].
  - intros id k Hin. destruct (Hk id k Hin) as [Hold Hon]. destruct (Hl id k Hold) as (c' & st & E & <- & Hst).
    destruct (decide (c' = c)) as [->|Hcc].
    + exists c, (f (st_of c (conns s))). rewrite Hid, Htr. rewrite (st_of_lookup _ _ _ E) in *. auto.
    + exists c', st. by rewrite Ho.
  - intros id ps. rewrite Hbc. split.
    + destruct (decide (id = ID (st_of c (conns s)))) as [->|Hn].
      * destruct (subscribed cfg) eqn:Es; [rewrite lookup_insert_eq|by rewrite lookup_delete_eq]. intros [= <-].
        exists c, (f (st_of c (conns s))). rewrite Htr. by split_and!.
      * intros E. assert (bcast (tracks s) !! id = Some ps) as E'.
        { destruct (subscribed cfg); [by rewrite lookup_insert_ne in E|by rewrite lookup_delete_ne in E]. }
        apply Hb in E' as (c' & st & Ec & <- & Hs & ->). exists c', st. rewrite Ho; [done|]. intros ->. apply Hn. by rewrite (st_of_lookup _ _ _ Ec).
    + intros (c' & st & E & <- & Hs & ->). destruct (decide (c' = c)) as [->|Hcc].
      * rewrite Hc in E. injection E as <-. rewrite Hid, Htr in *. rewrite Hs. by rewrite lookup_insert_eq.
      * rewrite Ho in E by done. pose proof (Hne _ _ Hcc E).
        assert (bcast (tracks s) !! ID st = Some (effective (Prefixes (Track st)))) as E' by (apply Hb; exists c', st; done).
        destruct (subscribed cfg); [by rewrite lookup_insert_ne|by rewrite lookup_delete_ne].
  - intros c' p E. destruct (Hp c' p E) as [[st Es] ?]. split; [|done]. destruct (decide (c' = c)) as [->|Hcc]; [eauto|rewrite Ho; eauto].
Qed.

(** ** Each step keeps the invariant *)

Definition retracked (cfg : TrackingCfg) (s : ConnState) : ConnState :=
  mkState (ID s) (Proto s) (cName s) (LibName s) (LibVer s) (ReadOnly s) cfg false.

Lemma retrack_registry (c : Z) (cfg : TrackingCfg) (r : ConnRegistry) : SetCaching c false (SetTracking c cfg r) = update c (retracked cfg) r.
Proof. unfold SetCaching, SetTracking. by rewrite update_update. Qed.

Lemma IDOf_update (c : Z) (f : ConnState -> ConnState) (r : ConnRegistry) : IDOf c (update c f r) = (ID (f (st_of c r)), update c f r).
Proof. unfold IDOf. by rewrite state_update. Qed.

Lemma untrack_eq (c : Z) (s : Sys) :
  untrack c s = mkSys (update c (retracked no_tracking) (conns s)) (RemoveConn (ID (st_of c (conns s))) (tracks s)) (pipes s) (published s).
Proof. unfold untrack. rewrite retrack_registry, IDOf_update. done. Qed.

Lemma tracking_on_eq (c : Z) (cfg : TrackingCfg) (s : Sys) :
  tracking_on c cfg s = mkSys (update c (retracked cfg) (conns s))
    (if BCast cfg then RegisterBcast (ID (st_of c (conns s))) (effective (Prefixes cfg)) (tracks s) else RemoveBcast (ID (st_of c (conns s))) (tracks s)) (pipes s) (published s).
Proof. unfold tracking_on, effective. rewrite retrack_registry, IDOf_update. cbv [retracked ID set_tracks set_conns conns tracks pipes published]. by destruct (BCast cfg), (Prefixes cfg). Qed.

Lemma untrack_ok (c : Z) (s : Sys) : sys_ok s -> sys_ok (untrack c s).
Proof.
  intros Hs. rewrite untrack_eq. destruct (RemoveConn_spec (ID (st_of c (conns s))) _ (so_table s Hs)) as (Ht & Hk & Hb).
  apply (retrack_ok s c no_tracking); [done|done|done| |done]. intros id k [Hne Hin]%Hk. done.
Qed.

Lemma tracking_on_ok (c : Z) (cfg : TrackingCfg) (s : Sys) : On cfg = true -> sys_ok s -> sys_ok (tracking_on c cfg s).
Proof.
  intros Hon Hs. rewrite tracking_on_eq. destruct (so_table s Hs) as [Hm Hf Hr].
  apply (retrack_ok s c cfg); [done|done|..]; unfold subscribed; rewrite ?Hon; destruct (BCast cfg); cbn.
  1-2: by split.
  1-2: by intros id k Hin.
  - by destruct (Prefixes cfg).
  - done.
Qed.

Lemma dropPipe_ok (c : Z) (s : Sys) : sys_ok s -> sys_ok (dropPipe c s).
Proof.
  intros [Hr Ht Hl Hb Hp]. split; cbn; [done..|]. intros c' p [_ E]%lookup_delete_Some. by apply Hp.
Qed.

Lemma push_ok (c : Z) (frame : bytes) (s : Sys) : is_Some (m (conns s) !! c) -> sys_ok s -> sys_ok (push c frame s).
Proof.
  intros Hc Hs. unfold push. destruct (Enqueue frame _) as [ok p] eqn:E.
  assert (sys_ok (set_pipes s (<[c := p]> (pipes s)))) as Hs'.
  { destruct Hs as [Hr Ht Hl Hb Hp]. split; cbn; [done..|]. intros c' p' [[<- <-]|[_ E']]%lookup_insert_Some; [|by apply Hp]. split; [done|].
    change p with ((ok, p).2). rewrite <- E. apply Enqueue_ok. destruct (pipes s !! c) as [p0|] eqn:E0; [by eapply Hp|]. unfold pipe_ok. cbn. lia. }
  destruct ok; [done|]. by apply untrack_ok, dropPipe_ok.
Qed.

Lemma ConnByID_lookup (id c : Z) (r : ConnRegistry) : ConnByID id r = Some c -> exists st, m r !! c = Some st /\ ID st = id.
Proof.
  unfold ConnByID. destruct (List.find _ _) as [[c' s']|] eqn:E; [|done]. intros [= ->].
  apply find_some in E as [Hin He]. apply list_elem_of_In, elem_of_map_to_list in Hin. cbn in He. exists s'. split; [done|]. lia.
Qed.

(** Looking up a connection that is there changes nothing. *)
Lemma state_there (c : Z) (r : ConnRegistry) (st : ConnState) : m r !! c = Some st -> state c r = (st, r).
Proof. intros E. unfold state. by rewrite E. Qed.

Lemma set_conns_same (s : Sys) : set_conns s (conns s) = s.
Proof. by destruct s. Qed.

Section steps.
Context `{GoUnicode} `{GoFloat} (hasPub : bool).

Lemma emit_to_ok (frame : bytes) (skip : Z -> bool) (ids : list Z) (need : bool) (s : Sys) : sys_ok s -> sys_ok (emit_to frame skip ids need s).2.
Proof.
  revert need s. induction ids as [|id ids IH]; intros need s Hs; cbn [emit_to]; [done|]. destruct (skip id); [by apply IH|].
  destruct (ConnByID id (conns s)) as [c|] eqn:E; [|by apply IH]. destruct (ConnByID_lookup _ _ _ E) as (st & Hc & _).
  unfold ProtoOf. rewrite (state_there _ _ _ Hc), set_conns_same. destruct (3 <=? Proto st); apply IH; [|done]. apply push_ok; eauto.
Qed.

Lemma keeps_TrackingOf (c : Z) (r : ConnRegistry) : keeps r (TrackingOf c r).2.
Proof. pose proof (keeps_state c r) as Hk. unfold TrackingOf. by destruct (state c r). Qed.

Lemma change_emit_ok (ctx : Ctx) (raw : bytes) (s : Sys) : sys_ok s -> sys_ok (emit hasPub ctx raw s).
Proof.
  intros Hs. unfold emit. destruct (userKeyFromRaw raw) as [|a key]; [done|]. destruct (observers _ _) as [|id ids]; [done|].
  assert (forall w n r, keeps (conns s) r ->
    sys_ok (let '(needResp2, s0) := emit_to (push_frame (a :: key)) (fun id0 => (id0 =? w) && n) (id :: ids) false (set_conns s r) in
            if needResp2 && hasPub then mkSys (conns s0) (tracks s0) (pipes s0) (published s0 ++ [(lit "__redis__:invalidate", ArrayOf [BulkOf (a :: key)])]) else s0)) as Hgo.
  { intros w n r Hk. pose proof (emit_to_ok (push_frame (a :: key)) (fun id0 => (id0 =? w) && n) (id :: ids) false _ (keeps_ok s r Hk Hs)) as Hok.
    destruct (emit_to _ _ _ _ _) as [need s0]. cbn [snd] in Hok. destruct (need && hasPub); [|done]. destruct Hok. by split. }
  destruct (c_conn ctx) as [cn|]; [|by apply Hgo].
  pose proof (keeps_state (connId cn) (conns s)) as Hk1. unfold IDOf. destruct (state _ (conns s)) as [st r1]. cbn [snd] in Hk1.
  pose proof (keeps_TrackingOf (connId cn) r1) as Hk2. destruct (TrackingOf _ r1) as [cfg r2]. cbn [snd] in Hk2. apply Hgo. by etrans.
Qed.

Lemma flags_On (args : list Value) (seen : gset bytes) (cfg cfg' : TrackingCfg) : flags args seen cfg = Some cfg' -> On cfg' = On cfg.
Proof.
  revert seen cfg. induction args as [args IH] using (induction_ltof1 _ (@length Value)); intros seen cfg.
  destruct args as [|a rest]; cbn [flags]; [by intros [= ->]|]. destruct (argString a) as [tok|]; [|done].
  assert (forall seen' c', flags rest seen' c' = Some cfg' -> On cfg' = On c') as IH1 by (intros seen' c'; apply IH; unfold ltof; cbn; lia).
  repeat (destruct (bytes_eqb _ _); [try (case_bool_decide; [done|]; intros E; by apply IH1 in E)|]); [|done].
  destruct rest as [|b rest]; [done|]. destruct (argString b) as [p|]; [|done]. intros E. apply (IH rest) in E; [done|]. unfold ltof; cbn; lia.
Qed.

Lemma tracking_ok (ctx : Ctx) (args : list Value) (s : Sys) : sys_ok s -> sys_ok (tracking ctx args s).2.
Proof.
  intros Hs. unfold tracking. destruct (c_conn ctx) as [cn|]; [|done]. destruct args as [|a rest]; [done|]. destruct (argString a) as [mode|]; [|done].
  cbv zeta. destruct (EqualFold mode (lit "on")) eqn:Eon; cbn [negb andb].
  - destruct (flags _ _ _) as [cfg|] eqn:E; [|done]. destruct (_ && _); [done|]. apply flags_On in E. by apply tracking_on_ok.
  - destruct (negb _); [done|]. destruct (flags _ _ _) as [cfg|]; [|done]. destruct (_ && _); [done|]. by apply untrack_ok.
Qed.

Lemma keeps_SetCaching (c : Z) (v : bool) (r : ConnRegistry) : keeps r (SetCaching c v r).
Proof. apply keeps_update. done. Qed.

Lemma caching_ok (ctx : Ctx) (args : list Value) (s : Sys) : sys_ok s -> sys_ok (caching ctx args s).2.
Proof.
  intros Hs. unfold caching. destruct (c_conn ctx) as [cn|]; [|done].
  pose proof (keeps_TrackingOf (connId cn) (conns s)) as Hk. destruct (TrackingOf _ _) as [cfg r]. cbn [snd] in Hk. apply (keeps_ok s r Hk) in Hs.
  destruct (negb _); [done|]. destruct args as [|a [|]]; [done| |done]. destruct (argString a); [|done].
  destruct (bytes_eqb _ _); [|destruct (bytes_eqb _ _); [|done]]; apply keeps_ok; [apply keeps_SetCaching|done|apply keeps_SetCaching|done].
Qed.

Lemma closed_ok (c : Z) (s : Sys) : sys_ok s -> sys_ok (ConnClosed c s).
Proof.
  intros Hs. unfold ConnClosed. destruct (m (conns s) !! c) as [st|] eqn:E.
  - pose proof (dropPipe_ok c _ (untrack_ok c s Hs)) as Hok. rewrite untrack_eq in *. rewrite (st_of_lookup _ _ _ E) in *.
    destruct (RemoveConn_spec (ID st) _ (so_table s Hs)) as (_ & Hk & Hb).
    destruct (update_spec c (retracked no_tracking) (conns s) (so_reg s Hs)) as (_ & Hc & Ho); [done|].
    unfold dropPipe, set_pipes, set_conns in *. cbn [conns tracks pipes published m nextID] in *.
    destruct Hok as [Hr Ht Hl Hbc Hp]. cbn [conns tracks pipes published m nextID] in *. split; cbn [conns tracks pipes published m nextID].
    + destruct Hr as [Hi Hn]. split; cbn [m nextID]; [|by apply map_Forall_delete].
      intros c1 c2 s1 s2 [_ H1]%lookup_delete_Some [_ H2]%lookup_delete_Some. by eapply Hi.
    + done.
    + intros id k Hin. destruct (Hl id k Hin) as (c' & st' & E' & ? & Hon). exists c', st'. split; [|done]. apply lookup_delete_Some. split; [|done].
      intros <-. rewrite Hc in E'. by injection E' as <-.
    + intros id ps. rewrite Hbc. split; intros (c' & st' & E' & ? & Hsub & ?); exists c', st'; (split; [|done]).
      * apply lookup_delete_Some. split; [|done]. intros <-. rewrite Hc in E'. by injection E' as <-.
      * by apply lookup_delete_Some in E' as [_ E'].
    + intros c' p Hin. apply lookup_delete_Some in Hin as [Hne Hin]. destruct (Hp c' p) as [? ?]; [by apply lookup_delete_Some|].
      split; [|done]. by rewrite lookup_delete_ne.
  - assert (pipes s !! c = None) as Hn.
    { destruct (pipes s !! c) as [p|] eqn:Ep; [|done]. destruct (so_pipes s Hs _ _ Ep) as [[? Ec] _]. congruence. }
    unfold dropPipe, set_pipes, set_conns. cbn [conns tracks pipes published m nextID]. rewrite !delete_id by done. by destruct s as [[]].
Qed.

Lemma read_hook_ok (ctx : Ctx) (keys : list bytes) (s : Sys) : sys_ok s -> sys_ok (read_hook ctx keys s).
Proof.
  intros Hs. unfold read_hook. destruct (c_conn ctx) as [cn|]; [|done]. set (c := connId cn).
  unfold TrackingOf. pose proof (keeps_state c (conns s)) as Hk. destruct (state_spec c _ (so_reg s Hs)) as (_ & Hc & _).
  destruct (state c (conns s)) as [st r]. cbn [fst snd] in *. apply (keeps_ok s r Hk) in Hs. clear Hk.
  destruct (negb (On (Track st)) || _ || _) eqn:Ecfg; [done|]. apply orb_false_iff in Ecfg as [[Eon%negb_false_iff _]%orb_false_iff _].
  assert (exists go r' st', (if OptIn (Track st) then ConsumeCaching c r else (true, r)) = (go, r') /\ keeps r r' /\ m r' !! c = Some st' /\ ID st' = ID st /\ Track st' = Track st) as (go & r' & st' & Ego & Hk & Hc' & Hid & Htr).
  { destruct (OptIn _); [|exists true, r, st; done]. unfold ConsumeCaching, CachingYesOf. rewrite (state_there _ _ _ Hc).
    destruct (ke_old _ _ (keeps_SetCaching c false r) _ _ Hc) as (st' & ? & ? & ?). exists (CachingYes st), (SetCaching c false r), st'. split_and!; auto using keeps_SetCaching. }
  cbn [conns set_conns]. rewrite Ego. apply (keeps_ok (set_conns s r) r' Hk) in Hs. destruct (negb go); [done|].
  destruct (match Prefixes _ with [] => keys | _ => _ end) as [|k ks]; [done|].
  unfold IDOf. cbn [conns set_conns tracks set_tracks pipes published]. rewrite (state_there _ _ _ Hc').
  destruct (Register_spec (ID st') (k :: ks) _ (so_table _ Hs)) as (Ht & Hr & Hb).
  destruct Hs as [Hreg _ Hl Hbc Hp]. cbn [conns set_conns tracks set_tracks pipes published] in *.
  split; cbn [conns set_conns tracks set_tracks pipes published]; [done|done|..|done].
  - intros id k0 [[-> _]|Hold]%Hr; [|by eapply Hl]. exists c, st'. by rewrite Htr.
  - intros id ps. by rewrite Hb.
Qed.

(** The invariant, step by step. *)
Lemma step_ok (s : Sys) (e : event) : sys_ok s -> sys_ok (step hasPub s e).
Proof.
  intros Hs. destruct e; cbn [step]; [by apply tracking_ok|by apply caching_ok|by apply read_hook_ok|by apply change_emit_ok|apply keeps_ok; [apply keeps_op|done]| | |by apply closed_ok].
  - destruct (pipes s !! c) as [p|] eqn:E; [|done]. unfold writeLoop. destruct (ch p) as [|f rest] eqn:Ech; [done|].
    destruct (so_pipes s Hs _ _ E) as [Hc Hp]. destruct Hs as [Hr Ht Hl Hb Hps]. split; cbn; [done..|].
    intros c' p' [[<- <-]|[_ E']]%lookup_insert_Some; [|by apply Hps]. split; [done|]. unfold pipe_ok in *. rewrite Ech in Hp. cbn in *. lia.
  - destruct Hs as [Hr Ht Hl Hb Hps]. split; cbn; [done..|]. intros c' p' E. rewrite lookup_alter in E. case_decide; [subst|by apply Hps].
    destruct (pipes s !! c') as [p|] eqn:Ep; [|done]. injection E as <-. destruct (Hps _ _ Ep) as [? Hp]. split; [done|].
    unfold writeFail. destruct (ch p) eqn:Ech; [done|]. unfold pipe_ok, shutdown. cbn. lia.
Qed.

Lemma run_ok (es : list event) (s : Sys) : sys_ok s -> sys_ok (run hasPub es s).
Proof. revert s. induction es as [|e es IH]; intros s Hs; cbn; [done|]. apply IH. by apply step_ok. Qed.

End steps.
(** ** Who observes a key *)

Lemma dedup_spec (l acc : list Z) : NoDup acc ->
  let out := fold_left (fun acc id => if existsb (Z.eqb id) acc then acc else acc ++ [id]) l acc in
  NoDup out /\ forall id, id ∈ out <-> id ∈ acc \/ id ∈ l.
Proof.
  revert acc. induction l as [|x l IH]; intros acc Hn; cbn [fold_left].
  - split; [done|]. set_solver.
  - destruct (existsb (Z.eqb x) acc) eqn:E.
    + destruct (IH acc Hn) as [H1 H2]. split; [done|]. intros id. rewrite H2. apply existsb_exists in E as (y & Hy%list_elem_of_In & ->%Z.eqb_eq). set_solver.
    + assert (x ∉ acc) as Hx.
      { intros Hin%list_elem_of_In. assert (existsb (Z.eqb x) acc = true) as E' by (apply existsb_exists; exists x; split; [done|apply Z.eqb_refl]). congruence. }
      destruct (IH (acc ++ [x])) as [H1 H2]; [apply NoDup_app; split_and!; [done| |apply NoDup_singleton]; set_solver|]. split; [done|]. intros id. rewrite H2. set_solver.
Qed.

Lemma observers_spec (k : bytes) (t : TrackTable) :
  NoDup (observers k t) /\
  forall id, id ∈ observers k t <-> id ∈ conns_of t k \/ exists ps, bcast t !! id = Some ps /\ matching ps k = true.
Proof.
  destruct (dedup_spec (ConnsFor k t ++ BcastFor k t) [] (NoDup_nil_2 : NoDup [])) as [H1 H2]. split; [exact H1|]. intros id. unfold observers. rewrite H2, elem_of_app.
  unfold ConnsFor, BcastFor. rewrite !isort_perm, elem_of_elements.
  assert (id ∈ map fst (List.filter (fun x : Z * list bytes => existsb (HasPrefix k) x.2) (map_to_list (bcast t))) <-> exists ps, bcast t !! id = Some ps /\ matching ps k = true) as ->; [|set_solver].
  rewrite list_elem_of_In, in_map_iff. split.
  - intros ([id' ps] & <- & [Hin He]%filter_In). apply list_elem_of_In, elem_of_map_to_list in Hin. eauto.
  - intros (ps & E & He). exists (id, ps). split; [done|]. apply filter_In. split; [|done]. by apply list_elem_of_In, elem_of_map_to_list.
Qed.

(** ** What one change sends *)

Definition pushed (frame : bytes) (p : option ConnPipe) : option ConnPipe :=
  let '(ok, p) := Enqueue frame (default NewConnPipe p) in if ok then Some p else None.

(** Ids and protocol versions are the same. *)
Definition same_shape (r r' : ConnRegistry) : Prop := ((fun s => (ID s, Proto s)) <$> m r) = ((fun s => (ID s, Proto s)) <$> m r').

Lemma same_shape_lookup (r r' : ConnRegistry) (c : Z) (st : ConnState) : same_shape r r' -> m r !! c = Some st ->
  exists st', m r' !! c = Some st' /\ ID st' = ID st /\ Proto st' = Proto st.
Proof.
  intros Hs E. assert ((fun s => (ID s, Proto s)) <$> (m r' !! c) = Some (ID st, Proto st)) as Hl.
  { rewrite <- lookup_fmap, <- Hs, lookup_fmap, E. done. }
  destruct (m r' !! c) as [st'|]; [|done]. cbn in Hl. injection Hl as <- <-. eauto.
Qed.

Lemma update_shape (c : Z) (f : ConnState -> ConnState) (r : ConnRegistry) (st : ConnState) :
  m r !! c = Some st -> ID (f st) = ID st -> Proto (f st) = Proto st -> same_shape r (update c f r).
Proof.
  intros E Hi Hp. unfold same_shape, update. rewrite (state_there _ _ _ E). cbn [m]. rewrite fmap_insert, Hi, Hp.
  symmetry. apply insert_id. by rewrite lookup_fmap, E.
Qed.

Lemma push_spec (c : Z) (frame : bytes) (s : Sys) (st : ConnState) : m (conns s) !! c = Some st ->
  same_shape (conns s) (conns (push c frame s)) /\ published (push c frame s) = published s /\
  (forall c', pipes (push c frame s) !! c' = if decide (c' = c) then pushed frame (pipes s !! c) else pipes s !! c').
Proof.
  intros E. unfold push, pushed. destruct (Enqueue frame _) as [ok p]. destruct ok.
  - split_and!; [done|done|]. intros c'. cbn. case_decide; [subst; apply lookup_insert_eq|by rewrite lookup_insert_ne].
  - rewrite untrack_eq. cbn [conns published pipes dropPipe set_pipes]. split_and!; [by eapply update_shape|done|]. intros c'. rewrite delete_insert_eq.
    case_decide; [subst; apply lookup_delete_eq|by rewrite lookup_delete_ne].
Qed.

Section emission.
Context `{GoUnicode} `{GoFloat} (hasPub : bool).

Lemma emit_to_spec (frame : bytes) (skip : Z -> bool) (ids : list Z) (need : bool) (s : Sys) : sys_ok s -> NoDup ids ->
  (forall id, id ∈ ids -> exists c st, m (conns s) !! c = Some st /\ ID st = id) ->
  let '(need', s') := emit_to frame skip ids need s in
  (forall c st, m (conns s) !! c = Some st -> pipes s' !! c =
     if bool_decide (ID st ∈ ids) && negb (skip (ID st)) && (3 <=? Proto st) then pushed frame (pipes s !! c) else pipes s !! c) /\
  (need' = true <-> need = true \/ exists c st, m (conns s) !! c = Some st /\ ID st ∈ ids /\ skip (ID st) = false /\ Proto st < 3) /\
  published s' = published s.
Proof.
  revert need s. induction ids as [|id ids IH]; intros need s Hs Hnd Hlive; cbn [emit_to].
  - split_and!; [| |done]; [intros c st _; rewrite bool_decide_eq_false_2 by apply not_elem_of_nil; done|].
    split; [auto|]. intros [?|(c & st & _ & Hin & _)]; [done|]. by apply not_elem_of_nil in Hin.
  - apply NoDup_cons in Hnd as [Hid Hnd]. destruct (Hlive id) as (c0 & st0 & E0 & Eid); [set_solver|].
    rewrite <- Eid, (ConnByID_spec _ _ _ (so_reg s Hs) E0), Eid. unfold ProtoOf. rewrite (state_there _ _ _ E0), set_conns_same.
    assert (forall c st, m (conns s) !! c = Some st -> c <> c0 -> ID st <> id) as Hne.
    { intros c st E Hc Heq. apply Hc. eapply (ro_inj _ (so_reg s Hs)); [exact E|exact E0|congruence]. }
    destruct (skip id) eqn:Esk; [|destruct (3 <=? Proto st0) eqn:E3].
    + specialize (IH need s Hs Hnd). destruct (emit_to _ _ _ _ _) as [need' s']. destruct IH as (I1 & I2 & I3); [set_solver|]. split_and!; [| |done].
      * intros c st E. rewrite (I1 c st E). destruct (decide (ID st = id)) as [->|Hn].
        -- by rewrite Esk, !andb_false_r.
        -- by rewrite (bool_decide_ext (ID st ∈ id :: ids) (ID st ∈ ids)) by set_solver.
      * rewrite I2. split; (intros [?|(c & st & ? & ? & ? & ?)]; [auto|]); right; exists c, st; split_and!; try done; [set_solver|].
        destruct (decide (ID st = id)); [congruence|set_solver].
    + destruct (push_spec c0 frame s st0 E0) as (Hsh & Hpub & Hpi).
      specialize (IH need (push c0 frame s) (push_ok c0 frame s (ex_intro _ _ E0) Hs) Hnd). destruct (emit_to _ _ _ _ _) as [need' s'].
      destruct IH as (I1 & I2 & I3).
      { intros id' Hin. destruct (Hlive id') as (c & st & E & <-); [set_solver|]. destruct (same_shape_lookup _ _ _ _ Hsh E) as (st' & E' & ? & ?). eauto. }
      split_and!; [| |by rewrite I3].
      * intros c st E. destruct (same_shape_lookup _ _ _ _ Hsh E) as (st' & E' & Hi & Hp). rewrite (I1 c st' E'), Hi, Hp, Hpi. case_decide as Hc; [subst c|].
        -- rewrite E0 in E. injection E as <-. rewrite Eid, Esk, E3, (bool_decide_eq_false_2 (id ∈ ids)), bool_decide_eq_true_2 by set_solver. done.
        -- by rewrite (bool_decide_ext (ID st ∈ id :: ids) (ID st ∈ ids)) by (pose proof (Hne _ _ E Hc); set_solver).
      * rewrite I2. split; (intros [?|(c & st & E & Hin & Hsk & Hp)]; [auto|]); right.
        -- assert (same_shape (conns (push c0 frame s)) (conns s)) as Hsh' by (unfold same_shape in *; congruence).
           destruct (same_shape_lookup _ _ _ _ Hsh' E) as (st' & E' & Hi & Hp'). exists c, st'. rewrite Hi, Hp'. split_and!; [done|set_solver|done|done].
        -- destruct (same_shape_lookup _ _ _ _ Hsh E) as (st' & E' & Hi & Hp'). exists c, st'. rewrite Hi, Hp'. split_and!; [done| |done|done].
           destruct (decide (c = c0)) as [->|Hc]; [rewrite E0 in E; injection E as <-; lia|]. pose proof (Hne _ _ E Hc). set_solver.
    + specialize (IH true s Hs Hnd). destruct (emit_to _ _ _ _ _) as [need' s']. destruct IH as (I1 & I2 & I3); [set_solver|]. split_and!; [| |done].
      * intros c st E. rewrite (I1 c st E). destruct (decide (c = c0)) as [->|Hc].
        -- rewrite E0 in E. injection E as <-. by rewrite E3, !andb_false_r.
        -- by rewrite (bool_decide_ext (ID st ∈ id :: ids) (ID st ∈ ids)) by (pose proof (Hne _ _ E Hc); set_solver).
      * rewrite I2. split; [intros _|by left]. right. exists c0, st0. rewrite Eid. split_and!; [done|set_solver|done|lia].
Qed.

(** The connection [c] watches [k]: it read the key, or subscribed to one of
    its prefixes. *)
Definition watching (s : Sys) (k : bytes) (st : ConnState) : bool :=
  bool_decide (k ∈ keys_of (tracks s) (ID st)) || (subscribed (Track st) && matching (effective (Prefixes (Track st))) k).
(** The change is the connection's own, and it does not want to hear of it. *)
Definition own_loop (ctx : Ctx) (c : Z) (st : ConnState) : bool :=
  match c_conn ctx with Some cn => (connId cn =? c) && NoLoop (Track st) | None => false end.
Definition notified (ctx : Ctx) (s : Sys) (k : bytes) (c : Z) (st : ConnState) : bool := watching s k st && negb (own_loop ctx c st).

Definition invalidation (k : bytes) : bytes * Value := (lit "__redis__:invalidate", ArrayOf [BulkOf k]).

Lemma observers_live (s : Sys) (k : bytes) (id : Z) : sys_ok s -> id ∈ observers k (tracks s) -> exists c st, m (conns s) !! c = Some st /\ ID st = id.
Proof.
  intros Hs Hin. apply observers_spec in Hin as [Hin|(ps & Hb & _)].
  - apply (to_mirror _ (so_table s Hs)) in Hin. destruct (so_live s Hs _ _ Hin) as (c & st & ? & ? & _). eauto.
  - apply (so_bcast s Hs) in Hb as (c & st & ? & ? & _). eauto.
Qed.

Lemma observers_watching (s : Sys) (k : bytes) (c : Z) (st : ConnState) : sys_ok s -> m (conns s) !! c = Some st ->
  bool_decide (ID st ∈ observers k (tracks s)) = watching s k st.
Proof.
  intros Hs E. unfold watching. destruct (observers_spec k (tracks s)) as [_ Ho]. specialize (Ho (ID st)). rewrite (to_mirror _ (so_table s Hs)) in Ho.
  assert ((exists ps, bcast (tracks s) !! ID st = Some ps /\ matching ps k = true) <-> subscribed (Track st) && matching (effective (Prefixes (Track st))) k = true) as Hb.
  { rewrite andb_true_iff. split.
    - intros (ps & Hb & Hm). apply (so_bcast s Hs) in Hb as (c' & st' & E' & Hi & Hsub & ->).
      assert (c' = c) as -> by (eapply (ro_inj _ (so_reg s Hs)); eauto). rewrite E in E'. by injection E' as <-.
    - intros [Hsub Hm]. eexists. split; [|exact Hm]. apply (so_bcast s Hs). eauto 10. }
  rewrite Hb in Ho. apply eq_bool_prop_intro. rewrite orb_True, !bool_decide_spec, Ho, Is_true_true. done.
Qed.

Lemma state_same (c c' : Z) (r : ConnRegistry) (st : ConnState) : m r !! c' = Some st -> m (state c r).2 !! c' = Some st.
Proof. intros E. unfold state. destruct (m r !! c) eqn:Ec; [done|]. cbn. rewrite lookup_insert_ne by congruence. done. Qed.

(** The identity of the writer and whether it opted out of its own changes. *)
Lemma writer_skip (ctx : Ctx) (s : Sys) (c : Z) (st : ConnState) : sys_ok s -> m (conns s) !! c = Some st ->
  let '(w, n, r) :=
    match c_conn ctx with
    | None => (-1, false, conns s)
    | Some cn => let '(id, r) := IDOf (connId cn) (conns s) in let '(cfg, r) := TrackingOf (connId cn) r in (id, NoLoop cfg, r)
    end in
  (ID st =? w) && n = own_loop ctx c st /\ m r !! c = Some st /\ keeps (conns s) r.
Proof.
  intros Hs E. unfold own_loop. destruct (c_conn ctx) as [cn|]; [|by rewrite andb_false_r]. set (w := connId cn).
  unfold IDOf. destruct (state_spec w _ (so_reg s Hs)) as (Hr & Hw & _). pose proof (state_same w c _ _ E) as Hc. pose proof (keeps_state w (conns s)) as Hk.
  destruct (state w (conns s)) as [sw r]. cbn [fst snd] in *. unfold TrackingOf. rewrite (state_there _ _ _ Hw). split_and!; [|done|done].
  destruct (decide (w = c)) as [->|Hne].
  - rewrite Hw in Hc. injection Hc as ->. by rewrite !Z.eqb_refl.
  - rewrite (proj2 (Z.eqb_neq w c)) by done. rewrite (proj2 (Z.eqb_neq _ _)); [done|]. intros Heq. apply Hne. by eapply (ro_inj _ Hr).
Qed.

(** What a change sends, on every connection. *)
Lemma emit_spec (ctx : Ctx) (raw : bytes) (s : Sys) : sys_ok s -> userKeyFromRaw raw <> [] ->
  let k := userKeyFromRaw raw in
  let s' := emit hasPub ctx raw s in
  (forall c st, m (conns s) !! c = Some st ->
     pipes s' !! c = if notified ctx s k c st && (3 <=? Proto st) then pushed (push_frame k) (pipes s !! c) else pipes s !! c) /\
  ((exists c st, m (conns s) !! c = Some st /\ notified ctx s k c st = true /\ Proto st < 3) ->
     published s' = published s ++ (if hasPub then [invalidation k] else [])) /\
  ((forall c st, m (conns s) !! c = Some st -> notified ctx s k c st = true -> 3 <= Proto st) -> published s' = published s).
Proof.
  intros Hs Hk. cbv zeta. unfold emit. destruct (userKeyFromRaw raw) as [|a k'] eqn:Ek; [done|]. cbv zeta. set (k := a :: k') in *. clear Hk.
  destruct (observers k (tracks s)) as [|id0 ids0] eqn:Eo.
  { assert (forall c st, m (conns s) !! c = Some st -> notified ctx s k c st = false) as Hn.
    { intros c st E. unfold notified. rewrite <- (observers_watching s k c st Hs E), Eo, bool_decide_eq_false_2 by apply not_elem_of_nil. done. }
    split_and!; [intros c st E; by rewrite (Hn c st E)| |done]. intros (c & st & E & Hnot & _). by rewrite (Hn c st E) in Hnot. }
  rewrite <- Eo. clear Eo id0 ids0. pose proof (fun c st => writer_skip ctx s c st Hs) as Hw.
  assert (keeps (conns s) (match c_conn ctx with
    | None => (-1, false, conns s)
    | Some cn => let '(id, r) := IDOf (connId cn) (conns s) in let '(cfg, r) := TrackingOf (connId cn) r in (id, NoLoop cfg, r)
    end).2) as Hkeep.
  { destruct (c_conn ctx) as [cn|]; [|done]. pose proof (keeps_state (connId cn) (conns s)) as Hk1. unfold IDOf. destruct (state _ (conns s)) as [sw r].
    pose proof (keeps_TrackingOf (connId cn) r) as Hk2. destruct (TrackingOf _ r) as [cfg r2]. cbn [snd] in *. by etrans. }
  destruct (match c_conn ctx with Some _ => _ | None => _ end) as [[w n] r]. cbn [snd] in Hkeep.
  pose proof (emit_to_spec (push_frame k) (fun id => (id =? w) && n) (observers k (tracks s)) false (set_conns s r) (keeps_ok s r Hkeep Hs)) as He.
  destruct (emit_to _ _ _ _ _) as [need s']. destruct He as (E1 & E2 & E3); [apply observers_spec| |].
  { intros id Hin. destruct (observers_live s k id Hs Hin) as (c & st & E & <-). destruct (ke_old _ _ Hkeep _ _ E) as (st' & ? & ? & _). eauto. }
  cbn [conns set_conns pipes published] in E1, E2, E3.
  assert (forall c st, m (conns s) !! c = Some st -> notified ctx s k c st = bool_decide (ID st ∈ observers k (tracks s)) && negb ((ID st =? w) && n)) as Hnot.
  { intros c st E. unfold notified. rewrite <- (observers_watching s k c st Hs E). destruct (Hw c st E) as (-> & _). done. }
  assert (need = true <-> exists c st, m (conns s) !! c = Some st /\ notified ctx s k c st = true /\ Proto st < 3) as Hneed.
  { rewrite E2. split.
    - intros [?|(c & st & E & Hin & Hsk & Hp)]; [done|]. destruct (observers_live s k _ Hs Hin) as (c1 & st1 & Ec1 & Hi).
      destruct (Hw c1 st1 Ec1) as (_ & Er1 & _). assert (c1 = c) as -> by (eapply (ro_inj _ (ke_ok _ _ Hkeep (so_reg s Hs))); eauto).
      rewrite E in Er1. injection Er1 as <-. exists c, st. rewrite (Hnot c st Ec1), Hsk, bool_decide_eq_true_2 by done. done.
    - intros (c & st & E & Hn & Hp). right. rewrite (Hnot c st E) in Hn. apply andb_true_iff in Hn as [Hin%bool_decide_eq_true Hsk%negb_true_iff].
      exists c, st. destruct (Hw c st E) as (_ & Er & _). done. }
  assert (forall s0 : Sys, pipes s0 = pipes s' -> forall c st, m (conns s) !! c = Some st ->
     pipes s0 !! c = if notified ctx s k c st && (3 <=? Proto st) then pushed (push_frame k) (pipes s !! c) else pipes s !! c) as Hpipes.
  { intros s0 -> c st E. destruct (Hw c st E) as (_ & Er & _). by rewrite (E1 c st Er), (Hnot c st E). }
  split_and!.
  - apply Hpipes. by destruct (need && hasPub).
  - intros Hex%Hneed. subst need. cbn [andb]. destruct hasPub; cbn; by rewrite E3, ?app_nil_r.
  - intros Hall. destruct need; [|done]. destruct (proj1 Hneed eq_refl) as (c & st & E & Hn & Hp). specialize (Hall c st E Hn). lia.
Qed.

End emission.
(** ** A row stays until tracking ends *)

(** A step keeps ids, and the rows of the connections whose tracking is on
    after it. *)
Record calm (s s' : Sys) : Prop := {
  ca_id : forall c st st', m (conns s) !! c = Some st -> m (conns s') !! c = Some st' -> ID st' = ID st;
  ca_keys : forall c st' k, m (conns s') !! c = Some st' -> On (Track st') = true -> k ∈ keys_of (tracks s) (ID st') -> k ∈ keys_of (tracks s') (ID st');
}.

Lemma calm_same (s s' : Sys) : conns s' = conns s -> tracks s' = tracks s -> calm s s'.
Proof. intros Hc Ht. split; rewrite ?Hc, ?Ht; [congruence|done]. Qed.

Lemma calm_keeps (s : Sys) (r : ConnRegistry) : keeps (conns s) r -> calm s (set_conns s r).
Proof.
  intros Hk. split; cbn; [|done]. intros c st st' E E'. destruct (ke_old _ _ Hk _ _ E) as (st1 & E1 & ? & _). congruence.
Qed.

Lemma calm_untrack (c : Z) (s : Sys) : sys_ok s -> calm s (untrack c s).
Proof.
  intros Hs. rewrite untrack_eq. destruct (update_spec c (retracked no_tracking) (conns s) (so_reg s Hs)) as (Hr & Hc & Ho); [done|]. fold (st_of c (conns s)) in Hc.
  destruct (RemoveConn_spec (ID (st_of c (conns s))) _ (so_table s Hs)) as (_ & Hk & _). split; cbn [conns tracks].
  - intros c' st st' E E'. destruct (decide (c' = c)) as [->|Hne]; [|rewrite Ho in E' by done; congruence].
    rewrite Hc, (st_of_lookup _ _ _ E) in E'. by injection E' as <-.
  - intros c' st' k E' Hon Hin. apply Hk. split; [|done]. intros Heq.
    assert (c' = c) as -> by (by eapply (ro_inj _ Hr); [exact E'|exact Hc|]). rewrite Hc in E'. injection E' as <-. done.
Qed.

(** In an emission no connection turns tracking on. *)
Lemma emit_to_calm `{GoFloat} (frame : bytes) (skip : Z -> bool) (ids : list Z) (need : bool) (s : Sys) : sys_ok s ->
  calm s (emit_to frame skip ids need s).2 /\
  (forall c st', m (conns (emit_to frame skip ids need s).2) !! c = Some st' -> exists st, m (conns s) !! c = Some st /\ (On (Track st') = true -> On (Track st) = true)).
Proof.
  revert need s. induction ids as [|id ids IH]; intros need s Hs; cbn [emit_to]; [split; [by apply calm_same|eauto]|].
  destruct (skip id); [by apply IH|]. destruct (ConnByID id (conns s)) as [c|] eqn:E; [|by apply IH]. destruct (ConnByID_lookup _ _ _ E) as (st & Hc & _).
  unfold ProtoOf. rewrite (state_there _ _ _ Hc), set_conns_same. destruct (3 <=? Proto st); [|by apply IH].
  assert (calm s (push c frame s) /\ forall c' st', m (conns (push c frame s)) !! c' = Some st' -> exists st0, m (conns s) !! c' = Some st0 /\ (On (Track st') = true -> On (Track st0) = true)) as [P1 P2].
  { unfold push. destruct (Enqueue _ _) as [[] p]; [split; [by apply calm_same|cbn; eauto]|]. split.
    - destruct (calm_untrack c s Hs) as [C1 C2]. rewrite untrack_eq in *. by split.
    - rewrite untrack_eq. cbn [conns dropPipe set_pipes]. unfold update. rewrite (state_there _ _ _ Hc). cbn [m].
      intros c' st' [[<- <-]|[_ E']]%lookup_insert_Some; [exists st; done|eauto]. }
  destruct (IH need (push c frame s)) as [I1 I2]; [apply push_ok; eauto|]. split.
  - split.
    + intros c' s1 s3 E1 E3. destruct (I2 _ _ E3) as (s2 & E2 & _). etrans; [by eapply (ca_id _ _ I1)|by eapply (ca_id _ _ P1)].
    + intros c' s3 k E3 Hon Hin. eapply (ca_keys _ _ I1); [done|done|]. destruct (I2 _ _ E3) as (s2 & E2 & Ho). rewrite (ca_id _ _ I1 _ _ _ E2 E3) in *.
      eapply (ca_keys _ _ P1); [done|auto|done].
  - intros c' st' E'. destruct (I2 _ _ E') as (s2 & E2 & Ho). destruct (P2 _ _ E2) as (s1 & E1 & Ho1). eauto.
Qed.

Section persistence.
Context `{GoUnicode} `{GoFloat} (hasPub : bool).

Lemma calm_emit (ctx : Ctx) (raw : bytes) (s : Sys) : sys_ok s -> calm s (emit hasPub ctx raw s).
Proof.
  intros Hs. unfold emit. destruct (userKeyFromRaw raw) as [|a key]; [by apply calm_same|]. destruct (observers _ _) as [|id ids]; [by apply calm_same|].
  assert (forall w n r, keeps (conns s) r ->
    calm s (let '(needResp2, s0) := emit_to (push_frame (a :: key)) (fun id0 => (id0 =? w) && n) (id :: ids) false (set_conns s r) in
            if needResp2 && hasPub then mkSys (conns s0) (tracks s0) (pipes s0) (published s0 ++ [(lit "__redis__:invalidate", ArrayOf [BulkOf (a :: key)])]) else s0)) as Hgo.
  { intros w n r Hk. destruct (emit_to_calm (push_frame (a :: key)) (fun id0 => (id0 =? w) && n) (id :: ids) false _ (keeps_ok s r Hk Hs)) as [[C1 C2] Hon].
    destruct (emit_to _ _ _ _ _) as [need s0]. cbn [snd conns set_conns tracks] in *.
    assert (calm s s0) as [D1 D2].
    { split; [|done]. intros c st st' E E'. destruct (ke_old _ _ Hk _ _ E) as (st1 & E1 & <- & _). by eapply C1. }
    destruct (need && hasPub); by split. }
  destruct (c_conn ctx) as [cn|]; [|by apply Hgo].
  pose proof (keeps_state (connId cn) (conns s)) as Hk1. unfold IDOf. destruct (state _ (conns s)) as [st r1]. cbn [snd] in Hk1.
  pose proof (keeps_TrackingOf (connId cn) r1) as Hk2. destruct (TrackingOf _ r1) as [cfg r2]. cbn [snd] in Hk2. apply Hgo. by etrans.
Qed.

Lemma calm_tracking (ctx : Ctx) (args : list Value) (s : Sys) : sys_ok s -> calm s (tracking ctx args s).2.
Proof.
  intros Hs. unfold tracking. destruct (c_conn ctx) as [cn|]; [|by apply calm_same]. destruct args as [|a rest]; [by apply calm_same|].
  destruct (argString a) as [mode|]; [|by apply calm_same]. cbv zeta. destruct (_ && _); [by apply calm_same|].
  destruct (flags _ _ _) as [cfg|]; [|by apply calm_same]. destruct (_ && _); [by apply calm_same|]. destruct (negb _); cbn [snd]; [by apply calm_untrack|].
  rewrite tracking_on_eq. destruct (update_spec (connId cn) (retracked cfg) (conns s) (so_reg s Hs)) as (_ & Hc & Ho); [done|]. split; cbn [conns tracks].
  - intros c' st st' E E'. destruct (decide (c' = connId cn)) as [->|Hne]; [|rewrite Ho in E' by done; congruence].
    rewrite Hc in E'. injection E' as <-. change (state _ _).1 with (st_of (connId cn) (conns s)). by rewrite (st_of_lookup _ _ _ E).
  - intros c' st' k _ _ Hin. by destruct (BCast cfg).
Qed.

Lemma calm_caching (ctx : Ctx) (args : list Value) (s : Sys) : calm s (caching ctx args s).2.
Proof.
  assert (exists r, (caching ctx args s).2 = set_conns s r /\ keeps (conns s) r) as (r & -> & Hk); [|by apply calm_keeps].
  unfold caching. destruct (c_conn ctx) as [cn|]; [|exists (conns s); by rewrite set_conns_same].
  pose proof (keeps_TrackingOf (connId cn) (conns s)) as Hk. destruct (TrackingOf _ _) as [cfg r]. cbn [snd] in Hk.
  destruct (negb _); [eauto|]. destruct args as [|a [|]]; [eauto| |eauto]. destruct (argString a); [|eauto].
  destruct (bytes_eqb _ _); [|destruct (bytes_eqb _ _); [|eauto]]; eexists; (split; [reflexivity|]); cbn; etrans; eauto using keeps_SetCaching.
Qed.

(** What a read by a tracking connection does to the table. *)
Definition registers (cfg : TrackingCfg) (cachingYes : bool) (k : bytes) : bool :=
  On cfg && negb (OptOut cfg) && negb (BCast cfg) && (negb (OptIn cfg) || cachingYes) && (bool_decide (Prefixes cfg = []) || matching (Prefixes cfg) k).

Lemma read_hook_spec (cn : Conn) (u : option bytes) (b : bool) (keys : list bytes) (s : Sys) (st : ConnState) : sys_ok s -> m (conns s) !! connId cn = Some st ->
  let s' := read_hook (mkCtx u (Some cn) b) keys s in
  keeps (conns s) (conns s') /\ pipes s' = pipes s /\ published s' = published s /\
  (forall id k, k ∈ keys_of (tracks s') id <-> (id = ID st /\ k ∈ keys /\ registers (Track st) (CachingYes st) k = true) \/ k ∈ keys_of (tracks s) id).
Proof.
  intros Hs E. unfold read_hook, registers. cbn [c_conn]. set (c := connId cn) in *. unfold TrackingOf. rewrite (state_there _ _ _ E), set_conns_same.
  destruct (On (Track st)) eqn:Eon, (OptOut (Track st)) eqn:Eoo, (BCast (Track st)) eqn:Ebc; cbn [negb orb andb]; try (split_and!; [done..|]; set_solver).
  assert (exists r' st', (if OptIn (Track st) then ConsumeCaching c (conns s) else (true, conns s)) = (negb (OptIn (Track st)) || CachingYes st, r') /\
    keeps (conns s) r' /\ m r' !! c = Some st' /\ ID st' = ID st) as (r' & st' & -> & Hk & E' & Hid).
  { destruct (OptIn _); [|exists (conns s), st; done]. unfold ConsumeCaching, CachingYesOf. rewrite (state_there _ _ _ E).
    destruct (ke_old _ _ (keeps_SetCaching c false (conns s)) _ _ E) as (st' & ? & ? & ?). exists (SetCaching c false (conns s)), st'. split_and!; auto using keeps_SetCaching. }
  destruct (negb (OptIn (Track st)) || CachingYes st); cbn [negb]; [|split_and!; [done..|]; cbn; set_solver].
  set (reg := match Prefixes (Track st) with [] => keys | _ => _ end).
  assert (forall k, k ∈ reg <-> k ∈ keys /\ bool_decide (Prefixes (Track st) = []) || matching (Prefixes (Track st)) k = true) as Hreg.
  { intros k. unfold reg. destruct (Prefixes (Track st)) as [|p ps] eqn:Ep; [rewrite bool_decide_eq_true_2 by done; cbn; set_solver|].
    rewrite bool_decide_eq_false_2 by done. cbn [orb]. rewrite list_elem_of_In, filter_In, <- list_elem_of_In. done. }
  destruct reg as [|k0 ks] eqn:Ereg.
  - split_and!; [done..|]. intros id k. cbn. rewrite <- (Hreg k). set_solver.
  - unfold IDOf. cbn [conns set_conns]. rewrite (state_there _ _ _ E'). cbn [set_conns set_tracks tracks pipes published conns]. split_and!; [done..|].
    destruct (Register_spec (ID st') (k0 :: ks) _ (so_table s Hs)) as (_ & Hr & _). intros id k. rewrite Hr, Hreg, Hid. cbn [andb]. done.
Qed.

Lemma calm_read (ctx : Ctx) (keys : list bytes) (s : Sys) : sys_ok s -> calm s (read_hook ctx keys s).
Proof.
  intros Hs. destruct ctx as [u [cn|] b]; [|by apply calm_same]. destruct (m (conns s) !! connId cn) as [st|] eqn:E.
  - destruct (read_hook_spec cn u b keys s st Hs E) as (Hk & _ & _ & Hin). split; [apply (calm_keeps _ _ Hk)|].
    intros c' st' k _ _ Hold. apply Hin. by right.
  - unfold read_hook. cbn [c_conn]. unfold TrackingOf. pose proof (keeps_state (connId cn) (conns s)) as Hk. unfold state in *. rewrite E in *. by apply calm_keeps.
Qed.

Lemma calm_step (s : Sys) (e : event) : sys_ok s -> calm s (step hasPub s e).
Proof.
  intros Hs. destruct e; cbn [step]; [by apply calm_tracking|by apply calm_caching|by apply calm_read|by apply calm_emit|apply calm_keeps, keeps_op| | |].
  - apply calm_same; destruct (pipes s !! c) as [p|]; [destruct (writeLoop p) as [[]|]| |destruct (writeLoop p) as [[]|]|]; done.
  - by apply calm_same.
  - unfold ConnClosed. assert (calm s (match m (conns s) !! c with Some _ => untrack c s | None => s end)) as [C1 C2].
    { destruct (m (conns s) !! c); [by apply calm_untrack|by apply calm_same]. }
    split; cbn; [intros c' st st' E [_ E']%lookup_delete_Some; by eapply C1|intros c' st' k [_ E']%lookup_delete_Some; by apply (C2 c')].
Qed.

Definition is_on (c : Z) (s : Sys) : bool := match m (conns s) !! c with Some st => On (Track st) | None => false end.
(** Tracking of the connection is on after each event. *)
Fixpoint stays_on (c : Z) (es : list event) (s : Sys) : bool :=
  match es with [] => true | e :: es => is_on c (step hasPub s e) && stays_on c es (step hasPub s e) end.

Lemma row_stays (c : Z) (es : list event) (s : Sys) (st : ConnState) (k : bytes) : sys_ok s -> m (conns s) !! c = Some st -> k ∈ keys_of (tracks s) (ID st) ->
  stays_on c es s = true -> exists st', m (conns (run hasPub es s)) !! c = Some st' /\ k ∈ keys_of (tracks (run hasPub es s)) (ID st').
Proof.
  revert s st. induction es as [|e es IH]; intros s st Hs E Hin; cbn; [eauto|]. intros [Hon Hrest]%andb_true_iff. unfold is_on in Hon.
  destruct (m (conns (step hasPub s e)) !! c) as [st'|] eqn:E'; [|done]. destruct (calm_step s e Hs) as [C1 C2].
  apply (IH _ st'); [by apply step_ok|done| |done]. apply (C2 c); [done|done|]. by rewrite (C1 _ _ _ E E').
Qed.

End persistence.
(** ** The properties *)

Section properties.
Context `{GoUnicode} `{GoFloat} (hasPub : bool).


(** In every reachable state a change of a key puts exactly one
    invalidation frame on the pipe of each RESP3 connection that watches the
    key and did not opt out of its own changes (a full or broken pipe is
    dropped instead), touches no other pipe, and publishes exactly one message
    if such a connection speaks RESP2. *)
Theorem change_notifies_watchers (es : list event) (ctx : Ctx) (raw : bytes) : userKeyFromRaw raw <> [] ->
  let s := run hasPub es init in
  let k := userKeyFromRaw raw in
  let s' := emit hasPub ctx raw s in
  (forall c st, m (conns s) !! c = Some st ->
     pipes s' !! c = if notified ctx s k c st && (3 <=? Proto st) then pushed (push_frame k) (pipes s !! c) else pipes s !! c) /\
  ((exists c st, m (conns s) !! c = Some st /\ notified ctx s k c st = true /\ Proto st < 3) ->
     published s' = published s ++ (if hasPub then [invalidation k] else [])) /\
  ((forall c st, m (conns s) !! c = Some st -> notified ctx s k c st = true -> 3 <= Proto st) -> published s' = published s).
Proof. intros Hk. by apply emit_spec; [apply run_ok, init_ok|]. Qed.


End properties.

(** ** On concrete events *)

Section examples.
#[local] Instance track_ascii : GoUnicode := ascii_tables.
#[local] Instance track_zero : GoFloat := zero_float.

Definition on (c : Z) : Ctx := mkCtx None (Some (mkConn c [])) false.
Definition words (l : list string) : list Value := map (fun s => BulkOf (lit s)) l.

(** Connection 7 speaks RESP3 and tracks; connection 9 writes. *)
Definition prelude : list event := [EConn 7 (OpProto 3); ETracking (on 7) (words ["ON"]%string)].

Lemma change_notifies_watchers_witness :
  pipes (emit true (on 9) (lit "s:k") (run true (prelude ++ [ERead (on 7) [lit "k"]]) init)) !! 7 = Some (mkPipe [push_frame (lit "k")] false 0).
Proof.
  rewrite (proj1 (change_notifies_watchers true (prelude ++ [ERead (on 7) [lit "k"]]) (on 9) (lit "s:k") ltac:(vm_compute; discriminate)) 7
    (mkState 1 3 [] [] [] false (mkCfg true false false false false []) false) ltac:(vm_compute; reflexivity)).
  vm_compute. reflexivity.
Defined.


(** With OPTOUT no read is ever registered: a change of what the client read
    is not announced. *)
Example optout_tracks_nothing :
  pipes (run true [EConn 7 (OpProto 3); ETracking (on 7) (words ["ON"; "OPTOUT"]%string); ERead (on 7) [lit "k"]; EChange (on 9) (lit "s:k")] init) !! 7 = None.
Proof. vm_compute. reflexivity. Qed.

(** A change between the read and its registration is not announced. *)
Example change_before_registration_is_lost :
  pipes (run true (prelude ++ [EChange (on 9) (lit "s:k"); ERead (on 7) [lit "k"]]) init) !! 7 = None.
Proof. vm_compute. reflexivity. Qed.

(** The empty key is tracked and never announced. *)
Example empty_key_is_not_announced :
  let s := run true (prelude ++ [ERead (on 7) [[]]; EChange (on 9) (lit "s:")]) init in KeysFor 1 (tracks s) = [[]] /\ pipes s !! 7 = None.
Proof. vm_compute. done. Qed.

(** The same flag twice is refused, unless it is spelled differently. *)
Example flag_twice :
  (tracking (on 7) (words ["ON"; "BCAST"; "BCAST"]%string) init).1 = syntax /\ (tracking (on 7) (words ["ON"; "BCAST"; "bcast"]%string) init).1 = okReply.
Proof. vm_compute. done. Qed.

End examples.
End track_spec.
