(* ===== verification/Txn.v ===== *)
(** * Transactions (src/internal/commands/txn.go, userkey.go)

    The registry of MULTI sessions, by connection.  Its interceptor queues the
    commands of a session, EXEC replays them through the router, and WATCH
    compares the replication backlog with the watched keys.  The state is the
    table of sessions beside the state [B] of all other handlers, which have no
    access to the table: the handlers and hooks of a router over [B] are lifted. *)

From S2P Require Import Prelude GoLib GoStrings Resp Codec Kv Cmd Acl Replication Router Arity.
Open Scope Z_scope.
Open Scope gedis_scope.

(** The backlog of the hub the registry was given, if any. *)
Class HasHub (B : Type) : Type := { hub_backlog : B -> option replication.Backlog }.

Module txn.
Import network replication.

Definition rawKeyPrefixes : list bytes :=
  [lit "hll:"; lit "st:"; lit "h:"; lit "l:"; lit "s:"; lit "x:"; lit "z:"].

Definition RawToUserKey (raw : bytes) : bytes :=
  match List.find (HasPrefix raw) rawKeyPrefixes with Some p => drop (length p) raw | None => raw end.

Record txnSession : Type := mkSess {
  queue : list Value; dirty : bool; inMulti : bool; watched : gset bytes; lastOff : Z;
}.
Definition new_session : txnSession := mkSess [] false false ∅ 0.

(** [sessions]: by connection. *)
Record TxnApp (B : Type) : Type := mkTxn { sessions : gmap Z txnSession; inner : B }.
Arguments mkTxn {B}. Arguments sessions {B}. Arguments inner {B}.

Section txn.
Context {B Au : Type} `{AuthorizerStore Au} `{AppClock B} `{HasHub B} `{GoUnicode}.
Implicit Types s : Srv (TxnApp B) Au.

#[export] Instance txn_clock : AppClock (TxnApp B) :=
  {| app_now := fun a => let '(t, b) := app_now (inner a) in (t, mkTxn (sessions a) b) |}.

(** ** The handlers that know nothing of transactions *)

Definition down s : Srv B Au := mkSrv (inner (app s)) (sv_auth s) (sv_stats s) (sv_readonly s).
Definition up (m : gmap Z txnSession) (s : Srv B Au) : Srv (TxnApp B) Au :=
  mkSrv (mkTxn m (app s)) (sv_auth s) (sv_stats s) (sv_readonly s).

Definition lift_handler (h : Handler B Au) : Handler (TxnApp B) Au := fun ctx args s =>
  let '(r, s') := h ctx args (down s) in (r, up (sessions (app s)) s').
Definition lift_intercept (f : InterceptFunc B Au) : InterceptFunc (TxnApp B) Au := fun ctx cmd s =>
  let '(r, s') := f ctx cmd (down s) in (r, up (sessions (app s)) s').

Definition lift_hook {X} (f : Ctx -> bytes -> X -> Srv B Au -> Srv B Au) (ctx : Ctx) (name : bytes) (x : X) s :
    Srv (TxnApp B) Au := up (sessions (app s)) (f ctx name x (down s)).

Definition set_sessions s (m : gmap Z txnSession) : Srv (TxnApp B) Au := up m (down s).

(** ** The registry *)

Definition ConnClosed (s : Srv (TxnApp B) Au) (c : Conn) : Srv (TxnApp B) Au :=
  set_sessions s (delete (connId c) (sessions (app s))).

Definition txn_names : list bytes := [lit "MULTI"; lit "EXEC"; lit "DISCARD"; lit "WATCH"].

(** The interceptor; [has] is Has of the router. *)
Definition txn_intercept (has : bytes -> bool) : InterceptFunc (TxnApp B) Au := fun ctx cmd s =>
  if c_replay ctx then (Ok None, s)
  else match cmd with
  | VArray (Some (VBulkString b :: args)) =>
      let name := ToUpper (default [] b) in
      if existsb (bytes_eqb name) txn_names then (Ok None, s)
      else match c_conn ctx with
      | None => (Ok None, s)
      | Some conn =>
          match sessions (app s) !! connId conn with
          | None => (Ok None, s)
          | Some sess =>
              let put sess' := set_sessions s (<[connId conn := sess']> (sessions (app s))) in
              let spoil := put (mkSess (queue sess) true (inMulti sess) (watched sess) (lastOff sess)) in
              if bytes_eqb name (lit "UNWATCH") && negb (inMulti sess) then (Ok None, s)
              else if negb (has name) then (Ok (Some (UnknownCommandReply (VBulkString b) args)), spoil)
              else if negb (checkArity (arity_of name) (len args + 1)) then
                (Ok (Some (VError (lit "ERR wrong number of arguments for '" ++ ToLower name ++ lit "' command"))), spoil)
              else (Ok (Some (VSimpleString (lit "QUEUED"))),
                    put (mkSess (queue sess ++ [cmd]) (dirty sess) (inMulti sess) (watched sess) (lastOff sess)))
          end
      end
  | _ => (Ok None, s)
  end.

Definition not_client : Value :=
  errS "ERR MULTI/EXEC/DISCARD/WATCH/UNWATCH can only be used in client context".

Definition with_conn (ctx : Ctx) s (k : Z -> result Value * Srv (TxnApp B) Au) : result Value * Srv (TxnApp B) Au :=
  match c_conn ctx with None => (Ok not_client, s) | Some c => k (connId c) end.

Definition latest s : Z :=
  match hub_backlog (inner (app s)) with None => 0 | Some b => Latest b end.

Definition catchupDirty (b : option Backlog) (sess : txnSession) : bool :=
  match b with
  | None => false
  | Some b =>
      if bool_decide (watched sess = ∅) then false
      else match Since b (lastOff sess) with
      | Ok missed => existsb (fun op => bool_decide (RawToUserKey (Key op) ∈ watched sess)) missed
      | _ => true
      end
  end.

Definition handleMulti : Handler (TxnApp B) Au := fun ctx _ s =>
  with_conn ctx s (fun c =>
    let sess := default new_session (sessions (app s) !! c) in
    if inMulti sess then (Ok (errS "ERR MULTI calls can not be nested"), s)
    else (Ok okReply, set_sessions s (<[c := mkSess (queue sess) (dirty sess) true (watched sess) (lastOff sess)]> (sessions (app s))))).

Definition handleDiscard : Handler (TxnApp B) Au := fun ctx _ s =>
  with_conn ctx s (fun c =>
    if inMulti (default new_session (sessions (app s) !! c))
    then (Ok okReply, set_sessions s (delete c (sessions (app s))))
    else (Ok (errS "ERR DISCARD without MULTI"), s)).

Definition handleWatch : Handler (TxnApp B) Au := fun ctx args s =>
  match args with
  | [] => (Ok (wrong_args "watch"), s)
  | _ =>
      with_conn ctx s (fun c =>
        let sess := default new_session (sessions (app s) !! c) in
        if inMulti sess then (Ok (errS "ERR WATCH inside MULTI is not allowed"), s)
        else
          let off := if bool_decide (watched sess = ∅) then latest s else lastOff sess in
          (Ok okReply, set_sessions s
             (<[c := mkSess (queue sess) (dirty sess) false (watched sess ∪ list_to_set (map Bulk args)) off]> (sessions (app s)))))
  end.

Definition handleUnwatch : Handler (TxnApp B) Au := fun ctx args s =>
  match args with
  | _ :: _ => (Ok (wrong_args "unwatch"), s)
  | [] =>
      with_conn ctx s (fun c =>
        (Ok okReply,
         match sessions (app s) !! c with
         | None => s
         | Some sess =>
             if bool_decide (queue sess = []) && negb (inMulti sess) then set_sessions s (delete c (sessions (app s)))
             else set_sessions s (<[c := mkSess (queue sess) (dirty sess) (inMulti sess) ∅ (lastOff sess)]> (sessions (app s)))
         end))
  end.

Definition replay_ctx (ctx : Ctx) : Ctx := mkCtx (c_user ctx) (c_conn ctx) true.

(** The loop of EXEC over [dispatch]; a panic ends it. *)
Fixpoint replay {S} (dispatch : Value -> S -> result Value * S) (q : list Value) (s : S) : result (list Value) * S :=
  match q with
  | [] => (Ok [], s)
  | cmd :: q =>
      match dispatch cmd s with
      | (Ok v, s) =>
          match replay dispatch q s with
          | (Ok vs, s) => (Ok (v :: vs), s)
          | x => x
          end
      | (Err e, s) => (Err e, s)
      | (Panic, s) => (Panic, s)
      end
  end.

(** PreExec: the cluster's check of the queue, when there is one. *)
Variable PreExec : option (Ctx -> list Value -> B -> result (option Value)).

Definition handleExec (dispatch : Ctx -> Value -> Srv (TxnApp B) Au -> result Value * Srv (TxnApp B) Au) :
    Handler (TxnApp B) Au := fun ctx _ s =>
  with_conn ctx s (fun c =>
    match sessions (app s) !! c with
    | Some sess =>
        if negb (inMulti sess) then (Ok (errS "ERR EXEC without MULTI"), s)
        else
          let s := set_sessions s (delete c (sessions (app s))) in
          if dirty sess then (Ok (errS "EXECABORT Transaction discarded because of previous errors."), s)
          else match (match PreExec with Some f => f ctx (queue sess) (inner (app s)) | None => Ok None end) with
          | Ok (Some reply) => (Ok reply, s)
          | Err e => (Err e, s)
          | Panic => (Panic, s)
          | Ok None =>
              if catchupDirty (hub_backlog (inner (app s))) sess then (Ok (VArray None), s)
              else match replay (dispatch (replay_ctx ctx)) (queue sess) s with
              | (Ok vs, s) => (Ok (ArrayOf vs), s)
              | (Err e, s) => (Err e, s)
              | (Panic, s) => (Panic, s)
              end
          end
    | None => (Ok (errS "ERR EXEC without MULTI"), s)
    end).

(** ** The router with transactions

    [r] is the router the other commands are registered with.  EXEC calls the
    router it is registered with, whose EXEC handler may again: [txn_router n]
    allows [n] nested calls. *)
Variable r : Router B Au.
Variable t : acl.metas.

Definition txn_handlers (dispatch : Ctx -> Value -> Srv (TxnApp B) Au -> result Value * Srv (TxnApp B) Au) :
    gmap bytes (Handler (TxnApp B) Au) :=
  <[lit "MULTI" := handleMulti]> (<[lit "EXEC" := handleExec dispatch]> (<[lit "DISCARD" := handleDiscard]>
  (<[lit "WATCH" := handleWatch]> (<[lit "UNWATCH" := handleUnwatch]> (lift_handler <$> handlers r))))).

Definition txn_has (name : bytes) : bool :=
  existsb (bytes_eqb name) (lit "UNWATCH" :: txn_names) || Has r name.

(** RegisterTxn, then the other interceptors chained behind. *)
Definition RegisterTxn (dispatch : Ctx -> Value -> Srv (TxnApp B) Au -> result Value * Srv (TxnApp B) Au) : Router (TxnApp B) Au :=
  let own := txn_intercept txn_has in
  mkRouter (txn_handlers dispatch) (writeCmds r)
    (Some match intercept r with None => own | Some f => chained own (lift_intercept f) end)
    (lift_hook <$> monitorHook r) (lift_hook <$> readHook r).

Fixpoint txn_router (n : nat) : Router (TxnApp B) Au :=
  RegisterTxn match n with O => fun _ _ s => (Panic, s) | S n => Dispatch t (txn_router n) end.

(** ** Lifted runs *)

(** A run over [B] beside the table of sessions. *)
Definition lifted {X} (f : Srv B Au -> X * Srv B Au) s : X * Srv (TxnApp B) Au :=
  let '(x, s') := f (down s) in (x, up (sessions (app s)) s').

Lemma up_down s : up (sessions (app s)) (down s) = s.
Proof. by destruct s as [[]]. Qed.

Lemma down_up m (s : Srv B Au) : down (up m s) = s.
Proof. by destruct s. Qed.

Lemma read_now_lifted s : read_now s = lifted read_now s.
Proof.
  unfold lifted, read_now, down. cbn [app app_now txn_clock]. by destruct (app_now (inner (app s))).
Qed.

Lemma auth_gate_lifted ctx name args s : auth_gate t ctx name args s = lifted (auth_gate t ctx name args) s.
Proof.
  unfold lifted, auth_gate. cbn [sv_auth down]. destruct (sv_auth s) as [au|]; [|by rewrite up_down].
  destruct (negb _ || _); [by rewrite up_down|]. destruct (_ && _); [by destruct s as [[]]|].
  destruct (extractKeys t name args) as [keys| |]; try by rewrite up_down.
  destruct (au_check _ _ _ _ _) as [[msg|]| |]; try by rewrite up_down.
  rewrite read_now_lifted. unfold lifted. change (down (count_command s)) with (count_command (down s)).
  by destruct (read_now (count_command (down s))).
Qed.

Lemma log_slow_lifted name args start s :
  log_slow name args start s = up (sessions (app s)) (log_slow name args start (down s)).
Proof.
  unfold log_slow. cbn [sv_stats down]. destruct (sv_stats s) as [st|]; [|by rewrite up_down].
  rewrite read_now_lifted. unfold lifted. destruct (read_now (down s)) as [ns s1]. destruct (_ && _); [|done].
  rewrite read_now_lifted. unfold lifted. rewrite down_up. by destruct (read_now s1).
Qed.

Lemma begin_lifted s : begin s = lifted begin s.
Proof.
  unfold begin, lifted. cbn [sv_stats down]. destruct (sv_stats s); [|by rewrite up_down]. by rewrite read_now_lifted.
Qed.

Lemma call_monitor_lifted d ctx name args m (s : Srv B Au) :
  call_monitor (RegisterTxn d) ctx name args (up m s) = up m (call_monitor r ctx name args s).
Proof.
  unfold call_monitor. cbn [monitorHook RegisterTxn]. destruct (monitorHook r); [|done]. cbn. unfold lift_hook. by rewrite down_up.
Qed.

Lemma call_read_hook_lifted d ctx name args v m (s : Srv B Au) :
  call_read_hook t (RegisterTxn d) ctx name args v (up m s) =
  let '(x, s') := call_read_hook t r ctx name args v s in (x, up m s').
Proof.
  unfold call_read_hook. cbn [readHook writeCmds RegisterTxn]. destruct (readHook r) as [f|]; [|done]. cbn [fmap option_fmap option_map].
  destruct (_ || _); [done|]. destruct (extractKeys t name args) as [[|k ks]| |]; try done. unfold lift_hook. by rewrite down_up.
Qed.

Lemma run_handler_lifted d h ctx name args s :
  run_handler t (RegisterTxn d) (lift_handler h) ctx name args s = lifted (run_handler t r h ctx name args) s.
Proof.
  unfold run_handler. rewrite begin_lifted. unfold lifted. destruct (begin (down s)) as [start s1].
  rewrite call_monitor_lifted. unfold lift_handler. rewrite down_up.
  destruct (h ctx args _) as [[v|e|] s3]; [|done..]. by rewrite log_slow_lifted, down_up, call_read_hook_lifted.
Qed.

Lemma hook_lifted {X} (R : TxnApp B -> TxnApp B -> Prop) (f : option (Ctx -> bytes -> X -> Srv B Au -> Srv B Au)) :
  (forall a a', sessions a' = sessions a -> R a a') -> hook_R R (lift_hook <$> f).
Proof. intros HR. unfold hook_R. destruct f; cbn; [|done]. intros. by apply HR. Qed.

(** ** The tables *)

Lemma txn_handlers_other d name :
  existsb (bytes_eqb name) (lit "UNWATCH" :: txn_names) = false ->
  txn_handlers d !! name = lift_handler <$> (handlers r !! name).
Proof.
  intros Hn. unfold txn_handlers.
  assert (forall x, x ∈ lit "UNWATCH" :: txn_names -> x <> name) as Hx.
  { intros x Hin ->. assert (existsb (bytes_eqb name) (lit "UNWATCH" :: txn_names) = true); [|congruence].
    apply existsb_exists. exists name. split; [by apply list_elem_of_In|apply bytes_eqb_refl]. }
  rewrite !lookup_insert_ne by (apply Hx; unfold txn_names; set_solver). apply lookup_fmap.
Qed.

Lemma txn_has_ok d name : Has (RegisterTxn d) name = txn_has name.
Proof.
  unfold Has, txn_has. cbn [handlers RegisterTxn]. destruct (existsb _ _) eqn:E.
  - apply bool_decide_eq_true_2. apply existsb_exists in E as (x & Hx & Hb). destruct (bytes_eqb_spec name x) as [<-|]; [|done].
    unfold txn_handlers. rewrite !lookup_insert_is_Some'. unfold txn_names in Hx. cbn in Hx. naive_solver.
  - rewrite txn_handlers_other by done. cbn [orb]. unfold Has. apply bool_decide_ext. by rewrite fmap_is_Some.
Qed.

(** ** Queued commands *)

Definition name_of (cmd : Value) : option bytes :=
  match cmd with VArray (Some (VBulkString b :: _)) => Some (ToUpper (default [] b)) | _ => None end.
Definition argc (cmd : Value) : Z := match cmd with VArray (Some l) => len l | _ => 0 end.

(** A well-formed call of a known command that is not itself about
    transactions. *)
Definition queueable (cmd : Value) : Prop :=
  exists name, name_of cmd = Some name /\ existsb (bytes_eqb name) (lit "UNWATCH" :: txn_names) = false /\
    Has r name = true /\ checkArity (arity_of name) (argc cmd) = true.

Lemma name_of_shape cmd name :
  name_of cmd = Some name -> exists b args, cmd = VArray (Some (VBulkString b :: args)) /\ name = ToUpper (default [] b).
Proof. destruct cmd as [| | | |[[|[] args]|]| | | | | | | | | | | ]; try done. cbn. intros [= <-]. eauto. Qed.

Lemma Dispatch_replayed d ctx cmd s :
  c_replay ctx = true -> queueable cmd -> Dispatch t (RegisterTxn d) ctx cmd s = lifted (Dispatch t r ctx cmd) s.
Proof.
  intros Hc (name & Hn & Hx & _ & _). apply name_of_shape in Hn as (b & args & -> & ->).
  unfold Dispatch, lifted. cbn [cmdName]. set (name := ToUpper _) in *. set (cmd := VArray _). cbn zeta.
  change (sv_readonly (down s)) with (sv_readonly s). change (writeCmds (RegisterTxn d)) with (writeCmds r).
  cbn [intercept RegisterTxn].
  assert (forall s, match intercept r with None => txn_intercept txn_has | Some f => chained (txn_intercept txn_has) (lift_intercept f) end ctx cmd s =
            lifted (fun s : Srv B Au => match intercept r with Some f => f ctx cmd s | None => (Ok None, s) end) s) as ->.
  { intros s'. assert (txn_intercept txn_has ctx cmd s' = (Ok None, s')) as Hown by (unfold txn_intercept; by rewrite Hc).
    unfold lifted, chained, lift_intercept. destruct (intercept r); rewrite Hown; [done|by rewrite up_down]. }
  unfold lifted. destruct (match intercept r with Some f => _ | None => _ end) as [[[v|]|e|] s1]; try done.
  rewrite auth_gate_lifted. unfold lifted. rewrite down_up.
  destruct (auth_gate t ctx name args s1) as [[[v|]|e|] s2]; try done.
  cbn [handlers RegisterTxn]. rewrite txn_handlers_other by done. destruct (handlers r !! name) as [h|]; [|done]. cbn [fmap option_fmap option_map].
  destruct (_ && _); [done|]. rewrite run_handler_lifted. unfold lifted. by rewrite down_up.
Qed.

Lemma replay_lifted d ctx q s :
  c_replay ctx = true -> Forall queueable q ->
  replay (Dispatch t (RegisterTxn d) ctx) q s = lifted (replay (Dispatch t r ctx) q) s.
Proof.
  intros Hc Hq. revert s. induction Hq as [|cmd q Hcmd Hq IH]; intros s; [unfold lifted; cbn; by rewrite up_down|].
  cbn [replay]. rewrite Dispatch_replayed by done. unfold lifted. cbn [replay].
  destruct (Dispatch t r ctx cmd (down s)) as [[v|e|] s1]; [|done..]. rewrite IH. unfold lifted. rewrite down_up.
  by destruct (replay (Dispatch t r ctx) q s1) as [[vs|e|] s2].
Qed.

Lemma intercept_queues ctx conn cmd s sess :
  c_replay ctx = false -> c_conn ctx = Some conn -> sessions (app s) !! connId conn = Some sess -> queueable cmd ->
  txn_intercept txn_has ctx cmd s = (Ok (Some (VSimpleString (lit "QUEUED"))),
    set_sessions s (<[connId conn := mkSess (queue sess ++ [cmd]) (dirty sess) (inMulti sess) (watched sess) (lastOff sess)]>
                      (sessions (app s)))).
Proof.
  intros Hc Hconn Hs (name & Hn & Hx & Hhas & Ha). apply name_of_shape in Hn as (b & args & -> & ->).
  unfold txn_intercept. rewrite Hc. set (name := ToUpper _) in *.
  change (bytes_eqb name (lit "UNWATCH") || existsb (bytes_eqb name) txn_names = false) in Hx.
  apply orb_false_iff in Hx as [Hu Hx]. rewrite Hx, Hu.
  rewrite Hconn, Hs. cbn [andb]. unfold txn_has at 1. rewrite Hhas, orb_true_r. cbn [negb].
  cbn [argc] in Ha. rewrite len_cons, Z.add_comm in Ha. by rewrite Ha.
Qed.

(** ** Connections do not disturb each other *)

Definition from (c : Z) (ctx : Ctx) : Prop := exists conn, c_conn ctx = Some conn /\ connId conn = c.

Definition keeps (c : Z) (a a' : TxnApp B) : Prop := sessions a' !! c = sessions a !! c.
#[local] Instance keeps_preorder c : PreOrder (keeps c).
Proof. split; [done|]. intros x y z Hx Hy. unfold keeps in *. congruence. Qed.

Lemma keeps_clock c (a : TxnApp B) : keeps c a (app_now a).2.
Proof. unfold keeps. cbn. by destruct (app_now (inner a)). Qed.

Lemma with_conn_keeps c ctx s k :
  ~ from c ctx -> (forall d, d <> c -> keeps c (app s) (app (k d).2)) -> keeps c (app s) (app (with_conn ctx s k).2).
Proof.
  intros Hf Hk. unfold with_conn. destruct (c_conn ctx) as [conn|] eqn:E; [|done]. apply Hk. intros <-. apply Hf. by exists conn.
Qed.

Lemma keeps_insert c d x s : d <> c -> keeps c (app s) (app (set_sessions s (<[d := x]> (sessions (app s))))).
Proof. intros Hd. unfold keeps, set_sessions. cbn. by rewrite lookup_insert_ne. Qed.
Lemma keeps_delete c d s : d <> c -> keeps c (app s) (app (set_sessions s (delete d (sessions (app s))))).
Proof. intros Hd. unfold keeps, set_sessions. cbn. by rewrite lookup_delete_ne. Qed.
#[local] Hint Resolve keeps_insert keeps_delete : core.

Lemma replay_keeps c (d : Value -> Srv (TxnApp B) Au -> result Value * Srv (TxnApp B) Au) q s :
  (forall cmd s, keeps c (app s) (app (d cmd s).2)) -> keeps c (app s) (app (replay d q s).2).
Proof.
  intros Hd. revert s. induction q as [|cmd q IH]; intros s; cbn; [done|]. pose proof (Hd cmd s) as E.
  destruct (d cmd s) as [[v|e|] s1]; [|done..]. pose proof (IH s1) as E'. destruct (replay d q s1) as [[vs|e|] s2]; cbn in *; by transitivity (app s1).
Qed.

Lemma handleExec_keeps c d ctx args s :
  ~ from c ctx -> (forall cmd s, keeps c (app s) (app (d (replay_ctx ctx) cmd s).2)) ->
  keeps c (app s) (app (handleExec d ctx args s).2).
Proof.
  intros Hf Hd. apply with_conn_keeps; [done|]. intros x Hx. destruct (sessions (app s) !! x) as [sess|]; [|done].
  destruct (negb _); [done|]. cbn zeta. destruct (dirty sess); [by apply keeps_delete|].
  destruct (match PreExec with Some _ => _ | None => _ end) as [[v|]|e|]; try (by apply keeps_delete).
  destruct (catchupDirty _ _); [by apply keeps_delete|]. set (s1 := set_sessions _ _).
  pose proof (replay_keeps c (d (replay_ctx ctx)) (queue sess) s1 Hd) as E.
  assert (keeps c (app s) (app s1)) by (by apply keeps_delete).
  destruct (replay _ _ s1) as [[vs|e|] s2]; cbn in E |- *; by transitivity (app s1).
Qed.

Lemma handlers_keep c d ctx :
  ~ from c ctx -> (forall cmd s, keeps c (app s) (app (d (replay_ctx ctx) cmd s).2)) ->
  forall name h, txn_handlers d !! name = Some h -> forall args s, keeps c (app s) (app (h ctx args s).2).
Proof.
  intros Hf Hd name h. unfold txn_handlers. rewrite !lookup_insert_Some.
  intros [[_ <-]|[_ [[_ <-]|[_ [[_ <-]|[_ [[_ <-]|[_ [[_ <-]|[_ Hh]]]]]]]]]] args s.
  - apply with_conn_keeps; [done|]. intros x Hx. cbv beta zeta. destruct (inMulti _); [done|]. by apply keeps_insert.
  - by apply handleExec_keeps.
  - apply with_conn_keeps; [done|]. intros x Hx. cbv beta zeta. destruct (inMulti _); [|done]. by apply keeps_delete.
  - unfold handleWatch. destruct args; [done|]. apply with_conn_keeps; [done|]. intros x Hx. cbv beta zeta. destruct (inMulti _); [done|]. by apply keeps_insert.
  - unfold handleUnwatch. destruct args; [|done]. apply with_conn_keeps; [done|]. intros x Hx.
    destruct (sessions (app s) !! x); [|done]. destruct (_ && _); [by apply keeps_delete|by apply keeps_insert].
  - rewrite lookup_fmap in Hh. apply fmap_Some in Hh as (h' & _ & ->). unfold lift_handler. by destruct (h' ctx args (down s)).
Qed.

Lemma intercept_keeps c f ctx cmd s : ~ from c ctx -> keeps c (app s) (app (txn_intercept f ctx cmd s).2).
Proof.
  intros Hf. unfold txn_intercept. destruct (c_replay ctx); [done|]. destruct cmd as [| | | |[[|[] args]|]| | | | | | | | | | | ]; try done.
  destruct (existsb _ _); [done|]. destruct (c_conn ctx) as [conn|] eqn:E; [|done].
  destruct (sessions (app s) !! connId conn) as [sess|]; [|done]. cbn zeta.
  assert (connId conn <> c) by (intros <-; apply Hf; by exists conn).
  destruct (_ && _); [done|]. destruct (negb (f _)); [by apply keeps_insert|].
  destruct (negb (checkArity _ _)); by apply keeps_insert.
Qed.

Lemma Dispatch_keeps c n ctx cmd s : ~ from c ctx -> keeps c (app s) (app (Dispatch t (txn_router n) ctx cmd s).2).
Proof.
  revert ctx cmd s. induction n as [|n IH]; intros ctx cmd s Hf; apply Dispatch_R; try apply _;
    try apply keeps_clock; try (apply hook_lifted; unfold keeps; congruence).
  1, 3: apply handlers_keep; [done|]; intros; try done; by apply IH.
  all: intros f; cbn [intercept txn_router RegisterTxn]; intros [= <-] s';
    (destruct (intercept r) as [g|]; [|by apply intercept_keeps]); unfold chained;
    pose proof (intercept_keeps c txn_has ctx cmd s' Hf) as E; destruct (txn_intercept txn_has ctx cmd s') as [[[v|]|e|] s1]; try done;
    unfold lift_intercept; by destruct (g ctx cmd (down s1)).
Qed.

(** ** Runs of several clients *)

Definition run (n : nat) (tr : list (Ctx * Value)) s : Srv (TxnApp B) Au :=
  foldl (fun s '(ctx, cmd) => (Dispatch t (txn_router n) ctx cmd s).2) s tr.
Definition replies (n : nat) (tr : list (Ctx * Value)) s : list (result Value) :=
  (fix go tr s := match tr with
   | [] => []
   | (ctx, cmd) :: tr => (Dispatch t (txn_router n) ctx cmd s).1 :: go tr (Dispatch t (txn_router n) ctx cmd s).2
   end) tr s.

(** Another connection's command, whatever it is, or a command to be queued. *)
Definition step_of (c : Z) (own : bool) (ev : Ctx * Value) : Prop :=
  if own then c_replay ev.1 = false /\ from c ev.1 /\ queueable ev.2 else ~ from c ev.1.

(** The commands of the connection, given which steps are its own. *)
Definition own_cmds (owns : list bool) (tr : list (Ctx * Value)) : list Value :=
  omap (fun '(o, ev) => if (o : bool) then Some ev.2 else None) (zip owns tr).

Lemma Dispatch_queues n ctx conn cmd s sess :
  c_replay ctx = false -> c_conn ctx = Some conn -> sessions (app s) !! connId conn = Some sess -> queueable cmd ->
  (Dispatch t (txn_router n) ctx cmd s).1 = Ok (VSimpleString (lit "QUEUED")) /\
  sessions (app (Dispatch t (txn_router n) ctx cmd s).2) !! connId conn =
    Some (mkSess (queue sess ++ [cmd]) (dirty sess) (inMulti sess) (watched sess) (lastOff sess)).
Proof.
  intros Hc Hconn Hs Hq. pose proof (intercept_queues ctx conn cmd s sess Hc Hconn Hs Hq) as Hi.
  destruct Hq as (name & Hn & _). apply name_of_shape in Hn as (b & args & -> & ->).
  assert (exists f, intercept (txn_router n) = Some f /\ f ctx (VArray (Some (VBulkString b :: args))) s =
            txn_intercept txn_has ctx (VArray (Some (VBulkString b :: args))) s) as (f & Ef & Hf).
  { destruct n; cbn [intercept txn_router RegisterTxn]; (eexists; split; [done|]); destruct (intercept r); unfold chained; by rewrite ?Hi. }
  unfold Dispatch. cbn [cmdName]. cbv zeta. rewrite Ef, Hf, Hi. cbn. by rewrite lookup_insert_eq.
Qed.

Lemma run_collects n c owns tr s sess :
  Forall2 (step_of c) owns tr -> sessions (app s) !! c = Some sess ->
  sessions (app (run n tr s)) !! c =
    Some (mkSess (queue sess ++ own_cmds owns tr) (dirty sess) (inMulti sess) (watched sess) (lastOff sess)) /\
  Forall2 (fun o v => (o : bool) = true -> v = Ok (VSimpleString (lit "QUEUED"))) owns (replies n tr s).
Proof.
  intros Htr. revert s sess. induction Htr as [|o [ctx cmd] owns tr Hev Htr IH]; intros s sess Hs.
  { cbn. rewrite app_nil_r. split; [by destruct sess|constructor]. }
  unfold run. cbn [foldl]. fold (run n tr (Dispatch t (txn_router n) ctx cmd s).2). destruct o; cbn [step_of fst snd] in Hev.
  - destruct Hev as (Hc & (conn & Hconn & <-) & Hq).
    destruct (Dispatch_queues n ctx conn cmd s sess Hc Hconn Hs Hq) as [Hv Hs1].
    destruct (IH _ _ Hs1) as [E1 E2]. rewrite E1. cbn [queue dirty inMulti watched lastOff].
    change (own_cmds (true :: owns) ((ctx, cmd) :: tr)) with (cmd :: own_cmds owns tr). rewrite <- app_assoc. split; [done|].
    constructor; [by intros _|done].
  - assert (sessions (app (Dispatch t (txn_router n) ctx cmd s).2) !! c = Some sess) as Hs1.
    { rewrite <- Hs. by apply (Dispatch_keeps c n ctx cmd s). }
    destruct (IH _ _ Hs1) as [E1 E2]. rewrite E1. split; [done|]. constructor; [done|exact E2].
Qed.

Lemma own_queueable c owns tr : Forall2 (step_of c) owns tr -> Forall queueable (own_cmds owns tr).
Proof.
  induction 1 as [|[] [ctx cmd] owns tr Hev Htr IH]; [constructor| |done].
  change (own_cmds (true :: owns) ((ctx, cmd) :: tr)) with (cmd :: own_cmds owns tr). constructor; [apply Hev|done].
Qed.

(** Neither dirty nor refused by the cluster's check. *)
Definition exec_passes (ctx : Ctx) (q : list Value) s : Prop :=
  match PreExec with Some f => f ctx q (inner (app s)) = Ok None | None => True end.

Lemma handleExec_replays d ctx conn args q W off s :
  c_conn ctx = Some conn -> sessions (app s) !! connId conn = Some (mkSess q false true W off) ->
  exec_passes ctx q s -> catchupDirty (hub_backlog (inner (app s))) (mkSess q false true W off) = false -> Forall queueable q ->
  handleExec (Dispatch t (RegisterTxn d)) ctx args s =
  match replay (Dispatch t r (replay_ctx ctx)) q (down s) with
  | (Ok vs, s') => (Ok (ArrayOf vs), up (delete (connId conn) (sessions (app s))) s')
  | (Err e, s') => (Err e, up (delete (connId conn) (sessions (app s))) s')
  | (Panic, s') => (Panic, up (delete (connId conn) (sessions (app s))) s')
  end.
Proof.
  intros Hc Hs Hp Hd Hq. unfold handleExec, with_conn. rewrite Hc, Hs. cbn [inMulti negb dirty queue].
  set (s1 := set_sessions s _). change (inner (app s1)) with (inner (app s)).
  assert (match PreExec with Some f => f ctx q (inner (app s)) | None => Ok None end = Ok None) as ->.
  { unfold exec_passes in Hp. by destruct PreExec. }
  rewrite Hd. rewrite replay_lifted by done. unfold lifted. change (down s1) with (down s).
  change (sessions (app s1)) with (delete (connId conn) (sessions (app s))).
  by destruct (replay _ q (down s)) as [[vs|e|] s2].
Qed.


(** A call of an unknown command, or with a wrong number of arguments. *)
Definition malformed (cmd : Value) : Prop :=
  exists name, name_of cmd = Some name /\ existsb (bytes_eqb name) (lit "UNWATCH" :: txn_names) = false /\
    (Has r name = false \/ checkArity (arity_of name) (argc cmd) = false).

Lemma txn_has_other name : existsb (bytes_eqb name) (lit "UNWATCH" :: txn_names) = false -> txn_has name = Has r name.
Proof. intros Hx. unfold txn_has. by rewrite Hx. Qed.

Lemma intercept_spoils ctx conn cmd s sess :
  c_replay ctx = false -> c_conn ctx = Some conn -> sessions (app s) !! connId conn = Some sess -> malformed cmd ->
  exists e, txn_intercept txn_has ctx cmd s = (Ok (Some (VError e)),
    set_sessions s (<[connId conn := mkSess (queue sess) true (inMulti sess) (watched sess) (lastOff sess)]> (sessions (app s)))).
Proof.
  intros Hc Hconn Hs (name & Hn & Hx & Hm). apply name_of_shape in Hn as (b & args & -> & ->).
  unfold txn_intercept. rewrite Hc. pose proof (txn_has_other _ Hx) as Hh. set (name := ToUpper _) in *.
  change (bytes_eqb name (lit "UNWATCH") || existsb (bytes_eqb name) txn_names = false) in Hx.
  apply orb_false_iff in Hx as [Hu Hx]. rewrite Hx, Hu, Hconn, Hs, Hh. cbn [andb].
  cbn [argc] in Hm. rewrite len_cons, Z.add_comm in Hm. destruct (Has r name) eqn:E; cbn [negb].
  - destruct Hm as [? | ->]; [done|]. cbn [negb]. by eexists.
  - unfold UnknownCommandReply. by eexists.
Qed.

Lemma Dispatch_spoils n ctx conn cmd s sess :
  c_replay ctx = false -> c_conn ctx = Some conn -> sessions (app s) !! connId conn = Some sess -> malformed cmd ->
  (exists e, (Dispatch t (txn_router n) ctx cmd s).1 = Ok (VError e)) /\
  sessions (app (Dispatch t (txn_router n) ctx cmd s).2) !! connId conn =
    Some (mkSess (queue sess) true (inMulti sess) (watched sess) (lastOff sess)).
Proof.
  intros Hc Hconn Hs Hq. destruct (intercept_spoils ctx conn cmd s sess Hc Hconn Hs Hq) as [e Hi].
  destruct Hq as (name & Hn & _). apply name_of_shape in Hn as (b & args & -> & ->).
  assert (exists f, intercept (txn_router n) = Some f /\ f ctx (VArray (Some (VBulkString b :: args))) s =
            txn_intercept txn_has ctx (VArray (Some (VBulkString b :: args))) s) as (f & Ef & Hf).
  { destruct n; cbn [intercept txn_router RegisterTxn]; (eexists; split; [done|]); destruct (intercept r); unfold chained; by rewrite ?Hi. }
  unfold Dispatch. cbn [cmdName]. cbv zeta. rewrite Ef, Hf, Hi. cbn. rewrite lookup_insert_eq. eauto.
Qed.

(** C28: one malformed call between MULTI and EXEC spoils the transaction as a
    whole: the call is answered with an error, and EXEC, whatever was queued
    before and after it and whatever other connections did meanwhile, answers
    EXECABORT, runs none of the queued commands and ends the session. *)
Theorem exec_refuses_spoilt n d ctx conn owns tr owns' tr' bad s off W args :
  c_conn ctx = Some conn -> c_replay ctx = false -> sessions (app s) !! connId conn = Some (mkSess [] false true W off) ->
  Forall2 (step_of (connId conn)) owns tr -> malformed bad -> Forall2 (step_of (connId conn)) owns' tr' ->
  let s1 := run n tr s in
  (exists e, (Dispatch t (txn_router n) ctx bad s1).1 = Ok (VError e)) /\
  let s2 := run n tr' (Dispatch t (txn_router n) ctx bad s1).2 in
  handleExec d ctx args s2 =
  (Ok (errS "EXECABORT Transaction discarded because of previous errors."), set_sessions s2 (delete (connId conn) (sessions (app s2)))).
Proof.
  intros Hc Hrp Hs Htr Hbad Htr' s1. destruct (run_collects n (connId conn) owns tr s _ Htr Hs) as [Hs1 _].
  destruct (Dispatch_spoils n ctx conn bad s1 _ Hrp Hc Hs1 Hbad) as [He Hs2]. split; [done|]. intros s2.
  destruct (run_collects n (connId conn) owns' tr' _ _ Htr' Hs2) as [Hs3 _]. fold s2 in Hs3.
  unfold handleExec, with_conn. by rewrite Hc, Hs3.
Qed.

(** ** WATCH *)

(** An operation of [l] is on a watched key, or more operations were published
    than the backlog keeps. *)
Definition touched (b : Backlog) (W : gset bytes) (l : list Op) : Prop :=
  max b < len l \/ exists op, op ∈ l /\ RawToUserKey (Key op) ∈ W.

Lemma numbered_keys k l : map Key (numbered k l) = map Key l.
Proof. revert k. induction l as [|op l IH]; intros k; cbn; [done|]. by rewrite IH. Qed.

Lemma catchup_exact b hist l W q d m :
  backlog_ok b hist -> len hist + len l < 2 ^ 63 -> W <> ∅ ->
  catchupDirty (Some (append_all b l)) (mkSess q d m W (len hist)) = true <-> touched b W l.
Proof.
  intros Hb Hlen HW. unfold catchupDirty, touched. cbn [watched lastOff]. rewrite bool_decide_eq_false_2 by done.
  destruct (append_all_ok b hist l Hb Hlen) as [Hm Hok]. rewrite (Since_ok _ _ _ Hok). destruct Hok as (Hmax & _ & _ & Hbase & _).
  rewrite Hbase, Hm. unfold len at 2. rewrite length_app, numbered_length, Nat2Z.inj_add. fold (len hist) (len l).
  pose proof (len_nonneg hist). destruct (len hist <? _) eqn:E; breflect.
  - split; [|done]. intros _. left. lia.
  - unfold len at 1. rewrite Nat2Z.id, drop_app_length. rewrite existsb_exists. split.
    + intros (op & Hin & Hw%bool_decide_eq_true). right. assert (In (Key op) (map Key l)) as Hk.
      { rewrite <- (numbered_keys (len hist) l). by apply in_map. }
      apply in_map_iff in Hk as (op' & Ek & Hin'). exists op'. by rewrite list_elem_of_In, Ek.
    + intros [?|(op & Hin & Hw)]; [lia|]. apply list_elem_of_In in Hin. apply (in_map Key) in Hin.
      rewrite <- (numbered_keys (len hist) l) in Hin. apply in_map_iff in Hin as (op' & Ek & Hin'). exists op'.
      split; [done|]. apply bool_decide_eq_true. by rewrite Ek.
Qed.


(** ** Nesting *)

(** Every queued command is one the interceptor queues. *)
Definition queues_ok (a : TxnApp B) : Prop :=
  forall c sess, sessions a !! c = Some sess ->
    Forall (fun cmd => exists name, name_of cmd = Some name /\ existsb (bytes_eqb name) txn_names = false) (queue sess).

Definition holds (a a' : TxnApp B) : Prop := queues_ok a -> queues_ok a'.
#[local] Instance holds_preorder : PreOrder holds.
Proof. split; [by intros ? ?|]. intros x y z Hx Hy ?. auto. Qed.

Lemma holds_same (a a' : TxnApp B) : sessions a' = sessions a -> holds a a'.
Proof. intros E Ha c sess. rewrite E. apply Ha. Qed.

Lemma holds_insert c sess' s :
  (forall sess, sessions (app s) !! c = Some sess -> queue sess' = queue sess) ->
  (sessions (app s) !! c = None -> queue sess' = []) ->
  holds (app s) (app (set_sessions s (<[c := sess']> (sessions (app s))))).
Proof.
  intros H1' H2' Ha c' x. unfold set_sessions. cbn. rewrite lookup_insert_Some. intros [[<- <-]|[_ Hx]]; [|by apply (Ha c')].
  destruct (sessions (app s) !! c) as [sess|] eqn:E; [rewrite (H1' sess) by done; by apply (Ha c)|]. by rewrite H2'.
Qed.

Lemma holds_delete c s : holds (app s) (app (set_sessions s (delete c (sessions (app s))))).
Proof. intros Ha c' x. unfold set_sessions. cbn. rewrite lookup_delete_Some. intros [_ Hx]. by apply (Ha c'). Qed.

Lemma with_conn_holds ctx s k : (forall d, holds (app s) (app (k d).2)) -> holds (app s) (app (with_conn ctx s k).2).
Proof. intros Hk. unfold with_conn. destruct (c_conn ctx); [apply Hk|done]. Qed.

Lemma replay_holds (d : Value -> Srv (TxnApp B) Au -> result Value * Srv (TxnApp B) Au) q s :
  (forall cmd s, holds (app s) (app (d cmd s).2)) -> holds (app s) (app (replay d q s).2).
Proof.
  intros Hd. revert s. induction q as [|cmd q IH]; intros s; cbn; [done|]. pose proof (Hd cmd s) as E.
  destruct (d cmd s) as [[v|e|] s1]; [|done..]. pose proof (IH s1) as E'. destruct (replay d q s1) as [[vs|e|] s2]; cbn in *; by transitivity (app s1).
Qed.

Lemma handlers_hold d :
  (forall ctx cmd s, holds (app s) (app (d ctx cmd s).2)) ->
  forall name h, txn_handlers d !! name = Some h -> forall ctx args s, holds (app s) (app (h ctx args s).2).
Proof.
  intros Hd name h. unfold txn_handlers. rewrite !lookup_insert_Some.
  intros [[_ <-]|[_ [[_ <-]|[_ [[_ <-]|[_ [[_ <-]|[_ [[_ <-]|[_ Hh]]]]]]]]]] ctx args s.
  - apply with_conn_holds. intros x. cbv beta zeta. destruct (inMulti _); [done|]. apply holds_insert; [by intros ? -> | by intros ->].
  - apply with_conn_holds. intros x. destruct (sessions (app s) !! x) as [sess|]; [|done]. destruct (negb _); [done|]. cbn zeta.
    destruct (dirty sess); [apply holds_delete|].
    destruct (match PreExec with Some _ => _ | None => _ end) as [[v|]|e|]; try apply holds_delete.
    destruct (catchupDirty _ _); [apply holds_delete|]. set (s1 := set_sessions _ _).
    pose proof (replay_holds (d (replay_ctx ctx)) (queue sess) s1 (Hd _)) as E.
    assert (holds (app s) (app s1)) by apply holds_delete.
    destruct (replay _ _ s1) as [[vs|e|] s2]; cbn in E |- *; by transitivity (app s1).
  - apply with_conn_holds. intros x. cbv beta zeta. destruct (inMulti _); [|done]. apply holds_delete.
  - unfold handleWatch. destruct args; [done|]. apply with_conn_holds. intros x. cbv beta zeta. destruct (inMulti _); [done|].
    apply holds_insert; [by intros ? -> | by intros ->].
  - unfold handleUnwatch. destruct args; [|done]. apply with_conn_holds. intros x.
    destruct (sessions (app s) !! x) eqn:E; [|done]. destruct (_ && _); [apply holds_delete|].
    apply holds_insert; rewrite E; [by intros ? [= <-]|done].
  - rewrite lookup_fmap in Hh. apply fmap_Some in Hh as (h' & _ & ->). apply holds_same. unfold lift_handler. by destruct (h' ctx args (down s)).
Qed.

Lemma intercept_holds f ctx cmd s : holds (app s) (app (txn_intercept f ctx cmd s).2).
Proof.
  unfold txn_intercept. destruct (c_replay ctx); [done|]. destruct cmd as [| | | |[[|[] args]|]| | | | | | | | | | | ]; try done.
  destruct (existsb _ _) eqn:En; [done|]. destruct (c_conn ctx) as [conn|]; [|done].
  destruct (sessions (app s) !! connId conn) as [sess|] eqn:E; [|done]. cbn zeta.
  destruct (_ && _); [done|]. destruct (negb (f _)); [apply holds_insert; rewrite E; [by intros ? [= <-]|done]|].
  destruct (negb (checkArity _ _)); [apply holds_insert; rewrite E; [by intros ? [= <-]|done]|].
  intros Ha c x. unfold set_sessions. cbn. rewrite lookup_insert_Some. intros [[<- <-]|[_ Hx]]; [|by apply (Ha c)].
  apply Forall_app. split; [by apply (Ha (connId conn))|]. apply Forall_singleton. eexists. split; [done|]. exact En.
Qed.

Lemma Dispatch_holds n ctx cmd s : holds (app s) (app (Dispatch t (txn_router n) ctx cmd s).2).
Proof.
  revert ctx cmd s. induction n as [|n IH]; intros ctx cmd s; apply Dispatch_R; try apply _;
    try (intros a; apply holds_same; cbn; by destruct (app_now (inner a)));
    try (apply hook_lifted, holds_same).
  1, 3: intros name h Hh args s'; (eapply handlers_hold; [|exact Hh]); intros; done || apply IH.
  all: intros f; cbn [intercept txn_router RegisterTxn]; intros [= <-] s';
    (destruct (intercept r) as [g|]; [|apply intercept_holds]); unfold chained;
    pose proof (intercept_holds txn_has ctx cmd s') as E; destruct (txn_intercept txn_has ctx cmd s') as [[[v|]|e|] s1]; try done;
    (transitivity (app s1); [done|]); apply holds_same; unfold lift_intercept; by destruct (g ctx cmd (down s1)).
Qed.

Lemma Dispatch_no_exec d d' ctx cmd name s :
  name_of cmd = Some name -> name <> lit "EXEC" -> Dispatch t (RegisterTxn d) ctx cmd s = Dispatch t (RegisterTxn d') ctx cmd s.
Proof.
  intros Hn Hx. apply name_of_shape in Hn as (b & args & -> & ->). unfold Dispatch. cbn [cmdName].
  assert (handlers (RegisterTxn d) !! ToUpper (default [] b) = handlers (RegisterTxn d') !! ToUpper (default [] b)) as Hh.
  { cbn [handlers RegisterTxn]. unfold txn_handlers. destruct (decide (lit "MULTI" = ToUpper (default [] b))) as [<-|Hm].
    - by rewrite !lookup_insert_eq.
    - rewrite !(lookup_insert_ne _ (lit "MULTI")), !(lookup_insert_ne _ (lit "EXEC")) by done. done. }
  cbn zeta. cbn [intercept writeCmds RegisterTxn]. rewrite Hh. done.
Qed.

Lemma replay_ext {S} (d d' : Value -> S -> result Value * S) q (s : S) :
  Forall (fun cmd => forall s : S, d cmd s = d' cmd s) q -> replay d q s = replay d' q s.
Proof.
  intros Hq. revert s. induction Hq as [|cmd q Hc Hq IH]; intros s; [done|]. cbn. rewrite Hc.
  destruct (d' cmd s) as [[]]; try done. by rewrite IH.
Qed.


(** After WATCH alone, outside MULTI, a command is answered QUEUED instead of
    being run: the interceptor asks only whether the connection has a session. *)
Theorem watch_queues_without_multi n ctx conn keys cmd s :
  c_replay ctx = false -> c_conn ctx = Some conn -> keys <> [] -> sessions (app s) !! connId conn = None -> queueable cmd ->
  let s1 := (handleWatch ctx keys s).2 in
  (Dispatch t (txn_router n) ctx cmd s1).1 = Ok (VSimpleString (lit "QUEUED")).
Proof.
  intros Hr Hc Hk Hs Hq s1. assert (exists sess, sessions (app s1) !! connId conn = Some sess) as [sess Hs1].
  { unfold s1, handleWatch. destruct keys; [done|]. unfold with_conn. rewrite Hc, Hs. cbn. rewrite lookup_insert_eq. eauto. }
  by destruct (Dispatch_queues n ctx conn cmd s1 sess Hr Hc Hs1 Hq).
Qed.

End txn.

(** ** Storage keys and watched keys *)

Lemma RawToUserKey_typed k :
  RawToUserKey (datastruct.StringKey k) = k /\ RawToUserKey (datastruct.HashKey k) = k /\
  RawToUserKey (datastruct.ListKey k) = k /\ RawToUserKey (datastruct.SetKey k) = k /\
  RawToUserKey (datastruct.ZSetKey k) = k /\ RawToUserKey (datastruct.HLLKey k) = k /\
  RawToUserKey (datastruct.StreamKey k) = k.
Proof. split_and!; destruct k as [|c k]; reflexivity. Qed.

(** The key of a vector set is not among the prefixes: a watch misses it. *)
Theorem watch_misses_vectors k : RawToUserKey (datastruct.VectorKey k) = datastruct.VectorKey k.
Proof. by destruct k. Qed.

(** ** Concrete runs *)

(** Strings with GET and SET, the writes published to a backlog. *)
Record mini : Type := mkMini { m_kv : gmap bytes bytes; m_log : Backlog }.
#[local] Instance mini_clock : AppClock mini := {| app_now := fun a => (0, a) |}.
#[local] Instance mini_hub : HasHub mini := {| hub_backlog := fun a => Some (m_log a) |}.
#[local] Instance open_table : AuthorizerStore unit :=
  {| au_restricted := fun _ => false; au_requires := fun _ => false; au_check := fun _ _ _ _ _ => Ok None;
     au_log := fun a _ _ _ _ => a |}.
#[local] Existing Instance ascii_tables.

Definition mini_get : Handler mini unit := fun _ args s =>
  (Ok match args with k :: _ => VBulkString (m_kv (app s) !! Bulk k) | [] => wrong_args "get" end, s).
Definition mini_set : Handler mini unit := fun _ args s =>
  match args with
  | k :: v :: _ =>
      let a := mkMini (<[Bulk k := Bulk v]> (m_kv (app s)))
                 (Append (m_log (app s)) (mkOp 0 false (datastruct.StringKey (Bulk k)) (Bulk v))).2 in
      (Ok okReply, mkSrv a (sv_auth s) (sv_stats s) (sv_readonly s))
  | _ => (Ok (wrong_args "set"), s)
  end.
Definition mini_router : Router mini unit := Register (Register NewRouter (lit "get") mini_get) (lit "set") mini_set.

Definition conn (c : Z) : Conn := mkConn c [].
Definition client (c : Z) : Ctx := mkCtx None (Some (conn c)) false.
Definition call (words : list string) : Value := VArray (Some (map (fun w => BulkOf (lit w)) words)).
Arguments call _%_string_scope.
Definition start_with (sess : gmap Z txnSession) : Srv (TxnApp mini) unit :=
  mkSrv (mkTxn sess (mkMini ∅ (NewBacklog 16))) None None false.

Lemma queueable_now (cmd : Value) (name : bytes) :
  name_of cmd = Some name -> existsb (bytes_eqb name) (lit "UNWATCH" :: txn_names) = false ->
  Has mini_router name = true -> checkArity (arity_of name) (argc cmd) = true -> queueable mini_router cmd.
Proof. intros Hn Hx Hh Ha. exists name. split_and!; assumption. Qed.

Lemma set_queueable k v : queueable mini_router (call ["set"; k; v]).
Proof. apply (queueable_now _ (lit "SET")); vm_compute; reflexivity. Qed.
Lemma get_queueable k : queueable mini_router (call ["get"; k]).
Proof. apply (queueable_now _ (lit "GET")); vm_compute; reflexivity. Qed.

(** One client's transaction among another's commands. *)
Definition demo_trace : list (Ctx * Value) :=
  [(client 2, call ["set"; "k"; "x"]); (client 1, call ["set"; "k"; "v"]); (client 2, call ["multi"]); (client 1, call ["get"; "k"])].
Definition demo_start : Srv (TxnApp mini) unit := start_with {[1 := mkSess [] false true ∅ 0]}.


Lemma unknown_malformed : malformed mini_router (call ["foo"; "k"]).
Proof. exists (lit "FOO"). split_and!; [vm_compute; reflexivity|vm_compute; reflexivity|left; vm_compute; reflexivity]. Qed.

Lemma exec_refuses_spoilt_witness :
  let s1 := run None mini_router ∅ 1 demo_trace demo_start in
  (exists e, (Dispatch ∅ (txn_router None mini_router ∅ 1) (client 1) (call ["foo"; "k"]) s1).1 = Ok (VError e)) /\
  let s2 := run None mini_router ∅ 1 [] (Dispatch ∅ (txn_router None mini_router ∅ 1) (client 1) (call ["foo"; "k"]) s1).2 in
  handleExec None (Dispatch ∅ (txn_router None mini_router ∅ 1)) (client 1) [] s2 =
  (Ok (errS "EXECABORT Transaction discarded because of previous errors."),
   set_sessions s2 (delete (connId (conn 1)) (sessions (app s2)))).
Proof.
  apply (exec_refuses_spoilt None mini_router ∅ 1 (Dispatch ∅ (txn_router None mini_router ∅ 1)) (client 1) (conn 1)
           [false; true; false; true] demo_trace [] [] (call ["foo"; "k"]) demo_start 0 ∅ []);
    [reflexivity | reflexivity | reflexivity | | apply unknown_malformed | constructor].
  repeat apply Forall2_cons_2; [..|apply Forall2_nil_2]; cbn [step_of fst snd].
  - intros (c & [= <-] & [=]).
  - split; [done|]. split; [by eexists|]. apply set_queueable.
  - intros (c & [= <-] & [=]).
  - split; [done|]. split; [by eexists|]. apply get_queueable.
Defined.

Example exec_demo_reply :
  (handleExec None (Dispatch ∅ (txn_router None mini_router ∅ 1)) (client 1) []
     (run None mini_router ∅ 1 demo_trace demo_start)).1 = Ok (ArrayOf [okReply; BulkOf (lit "v")]).
Proof. vm_compute. reflexivity. Qed.

Definition watch_start : Srv (TxnApp mini) unit := start_with ∅.
Definition other_set : Op := mkOp 0 false (datastruct.StringKey (lit "k")) (lit "x").
Definition watch_later : Srv (TxnApp mini) unit :=
  mkSrv (mkTxn {[1 := mkSess [call ["get"; "k"]] false true {[lit "k"]} 0]} (mkMini ∅ (append_all (NewBacklog 16) [other_set]))) None None false.



(** EXEC holds no lock against other clients' commands: with a write between
    two replayed commands, a transaction of two GETs sees two values. *)
Theorem exec_not_isolated :
  let other (s : Srv mini unit) := (Dispatch ∅ mini_router (client 2) (call ["set"; "k"; "x"]) s).2 in
  (replay (fun cmd s => let '(v, s') := Dispatch ∅ mini_router (replay_ctx (client 1)) cmd s in (v, other s'))
     [call ["get"; "k"]; call ["get"; "k"]] (down demo_start)).1 = Ok [nilBulk; BulkOf (lit "x")].
Proof. vm_compute. reflexivity. Qed.

End txn.
