(* ===== verification/Pubsub.v ===== *)
(** * Publish/subscribe (src/internal/commands/pubsub.go)

    The registry of subscriptions by connection.  Every handler runs under the
    registry's lock and is one step; a publisher collects its deliveries under
    the lock and sends them after it has released it, so that each send is a
    step of its own, between which other connections run.  A session's channel
    is an entry of a table of channels: 64 messages, open or closed, drained by
    one sender goroutine that stops for good when a write fails. *)

From S2P Require Import Prelude GoLib GoStrings Resp Cmd Pattern Acl Router.
Open Scope Z_scope.
Open Scope gedis_scope.

Module pubsub.
Import network pattern.

Record pubsubSession : Type := mkPSess {
  subs : gset bytes; order : list bytes;
  patterns : gset bytes; porder : list bytes;
  shards : gset bytes; sorder : list bytes;
  ch : option nat; sender : bool; closed : bool;
}.

Definition new_session : pubsubSession := mkPSess ∅ [] ∅ [] ∅ [] None false false.

Definition set_count (s : gset bytes) : Z := Z.of_nat (size s).
Definition total (s : pubsubSession) : Z := set_count (subs s) + set_count (patterns s).
Definition shardTotal (s : pubsubSession) : Z := set_count (shards s).
Definition activeTotal (s : pubsubSession) : Z := set_count (subs s) + set_count (patterns s) + set_count (shards s).

(** A channel, the connection its sender writes to, and whether the sender
    still runs. *)
Record channel : Type := mkChan { buf : list Value; open : bool; ch_conn : Z; running : bool }.
Definition chan_cap : Z := 64.

(** [written]: the frames written to connections, oldest first. *)
Record PubSubRegistry : Type := mkReg {
  sessions : gmap Z pubsubSession; chans : gmap nat channel; fresh_ch : nat; written : list (Z * Value);
}.
Definition new_registry : PubSubRegistry := mkReg ∅ ∅ 0 [].

Definition set_session (r : PubSubRegistry) (c : Z) (s : pubsubSession) : PubSubRegistry :=
  mkReg (<[c := s]> (sessions r)) (chans r) (fresh_ch r) (written r).

(** ** Sessions *)

Definition sessionLocked (r : PubSubRegistry) (c : Z) : pubsubSession := default new_session (sessions r !! c).

Definition with_channel (s : pubsubSession) (id : option nat) (sending done : bool) : pubsubSession :=
  mkPSess (subs s) (order s) (patterns s) (porder s) (shards s) (sorder s) id sending done.

(** A new channel and sender goroutine, unless there is a live one. *)
Definition ensureSenderLocked (r : PubSubRegistry) (c : Z) (s : pubsubSession) : PubSubRegistry * pubsubSession :=
  if sender s && negb (closed s) then (r, s)
  else (mkReg (sessions r) (<[fresh_ch r := mkChan [] true c true]> (chans r)) (S (fresh_ch r)) (written r),
        with_channel s (Some (fresh_ch r)) true false).

Definition close_chan (r : PubSubRegistry) (id : option nat) : PubSubRegistry :=
  match id with
  | None => r
  | Some i => mkReg (sessions r) (alter (fun k => mkChan (buf k) false (ch_conn k) (running k)) i (chans r)) (fresh_ch r) (written r)
  end.
Definition stopSenderLocked (r : PubSubRegistry) (s : pubsubSession) : PubSubRegistry * pubsubSession :=
  if sender s && negb (closed s) then (close_chan r (ch s), with_channel s (ch s) (sender s) true) else (r, s).

(** [append(order[:i], order[i+1:]...)] at the first occurrence. *)
Fixpoint remove_first (x : bytes) (l : list bytes) : list bytes :=
  match l with [] => [] | y :: r => if bytes_eqb y x then r else y :: remove_first x r end.

(** The three kinds of subscription. *)
Inductive domain : Type := Channels | Patterns | Shards.
#[export] Instance domain_eq_dec : EqDecision domain.
Proof. solve_decision. Defined.

Definition members (d : domain) (s : pubsubSession) : gset bytes := match d with Channels => subs s | Patterns => patterns s | Shards => shards s end.
Definition listed (d : domain) (s : pubsubSession) : list bytes := match d with Channels => order s | Patterns => porder s | Shards => sorder s end.
Definition update (d : domain) (m : gset bytes) (l : list bytes) (s : pubsubSession) : pubsubSession :=
  match d with
  | Channels => mkPSess m l (patterns s) (porder s) (shards s) (sorder s) (ch s) (sender s) (closed s)
  | Patterns => mkPSess (subs s) (order s) m l (shards s) (sorder s) (ch s) (sender s) (closed s)
  | Shards => mkPSess (subs s) (order s) (patterns s) (porder s) m l (ch s) (sender s) (closed s)
  end.
Definition count_of (d : domain) (s : pubsubSession) : Z := match d with Shards => shardTotal s | _ => total s end.

(** removeLocked, removePatternLocked, removeShardLocked. *)
Definition removeLocked (d : domain) (r : PubSubRegistry) (s : pubsubSession) (name : bytes) : PubSubRegistry * pubsubSession :=
  let s := update d (members d s ∖ {[name]}) (remove_first name (listed d s)) s in
  if activeTotal s =? 0 then stopSenderLocked r s else (r, s).

Definition removePatternLocked := removeLocked Patterns.
Definition removeShardLocked := removeLocked Shards.

(** ** Replies *)

Definition confirm (kind : string) (channel : bytes) (count : Z) : Value :=
  VArray (Some [BulkOf (lit kind); BulkOf channel; VInteger count]).

Definition write_frames (r : PubSubRegistry) (c : Z) (vs : list Value) : PubSubRegistry :=
  mkReg (sessions r) (chans r) (fresh_ch r) (written r ++ map (pair c) vs).

(** Replayed by EXEC the first confirmation is the reply, otherwise the last;
    the others are written to the connection. *)
Definition emitConfs (replay : bool) (c : Z) (confs : list Value) (r : PubSubRegistry) : result Value * PubSubRegistry :=
  match confs with
  | [] => (Panic, r)
  | v :: vs => if replay then (Ok v, write_frames r c vs)
               else (Ok (List.last confs v), write_frames r c (removelast confs))
  end.

Definition not_client : Value := errS "ERR SUBSCRIBE/UNSUBSCRIBE/PUBLISH can only be used in client context".

(** ** Subscribing *)

Definition sub_kind (d : domain) : string := match d with Channels => "subscribe" | Patterns => "psubscribe" | Shards => "ssubscribe" end.
Definition unsub_kind (d : domain) : string := match d with Channels => "unsubscribe" | Patterns => "punsubscribe" | Shards => "sunsubscribe" end.

Fixpoint subscribe_all (d : domain) (c : Z) (names : list bytes) (r : PubSubRegistry) (s : pubsubSession) (confs : list Value)
    : PubSubRegistry * pubsubSession * list Value :=
  match names with
  | [] => (r, s, confs)
  | name :: rest =>
      let '(r, s) := ensureSenderLocked r c s in
      let s := if bool_decide (name ∈ members d s) then s else update d ({[name]} ∪ members d s) (listed d s ++ [name]) s in
      subscribe_all d c rest r s (confs ++ [confirm (sub_kind d) name (count_of d s)])
  end.

(** handleSubscribe, handlePsubscribe, handleSsubscribe. *)
Definition handleSubscribe (d : domain) (ctx : Ctx) (args : list Value) (r : PubSubRegistry) : result Value * PubSubRegistry :=
  match args with
  | [] => (Ok (wrong_args (sub_kind d)), r)
  | _ =>
      match c_conn ctx with
      | None => (Ok not_client, r)
      | Some conn =>
          let c := connId conn in
          let '(r, s, confs) := subscribe_all d c (map arg_or_empty args) r (sessionLocked r c) [] in
          emitConfs (c_replay ctx) c confs (set_session r c s)
      end
  end.

Fixpoint unsubscribe_all (d : domain) (names : list bytes) (r : PubSubRegistry) (s : pubsubSession) (confs : list Value)
    : PubSubRegistry * pubsubSession * list Value :=
  match names with
  | [] => (r, s, confs)
  | name :: rest =>
      let '(r, s) := removeLocked d r s name in
      unsubscribe_all d rest r s (confs ++ [confirm (unsub_kind d) name (count_of d s)])
  end.

(** handleUnsubscribe, handlePunsubscribe, handleSunsubscribe: without
    arguments everything, newest first. *)
Definition handleUnsubscribe (d : domain) (ctx : Ctx) (args : list Value) (r : PubSubRegistry) : result Value * PubSubRegistry :=
  match c_conn ctx with
  | None => (Ok not_client, r)
  | Some conn =>
      let c := connId conn in
      let s := sessionLocked r c in
      let targets := match args with [] => rev (listed d s) | _ => map arg_or_empty args end in
      let confs := match targets with
                   | [] => [VArray (Some [BulkOf (lit (unsub_kind d)); nilBulk; VInteger (count_of d s)])]
                   | _ => []
                   end in
      let '(r, s, confs) := unsubscribe_all d targets r s confs in
      emitConfs (c_replay ctx) c confs (set_session r c s)
  end.

Definition handlePsubscribe := handleSubscribe Patterns.
Definition handleSsubscribe := handleSubscribe Shards.
Definition handlePunsubscribe := handleUnsubscribe Patterns.
Definition handleSunsubscribe := handleUnsubscribe Shards.

(** A closed connection loses its session, and the sender is told. *)
Definition ConnClosed (c : Z) (r : PubSubRegistry) : PubSubRegistry :=
  match sessions r !! c with
  | None => r
  | Some s => let r := (stopSenderLocked r s).1 in mkReg (delete c (sessions r)) (chans r) (fresh_ch r) (written r)
  end.

(** ** Publishing *)

(** The order of ranging over the sessions. *)
Class SessionRange : Type := { range_sessions : gmap Z pubsubSession -> list (Z * pubsubSession) }.
Class SessionRangeLaws `{SessionRange} : Prop := { range_sessions_perm m : range_sessions m ≡ₚ map_to_list m }.

(** What one session is sent. *)
Definition messages (s : pubsubSession) (channel : bytes) (payload : Value) : list Value :=
  (if bool_decide (channel ∈ subs s) then [VArray (Some [BulkOf (lit "message"); BulkOf channel; payload])] else []) ++
  map (fun pat => VArray (Some [BulkOf (lit "pmessage"); BulkOf pat; BulkOf channel; payload]))
      (List.filter (fun pat => matchPattern pat channel) (porder s)).
Definition shard_messages (s : pubsubSession) (channel : bytes) (payload : Value) : list Value :=
  if bool_decide (channel ∈ shards s) then [VArray (Some [BulkOf (lit "smessage"); BulkOf channel; payload])] else [].

Definition live (s : pubsubSession) : bool := sender s && negb (closed s).

(** What is to be sent, channel by channel, and its number: the part of
    Publish and ShardPublish under the lock. *)
Definition collect (msgs : pubsubSession -> list Value) (ss : list (Z * pubsubSession)) : list (option nat * Value) :=
  concat (map (fun cs : Z * pubsubSession => if live cs.2 then map (pair (ch cs.2)) (msgs cs.2) else []) ss).

Definition Publish `{SessionRange} (channel : bytes) (payload : Value) (r : PubSubRegistry) : list (option nat * Value) * Z :=
  let l := collect (fun s => messages s channel payload) (range_sessions (sessions r)) in (l, len l).
Definition ShardPublish `{SessionRange} (channel : bytes) (payload : Value) (r : PubSubRegistry) : list (option nat * Value) * Z :=
  let l := collect (fun s => shard_messages s channel payload) (range_sessions (sessions r)) in (l, len l).

(** [d.ch <- m]: [None] when the buffer is full and the send has to wait.
    Sending on a closed channel panics, on a nil one it waits for ever. *)
Definition send (id : option nat) (m : Value) (r : PubSubRegistry) : option (result PubSubRegistry) :=
  match id with
  | None => None
  | Some i =>
      match chans r !! i with
      | None => None
      | Some k =>
          if negb (open k) then Some Panic
          else if chan_cap <=? len (buf k) then None
          else Some (Ok (mkReg (sessions r) (<[i := mkChan (buf k ++ [m]) true (ch_conn k) (running k)]> (chans r)) (fresh_ch r) (written r)))
      end
  end.

(** One turn of runSender: a message is written, or the write fails and the
    sender ends. *)
Definition runSender (i : nat) (written_ok : bool) (r : PubSubRegistry) : option PubSubRegistry :=
  match chans r !! i with
  | Some (mkChan (m :: rest) o c true) =>
      Some (if written_ok
            then mkReg (sessions r) (<[i := mkChan rest o c true]> (chans r)) (fresh_ch r) (written r ++ [(c, m)])
            else mkReg (sessions r) (<[i := mkChan rest o c false]> (chans r)) (fresh_ch r) (written r))
  | _ => None
  end.

(** ** Queries and the subscribed mode *)

Section queries.
Context `{GoUnicode}.

Definition subModeAllowed : list bytes :=
  map lit ["SUBSCRIBE"; "UNSUBSCRIBE"; "PSUBSCRIBE"; "PUNSUBSCRIBE"; "SSUBSCRIBE"; "SUNSUBSCRIBE"; "PING"; "QUIT"; "RESET"]%string.
Definition pubsubSubs : list bytes := map lit ["CHANNELS"; "NUMSUB"; "NUMPAT"; "HELP"; "SHARDCHANNELS"; "SHARDNUMSUB"]%string.

Definition blocked (name : bytes) : Value :=
  VError (lit "ERR Can't execute '" ++ name ++
    lit "': only (P|S)SUBSCRIBE / (P|S)UNSUBSCRIBE / PING / QUIT / RESET are allowed in this context").

(** PUBSUB is left to its handler when that will refuse it. *)
Definition pubsub_passes (args : list Value) : bool :=
  match args with
  | VBulkString b :: rest =>
      let sub := ToUpper (default [] b) in
      negb (existsb (bytes_eqb sub) pubsubSubs) ||
      ((bytes_eqb sub (lit "NUMPAT") || bytes_eqb sub (lit "HELP")) && negb (len rest =? 0))
  | _ => true
  end.

Definition ps_intercept (ctx : Ctx) (cmd : Value) (r : PubSubRegistry) : option Value :=
  if c_replay ctx then None
  else match cmd with
  | VArray (Some (VBulkString b :: args)) =>
      match c_conn ctx with
      | None => None
      | Some conn =>
          let name := ToUpper (default [] b) in
          if existsb (bytes_eqb name) subModeAllowed then None
          else
            let pubsub := bytes_eqb name (lit "PUBSUB") in
            if pubsub && pubsub_passes args then None
            else if match sessions r !! connId conn with Some s => activeTotal s | None => 0 end =? 0 then None
            else if pubsub then Some (blocked (lit "pubsub|" ++ ToLower (match args with a :: _ => arg_or_empty a | [] => [] end)))
            else Some (blocked (ToLower name))
      end
  | _ => None
  end.

(** PING in the subscribed mode; [None] goes on to the ordinary handler. *)
Definition wrapPing (ctx : Ctx) (args : list Value) (r : PubSubRegistry) : option Value :=
  if 1 <? len args then Some (wrong_args "ping")
  else match c_conn ctx with
  | None => None
  | Some conn =>
      if match sessions r !! connId conn with Some s => activeTotal s | None => 0 end =? 0 then None
      else Some (VArray (Some (BulkOf (lit "pong") :: match args with [] => [BulkOf []] | _ => args end)))
  end.

Definition pubsubHelpText : list string := [
  "PUBSUB <subcommand> [<arg> [value] [opt] ...]. Subcommands are:";
  "CHANNELS [<pattern>]";
  "    Return the currently active channels matching a <pattern> (default: '*').";
  "NUMPAT";
  "    Return number of subscriptions to patterns.";
  "NUMSUB [<channel> ...]";
  "    Return the number of subscribers for the specified channels, excluding";
  "    pattern subscriptions(default: no channels).";
  "SHARDCHANNELS [<pattern>]";
  "    Return the currently active shard level channels matching a <pattern> (default: '*').";
  "SHARDNUMSUB [<shardchannel> ...]";
  "    Return the number of subscribers for the specified shard level channel(s)";
  "HELP";
  "    Print this help."]%string.

(** The names of one kind that match, sorted. *)
Definition active_names (d : domain) (pattern : bytes) (r : PubSubRegistry) : list bytes :=
  let all : gset bytes := ⋃ map (fun cs : Z * pubsubSession => members d cs.2) (map_to_list (sessions r)) in
  sortStrings (List.filter (fun c => matchPattern pattern c) (elements all)).

Definition subscribers (d : domain) (name : bytes) (r : PubSubRegistry) : Z :=
  len (List.filter (fun cs : Z * pubsubSession => bool_decide (name ∈ members d cs.2)) (map_to_list (sessions r))).

Definition bad_sub (sub : bytes) : Value :=
  VError (lit "ERR unknown subcommand or wrong number of arguments for '" ++ sub ++ lit "'. Try PUBSUB HELP.").

Definition names_query (d : domain) (sub : bytes) (rest : list Value) (r : PubSubRegistry) : Value :=
  match rest with
  | [] => VArray (Some (map BulkOf (active_names d (lit "*") r)))
  | [p] => VArray (Some (map BulkOf (active_names d (arg_or_empty p) r)))
  | _ => bad_sub sub
  end.
Definition numsub_query (d : domain) (rest : list Value) (r : PubSubRegistry) : Value :=
  VArray (Some (concat (map (fun a => [BulkOf (arg_or_empty a); VInteger (subscribers d (arg_or_empty a) r)]) rest))).

Definition handlePubSub (args : list Value) (r : PubSubRegistry) : Value :=
  match args with
  | [] => wrong_args "pubsub"
  | VBulkString b :: rest =>
      let sub := default [] b in
      let upper := ToUpper sub in
      if bytes_eqb upper (lit "CHANNELS") then names_query Channels sub rest r
      else if bytes_eqb upper (lit "NUMSUB") then numsub_query Channels rest r
      else if bytes_eqb upper (lit "SHARDNUMSUB") then numsub_query Shards rest r
      else if bytes_eqb upper (lit "SHARDCHANNELS") then names_query Shards sub rest r
      else if bytes_eqb upper (lit "NUMPAT") then
        match rest with
        | [] => VInteger (map_fold (fun _ s n => set_count (patterns s) + n) 0 (sessions r))
        | _ => wrong_args "pubsub|numpat"
        end
      else if bytes_eqb upper (lit "HELP") then
        match rest with
        | [] => VArray (Some (map (fun l => VSimpleString (lit l)) pubsubHelpText))
        | _ => wrong_args "pubsub|help"
        end
      else VError (lit "ERR unknown subcommand '" ++ sub ++ lit "'. Try PUBSUB HELP.")
  | _ => errS "ERR unknown subcommand ''. Try PUBSUB HELP."
  end.

(** The deliveries of PUBLISH and SPUBLISH, and the reply. *)
Definition handlePublish `{SessionRange} (args : list Value) (r : PubSubRegistry) : list (option nat * Value) * Value :=
  match args with
  | [c; payload] => let '(l, n) := Publish (arg_or_empty c) payload r in (l, VInteger n)
  | _ => ([], wrong_args "publish")
  end.
Definition handleSpublish `{SessionRange} (args : list Value) (r : PubSubRegistry) : list (option nat * Value) * Value :=
  match args with
  | [c; payload] => let '(l, n) := ShardPublish (arg_or_empty c) payload r in (l, VInteger n)
  | _ => ([], wrong_args "spublish")
  end.

(** The registered commands: the reply, what is left to send, and the registry;
    [None] for a name that goes to another handler. *)
Definition RegisterPubSub `{SessionRange} (name : bytes) (ctx : Ctx) (args : list Value) (r : PubSubRegistry)
    : option (result Value * list (option nat * Value) * PubSubRegistry) :=
  let state (x : result Value * PubSubRegistry) := Some (x.1, [], x.2) in
  let sends (x : list (option nat * Value) * Value) := Some (Ok x.2, x.1, r) in
  if bytes_eqb name (lit "SUBSCRIBE") then state (handleSubscribe Channels ctx args r)
  else if bytes_eqb name (lit "UNSUBSCRIBE") then state (handleUnsubscribe Channels ctx args r)
  else if bytes_eqb name (lit "PSUBSCRIBE") then state (handlePsubscribe ctx args r)
  else if bytes_eqb name (lit "PUNSUBSCRIBE") then state (handlePunsubscribe ctx args r)
  else if bytes_eqb name (lit "PUBLISH") then sends (handlePublish args r)
  else if bytes_eqb name (lit "SPUBLISH") then sends (handleSpublish args r)
  else if bytes_eqb name (lit "PUBSUB") then sends ([], handlePubSub args r)
  else if bytes_eqb name (lit "SSUBSCRIBE") then state (handleSsubscribe ctx args r)
  else if bytes_eqb name (lit "SUNSUBSCRIBE") then state (handleSunsubscribe ctx args r)
  else if bytes_eqb name (lit "PING") then match wrapPing ctx args r with Some v => sends ([], v) | None => None end
  else None.

End queries.
(** ** The invariant of the registry *)

Definition kept (m : gset bytes) (l : list bytes) : Prop := NoDup l /\ forall x, x ∈ m <-> x ∈ l.

Record session_ok (r : PubSubRegistry) (c : Z) (s : pubsubSession) : Prop := {
  so_kept : forall d, kept (members d s) (listed d s);
  so_live : 0 < activeTotal s -> live s = true;
  so_chan : live s = true -> exists i k, ch s = Some i /\ chans r !! i = Some k /\ open k = true /\ ch_conn k = c;
}.

Record reg_ok (r : PubSubRegistry) : Prop := {
  ro_sessions : map_Forall (session_ok r) (sessions r);
  ro_fresh : forall i : nat, (fresh_ch r <= i)%nat -> chans r !! i = None;
}.

(** ** What happens, step by step *)

(** The registry and what every publisher in progress has still to send. *)
Notation pstate := (PubSubRegistry * list (list (option nat * Value)))%type.

Inductive pstep `{SessionRange} : pstate -> pstate -> Prop :=
| P_subscribe d ctx args r fl : pstep (r, fl) ((handleSubscribe d ctx args r).2, fl)
| P_unsubscribe d ctx args r fl : pstep (r, fl) ((handleUnsubscribe d ctx args r).2, fl)
| P_close c r fl : pstep (r, fl) (ConnClosed c r, fl)
| P_publish shard c payload r fl : pstep (r, fl) (r, fl ++ [((if shard : bool then ShardPublish else Publish) c payload r).1])
| P_send j i m rest r r' fl : fl !! j = Some ((i, m) :: rest) -> send i m r = Some (Ok r') -> pstep (r, fl) (r', <[j := rest]> fl)
| P_sender i ok r r' fl : runSender i ok r = Some r' -> pstep (r, fl) (r', fl).

(** Every registered command is at most one step, and what a publisher has left
    to send joins the publishers in progress. *)
Lemma command_steps `{GoUnicode} `{SessionRange} (name : bytes) (ctx : Ctx) (args : list Value) (r r' : PubSubRegistry) (v : result Value)
    (l : list (option nat * Value)) (fl : list (list (option nat * Value))) :
  RegisterPubSub name ctx args r = Some (v, l, r') ->
  (l = [] /\ rtc pstep (r, fl) (r', fl)) \/ (r' = r /\ pstep (r, fl) (r, fl ++ [l])).
Proof.
  unfold RegisterPubSub, handlePublish, handleSpublish, handlePsubscribe, handlePunsubscribe, handleSsubscribe, handleSunsubscribe. intros E.
  repeat case_match; simplify_eq/=;
    try (left; split; [done|]; first [apply rtc_refl|apply rtc_once, P_subscribe|apply rtc_once, P_unsubscribe]);
    right; (split; [done|]).
  - pose proof (P_publish false (arg_or_empty v0) v1 r' fl) as Hs. cbv iota in Hs.
    match goal with Hp : Publish _ _ _ = _ |- _ => by rewrite Hp in Hs end.
  - pose proof (P_publish true (arg_or_empty v0) v1 r' fl) as Hs. cbv iota in Hs.
    match goal with Hp : ShardPublish _ _ _ = _ |- _ => by rewrite Hp in Hs end.
Qed.

(** ** Sets and lists of subscriptions *)

Lemma kept_add (m : gset bytes) (l : list bytes) (x : bytes) : kept m l -> x ∉ m -> kept ({[x]} ∪ m) (l ++ [x]).
Proof.
  intros [Hd He] Hx. split; [apply NoDup_app; split_and!; [done| |apply NoDup_singleton]|].
  - intros y Hy ->%list_elem_of_singleton. by apply Hx, He.
  - intros y. rewrite elem_of_union, elem_of_singleton, elem_of_app, list_elem_of_singleton, He. tauto.
Qed.

Lemma remove_first_spec (x : bytes) (l : list bytes) : NoDup l -> NoDup (remove_first x l) /\ forall y, y ∈ remove_first x l <-> y ∈ l /\ y <> x.
Proof.
  induction 1 as [|a l Ha Hd [IH1 IH2]]; cbn; [split; [constructor|set_solver]|].
  destruct (bytes_eqb_spec a x) as [->|Hne].
  - split; [done|]. intros y. rewrite elem_of_cons. split; [intros Hy; split; [by right|by intros ->]|by intros [[->|?] ?]].
  - split; [apply NoDup_cons; split; [|done]; rewrite IH2; tauto|]. intros y. rewrite !elem_of_cons, IH2. naive_solver.
Qed.

Lemma kept_remove (m : gset bytes) (l : list bytes) (x : bytes) : kept m l -> kept (m ∖ {[x]}) (remove_first x l).
Proof.
  intros [Hd He]. destruct (remove_first_spec x l Hd) as [H1 H2]. split; [done|]. intros y.
  rewrite elem_of_difference, elem_of_singleton, H2, He. done.
Qed.

Lemma members_update (d d' : domain) (m : gset bytes) (l : list bytes) (s : pubsubSession) :
  members d (update d' m l s) = (if decide (d = d') then m else members d s) /\
  listed d (update d' m l s) = (if decide (d = d') then l else listed d s).
Proof. by destruct d, d'. Qed.

Lemma update_fields (d : domain) (m : gset bytes) (l : list bytes) (s : pubsubSession) :
  ch (update d m l s) = ch s /\ live (update d m l s) = live s.
Proof. by destruct d. Qed.

(** ** The lock-protected steps *)

(** A session in the making: as [session_ok], but the registry's own entry of
    the connection is not looked at. *)
Record others_ok (r : PubSubRegistry) (c : Z) (s : pubsubSession) : Prop := {
  oo_this : session_ok r c s;
  oo_others : forall c' s', c' <> c -> sessions r !! c' = Some s' -> session_ok r c' s';
  oo_fresh : forall i : nat, (fresh_ch r <= i)%nat -> chans r !! i = None;
}.

Lemma session_ok_chans (r r' : PubSubRegistry) (c : Z) (s : pubsubSession) :
  session_ok r c s -> (forall i k, ch s = Some i -> chans r !! i = Some k -> open k = true -> ch_conn k = c -> exists k', chans r' !! i = Some k' /\ open k' = true /\ ch_conn k' = c) ->
  session_ok r' c s.
Proof.
  intros [H1 H2 H3] Hc. split; [done|done|]. intros Hl. destruct (H3 Hl) as (i & k & E1 & E2 & E3 & E4).
  destruct (Hc i k E1 E2 E3 E4) as (k' & F1 & F2 & F3). by exists i, k'.
Qed.

Lemma new_session_ok (r : PubSubRegistry) (c : Z) : session_ok r c new_session.
Proof.
  split; [intros []; (split; [constructor|set_solver])| |done]. unfold activeTotal, set_count. cbn. rewrite !size_empty. lia.
Qed.

Lemma reg_others (r : PubSubRegistry) (c : Z) : reg_ok r -> others_ok r c (sessionLocked r c).
Proof.
  intros [Hs Hf]. split; [|intros c' s' _ E; exact (Hs _ _ E)|done].
  unfold sessionLocked. destruct (sessions r !! c) as [s|] eqn:E; [exact (Hs _ _ E)|apply new_session_ok].
Qed.

Lemma others_reg (r : PubSubRegistry) (c : Z) (s : pubsubSession) : others_ok r c s -> reg_ok (set_session r c s).
Proof.
  intros [Ht Ho Hf]. split; [|done]. intros c' s'. cbn. intros [[<- <-]|[Hne E]]%lookup_insert_Some.
  - eapply session_ok_chans; [exact Ht|]. eauto.
  - eapply session_ok_chans; [by apply Ho|]. eauto.
Qed.

Lemma ensure_ok (r : PubSubRegistry) (c : Z) (s : pubsubSession) :
  others_ok r c s -> others_ok (ensureSenderLocked r c s).1 c (ensureSenderLocked r c s).2 /\ live (ensureSenderLocked r c s).2 = true.
Proof.
  intros [Ht Ho Hf]. unfold ensureSenderLocked. fold (live s). destruct (live s) eqn:El; cbn [fst snd]; [done|]. split; [|done].
  assert (forall i k, chans r !! i = Some k -> <[fresh_ch r := mkChan [] true c true]> (chans r) !! i = Some k) as Hk.
  { intros i k Hi. rewrite lookup_insert_ne; [done|]. intros <-. rewrite Hf in Hi by lia. done. }
  split; cbn.
  - destruct Ht as [H1 H2 H3]. split; [by (intros d; generalize (H1 d); destruct d)|done|]. intros _. exists (fresh_ch r), (mkChan [] true c true). split_and!; [done|apply lookup_insert_eq|done|done].
  - intros c' s' Hne E. eapply session_ok_chans; [by eapply Ho|]. intros i k _ Hi Ho' Hc. exists k. split; [by apply Hk|done].
  - intros i Hi. rewrite lookup_insert_ne by lia. apply Hf. lia.
Qed.

Lemma stop_ok (r : PubSubRegistry) (c : Z) (s : pubsubSession) :
  others_ok r c s -> activeTotal s = 0 -> others_ok (stopSenderLocked r s).1 c (stopSenderLocked r s).2.
Proof.
  intros Hok Ha. destruct Hok as [Ht Ho Hf]. unfold stopSenderLocked. fold (live s). destruct (live s) eqn:El; [|by split].
  destruct (so_chan _ _ _ Ht El) as (i & k & E1 & E2 & E3 & E4). cbn [fst snd]. unfold close_chan. rewrite E1. split; cbn.
  - destruct Ht as [H1 H2 H3]. split; [by (intros d; generalize (H1 d); destruct d)| |]; unfold live, with_channel; cbn.
    + intros Hp. change (activeTotal _) with (activeTotal s) in Hp. lia.
    + rewrite andb_false_r. done.
  - intros c' s' Hne E. eapply session_ok_chans; [by eapply Ho|]. intros j k' _ Hj Ho' Hc. exists k'. split; [|done].
    cbn. rewrite lookup_alter_ne; [done|]. intros <-. rewrite E2 in Hj. injection Hj as <-. congruence.
  - intros j Hj. destruct (decide (j = i)) as [->|Hne]; [by rewrite (Hf i Hj) in E2|]. rewrite lookup_alter_ne by done. by apply Hf.
Qed.

Lemma update_ok (d : domain) (r : PubSubRegistry) (c : Z) (s : pubsubSession) (m : gset bytes) (l : list bytes) :
  others_ok r c s -> kept m l -> (0 < activeTotal (update d m l s) -> live s = true) -> others_ok r c (update d m l s).
Proof.
  intros [Ht Ho Hf] Hk Hl. destruct (update_fields d m l s) as [E1 E2]. split; [|done|done]. destruct Ht as [H1 H2 H3]. split.
  - intros d'. destruct (members_update d' d m l s) as [-> ->]. by destruct (decide (d' = d)).
  - intros Hp. rewrite E2. by apply Hl.
  - rewrite E2, E1. exact H3.
Qed.

Lemma subscribe_all_ok (d : domain) (c : Z) (names : list bytes) (r : PubSubRegistry) (s : pubsubSession) (confs : list Value) :
  others_ok r c s -> others_ok (subscribe_all d c names r s confs).1.1 c (subscribe_all d c names r s confs).1.2.
Proof.
  revert r s confs. induction names as [|name names IH]; intros r s confs Hok; cbn [subscribe_all]; [done|].
  destruct (ensure_ok r c s Hok) as [Hok1 Hl]. destruct (ensureSenderLocked r c s) as [r1 s1]. cbn [fst snd] in *. apply IH.
  case_bool_decide as Hm; [done|]. apply update_ok; [done| |done]. apply kept_add; [apply (so_kept _ _ _ (oo_this _ _ _ Hok1))|done].
Qed.

Lemma active_shrinks (d : domain) (s : pubsubSession) (name : bytes) :
  activeTotal (update d (members d s ∖ {[name]}) (remove_first name (listed d s)) s) <= activeTotal s.
Proof.
  assert (forall m : gset bytes, set_count (m ∖ {[name]}) <= set_count m) as Hs.
  { intros m. unfold set_count. pose proof (subseteq_size (m ∖ {[name]}) m ltac:(set_solver)). lia. }
  unfold activeTotal. destruct d; cbn; pose proof (Hs (subs s)); pose proof (Hs (patterns s)); pose proof (Hs (shards s)); lia.
Qed.

Lemma remove_ok (d : domain) (r : PubSubRegistry) (c : Z) (s : pubsubSession) (name : bytes) :
  others_ok r c s -> others_ok (removeLocked d r s name).1 c (removeLocked d r s name).2.
Proof.
  intros Hok. unfold removeLocked. cbv zeta. set (s1 := update d _ _ s).
  assert (others_ok r c s1) as Hok1.
  { apply update_ok; [done|apply kept_remove, (so_kept _ _ _ (oo_this _ _ _ Hok))|]. intros Hp. apply (so_live _ _ _ (oo_this _ _ _ Hok)).
    pose proof (active_shrinks d s name). lia. }
  destruct (activeTotal s1 =? 0) eqn:E; [|done]. breflect. by apply stop_ok.
Qed.

Lemma unsubscribe_all_ok (d : domain) (c : Z) (names : list bytes) (r : PubSubRegistry) (s : pubsubSession) (confs : list Value) :
  others_ok r c s -> others_ok (unsubscribe_all d names r s confs).1.1 c (unsubscribe_all d names r s confs).1.2.
Proof.
  revert r s confs. induction names as [|name names IH]; intros r s confs Hok; cbn [unsubscribe_all]; [done|].
  pose proof (remove_ok d r c s name Hok) as Hok1. destruct (removeLocked d r s name) as [r1 s1]. cbn [fst snd] in *. by apply IH.
Qed.

(** The frames written do not matter. *)
Lemma reg_ok_written (r r' : PubSubRegistry) :
  reg_ok r -> sessions r' = sessions r -> fresh_ch r' = fresh_ch r ->
  (forall i k, chans r !! i = Some k -> exists k', chans r' !! i = Some k' /\ open k' = open k /\ ch_conn k' = ch_conn k) ->
  (forall i, chans r !! i = None -> chans r' !! i = None) -> reg_ok r'.
Proof.
  intros [Hs Hf] E1 E2 Hk Hn. split.
  - rewrite E1. intros c s E. eapply session_ok_chans; [exact (Hs _ _ E)|]. intros i k _ Hi Ho Hc. destruct (Hk i k Hi) as (k' & F1 & F2 & F3).
    exists k'. split_and!; [done|congruence|congruence].
  - rewrite E2. intros i Hi. by apply Hn, Hf.
Qed.

Lemma emit_ok (replay : bool) (c : Z) (confs : list Value) (r : PubSubRegistry) : reg_ok r -> reg_ok (emitConfs replay c confs r).2.
Proof.
  intros Hr. unfold emitConfs. destruct confs; [done|]. destruct replay; cbn; (eapply reg_ok_written; [exact Hr|done|done|eauto|eauto]).
Qed.

Lemma close_ok (c : Z) (r : PubSubRegistry) : reg_ok r -> reg_ok (ConnClosed c r).
Proof.
  intros Hr. unfold ConnClosed. destruct (sessions r !! c) as [s|] eqn:E; [|done]. cbv zeta. destruct Hr as [Hs Hf].
  pose proof (Hs _ _ E) as Ht. unfold stopSenderLocked. fold (live s). destruct (live s) eqn:El; cbn [fst].
  - destruct (so_chan _ _ _ Ht El) as (i & k & E1 & E2 & E3 & E4). unfold close_chan. rewrite E1. split; cbn.
    + intros c' s' [Hne E']%lookup_delete_Some. eapply session_ok_chans; [exact (Hs _ _ E')|]. intros j k' _ Hj Ho' Hc. exists k'. split; [|done].
      cbn. rewrite lookup_alter_ne; [done|]. intros <-. rewrite E2 in Hj. injection Hj as <-. congruence.
    + intros j Hj. destruct (decide (j = i)) as [->|Hne]; [by rewrite (Hf i Hj) in E2|]. rewrite lookup_alter_ne by done. by apply Hf.
  - split; cbn; [|done]. intros c' s' [Hne E']%lookup_delete_Some. eapply session_ok_chans; [exact (Hs _ _ E')|]. eauto.
Qed.

Lemma insert_chan_ok (r : PubSubRegistry) (i : nat) (k k' : channel) (w : list (Z * Value)) :
  reg_ok r -> chans r !! i = Some k -> open k' = open k -> ch_conn k' = ch_conn k ->
  reg_ok (mkReg (sessions r) (<[i := k']> (chans r)) (fresh_ch r) w).
Proof.
  intros Hr Hi Ho Hc. eapply reg_ok_written; [exact Hr|done|done| |]; cbn.
  - intros j kj Hj. destruct (decide (j = i)) as [->|Hne]; [rewrite Hi in Hj; injection Hj as <-; exists k'; by rewrite lookup_insert_eq|].
    exists kj. by rewrite lookup_insert_ne.
  - intros j Hj. rewrite lookup_insert_ne; [done|]. intros <-. by rewrite Hi in Hj.
Qed.

Lemma new_registry_ok : reg_ok new_registry.
Proof. split; [apply map_Forall_empty|]. intros i _. apply lookup_empty. Qed.

Lemma pstep_ok `{SessionRange} (st st' : pstate) : pstep st st' -> reg_ok st.1 -> reg_ok st'.1.
Proof.
  intros Hs Hr. destruct Hs as [d ctx args r fl|d ctx args r fl|c r fl|shard c payload r fl|j i m rest r r' fl Hj Hsend|i ok r r' fl Hrun]; cbn [fst] in *.
  - unfold handleSubscribe. destruct args as [|a args]; [done|]. destruct (c_conn ctx) as [conn|]; [|done].
    pose proof (subscribe_all_ok d (connId conn) (map arg_or_empty (a :: args)) r (sessionLocked r (connId conn)) [] (reg_others r (connId conn) Hr)) as X.
    destruct (subscribe_all d (connId conn) (map arg_or_empty (a :: args)) r (sessionLocked r (connId conn)) []) as [[r1 s1] confs].
    cbn [fst snd] in X. apply emit_ok. by apply others_reg.
  - unfold handleUnsubscribe. destruct (c_conn ctx) as [conn|]; [|done]. cbv zeta.
    match goal with |- context [unsubscribe_all d ?t r ?s ?cf] =>
      pose proof (unsubscribe_all_ok d (connId conn) t r s cf (reg_others r (connId conn) Hr)) as X; destruct (unsubscribe_all d t r s cf) as [[r1 s1] confs] end.
    cbn [fst snd] in X. apply emit_ok. by apply others_reg.
  - by apply close_ok.
  - done.
  - unfold send in Hsend. destruct i as [i|]; [|done]. destruct (chans r !! i) as [k|] eqn:Ei; [|done]. destruct (open k) eqn:Eo; cbn [negb] in Hsend; [|done].
    destruct (chan_cap <=? _); [done|]. injection Hsend as <-. by eapply insert_chan_ok.
  - unfold runSender in Hrun. destruct (chans r !! i) as [[[|m b] o c [|]]|] eqn:Ei; try done. injection Hrun as <-.
    destruct ok; by eapply insert_chan_ok.
Qed.

(** C38: whatever connections subscribe, unsubscribe, publish, disconnect and
    are written to, in any interleaving, the registry stays consistent: every
    session's lists name its subscriptions exactly, each once, and a
    connection with a subscription has an open channel of its own, drained to
    that connection. *)
Theorem registry_invariant `{SessionRange} (st : pstate) :
  rtc pstep (new_registry, []) st ->
  forall c s, sessions st.1 !! c = Some s ->
    (forall d, NoDup (listed d s) /\ (forall x, x ∈ members d s <-> x ∈ listed d s)) /\
    (0 < activeTotal s -> exists i k, ch s = Some i /\ chans st.1 !! i = Some k /\ open k = true /\ ch_conn k = c).
Proof.
  intros Hr c s E. assert (reg_ok st.1) as Hok.
  { clear E. apply (rtc_ind_r (fun st => reg_ok st.1) (new_registry, [])) in Hr; [done|apply new_registry_ok|]. intros; by eapply pstep_ok. }
  destruct (ro_sessions _ Hok _ _ E) as [H1 H2 H3]. split; [exact H1|]. intros Ha. by apply H3, H2.
Qed.

(** ** Publishing *)

Lemma messages_live (r : PubSubRegistry) (c : Z) (s : pubsubSession) (channel : bytes) (payload : Value) :
  session_ok r c s -> messages s channel payload <> [] -> live s = true.
Proof.
  intros [H1 H2 H3] Hm. apply H2. unfold activeTotal, set_count.
  destruct (decide (subs s = ∅ /\ patterns s = ∅)) as [[E1 E2]|Hne].
  - exfalso. apply Hm. unfold messages. rewrite bool_decide_eq_false_2 by (rewrite E1; set_solver).
    destruct (H1 Patterns) as [_ He]. cbn in He. assert (porder s = []) as ->; [|done]. rewrite E2 in He.
    destruct (porder s) as [|p l]; [done|]. exfalso. apply (not_elem_of_empty (C := gset bytes) p), He. by left.
  - assert (size (subs s) <> 0%nat \/ size (patterns s) <> 0%nat) as X.
    { destruct (decide (subs s = ∅)) as [E1|E1]; [right|left]; intros E; apply size_empty_inv in E; apply leibniz_equiv in E; auto. }
    lia.
Qed.

Lemma sum_perm {A : Type} (f : A -> Z) (l l' : list A) : l ≡ₚ l' -> foldr (fun x n => f x + n) 0 l = foldr (fun x n => f x + n) 0 l'.
Proof. induction 1 as [|x l l' _ IH|x y l|l l' l'' _ IH1 _ IH2]; cbn; lia. Qed.

(** Deliveries to one channel. *)
Definition sent_to (i : nat) (l : list (option nat * Value)) : list Value :=
  map snd (List.filter (fun p : option nat * Value => bool_decide (p.1 = Some i)) l).

Lemma sent_to_app (i : nat) (l l' : list (option nat * Value)) : sent_to i (l ++ l') = sent_to i l ++ sent_to i l'.
Proof. unfold sent_to. by rewrite List.filter_app, map_app. Qed.

Lemma sent_to_pairs (i : nat) (id : option nat) (ms : list Value) : sent_to i (map (pair id) ms) = if decide (id = Some i) then ms else [].
Proof.
  unfold sent_to. induction ms as [|m ms IH]; cbn; [by destruct (decide _)|]. destruct (decide (id = Some i)) as [E|E].
  - rewrite bool_decide_eq_true_2 by done. cbn. by rewrite IH.
  - rewrite bool_decide_eq_false_2 by done. exact IH.
Qed.

Lemma sent_to_others (i : nat) (r : PubSubRegistry) (msgs : pubsubSession -> list Value) (ss : list (Z * pubsubSession)) (c : Z) (k : channel) :
  chans r !! i = Some k -> ch_conn k = c -> (forall c' s', (c', s') ∈ ss -> c' <> c /\ session_ok r c' s') -> sent_to i (collect msgs ss) = [].
Proof.
  intros Hi Hc. unfold collect. induction ss as [|[c' s'] ss IH]; intros Hss; [done|]. cbn [map concat snd]. rewrite sent_to_app.
  rewrite IH by (intros; apply Hss; by right). rewrite app_nil_r. destruct (live s') eqn:El; [|done]. rewrite sent_to_pairs.
  destruct (Hss c' s') as [Hne Hok]; [by left|]. destruct (so_chan _ _ _ Hok El) as (j & k' & E1 & E2 & _ & E4). rewrite decide_False; [done|].
  rewrite E1. intros [= ->]. congruence.
Qed.

(** PUBLISH answers the number of matching subscriptions over all
    connections, and hands every connection, through its own open channel,
    exactly the messages its subscriptions ask for: the channel's message
    first, then one for every matching pattern in the order the patterns were
    subscribed to. *)
Theorem publish_exact `{SessionRangeLaws} (channel : bytes) (payload : Value) (r : PubSubRegistry) :
  reg_ok r ->
  let '(l, n) := Publish channel payload r in
  n = map_fold (fun _ s n => len (messages s channel payload) + n) 0 (sessions r) /\
  forall c s, sessions r !! c = Some s -> messages s channel payload <> [] ->
    exists i k, ch s = Some i /\ chans r !! i = Some k /\ open k = true /\ ch_conn k = c /\ sent_to i l = messages s channel payload.
Proof.
  intros Hr. unfold Publish. cbv zeta. destruct Hr as [Hs Hf]. pose proof (range_sessions_perm (sessions r)) as Hp. split.
  - rewrite map_fold_foldr. transitivity (foldr (fun (cs : Z * pubsubSession) n => len (messages cs.2 channel payload) + n) 0 (range_sessions (sessions r))).
    + assert (forall cs, cs ∈ range_sessions (sessions r) -> session_ok r cs.1 cs.2) as Hall.
      { intros [c s] Hin. rewrite Hp in Hin. apply elem_of_map_to_list in Hin. exact (Hs _ _ Hin). }
      clear Hp. induction (range_sessions (sessions r)) as [|[c s] l IH]; [done|]. unfold collect. cbn [map concat snd foldr]. rewrite len_app.
      fold (collect (fun s => messages s channel payload) l). rewrite IH by (intros; apply Hall; by right). f_equal.
      destruct (live s) eqn:El; [unfold len; by rewrite length_map|]. destruct (messages s channel payload) eqn:Em; [done|]. exfalso.
      rewrite (messages_live r c s channel payload) in El; [done|apply (Hall (c, s)); by left|by rewrite Em].
    + rewrite (sum_perm _ _ _ Hp). generalize (map_to_list (sessions r)). intros l. induction l as [|[c s] l IH]; cbn; [done|]. by rewrite IH.
  - intros c s E Hm. pose proof (Hs _ _ E) as Hok. pose proof (messages_live r c s channel payload Hok Hm) as El.
    destruct (so_chan _ _ _ Hok El) as (i & k & E1 & E2 & E3 & E4). exists i, k. split_and!; [done..|].
    assert ((c, s) ∈ range_sessions (sessions r)) as Hin by (rewrite Hp; by apply elem_of_map_to_list).
    assert (NoDup (range_sessions (sessions r)).*1) as Hnd by (rewrite Hp; apply NoDup_fst_map_to_list).
    apply list_elem_of_split in Hin as (l1 & l2 & Es). rewrite Es in Hnd |- *. rewrite fmap_app, fmap_cons in Hnd. cbn in Hnd.
    apply NoDup_app in Hnd as (_ & Hd1 & Hd2). apply NoDup_cons in Hd2 as [Hd2 _].
    assert (forall c' s', (c', s') ∈ l1 \/ (c', s') ∈ l2 -> c' <> c /\ session_ok r c' s') as Hoth.
    { intros c' s' Hin. split.
      - intros ->. destruct Hin as [Hin|Hin]; [|by apply Hd2, (list_elem_of_fmap_2 fst l2 (c, s'))].
        apply (Hd1 c); [by apply (list_elem_of_fmap_2 fst l1 (c, s'))|by left].
      - apply Hs. apply elem_of_map_to_list. rewrite <- Hp, Es. destruct Hin; apply elem_of_app; [by left|right; by right]. }
    unfold collect. rewrite map_app, concat_app. cbn [map concat snd]. rewrite El, !sent_to_app.
    fold (collect (fun s => messages s channel payload) l1). fold (collect (fun s => messages s channel payload) l2).
    rewrite (sent_to_others i r _ l1 c k), (sent_to_others i r _ l2 c k) by (done || (intros; apply Hoth; auto)).
    rewrite sent_to_pairs, decide_True by done. by rewrite app_nil_r.
Qed.

(** ** Runs *)

Definition by_key : SessionRange := {| range_sessions := map_to_list |}.
#[local] Instance by_key_laws : @SessionRangeLaws by_key.
Proof. by split. Defined.

Definition client (c : Z) : Ctx := mkCtx None (Some (mkConn c [])) false.
Definition names_args (l : list string) : list Value := map (fun t => BulkOf (lit t)) l.

(** Connection 1 subscribes to a channel and two patterns, connection 2 to the
    channel. *)
Definition two_clients : PubSubRegistry :=
  (handleSubscribe Channels (client 2) (names_args ["news"])
    (handleSubscribe Patterns (client 1) (names_args ["n*"; "*s"]) (handleSubscribe Channels (client 1) (names_args ["news"]) new_registry).2).2).2.

Lemma two_clients_reachable : rtc (@pstep by_key) (new_registry, []) (two_clients, []).
Proof. do 3 (eapply rtc_l; [apply P_subscribe|]). apply rtc_refl. Qed.

Lemma registry_invariant_witness :
  exists s, sessions two_clients !! 1 = Some s /\ activeTotal s = 3 /\
    (forall d, NoDup (listed d s) /\ (forall x, x ∈ members d s <-> x ∈ listed d s)) /\
    (0 < activeTotal s -> exists i k, ch s = Some i /\ chans two_clients !! i = Some k /\ open k = true /\ ch_conn k = 1).
Proof.
  eexists. split; [reflexivity|]. split; [vm_compute; reflexivity|].
  apply (@registry_invariant by_key (two_clients, []) two_clients_reachable 1). reflexivity.
Defined.

Lemma two_clients_ok : reg_ok two_clients.
Proof.
  change (reg_ok (two_clients, @nil (list (option nat * Value))).1).
  apply (rtc_ind_r (R := @pstep by_key) (fun st => reg_ok st.1) (new_registry, [])) with (z := (two_clients, [])); [apply new_registry_ok|intros; by eapply (@pstep_ok by_key)|apply two_clients_reachable].
Qed.

Lemma publish_exact_witness :
  let '(l, n) := @Publish by_key (lit "news") (BulkOf (lit "hi")) two_clients in
  n = map_fold (fun _ s n => len (messages s (lit "news") (BulkOf (lit "hi"))) + n) 0 (sessions two_clients) /\
  forall c s, sessions two_clients !! c = Some s -> messages s (lit "news") (BulkOf (lit "hi")) <> [] ->
    exists i k, ch s = Some i /\ chans two_clients !! i = Some k /\ open k = true /\ ch_conn k = c /\
      sent_to i l = messages s (lit "news") (BulkOf (lit "hi")).
Proof. apply (@publish_exact by_key by_key_laws (lit "news") (BulkOf (lit "hi")) two_clients two_clients_ok). Defined.

Example publish_count : (@Publish by_key (lit "news") (BulkOf (lit "hi")) two_clients).2 = 4.
Proof. vm_compute. reflexivity. Qed.

(** A publisher that has collected its deliveries sends on a channel that the
    subscriber's UNSUBSCRIBE, or the end of its connection, has closed in the
    meantime. *)
Example publish_races_unsubscribe :
  let d := (@Publish by_key (lit "news") (BulkOf (lit "hi")) two_clients).1 in
  let r := (handleUnsubscribe Channels (client 2) [] two_clients).2 in
  exists i m, (i, m) ∈ d /\ send i m two_clients <> Some Panic /\ send i m r = Some Panic /\ send i m (ConnClosed 2 two_clients) = Some Panic.
Proof.
  cbv zeta. exists (Some 1%nat), (VArray (Some [BulkOf (lit "message"); BulkOf (lit "news"); BulkOf (lit "hi")])).
  split_and!; [|vm_compute; discriminate|vm_compute; reflexivity|vm_compute; reflexivity]. apply list_elem_of_In. vm_compute. auto 10.
Qed.

End pubsub.
