(* ===== verification/Cluster.v ===== *)
(** * Cluster routing
    (src/internal/cluster, and the redirection of src/internal/commands/cluster.go)

    Key slots, the slot ranges of the configuration, the topology with its
    migration states, the snapshot file, the key extraction of commands and the
    MOVED/ASK/CROSSSLOT gate.  A [[NumSlots]int] array is a list of that
    length. *)

From S2P Require Import Prelude GoLib GoStrings Resp Kv Cmd.
Open Scope Z_scope.
Open Scope gedis_scope.

Module cluster.

Definition NumSlots : Z := 16384.

(** ** Slots (slot.go) *)

(** One step of the inner loop of crc16, on 16-bit words. *)
Definition crc_bit (crc : Z) : Z :=
  if negb (Z.land crc 32768 =? 0) then Z.lxor (u16 (Z.shiftl crc 1)) 4129 else u16 (Z.shiftl crc 1).

Definition crc_byte (crc : Z) (c : ascii) : Z :=
  Nat.iter 8 crc_bit (Z.lxor crc (u16 (Z.shiftl (byte_val c) 8))).

Definition crc16 (s : bytes) : Z := foldl crc_byte 0 s.

(** [indexByte(s, c)]: -1 when absent. *)
Definition indexByte (s : bytes) (c : ascii) : Z := IndexByte s c.

Definition tag (key : bytes) : bytes :=
  let i := indexByte key "{" in
  if 0 <=? i then
    let rest := drop (Z.to_nat (i + 1)) key in
    let j := indexByte rest "}" in
    if 0 <? j then take (Z.to_nat j) rest else key
  else key.

Definition Slot (key : bytes) : Z := Z.land (crc16 (tag key)) (NumSlots - 1).

Fixpoint ParseSlotRanges `{GoUnicode} (specs : list bytes) : result (list (Z * Z)) :=
  match specs with
  | [] => Ok []
  | s0 :: rest =>
      let s := TrimSpace s0 in
      if bytes_eqb s [] then fail "cluster: empty slot spec" else
      let i := IndexByte s "-" in
      if 0 <=? i then
        match Atoi (TrimSpace (take (Z.to_nat i) s)), Atoi (TrimSpace (drop (Z.to_nat (i + 1)) s)) with
        | Some lo, Some hi =>
            if (lo <? 0) || (NumSlots <=? hi) || (hi <? lo) then fail "cluster: slot range out of range"
            else let? out := ParseSlotRanges rest in Ok ((lo, hi) :: out)
        | _, _ => fail "cluster: invalid slot range"
        end
      else
        match Atoi s with
        | Some n => if (n <? 0) || (NumSlots <=? n) then fail "cluster: invalid slot"
                    else let? out := ParseSlotRanges rest in Ok ((n, n) :: out)
        | None => fail "cluster: invalid slot"
        end
  end.

(** [crypto/sha1], 20 bytes. *)
Class GoSha1 : Type := { sha1_Sum : bytes -> bytes }.

Definition hexd : bytes := lit "0123456789abcdef".
Definition hex_digit (n : Z) : ascii := nth (Z.to_nat n) hexd "0"%char.
Definition DeriveID `{GoSha1} (addr : bytes) : bytes :=
  concat (map (fun c => [hex_digit (Z.shiftr (byte_val c) 4); hex_digit (Z.land (byte_val c) 15)]) (sha1_Sum addr)).

(** ** Topology (topo.go) *)

Record TopoNode : Type := mkNode { nID : bytes; nAddr : bytes; nRanges : list (Z * Z) }.
Record NodeSpec : Type := mkSpec { sID : bytes; sAddr : bytes; sRanges : list (Z * Z) }.

Record Topology : Type := mkTopo {
  Enabled : bool;
  self : Z;
  nodes : list TopoNode;
  owned : list bool;
  owner : list Z;
  migrating : gmap Z bytes;
  importing : gmap Z bytes;
  epoch : Z;
}.

Record Snapshot : Type := mkSnap { snOwner : list Z; snMigrating : gmap Z bytes; snImporting : gmap Z bytes; snEpoch : Z }.

(** [a[i] = v] and [a[i]] within the array. *)
Definition aset {A} (l : list A) (i : Z) (v : A) : list A := <[Z.to_nat i := v]> l.
Definition aget {A} (d : A) (l : list A) (i : Z) : A := default d (l !! Z.to_nat i).

Definition no_owner : list Z := replicate (Z.to_nat NumSlots) (-1).
Definition none_owned : list bool := replicate (Z.to_nat NumSlots) false.

(** [for s := r[0]; s <= r[1] && s < NumSlots; s++ { if s >= 0 ... }]: the
    slots a closed range covers. *)
Definition range_slots (r : Z * Z) : list Z :=
  let lo := Z.max 0 (fst r) in
  let hi := Z.min (snd r) (NumSlots - 1) in
  map (fun i => lo + Z.of_nat i) (seq 0 (Z.to_nat (hi - lo + 1))).

Definition NewTopology (enabled : bool) (ranges : list (Z * Z)) : Topology :=
  if negb enabled then mkTopo false 0 [] none_owned (replicate (Z.to_nat NumSlots) 0) ∅ ∅ 0
  else
    let slots := concat (map range_slots ranges) in
    mkTopo true 0 [mkNode [] [] ranges]
      (foldl (fun o s => aset o s true) none_owned slots) (foldl (fun o s => aset o s 0) no_owner slots) ∅ ∅ 0.

Definition FullTopology : Topology :=
  mkTopo true 0 [mkNode [] [] [(0, NumSlots - 1)]]
    (replicate (Z.to_nat NumSlots) true) (replicate (Z.to_nat NumSlots) 0) ∅ ∅ 0.

(** [net.SplitHostPort] *)
Fixpoint LastIndexByte_from (i : Z) (s : bytes) (c : ascii) (best : Z) : Z :=
  match s with
  | [] => best
  | x :: r => LastIndexByte_from (i + 1) r c (if Ascii.eqb x c then i else best)
  end.
Definition LastIndexByte (s : bytes) (c : ascii) : Z := LastIndexByte_from 0 s c (-1).

Definition SplitHostPort (hp : bytes) : option (bytes * bytes) :=
  let i := LastIndexByte hp ":" in
  if i <? 0 then None else
  let port := drop (Z.to_nat (i + 1)) hp in
  match hp with
  | "["%char :: _ =>
      let e := IndexByte hp "]" in
      if e <? 0 then None
      else if negb (e + 1 =? i) then None
      else if 0 <=? IndexByte (drop 1 hp) "[" then None
      else if 0 <=? IndexByte (drop (Z.to_nat (e + 1)) hp) "]" then None
      else Some (take (Z.to_nat (e - 1)) (drop 1 hp), port)
  | _ =>
      let host := take (Z.to_nat i) hp in
      if 0 <=? IndexByte host ":" then None
      else if 0 <=? IndexByte hp "[" then None
      else if 0 <=? IndexByte hp "]" then None
      else Some (host, port)
  end.

Definition splitAddr (addr : bytes) : option (bytes * bytes) :=
  match SplitHostPort addr with
  | Some (h, p) => if bytes_eqb h [] && bytes_eqb p [] then None else Some (h, p)
  | None => None
  end.

(** Claim the slots for node [idx], unless one is taken. *)
Fixpoint claim (idx : Z) (slots : list Z) (od : list bool) (ow : list Z) : result (list bool * list Z) :=
  match slots with
  | [] => Ok (od, ow)
  | s :: rest => if 0 <=? aget (-1) ow s then fail "cluster: slot claimed twice"
                 else claim idx rest (aset od s true) (aset ow s idx)
  end.

(** The loop of Build over the specs; [self] is -1 until a node matches. *)
Fixpoint build_loop `{GoSha1} (selfHost selfPort : bytes) (specs : list NodeSpec) (t : Topology) : result Topology :=
  match specs with
  | [] => Ok t
  | s :: rest =>
      if bytes_eqb (sAddr s) [] then fail "cluster: node missing addr" else
      match splitAddr (sAddr s) with
      | None => fail "cluster: invalid node addr"
      | Some (h, p) =>
          let match_ := (bytes_eqb h selfHost && bytes_eqb p selfPort) ||
                        ((bytes_eqb selfHost [] || bytes_eqb selfHost (lit "0.0.0.0")) && bytes_eqb p selfPort) in
          let id := if bytes_eqb (sID s) [] then DeriveID (sAddr s) else sID s in
          let ranges := isort (fun a b => fst a <? fst b) (sRanges s) in
          let idx := len (nodes t) in
          let? (od, ow) := claim idx (concat (map range_slots ranges)) (owned t) (owner t) in
          build_loop selfHost selfPort rest
            (mkTopo true (if match_ && (self t <? 0) then idx else self t) (nodes t ++ [mkNode id (sAddr s) ranges])
               od ow (migrating t) (importing t) (epoch t))
      end
  end.

Definition Build `{GoSha1} (selfAddr : bytes) (specs : list NodeSpec) : result Topology :=
  let specs := match specs with [] => [mkSpec [] selfAddr [(0, NumSlots - 1)]] | _ => specs end in
  match splitAddr selfAddr with
  | None => fail "cluster: invalid server addr"
  | Some (h, p) =>
      let? t := build_loop h p specs (mkTopo true (-1) [] none_owned no_owner ∅ ∅ 0) in
      if self t <? 0 then fail "cluster: no [[cluster.nodes]] entry matches server" else Ok t
  end.

Definition in_slots (slot : Z) : bool := (0 <=? slot) && (slot <? NumSlots).

Definition Owns (t : Topology) (slot : Z) : bool :=
  if negb (Enabled t) || negb (in_slots slot) then false
  else aget false (owned t) slot && (aget (-1) (owner t) slot =? self t).

Definition addr_at (t : Topology) (idx : Z) : bytes :=
  if (0 <=? idx) && (idx <? len (nodes t)) then default [] (nAddr <$> nodes t !! Z.to_nat idx) else [].

Definition OwnerAddr (t : Topology) (slot : Z) : bytes :=
  if negb (Enabled t) || negb (in_slots slot) then [] else addr_at t (aget (-1) (owner t) slot).

(** [t.nodes[t.self]] *)
Definition SelfID (t : Topology) : result bytes :=
  if negb (Enabled t) || (len (nodes t) =? 0) then Ok []
  else match nodes t !! Z.to_nat (self t) with
       | Some n => if 0 <=? self t then Ok (nID n) else Panic
       | None => Panic
       end.

Definition AssignedCount (t : Topology) : Z :=
  if negb (Enabled t) then 0 else len (List.filter (fun o => 0 <=? o) (owner t)).

(** The epoch is a [uint64]. *)
Definition with_state (t : Topology) (mig imp : gmap Z bytes) (e : Z) : Topology :=
  mkTopo (Enabled t) (self t) (nodes t) (owned t) (owner t) mig imp (u64 e).

Definition SetMigrating (t : Topology) (slot : Z) (targetID : bytes) : result Topology :=
  if negb (in_slots slot) then fail "slot out of range"
  else if negb (aget (-1) (owner t) slot =? self t) then fail "not owner"
  else if bool_decide (migrating t !! slot = Some targetID) then Ok t
  else Ok (with_state t (<[slot := targetID]> (migrating t)) (importing t) (epoch t + 1)).

Definition SetImporting (t : Topology) (slot : Z) (sourceID : bytes) : result Topology :=
  if negb (in_slots slot) then fail "slot out of range"
  else if aget (-1) (owner t) slot =? self t then fail "already owner"
  else if bool_decide (importing t !! slot = Some sourceID) then Ok t
  else Ok (with_state t (migrating t) (<[slot := sourceID]> (importing t)) (epoch t + 1)).

Definition SetStable (t : Topology) (slot : Z) : Topology :=
  if negb (in_slots slot) then t
  else mkTopo (Enabled t) (self t) (nodes t) (owned t) (owner t)
         (delete slot (migrating t)) (delete slot (importing t)) (epoch t).

Fixpoint node_index (i : Z) (ns : list TopoNode) (id : bytes) : Z :=
  match ns with
  | [] => -1
  | n :: ns' => if bytes_eqb (nID n) id then i else node_index (i + 1) ns' id
  end.

Definition SetNode (t : Topology) (slot : Z) (nodeID : bytes) : result Topology :=
  if negb (in_slots slot) then fail "slot out of range"
  else
    let idx := node_index 0 (nodes t) nodeID in
    if idx <? 0 then fail "unknown node"
    else Ok (mkTopo (Enabled t) (self t) (nodes t) (aset (owned t) slot true) (aset (owner t) slot idx)
               (delete slot (migrating t)) (delete slot (importing t)) (u64 (epoch t + 1))).

Definition MigratingTo (t : Topology) (slot : Z) : option bytes := migrating t !! slot.
Definition ImportingFrom (t : Topology) (slot : Z) : option bytes := importing t !! slot.

Definition AddrOf (t : Topology) (id : bytes) : bytes :=
  match List.find (fun n => bytes_eqb (nID n) id) (nodes t) with Some n => nAddr n | None => [] end.

Definition Snapshot_ (t : Topology) : Snapshot := mkSnap (owner t) (migrating t) (importing t) (epoch t).

Definition LoadSnapshot (t : Topology) (s : Snapshot) : result Topology :=
  if snEpoch s <? epoch t then fail "epoch regressed"
  else Ok (mkTopo (Enabled t) (self t) (nodes t) (map (fun o => 0 <=? o) (snOwner s)) (snOwner s)
             (snMigrating s) (snImporting s) (snEpoch s)).

(** ** Keys of a command (keys.go) *)

Definition isin (cmd : bytes) (l : list string) : bool := existsb (fun s => bytes_eqb cmd (lit s)) l.

Definition allNonEmpty (args : list bytes) : option (list bytes) :=
  match args with
  | [] => None
  | _ => if existsb (fun a => bytes_eqb a []) args then None else Some args
  end.

Definition arg_at (args : list bytes) (i : nat) : option (list bytes) :=
  match args !! i with
  | Some a => if bytes_eqb a [] then None else Some [a]
  | None => None
  end.

(** [numkeys] at [args[at]], the keys after it; sums are of type [int]. *)
Definition counted (args : list bytes) (at_ : nat) (low : Z) : result (option (list bytes)) :=
  match args !! at_ with
  | None => Ok None
  | Some a =>
      match Atoi a with
      | None => Ok None
      | Some n =>
          let first := Z.of_nat at_ + 1 in
          if (n <? low) || (len args <? i64 (first + n)) then Ok None
          else if n =? 0 then Ok None
          else let? ks := slice args first (i64 (first + n)) in Ok (allNonEmpty ks)
      end
  end.

Definition evalKeys (args : list bytes) : result (option (list bytes)) := counted args 0 0.

Definition fcallKeys (args : list bytes) : result (option (list bytes)) :=
  match args with
  | _ :: a :: _ =>
      match Atoi a with
      | None => Ok None
      | Some n => if (n <? 0) || (len args - 2 <? n) then Ok None
                  else if n =? 0 then Ok None
                  else let? ks := slice args 2 (2 + n) in Ok (allNonEmpty ks)
      end
  | _ => Ok None
  end.

Fixpoint after_streams `{GoUnicode} (args : list bytes) : option (list bytes) :=
  match args with
  | [] => None
  | a :: rest => if bytes_eqb (ToUpper a) (lit "STREAMS") then Some rest else after_streams rest
  end.
Definition xreadKeys `{GoUnicode} (args : list bytes) : option (list bytes) :=
  match after_streams args with
  | None => None
  | Some rest => if (len rest =? 0) || negb (len rest mod 2 =? 0) then None
                 else allNonEmpty (take (Z.to_nat (len rest / 2)) rest)
  end.

Fixpoint sort_store `{GoUnicode} (args : list bytes) (out : list bytes) : option (list bytes) :=
  match args with
  | [] => Some out
  | a :: rest => if bytes_eqb (ToUpper a) (lit "STORE") then
                   match rest with
                   | d :: _ => if bytes_eqb d [] then None else Some (out ++ [d])
                   | [] => None
                   end
                 else sort_store rest out
  end.
Definition sortKeys `{GoUnicode} (args : list bytes) : option (list bytes) :=
  match args with
  | a :: rest => if bytes_eqb a [] then None else sort_store rest [a]
  | [] => None
  end.

Fixpoint pair_keys (args : list bytes) : option (list bytes) :=
  match args with
  | k :: _ :: rest => if bytes_eqb k [] then None else
                      match pair_keys rest with Some ks => Some (k :: ks) | None => None end
  | _ => Some []
  end.

Definition singleFirstCmd (cmd : bytes) : bool :=
  isin cmd ["GET"; "SET"; "SETNX"; "GETSET"; "GETDEL"; "GETEX";
    "SETEX"; "PSETEX"; "SETRANGE"; "GETRANGE"; "SUBSTR"; "STRLEN"; "APPEND";
    "INCR"; "DECR"; "INCRBY"; "DECRBY"; "INCRBYFLOAT";
    "HSET"; "HGET"; "HGETALL"; "HKEYS"; "HVALS"; "HLEN"; "HDEL";
    "HEXISTS"; "HMGET"; "HSETNX"; "HINCRBY"; "HINCRBYFLOAT"; "HSTRLEN"; "HRANDFIELD";
    "HEXPIRE"; "HEXPIREAT"; "HPEXPIRE"; "HPEXPIREAT"; "HTTL"; "HPTTL"; "HPERSIST";
    "HEXPIRETIME"; "HPEXPIRETIME";
    "LPUSH"; "RPUSH"; "LPUSHX"; "RPUSHX"; "LPOP"; "RPOP"; "LLEN";
    "LRANGE"; "LINDEX"; "LSET"; "LTRIM"; "LREM"; "LINSERT"; "LMOVE";
    "RPOPLPUSH"; "BRPOPLPUSH"; "BLPOP"; "BRPOP"; "BLMOVE";
    "SADD"; "SREM"; "SCARD"; "SISMEMBER"; "SMEMBERS"; "SMISMEMBER";
    "SPOP"; "SRANDMEMBER";
    "ZADD"; "ZREM"; "ZSCORE"; "ZRANK"; "ZREVRANK"; "ZCARD"; "ZCOUNT";
    "ZINCRBY"; "ZRANGE"; "ZREVRANGE"; "ZRANGEBYSCORE"; "ZREVRANGEBYSCORE";
    "ZREMRANGEBYSCORE"; "ZREMRANGEBYRANK"; "ZREMRANGEBYLEX"; "ZRANGEBYLEX";
    "ZREVRANGEBYLEX"; "ZLEXCOUNT"; "ZPOPMIN"; "ZPOPMAX"; "ZRANDMEMBER";
    "ZRANGESTORE"; "ZMSCORE";
    "PFADD"; "PFMERGE";
    "GETBIT"; "SETBIT"; "BITCOUNT"; "BITPOS"; "BITFIELD"; "BITFIELD_RO";
    "EXPIRE"; "EXPIREAT"; "PEXPIRE"; "PEXPIREAT"; "PERSIST";
    "TTL"; "PTTL"; "EXPIRETIME"; "PEXPIRETIME";
    "TYPE"; "DUMP"; "RESTORE"; "MOVE"; "KEYS";
    "XADD"; "XLEN"; "XRANGE"; "XREVRANGE"; "XACK"; "XCLAIM";
    "XAUTOCLAIM"; "XPENDING"; "XTRIM"; "XDEL"; "XSETID";
    "GEOADD"; "GEODIST"; "GEOHASH"; "GEOPOS"; "GEORADIUS";
    "GEORADIUSBYMEMBER"; "GEOSEARCH"; "GEOSEARCHSTORE";
    "SORT_RO";
    "DELEX"; "GETDELEX"]%string.

(** [None]: no key routing (the command passes). *)
Definition KeysOf `{GoUnicode} (cmd : bytes) (args : list bytes) : result (option (list bytes)) :=
  if isin cmd ["EVAL"; "EVALSHA"; "EVAL_RO"; "EVALSHA_RO"]%string then evalKeys args
  else if isin cmd ["FCALL"; "FCALL_RO"]%string then fcallKeys args
  else if isin cmd ["XREAD"; "XREADGROUP"]%string then Ok (xreadKeys args)
  else if isin cmd ["SORT"]%string then Ok (sortKeys args)
  else if isin cmd ["MIGRATE"]%string then Ok (arg_at args 2)
  else if isin cmd ["OBJECT"; "MEMORY"; "XGROUP"; "XINFO"]%string then Ok (arg_at args 1)
  else if isin cmd ["BITOP"]%string then Ok (allNonEmpty args)
  else if isin cmd ["COPY"; "RENAME"; "RENAMENX"; "LCS"]%string then Ok (allNonEmpty (take 2 args))
  else if isin cmd ["SMOVE"]%string then Ok (if 2 <=? len args then allNonEmpty (take 2 args) else None)
  else if isin cmd ["DEL"; "UNLINK"; "EXISTS"; "TOUCH"; "MGET"]%string then Ok (allNonEmpty args)
  else if isin cmd ["MSET"; "MSETNX"]%string then
    Ok (match pair_keys args with Some [] | None => None | Some ks => Some ks end)
  else if isin cmd ["PFCOUNT"; "SINTER"; "SUNION"; "SDIFF"; "SINTERSTORE"; "SUNIONSTORE"; "SDIFFSTORE"; "SINTERCARD"]%string
  then Ok (allNonEmpty args)
  else if isin cmd ["ZUNIONSTORE"; "ZINTERSTORE"; "ZDIFFSTORE"]%string then
    match args with
    | d :: a :: _ :: _ =>
        match Atoi a with
        | None => Ok None
        | Some n => if (n <? 1) || (len args <? i64 (2 + n)) then Ok None
                    else let? ks := slice args 2 (i64 (2 + n)) in Ok (allNonEmpty (d :: ks))
        end
    | _ => Ok None
    end
  else if isin cmd ["ZUNION"; "ZINTER"; "ZDIFF"; "ZINTERCARD"; "LMPOP"; "BLMPOP"; "ZMPOP"; "BZMPOP"]%string then
    if len args <? 2 then Ok None else counted args 0 1
  else if isin cmd ["SUBSCRIBE"; "UNSUBSCRIBE"; "PUBLISH"; "PUBSUB"; "SSUBSCRIBE"; "SUNSUBSCRIBE"; "SPUBLISH";
                    "PSUBSCRIBE"; "PUNSUBSCRIBE"; "CLUSTER"; "ASKING"; "MULTI"; "EXEC"; "DISCARD";
                    "WATCH"; "UNWATCH"; "RESET"; "COMMAND"; "CONFIG"]%string then Ok None
  else if singleFirstCmd cmd then Ok (arg_at args 0)
  else Ok None.

(** ** The gate (commands/cluster.go) *)

Definition CROSSSLOT : Value := VError (lit "CROSSSLOT Keys in request don't hash to the same slot").
Definition CLUSTERDOWN : Value :=
  VError (lit "CLUSTERDOWN Hash slot not served by this node. Check your cluster configuration.").
Definition moved (kind : string) (slot : Z) (addr : bytes) : Value :=
  VError (lit kind ++ lit " " ++ FormatInt slot ++ lit " " ++ addr).

Definition nodeAddrOr (t : Topology) (id fallback : bytes) : bytes :=
  match List.find (fun n => bytes_eqb (nID n) id) (nodes t) with Some n => nAddr n | None => fallback end.

Section gate.
Context {S : Type} `{KV S} `{Clock} `{GoUnicode}.

(** keyPresent with a store: lookupKey succeeds. *)
Definition keyPresent (key : bytes) : M S bool :=
  let! r := attempt (lookupKey key) in mret (match r with inl _ => true | inr _ => false end).

(** The decision of intercept once the keys are known: [None] lets the command
    through.  [asked] is the consumed ASKING flag. *)
Definition route (t : Topology) (name : bytes) (keys : list bytes) (asked : bool) : M S (option Value) :=
  match keys with
  | [] => mret None
  | k0 :: ks =>
      let slot := Slot k0 in
      if existsb (fun k => negb (Slot k =? slot)) ks then mret (Some CROSSSLOT)
      else
        match MigratingTo t slot with
        | Some target =>
            if bytes_eqb name (lit "MIGRATE") then mret None
            else
              let! present := keyPresent k0 in
              mret (if present then None else Some (moved "ASK" slot (nodeAddrOr t target (OwnerAddr t slot))))
        | None =>
            match ImportingFrom t slot with
            | Some _ =>
                if asked then mret None
                else if bytes_eqb (OwnerAddr t slot) [] then mret (Some CLUSTERDOWN)
                else mret (Some (moved "MOVED" slot (OwnerAddr t slot)))
            | None =>
                if Owns t slot then mret None
                else if bytes_eqb (OwnerAddr t slot) [] then mret (Some CLUSTERDOWN)
                else if asked then
                  let! present := keyPresent k0 in
                  mret (if present then None else Some (moved "ASK" slot (OwnerAddr t slot)))
                else mret (Some (moved "MOVED" slot (OwnerAddr t slot)))
            end
        end
  end.

(** The field [Elems] of a value. *)
Definition Elems (v : Value) : list Value :=
  match v with VArray e | VSet e | VPush e => default [] e | _ => [] end.

Fixpoint arg_strings (vs : list Value) : option (list bytes) :=
  match vs with
  | [] => Some []
  | v :: vs' => match argString v, arg_strings vs' with
                | Some s, Some l => Some (s :: l)
                | _, _ => None
                end
  end.

(** [replay]: the context of a replayed transaction; [flag]: the ASKING flag of
    the connection, which any command but ASKING consumes.  Returns the
    refusal, if any, and the flag after. *)
Definition intercept (t : Topology) (replay flag : bool) (cmd : Value) : M S (option Value * bool) :=
  if negb (Enabled t) then mret (None, flag)
  else if replay then mret (None, flag)
  else match Elems cmd with
       | VBulkString b :: rest =>
           let name := ToUpper (default [] b) in
           if bytes_eqb name (lit "ASKING") then mret (None, flag)
           else match arg_strings rest with
                | None => mret (None, false)
                | Some args =>
                    let! r := lift (KeysOf name args) in
                    match r with
                    | None => mret (None, false)
                    | Some ks => let! v := route t name ks flag in mret (v, false)
                    end
                end
       | _ => mret (None, flag)
       end.
End gate.

(** The leading string arguments. *)
Fixpoint arg_prefix (vs : list Value) : list bytes :=
  match vs with
  | [] => []
  | v :: vs' => match argString v with Some s => s :: arg_prefix vs' | None => [] end
  end.

(** The queue's keys must share one slot; [slot] is -1 before the first key. *)
Fixpoint check_queue `{GoUnicode} (q : list Value) (slot : Z) : result (Z + Value) :=
  match q with
  | [] => Ok (inl slot)
  | c :: q' =>
      match Elems c with
      | VBulkString b :: rest =>
          let? r := KeysOf (ToUpper (default [] b)) (arg_prefix rest) in
          match default [] r with
          | [] => check_queue q' slot
          | k0 :: ks =>
              let s := if slot <? 0 then Slot k0 else slot in
              if existsb (fun k => negb (Slot k =? s)) (k0 :: ks) then Ok (inr CROSSSLOT) else check_queue q' s
          end
      | _ => check_queue q' slot
      end
  end.

Definition CheckExec `{GoUnicode} (t : Topology) (queue : list Value) : result (option Value) :=
  if negb (Enabled t) then Ok None else
  let? r := check_queue queue (-1) in
  match r with
  | inr v => Ok (Some v)
  | inl slot =>
      if (0 <=? slot) && negb (Owns t slot) then
        Ok (Some (if bytes_eqb (OwnerAddr t slot) [] then CLUSTERDOWN else moved "MOVED" slot (OwnerAddr t slot)))
      else Ok None
  end.

(** ** Slots: lemmas *)

Lemma Slot_range key : 0 <= Slot key < NumSlots.
Proof.
  unfold Slot, NumSlots. change (16384 - 1) with (Z.ones 14). rewrite Z.land_ones by lia.
  apply Z.mod_pos_bound. lia.
Qed.

Lemma IndexByte_app a b c : c ∉ a -> IndexByte (a ++ c :: b) c = len a.
Proof.
  induction a as [|x a IH]; intros Hn; cbn; [by rewrite Ascii.eqb_refl|].
  apply not_elem_of_cons in Hn as [Hx Ha]. rewrite (proj2 (Ascii.eqb_neq x c)) by congruence.
  rewrite IH by done. rewrite len_cons. pose proof (len_nonneg a). zdec. lia.
Qed.

Lemma tag_braces a t b : "{"%char ∉ a -> "}"%char ∉ t -> t <> [] -> tag (a ++ "{"%char :: t ++ "}"%char :: b) = t.
Proof.
  intros Ha Ht Hne. unfold tag, indexByte. rewrite IndexByte_app by done. pose proof (len_nonneg a). zdec.
  replace (Z.to_nat (len a + 1)) with (length (a ++ ["{"%char])) by (rewrite length_app; unfold len; cbn; lia).
  change (a ++ "{"%char :: t ++ "}"%char :: b) with (a ++ ["{"%char] ++ (t ++ "}"%char :: b)).
  rewrite app_assoc, drop_app_length, IndexByte_app by done.
  assert (0 < len t) by (destruct t; [done|]; rewrite len_cons; pose proof (len_nonneg t); lia). zdec.
  replace (Z.to_nat (len t)) with (length t) by (unfold len; lia). by rewrite take_app_length.
Qed.

(** ** Topology: the invariant *)

Record topo_ok (t : Topology) : Prop := {
  ok_enabled : Enabled t = true;
  ok_self : 0 <= self t < len (nodes t);
  ok_owner_len : length (owner t) = Z.to_nat NumSlots;
  ok_owned_len : length (owned t) = Z.to_nat NumSlots;
  ok_owner : forall s, in_slots s = true -> -1 <= aget (-1) (owner t) s < len (nodes t);
  ok_owned : forall s, in_slots s = true -> aget false (owned t) s = (0 <=? aget (-1) (owner t) s);
  ok_migrating : forall s id, migrating t !! s = Some id -> in_slots s = true /\ aget (-1) (owner t) s = self t;
  ok_importing : forall s id, importing t !! s = Some id -> in_slots s = true /\ aget (-1) (owner t) s <> self t;
}.

Lemma in_slots_spec s : in_slots s = true <-> 0 <= s < NumSlots.
Proof. unfold in_slots. rewrite andb_true_iff, Z.leb_le, Z.ltb_lt. done. Qed.

Lemma aget_aset {A} (d : A) l s s' v :
  length l = Z.to_nat NumSlots -> in_slots s = true -> in_slots s' = true ->
  aget d (aset l s v) s' = if s =? s' then v else aget d l s'.
Proof.
  intros Hl Hs Hs'. apply in_slots_spec in Hs, Hs'. unfold aget, aset. destruct (Z.eqb_spec s s') as [->|N].
  - by rewrite list_lookup_insert_eq by (rewrite Hl; lia).
  - by rewrite list_lookup_insert_ne by lia.
Qed.

Lemma aset_length {A} (l : list A) s v : length (aset l s v) = length l.
Proof. apply length_insert. Qed.

Lemma node_index_spec i ns id : node_index i ns id = -1 \/ i <= node_index i ns id < i + len ns.
Proof.
  revert i; induction ns as [|n ns IH]; intros i; cbn; [by left|]. rewrite len_cons. pose proof (len_nonneg ns).
  destruct (bytes_eqb _ _); [right; lia|]. destruct (IH (i + 1)) as [?|?]; [by left | right; lia].
Qed.

(** The administrative operations. *)
Inductive topo_step : Topology -> Topology -> Prop :=
| ts_migrating t slot id t' : SetMigrating t slot id = Ok t' -> topo_step t t'
| ts_importing t slot id t' : SetImporting t slot id = Ok t' -> topo_step t t'
| ts_stable t slot : topo_step t (SetStable t slot)
| ts_node t slot id t' : SetNode t slot id = Ok t' -> topo_step t t'.

Lemma topo_step_ok t t' : topo_ok t -> topo_step t t' -> topo_ok t'.
Proof.
  intros [H1 H2 H3 H4 H5 H6 H7 H8] S. destruct S as [t slot id t' E|t slot id t' E|t slot|t slot id t' E].
  - unfold SetMigrating in E. destruct (in_slots slot) eqn:Hs; [|done]. cbn in E.
    destruct (_ =? self t) eqn:Ho; [|done]. cbn in E. breflect. case_bool_decide; simplify_eq; [by constructor|].
    constructor; cbn; try done. intros s x [[<- _]|[N Hx]]%lookup_insert_Some; [done | by eapply H7].
  - unfold SetImporting in E. destruct (in_slots slot) eqn:Hs; [|done]. cbn in E.
    destruct (_ =? self t) eqn:Ho; [done|]. breflect. case_bool_decide; simplify_eq; [by constructor|].
    constructor; cbn; try done. intros s x [[<- _]|[N Hx]]%lookup_insert_Some; [done | by eapply H8].
  - unfold SetStable. destruct (in_slots slot); cbn; [|by constructor].
    constructor; cbn; try done; intros s x [_ Hx]%lookup_delete_Some; eauto.
  - unfold SetNode in E. destruct (in_slots slot) eqn:Hs; [|done]. cbn in E.
    destruct (node_index_spec 0 (nodes t) id) as [Hn|Hn]; [rewrite Hn in E; done|].
    destruct (_ <? 0) eqn:Hi; [done|]. simplify_eq. constructor; cbn; try done.
    + by rewrite aset_length.
    + by rewrite aset_length.
    + intros s Hs'. rewrite aget_aset by done. destruct (slot =? s); [lia | by apply H5].
    + intros s Hs'. rewrite !aget_aset by done. destruct (slot =? s); [zdec; done | by apply H6].
    + intros s x [N Hx]%lookup_delete_Some. destruct (H7 s x Hx) as [Ha Hb]. split; [done|].
      rewrite aget_aset by done. destruct (Z.eqb_spec slot s); [by subst | done].
    + intros s x [N Hx]%lookup_delete_Some. destruct (H8 s x Hx) as [Ha Hb]. split; [done|].
      rewrite aget_aset by done. destruct (Z.eqb_spec slot s); [by subst | done].
Qed.

(** ** Build *)

Definition in_range (r : Z * Z) (s : Z) : Prop := fst r <= s <= snd r.
Definition claims (rs : list (Z * Z)) (s : Z) : Prop := exists r, r ∈ rs /\ in_range r s.

Lemma range_slots_spec r s : s ∈ range_slots r <-> in_slots s = true /\ in_range r s.
Proof.
  unfold range_slots, in_range. rewrite in_slots_spec, list_elem_of_fmap. unfold NumSlots. split.
  - intros (i & -> & Hi). apply elem_of_seq in Hi. lia.
  - intros [Hs Hr]. exists (Z.to_nat (s - Z.max 0 (fst r))). split; [lia|]. apply elem_of_seq. lia.
Qed.

Lemma claims_slots rs s : s ∈ concat (map range_slots rs) <-> in_slots s = true /\ claims rs s.
Proof.
  unfold claims. induction rs as [|r rs IH]; cbn [map concat].
  - split; [by intros ?%not_elem_of_nil|]. intros (_ & r & Hr & _). by apply not_elem_of_nil in Hr.
  - rewrite elem_of_app, IH, range_slots_spec. split.
    + intros [[? ?]|(? & x & Hx & ?)]; (split; [done|]); [exists r | exists x]; (split; [|done]); [by left | by right].
    + intros (Hs & x & [->|Hx]%elem_of_cons & Hr); [by left | right]. split; [done|]. by exists x.
Qed.

Lemma claims_perm rs rs' s : rs ≡ₚ rs' -> claims rs s <-> claims rs' s.
Proof. intros P. unfold claims. split; intros (r & Hr & ?); exists r; (split; [|done]); [by rewrite <- P | by rewrite P]. Qed.

Lemma claim_spec idx slots od ow od' ow' :
  0 <= idx -> length ow = Z.to_nat NumSlots -> length od = Z.to_nat NumSlots ->
  Forall (fun s => in_slots s = true) slots ->
  claim idx slots od ow = Ok (od', ow') ->
  length ow' = Z.to_nat NumSlots /\ length od' = Z.to_nat NumSlots /\
  (forall s, in_slots s = true -> s ∈ slots -> aget (-1) ow s < 0) /\
  (forall s, in_slots s = true ->
     aget (-1) ow' s = (if bool_decide (s ∈ slots) then idx else aget (-1) ow s) /\
     aget false od' s = (if bool_decide (s ∈ slots) then true else aget false od s)).
Proof.
  intros Hi. revert od ow; induction slots as [|x slots IH]; intros od ow Hw Hd Hall E; cbn in E.
  { simplify_eq. do 2 (split; [done|]). split; [by intros ? _ ?%not_elem_of_nil|]. intros s _.
    by rewrite bool_decide_eq_false_2 by apply not_elem_of_nil. }
  apply Forall_cons in Hall as [Hx Hall]. destruct (0 <=? aget (-1) ow x) eqn:Ex; [done|]. breflect.
  apply IH in E as (L1 & L2 & F & G); [|by rewrite aset_length|by rewrite aset_length|done].
  do 2 (split; [done|]). split.
  - intros s Hs [->|Hin]%elem_of_cons; [done|]. specialize (F s Hs Hin). rewrite aget_aset in F by done.
    destruct (x =? s); [lia | done].
  - intros s Hs. destruct (G s Hs) as [-> ->]. rewrite !aget_aset by done.
    destruct (decide (s ∈ slots)) as [Hin|Hin].
    + assert (s ∈ x :: slots) as Hl by (by right). by rewrite !(bool_decide_eq_true_2 _ Hin), !(bool_decide_eq_true_2 _ Hl).
    + rewrite !(bool_decide_eq_false_2 (s ∈ slots)) by done. destruct (Z.eqb_spec x s) as [->|N].
      * assert (s ∈ s :: slots) as Hl by (by left). by rewrite !(bool_decide_eq_true_2 _ Hl).
      * assert (s ∉ x :: slots) as Hl by (rewrite elem_of_cons; naive_solver). by rewrite !(bool_decide_eq_false_2 _ Hl).
Qed.

(** What Build maintains: an owner is exactly the node that claims the slot. *)
Record build_inv (t : Topology) : Prop := {
  bi_fresh : migrating t = ∅ /\ importing t = ∅ /\ Enabled t = true /\ epoch t = 0;
  bi_self : -1 <= self t < len (nodes t);
  bi_owner_len : length (owner t) = Z.to_nat NumSlots;
  bi_owned_len : length (owned t) = Z.to_nat NumSlots;
  bi_owner : forall s, in_slots s = true -> -1 <= aget (-1) (owner t) s < len (nodes t);
  bi_owned : forall s, in_slots s = true -> aget false (owned t) s = (0 <=? aget (-1) (owner t) s);
  bi_claims : forall s i n, in_slots s = true -> nodes t !! i = Some n ->
    (claims (nRanges n) s <-> aget (-1) (owner t) s = Z.of_nat i);
}.

Lemma aget_replicate {A} (d v : A) s : in_slots s = true -> aget d (replicate (Z.to_nat NumSlots) v) s = v.
Proof. intros Hs%in_slots_spec. unfold aget. by rewrite lookup_replicate_2 by lia. Qed.

Lemma build_start : build_inv (mkTopo true (-1) [] none_owned no_owner ∅ ∅ 0).
Proof.
  constructor; cbn [migrating importing Enabled epoch self nodes owner owned].
  - done.
  - rewrite len_nil. lia.
  - apply length_replicate.
  - apply length_replicate.
  - intros s Hs. unfold no_owner. rewrite aget_replicate by done. rewrite len_nil. lia.
  - intros s Hs. unfold no_owner, none_owned. by rewrite !aget_replicate.
  - intros s i n _ Hn. by rewrite lookup_nil in Hn.
Qed.

Lemma build_loop_inv `{GoSha1} h p specs t t' :
  build_inv t -> build_loop h p specs t = Ok t' -> build_inv t'.
Proof.
  revert t; induction specs as [|sp specs IH]; intros t Hb E; cbn in E; [by simplify_eq|].
  destruct (bytes_eqb (sAddr sp) []); [done|]. destruct (splitAddr (sAddr sp)) as [[h' p']|]; [|done].
  set (ranges := isort _ _) in E. destruct (claim _ _ _ _) as [[od ow]| |] eqn:C; try done. cbn [res_bind] in E.
  apply IH in E; [done|]. clear IH E. destruct Hb as [B0 B1 B2 B3 B4 B5 B6]. pose proof (len_nonneg (nodes t)).
  apply claim_spec in C as (L1 & L2 & F & G); [|done|done|done|].
  2: { apply Forall_forall. intros s Hs. by apply claims_slots in Hs as [? _]. }
  assert (forall s, in_slots s = true -> bool_decide (s ∈ concat (map range_slots ranges)) = true <-> claims ranges s) as Hcl.
  { intros s Hs. rewrite bool_decide_eq_true, claims_slots. tauto. }
  constructor; cbn [migrating importing Enabled epoch self nodes owner owned]; try done; rewrite ?len_snoc.
  - naive_solver.
  - case_match; lia.
  - intros s Hs. destruct (G s Hs) as [-> _]. specialize (B4 s Hs). case_bool_decide; lia.
  - intros s Hs. destruct (G s Hs) as [-> ->]. specialize (B5 s Hs). case_bool_decide; [zdec; done | done].
  - intros s i n Hs Hn. destruct (G s Hs) as [-> _]. specialize (Hcl s Hs). specialize (B4 s Hs).
    apply lookup_app_Some in Hn as [Hn|[Hge Hn]].
    + assert (Z.of_nat i < len (nodes t)) by (apply lookup_lt_Some in Hn; unfold len; lia).
      rewrite (B6 s i n Hs Hn). destruct (bool_decide (s ∈ concat (map range_slots ranges))) eqn:Eb; [|done].
      assert (s ∈ concat (map range_slots ranges)) as Hin by (apply claims_slots; tauto). specialize (F s Hs Hin). lia.
    + destruct (i - length (nodes t))%nat eqn:Ei; [|done]. cbn in Hn. simplify_eq. cbn.
      assert (Z.of_nat i = len (nodes t)) as -> by (unfold len; lia).
      destruct (bool_decide (s ∈ concat (map range_slots ranges))) eqn:Eb; [tauto|].
      split; [intros Hc; apply Hcl in Hc; congruence | lia].
Qed.

Lemma Build_inv `{GoSha1} addr specs t : Build addr specs = Ok t -> build_inv t /\ 0 <= self t.
Proof.
  unfold Build. destruct (splitAddr addr) as [[h p]|]; [|done].
  destruct (build_loop _ _ _ _) as [t0| |] eqn:E; try done. cbn [res_bind].
  destruct (self t0 <? 0) eqn:Hs; [done|]. intros Ht. apply Ok_inj in Ht. subst t0. breflect.
  split; [eapply build_loop_inv; [apply build_start | exact E] | done].
Qed.

Lemma Build_ok `{GoSha1} addr specs t : Build addr specs = Ok t -> topo_ok t.
Proof.
  intros E. apply Build_inv in E as [[B0 B1 B2 B3 B4 B5 B6] Hs]. destruct B0 as (M & I & En & _).
  constructor; try done; [lia|..]; intros s id; rewrite ?M, ?I; by rewrite lookup_empty.
Qed.

(** ** The gate *)

Lemma Owns_self t s : topo_ok t -> in_slots s = true -> Owns t s = true <-> aget (-1) (owner t) s = self t.
Proof.
  intros Hok Hs. unfold Owns. rewrite (ok_enabled t Hok), Hs. cbn. rewrite (ok_owned t Hok s Hs), andb_true_iff, Z.eqb_eq.
  split; [tauto|]. intros E. rewrite E. pose proof (ok_self t Hok). split; [zdec|]; done.
Qed.

Lemma same_slot k0 ks : existsb (fun k => negb (Slot k =? Slot k0)) ks = false -> forall k, k ∈ k0 :: ks -> Slot k = Slot k0.
Proof.
  intros E k [->|Hk]%elem_of_cons; [done|]. destruct (Z.eqb_spec (Slot k) (Slot k0)) as [|N]; [done|]. exfalso.
  assert (existsb (fun k => negb (Slot k =? Slot k0)) ks = true); [|congruence]. apply existsb_exists. exists k.
  split; [by apply list_elem_of_In|]. by zdec.
Qed.

Lemma Slot_in key : in_slots (Slot key) = true.
Proof. apply in_slots_spec, Slot_range. Qed.

(** ** Properties *)

(** Every key has a slot below 16384, and a hash tag decides it alone: a
    key whose first opening brace is followed by a non-empty text up to the
    next closing brace is in the slot of that text, whatever surrounds it. *)
Theorem slot_of_tag a t b key :
  0 <= Slot key < NumSlots /\
  ("{"%char ∉ a -> "{"%char ∉ t -> "}"%char ∉ t -> t <> [] ->
   Slot (a ++ "{"%char :: t ++ "}"%char :: b) = Slot t).
Proof.
  split; [apply Slot_range|]. intros Ha Ht1 Ht2 Hne. unfold Slot. rewrite tag_braces by done. f_equal. f_equal.
  unfold tag, indexByte. enough (IndexByte t "{" = -1) as -> by done.
  clear -Ht1. induction t as [|x t IH]; cbn; [done|]. apply not_elem_of_cons in Ht1 as [Hx Ht].
  rewrite (proj2 (Ascii.eqb_neq x "{")) by congruence. by rewrite IH.
Qed.

Lemma slot_of_tag_witness : Slot (lit "user" ++ "{"%char :: lit "42" ++ "}"%char :: lit ".name") = Slot (lit "42").
Proof.
  apply (slot_of_tag (lit "user") (lit "42") (lit ".name") []); vm_compute; (set_solver || discriminate).
Defined.

(** A configured topology is a partial function from slots to nodes:
    Build succeeds only if no slot is claimed twice, and then a slot's owner is
    exactly the node whose ranges contain it. *)
Theorem build_ownership `{GoSha1} addr specs t s i n :
  Build addr specs = Ok t -> 0 <= s < NumSlots -> nodes t !! i = Some n ->
  (claims (nRanges n) s <-> aget (-1) (owner t) s = Z.of_nat i).
Proof.
  intros E Hs Hn. apply Build_inv in E as [Hb _]. apply (bi_claims t Hb s i n); [by apply in_slots_spec | done].
Qed.

(** C23: from a configured topology, any sequence of the administrative
    operations keeps it consistent: owners are nodes of the topology, a slot
    being migrated away is owned here, a slot being imported is not. *)
Theorem topology_invariant `{GoSha1} addr specs t t' :
  Build addr specs = Ok t -> rtc topo_step t t' -> topo_ok t'.
Proof.
  intros E R. apply Build_ok in E. induction R as [|x y z S _ IH]; [done|]. apply IH. by eapply topo_step_ok.
Qed.

Section gate_properties.
Context {S : Type} `{KV S} `{Clock} `{GoUnicode}.


(** The key count of a command is not bounded before it is added to: with
    the largest 64-bit count the sum wraps, the length check passes and the
    slice expression panics. *)
Theorem numkeys_overflow_panics t k flag (w : world S) :
  Enabled t = true ->
  (intercept t false flag (ArrayOf [BulkOf (lit "ZUNION"); BulkOf (lit "9223372036854775807"); BulkOf k]) w).1 = Panic.
Proof. intros He. unfold intercept. rewrite He. vm_compute. reflexivity. Qed.

(** EVAL is never routed by its keys: the gate reads the key count where
    the script is, so a script that is not a number hides its keys. *)
Theorem eval_keys_not_routed t script rest flag (w : world S) :
  Atoi script = None ->
  exists flag', intercept t false flag (ArrayOf (BulkOf (lit "EVAL") :: BulkOf script :: rest)) w = (Ok (None, flag'), w).
Proof.
  intros E. unfold intercept. destruct (Enabled t); [|by eexists]. cbn [negb].
  change (Elems _) with (VBulkString (Some (lit "EVAL")) :: VBulkString (Some script) :: rest). cbv iota beta zeta.
  change (default [] (Some (lit "EVAL"))) with (lit "EVAL").
  change (ToUpper (lit "EVAL")) with (lit "EVAL"). change (bytes_eqb (lit "EVAL") (lit "ASKING")) with false.
  cbn [arg_strings argString]. change (default [] (Some script)) with script.
  destruct (arg_strings rest) as [l|]; [|eexists; reflexivity].
  change (KeysOf (lit "EVAL") (script :: l)) with (counted (script :: l) 0 0).
  unfold counted. cbn [lookup list_lookup]. rewrite E. eexists; reflexivity.
Qed.
End gate_properties.

Definition demo_sha : GoSha1 := {| sha1_Sum := fun s => s |}.
Definition demo_specs : list NodeSpec :=
  [mkSpec (lit "a") (lit "h:1") [(0, 5)]; mkSpec (lit "b") (lit "h:2") [(7, 7); (12180, 12185)]].
Definition demo_topo : Topology :=
  match @Build demo_sha (lit "h:1") demo_specs with Ok t => t | _ => FullTopology end.

Lemma demo_build : @Build demo_sha (lit "h:1") demo_specs = Ok demo_topo.
Proof. unfold demo_topo. destruct (Build _ _) eqn:E; [done|exfalso..]; revert E; vm_compute; discriminate. Qed.

Lemma build_ownership_witness :
  claims [(7, 7); (12180, 12185)] 12182 <-> aget (-1) (owner demo_topo) 12182 = 1.
Proof.
  apply (@build_ownership demo_sha (lit "h:1") demo_specs demo_topo 12182 1%nat (mkNode (lit "b") (lit "h:2") [(7, 7); (12180, 12185)])).
  - exact demo_build.
  - unfold NumSlots. lia.
  - vm_compute. reflexivity.
Defined.

Lemma topology_invariant_witness :
  topo_ok (match SetMigrating demo_topo 5 (lit "b") with Ok t => t | _ => demo_topo end).
Proof.
  apply (@topology_invariant demo_sha (lit "h:1") demo_specs demo_topo); [exact demo_build|].
  apply rtc_once. apply (ts_migrating demo_topo 5 (lit "b")). vm_compute. reflexivity.
Defined.

Lemma FullTopology_ok : topo_ok FullTopology.
Proof.
  unfold FullTopology. constructor; cbn [Enabled self nodes owned owner migrating importing].
  - done.
  - unfold len; cbn [length]; lia.
  - apply length_replicate.
  - apply length_replicate.
  - intros s Hs. rewrite aget_replicate by done. unfold len; cbn [length]; lia.
  - intros s Hs. by rewrite !aget_replicate.
  - intros s id. by rewrite lookup_empty.
  - intros s id. by rewrite lookup_empty.
Qed.

Definition still_clock : Clock := {| clock_ns := fun _ => 0 |}.
Definition gate_world : world (gmap bytes bytes) := mkWorld ∅ 0 [] 0.


Lemma numkeys_overflow_panics_witness :
  (@intercept _ map_kv still_clock ascii_tables FullTopology false false
    (ArrayOf [BulkOf (lit "ZUNION"); BulkOf (lit "9223372036854775807"); BulkOf (lit "k")]) gate_world).1 = Panic.
Proof. apply (@numkeys_overflow_panics _ map_kv still_clock ascii_tables FullTopology (lit "k") false gate_world). reflexivity. Defined.

Lemma eval_keys_not_routed_witness :
  exists flag', @intercept _ map_kv still_clock ascii_tables demo_topo false false
    (ArrayOf (BulkOf (lit "EVAL") :: BulkOf (lit "return 1") :: [BulkOf (lit "1"); BulkOf (lit "foo")])) gate_world
    = (Ok (None, flag'), gate_world).
Proof. apply (@eval_keys_not_routed _ map_kv still_clock ascii_tables demo_topo (lit "return 1")). vm_compute. reflexivity. Defined.

End cluster.
