(* ===== verification/ClusterCmd.v ===== *)
(** * The snapshot of the topology and the CLUSTER commands
    (src/internal/cluster/snapshot.go, src/internal/commands/cluster.go)

    [range_slots_map] is the order in which Go ranges over a map of slots. *)

From S2P Require Import Prelude GoLib GoStrings Resp Codec Kv Cmd CmdString CmdKeys Acl Cluster.
Open Scope Z_scope.
Open Scope gedis_scope.

Module cluster_cmd.
Import cluster.
Import acl (Join).

(** ** The snapshot file *)

Section snapshot.
Context (range_slots_map : gmap Z bytes -> list (Z * bytes)).

Definition owner_id (ns : list TopoNode) (idx : Z) : bytes :=
  if (0 <=? idx) && (idx <? len ns) then default [] (nID <$> ns !! Z.to_nat idx) else lit "-".

(** The words of the lines. *)
Definition owner_words (ns : list TopoNode) (k : Z) (owners : list Z) : list (list bytes) :=
  imap (fun i idx => [lit "owner"; FormatInt (k + Z.of_nat i); owner_id ns idx]) owners.
Definition slot_words (name : string) (m : gmap Z bytes) : list (list bytes) :=
  map (fun p : Z * bytes => [lit name; FormatInt p.1; p.2]) (range_slots_map m).
Definition snapshot_words (sn : Snapshot) (ns : list TopoNode) : list (list bytes) :=
  [lit "epoch"; FormatUint (snEpoch sn)] :: owner_words ns 0 (snOwner sn) ++ slot_words "migrating" (snMigrating sn) ++ slot_words "importing" (snImporting sn).

Definition text_of (ls : list (list bytes)) : bytes := concat (map (fun l => Join l (lit " ") ++ [LF]) ls).
Definition MarshalSnapshot (sn : Snapshot) (ns : list TopoNode) : bytes := text_of (snapshot_words sn ns).

End snapshot.

(** The last node with the id. *)
Definition byID (ns : list TopoNode) : gmap bytes Z := foldl (fun m p => <[nID p.2 := p.1]> m) ∅ (imap (fun i n => (Z.of_nat i, n)) ns).

(** What has been read so far. *)
Record reading : Type := mkReading { rSnap : Snapshot; rEpoch : bool }.

Definition read_fields `{GoUnicode} (ns : list TopoNode) (fields : list bytes) (r : reading) : result reading :=
  let s := rSnap r in
  match fields with
  | [] => Ok r
  | f :: rest =>
      if bytes_eqb f (lit "epoch") then
        match rest with
        | [e] => match ParseUint e with
                 | Some n => Ok (mkReading (mkSnap (snOwner s) (snMigrating s) (snImporting s) n) true)
                 | None => fail "bad epoch"
                 end
        | _ => fail "bad epoch line"
        end
      else if bytes_eqb f (lit "owner") || bytes_eqb f (lit "migrating") || bytes_eqb f (lit "importing") then
        match rest with
        | [sl; id] =>
            match Atoi sl with
            | None => fail "bad slot"
            | Some slot =>
                if (slot <? 0) || (NumSlots <=? slot) then fail "bad slot"
                else if bytes_eqb f (lit "owner") then
                  if bytes_eqb id (lit "-") then Ok (mkReading (mkSnap (aset (snOwner s) slot (-1)) (snMigrating s) (snImporting s) (snEpoch s)) (rEpoch r))
                  else match byID ns !! id with
                  | None => fail "unknown node"
                  | Some idx => Ok (mkReading (mkSnap (aset (snOwner s) slot idx) (snMigrating s) (snImporting s) (snEpoch s)) (rEpoch r))
                  end
                else if bytes_eqb f (lit "migrating")
                then Ok (mkReading (mkSnap (snOwner s) (<[slot := id]> (snMigrating s)) (snImporting s) (snEpoch s)) (rEpoch r))
                else Ok (mkReading (mkSnap (snOwner s) (snMigrating s) (<[slot := id]> (snImporting s)) (snEpoch s)) (rEpoch r))
            end
        | _ => fail "bad line"
        end
      else fail "bad line"
  end.

Definition maxToken : Z := 1048576.
(** A line without its carriage return. *)
Definition drop_cr (l : bytes) : bytes := match reverse l with c :: r => if Ascii.eqb c CR then reverse r else l | [] => l end.

(** bufio.Scanner: a line that does not fit its buffer is an error; what
    follows the last newline is a line unless it is empty. *)
Fixpoint read_lines `{GoUnicode} (ns : list TopoNode) (ls : list bytes) (r : reading) : result reading :=
  match ls with
  | [] => Ok r
  | l :: rest =>
      if maxToken <=? len l then fail "bufio.Scanner: token too long"
      else
        match l, rest with
        | [], [] => Ok r
        | _, _ => let? r := read_fields ns (Fields (drop_cr l)) r in read_lines ns rest r
        end
  end.

Definition UnmarshalSnapshot `{GoUnicode} (data : bytes) (ns : list TopoNode) : result Snapshot :=
  let? r := read_lines ns (SplitByte data LF) (mkReading (mkSnap no_owner ∅ ∅ 0) false) in
  if rEpoch r then Ok (rSnap r) else fail "missing epoch".

(** main.go: a missing file is no error. *)
Definition loadClusterSnapshot `{GoUnicode} (data : result (option bytes)) (t : Topology) : result Topology :=
  let? d := data in
  match d with
  | None => Ok t
  | Some data => let? sn := UnmarshalSnapshot data (nodes t) in LoadSnapshot t sn
  end.

(** ** Reports *)

Fixpoint merge_into (last : Z * Z) (rs : list (Z * Z)) : list (Z * Z) :=
  match rs with
  | [] => [last]
  | r :: rs =>
      if r.1 <=? i64 (last.2 + 1) then merge_into (if last.2 <? r.2 then (last.1, r.2) else last) rs
      else last :: merge_into r rs
  end.
Definition merged (ranges : list (Z * Z)) : list (Z * Z) := match ranges with [] => [] | r :: rs => merge_into r rs end.

(** The digits pass the largest unsigned value before anything else ends them. *)
Fixpoint past_uint (acc : Z) (s : bytes) : bool :=
  match s with
  | [] => false
  | c :: r => match parse_digits acc [c] with Some acc' => (2 ^ 64 <=? acc') || past_uint acc' r | None => false end
  end.

(** The number [strconv.Atoi] returns beside its error: the bound that was
    passed, or zero. *)
Definition Atoi_value (s : bytes) : Z :=
  match Atoi s, s with
  | Some n, _ => n
  | None, [] => 0
  | None, c :: r =>
      let digits : bytes := if Ascii.eqb c "-" || Ascii.eqb c "+" then r else s in
      if past_uint 0 digits || bool_decide (is_Some (ParseUint digits)) then (if Ascii.eqb c "-" then - 2 ^ 63 else 2 ^ 63 - 1) else 0
  end.

Definition splitHostPort (addr : bytes) : bytes * Z :=
  match SplitHostPort addr with Some (h, p) => (h, Atoi_value p) | None => (addr, 0) end.

Definition nodeAddrTriple (n : TopoNode) : Value :=
  let '(host, port) := splitHostPort (nAddr n) in ArrayOf [BulkOf host; VInteger port; BulkOf (nID n)].

Definition slots (t : Topology) : Value :=
  ArrayOf (concat (map (fun n => map (fun r : Z * Z => ArrayOf [VInteger r.1; VInteger r.2; nodeAddrTriple n]) (merged (nRanges n))) (nodes t))).

Definition shards (t : Topology) : Value :=
  ArrayOf (map (fun n =>
    let '(host, port) := splitHostPort (nAddr n) in
    VMap [(BulkOf (lit "slots"), ArrayOf (concat (map (fun r : Z * Z => [VInteger r.1; VInteger r.2]) (nRanges n))));
          (BulkOf (lit "nodes"), ArrayOf [VMap [
             (BulkOf (lit "id"), BulkOf (nID n)); (BulkOf (lit "port"), VInteger port); (BulkOf (lit "ip"), BulkOf host); (BulkOf (lit "endpoint"), BulkOf host);
             (BulkOf (lit "role"), BulkOf (lit "master")); (BulkOf (lit "replication-offset"), VInteger 0); (BulkOf (lit "health"), BulkOf (lit "online"))]])]) (nodes t)).

Definition eol : bytes := [CR; LF].
Definition info (t : Topology) : Value :=
  let row (name : string) (n : Z) : bytes := lit name ++ FormatInt n ++ eol in
  BulkOf (lit "cluster_state:ok" ++ eol ++ row "cluster_slots_assigned:"%string (AssignedCount t) ++ row "cluster_slots_ok:"%string (AssignedCount t) ++
          lit "cluster_slots_pfail:0" ++ eol ++ lit "cluster_slots_fail:0" ++ eol ++ row "cluster_known_nodes:"%string (len (nodes t)) ++
          row "cluster_size:"%string (len (nodes t)) ++ lit "cluster_current_epoch:1" ++ eol ++ lit "cluster_my_epoch:1" ++ eol).

Definition node_line (selfID : bytes) (n : TopoNode) : bytes :=
  nID n ++ lit " " ++ nAddr n ++ lit "@" ++ FormatInt (i64 ((splitHostPort (nAddr n)).2 + 10000)) ++ lit " " ++
  lit (if bytes_eqb (nID n) selfID then "myself,master" else "master") ++ lit " - 0 0 1 connected" ++
  concat (map (fun r : Z * Z => if r.1 =? r.2 then lit " " ++ FormatInt r.1 else lit " " ++ FormatInt r.1 ++ lit "-" ++ FormatInt r.2) (nRanges n)) ++ eol.
Definition nodes_ (t : Topology) : result Value := let? selfID := SelfID t in Ok (BulkOf (concat (map (node_line selfID) (nodes t)))).

(** ** The ASKING flags: the connections that have one.  A context without a
    connection is [None]. *)

Definition AskRegistry : Type := gset Z.
Definition NewAskRegistry : AskRegistry := ∅.
Definition ConnClosed (a : AskRegistry) (conn : Z) : AskRegistry := a ∖ {[conn]}.
Definition Set_ (a : AskRegistry) (ctx : option Z) : bool * AskRegistry :=
  match ctx with None => (false, a) | Some conn => (true, {[conn]} ∪ a) end.
Definition Consume (a : AskRegistry) (ctx : option Z) : bool * AskRegistry :=
  match ctx with None => (false, a) | Some conn => (bool_decide (conn ∈ a), a ∖ {[conn]}) end.

(** ** The commands *)

Definition parseSlotArg (s : bytes) : option Z :=
  match Atoi s with Some n => if (n <? 0) || (NumSlots <=? n) then None else Some n | None => None end.

Section handlers.
Context {S : Type} `{KV S} `{Clock} `{GoUnicode}.

Definition clusterArgErr (sub : bytes) : Value := VError (lit "ERR wrong number of arguments for 'cluster|" ++ ToLower sub ++ lit "' command").
Definition bad_slot : Value := errS "ERR Invalid or out of range slot".
Definition static (what : bytes) : Value := VError (lit "ERR Static cluster topology does not support CLUSTER " ++ what).

(** The names in a slot; with a limit, the loop ends when it is reached. *)
Fixpoint slot_names (slot count : Z) (ns : list bytes) (out : list bytes) : list bytes :=
  match ns with
  | [] => out
  | n :: ns =>
      if negb (Slot n =? slot) then slot_names slot count ns out
      else
        let out := out ++ [n] in
        if (0 <=? count) && (count <=? len out) then out else slot_names slot count ns out
  end.
Definition keysInSlotNames (slot count : Z) : M S (list bytes) :=
  let! r := attempt keycmd.allUserKeys in
  mret (match r with inl names => slot_names slot count (map fst names) [] | inr _ => [] end).

Definition slot_arg (a : Value) : option Z := match argString a with Some s => parseSlotArg s | None => None end.

Definition countKeysInSlot (rest : list Value) : M S Value :=
  match rest with
  | [a; _] =>
      match slot_arg a with
      | None => mret bad_slot
      | Some slot => let! names := keysInSlotNames slot (-1) in mret (VInteger (len names))
      end
  | _ => mret (clusterArgErr (lit "COUNTKEYSINSLOT"))
  end.

Definition getKeysInSlot (rest : list Value) : M S Value :=
  match rest with
  | [a; b] =>
      match slot_arg a with
      | None => mret bad_slot
      | Some slot =>
          match argString b with
          | None => mret (errS "ERR Invalid COUNT")
          | Some c =>
              match Atoi c with
              | None => mret (errS "ERR Invalid COUNT")
              | Some count => if count <? 0 then mret (errS "ERR Invalid COUNT")
                              else let! names := keysInSlotNames slot count in mret (ArrayOf (map BulkOf names))
              end
          end
      end
  | _ => mret (clusterArgErr (lit "GETKEYSINSLOT"))
  end.

Definition about_node (t : Topology) (rest : list Value) (name : string) (itself : string) : result Value :=
  match rest with
  | [a] =>
      match argString a with
      | None => Ok (errS "ERR syntax error")
      | Some id => let? selfID := SelfID t in Ok (if bytes_eqb id selfID then errS itself else static (lit name))
      end
  | _ => Ok (clusterArgErr (lit name))
  end.
Definition forget (t : Topology) (rest : list Value) : result Value := about_node t rest "FORGET" "ERR I tried hard but I can't forget myself...".
Definition replicate (t : Topology) (rest : list Value) : result Value := about_node t rest "REPLICATE" "ERR Can't replicate myself".

Definition one_of (a : Value) (x y : string) : bool := let u := ToUpper (arg_or_empty a) in bytes_eqb u (lit x) || bytes_eqb u (lit y).
Definition failover (rest : list Value) : Value :=
  let refuse : Value := errS "ERR You should send CLUSTER FAILOVER to a replica" in
  match rest with
  | [] => refuse
  | [a] => if one_of a "FORCE" "TAKEOVER" then refuse else errS "ERR syntax error"
  | _ => errS "ERR syntax error"
  end.
Definition reset (rest : list Value) : Value :=
  match rest with
  | [] => static (lit "RESET")
  | [a] => if one_of a "HARD" "SOFT" then static (lit "RESET") else errS "ERR syntax error"
  | _ => clusterArgErr (lit "RESET")
  end.

(** ** SETSLOT: [persist] answers a failed write. *)

Context (persist : Snapshot -> option goerr).

Definition saveSnapshot (t : Topology) : option goerr := persist (Snapshot_ t).

(** The reply and the topology after a change. *)
Definition changed (r : result Topology) (old : Topology) (refusal : Value) : result Value * Topology :=
  match r with
  | Err _ => (Ok refusal, old)
  | Panic => (Panic, old)
  | Ok t => (Ok (match saveSnapshot t with Some _ => errS "ERR Failed to persist cluster state" | None => okReply end), t)
  end.

Definition setslot (t : Topology) (rest : list Value) : result Value * Topology :=
  let syntax : result Value * Topology := (Ok (errS "ERR syntax error"), t) in
  let unknown (id : bytes) : Value := VError (lit "ERR I don't know about node " ++ id) in
  match rest with
  | a :: b :: args =>
      match slot_arg a with
      | None => (Ok bad_slot, t)
      | Some slot =>
          let op := ToUpper (arg_or_empty b) in
          if bytes_eqb op (lit "MIGRATING") then
            match args with
            | [c] =>
                let target := arg_or_empty c in
                if bytes_eqb (AddrOf t target) [] then (Ok (unknown target), t)
                else changed (SetMigrating t slot target) t (VError (lit "ERR I'm not the owner of hash slot " ++ FormatInt slot))
            | _ => syntax
            end
          else if bytes_eqb op (lit "IMPORTING") then
            match args with
            | [c] =>
                let source := arg_or_empty c in
                if bytes_eqb (AddrOf t source) [] then (Ok (unknown source), t)
                else changed (SetImporting t slot source) t (errS "ERR I'm already the owner of hash slot.")
            | _ => syntax
            end
          else if bytes_eqb op (lit "STABLE") then
            match args with [] => changed (Ok (SetStable t slot)) t okReply | _ => syntax end
          else if bytes_eqb op (lit "NODE") then
            match args with
            | [c] => let id := arg_or_empty c in changed (SetNode t slot id) t (unknown id)
            | _ => syntax
            end
          else syntax
      end
  | _ => (Ok (clusterArgErr (lit "SETSLOT")), t)
  end.

(** ASKING sets the flag of the connection. *)
Definition asking (t : Topology) (ctx : option Z) (args : list Value) (a : AskRegistry) : Value * AskRegistry :=
  if negb (Enabled t) then (errS "ERR This instance has cluster support disabled", a)
  else match args with [] => (okReply, (Set_ a ctx).2) | _ => (wrong_args "asking", a) end.

Definition cluster (t : Topology) (args : list Value) : M S (Value * Topology) :=
  let same (v : Value) : M S (Value * Topology) := mret (v, t) in
  let lifted (r : result Value) : M S (Value * Topology) := let! v := lift r in mret (v, t) in
  if negb (Enabled t) then same (errS "ERR This instance has cluster support disabled")
  else match args with
  | [] => same (wrong_args "cluster")
  | a :: rest =>
      match argString a with
      | None => same (errS "ERR syntax error")
      | Some sub =>
          let u := ToUpper sub in
          let sub_is (s : string) : bool := bytes_eqb u (lit s) in
          let alone (r : result Value) : M S (Value * Topology) := match rest with [] => lifted r | _ => same (clusterArgErr sub) end in
          if sub_is "KEYSLOT"%string then
            match rest with
            | [k] => same (match argString k with Some key => VInteger (Slot key) | None => errS "ERR invalid key" end)
            | _ => same (clusterArgErr sub)
            end
          else if sub_is "MYID"%string then alone (let? id := SelfID t in Ok (BulkOf id))
          else if sub_is "SLOTS"%string then alone (Ok (slots t))
          else if sub_is "SHARDS"%string then alone (Ok (shards t))
          else if sub_is "INFO"%string then alone (Ok (info t))
          else if sub_is "NODES"%string then alone (nodes_ t)
          else if sub_is "COUNTKEYSINSLOT"%string then let! v := countKeysInSlot rest in same v
          else if sub_is "GETKEYSINSLOT"%string then let! v := getKeysInSlot rest in same v
          else if sub_is "MEET"%string then same (static (lit "MEET"))
          else if sub_is "FORGET"%string then lifted (forget t rest)
          else if sub_is "REPLICATE"%string then lifted (replicate t rest)
          else if sub_is "FAILOVER"%string then same (failover rest)
          else if sub_is "RESET"%string then same (reset rest)
          else if sub_is "FLUSHSLOTS"%string then alone (Ok (static (lit "FLUSHSLOTS")))
          else if sub_is "ADDSLOTS"%string || sub_is "DELSLOTS"%string || sub_is "ADDSLOTSRANGE"%string || sub_is "DELSLOTSRANGE"%string
          then same (errS "ERR Please use SETSLOT only to update slots in the cluster nodes.")
          else if sub_is "SETSLOT"%string then let '(r, t') := setslot t rest in let! v := lift r in mret (v, t')
          else if sub_is "SET-CONFIG-EPOCH"%string then same (static (lit "SET-CONFIG-EPOCH"))
          else if sub_is "SAVECONFIG"%string then alone (Ok okReply)
          else if sub_is "MYSHARDID"%string || sub_is "MYPRIMARYID"%string || sub_is "LINKS"%string then same (static u)
          else same (VError (lit "ERR unknown subcommand '" ++ sub ++ lit "'. Try CLUSTER HELP."))
      end
  end.

End handlers.
End cluster_cmd.
