(* ===== verification/ClusterSpec.v ===== *)
(** * A restart restores the topology

    The snapshot that every SETSLOT writes, read back over the configured
    topology, gives exactly the topology it was taken from. *)

From S2P Require Import Prelude GoLib GoStrings Resp Codec Kv Cmd CmdString CmdKeys Acl Cluster ClusterCmd.
Open Scope Z_scope.
Open Scope gedis_scope.

Module cluster_spec.
Import cluster cluster_cmd.
Import acl (Join, words, plain, Fields_join, join_ascii, Join_cons).

(** ** Reading lines back *)

Definition line_ok (l : list bytes) : Prop := words l /\ l <> [] /\ len (Join l (lit " ")) < maxToken.

Fixpoint read_all `{GoUnicode} (ns : list TopoNode) (ls : list (list bytes)) (r : reading) : result reading :=
  match ls with [] => Ok r | l :: ls => let? r := read_fields ns l r in read_all ns ls r end.

Lemma join_no_space (l : list bytes) : words l -> Forall (fun c => is_space c = false \/ c = " "%char) (Join l (lit " ")).
Proof.
  assert (forall w, Forall plain w -> Forall (fun c => is_space c = false \/ c = " "%char) w) as Hw.
  { intros w Hp. eapply Forall_impl; [exact Hp|]. intros c [Hs _]. by left. }
  induction 1 as [|x l [Hx Hp] Hl IH]; [constructor|]. destruct l as [|y l]; [by apply Hw|].
  rewrite Join_cons. apply Forall_app. split; [by apply Hw|]. constructor; [by right|done].
Qed.

Lemma drop_cr_join (l : list bytes) : words l -> drop_cr (Join l (lit " ")) = Join l (lit " ").
Proof.
  intros Hl. pose proof (join_no_space l Hl) as Hf. unfold drop_cr. destruct (reverse (Join l (lit " "))) as [|c r] eqn:E; [done|].
  apply Forall_reverse in Hf. rewrite E in Hf. apply Forall_cons in Hf as [Hc _].
  destruct (Ascii.eqb c CR) eqn:Ec; [|done]. apply Ascii.eqb_eq in Ec. subst c. exfalso. by destruct Hc as [Hc|Hc].
Qed.

Lemma read_text `{GoUnicode} (ns : list TopoNode) (ls : list (list bytes)) (r : reading) : Forall line_ok ls ->
  read_lines ns (SplitByte (text_of ls) LF) r = read_all ns ls r.
Proof.
  intros Hls. revert r. induction Hls as [|l ls (Hw & Hne & Hlen) Hls IH]; intros r; [reflexivity|].
  unfold text_of. cbn [map concat]. rewrite <- app_assoc. cbn [app]. fold (text_of ls). rewrite SplitByte_app.
  2:{ intros Hin. pose proof (join_ascii l Hw) as Hf. rewrite Forall_forall in Hf. by apply (Hf _ Hin). }
  cbn [read_lines read_all]. rewrite (proj2 (Z.leb_gt _ _)) by done.
  assert (Join l (lit " ") <> []) as Hj.
  { destruct l as [|x l]; [done|]. apply Forall_cons in Hw as [[Hx _] _]. destruct l; [done|]. rewrite Join_cons. by destruct x. }
  rewrite drop_cr_join, Fields_join by done. destruct (Join l (lit " ")) as [|c j] eqn:E; [done|].
  destruct (read_fields ns l r) as [r'| |]; cbn [res_bind]; [apply IH|done|done].
Qed.

Lemma read_all_app `{GoUnicode} (ns : list TopoNode) (l1 l2 : list (list bytes)) (r : reading) :
  read_all ns (l1 ++ l2) r = let? r := read_all ns l1 r in read_all ns l2 r.
Proof. revert r. induction l1 as [|l l1 IH]; intros r; cbn [app read_all]; [done|]. destruct (read_fields ns l r); cbn [res_bind]; [apply IH|done|done]. Qed.

(** ** Ids *)

Lemma byID_foldl (ps : list (Z * TopoNode)) (m : gmap bytes Z) (id : bytes) :
  NoDup (map (fun p => nID p.2) ps) ->
  foldl (fun m p => <[nID p.2 := p.1]> m) m ps !! id = match List.find (fun p : Z * TopoNode => bytes_eqb (nID p.2) id) ps with Some p => Some p.1 | None => m !! id end.
Proof.
  revert m. induction ps as [|[i n] ps IH]; intros m Hn; cbn [map foldl List.find fst snd]; [done|].
  cbn [map snd] in Hn. apply NoDup_cons in Hn as [Hn Hd]. rewrite (IH _ Hd). destruct (bytes_eqb_spec (nID n) id) as [<-|Hne].
  - rewrite lookup_insert_eq. destruct (List.find _ ps) as [p|] eqn:E; [|done]. exfalso. apply find_some in E as [Hin He].
    apply Hn. destruct (bytes_eqb_spec (nID p.2) (nID n)) as [Heq|]; [|done]. rewrite <- Heq. apply list_elem_of_fmap. exists p. split; [done|]. by apply list_elem_of_In.
  - destruct (List.find _ ps); [done|]. by rewrite lookup_insert_ne.
Qed.

Lemma imap_ids (ns : list TopoNode) : map (fun p : Z * TopoNode => nID p.2) (imap (fun i n => (Z.of_nat i, n)) ns) = map nID ns.
Proof.
  change (map ?f ?l) with (f <$> l). rewrite fmap_imap. apply list_eq. intros i. rewrite list_lookup_imap, list_lookup_fmap. by destruct (ns !! i).
Qed.

Lemma byID_spec (ns : list TopoNode) (i : nat) (n : TopoNode) : NoDup (map nID ns) -> ns !! i = Some n -> byID ns !! nID n = Some (Z.of_nat i).
Proof.
  intros Hd Hi. unfold byID. rewrite byID_foldl.
  - assert ((Z.of_nat i, n) ∈ imap (fun i n => (Z.of_nat i, n)) ns) as Hin by (apply elem_of_lookup_imap; eauto).
    destruct (List.find _ _) as [[j n']|] eqn:E.
    + apply find_some in E as [Hin' He]. apply list_elem_of_In, elem_of_lookup_imap in Hin' as (j' & n'' & [= -> <-] & Hj). cbn [fst snd] in *.
      destruct (bytes_eqb_spec (nID n') (nID n)) as [Heq|]; [|done]. do 2 f_equal.
      apply (NoDup_lookup (nID <$> ns) j' i (nID n) Hd); rewrite list_lookup_fmap, ?Hj, ?Hi; cbn; congruence.
    + exfalso. apply list_elem_of_In in Hin. pose proof (find_none _ _ E _ Hin) as Hf. cbn in Hf. by rewrite bytes_eqb_refl in Hf.
  - by rewrite imap_ids.
Qed.

Lemma digits_plain (n : Z) : 0 <= n -> Forall plain (FormatUint n).
Proof.
  intros Hn. eapply Forall_impl; [by apply FormatUint_digits|]. intros c Hc. unfold is_digit in Hc. unfold plain, is_space. split; [|lia].
  destruct (byte_val c =? 32) eqn:E1; [lia|]. destruct ((9 <=? byte_val c) && (byte_val c <=? 13)) eqn:E2; [lia|done].
Qed.

(** A node id that survives the file. *)
Record id_ok (id : bytes) : Prop := { id_ne : id <> []; id_plain : Forall plain id; id_dash : id <> lit "-"; id_short : len id < 1000000 }.

Section file.
Context `{GoUnicode} (ns : list TopoNode) (Hids : Forall (fun n => id_ok (nID n)) ns) (Hnd : NoDup (map nID ns)).

Lemma slot_parsed (k : Z) : 0 <= k < NumSlots -> Atoi (FormatInt k) = Some k /\ (k <? 0) || (NumSlots <=? k) = false.
Proof. unfold NumSlots. intros Hk. split; [apply ParseInt_FormatInt; unfold is_i64; lia|]. apply orb_false_iff. lia. Qed.

Lemma owner_id_read (o : Z) : -1 <= o < len ns -> exists id, owner_id ns o = id /\ (if bytes_eqb id (lit "-") then Some (-1) else byID ns !! id) = Some o.
Proof.
  intros Ho. unfold owner_id. destruct (0 <=? o) eqn:E; cbn [andb]; [|exists (lit "-"); split; [done|]; rewrite bytes_eqb_refl; f_equal; lia].
  rewrite (proj2 (Z.ltb_lt _ _)) by lia. destruct (ns !! Z.to_nat o) as [n|] eqn:En; [|apply lookup_ge_None in En; unfold len in *; lia].
  exists (nID n). split; [done|]. rewrite bytes_eqb_neq by (rewrite Forall_forall in Hids; apply Hids; by eapply list_elem_of_lookup_2).
  rewrite (byID_spec ns (Z.to_nat o) n Hnd En). f_equal. lia.
Qed.

Lemma owner_words_cons (k o : Z) (os : list Z) : owner_words ns k (o :: os) = [lit "owner"; FormatInt k; owner_id ns o] :: owner_words ns (k + 1) os.
Proof.
  unfold owner_words. rewrite imap_cons. rewrite Z.add_0_r. f_equal. apply imap_ext. intros i x _. cbn. do 2 f_equal. f_equal. lia.
Qed.

Lemma read_owners (owners : list Z) (k : nat) (r : reading) :
  length (snOwner (rSnap r)) = Z.to_nat NumSlots -> (k + length owners <= Z.to_nat NumSlots)%nat -> Forall (fun o => -1 <= o < len ns) owners ->
  read_all ns (owner_words ns (Z.of_nat k) owners) r =
  Ok (mkReading (mkSnap (take k (snOwner (rSnap r)) ++ owners ++ drop (k + length owners) (snOwner (rSnap r))) (snMigrating (rSnap r)) (snImporting (rSnap r)) (snEpoch (rSnap r))) (rEpoch r)).
Proof.
  intros Hl Hk Ho. revert k r Hl Hk. induction Ho as [|o os Ho _ IH]; intros k [[ow mi im ep] se] Hl Hk; cbn [rSnap snOwner snMigrating snImporting snEpoch rEpoch length] in *.
  - cbn [read_all owner_words imap]. rewrite Nat.add_0_r. cbn [app]. by rewrite take_drop.
  - rewrite owner_words_cons. cbn [read_all]. unfold read_fields. change (bytes_eqb (lit "owner") (lit "epoch")) with false. change (bytes_eqb (lit "owner") (lit "owner")) with true. cbn [orb rSnap snOwner snMigrating snImporting snEpoch rEpoch].
    assert (0 <= Z.of_nat k < NumSlots) as Hks by lia. destruct (slot_parsed _ Hks) as [-> ->].
    assert (forall x, aset ow (Z.of_nat k) x = take k ow ++ x :: drop (S k) ow) as Ha.
    { intros x. unfold aset. rewrite Nat2Z.id. apply insert_take_drop. lia. }
    destruct (owner_id_read o Ho) as (id & -> & Hid).
    assert ((if bytes_eqb id (lit "-") then Ok (mkReading (mkSnap (aset ow (Z.of_nat k) (-1)) mi im ep) se)
       else match byID ns !! id with None => fail "unknown node" | Some idx => Ok (mkReading (mkSnap (aset ow (Z.of_nat k) idx) mi im ep) se) end)
      = Ok (mkReading (mkSnap (take k ow ++ o :: drop (S k) ow) mi im ep) se)) as ->.
    { destruct (bytes_eqb id (lit "-")); [injection Hid as <-; by rewrite Ha|]. destruct (byID ns !! id); [|done]. injection Hid as ->. by rewrite Ha. }
    cbn [res_bind]. replace (Z.of_nat k + 1) with (Z.of_nat (S k)) by lia.
    assert (length (take k ow) = k) as Hlt by (rewrite length_take; lia).
    rewrite IH; cbn [rSnap snOwner snMigrating snImporting snEpoch rEpoch]; [|rewrite length_app; cbn [length]; rewrite length_drop; lia|lia].
    assert (take (S k) (take k ow ++ o :: drop (S k) ow) = take k ow ++ [o]) as ->.
    { rewrite take_app, Hlt, take_ge by lia. by replace (S k - k)%nat with 1%nat by lia. }
    assert (drop (S k + length os) (take k ow ++ o :: drop (S k) ow) = drop (k + S (length os)) ow) as ->.
    { rewrite drop_app, Hlt, drop_ge by lia. replace (S k + length os - k)%nat with (S (length os)) by lia. cbn [drop app]. rewrite drop_drop. f_equal. lia. }
    by rewrite <- app_assoc.
Qed.

Definition add_all (l : list (Z * bytes)) (m : gmap Z bytes) : gmap Z bytes := foldl (fun m p => <[p.1 := p.2]> m) m l.

Lemma add_all_perm (m : gmap Z bytes) (l : list (Z * bytes)) : l ≡ₚ map_to_list m -> add_all l ∅ = m.
Proof.
  intros Hp. assert (forall l, add_all l ∅ = list_to_map (reverse l)) as ->.
  { clear. unfold add_all. induction l as [|p l IH] using rev_ind; [done|]. rewrite foldl_snoc, IH, reverse_snoc. done. }
  symmetry. apply list_to_map_flip. by rewrite reverse_Permutation.
Qed.

Lemma read_slots (mig : bool) (l : list (Z * bytes)) (r : reading) : Forall (fun p => 0 <= p.1 < NumSlots) l ->
  read_all ns (map (fun p : Z * bytes => [lit (if mig then "migrating" else "importing"); FormatInt p.1; p.2]) l) r =
  Ok (mkReading (mkSnap (snOwner (rSnap r)) (if mig then add_all l (snMigrating (rSnap r)) else snMigrating (rSnap r))
                        (if mig then snImporting (rSnap r) else add_all l (snImporting (rSnap r))) (snEpoch (rSnap r))) (rEpoch r)).
Proof.
  intros Hl. revert r. induction Hl as [|[k id] l Hk _ IH]; intros [[ow mi im ep] se]; cbn [map read_all rSnap snOwner snMigrating snImporting snEpoch rEpoch]; [by destruct mig|].
  cbn [fst snd] in *. unfold read_fields at 1. destruct (slot_parsed k Hk) as [E1 E2].
  destruct mig;
    repeat match goal with |- context [bytes_eqb (lit ?x) (lit ?y)] => let v := eval vm_compute in (bytes_eqb (lit x) (lit y)) in change (bytes_eqb (lit x) (lit y)) with v end;
    cbn [orb rSnap snOwner snMigrating snImporting snEpoch rEpoch]; rewrite E1, E2; cbn [res_bind]; rewrite IH; done.
Qed.

Lemma int_word (k : Z) : 0 <= k < NumSlots -> FormatInt k <> [] /\ Forall plain (FormatInt k) /\ len (FormatInt k) <= 65.
Proof.
  intros Hk. split_and!.
  - unfold FormatInt. rewrite (proj2 (Z.ltb_ge _ _)) by lia. destruct (FormatUint_head k) as (d & r & _ & ->); [lia|done].
  - unfold FormatInt. rewrite (proj2 (Z.ltb_ge _ _)) by lia. apply digits_plain. lia.
  - apply FormatInt_short. unfold is_i64, NumSlots in *. lia.
Qed.

End file.
Lemma plain_lit (s : string) : forallb (fun c => negb (is_space c) && (byte_val c <? 128)) (lit s) = true -> Forall plain (lit s).
Proof.
  intros Hs. apply Forall_forall. intros c Hc. apply list_elem_of_In in Hc. rewrite forallb_forall in Hs. specialize (Hs c Hc).
  apply andb_true_iff in Hs as [H1%negb_true_iff H2]. split; [done|lia].
Qed.

(** A line of three words. *)
Lemma three_ok (w1 w2 w3 : bytes) : w1 <> [] -> Forall plain w1 -> len w1 <= 20 -> w2 <> [] -> Forall plain w2 -> len w2 <= 65 -> w3 <> [] -> Forall plain w3 -> len w3 < 1000000 ->
  line_ok [w1; w2; w3].
Proof.
  intros. split_and!; [repeat constructor; done|done|]. rewrite !Join_cons. cbn [Join]. rewrite len_app, len_cons, len_app, len_cons. unfold maxToken. lia.
Qed.

Lemma owner_id_word (ns : list TopoNode) (o : Z) : Forall (fun n => id_ok (nID n)) ns -> owner_id ns o <> [] /\ Forall plain (owner_id ns o) /\ len (owner_id ns o) < 1000000.
Proof.
  intros Hids. unfold owner_id. destruct (_ && _) eqn:E; [|split_and!; [done|by apply plain_lit|done]].
  apply andb_true_iff in E as [E1 E2]. destruct (ns !! Z.to_nat o) as [n|] eqn:En; [|apply lookup_ge_None in En; unfold len in *; lia].
  apply list_elem_of_lookup_2 in En. rewrite Forall_forall in Hids. by destruct (Hids n En).
Qed.

Lemma owner_lines_ok (ns : list TopoNode) (owners : list Z) (k : nat) : Forall (fun n => id_ok (nID n)) ns -> (k + length owners <= Z.to_nat NumSlots)%nat ->
  Forall line_ok (owner_words ns (Z.of_nat k) owners).
Proof.
  intros Hids. revert k. induction owners as [|o os IH]; intros k Hk; [constructor|]. rewrite owner_words_cons. cbn [length] in Hk. constructor.
  - destruct (int_word (Z.of_nat k)) as (? & ? & ?); [lia|]. destruct (owner_id_word ns o Hids) as (? & ? & ?).
    apply three_ok; [done|by apply plain_lit|done|done|done|done|done|done|done].
  - replace (Z.of_nat k + 1) with (Z.of_nat (S k)) by lia. apply IH. lia.
Qed.

Lemma slot_lines_ok (name : string) (l : list (Z * bytes)) : lit name <> [] -> Forall plain (lit name) -> len (lit name) <= 20 ->
  Forall (fun p => 0 <= p.1 < NumSlots /\ id_ok p.2) l -> Forall line_ok (map (fun p : Z * bytes => [lit name; FormatInt p.1; p.2]) l).
Proof.
  intros Hn Hp Hl. induction 1 as [|[k id] l [Hk [I1 I2 I3 I4]] _ IH]; [constructor|]. cbn [map fst snd] in *. constructor; [|done].
  destruct (int_word k Hk) as (? & ? & ?). by apply three_ok.
Qed.

Section restart.
Context `{GoUnicode} (range_slots_map : gmap Z bytes -> list (Z * bytes)) (Hrange : forall m, range_slots_map m ≡ₚ map_to_list m).

Lemma ranged (m : gmap Z bytes) (P : Z * bytes -> Prop) : map_Forall (fun k v => P (k, v)) m -> Forall P (range_slots_map m).
Proof. intros Hm. rewrite Hrange. apply Forall_forall. intros [k v] Hin%elem_of_map_to_list. by apply Hm. Qed.

Lemma ranged_slots (m : gmap Z bytes) : map_Forall (fun k id => 0 <= k < NumSlots /\ id_ok id) m -> Forall (fun p => 0 <= p.1 < NumSlots) (range_slots_map m).
Proof. intros Hm. apply (ranged _ (fun p => 0 <= p.1 < NumSlots)). eapply map_Forall_impl; [exact Hm|]. cbn. tauto. Qed.

Lemma Unmarshal_Marshal (sn : Snapshot) (ns : list TopoNode) :
  Forall (fun n => id_ok (nID n)) ns -> NoDup (map nID ns) -> length (snOwner sn) = Z.to_nat NumSlots -> Forall (fun o => -1 <= o < len ns) (snOwner sn) ->
  map_Forall (fun k id => 0 <= k < NumSlots /\ id_ok id) (snMigrating sn) -> map_Forall (fun k id => 0 <= k < NumSlots /\ id_ok id) (snImporting sn) -> is_u64 (snEpoch sn) ->
  UnmarshalSnapshot (MarshalSnapshot range_slots_map sn ns) ns = Ok sn.
Proof.
  intros Hids Hnd Hl Ho Hm Hi He. unfold UnmarshalSnapshot, MarshalSnapshot. rewrite read_text.
  - unfold snapshot_words. cbn [read_all]. unfold read_fields at 1. change (bytes_eqb (lit "epoch") (lit "epoch")) with true. cbv iota.
    rewrite ParseUint_FormatUint by done. cbn [res_bind rSnap snOwner snMigrating snImporting]. rewrite !read_all_app.
    rewrite (read_owners ns Hids Hnd (snOwner sn) 0) by (cbn; unfold no_owner; rewrite ?length_replicate, ?Hl; done || lia).
    cbn [res_bind rSnap snOwner snMigrating snImporting snEpoch rEpoch take drop app]. rewrite read_all_app.
    unfold slot_words at 1. rewrite (read_slots ns true _ _ (ranged_slots _ Hm) : read_all ns (map _ _) _ = _).
    cbn [res_bind rSnap snOwner snMigrating snImporting snEpoch rEpoch].
    unfold slot_words at 1. rewrite (read_slots ns false _ _ (ranged_slots _ Hi) : read_all ns (map _ _) _ = _).
    cbn [res_bind rSnap snOwner snMigrating snImporting snEpoch rEpoch]. rewrite (add_all_perm (snMigrating sn)), (add_all_perm (snImporting sn)) by apply Hrange.
    rewrite Hl, drop_ge by (unfold no_owner; rewrite length_replicate; lia). rewrite app_nil_r. by destruct sn.
  - unfold snapshot_words. constructor.
    + split_and!; [|done|].
      * constructor; [split; [done|by apply plain_lit]|]. constructor; [|constructor]. split; [|apply digits_plain; unfold is_u64 in He; lia].
        destruct (FormatUint_head (snEpoch sn)) as (d & r & _ & ->); [unfold is_u64 in He; lia|done].
      * rewrite Join_cons. cbn [Join]. rewrite len_app, len_cons. pose proof (FormatUint_short (snEpoch sn) He). unfold maxToken. change (len (lit "epoch")) with 5. lia.
    + apply Forall_app. split; [apply (owner_lines_ok ns (snOwner sn) 0 Hids); lia|]. apply Forall_app.
      split; apply slot_lines_ok; try done; try (by apply plain_lit); by apply (ranged _ (fun p => 0 <= p.1 < NumSlots /\ id_ok p.2)).
Qed.

End restart.
(** ** What SETSLOT reaches *)

Definition known (t : Topology) (id : bytes) : Prop := exists n, n ∈ nodes t /\ nID n = id.

Record reached (t0 t : Topology) : Prop := {
  re_ok : topo_ok t;
  re_nodes : nodes t = nodes t0;
  re_self : self t = self t0;
  re_epoch : is_u64 (epoch t);
  re_migrating : map_Forall (fun _ id => known t id) (migrating t);
  re_importing : map_Forall (fun _ id => known t id) (importing t);
}.

Lemma AddrOf_known (t : Topology) (id : bytes) : bytes_eqb (AddrOf t id) [] = false -> known t id.
Proof.
  unfold AddrOf. destruct (List.find _ _) as [n|] eqn:E; [|done]. intros _. apply find_some in E as [Hin He]. exists n.
  split; [by apply list_elem_of_In|]. by destruct (bytes_eqb_spec (nID n) id).
Qed.

Lemma u64_is (z : Z) : is_u64 (u64 z).
Proof. unfold is_u64, u64. apply Z.mod_pos_bound. lia. Qed.

Section setslot.
Context `{GoUnicode}.

(** The steps of the SETSLOT command, whatever becomes of the file. *)
Definition setslot_step (t t' : Topology) : Prop := exists persist rest v, setslot persist t rest = (v, t').

Lemma changed_reached (persist : Snapshot -> option goerr) (r : result Topology) (t0 t t' : Topology) (refusal : Value) (v : result Value) :
  reached t0 t -> (forall x, r = Ok x -> reached t0 x) -> changed persist r t refusal = (v, t') -> reached t0 t'.
Proof. intros Ht Hr. unfold changed. destruct r as [x| |]; intros [= <- <-]; auto. Qed.

Lemma setslot_reached (t0 t t' : Topology) : reached t0 t -> setslot_step t t' -> reached t0 t'.
Proof.
  intros Ht (persist & rest & v & E). revert E. unfold setslot. destruct rest as [|a [|b args]]; [by intros [= <- <-]..|].
  destruct (slot_arg a) as [slot|]; [|by intros [= <- <-]]. cbv zeta. pose proof Ht as [Hok Hn Hs He Hm Hi].
  destruct (bytes_eqb (ToUpper (arg_or_empty b)) (lit "MIGRATING")); [|destruct (bytes_eqb _ (lit "IMPORTING")); [|destruct (bytes_eqb _ (lit "STABLE")); [|destruct (bytes_eqb _ (lit "NODE"))]]]; [..|by intros [= <- <-]].
  - destruct args as [|c [|]]; [by intros [= <- <-]| |by intros [= <- <-]]. destruct (bytes_eqb (AddrOf t _) []) eqn:Ea; [by intros [= <- <-]|]. apply AddrOf_known in Ea.
    apply changed_reached; [done|]. intros x Ex. pose proof (topo_step_ok t x Hok (ts_migrating _ _ _ _ Ex)). unfold SetMigrating in Ex.
    destruct (negb _); [done|]. destruct (negb _); [done|]. case_bool_decide; injection Ex as <-; [done|]. split; cbn; [done|done|done|apply u64_is| |done].
    apply map_Forall_insert_2; [exact Ea|exact Hm].
  - destruct args as [|c [|]]; [by intros [= <- <-]| |by intros [= <- <-]]. destruct (bytes_eqb (AddrOf t _) []) eqn:Ea; [by intros [= <- <-]|]. apply AddrOf_known in Ea.
    apply changed_reached; [done|]. intros x Ex. pose proof (topo_step_ok t x Hok (ts_importing _ _ _ _ Ex)). unfold SetImporting in Ex.
    destruct (negb _); [done|]. destruct (_ =? _); [done|]. case_bool_decide; injection Ex as <-; [done|]. split; cbn; [done|done|done|apply u64_is|done|].
    apply map_Forall_insert_2; [exact Ea|exact Hi].
  - destruct args; [|by intros [= <- <-]]. apply changed_reached; [done|]. intros x [= <-]. pose proof (topo_step_ok t _ Hok (ts_stable t slot)).
    unfold SetStable in *. destruct (negb _); [done|]. split; cbn; [done..| |]; by apply map_Forall_delete.
  - destruct args as [|c [|]]; [by intros [= <- <-]| |by intros [= <- <-]]. apply changed_reached; [done|]. intros x Ex.
    pose proof (topo_step_ok t x Hok (ts_node _ _ _ _ Ex)). unfold SetNode in Ex. destruct (negb _); [done|]. destruct (_ <? 0); [done|].
    injection Ex as <-. split; cbn; [done|done|done|apply u64_is| |]; by apply map_Forall_delete.
Qed.

Lemma run_reached (t0 a t : Topology) : reached t0 a -> rtc setslot_step a t -> reached t0 t.
Proof. intros Ha R. induction R as [x|x y z S _ IH]; [done|]. apply IH. by eapply setslot_reached. Qed.

End setslot.

Lemma Build_fresh `{GoSha1} (addr : bytes) (specs : list NodeSpec) (t : Topology) : Build addr specs = Ok t -> epoch t = 0 /\ migrating t = ∅ /\ importing t = ∅.
Proof.
  unfold Build. destruct (splitAddr addr) as [[h p]|]; [|done]. set (t1 := mkTopo _ _ _ _ _ _ _ _).
  assert (forall specs ta tb, build_loop h p specs ta = Ok tb -> epoch ta = 0 /\ migrating ta = ∅ /\ importing ta = ∅ -> epoch tb = 0 /\ migrating tb = ∅ /\ importing tb = ∅) as Hl.
  { clear. induction specs as [|s specs IH]; intros ta tb; cbn [build_loop]; [by intros [= ->]|]. destruct (bytes_eqb _ _); [done|]. destruct (splitAddr _) as [[? ?]|]; [|done].
    cbv zeta. destruct (claim _ _ _ _) as [[od ow]| |]; cbn [res_bind]; [|done|done]. intros E Ha. by apply (IH _ _ E). }
  destruct (build_loop h p _ t1) as [tb| |] eqn:E; cbn [res_bind]; [|done|done]. destruct (self tb <? 0); [done|]. intros [= ->]. by apply (Hl _ _ _ E).
Qed.

(** ** The properties *)

(** C25: a restart restores the cluster: from a configured topology whose node
    ids are distinct words, whatever sequence of SETSLOT commands was run, the
    snapshot file written for the topology reached, loaded over the configured
    topology, gives back exactly that topology: owners, migrating and importing
    slots and epoch. *)
Theorem restart_restores `{GoUnicode} `{GoSha1} (range_slots_map : gmap Z bytes -> list (Z * bytes)) (addr : bytes) (specs : list NodeSpec) (t0 t : Topology) :
  (forall m, range_slots_map m ≡ₚ map_to_list m) -> Build addr specs = Ok t0 ->
  Forall (fun n => id_ok (nID n)) (nodes t0) -> NoDup (map nID (nodes t0)) -> rtc setslot_step t0 t ->
  loadClusterSnapshot (Ok (Some (MarshalSnapshot range_slots_map (Snapshot_ t) (nodes t)))) t0 = Ok t.
Proof.
  intros Hrange Hb Hids Hnd Hrun. destruct (Build_fresh _ _ _ Hb) as (He0 & Hm0 & Hi0).
  assert (reached t0 t0) as Hr0 by (split; [by eapply Build_ok|done|done|rewrite He0; done|rewrite Hm0; apply map_Forall_empty|rewrite Hi0; apply map_Forall_empty]).
  destruct (run_reached t0 t0 t Hr0 Hrun) as [Hok Hn Hs Hep Hm Hi].
  assert (forall id, known t id -> id_ok id) as Hknown.
  { intros id (n & Hin & <-). rewrite Hn in Hin. rewrite Forall_forall in Hids. by apply Hids. }
  unfold loadClusterSnapshot. cbn [res_bind]. rewrite Hn, Unmarshal_Marshal; try done; unfold Snapshot_; cbn [snOwner snMigrating snImporting snEpoch].
  - cbn [res_bind]. unfold LoadSnapshot. cbn [snEpoch snOwner snMigrating snImporting]. rewrite (proj2 (Z.ltb_ge _ _)) by (rewrite He0; unfold is_u64 in Hep; lia).
    assert (map (fun o => 0 <=? o) (owner t) = owned t) as ->.
    { apply list_eq. intros i. change (map ?f ?l) with (f <$> l). rewrite list_lookup_fmap. destruct (decide (i < Z.to_nat NumSlots)%nat) as [Hi'|Hi'].
      - assert (in_slots (Z.of_nat i) = true) as Hin by (apply in_slots_spec; lia). pose proof (ok_owned t Hok _ Hin) as Ho. unfold aget in Ho. rewrite Nat2Z.id in Ho.
        destruct (owner t !! i) as [o|] eqn:Eo; [|apply lookup_ge_None in Eo; rewrite (ok_owner_len t Hok) in Eo; lia].
        destruct (owned t !! i) as [b|] eqn:Eb; [|apply lookup_ge_None in Eb; rewrite (ok_owned_len t Hok) in Eb; lia]. cbn in *. by rewrite Ho.
      - rewrite !lookup_ge_None_2; [done|rewrite (ok_owned_len t Hok); lia|rewrite (ok_owner_len t Hok); lia]. }
    rewrite (ok_enabled t0 (re_ok _ _ Hr0)), <- (ok_enabled t Hok), <- Hs, <- Hn. by destruct t.
  - apply (ok_owner_len t Hok).
  - apply Forall_forall. intros o Ho. apply list_elem_of_lookup in Ho as [i Eo]. pose proof (lookup_lt_Some _ _ _ Eo) as Hlt. rewrite (ok_owner_len t Hok) in Hlt.
    pose proof (ok_owner t Hok (Z.of_nat i)) as Hb'. unfold aget in Hb'. rewrite Nat2Z.id, Eo, <- Hn in *. apply Hb', in_slots_spec. lia.
  - intros k id E. split; [by apply in_slots_spec, (ok_migrating t Hok k id)|]. by apply Hknown, (Hm k id).
  - intros k id E. split; [by apply in_slots_spec, (ok_importing t Hok k id)|]. by apply Hknown, (Hi k id).
Qed.

(** ASKING holds for the next command of its connection only. *)
Lemma asking_is_one_shot (t : Topology) (c d : Z) (a : AskRegistry) : Enabled t = true -> d <> c ->
  let a1 := (asking t (Some c) [] a).2 in let '(asked, a2) := Consume a1 (Some c) in
  asked = true /\ (Consume a2 (Some c)).1 = false /\ (Consume a2 (Some d)).1 = (Consume a (Some d)).1.
Proof.
  intros He Hd. unfold asking. rewrite He. cbn [negb snd Set_ Consume fst].
  split_and!; [apply bool_decide_eq_true_2; set_solver|apply bool_decide_eq_false_2; set_solver|apply bool_decide_ext; set_solver].
Qed.

(** Slot 7 given away, slot 5 on its way out. *)
Definition run_topo : Topology :=
  let t := (@setslot ascii_tables (fun _ => None) demo_topo (map BulkOf [lit "7"; lit "NODE"; lit "a"])).2 in
  (@setslot ascii_tables (fun _ => None) t (map BulkOf [lit "5"; lit "MIGRATING"; lit "b"])).2.

Lemma run_topo_reached : rtc (@setslot_step ascii_tables) demo_topo run_topo.
Proof.
  eapply rtc_l; [exists (fun _ => None), (map BulkOf [lit "7"; lit "NODE"; lit "a"]); eexists; apply surjective_pairing|].
  apply rtc_once. exists (fun _ => None), (map BulkOf [lit "5"; lit "MIGRATING"; lit "b"]). eexists. apply surjective_pairing.
Qed.

Lemma demo_ids : Forall (fun n => id_ok (nID n)) (nodes demo_topo) /\ NoDup (map nID (nodes demo_topo)).
Proof.
  assert (nodes demo_topo = [mkNode (lit "a") (lit "h:1") [(0, 5)]; mkNode (lit "b") (lit "h:2") [(7, 7); (12180, 12185)]]) as -> by (vm_compute; reflexivity).
  split; [repeat constructor; try done; try (by apply plain_lit)|apply (bool_decide_unpack _); vm_compute; exact I].
Qed.

Lemma restart_restores_witness :
  @loadClusterSnapshot ascii_tables (Ok (Some (MarshalSnapshot map_to_list (Snapshot_ run_topo) (nodes run_topo)))) demo_topo = Ok run_topo.
Proof.
  apply (@restart_restores ascii_tables demo_sha map_to_list (lit "h:1") demo_specs demo_topo run_topo).
  - intros m. reflexivity.
  - exact demo_build.
  - apply demo_ids.
  - apply demo_ids.
  - exact run_topo_reached.
Defined.

(** What the handlers answer from the configuration does not follow SETSLOT:
    the slot has a new owner, SLOTS, SHARDS and NODES still name the old one. *)
Example reports_are_static :
  OwnerAddr demo_topo 7 = lit "h:2" /\ OwnerAddr run_topo 7 = lit "h:1" /\
  slots run_topo = slots demo_topo /\ shards run_topo = shards demo_topo /\ nodes_ run_topo = nodes_ demo_topo.
Proof. vm_compute. done. Qed.

(** A failed write is reported, and the change is in force all the same. *)
Example unsaved_change_stays :
  let r := @setslot ascii_tables (fun _ => Some (EMsg (lit "disk full"))) demo_topo (map BulkOf [lit "7"; lit "NODE"; lit "a"]) in
  r.1 = Ok (errS "ERR Failed to persist cluster state") /\ OwnerAddr r.2 7 = lit "h:1".
Proof. vm_compute. done. Qed.

(** A count of zero lists one key: the limit is looked at after the key is added. *)
Example zero_count_lists_one : slot_names (Slot (lit "foo")) 0 [lit "foo"; lit "{foo}1"] [] = [lit "foo"].
Proof. vm_compute. reflexivity. Qed.

(** COUNTKEYSINSLOT with its one argument is refused. *)
Example countkeysinslot_refuses_slot (w : world (gmap bytes bytes)) :
  @countKeysInSlot _ map_kv ascii_tables [BulkOf (lit "5")] w
  = (Ok (errS "ERR wrong number of arguments for 'cluster|countkeysinslot' command"), w).
Proof. reflexivity. Qed.

End cluster_spec.
