(* ===== verification/Sentinel.v ===== *)
(** * Sentinel (src/internal/sentinel, src/cmd/gedis/sentinel_auto.go)

    The registry of monitored masters, probing, votes, gossip between sentinels,
    the choice of a replica and the switch to it, and the two background loops'
    bodies.  The handlers run in the monad of Cmd over [node]: the registry, the
    number of connections opened so far, what was sent and what was published.
    What comes back on a connection is the class [Wire]. *)

From S2P Require Import Prelude GoLib GoStrings Resp Cmd Cluster.
Open Scope Z_scope.
Open Scope gedis_scope.

(** The bytes received on the n-th connection, to an address, after a request was
    written to it; an error when it cannot be opened or written to. *)
Class Wire : Type := { wire : nat -> bytes -> bytes -> result bytes }.

(** [fmt]'s %q. *)
Class GoQuote : Type := { quote : bytes -> bytes }.

(** [net.JoinHostPort] *)
Definition JoinHostPort (host port : bytes) : bytes :=
  if 0 <=? IndexByte host ":" then lit "[" ++ host ++ lit "]:" ++ port else host ++ lit ":" ++ port.
Definition TrimSuffix (s p : bytes) : bytes := if HasSuffix s p then take (length s - length p) s else s.

Module sentinel.
Import cluster (SplitHostPort).

(** ** Data *)

Record NodeSpec : Type := mkSpec { spName : bytes; spMasterAddr : bytes; spSlaves : list bytes; spQuorum : Z }.

(** [lastFailover]: [None] for the zero time. *)
Record masterState : Type := mkMaster {
  spec : NodeSpec; current : bytes; down : gmap bytes bool; sdownCount : gmap bytes Z;
  currentEpoch : Z; votedEpoch : Z; votedRunID : bytes; lastFailover : option Z;
}.

Record Hello : Type := mkHello {
  IP : bytes; Port : bytes; RunID : bytes; Epoch : Z;
  Master : bytes; MasterIP : bytes; MasterPort : Z; MasterEpoch : Z;
}.

Record Registry : Type := mkRegistry { masters : gmap bytes masterState; downAfter : Z; Peers : gmap bytes Hello }.

Definition new_master (s : NodeSpec) : masterState := mkMaster s (spMasterAddr s) ∅ ∅ 0 0 [] None.
Definition NewRegistry (specs : list NodeSpec) (downAfter : Z) : Registry :=
  mkRegistry (foldl (fun m s => <[spName s := new_master s]> m) ∅ specs) downAfter ∅.

Definition update_master (name : bytes) (f : masterState -> masterState) (r : Registry) : Registry :=
  mkRegistry (alter f name (masters r)) (downAfter r) (Peers r).
Definition set_current (addr : bytes) (st : masterState) : masterState :=
  mkMaster (spec st) addr (down st) (sdownCount st) (currentEpoch st) (votedEpoch st) (votedRunID st) (lastFailover st).
Definition set_vote (epoch : Z) (runID : bytes) (st : masterState) : masterState :=
  mkMaster (spec st) (current st) (down st) (sdownCount st) epoch epoch runID (lastFailover st).
Definition set_probe (addr : bytes) (isDown : bool) (count : Z) (st : masterState) : masterState :=
  mkMaster (spec st) (current st) (<[addr := isDown]> (down st)) (<[addr := count]> (sdownCount st))
    (currentEpoch st) (votedEpoch st) (votedRunID st) (lastFailover st).
Definition switch_to (target : bytes) (now : Z) (st : masterState) : masterState :=
  mkMaster (spec st) target (down st) (sdownCount st) (currentEpoch st) (votedEpoch st) (votedRunID st) (Some now).

(** ** Lookups (registry.go) *)

Definition GetMasterAddr (r : Registry) (name : bytes) : option (bytes * Z) :=
  match masters r !! name with
  | None => None
  | Some st =>
      match SplitHostPort (current st) with
      | None => None
      | Some (h, p) => match Atoi p with None => None | Some n => Some (h, n) end
      end
  end.

Definition addr_of (hp : bytes * Z) : bytes := JoinHostPort hp.1 (Itoa hp.2).

Definition Slaves (r : Registry) (name : bytes) : option (list bytes) :=
  match masters r !! name with None => None | Some st => Some (spSlaves (spec st)) end.
Definition MasterAddr (r : Registry) (name : bytes) : option bytes :=
  match masters r !! name with None => None | Some st => Some (spMasterAddr (spec st)) end.

(** The orders of ranging over the masters and over the peers. *)
Class RegistryRange : Type := {
  range_masters : gmap bytes masterState -> list (bytes * masterState);
  range_peers : gmap bytes Hello -> list (bytes * Hello);
}.
Class RegistryRangeLaws `{RegistryRange} : Prop := {
  range_masters_perm m : range_masters m ≡ₚ map_to_list m;
  range_peers_perm m : range_peers m ≡ₚ map_to_list m;
}.

Definition Names `{RegistryRange} (r : Registry) : list bytes := map fst (range_masters (masters r)).

(** [time.Duration.Milliseconds] truncates towards zero. *)
Definition DownAfterMs (r : Registry) : Z := Z.quot (downAfter r) 1000000.

Definition map_any (f : masterState -> bool) (m : gmap bytes masterState) : bool :=
  existsb (fun nm : bytes * masterState => f nm.2) (map_to_list m).

Definition IsDown (r : Registry) (addr : bytes) : bool := map_any (fun st => default false (down st !! addr)) (masters r).
Definition IsSubjectivelyDown (r : Registry) (addr : bytes) : bool :=
  map_any (fun st => 1 <=? default 0 (sdownCount st !! addr)) (masters r).

Definition containsAddr (l : list bytes) (addr : bytes) : bool := existsb (fun a => bytes_eqb a addr) l.
Definition monitors (st : masterState) (addr : bytes) : bool :=
  bytes_eqb addr (spMasterAddr (spec st)) || containsAddr (spSlaves (spec st)) addr.

Definition on_masters (f : masterState -> masterState) (r : Registry) : Registry :=
  mkRegistry (f <$> masters r) (downAfter r) (Peers r).

Definition SetDown (addr : bytes) (isDown : bool) : Registry -> Registry :=
  on_masters (fun st => if monitors st addr
    then mkMaster (spec st) (current st) (<[addr := isDown]> (down st)) (sdownCount st)
           (currentEpoch st) (votedEpoch st) (votedRunID st) (lastFailover st)
    else st).

(** sdown.go: one failure is enough; the counter is an [int]. *)
Definition record_probe (addr : bytes) (ok : bool) (st : masterState) : masterState :=
  if negb (monitors st addr) then st
  else if ok then set_probe addr false 0 st
  else
    let n := i64 (default 0 (sdownCount st !! addr) + 1) in
    if 1 <=? n then set_probe addr true n st
    else mkMaster (spec st) (current st) (down st) (<[addr := n]> (sdownCount st))
           (currentEpoch st) (votedEpoch st) (votedRunID st) (lastFailover st).
Definition RecordProbe (addr : bytes) (ok : bool) : Registry -> Registry := on_masters (record_probe addr ok).

(** ** Votes (election.go, odown.go) *)

Definition hasMajority (grants total : Z) : bool := Z.quot total 2 <? grants.

Definition VotedFor (r : Registry) (name : bytes) : option (bytes * Z) :=
  match masters r !! name with None => None | Some st => Some (votedRunID st, currentEpoch st) end.

Definition vote (st : masterState) (candEpoch : Z) (candRunID : bytes) : bool * masterState :=
  if candEpoch <? currentEpoch st then (false, st)
  else if currentEpoch st <? candEpoch then (true, set_vote candEpoch candRunID st)
  else if (votedEpoch st =? candEpoch) && negb (bytes_eqb (votedRunID st) []) && negb (bytes_eqb (votedRunID st) candRunID)
  then (false, st)
  else (true, mkMaster (spec st) (current st) (down st) (sdownCount st) (currentEpoch st) candEpoch candRunID (lastFailover st)).

Definition HandleVote (master : bytes) (candEpoch : Z) (candRunID : bytes) (r : Registry) : (bool * Z) * Registry :=
  match masters r !! master with
  | None => ((false, 0), r)
  | Some st => let '(g, st') := vote st candEpoch candRunID in ((g, currentEpoch st'), update_master master (fun _ => st') r)
  end.

Definition Quorum (r : Registry) (name : bytes) : Z :=
  match masters r !! name with
  | None => 1
  | Some st => if spQuorum (spec st) <=? 0 then 1 else spQuorum (spec st)
  end.

Definition IsObjectivelyDown (r : Registry) (name : bytes) (peerDowns : Z) : bool :=
  match masters r !! name with
  | None => false
  | Some st =>
      let q := if spQuorum (spec st) <=? 0 then 1 else spQuorum (spec st) in
      let votes := if 1 <=? default 0 (sdownCount st !! current st) then i64 (peerDowns + 1) else peerDowns in
      q <=? votes
  end.

(** ** Following other sentinels (adopt.go) *)

Definition AdoptMaster (name addr : bytes) (epoch : Z) (runID : bytes) (r : Registry) : bool * Registry :=
  match masters r !! name with
  | None => (false, r)
  | Some st =>
      if epoch <? currentEpoch st then (false, r)
      else if (epoch =? currentEpoch st) && (negb (bytes_eqb (votedRunID st) runID) || bytes_eqb addr (current st)) then (false, r)
      else if bytes_eqb addr (current st) then (false, r)
      else (true, update_master name (set_current addr) r)
  end.

Definition ObserveMaster (name addr : bytes) (r : Registry) : bool * Registry :=
  match masters r !! name with
  | None => (false, r)
  | Some st => if bytes_eqb addr (current st) then (false, r) else (true, update_master name (set_current addr) r)
  end.

(** ** Choosing a replica (select.go) *)

Record SlaveInfo : Type := mkInfo { Addr : bytes; Priority : Z; Offset : Z; siRunID : bytes; State : bytes }.
Definition absent (addr : bytes) : SlaveInfo := mkInfo addr 100 0 [] [].

Definition info_less (a b : SlaveInfo) : bool :=
  if negb (Priority a =? Priority b) then Priority a <? Priority b
  else if negb (Offset a =? Offset b) then Offset b <? Offset a
  else if negb (bytes_eqb (siRunID a) (siRunID b)) then bytes_ltb (siRunID a) (siRunID b)
  else bytes_ltb (Addr a) (Addr b).
Definition SortSlaves (infos : list SlaveInfo) : list SlaveInfo := isort info_less infos.

Definition select_candidates (slaves : list bytes) (infos : list SlaveInfo) : list SlaveInfo :=
  let byAddr := foldl (fun m i => <[Addr i := i]> m) (∅ : gmap bytes SlaveInfo) infos in
  map (fun addr => default (absent addr) (byAddr !! addr)) slaves.

Definition eligible (r : Registry) (c : SlaveInfo) : bool :=
  negb (IsDown r (Addr c)) && (bytes_eqb (State c) [] || bytes_eqb (State c) (lit "online")).

Definition SelectSlave (r : Registry) (name : bytes) (infos : list SlaveInfo) : result bytes :=
  match masters r !! name with
  | None => Err EUnknownMaster
  | Some st =>
      match List.filter (eligible r) (SortSlaves (select_candidates (spSlaves (spec st)) infos)) with
      | [] => Err ENoHealthySlave
      | c :: _ => Ok (Addr c)
      end
  end.

Section text.
Context `{GoUnicode}.

Definition map_of (kvs : list (bytes * bytes)) : gmap bytes bytes := foldl (fun m kv => <[kv.1 := kv.2]> m) ∅ kvs.
Definition field (m : gmap bytes bytes) (k : string) : bytes := default [] (m !! lit k).

(** The fields [k=v] of one line, the last occurrence of a key winning. *)
Definition line_fields (sep : ascii) (parts : list bytes) : gmap bytes bytes :=
  map_of (omap (fun part => match Cut part sep with Some (k, v) => Some (TrimSpace k, TrimSpace v) | None => None end) parts).

Fixpoint parse_slave_lines (addr host port : bytes) (lines : list bytes) : SlaveInfo :=
  match lines with
  | [] => absent addr
  | l :: rest =>
      let line := TrimSpace (TrimSuffix l [CR]) in
      if negb (HasPrefix line (lit "slave")) then parse_slave_lines addr host port rest
      else
        let kv := drop (Z.to_nat (IndexByte line ":" + 1)) line in
        let f := line_fields "=" (SplitByte kv ",") in
        if negb (bytes_eqb (field f "ip") host) || negb (bytes_eqb (field f "port") port) then parse_slave_lines addr host port rest
        else mkInfo addr (default 100 (Atoi (field f "priority"))) (default 0 (ParseInt (field f "offset")))
               (field f "runid") (field f "state")
  end.
Definition ParseSlaveInfo (addr infoOut : bytes) : SlaveInfo :=
  match SplitHostPort addr with
  | None => absent addr
  | Some (host, port) => parse_slave_lines addr host port (SplitByte infoOut LF)
  end.

(** ** Reading replies (peer.go) *)

Definition trimCR (s : bytes) : bytes :=
  match last s with Some c => if Ascii.eqb c CR then removelast s else s | None => s end.
Definition splitLines (s : bytes) : list bytes := map trimCR (SplitByte s LF).
Definition cutPrefix (s pre : bytes) : option bytes := if HasPrefix s pre then Some (drop (length pre) s) else None.

Definition parseSlaveSideInfo (addr infoOut : bytes) : SlaveInfo * bool :=
  let f := line_fields ":" (map TrimSpace (splitLines infoOut)) in
  if negb (bytes_eqb (field f "role") (lit "slave")) then (absent addr, false)
  else (mkInfo addr 100 (default 0 (ParseInt (field f "slave_repl_offset"))) [] (lit "online"), true).

End text.

(** ** Gossip (hello.go) *)

Definition comma : bytes := [","%char].
Definition Encode (h : Hello) : bytes :=
  IP h ++ comma ++ Port h ++ comma ++ RunID h ++ comma ++ FormatUint (Epoch h) ++ comma ++
  Master h ++ comma ++ MasterIP h ++ comma ++ FormatInt (MasterPort h) ++ comma ++ FormatUint (MasterEpoch h).

Definition ParseHello `{GoQuote} (s : bytes) : result Hello :=
  match SplitByte s "," with
  | [p0; p1; p2; p3; p4; p5; p6; p7] =>
      match ParseUint p3 with
      | None => fail "strconv.ParseUint"
      | Some ep =>
          match Atoi p6 with
          | None => fail "strconv.Atoi"
          | Some mp =>
              match ParseUint p7 with
              | None => fail "strconv.ParseUint"
              | Some mep => Ok (mkHello p0 p1 p2 ep p4 p5 mp mep)
              end
          end
      end
  | _ => Err (EMsg (lit "bad hello " ++ quote s))
  end.

Definition Upsert (h : Hello) (p : gmap bytes Hello) : gmap bytes Hello :=
  match p !! RunID h with
  | Some old => if Epoch h <? Epoch old then p else <[RunID h := h]> p
  | None => <[RunID h := h]> p
  end.
Definition upsert_peer (h : Hello) (r : Registry) : Registry := mkRegistry (masters r) (downAfter r) (Upsert h (Peers r)).

Section addresses.
Context `{GoUnicode}.

Definition NormalizeAddr (addr : bytes) : bytes :=
  match SplitHostPort addr with
  | None => addr
  | Some (h, p) =>
      if bytes_eqb h [] || bytes_eqb p [] then addr
      else
        let h := ToLower (TrimSuffix h (lit ".")) in
        JoinHostPort (if bytes_eqb h (lit "localhost") then lit "127.0.0.1" else h) p
  end.

(** Each address once, at its first occurrence. *)
Fixpoint dedup (seen : gset bytes) (l : list bytes) : list bytes :=
  match l with
  | [] => []
  | a :: rest => if bool_decide (a ∈ seen) then dedup seen rest else a :: dedup ({[a]} ∪ seen) rest
  end.

Definition Addrs `{RegistryRange} (p : gmap bytes Hello) : list bytes :=
  dedup ∅ (omap (fun rh : bytes * Hello =>
    let h := rh.2 in
    if bytes_eqb (IP h) [] || bytes_eqb (Port h) [] then None else Some (NormalizeAddr (IP h ++ lit ":" ++ Port h)))
    (range_peers p)).

Fixpoint SeedPeers (addrs : list bytes) (p : gmap bytes Hello) : gmap bytes Hello :=
  match addrs with
  | [] => p
  | a :: rest =>
      let n := NormalizeAddr a in
      match SplitHostPort n with
      | None => SeedPeers rest p
      | Some (h, port) =>
          SeedPeers rest (if bytes_eqb h [] || bytes_eqb port [] then p else Upsert (mkHello h port n 0 [] [] 0 0) p)
      end
  end.

Definition peersExceptSelf (addrs : list bytes) (self : bytes) : list bytes :=
  dedup {[NormalizeAddr self]} (map NormalizeAddr addrs).

End addresses.

(** [hex.EncodeToString] of sixteen random bytes. *)
Definition hex_digit (n : Z) : ascii := if n <? 10 then byte_of (48 + n) else byte_of (87 + n).
Definition NewRunID (random : bytes) : bytes :=
  concat (map (fun c => [hex_digit (byte_val c / 16); hex_digit (byte_val c mod 16)]) (take 16 random)).

(** ** The node and its connections *)

(** [st_calls]: connections opened so far; [st_sent]: address and request of
    each; [st_pub]: published events. *)
Record node : Type := mkNode {
  st_reg : Registry; st_calls : nat; st_sent : list (bytes * bytes); st_pub : list (bytes * Value);
  st_cfg : option (gmap bytes bytes); st_dbg : option (gmap bytes bytes);
}.

Definition reading {A} (f : Registry -> A) : M node A := on_kv (fun n => (Ok (f (st_reg n)), n)).
Definition writing {A} (f : Registry -> A * Registry) : M node A := on_kv (fun n =>
  let '(a, r) := f (st_reg n) in (Ok a, mkNode r (st_calls n) (st_sent n) (st_pub n) (st_cfg n) (st_dbg n))).
Definition modify (f : Registry -> Registry) : M node unit := writing (fun r => ((), f r)).
Definition publish (channel : bytes) (v : bytes) : M node unit := on_kv (fun n =>
  (Ok (), mkNode (st_reg n) (st_calls n) (st_sent n) (st_pub n ++ [(channel, BulkOf v)]) (st_cfg n) (st_dbg n))).

Section net.
Context `{Wire} `{GoQuote} `{Clock} `{GoUnicode} `{GoFloat}.

(** Open a connection to [addr], write [req], read what comes back. *)
Definition dial (addr req : bytes) : M node bytes := on_kv (fun n =>
  (wire (st_calls n) addr req,
   mkNode (st_reg n) (S (st_calls n)) (st_sent n ++ [(addr, req)]) (st_pub n) (st_cfg n) (st_dbg n))).

Definition request (args : list bytes) : bytes := Append [] (VArray (Some (map BulkOf args))).

Definition read_line (b : bytes) : M node bytes :=
  match read_string [] b with None => merr (EMsg (lit "EOF")) | Some (l, _) => mret l end.

Definition pingOK (addr : bytes) : M node bool :=
  let! r := attempt (let! b := dial addr (lit "*1" ++ CRLF ++ lit "$4" ++ CRLF ++ lit "PING" ++ CRLF) in read_line b) in
  mret (match r with inl line => HasPrefix line (lit "+") | inr _ => false end).

Definition dialAndSend (addr : bytes) (args : list bytes) : M node unit :=
  let! b := dial addr (request (lit "REPLICAOF" :: args)) in
  let! line := read_line b in
  if HasPrefix line (lit "+") then mret () else merr (EMsg (lit "unexpected reply " ++ quote (TrimSpace line))).

(** Two attempts. *)
Definition sendReplicaof (addr : bytes) (args : list bytes) : M node unit :=
  let! r := attempt (dialAndSend addr args) in
  match r with inl _ => mret () | inr _ => dialAndSend addr args end.

Definition sendCmd (addr : bytes) (args : list bytes) : M node Value :=
  let! b := dial addr (request args) in
  let! (v, _) := lift (Decode b) in mret v.

Definition info_replication : list bytes := [lit "INFO"; lit "replication"].

Fixpoint find_role (lines : list bytes) : option bytes :=
  match lines with
  | [] => None
  | l :: rest => match cutPrefix l (lit "role:") with Some role => Some role | None => find_role rest end
  end.
Definition FetchRole (addr : bytes) : M node bytes :=
  let! v := sendCmd addr info_replication in
  match v with
  | VBulkString b => match find_role (splitLines (default [] b)) with
                     | Some role => mret role
                     | None => merr (EMsg (lit "sentinel: INFO replication: no role"))
                     end
  | _ => merr (EMsg (lit "sentinel: INFO replication: bad reply kind"))
  end.

Definition QueryPeer (peerAddr masterHost : bytes) (masterPort epoch : Z) (runID master : bytes) : M node (bool * bytes * Z) :=
  let! v := sendCmd peerAddr [lit "SENTINEL"; lit "IS-MASTER-DOWN-BY-ADDR"; masterHost; Itoa masterPort; FormatUint epoch; runID] in
  match v with
  | VError s => merr (EMsg (lit "sentinel: peer " ++ peerAddr ++ lit " master " ++ master ++ lit ": " ++ s))
  | VArray (Some [f; l; e]) =>
      match ParseUint (arg_or_empty e) with
      | None => merr (EMsg (lit "strconv.ParseUint"))
      | Some le => mret (bytes_eqb (arg_or_empty f) (lit "1"), arg_or_empty l, le)
      end
  | _ => merr (EMsg (lit "sentinel: peer " ++ peerAddr ++ lit ": bad is-master-down reply"))
  end.

Definition helloChannel : bytes := lit "__sentinel__:hello".

(** The first of at most [n] frames that is a message of the channel. *)
Fixpoint first_hello (n : nat) (peerAddr b : bytes) : result Hello :=
  match n with
  | O => Err (EMsg (lit "sentinel: no hello from " ++ peerAddr))
  | S n =>
      let? (v, rest) := Decode b in
      match v with
      | VArray (Some [k; c; m]) =>
          if bytes_eqb (arg_or_empty k) (lit "message") && bytes_eqb (arg_or_empty c) helloChannel
          then ParseHello (arg_or_empty m) else first_hello n peerAddr rest
      | _ => first_hello n peerAddr rest
      end
  end.
Definition FetchHello (peerAddr : bytes) : M node Hello :=
  let! b := dial peerAddr (request [lit "SUBSCRIBE"; helloChannel]) in lift (first_hello 16 peerAddr b).

(** [FetchSlaveInfos] *)
Fixpoint fetch_each (byAddr : gmap bytes SlaveInfo) (slaves : list bytes) : M node (list SlaveInfo) :=
  match slaves with
  | [] => mret []
  | addr :: rest =>
      let! v := attempt (sendCmd addr info_replication) in
      let byAddr := match v with
        | inl (VBulkString b) =>
            match parseSlaveSideInfo addr (default [] b) with
            | (si, true) =>
                let rid := if bytes_eqb (siRunID si) [] then match byAddr !! addr with Some base => siRunID base | None => siRunID si end
                           else siRunID si in
                <[addr := mkInfo (Addr si) (Priority si) (Offset si) rid (State si)]> byAddr
            | (_, false) => byAddr
            end
        | _ => byAddr
        end in
      let! out := fetch_each byAddr rest in
      mret (default (absent addr) (byAddr !! addr) :: out)
  end.
Definition FetchSlaveInfos (masterAddr : bytes) (slaves : list bytes) : M node (list SlaveInfo) :=
  let! v := attempt (sendCmd masterAddr info_replication) in
  fetch_each (match v with
              | inl (VBulkString b) => foldl (fun m addr => <[addr := ParseSlaveInfo addr (default [] b)]> m) ∅ slaves
              | _ => ∅
              end) slaves.

(** ** Probing (probe.go) *)

Fixpoint probe_all (targets : list bytes) : M node unit :=
  match targets with
  | [] => mret ()
  | a :: rest => let! ok := pingOK a in let! _ := modify (RecordProbe a ok) in probe_all rest
  end.

Definition probe_targets `{RegistryRange} (r : Registry) : list bytes :=
  concat (map (fun nm : bytes * masterState =>
    (if bytes_eqb (current nm.2) [] then spMasterAddr (spec nm.2) else current nm.2) :: spSlaves (spec nm.2)) (range_masters (masters r))).

Definition ProbeOnce `{RegistryRange} : M node unit :=
  let! skip := reading (fun r => downAfter r <=? 0) in
  if skip : bool then mret () else let! l := reading probe_targets in probe_all l.

(** ** Switching (registry.go, auto.go, adopt.go) *)

Definition with_state {A} (name : bytes) (k : masterState -> M node A) : M node A :=
  let! o := reading (fun r => masters r !! name) in
  match o with None => merr EUnknownMaster | Some st => k st end.

Definition failoverTo (name target : bytes) : M node unit :=
  with_state name (fun st =>
    let old := current st in
    let! r := attempt (sendReplicaof target [lit "NO"; lit "ONE"]) in
    match r with
    | inr e => merr (EMsg (lit "promote " ++ target ++ lit ": " ++ err_text e))
    | inl _ =>
        let '(th, tp) := default ([], []) (SplitHostPort target) in
        let! isDown := reading (fun r => IsDown r old) in
        let! _ := if isDown : bool then mret () else ignore (sendReplicaof old [th; tp]) in
        let! t := now in
        modify (update_master name (switch_to target t))
    end).

Definition is_current (r : Registry) (name target : bytes) : bool :=
  match GetMasterAddr r name with Some hp => bytes_eqb (addr_of hp) target | None => false end.

Definition Failover (name : bytes) : M node unit :=
  with_state name (fun st =>
    match List.find (fun s => negb (default false (down st !! s))) (spSlaves (spec st)) with
    | None => merr ENoHealthySlave
    | Some target =>
        if bytes_eqb target [] then merr ENoHealthySlave
        else
          let! same := reading (fun r => is_current r name target) in
          if same : bool then mret () else failoverTo name target
    end).

Fixpoint find_promoted (cur : bytes) (slaves : list bytes) : M node (option bytes) :=
  match slaves with
  | [] => mret None
  | s :: rest =>
      if bytes_eqb s cur then find_promoted cur rest
      else
        let! r := attempt (FetchRole s) in
        match r with
        | inl role => if bytes_eqb role (lit "master") then mret (Some s) else find_promoted cur rest
        | inr _ => find_promoted cur rest
        end
  end.
Definition FindPromotedMaster (name : bytes) (slaves : list bytes) : M node (option bytes) :=
  let! o := reading (fun r => GetMasterAddr r name) in
  match o with None => mret None | Some hp => find_promoted (addr_of hp) slaves end.

(** [time.Since(st.lastFailover) < timeout]; a duration is at most 2^63-1 ns. *)
Definition InCooldown (name : bytes) (timeout : Z) : M node bool :=
  if timeout <=? 0 then mret false
  else
    let! o := reading (fun r => match masters r !! name with Some st => lastFailover st | None => None end) in
    match o with None => mret false | Some t0 => let! t := now in mret (t - t0 <? timeout) end.

Definition event_text (hp : bytes * Z) : bytes := hp.1 ++ lit " " ++ Itoa hp.2.
Definition switch_event (name : bytes) (old new : option (bytes * Z)) : bytes :=
  name ++ lit " " ++ event_text (default ([], 0) old) ++ lit " " ++ event_text (default ([], 0) new).

Definition AutoTick (name : bytes) (isLeader : bool) (peerDowns : Z) (infos : list SlaveInfo) (timeout : Z) (pub : bool) : M node unit :=
  if negb isLeader then mret ()
  else
    let! odown := reading (fun r => IsObjectivelyDown r name peerDowns) in
    if negb odown then mret ()
    else
      let! cooling := InCooldown name timeout in
      if cooling : bool then mret ()
      else
        let! sel := reading (fun r => SelectSlave r name infos) in
        let! target := lift sel in
        let! same := reading (fun r => is_current r name target) in
        if same : bool then mret ()
        else
          let! role := attempt (FetchRole target) in
          if match role with inl r => bytes_eqb r (lit "master") | inr _ => false end
          then let! _ := writing (ObserveMaster name target) in mret ()
          else
            let! old := reading (fun r => GetMasterAddr r name) in
            let! _ := failoverTo name target in
            if pub then
              let! new := reading (fun r => GetMasterAddr r name) in
              publish (lit "+switch-master") (switch_event name old new)
            else mret ().

(** ** The loops' bodies (sentinel_auto.go) *)

Fixpoint ask_peers (name masterHost : bytes) (masterPort epoch : Z) (runID : bytes) (peers : list bytes) : M node (Z * Z) :=
  match peers with
  | [] => mret (0, 0)
  | p :: rest =>
      let! r := attempt (QueryPeer p masterHost masterPort epoch runID name) in
      let! (d, g) := ask_peers name masterHost masterPort epoch runID rest in
      mret match r with
           | inl (isDown, leader, _) => (if isDown : bool then d + 1 else d, if bytes_eqb leader runID then g + 1 else g)
           | inr _ => (d, g)
           end
  end.

(** The votes that the master is down and the votes for this sentinel, its own
    included. *)
Definition voteRound (name masterHost : bytes) (masterPort epoch : Z) (runID : bytes) (peers : list bytes) : M node (Z * Z) :=
  let! (granted, _) := writing (HandleVote name epoch runID) in
  let! (d, g) := ask_peers name masterHost masterPort epoch runID peers in
  mret (d, if granted : bool then g + 1 else g).

Record masterEdge : Type := mkEdge { e_sdown : bool; e_odown : bool }.

Definition autoStep (name runID : bytes) (peers : list bytes) (timeout : Z) (edge : masterEdge) : M node masterEdge :=
  let! o := reading (fun r => GetMasterAddr r name) in
  match o with
  | None => mret edge
  | Some cur =>
      let curAddr := addr_of cur in
      let ev := lit "master " ++ name ++ lit " " ++ event_text cur in
      let! voted := reading (fun r => VotedFor r name) in
      let cand := u64 (snd (default ([], 0) voted) + 1) in
      let! (downs, _) := voteRound name cur.1 cur.2 cand runID peers in
      let! odown := reading (fun r => IsObjectivelyDown r name downs) in
      let! sdown := reading (fun r => IsSubjectivelyDown r curAddr) in
      let! _ := if sdown && negb (e_sdown edge) then publish (lit "+sdown") ev else mret () in
      let! _ := if odown && negb (e_odown edge) then publish (lit "+odown") ev else mret () in
      let edge := mkEdge sdown odown in
      if negb odown then mret edge
      else
        let! cooling := InCooldown name timeout in
        if cooling : bool then mret edge
        else
          let! slaves := reading (fun r => default [] (Slaves r name)) in
          let! promoted := FindPromotedMaster name slaves in
          match promoted with
          | Some a => let! _ := writing (ObserveMaster name a) in mret edge
          | None =>
              let! (downs2, grants2) := voteRound name cur.1 cur.2 cand runID peers in
              let! odown2 := reading (fun r => IsObjectivelyDown r name downs2) in
              if negb odown2 then mret edge
              else if grants2 * 2 <=? 1 + len peers then mret edge
              else
                let! _ := publish (lit "+try-failover") ev in
                let! _ := publish (lit "+elected-leader") ev in
                let! infos := FetchSlaveInfos curAddr slaves in
                let! _ := attempt (AutoTick name true downs2 infos timeout true) in
                mret edge
          end
  end.

Fixpoint announce (selfHost selfPort runID : bytes) (names : list bytes) : M node unit :=
  match names with
  | [] => mret ()
  | name :: rest =>
      let! o := reading (fun r => GetMasterAddr r name) in
      let! _ := match o with
        | None => mret ()
        | Some (mh, mp) =>
            let! voted := reading (fun r => VotedFor r name) in
            let epoch := snd (default ([], 0) voted) in
            publish helloChannel (Encode (mkHello selfHost selfPort runID epoch name mh mp epoch))
        end in
      announce selfHost selfPort runID rest
  end.

Definition hear (h : Hello) : M node unit :=
  let! _ := modify (upsert_peer h) in
  if bytes_eqb (Master h) [] || bytes_eqb (MasterIP h) [] then mret ()
  else let! _ := writing (AdoptMaster (Master h) (JoinHostPort (MasterIP h) (Itoa (MasterPort h))) (MasterEpoch h) (RunID h)) in mret ().

Fixpoint fetch_hellos (peers : list bytes) : M node unit :=
  match peers with
  | [] => mret ()
  | p :: rest =>
      let! r := attempt (FetchHello p) in
      let! _ := match r with inl h => hear h | inr _ => mret () end in
      fetch_hellos rest
  end.

Definition helloStep `{RegistryRange} (selfHost selfPort runID : bytes) : M node unit :=
  let! names := reading Names in
  let! _ := announce selfHost selfPort runID names in
  let! addrs := reading (fun r => Addrs (Peers r)) in
  fetch_hellos (peersExceptSelf addrs (JoinHostPort selfHost selfPort)).

(** One tick of the automatic loop over all masters. *)
Fixpoint auto_names (runID : bytes) (peers names : list bytes) (timeout : Z) (edges : gmap bytes masterEdge) : M node (gmap bytes masterEdge) :=
  match names with
  | [] => mret edges
  | name :: rest =>
      let! e := autoStep name runID peers timeout (default (mkEdge false false) (edges !! name)) in
      auto_names runID peers rest timeout (<[name := e]> edges)
  end.
Definition auto_tick `{RegistryRange} (selfAddr runID : bytes) (timeout : Z) (edges : gmap bytes masterEdge) : M node (gmap bytes masterEdge) :=
  let! addrs := reading (fun r => Addrs (Peers r)) in
  let! names := reading Names in
  auto_names runID (peersExceptSelf addrs selfAddr) names timeout edges.

End net.

End sentinel.
