(* ===== verification/SentinelCmd.v ===== *)
(** * The SENTINEL command (src/internal/commands/sentinel.go)

    The handlers of the sentinel's own router.  CONFIG and DEBUG keep their
    parameters in two maps of the node that are created on first use. *)

From S2P Require Import Prelude GoLib GoStrings Resp Cmd Cluster Sentinel.
Open Scope Z_scope.
Open Scope gedis_scope.

Module sentinelcmd.
Import cluster (SplitHostPort).
Import sentinel.

(** What is fixed at registration: own address, run id, and whether events are
    published. *)
Record sentinelHandler : Type := mkHandler { selfAddr : bytes; runID : bytes; pub : bool }.

Definition syntax_err : Value := errS "ERR syntax error".
Definition no_master : Value := errS "ERR No such master with that name".
Definition bulks (l : list bytes) : Value := VArray (Some (map BulkOf l)).

(** The host and port shown for an address, empty when it is malformed. *)
Definition shown (addr : bytes) : bytes * bytes := default ([], []) (SplitHostPort addr).

Definition sentinelDebugDefaults : list (string * string) := [
  ("INFO-PERIOD", "10000"); ("PING-PERIOD", "1000"); ("ASK-PERIOD", "1000"); ("PUBLISH-PERIOD", "2000");
  ("DEFAULT-DOWN-AFTER", "30000"); ("DEFAULT-FAILOVER-TIMEOUT", "180000"); ("TILT-TRIGGER", "2000");
  ("TILT-PERIOD", "30000"); ("SLAVE-RECONF-TIMEOUT", "10000"); ("MIN-LINK-RECONNECT-PERIOD", "15000");
  ("ELECTION-TIMEOUT", "10000"); ("SCRIPT-MAX-RUNTIME", "60000"); ("SCRIPT-RETRY-DELAY", "30000")]%string.

Definition sentinelHelpLines : list string := [
  "SENTINEL <subcommand> [<arg> [value] [opt] ...]. Subcommands are:";
  "CKQUORUM <master-name>";
  "    Check if the current Sentinel configuration is able to reach the quorum";
  "    needed to failover a master and the majority needed to authorize the";
  "    failover.";
  "CONFIG SET param value [param value ...]";
  "    Set a global Sentinel configuration parameter.";
  "CONFIG GET <param> [param param param ...]";
  "    Get global Sentinel configuration parameter.";
  "DEBUG [<param> <value> ...]";
  "    Show a list of configurable time parameters and their values (milliseconds).";
  "    Or update current configurable parameters values (one or more).";
  "GET-MASTER-ADDR-BY-NAME <master-name>";
  "    Return the ip and port number of the master with that name.";
  "FAILOVER <master-name>";
  "    Manually failover a master node without asking for agreement from other";
  "    Sentinels";
  "FLUSHCONFIG";
  "    Force Sentinel to rewrite its configuration on disk, including the current";
  "    Sentinel state.";
  "INFO-CACHE <master-name>";
  "    Return last cached INFO output from masters and all its replicas.";
  "IS-MASTER-DOWN-BY-ADDR <ip> <port> <current-epoch> <runid>";
  "    Check if the master specified by ip:port is down from current Sentinel's";
  "    point of view.";
  "MASTER <master-name>";
  "    Show the state and info of the specified master.";
  "MASTERS";
  "    Show a list of monitored masters and their state.";
  "MONITOR <name> <ip> <port> <quorum>";
  "    Start monitoring a new master with the specified name, ip, port and quorum.";
  "MYID";
  "    Return the ID of the Sentinel instance.";
  "PENDING-SCRIPTS";
  "    Get pending scripts information.";
  "REMOVE <master-name>";
  "    Remove master from Sentinel's monitor list.";
  "REPLICAS <master-name>";
  "    Show a list of replicas for this master and their state.";
  "RESET <pattern>";
  "    Reset masters for specific master name matching this pattern.";
  "SENTINELS <master-name>";
  "    Show a list of Sentinel instances for this master and their state.";
  "SET <master-name> <option> <value> [<option> <value> ...]";
  "    Set configuration parameters for certain masters.";
  "SIMULATE-FAILURE [CRASH-AFTER-ELECTION] [CRASH-AFTER-PROMOTION] [HELP]";
  "    Simulate a Sentinel crash.";
  "HELP";
  "    Print this help."]%string.
Definition sentinelHelp : Value := VArray (Some (map (fun s => VSimpleString (lit s)) sentinelHelpLines)).

Definition set_cfg (m : gmap bytes bytes) : M node unit := on_kv (fun n =>
  (Ok (), mkNode (st_reg n) (st_calls n) (st_sent n) (st_pub n) (Some m) (st_dbg n))).
Definition set_dbg (m : gmap bytes bytes) : M node unit := on_kv (fun n =>
  (Ok (), mkNode (st_reg n) (st_calls n) (st_sent n) (st_pub n) (st_cfg n) (Some m))).

Section handlers.
Context `{Wire} `{GoQuote} `{Clock} `{GoUnicode} `{GoFloat} `{RegistryRange}.

Definition sentinelArgErr (sub : bytes) : Value :=
  VError (lit "ERR wrong number of arguments for 'sentinel|" ++ ToLower sub ++ lit "' command").

Definition with_name (a : Value) (k : bytes -> M node Value) : M node Value :=
  match argString a with None => mret syntax_err | Some name => k name end.
Definition with_master (a : Value) (k : bytes -> bytes -> M node Value) : M node Value :=
  with_name a (fun name =>
    let! o := reading (fun r => MasterAddr r name) in
    match o with None => mret no_master | Some addr => k name addr end).

Definition sentinelInfoBulk (r : Registry) : bytes :=
  lit "# Sentinel" ++ CRLF ++ lit "sentinel_masters:" ++ Itoa (len (Names r)) ++ CRLF.

Definition infoCache (a : Value) : M node Value :=
  with_name a (fun name =>
    let! o := reading (fun r => MasterAddr r name) in
    match o with
    | None => mret (VArray (Some []))
    | Some _ => let! t := reading sentinelInfoBulk in mret (bulks [t])
    end).

Definition simulateFailure (sub : bytes) (rest : list Value) : Value :=
  let refuse := errS "ERR SENTINEL SIMULATE-FAILURE crash flags not supported on this engine (refuses to crash)" in
  match rest with
  | [] => sentinelArgErr sub
  | [a] => match argString a with
           | Some s => if EqualFold s (lit "HELP") then bulks [lit "crash-after-election"; lit "crash-after-promotion"] else refuse
           | None => refuse
           end
  | _ => refuse
  end.

Definition sentinelConfigKnown (name : bytes) : bool :=
  existsb (bytes_eqb (ToLower name))
    (map lit ["announce-ip"; "announce-port"; "announce-hostnames"; "resolve-hostnames"; "deny-scripts-reconfig"]%string).

Fixpoint config_get (cfg : gmap bytes bytes) (params : list Value) : option (list Value) :=
  match params with
  | [] => Some []
  | p :: rest =>
      match argString p with
      | None => None
      | Some name =>
          match config_get cfg rest with
          | None => None
          | Some out => Some (if sentinelConfigKnown name then bulks [name; default [] (cfg !! name)] :: out else out)
          end
      end
  end.

(** The parameters before a refused one stay set. *)
Fixpoint config_set (cfg : gmap bytes bytes) (params : list Value) : Value * gmap bytes bytes :=
  match params with
  | n :: v :: rest =>
      match argString n with
      | None => (syntax_err, cfg)
      | Some name =>
          if negb (sentinelConfigKnown name)
          then (VError (lit "ERR Invalid argument '" ++ name ++ lit "' to SENTINEL CONFIG SET"), cfg)
          else match argString v with
               | None => (syntax_err, cfg)
               | Some val => config_set (<[name := val]> cfg) rest
               end
      end
  | _ => (okReply, cfg)
  end.

Definition sentinelConfig (sub : bytes) (rest : list Value) : M node Value :=
  match rest with
  | [] => mret (sentinelArgErr sub)
  | o :: params =>
      match argString o with
      | None => mret syntax_err
      | Some op =>
          let! cfg := on_kv (fun n => (Ok (default ∅ (st_cfg n)), n)) in
          let! _ := set_cfg cfg in
          if bytes_eqb (ToUpper op) (lit "GET") then
            if len rest <? 2 then mret (sentinelArgErr sub)
            else mret match config_get cfg params with None => syntax_err | Some out => VArray (Some out) end
          else if bytes_eqb (ToUpper op) (lit "SET") then
            if (len rest <? 3) || (len rest mod 2 =? 0) then mret (sentinelArgErr sub)
            else let '(v, cfg) := config_set cfg params in let! _ := set_cfg cfg in mret v
          else mret (sentinelArgErr sub)
      end
  end.

Definition unknown_debug (name : bytes) : Value :=
  VError (lit "ERR Unknown option or number of arguments for SENTINEL DEBUG '" ++ name ++ lit "'").

Fixpoint debug_set (dbg : gmap bytes bytes) (params : list Value) : Value * gmap bytes bytes :=
  match params with
  | n :: v :: rest =>
      match argString n with
      | None => (syntax_err, dbg)
      | Some name =>
          let key := ToUpper name in
          match dbg !! key with
          | None => (unknown_debug name, dbg)
          | Some _ => match argString v with
                      | None => (syntax_err, dbg)
                      | Some val => debug_set (<[key := val]> dbg) rest
                      end
          end
      end
  | _ => (okReply, dbg)
  end.

Definition debug_defaults : gmap bytes bytes :=
  foldl (fun m (kv : string * string) => <[lit kv.1 := lit kv.2]> m) ∅ sentinelDebugDefaults.

Definition sentinelDebug (rest : list Value) : M node Value :=
  let! dbg := on_kv (fun n => (Ok (default debug_defaults (st_dbg n)), n)) in
  let! _ := set_dbg dbg in
  match rest with
  | [] => mret (bulks (concat (map (fun kv : string * string => [lit kv.1; default [] (dbg !! lit kv.1)]) sentinelDebugDefaults)))
  | _ =>
      if negb (len rest mod 2 =? 0) then mret (unknown_debug (match last rest with Some a => arg_or_empty a | None => [] end))
      else let '(v, dbg) := debug_set dbg rest in let! _ := set_dbg dbg in mret v
  end.

(** ** Showing the topology *)

Definition masterEntry (r : Registry) (name addr : bytes) : Value :=
  let '(host, port) := shown addr in
  bulks [lit "name"; name; lit "ip"; host; lit "port"; port; lit "quorum"; Itoa (Quorum r name);
         lit "down-after-milliseconds"; FormatInt (DownAfterMs r);
         lit "flags"; if IsDown r addr then lit "master,o-down" else lit "master"].

Definition masters_reply (r : Registry) : Value :=
  VArray (Some (omap (fun name => match MasterAddr r name with Some addr => Some (masterEntry r name addr) | None => None end) (Names r))).

Definition master_reply (a : Value) : M node Value :=
  with_master a (fun name addr => reading (fun r => masterEntry r name addr)).

Definition node_entry (addr flags : bytes) : Value :=
  let '(host, port) := shown addr in
  bulks [lit "name"; addr; lit "ip"; host; lit "port"; port; lit "flags"; flags].

Definition slaves_reply (a : Value) : M node Value :=
  with_name a (fun name =>
    reading (fun r =>
      match Slaves r name with
      | None => no_master
      | Some addrs => VArray (Some (map (fun addr => node_entry addr (if IsDown r addr then lit "slave,o-down" else lit "slave")) addrs))
      end)).

Definition sentinels_reply (h : sentinelHandler) (a : Value) : M node Value :=
  with_master a (fun _ _ => reading (fun r =>
    VArray (Some (node_entry (selfAddr h) (lit "sentinel") :: map (fun addr => node_entry addr (lit "sentinel")) (Addrs (Peers r)))))).

Definition ckquorum (a : Value) : M node Value :=
  with_master a (fun name _ => reading (fun r =>
    if Quorum r name <=? 1 + len (Addrs (Peers r)) then okReply
    else VError (lit "ERR quorum for master '" ++ name ++ lit "' is not reachable"))).

Definition getMasterAddr (a : Value) : M node Value :=
  with_name a (fun name => reading (fun r =>
    match GetMasterAddr r name with None => no_master | Some (host, port) => bulks [host; Itoa port] end)).

(** ** FAILOVER and IS-MASTER-DOWN-BY-ADDR *)

Definition failover (h : sentinelHandler) (a : Value) : M node Value :=
  with_name a (fun name =>
    let! old := reading (fun r => GetMasterAddr r name) in
    match old with
    | None => mret no_master
    | Some _ =>
        let! r := attempt (Failover name) in
        match r with
        | inr EUnknownMaster => mret no_master
        | inr ENoHealthySlave => mret (errS "ERR No healthy slave")
        | inr e => mret (VError (lit "ERR " ++ err_text e))
        | inl _ =>
            let! new := reading (fun r => GetMasterAddr r name) in
            let! _ := if pub h then publish (lit "+switch-master") (switch_event name old new) else mret () in
            mret okReply
        end
    end).

Definition name_of_addr (r : Registry) (ip port : bytes) : option bytes :=
  List.find (fun n => match GetMasterAddr r n with
                      | Some (host, p) => bytes_eqb host ip && bytes_eqb (Itoa p) port
                      | None => false
                      end) (Names r).

(** The leader and epoch a voter answers with. *)
Definition reply_leader (granted : bool) (cand : bytes) (epoch : Z) (voted : option (bytes * Z)) : bytes * bytes :=
  if granted then (cand, FormatUint epoch)
  else match voted with
       | Some (v, e) => if bytes_eqb v [] then (lit "*", lit "0") else (v, FormatUint e)
       | None => (lit "*", lit "0")
       end.

Definition isMasterDownByAddr (ip port epochStr candRunID : Value) : M node Value :=
  match argString ip, argString port, argString epochStr with
  | Some ip, Some port, Some es =>
      match ParseUint es with
      | None => mret (errS "ERR invalid epoch")
      | Some candEpoch =>
          match argString candRunID with
          | None => mret syntax_err
          | Some cand =>
              let! o := reading (fun r => name_of_addr r ip port) in
              match o with
              | None | Some [] => mret (errS "ERR No such master with that address")
              | Some name =>
                  let! isDown := reading (fun r => IsSubjectivelyDown r (JoinHostPort ip port)) in
                  let! (granted, epoch) := writing (HandleVote name candEpoch cand) in
                  let! voted := reading (fun r => VotedFor r name) in
                  let '(leader, le) := reply_leader granted cand epoch voted in
                  mret (bulks [if isDown : bool then lit "1" else lit "0"; leader; le])
              end
          end
      end
  | _, _, _ => mret syntax_err
  end.

(** ** Dispatch *)

Definition sentinel (h : sentinelHandler) (args : list Value) : M node Value :=
  match args with
  | [] => mret (wrong_args "sentinel")
  | a0 :: rest =>
      match argString a0 with
      | None => mret syntax_err
      | Some sub =>
          let isw (s : string) := bytes_eqb (ToUpper sub) (lit s) in
          let none (m : M node Value) := match rest with [] => m | _ => mret (sentinelArgErr sub) end in
          let one (k : Value -> M node Value) := match rest with [a] => k a | _ => mret (sentinelArgErr sub) end in
          if isw "MASTERS"%string then none (reading masters_reply)
          else if isw "MASTER"%string then one master_reply
          else if isw "SLAVES"%string || isw "REPLICAS"%string then one slaves_reply
          else if isw "MYID"%string then none (mret (BulkOf (runID h)))
          else if isw "CKQUORUM"%string then one ckquorum
          else if isw "SENTINELS"%string then one (sentinels_reply h)
          else if isw "GET-MASTER-ADDR-BY-NAME"%string then one getMasterAddr
          else if isw "FAILOVER"%string then one (failover h)
          else if isw "IS-MASTER-DOWN-BY-ADDR"%string then
            match rest with [ip; port; e; c] => isMasterDownByAddr ip port e c | _ => mret (sentinelArgErr sub) end
          else if isw "RESET"%string || isw "REMOVE"%string || isw "SET"%string || isw "MONITOR"%string then
            mret (VError (lit "ERR Static sentinel topology does not support SENTINEL " ++ ToUpper sub))
          else if isw "HELP"%string then none (mret sentinelHelp)
          else if isw "INFO-CACHE"%string then one infoCache
          else if isw "PENDING-SCRIPTS"%string then none (mret (VArray (Some [])))
          else if isw "SIMULATE-FAILURE"%string then mret (simulateFailure sub rest)
          else if isw "CONFIG"%string then sentinelConfig sub rest
          else if isw "DEBUG"%string then sentinelDebug rest
          else if isw "FLUSHCONFIG"%string then none (mret okReply)
          else mret (VError (lit "ERR unknown subcommand '" ++ sub ++ lit "'. Try SENTINEL HELP."))
      end
  end.

Definition info (args : list Value) : M node Value :=
  match args with
  | [] => let! t := reading sentinelInfoBulk in mret (BulkOf t)
  | [a] =>
      match argString a with
      | None => mret syntax_err
      | Some sec =>
          if negb (EqualFold sec (lit "sentinel")) then mret (VError (lit "ERR unknown section '" ++ sec ++ lit "'"))
          else let! t := reading sentinelInfoBulk in mret (BulkOf t)
      end
  | _ => mret (wrong_args "info")
  end.

End handlers.
End sentinelcmd.
