(* ===== verification/SentinelSpec.v ===== *)
(** * What the sentinels agree on

    The election of a leader as a transition system of all sentinels: requests
    for votes are processed in any order, late or more than once, between the
    probes, adoptions and switches of every node.  Then the choice of the
    replica, the automatic switch and the gossip format. *)

From stdpp Require Import functions.
From S2P Require Import Prelude GoLib GoStrings Resp Cmd Cluster Sentinel SentinelCmd.
Open Scope Z_scope.
Open Scope gedis_scope.

Module sentinelspec.
Import cluster (SplitHostPort).
Import sentinel sentinelcmd.

(** ** The election

    A round of one candidate: the epoch it asks for, whether it has voted for
    itself, the voters that refused and whose recorded vote is still to be read
    for the reply, and the voters counted as grants. *)
Record round : Type := mkRound { r_epoch : Z; r_self : bool; r_refused : gset bytes; r_grants : gset bytes }.
Definition no_round : round := mkRound 0 false ∅ ∅.

(** Registries and rounds by run id.  [asks]: the requests ever made, by
    candidate and epoch; [votes]: the votes ever granted, by voter, epoch and
    candidate; [elected]: who took itself for the leader, with the epoch. *)
Record election : Type := mkElection {
  regs : bytes -> Registry; rounds : bytes -> round;
  asks : list (bytes * Z); votes : list (bytes * Z * bytes); elected : list (Z * bytes);
}.

(** What a registry does that is not a vote. *)
Inductive local_op : Registry -> Registry -> Prop :=
| L_probe addr ok r : local_op r (RecordProbe addr ok r)
| L_down addr b r : local_op r (SetDown addr b r)
| L_adopt name addr e runID r : local_op r (AdoptMaster name addr e runID r).2
| L_observe name addr r : local_op r (ObserveMaster name addr r).2
| L_switch name addr t r : local_op r (update_master name (switch_to addr t) r)
| L_peer h r : local_op r (upsert_peer h r).

Section election.
(** The run ids of the sentinels and the master they vote about. *)
Context (ids : gset bytes) (name : bytes).

Definition put_reg (v : bytes) (r : Registry) (s : election) : election :=
  mkElection (<[v := r]> (regs s)) (rounds s) (asks s) (votes s) (elected s).
Definition put_round (c : bytes) (rd : round) (s : election) : election :=
  mkElection (regs s) (<[c := rd]> (rounds s)) (asks s) (votes s) (elected s).
(** The voter processes a request. *)
Definition cast (v c : bytes) (e : Z) (s : election) : bool * election :=
  let '((granted, _), r) := HandleVote name e c (regs s v) in
  (granted, mkElection (<[v := r]> (regs s)) (rounds s) ((c, e) :: asks s) (if granted : bool then (v, e, c) :: votes s else votes s) (elected s)).

Definition tally (v : bytes) (counted : bool) (refused : bool) (rd : round) : round :=
  mkRound (r_epoch rd) (r_self rd) (if refused then {[v]} ∪ r_refused rd else r_refused rd ∖ {[v]})
    (if counted then {[v]} ∪ r_grants rd else r_grants rd).

Inductive estep : election -> election -> Prop :=
| E_begin c s e v0 : c ∈ ids -> VotedFor (regs s c) name = Some (v0, e) -> e + 1 < 2 ^ 64 ->
    estep s (put_round c (mkRound (u64 (e + 1)) false ∅ ∅) s)
| E_again c s : c ∈ ids -> estep s (put_round c (mkRound (r_epoch (rounds s c)) false ∅ ∅) s)
| E_self c s g s' : c ∈ ids -> 0 < r_epoch (rounds s c) ->
    cast c c (r_epoch (rounds s c)) s = (g, s') ->
    estep s (put_round c (mkRound (r_epoch (rounds s c)) true ∅ (if g : bool then {[c]} else ∅)) s')
| E_ask c v s g s' : c ∈ ids -> v ∈ ids -> r_self (rounds s c) = true ->
    cast v c (r_epoch (rounds s c)) s = (g, s') -> estep s (put_round c (tally v g (negb g) (rounds s c)) s')
| E_read c v s : v ∈ r_refused (rounds s c) ->
    estep s (put_round c (tally v (bytes_eqb (reply_leader false c 0 (VotedFor (regs s v) name)).1 c) false (rounds s c)) s)
| E_late c v e s g s' : v ∈ ids -> (c, e) ∈ asks s -> cast v c e s = (g, s') -> estep s s'
| E_local v r s : local_op (regs s v) r -> estep s (put_reg v r s)
| E_elect c s : c ∈ ids -> ~ (Z.of_nat (size (r_grants (rounds s c))) * 2 <= Z.of_nat (size ids)) ->
    estep s (mkElection (regs s) (rounds s) (asks s) (votes s) ((r_epoch (rounds s c), c) :: elected s)).

(** *** The vote of one sentinel *)

Lemma vote_spec (st : masterState) (e : Z) (c : bytes) (g : bool) (st' : masterState) :
  vote st e c = (g, st') -> votedEpoch st = currentEpoch st ->
  votedEpoch st' = currentEpoch st' /\ currentEpoch st <= currentEpoch st' /\ e <= currentEpoch st' /\
  if g then currentEpoch st' = e /\ votedRunID st' = c /\ (currentEpoch st = e -> votedRunID st = [] \/ votedRunID st = c)
  else st' = st.
Proof.
  unfold vote. intros E Hv. destruct (Z.ltb_spec e (currentEpoch st)); [simplify_eq; split_and!; (lia || done)|].
  destruct (Z.ltb_spec (currentEpoch st) e); [simplify_eq/=; split_and!; (lia || done || intros; lia)|].
  destruct (_ && _) eqn:Eb; simplify_eq/=.
  - split_and!; (lia || done).
  - split_and!; [lia..|done|]. intros _. rewrite Hv, (proj2 (Z.eqb_eq _ _)) in Eb by lia. cbn in Eb.
    destruct (bytes_eqb_spec (votedRunID st) []); [by left|]. destruct (bytes_eqb_spec (votedRunID st) c); [by right|done].
Qed.

(** *** The invariant *)

Definition known (s : election) (v : bytes) (P : masterState -> Prop) : Prop :=
  exists st, masters (regs s v) !! name = Some st /\ P st.

Record voter_ok (s : election) (v : bytes) (st : masterState) : Prop := {
  vo_epoch : votedEpoch st = currentEpoch st;
  vo_last : votedRunID st <> [] -> (v, currentEpoch st, votedRunID st) ∈ votes s;
  vo_past : forall e c, (v, e, c) ∈ votes s -> e <= currentEpoch st /\ (e = currentEpoch st -> votedRunID st = c);
}.

Record inv (s : election) : Prop := {
  i_voter : forall v, v ∈ ids -> known s v (voter_ok s v);
  i_round : forall c, c ∈ ids -> known s c (fun st => 0 <= currentEpoch st /\ r_epoch (rounds s c) <= currentEpoch st + 1);
  i_once : forall v e c c', (v, e, c) ∈ votes s -> (v, e, c') ∈ votes s -> c = c';
  i_asked : forall v e c, (v, e, c) ∈ votes s -> v ∈ ids /\ (c, e) ∈ asks s;
  i_asks : forall c e, (c, e) ∈ asks s -> c ∈ ids /\ e <= r_epoch (rounds s c) /\ known s c (fun st => e <= currentEpoch st);
  i_self : forall c, r_self (rounds s c) = true -> (c, r_epoch (rounds s c)) ∈ asks s;
  i_grants : forall c v, v ∈ r_grants (rounds s c) -> (v, r_epoch (rounds s c), c) ∈ votes s;
  i_refused : forall c v, v ∈ r_refused (rounds s c) ->
    c ∈ ids /\ v ∈ ids /\ known s v (fun st => r_epoch (rounds s c) <= currentEpoch st);
  i_elected : forall e c, (e, c) ∈ elected s -> exists g : gset bytes, Z.of_nat (size ids) < Z.of_nat (size g) * 2 /\
    forall v, v ∈ g -> (v, e, c) ∈ votes s;
}.

(** What a later state keeps of an earlier one. *)
Record later (s s' : election) : Prop := {
  l_asks : forall c e, (c, e) ∈ asks s -> (c, e) ∈ asks s';
  l_votes : forall v e c, (v, e, c) ∈ votes s -> (v, e, c) ∈ votes s';
  l_epoch : forall v P, known s v P -> known s' v (fun st' => exists st, P st /\ currentEpoch st <= currentEpoch st');
}.

Lemma known_mono (s : election) (v : bytes) (P Q : masterState -> Prop) : (forall st, P st -> Q st) -> known s v P -> known s v Q.
Proof. intros Hpq (st & E & Hp). exists st. auto. Qed.

Lemma known_both (s : election) (v : bytes) (P Q : masterState -> Prop) : known s v P -> known s v Q -> known s v (fun st => P st /\ Q st).
Proof. intros (st & E & Hp) (st' & E' & Hq). exists st. rewrite E in E'. by simplify_eq. Qed.

Lemma later_epoch (s s' : election) (v : bytes) (n : Z) :
  later s s' -> known s v (fun st => n <= currentEpoch st) -> known s' v (fun st => n <= currentEpoch st).
Proof. intros Hl Hk. eapply known_mono; [|apply (l_epoch _ _ Hl), Hk]. intros st (st0 & ? & ?). lia. Qed.

(** A vote keeps the invariant; the voter's epoch reaches the candidate's. *)
Lemma cast_inv (v c : bytes) (e : Z) (s : election) (g : bool) (s' : election) :
  [] ∉ ids -> inv s -> v ∈ ids -> c ∈ ids -> e <= r_epoch (rounds s c) ->
  v = c \/ known s c (fun st => e <= currentEpoch st) -> cast v c e s = (g, s') ->
  inv s' /\ later s s' /\ rounds s' = rounds s /\ known s' v (fun st => e <= currentEpoch st) /\
  (c, e) ∈ asks s' /\ (g = true -> (v, e, c) ∈ votes s').
Proof.
  intros Hnil Hi Hv Hc He Ha E. destruct (i_voter _ Hi v Hv) as (st & Est & Hok). unfold cast, HandleVote in E. rewrite Est in E.
  destruct (vote st e c) as [g' st'] eqn:Ev. cbn in E.
  pose proof (vote_spec _ _ _ _ _ Ev (vo_epoch _ _ _ Hok)) as (Hep & Hle & Hce & Hg).
  injection E as <- <-.
  set (s' := mkElection _ _ _ _ _).
  assert (forall w, w <> v -> masters (regs s' w) = masters (regs s w)) as Hother.
  { intros w Hw. unfold s'. cbn. by rewrite fn_lookup_insert_ne. }
  assert (masters (regs s' v) !! name = Some st') as Hself.
  { unfold s'. cbn. rewrite fn_lookup_insert. cbn. by rewrite lookup_alter_eq, Est. }
  assert (forall w e' c', (w, e', c') ∈ votes s' <-> (w, e', c') ∈ votes s \/ (g' = true /\ w = v /\ e' = e /\ c' = c)) as Hvotes.
  { intros w e' c'. unfold s'. cbn. destruct g'; [rewrite elem_of_cons|]; naive_solver. }
  assert (later s s') as Hlater.
  { split; [intros; by right|intros; apply Hvotes; by left|]. intros w P (stw & Ew & HP). destruct (decide (w = v)) as [->|Hw].
    - exists st'. split; [done|]. exists stw. rewrite Est in Ew. by simplify_eq.
    - exists stw. rewrite Hother by done. split; [done|]. exists stw. split; [done|lia]. }
  assert (voter_ok s' v st') as Hvo.
  { destruct g'.
    - destruct Hg as (He' & Hr & Hfirst). subst e c. split; [done|intros _; apply Hvotes; by right|].
      intros e' c' [Hin|(_ & _ & -> & ->)]%Hvotes; [|done]. destruct (vo_past _ _ _ Hok _ _ Hin) as [H1 H2]. split; [lia|].
      intros ->. assert (currentEpoch st = currentEpoch st') as Eq by lia. rewrite <- Eq in *. rewrite <- H2 by done.
      destruct (Hfirst eq_refl) as [Hn|Hr]; [|done]. exfalso. apply Hnil. rewrite <- Hn, (H2 eq_refl).
      apply (i_asks _ Hi c' (currentEpoch st)), (i_asked _ Hi v), Hin.
    - subst st'. split; [done|intros; apply Hvotes; left; by apply Hok|]. intros e' c' [Hin|(? & _)]%Hvotes; [by apply Hok|done]. }
  split; [|split_and!; [done..|by exists st'|by left|intros ->; apply Hvotes; by right]].
  split.
  - intros w Hw. destruct (decide (w = v)) as [->|Hne]; [by exists st'|]. destruct (i_voter _ Hi w Hw) as (stw & Ew & Hw').
    exists stw. rewrite Hother by done. split; [done|]. split; [apply Hw'|intros; apply Hvotes; left; by apply Hw'|].
    intros e' c' [Hin|(_ & -> & _)]%Hvotes; [by apply Hw'|done].
  - intros c' Hc'. eapply known_mono; [|apply (l_epoch _ _ Hlater), (i_round _ Hi c' Hc')]. intros stc (st0 & ? & ?). change (rounds s') with (rounds s). lia.
  - intros w e' c1 c2 [H1|(-> & -> & -> & ->)]%Hvotes [H2|(Hg2 & ? & ? & ?)]%Hvotes; subst; [by eapply i_once| | |done].
    + destruct Hg as (He' & Hr & _). subst. destruct (vo_past _ _ _ Hvo (currentEpoch st') c1) as [_ ->]; [apply Hvotes; by left|done..].
    + destruct Hg as (He' & Hr & _). subst. destruct (vo_past _ _ _ Hvo (currentEpoch st') c2) as [_ <-]; [apply Hvotes; by left|done..].
  - intros w e' c' [H1|(_ & -> & -> & ->)]%Hvotes; [|split; [done|by left]].
    apply (i_asked _ Hi) in H1 as [? ?]. split; [done|by right].
  - intros c' e' [[= -> ->]|(H1 & H2 & H3)%(i_asks _ Hi)]%elem_of_cons; (split_and!; [done..|]); [|by eapply later_epoch].
    destruct Ha as [->|Ha]; [by exists st'|by eapply later_epoch].
  - intros c' Hs. right. by apply (i_self _ Hi).
  - intros c' w Hw. apply Hvotes. left. by apply (i_grants _ Hi).
  - intros c' w Hw. destruct (i_refused _ Hi c' w Hw) as (H1 & H2 & H3). split_and!; [done..|]. by eapply later_epoch.
  - intros e' c' Hin. destruct (i_elected _ Hi _ _ Hin) as (G & H1 & H2). exists G. split; [done|]. intros w Hw. apply Hvotes. left. auto.
Qed.

(** A new round of one candidate. *)
Lemma put_round_inv (c : bytes) (rd : round) (s : election) :
  inv s -> r_epoch (rounds s c) <= r_epoch rd -> (c ∈ ids -> known s c (fun st => r_epoch rd <= currentEpoch st + 1)) -> (r_self rd = true -> (c, r_epoch rd) ∈ asks s) ->
  (forall v, v ∈ r_grants rd -> (v, r_epoch rd, c) ∈ votes s) ->
  (forall v, v ∈ r_refused rd -> c ∈ ids /\ v ∈ ids /\ known s v (fun st => r_epoch rd <= currentEpoch st)) ->
  inv (put_round c rd s).
Proof.
  intros Hi He Hrd Hs Hg Hr.
  assert (forall (Q : bytes -> round -> Prop) c', (c' = c -> Q c rd) -> (c' <> c -> Q c' (rounds s c')) -> Q c' (rounds (put_round c rd s) c')) as Hcase.
  { intros Q c' H1 H2. cbn. destruct (decide (c' = c)) as [->|Hne]; [rewrite fn_lookup_insert; auto|rewrite fn_lookup_insert_ne by done; auto]. }
  destruct Hi as [H1 H0 H2 H3 H4 H5 H6 H7 H8]. split.
  - intros v Hv. destruct (H1 v Hv) as (st & E & [? ? ?]). by exists st.
  - intros c' Hc'. apply (Hcase (fun c0 rd => known s c0 (fun st => 0 <= currentEpoch st /\ r_epoch rd <= currentEpoch st + 1)) c'); [|by intros; apply H0].
    intros ->. eapply known_mono; [|apply (known_both _ _ _ _ (H0 c Hc') (Hrd Hc'))]. cbn. tauto.
  - done.
  - done.
  - intros c' e Hin. destruct (H4 _ _ Hin) as (Ha & Hb & Hd). split_and!; [done| |done].
    cbn. destruct (decide (c' = c)) as [->|Hne]; [rewrite fn_lookup_insert; lia|by rewrite fn_lookup_insert_ne].
  - intros c'. apply (Hcase (fun c rd => r_self rd = true -> (c, r_epoch rd) ∈ asks s)); auto.
  - intros c'. apply (Hcase (fun c rd => forall v, v ∈ r_grants rd -> (v, r_epoch rd, c) ∈ votes s)); auto.
  - intros c'. apply (Hcase (fun c rd => forall v, v ∈ r_refused rd -> c ∈ ids /\ v ∈ ids /\ known s v (fun st => r_epoch rd <= currentEpoch st))); auto.
  - done.
Qed.

Lemma local_op_keeps (r r' : Registry) : local_op r r' ->
  forall st, masters r !! name = Some st -> exists st', masters r' !! name = Some st' /\
    currentEpoch st' = currentEpoch st /\ votedEpoch st' = votedEpoch st /\ votedRunID st' = votedRunID st.
Proof.
  assert (forall (n : bytes) (f : masterState -> masterState) (m : gmap bytes masterState) (st : masterState),
    (forall x, currentEpoch (f x) = currentEpoch x /\ votedEpoch (f x) = votedEpoch x /\ votedRunID (f x) = votedRunID x) ->
    m !! name = Some st -> exists st', alter f n m !! name = Some st' /\
      currentEpoch st' = currentEpoch st /\ votedEpoch st' = votedEpoch st /\ votedRunID st' = votedRunID st) as Halter.
  { intros n f m st Hf E. destruct (decide (n = name)) as [->|Hne].
    - exists (f st). rewrite lookup_alter_eq, E. by split; [|apply Hf].
    - exists st. by rewrite lookup_alter_ne. }
  intros Hl st E. destruct Hl; cbn.
  - rewrite lookup_fmap, E. eexists. split; [done|]. unfold record_probe. by repeat case_match.
  - rewrite lookup_fmap, E. eexists. split; [done|]. by case_match.
  - unfold AdoptMaster. repeat case_match; cbn; eauto 6; by apply Halter.
  - unfold ObserveMaster. repeat case_match; cbn; eauto 6; by apply Halter.
  - by apply Halter.
  - eauto 6.
Qed.

Lemma local_inv (v : bytes) (r : Registry) (s : election) : local_op (regs s v) r -> inv s -> inv (put_reg v r s).
Proof.
  intros Hl Hi.
  assert (forall w (P : masterState -> Prop), known s w P ->
    known (put_reg v r s) w (fun st' => exists st, P st /\ currentEpoch st' = currentEpoch st /\ votedEpoch st' = votedEpoch st /\ votedRunID st' = votedRunID st)) as Hk.
  { intros w P (st & E & HP). destruct (decide (w = v)) as [->|Hne].
    - destruct (local_op_keeps _ _ Hl st E) as (st' & E' & Heq). exists st'. cbn. rewrite fn_lookup_insert. eauto.
    - exists st. cbn. rewrite fn_lookup_insert_ne by done. eauto 7. }
  assert (forall w n, known s w (fun st => n <= currentEpoch st) -> known (put_reg v r s) w (fun st => n <= currentEpoch st)) as Hke.
  { intros w n Hw. eapply known_mono; [|apply Hk, Hw]. intros st (? & ? & ? & _). lia. }
  destruct Hi as [H1 H0 H2 H3 H4 H5 H6 H7 H8]. split; [| |exact H2|exact H3| |exact H5|exact H6| |exact H8].
  - intros w Hw. eapply known_mono; [|apply Hk, (H1 w Hw)]. intros st (st0 & [Ha Hb Hd] & E1 & E2 & E3).
    split; [congruence|rewrite E1, E3; exact Hb|]. rewrite E1, E3. exact Hd.
  - intros w Hw. eapply known_mono; [|apply Hk, (H0 w Hw)]. intros st (st0 & ? & ? & _). cbn. lia.
  - intros c e (? & ? & ?)%H4. auto.
  - intros c w (? & ? & ?)%H7. auto.
Qed.

(** The vote read for a refused request is a vote for the epoch asked. *)
Lemma read_vote (s : election) (c v : bytes) : c <> [] -> c <> lit "*" -> inv s -> v ∈ r_refused (rounds s c) ->
  bytes_eqb (reply_leader false c 0 (VotedFor (regs s v) name)).1 c = true -> (v, r_epoch (rounds s c), c) ∈ votes s.
Proof.
  intros Hn Hs Hi Hr. destruct (i_refused _ Hi _ _ Hr) as (Hc & Hv & Hk).
  destruct (known_both _ _ _ _ (i_voter _ Hi v Hv) Hk) as (st & E & Hok & Hle). unfold VotedFor. rewrite E. cbn.
  destruct (bytes_eqb_spec (votedRunID st) []); cbn; [by rewrite bytes_eqb_neq|].
  destruct (bytes_eqb_spec (votedRunID st) c) as [<-|]; [|done]. intros _.
  pose proof (vo_last _ _ _ Hok n) as Hin. destruct (i_asks _ Hi _ _ (proj2 (i_asked _ Hi _ _ _ Hin))) as (_ & Hle' & _).
  by replace (r_epoch _) with (currentEpoch st) by lia.
Qed.

Lemma estep_inv (s s' : election) : [] ∉ ids -> lit "*" ∉ ids -> estep s s' -> inv s -> inv s'.
Proof.
  intros Hnil Hstar Hstep Hi. destruct Hstep.
  - destruct (i_round _ Hi c ltac:(done)) as (st & Est & Hr). unfold VotedFor in *. rewrite Est in *. simplify_eq.
    unfold u64. rewrite Z.mod_small by lia. apply put_round_inv; cbn; [done|lia| |done|set_solver..]. intros _. exists st. split; [done|lia].
  - apply put_round_inv; cbn; [done|lia| |done|set_solver..]. intros ?. eapply known_mono; [|by apply (i_round _ Hi)]. cbn. tauto.
  - destruct (cast_inv c c (r_epoch (rounds s c)) s g s') as (Hi' & Hl & Er & Hk & Hin & Hg); [done..|by left|done|].
    apply put_round_inv; cbn; [done|rewrite Er; lia| |done| |set_solver].
    + intros _. eapply known_mono; [|exact Hk]. cbn. lia.
    + intros v Hv. destruct g; [|set_solver]. apply elem_of_singleton in Hv as ->. auto.
  - destruct (i_asks _ Hi _ _ (i_self _ Hi c ltac:(done))) as (_ & _ & Hown).
    destruct (cast_inv v c (r_epoch (rounds s c)) s g s') as (Hi' & Hl & Er & Hk & Hin & Hg); [done..|by right|done|].
    apply put_round_inv; cbn; [done|rewrite Er; lia| |done| |].
    + intros Hc. eapply known_mono; [|apply (later_epoch _ _ _ _ Hl Hown)]. cbn. lia.
    + intros w Hw. destruct g; [apply elem_of_union in Hw as [->%elem_of_singleton|Hw]; [auto|]|]; by apply (l_votes _ _ Hl), (i_grants _ Hi).
    + intros w Hw. assert (w = v \/ w ∈ r_refused (rounds s c)) as [->|Hw'] by (destruct g; set_solver); [done|].
      destruct (i_refused _ Hi _ _ Hw') as (? & ? & ?). split_and!; [done..|]. by eapply later_epoch.
  - destruct (i_refused _ Hi c v ltac:(done)) as [Hc _]. apply put_round_inv; cbn; [done|lia| |by apply (i_self _ Hi)| |].
    + intros ?. eapply known_mono; [|by apply (i_round _ Hi)]. cbn. tauto.
    + intros w Hw. case_match eqn:Eb; [|by apply (i_grants _ Hi)].
      apply elem_of_union in Hw as [->%elem_of_singleton|Hw]; [|by apply (i_grants _ Hi)].
      apply read_vote; [set_solver..|done|done|done].
    + intros w Hw. apply (i_refused _ Hi). set_solver.
  - destruct (i_asks _ Hi _ _ ltac:(done)) as (? & ? & ?). by apply (cast_inv v c e s g s'); [done..|right|].
  - by apply local_inv.
  - destruct Hi as [H1 Hrd H2 H3 H4 H5 H6 H7 H8]. split; [|exact Hrd|exact H2|exact H3|exact H4|exact H5|exact H6|exact H7|].
    + intros v Hv. destruct (H1 v Hv) as (st & E & [? ? ?]). by exists st.
    + intros e c' [[= -> ->]|Hin]%elem_of_cons; [|by apply H8]. exists (r_grants (rounds s c)). split; [lia|]. intros v. apply H6.
Qed.

(** *** Majorities meet *)

Lemma majorities_meet (g1 g2 : gset bytes) : g1 ⊆ ids -> g2 ⊆ ids ->
  Z.of_nat (size ids) < Z.of_nat (size g1) * 2 -> Z.of_nat (size ids) < Z.of_nat (size g2) * 2 -> exists v, v ∈ g1 /\ v ∈ g2.
Proof.
  intros H1 H2 Hs1 Hs2. destruct (decide (g1 ## g2)) as [Hd|Hd].
  - exfalso. assert (size (g1 ∪ g2) <= size ids)%nat by (apply subseteq_size; set_solver). rewrite size_union in * by done. lia.
  - destruct (set_choose_or_empty (g1 ∩ g2)) as [[v Hv]|He]; [exists v; set_solver|set_solver].
Qed.

(** The sentinels as they start. *)
Definition initial (s : election) : Prop :=
  (forall v, v ∈ ids -> exists sp, masters (regs s v) !! name = Some (new_master sp)) /\
  rounds s = (fun _ => no_round) /\ asks s = [] /\ votes s = [] /\ elected s = [].

Lemma initial_inv (s : election) : initial s -> inv s.
Proof.
  intros (H1 & H2 & H3 & H4 & H5). split; rewrite ?H2, ?H3, ?H4, ?H5; try (intros; set_solver).
  - intros v Hv. destruct (H1 v Hv) as [sp E]. exists (new_master sp). split; [done|]. split; [done|by cbn|]. rewrite H4. set_solver.
  - intros c Hc. destruct (H1 c Hc) as [sp E]. exists (new_master sp). split; [done|]. cbn. lia.
Qed.


End election.

(** *** A run *)

Definition three : gset bytes := {[lit "a"; lit "b"; lit "c"]}.
Definition three_spec : NodeSpec := mkSpec (lit "m") (lit "10.0.0.1:6379") [lit "10.0.0.2:6379"; lit "10.0.0.3:6379"] 2.
Definition three_start : election :=
  mkElection (fun _ => NewRegistry [three_spec] 1000) (fun _ => no_round) [] [] [].

Definition run_begin (c : bytes) (e : Z) (s : election) : election := put_round c (mkRound (u64 (e + 1)) false ∅ ∅) s.
Definition run_self (c : bytes) (s : election) : election :=
  let '(g, s') := cast (lit "m") c c (r_epoch (rounds s c)) s in
  put_round c (mkRound (r_epoch (rounds s c)) true ∅ (if g : bool then {[c]} else ∅)) s'.
Definition run_ask (c v : bytes) (s : election) : election :=
  let '(g, s') := cast (lit "m") v c (r_epoch (rounds s c)) s in put_round c (tally v g (negb g) (rounds s c)) s'.
Definition run_elect (c : bytes) (s : election) : election :=
  mkElection (regs s) (rounds s) (asks s) (votes s) ((r_epoch (rounds s c), c) :: elected s).

(** [a] and [b] both ask in epoch 1; [c] votes for [a], then refuses [b]. *)
Definition s1 : election := run_begin (lit "b") 0 (run_begin (lit "a") 0 three_start).
Definition s2 : election := run_self (lit "b") (run_self (lit "a") s1).
Definition s3 : election := run_ask (lit "b") (lit "c") (run_ask (lit "a") (lit "c") s2).
Definition s4 : election := run_elect (lit "a") s3.

Lemma three_ids (x : bytes) : x = lit "a" \/ x = lit "b" \/ x = lit "c" -> x ∈ three.
Proof. unfold three. rewrite !elem_of_union, !elem_of_singleton. tauto. Qed.

Lemma run_self_step (c : bytes) (s : election) : c ∈ three -> 0 < r_epoch (rounds s c) -> estep three (lit "m") s (run_self c s).
Proof. intros Hc He. unfold run_self. destruct (cast _ _ _ _ _) eqn:E. by eapply E_self. Qed.

Lemma run_ask_step (c v : bytes) (s : election) :
  c ∈ three -> v ∈ three -> r_self (rounds s c) = true -> estep three (lit "m") s (run_ask c v s).
Proof. intros Hc Hv Hs. unfold run_ask. destruct (cast _ _ _ _ _) eqn:E. by eapply E_ask. Qed.

Lemma three_run : rtc (estep three (lit "m")) three_start s4.
Proof.
  assert (lit "a" ∈ three /\ lit "b" ∈ three /\ lit "c" ∈ three) as (Ha & Hb & Hc) by (split_and!; apply three_ids; auto).
  eapply rtc_l; [apply (E_begin three (lit "m") (lit "a") three_start 0 []); [done|reflexivity|lia]|].
  eapply rtc_l; [apply (E_begin three (lit "m") (lit "b") (run_begin (lit "a") 0 three_start) 0 []); [done|reflexivity|lia]|].
  eapply rtc_l; [apply (run_self_step (lit "a") s1); [done|vm_compute; reflexivity]|].
  eapply rtc_l; [apply (run_self_step (lit "b") (run_self (lit "a") s1)); [done|vm_compute; reflexivity]|].
  eapply rtc_l; [apply (run_ask_step (lit "a") (lit "c") s2); [done..|vm_compute; reflexivity]|].
  eapply rtc_l; [apply (run_ask_step (lit "b") (lit "c") (run_ask (lit "a") (lit "c") s2)); [done..|vm_compute; reflexivity]|].
  eapply rtc_l; [apply (E_elect three (lit "m") (lit "a") s3); [done|vm_compute; congruence]|].
  apply rtc_refl.
Qed.


(** ** The choice of the replica *)

Lemma info_less_asym (a b : SlaveInfo) : info_less a b = true -> info_less b a = false.
Proof.
  unfold info_less. destruct a as [a1 a2 a3 a4 a5], b as [b1 b2 b3 b4 b5]. cbn. rewrite (Z.eqb_sym b2 a2), (Z.eqb_sym b3 a3).
  destruct (Z.eqb_spec a2 b2); cbn; [|rewrite Z.ltb_lt, Z.ltb_ge; lia].
  destruct (Z.eqb_spec a3 b3); cbn; [|rewrite Z.ltb_lt, Z.ltb_ge; lia].
  destruct (bytes_eqb_spec a4 b4) as [->|Hn]; [rewrite bytes_eqb_refl; apply bytes_ltb_asym|].
  rewrite bytes_eqb_neq by congruence. apply bytes_ltb_asym.
Qed.

Lemma info_nless_trans (a b c : SlaveInfo) : info_less b a = false -> info_less c b = false -> info_less c a = false.
Proof.
  unfold info_less. destruct a as [a1 a2 a3 a4 a5], b as [b1 b2 b3 b4 b5], c as [c1 c2 c3 c4 c5]. cbn.
  destruct (Z.eqb_spec b2 a2), (Z.eqb_spec c2 b2), (Z.eqb_spec c2 a2); cbn; rewrite ?Z.ltb_ge; try lia.
  destruct (Z.eqb_spec b3 a3), (Z.eqb_spec c3 b3), (Z.eqb_spec c3 a3); cbn; rewrite ?Z.ltb_ge; try lia.
  destruct (bytes_eqb_spec b4 a4), (bytes_eqb_spec c4 b4), (bytes_eqb_spec c4 a4); cbn; subst; try congruence;
    eauto using bytes_nltb_trans.
  intros H1 H2. pose proof (bytes_nltb_antisym _ _ H1 H2). congruence.
Qed.

Lemma SortSlaves_sorted (l : list SlaveInfo) : StronglySorted (fun a b => info_less b a = false) (SortSlaves l).
Proof. apply (isort_sorted _ (fun _ => True)); eauto using info_less_asym, info_nless_trans, Forall_true. Qed.

(** The replica chosen for promotion is an eligible one that no eligible
    replica beats by priority, offset, run id and address; the choice fails
    exactly when every replica is marked down or reports to be offline. *)
Theorem select_best (r : Registry) (name : bytes) (st : masterState) (infos : list SlaveInfo) :
  masters r !! name = Some st ->
  let cands := select_candidates (spSlaves (spec st)) infos in
  match SelectSlave r name infos with
  | Ok a => exists c, c ∈ cands /\ Addr c = a /\ eligible r c = true /\
              forall c', c' ∈ cands -> eligible r c' = true -> info_less c' c = false
  | Err e => e = ENoHealthySlave /\ forall c, c ∈ cands -> eligible r c = false
  | Panic => False
  end.
Proof.
  intros E cands. unfold SelectSlave. rewrite E. fold cands.
  assert (forall c, c ∈ List.filter (eligible r) (SortSlaves cands) <-> c ∈ cands /\ eligible r c = true) as Hin.
  { intros c. rewrite list_elem_of_In, filter_In, <- list_elem_of_In. unfold SortSlaves. by rewrite isort_perm. }
  pose proof (StronglySorted_filter _ (eligible r) _ (SortSlaves_sorted cands)) as Hs.
  destruct (List.filter (eligible r) (SortSlaves cands)) as [|c l].
  - split; [done|]. intros c Hc. destruct (eligible r c) eqn:Ee; [|done]. exfalso. by apply (not_elem_of_nil c), Hin.
  - exists c. destruct (proj1 (Hin c)) as [H1 H2]; [by left|]. split_and!; [done..|]. intros c' H3 H4.
    pose proof (proj2 (Hin c') (conj H3 H4)) as [->|H5]%elem_of_cons.
    + destruct (info_less c c) eqn:El; [|done]. by rewrite (info_less_asym _ _ El) in El.
    + apply StronglySorted_inv in Hs as [_ Hs]. rewrite List.Forall_forall in Hs. by apply Hs, list_elem_of_In.
Qed.

(** Three replicas: the one with the largest offset is marked down, of the
    others the one with the larger offset is chosen. *)
Definition four_spec : NodeSpec := mkSpec (lit "m") (lit "10.0.0.1:1") [lit "10.0.0.2:1"; lit "10.0.0.3:1"; lit "10.0.0.4:1"] 1.
Definition four_reg : Registry := RecordProbe (lit "10.0.0.1:1") false (RecordProbe (lit "10.0.0.2:1") false (NewRegistry [four_spec] 1000)).
Definition four_infos : list SlaveInfo :=
  [mkInfo (lit "10.0.0.2:1") 100 90 [] (lit "online"); mkInfo (lit "10.0.0.3:1") 100 50 [] (lit "online"); mkInfo (lit "10.0.0.4:1") 100 70 [] (lit "online")].

Lemma select_best_witness : exists st, masters four_reg !! lit "m" = Some st /\
  SelectSlave four_reg (lit "m") four_infos = Ok (lit "10.0.0.4:1") /\
  match SelectSlave four_reg (lit "m") four_infos with
  | Ok a => exists c, c ∈ select_candidates (spSlaves (spec st)) four_infos /\ Addr c = a /\ eligible four_reg c = true /\
              forall c', c' ∈ select_candidates (spSlaves (spec st)) four_infos -> eligible four_reg c' = true -> info_less c' c = false
  | Err e => e = ENoHealthySlave /\ forall c, c ∈ select_candidates (spSlaves (spec st)) four_infos -> eligible four_reg c = false
  | Panic => False
  end.
Proof.
  eexists. split; [reflexivity|]. split; [vm_compute; reflexivity|].
  apply (select_best four_reg (lit "m") _ four_infos eq_refl).
Defined.

(** ** The automatic switch *)

Definition reg_of (w : world node) : Registry := st_reg (w_kv w).
Definition keeps_reg {A} (m : M node A) : Prop := forall w, reg_of (m w).2 = reg_of w.

Create HintDb keeps discriminated.

Lemma keeps_ret {A} (a : A) : keeps_reg (mret a). Proof. done. Qed.
Lemma keeps_err {A} (e : goerr) : keeps_reg (merr (A := A) e). Proof. done. Qed.
Lemma keeps_lift {A} (r : result A) : keeps_reg (lift r). Proof. done. Qed.
Lemma keeps_reading {A} (f : Registry -> A) : keeps_reg (reading f). Proof. done. Qed.
Lemma keeps_publish (c v : bytes) : keeps_reg (publish c v). Proof. done. Qed.
Lemma keeps_now `{Clock} : keeps_reg (now (S := node)). Proof. done. Qed.
Lemma keeps_dial `{Wire} (addr req : bytes) : keeps_reg (dial addr req). Proof. done. Qed.

Lemma keeps_bind {A B} (m : M node A) (k : A -> M node B) : keeps_reg m -> (forall a, keeps_reg (k a)) -> keeps_reg (mbind m k).
Proof. intros Hm Hk w. unfold mbind. pose proof (Hm w) as Ew. destruct (m w) as [[a|e|] w']; cbn in *; [by rewrite Hk|done..]. Qed.

Lemma keeps_attempt {A} (m : M node A) : keeps_reg m -> keeps_reg (attempt m).
Proof. intros Hm w. unfold attempt. pose proof (Hm w) as Ew. by destruct (m w) as [[a|e|] w']. Qed.

#[export] Hint Resolve keeps_ret keeps_err keeps_lift keeps_reading keeps_publish keeps_now keeps_dial keeps_bind keeps_attempt : keeps.

(** Splits a handler into its steps. *)
Ltac keeps := repeat first [progress intros | apply keeps_bind | apply keeps_attempt | solve [auto with keeps] | case_match].

Section auto.
Context `{Wire} `{GoQuote} `{Clock} `{GoUnicode} `{GoFloat}.

Lemma keeps_read_line (b : bytes) : keeps_reg (read_line b).
Proof. unfold read_line. keeps. Qed.
Hint Resolve keeps_read_line : keeps.

Lemma keeps_sendReplicaof (addr : bytes) (args : list bytes) : keeps_reg (sendReplicaof addr args).
Proof. unfold sendReplicaof, dialAndSend. keeps. Qed.

Lemma keeps_FetchRole (addr : bytes) : keeps_reg (FetchRole addr).
Proof. unfold FetchRole, sendCmd. keeps. Qed.

Lemma keeps_InCooldown (name : bytes) (timeout : Z) : keeps_reg (InCooldown name timeout).
Proof. unfold InCooldown. keeps. Qed.
Hint Resolve keeps_sendReplicaof keeps_FetchRole keeps_InCooldown : keeps.

(** A run of [m] and then [k], seen on the registry. *)
Lemma bind_reg {A B} (m : M node A) (k : A -> M node B) (Q : Registry -> Prop) (w : world node) :
  keeps_reg m -> Q (reg_of w) -> (forall a w1, m w = (Ok a, w1) -> reg_of w1 = reg_of w -> Q (reg_of (k a w1).2)) -> Q (reg_of (mbind m k w).2).
Proof.
  intros Hm Hr Hk. unfold mbind. pose proof (Hm w) as Ew. destruct (m w) as [[a|e|] w1]; cbn in *; [by apply Hk|by rewrite Ew..].
Qed.

(** Runs the first step, which leaves the registry as it is. *)
Ltac reg_step := match goal with |- context [reg_of (mbind ?m ?k ?w).2] =>
  pattern (reg_of (mbind m k w).2); apply bind_reg; cbv beta; [unfold ignore; keeps|left; congruence|] end.

Lemma bind_tail {A B} (m : M node A) (k : A -> M node B) (w : world node) :
  (forall a, keeps_reg (k a)) -> reg_of (mbind m k w).2 = reg_of (m w).2.
Proof. intros Hk. unfold mbind. destruct (m w) as [[a|e|] w']; [apply Hk|done..]. Qed.

Lemma reading_ok {A} (f : Registry -> A) (w w' : world node) (a : A) : reading f w = (Ok a, w') -> a = f (reg_of w).
Proof. by intros [= <- <-]. Qed.

Lemma failoverTo_reg (name target : bytes) (w : world node) :
  let r := reg_of w in
  reg_of (failoverTo name target w).2 = r \/ exists t, reg_of (failoverTo name target w).2 = update_master name (switch_to target t) r.
Proof.
  intros r. assert (reg_of w = r) as Er0 by done. clearbody r. unfold failoverTo, with_state. reg_step. intros [st|] w1 _ Er1; [|left; cbn; congruence].
  reg_step. intros [u|e] w2 _ Er2; [|left; cbn; congruence]. destruct (default ([], []) (SplitHostPort target)) as [th tp].
  reg_step. intros dn w3 _ Er3. reg_step. intros u' w4 _ Er4. reg_step. intros t w5 _ Er5.
  right. exists t. unfold modify, writing, on_kv. cbn. change (st_reg (w_kv w5)) with (reg_of w5). congruence.
Qed.

(** An automatic step changes nothing of the registry, unless this
    sentinel is the leader, the master is objectively down by its own probe and
    the peers' votes, and there is an eligible replica; then the only change is
    that the best replica becomes the current master. *)
Theorem auto_switch_safe (name : bytes) (isLeader : bool) (peerDowns : Z) (infos : list SlaveInfo) (timeout : Z) (pub : bool) (w : world node) :
  let r := reg_of w in
  let r' := reg_of (AutoTick name isLeader peerDowns infos timeout pub w).2 in
  r' = r \/
  exists target, isLeader = true /\ IsObjectivelyDown r name peerDowns = true /\ SelectSlave r name infos = Ok target /\
    is_current r name target = false /\
    (r' = update_master name (set_current target) r \/ exists t, r' = update_master name (switch_to target t) r).
Proof.
  intros r. assert (reg_of w = r) as Er0 by done. clearbody r. cbv zeta. unfold AutoTick. destruct isLeader; [cbn [negb]|by left].
  reg_step. intros od w1 ->%reading_ok Er1. rewrite Er0.
  destruct (IsObjectivelyDown r name peerDowns) eqn:Eo; [cbn [negb]|left; cbn; congruence].
  reg_step. intros [] w2 _ Er2; [left; cbn; congruence|].
  reg_step. intros sel w3 ->%reading_ok Er3. assert (reg_of w2 = r) as -> by congruence.
  destruct (SelectSlave r name infos) as [target|e|] eqn:Es; [|left; cbn; congruence..].
  reg_step. intros a w4 [= <- <-] _. reg_step. intros same w5 ->%reading_ok Er5. assert (reg_of w3 = r) as Hr3 by congruence. rewrite Hr3.
  destruct (is_current r name target) eqn:Ec; [left; cbn; congruence|].
  reg_step. intros role w6 _ Er6. assert (reg_of w6 = r) as Er by congruence.
  destruct (match role with inl _ => _ | inr _ => _ end).
  - unfold writing, ObserveMaster, mbind, on_kv. cbn. change (st_reg (w_kv w6)) with (reg_of w6). rewrite Er.
    destruct (masters r !! name); [|by left]. destruct (bytes_eqb _ _); [by left|]. right. exists target. split_and!; [done..|by left].
  - reg_step. intros old w7 _ Er7. pose proof (failoverTo_reg name target w7) as Hf. rewrite Er7, Er in Hf.
    rewrite bind_tail by keeps. destruct Hf as [Hf|[t Hf]]; [by left|]. right. exists target. split_and!; [done..|right; by exists t].
Qed.

(** ** Sentinels talking to each other *)

(** A request for a vote over the wire: when the peer answers with what its
    handler answers, the candidate reads the peer's opinion and the leader the
    peer has voted for. *)
Lemma query_peer_wire `{RegistryRange} (n name peer host run : bytes) (port epoch : Z) (w wp : world node) (mname : bytes) :
  let r := reg_of wp in
  is_u64 epoch -> len run + 2 <= maxAlloc -> name_of_addr r host (Itoa port) = Some mname -> mname <> [] ->
  let '((granted, e'), r') := HandleVote mname epoch run r in
  let '(leader, le) := reply_leader granted run e' (VotedFor r' mname) in
  (exists e, le = FormatUint e /\ is_u64 e) -> len leader + 2 <= maxAlloc ->
  exists v, (isMasterDownByAddr (BulkOf host) (BulkOf (Itoa port)) (BulkOf (FormatUint epoch)) (BulkOf run) wp).1 = Ok v /\
  (wire (st_calls (w_kv w)) peer (request [lit "SENTINEL"; lit "IS-MASTER-DOWN-BY-ADDR"; host; Itoa port; FormatUint epoch; run]) = Ok (Append [] v) ->
   exists e w', QueryPeer peer host port epoch run name w = (Ok (IsSubjectivelyDown r (JoinHostPort host (Itoa port)), leader, e), w') /\
     reg_of w' = reg_of w).
Proof.
  intros r He Hrun Hname Hne. destruct (HandleVote mname epoch run r) as [[granted e'] r'] eqn:Ev.
  destruct (reply_leader granted run e' (VotedFor r' mname)) as [leader le] eqn:El. intros (e & -> & Hu) Hlen.
  set (flag := if IsSubjectivelyDown r (JoinHostPort host (Itoa port)) then lit "1" else lit "0").
  exists (bulks [flag; leader; FormatUint e]). split.
  - unfold isMasterDownByAddr. cbn [argString BulkOf from_option id]. rewrite ParseUint_FormatUint by done.
    unfold mbind at 1, reading at 1, on_kv at 1. cbn [w_kv]. change (st_reg (w_kv wp)) with r. rewrite Hname.
    destruct mname as [|x mname]; [done|]. unfold mbind, reading, writing, on_kv. cbn -[HandleVote reply_leader VotedFor JoinHostPort IsSubjectivelyDown].
    change (st_reg (w_kv wp)) with r. rewrite Ev. cbn -[reply_leader VotedFor]. by rewrite El.
  - intros Ew. exists e. eexists. split; [|].
    + unfold QueryPeer, sendCmd, dial. unfold mbind at 1. unfold mbind at 1. unfold on_kv at 1. rewrite Ew. cbn [fst snd].
      assert (Decode (Append [] (bulks [flag; leader; FormatUint e])) = Ok (bulks [flag; leader; FormatUint e], [])) as Ed.
      { rewrite <- (app_nil_r (Append _ _)). apply decode_wire; [|lia]. cbn -[FormatUint maxAlloc]. split; [done|].
        assert (payload_ok flag) by (unfold flag; case_match; done). pose proof (FormatUint_short e Hu). unfold payload_ok in *.
        change maxAlloc with 281474976710656 in *. split_and!; (done || lia). }
      unfold mbind, lift. rewrite Ed. cbn -[FormatUint ParseUint]. rewrite ParseUint_FormatUint by done.
      unfold mret. cbn -[FormatUint ParseUint]. f_equal. f_equal. f_equal. f_equal. unfold flag. by case_match.
    + done.
Qed.

End auto.

(** *** Gossip *)

Definition plain (s : bytes) : Prop := ","%char ∉ s.

Lemma FormatInt_plain (n : Z) : plain (FormatInt n).
Proof.
  unfold plain, FormatInt. destruct (n <? 0) eqn:E; breflect; [apply not_elem_of_cons; split; [done|]|];
    (apply digits_not_elem; [apply FormatUint_digits; lia|done]).
Qed.
Lemma FormatUint_plain (n : Z) : 0 <= n -> plain (FormatUint n).
Proof. intros Hn. apply digits_not_elem; [by apply FormatUint_digits|done]. Qed.

(** A hello is read back from its eight comma-separated fields. *)
Theorem hello_roundtrip `{GoQuote} (h : Hello) :
  Forall plain [IP h; Port h; RunID h; Master h; MasterIP h] -> is_u64 (Epoch h) -> is_i64 (MasterPort h) -> is_u64 (MasterEpoch h) ->
  ParseHello (Encode h) = Ok h.
Proof.
  intros Hp He Hm Hme. rewrite !Forall_cons in Hp. destruct Hp as (H1 & H2 & H3 & H4 & H5 & _). unfold ParseHello, Encode, comma. cbn [app].
  rewrite !SplitByte_app, SplitByte_none by first [done|apply FormatInt_plain|apply FormatUint_plain; unfold is_u64 in *; lia].
  unfold Atoi. rewrite !ParseUint_FormatUint, ParseInt_FormatInt by done. by destruct h.
Qed.

(** The peers of a table are kept under their run id with the largest epoch
    heard, whatever the order of arrival. *)
Lemma upsert_keeps_newest (hs : list Hello) (p : gmap bytes Hello) (h : Hello) :
  h ∈ hs -> exists h', foldl (fun p h => Upsert h p) p hs !! RunID h = Some h' /\ Epoch h <= Epoch h'.
Proof.
  assert (forall hs p rid e, (exists h', p !! rid = Some h' /\ e <= Epoch h') ->
    exists h', foldl (fun p h => Upsert h p) p hs !! rid = Some h' /\ e <= Epoch h') as Hkeep.
  { clear. induction hs as [|x hs IH]; intros p rid e Hp; cbn; [done|]. apply IH. destruct Hp as (h' & E & Hle).
    unfold Upsert. destruct (p !! RunID x) as [old|] eqn:Ex; [destruct (Z.ltb_spec (Epoch x) (Epoch old)); [by eauto|]|];
      (destruct (decide (RunID x = rid)) as [<-|Hne]; [rewrite lookup_insert_eq; eexists; split; [done|]|rewrite lookup_insert_ne by done; by eauto]).
    - rewrite Ex in E. simplify_eq. lia.
    - by rewrite Ex in E. }
  revert p. induction hs as [|x hs IH]; intros p Hin; [by apply elem_of_nil in Hin|]. cbn.
  apply elem_of_cons in Hin as [->|Hin]; [|by apply IH]. apply Hkeep. unfold Upsert.
  destruct (p !! RunID x) as [old|] eqn:Ex; [destruct (Z.ltb_spec (Epoch x) (Epoch old)); [exists old; split; [done|lia]|]|];
    (exists x; rewrite lookup_insert_eq; split; [done|lia]).
Qed.

(** ** Runs *)

Definition no_quote : GoQuote := {| quote := fun s => s |}.
#[local] Existing Instances ascii_tables zero_float step_clock no_quote.

(** Every node answers a request with an acknowledgement, or with the role of a
    replica when asked for its state. *)
Definition obedient : Wire := {| wire := fun _ _ req =>
  Ok (if bytes_eqb req (request info_replication) then Append [] (BulkOf (lit "role:slave" ++ CRLF)) else lit "+OK" ++ CRLF) |}.
Definition node_of (r : Registry) : world node := mkWorld (mkNode r 0 [] [] None None) 0 [] 0.

(** The master and one replica are down: the best of the others is promoted,
    and the event tells. *)
Example auto_failover_run :
  let '(res, w) := @AutoTick obedient no_quote step_clock ascii_tables zero_float (lit "m") true 0 four_infos 0 true (node_of four_reg) in
  res = Ok () /\ GetMasterAddr (reg_of w) (lit "m") = Some (lit "10.0.0.4", 1) /\
  st_sent (w_kv w) = [(lit "10.0.0.4:1", request info_replication); (lit "10.0.0.4:1", request (map lit ["REPLICAOF"; "NO"; "ONE"]))] /\
  st_pub (w_kv w) = [(lit "+switch-master", BulkOf (lit "m 10.0.0.1 1 10.0.0.4 1"))].
Proof. vm_compute. repeat split. Qed.

(** A sentinel that has just switched adopts the failed master again from a
    peer that has not noticed yet, since the peer's epoch is already higher:
    epochs grow with every tick of the automatic loop, switch or not. *)
Definition switched : Registry := update_master (lit "m") (switch_to (lit "10.0.0.4:1") 5) (HandleVote (lit "m") 5 (lit "a") four_reg).2.
Definition unaware : Registry := (HandleVote (lit "m") 6 (lit "b") (HandleVote (lit "m") 5 (lit "a") four_reg).2).2.
Definition by_order : RegistryRange := {| range_masters := map_to_list; range_peers := map_to_list |}.
Example stale_hello_reverts_switch :
  let w := (announce (lit "10.0.1.2") (lit "26379") (lit "b") [lit "m"] (node_of unaware)).2 in
  exists t h, st_pub (w_kv w) = [(helloChannel, BulkOf t)] /\ ParseHello t = Ok h /\
    GetMasterAddr switched (lit "m") = Some (lit "10.0.0.4", 1) /\
    GetMasterAddr (reg_of (hear h (node_of switched)).2) (lit "m") = Some (lit "10.0.0.1", 1).
Proof.
  eexists _, _. split; [vm_compute; reflexivity|]. split; [vm_compute; reflexivity|]. split; vm_compute; reflexivity.
Qed.

(** A peer given as a seed by its host name and heard of by its address is two
    peers, and votes twice. *)
Example seeded_peer_counted_twice :
  let p := Upsert (mkHello (lit "10.0.1.2") (lit "26379") (lit "b") 1 (lit "m") (lit "10.0.0.1") 6379 1) (SeedPeers [lit "sentinel-b:26379"] ∅) in
  peersExceptSelf (@Addrs ascii_tables by_order p) (lit "10.0.1.1:26379") = [lit "10.0.1.2:26379"; lit "sentinel-b:26379"] \/
  peersExceptSelf (@Addrs ascii_tables by_order p) (lit "10.0.1.1:26379") = [lit "sentinel-b:26379"; lit "10.0.1.2:26379"].
Proof. vm_compute. auto. Qed.

(** After a request with the largest epoch, a sentinel never votes for itself
    again: its next epoch is 0. *)
Example largest_epoch_ends_elections :
  let r := (HandleVote (lit "m") (2 ^ 64 - 1) (lit "x") four_reg).2 in
  let cand := u64 (snd (default ([], 0) (VotedFor r (lit "m"))) + 1) in
  cand = 0 /\ (HandleVote (lit "m") cand (lit "a") r).1 = (false, 2 ^ 64 - 1).
Proof. vm_compute. done. Qed.

End sentinelspec.
