(* ===== verification/CmdMigrate.v ===== *)
(** * MIGRATE (src/internal/commands/migrate.go)

    The command sends a key to another instance over a connection and deletes
    it here once the other side has accepted it.  The connection is a state
    [T] with two operations: [dial] opens it, [deliver] writes bytes to it and
    answers what arrives in return before the deadline, or that the write
    failed.  Nothing is assumed of them, so the other side may do anything. *)

From S2P Require Import Prelude GoLib GoStrings Resp Codec Kv Cmd CmdString CmdKeys CmdKeysSpec CmdDump Sentinel.
Open Scope Z_scope.
Open Scope gedis_scope.

Module migratecmd.
Import datastruct.
Import dumpcmd.

Record migrateOptions : Type := mkMigrate {
  host : bytes; port : bytes; key : bytes; timeout : Z; copy : bool; replace : bool; auth : list bytes;
}.
Definition set_copy (o : migrateOptions) : migrateOptions := mkMigrate (host o) (port o) (key o) (timeout o) true (replace o) (auth o).
Definition set_replace (o : migrateOptions) : migrateOptions := mkMigrate (host o) (port o) (key o) (timeout o) (copy o) true (auth o).
Definition set_auth (o : migrateOptions) (a : list bytes) : migrateOptions := mkMigrate (host o) (port o) (key o) (timeout o) (copy o) (replace o) a.

Fixpoint migrate_options `{GoUnicode} (strs : list bytes) (o : migrateOptions) {struct strs} : migrateOptions + Value :=
  match strs with
  | [] => inl o
  | s :: rest =>
      let u := ToUpper s in
      if bytes_eqb u (lit "COPY") then migrate_options rest (set_copy o)
      else if bytes_eqb u (lit "REPLACE") then migrate_options rest (set_replace o)
      else if bytes_eqb u (lit "AUTH") then
        match auth o, rest with [], pass :: rest => migrate_options rest (set_auth o [pass]) | _, _ => inr (errS "ERR syntax error") end
      else if bytes_eqb u (lit "AUTH2") then
        match auth o, rest with [], user :: pass :: rest => migrate_options rest (set_auth o [user; pass]) | _, _ => inr (errS "ERR syntax error") end
      else inr (errS "ERR syntax error")
  end.

Definition parseMigrateArgs `{GoUnicode} (args : list Value) : migrateOptions + Value :=
  if len args <? 5 then inr (wrong_args "migrate")
  else match mapM argString args with
  | None => inr (errS "ERR invalid argument")
  | Some (h :: p :: k :: d :: t :: strs) =>
      match Atoi p, Atoi d with
      | Some _, Some db =>
          if negb (db =? 0) then inr (errS "ERR SELECT is not allowed in cluster mode")
          else match Atoi t with
          | Some ms => if ms <=? 0 then inr (errS "ERR timeout is not an integer or out of range")
                       else migrate_options strs (mkMigrate h p k (i64 (ms * 1000000)) false false [])
          | None => inr (errS "ERR timeout is not an integer or out of range")
          end
      | _, _ => inr err_int
      end
  | Some _ => inr (wrong_args "migrate")
  end.

(** ** The conversation with the target *)

Section target.
Context `{GoUnicode} `{GoFloat} {T : Type} (dial : bytes -> Z -> T -> bool * T) (deliver : bytes -> T -> option bytes * T).

(** The other side, and what has arrived and is not yet read. *)
Definition N (A : Type) : Type := T * bytes -> result A * (T * bytes).
Definition nbind {A B : Type} (m : N A) (k : A -> N B) : N B := fun s =>
  match m s with (Ok a, s') => k a s' | (Err e, s') => (Err e, s') | (Panic, s') => (Panic, s') end.

Definition ioerr (what : string) : goerr := EMsg (lit "IOERR " ++ lit what).
Definition send (v : Value) : N unit := fun s =>
  match deliver (Append [] v) s.1 with
  | (Some back, p) => (Ok (), (p, s.2 ++ back))
  | (None, p) => (Err (ioerr "error or timeout writing to target instance"), (p, s.2))
  end.
Definition receive : N Value := fun s =>
  match Resp.Decode s.2 with
  | Ok (v, rest) => (Ok v, (s.1, rest))
  | Err _ => (Err (ioerr "error or timeout reading from target instance"), s)
  | Panic => (Panic, s)
  end.
Definition ask (v : Value) (k : Value -> N unit) : N unit := nbind (send v) (fun _ => nbind receive k).
Definition refused (v : Value) (k : N unit) : N unit := match v with VError s => fun st => (Err (EMsg s), st) | _ => k end.

Definition restore_frame (o : migrateOptions) (payload : bytes) (ttl : Z) : Value :=
  ArrayOf ([BulkOf (lit "RESTORE"); BulkOf (key o); BulkOf (FormatInt ttl); VBulkString (Some payload)] ++ (if replace o then [BulkOf (lit "REPLACE")] else [])).

Definition accepted (v : Value) : N unit :=
  refused v (fun st => (match v with VSimpleString s => if bytes_eqb s (lit "OK") then Ok () else Err (ioerr "unexpected reply from target instance")
                        | _ => Err (ioerr "unexpected reply from target instance") end, st)).

Definition sendRestore (o : migrateOptions) (payload : bytes) (ttl : Z) (p : T) : result unit * T :=
  let '(up, p) := dial (JoinHostPort (host o) (port o)) (timeout o) p in
  if negb up then (Err (ioerr "error or timeout connecting to target instance"), p)
  else
    let rest : N unit := ask (ArrayOf [BulkOf (lit "ASKING")]) (fun _ => ask (restore_frame o payload ttl) accepted) in
    let '(r, s) := (match auth o with
                    | [] => rest
                    | a => ask (ArrayOf (BulkOf (lit "AUTH") :: map BulkOf a)) (fun v => refused v rest)
                    end) (p, []) in
    (r, s.1).

(** ** The command *)

Context {S : Type} `{KV S} `{Clock}.

Definition remaining (e : Entry) : M S Z :=
  if Expiry e =? 0 then mret 0
  else let! t := now in let ttl := Z.quot (i64 (Expiry e - t)) 1000000 in mret (if ttl <? 0 then 0 else ttl).

Definition migrate (args : list Value) (p : T) : M S (Value * T) :=
  match parseMigrateArgs args with
  | inr v => mret (v, p)
  | inl o =>
      let! r := attempt (lookupRaw (key o)) in
      match r with
      | inr e => mret (if isNotFound e then VSimpleString (lit "NOKEY") else errValue e, p)
      | inl (raw, e) =>
          let! ttl := remaining e in
          match sendRestore o (Encode (Type_ e) (Expiry e) (Payload e)) ttl p with
          | (Panic, _) => mpanic
          | (Err x, p) => mret (errValue x, p)
          | (Ok _, p) =>
              if copy o then mret (okReply, p)
              else let! v := commit (kvDelete raw) (let! _ := Notify "g" (lit "del") (key o) in mret okReply) in mret (v, p)
          end
      end
  end.

End target.
(** ** Whatever the target does *)

Section safety.
Context `{GoUnicode} `{GoFloat} {T : Type} (dial : bytes -> Z -> T -> bool * T) (deliver : bytes -> T -> option bytes * T).

(** The target was sent the frame and, with it, an OK arrived; [p] is its
    state after. *)
Definition accepts (frame : Value) (p : T) : Prop :=
  exists p0 unread back rest, deliver (Append [] frame) p0 = (Some back, p) /\ Resp.Decode (unread ++ back) = Ok (okReply, rest).

Lemma ask_ok (v : Value) (k : Value -> N (T := T) unit) (s s' : T * bytes) : ask deliver v k s = (Ok (), s') ->
  exists back p reply rest, deliver (Append [] v) s.1 = (Some back, p) /\ Resp.Decode (s.2 ++ back) = Ok (reply, rest) /\ k reply (p, rest) = (Ok (), s').
Proof.
  unfold ask, nbind at 1, send. destruct (deliver _ _) as [[back|] p] eqn:Ed; [|done]. unfold nbind, receive. cbn [fst snd].
  destruct (Resp.Decode _) as [[reply rest]|e|] eqn:Er; [|done|done]. intros E. by exists back, p, reply, rest.
Qed.

Lemma accepted_ok (v : Value) (s s' : T * bytes) : accepted v s = (Ok (), s') -> v = okReply /\ s' = s.
Proof. unfold accepted, refused. destruct v; try done. destruct (bytes_eqb_spec s0 (lit "OK")) as [->|]; [|done]. by intros [= <-]. Qed.

Lemma asking_restore_ok (o : migrateOptions) (payload : bytes) (ttl : Z) (s s' : T * bytes) :
  ask deliver (ArrayOf [BulkOf (lit "ASKING")]) (fun _ => ask deliver (restore_frame o payload ttl) accepted) s = (Ok (), s') ->
  accepts (restore_frame o payload ttl) s'.1.
Proof.
  intros (b1 & p1 & r1 & u1 & _ & _ & (b2 & p2 & r2 & u2 & Ed & Er & [-> ->]%accepted_ok)%ask_ok)%ask_ok. by exists p1, u1, b2, u2.
Qed.

Lemma sendRestore_ok (o : migrateOptions) (payload : bytes) (ttl : Z) (p p' : T) :
  sendRestore dial deliver o payload ttl p = (Ok (), p') -> accepts (restore_frame o payload ttl) p'.
Proof.
  unfold sendRestore. destruct (dial _ _ p) as [[|] p1]; cbn [negb]; [|done]. destruct (auth o) as [|a l].
  - destruct (ask _ _ _ _) as [r s] eqn:E. intros [= -> <-]. by apply (asking_restore_ok _ _ _ _ _ E).
  - destruct (ask _ _ _ _) as [r s] eqn:E. intros [= -> <-]. apply ask_ok in E as (b & p2 & reply & u & _ & _ & E).
    unfold refused in E. destruct reply; try done; by apply (asking_restore_ok _ _ _ _ _ E).
Qed.

Context `{Clock}.

Lemma remaining_run (e : Entry) (w : world (gmap bytes bytes)) : exists ttl w', remaining e w = (Ok ttl, w') /\ w_kv w' = w_kv w /\ 0 <= ttl /\ is_i64 ttl /\ (Expiry e = 0 -> ttl = 0) /\
  (is_i64 (Expiry e - clock_ns (w_tick w)) -> 0 < Expiry e - clock_ns (w_tick w) -> Expiry e <> 0 -> ttl * 1000000 <= Expiry e - clock_ns (w_tick w) < (ttl + 1) * 1000000).
Proof.
  unfold remaining. destruct (Z.eqb_spec (Expiry e) 0) as [->|Hne]; [exists 0, w; unfold is_i64; naive_solver lia|]. unfold mbind, now, mret. cbv zeta. eexists _, _. split; [reflexivity|].
  split; [done|]. pose proof (i64_range (Expiry e - clock_ns (w_tick w))) as Hi. set (d := i64 _) in *. pose proof (Z.quot_rem' d 1000000) as Hq. pose proof (Z.rem_bound_abs d 1000000) as Hr.
  unfold is_i64 in *. destruct (Z.ltb_spec (Z.quot d 1000000) 0) as [Hn|Hn].
  - split; [done|]. split; [done|]. split; [done|]. intros Hj Hp _. unfold d in *. rewrite i64_id in * by done. pose proof (Z.quot_pos (Expiry e - clock_ns (w_tick w)) 1000000). lia.
  - split; [done|]. split; [lia|]. split; [done|]. intros Hj Hp _. unfold d in *. rewrite i64_id in * by done. pose proof (Z.rem_nonneg (Expiry e - clock_ns (w_tick w)) 1000000). lia.
Qed.

(** C12: MIGRATE never loses a key, whatever the other side does, answers or
    fails to answer: either the keyspace is as it was, or the reply is OK, the
    option COPY was not given, exactly the key's cell is deleted, and the target
    was sent a RESTORE of exactly the cell's type and value and answered it OK.
    A reply of OK always means that the target accepted the key. *)
Theorem migrate_never_loses (args : list Value) (o : migrateOptions) (p : T) (raw : bytes) (e : Entry) (w w1 w' : world (gmap bytes bytes)) (r : result (Value * T)) :
  parseMigrateArgs args = inl o -> find_key (key o) w = (Ok (raw, e), w1) -> migrate dial deliver args p w = (r, w') ->
  let sent := fun p' => exists ttl, 0 <= ttl /\ accepts (restore_frame o (Encode (Type_ e) (Expiry e) (Payload e)) ttl) p' in
  (w_kv w' = w_kv w1 \/ (copy o = false /\ w_kv w' = delete raw (w_kv w1) /\ exists p', r = Ok (okReply, p') /\ sent p')) /\
  (forall p', r = Ok (okReply, p') -> sent p').
Proof.
  intros Hp Hf Hm sent. revert Hm. unfold migrate. rewrite Hp. unfold mbind at 1, attempt at 1. rewrite lookupRaw_map, Hf. unfold mbind at 1.
  destruct (remaining_run e w1) as (ttl & w2 & -> & Hkv & Ht & _). destruct (sendRestore _ _ o _ ttl p) as [[[]|x|] p'] eqn:Es.
  - apply sendRestore_ok in Es. assert (sent p') as Hsent by (by exists ttl). destruct (copy o).
    + unfold mret. intros [= <- <-]. split; [by left|]. by intros q [= <-].
    + unfold commit, mbind, attempt, kvDelete, on_kv, Notify, mret. cbn. intros [= <- <-]. cbn. rewrite Hkv. split; [right; eauto|]. by intros q [= <-].
  - unfold mret. intros [= <- <-]. split; [by left|]. by intros q [=].
  - unfold mpanic. intros [= <- <-]. split; [by left|]. by intros q [=].
Qed.

End safety.
(** ** A target that runs this program's RESTORE *)

Section instance.
Context `{GoUnicode} `{GoFloat} (target_clock : Clock) (allow : list Value -> bool).
Notation W := (world (gmap bytes bytes)).

(** One request on a connection of the target. *)
Definition serve (frame : bytes) (w : W) : option bytes * W :=
  match Resp.Decode frame with
  | Ok (VArray (Some (VBulkString (Some name) :: args)), _) =>
      if bytes_eqb name (lit "RESTORE") then
        match @restore _ _ target_clock _ args w with
        | (Ok v, w') => (Some (Append [] v), w')
        | (_, w') => (Some [], w')
        end
      else if bytes_eqb name (lit "AUTH") then (Some (Append [] (if allow args then okReply else errS "WRONGPASS")), w)
      else (Some (Append [] okReply), w)
  | _ => (Some [], w)
  end.
Definition up : bytes -> Z -> W -> bool * W := fun _ _ w => (true, w).

Definition restored_expiry (ttl : Z) (w : W) : Z :=
  if ttl =? 0 then 0 else i64 (@clock_ns target_clock (w_tick w) + i64 (ttl * 1000000)).

Lemma restore_free (k : bytes) (ttl : Z) (e : Entry) (rep : bool) (w : W) :
  known_type (Type_ e) -> is_i64 (Expiry e) -> 0 <= ttl -> is_i64 ttl -> (forall p, p ∈ typePrefixes -> w_kv w !! (p ++ k) = None) ->
  exists w', @restore _ _ target_clock _ ([BulkOf k; BulkOf (FormatInt ttl); VBulkString (Some (Encode (Type_ e) (Expiry e) (Payload e)))] ++ (if rep then [BulkOf (lit "REPLACE")] else [])) w
      = (Ok okReply, w') /\ w_kv w' = <[restorePrefix (Type_ e) ++ k := Encode (Type_ e) (restored_expiry ttl w) (Payload e)]> (w_kv w).
Proof.
  intros Ht He H0t Hit Hfree. unfold restore, with_key. cbn [app BulkOf argString]. change (default [] (Some ?x)) with x. rewrite ParseInt_FormatInt by done.
  rewrite (proj2 (Z.ltb_ge _ _)) by lia. assert (restore_options (if rep then [BulkOf (lit "REPLACE")] else []) false false = Some (rep, false)) as -> by (by destruct rep).
  rewrite Decode_Encode_entry by done. cbn [Type_ Payload]. unfold known_type in Ht. destruct (restorePrefix (Type_ e)) as [|c pr]; [done|]. cbv zeta.
  unfold mbind at 1, attempt at 1. rewrite lookupRaw_map. unfold find_key. rewrite (proj2 (first_hit_none typePrefixes k (w_kv w)) Hfree).
  change (isNotFound ENotFound) with true. cbv iota. unfold mbind at 1, restore_expiry, restored_expiry.
  destruct (ttl =? 0); [|unfold mbind at 1, now]; unfold mret at 1, commit, mbind, attempt, kvSet, on_kv, Notify, mret; cbn; eexists; split; reflexivity.
Qed.

Lemma decode_append (v : Value) : wire_ok v -> Resp.Decode (Append [] v) = Ok (v, []).
Proof. intros Hv. pose proof (decode_wire v Hv (Datatypes.S (length (Append [] v ++ []))) []) as E. rewrite !app_nil_r in E. apply E. lia. Qed.

Lemma frame_wire (o : migrateOptions) (e : Entry) (ttl : Z) :
  len (key o) + len (Payload e) < 2 ^ 30 -> is_i64 ttl -> wire_ok (restore_frame o (Encode (Type_ e) (Expiry e) (Payload e)) ttl).
Proof.
  intros Hlen Ht. pose proof (FormatInt_short ttl Ht) as Hf. pose proof (len_nonneg (key o)). pose proof (len_nonneg (Payload e)).
  assert (len (Encode (Type_ e) (Expiry e) (Payload e)) = 9 + len (Payload e)) as El.
  { unfold Encode. rewrite len_cons, len_app. unfold len at 1. unfold PutUint64BE. rewrite be_bytes_length. lia. }
  unfold restore_frame. destruct (replace o); cbn [app ArrayOf BulkOf wire_ok]; repeat split; unfold payload_ok; rewrite ?El;
    try (unfold maxAlloc; lia); done.
Qed.

Lemma serve_restore (o : migrateOptions) (e : Entry) (ttl : Z) (w : W) : let payload := Encode (Type_ e) (Expiry e) (Payload e) in
  wire_ok (restore_frame o payload ttl) -> known_type (Type_ e) -> is_i64 (Expiry e) -> 0 <= ttl -> is_i64 ttl -> (forall p, p ∈ typePrefixes -> w_kv w !! (p ++ key o) = None) ->
  exists w', serve (Append [] (restore_frame o payload ttl)) w = (Some (Append [] okReply), w') /\
    w_kv w' = <[restorePrefix (Type_ e) ++ key o := Encode (Type_ e) (restored_expiry ttl w) (Payload e)]> (w_kv w).
Proof.
  intros payload Hw Ht He H0t Hit Hfree. destruct (restore_free (key o) ttl e (replace o) w Ht He H0t Hit Hfree) as (w' & E & Hkv). exists w'. split; [|done].
  unfold serve. rewrite decode_append by done. unfold restore_frame, ArrayOf, BulkOf in *. cbn [app] in *.
  change (bytes_eqb (lit "RESTORE") (lit "RESTORE")) with true. cbv iota. fold payload in E. by rewrite E.
Qed.

Lemma ask_served (v reply : Value) (k : Value -> N (T := W) unit) (w w' : W) :
  serve (Append [] v) w = (Some (Append [] reply), w') -> wire_ok reply -> ask serve v k (w, []) = k reply (w', []).
Proof.
  intros Es Hr. unfold ask, nbind at 1, send. cbn [fst snd]. rewrite Es. unfold nbind, receive. cbn [fst snd app].
  by rewrite decode_append.
Qed.

Context `{Clock}.

(** MIGRATE to an instance of this program moves the key: when the
    instance lets the connection in and no type uses the name there, the reply is
    OK; the target holds the value under the name, with the same type, and with
    no expiry exactly when less than a millisecond (or no limit) was left, else
    with the whole milliseconds that were left from its own clock; and here
    exactly the key's cell is gone, unless COPY was given. *)
Theorem migrate_moves (args : list Value) (o : migrateOptions) (raw : bytes) (e : Entry) (w w1 t : W) :
  parseMigrateArgs args = inl o -> find_key (key o) w = (Ok (raw, e), w1) -> known_type (Type_ e) -> is_i64 (Expiry e) -> is_i64 (Expiry e - clock_ns (w_tick w1)) ->
  len (key o) + len (Payload e) < 2 ^ 30 -> (auth o = [] \/ (allow (map BulkOf (auth o)) = true /\ wire_ok (ArrayOf (BulkOf (lit "AUTH") :: map BulkOf (auth o))))) ->
  (forall p, p ∈ typePrefixes -> w_kv t !! (p ++ key o) = None) ->
  exists ttl t' w', migrate up serve args t w = (Ok (okReply, t'), w') /\
    w_kv w' = (if copy o then w_kv w1 else delete raw (w_kv w1)) /\
    w_kv t' = <[restorePrefix (Type_ e) ++ key o := Encode (Type_ e) (restored_expiry ttl t) (Payload e)]> (w_kv t) /\
    (Expiry e = 0 -> ttl = 0) /\
    (0 < Expiry e - clock_ns (w_tick w1) -> Expiry e <> 0 -> ttl * 1000000 <= Expiry e - clock_ns (w_tick w1) < (ttl + 1) * 1000000).
Proof.
  intros Hp Hf Ht He Hd Hlen Ha Hfree. destruct (remaining_run e w1) as (ttl & w2 & Er & Hkv & H0t & Hit & Hz & Hb).
  destruct (serve_restore o e ttl t (frame_wire o e ttl Hlen Hit) Ht He H0t Hit Hfree) as (t' & Es & Hkt).
  assert (wire_ok okReply) as Hok by (cbn; unfold line_ok; by apply (bool_decide_unpack _); vm_compute).
  assert (ask serve (ArrayOf [BulkOf (lit "ASKING")]) (fun _ => ask serve (restore_frame o (Encode (Type_ e) (Expiry e) (Payload e)) ttl) accepted) (t, []) = (Ok (), (t', []))) as Hask.
  { rewrite (ask_served _ okReply _ t t) by done. by rewrite (ask_served _ okReply _ t t'). }
  assert (sendRestore up serve o (Encode (Type_ e) (Expiry e) (Payload e)) ttl t = (Ok (), t')) as Hsend.
  { unfold sendRestore, up. cbn [negb]. destruct Ha as [->|[Hal Haw]]; [by rewrite Hask|]. destruct (auth o) as [|a l]; [by rewrite Hask|].
    rewrite (ask_served _ okReply _ t t); [change (refused okReply ?k) with k; by rewrite Hask| |done]. unfold serve. rewrite decode_append by done. unfold ArrayOf, BulkOf at 1. cbn [map] in Hal. cbv iota. change (bytes_eqb (lit "AUTH") (lit "RESTORE")) with false. change (bytes_eqb (lit "AUTH") (lit "AUTH")) with true. cbv iota. cbn [map]. by rewrite Hal. }
  unfold migrate. rewrite Hp. unfold mbind at 1, attempt at 1. rewrite lookupRaw_map, Hf. unfold mbind at 1. rewrite Er, Hsend. exists ttl, t'.
  destruct (copy o); [unfold mret; eexists; split_and!; eauto|]. unfold commit, mbind, attempt, kvDelete, on_kv, Notify, mret. cbn. eexists. split; [reflexivity|]. cbn. rewrite Hkv. auto.
Qed.

End instance.
(** ** Runs *)

Section runs.
#[local] Instance mi_ascii : GoUnicode := ascii_tables.
#[local] Instance mi_float : GoFloat := zero_float.
#[local] Instance mi_clock : Clock := step_clock.

Definition migrate_k : list Value := map (fun s => BulkOf (lit s)) ["h"; "1"; "k"; "0"; "1000"]%string.
Definition k_opts : migrateOptions := mkMigrate (lit "h") (lit "1") (lit "k") 1000000000 false false [].
Definition holding (e : Entry) : world (gmap bytes bytes) := mkWorld {[restorePrefix (Type_ e) ++ lit "k" := Encode (Type_ e) (Expiry e) (Payload e)]} 0 [] 0.

(** A target that takes the bytes and never answers. *)
Lemma migrate_never_loses_witness :
  let w := holding (mkEntry TypeString 0 (lit "v")) in
  let w' := (migrate (fun _ _ p => (true, p)) (fun _ p => (Some [], p)) migrate_k () w).2 in
  w_kv w' = w_kv w \/ (copy k_opts = false /\ w_kv w' = delete (lit "s:k") (w_kv w) /\
     exists p' : unit, Ok (errS "IOERR error or timeout reading from target instance", ()) = Ok (okReply, p') /\
       exists ttl, 0 <= ttl /\ accepts (fun _ p => (Some [], p)) (restore_frame k_opts (Encode TypeString 0 (lit "v")) ttl) p').
Proof.
  refine (proj1 (migrate_never_loses (fun _ _ p => (true, p)) (fun _ p => (Some [], p)) migrate_k k_opts () (lit "s:k") (mkEntry TypeString 0 (lit "v"))
    (holding (mkEntry TypeString 0 (lit "v"))) (holding (mkEntry TypeString 0 (lit "v"))) _ (Ok (errS "IOERR error or timeout reading from target instance", ())) _ _ _)).
  - vm_compute. reflexivity.
  - vm_compute. reflexivity.
  - vm_compute. reflexivity.
Defined.

Lemma migrate_moves_witness :
  exists ttl t' w', migrate up (serve step_clock (fun _ => true)) migrate_k empty_world (holding (mkEntry TypeString 0 (lit "v"))) = (Ok (okReply, t'), w') /\
    w_kv w' = delete (lit "s:k") {[lit "s:k" := Encode TypeString 0 (lit "v")]} /\
    w_kv t' = <[lit "s:k" := Encode TypeString (restored_expiry step_clock ttl empty_world) (lit "v")]> ∅ /\ ttl = 0.
Proof.
  destruct (migrate_moves step_clock (fun _ => true) migrate_k k_opts (lit "s:k") (mkEntry TypeString 0 (lit "v")) (holding (mkEntry TypeString 0 (lit "v")))
    (holding (mkEntry TypeString 0 (lit "v"))) empty_world) as (ttl & t' & w' & E & Hw & Ht & Hz & _).
  - vm_compute. reflexivity.
  - vm_compute. reflexivity.
  - done.
  - unfold is_i64. cbn. lia.
  - vm_compute. split; [discriminate|reflexivity].
  - vm_compute. reflexivity.
  - by left.
  - intros p _. apply lookup_empty.
  - exists ttl, t', w'. split_and!; [exact E|exact Hw|exact Ht|by apply Hz].
Defined.

(** Less than half a millisecond is left, which is no whole millisecond, which
    RESTORE takes for no limit. *)
Example last_millisecond_becomes_forever :
  let r := (migrate up (serve step_clock (fun _ => true)) migrate_k empty_world (holding (mkEntry TypeString 500000 (lit "v")))).1 in
  match r with Ok (v, t) => v = okReply /\ w_kv t = {[lit "s:k" := Encode TypeString 0 (lit "v")]} | _ => False end.
Proof. vm_compute. split; reflexivity. Qed.

(** The field expiries of a hash are neither sent nor deleted. *)
Example migrate_leaves_field_expiries :
  let w := mkWorld {[HashKey (lit "k") := Encode TypeHash 0 (lit "payload"); HashExpKey (lit "k") := lit "deadlines"]} 0 [] 0 in
  match migrate up (serve step_clock (fun _ => true)) migrate_k empty_world w with
  | (Ok (v, t), w') => v = okReply /\ w_kv w' = {[HashExpKey (lit "k") := lit "deadlines"]} /\ w_kv t = {[HashKey (lit "k") := Encode TypeHash 0 (lit "payload")]}
  | _ => False
  end.
Proof. vm_compute. split_and!; reflexivity. Qed.

End runs.
End migratecmd.
