(* ===== verification/CmdRepl.v ===== *)
(** * The replication commands (src/internal/commands/replication.go)

    PSYNC with its full transfer, REPLCONF, WAIT, WAITAOF, REPLICAOF and
    FAILOVER on the master.  The handlers share the store, the hub and the
    table of replicas with every other connection: [others n] is what those do
    before the handler's n-th access.  A sender goroutine takes batches from
    its channel and writes them to its connection ([sent]). *)

From S2P Require Import Prelude GoLib GoStrings Resp Codec Kv Cmd CmdString CmdKeys CmdKeysSpec Replication ReplicaClient Router Sentinel.
Open Scope Z_scope.
Open Scope gedis_scope.

Module replcmd.
Import replication.
Import replica (encodeOp, encodeOps, continue_reply, fullresync_reply).
Import keycmd (allUserKeys, add_names, scan_prefixes).
Import network (Ctx, c_conn, connId, Stats, SetMaster, ClearMaster).

(** [replicas]: the connections that have been synchronised, with the highest
    offset each has acknowledged; [sent]: what the sender of each subscription
    has written; [outbox]: the other frames written to replicas. *)
Record Master (S : Type) : Type := mkMaster {
  mkv : S; hub : Hub; replicas : gmap Z Z; senders : gmap Z Z; sent : gmap Z (list Op); outbox : list (Z * Value);
}.
Arguments mkMaster {S}. Arguments mkv {S}. Arguments hub {S}. Arguments replicas {S}. Arguments senders {S}. Arguments sent {S}. Arguments outbox {S}.

Section master.
Context {S : Type}.
Implicit Types m : Master S.

Definition set_mkv (s : S) m : Master S := mkMaster s (hub m) (replicas m) (senders m) (sent m) (outbox m).
Definition set_hub (h : Hub) m : Master S := mkMaster (mkv m) h (replicas m) (senders m) (sent m) (outbox m).
Definition set_replicas (r : gmap Z Z) m : Master S := mkMaster (mkv m) (hub m) r (senders m) (sent m) (outbox m).

(** [h.trackReplica(conn)] and the function it returns. *)
Definition trackReplica (conn : Z) m : Master S := set_replicas (<[conn := 0]> (replicas m)) m.
Definition untrack (conn : Z) m : Master S := set_replicas (delete conn (replicas m)) m.

(** [go h.sendLoop(conn, id, ch, untrack)]: the sender of subscription [id]
    writes to [conn]. *)
Definition start_sender (conn id : Z) m : Master S :=
  mkMaster (mkv m) (hub m) (replicas m) (<[id := conn]> (senders m)) (sent m) (outbox m).

Definition ackedCount (target : Z) m : Z := len (List.filter (fun p : Z * Z => target <=? p.2) (map_to_list (replicas m))).

Definition getack_frame : Value := ArrayOf [BulkOf (lit "REPLCONF"); BulkOf (lit "GETACK"); BulkOf (lit "*")].
(** One goroutine per replica writes the frame. *)
Definition broadcastGetack m : Master S :=
  mkMaster (mkv m) (hub m) (replicas m) (senders m) (sent m) (outbox m ++ map (fun p : Z * Z => (p.1, getack_frame)) (map_to_list (replicas m))).

Definition ack (conn off : Z) m : Master S :=
  match replicas m !! conn with Some old => if old <? off then set_replicas (<[conn := off]> (replicas m)) m else m | None => m end.

End master.

(** One round of sendLoop of the subscription: the next batch is written
    operation by operation; a failed write ends the loop, as the end of the
    channel does. *)
Section sender.
Context {S : Type} (write : bytes -> bool) `{GoFloat}.

Fixpoint write_ops (ops : list Op) : list Op * bool :=
  match ops with
  | [] => ([], true)
  | op :: ops => if write (Resp.Append [] (encodeOp op)) then let '(done, ok) := write_ops ops in (op :: done, ok) else ([], false)
  end.

Definition end_sender (conn id : Z) (m : Master S) : result (Master S) :=
  let? h := Unsubscribe (hub m) id in Ok (untrack conn (mkMaster (mkv m) h (replicas m) (delete id (senders m)) (sent m) (outbox m))).

(** [None]: the channel is empty and open, the loop waits. *)
Definition sendLoop (conn id : Z) (m : Master S) : option (result (Master S)) :=
  match chans (hub m) !! id with
  | None => None
  | Some c =>
      match buf c with
      | [] => if closed c then Some (end_sender conn id m) else None
      | batch :: rest =>
          let '(done, ok) := write_ops batch in
          let m := mkMaster (mkv m) (set_subs (hub m) (subs (hub m)) (<[id := mkChan rest (closed c)]> (chans (hub m)))) (replicas m) (senders m)
                     (<[id := default [] (sent m !! id) ++ done]> (sent m)) (outbox m) in
          Some (if ok then Ok m else end_sender conn id m)
      end
  end.

End sender.

(** ** Access to the shared state *)

Record Shared (S : Type) : Type := mkShared { gap : nat; master : Master S }.
Arguments mkShared {S}. Arguments gap {S}. Arguments master {S}.

Section handlers.
Context {S : Type} `{KV S} `{Clock} `{GoUnicode} (others : nat -> Master S -> Master S) (masterID : bytes).

Definition access {A : Type} (f : Master S -> result A * Master S) (s : Shared S) : result A * Shared S :=
  let '(r, m) := f (others (gap s) (master s)) in (r, mkShared (Datatypes.S (gap s)) m).
Definition on_mkv {A : Type} (f : S -> result A * S) (m : Master S) : result A * Master S := let '(r, s) := f (mkv m) in (r, set_mkv s m).
(** A locked section. *)
Definition locked {A : Type} (f : Master S -> result A * Master S) : M (Shared S) A := on_kv (access f).
Definition read {A : Type} (f : Master S -> A) : M (Shared S) A := locked (fun m => (Ok (f m), m)).
Definition change (f : Master S -> Master S) : M (Shared S) unit := locked (fun m => (Ok (), f m)).
Definition on_hub {A : Type} (f : Hub -> result (A * Hub)) (m : Master S) : result A * Master S :=
  match f (hub m) with Ok (a, h) => (Ok a, set_hub h m) | Err e => (Err e, m) | Panic => (Panic, m) end.

#[local] Instance shared_kv : KV (Shared S) := {|
  kv_get k := access (on_mkv (kv_get k));
  kv_set k v := access (on_mkv (kv_set k v));
  kv_delete k := access (on_mkv (kv_delete k));
  kv_scan p := access (on_mkv (kv_scan p));
  kv_write_batch ops := access (on_mkv (kv_write_batch ops));
|}.

(** ** PSYNC *)

Fixpoint gather (raws : list bytes) : M (Shared S) (list RawEntry) :=
  match raws with
  | [] => mret []
  | k :: raws =>
      let! r := attempt (kvGet k) in
      match r with
      | inr e => if isNotFound e then gather raws else merr e
      | inl v => let! es := gather raws in mret (mkRaw k v :: es)
      end
  end.
Definition gatherRDB : M (Shared S) (list RawEntry) := let! names := allUserKeys in gather (map snd names).

Definition full_transfer (conn : Z) : M (Shared S) Value :=
  let! id := locked (on_hub (fun h => Ok (Subscribe h))) in
  let! r := attempt gatherRDB in
  match r with
  | inr e => let! _ := locked (on_hub (fun h => let? h := Unsubscribe h id in Ok ((), h))) in mret (errValue e)
  | inl entries =>
      let! _ := change (trackReplica conn) in
      let! _ := change (start_sender conn id) in
      let! latest := read (fun m => Latest (backlog (hub m))) in
      mret (fullresync_reply masterID latest entries)
  end.

Definition psync (ctx : Ctx) (args : list Value) : M (Shared S) Value :=
  match args with
  | [a; b] =>
      match c_conn ctx with
      | None => mret (errS "ERR PSYNC requires a connection")
      | Some c =>
          let conn := connId c in
          match argString a with
          | None => mret (errS "ERR invalid replication id")
          | Some replid =>
              match argString b with
              | None => mret (errS "ERR invalid offset")
              | Some offStr =>
                  match ParseInt offStr with
                  | None => mret err_int
                  | Some offset =>
                      if negb (bytes_eqb replid (lit "?")) && bytes_eqb replid masterID then
                        let! (id, missed) := locked (on_hub (fun h => SubscribeSince h offset)) in
                        if negb (id =? 0) then
                          let! _ := change (trackReplica conn) in
                          let! _ := change (start_sender conn id) in
                          mret (continue_reply masterID missed)
                        else full_transfer conn
                      else full_transfer conn
                  end
              end
          end
      end
  | _ => mret (wrong_args "psync")
  end.

(** ** REPLCONF, WAIT, WAITAOF, FAILOVER *)

Definition port_ok (s : bytes) : option Z := match Atoi s with Some p => if (p <=? 0) || (65535 <? p) then None else Some p | None => None end.

Definition replconf (ctx : Ctx) (args : list Value) : M (Shared S) Value :=
  let syntax : M (Shared S) Value := mret (errS "ERR syntax error") in
  match args with
  | [] => mret (wrong_args "replconf")
  | a :: rest =>
      match argString a with
      | None => syntax
      | Some sub =>
          let u := ToUpper sub in
          if bytes_eqb u (lit "LISTENING-PORT") then
            match rest with [p] => mret (match port_ok (arg_or_empty p) with Some _ => okReply | None => err_int end) | _ => syntax end
          else if bytes_eqb u (lit "CAPA") then match rest with [] => syntax | _ => mret okReply end
          else if bytes_eqb u (lit "ACK") then
            match rest with
            | [o] =>
                match ParseInt (arg_or_empty o) with
                | None => mret err_int
                | Some off =>
                    match c_conn ctx with
                    | None => mret (errS "ERR REPLCONF ACK requires a connection")
                    | Some c => let! _ := change (ack (connId c) off) in mret okReply
                    end
                end
            | _ => syntax
            end
          else if bytes_eqb u (lit "GETACK") then
            match rest with
            | [s] =>
                if bytes_eqb (arg_or_empty s) (lit "*") then
                  let! off := read (fun m => Latest (backlog (hub m))) in
                  mret (ArrayOf [BulkOf (lit "REPLCONF"); BulkOf (lit "ACK"); BulkOf (FormatInt off)])
                else syntax
            | _ => syntax
            end
          else syntax
      end
  end.

(** The two loops of WAIT: a round ends at [end_], the whole at [deadline];
    between two looks at the table the handler sleeps. *)
Fixpoint wait_loop (fuel : nat) (target num deadline end_ : Z) : M (Shared S) (option Value) :=
  match fuel with
  | O => mret None
  | Datatypes.S fuel =>
      let! t := now in
      if t <? end_ then
        let! n := read (ackedCount target) in
        if num <=? n then mret (Some (VInteger n)) else wait_loop fuel target num deadline end_
      else
        let! t := now in
        if negb (t <? deadline) then let! n := read (ackedCount target) in mret (Some (VInteger n))
        else
          let! _ := change broadcastGetack in
          let! t := now in
          let e := t + 100000000 in
          wait_loop fuel target num deadline (if deadline <? e then deadline else e)
  end.

(** [None]: still waiting when the rounds are used up. *)
Definition wait (fuel : nat) (args : list Value) : M (Shared S) (option Value) :=
  let reply (v : Value) : M (Shared S) (option Value) := mret (Some v) in
  match args with
  | [a; b] =>
      match argString a with
      | None => reply (errS "ERR syntax error")
      | Some ns =>
          match Atoi ns with
          | None => reply err_int
          | Some num =>
              if num <? 0 then reply err_int
              else match argString b with
              | None => reply (errS "ERR syntax error")
              | Some ts =>
                  match Atoi ts with
                  | None => reply err_int
                  | Some ms =>
                      if ms <? 0 then reply err_int
                      else if num =? 0 then reply (VInteger 0)
                      else
                        let! target := read (fun m => Latest (backlog (hub m))) in
                        let! n := read (ackedCount target) in
                        if num <=? n then reply (VInteger n)
                        else
                          let! t := now in
                          let deadline := t + i64 (ms * 1000000) in
                          let! _ := change broadcastGetack in
                          let! t := now in
                          let e := t + 100000000 in
                          wait_loop fuel target num deadline (if deadline <? e then deadline else e)
                  end
              end
          end
      end
  | _ => reply (wrong_args "wait")
  end.

Definition waitaof (args : list Value) : M (Shared S) Value :=
  let count (a : Value) (k : Z -> Value) : Value :=
    match argString a with
    | None => errS "ERR syntax error"
    | Some s => match Atoi s with Some n => if n <? 0 then err_int else k n | None => err_int end
    end in
  match args with
  | [a; b; c] =>
      mret (count a (fun numlocal => count b (fun _ => count c (fun _ =>
        if 0 <? numlocal then errS "ERR WAITAOF cannot be used when numlocal is set but appendonly is disabled."
        else ArrayOf [VInteger 1; VInteger 0]))))
  | _ => mret (wrong_args "waitaof")
  end.

Definition failover (args : list Value) : M (Shared S) Value :=
  match args with
  | [] =>
      let! n := read (fun m => SubCount (hub m)) in
      mret (if n =? 0 then errS "ERR FAILOVER requires connected replicas."
            else errS "ERR FAILOVER coordinated promotion not supported in static topology")
  | _ => mret (wrong_args "failover")
  end.

End handlers.

(** ** REPLICAOF: the address the client follows, the read-only switch and the
    statistics *)

Record Follower : Type := mkFollower { client : option bytes; readonly : bool; stats : Stats }.

Definition replicaof `{GoUnicode} (args : list Value) (f : Follower) : Value * Follower :=
  match args with
  | [a; b] =>
      match argString a, argString b with
      | Some first, Some second =>
          if EqualFold first (lit "NO") && EqualFold second (lit "ONE") then (okReply, mkFollower None false (ClearMaster (stats f)))
          else match port_ok second with
          | None => (err_int, f)
          | Some port => (okReply, mkFollower (Some (JoinHostPort first second)) true (SetMaster (stats f) first port))
          end
      | _, _ => (errS "ERR syntax error", f)
      end
  | _ => (wrong_args "replicaof", f)
  end.

End replcmd.
