(* ===== verification/CmdReplSpec.v ===== *)
(** * What the replication commands promise

    A full transfer reads the store key by key while other connections write;
    together with what the replica's channel carries it still gives the
    master's content.  WAIT answers. *)

From S2P Require Import Prelude GoLib GoStrings Resp Codec Kv Cmd CmdString CmdKeys CmdKeysSpec Replication ReplicaClient Router CmdRepl.
Open Scope Z_scope.
Open Scope gedis_scope.

Module repl_spec.
Import replication replcmd.
Import replica (entries_map, fullresync_reply).
Import keycmd (allUserKeys, add_names, scan_prefixes, stripTypePrefix).
Import keyspec (single, typed, strip_prefixed, elem_of_keys_with, prefix_inj).
Import network (Ctx, Conn, c_conn, connId).

Notation MM := (Master (gmap bytes bytes)).

(** ** What other connections do: write and publish, subscribe, unsubscribe,
    send from a channel, and change the table of replicas *)

Inductive mstep `{GoFloat} : MM -> MM -> Prop :=
| ms_write m op order off h :
    order ≡ₚ elements (subs (hub m)) -> Publish (hub m) op order = Ok (off, h) -> single (apply_op (mkv m) op) ->
    mstep m (set_mkv (apply_op (mkv m) op) (set_hub h m))
| ms_subscribe m id h : nextSub (hub m) + 1 < 2 ^ 63 -> Subscribe (hub m) = (id, h) -> mstep m (set_hub h m)
| ms_unsubscribe m id h : Unsubscribe (hub m) id = Ok h -> mstep m (set_hub h m)
| ms_start m conn id : mstep m (start_sender conn id m)
| ms_send m m' write conn id : sendLoop write conn id m = Some (Ok m') -> mstep m m'
| ms_replicas m r : mstep m (set_replicas r m)
| ms_outbox m o : mstep m (mkMaster (mkv m) (hub m) (replicas m) (senders m) (sent m) o).

(** The hub's table names the open channels; identifiers are handed out once. *)
Record master_ok (m : MM) : Prop := {
  mo_open : forall id, id ∈ subs (hub m) <-> is_open (chans (hub m)) id;
  mo_ids : forall id, is_Some (chans (hub m) !! id) -> 1 <= id <= nextSub (hub m);
  mo_next : 0 <= nextSub (hub m);
  mo_sent : forall id, is_Some (sent m !! id) -> is_Some (chans (hub m) !! id);
  mo_single : single (mkv m);
}.

(** The subscription [id] was made when the content was [kv0], [w] has been
    published since; as long as its channel is open, what its sender has sent and
    what the channel holds is [w]. *)
Record since (kv0 : gmap bytes bytes) (id : Z) (w : list Op) (m : MM) : Prop := {
  sc_ok : master_ok m;
  sc_kv : mkv m = apply_ops kv0 w;
  sc_id : id <= nextSub (hub m);
  sc_ops : forall c, chans (hub m) !! id = Some c -> closed c = false -> default [] (sent m !! id) ++ concat (buf c) = w;
}.

Lemma apply_op_offset (m : gmap bytes bytes) (op : Op) (off : Z) : apply_op m (set_offset op off) = apply_op m op.
Proof. done. Qed.

Lemma publish_inv (h h' : Hub) (op : Op) (order : list Z) (off : Z) :
  Publish h op order = Ok (off, h') -> exists b, broadcast (set_offset op off) order (set_backlog h b) = Ok h'.
Proof. unfold Publish. destruct (Append _ _) as [o b]. intros E. res_inv. simplify_eq. by exists b. Qed.

Section steps.
Context `{GoFloat} (kv0 : gmap bytes bytes) (id : Z).

Lemma write_since (w : list Op) (m : MM) (op : Op) (order : list Z) (off : Z) (h : Hub) : since kv0 id w m ->
  order ≡ₚ elements (subs (hub m)) -> Publish (hub m) op order = Ok (off, h) -> single (apply_op (mkv m) op) ->
  since kv0 id (w ++ [set_offset op off]) (set_mkv (apply_op (mkv m) op) (set_hub h m)).
Proof.
  intros [[Ho Hi Hn Hs Hsg] Hkv Hc Hops] P E Hsg'. apply publish_inv in E as [b E].
  destruct (broadcast_spec (set_offset op off) order (set_backlog (hub m) b)) as (h' & E' & _ & Hn' & Hch & Hsub).
  { rewrite P. apply NoDup_elements. }
  { intros j Hj. rewrite P, elem_of_elements in Hj. by apply Ho in Hj. }
  rewrite E in E'. apply Ok_inj in E'. subst h'. cbn [chans set_backlog nextSub subs] in *.
  assert (forall j, j ∈ order <-> j ∈ subs (hub m)) as Hord by (intros j; by rewrite P, elem_of_elements).
  assert (forall j, is_Some (chans h !! j) <-> is_Some (chans (hub m) !! j)) as Hsome.
  { intros j. rewrite Hch. case_bool_decide; [apply fmap_is_Some|done]. }
  split; [split|..]; cbn [hub mkv sent set_mkv set_hub].
  - intros j. rewrite Hsub. unfold is_open. rewrite Hch. split.
    + intros [Hj Hr]. destruct Hr as (c & Hcc & R); [by apply Hord|]. rewrite bool_decide_eq_true_2 by (by apply Hord). rewrite Hcc.
      exists (delivered (set_offset op off) c). split; [done|]. unfold delivered. by rewrite R.
    + case_bool_decide as Hj; intros (c & Hcc & Hcl).
      * split; [by apply Hord|]. intros _. apply fmap_Some in Hcc as (c0 & Hc0 & ->). exists c0. unfold delivered in Hcl. by destruct (room c0).
      * exfalso. apply Hj, Hord, Ho. by exists c.
  - intros j. rewrite Hsome, Hn'. apply Hi.
  - by rewrite Hn'.
  - intros j Hj. apply Hsome, Hs, Hj.
  - done.
  - rewrite apply_ops_app, <- Hkv. done.
  - by rewrite Hn'.
  - intros c Hcc Hcl. rewrite Hch in Hcc. case_bool_decide as Hid.
    + apply fmap_Some in Hcc as (c0 & Hc0 & ->). assert (is_open (chans (hub m)) id) as (c1 & Hc1 & Hcl1) by (by apply Ho, Hord).
      rewrite Hc0 in Hc1. injection Hc1 as <-. unfold delivered in *. destruct (room c0); [|done]. cbn [buf]. rewrite concat_app, app_assoc, (Hops c0) by done. done.
    + exfalso. apply Hid, Hord, Ho. by exists c.
Qed.

Lemma subscribe_since (w : list Op) (m : MM) (j : Z) (h : Hub) : since kv0 id w m -> nextSub (hub m) + 1 < 2 ^ 63 -> Subscribe (hub m) = (j, h) -> since kv0 id w (set_hub h m).
Proof.
  intros [[Ho Hi Hn Hs Hsg] Hkv Hc Hops] Hlt. rewrite Subscribe_fields, i64_id by (unfold is_i64; lia). intros [= <- <-].
  assert (chans (hub m) !! (nextSub (hub m) + 1) = None) as Hfresh.
  { apply eq_None_not_Some. intros X. apply Hi in X. lia. }
  assert (id <> nextSub (hub m) + 1) as Hne by lia.
  split; [split|..]; cbn [hub mkv sent set_hub chans subs nextSub].
  - intros i. unfold is_open. destruct (decide (i = nextSub (hub m) + 1)) as [->|N].
    + rewrite lookup_insert_eq. split; [|set_solver]. intros _. by eexists.
    + rewrite lookup_insert_ne by done. rewrite elem_of_union, elem_of_singleton, Ho. unfold is_open. tauto.
  - intros i. destruct (decide (i = nextSub (hub m) + 1)) as [->|N]; [lia|]. rewrite lookup_insert_ne by done. intros X. apply Hi in X. lia.
  - lia.
  - intros i X. apply Hs in X. destruct (decide (i = nextSub (hub m) + 1)) as [->|N]; [by rewrite lookup_insert_eq|by rewrite lookup_insert_ne].
  - done.
  - done.
  - lia.
  - rewrite lookup_insert_ne by done. apply Hops.
Qed.

Lemma unsubscribe_since (w : list Op) (m : MM) (j : Z) (h : Hub) : since kv0 id w m -> Unsubscribe (hub m) j = Ok h -> since kv0 id w (set_hub h m).
Proof.
  intros Hm. pose proof Hm as [[Ho Hi Hn Hs Hsg] Hkv Hc Hops]. unfold Unsubscribe. case_bool_decide as Hj; [|intros [= <-]; by destruct m].
  pose proof (proj1 (Ho j) Hj) as (c & Hcc & Hcl). rewrite (drop_sub_open _ _ c) by done. intros [= <-].
  assert (forall i, is_Some (<[j := mkChan (buf c) true]> (chans (hub m)) !! i) <-> is_Some (chans (hub m) !! i)) as Hsome.
  { intros i. destruct (decide (i = j)) as [->|N]; [|by rewrite lookup_insert_ne]. rewrite lookup_insert_eq, Hcc. split; by eexists. }
  split; [split|..]; cbn [hub mkv sent set_hub set_subs chans subs nextSub].
  - intros i. unfold is_open. destruct (decide (i = j)) as [->|N].
    + rewrite lookup_insert_eq. split; [set_solver|]. by intros (c' & [= <-] & Hx).
    + rewrite lookup_insert_ne by done. rewrite elem_of_difference, elem_of_singleton, Ho. unfold is_open. tauto.
  - intros i. rewrite Hsome. apply Hi.
  - done.
  - intros i X. by apply Hsome, Hs.
  - done.
  - done.
  - done.
  - intros c'. destruct (decide (id = j)) as [->|N]; [by rewrite lookup_insert_eq; intros [= <-]|]. rewrite lookup_insert_ne by done. apply Hops.
Qed.

(** The state after a batch has been taken and [done] of it written. *)
Definition taken (j : Z) (c : Chan) (rest : list (list Op)) (written : list Op) (m : MM) : MM :=
  mkMaster (mkv m) (set_subs (hub m) (subs (hub m)) (<[j := mkChan rest (closed c)]> (chans (hub m)))) (replicas m) (senders m) (<[j := default [] (sent m !! j) ++ written]> (sent m)) (outbox m).

Lemma taken_ok (j : Z) (c : Chan) (rest : list (list Op)) (written : list Op) (m : MM) :
  master_ok m -> chans (hub m) !! j = Some c -> master_ok (taken j c rest written m).
Proof.
  intros [Ho Hi Hn Hs Hsg] Hcc.
  assert (forall i, is_Some (<[j := mkChan rest (closed c)]> (chans (hub m)) !! i) <-> is_Some (chans (hub m) !! i)) as Hsome.
  { intros i. destruct (decide (i = j)) as [->|N]; [|by rewrite lookup_insert_ne]. rewrite lookup_insert_eq, Hcc. split; by eexists. }
  split; cbn [taken hub mkv sent set_subs chans subs nextSub]; [|intros i; rewrite Hsome; apply Hi|done| |done].
  - intros i. rewrite Ho. unfold is_open. destruct (decide (i = j)) as [->|N]; [rewrite lookup_insert_eq, Hcc; naive_solver|by rewrite lookup_insert_ne].
  - intros i X. apply Hsome. destruct (decide (i = j)) as [->|N]; [by rewrite Hcc|]. rewrite lookup_insert_ne in X by done. by apply Hs.
Qed.

Lemma write_ops_all (write : bytes -> bool) (ops : list Op) : (write_ops write ops).2 = true -> (write_ops write ops).1 = ops.
Proof. induction ops as [|op ops IH]; cbn [write_ops]; [done|]. destruct (write _); [|done]. destruct (write_ops write ops) as [d ok]. cbn in *. intros E. by rewrite IH. Qed.

Lemma end_since (w : list Op) (m m' : MM) (conn j : Z) : since kv0 id w m -> end_sender conn j m = Ok m' -> since kv0 id w m'.
Proof.
  intros Hm. unfold end_sender. destruct (Unsubscribe (hub m) j) as [h| |] eqn:E; cbn [res_bind]; [|done|done]. intros [= <-].
  pose proof (unsubscribe_since w m j h Hm E) as [[Ho Hi Hn Hs Hsg] Hkv Hc Hops]. by split; [split|..].
Qed.

(** A channel that is not [id]'s, or [id]'s when the whole batch is written. *)
Lemma taken_since (w : list Op) (j : Z) (c : Chan) (batch : list Op) (rest : list (list Op)) (written : list Op) (m : MM) :
  since kv0 id w m -> chans (hub m) !! j = Some c -> buf c = batch :: rest -> (j = id -> closed c = false -> written = batch) -> since kv0 id w (taken j c rest written m).
Proof.
  intros [Hok Hkv Hc Hops] Hcc Hb Hw. split; [by apply taken_ok|done|done|]; cbn [taken hub set_subs chans sent].
  intros c'. destruct (decide (id = j)) as [->|N]; [|rewrite !lookup_insert_ne by done; apply Hops]. rewrite !lookup_insert_eq. intros [= <-]. cbn [closed buf]. intros Hcl.
    rewrite (Hw eq_refl Hcl). rewrite <- (Hops c Hcc Hcl), Hb. change (default [] (Some ?x)) with x. cbn [concat]. by rewrite <- app_assoc.
Qed.

(** A failed write in the middle of a batch closes the channel. *)
Lemma cut_since (w : list Op) (conn : Z) (c : Chan) (batch : list Op) (rest : list (list Op)) (written : list Op) (m m' : MM) :
  since kv0 id w m -> chans (hub m) !! id = Some c -> buf c = batch :: rest -> end_sender conn id (taken id c rest written m) = Ok m' -> since kv0 id w m'.
Proof.
  intros [Hok Hkv Hc Hops] Hcc Hb. pose proof (taken_ok id c rest written m Hok Hcc) as Hok'. unfold end_sender, Unsubscribe.
  case_bool_decide as Hj; cbn [res_bind].
  - pose proof (proj1 (mo_open _ Hok' id) Hj) as (c1 & Hc1 & Hcl1). rewrite (drop_sub_open _ _ c1) by done. cbn [res_bind]. intros [= <-].
    destruct Hok' as [Ho Hi Hn Hs Hsg]. split; [split|..]; cbn [untrack set_replicas hub mkv sent set_subs chans subs nextSub taken] in *.
    + intros i. unfold is_open. destruct (decide (i = id)) as [->|N].
      * rewrite lookup_insert_eq. split; [set_solver|]. by intros (c' & [= <-] & Hx).
      * rewrite lookup_insert_ne by done. rewrite elem_of_difference, elem_of_singleton, Ho. unfold is_open. tauto.
    + intros i. destruct (decide (i = id)) as [->|N]; [intros _; apply Hi; rewrite lookup_insert_eq; by eexists|]. rewrite lookup_insert_ne by done. apply Hi.
    + done.
    + intros i X. destruct (decide (i = id)) as [->|N]; [by rewrite lookup_insert_eq|]. rewrite lookup_insert_ne by done. by apply Hs.
    + done.
    + done.
    + done.
    + rewrite lookup_insert_eq. by intros c' [= <-].
  - intros [= <-]. assert (closed c = true) as Hcl.
    { apply not_false_iff_true. intros Hcl. apply Hj, (mo_open _ Hok' id). exists (mkChan rest false). cbn [taken hub set_subs chans]. rewrite lookup_insert_eq, Hcl. done. }
    split; cbn [untrack set_replicas hub mkv sent taken set_subs chans].
    + by destruct Hok' as [Ho Hi Hn Hs Hsg]; split.
    + done.
    + done.
    + rewrite lookup_insert_eq. intros c' [= <-]. cbn. congruence.
Qed.

Lemma send_since (w : list Op) (m m' : MM) (write : bytes -> bool) (conn j : Z) : since kv0 id w m -> sendLoop write conn j m = Some (Ok m') -> since kv0 id w m'.
Proof.
  intros Hm. unfold sendLoop. destruct (chans (hub m) !! j) as [c|] eqn:Hcc; [|done]. destruct (buf c) as [|batch rest] eqn:Hb.
  - destruct (closed c); [|done]. intros [= E]. by apply (end_since w m m' conn j).
  - destruct (write_ops write batch) as [d ok] eqn:Ew. fold (taken j c rest d m). destruct ok.
    + intros [= <-]. apply (taken_since w j c batch rest d m Hm Hcc Hb). intros _ _. pose proof (write_ops_all write batch) as X. rewrite Ew in X. by apply X.
    + intros [= E]. destruct (decide (j = id)) as [->|N]; [by apply (cut_since w conn c batch rest d m m')|].
      apply (end_since w (taken j c rest d m) m' conn j); [|done]. by apply (taken_since w j c batch rest d m Hm Hcc Hb).
Qed.

Lemma mstep_since (w : list Op) (m m' : MM) : since kv0 id w m -> mstep m m' -> exists w', since kv0 id (w ++ w') m'.
Proof.
  intros Hm S. destruct S as [m op order off h P E Hsg|m j h Hlt E|m j h E|m conn j|m m' write conn j E|m r|m o].
  - exists [set_offset op off]. by eapply write_since.
  - exists []. rewrite app_nil_r. by eapply subscribe_since.
  - exists []. rewrite app_nil_r. by eapply unsubscribe_since.
  - exists []. rewrite app_nil_r. destruct Hm as [[] ? ? ?]. by split; [split|..].
  - exists []. rewrite app_nil_r. by eapply send_since.
  - exists []. rewrite app_nil_r. destruct Hm as [[] ? ? ?]. by split; [split|..].
  - exists []. rewrite app_nil_r. destruct Hm as [[] ? ? ?]. by split; [split|..].
Qed.

Lemma run_since (w : list Op) (m m' : MM) : since kv0 id w m -> rtc mstep m m' -> exists w', since kv0 id (w ++ w') m'.
Proof.
  intros Hm R. revert w Hm. induction R as [m|m m1 m' S _ IH]; intros w Hm; [exists []; by rewrite app_nil_r|].
  destruct (mstep_since w m m1 Hm S) as [w1 Hm1]. destruct (IH _ Hm1) as [w2 Hm2]. exists (w1 ++ w2). by rewrite app_assoc.
Qed.

End steps.

Lemma since_start (m : MM) : master_ok m -> since (mkv m) 0 [] m.
Proof.
  intros Hm. constructor; [done|done|apply (mo_next m Hm)|]. intros c Hc. assert (1 <= 0 <= nextSub (hub m)) by (apply (mo_ids m Hm); by exists c). lia.
Qed.

Lemma repl_run_ok `{GoFloat} (m m' : MM) : master_ok m -> rtc mstep m m' -> master_ok m'.
Proof. intros Hm R. by destruct (run_since (mkv m) 0 [] m m' (since_start m Hm) R) as [w [Hok _ _ _]]. Qed.

(** ** The full transfer *)

Lemma last_effect_app (k : bytes) (l1 l2 : list Op) : last_effect k (l1 ++ l2) = match last_effect k l2 with Some e => Some e | None => last_effect k l1 end.
Proof. induction l1 as [|op l1 IH]; cbn [app last_effect]; [by destruct (last_effect k l2)|]. rewrite IH. by destruct (last_effect k l2). Qed.

Lemma untouched_app (k : bytes) (l1 l2 : list Op) : last_effect k (l1 ++ l2) = None -> last_effect k l1 = None.
Proof. rewrite last_effect_app. by destruct (last_effect k l2). Qed.

Lemma untouched_value (kv0 : gmap bytes bytes) (id : Z) (w : list Op) (m : MM) (k : bytes) : since kv0 id w m -> last_effect k w = None -> mkv m !! k = kv0 !! k.
Proof. intros [_ -> _ _] Hk. by rewrite apply_ops_lookup, Hk. Qed.

Lemma entries_map_lookup (es : list RawEntry) (m : gmap bytes bytes) (k v : bytes) :
  (forall v', mkRaw k v' ∈ es -> v' = v) -> mkRaw k v ∈ es \/ m !! k = Some v -> entries_map m es !! k = Some v.
Proof.
  unfold entries_map. revert m. induction es as [|[k1 v1] es IH]; intros m Hall Hin; cbn [foldl].
  - by destruct Hin as [Hin%not_elem_of_nil|Hin].
  - cbn [rKey rValue]. apply IH; [intros v' Hv'; apply Hall; by right|]. destruct (decide (k1 = k)) as [->|N].
    + right. rewrite lookup_insert_eq. f_equal. apply Hall. by left.
    + rewrite lookup_insert_ne by done. destruct Hin as [Hin|Hin]; [|by right]. apply elem_of_cons in Hin as [[= <- <-]|Hin]; [done|by left].
Qed.

Lemma entries_map_none (es : list RawEntry) (m : gmap bytes bytes) (k : bytes) : (forall v, mkRaw k v ∉ es) -> entries_map m es !! k = m !! k.
Proof.
  unfold entries_map. revert m. induction es as [|[k1 v1] es IH]; intros m Hall; cbn [foldl]; [done|]. cbn [rKey rValue].
  rewrite IH by (intros v Hv; apply (Hall v); by right). apply lookup_insert_ne. intros ->. apply (Hall v1). by left.
Qed.

Section transfer.
Context `{GoFloat} `{Clock} (others : nat -> MM -> MM) (Hothers : forall n m, rtc mstep m (others n m)) (kv0 : gmap bytes bytes) (id : Z).
Notation W := (world (Shared (gmap bytes bytes))).
#[local] Existing Instance shared_kv.
#[local] Instance sh_kv : KV (Shared (gmap bytes bytes)) := shared_kv others.

Definition at_ (w : list Op) (x : W) : Prop := since kv0 id w (master (w_kv x)).

(** A read of the store: what others published before it, then the value. *)
Lemma get_run (w : list Op) (x : W) (k : bytes) : at_ w x -> exists w' x' m, since kv0 id (w ++ w') m /\ at_ (w ++ w') x' /\
  kvGet k x = (match mkv m !! k with Some v => Ok v | None => Err ENotFound end, x').
Proof.
  intros Hx. destruct (run_since kv0 id w _ _ Hx (Hothers (gap (w_kv x)) _)) as [w' Hm]. exists w'. unfold kvGet, on_kv, sh_kv, shared_kv, kv_get, access, on_mkv, map_kv.
  eexists _, (others (gap (w_kv x)) (master (w_kv x))). split; [done|]. split; [|reflexivity]. unfold at_. cbn. by destruct (others _ _).
Qed.

Lemma scan_run (w : list Op) (x : W) (p : bytes) : at_ w x -> exists w' x' m, since kv0 id (w ++ w') m /\ at_ (w ++ w') x' /\ kvScan p x = (Ok (keys_with p (mkv m)), x').
Proof.
  intros Hx. destruct (run_since kv0 id w _ _ Hx (Hothers (gap (w_kv x)) _)) as [w' Hm]. exists w'. unfold kvScan, on_kv, sh_kv, shared_kv, kv_scan, access, on_mkv, map_kv.
  eexists _, (others (gap (w_kv x)) (master (w_kv x))). split; [done|]. split; [|reflexivity]. unfold at_. cbn. by destruct (others _ _).
Qed.

(** The entries gathered hold the old value of every key that is not touched
    meanwhile. *)
Lemma gather_run (raws : list bytes) (w : list Op) (x : W) : at_ w x -> exists w' x' es, at_ (w ++ w') x' /\ gather others raws x = (Ok es, x') /\
  forall k, last_effect k (w ++ w') = None -> (forall v, mkRaw k v ∈ es -> kv0 !! k = Some v) /\ (forall v, k ∈ raws -> kv0 !! k = Some v -> mkRaw k v ∈ es).
Proof.
  revert w x. induction raws as [|r raws IH]; intros w x Hx; cbn [gather].
  - exists [], x, []. rewrite app_nil_r. split; [done|]. split; [done|]. intros k _. split; [by intros v ?%not_elem_of_nil|by intros v ?%not_elem_of_nil].
  - destruct (get_run w x r Hx) as (w1 & x1 & m & Hm & Hx1 & E). destruct (IH _ _ Hx1) as (w2 & x2 & es & Hx2 & E2 & Hes).
    exists (w1 ++ w2), x2. rewrite app_assoc. unfold mbind at 1, attempt at 1. change (kvGet r x) with (@kvGet _ (shared_kv others) r x) in E. rewrite E.
    destruct (mkv m !! r) as [v|] eqn:Ev.
    + exists (mkRaw r v :: es). split; [done|]. unfold mbind. rewrite E2. split; [done|]. intros k Hk. destruct (Hes k Hk) as [He1 He2].
      assert (r = k -> kv0 !! k = Some v) as Hr. { intros ->. rewrite <- (untouched_value kv0 id _ m k Hm); [done|]. by apply untouched_app in Hk. }
      split.
      * intros v' [[= -> ->]|Hin]%elem_of_cons; [by apply Hr|by apply He1].
      * intros v' [->|Hin]%elem_of_cons Hv'; [|right; by apply He2]. rewrite (Hr eq_refl) in Hv'. injection Hv' as ->. by left.
    + exists es. split; [done|]. change (isNotFound ENotFound) with true. cbv iota. split; [done|]. intros k Hk. destruct (Hes k Hk) as [He1 He2]. split; [done|].
      intros v' [->|Hin]%elem_of_cons Hv'; [|by apply He2]. rewrite <- (untouched_value kv0 id _ m r Hm), Ev in Hv'; [done|]. by apply untouched_app in Hk.
Qed.

Lemma add_names_spec (p : bytes) (ks seen : list bytes) (out : list (bytes * bytes)) : p ∈ typePrefixes -> (forall k, k ∈ ks -> exists name, k = p ++ name) ->
  let r := add_names ks seen out in
  (forall x, x ∈ out -> x ∈ r.2) /\ (forall name, p ++ name ∈ ks -> name ∉ seen -> (name, p ++ name) ∈ r.2) /\ (forall name, name ∈ r.1 -> name ∈ seen \/ p ++ name ∈ ks).
Proof.
  intros Hp. revert seen out. induction ks as [|k ks IH]; intros seen out Hks; cbn [add_names].
  - cbn. split; [done|]. split; [by intros name ?%not_elem_of_nil|by left].
  - destruct (Hks k) as [nm ->]; [by left|]. rewrite strip_prefixed by done. case_bool_decide as Hn.
    + destruct (IH seen out) as (H1 & H2 & H3); [intros k' Hk'; apply Hks; by right|]. split; [done|]. split.
      * intros name [E|Hin]%elem_of_cons Hns; [|by apply H2]. apply app_inv_head in E as ->. done.
      * intros name Hname. destruct (H3 name Hname); [by left|right; by right].
    + destruct (IH (nm :: seen) (out ++ [(nm, p ++ nm)])) as (H1 & H2 & H3); [intros k' Hk'; apply Hks; by right|]. split; [|split].
      * intros y Hy. apply H1, elem_of_app. by left.
      * intros name Hin Hns. destruct (decide (name = nm)) as [->|N]; [apply H1, elem_of_app; right; by left|].
        apply elem_of_cons in Hin as [E|Hin]; [by apply app_inv_head in E|]. apply H2; [done|]. by apply not_elem_of_cons.
      * intros name Hname. destruct (H3 name Hname) as [[->|?]%elem_of_cons|?]; [right; by left|by left|right; by right].
Qed.

(** Every key that is stored and not touched meanwhile is listed. *)
Lemma scan_prefixes_run (ps seen : list bytes) (out : list (bytes * bytes)) (w : list Op) (x : W) : at_ w x -> Forall (fun p => p ∈ typePrefixes) ps -> NoDup ps ->
  exists w' x' names, at_ (w ++ w') x' /\ scan_prefixes ps seen out x = (Ok names, x') /\ (forall y, y ∈ out -> y ∈ names) /\
    forall p name, p ∈ ps -> last_effect (p ++ name) (w ++ w') = None -> is_Some (kv0 !! (p ++ name)) -> name ∉ seen -> (name, p ++ name) ∈ names.
Proof.
  intros Hx Hps. revert seen out w x Hx. induction Hps as [|p ps Hp Hps IH]; intros seen out w x Hx Hnd; cbn [scan_prefixes].
  - exists [], x, out. rewrite app_nil_r. split; [done|]. split; [done|]. split; [done|]. by intros p name ?%not_elem_of_nil.
  - apply NoDup_cons in Hnd as [Hnp Hnd]. destruct (scan_run w x p Hx) as (w1 & x1 & m & Hm & Hx1 & E).
    destruct (add_names_spec p (keys_with p (mkv m)) seen out Hp) as (H1 & H2 & H3); [by intros k [_ Hk]%elem_of_keys_with|].
    unfold mbind. rewrite E. destruct (add_names _ seen out) as [seen' out'] eqn:Ea. cbn [fst snd] in *.
    destruct (IH seen' out' _ _ Hx1 Hnd) as (w2 & x2 & names & Hx2 & E2 & Hin & Hnames). exists (w1 ++ w2), x2, names. rewrite app_assoc. split; [done|]. split; [done|].
    split; [auto|]. intros q name Hq Hk Hs Hns.
    assert (is_Some (mkv m !! (q ++ name))) as Hmq by (rewrite (untouched_value kv0 id _ m _ Hm); [done|]; by apply untouched_app in Hk).
    apply elem_of_cons in Hq as [->|Hq]; [apply Hin, H2; [|done]; apply elem_of_keys_with; eauto|]. apply Hnames; [done..|].
    intros [X|[X _]%elem_of_keys_with]%H3; [done|]. rewrite Forall_forall in Hps.
    assert (p = q) as ->; [|done]. by apply (mo_single m (sc_ok _ _ _ _ Hm) p q name); [|apply Hps| |].
Qed.

Lemma gatherRDB_run (w : list Op) (x : W) : at_ w x -> exists w' x' es, at_ (w ++ w') x' /\ gatherRDB others x = (Ok es, x') /\
  forall k, typed k -> last_effect k (w ++ w') = None -> entries_map ∅ es !! k = kv0 !! k.
Proof.
  intros Hx. destruct (scan_prefixes_run typePrefixes [] [] w x Hx) as (w1 & x1 & names & Hx1 & E1 & _ & Hn); [by apply Forall_forall|apply (bool_decide_unpack _); vm_compute; exact I|].
  destruct (gather_run (map snd names) _ _ Hx1) as (w2 & x2 & es & Hx2 & E2 & Hes). exists (w1 ++ w2), x2, es. rewrite app_assoc. split; [done|]. split.
  - unfold gatherRDB, mbind, allUserKeys. change (shared_kv others) with sh_kv. by rewrite E1.
  - intros k (p & name & Hp & ->) Hk. destruct (Hes _ Hk) as [He1 He2]. destruct (kv0 !! (p ++ name)) as [v|] eqn:Ev.
    + apply entries_map_lookup.
      * intros v' Hv'. apply He1 in Hv'. congruence.
      * left. apply He2; [|done]. change (p ++ name) with (name, p ++ name).2. apply list_elem_of_fmap_2. apply Hn; [done| |by rewrite Ev|apply not_elem_of_nil]. by apply untouched_app in Hk.
    + rewrite entries_map_none; [by rewrite lookup_empty|]. intros v Hv. apply He1 in Hv. congruence.
Qed.

End transfer.

(** A new subscription has everything before it. *)
Lemma subscribe_starts (m : MM) (id : Z) (h : Hub) : master_ok m -> nextSub (hub m) + 1 < 2 ^ 63 -> Subscribe (hub m) = (id, h) -> since (mkv m) id [] (set_hub h m).
Proof.
  intros Hm Hlt E.
  pose proof (subscribe_since (mkv m) 0 [] m id h (since_start m Hm) Hlt E) as [Hok Hkv _ _]. pose proof (mo_next m Hm). revert E. rewrite Subscribe_fields, i64_id by (unfold is_i64; lia).
  intros [= <- <-]. split; [done|done|cbn; lia|]. cbn [hub set_hub chans sent]. rewrite lookup_insert_eq. intros c [= <-] _. cbn [buf concat]. rewrite app_nil_r.
  destruct (sent m !! (nextSub (hub m) + 1)) eqn:Es; [|done]. exfalso. destruct (mo_ids m Hm (nextSub (hub m) + 1)); [apply (mo_sent m Hm); by rewrite Es|lia].
Qed.

Section properties.
Context `{GoFloat} `{Clock} `{GoUnicode} (others : nat -> MM -> MM) (masterID : bytes).
Notation W := (world (Shared (gmap bytes bytes))).

(** A change of the replicas' table or of the senders keeps the subscription. *)
Lemma change_run (f : MM -> MM) (kv0 : gmap bytes bytes) (id : Z) (w : list Op) (x : W) : (forall n m, rtc mstep m (others n m)) -> at_ kv0 id w x ->
  (forall w m, since kv0 id w m -> since kv0 id w (f m)) ->
  exists w' x' m, at_ kv0 id (w ++ w') x' /\ change others f x = (Ok (), x') /\ master (w_kv x') = f m.
Proof.
  intros Ho Hx Hf. destruct (run_since kv0 id w _ _ Hx (Ho (gap (w_kv x)) _)) as [w' Hm]. exists w'. unfold change, locked, on_kv, access.
  eexists _, (others (gap (w_kv x)) (master (w_kv x))). split; [|split; [reflexivity|done]]. unfold at_. cbn. by apply Hf.
Qed.


(** ** WAIT *)

(** Time goes on. *)
Definition clock_unbounded : Prop := forall bound, exists N, forall n, (N <= n)%nat -> bound <= clock_ns n.

Lemma read_run {A : Type} (f : MM -> A) (x : W) : exists x', read others f x = (Ok (f (master (w_kv x'))), x') /\ w_tick x' = w_tick x.
Proof. by exists (mkWorld (mkShared (Datatypes.S (gap (w_kv x))) (others (gap (w_kv x)) (master (w_kv x)))) (w_tick x) (w_events x) (w_expired x)). Qed.

Lemma now_run (x : W) : exists x', now x = (Ok (clock_ns (w_tick x)), x') /\ w_tick x' = Datatypes.S (w_tick x) /\ master (w_kv x') = master (w_kv x).
Proof. by eexists. Qed.

Lemma wait_loop_answers (N fuel : nat) (target num deadline end_ : Z) (x : W) :
  (forall n, (N <= n)%nat -> deadline <= clock_ns n) -> end_ <= deadline -> (N < w_tick x + fuel)%nat -> (0 < fuel)%nat ->
  exists n x', wait_loop others fuel target num deadline end_ x = (Ok (Some (VInteger n)), x') /\ n = ackedCount target (master (w_kv x')) /\
    (num <= n \/ exists t, (t < w_tick x')%nat /\ deadline <= clock_ns t).
Proof.
  intros HN. revert end_ x. induction fuel as [|fuel IH]; intros end_ x Hend Hf Hpos; [lia|]. cbn [wait_loop].
  destruct (now_run x) as (x1 & E1 & T1 & _). unfold mbind at 1. rewrite E1. destruct (Z.ltb_spec (clock_ns (w_tick x)) end_) as [Hlt|Hge].
  - assert (w_tick x < N)%nat as Htick by (destruct (Nat.le_gt_cases N (w_tick x)) as [Hle|]; [apply HN in Hle; lia|done]).
    destruct (read_run (ackedCount target) x1) as (x2 & E2 & T2). unfold mbind at 1. rewrite E2. destruct (Z.leb_spec num (ackedCount target (master (w_kv x2)))) as [Hn|Hn].
    + exists (ackedCount target (master (w_kv x2))), x2. split; [done|]. split; [done|by left].
    + apply IH; [done|lia|lia].
  - destruct (now_run x1) as (x2 & E2 & T2 & _). unfold mbind at 1. rewrite E2. destruct (Z.ltb_spec (clock_ns (w_tick x1)) deadline) as [Hlt|Hdl]; cbn [negb].
    + assert (w_tick x1 < N)%nat as Htick by (destruct (Nat.le_gt_cases N (w_tick x1)) as [Hle|]; [apply HN in Hle; lia|done]).
      unfold mbind at 1, change, locked at 1, on_kv at 1, access at 1. unfold mbind at 1, now at 1. cbv zeta. apply IH; [case_match; breflect; lia|cbn; lia|lia].
    + destruct (read_run (ackedCount target) x2) as (x3 & E3 & T3). unfold mbind at 1. rewrite E3. exists (ackedCount target (master (w_kv x3))), x3.
      split; [done|]. split; [done|]. right. exists (w_tick x1). split; [lia|done].
Qed.

(** WAIT answers, whatever the replicas do, as long as time goes on: the
    answer is the number of replicas that have acknowledged the offset the
    backlog had when the command began, counted at the moment of the answer, and
    it is below the number asked for only when the deadline has passed. *)
Theorem wait_answers (a b : Value) (ns ts : bytes) (num ms : Z) (x : W) :
  clock_unbounded -> argString a = Some ns -> Atoi ns = Some num -> 0 < num -> argString b = Some ts -> Atoi ts = Some ms -> 0 <= ms ->
  let target := Latest (backlog (hub (others (gap (w_kv x)) (master (w_kv x))))) in
  exists fuel0, forall fuel, (fuel0 <= fuel)%nat -> exists n x', wait others fuel [a; b] x = (Ok (Some (VInteger n)), x') /\
    n = ackedCount target (master (w_kv x')) /\ (num <= n \/ exists t, (t < w_tick x')%nat /\ clock_ns (w_tick x) + i64 (ms * 1000000) <= clock_ns t).
Proof.
  intros Hcl Ha Hn Hn0 Hb Ht Ht0 target. destruct (Hcl (clock_ns (w_tick x) + i64 (ms * 1000000))) as [N HN]. exists (Datatypes.S N). intros fuel Hf.
  unfold wait. rewrite Ha, Hn, (proj2 (Z.ltb_ge _ _)), Hb, Ht, (proj2 (Z.ltb_ge _ _)), (proj2 (Z.eqb_neq _ _)) by lia. cbv zeta.
  unfold mbind at 1, read at 1, locked at 1, on_kv at 1, access at 1. fold target.
  set (x1 := mkWorld _ _ _ _). assert (w_tick x1 = w_tick x) as T1 by done. destruct (read_run (ackedCount target) x1) as (x2 & E2 & T2). unfold mbind at 1. rewrite E2.
  destruct (Z.leb_spec num (ackedCount target (master (w_kv x2)))) as [Hle|Hgt].
  - exists (ackedCount target (master (w_kv x2))), x2. split; [done|]. split; [done|by left].
  - destruct (now_run x2) as (x3 & E3 & T3 & _). unfold mbind at 1. rewrite E3, T2, T1. unfold mbind at 1, change, locked at 1, on_kv at 1, access at 1. unfold mbind at 1, now at 1. cbv zeta.
    apply (wait_loop_answers N); [done|case_match; breflect; lia|lia|lia].
Qed.

End properties.
(** ** Runs *)

Section runs.
#[local] Instance rp_float : GoFloat := zero_float.
#[local] Instance rp_clock : Clock := step_clock.
#[local] Instance rp_ascii : GoUnicode := ascii_tables.

(** Another connection writes before the [at]-th access. *)
Definition writes_at (at_gap : nat) (op : Op) (n : nat) (m : MM) : MM :=
  if Nat.eqb n at_gap && keyspec.singleb (apply_op (mkv m) op) then
    match Publish (hub m) op (elements (subs (hub m))) with
    | Ok (_, h) => set_mkv (apply_op (mkv m) op) (set_hub h m)
    | _ => m
    end
  else m.

Lemma writes_at_steps (at_gap : nat) (op : Op) (n : nat) (m : MM) : rtc mstep m (writes_at at_gap op n m).
Proof.
  unfold writes_at. destruct (Nat.eqb n at_gap && _) eqn:E; [|done]. apply andb_true_iff in E as [_ Hs]. destruct (Publish _ _ _) as [[off h]| |] eqn:Ep; [|done|done].
  apply rtc_once. by apply (ms_write m op (elements (subs (hub m))) off h); [|exact Ep|apply keyspec.singleb_ok].
Qed.

Definition fresh_master (m : gmap bytes bytes) : MM := mkMaster m (NewHub 16) ∅ ∅ ∅ [].
Definition shared (m : gmap bytes bytes) : world (Shared (gmap bytes bytes)) := mkWorld (mkShared 0 (fresh_master m)) 0 [] 0.
Definition from_replica (n : Z) : Ctx := network.mkCtx None (Some (network.mkConn n (lit "r:1"))) false.

Lemma fresh_master_ok (m : gmap bytes bytes) : single m -> master_ok (fresh_master m).
Proof.
  intros Hs. split; cbn; [|intros id; rewrite lookup_empty; by intros []|done|intros id; rewrite lookup_empty; by intros []|done].
  intros id. split; [set_solver|]. intros (c & Hc & _). by rewrite lookup_empty in Hc.
Qed.

Definition op_a : Op := mkOp 0 false (lit "s:a") (lit "1").


(** The clock of the runs ticks a nanosecond per reading. *)
Lemma wait_answers_witness :
  let x := shared ∅ in exists fuel0, forall fuel, (fuel0 <= fuel)%nat -> exists n x', wait (fun _ m => m) fuel [BulkOf (lit "1"); BulkOf (lit "0")] x = (Ok (Some (VInteger n)), x') /\
    n = ackedCount 0 (master (w_kv x')) /\ (1 <= n \/ exists t, (t < w_tick x')%nat /\ clock_ns 0 + i64 (0 * 1000000) <= clock_ns t).
Proof.
  apply (wait_answers (fun _ m => m) (BulkOf (lit "1")) (BulkOf (lit "0")) (lit "1") (lit "0") 1 0 (shared ∅)).
  - intros bound. exists (Z.to_nat bound). intros n Hn. cbn. lia.
  - reflexivity.
  - vm_compute. reflexivity.
  - lia.
  - reflexivity.
  - vm_compute. reflexivity.
  - lia.
Defined.

(** The offset a full transfer announces is read after the keys: an operation
    published in between is in neither the entries nor what follows the offset.
    A replica whose connection breaks before its sender has sent the operation
    asks to continue from that offset, is told that nothing is missing, and never
    gets the key. *)
Example announced_offset_skips_operation :
  let r1 := psync (writes_at 9 op_a) (lit "m") (from_replica 1) [BulkOf (lit "?"); BulkOf (lit "-1")] (shared ∅) in
  let r2 := psync (fun _ m => m) (lit "m") (from_replica 2) [BulkOf (lit "m"); BulkOf (lit "1")] r1.2 in
  r1.1 = Ok (fullresync_reply (lit "m") 1 []) /\ r2.1 = Ok (replica.continue_reply (lit "m") []) /\ mkv (master (w_kv r2.2)) = {[lit "s:a" := lit "1"]}.
Proof. vm_compute. done. Qed.

(** A name with two cells is transferred once: the field expiries of a hash are
    not sent. *)
Example full_resync_drops_field_expiries :
  (psync (fun _ m => m) (lit "m") (from_replica 1) [BulkOf (lit "?"); BulkOf (lit "-1")] (shared {[datastruct.HashKey (lit "k") := lit "h"; datastruct.HashExpKey (lit "k") := lit "deadlines"]})).1
  = Ok (fullresync_reply (lit "m") 0 [mkRaw (datastruct.HashKey (lit "k")) (lit "h")]).
Proof. vm_compute. reflexivity. Qed.

(** The sender is started before the reply is written; a replica that reads an
    operation in place of the reply gives the session up. *)
Example early_operation_ends_session (c : replica.Client (gmap bytes bytes)) : (replica.psync_reply c (replica.encodeOp op_a)).1 = Err (EMsg (lit "replication: bad psync reply")).
Proof. reflexivity. Qed.

End runs.
End repl_spec.
