(* ===== verification/Notify.v ===== *)
(** * Keyspace notifications and MONITOR
    (src/internal/commands/notify.go, monitor_stream.go)

    The handlers of the other files record the calls of Notify; here is what a
    call publishes under the configured classes, and the command stream that
    MONITOR connections receive through their pipes. *)

From S2P Require Import Prelude GoLib GoStrings Resp Cmd CmdKeys Acl Router Arity Conn Tracking Sentinel.
Open Scope Z_scope.
Open Scope gedis_scope.

Module notify.

(** ** The mask (notify.go) *)

Definition notifyK : Z := 1.
Definition notifyE : Z := 2.
Definition notifyG : Z := 4.
Definition notifyStr : Z := 8.
Definition notifyL : Z := 16.
Definition notifyS : Z := 32.
Definition notifyH : Z := 64.
Definition notifyZ : Z := 128.
Definition notifyT : Z := 256.
Definition notifyX : Z := 512.
Definition notifyEv : Z := 1024.

Definition classBit (class : ascii) : Z :=
  if Ascii.eqb class "g" then notifyG else if Ascii.eqb class "$" then notifyStr else if Ascii.eqb class "l" then notifyL
  else if Ascii.eqb class "s" then notifyS else if Ascii.eqb class "h" then notifyH else if Ascii.eqb class "z" then notifyZ
  else if Ascii.eqb class "t" then notifyT else if Ascii.eqb class "x" then notifyX else if Ascii.eqb class "e" then notifyEv else 0.

Definition lors (l : list Z) : Z := foldr Z.lor 0 l.

(** One letter; a rune beyond ASCII is refused, as each of its bytes is. *)
Definition letter (r : ascii) : option Z :=
  if Ascii.eqb r "K" then Some notifyK
  else if Ascii.eqb r "E" then Some notifyE
  else if Ascii.eqb r "A" then Some (lors [notifyG; notifyStr; notifyL; notifyS; notifyH; notifyZ; notifyT; notifyX; notifyEv])
  else if Ascii.eqb r "a" then Some (lors [notifyL; notifyS; notifyH; notifyZ; notifyT])
  else if existsb (Ascii.eqb r) ["d"; "m"; "n"; "o"; "c"]%char then Some 0
  else if classBit r =? 0 then None else Some (classBit r).

Fixpoint letters (s : bytes) (mask : Z) : option Z :=
  match s with
  | [] => Some mask
  | r :: s => match letter r with Some b => letters s (Z.lor mask b) | None => None end
  end.

(** The mask, the text it was set from, and whether a publisher is there. *)
Record NotifyCfg : Type := mkNotify { notifyMask : Z; notifyRaw : bytes; notifyPub : bool }.
Definition no_notify : NotifyCfg := mkNotify 0 [] false.

Definition SetNotifyString (s : bytes) (n : NotifyCfg) : result NotifyCfg :=
  match letters s 0 with
  | Some mask => Ok (mkNotify mask s (notifyPub n))
  | None => fail "ERR invalid notify-keyspace-events parameter"
  end.
Definition NotifyString (n : NotifyCfg) : bytes := notifyRaw n.
Definition SetNotifyPublisher (pub : bool) (n : NotifyCfg) : NotifyCfg := mkNotify (notifyMask n) (notifyRaw n) pub.

(** What one call of Notify publishes: channel and message. *)
Definition Notify (e : event) (n : NotifyCfg) : list (bytes * bytes) :=
  let mask := notifyMask n in
  if negb (notifyPub n) || (mask =? 0) then []
  else
    let cb := classBit (ev_class e) in
    if (cb =? 0) || (Z.land mask cb =? 0) then []
    else
      (if negb (Z.land mask notifyK =? 0) then [(lit "__keyspace@0__:" ++ ev_key e, ev_name e)] else []) ++
      (if negb (Z.land mask notifyE =? 0) then [(lit "__keyevent@0__:" ++ ev_name e, ev_key e)] else []).

Definition NotifyEvicted (rawKey : bytes) (n : NotifyCfg) : list (bytes * bytes) :=
  Notify (mkEvent "e" (lit "evicted") (keycmd.userKeyFromRaw rawKey)) n.

(** ** Which letters let an event through *)

(** The letters under which an event of a class is published. *)
Definition selects (class r : ascii) : bool :=
  Ascii.eqb r class || (Ascii.eqb r "A" && existsb (Ascii.eqb class) ["g"; "$"; "l"; "s"; "h"; "z"; "t"; "x"; "e"]%char) ||
  (Ascii.eqb r "a" && existsb (Ascii.eqb class) ["l"; "s"; "h"; "z"; "t"]%char).
Definition event_class (c : ascii) : bool := existsb (Ascii.eqb c) ["g"; "$"; "l"; "s"; "h"; "z"; "t"; "x"; "e"]%char.
Definition known (r : ascii) : bool := event_class r || existsb (Ascii.eqb r) ["K"; "E"; "A"; "a"; "d"; "m"; "n"; "o"; "c"]%char.

Ltac each_letter c := destruct c as [[] [] [] [] [] [] [] []]; vm_compute; try done.

Lemma letter_known (r : ascii) : is_Some (letter r) <-> known r = true.
Proof. each_letter r; solve [split; [done|by eexists]|split; [by intros []|done]]. Qed.

Lemma event_class_cases (c : ascii) : event_class c = true -> c ∈ ["g"; "$"; "l"; "s"; "h"; "z"; "t"; "x"; "e"]%char.
Proof. intros (x & Hx & ->%Ascii.eqb_eq)%existsb_exists. by apply list_elem_of_In. Qed.

Lemma letter_bit (r c : ascii) (b : Z) : letter r = Some b -> event_class c = true -> (negb (Z.land b (classBit c) =? 0)) = selects c r.
Proof.
  intros Hb Hc. apply event_class_cases in Hc. rewrite !elem_of_cons, elem_of_nil in Hc.
  destruct_or! Hc; subst; revert Hb; each_letter r; by intros [= <-].
Qed.

Lemma letter_flag (r : ascii) (b : Z) : letter r = Some b ->
  negb (Z.land b notifyK =? 0) = Ascii.eqb r "K" /\ negb (Z.land b notifyE =? 0) = Ascii.eqb r "E" /\ 0 <= b.
Proof. each_letter r; by intros [= <-]. Qed.

Lemma lor_land_zero (a b m : Z) : negb (Z.land (Z.lor a b) m =? 0) = negb (Z.land a m =? 0) || negb (Z.land b m =? 0).
Proof.
  rewrite Z.land_lor_distr_l. destruct (Z.land a m =? 0) eqn:E1; breflect.
  - rewrite E1, Z.lor_0_l. done.
  - cbn. apply negb_true_iff, Z.eqb_neq. intros Hz. apply Z.lor_eq_0_iff in Hz as [? _]. done.
Qed.

Lemma letters_spec (s : bytes) (mask mask' m : Z) (f : ascii -> bool) : letters s mask = Some mask' ->
  (forall r b, letter r = Some b -> negb (Z.land b m =? 0) = f r) ->
  negb (Z.land mask' m =? 0) = negb (Z.land mask m =? 0) || existsb f s.
Proof.
  intros E Hf. revert mask E. induction s as [|r s IH]; intros mask; cbn [letters existsb]; [intros [= ->]; by rewrite orb_false_r|].
  destruct (letter r) as [b|] eqn:Er; [|done]. intros E. rewrite (IH _ E), lor_land_zero, (Hf r b Er). by rewrite orb_assoc.
Qed.

Lemma letters_known (s : bytes) (mask : Z) : is_Some (letters s mask) <-> Forall (fun r => known r = true) s.
Proof.
  revert mask. induction s as [|r s IH]; intros mask; cbn [letters]; [split; [constructor|by eexists]|].
  rewrite Forall_cons, <- letter_known. destruct (letter r) as [b|]; [rewrite IH; split; [intros ?; split; [by eexists|done]|by intros []]|].
  split; [by intros []|by intros [[] _]].
Qed.

(** ** MONITOR (monitor_stream.go) *)

Import connpipe.
Import network (Ctx, mkCtx, c_conn, connId, remoteAddr, Conn).

Notation MonitorRegistry := (gmap Z ConnPipe).

Definition Monitor (c : Z) (mr : MonitorRegistry) : MonitorRegistry := match mr !! c with Some _ => mr | None => <[c := NewConnPipe]> mr end.
Definition Unmonitor (c : Z) (mr : MonitorRegistry) : MonitorRegistry := delete c mr.
Definition Count (mr : MonitorRegistry) : Z := Z.of_nat (base.size mr).
Definition mr_reset (mr : MonitorRegistry) : MonitorRegistry := ∅.

Definition Broadcast (frame : bytes) (mr : MonitorRegistry) : MonitorRegistry :=
  omap (fun p => let '(ok, p) := Enqueue frame p in if ok then Some p else None) mr.

Definition monitorSkip : list bytes :=
  map lit ["MONITOR"; "QUIT"; "RESET"; "AUTH"; "CONFIG"; "ACL"; "DEBUG"; "SHUTDOWN"; "SAVE"; "BGSAVE"; "BGREWRITEAOF"; "LATENCY"; "SLOWLOG"; "SCRIPT"; "CLIENT"; "HELLO"]%string.

(** %06d of a number below a million. *)
Definition pad6 (n : Z) : bytes := let d := FormatInt n in replicate (6 - length d) "0"%char ++ d.

Section stream.
Context `{GoUnicode} `{GoQuote}.

(** [ns]: the time in nanoseconds. *)
Definition monitorLine (cn : option Conn) (name : bytes) (args : list Value) (ns : Z) : bytes :=
  let addr := match cn with Some c => remoteAddr c | None => lit "local" end in
  lit "+" ++ FormatInt (Z.quot ns 1000000000) ++ lit "." ++ pad6 (Z.quot (Z.rem ns 1000000000) 1000) ++ lit " [0 " ++ addr ++ lit "] " ++ quote (ToLower name) ++
  concat (map (fun a => lit " " ++ quote (if EqualFold name (lit "AUTH") then lit "***" else arg_or_empty a)) args) ++ [CR; LF].

Definition monitor_hook (ctx : Ctx) (name : bytes) (args : list Value) (ns : Z) (mr : MonitorRegistry) : MonitorRegistry :=
  if existsb (bytes_eqb (ToUpper name)) monitorSkip then mr else Broadcast (monitorLine (c_conn ctx) name args ns) mr.

Definition startMonitor (ctx : Ctx) (mr : MonitorRegistry) : Value * MonitorRegistry :=
  match c_conn ctx with
  | None => (errS "ERR no connection to monitor on", mr)
  | Some c => (okReply, Monitor (connId c) mr)
  end.

End stream.

(** ** The properties *)

(** Notify-keyspace-events: a text is accepted exactly when all its
    letters are known, and is then reported back; an event of a class is then
    published on the key's channel exactly when the text holds K and a letter
    that selects the class, on the event's channel exactly when it holds E and
    such a letter, in that order, and nowhere else. *)
Theorem notifications_follow_letters (s : bytes) (n : NotifyCfg) (e : event) : event_class (ev_class e) = true -> notifyPub n = true ->
  (is_Some (letters s 0) <-> Forall (fun r => known r = true) s) /\
  (forall n', SetNotifyString s n = Ok n' -> NotifyString n' = s /\
    let on := existsb (selects (ev_class e)) s in
    Notify e n' = (if on && existsb (fun r => Ascii.eqb r "K") s then [(lit "__keyspace@0__:" ++ ev_key e, ev_name e)] else []) ++
                  (if on && existsb (fun r => Ascii.eqb r "E") s then [(lit "__keyevent@0__:" ++ ev_name e, ev_key e)] else [])).
Proof.
  intros Hc Hp. split; [apply letters_known|]. intros n' E. unfold SetNotifyString in E. destruct (letters s 0) as [mask|] eqn:El; [|done].
  injection E as <-. split; [done|]. unfold Notify. cbn [notifyMask notifyPub]. rewrite Hp. cbn [negb orb].
  pose proof (letters_spec s 0 mask (classBit (ev_class e)) _ El (fun r b Hb => letter_bit r _ b Hb Hc)) as Ec.
  pose proof (letters_spec s 0 mask notifyK _ El (fun r b Hb => proj1 (letter_flag r b Hb))) as Ek.
  pose proof (letters_spec s 0 mask notifyE _ El (fun r b Hb => proj1 (proj2 (letter_flag r b Hb)))) as Ee.
  rewrite !Z.land_0_l in Ec, Ek, Ee. cbn [Z.eqb negb orb] in Ec, Ek, Ee. rewrite <- Ec, <- Ek, <- Ee.
  assert ((classBit (ev_class e) =? 0) = false) as Hnz by (clear - Hc; destruct e as [c ? ?]; cbn in *; revert Hc; by each_letter c).
  rewrite Hnz. cbn [orb]. destruct (mask =? 0) eqn:E0; [apply Z.eqb_eq in E0; subst mask; by rewrite !Z.land_0_l|].
  by destruct (Z.land mask (classBit (ev_class e)) =? 0).
Qed.

Lemma notifications_follow_letters_witness :
  Notify (mkEvent "h" (lit "hset") (lit "k")) (mkNotify (default 0 (letters (lit "KEA") 0)) (lit "KEA") true) =
  [(lit "__keyspace@0__:k", lit "hset"); (lit "__keyevent@0__:hset", lit "k")].
Proof.
  exact (proj2 (proj2 (notifications_follow_letters (lit "KEA") (mkNotify 0 [] true) (mkEvent "h" (lit "hset") (lit "k")) eq_refl eq_refl)
    (mkNotify (default 0 (letters (lit "KEA") 0)) (lit "KEA") true) ltac:(vm_compute; reflexivity))).
Defined.

(** The alias [a] also selects stream events. *)
Example alias_a_selects_streams : letters (lit "Ka") 0 = letters (lit "Klshzt") 0 /\ letters (lit "Ka") 0 <> letters (lit "Klshz") 0.
Proof. vm_compute. done. Qed.

End notify.
