(* ===== verification/CmdServer.v ===== *)
(** * Server commands (src/internal/commands/server.go)

    DBSIZE, FLUSHDB, FLUSHALL, LASTSAVE, ROLE, SHUTDOWN, TIME, CLIENT, MEMORY,
    LATENCY, DEBUG, BGREWRITEAOF.  [range_subs] is the order in which the hub's
    table is ranged over. *)

From S2P Require Import Prelude GoLib GoStrings Resp Codec Kv Replication Cmd CmdKeys CmdSave Acl Router Arity Conn Tracking Sentinel Notify.
Open Scope Z_scope.
Open Scope gedis_scope.

Module server.
Import datastruct keycmd replication.
Import network (Ctx, c_conn, connId, Stats, Role, MasterHost, MasterPort, slaveOffset).
Import savecmd (SaveTracker, lastSaveUnix).

Definition wrong_sub (cmd sub : string) : Value := wrong_args (cmd ++ "|" ++ sub)%string.
Definition lines (l : list string) : Value := ArrayOf (map (fun s => VSimpleString (lit s)) l).

Section handlers.
Context {S : Type} `{KV S} `{Clock} `{GoUnicode}.

(** ** DBSIZE *)

Fixpoint count_live (t : Z) (raws : list bytes) (n : Z) : M S Z :=
  match raws with
  | [] => mret n
  | k :: rest =>
      let! r := attempt (kvGet k) in
      match r with
      | inr e => if isNotFound e then count_live t rest n else merr e
      | inl v =>
          let! e := lift (Decode v) in
          if negb (Expiry e =? 0) && (Expiry e <=? t) then count_live t rest n else count_live t rest (n + 1)
      end
  end.

Definition or_error (m : M S Value) : M S Value :=
  let! r := attempt m in match r with inl v => mret v | inr e => mret (errValue e) end.

Definition dbsize (args : list Value) : M S Value :=
  match args with
  | [] => or_error (let! names := allUserKeys in let! t := now in let! n := count_live t (map snd names) 0 in mret (VInteger n))
  | _ => mret (wrong_args "dbsize")
  end.

(** ** FLUSHDB and FLUSHALL *)

Context (range_subs : gset Z -> list Z).

Definition hub_del (hub : option Hub) (k : bytes) : result (option Hub) :=
  match hub with
  | None => Ok None
  | Some h => let? x := Publish h (mkOp 0 true k []) (range_subs (subs h)) in Ok (Some x.2)
  end.

(** A failing delete ends the command; what was deleted stays deleted. *)
Fixpoint flush_loop (raws : list bytes) (hub : option Hub) : M S (Value * option Hub) :=
  match raws with
  | [] => mret (okReply, hub)
  | k :: rest =>
      let! r := attempt (kvDelete k) in
      match r with
      | inr e => mret (errValue e, hub)
      | inl _ => let! hub := lift (hub_del hub k) in flush_loop rest hub
      end
  end.

Definition flush (args : list Value) (name : string) (hub : option Hub) : M S (Value * option Hub) :=
  let go : M S (Value * option Hub) :=
    let! r := attempt allUserKeys in
    match r with
    | inr e => mret (errValue e, hub)
    | inl names => flush_loop (map snd names) hub
    end in
  match args with
  | [] => go
  | [a] =>
      match argString a with
      | Some mode => if EqualFold mode (lit "ASYNC") then go else mret (errS "ERR syntax error", hub)
      | None => mret (errS "ERR syntax error", hub)
      end
  | _ => mret (wrong_args name, hub)
  end.
Definition flushdb (args : list Value) (hub : option Hub) : M S (Value * option Hub) := flush args "flushdb" hub.
Definition flushall (args : list Value) (hub : option Hub) : M S (Value * option Hub) := flush args "flushall" hub.

(** ** LASTSAVE, ROLE, SHUTDOWN, TIME *)

Definition lastsave (args : list Value) (t : SaveTracker) : Value :=
  match args with [] => VInteger (lastSaveUnix t) | _ => wrong_args "lastsave" end.

Definition role (args : list Value) (st : option Stats) (hub : option Hub) : Value :=
  let master : Value := ArrayOf [BulkOf (lit "master"); VInteger (match hub with Some h => Latest (backlog h) | None => 0 end); ArrayOf []] in
  match args with
  | [] =>
      match st with
      | Some s =>
          if bytes_eqb (Role s) (lit "slave")
          then ArrayOf [BulkOf (lit "slave"); BulkOf (MasterHost s); VInteger (MasterPort s); BulkOf (lit "connected"); VInteger (slaveOffset s)]
          else master
      | None => master
      end
  | _ => wrong_args "role"
  end.

(** The reply, the connection asked to close, and whether the server stops. *)
Definition shutdown (ctx : Ctx) (args : list Value) (hasHook : bool) : Value * option Z * bool :=
  let go : Value * option Z * bool := (okReply, option_map connId (c_conn ctx), hasHook) in
  match args with
  | [] => go
  | [a] =>
      match argString a with
      | Some mode => if EqualFold mode (lit "NOSAVE") || EqualFold mode (lit "SAVE") then go else (errS "ERR syntax error", None, false)
      | None => (errS "ERR syntax error", None, false)
      end
  | _ => (wrong_args "shutdown", None, false)
  end.

Definition time_ (args : list Value) : M S Value :=
  match args with
  | [] =>
      let! t := now in
      mret (ArrayOf [BulkOf (FormatInt (t / 1000000000)); BulkOf (FormatInt ((t mod 1000000000) / 1000))])
  | _ => mret (wrong_args "time")
  end.

(** ** MEMORY *)

Definition memoryDoctorText : string := "Hi Sam, this instance is empty or is using very little memory, my issues detector can't be used in these conditions. Please, leave for your mission on Earth and fill it with some data. The new Sam and I will be back to our programming as soon as I finished rebooting."%string.

Definition memoryHelpLines : list string := [
  "MEMORY <subcommand> [<arg> [value] [opt] ...]. Subcommands are:";
  "DOCTOR";
  "    Return memory problems reports.";
  "MALLOC-STATS";
  "    Return internal statistics report from the memory allocator.";
  "PURGE";
  "    Attempt to purge dirty pages for reclamation by the allocator.";
  "STATS";
  "    Return information about the memory usage of the server.";
  "USAGE <key> [SAMPLES <count>]";
  "    Return memory in bytes used by <key> and its value. Nested values are";
  "    sampled up to <count> times (default: 5, 0 means sample all).";
  "HELP";
  "    Print this help."]%string.
Definition memoryHelp : Value := lines memoryHelpLines.

(** The raw value of a key, if it is there. *)
Definition raw_value (key : bytes) (found : Entry -> bytes -> Value) : M S Value :=
  let! r := attempt (lookupRaw key) in
  match r with
  | inr e => mret (if isNotFound e then nilBulk else errValue e)
  | inl (raw, e) =>
      let! r := attempt (kvGet raw) in
      match r with
      | inr e => mret (if isNotFound e then nilBulk else errValue e)
      | inl v => mret (found e v)
      end
  end.

Definition memoryUsage (args : list Value) : M S Value :=
  let go (a : Value) : M S Value :=
    match argString a with
    | None => mret (errS "ERR invalid key")
    | Some key => raw_value key (fun _ v => VInteger (len v + 64))
    end in
  match args with
  | [_; a] => go a
  | [_; a; o; n] =>
      match argString o with
      | Some opt =>
          if negb (EqualFold opt (lit "SAMPLES")) then mret (errS "ERR syntax error")
          else match ParseInt (arg_or_empty n) with None => mret err_int | Some _ => go a end
      | None => mret (errS "ERR syntax error")
      end
  | _ => mret (wrong_sub "memory" "usage")
  end.

Definition memory (args : list Value) : M S Value :=
  match args with
  | [] => mret (wrong_args "memory")
  | a :: rest =>
      match argString a with
      | None => mret (errS "ERR syntax error")
      | Some sub =>
          let u := ToUpper sub in
          let alone (name : string) (v : Value) : M S Value := mret (match rest with [] => v | _ => wrong_sub "memory" name end) in
          if bytes_eqb u (lit "USAGE") then memoryUsage args
          else if bytes_eqb u (lit "DOCTOR") then alone "doctor"%string (BulkOf (lit memoryDoctorText))
          else if bytes_eqb u (lit "PURGE") then alone "purge"%string okReply
          else if bytes_eqb u (lit "HELP") then alone "help"%string memoryHelp
          else mret (VError (lit "ERR MEMORY " ++ u ++ lit " not supported on this engine"))
      end
  end.

(** ** LATENCY *)

Definition DQ : ascii := "034"%char.
Definition latencyDoctorText : bytes :=
  lit "I'm sorry, Dave, I can't do that. Latency monitoring is disabled in this Redis instance. You may use " ++ [DQ] ++
  lit "CONFIG SET latency-monitor-threshold <milliseconds>." ++ [DQ] ++
  lit " in order to enable it. If we weren't in a deep space mission I'd suggest to take a look at https://redis.io/topics/latency-monitor.".

Definition latencyHelpLines : list string := [
  "LATENCY <subcommand> [<arg> [value] [opt] ...]. Subcommands are:";
  "DOCTOR";
  "    Return a human readable latency analysis report.";
  "GRAPH <event>";
  "    Return an ASCII latency graph for the <event> class.";
  "HISTORY <event>";
  "    Return time-latency samples for the <event> class.";
  "LATEST";
  "    Return the latest latency samples for all events.";
  "RESET [<event> ...]";
  "    Reset latency data of one or more <event> classes.";
  "    (default: reset all data for all event classes)";
  "HISTOGRAM [COMMAND ...]";
  "    Return a cumulative distribution of latencies in the format of a histogram for the specified command names.";
  "    If no commands are specified then all histograms are replied.";
  "HELP";
  "    Print this help."]%string.
Definition latencyHelp : Value := lines latencyHelpLines.

Definition latency (args : list Value) : Value :=
  match args with
  | [] => wrong_args "latency"
  | a :: rest =>
      match argString a with
      | None => errS "ERR syntax error"
      | Some sub =>
          let u := ToUpper sub in
          let alone (name : string) (v : Value) : Value := match rest with [] => v | _ => wrong_sub "latency" name end in
          if bytes_eqb u (lit "LATEST") || bytes_eqb u (lit "HISTORY") || bytes_eqb u (lit "HISTOGRAM") then ArrayOf []
          else if bytes_eqb u (lit "RESET") then okReply
          else if bytes_eqb u (lit "DOCTOR") then alone "doctor"%string (BulkOf latencyDoctorText)
          else if bytes_eqb u (lit "GRAPH") then
            match rest with
            | [e] => VError (lit "ERR No samples available for event '" ++ arg_or_empty e ++ lit "'")
            | _ => wrong_sub "latency" "graph"
            end
          else if bytes_eqb u (lit "HELP") then alone "help"%string latencyHelp
          else VError (lit "ERR unknown subcommand '" ++ sub ++ lit "' for 'latency' command")
      end
  end.

(** ** DEBUG *)

(** SLEEP only delays its reply. *)
Definition debug `{GoFloat} (args : list Value) : M S Value :=
  match args with
  | [] => mret (wrong_args "debug")
  | a :: rest =>
      match argString a with
      | None => mret (errS "ERR syntax error")
      | Some sub =>
          let u := ToUpper sub in
          if bytes_eqb u (lit "SLEEP") then
            match rest with
            | [b] =>
                mret match ParseFloat (arg_or_empty b) with
                     | None => errS "ERR value is not a valid float"
                     | Some f => if f64_ltb f 0 then errS "ERR value is not a valid float" else okReply
                     end
            | _ => mret (wrong_sub "debug" "sleep")
            end
          else if bytes_eqb u (lit "OBJECT") then
            match rest with
            | [b] =>
                match argString b with
                | None => mret (errS "ERR invalid key")
                | Some key =>
                    raw_value key (fun e v =>
                      BulkOf (lit "encoding:" ++ default (lit "unknown") (objectEncodingOf e) ++ lit " serializedlength:" ++ FormatInt (len v)))
                end
            | _ => mret (wrong_sub "debug" "object")
            end
          else if bytes_eqb u (lit "RELOAD") then mret (match rest with [] => okReply | _ => wrong_sub "debug" "reload" end)
          else mret (VError (lit "ERR unknown subcommand '" ++ sub ++ lit "' for 'debug' command"))
      end
  end.

Definition bgrewriteaof (args : list Value) : Value :=
  match args with
  | [] => errS "ERR not supported on this engine: no AOF persistence"
  | _ => errS "ERR wrong number of arguments for persistence command"
  end.

End handlers.

(** ** CLIENT *)

Definition clientHelpLines : list string := [
  "CLIENT <subcommand> [<arg> [value] [opt] ...]. Subcommands are:";
  "CACHING (YES|NO)";
  "    Enable/disable tracking of the keys for next command in OPTIN/OPTOUT modes.";
  "GETREDIR";
  "    Return the client ID we are redirecting to when tracking is enabled.";
  "GETNAME";
  "    Return the name of the current connection.";
  "ID";
  "    Return the ID of the current connection.";
  "INFO";
  "    Return information about the current client connection.";
  "KILL <ip:port>";
  "    Kill connection made from <ip:port>.";
  "KILL <option> <value> [<option> <value> [...]]";
  "    Kill connections. Options are:";
  "    * ADDR (<ip:port>|<unixsocket>:0)";
  "      Kill connections made from the specified address";
  "    * LADDR (<ip:port>|<unixsocket>:0)";
  "      Kill connections made to specified local address";
  "    * TYPE (NORMAL|MASTER|REPLICA|PUBSUB)";
  "      Kill connections by type.";
  "    * USER <username>";
  "      Kill connections authenticated by <username>.";
  "    * SKIPME (YES|NO)";
  "      Skip killing current connection (default: yes).";
  "LIST [options ...]";
  "    Return information about client connections. Options:";
  "    * TYPE (NORMAL|MASTER|REPLICA|PUBSUB)";
  "      Return clients of specified type.";
  "UNPAUSE";
  "    Stop the current client pause, resuming traffic.";
  "PAUSE <timeout> [WRITE|ALL]";
  "    Suspend all, or just write, clients for <timeout> milliseconds.";
  "REPLY (ON|OFF|SKIP)";
  "    Control the replies sent to the current connection.";
  "SETNAME <name>";
  "    Assign the name <name> to the current connection.";
  "SETINFO <option> <value>";
  "    Set client meta attr. Options are:";
  "    * LIB-NAME: the client lib name.";
  "    * LIB-VER: the client lib version.";
  "UNBLOCK <clientid> [TIMEOUT|ERROR]";
  "    Unblock the specified blocked client.";
  "TRACKING (ON|OFF) [REDIRECT <id>] [BCAST] [PREFIX <prefix> [...]]";
  "         [OPTIN] [OPTOUT] [NOLOOP]";
  "    Control server assisted client side caching.";
  "TRACKINGINFO";
  "    Report tracking status for the current connection.";
  "NO-EVICT (ON|OFF)";
  "    Protect current client connection from eviction.";
  "NO-TOUCH (ON|OFF)";
  "    Will not touch LRU/LFU stats when this mode is on.";
  "HELP";
  "    Print this help."]%string.
Definition clientHelp : Value := lines clientHelpLines.

Section client.
Context `{GoUnicode}.
Context (addr : Z -> bytes) (range_conns : gmap Z conn.ConnState -> list (Z * conn.ConnState)).
Import conn tracking.

Definition client_line (c : ConnInfo) : bytes :=
  lit "id=" ++ FormatInt (iID c) ++ lit " addr=" ++ iAddr c ++ lit " name=" ++ iName c ++ lit " proto=" ++ FormatInt (iProto c) ++ [LF].

(** Runs a subcommand that needs the connection. *)
Definition with_conn (ctx : Ctx) (missing : string) (f : Z -> ConnRegistry -> Value * ConnRegistry) (s : Sys) : Value * Sys :=
  match c_conn ctx with
  | None => (VError (lit missing), s)
  | Some cn => let '(v, r) := f (connId cn) (conns s) in (v, set_conns s r)
  end.

Definition client (ctx : Ctx) (args : list Value) (s : Sys) (mr : gmap Z connpipe.ConnPipe) : Value * Sys * gmap Z connpipe.ConnPipe :=
  match args with
  | [] => (wrong_args "client", s, mr)
  | a :: rest =>
      match argString a with
      | None => (syntax, s, mr)
      | Some sub =>
          let u := ToUpper sub in
          let alone (name : string) (x : Value * Sys) : Value * Sys * gmap Z connpipe.ConnPipe :=
            match rest with [] => (x.1, x.2, mr) | _ => (wrong_sub "client" name, s, mr) end in
          if bytes_eqb u (lit "LIST") then
            alone "list"%string
              (let r := match c_conn ctx with Some cn => (IDOf (connId cn) (conns s)).2 | None => conns s end in
               (BulkOf (concat (map client_line (Snapshot addr range_conns r))), set_conns s r))
          else if bytes_eqb u (lit "SETNAME") then
            match rest with
            | [b] =>
                let '(v, s) := with_conn ctx "ERR no connection to set name on" (fun c r =>
                  match argString b with None => (syntax, r) | Some name => (okReply, SetName c name r) end) s in (v, s, mr)
            | _ => (wrong_sub "client" "setname", s, mr)
            end
          else if bytes_eqb u (lit "GETNAME") then
            alone "getname"%string (with_conn ctx "ERR no connection to get name of" (fun c r =>
              let '(name, r) := NameOf c r in (match name with [] => nilBulk | _ => BulkOf name end, r)) s)
          else if bytes_eqb u (lit "ID") then
            alone "id"%string (with_conn ctx "ERR no connection for client id" (fun c r => let '(id, r) := IDOf c r in (VInteger id, r)) s)
          else if bytes_eqb u (lit "SETINFO") then
            match rest with
            | [b; v] =>
                match argString b with
                | None => (syntax, s, mr)
                | Some sec =>
                    let up := ToUpper sec in
                    if negb (bytes_eqb up (lit "LIB-NAME")) && negb (bytes_eqb up (lit "LIB-VER"))
                    then (VError (lit "ERR Unrecognized option '" ++ sec ++ lit "'"), s, mr)
                    else match argString v with
                    | None => (syntax, s, mr)
                    | Some val =>
                        let '(v, s) := with_conn ctx "ERR no connection to set info on" (fun c r => (okReply, SetLibInfo c up val r)) s in (v, s, mr)
                    end
                end
            | _ => (wrong_sub "client" "setinfo", s, mr)
            end
          else if bytes_eqb u (lit "KILL") then (errS "ERR CLIENT KILL not supported (no connection closer wired)", s, mr)
          else if bytes_eqb u (lit "MONITOR") then
            match rest with
            | [] => let '(v, mr) := notify.startMonitor ctx mr in (v, s, mr)
            | _ => (wrong_sub "client" "monitor", s, mr)
            end
          else if bytes_eqb u (lit "TRACKING") then let '(v, s) := tracking ctx rest s in (v, s, mr)
          else if bytes_eqb u (lit "CACHING") then let '(v, s) := caching ctx rest s in (v, s, mr)
          else if bytes_eqb u (lit "HELP") then alone "help"%string (clientHelp, s)
          else (VError (lit "ERR unknown subcommand '" ++ sub ++ lit "' for 'client' command"), s, mr)
      end
  end.

Definition monitor (ctx : Ctx) (args : list Value) (mr : gmap Z connpipe.ConnPipe) : Value * gmap Z connpipe.ConnPipe :=
  match args with [] => notify.startMonitor ctx mr | _ => (wrong_args "monitor", mr) end.

End client.
End server.
