(* ===== verification/CmdMonitor.v ===== *)
(** * INFO, SLOWLOG and CONFIG (src/internal/commands/monitor.go, configfile.go)

    What the process knows of itself (its number, its memory, the uptime, the
    replication id) is an argument, as are the text a ratio is printed as with
    %.2f and the TOML package, which is not part of the sources. *)

From S2P Require Import Prelude GoLib GoStrings GoPath Resp Codec Kv Replication Storage Cmd CmdKeys CmdSave Acl Router Arity Conn Tracking Sentinel Notify CmdServer.
Open Scope Z_scope.
Open Scope gedis_scope.

Module monitor.
Import datastruct keycmd replication notify.
Import network (Ctx, Stats, SlowEntry, slID, slTimestamp, slDuration, slCommand, slArgs, Role, MasterHost, MasterPort, slaveOffset,
  connsReceived, commandsProcessed, connectedClients, blockedClients, expiredKeys, SlowLen, SlowEntries, SlowReset).
Import savecmd (SaveTracker, lastSaveUnix, BGSAVEState, SetFileName, file).

(** The interface MemoryInfo, which the Pebble engine offers. *)
Record MemoryInfo (S : Type) : Type := mkMem {
  UsedBytes : S -> Z; MaxBytes : S -> Z; SetMaxBytes : S -> Z -> S; Policy : S -> bytes; SetPolicy : S -> bytes -> result unit * S; EvictedCount : S -> Z;
}.
Arguments UsedBytes {S}. Arguments MaxBytes {S}. Arguments SetMaxBytes {S}. Arguments Policy {S}. Arguments SetPolicy {S}. Arguments EvictedCount {S}.

Definition pebble_memory `{GoUnicode} (D : Type) : MemoryInfo (storage.Pebble D) :=
  mkMem _ storage.usedBytes storage.maxBytes storage.SetMaxBytes storage.Policy storage.SetPolicy storage.evicted.

(** The process as INFO reports it. *)
Record Process : Type := mkProc {
  pid : Z; heapAlloc : Z; memSys : Z; uptime : Stats -> Z; replID : Stats -> bytes; ratio2 : Z -> Z -> bytes;
}.

(** ** TOML documents, as far as CONFIG REWRITE looks into them *)

Inductive any : Type := AInt (n : Z) | AStr (s : bytes) | ATable (t : list (bytes * any)) | AOther (s : bytes).

Fixpoint field (k : bytes) (t : list (bytes * any)) : option any :=
  match t with [] => None | (k', v) :: t => if bytes_eqb k k' then Some v else field k t end.
Fixpoint put (k : bytes) (v : any) (t : list (bytes * any)) : list (bytes * any) :=
  match t with [] => [(k, v)] | (k', v') :: t => if bytes_eqb k k' then (k, v) :: t else (k', v') :: put k v t end.

Definition setSection (name : bytes) (kvs : list (bytes * any)) (doc : list (bytes * any)) : list (bytes * any) :=
  let sec := match field name doc with Some (ATable t) => t | _ => [] end in
  put name (ATable (foldl (fun sec kv => put kv.1 kv.2 sec) sec kvs)) doc.

Section handlers.
Context {S : Type} `{KV S} `{Clock} `{GoUnicode} (mi : option (MemoryInfo S)) (pr : Process).

(** ** INFO *)

Definition eol : bytes := [CR; LF].
Definition row (name : string) (v : bytes) : bytes := lit name ++ lit ":" ++ v ++ eol.
Definition row_int (name : string) (v : Z) : bytes := row name (FormatInt v).
Arguments row name%_string v. Arguments row_int name%_string v.

Definition gedisVersion : bytes := lit "0.1.0".

(** A missing Stats counts as zeros. *)
Definition stat (f : Stats -> Z) (st : option Stats) : Z := match st with Some s => f s | None => 0 end.

Definition serverSection (st : option Stats) : bytes :=
  row "redis_version" (lit "7.4.0") ++ row "gedis_version" gedisVersion ++ row_int "process_id" (pid pr) ++
  row_int "uptime_in_seconds" (stat (uptime pr) st) ++ row_int "uptime_in_days" (Z.quot (stat (uptime pr) st) 86400) ++ row_int "hz" 10.
Definition clientsSection (st : option Stats) : bytes :=
  row_int "connected_clients" (stat connectedClients st) ++ row_int "blocked_clients" (stat blockedClients st).

Definition humanBytes (n : Z) : bytes :=
  if 1073741824 <=? n then ratio2 pr n 1073741824 ++ lit "G"
  else if 1048576 <=? n then ratio2 pr n 1048576 ++ lit "M"
  else if 1024 <=? n then ratio2 pr n 1024 ++ lit "K"
  else FormatInt n ++ lit "B".

Definition memorySection (s : S) : bytes :=
  let '(used, maxBytes, policy, evicted) :=
    match mi with
    | Some mi => (UsedBytes mi s, MaxBytes mi s, Policy mi s, EvictedCount mi s)
    | None => (i64 (heapAlloc pr), 0, lit "unknown", 0)
    end in
  row_int "used_memory" used ++ row_int "used_memory_rss" (memSys pr) ++
  row "mem_fragmentation_ratio" (if 0 <? used then ratio2 pr (memSys pr) used else lit "0.00") ++ row "mem_allocator" (lit "go") ++
  row_int "maxmemory" maxBytes ++ row "maxmemory_human" (humanBytes maxBytes) ++ row "maxmemory_policy" policy ++ row_int "evicted_keys" evicted.

Definition persistenceSection (t : SaveTracker) : bytes :=
  let '(running, status) := BGSAVEState t in
  row_int "rdb_changes_since_last_save" 0 ++ row_int "rdb_bgsave_in_progress" (if running then 1 else 0) ++
  row_int "rdb_last_save_time" (lastSaveUnix t) ++ row "rdb_last_bgsave_status" status ++ row_int "aof_enabled" 0.
Definition statsSection (st : option Stats) : bytes :=
  row_int "total_connections_received" (stat connsReceived st) ++ row_int "total_commands_processed" (stat commandsProcessed st) ++
  row_int "expired_keys" (stat expiredKeys st).

Definition replicationSection (st : option Stats) (hub : option Hub) : bytes :=
  let master : bytes :=
    row "role" (lit "master") ++ row_int "connected_slaves" (match hub with Some h => SubCount h | None => 0 end) ++
    row "master_replid" (match st with Some s => replID pr s | None => [] end) ++
    row_int "master_repl_offset" (match hub with Some h => Latest (backlog h) | None => 0 end) ++
    row "master_replid2" (lit "0000000000000000000000000000000000000000") ++ row_int "second_repl_offset" (-1) in
  match st with
  | Some s =>
      if bytes_eqb (Role s) (lit "slave")
      then row "role" (lit "slave") ++ row "master_host" (MasterHost s) ++ row_int "master_port" (MasterPort s) ++
           row "master_link_status" (lit "up") ++ row_int "slave_repl_offset" (slaveOffset s)
      else master
  | None => master
  end.

(** Keys, keys with an expiry, and the sum of the remaining milliseconds. *)
Fixpoint keyspace_loop (t : Z) (raws : list bytes) (ks es ttl : Z) : M S (Z * Z * Z) :=
  match raws with
  | [] => mret (ks, es, ttl)
  | k :: rest =>
      let! r := attempt (kvGet k) in
      match r with
      | inr e => if isNotFound e then keyspace_loop t rest ks es ttl else merr e
      | inl v =>
          let! e := lift (Decode v) in
          if Expiry e =? 0 then keyspace_loop t rest (ks + 1) es ttl
          else if Expiry e <=? t then keyspace_loop t rest ks es ttl
          else keyspace_loop t rest (ks + 1) (es + 1) (i64 (ttl + Z.quot (i64 (Expiry e - t)) 1000000))
      end
  end.

Definition keyspaceSection : M S bytes :=
  let! t := now in
  let! names := allUserKeys in
  let! (ks, es, ttl) := keyspace_loop t (map snd names) 0 0 0 in
  mret (lit "# Keyspace" ++ eol ++ lit "db0:keys=" ++ FormatInt ks ++ lit ",expires=" ++ FormatInt es ++
        lit ",avg_ttl=" ++ FormatInt (if 0 <? es then Z.quot ttl es else 0) ++ eol).

(** One section, if it is wanted; a blank line between two. *)
Definition write (section : bytes) (name title : string) (body : bytes) (b : bytes) : bytes :=
  if negb (bytes_eqb section (lit "all")) && negb (bytes_eqb section (lit name)) then b
  else (match b with [] => [] | _ => b ++ eol end) ++ lit "# " ++ lit title ++ eol ++ body.
Arguments write section (name title)%_string body b.

Definition info (args : list Value) (st : option Stats) (t : SaveTracker) (hub : option Hub) : M S Value :=
  let go (section : bytes) : M S Value := fun w =>
    let b := write section "replication" "Replication" (replicationSection st hub)
              (write section "stats" "Stats" (statsSection st)
              (write section "persistence" "Persistence" (persistenceSection t)
              (write section "memory" "Memory" (memorySection (w_kv w))
              (write section "clients" "Clients" (clientsSection st)
              (write section "server" "Server" (serverSection st) []))))) in
    (if bytes_eqb section (lit "all") || bytes_eqb section (lit "keyspace") then
       let! r := attempt keyspaceSection in
       match r with
       | inr e => mret (errValue e)
       | inl ks => mret (BulkOf ((match b with [] => [] | _ => b ++ eol end) ++ ks))
       end
     else mret (BulkOf b)) w in
  match args with
  | [] => go (lit "all")
  | [a] => match argString a with None => mret (errS "ERR invalid section") | Some s => go (ToLower s) end
  | _ => mret (wrong_args "info")
  end.

(** ** SLOWLOG *)

Definition slow_reply (e : SlowEntry) : Value :=
  ArrayOf [VInteger (slID e); VInteger (slTimestamp e); VInteger (slDuration e); ArrayOf (map BulkOf (slCommand e :: slArgs e))].

Definition slowlog (args : list Value) (st : option Stats) : result Value * option Stats :=
  match args with
  | [] => (Ok (wrong_args "slowlog"), st)
  | a :: rest =>
      match argString a with
      | None => (Ok (errS "ERR syntax error"), st)
      | Some sub =>
          let u := ToUpper sub in
          let get (n : Z) : result Value * option Stats :=
            (match st with
             | None => Ok (ArrayOf [])
             | Some s => let? es := SlowEntries s n in Ok (ArrayOf (map slow_reply es))
             end, st) in
          if bytes_eqb u (lit "LEN") then (Ok (match rest with [] => VInteger (stat SlowLen st) | _ => wrong_args "slowlog" end), st)
          else if bytes_eqb u (lit "RESET") then
            match rest with [] => (Ok okReply, option_map SlowReset st) | _ => (Ok (wrong_args "slowlog"), st) end
          else if bytes_eqb u (lit "GET") then
            match rest with
            | [] => get 128
            | [b] =>
                match argString b with
                | None => (Ok err_int, st)
                | Some n => match ParseInt n with None => (Ok err_int, st) | Some c => if c <? 0 then (Ok err_int, st) else get c end
                end
            | _ => (Ok (wrong_args "slowlog"), st)
            end
          else (Ok (errS "ERR unknown subcommand for 'slowlog' command"), st)
      end
  end.

(** ** CONFIG *)

(** What CONFIG reads and changes, besides the engine. *)
Record Cfg : Type := mkCfg { cStats : option Stats; cNotify : NotifyCfg; cTracker : SaveTracker }.

Definition params (m : MemoryInfo S) (s : S) (c : Cfg) : list (bytes * bytes) :=
  [(lit "maxmemory", FormatInt (MaxBytes m s)); (lit "maxmemory-policy", Policy m s);
   (lit "notify-keyspace-events", NotifyString (cNotify c)); (lit "dbfilename", file (cTracker c))].

Definition config_get (pattern : bytes) (m : MemoryInfo S) (s : S) (c : Cfg) : Value :=
  ArrayOf (concat (map (fun p : bytes * bytes => [BulkOf p.1; BulkOf p.2])
    (List.filter (fun p : bytes * bytes => path_matches (ToLower pattern) p.1) (params m s c)))).

Definition set_kv (s : S) : M S unit := fun w => (Ok (), mkWorld s (w_tick w) (w_events w) (w_expired w)).

Definition config_set (name val : bytes) (m : MemoryInfo S) (c : Cfg) : M S (Value * Cfg) := fun w =>
  let p := ToLower name in
  if bytes_eqb p (lit "notify-keyspace-events") then
    match SetNotifyString val (cNotify c) with
    | Ok n => mret (okReply, mkCfg (cStats c) n (cTracker c)) w
    | Err e => mret (errValue e, c) w
    | Panic => mpanic w
    end
  else if bytes_eqb p (lit "maxmemory") then
    match ParseInt val with
    | None => mret (err_int, c) w
    | Some n => if n <? 0 then mret (err_int, c) w else (let! _ := set_kv (SetMaxBytes m (w_kv w) n) in mret (okReply, c)) w
    end
  else if bytes_eqb p (lit "maxmemory-policy") then
    match SetPolicy m (w_kv w) val with
    | (Ok _, s) => (let! _ := set_kv s in mret (okReply, c)) w
    | (Err e, s) => (let! _ := set_kv s in mret (errValue e, c)) w
    | (Panic, s) => mpanic w
    end
  else if bytes_eqb p (lit "dbfilename") then mret (okReply, mkCfg (cStats c) (cNotify c) (SetFileName (cTracker c) val)) w
  else mret (VError (lit "ERR Unknown parameter '" ++ name ++ lit "'"), c) w.

(** CONFIG REWRITE: [decode] and [marshal] are the TOML package, [path] the
    configuration file; the answers of the file system are arguments.  A failed
    write may leave a temporary file. *)
Context (decode : bytes -> result (list (bytes * any))) (marshal : list (bytes * any) -> result bytes).
Record files : Type := mkFiles { f_disk : gmap bytes bytes; f_read : option goerr; f_write : option (goerr * gmap bytes bytes); f_rename : option goerr }.

Definition rewrite_doc (s : S) (c : Cfg) (doc : list (bytes * any)) : list (bytes * any) :=
  let doc := match mi with
             | Some m => setSection (lit "memory") [(lit "maxmemory", AInt (MaxBytes m s)); (lit "policy", AStr (Policy m s))] doc
             | None => doc
             end in
  let doc := setSection (lit "persistence") [(lit "dbfilename", AStr (file (cTracker c)))] doc in
  setSection (lit "notify") [(lit "keyspace_events", AStr (NotifyString (cNotify c)))] doc.

Definition rewrite_failed (e : goerr) : Value := VError (lit "ERR Rewriting config file: " ++ err_text e).

Definition rewriteConfig (path : bytes) (s : S) (c : Cfg) (f : files) : result Value * gmap bytes bytes :=
  let d := f_disk f in
  let tmp := path ++ lit ".tmp." ++ FormatInt (pid pr) in
  match path with
  | [] => (Ok (errS "ERR The server is running without a config file"), d)
  | _ =>
      match f_read f, d !! path with
      | Some e, _ => (Ok (rewrite_failed e), d)
      | None, None => (Ok (rewrite_failed ENotFound), d)
      | None, Some data =>
          match decode data with
          | Err e => (Ok (rewrite_failed e), d)
          | Panic => (Panic, d)
          | Ok doc =>
              match marshal (rewrite_doc s c doc) with
              | Err e => (Ok (rewrite_failed e), d)
              | Panic => (Panic, d)
              | Ok out =>
                  match f_write f with
                  | Some (e, part) => (Ok (rewrite_failed e), base.filter (fun x : bytes * bytes => x.1 = tmp) part ∪ d)
                  | None =>
                      match f_rename f with
                      | Some e => (Ok (rewrite_failed e), delete tmp (<[tmp := out]> d))
                      | None => (Ok okReply, <[path := out]> (delete tmp d))
                      end
                  end
              end
          end
      end
  end.

Definition config (path : bytes) (args : list Value) (c : Cfg) (f : files) : M S (Value * Cfg * gmap bytes bytes) :=
  match args with
  | [] => mret (wrong_args "config", c, f_disk f)
  | a :: rest =>
      match argString a with
      | None => mret (errS "ERR syntax error", c, f_disk f)
      | Some sub =>
          let u := ToUpper sub in
          if bytes_eqb u (lit "RESETSTAT") then
            match rest with
            | [] => mret (okReply, mkCfg (option_map network.Reset_ (cStats c)) (cNotify c) (cTracker c), f_disk f)
            | _ => mret (server.wrong_sub "config" "resetstat", c, f_disk f)
            end
          else if bytes_eqb u (lit "GET") then
            match rest with
            | [b] =>
                match argString b with
                | None => mret (errS "ERR invalid pattern", c, f_disk f)
                | Some pattern =>
                    match mi with
                    | None => mret (errS "ERR memory info unavailable", c, f_disk f)
                    | Some m => fun w => (Ok (config_get pattern m (w_kv w) c, c, f_disk f), w)
                    end
                end
            | _ => mret (server.wrong_sub "config" "get", c, f_disk f)
            end
          else if bytes_eqb u (lit "SET") then
            match rest with
            | [b; v] =>
                match argString b, argString v with
                | Some name, Some val =>
                    match mi with
                    | None => mret (errS "ERR memory info unavailable", c, f_disk f)
                    | Some m => let! (r, c) := config_set name val m c in mret (r, c, f_disk f)
                    end
                | _, _ => mret (errS "ERR syntax error", c, f_disk f)
                end
            | _ => mret (server.wrong_sub "config" "set", c, f_disk f)
            end
          else if bytes_eqb u (lit "REWRITE") then
            match rest with
            | [] => fun w => let '(r, d) := rewriteConfig path (w_kv w) c f in (let! v := lift r in mret (v, c, d)) w
            | _ => mret (server.wrong_sub "config" "rewrite", c, f_disk f)
            end
          else mret (errS "ERR unknown subcommand for 'config' command", c, f_disk f)
      end
  end.

End handlers.
End monitor.
