(* ===== verification/CmdServerSpec.v ===== *)
(** * What the server commands promise

    DBSIZE and the keyspace line of INFO count the live keys; FLUSHALL empties
    the keyspace and sends a replica of the same content to the same state;
    CONFIG GET returns what CONFIG SET stored; CONFIG REWRITE changes the four
    parameters of the document and nothing else. *)

From S2P Require Import Prelude GoLib GoStrings GoPath Resp Codec Kv Replication Storage Cmd CmdKeys CmdKeysSpec CmdSave CmdHash Acl Router Arity Conn Tracking Sentinel Notify CmdServer CmdMonitor.
Open Scope Z_scope.
Open Scope gedis_scope.

Module server_spec.
Import datastruct keycmd keyspec replication server monitor.
Import notify (SetNotifyString, letters, NotifyString).

Notation content := (gmap bytes bytes).

(** ** FLUSHALL *)

Definition hub_open (h : Hub) : Prop := forall id, id ∈ subs h -> is_open (chans h) id.
Definition del_op (k : bytes) : Op := mkOp 0 true k [].

Lemma delete_all_lookup (m : content) (raws : list bytes) (k : bytes) :
  apply_ops m (map del_op raws) !! k = if bool_decide (k ∈ raws) then None else m !! k.
Proof.
  unfold apply_ops. revert m. induction raws as [|r raws IH]; intros m; cbn [map foldl]; [by rewrite bool_decide_eq_false_2 by apply not_elem_of_nil|].
  rewrite IH. unfold apply_op, del_op; cbn [Del Key]. destruct (decide (k = r)) as [->|Hne].
  - rewrite lookup_delete_eq, (bool_decide_eq_true_2 (r ∈ r :: raws)) by set_solver. by case_bool_decide.
  - rewrite lookup_delete_ne by done. by rewrite (bool_decide_ext (k ∈ r :: raws) (k ∈ raws)) by set_solver.
Qed.

Section flush.
Context `{Clock} `{GoUnicode} (range_subs : gset Z -> list Z) (Hrange : forall s, range_subs s ≡ₚ elements s).

(** One published operation: the backlog grows by it, the channels stay open. *)
Lemma publish_open (h : Hub) (op : Op) : hub_open h ->
  exists off h', Publish h op (range_subs (subs h)) = Ok (off, h') /\ backlog h' = (Append (backlog h) op).2 /\ hub_open h'.
Proof.
  intros Hop. unfold Publish. destruct (Append (backlog h) op) as [off b]. cbn [snd].
  destruct (broadcast_spec (set_offset op off) (range_subs (subs h)) (set_backlog h b)) as (h' & E & Hb & _ & Hc & Hs).
  - rewrite Hrange. apply NoDup_elements.
  - intros id Hid. rewrite Hrange, elem_of_elements in Hid. by apply Hop.
  - exists off, h'. rewrite E. cbn [res_bind]. split_and!; [done|done|].
    intros id Hid. pose proof (proj1 (Hs id) Hid) as [Hold Hroom]. cbn [subs set_backlog chans] in *.
    assert (id ∈ range_subs (subs h)) as Hin by (rewrite Hrange; by apply elem_of_elements).
    destruct (Hroom Hin) as (c & Hch & Hr). exists (delivered (set_offset op off) c). rewrite Hc. cbn [chans set_backlog].
    rewrite bool_decide_eq_true_2, Hch by done. split; [done|]. unfold delivered. by rewrite Hr.
Qed.

Lemma flush_loop_spec (raws : list bytes) (h : Hub) (w : world content) : hub_open h ->
  exists h', flush_loop range_subs raws (Some h) w = (Ok (okReply, Some h'), mkWorld (apply_ops (w_kv w) (map del_op raws)) (w_tick w) (w_events w) (w_expired w)) /\
    backlog h' = append_all (backlog h) (map del_op raws) /\ hub_open h'.
Proof.
  revert h w. induction raws as [|k raws IH]; intros h w Hop; cbn [flush_loop map].
  - exists h. split_and!; [by destruct w|done|done].
  - destruct (publish_open h (del_op k) Hop) as (off & h1 & E & Hb & Hop1).
    destruct (IH h1 (mkWorld (delete k (w_kv w)) (w_tick w) (w_events w) (w_expired w)) Hop1) as (h' & E' & Hb' & Hop').
    exists h'. split_and!; [|rewrite Hb', Hb; done|done].
    unfold mbind at 1, attempt, kvDelete, on_kv. cbn [kv_delete map_kv]. unfold mbind, lift, hub_del. unfold del_op in E. rewrite E. cbn [res_bind snd]. exact E'.
Qed.

End flush.

(** ** DBSIZE and INFO *)

Section counting.
Context `{Clock} `{GoUnicode}.

Definition decodes (m : content) : Prop := forall k v, m !! k = Some v -> typed k -> exists e, Decode v = Ok e.
Definition live_raws (t : Z) (m : content) : list bytes := List.filter (fun k => negb (dead t m k)) (typed_raws m).
Definition expiry_of (m : content) (k : bytes) : Z := match m !! k with Some v => match Decode v with Ok e => Expiry e | _ => 0 end | None => 0 end.

Lemma count_live_spec (t n : Z) (raws : list bytes) (w : world content) :
  Forall (fun k => exists v e, w_kv w !! k = Some v /\ Decode v = Ok e) raws ->
  count_live t raws n w = (Ok (n + len (List.filter (fun k => negb (dead t (w_kv w) k)) raws)), w).
Proof.
  intros Hall. revert n. induction Hall as [|k raws (v & e & Hv & He) _ IH]; intros n; cbn [count_live List.filter].
  - by rewrite len_nil, Z.add_0_r.
  - unfold mbind at 1, attempt, kvGet, on_kv. cbn [kv_get map_kv]. rewrite Hv. unfold mbind at 1, lift. rewrite He.
    assert (dead t (w_kv w) k = negb (Expiry e =? 0) && (Expiry e <=? t)) as Ed by (unfold dead; by rewrite Hv, He).
    rewrite <- Ed. destruct w as [m tk ev ex]. cbn [w_kv w_tick w_events w_expired] in *. destruct (dead t m k); cbn [negb]; rewrite IH; [done|].
    rewrite len_cons. do 2 f_equal. lia.
Qed.

Lemma typed_raws_decode (m : content) : decodes m -> Forall (fun k => exists v e, m !! k = Some v /\ Decode v = Ok e) (typed_raws m).
Proof.
  intros Hd. apply Forall_forall. intros k [[v Hv] Ht]%elem_of_typed_raws. destruct (Hd k v Hv Ht) as [e He]. eauto.
Qed.

Lemma keyspace_loop_spec (t ks es ttl : Z) (raws : list bytes) (w : world content) :
  Forall (fun k => exists v e, w_kv w !! k = Some v /\ Decode v = Ok e) raws ->
  exists ttl', keyspace_loop t raws ks es ttl w =
    (Ok (ks + len (List.filter (fun k => negb (dead t (w_kv w) k)) raws),
         es + len (List.filter (fun k => negb (dead t (w_kv w) k) && negb (expiry_of (w_kv w) k =? 0)) raws), ttl'), w).
Proof.
  intros Hall. revert ks es ttl. induction Hall as [|k raws (v & e & Hv & He) _ IH]; intros ks es ttl; cbn [keyspace_loop List.filter].
  - exists ttl. by rewrite len_nil, !Z.add_0_r.
  - unfold mbind at 1, attempt, kvGet, on_kv. cbn [kv_get map_kv]. rewrite Hv. unfold mbind at 1, lift. rewrite He.
    assert (dead t (w_kv w) k = negb (Expiry e =? 0) && (Expiry e <=? t)) as Ed by (unfold dead; by rewrite Hv, He).
    assert (expiry_of (w_kv w) k = Expiry e) as Ee by (unfold expiry_of; by rewrite Hv, He). rewrite Ed, Ee.
    destruct w as [m tk ev ex]. cbn [w_kv w_tick w_events w_expired] in *. destruct (Expiry e =? 0); cbn [negb andb].
    + destruct (IH (ks + 1) es ttl) as (ttl' & ->). exists ttl'. rewrite len_cons. do 4 f_equal. lia.
    + destruct (Expiry e <=? t); cbn [negb andb]; [apply IH|].
      destruct (IH (ks + 1) (es + 1) (i64 (ttl + Z.quot (i64 (Expiry e - t)) 1000000))) as (ttl' & ->). exists ttl'. rewrite !len_cons. do 4 f_equal; lia.
Qed.

End counting.
(** ** CONFIG *)

Section configuration.
Context `{GoUnicode} {D : Type}.
Import notify.

Notation mem := (pebble_memory D).
Definition names : list bytes := map lit ["maxmemory"; "maxmemory-policy"; "notify-keyspace-events"; "dbfilename"]%string.

(** What a parameter holds after a successful CONFIG SET, if the value is
    acceptable. *)
Definition stored (name val : bytes) : option bytes :=
  if bytes_eqb name (lit "maxmemory") then match ParseInt val with Some n => if n <? 0 then None else Some (FormatInt n) | None => None end
  else if bytes_eqb name (lit "maxmemory-policy") then if existsb (bytes_eqb (ToLower val)) storage.policies then Some (ToLower val) else None
  else if bytes_eqb name (lit "notify-keyspace-events") then if bool_decide (is_Some (letters val 0)) then Some val else None
  else Some val.

(** CONFIG GET of one of the four names returns that one. *)
Definition value_of (name : bytes) (p : storage.Pebble D) (c : Cfg) : bytes :=
  if bytes_eqb name (lit "maxmemory") then FormatInt (storage.maxBytes p)
  else if bytes_eqb name (lit "maxmemory-policy") then storage.Policy p
  else if bytes_eqb name (lit "notify-keyspace-events") then NotifyString (cNotify c)
  else savecmd.file (cTracker c).

Lemma config_get_one (name : bytes) (p : storage.Pebble D) (c : Cfg) : name ∈ names -> config_get name mem p c = ArrayOf [BulkOf name; BulkOf (value_of name p c)].
Proof.
  unfold names. cbn [map]. rewrite !elem_of_cons, elem_of_nil. intros Hn.
  destruct_or! Hn; subst; unfold config_get, params, value_of; cbn [List.filter fst];
    repeat match goal with |- context [path_matches ?x ?y] => let v := eval vm_compute in (path_matches x y) in change (path_matches x y) with v; cbn iota end; reflexivity.
Qed.

Lemma policies_ne (v : bytes) : existsb (bytes_eqb v) storage.policies = true -> bytes_eqb v [] = false.
Proof. destruct v; [|done]. by vm_compute. Qed.

Lemma lower_names (name : bytes) : name ∈ names -> ToLower name = name.
Proof. unfold names. cbn [map]. rewrite !elem_of_cons, elem_of_nil. intros Hn. destruct_or! Hn; subst; by vm_compute. Qed.

End configuration.

(** Comparisons of literal names. *)
Ltac eval_names :=
  repeat match goal with
  | |- context [bytes_eqb ?x ?y] => let v := eval vm_compute in (bytes_eqb x y) in lazymatch v with true => idtac | false => idtac end; change (bytes_eqb x y) with v; cbn iota
  | |- context [bool_decide (?x = ?y :> bytes)] => let v := eval vm_compute in (bool_decide (x = y)) in lazymatch v with true => idtac | false => idtac end; change (bool_decide (x = y)) with v; cbn iota
  end.
(** One goal for each parameter. *)
Ltac each_name :=
  let other := fresh "other" in let Ho := fresh "Ho" in
  intros other Ho; rewrite (config_get_one other) by done; unfold value_of; revert Ho; unfold names; cbn [map]; rewrite !elem_of_cons, elem_of_nil; intros Ho; destruct_or! Ho; subst other.

(** ** The properties *)

Section properties.
Context `{Clock} `{GoUnicode}.

(** FLUSHALL on a keyspace where every name has one type removes every
    typed key and nothing else, publishes one deletion for each on the
    replication hub, none of which blocks or panics, and a replica that holds
    the same content and applies them reaches the same content. *)
Theorem flushall_empties (range_subs : gset Z -> list Z) (h : Hub) (w : world content) :
  (forall s, range_subs s ≡ₚ elements s) -> single (w_kv w) -> hub_open h ->
  exists h' w', flushall range_subs [] (Some h) w = (Ok (okReply, Some h'), w') /\ hub_open h' /\
    (forall k, typed k -> w_kv w' !! k = None) /\ (forall k, ~ typed k -> w_kv w' !! k = w_kv w !! k) /\
    exists dels, NoDup (map Key dels) /\ backlog h' = append_all (backlog h) dels /\ apply_ops (w_kv w) dels = w_kv w'.
Proof.
  intros Hr Hs Ho. unfold flushall, flush. destruct (flush_loop_spec range_subs Hr (typed_raws (w_kv w)) h w Ho) as (h' & E & Hb & Ho').
  eexists h', _. split_and!.
  - unfold mbind, attempt. rewrite (allUserKeys_single w Hs). rewrite named_raws. exact E.
  - done.
  - intros k Ht. cbn [w_kv]. rewrite delete_all_lookup. case_bool_decide as Hin; [done|]. destruct (w_kv w !! k) as [v|] eqn:Ek; [|done].
    exfalso. apply Hin, elem_of_typed_raws. split; [by eexists|done].
  - intros k Ht. cbn [w_kv]. rewrite delete_all_lookup, bool_decide_eq_false_2; [done|]. by intros [_ ?]%elem_of_typed_raws.
  - exists (map del_op (typed_raws (w_kv w))). split_and!; [|done|done]. rewrite map_map. rewrite map_id. apply typed_raws_NoDup.
Qed.

(** DBSIZE and the keyspace line of INFO both report the number of typed
    entries that have not expired, and change nothing. *)
Theorem dbsize_counts_live (w : world content) : single (w_kv w) -> decodes (w_kv w) ->
  let n := len (live_raws (clock_ns (w_tick w)) (w_kv w)) in
  let w' := mkWorld (w_kv w) (S (w_tick w)) (w_events w) (w_expired w) in
  dbsize [] w = (Ok (VInteger n), w') /\
  exists rest, keyspaceSection w = (Ok (lit "# Keyspace" ++ eol ++ lit "db0:keys=" ++ FormatInt n ++ rest), w').
Proof.
  intros Hs Hd n w'. split.
  - unfold dbsize, or_error, mbind, attempt. rewrite (allUserKeys_single w Hs). unfold now. rewrite named_raws.
    rewrite count_live_spec by (cbn [w_kv]; by apply typed_raws_decode). done.
  - unfold keyspaceSection, mbind, now. rewrite allUserKeys_single by done. cbn [w_kv]. rewrite named_raws.
    destruct (keyspace_loop_spec (clock_ns (w_tick w)) 0 0 0 (typed_raws (w_kv w)) w') as (ttl & E); [by apply typed_raws_decode|].
    eexists. fold w'. rewrite E. reflexivity.
Qed.

(** CONFIG SET of one of the four parameters either refuses the value
    with an error and changes nothing, or stores it: CONFIG GET then returns
    the stored value for that parameter and the old value for the others. *)
Theorem config_set_then_get {D : Type} (name val : bytes) (c : Cfg) (w : world (storage.Pebble D)) : name ∈ names ->
  match stored name val with
  | None => exists e, config_set name val (pebble_memory D) c w = (Ok (VError e, c), w)
  | Some v => exists c' w', config_set name val (pebble_memory D) c w = (Ok (okReply, c'), w') /\
      forall other, other ∈ names ->
        config_get other (pebble_memory D) (w_kv w') c' = ArrayOf [BulkOf other; BulkOf (if bool_decide (other = name) then v else value_of other (w_kv w) c)]
  end.
Proof.
  intros Hn. unfold config_set, stored. rewrite (lower_names name Hn). revert Hn. unfold names at 1. cbn [map]. rewrite !elem_of_cons, elem_of_nil. intros Hn.
  destruct_or! Hn; subst; eval_names.
  - destruct (ParseInt val) as [n|]; [|by eexists]. destruct (n <? 0) eqn:En; [by eexists|]. eexists _, _. split; [reflexivity|].
    each_name; eval_names; cbn; rewrite ?En; done.
  - change (SetPolicy (pebble_memory D)) with (@storage.SetPolicy _ D). unfold storage.SetPolicy. destruct (existsb _ _) eqn:Ep; [|destruct w; by eexists]. eexists _, _. split; [reflexivity|].
    each_name; eval_names; cbn; unfold storage.Policy; cbn; rewrite ?(policies_ne _ Ep); done.
  - unfold SetNotifyString. destruct (letters val 0) as [mask|]; [|by eexists]. eexists _, _. split; [reflexivity|]. each_name; eval_names; done.
  - eexists _, _. split; [reflexivity|]. each_name; eval_names; done.
Qed.

End properties.

(** ** On concrete stores *)

Ltac prefix_in := apply (bool_decide_unpack _); vm_compute; exact I.

Section examples.
#[local] Instance sv_ascii : GoUnicode := ascii_tables.
#[local] Instance sv_clock : Clock := {| clock_ns := fun n => 1000000000 + Z.of_nat n |}.

(** A hash with an expiry on one field, and a string. *)
Definition side : bytes := Encode TypeHash 0 (EncodeHash {[lit "f" := lit "99999999999999999"]}).
Definition store1 : content := {[HashKey (lit "k") := Encode TypeHash 0 (EncodeHash {[lit "f" := lit "v"]}); StringKey (lit "s") := Encode TypeString 0 (lit "x")]}.
Definition at_ (m : content) : world content := mkWorld m 0 [] 0.

(** FLUSHALL misses the expiry record of a hash: it is stored under the prefix
    of streams, and its name has been seen already.  The key is still there
    afterwards. *)
Example flushall_leaves_field_expiries :
  let w := ((flushall (fun s => elements s) [] None (at_ (<[HashExpKey (lit "k") := side]> store1))).2) in
  w_kv w = {[HashExpKey (lit "k") := side]} /\ (dbsize [] w).1 = Ok (VInteger 1) /\ (exists_ [BulkOf (lit "k")] w).1 = Ok (VInteger 1).
Proof. vm_compute. done. Qed.

Lemma store1_single : single store1.
Proof.
  intros p q name Hp Hq [v1 H1] [v2 H2]. unfold store1 in *. apply lookup_insert_Some in H1, H2. rewrite lookup_singleton_Some in H1, H2.
  assert (forall r k, r ∈ typePrefixes -> r ++ name = HashKey k -> r = lit "h:" /\ name = k) as Hh.
  { intros r k Hr E. by apply (prefix_inj r (lit "h:") name k Hr) in E; [|prefix_in]. }
  assert (forall r k, r ∈ typePrefixes -> r ++ name = StringKey k -> r = lit "s:" /\ name = k) as Hs.
  { intros r k Hr E. by apply (prefix_inj r (lit "s:") name k Hr) in E; [|prefix_in]. }
  destruct H1 as [[E1 _]|[_ [E1 _]]], H2 as [[E2 _]|[_ [E2 _]]]; symmetry in E1, E2;
    [apply Hh in E1 as [-> E1], E2 as [-> E2]|apply Hh in E1 as [-> E1]; [|done]; apply Hs in E2 as [-> E2]|apply Hs in E1 as [-> E1]; [|done]; apply Hh in E2 as [-> E2]|apply Hs in E1 as [-> E1], E2 as [-> E2]]; try done; subst; discriminate.
Qed.

Lemma flushall_empties_witness :
  exists h' w', flushall (fun s => elements s) [] (Some (NewHub 16)) (at_ store1) = (Ok (okReply, Some h'), w') /\ w_kv w' !! HashKey (lit "k") = None.
Proof.
  destruct (flushall_empties (fun s => elements s) (NewHub 16) (at_ store1)) as (h' & w' & E & _ & Ht & _);
    [reflexivity|apply store1_single|intros id Hid; cbn in Hid; set_solver|].
  exists h', w'. split; [exact E|]. apply Ht. exists (lit "h:"), (lit "k"). split; [prefix_in|done].
Defined.

Lemma store1_decodes : decodes store1.
Proof.
  intros k v Hk _. unfold store1 in Hk. apply lookup_insert_Some in Hk. rewrite lookup_singleton_Some in Hk.
  destruct Hk as [[_ <-]|[_ [_ <-]]]; eexists; vm_compute; reflexivity.
Qed.

Lemma dbsize_counts_live_witness : (dbsize [] (at_ store1)).1 = Ok (VInteger 2).
Proof. rewrite (proj1 (dbsize_counts_live (at_ store1) store1_single store1_decodes)). vm_compute. reflexivity. Defined.

End examples.

Section config_witness.
#[local] Instance cw_ascii : GoUnicode := ascii_tables.

Lemma config_set_then_get_witness :
  exists c' w', config_set (lit "maxmemory") (lit "0100") (pebble_memory content) (mkCfg None notify.no_notify (savecmd.NewSaveTracker [] true 0))
      (mkWorld (storage.empty_engine false 0) 0 [] 0) = (Ok (okReply, c'), w') /\
    config_get (lit "maxmemory") (pebble_memory content) (w_kv w') c' = ArrayOf [BulkOf (lit "maxmemory"); BulkOf (lit "100")].
Proof.
  destruct (config_set_then_get (lit "maxmemory") (lit "0100") (mkCfg None notify.no_notify (savecmd.NewSaveTracker [] true 0))
    (mkWorld (storage.empty_engine false 0) 0 [] 0) ltac:(prefix_in)) as (c' & w' & E & Hget).
  exists c', w'. split; [exact E|]. etransitivity; [apply Hget; prefix_in|]. vm_compute. reflexivity.
Defined.

End config_witness.
End server_spec.
